(* ===== verification/_CoqProject ===== *)
-Q . S2P
Prelude.v
Text.v
Backoff.v
Json.v
SagaDefinition.v
SagaStore.v
SagaOrchestrator.v
SagaLifecycle.v
SagaTheorems.v
SagaRuns.v
Bulkhead.v
Redlock.v
LockSession.v
Outbox.v
Idempotency.v
RefreshTokens.v
SchemaRegistry.v
SchemaTheorems.v
AuditLog.v
Orders.v
Payments.v
Checkout.v
Broker.v
Consumer.v
Streaming.v
Tenancy.v
Realtime.v
Crypto.v
KeyCache.v
EntityTag.v
Users.v
HttpClient.v
Notifications.v
Storage.v
DiskStorage.v
Redaction.v
TenantIsolation.v
Encoding.v
Listing.v
ResponseCache.v
PeerIdentity.v
KeyMaterial.v
Csv.v
WorkerPort.v
InlinePool.v
ThreadPool.v
WorkerPools.v
RowLock.v
Immutable.v
CacheKey.v
CacheFlight.v
Aspects.v
Weaver.v
S3Storage.v
PaypalPayments.v
StripePayments.v
