(* ===== verification/Prelude.v ===== *)
(** * Verification of boilerplate-nestjs-api

    A shallow embedding of the parts of the service that carry its guarantees:
    long-running sagas, the transactional outbox, request idempotency, locks,
    refresh-token rotation, event contracts, the audit log, the checkout with
    its participants and payments, messaging, field encryption, accounts and
    their versions, outbound calls, notifications, file storage, log redaction,
    tenants, listings, the response cache, mutual TLS, the worker pool,
    immutable values and the aspects woven around methods.  Paths below are
    under [src/src].

    ** The program and its files

    - [common/backoff], [messaging/retry-ladder.ts]: how long to wait before an
      attempt, and the in-process ladder of attempts - [Backoff].
    - [saga]: a saga is a list of steps [compensatable* pivot? retriable*]
      ([SagaDefinition]), its instance a row with a cursor, a status and a log,
      leased to one runner at a time ([SagaStore], the port as the class
      [SagaStore] with its laws [SagaStoreSpec], the Postgres adapter as an
      instance), driven step by step forward or back by the orchestrator and
      the recovery poll ([SagaOrchestrator]).  [SagaLifecycle] gives the
      transition system of all runners over one instance and its invariant;
      [SagaTheorems] has the properties of one runner and their concrete
      instances; [SagaRuns] runs [step] itself for any number of runners, with a
      record of the calls that participants saw, and has the properties of
      whole histories.
    - [common/bulkhead]: a counting semaphore with a bounded, timed queue -
      [Bulkhead].
    - [common/locking]: the Redlock scripts and rounds ([Redlock]); [withLock]
      with its renewal loop, and the in-process lock ([LockSession]); the
      statements of [row-lock.ts], how the server reads them, and its row locks
      over open transactions ([RowLock]).
    - [outbox], [events]: events staged with the business transaction, drained
      by relays under [FOR UPDATE SKIP LOCKED] - [Outbox].
    - [common/idempotency]: one execution per Idempotency-Key - [Idempotency].
    - [auth/prisma-refresh-token.store.ts] and the refresh half of
      [auth/auth.service.ts]: rotation, replay detection, sign-out, pruning -
      [RefreshTokens].
    - [schema-registry]: the JSON Schema profile, the compatibility checker,
      the registry and the contract over it ([SchemaRegistry], definitions;
      [SchemaTheorems], soundness and consequences).
    - [audit]: canonical encoding, hash chain, append and verifier -
      [AuditLog].
    - [orders/basket.ts], [orders/catalogue.ts], [orders/services]: baskets,
      prices, the in-process warehouse and carrier - [Orders].
    - [payments]: money in minor units and its decimal strings, refund rules,
      the in-memory gateway and the provider factory - [Payments]; the PayPal
      and Stripe gateways over the HTTP client - [PaypalPayments],
      [StripePayments].
    - [orders/checkout.saga.ts], [orders/write], [orders/prisma-order.store.ts]:
      the checkout as a saga definition over those participants, run by the
      modelled orchestrator, and the transaction that places an order -
      [Checkout].
    - [messaging/in-memory-broker.ts]: partitioned logs, consumer groups and
      the pump of each member - [Broker].
    - the rest of [messaging], [events]: the codec of domain events, the
      consumer with its ladder and dead letters, the bus - [Consumer].
    - [streaming]: the server-sent event stream, its replay ring, cursors and
      resume - [Streaming].
    - [realtime]: the WebSocket gateway, its handshake, rooms, registry and the
      send side of a connection - [Realtime].
    - [crypto]: encrypted columns, their additional data and envelope, the
      service and the local key provider behind the port ([Crypto]); the
      settings and the cache of data keys with its waiting callers and
      background refreshes ([KeyCache]).
    - [common/concurrency]: entity tags, [If-Match] and preconditions -
      [EntityTag].
    - [users], and registration in [auth/auth.service.ts]: every command and
      query as a program of database and cache statements between which others
      may run - [Users].
    - [common/http]: the resilient client over an interface for the transport,
      the breaker, the bulkhead and the clock - [HttpClient].
    - [notifications]: the dispatcher, the rule for preferences and the three
      channels with their reading of the providers' answers - [Notifications].
    - [storage]: keys, metadata, the port with its contract
      ([StorageContract]), the store in a map and the selection of an adapter
      ([Storage]); the adapter on the local disk as programs of file-system
      calls ([DiskStorage]); the one on S3 over the SDK's client ([S3Storage],
      with the documented behaviour of S3 as the class [S3Service]).
    - [logging]: the allowlist of field paths, the scrubber, the walk over a
      logged value in the heap and the processors of a line - [Redaction].
    - [tenancy]: the settings, how a request is resolved to a tenant, the scope
      it runs in, the guards and the check at boot ([Tenancy]); row-level
      security as the migration declares it, over pooled sessions
      ([TenantIsolation]).
    - [common/pagination], [common/dataloader], [orders/read]: base64url and
      UTF-8, cursors ([Encoding]); pages, loaders and views of orders and
      accounts ([Listing]).
    - [common/cache]: the response cache and its interceptors -
      [ResponseCache].
    - [common/mtls]: subject alternative names, the list of admitted peers and
      the guard ([PeerIdentity]); certificates, chains, rotation and the
      dispatchers that follow it ([KeyMaterial]).
    - [workers]: the port and its errors ([WorkerPort]), the pool on the event
      loop ([InlinePool]), the one over Piscina's threads ([ThreadPool]), both
      side by side ([WorkerPools]), and the CSV task ([Csv]).
    - [common/immutable]: freezing over a heap with sharing and cycles, and the
      updates that copy only what changes - [Immutable].
    - [common/aspects]: keys derived from a call ([CacheKey]), concurrent calls
      of a cached method ([CacheFlight]), retries and timing ([Aspects]), and
      the weaver that installs the chains at boot ([Weaver]).

    [Prelude] (this file) has JavaScript text, the effect monad, list, string
    and map lemmas, the hint database [service] and the tactic [splits];
    [Text] has decimal digits as they are printed and read; [Json] has JSON
    values.

    ** How the code is modelled

    Pure functions are Gallina functions with the source's names.  Fallible
    code returns a sum whose left side is what is thrown.  Code that reads a
    clock, draws a random number or calls a port runs in [Eff], a state and
    error monad whose state survives a throw.  Where several processes share
    state - runners, relays, requests, presentations, lock clients - the model
    is a state record and an [event] function (or an inductive step relation
    for sagas, the outbox and the bulkhead): one event is one atomic command
    of the shared store, and a theorem quantifies over every sequence of
    events.  Database rows are stdpp maps by primary key; [FOR UPDATE] and
    advisory locks are explicit.  A JavaScript string that is only compared is
    a [string]; one that is measured or encoded is [JSText], its UTF-16 code
    units.  Timestamps are integers of milliseconds, and a double that only
    holds integers is a [Z].

    Third-party code is a parameter: Ajv ([ProfileValidator], with a reference
    instance), Piscina, the AWS SDK, Nest's discovery of providers, SHA-256, [JSON.stringify] of scalars, [toISOString], broker
    publication, step participants, and Postgres' [jsonb] round trip, each with
    its documented behaviour as a named hypothesis where a theorem needs it and
    a concrete instance in the witness.

    ** What the theorems show

    - Sagas: once a pivot has answered no participant is asked to compensate, a
      compensated saga was undone completely and in reverse, a completed one ran every step, a reachable
      one can always be resumed within the specification [step_spec], [drive]
      settles within its bound, leases exclude and stale saves are refused,
      recovery is oldest first, [defineSaga] accepts exactly the coherent
      definitions.
    - Locks: Redlock's mutual exclusion under bounded clock drift, for handles
      that extend by the TTL they were acquired with and have not failed to, and
      its fencing between attempts that do not overlap; the in-process lock
      excludes and answers; [withLock] reports success only for an operation
      that was covered throughout, and over Redlock never reports success.
    - Outbox: no event is lost, as the broker's acknowledgements show, a duplicate is the price of a rollback,
      concurrent drains are disjoint, final rows stay, a drain settles its
      batch.
    - Idempotency: single flight and replay while the store holds values it can
      read, agreement of the two stores on every sequence of calls, fingerprints insensitive to member order.
    - Refresh tokens: single use, one live token per family, a replay revokes,
      a revocation is final.
    - Event contracts: the checker is sound in each direction, a booted service
      reads its whole history, the shipped catalogue boots.
    - Audit log: every committed log verifies, paging is irrelevant, a head
      hash pins the history up to a SHA-256 collision.
    - Orders: a priced basket charges for exactly what was ordered, the
      warehouse neither loses nor oversells stock, and repeating a call of a
      participant changes nothing.
    - Checkout: whatever fails and whoever drives, if no step takes effect after
      its timeout and nobody else touches the order, a finished checkout has
      charged, shipped and confirmed, or has given everything back; an order,
      its saga and its event are placed together.
    - Payments: a decimal string denotes the money it was printed from; the
      gateway never refunds more than it captured; a refund through PayPal or
      Stripe is posted once, for no more than the payment just read still holds,
      and through PayPal against the capture and in the currency of the order.
    - Messaging: a committed offset means every message before it was handled;
      no wake-up is lost; one key keeps its order and one partition has one
      holder; an event survives the wire; an offset moves only past a message
      that was handled or copied to the dead-letter topic.
    - Streaming: a client that reconnects with the id of its last frame sees
      every event it may see exactly once, or is told that it cannot; a cursor
      means what it was issued as; slots are never leaked.
    - Realtime: rooms and connections agree, an event is offered once to each
      connection it concerns and only to accounts that may see it; every frame
      meant for an open connection was written, reported as missed or is about
      to be, and its buffer is bounded but for the protocol's own frames.
    - Bulkhead and backoff: bounds, fairness, no lost caller, one release per
      permit; the ladder settles and sleeps no longer than its worst case.
    - Encryption: a value decrypts to itself, and only under the column and the
      record it was encrypted for; a data key is used no more often than its
      budget allows beyond the callers that waited for it.
    - Accounts: an update made on a version tag never overwrites a change it
      had not seen, preferences included; every account is announced and
      recorded once; rows keep their shape.
    - Outbound calls: a call answers within its deadline and its attempts, and
      one that may not be repeated is sent once.
    - Notifications: every registered channel is judged exactly once, and used
      only where the preferences allow.
    - Storage: the disk answers as the map does; a [put] leaves the old body or
      the new one under faults and crashes; following the cursors lists each key once; the S3
      adapter answers as the port says and lists every key.
    - Redaction: a value that no pattern of the allowlist admits has no
      influence on the line that is written; the walk fails closed.
    - Tenants: whatever the other tenants store and do, a tenant's statements
      have the same results; a request runs in the scope it was resolved to.
    - Listings: following the cursors of the order listing shows each order
      once, in order, also while new orders arrive.
    - Mutual TLS: a peer is admitted exactly if its certificate carries a listed
      identity; all that is presented was read whole and checked, and the server
      and the dispatchers follow a rotation that is found once they subscribed.
    - Worker pool: no accepted call is lost, calls are answered in turn, and the
      backlog is bounded; a CSV document reads back as the table it was made of.
    - Row locks: the text that is sent reads as the query that is meant,
      whatever the names and keys, and transactions that take their tables, and
      the rows of a table by one indexed column, in one order never deadlock.
    - Immutable values: [deepFreeze] freezes exactly the graph of its argument,
      cycles included, and an update shares what it does not change.
    - Aspects: a key names one call up to the order of members; at most one
      call of a key is in flight, and every answer is that of a call; a retried
      method is called within its attempts and sleeps within its ceiling; the
      weaver wraps exactly the decorated methods of singletons, once, in the
      fixed order, and boots with no lock left out that it was asked for.

    ** Fuel and bounds

    [drive_loop] has the bound the source's loop has.  [ladder_loop] recurses
    on the attempts that are left.  The waiting loops of [acquire] have a turn for
    each millisecond of the wait budget, and a sleep takes at least one.  [verify_loop] runs as
    often as the table has entries, and once more: a page before the last is
    full, so each turn advances; [verify_loop_once] proves that it is enough.
    [request_loop] has a turn for each attempt of its ladder.  [walk] descends
    at most [walkDepth] directories, and no accepted key has more segments
    ([plain_depth]); [pruneEmptyParents] turns once for each name below the
    root.  [redactValue] descends [walkFuel] levels, one more than the depth at
    which it stops ([redact_fuel]).  [parse_entries] and [pem_blocks] have a turn
    for each character, and every turn consumes one; [chain_loop] has the bound
    of the source; [follow] asks for one page per state of the table, and
    [orders_listed_once] proves that the pages suffice.
    [freezeInto] and [checkFrozen] have a unit for each object of the heap, and
    every call marks one it had not seen ([freezeInto_spec]).  [retry_loop]
    recurses on the attempts that are left.  All other recursion is structural.

    ** What is not modelled

    Nest's container and modules, log lines, metrics and tracing: they are calls
    of libraries and keep no state of their own.  The configuration schema is a
    declaration in Zod's terms; its checks that cross several settings are
    modelled with the component they belong to.  HTTP controllers and DTOs, of
    which only the cached routes are here.  Adapters that only call a client
    library (Kafka, KMS, SMTP): what they promise is the port, and their
    behaviour is the remote service's.  Doubles are exact
    rationals or integers, so rounding and overflow of a double are out of
    reach.  A step that outlives its timeout goes on beside the orchestrator and
    takes effect when it likes ([env_leave]).  [Checkout] has one tenant; [TenantIsolation] shows what its recovery
    lacks under row-level security. *)

From stdpp Require Export base gmap strings list fin_maps sets pretty sorting.
From Stdlib Require Export ZArith Lia.

#[global] Open Scope Z_scope.

(** ** JavaScript text *)

(** A JavaScript string is a sequence of UTF-16 code units.  Identifiers that
    are only compared or concatenated are plain [string]s; text whose length
    is measured in code units is a [JSText]. *)
Definition JSText : Type := list N.

Definition js (s : string) : JSText := Ascii.N_of_ascii <$> String.list_ascii_of_string s.

Definition MAX_SAFE_INTEGER : Z := 9007199254740991.

(** The double quote, which error messages put around names. *)
Definition dq : string := String (Ascii.ascii_of_nat 34) EmptyString.

(** U+2026, the single code unit an over-long diagnostic ends with. *)
Definition ellipsis : JSText := [8230%N].

(** [truncate(message, limit = 500)]. *)
Definition truncate (message : JSText) : JSText :=
  if decide (length message <= 500)%nat then message else take 499 message ++ ellipsis.

(** [l.join(sep)] *)
Fixpoint join (sep : JSText) (l : list JSText) : JSText :=
  match l with
  | [] => []
  | [x] => x
  | x :: l => x ++ sep ++ join sep l
  end.

(** [s.padStart(width, "0")] *)
Fixpoint zeros (n : nat) : string := match n with O => ""%string | S n => ("0" +:+ zeros n)%string end.
Definition padStart (width : nat) (s : string) : string := zeros (width - String.length s) +:+ s.

(** ** Effects *)

(** A computation over a world [W] that either throws an [E] or returns an
    [A]; the world it leaves behind survives a throw, as it does in
    JavaScript. *)
Definition Eff (W E A : Type) : Type := W -> (E + A) * W.

Definition ret {W E A} (a : A) : Eff W E A := fun w => (inr a, w).

Definition bind {W E A B} (m : Eff W E A) (f : A -> Eff W E B) : Eff W E B := fun w =>
  match m w with
  | (inl e, w') => (inl e, w')
  | (inr a, w') => f a w'
  end.

(** Reading the world, and changing it. *)
Definition reads {W E A} (f : W -> A) : Eff W E A := fun w => (inr (f w), w).
Definition modify {W E} (f : W -> W) : Eff W E unit := fun w => (inr tt, f w).

Declare Scope eff_scope.
Delimit Scope eff_scope with eff.
Notation "'let!' x := c 'in' k" := (bind c (fun x => k))
  (at level 10, x binder, c at level 200, k at level 200) : eff_scope.
Notation "'do!' c 'in' k" := (bind c (fun _ => k))
  (at level 10, c at level 200, k at level 200) : eff_scope.
#[global] Open Scope eff_scope.

Definition throw {W E A} (e : E) : Eff W E A := fun w => (inl e, w).

(** [try { m } catch (e) { h(e) }] *)
Definition try_catch {W E E' A} (m : Eff W E A) (h : E -> Eff W E' A) : Eff W E' A := fun w =>
  match m w with
  | (inl e, w') => h e w'
  | (inr a, w') => (inr a, w')
  end.

(** A computation that runs [m] and hands its outcome on as a value. *)
Definition attempt {W E E' A} (m : Eff W E A) : Eff W E' (E + A) := fun w =>
  let '(r, w') := m w in (inr r, w').

Lemma bind_inr {W E A B} (f : A -> Eff W E B) (m : Eff W E A) w b w' :
  bind m f w = (inr b, w') <-> exists a w1, m w = (inr a, w1) /\ f a w1 = (inr b, w').
Proof.
  unfold bind. destruct (m w) as [[e|a] w1]; split.
  - done.
  - by intros (? & ? & ? & ?).
  - eauto.
  - by intros (? & ? & [= -> ->] & ?).
Qed.

(** ** Lists *)

Lemma js_inj s t : js s = js t -> s = t.
Proof.
  unfold js. intros H. rewrite <-(String.string_of_list_ascii_of_string s), <-(String.string_of_list_ascii_of_string t). f_equal.
  assert (Inj eq eq Ascii.N_of_ascii) as Hinj.
  { intros a b Hab. rewrite <-(Ascii.ascii_N_embedding a), <-(Ascii.ascii_N_embedding b). by f_equal. }
  by apply (inj (fmap Ascii.N_of_ascii)) in H.
Qed.

Lemma length_truncate m : (length (truncate m) <= 500)%nat.
Proof.
  unfold truncate. case_decide; [done|].
  rewrite length_app, length_take. change (length ellipsis) with 1%nat. lia.
Qed.

Lemma truncate_short m : (length m <= 500)%nat -> truncate m = m.
Proof. intros H. unfold truncate. by rewrite decide_True. Qed.

Lemma truncate_idem m : truncate (truncate m) = truncate m.
Proof. apply truncate_short, length_truncate. Qed.

(** A prefix of a sorted list holds its least elements. *)
Lemma StronglySorted_take_drop {A} (R : relation A) n l x y :
  StronglySorted R l -> x ∈ take n l -> y ∈ drop n l -> R x y.
Proof.
  intros Hs. revert n. induction Hs as [|a l Hs IH Ha]; intros [|n]; simpl; [set_solver..|].
  rewrite elem_of_cons. intros [->|Hx] Hy; [|by eapply IH].
  rewrite Forall_forall in Ha. apply Ha. rewrite <-(take_drop n l). set_solver.
Qed.

Lemma Sorted_weaken {A} (R S : relation A) l :
  (forall x y, R x y -> S x y) -> Sorted R l -> Sorted S l.
Proof.
  intros HRS. induction 1 as [|a l Hs IH Hhd]; constructor; [done|].
  destruct Hhd; constructor; auto.
Qed.

Lemma filter_suffix {A} (P : A -> Prop) `{!forall x, Decision (P x)} l k :
  Forall (fun x => ~ P x) l -> Forall P k -> filter P (l ++ k) = k.
Proof.
  intros Hl Hk. induction Hl as [|x l Hx Hl IH]; simpl.
  - induction Hk as [|x k Hx Hk IH]; [done|]. rewrite filter_cons_True by done. by rewrite IH.
  - rewrite filter_cons_False by done. done.
Qed.

(** ** Strings *)

(** [String.leb] compares character codes, one after the other. *)
Lemma string_leb_trans (r s t : string) : String.leb r s = true -> String.leb s t = true -> String.leb r t = true.
Proof.
  revert s t. induction r as [|a r IH]; intros [|b s] [|c t]; try done.
  unfold String.leb. simpl. unfold Ascii.compare.
  destruct (N.compare_spec (Ascii.N_of_ascii a) (Ascii.N_of_ascii b)) as [H1|H1|H1];
    destruct (N.compare_spec (Ascii.N_of_ascii b) (Ascii.N_of_ascii c)) as [H2|H2|H2];
    destruct (N.compare_spec (Ascii.N_of_ascii a) (Ascii.N_of_ascii c)) as [H3|H3|H3]; try done; try lia.
  apply IH.
Qed.

(** ** Maps *)

(** The view of a table whose records carry their own key. *)
Lemma lookup_view {A B} (f : string -> A -> B) (m : gmap string A) i :
  map_imap (fun k a => Some (f k a)) m !! i = f i <$> m !! i.
Proof. rewrite map_lookup_imap. by destruct (m !! i). Qed.

Lemma view_insert {A B} (f : string -> A -> B) (m : gmap string A) i a :
  map_imap (fun k a => Some (f k a)) (<[i := a]> m) =
  <[i := f i a]> (map_imap (fun k a => Some (f k a)) m).
Proof.
  apply map_eq. intros j. rewrite lookup_view, !lookup_insert. case_decide; simplify_eq/=; [done|].
  by rewrite lookup_view.
Qed.

(** How many entries of a map satisfy a test. *)
Definition map_count {K A} `{Countable K} (P : K -> A -> bool) (m : gmap K A) : nat :=
  size (filter (fun kv => P kv.1 kv.2 = true) m).

Section map_count.
Context {K A : Type} `{Countable K} (P : K -> A -> bool).
Implicit Types m : gmap K A.

Lemma map_count_empty : map_count P (∅ : gmap K A) = 0%nat.
Proof. unfold map_count. by rewrite map_filter_empty, map_size_empty. Qed.

Lemma map_count_fresh m k x : m !! k = None -> map_count P (<[k := x]> m) = (Nat.b2n (P k x) + map_count P m)%nat.
Proof.
  intros Hk. unfold map_count. destruct (P k x) eqn:HP.
  - rewrite map_filter_insert_True by done. apply map_size_insert_None, map_lookup_filter_None. by left.
  - rewrite map_filter_insert_False by (simpl; congruence). by rewrite delete_id.
Qed.

Lemma map_count_delete m k x : m !! k = Some x -> (Nat.b2n (P k x) + map_count P (delete k m))%nat = map_count P m.
Proof.
  intros Hk. rewrite <-(insert_delete_id m k x Hk) at 2. rewrite map_count_fresh; [done|]. apply lookup_delete_eq.
Qed.

Lemma map_count_update m k x y : m !! k = Some x ->
  (Nat.b2n (P k x) + map_count P (<[k := y]> m))%nat = (Nat.b2n (P k y) + map_count P m)%nat.
Proof.
  intros Hk. rewrite <-(map_count_delete m k x Hk), <-insert_delete_eq, map_count_fresh by apply lookup_delete_eq. lia.
Qed.

Lemma map_count_insert_le m k y : P k y = false -> (map_count P (<[k := y]> m) <= map_count P m)%nat.
Proof.
  intros Hy. destruct (m !! k) as [x|] eqn:Hk.
  - pose proof (map_count_update m k x y Hk). rewrite Hy in *. simpl in *. lia.
  - rewrite map_count_fresh, Hy; done.
Qed.

Lemma map_count_mono m m' : m ⊆ m' -> (map_count P m <= map_count P m')%nat.
Proof. intros Hs. apply map_subseteq_size, map_filter_subseteq_mono. done. Qed.

Lemma map_count_zero m : (forall k x, m !! k = Some x -> P k x = false) -> map_count P m = 0%nat.
Proof.
  intros Hm. unfold map_count. apply map_size_empty_iff, map_empty. intros k. apply map_lookup_filter_None. right.
  intros x Hx. simpl. rewrite (Hm k x Hx). done.
Qed.

Lemma map_count_pos m k x : m !! k = Some x -> P k x = true -> (1 <= map_count P m)%nat.
Proof. intros Hk HP. rewrite <-(map_count_delete m k x Hk), HP. simpl. lia. Qed.

End map_count.

(** [SELECT ... WHERE P ORDER BY R LIMIT limit] over a table. *)
Section first_rows.
Context {A : Type} (P : string * A -> Prop) `{!forall x, Decision (P x)}.
Context (R : relation (string * A)) `{!RelDecision R, !Total R}.

Definition first_rows (limit : nat) (t : gmap string A) : list (string * A) :=
  take limit (merge_sort R (filter P (map_to_list t))).

Lemma first_rows_split limit t :
  exists rest, Sorted R (first_rows limit t ++ rest) /\ first_rows limit t = take limit (first_rows limit t ++ rest) /\
    first_rows limit t ++ rest ≡ₚ filter P (map_to_list t).
Proof.
  unfold first_rows. set (l := merge_sort R _). exists (drop limit l). rewrite take_drop.
  split_and!; [apply (Sorted_merge_sort R)|done|apply merge_sort_Permutation].
Qed.

Lemma elem_of_first_rows limit t id a : (id, a) ∈ first_rows limit t -> t !! id = Some a /\ P (id, a).
Proof.
  intros Hin. destruct (first_rows_split limit t) as (rest & _ & _ & Hp).
  assert ((id, a) ∈ first_rows limit t ++ rest) as Hin' by set_solver.
  rewrite Hp in Hin'. apply list_elem_of_filter in Hin' as [? Hin'%elem_of_map_to_list]. done.
Qed.

Lemma first_rows_NoDup limit t : NoDup (first_rows limit t).*1.
Proof.
  destruct (first_rows_split limit t) as (rest & _ & _ & Hp).
  assert (NoDup (first_rows limit t ++ rest).*1) as Hnd.
  { rewrite Hp. eapply sublist_NoDup; [apply (NoDup_fst_map_to_list t)|]. apply fmap_sublist, sublist_filter. }
  rewrite fmap_app in Hnd. by apply NoDup_app in Hnd as [? _].
Qed.

Lemma first_rows_length limit t : (length (first_rows limit t) <= limit)%nat.
Proof. unfold first_rows. rewrite length_take. lia. Qed.

(** A row that qualifies was taken, or the limit was reached with rows that
    come before it. *)
Lemma first_rows_least (S : relation (string * A)) limit t id a :
  Transitive S -> (forall x y, R x y -> S x y) -> t !! id = Some a -> P (id, a) ->
  (id, a) ∈ first_rows limit t \/
  length (first_rows limit t) = limit /\ forall x, x ∈ first_rows limit t -> S x (id, a).
Proof.
  intros HS HRS Ha HP. destruct (first_rows_split limit t) as (rest & Hs & Heq & Hp).
  assert ((id, a) ∈ first_rows limit t ++ rest) as Hin.
  { rewrite Hp. apply list_elem_of_filter. split; [done|]. by apply elem_of_map_to_list. }
  apply elem_of_app in Hin as [?|Hin]; [by left|]. right. split.
  - apply (f_equal length) in Heq. rewrite length_take, length_app in Heq.
    destruct rest; [by apply not_elem_of_nil in Hin|]. simpl in Heq. lia.
  - intros x Hx. apply (Sorted_weaken R S _ HRS), Sorted_StronglySorted in Hs; [|done].
    eapply (StronglySorted_take_drop _ (length (first_rows limit t)) _ x (id, a) Hs).
    + by rewrite take_app_length.
    + by rewrite drop_app_length.
Qed.

End first_rows.

(** ** Automation *)

Create HintDb service.
Create Rewrite HintDb service.
#[export] Hint Resolve length_truncate : service.

(** Split every [if decide _] and [match] of the goal, clearing the
    contradictory branches. *)
Ltac splits := repeat (case_decide || case_match); simplify_eq/=; try done.
