(* ===== verification/Text.v ===== *)
(** * Text: decimal digits as JavaScript prints and reads them *)

From S2P Require Import Prelude.

Definition code (c : Ascii.ascii) : N := Ascii.N_of_ascii c.

Definition isDigit (c : Ascii.ascii) : bool := bool_decide (48 <= code c <= 57)%N.

Definition zero : Ascii.ascii := Ascii.ascii_of_N 48.

(** [Number(digits)] before rounding.  A value above [MAX_SAFE_INTEGER] rounds
    to one above it and a smaller one is exact, so a check against that bound
    does not see the difference. *)
Definition decimal (cs : list Ascii.ascii) : Z :=
  foldl (fun acc c => acc * 10 + (Z.of_N (code c) - 48)) 0 cs.

Abbreviation chars := String.list_ascii_of_string.

Lemma chars_app s t : chars (s +:+ t) = chars s ++ chars t.
Proof. induction s as [|c s IH]; [done|]. simpl. by f_equal. Qed.

Lemma length_chars s : length (chars s) = String.length s.
Proof. induction s as [|c s IH]; [done|]. simpl. by f_equal. Qed.

Lemma chars_zeros n : chars (zeros n) = replicate n zero.
Proof. induction n as [|n IH]; [done|]. simpl. by f_equal. Qed.

Lemma decimal_app ds es : decimal (ds ++ es) = decimal ds * 10 ^ Z.of_nat (length es) + decimal es.
Proof.
  unfold decimal. rewrite foldl_app. generalize (foldl (fun acc c => acc * 10 + (Z.of_N (code c) - 48)) 0 ds) as a.
  intros a. revert a. induction es as [|c es IH]; intros a; [simpl; lia|].
  change (length (c :: es)) with (S (length es)). cbn [foldl].
  rewrite IH, (IH (0 * 10 + _)), Nat2Z.inj_succ, Z.pow_succ_r by lia. lia.
Qed.

Lemma decimal_cons c ds : decimal (c :: ds) = (Z.of_N (code c) - 48) * 10 ^ Z.of_nat (length ds) + decimal ds.
Proof. apply (decimal_app [c] ds). Qed.

Lemma decimal_zeros n ds : decimal (replicate n zero ++ ds) = decimal ds.
Proof. induction n as [|n IH]; [done|]. simpl. rewrite decimal_cons, IH. done. Qed.

Definition digits_ok (cs : list Ascii.ascii) : Prop := Forall (fun c => isDigit c = true) cs.

Lemma digits_zeros n : digits_ok (replicate n zero).
Proof. apply Forall_replicate. done. Qed.

(** The digit of a number below ten. *)
Lemma pretty_digit d : (d < 10)%N -> isDigit (pretty_N_char d) = true /\ Z.of_N (code (pretty_N_char d)) - 48 = Z.of_N d.
Proof.
  intros Hd. assert (d = 0 \/ d = 1 \/ d = 2 \/ d = 3 \/ d = 4 \/ d = 5 \/ d = 6 \/ d = 7 \/ d = 8 \/ d = 9)%N as H by lia.
  repeat (destruct H as [->|H]; [by split|]). by subst.
Qed.

Lemma pretty_go_decimal x s :
  digits_ok (chars s) ->
  digits_ok (chars (pretty_N_go x s)) /\
  decimal (chars (pretty_N_go x s)) = Z.of_N x * 10 ^ Z.of_nat (String.length s) + decimal (chars s).
Proof.
  revert s. induction (N.lt_wf_0 x) as [x _ IH]. intros s Hs. destruct (decide (x = 0%N)) as [->|Hx].
  - rewrite pretty_N_go_0. split; [done|lia].
  - rewrite pretty_N_go_step by lia.
    assert (x mod 10 < 10)%N as Hm by (apply N.mod_lt; lia). destruct (pretty_digit _ Hm) as [Hd Hv].
    assert (x / 10 < x)%N as Hlt by (apply N.div_lt; lia).
    destruct (IH _ Hlt (String (pretty_N_char (x mod 10)) s)) as [H1 H2]; [by constructor|]. split; [done|].
    rewrite H2. cbn [chars String.length]. rewrite decimal_cons, Hv, length_chars, Nat2Z.inj_succ, Z.pow_succ_r by lia.
    assert (Z.of_N x = 10 * Z.of_N (x / 10) + Z.of_N (x mod 10)) as ->; [|lia].
    rewrite (N.div_mod x 10) at 1 by lia. rewrite N2Z.inj_add, N2Z.inj_mul. done.
Qed.

Lemma pretty_decimal z : 0 <= z ->
  digits_ok (chars (pretty z)) /\ decimal (chars (pretty z)) = z /\ chars (pretty z) <> [].
Proof.
  intros Hz. destruct z as [|x|x]; [|change (pretty (Z.pos x)) with (pretty (N.pos x))|lia].
  - split_and!; [by repeat constructor|done|done].
  - unfold pretty, pretty_N. rewrite decide_False by done. destruct (pretty_go_decimal (N.pos x) "") as [H1 H2]; [constructor|].
    split; [done|]. change (_ * _ + _) with (Z.pos x * 1 + 0) in H2.
    split; [rewrite H2; lia|]. intros Hnil. rewrite Hnil in H2. change (decimal []) with 0 in H2. lia.
Qed.

Lemma padStart_decimal w s :
  digits_ok (chars s) -> digits_ok (chars (padStart w s)) /\ decimal (chars (padStart w s)) = decimal (chars s) /\
  (w <= length (chars (padStart w s)))%nat.
Proof.
  intros Hs. unfold padStart. rewrite chars_app, chars_zeros, decimal_zeros, length_app, length_replicate, length_chars.
  split_and!; [by apply Forall_app_2; [apply digits_zeros|]|done|lia].
Qed.

Lemma pretty_nat_decimal (n : nat) : digits_ok (chars (pretty n)) /\ decimal (chars (pretty n)) = Z.of_nat n.
Proof.
  change (pretty n) with (pretty (N.of_nat n)). assert (pretty (N.of_nat n) = pretty (Z.of_nat n)) as -> by (by destruct n).
  destruct (pretty_decimal (Z.of_nat n)) as (Hd & Hv & _); [lia|done].
Qed.

(** ** White space *)

(** What [trim] drops and [\s] matches: the ECMAScript white space and line
    terminators. *)
Definition isWhitespace (c : N) : bool :=
  bool_decide (9 <= c <= 13)%N || bool_decide (8192 <= c <= 8202)%N ||
  bool_decide (c ∈ [32; 160; 5760; 8232; 8233; 8239; 8287; 12288; 65279]%N).

Fixpoint dropWhitespace (t : JSText) : JSText :=
  match t with
  | c :: rest => if isWhitespace c then dropWhitespace rest else t
  | [] => []
  end.

Definition trimText (t : JSText) : JSText := reverse (dropWhitespace (reverse (dropWhitespace t))).

Lemma dropWhitespace_none t : Forall (fun c => isWhitespace c = false) t -> dropWhitespace t = t.
Proof. intros H. destruct H as [|c t Hc _]; [done|]. simpl. by rewrite Hc. Qed.

Lemma trimText_none t : Forall (fun c => isWhitespace c = false) t -> trimText t = t.
Proof.
  intros H. unfold trimText. rewrite (dropWhitespace_none t) by done.
  rewrite dropWhitespace_none by (by apply Forall_reverse). apply reverse_involutive.
Qed.

(** ** Numbers in text *)

Definition toText (t : JSText) : list Ascii.ascii := Ascii.ascii_of_N <$> t.

Definition isDigitUnit (c : N) : bool := bool_decide (48 <= c <= 57)%N.

Definition allDigits (t : JSText) : bool := forallb isDigitUnit t.

Lemma toText_js s : toText (js s) = chars s.
Proof.
  unfold toText, js. rewrite <-list_fmap_compose. rewrite <-(list_fmap_id (chars s)) at 2.
  apply list_fmap_ext. intros _ c _. apply Ascii.ascii_N_embedding.
Qed.

Lemma allDigits_js s : digits_ok (chars s) -> allDigits (js s) = true.
Proof.
  unfold js, allDigits. intros H. induction H as [|c cs Hc H IH]; [done|].
  cbn [fmap list_fmap forallb]. rewrite IH, andb_true_r. exact Hc.
Qed.

Lemma allDigits_Forall t : allDigits t = true <-> Forall (fun c => 48 <= c <= 57)%N t.
Proof.
  unfold allDigits, isDigitUnit. rewrite forallb_forall, Forall_forall. split; intros H c Hc.
  - apply list_elem_of_In, H, bool_decide_eq_true in Hc. done.
  - apply bool_decide_eq_true. apply H. by apply list_elem_of_In.
Qed.

Lemma digit_not_whitespace c : (48 <= c <= 57)%N -> isWhitespace c = false.
Proof.
  intros H. unfold isWhitespace. rewrite !orb_false_iff, !bool_decide_eq_false.
  split_and!; [lia|lia|]. rewrite !elem_of_cons, elem_of_nil. lia.
Qed.

(** ** Decimal notation is canonical *)

Lemma isDigit_range c : isDigit c = true -> (48 <= code c <= 57)%N.
Proof. unfold isDigit. by intros ?%bool_decide_eq_true. Qed.

Lemma decimal_bound ds : digits_ok ds -> 0 <= decimal ds < 10 ^ Z.of_nat (length ds).
Proof.
  induction 1 as [|c ds Hc _ IH]; [by split|]. apply isDigit_range in Hc.
  rewrite decimal_cons. cbn [length]. rewrite Nat2Z.inj_succ, Z.pow_succ_r by lia. nia.
Qed.

Lemma code_inj c d : code c = code d -> c = d.
Proof. unfold code. intros H. by rewrite <-(Ascii.ascii_N_embedding c), H, Ascii.ascii_N_embedding. Qed.

Lemma decimal_inj ds es :
  digits_ok ds -> digits_ok es -> length ds = length es -> decimal ds = decimal es -> ds = es.
Proof.
  intros Hd. revert es. induction Hd as [|c ds Hc Hd IH]; intros [|e es] He Hl Hv; [done..|].
  apply Forall_cons in He as [Hce He]. injection Hl as Hl. rewrite !decimal_cons, Hl in Hv.
  pose proof (decimal_bound _ Hd). pose proof (decimal_bound _ He). rewrite Hl in *.
  apply isDigit_range in Hc, Hce. assert (Z.of_N (code c) = Z.of_N (code e)) as Hcode by nia.
  f_equal; [apply code_inj; lia|]. apply IH; [done|done|]. rewrite Hcode in Hv. lia.
Qed.

(** A digit string without a leading zero. *)
Definition canonical (ds : list Ascii.ascii) : Prop :=
  digits_ok ds /\ exists d rest, ds = d :: rest /\ (48 < code d)%N.

Lemma canonical_length ds : canonical ds -> 10 ^ (Z.of_nat (length ds) - 1) <= decimal ds < 10 ^ Z.of_nat (length ds).
Proof.
  intros [Hd (d & rest & -> & Hz)]. split; [|by apply decimal_bound]. apply Forall_cons in Hd as [_ Hd].
  pose proof (decimal_bound _ Hd). rewrite decimal_cons. cbn [length]. rewrite Nat2Z.inj_succ.
  replace (Z.succ (Z.of_nat (length rest)) - 1) with (Z.of_nat (length rest)) by lia. nia.
Qed.

Lemma canonical_inj ds es : canonical ds -> canonical es -> decimal ds = decimal es -> ds = es.
Proof.
  intros Hd He Hv. apply decimal_inj; [by destruct Hd|by destruct He| |done].
  pose proof (canonical_length _ Hd) as [Hd1 Hd2]. pose proof (canonical_length _ He) as [He1 He2]. rewrite Hv in *.
  assert (0 <= Z.of_nat (length ds) - 1) by (destruct Hd as [_ (? & ? & -> & _)]; simpl; lia).
  assert (0 <= Z.of_nat (length es) - 1) by (destruct He as [_ (? & ? & -> & _)]; simpl; lia).
  assert (10 ^ (Z.of_nat (length ds) - 1) < 10 ^ Z.of_nat (length es)) as H1%Z.pow_lt_mono_r_iff by lia; [|lia..].
  assert (10 ^ (Z.of_nat (length es) - 1) < 10 ^ Z.of_nat (length ds)) as H2%Z.pow_lt_mono_r_iff by lia; lia.
Qed.

Lemma pretty_go_head x s :
  (0 < x)%N -> exists d rest, chars (pretty_N_go x s) = d :: rest /\ (48 < code d)%N.
Proof.
  revert s. induction (N.lt_wf_0 x) as [x _ IH]. intros s Hx. rewrite pretty_N_go_step by lia.
  destruct (decide (x < 10)%N) as [Hlt|Hge].
  - rewrite N.div_small, N.mod_small, pretty_N_go_0 by lia. eexists _, _. split; [done|].
    destruct (pretty_digit x) as [_ ?]; [done|lia].
  - apply IH; [apply N.div_lt; lia|]. apply N.div_str_pos. lia.
Qed.

Lemma pretty_canonical (n : nat) : n <> 0%nat -> canonical (chars (pretty n)).
Proof.
  intros Hn. split; [apply pretty_nat_decimal|]. change (pretty n) with (pretty (N.of_nat n)).
  unfold pretty, pretty_N. rewrite decide_False by lia. apply pretty_go_head. lia.
Qed.

Lemma js_toText t : Forall (fun c => c < 256)%N t -> Ascii.N_of_ascii <$> toText t = t.
Proof.
  unfold toText. rewrite <-list_fmap_compose. intros H. rewrite <-(list_fmap_id t) at 2.
  apply list_fmap_ext. intros i c Hc. rewrite Forall_lookup in H. apply Ascii.N_ascii_embedding. by eapply H.
Qed.

Lemma digits_toText t : allDigits t = true -> digits_ok (toText t).
Proof.
  rewrite allDigits_Forall. intros H. apply Forall_fmap. eapply Forall_impl; [exact H|]. intros c Hc.
  cbn beta in Hc. unfold compose, isDigit, code. rewrite Ascii.N_ascii_embedding by lia. by apply bool_decide_eq_true.
Qed.

(** ** UTF-8 *)

Definition high_surrogate (c : N) : bool := bool_decide (55296 <= c <= 56319)%N.
Definition low_surrogate (c : N) : bool := bool_decide (56320 <= c <= 57343)%N.

(** What a lone surrogate is written as. *)
Definition replacement : list N := [239; 191; 189]%N.

Definition utf8_char (c : N) : list N :=
  if decide (c < 128)%N then [c]
  else if decide (c < 2048)%N then [192 + c / 64; 128 + c mod 64]%N
  else if decide (c < 65536)%N then [224 + c / 4096; 128 + (c / 64) mod 64; 128 + c mod 64]%N
  else [240 + c / 262144; 128 + (c / 4096) mod 64; 128 + (c / 64) mod 64; 128 + c mod 64]%N.

(** [Buffer.from(s, "utf8")], from UTF-16 code units. *)
Fixpoint utf8 (s : JSText) : list N :=
  match s with
  | [] => []
  | c :: rest =>
      if high_surrogate c then
        match rest with
        | d :: rest' =>
            if low_surrogate d then utf8_char (65536 + (c - 55296) * 1024 + (d - 56320))%N ++ utf8 rest'
            else replacement ++ utf8 rest
        | [] => replacement
        end
      else if low_surrogate c then replacement ++ utf8 rest
      else utf8_char c ++ utf8 rest
  end.

Definition byteLength (s : JSText) : nat := length (utf8 s).

Definition ascii_text (s : list N) : Prop := Forall (fun c => c < 128)%N s.
Definition ascii_start (s : list N) : Prop := match s with [] => True | c :: _ => (c < 128)%N end.

Lemma ascii_text_dec s : forallb (fun c => N.ltb c 128) s = true -> ascii_text s.
Proof. rewrite forallb_forall. intros H. apply Forall_forall. intros c Hc%list_elem_of_In%H. by apply N.ltb_lt. Qed.

Lemma not_surrogate c : (c < 128)%N -> high_surrogate c = false /\ low_surrogate c = false.
Proof. intros. unfold high_surrogate, low_surrogate. rewrite !bool_decide_eq_false_2 by lia. done. Qed.

Lemma utf8_ascii_app a b : ascii_text a -> utf8 (a ++ b) = a ++ utf8 b.
Proof.
  induction 1 as [|c a Hc Ha IH]; simpl; [done|]. destruct (not_surrogate c Hc) as [-> ->].
  unfold utf8_char. rewrite decide_True by done. by rewrite IH.
Qed.

Lemma utf8_ascii a : ascii_text a -> utf8 a = a.
Proof. intros Ha. rewrite <-(app_nil_r a) at 1. rewrite utf8_ascii_app by done. apply app_nil_r. Qed.

Lemma utf8_app v b : ascii_start b -> utf8 (v ++ b) = utf8 v ++ utf8 b.
Proof.
  intros Hb. remember (length v) as n eqn:Hn. revert v Hn. induction (Nat.lt_wf_0 n) as [n _ IH]. intros v ->.
  destruct v as [|c v]; simpl; [done|].
  assert (utf8 (v ++ b) = utf8 v ++ utf8 b) as Hv by (eapply IH; [|done]; simpl; lia).
  destruct (high_surrogate c).
  - destruct v as [|d v]; simpl in *.
    + destruct b as [|d b]; simpl in *; [done|]. by destruct (not_surrogate d Hb) as [_ ->].
    + destruct (low_surrogate d); [|by simpl; rewrite Hv].
      rewrite (IH (length v)) with (v := v); [by rewrite app_assoc|simpl; lia|done].
  - destruct (low_surrogate c); [by simpl; rewrite Hv|by rewrite Hv, app_assoc].
Qed.
