(* ===== verification/Backoff.v ===== *)
(** * Backoff: the full-jitter retry ladder

    [src/src/common/backoff/backoff.ts] and the ladder that runs it inside one
    handler call, [src/src/messaging/retry-ladder.ts]. *)

From S2P Require Import Prelude.

(** ** The policy and its delays *)

Record BackoffPolicy := {
  baseMs : Z;
  maxMs : Z;
  maxAttempts : Z;
}.

(** A value of [random()], as the fraction it is. *)
Record Draw := { draw_num : Z; draw_den : Z }.

Definition valid_draw (d : Draw) : Prop := 0 <= draw_num d < draw_den d.

(** [2 ** e] as a fraction: the exponent is [-1] when no attempt was made. *)
Definition pow2_num (e : Z) : Z := 2 ^ Z.max e 0.
Definition pow2_den (e : Z) : Z := 2 ^ Z.max (- e) 0.

Definition nextAttemptDelayMs (attempts : Z) (policy : BackoffPolicy) (random : Draw) : option Z :=
  if decide (attempts >= maxAttempts policy) then None
  else
    let exponent := Z.min (attempts - 1) 30 in
    let ceiling_num := Z.min (maxMs policy * pow2_den exponent) (baseMs policy * pow2_num exponent) in
    Some ((draw_num random * ceiling_num) / (draw_den random * pow2_den exponent)).

Definition nextAttemptAt (now attempts : Z) (policy : BackoffPolicy) (random : Draw) : option Z :=
  match nextAttemptDelayMs attempts policy random with
  | None => None
  | Some delay => Some (now + delay)
  end.

(** The loop of [worstCaseLadderMs], [fuel] iterations from [attempts]. *)
Fixpoint worstCase_loop (fuel : nat) (attempts : Z) (policy : BackoffPolicy) (total : Z) : Z :=
  match fuel with
  | O => total
  | S fuel =>
      let exponent := Z.min (attempts - 1) 30 in
      worstCase_loop fuel (attempts + 1) policy
        (total + Z.min (maxMs policy) (baseMs policy * 2 ^ exponent))
  end.

Definition worstCaseLadderMs (policy : BackoffPolicy) : Z :=
  worstCase_loop (Z.to_nat (maxAttempts policy - 1)) 1 policy 0.

(** The rung a ladder is on after [attempts] failures, before jitter. *)
Definition rung (policy : BackoffPolicy) (attempts : Z) : Z :=
  Z.min (maxMs policy) (baseMs policy * 2 ^ Z.min (attempts - 1) 30).

(** ** Running a ladder inside one call *)

Inductive LadderError (E : Type) :=
| LadderAbortedError
| OperationError (e : E).
Arguments LadderAbortedError {E}.
Arguments OperationError {E} e.

Inductive LadderResult (E : Type) :=
| Succeeded (attempts : Z)
| Exhausted (attempts : Z) (error : E).
Arguments Succeeded {E} attempts.
Arguments Exhausted {E} attempts error.

(** What a ladder reads from and does to the process it runs in: the jitter
    source, the abort signal, and the passing of time. *)
Record LadderEnv (W E : Type) := {
  ladder_random : W -> Draw;
  ladder_aborted : W -> bool;
  ladder_elapse : Z -> W -> W;
  ladder_onRetry : Z -> Z -> E -> W -> W;
}.
Arguments ladder_random {W E} _.
Arguments ladder_aborted {W E} _.
Arguments ladder_elapse {W E} _.
Arguments ladder_onRetry {W E} _.

Section ladder.
Context {W E : Type} (env : LadderEnv W E) (policy : BackoffPolicy).

Definition throwIfAborted : Eff W (LadderError E) unit := fun w =>
  if ladder_aborted env w then (inl LadderAbortedError, w) else (inr tt, w).

(** A cancellable sleep: an abort that arrives while it waits rejects it. *)
Definition sleep (ms : Z) : Eff W (LadderError E) unit :=
  do! throwIfAborted in
  do! modify (ladder_elapse env ms) in
  throwIfAborted.

(** [for (;;)] of [runRetryLadder]; [None] is a loop that is still going
    after [fuel] iterations. *)
Fixpoint ladder_loop (operation : Eff W (LadderError E) unit) (fuel : nat) (attempts : Z) :
    Eff W (LadderError E) (option (LadderResult E)) :=
  match fuel with
  | O => ret None
  | S fuel =>
      do! throwIfAborted in
      let attempts := attempts + 1 in
      let! outcome := attempt operation in
      match outcome with
      | inr _ => ret (Some (Succeeded attempts))
      | inl LadderAbortedError => throw LadderAbortedError
      | inl (OperationError error) =>
          let! random := reads (ladder_random env) in
          match nextAttemptDelayMs attempts policy random with
          | None => ret (Some (Exhausted attempts error))
          | Some delayMs =>
              do! modify (ladder_onRetry env attempts delayMs error) in
              do! sleep delayMs in
              ladder_loop operation fuel attempts
          end
      end
  end.

(** One iteration per attempt, and at least one. *)
Definition runRetryLadder (operation : Eff W (LadderError E) unit) :
    Eff W (LadderError E) (option (LadderResult E)) :=
  ladder_loop operation (S (Z.to_nat (maxAttempts policy))) 0.

End ladder.

(** ** The delays *)

Definition valid_policy (p : BackoffPolicy) : Prop := 0 <= baseMs p /\ 0 <= maxMs p.

Lemma nextAttemptDelayMs_None attempts p d :
  nextAttemptDelayMs attempts p d = None <-> maxAttempts p <= attempts.
Proof. unfold nextAttemptDelayMs. case_decide; split; (done || lia). Qed.

Lemma nextAttemptDelayMs_Some attempts p d delay :
  nextAttemptDelayMs attempts p d = Some delay -> attempts < maxAttempts p.
Proof. unfold nextAttemptDelayMs. case_decide; [done|lia]. Qed.

Lemma rung_nonneg p attempts : valid_policy p -> 0 <= rung p attempts.
Proof.
  intros [??]. unfold rung. apply Z.min_glb; [done|].
  apply Z.mul_nonneg_nonneg; [done|]. apply Z.pow_nonneg. lia.
Qed.

Lemma nextAttemptDelayMs_rung attempts p d :
  1 <= attempts < maxAttempts p ->
  nextAttemptDelayMs attempts p d = Some ((draw_num d * rung p attempts) / draw_den d).
Proof.
  intros H. unfold nextAttemptDelayMs. rewrite decide_False by lia.
  unfold rung, pow2_num, pow2_den. set (e := Z.min (attempts - 1) 30).
  assert (0 <= e) by (subst e; lia).
  rewrite (Z.max_r (- e) 0), (Z.max_l e 0) by lia. simpl. by rewrite !Z.mul_1_r.
Qed.

Lemma jitter_bounds d c :
  valid_draw d -> 0 <= c -> 0 <= (draw_num d * c) / draw_den d <= c.
Proof.
  intros [??] ?. split.
  - apply Z.div_pos; nia.
  - apply Z.div_le_upper_bound; nia.
Qed.

(** Full jitter: a delay drawn for a retry lies in [[0, rung]], and strictly
    below the rung unless the rung itself is zero. *)
Lemma nextAttemptDelayMs_bounds attempts p d delay :
  valid_policy p -> valid_draw d -> 1 <= attempts ->
  nextAttemptDelayMs attempts p d = Some delay ->
  0 <= delay <= rung p attempts /\ (0 < rung p attempts -> delay < rung p attempts).
Proof.
  intros Hp Hd Ha Hs.
  pose proof (nextAttemptDelayMs_Some _ _ _ _ Hs).
  rewrite nextAttemptDelayMs_rung in Hs by lia. simplify_eq.
  split; [by apply jitter_bounds, rung_nonneg|].
  destruct Hd. intros ?. apply Z.div_lt_upper_bound; nia.
Qed.

Lemma nextAttemptAt_future now attempts p d t :
  valid_policy p -> valid_draw d -> 1 <= attempts ->
  nextAttemptAt now attempts p d = Some t -> now <= t <= now + rung p attempts.
Proof.
  unfold nextAttemptAt. intros Hp Hd Ha. case_match eqn:Hn; [|done].
  intros [= <-]. apply nextAttemptDelayMs_bounds in Hn; [lia|done..].
Qed.

Lemma worstCase_loop_total fuel attempts p total :
  worstCase_loop fuel attempts p total = total + worstCase_loop fuel attempts p 0.
Proof.
  revert attempts total. induction fuel as [|fuel IH]; intros; simpl; [lia|].
  rewrite IH, (IH _ (0 + _)). lia.
Qed.

Lemma worstCase_loop_S fuel attempts p :
  worstCase_loop (S fuel) attempts p 0 = rung p attempts + worstCase_loop fuel (attempts + 1) p 0.
Proof. simpl. by rewrite worstCase_loop_total. Qed.

(** ** The ladder *)

Section ladder_facts.
Context {W E : Type} (env : LadderEnv W E) (policy : BackoffPolicy).
Context (operation : Eff W (LadderError E) unit).

(** The three ways one iteration can go: the loop is over, or the attempt
    failed, was scheduled and slept through, and the loop goes on. *)
Lemma ladder_loop_iteration fuel attempts w :
  (exists r w', ladder_loop env policy operation (S fuel) attempts w = (r, w') /\
    r <> inr None /\
    (forall n e, r = inr (Some (Exhausted n e)) -> n = attempts + 1 /\ maxAttempts policy <= n) /\
    (w' = w \/ w' = snd (operation w) \/
     exists delay e, nextAttemptDelayMs (attempts + 1) policy
        (ladder_random env (snd (operation w))) = Some delay /\
      (w' = ladder_onRetry env (attempts + 1) delay e (snd (operation w)) \/
       w' = ladder_elapse env delay (ladder_onRetry env (attempts + 1) delay e (snd (operation w)))))) \/
  (exists delay e, fst (operation w) = inl (OperationError e) /\
    nextAttemptDelayMs (attempts + 1) policy (ladder_random env (snd (operation w))) = Some delay /\
    ladder_loop env policy operation (S fuel) attempts w =
    ladder_loop env policy operation fuel (attempts + 1)
      (ladder_elapse env delay (ladder_onRetry env (attempts + 1) delay e (snd (operation w))))).
Proof.
  simpl. unfold bind, throwIfAborted, attempt, reads, ret, throw.
  destruct (ladder_aborted env w); [left; naive_solver|].
  destruct (operation w) as [[[|e]|[]] w1] eqn:Hop; simpl; [left; naive_solver| |left; naive_solver].
  destruct (nextAttemptDelayMs _ _ _) as [delay|] eqn:Hd; simpl.
  - unfold sleep, bind, throwIfAborted, modify.
    destruct (ladder_aborted env (ladder_onRetry _ _ _ _ _)).
    { left. eexists _, _. split_and!; [done|done|done|]. right; right. eauto. }
    destruct (ladder_aborted env (ladder_elapse _ _ _)); [|right; eauto 10].
    left. eexists _, _. split_and!; [done|done|done|]. right; right. eauto 10.
  - left. eexists _, _. split_and!; [done|done| |eauto].
    intros n e' [= <- <-]. by apply nextAttemptDelayMs_None in Hd.
Qed.

Lemma ladder_loop_settles fuel attempts w :
  (1 <= fuel)%nat -> maxAttempts policy <= attempts + Z.of_nat fuel ->
  fst (ladder_loop env policy operation fuel attempts w) <> inr None.
Proof.
  revert attempts w. induction fuel as [|fuel IH]; intros attempts w Hf Hm; [lia|].
  destruct (ladder_loop_iteration fuel attempts w)
    as [(r & w' & -> & ? & _)|(delay & e & _ & Hd & ->)]; [done|].
  apply nextAttemptDelayMs_Some in Hd. apply IH; lia.
Qed.

Lemma ladder_loop_exhausted fuel attempts w n e :
  0 <= attempts -> (attempts = 0 \/ attempts < maxAttempts policy) ->
  fst (ladder_loop env policy operation fuel attempts w) = inr (Some (Exhausted n e)) ->
  n = Z.max 1 (maxAttempts policy).
Proof.
  revert attempts w. induction fuel as [|fuel IH]; intros attempts w H0 Hlt; [done|].
  destruct (ladder_loop_iteration fuel attempts w)
    as [(r & w' & -> & _ & Hex & _)|(delay & e' & _ & Hd & ->)]; simpl.
  - intros ->. destruct (Hex n e eq_refl). lia.
  - apply nextAttemptDelayMs_Some in Hd. apply IH; lia.
Qed.

Context (clock : W -> Z).
Hypothesis elapse_clock : forall ms w, clock (ladder_elapse env ms w) = clock w + ms.
Hypothesis onRetry_clock : forall n ms e w, clock (ladder_onRetry env n ms e w) = clock w.
Hypothesis operation_clock : forall w, clock (snd (operation w)) = clock w.
Hypothesis policy_ok : valid_policy policy.
Hypothesis random_ok : forall w, valid_draw (ladder_random env w).

Lemma worstCase_loop_nonneg fuel attempts : 0 <= worstCase_loop fuel attempts policy 0.
Proof.
  revert attempts. induction fuel as [|fuel IH]; intros; [done|].
  rewrite worstCase_loop_S. pose proof (rung_nonneg policy attempts policy_ok).
  specialize (IH (attempts + 1)). lia.
Qed.

(** What is left of the budget after [attempts] failures. *)
Definition budget (attempts : Z) : Z :=
  worstCase_loop (Z.to_nat (maxAttempts policy - 1 - attempts)) (attempts + 1) policy 0.

Lemma budget_spend attempts delay d :
  0 <= attempts -> valid_draw d ->
  nextAttemptDelayMs (attempts + 1) policy d = Some delay ->
  0 <= delay /\ delay + budget (attempts + 1) <= budget attempts.
Proof.
  intros H0 Hr Hd. pose proof (nextAttemptDelayMs_Some _ _ _ _ Hd) as Hlt.
  apply nextAttemptDelayMs_bounds in Hd as [? _]; [|done..|lia].
  unfold budget. replace (Z.to_nat (maxAttempts policy - 1 - attempts))
    with (S (Z.to_nat (maxAttempts policy - 1 - (attempts + 1)))) by lia.
  rewrite worstCase_loop_S. lia.
Qed.

Lemma ladder_loop_slept fuel attempts w :
  0 <= attempts ->
  clock (snd (ladder_loop env policy operation fuel attempts w)) - clock w <= budget attempts.
Proof.
  revert attempts w. induction fuel as [|fuel IH]; intros attempts w H0.
  { simpl. rewrite Z.sub_diag. apply worstCase_loop_nonneg. }
  pose proof (worstCase_loop_nonneg (Z.to_nat (maxAttempts policy - 1 - attempts)) (attempts + 1)).
  pose proof (worstCase_loop_nonneg (Z.to_nat (maxAttempts policy - 1 - (attempts + 1))) (attempts + 1 + 1)).
  destruct (ladder_loop_iteration fuel attempts w)
    as [(r & w' & -> & _ & _ & Hw)|(delay & e & _ & Hd & ->)].
  - simpl. destruct Hw as [->|[->|(delay & e & Hd & [->| ->])]];
      rewrite ?elapse_clock, ?onRetry_clock, ?operation_clock; [unfold budget in *; lia..|].
    apply budget_spend in Hd; [unfold budget in *; lia|done|apply random_ok].
  - apply budget_spend in Hd as [? Hle]; [|done|apply random_ok].
    etrans; [|exact Hle]. specialize (IH (attempts + 1)
      (ladder_elapse env delay (ladder_onRetry env (attempts + 1) delay e (snd (operation w))))).
    rewrite elapse_clock, onRetry_clock, operation_clock in IH. lia.
Qed.

End ladder_facts.

(** ** Properties *)

(** A retry ladder always settles.  Whatever the operation, the jitter and
    the abort signal do, the unbounded [for (;;)] of [runRetryLadder] ends
    within [max 1 maxAttempts] iterations: it succeeds, gives up, or throws the
    abort. *)
Theorem runRetryLadder_settles {W E} (env : LadderEnv W E) policy operation w :
  fst (runRetryLadder env policy operation w) <> inr None.
Proof. apply ladder_loop_settles; lia. Qed.

(** A ladder that gives up has used exactly its attempts: at least one,
    and [maxAttempts] of them when the policy allows more. *)
Theorem runRetryLadder_exhausted {W E} (env : LadderEnv W E) policy operation w n e :
  fst (runRetryLadder env policy operation w) = inr (Some (Exhausted n e)) ->
  n = Z.max 1 (maxAttempts policy).
Proof. apply ladder_loop_exhausted; lia. Qed.

(** [worstCaseLadderMs] is an upper bound on the time a ladder spends
    sleeping, whichever way it ends, which is the fact the boot-time check of
    the handler timeout relies on. *)
Theorem runRetryLadder_slept {W E} (env : LadderEnv W E) policy operation (clock : W -> Z) w :
  (forall ms w, clock (ladder_elapse env ms w) = clock w + ms) ->
  (forall n ms e w, clock (ladder_onRetry env n ms e w) = clock w) ->
  (forall w, clock (snd (operation w)) = clock w) ->
  valid_policy policy ->
  (forall w, valid_draw (ladder_random env w)) ->
  clock (snd (runRetryLadder env policy operation w)) - clock w <= worstCaseLadderMs policy.
Proof.
  intros He Ho Hop Hp Hr. unfold worstCaseLadderMs.
  replace (maxAttempts policy - 1) with (maxAttempts policy - 1 - 0) by lia.
  by apply (ladder_loop_slept env policy operation clock He Ho Hop Hp Hr _ 0).
Qed.

(** ** Witnesses *)

(** A process whose world is its clock, drawing one half every time, and an
    operation that always fails. *)
Definition half_env : LadderEnv Z string := {|
  ladder_random _ := {| draw_num := 1; draw_den := 2 |};
  ladder_aborted _ := false;
  ladder_elapse ms w := w + ms;
  ladder_onRetry _ _ _ w := w;
|}.
Definition always_fails : Eff Z (LadderError string) unit := throw (OperationError "down"%string).
Definition kafka_policy : BackoffPolicy := {| baseMs := 250; maxMs := 5000; maxAttempts := 4 |}.

Lemma runRetryLadder_exhausted_witness :
  fst (runRetryLadder half_env kafka_policy always_fails 0) = inr (Some (Exhausted 4 "down"%string)) /\
  4 = Z.max 1 (maxAttempts kafka_policy).
Proof.
  split; [reflexivity|].
  exact (runRetryLadder_exhausted half_env kafka_policy always_fails 0 4 "down"%string eq_refl).
Defined.

Lemma runRetryLadder_slept_witness :
  snd (runRetryLadder half_env kafka_policy always_fails 0) = 875 /\
  worstCaseLadderMs kafka_policy = 1750 /\
  snd (runRetryLadder half_env kafka_policy always_fails 0) - 0 <= worstCaseLadderMs kafka_policy.
Proof.
  split; [reflexivity|]. split; [reflexivity|].
  apply (runRetryLadder_slept half_env kafka_policy always_fails (fun w => w) 0).
  - reflexivity.
  - reflexivity.
  - reflexivity.
  - split; discriminate.
  - intros ?. split; [discriminate|reflexivity].
Defined.
