(* ===== verification/Json.v ===== *)
(** * Json: the values a [jsonb] column and a message body hold

    [JsonValue] of [src/src/saga/saga-state.ts].  A number is the finite double
    [mantissa * 2 ^ exponent]; the sagas and the stores move values without
    looking inside them. *)

From S2P Require Import Prelude.

#[local] Set Warnings "-register-all".

Inductive JsonValue :=
| JNull
| JBool (b : bool)
| JNumber (mantissa exponent : Z)
| JString (s : JSText)
| JArray (items : list JsonValue)
| JObject (members : list (string * JsonValue)).

Lemma JsonValue_nested_ind (P : JsonValue -> Prop) :
  P JNull -> (forall b, P (JBool b)) -> (forall m e, P (JNumber m e)) -> (forall s, P (JString s)) ->
  (forall l, Forall P l -> P (JArray l)) -> (forall ms, Forall (fun kv => P kv.2) ms -> P (JObject ms)) ->
  forall v, P v.
Proof.
  intros Hn Hb Hnum Hs Ha Ho. fix IH 1. intros [|b|m e|s|l|ms].
  - apply Hn.
  - apply Hb.
  - apply Hnum.
  - apply Hs.
  - apply Ha. induction l as [|v l IHl]; constructor; [apply IH|exact IHl].
  - apply Ho. induction ms as [|[k v] ms IHl]; constructor; [apply IH|exact IHl].
Qed.

(** Names every object inherits, which [in] and an indexed read find too. *)
Definition objectPrototype : list JSText := js <$>
  ["constructor"; "__defineGetter__"; "__defineSetter__"; "hasOwnProperty"; "__lookupGetter__"; "__lookupSetter__";
   "isPrototypeOf"; "propertyIsEnumerable"; "toString"; "valueOf"; "__proto__"; "toLocaleString"]%string.
