(* ===== verification/SagaDefinition.v ===== *)
(** * SagaDefinition: steps, their kinds, and the definitions a build accepts

    [src/src/saga/saga-definition.ts], [src/src/saga/saga.errors.ts],
    [src/src/saga/saga-state.ts] and [src/src/saga/saga-registry.ts]. *)

From S2P Require Import Prelude Json.

(** ** Errors *)

Inductive JSError :=
| UnretryableStepError (message : JSText)
| SagaStepTimeoutError (step : string) (timeoutMs : Z)
| SagaResumeError (sagaId problem : string)
| PlainError (message : JSText).

(** What a [catch] receives: an [Error], or any other value, as [String(caught)]. *)
Inductive Thrown :=
| ThrownError (e : JSError)
| ThrownValue (printed : JSText).

Definition message_of (e : JSError) : JSText :=
  match e with
  | UnretryableStepError message => message
  | SagaStepTimeoutError step timeoutMs =>
      js ("Step " +:+ dq +:+ step +:+ dq +:+ " did not settle within " +:+ pretty timeoutMs +:+ "ms.")
  | SagaResumeError sagaId problem =>
      js ("Saga " +:+ sagaId +:+ " cannot be resumed: " +:+ problem +:+ ".")
  | PlainError message => message
  end.

Definition asError (caught : Thrown) : JSError :=
  match caught with
  | ThrownError e => e
  | ThrownValue printed => PlainError printed
  end.

(** ** Steps *)

Inductive SagaStepKind := Compensatable | Pivot | Retriable.

#[global] Instance SagaStepKind_eq_dec : EqDecision SagaStepKind.
Proof. solve_decision. Defined.

(** [SagaState]: the members of a JSON object. *)
Abbreviation SagaState := (gmap string JsonValue).

(** [Partial<S>]: a member that is present may still be [undefined], here [None]. *)
Abbreviation SagaStatePatch := (gmap string (option JsonValue)).

Record SagaFailure := { failure_step : string; failure_message : JSText }.

Record SagaStepContext := {
  ctx_sagaId : string;
  ctx_state : SagaState;
  ctx_idempotencyKey : string;
  ctx_correlationId : option string;
  ctx_failure : option SagaFailure;
}.

(** The discriminated union [SagaStep<S>]: only a compensatable step carries a
    compensation.  [W] is the world the participants act on; a step resolves
    with a patch, with [undefined] ([None]), or throws. *)
Inductive SagaStep (W : Type) :=
| CompensatableStep (name : string)
    (execute : SagaStepContext -> Eff W Thrown (option SagaStatePatch))
    (compensate : SagaStepContext -> Eff W Thrown unit)
| PivotStep (name : string)
    (execute : SagaStepContext -> Eff W Thrown (option SagaStatePatch))
| RetriableStep (name : string)
    (execute : SagaStepContext -> Eff W Thrown (option SagaStatePatch)).
Arguments CompensatableStep {W} name execute compensate.
Arguments PivotStep {W} name execute.
Arguments RetriableStep {W} name execute.

Definition step_name {W} (s : SagaStep W) : string :=
  match s with
  | CompensatableStep name _ _ | PivotStep name _ | RetriableStep name _ => name
  end.

Definition step_kind {W} (s : SagaStep W) : SagaStepKind :=
  match s with
  | CompensatableStep _ _ _ => Compensatable
  | PivotStep _ _ => Pivot
  | RetriableStep _ _ => Retriable
  end.

Definition step_execute {W} (s : SagaStep W) :=
  match s with
  | CompensatableStep _ execute _ | PivotStep _ execute | RetriableStep _ execute => execute
  end.

Record SagaDefinition (W : Type) := {
  saga_name : string;
  saga_steps : list (SagaStep W);
}.
Arguments saga_name {W} _.
Arguments saga_steps {W} _.

(** ** [defineSaga] *)

Inductive DefinitionProblem :=
| HasNoSteps
| DeclaresTwice (step : string)
| MoreThanOnePivot
| NotCompensatableBeforePivot (step : string) (kind : SagaStepKind)
| NotRetriableAfterPivot (step : string) (kind : SagaStepKind)
| RegisteredTwice.

Record SagaDefinitionError := { error_saga : string; error_problem : DefinitionProblem }.

(** The loop over [seen]: the first name declared twice. *)
Fixpoint duplicate_name {W} (seen : gset string) (steps : list (SagaStep W)) : option string :=
  match steps with
  | [] => None
  | step :: rest =>
      if decide (step_name step ∈ seen) then Some (step_name step)
      else duplicate_name ({[step_name step]} ∪ seen) rest
  end.

(** [steps.findIndex(step => step.kind === "pivot")] *)
Fixpoint pivotIndex {W} (steps : list (SagaStep W)) : Z :=
  match steps with
  | [] => -1
  | step :: rest =>
      if decide (step_kind step = Pivot) then 0
      else let i := pivotIndex rest in if decide (i = -1) then -1 else i + 1
  end.

(** The [forEach] that refuses a step on the wrong side of the pivot. *)
Fixpoint misplaced {W} (boundary index : Z) (steps : list (SagaStep W)) : option DefinitionProblem :=
  match steps with
  | [] => None
  | step :: rest =>
      if decide (index < boundary /\ step_kind step <> Compensatable)
      then Some (NotCompensatableBeforePivot (step_name step) (step_kind step))
      else if decide (index > boundary /\ step_kind step <> Retriable)
      then Some (NotRetriableAfterPivot (step_name step) (step_kind step))
      else misplaced boundary (index + 1) rest
  end.

Definition defineSaga {W} (name : string) (steps : list (SagaStep W)) :
    SagaDefinitionError + SagaDefinition W :=
  let refuse problem := inl {| error_saga := name; error_problem := problem |} in
  if decide (length steps = 0%nat) then refuse HasNoSteps
  else match duplicate_name ∅ steps with
  | Some step => refuse (DeclaresTwice step)
  | None =>
      if decide (1 < length (filter (fun step => step_kind step = Pivot) steps))%nat
      then refuse MoreThanOnePivot
      else
        let boundary :=
          if decide (pivotIndex steps = -1) then Z.of_nat (length steps) else pivotIndex steps in
        match misplaced boundary 0 steps with
        | Some problem => refuse problem
        | None => inr {| saga_name := name; saga_steps := steps |}
        end
  end.

(** ** The registry *)

(** [definitions]: a [Map], in insertion order. *)
Definition SagaRegistry (W : Type) : Type := list (string * SagaDefinition W).

Fixpoint registry_find {W} (registry : SagaRegistry W) (name : string) : option (SagaDefinition W) :=
  match registry with
  | [] => None
  | (key, definition) :: rest => if decide (key = name) then Some definition else registry_find rest name
  end.

Definition register {W} (registry : SagaRegistry W) (definition : SagaDefinition W) :
    SagaDefinitionError + SagaRegistry W :=
  match registry_find registry (saga_name definition) with
  | Some _ => inl {| error_saga := saga_name definition; error_problem := RegisteredTwice |}
  | None => inr (registry ++ [(saga_name definition, definition)])
  end.

Definition names {W} (registry : SagaRegistry W) : list string := registry.*1.

(** ** The shape a definition has *)

(** [compensatable* pivot? retriable*], with no retriable step unless there is
    a pivot before it. *)
Definition saga_shape {W} (steps : list (SagaStep W)) : Prop :=
  exists before pivot after,
    steps = before ++ pivot ++ after /\
    Forall (fun s => step_kind s = Compensatable) before /\
    (pivot = [] /\ after = [] \/ exists p, pivot = [p] /\ step_kind p = Pivot) /\
    Forall (fun s => step_kind s = Retriable) after.

Definition saga_wf {W} (def : SagaDefinition W) : Prop :=
  saga_steps def <> [] /\ NoDup (step_name <$> saga_steps def) /\ saga_shape (saga_steps def).

Section facts.
Context {W : Type}.
Implicit Types (steps : list (SagaStep W)).

Lemma duplicate_name_None seen steps :
  duplicate_name seen steps = None <->
  NoDup (step_name <$> steps) /\ (forall s, s ∈ steps -> step_name s ∉ seen).
Proof.
  revert seen. induction steps as [|s steps IH]; intros seen; csimpl.
  { split; [|done]. intros _. split; [constructor|]. set_solver. }
  rewrite NoDup_cons. case_decide as Hin; [set_solver|].
  rewrite IH, list_elem_of_fmap. split.
  - intros [Hnd Hs]. split_and!; [set_solver|done|].
    intros s'. rewrite elem_of_cons. intros [->|Hs']; [done|]. specialize (Hs s' Hs'). set_solver.
  - intros [[Hs Hnd] Hall]. split; [done|]. intros s' Hs'.
    assert (step_name s' <> step_name s) by (intros Heq; apply Hs; eauto).
    specialize (Hall s' ltac:(set_solver)). set_solver.
Qed.

Lemma misplaced_None boundary index steps :
  misplaced boundary index steps = None <->
  forall i s, steps !! i = Some s ->
    (index + Z.of_nat i < boundary -> step_kind s = Compensatable) /\
    (index + Z.of_nat i > boundary -> step_kind s = Retriable).
Proof.
  revert index. induction steps as [|s steps IH]; intros index; simpl; [done|].
  split.
  - destruct (decide _) as [|H1]; [done|]. destruct (decide _) as [|H2]; [done|].
    rewrite IH. intros Hrest [|i] s' Hs'; simplify_eq/=.
    + rewrite Z.add_0_r. split; intros Hc.
      * destruct (decide (step_kind s' = Compensatable)); [done|]. by destruct H1.
      * destruct (decide (step_kind s' = Retriable)); [done|]. by destruct H2.
    + specialize (Hrest i s' Hs'). replace (index + Z.of_nat (S i)) with (index + 1 + Z.of_nat i) by lia. done.
  - intros Hall. destruct (Hall 0%nat s eq_refl) as [Hc Hr]. rewrite Z.add_0_r in Hc, Hr.
    rewrite decide_False by (intros [? []]; auto).
    rewrite decide_False by (intros [? []]; auto).
    apply IH. intros i s' Hs'. specialize (Hall (S i) s' Hs').
    by replace (index + 1 + Z.of_nat i) with (index + Z.of_nat (S i)) by lia.
Qed.

Lemma pivotIndex_none steps :
  Forall (fun s => step_kind s <> Pivot) steps -> pivotIndex steps = -1.
Proof. induction 1; simpl; [done|]. rewrite decide_False by done. by case_decide. Qed.

Lemma pivotIndex_app before p after :
  Forall (fun s : SagaStep W => step_kind s <> Pivot) before -> step_kind p = Pivot ->
  pivotIndex (before ++ p :: after) = Z.of_nat (length before).
Proof.
  intros Hb Hp. induction Hb; simpl; [by rewrite decide_True|].
  rewrite decide_False by done. rewrite IHHb. rewrite decide_False by lia. lia.
Qed.

Lemma pivot_split steps :
  Forall (fun s => step_kind s <> Pivot) steps \/
  exists before p after, steps = before ++ p :: after /\
    Forall (fun s => step_kind s <> Pivot) before /\ step_kind p = Pivot.
Proof.
  induction steps as [|s steps [IH|(before & p & after & -> & Hb & Hp)]]; [by left|..];
    destruct (decide (step_kind s = Pivot)).
  - right. exists [], s, steps. auto.
  - left. by constructor.
  - right. exists [], s, (before ++ p :: after). auto.
  - right. exists (s :: before), p, after. auto.
Qed.

Lemma not_pivot_of k (steps : list (SagaStep W)) :
  k <> Pivot -> Forall (fun s => step_kind s = k) steps -> Forall (fun s => step_kind s <> Pivot) steps.
Proof. intros Hk Hf. eapply Forall_impl; [exact Hf|]. by intros s ->. Qed.

Lemma filter_pivot_nil steps :
  Forall (fun s => step_kind s <> Pivot) steps -> filter (fun s => step_kind s = Pivot) steps = [].
Proof. induction 1; [done|]. by rewrite filter_cons_False. Qed.

(** The boundary computed from the pivot is where the shape changes. *)
Lemma misplaced_shape steps :
  let boundary := if decide (pivotIndex steps = -1) then Z.of_nat (length steps) else pivotIndex steps in
  misplaced boundary 0 steps = None <-> saga_shape steps.
Proof.
  intros boundary. unfold boundary. clear boundary. rewrite misplaced_None. split.
  - intros Hall. destruct (pivot_split steps) as [Hnp|(before & p & after & -> & Hb & Hp)].
    + rewrite (pivotIndex_none _ Hnp) in Hall. rewrite decide_True in Hall by done.
      exists steps, [], []. rewrite !app_nil_r. split_and!; [done| |by left|done].
      apply Forall_lookup. intros i s Hs. apply (Hall i s Hs).
      apply lookup_lt_Some in Hs. lia.
    + rewrite pivotIndex_app in Hall by done. rewrite decide_False in Hall by lia.
      exists before, [p], after. split_and!; [done| |right; eauto|].
      * apply Forall_lookup. intros i s Hs. pose proof (lookup_lt_Some _ _ _ Hs).
        eapply (Hall i s); [by apply lookup_app_l_Some|lia].
      * apply Forall_lookup. intros i s Hs. eapply (Hall (length before + S i)%nat s); [|lia].
        rewrite lookup_app_r by lia. by replace (length before + S i - length before)%nat with (S i) by lia.
  - intros (before & pivot & after & -> & Hb & Hmid & Ha) i s Hs.
    pose proof (not_pivot_of Compensatable _ ltac:(discriminate) Hb) as Hbn.
    destruct Hmid as [[-> ->]|(p & -> & Hp)].
    + rewrite !app_nil_r in *. rewrite (pivotIndex_none _ Hbn), decide_True by done.
      split; [|apply lookup_lt_Some in Hs; lia]. intros _. by eapply Forall_lookup in Hb.
    + cbn in *. rewrite pivotIndex_app, decide_False by (done || lia).
      apply lookup_app_Some in Hs as [Hs|[Hge Hs]].
      * split; [by eapply Forall_lookup in Hb|]. apply lookup_lt_Some in Hs. lia.
      * split; [lia|]. intros Hgt. destruct (i - length before)%nat as [|j] eqn:?; [lia|].
        by eapply Forall_lookup in Ha.
Qed.

Lemma shape_one_pivot steps :
  saga_shape steps -> (length (filter (fun s => step_kind s = Pivot) steps) <= 1)%nat.
Proof.
  intros (before & pivot & after & -> & Hb & Hmid & Ha).
  rewrite !filter_app, (filter_pivot_nil before), (filter_pivot_nil after)
    by (by eapply not_pivot_of; [|done]).
  rewrite app_nil_r. destruct Hmid as [[-> ->]|(p & -> & Hp)]; simpl; [lia|].
  rewrite filter_cons_True by done. simpl. lia.
Qed.

End facts.

Lemma defineSaga_wf {W} name (steps : list (SagaStep W)) def :
  defineSaga name steps = inr def -> saga_wf def.
Proof.
  unfold defineSaga, saga_wf. case_decide as Hlen; [done|]. case_match eqn:Hdup; [done|]. case_decide; [done|].
  case_match eqn:Hmis; [done|]. intros [= <-]. simpl.
  apply duplicate_name_None in Hdup as [? _]. apply misplaced_shape in Hmis.
  split_and!; [by destruct steps|done..].
Qed.

Lemma defineSaga_returns {W} name (steps : list (SagaStep W)) def :
  defineSaga name steps = inr def -> def = {| saga_name := name; saga_steps := steps |}.
Proof. unfold defineSaga. repeat (case_decide || case_match); congruence. Qed.

(** ** Properties *)

(** [defineSaga] accepts exactly the coherent definitions.  It returns a
    definition if and only if there is at least one step, no two steps share a
    name, and the kinds read [compensatable* pivot? retriable*] with nothing
    retriable unless a pivot precedes it; and what it returns is the name and
    the steps it was given. *)
Theorem defineSaga_accepts {W} name (steps : list (SagaStep W)) def :
  defineSaga name steps = inr def <->
  def = {| saga_name := name; saga_steps := steps |} /\ saga_wf def.
Proof.
  split.
  - intros Hd. split; [by apply defineSaga_returns|by eapply defineSaga_wf].
  - intros [-> (Hne & Hnd & Hshape)]; unfold defineSaga; simpl in *.
    rewrite decide_False by by destruct steps.
    rewrite (proj2 (duplicate_name_None ∅ steps)) by (split; [done|set_solver]).
    pose proof (shape_one_pivot _ Hshape). rewrite decide_False by lia.
    by rewrite (proj2 (misplaced_shape steps) Hshape).
Qed.

Section registry.
Context {W : Type}.
Implicit Types (r : SagaRegistry W).

Lemma registry_find_app r r' name :
  registry_find (r ++ r') name =
  match registry_find r name with Some d => Some d | None => registry_find r' name end.
Proof. induction r as [|[k d] r IH]; simpl; [done|]. by case_decide. Qed.

Lemma registry_find_names r name : registry_find r name = None <-> name ∉ names r.
Proof.
  induction r as [|[k d] r IH]; csimpl; [set_solver|]. case_decide; [set_solver|].
  rewrite IH. set_solver.
Qed.

End registry.

(** Registering a definition makes it findable under its name and nothing
    else changes; a second definition under a name that is taken is refused,
    so a registry built by [register] never holds two definitions of one
    name. *)
Theorem register_find {W} (r r' : SagaRegistry W) def :
  NoDup (names r) -> register r def = inr r' ->
  registry_find r' (saga_name def) = Some def /\
  (forall name, name <> saga_name def -> registry_find r' name = registry_find r name) /\
  NoDup (names r') /\
  (forall def', saga_name def' = saga_name def ->
     register r' def' = inl {| error_saga := saga_name def; error_problem := RegisteredTwice |}).
Proof.
  unfold register. intros Hnd. case_match eqn:Hf; [done|]. intros [= <-].
  assert (registry_find (r ++ [(saga_name def, def)]) (saga_name def) = Some def) as Hfind.
  { rewrite registry_find_app, Hf. simpl. by rewrite decide_True. }
  split_and!; [done| | |].
  - intros name Hne. rewrite registry_find_app. simpl. rewrite decide_False by done.
    by destruct (registry_find r name).
  - unfold names in *. rewrite fmap_app, NoDup_app. apply registry_find_names in Hf.
    split_and!; [done| |by apply NoDup_singleton]. intros x Hx Hx'.
    apply list_elem_of_singleton in Hx'. by subst x.
  - intros def' Hname. by rewrite Hname, Hfind.
Qed.
