(* ===== verification/SagaStore.v ===== *)
(** * SagaStore: the durable instance, its lease, and the store that guards both

    [src/src/saga/saga-instance.ts], the port
    [src/src/saga/ports/saga-store.port.ts] and its Postgres implementation
    [src/src/saga/prisma-saga.store.ts].

    The port is the class [SagaStore]; what it promises is [SagaStoreSpec],
    stated on the table of records every reader sees; [PrismaSagaStore] is the
    implementation over rows, and discharges the promise. *)

From S2P Require Import Prelude Json SagaDefinition.

(** ** Instances *)

Inductive SagaStatus := RUNNING | COMPENSATING | COMPLETED | COMPENSATED | STUCK.

#[global] Instance SagaStatus_eq_dec : EqDecision SagaStatus.
Proof. solve_decision. Defined.

Definition TERMINAL_SAGA_STATUSES : list SagaStatus := [COMPLETED; COMPENSATED; STUCK].

Definition isTerminal (status : SagaStatus) : bool := bool_decide (status ∈ TERMINAL_SAGA_STATUSES).

Inductive SagaDirection := Forward | Backward.
#[global] Instance SagaDirection_eq_dec : EqDecision SagaDirection.
Proof. solve_decision. Defined.

Inductive StepOutcome := Completed | Failed | Skipped.
#[global] Instance StepOutcome_eq_dec : EqDecision StepOutcome.
Proof. solve_decision. Defined.

Record SagaStepLogEntry := {
  le_step : string;
  le_direction : SagaDirection;
  le_outcome : StepOutcome;
  le_at : Z;
  le_attempt : Z;
  le_error : option JSText;
}.

Record NewSagaInstance := {
  new_id : string;
  new_name : string;
  new_state : SagaState;
  new_correlationId : option string;
}.

Record SagaInstanceRecord := {
  sr_id : string;
  sr_name : string;
  sr_status : SagaStatus;
  sr_cursor : Z;
  sr_attempts : Z;
  sr_nextAttemptAt : Z;
  sr_state : SagaState;
  sr_log : list SagaStepLogEntry;
  sr_lastError : option JSText;
  sr_correlationId : option string;
  sr_lockedBy : option string;
  sr_lockedUntil : option Z;
  sr_createdAt : Z;
  sr_updatedAt : Z;
}.

Record SagaProgress := {
  pg_status : SagaStatus;
  pg_cursor : Z;
  pg_attempts : Z;
  pg_nextAttemptAt : Z;
  pg_state : SagaState;
  pg_entry : SagaStepLogEntry;
  pg_lastError : option JSText;
  pg_release : bool;
}.

Record SagaClaim := { claim_owner : string; claim_now : Z; claim_leaseMs : Z }.

(** ** The port *)

Class SagaStore (W : Type) := {
  store_create : NewSagaInstance -> Eff W Thrown SagaInstanceRecord;
  store_find : string -> Eff W Thrown (option SagaInstanceRecord);
  store_claim : string -> SagaClaim -> Eff W Thrown (option SagaInstanceRecord);
  store_claimDue : SagaClaim -> nat -> Eff W Thrown (list SagaInstanceRecord);
  store_save : string -> SagaClaim -> SagaProgress -> Eff W Thrown (option SagaInstanceRecord);
  store_abandon : string -> JSText -> Eff W Thrown unit;
}.

(** ** What the port promises, on records *)

(** The conditions of a claim: unfinished, due, and not leased. *)
Definition isClaimable (r : SagaInstanceRecord) (now : Z) : Prop :=
  (sr_status r = RUNNING \/ sr_status r = COMPENSATING) /\
  sr_nextAttemptAt r <= now /\
  match sr_lockedUntil r with None => True | Some until => until <= now end.

#[global] Instance isClaimable_dec r now : Decision (isClaimable r now).
Proof. unfold isClaimable. destruct (sr_lockedUntil r); apply _. Defined.

Definition leased (claim : SagaClaim) (r : SagaInstanceRecord) : SagaInstanceRecord := {|
  sr_id := sr_id r; sr_name := sr_name r; sr_status := sr_status r; sr_cursor := sr_cursor r;
  sr_attempts := sr_attempts r; sr_nextAttemptAt := sr_nextAttemptAt r; sr_state := sr_state r;
  sr_log := sr_log r; sr_lastError := sr_lastError r; sr_correlationId := sr_correlationId r;
  sr_lockedBy := Some (claim_owner claim);
  sr_lockedUntil := Some (claim_now claim + claim_leaseMs claim);
  sr_createdAt := sr_createdAt r;
  sr_updatedAt := claim_now claim;
|}.

Definition saved (claim : SagaClaim) (progress : SagaProgress) (r : SagaInstanceRecord) : SagaInstanceRecord := {|
  sr_id := sr_id r; sr_name := sr_name r;
  sr_status := pg_status progress; sr_cursor := pg_cursor progress;
  sr_attempts := pg_attempts progress; sr_nextAttemptAt := pg_nextAttemptAt progress;
  sr_state := pg_state progress; sr_log := sr_log r ++ [pg_entry progress];
  sr_lastError := pg_lastError progress; sr_correlationId := sr_correlationId r;
  sr_lockedBy := if pg_release progress then None else Some (claim_owner claim);
  sr_lockedUntil := if pg_release progress then None else Some (claim_now claim + claim_leaseMs claim);
  sr_createdAt := sr_createdAt r;
  sr_updatedAt := claim_now claim;
|}.

Definition abandoned (reason : JSText) (now : Z) (r : SagaInstanceRecord) : SagaInstanceRecord := {|
  sr_id := sr_id r; sr_name := sr_name r; sr_status := STUCK; sr_cursor := sr_cursor r;
  sr_attempts := sr_attempts r; sr_nextAttemptAt := sr_nextAttemptAt r; sr_state := sr_state r;
  sr_log := sr_log r; sr_lastError := Some reason; sr_correlationId := sr_correlationId r;
  sr_lockedBy := None; sr_lockedUntil := None; sr_createdAt := sr_createdAt r;
  sr_updatedAt := now;
|}.

Definition fresh_instance (n : NewSagaInstance) (now : Z) : SagaInstanceRecord := {|
  sr_id := new_id n; sr_name := new_name n; sr_status := RUNNING; sr_cursor := 0;
  sr_attempts := 0; sr_nextAttemptAt := now; sr_state := new_state n; sr_log := [];
  sr_lastError := None; sr_correlationId := new_correlationId n; sr_lockedBy := None;
  sr_lockedUntil := None; sr_createdAt := now; sr_updatedAt := now;
|}.

(** The promise, on [table], the view every reader has of the store. *)
Class SagaStoreSpec (W : Type) `{!SagaStore W} (table : W -> gmap string SagaInstanceRecord) := {
  create_spec n w :
    table w !! new_id n = None ->
    exists now w', store_create n w = (inr (fresh_instance n now), w') /\
      table w' = <[new_id n := fresh_instance n now]> (table w);
  find_spec id w : store_find id w = (inr (table w !! id), w);
  claim_granted id c r w :
    table w !! id = Some r -> isClaimable r (claim_now c) ->
    exists w', store_claim id c w = (inr (Some (leased c r)), w') /\
      table w' = <[id := leased c r]> (table w);
  claim_refused id c w :
    (forall r, table w !! id = Some r -> ~ isClaimable r (claim_now c)) ->
    exists w', store_claim id c w = (inr None, w') /\ table w' = table w;
  claimDue_spec c limit w :
    exists batch w', store_claimDue c limit w = (inr (leased c <$> batch), w') /\
      NoDup (sr_id <$> batch) /\
      length batch = Nat.min limit
        (size (filter (fun kr : string * SagaInstanceRecord => isClaimable kr.2 (claim_now c)) (table w))) /\
      (forall r, r ∈ batch -> table w !! sr_id r = Some r /\ isClaimable r (claim_now c)) /\
      (forall r id s, r ∈ batch -> table w !! id = Some s -> isClaimable s (claim_now c) ->
         s ∉ batch -> sr_nextAttemptAt r <= sr_nextAttemptAt s) /\
      forall id, table w' !! id =
        if decide (id ∈ (sr_id <$> batch)) then leased c <$> (table w !! id) else table w !! id;
  save_held id c p r w :
    table w !! id = Some r -> sr_lockedBy r = Some (claim_owner c) ->
    exists w', store_save id c p w = (inr (Some (saved c p r)), w') /\
      table w' = <[id := saved c p r]> (table w);
  save_lost id c p w :
    (forall r, table w !! id = Some r -> sr_lockedBy r <> Some (claim_owner c)) ->
    exists w', store_save id c p w = (inr None, w') /\ table w' = table w;
  abandon_spec id reason r w :
    table w !! id = Some r ->
    exists now w', store_abandon id reason w = (inr tt, w') /\
      table w' = <[id := abandoned reason now r]> (table w);
}.

(** ** The Postgres store *)

(** A row, less its primary key, as Postgres hands it back; [row_log] is a
    column that defaults to the empty array and is only ever appended to. *)
Record SagaRow := {
  row_name : string;
  row_status : SagaStatus;
  row_cursor : Z;
  row_attempts : Z;
  row_nextAttemptAt : Z;
  row_state : JsonValue;
  row_log : list SagaStepLogEntry;
  row_lastError : option JSText;
  row_correlationId : option string;
  row_lockedBy : option string;
  row_lockedUntil : option Z;
  row_createdAt : Z;
  row_updatedAt : Z;
}.

(** A world with a [saga_instances] table and a clock. *)
Class HasSagaRows (W : Type) := {
  rows : W -> gmap string SagaRow;
  set_rows : gmap string SagaRow -> W -> W;
  clock : W -> Z;
}.

Class HasSagaRowsLaws (W : Type) `{!HasSagaRows W} :=
  rows_set_rows t w : rows (set_rows t w) = t.

(** The object spread of a JSON object: the last of two equal keys wins. *)
Definition object_members (members : list (string * JsonValue)) : SagaState :=
  list_to_map (reverse members).

(** [isJsonObject(row.state) ? row.state : {}] *)
Definition state_of_json (v : JsonValue) : SagaState :=
  match v with
  | JObject members => object_members members
  | _ => ∅
  end.

(** [JSON.stringify(state)::jsonb] *)
Definition json_of_state (s : SagaState) : JsonValue := JObject (reverse (map_to_list s)).

Definition toRecord (id : string) (row : SagaRow) : SagaInstanceRecord := {|
  sr_id := id; sr_name := row_name row; sr_status := row_status row; sr_cursor := row_cursor row;
  sr_attempts := row_attempts row; sr_nextAttemptAt := row_nextAttemptAt row;
  sr_state := state_of_json (row_state row); sr_log := row_log row;
  sr_lastError := row_lastError row; sr_correlationId := row_correlationId row;
  sr_lockedBy := row_lockedBy row; sr_lockedUntil := row_lockedUntil row;
  sr_createdAt := row_createdAt row; sr_updatedAt := row_updatedAt row;
|}.

(** The [WHERE] of both claims. *)
Definition row_claimable (row : SagaRow) (now : Z) : Prop :=
  (row_status row = RUNNING \/ row_status row = COMPENSATING) /\
  row_nextAttemptAt row <= now /\
  match row_lockedUntil row with None => True | Some until => until <= now end.

#[global] Instance row_claimable_dec row now : Decision (row_claimable row now).
Proof. unfold row_claimable. destruct (row_lockedUntil row); apply _. Defined.

(** The [SET] of both claims. *)
Definition lease_row (claim : SagaClaim) (row : SagaRow) : SagaRow := {|
  row_name := row_name row; row_status := row_status row; row_cursor := row_cursor row;
  row_attempts := row_attempts row; row_nextAttemptAt := row_nextAttemptAt row;
  row_state := row_state row; row_log := row_log row; row_lastError := row_lastError row;
  row_correlationId := row_correlationId row;
  row_lockedBy := Some (claim_owner claim);
  row_lockedUntil := Some (claim_now claim + claim_leaseMs claim);
  row_createdAt := row_createdAt row;
  row_updatedAt := claim_now claim;
|}.

(** The [SET] of [save]. *)
Definition save_row (claim : SagaClaim) (progress : SagaProgress) (row : SagaRow) : SagaRow := {|
  row_name := row_name row;
  row_status := pg_status progress; row_cursor := pg_cursor progress;
  row_attempts := pg_attempts progress; row_nextAttemptAt := pg_nextAttemptAt progress;
  row_state := json_of_state (pg_state progress);
  row_log := row_log row ++ [pg_entry progress];
  row_lastError := pg_lastError progress; row_correlationId := row_correlationId row;
  row_lockedBy := if pg_release progress then None else Some (claim_owner claim);
  row_lockedUntil := if pg_release progress then None else Some (claim_now claim + claim_leaseMs claim);
  row_createdAt := row_createdAt row;
  row_updatedAt := claim_now claim;
|}.

(** [ORDER BY "nextAttemptAt" ASC, "id" ASC] *)
Definition due_le (a b : string * SagaRow) : Prop :=
  row_nextAttemptAt a.2 < row_nextAttemptAt b.2 \/
  row_nextAttemptAt a.2 = row_nextAttemptAt b.2 /\ String.leb a.1 b.1 = true.

#[global] Instance due_le_dec a b : Decision (due_le a b).
Proof. unfold due_le. apply _. Defined.

(** The sub-select of [claimDue]. *)
Definition select_due (now : Z) (limit : nat) (t : gmap string SagaRow) : list (string * SagaRow) :=
  take limit (merge_sort due_le (filter (fun kr => row_claimable kr.2 now) (map_to_list t))).

(** The inserted columns, with the defaults of the schema. *)
Definition new_row (n : NewSagaInstance) (now : Z) : SagaRow := {|
  row_name := new_name n; row_status := RUNNING; row_cursor := 0; row_attempts := 0;
  row_nextAttemptAt := now; row_state := json_of_state (new_state n); row_log := [];
  row_lastError := None; row_correlationId := new_correlationId n; row_lockedBy := None;
  row_lockedUntil := None; row_createdAt := now; row_updatedAt := now;
|}.

Definition prisma_create {W} `{!HasSagaRows W} (n : NewSagaInstance) : Eff W Thrown SagaInstanceRecord := fun w =>
  match rows w !! new_id n with
  | Some _ => (inl (ThrownError (PlainError (js "Unique constraint failed on the fields: (id)"))), w)
  | None =>
      let row := new_row n (clock w) in
      (inr (toRecord (new_id n) row), set_rows (<[new_id n := row]> (rows w)) w)
  end.

Definition prisma_find {W} `{!HasSagaRows W} (id : string) : Eff W Thrown (option SagaInstanceRecord) := fun w =>
  (inr (toRecord id <$> rows w !! id), w).

(** [findMany]: duplicates collapsed, missing ids left out. *)
Definition prisma_findMany {W} `{!HasSagaRows W} (ids : list string) : Eff W Thrown (list SagaInstanceRecord) := fun w =>
  if decide (length ids = 0%nat) then (inr [], w)
  else (inr (omap (fun id => toRecord id <$> rows w !! id) (remove_dups ids)), w).

Definition prisma_claim {W} `{!HasSagaRows W} (id : string) (claim : SagaClaim) :
    Eff W Thrown (option SagaInstanceRecord) := fun w =>
  match rows w !! id with
  | Some row =>
      if decide (row_claimable row (claim_now claim))
      then (inr (Some (toRecord id (lease_row claim row))),
            set_rows (<[id := lease_row claim row]> (rows w)) w)
      else (inr None, w)
  | None => (inr None, w)
  end.

Definition prisma_claimDue {W} `{!HasSagaRows W} (claim : SagaClaim) (limit : nat) :
    Eff W Thrown (list SagaInstanceRecord) := fun w =>
  let selected := select_due (claim_now claim) limit (rows w) in
  (inr ((fun kr => toRecord kr.1 (lease_row claim kr.2)) <$> selected),
   set_rows (list_to_map (prod_map id (lease_row claim) <$> selected) ∪ rows w) w).

Definition prisma_save {W} `{!HasSagaRows W} (id : string) (claim : SagaClaim) (progress : SagaProgress) :
    Eff W Thrown (option SagaInstanceRecord) := fun w =>
  match rows w !! id with
  | Some row =>
      if decide (row_lockedBy row = Some (claim_owner claim))
      then (inr (Some (toRecord id (save_row claim progress row))),
            set_rows (<[id := save_row claim progress row]> (rows w)) w)
      else (inr None, w)
  | None => (inr None, w)
  end.

(** [update] of one row by its key; it throws when there is none. *)
Definition prisma_abandon {W} `{!HasSagaRows W} (id : string) (reason : JSText) : Eff W Thrown unit := fun w =>
  match rows w !! id with
  | Some row =>
      let row' := {|
        row_name := row_name row; row_status := STUCK; row_cursor := row_cursor row;
        row_attempts := row_attempts row; row_nextAttemptAt := row_nextAttemptAt row;
        row_state := row_state row; row_log := row_log row; row_lastError := Some reason;
        row_correlationId := row_correlationId row; row_lockedBy := None; row_lockedUntil := None;
        row_createdAt := row_createdAt row; row_updatedAt := clock w |} in
      (inr tt, set_rows (<[id := row']> (rows w)) w)
  | None => (inl (ThrownError (PlainError (js "No record was found for an update"))), w)
  end.

Definition countByStatus {W} `{!HasSagaRows W} (status : SagaStatus) (w : W) : nat :=
  size (filter (fun kr : string * SagaRow => row_status kr.2 = status) (rows w)).

#[global] Instance PrismaSagaStore {W} `{!HasSagaRows W} : SagaStore W := {|
  store_create := prisma_create;
  store_find := prisma_find;
  store_claim := prisma_claim;
  store_claimDue := prisma_claimDue;
  store_save := prisma_save;
  store_abandon := prisma_abandon;
|}.

(** What a reader of the store sees. *)
Definition saga_table {W} `{!HasSagaRows W} (w : W) : gmap string SagaInstanceRecord :=
  map_imap (fun id row => Some (toRecord id row)) (rows w).

(** ** Rows and records *)

Lemma state_of_json_of_state s : state_of_json (json_of_state s) = s.
Proof.
  unfold state_of_json, json_of_state, object_members.
  by rewrite reverse_involutive, list_to_map_to_list.
Qed.

Lemma toRecord_lease id c row : toRecord id (lease_row c row) = leased c (toRecord id row).
Proof. done. Qed.

Lemma toRecord_save id c p row : toRecord id (save_row c p row) = saved c p (toRecord id row).
Proof. unfold toRecord, saved. f_equal. apply state_of_json_of_state. Qed.

Lemma toRecord_new n now : toRecord (new_id n) (new_row n now) = fresh_instance n now.
Proof. unfold toRecord, fresh_instance. f_equal. apply state_of_json_of_state. Qed.

#[export] Hint Rewrite toRecord_new toRecord_lease toRecord_save state_of_json_of_state : service.

#[global] Instance due_le_total : Total due_le.
Proof.
  intros [k r] [k' r']. unfold due_le; simpl.
  destruct (Z.lt_trichotomy (row_nextAttemptAt r) (row_nextAttemptAt r')) as [|[Heq|]]; [auto| |auto].
  destruct (String.leb_total k k'); auto.
Qed.

Lemma select_due_prefix now limit t :
  exists rest, StronglySorted (fun a b : string * SagaRow => row_nextAttemptAt a.2 <= row_nextAttemptAt b.2)
      (select_due now limit t ++ rest) /\
    select_due now limit t = take limit (select_due now limit t ++ rest) /\
    select_due now limit t ++ rest ≡ₚ filter (fun kr => row_claimable kr.2 now) (map_to_list t).
Proof.
  unfold select_due. set (l := merge_sort due_le _). exists (drop limit l).
  rewrite take_drop. split_and!; [|done|apply merge_sort_Permutation].
  apply Sorted_StronglySorted; [intros ???; lia|].
  eapply Sorted_weaken; [|apply (Sorted_merge_sort due_le)]. unfold due_le. intros; lia.
Qed.

Lemma elem_of_select_due now limit t id row :
  (id, row) ∈ select_due now limit t -> t !! id = Some row /\ row_claimable row now.
Proof.
  intros Hin. destruct (select_due_prefix now limit t) as (rest & _ & _ & Hp).
  assert ((id, row) ∈ select_due now limit t ++ rest) as Hin' by set_solver.
  rewrite Hp in Hin'. apply list_elem_of_filter in Hin' as [? Hin'].
  by apply elem_of_map_to_list in Hin'.
Qed.

Lemma select_due_NoDup now limit t : NoDup (select_due now limit t).*1.
Proof.
  destruct (select_due_prefix now limit t) as (rest & _ & _ & Hp).
  assert (NoDup (select_due now limit t ++ rest).*1) as Hnd.
  { rewrite Hp. eapply sublist_NoDup; [apply (NoDup_fst_map_to_list t)|].
    apply fmap_sublist, sublist_filter. }
  rewrite fmap_app in Hnd. by apply NoDup_app in Hnd as [? _].
Qed.

Lemma select_due_oldest now limit t a id row :
  a ∈ select_due now limit t -> t !! id = Some row -> row_claimable row now ->
  (id, row) ∉ select_due now limit t -> row_nextAttemptAt a.2 <= row_nextAttemptAt row.
Proof.
  intros Ha Hrow Hcl Hnot. destruct (select_due_prefix now limit t) as (rest & Hs & Heq & Hp).
  assert ((id, row) ∈ select_due now limit t ++ rest) as Hin.
  { rewrite Hp. apply list_elem_of_filter. split; [done|]. by apply elem_of_map_to_list. }
  apply elem_of_app in Hin as [?|Hin]; [done|].
  eapply (StronglySorted_take_drop _ (length (select_due now limit t)) _ a (id, row) Hs).
  - by rewrite take_app_length.
  - by rewrite drop_app_length.
Qed.

(** ** The implementation keeps the promise *)

Section prisma.
Context {W : Type} `{!HasSagaRows W, !HasSagaRowsLaws W}.

Lemma saga_table_lookup (w : W) id : saga_table w !! id = toRecord id <$> rows w !! id.
Proof. apply lookup_view. Qed.

Lemma saga_table_Some (w : W) id r :
  saga_table w !! id = Some r <-> exists row, rows w !! id = Some row /\ r = toRecord id row.
Proof. rewrite saga_table_lookup, fmap_Some. done. Qed.

Lemma saga_table_insert (w : W) id row :
  saga_table (set_rows (<[id := row]> (rows w)) w) = <[id := toRecord id row]> (saga_table w).
Proof. unfold saga_table. by rewrite rows_set_rows, view_insert. Qed.

Lemma claim_granted_prisma id c r (w : W) :
  saga_table w !! id = Some r -> isClaimable r (claim_now c) ->
  exists w', prisma_claim id c w = (inr (Some (leased c r)), w') /\
    saga_table w' = <[id := leased c r]> (saga_table w).
Proof.
  intros (row & Hrow & ->)%saga_table_Some Hcl. unfold prisma_claim. rewrite Hrow, decide_True by done.
  eexists. split; [done|]. apply saga_table_insert.
Qed.

Lemma claim_refused_prisma id c (w : W) :
  (forall r, saga_table w !! id = Some r -> ~ isClaimable r (claim_now c)) ->
  exists w', prisma_claim id c w = (inr None, w') /\ saga_table w' = saga_table w.
Proof.
  intros Hno. unfold prisma_claim. destruct (rows w !! id) as [row|] eqn:Hrow; [|eauto].
  rewrite decide_False; [eauto|]. apply (Hno (toRecord id row)). rewrite saga_table_lookup. by rewrite Hrow.
Qed.

Lemma save_held_prisma id c p r (w : W) :
  saga_table w !! id = Some r -> sr_lockedBy r = Some (claim_owner c) ->
  exists w', prisma_save id c p w = (inr (Some (saved c p r)), w') /\
    saga_table w' = <[id := saved c p r]> (saga_table w).
Proof.
  intros (row & Hrow & ->)%saga_table_Some Hl. unfold prisma_save. rewrite Hrow, decide_True by done.
  eexists. rewrite <-toRecord_save. split; [done|]. apply saga_table_insert.
Qed.

Lemma save_lost_prisma id c p (w : W) :
  (forall r, saga_table w !! id = Some r -> sr_lockedBy r <> Some (claim_owner c)) ->
  exists w', prisma_save id c p w = (inr None, w') /\ saga_table w' = saga_table w.
Proof.
  intros Hno. unfold prisma_save. destruct (rows w !! id) as [row|] eqn:Hrow; [|eauto].
  rewrite decide_False; [eauto|]. apply (Hno (toRecord id row)). rewrite saga_table_lookup. by rewrite Hrow.
Qed.

Lemma size_due now (w : W) :
  length (filter (fun kr : string * SagaRow => row_claimable kr.2 now) (map_to_list (rows w))) =
  size (filter (fun kr : string * SagaInstanceRecord => isClaimable kr.2 now) (saga_table w)).
Proof.
  trans (size (filter (fun kr : string * SagaRow => row_claimable kr.2 now) (rows w))).
  - rewrite map_filter_alt. rewrite <-length_map_to_list, map_to_list_to_map; [done|].
    eapply sublist_NoDup; [apply (NoDup_fst_map_to_list (rows w))|]. apply fmap_sublist, sublist_filter.
  - rewrite <-!size_dom. f_equal. apply set_eq. intros id. rewrite !elem_of_dom. unfold is_Some.
    setoid_rewrite map_lookup_filter_Some. setoid_rewrite saga_table_Some. simpl. naive_solver.
Qed.

Lemma claimDue_prisma c limit (w : W) :
  exists batch w', prisma_claimDue c limit w = (inr (leased c <$> batch), w') /\
    NoDup (sr_id <$> batch) /\
    length batch = Nat.min limit
      (size (filter (fun kr : string * SagaInstanceRecord => isClaimable kr.2 (claim_now c)) (saga_table w))) /\
    (forall r, r ∈ batch -> saga_table w !! sr_id r = Some r /\ isClaimable r (claim_now c)) /\
    (forall r id s, r ∈ batch -> saga_table w !! id = Some s -> isClaimable s (claim_now c) ->
       s ∉ batch -> sr_nextAttemptAt r <= sr_nextAttemptAt s) /\
    forall id, saga_table w' !! id =
      if decide (id ∈ (sr_id <$> batch)) then leased c <$> (saga_table w !! id) else saga_table w !! id.
Proof.
  set (sel := select_due (claim_now c) limit (rows w)).
  exists ((fun kr => toRecord kr.1 kr.2) <$> sel).
  assert (sr_id <$> ((fun kr => toRecord kr.1 kr.2) <$> sel) = sel.*1) as Hids
    by (by rewrite <-list_fmap_compose).
  assert (forall kr, kr ∈ sel -> rows w !! kr.1 = Some kr.2 /\ row_claimable kr.2 (claim_now c)) as Hsel.
  { intros [id row] Hin. by apply elem_of_select_due in Hin. }
  eexists. split_and!.
  - unfold prisma_claimDue. fold sel. rewrite <-list_fmap_compose. done.
  - rewrite Hids. apply select_due_NoDup.
  - rewrite length_fmap, <-size_due. unfold sel, select_due. rewrite length_take.
    f_equal. apply Permutation_length, merge_sort_Permutation.
  - intros r (kr & -> & Hkr)%list_elem_of_fmap. destruct (Hsel _ Hkr). split; [|done].
    apply saga_table_Some. eauto.
  - intros r id s (kr & -> & Hkr)%list_elem_of_fmap (row & Hrow & ->)%saga_table_Some Hcl Hnot. simpl.
    eapply (select_due_oldest _ _ _ kr id row Hkr); [done..|]. intros Hin. apply Hnot.
    apply list_elem_of_fmap. by exists (id, row).
  - intros id. rewrite Hids, !saga_table_lookup, rows_set_rows, lookup_union.
    destruct (decide (id ∈ sel.*1)) as [Hin|Hout].
    + apply list_elem_of_fmap in Hin as ([id' row] & -> & Hin). destruct (Hsel _ Hin) as [Hrow _].
      rewrite (elem_of_list_to_map_1 _ id' (lease_row c row)).
      * simpl in *. rewrite Hrow. by destruct (rows w !! id').
      * rewrite <-list_fmap_compose. apply select_due_NoDup.
      * apply list_elem_of_fmap. by exists (id', row).
    + rewrite (not_elem_of_list_to_map_1 _ id); [by destruct (rows w !! id)|].
      by rewrite <-list_fmap_compose.
Qed.

#[global] Instance PrismaSagaStore_spec : SagaStoreSpec W saga_table.
Proof.
  split.
  - intros n w Hnone. simpl. unfold prisma_create. rewrite saga_table_lookup in Hnone.
    destruct (rows w !! new_id n); [done|]. eexists (clock w), _. rewrite <-toRecord_new.
    split; [done|]. apply saga_table_insert.
  - intros id w. simpl. unfold prisma_find. by rewrite saga_table_lookup.
  - apply claim_granted_prisma.
  - apply claim_refused_prisma.
  - apply claimDue_prisma.
  - apply save_held_prisma.
  - apply save_lost_prisma.
  - intros id reason r w (row & Hrow & ->)%saga_table_Some. simpl. unfold prisma_abandon. rewrite Hrow.
    exists (clock w). eexists. split; [done|]. apply saga_table_insert.
Qed.

End prisma.
