(* ===== verification/SagaOrchestrator.v ===== *)
(** * SagaOrchestrator: one step at a time, against a durable row

    [src/src/saga/saga-orchestrator.service.ts] and
    [src/src/saga/saga-recovery.service.ts].  Everything here is written
    against the port [SagaStore]; the theorems use only [SagaStoreSpec]. *)

From S2P Require Import Prelude Json Backoff SagaDefinition SagaStore.

(** ** What the orchestrator reads from its process *)

(** The clock, the jitter source, the source of owner ids, which of the two
    promises of [call] settles first, and what a step that is left running
    has done to the world by the time its timer fires. *)
Class SagaEnv (W : Type) := {
  env_now : W -> Z;
  env_random : W -> Draw;
  env_randomUUID : W -> string;
  env_timedOut : string -> W -> bool;
  env_leave : (W -> W) -> W -> W;
}.

Record OrchestratorConfig := {
  cfg_leaseMs : Z;
  cfg_stepTimeoutMs : Z;
  cfg_policy : BackoffPolicy;
}.

(** ** Pure helpers *)

Definition entry (step : string) (direction : SagaDirection) (outcome : StepOutcome) (attempt at_ : Z)
    (error : option JSError) : SagaStepLogEntry := {|
  le_step := step; le_direction := direction; le_outcome := outcome; le_at := at_;
  le_attempt := attempt; le_error := (fun e => truncate (message_of e)) <$> error;
|}.

(** Members that are [undefined] are dropped rather than written. *)
Definition mergeState (state : SagaState) (patch : option SagaStatePatch) : SagaState :=
  match patch with
  | None => state
  | Some patch => omap (fun value => value) patch ∪ state
  end.

Definition idempotencyKey (sagaId step : string) : string := sagaId +:+ ":" +:+ step.

Definition context {W} (record : SagaInstanceRecord) (step : SagaStep W) (failure : option SagaFailure) :
    SagaStepContext := {|
  ctx_sagaId := sr_id record;
  ctx_state := sr_state record;
  ctx_idempotencyKey := idempotencyKey (sr_id record) (step_name step);
  ctx_correlationId := sr_correlationId record;
  ctx_failure := failure;
|}.

(** [definition.steps[index]], [undefined] outside the array. *)
Definition step_at {W} (definition : SagaDefinition W) (index : Z) : option (SagaStep W) :=
  if decide (0 <= index) then saga_steps definition !! Z.to_nat index else None.

Definition is_forward_completed (item : SagaStepLogEntry) : Prop :=
  le_direction item = Forward /\ le_outcome item = Completed.

#[global] Instance is_forward_completed_dec item : Decision (is_forward_completed item).
Proof. unfold is_forward_completed. apply _. Defined.

Definition is_forward_failed (item : SagaStepLogEntry) : Prop :=
  le_direction item = Forward /\ le_outcome item = Failed.

#[global] Instance is_forward_failed_dec item : Decision (is_forward_failed item).
Proof. unfold is_forward_failed. apply _. Defined.

(** [completed.forEach((item, index) => ...)]: the first that no longer names
    the step at its position. *)
Fixpoint first_mismatch (steps : list string) (index : nat) (completed : list SagaStepLogEntry) :
    option (SagaStepLogEntry * nat * option string) :=
  match completed with
  | [] => None
  | item :: rest =>
      if decide (steps !! index = Some (le_step item)) then first_mismatch steps (S index) rest
      else Some (item, index, steps !! index)
  end.

Definition assertResumable {W} (definition : SagaDefinition W) (record : SagaInstanceRecord) : option JSError :=
  match first_mismatch (step_name <$> saga_steps definition) 0
          (filter is_forward_completed (sr_log record)) with
  | None => None
  | Some (item, index, expected) =>
      Some (SagaResumeError (sr_id record)
        ("it completed " +:+ dq +:+ le_step item +:+ dq +:+ " at position " +:+ pretty index +:+
         ", where " +:+ dq +:+ saga_name definition +:+ dq +:+ " now has " +:+
         match expected with Some name => dq +:+ name +:+ dq | None => "nothing" end))
  end.

(** The last forward failure of the log. *)
Definition failureFrom {W} (definition : SagaDefinition W) (record : SagaInstanceRecord) : SagaFailure :=
  match last (filter is_forward_failed (sr_log record)) with
  | Some item => {|
      failure_step := le_step item;
      failure_message := match le_error item with
        | Some error => error
        | None => default (js "unknown failure") (sr_lastError record)
        end |}
  | None => {|
      failure_step := default "unknown"%string (step_name <$> step_at definition (sr_cursor record));
      failure_message := default (js "unknown failure") (sr_lastError record) |}
  end.

Section orchestrator.
Context {W : Type} `{!SagaStore W, !SagaEnv W}.
Context (cfg : OrchestratorConfig) (registry : SagaRegistry W).

Definition lease (owner : string) (now : Z) : SagaClaim :=
  {| claim_owner := owner; claim_now := now; claim_leaseMs := cfg_leaseMs cfg |}.

Definition retryAt (now attempt : Z) (error : JSError) (random : Draw) : option Z :=
  match error with
  | UnretryableStepError _ => None
  | _ => nextAttemptAt now attempt (cfg_policy cfg) random
  end.

(** The race of a step against its timeout.  The timeout stops the waiting,
    not the step: what it has done so far stays, and the rest happens later. *)
Definition call {A} (step : string) (work : Eff W Thrown A) : Eff W Thrown A := fun w =>
  if env_timedOut step w
  then (inl (ThrownError (SagaStepTimeoutError step (cfg_stepTimeoutMs cfg))), env_leave (fun w => snd (work w)) w)
  else work w.

Definition executeStep (definition : SagaDefinition W) (record : SagaInstanceRecord) (step : SagaStep W) :
    Eff W Thrown SagaProgress :=
  let attempt_no := sr_attempts record + 1 in
  let! now := reads env_now in
  let! outcome := attempt (call (step_name step) (step_execute step (context record step None))) in
  match outcome with
  | inr patch =>
      let cursor := sr_cursor record + 1 in
      let done := bool_decide (cursor >= Z.of_nat (length (saga_steps definition))) in
      ret {|
        pg_status := if done then COMPLETED else RUNNING;
        pg_cursor := cursor;
        pg_attempts := 0;
        pg_nextAttemptAt := now;
        pg_state := mergeState (sr_state record) patch;
        pg_entry := entry (step_name step) Forward Completed attempt_no now None;
        pg_lastError := sr_lastError record;
        pg_release := done |}
  | inl caught =>
      let error := asError caught in
      let! random := reads env_random in
      match retryAt now attempt_no error random with
      | Some at_ =>
          ret {|
            pg_status := RUNNING;
            pg_cursor := sr_cursor record;
            pg_attempts := attempt_no;
            pg_nextAttemptAt := at_;
            pg_state := sr_state record;
            pg_entry := entry (step_name step) Forward Failed attempt_no now (Some error);
            pg_lastError := Some (truncate (message_of error));
            pg_release := true |}
      | None =>
          if decide (step_kind step = Retriable) then
            ret {|
              pg_status := STUCK;
              pg_cursor := sr_cursor record;
              pg_attempts := attempt_no;
              pg_nextAttemptAt := now;
              pg_state := sr_state record;
              pg_entry := entry (step_name step) Forward Failed attempt_no now (Some error);
              pg_lastError := Some (truncate (message_of error));
              pg_release := true |}
          else
            ret {|
              pg_status := COMPENSATING;
              pg_cursor := sr_cursor record;
              pg_attempts := 0;
              pg_nextAttemptAt := now;
              pg_state := sr_state record;
              pg_entry := entry (step_name step) Forward Failed attempt_no now (Some error);
              pg_lastError := Some (truncate (message_of error));
              pg_release := false |}
      end
  end.

Definition compensateStep (definition : SagaDefinition W) (record : SagaInstanceRecord) (step : SagaStep W) :
    Eff W Thrown SagaProgress :=
  let attempt_no := sr_attempts record + 1 in
  let! now := reads env_now in
  let cursor := sr_cursor record - 1 in
  let done := bool_decide (cursor < 0) in
  match step with
  | CompensatableStep _ _ compensate =>
      let! outcome := attempt (call (step_name step)
        (compensate (context record step (Some (failureFrom definition record))))) in
      match outcome with
      | inr _ =>
          ret {|
            pg_status := if done then COMPENSATED else COMPENSATING;
            pg_cursor := cursor;
            pg_attempts := 0;
            pg_nextAttemptAt := now;
            pg_state := sr_state record;
            pg_entry := entry (step_name step) Backward Completed attempt_no now None;
            pg_lastError := sr_lastError record;
            pg_release := done |}
      | inl caught =>
          let error := asError caught in
          let! random := reads env_random in
          match retryAt now attempt_no error random with
          | Some at_ =>
              ret {|
                pg_status := COMPENSATING;
                pg_cursor := sr_cursor record;
                pg_attempts := attempt_no;
                pg_nextAttemptAt := at_;
                pg_state := sr_state record;
                pg_entry := entry (step_name step) Backward Failed attempt_no now (Some error);
                pg_lastError := sr_lastError record;
                pg_release := true |}
          | None =>
              ret {|
                pg_status := STUCK;
                pg_cursor := sr_cursor record;
                pg_attempts := attempt_no;
                pg_nextAttemptAt := now;
                pg_state := sr_state record;
                pg_entry := entry (step_name step) Backward Failed attempt_no now (Some error);
                pg_lastError := Some (truncate (message_of error));
                pg_release := true |}
          end
      end
  | _ =>
      ret {|
        pg_status := if done then COMPENSATED else COMPENSATING;
        pg_cursor := cursor;
        pg_attempts := 0;
        pg_nextAttemptAt := now;
        pg_state := sr_state record;
        pg_entry := entry (step_name step) Backward Skipped attempt_no now None;
        pg_lastError := sr_lastError record;
        pg_release := done |}
  end.

(** The one thing a saga does next. *)
Definition step (definition : SagaDefinition W) (record : SagaInstanceRecord) : Eff W Thrown SagaProgress :=
  match assertResumable definition record with
  | Some error => throw (ThrownError error)
  | None =>
      match step_at definition (sr_cursor record) with
      | None =>
          throw (ThrownError (SagaResumeError (sr_id record)
            ("cursor " +:+ pretty (sr_cursor record) +:+ " is outside the " +:+
             pretty (length (saga_steps definition)) +:+ " steps of " +:+
             dq +:+ saga_name definition +:+ dq)))
      | Some s =>
          if decide (sr_status record = COMPENSATING)
          then compensateStep definition record s
          else executeStep definition record s
      end
  end.

Definition abandon (record : SagaInstanceRecord) (reason : JSText) : Eff W Thrown SagaInstanceRecord :=
  do! store_abandon (sr_id record) (truncate reason) in
  let! found := store_find (sr_id record) in
  ret (default record found).

(** The loop of [drive], [fuel] iterations of it. *)
Fixpoint drive_loop (definition : SagaDefinition W) (owner : string) (fuel : nat) (current : SagaInstanceRecord) :
    Eff W Thrown SagaInstanceRecord :=
  match fuel with
  | O => ret current
  | S fuel =>
      if isTerminal (sr_status current) then ret current
      else
        let! outcome := attempt (step definition current) in
        match outcome with
        | inl caught => abandon current (message_of (asError caught))
        | inr progress =>
            let! now := reads env_now in
            let! result := store_save (sr_id current) (lease owner now) progress in
            match result with
            | None =>
                let! found := store_find (sr_id current) in
                ret (default current found)
            | Some next =>
                if pg_release progress then ret next
                else drive_loop definition owner fuel next
            end
        end
  end.

Definition drive (claimed : SagaInstanceRecord) (owner : string) : Eff W Thrown SagaInstanceRecord :=
  match registry_find registry (sr_name claimed) with
  | None =>
      abandon claimed (js ("no definition named " +:+ dq +:+ sr_name claimed +:+ dq +:+ " is registered"))
  | Some definition =>
      let maxIterations := (length (saga_steps definition) * 2 + 2)%nat in
      drive_loop definition owner maxIterations claimed
  end.

(** [advance(id, now = new Date())] *)
Definition advance (id : string) (now : Z) : Eff W Thrown (option SagaInstanceRecord) :=
  let! owner := reads env_randomUUID in
  let! claimed := store_claim id (lease owner now) in
  match claimed with
  | None => store_find id
  | Some claimed => let! settled := drive claimed owner in ret (Some settled)
  end.

Definition advanceClaimed := drive.

Definition start (name : string) (state : SagaState) (correlationId : option string) :
    Eff W Thrown SagaInstanceRecord :=
  match registry_find registry name with
  | None =>
      throw (ThrownError (PlainError (js ("No saga named " +:+ dq +:+ name +:+ dq +:+
        " is registered. It was removed, or never registered."))))
  | Some _ =>
      let! id := reads env_randomUUID in
      store_create {| new_id := id; new_name := name; new_state := state;
        new_correlationId := correlationId |}
  end.

(** ** Recovery *)

Record RecoveryReport := { report_claimed : nat; report_advanced : list (string * SagaStatus) }.

Definition advanceOne (instance : SagaInstanceRecord) (owner : string) : Eff W Thrown (string * SagaStatus) :=
  try_catch
    (let! settled := advanceClaimed instance owner in ret (sr_id settled, sr_status settled))
    (fun _ => ret (sr_id instance, sr_status instance)).

Fixpoint advanceAll (claimed : list SagaInstanceRecord) (owner : string) : Eff W Thrown (list (string * SagaStatus)) :=
  match claimed with
  | [] => ret []
  | instance :: rest =>
      let! one := advanceOne instance owner in
      let! others := advanceAll rest owner in
      ret (one :: others)
  end.

Definition runOnce (batchSize : nat) (now : Z) : Eff W Thrown RecoveryReport :=
  let! owner := reads env_randomUUID in
  let! claimed := store_claimDue (lease owner now) batchSize in
  let! advanced := advanceAll claimed owner in
  ret {| report_claimed := length claimed; report_advanced := advanced |}.

End orchestrator.
