(* ===== verification/SagaLifecycle.v ===== *)
(** * SagaLifecycle: what any number of runners can do to one instance

    The abstract specification of a step ([step_spec]), the transition system
    of one instance under concurrent runners ([sys_step]), the invariant of
    the row, and the theorems about sagas: the pivot is a point of no return,
    a compensated saga is undone completely and in reverse, a stale runner
    changes nothing, and [drive] settles. *)

From S2P Require Import Prelude Json Backoff SagaDefinition SagaStore SagaOrchestrator.

(** ** The specification of one step *)

Definition logs (p : SagaProgress) (name : string) (dir : SagaDirection) (out : StepOutcome) : Prop :=
  le_step (pg_entry p) = name /\ le_direction (pg_entry p) = dir /\ le_outcome (pg_entry p) = out.

Definition direction_of (r : SagaInstanceRecord) : SagaDirection :=
  if decide (sr_status r = COMPENSATING) then Backward else Forward.

(** Everything the step at the cursor may do to an unfinished instance,
    whatever the participants, the clock and the jitter do. *)
Inductive step_spec {W} (cfg : OrchestratorConfig) (def : SagaDefinition W) (r : SagaInstanceRecord)
    (p : SagaProgress) : Prop :=
| spec_advance s :
    step_at def (sr_cursor r) = Some s -> sr_status r <> COMPENSATING ->
    logs p (step_name s) Forward Completed ->
    pg_cursor p = sr_cursor r + 1 -> pg_attempts p = 0 ->
    pg_release p = bool_decide (sr_cursor r + 1 >= Z.of_nat (length (saga_steps def))) ->
    pg_status p = (if pg_release p then COMPLETED else RUNNING) ->
    step_spec cfg def r p
| spec_retry s :
    step_at def (sr_cursor r) = Some s ->
    logs p (step_name s) (direction_of r) Failed ->
    pg_cursor p = sr_cursor r -> pg_attempts p = sr_attempts r + 1 ->
    sr_attempts r + 1 < maxAttempts (cfg_policy cfg) ->
    pg_release p = true ->
    pg_status p = (if decide (sr_status r = COMPENSATING) then COMPENSATING else RUNNING) ->
    step_spec cfg def r p
| spec_turn s :
    step_at def (sr_cursor r) = Some s -> sr_status r <> COMPENSATING ->
    step_kind s <> Retriable ->
    logs p (step_name s) Forward Failed ->
    pg_cursor p = sr_cursor r -> pg_attempts p = 0 -> pg_release p = false ->
    pg_status p = COMPENSATING ->
    step_spec cfg def r p
| spec_back s out :
    step_at def (sr_cursor r) = Some s -> sr_status r = COMPENSATING ->
    out = (if decide (step_kind s = Compensatable) then Completed else Skipped) ->
    logs p (step_name s) Backward out ->
    pg_cursor p = sr_cursor r - 1 -> pg_attempts p = 0 ->
    pg_release p = bool_decide (sr_cursor r - 1 < 0) ->
    pg_status p = (if pg_release p then COMPENSATED else COMPENSATING) ->
    step_spec cfg def r p
| spec_stuck s :
    step_at def (sr_cursor r) = Some s ->
    (sr_status r <> COMPENSATING -> step_kind s = Retriable) ->
    logs p (step_name s) (direction_of r) Failed ->
    pg_cursor p = sr_cursor r -> pg_attempts p = sr_attempts r + 1 -> pg_release p = true ->
    pg_status p = STUCK ->
    step_spec cfg def r p.

(** ** The invariant of an instance *)

Definition forward_done (log : list SagaStepLogEntry) : list string :=
  le_step <$> filter is_forward_completed log.

Definition is_backward_done (item : SagaStepLogEntry) : Prop :=
  le_direction item = Backward /\ le_outcome item <> Failed.

#[global] Instance is_backward_done_dec item : Decision (is_backward_done item).
Proof. unfold is_backward_done. apply _. Defined.

Definition backward_done (log : list SagaStepLogEntry) : list string :=
  le_step <$> filter is_backward_done log.

Definition step_names {W} (def : SagaDefinition W) : list string := step_name <$> saga_steps def.

(** Going forward: the cursor counts the completed steps, and nothing has been
    undone. *)
Definition forward_phase (r : SagaInstanceRecord) : Prop :=
  sr_cursor r = Z.of_nat (length (forward_done (sr_log r))) /\ backward_done (sr_log r) = [].

(** Going backward from the step that failed, at position [k]: the steps after
    the cursor have been undone, last first. *)
Definition backward_phase {W} (def : SagaDefinition W) (r : SagaInstanceRecord) : Prop :=
  let k := length (forward_done (sr_log r)) in
  exists s, saga_steps def !! k = Some s /\ step_kind s <> Retriable /\
    -1 <= sr_cursor r <= Z.of_nat k /\
    backward_done (sr_log r) =
      take (Z.to_nat (Z.of_nat k - sr_cursor r)) (reverse (take (S k) (step_names def))).

Definition skips_ok {W} (def : SagaDefinition W) (log : list SagaStepLogEntry) : Prop :=
  forall item, item ∈ log -> le_direction item = Backward -> le_outcome item = Skipped ->
    exists s, s ∈ saga_steps def /\ step_name s = le_step item /\ step_kind s <> Compensatable.

Definition inst_inv {W} (cfg : OrchestratorConfig) (def : SagaDefinition W) (r : SagaInstanceRecord) : Prop :=
  let k := length (forward_done (sr_log r)) in
  forward_done (sr_log r) = take k (step_names def) /\
  skips_ok def (sr_log r) /\
  0 <= sr_attempts r /\
  match sr_status r with
  | RUNNING => forward_phase r /\ (k < length (saga_steps def))%nat /\
      sr_attempts r < Z.max 1 (maxAttempts (cfg_policy cfg))
  | COMPLETED => forward_phase r /\ k = length (saga_steps def)
  | COMPENSATING => backward_phase def r /\ 0 <= sr_cursor r /\
      sr_attempts r < Z.max 1 (maxAttempts (cfg_policy cfg))
  | COMPENSATED => backward_phase def r /\ sr_cursor r = -1
  | STUCK => forward_phase r \/ backward_phase def r
  end.

(** ** Any number of runners *)

(** The row, what each live runner believes the row to be, and every owner id
    drawn so far. *)
Record Sys := {
  sys_row : SagaInstanceRecord;
  sys_runners : gmap string SagaInstanceRecord;
  sys_used : gset string;
}.

Inductive sys_step {W} (cfg : OrchestratorConfig) (def : SagaDefinition W) : Sys -> Sys -> Prop :=
| sys_claim s c :
    claim_owner c ∉ sys_used s -> isClaimable (sys_row s) (claim_now c) ->
    sys_step cfg def s {|
      sys_row := leased c (sys_row s);
      sys_runners := <[claim_owner c := leased c (sys_row s)]> (sys_runners s);
      sys_used := {[claim_owner c]} ∪ sys_used s |}
| sys_save s c cur p :
    sys_runners s !! claim_owner c = Some cur -> isTerminal (sr_status cur) = false ->
    step_spec cfg def cur p -> sr_lockedBy (sys_row s) = Some (claim_owner c) ->
    sys_step cfg def s {|
      sys_row := saved c p (sys_row s);
      sys_runners := if pg_release p then delete (claim_owner c) (sys_runners s)
                     else <[claim_owner c := saved c p (sys_row s)]> (sys_runners s);
      sys_used := sys_used s |}
| sys_lost s o cur :
    sys_runners s !! o = Some cur -> sr_lockedBy (sys_row s) <> Some o ->
    sys_step cfg def s {|
      sys_row := sys_row s; sys_runners := delete o (sys_runners s); sys_used := sys_used s |}
| sys_abandon s o cur reason now :
    sys_runners s !! o = Some cur ->
    sys_step cfg def s {|
      sys_row := abandoned reason now (sys_row s);
      sys_runners := delete o (sys_runners s); sys_used := sys_used s |}
| sys_crash s o :
    sys_step cfg def s {|
      sys_row := sys_row s; sys_runners := delete o (sys_runners s); sys_used := sys_used s |}.

Definition sys_init (n : NewSagaInstance) (now : Z) : Sys :=
  {| sys_row := fresh_instance n now; sys_runners := ∅; sys_used := ∅ |}.

(** A saga of [def] that any interleaving of runners can reach. *)
Definition reachable {W} (cfg : OrchestratorConfig) (def : SagaDefinition W) (s : Sys) : Prop :=
  exists n now, rtc (sys_step cfg def) (sys_init n now) s.

Definition sys_inv {W} (cfg : OrchestratorConfig) (def : SagaDefinition W) (s : Sys) : Prop :=
  inst_inv cfg def (sys_row s) /\
  (forall o, sr_lockedBy (sys_row s) = Some o -> o ∈ sys_used s) /\
  (forall o cur, sys_runners s !! o = Some cur ->
     o ∈ sys_used s /\ (sr_lockedBy (sys_row s) = Some o -> cur = sys_row s)).

(** ** The code meets the specification of a step *)

Section step_refines.
Context {W : Type} `{!SagaStore W, !SagaEnv W}.
Context (cfg : OrchestratorConfig) (def : SagaDefinition W).

Lemma retryAt_Some now n e d t : retryAt cfg now n e d = Some t -> n < maxAttempts (cfg_policy cfg).
Proof.
  unfold retryAt, nextAttemptAt. destruct e; [done|..];
    (case_match eqn:Hd; [|done]); intros _; by eapply nextAttemptDelayMs_Some.
Qed.

Lemma executeStep_spec r s w :
  step_at def (sr_cursor r) = Some s -> sr_status r <> COMPENSATING ->
  exists p, fst (executeStep cfg def r s w) = inr p /\ step_spec cfg def r p.
Proof.
  intros Hs Hst. unfold executeStep, bind, reads, attempt, ret.
  assert (direction_of r = Forward) as Hdir by (unfold direction_of; by rewrite decide_False).
  destruct (call _ _ _ _) as [[e|patch] w1]; simpl.
  - destruct (retryAt _ _ _ _ _) eqn:Hr; simpl.
    + eexists. split; [done|]. eapply spec_retry; simpl; rewrite ?Hdir, ?decide_False by done; try done.
      by eapply retryAt_Some.
    + destruct (decide (step_kind s = Retriable)); simpl; (eexists; split; [done|]).
      * eapply spec_stuck; simpl; rewrite ?Hdir; done.
      * eapply spec_turn; simpl; done.
  - eexists. split; [done|]. eapply spec_advance; simpl; done.
Qed.

Lemma compensateStep_spec r s w :
  step_at def (sr_cursor r) = Some s -> sr_status r = COMPENSATING ->
  exists p, fst (compensateStep cfg def r s w) = inr p /\ step_spec cfg def r p.
Proof.
  intros Hs Hst. unfold compensateStep, bind, reads, attempt, ret.
  assert (direction_of r = Backward) as Hdir by (unfold direction_of; by rewrite decide_True).
  destruct s as [name ex comp|name ex|name ex].
  - destruct (call _ _ _ _) as [[e|[]] w1]; simpl.
    + destruct (retryAt _ _ _ _ _) eqn:Hr; simpl; (eexists; split; [done|]).
      * eapply spec_retry; simpl; rewrite ?Hdir, ?decide_True by done; try done. by eapply retryAt_Some.
      * eapply spec_stuck; simpl; rewrite ?Hdir; done.
    + eexists; split; [done|]. eapply spec_back; simpl; done.
  - eexists; split; [done|]. eapply spec_back; simpl; done.
  - eexists; split; [done|]. eapply spec_back; simpl; done.
Qed.

(** A step of an instance whose cursor is on a step, and whose log still
    matches the definition, never throws, and does what is specified. *)
Lemma step_refines_spec r s w :
  assertResumable def r = None -> step_at def (sr_cursor r) = Some s ->
  exists p, fst (step cfg def r w) = inr p /\ step_spec cfg def r p.
Proof.
  intros Hres Hs. unfold step. rewrite Hres, Hs. case_decide.
  - by apply compensateStep_spec.
  - by apply executeStep_spec.
Qed.

End step_refines.

(** ** The invariant is inductive *)

Section invariant.
Context {W : Type} (cfg : OrchestratorConfig) (def : SagaDefinition W).
Implicit Types (r : SagaInstanceRecord) (p : SagaProgress).

Lemma step_at_Some index s :
  step_at def index = Some s <-> 0 <= index /\ saga_steps def !! Z.to_nat index = Some s.
Proof. unfold step_at. case_decide; naive_solver. Qed.

Lemma step_names_lookup i s : saga_steps def !! i = Some s -> step_names def !! i = Some (step_name s).
Proof. intros Hs. unfold step_names. by rewrite list_lookup_fmap, Hs. Qed.

Lemma forward_done_app log e :
  forward_done (log ++ [e]) =
  forward_done log ++ (if decide (is_forward_completed e) then [le_step e] else []).
Proof.
  unfold forward_done. rewrite filter_app, fmap_app. f_equal.
  destruct (decide (is_forward_completed e)).
  - by rewrite filter_cons_True.
  - by rewrite filter_cons_False.
Qed.

Lemma backward_done_app log e :
  backward_done (log ++ [e]) =
  backward_done log ++ (if decide (is_backward_done e) then [le_step e] else []).
Proof.
  unfold backward_done. rewrite filter_app, fmap_app. f_equal.
  destruct (decide (is_backward_done e)).
  - by rewrite filter_cons_True.
  - by rewrite filter_cons_False.
Qed.

(** A failure adds nothing to either history. *)
Lemma done_app_failed log e :
  le_outcome e = Failed ->
  forward_done (log ++ [e]) = forward_done log /\ backward_done (log ++ [e]) = backward_done log.
Proof.
  intros Hf. rewrite forward_done_app, backward_done_app, !decide_False, !app_nil_r; [done|..];
    unfold is_forward_completed, is_backward_done; rewrite Hf; naive_solver.
Qed.

Lemma done_app_forward log e :
  le_direction e = Forward -> le_outcome e = Completed ->
  forward_done (log ++ [e]) = forward_done log ++ [le_step e] /\
  backward_done (log ++ [e]) = backward_done log.
Proof.
  intros Hd Ho. rewrite forward_done_app, backward_done_app, decide_True, decide_False, app_nil_r; [done|..];
    unfold is_forward_completed, is_backward_done; rewrite Hd; naive_solver.
Qed.

Lemma done_app_backward log e :
  le_direction e = Backward -> le_outcome e <> Failed ->
  forward_done (log ++ [e]) = forward_done log /\
  backward_done (log ++ [e]) = backward_done log ++ [le_step e].
Proof.
  intros Hd Ho. rewrite forward_done_app, backward_done_app, decide_False, decide_True, app_nil_r; [done|..];
    unfold is_forward_completed, is_backward_done; rewrite Hd; naive_solver.
Qed.

Lemma skips_ok_app log e :
  skips_ok def log ->
  (le_direction e = Backward -> le_outcome e = Skipped ->
   exists s, s ∈ saga_steps def /\ step_name s = le_step e /\ step_kind s <> Compensatable) ->
  skips_ok def (log ++ [e]).
Proof.
  intros Hl He item. rewrite elem_of_app, list_elem_of_singleton. intros [Hi| ->]; [by apply Hl|done].
Qed.

(** The names undone so far, one further back. *)
Lemma backward_step k c s :
  saga_steps def !! Z.to_nat c = Some s -> 0 <= c <= Z.of_nat k -> (k < length (saga_steps def))%nat ->
  take (Z.to_nat (Z.of_nat k - c)) (reverse (take (S k) (step_names def))) ++ [step_name s] =
  take (Z.to_nat (Z.of_nat k - (c - 1))) (reverse (take (S k) (step_names def))).
Proof.
  intros Hs Hc Hk. replace (Z.to_nat (Z.of_nat k - (c - 1))) with (S (Z.to_nat (Z.of_nat k - c))) by lia.
  symmetry. apply take_S_r.
  assert (length (take (S k) (step_names def)) = S k) as Hlen.
  { rewrite length_take. unfold step_names. rewrite length_fmap. lia. }
  rewrite reverse_lookup by lia. rewrite Hlen.
  replace (S k - S (Z.to_nat (Z.of_nat k - c)))%nat with (Z.to_nat c) by lia.
  rewrite lookup_take_lt by lia. by apply step_names_lookup.
Qed.

Lemma unfinished_running r :
  isTerminal (sr_status r) = false -> sr_status r <> COMPENSATING -> sr_status r = RUNNING.
Proof. by destruct (sr_status r). Qed.

(** An unfinished instance is on a step, and its log matches the definition. *)
Lemma inv_cursor r :
  inst_inv cfg def r -> isTerminal (sr_status r) = false ->
  exists s, step_at def (sr_cursor r) = Some s.
Proof.
  intros (_ & _ & _ & Hst) Ht. setoid_rewrite step_at_Some.
  destruct (sr_status r); try done.
  - destruct Hst as ([Hc _] & Hk & _). rewrite Hc, Nat2Z.id.
    destruct (lookup_lt_is_Some_2 (saga_steps def) (length (forward_done (sr_log r)))) as [s Hs]; [lia|].
    exists s. split; [lia|done].
  - destruct Hst as ((s & Hs & _ & Hc & _) & H0 & _).
    destruct (lookup_lt_is_Some_2 (saga_steps def) (Z.to_nat (sr_cursor r))) as [s' Hs'].
    { apply lookup_lt_Some in Hs. lia. }
    by exists s'.
Qed.

Lemma first_mismatch_None l i completed :
  (le_step <$> completed) = take (length completed) (drop i l) -> first_mismatch l i completed = None.
Proof.
  revert i. induction completed as [|e completed IH]; intros i Heq; [done|]. csimpl in *.
  destruct (drop i l) as [|x rest] eqn:Hd; [done|]. simpl in Heq. injection Heq as Hx Hrest.
  rewrite decide_True.
  - apply IH. rewrite Hrest. f_equal. replace (S i) with (i + 1)%nat by lia. by rewrite <-drop_drop, Hd.
  - rewrite <-(Nat.add_0_r i), <-lookup_drop, Hd, Hx. done.
Qed.

Lemma inv_resumable r : inst_inv cfg def r -> assertResumable def r = None.
Proof.
  intros (Hf & _). unfold assertResumable. rewrite first_mismatch_None; [done|].
  rewrite drop_0. unfold forward_done in Hf. by rewrite length_fmap in Hf.
Qed.

(** The three clauses of the invariant a failure leaves alone. *)
Lemma inv_saved_failed c p r :
  inst_inv cfg def r -> isTerminal (sr_status r) = false ->
  le_outcome (pg_entry p) = Failed -> pg_cursor p = sr_cursor r -> 0 <= pg_attempts p ->
  (pg_status p = sr_status r /\ pg_attempts p < Z.max 1 (maxAttempts (cfg_policy cfg)) \/ pg_status p = STUCK) ->
  inst_inv cfg def (saved c p r).
Proof.
  intros (Hf & Hsk & Ha & Hst) Ht Hout Hcur Hatt Hstat.
  destruct (done_app_failed (sr_log r) (pg_entry p) Hout) as [Hfd Hbd].
  unfold inst_inv, forward_phase, backward_phase in *. simpl. rewrite Hfd, Hbd, Hcur.
  split_and!; [done|apply skips_ok_app; [done|]; intros _; by rewrite Hout|done|].
  destruct Hstat as [[-> Hlt]| ->]; destruct (sr_status r); naive_solver.
Qed.

Lemma inv_advance c p r s :
  inst_inv cfg def r -> sr_status r = RUNNING -> step_at def (sr_cursor r) = Some s ->
  logs p (step_name s) Forward Completed -> pg_cursor p = sr_cursor r + 1 -> pg_attempts p = 0 ->
  pg_release p = bool_decide (sr_cursor r + 1 >= Z.of_nat (length (saga_steps def))) ->
  pg_status p = (if pg_release p then COMPLETED else RUNNING) ->
  inst_inv cfg def (saved c p r).
Proof.
  intros (Hf & Hsk & Ha & Hst) Hrun Hs (Hn & Hd & Ho) Hcur Hatt Hrel Hstat.
  rewrite Hrun in Hst. destruct Hst as ((Hc & Hb) & Hk & _).
  destruct (done_app_forward (sr_log r) (pg_entry p) Hd Ho) as [Hfd Hbd].
  apply step_at_Some in Hs as [_ Hs]. rewrite Hc, Nat2Z.id in Hs.
  unfold inst_inv, forward_phase in *. simpl. rewrite Hfd, Hbd, Hn, Hcur, Hatt, Hb, Hstat, length_app, Hc.
  cbn [length]. rewrite Nat.add_1_r.
  split_and!; [|apply skips_ok_app; [done|]; by rewrite Hd|done|].
  - rewrite (take_S_r _ _ (step_name s)) by by apply step_names_lookup. by rewrite <-Hf.
  - rewrite Hrel. case_bool_decide; split_and!; lia || done.
Qed.

Lemma inv_turn c p r s :
  inst_inv cfg def r -> sr_status r = RUNNING -> step_at def (sr_cursor r) = Some s ->
  step_kind s <> Retriable -> logs p (step_name s) Forward Failed ->
  pg_cursor p = sr_cursor r -> pg_attempts p = 0 -> pg_status p = COMPENSATING ->
  inst_inv cfg def (saved c p r).
Proof.
  intros (Hf & Hsk & Ha & Hst) Hrun Hs Hkind (Hn & Hd & Ho) Hcur Hatt Hstat.
  rewrite Hrun in Hst. destruct Hst as ((Hc & Hb) & Hk & _).
  destruct (done_app_failed (sr_log r) (pg_entry p) Ho) as [Hfd Hbd].
  apply step_at_Some in Hs as [_ Hs]. rewrite Hc, Nat2Z.id in Hs.
  unfold inst_inv, backward_phase. simpl. rewrite Hfd, Hbd, Hcur, Hatt, Hstat, Hc.
  split_and!; [done|apply skips_ok_app; [done|]; by rewrite Hd|done| |lia|lia].
  exists s. split_and!; [done|done|lia|lia|]. by rewrite Z.sub_diag, Hb.
Qed.

Lemma inv_back c p r s out :
  inst_inv cfg def r -> sr_status r = COMPENSATING -> step_at def (sr_cursor r) = Some s ->
  out = (if decide (step_kind s = Compensatable) then Completed else Skipped) ->
  logs p (step_name s) Backward out -> pg_cursor p = sr_cursor r - 1 -> pg_attempts p = 0 ->
  pg_release p = bool_decide (sr_cursor r - 1 < 0) ->
  pg_status p = (if pg_release p then COMPENSATED else COMPENSATING) ->
  inst_inv cfg def (saved c p r).
Proof.
  intros (Hf & Hsk & Ha & Hst) Hcomp Hs Hout (Hn & Hd & Ho) Hcur Hatt Hrel Hstat.
  rewrite Hcomp in Hst. destruct Hst as ((f & Hk & Hkind & Hrange & Hb) & H0 & _).
  assert (out <> Failed) by (rewrite Hout; by case_decide).
  destruct (done_app_backward (sr_log r) (pg_entry p) Hd ltac:(by rewrite Ho)) as [Hfd Hbd].
  apply step_at_Some in Hs as [_ Hs].
  assert (backward_phase def (saved c p r)) as Hbp.
  { unfold backward_phase. simpl. rewrite Hfd, Hbd, Hcur. exists f. split_and!; [done|done|lia|lia|].
    rewrite Hb, Hn. apply backward_step; [done|lia|]. by eapply lookup_lt_Some. }
  unfold inst_inv. simpl. rewrite Hfd, Hatt, Hstat, Hrel, Hcur.
  split_and!; [done| |done|].
  - apply skips_ok_app; [done|]. intros _ Hsk'. exists s. split_and!; [|done|].
    + by eapply list_elem_of_lookup_2.
    + rewrite Ho, Hout in Hsk'. by case_decide.
  - case_bool_decide; split_and!; lia || done.
Qed.

(** Whatever a step did, writing it keeps the invariant. *)
Lemma inv_saved c p r :
  inst_inv cfg def r -> isTerminal (sr_status r) = false -> step_spec cfg def r p ->
  inst_inv cfg def (saved c p r).
Proof.
  intros Hinv Ht. pose proof Hinv as (_ & _ & Ha & _).
  destruct 1 as [s Hs Hst|s Hs (_ & _ & Ho) Hc Hatt Hlt _ Hstat|s Hs Hst|s out Hs Hst|s Hs Hk (_ & _ & Ho)].
  - eapply inv_advance; eauto using unfinished_running.
  - eapply inv_saved_failed; [done..|lia|]. left. split; [|lia].
    rewrite Hstat. case_decide; [done|]. symmetry. by apply unfinished_running.
  - eapply inv_turn; eauto using unfinished_running.
  - eapply inv_back; eauto.
  - eapply inv_saved_failed; [done..|lia|]. by right.
Qed.

Lemma inv_leased c r : inst_inv cfg def r -> inst_inv cfg def (leased c r).
Proof. done. Qed.

Lemma inv_abandoned reason now r : inst_inv cfg def r -> inst_inv cfg def (abandoned reason now r).
Proof.
  intros (Hf & Hsk & Ha & Hst). unfold inst_inv, forward_phase, backward_phase in *. simpl.
  split_and!; [done..|]. destruct (sr_status r); naive_solver.
Qed.

Lemma inv_fresh n now : saga_steps def <> [] -> inst_inv cfg def (fresh_instance n now).
Proof.
  intros Hne. unfold inst_inv, forward_phase. simpl. split_and!; [done| |done|done|done| |lia].
  - intros item Hitem. by apply not_elem_of_nil in Hitem.
  - destruct (saga_steps def); [done|]. simpl. lia.
Qed.

(** ** Runners *)

Lemma sys_inv_init n now : saga_steps def <> [] -> sys_inv cfg def (sys_init n now).
Proof. intros Hne. split_and!; [by apply inv_fresh|done|done]. Qed.

Lemma sys_inv_drop s o : sys_inv cfg def s ->
  sys_inv cfg def {| sys_row := sys_row s; sys_runners := delete o (sys_runners s); sys_used := sys_used s |}.
Proof.
  intros (Hinv & Hlock & Hrun). split_and!; [done|done|]. simpl.
  intros o' cur. rewrite lookup_delete. case_decide; [done|]. apply Hrun.
Qed.

Lemma sys_inv_step s s' : sys_inv cfg def s -> sys_step cfg def s s' -> sys_inv cfg def s'.
Proof.
  intros (Hinv & Hlock & Hrun) Hstep. destruct Hstep as [s c Hfresh Hcl|s c cur p Hcur Ht Hspec Hheld|s o cur Hcur Hno|s o cur reason now Hcur|s o].
  - split_and!; simpl; [by apply inv_leased|set_solver|].
    intros o cur. rewrite lookup_insert. case_decide; simplify_eq; [set_solver|].
    intros Hcur. split; [apply Hrun in Hcur; set_solver|]. congruence.
  - destruct (Hrun _ _ Hcur) as [Hused Heq]. specialize (Heq Hheld) as ->.
    split_and!; simpl; [by apply inv_saved| |].
    + intros o. destruct (pg_release p); [done|]. intros; congruence.
    + intros o cur. destruct (pg_release p).
      * rewrite lookup_delete. case_decide; [done|]. intros Hc. split; [by eapply Hrun|done].
      * rewrite lookup_insert. case_decide; simplify_eq; [split; [done|congruence]|].
        intros Hc. split; [by eapply Hrun|]. congruence.
  - by apply sys_inv_drop.
  - split_and!; simpl; [by apply inv_abandoned|done|].
    intros o' cur'. rewrite lookup_delete. case_decide; [done|]. intros Hc. split; [by eapply Hrun|done].
  - by apply sys_inv_drop.
Qed.

Lemma reachable_inv s : saga_steps def <> [] -> reachable cfg def s -> sys_inv cfg def s.
Proof.
  intros Hne (n & now & Hrtc). remember (sys_init n now) as s0 eqn:H0.
  assert (sys_inv cfg def s0) as Hinv by (subst; by apply sys_inv_init). clear H0.
  induction Hrtc; eauto using sys_inv_step.
Qed.

End invariant.

(** ** [drive] settles, and is a path of the transition system *)

(** Participants that keep out of the saga table, also while one is left
    running. *)
Definition isolated {W} `{!SagaEnv W} (table : W -> gmap string SagaInstanceRecord) (def : SagaDefinition W) : Prop :=
  (forall f : W -> W, (forall w, table (f w) = table w) -> forall w, table (env_leave f w) = table w) /\
  forall s, s ∈ saga_steps def ->
    (forall ctx w, table (snd (step_execute s ctx w)) = table w) /\
    match s with
    | CompensatableStep _ _ compensate => forall ctx w, table (snd (compensate ctx w)) = table w
    | _ => True
    end.

(** How many more times the loop can go round. *)
Definition remaining {W} (def : SagaDefinition W) (r : SagaInstanceRecord) : nat :=
  match sr_status r with
  | RUNNING => length (saga_steps def) * 2 + 1 - Z.to_nat (sr_cursor r)
  | COMPENSATING => S (Z.to_nat (sr_cursor r))
  | _ => 0
  end.

Section drive.
Context {W : Type} `{!SagaStore W, !SagaEnv W} (table : W -> gmap string SagaInstanceRecord)
  `{!SagaStoreSpec W table}.
Context (cfg : OrchestratorConfig) (def : SagaDefinition W) (Hiso : isolated table def).

Lemma call_table {A} name (work : Eff W Thrown A) :
  (forall w, table (snd (work w)) = table w) -> forall w, table (snd (call cfg name work w)) = table w.
Proof.
  intros Hw w. unfold call. destruct (env_timedOut name w); [|done]. by apply (proj1 Hiso).
Qed.

Lemma step_table r w : table (snd (step cfg def r w)) = table w.
Proof.
  unfold step. destruct (assertResumable def r); [done|].
  destruct (step_at def (sr_cursor r)) as [s|] eqn:Hs; [|done].
  apply step_at_Some in Hs as [_ Hs]. apply list_elem_of_lookup_2 in Hs.
  destruct (proj2 Hiso s Hs) as [Hex Hcomp]. case_decide.
  - unfold compensateStep, bind, reads, attempt, ret. destruct s as [name ex comp|?|?]; [|done..].
    pose proof (call_table name _ (Hcomp (context r (CompensatableStep name ex comp)
      (Some (failureFrom def r)))) w) as Hc. simpl in *.
    destruct (call _ _ _ _) as [[e|[]] w1]; simpl in *; [|done]. by destruct (retryAt _ _ _ _ _).
  - unfold executeStep, bind, reads, attempt, ret.
    pose proof (call_table (step_name s) _ (Hex (context r s None)) w) as Hc.
    destruct (call _ _ _ _) as [[e|patch] w1]; simpl in *; [|done].
    destruct (retryAt _ _ _ _ _); [done|]. by case_decide.
Qed.

(** A step that keeps the lease leaves strictly less to do. *)
Lemma remaining_decreases c p r :
  inst_inv cfg def r -> isTerminal (sr_status r) = false -> step_spec cfg def r p ->
  pg_release p = false ->
  isTerminal (pg_status p) = false /\ (remaining def (saved c p r) < remaining def r)%nat.
Proof.
  intros Hinv Ht Hspec Hrel. destruct (inv_cursor cfg def r Hinv Ht) as (s0 & Hs0).
  apply step_at_Some in Hs0 as [H0 Hlt%lookup_lt_Some].
  destruct Hspec as [s Hs Hst _ Hc _ Hr Hp|?|s Hs Hst _ _ Hc _ _ Hp|s out Hs Hst _ _ Hc _ Hr Hp|?]; [|congruence| | |congruence].
  - rewrite Hrel in Hp, Hr. symmetry in Hr. apply bool_decide_eq_false in Hr.
    unfold remaining. simpl. rewrite Hp, Hc, (unfinished_running r Ht Hst). split; [done|]. lia.
  - unfold remaining. simpl. rewrite Hp, Hc, (unfinished_running r Ht Hst). split; [done|]. lia.
  - rewrite Hrel in Hp, Hr. symmetry in Hr. apply bool_decide_eq_false in Hr.
    unfold remaining. simpl. rewrite Hp, Hc, Hst. split; [done|]. lia.
Qed.

Lemma drive_loop_settles owner fuel r w :
  inst_inv cfg def r -> isTerminal (sr_status r) = false ->
  table w !! sr_id r = Some r -> sr_lockedBy r = Some owner -> (remaining def r <= fuel)%nat ->
  exists r' w', drive_loop cfg def owner fuel r w = (inr r', w') /\
    sr_id r' = sr_id r /\ table w' = <[sr_id r := r']> (table w) /\ inst_inv cfg def r' /\ sr_lockedBy r' = None /\
    forall R U, R !! owner = Some r ->
      rtc (sys_step cfg def) {| sys_row := r; sys_runners := R; sys_used := U |}
        {| sys_row := r'; sys_runners := delete owner R; sys_used := U |}.
Proof.
  revert r w. induction fuel as [|fuel IH]; intros r w Hinv Ht Hrow Hlock Hfuel.
  { unfold remaining in Hfuel. destruct (inv_cursor cfg def r Hinv Ht) as (s0 & Hs0).
    apply step_at_Some in Hs0 as [? Hlt%lookup_lt_Some]. destruct (sr_status r); try done; lia. }
  cbn [drive_loop]. rewrite Ht.
  destruct (inv_cursor cfg def r Hinv Ht) as (s & Hs).
  destruct (step_refines_spec cfg def r s w (inv_resumable cfg def r Hinv) Hs) as (p & Hp & Hspec).
  pose proof (step_table r w) as Htab.
  unfold bind, attempt, reads. destruct (step cfg def r w) as [res w1]. simpl in Hp, Htab. subst res.
  set (c := lease cfg owner (env_now w1)).
  destruct (save_held (table := table) (sr_id r) c p r w1) as (w2 & -> & Hw2); [by rewrite Htab|done|].
  pose proof (inv_saved cfg def c p r Hinv Ht Hspec) as Hinv'.
  destruct (pg_release p) eqn:Hrel.
  - eexists _, _. split; [done|]. split_and!; [done|by rewrite Hw2, Htab|done|by simpl; rewrite Hrel|].
    intros R U HR. eapply rtc_once. eapply (eq_rect _ (fun x => sys_step _ _ _ x)).
    + by eapply (sys_save cfg def {| sys_row := r; sys_runners := R; sys_used := U |} c r p).
    + simpl. by rewrite Hrel.
  - destruct (remaining_decreases c p r Hinv Ht Hspec Hrel) as [Ht' Hdec].
    destruct (IH (saved c p r) w2) as (r' & w' & Heq & Hid & Hw' & Hinv'' & Hl & Hpath);
      [done|done|rewrite Hw2; apply lookup_insert_eq|by simpl; rewrite Hrel|lia|].
    exists r', w'. split; [done|]. split_and!; [done| |done|done|].
    + rewrite Hw', Hw2, Htab. simpl. by rewrite insert_insert_eq.
    + intros R U HR. eapply rtc_l.
      * by eapply (sys_save cfg def {| sys_row := r; sys_runners := R; sys_used := U |} c r p).
      * simpl. rewrite Hrel. rewrite <-(delete_insert_eq R owner (saved c p r)).
        apply Hpath. apply lookup_insert_eq.
Qed.

Lemma remaining_bound r :
  inst_inv cfg def r -> (remaining def r <= length (saga_steps def) * 2 + 2)%nat.
Proof.
  intros (_ & _ & _ & Hst). unfold remaining. destruct (sr_status r); try lia.
  destruct Hst as ((s & Hs%lookup_lt_Some & _ & ? & _) & _). lia.
Qed.

End drive.
