(* ===== verification/SagaTheorems.v ===== *)
(** * SagaTheorems: the properties of sagas, and concrete runs of them

    Theorems over the transition system of [SagaLifecycle], over the executable
    [drive] and [advance] of [SagaOrchestrator], and over any store that keeps
    the promise [SagaStoreSpec]; each with a run on a small checkout saga. *)

From S2P Require Import Prelude Json Backoff SagaDefinition SagaStore SagaOrchestrator SagaLifecycle.

(** ** Positions in a definition *)

Section positions.
Context {W : Type}.
Implicit Types (def : SagaDefinition W).

Lemma after_pivot_retriable def i k p s :
  saga_shape (saga_steps def) -> saga_steps def !! i = Some p -> step_kind p = Pivot ->
  saga_steps def !! k = Some s -> (i < k)%nat -> step_kind s = Retriable.
Proof.
  intros (before & mid & after & Heq & Hb & Hmid & Ha) Hi Hp Hk Hlt. rewrite Heq in Hi, Hk.
  apply lookup_app_Some in Hi as [Hi|[Hge Hi]].
  { eapply Forall_lookup in Hb; [|exact Hi]. congruence. }
  apply lookup_app_Some in Hk as [Hk|[_ Hk]]; [apply lookup_lt_Some in Hk; lia|].
  destruct Hmid as [[-> ->]|(p' & -> & _)]; [done|].
  destruct (k - length before)%nat as [|j] eqn:Hj; [lia|]. simpl in Hk. by eapply Forall_lookup in Ha.
Qed.

Lemma step_name_inj def s1 s2 :
  NoDup (step_names def) -> s1 ∈ saga_steps def -> s2 ∈ saga_steps def -> step_name s1 = step_name s2 -> s1 = s2.
Proof.
  intros Hnd [i Hi]%list_elem_of_lookup [j Hj]%list_elem_of_lookup Heq.
  apply step_names_lookup in Hi as Hi', Hj as Hj'. rewrite Heq in Hi'.
  pose proof (NoDup_lookup _ _ _ _ Hnd Hi' Hj') as ->. congruence.
Qed.

(** A step that completed sits before the first one that did not. *)
Lemma forward_done_position def p log :
  NoDup (step_names def) -> forward_done log = take (length (forward_done log)) (step_names def) ->
  p ∈ saga_steps def -> step_name p ∈ forward_done log ->
  exists i, saga_steps def !! i = Some p /\ (i < length (forward_done log))%nat.
Proof.
  intros Hnd Hf Hp Hin. apply list_elem_of_lookup in Hin as [i Hi].
  pose proof (lookup_lt_Some _ _ _ Hi) as Hlt.
  rewrite Hf, lookup_take_lt in Hi by done. unfold step_names in Hi. rewrite list_lookup_fmap in Hi.
  apply fmap_Some in Hi as (q & Hq & Hname). exists i. split; [|done].
  rewrite (step_name_inj def p q Hnd Hp) by (done || by eapply list_elem_of_lookup_2). done.
Qed.

End positions.

(** ** What the invariant says about the row *)

Section rows.
Context {W : Type} (cfg : OrchestratorConfig) (def : SagaDefinition W) (Hwf : saga_wf def).
Implicit Types (r : SagaInstanceRecord).

(** Nothing goes backward once a pivot has completed. *)
Lemma pivot_not_backward r p :
  inst_inv cfg def r -> p ∈ saga_steps def -> step_kind p = Pivot ->
  step_name p ∈ forward_done (sr_log r) -> ~ backward_phase def r.
Proof.
  destruct Hwf as (Hne & Hnd & Hshape). intros (Hf & _) Hp Hpk Hin (f & Hk & Hkind & _).
  destruct (forward_done_position def p _ Hnd Hf Hp Hin) as (i & Hi & Hlt).
  apply Hkind. by eapply (after_pivot_retriable def i _ p f).
Qed.

(** What lies between the cursor and the step that failed has been undone. *)
Lemma backward_logged r j u :
  inst_inv cfg def r -> backward_phase def r -> sr_cursor r < Z.of_nat j ->
  (j <= length (forward_done (sr_log r)))%nat -> saga_steps def !! j = Some u -> step_kind u = Compensatable ->
  exists item, item ∈ sr_log r /\ le_step item = step_name u /\
    le_direction item = Backward /\ le_outcome item = Completed.
Proof.
  destruct Hwf as (Hne & Hnd & Hshape). intros (_ & Hskip & _) (f & Hk & _ & Hrange & Hb) Hlt Hj Hu Hcomp.
  set (k := length (forward_done (sr_log r))) in *. pose proof (lookup_lt_Some _ _ _ Hk) as Hlen.
  assert (length (take (S k) (step_names def)) = S k) as Hlt'.
  { rewrite length_take. unfold step_names. rewrite length_fmap. lia. }
  assert (step_name u ∈ backward_done (sr_log r)) as Hin.
  { rewrite Hb. apply (list_elem_of_lookup_2 _ (k - j)). rewrite lookup_take_lt by lia.
    rewrite reverse_lookup, Hlt' by lia. replace (S k - S (k - j))%nat with j by lia.
    rewrite lookup_take_lt by lia. by apply step_names_lookup. }
  unfold backward_done in Hin. apply list_elem_of_fmap in Hin as (item & Hname & Hitem).
  apply list_elem_of_filter in Hitem as [[Hd Ho] Hitem]. exists item. split_and!; [done..|].
  destruct (le_outcome item) eqn:Hout; [done|done|].
  destruct (Hskip item Hitem Hd Hout) as (q & Hq & Hqname & Hqk).
  by rewrite (step_name_inj def q u) in Hqk; [|done|done|eapply list_elem_of_lookup_2|congruence].
Qed.

End rows.

(** ** Properties of every reachable state *)

(** A completed saga ran every step.  In every reachable state whose status
    is [COMPLETED] the forward history is the definition's steps, each once and
    in order, and nothing was undone. *)
Theorem completed_ran_all {W} cfg (def : SagaDefinition W) s :
  saga_steps def <> [] -> reachable cfg def s -> sr_status (sys_row s) = COMPLETED ->
  forward_done (sr_log (sys_row s)) = step_names def /\ backward_done (sr_log (sys_row s)) = [].
Proof.
  intros Hne Hreach Hst. destruct (reachable_inv cfg def s Hne Hreach) as ((Hf & _ & _ & Hinv) & _ & _).
  rewrite Hst in Hinv. destruct Hinv as ([_ Hb] & Hk). split; [|done].
  rewrite Hf, Hk. apply take_ge. unfold step_names. by rewrite length_fmap.
Qed.

(** A reachable saga can always be resumed.  In every reachable state whose
    saga is unfinished, the step at the cursor runs without throwing, whatever
    world it runs in, and what it decides to write is one of the specified
    moves: advance, retry later, turn around before or at the pivot, undo, or
    stop for an operator. *)
Theorem reachable_resumes {W} `{!SagaStore W, !SagaEnv W} cfg (def : SagaDefinition W) s w :
  saga_steps def <> [] -> reachable cfg def s -> isTerminal (sr_status (sys_row s)) = false ->
  exists p, fst (step cfg def (sys_row s) w) = inr p /\ step_spec cfg def (sys_row s) p.
Proof.
  intros Hne Hreach Ht. destruct (reachable_inv cfg def s Hne Hreach) as (Hinv & _ & _).
  destruct (inv_cursor cfg def _ Hinv Ht) as (st & Hst).
  by eapply step_refines_spec; [eapply inv_resumable|].
Qed.


(** ** Properties of the lease *)

Lemma claim_granted_inv {W} `{!SagaStore W} table `{!SagaStoreSpec W table} id c r w w' :
  store_claim id c w = (inr (Some r), w') ->
  exists r0, table w !! id = Some r0 /\ isClaimable r0 (claim_now c) /\ r = leased c r0 /\
    table w' = <[id := leased c r0]> (table w).
Proof.
  intros Hc. destruct (table w !! id) as [r0|] eqn:Hr0.
  - destruct (decide (isClaimable r0 (claim_now c))) as [Hcl|Hno].
    + destruct (claim_granted (table := table) id c r0 w Hr0 Hcl) as (? & Heq & ?).
      exists r0. split_and!; [done|done|congruence..].
    + destruct (claim_refused (table := table) id c w) as (? & ? & _); [naive_solver|congruence].
  - destruct (claim_refused (table := table) id c w) as (? & ? & _); [naive_solver|congruence].
Qed.

(** A lease excludes.  Over any store that keeps its promise, a claim that
    was granted refuses every later claim made before the lease runs out, and
    the refusal changes nothing. *)
Theorem claim_exclusive {W} `{!SagaStore W} table `{!SagaStoreSpec W table} id c1 c2 r w w1 :
  store_claim id c1 w = (inr (Some r), w1) ->
  claim_now c2 < claim_now c1 + claim_leaseMs c1 ->
  exists w2, store_claim id c2 w1 = (inr None, w2) /\ table w2 = table w1.
Proof.
  intros Hc1 Hnow. apply claim_refused. intros r1 Hr1 (_ & _ & Huntil).
  apply (claim_granted_inv table) in Hc1 as (r0 & _ & _ & _ & Hw1).
  rewrite Hw1, lookup_insert_eq in Hr1. simplify_eq/=. lia.
Qed.

(** A stale runner changes nothing.  Over any store that keeps its promise,
    when the first runner's lease has run out and a second runner with another
    owner id has claimed the saga, whatever the first runner still tries to
    save is refused and every row stays as the second runner left it. *)
Theorem stale_save_refused {W} `{!SagaStore W} table `{!SagaStoreSpec W table} id c1 c2 p r w w2 :
  claim_owner c1 <> claim_owner c2 ->
  store_claim id c2 w = (inr (Some r), w2) ->
  exists w3, store_save id c1 p w2 = (inr None, w3) /\ table w3 = table w2.
Proof.
  intros Hne Hc2. apply save_lost. intros r1 Hr1 Hlock.
  apply (claim_granted_inv table) in Hc2 as (r0 & _ & _ & _ & Hw2).
  rewrite Hw2, lookup_insert_eq in Hr1. by simplify_eq/=.
Qed.

(** Recovery drains oldest first and never takes a leased saga.  On the
    Postgres store, a poll claims exactly as many due instances as the limit
    allows, all of them unfinished, due and unleased; any due instance it left
    behind had been due no longer than any it took; and a second poll made
    before those leases run out takes none of them. *)
Theorem claimDue_oldest_first {W} `{!HasSagaRows W, !HasSagaRowsLaws W} c1 c2 limit1 limit2 (w : W) :
  claim_now c2 < claim_now c1 + claim_leaseMs c1 ->
  exists batch1 batch2 w1 w2,
    prisma_claimDue c1 limit1 w = (inr (leased c1 <$> batch1), w1) /\
    prisma_claimDue c2 limit2 w1 = (inr (leased c2 <$> batch2), w2) /\
    length batch1 = Nat.min limit1
      (size (filter (fun kr : string * SagaInstanceRecord => isClaimable kr.2 (claim_now c1)) (saga_table w))) /\
    (forall r, r ∈ batch1 -> isClaimable r (claim_now c1)) /\
    (forall r id s, r ∈ batch1 -> saga_table w !! id = Some s -> isClaimable s (claim_now c1) ->
       s ∉ batch1 -> sr_nextAttemptAt r <= sr_nextAttemptAt s) /\
    forall id, id ∈ (sr_id <$> batch1) -> id ∉ (sr_id <$> batch2).
Proof.
  intros Hnow.
  destruct (claimDue_prisma c1 limit1 w) as (b1 & w1 & Heq1 & _ & Hlen & Hb1 & Hold & Hw1).
  destruct (claimDue_prisma c2 limit2 w1) as (b2 & w2 & Heq2 & _ & _ & Hb2 & _ & _).
  exists b1, b2, w1, w2. split; [exact Heq1|]. split; [exact Heq2|]. split; [exact Hlen|].
  split; [intros r Hr; by apply Hb1|]. split; [exact Hold|].
  intros id Hid (r2 & -> & Hr2)%list_elem_of_fmap. destruct (Hb2 r2 Hr2) as [Hrow (_ & _ & Huntil)].
  rewrite Hw1, decide_True in Hrow by done. apply fmap_Some in Hrow as (r0 & _ & Heq).
  rewrite Heq in Huntil. simpl in Huntil. lia.
Qed.

(** Idempotency keys are stable and distinct.  Every attempt of one step of
    one saga is given the same key, and two steps of a well-formed definition,
    or two sagas whose ids have one length as UUIDs do, never share one. *)
Theorem idempotencyKey_distinct {W} (def : SagaDefinition W) id1 id2 s1 s2 :
  saga_wf def -> s1 ∈ saga_steps def -> s2 ∈ saga_steps def ->
  String.length id1 = String.length id2 ->
  idempotencyKey id1 (step_name s1) = idempotencyKey id2 (step_name s2) -> id1 = id2 /\ s1 = s2.
Proof.
  intros (_ & Hnd & _) H1 H2 Hlen Heq. unfold idempotencyKey in Heq.
  assert (id1 = id2 /\ step_name s1 = step_name s2) as [-> Hname]; [|split; [done|by eapply step_name_inj]].
  clear H1 H2. revert id2 Hlen Heq. induction id1 as [|a id1 IH]; intros [|b id2] Hlen Heq; simplify_eq/=; [done|].
  destruct (IH id2) as [-> ?]; [lia|done|done].
Qed.

(** ** A checkout to run *)

Record DemoWorld := { dw_rows : gmap string SagaRow; dw_clock : Z }.

#[global] Instance DemoWorld_rows : HasSagaRows DemoWorld := {|
  rows := dw_rows;
  set_rows t w := {| dw_rows := t; dw_clock := dw_clock w |};
  clock := dw_clock;
|}.

#[global] Instance DemoWorld_rows_laws : HasSagaRowsLaws DemoWorld.
Proof. done. Qed.

#[global] Instance DemoWorld_env : SagaEnv DemoWorld := {|
  env_now := dw_clock;
  env_random _ := {| draw_num := 1; draw_den := 2 |};
  env_randomUUID _ := "runner-1"%string;
  env_timedOut _ _ := false;
  env_leave f := f;
|}.

Definition demo_ok {A} (a : A) : SagaStepContext -> Eff DemoWorld Thrown A := fun _ => ret a.
Definition demo_refused {A} : SagaStepContext -> Eff DemoWorld Thrown A :=
  fun _ => throw (ThrownError (UnretryableStepError (js "nobody delivers there"))).

(** Reserve, ship (the pivot), confirm; shipping works or is refused. *)
Definition demo_def (ships : bool) : SagaDefinition DemoWorld := {|
  saga_name := "order.checkout";
  saga_steps := [
    CompensatableStep "reserve-stock" (demo_ok None) (demo_ok tt);
    PivotStep "create-shipment" (if ships then demo_ok None else demo_refused);
    RetriableStep "confirm-order" (demo_ok None)];
|}.

Definition demo_cfg : OrchestratorConfig := {|
  cfg_leaseMs := 30000; cfg_stepTimeoutMs := 10000;
  cfg_policy := {| baseMs := 500; maxMs := 60000; maxAttempts := 6 |};
|}.

Definition demo_new : NewSagaInstance :=
  {| new_id := "saga-1"; new_name := "order.checkout"; new_state := ∅; new_correlationId := None |}.
Definition demo_claim : SagaClaim := lease demo_cfg "runner-1" 100.
Definition demo_claimed : SagaInstanceRecord := leased demo_claim (fresh_instance demo_new 100).
Definition demo_world : DemoWorld :=
  {| dw_rows := {["saga-1"%string := lease_row demo_claim (new_row demo_new 100)]}; dw_clock := 100 |}.

Definition demo_settled (ships : bool) : SagaInstanceRecord :=
  match fst (drive_loop demo_cfg (demo_def ships) "runner-1" 8 demo_claimed demo_world) with
  | inr r => r
  | inl _ => demo_claimed
  end.

Definition demo_sys (ships : bool) : Sys := {|
  sys_row := demo_settled ships;
  sys_runners := delete "runner-1"%string {["runner-1"%string := demo_claimed]};
  sys_used := {["runner-1"%string]} ∪ ∅;
|}.

Lemma demo_isolated ships : isolated saga_table (demo_def ships).
Proof.
  split; [done|]. intros s Hs. unfold demo_def in Hs. simpl in Hs.
  repeat (apply elem_of_cons in Hs as [->|Hs]; [by destruct ships|]). by apply not_elem_of_nil in Hs.
Qed.

Lemma demo_row : saga_table demo_world !! sr_id demo_claimed = Some demo_claimed.
Proof. reflexivity. Qed.

Lemma demo_claimed_inv ships : inst_inv demo_cfg (demo_def ships) demo_claimed.
Proof. apply inv_leased, inv_fresh. discriminate. Qed.

Lemma demo_remaining ships : (remaining (demo_def ships) demo_claimed <= 8)%nat.
Proof. vm_compute. lia. Qed.

Lemma demo_reachable ships : reachable demo_cfg (demo_def ships) (demo_sys ships).
Proof.
  exists demo_new, 100. eapply rtc_l.
  { apply (sys_claim _ _ (sys_init demo_new 100) demo_claim); [set_solver|].
    split_and!; [by left|done|done]. }
  destruct (drive_loop_settles saga_table demo_cfg (demo_def ships) (demo_isolated ships) "runner-1" 8
    demo_claimed demo_world (demo_claimed_inv ships) eq_refl demo_row eq_refl (demo_remaining ships))
    as (r' & w' & Heq & _ & _ & _ & _ & Hpath).
  unfold demo_sys, demo_settled. rewrite Heq. apply Hpath. reflexivity.
Qed.

Lemma demo_wf ships : saga_wf (demo_def ships).
Proof.
  apply (defineSaga_wf "order.checkout" (saga_steps (demo_def ships))). by destruct ships.
Qed.

(** ** Witnesses *)

Lemma completed_ran_all_witness :
  forward_done (sr_log (sys_row (demo_sys true))) = ["reserve-stock"; "create-shipment"; "confirm-order"]%string.
Proof.
  apply (completed_ran_all demo_cfg (demo_def true) (demo_sys true)); [discriminate|apply demo_reachable|reflexivity].
Defined.

Lemma reachable_resumes_witness :
  exists p, fst (step demo_cfg (demo_def true) (sys_row (sys_init demo_new 100)) demo_world) = inr p /\
    step_spec demo_cfg (demo_def true) (sys_row (sys_init demo_new 100)) p.
Proof.
  apply reachable_resumes; [discriminate| |reflexivity].
  exists demo_new, 100. apply rtc_refl.
Defined.


Lemma claim_exclusive_witness :
  exists w2, store_claim "saga-1" (lease demo_cfg "runner-2" 30099)
    (snd (store_claim "saga-1" demo_claim
      {| dw_rows := {["saga-1"%string := new_row demo_new 100]}; dw_clock := 100 |})) = (inr None, w2).
Proof.
  destruct (claim_exclusive saga_table "saga-1" demo_claim (lease demo_cfg "runner-2" 30099) demo_claimed
    {| dw_rows := {["saga-1"%string := new_row demo_new 100]}; dw_clock := 100 |} demo_world)
    as (w2 & Heq & _); [reflexivity|reflexivity|].
  exists w2. exact Heq.
Defined.

Definition demo_progress : SagaProgress :=
  match fst (step demo_cfg (demo_def true) demo_claimed demo_world) with
  | inr p => p
  | inl _ => {| pg_status := STUCK; pg_cursor := 0; pg_attempts := 0; pg_nextAttemptAt := 0; pg_state := ∅;
      pg_entry := entry "" Forward Failed 0 0 None; pg_lastError := None; pg_release := true |}
  end.

Definition demo_retaken : Eff DemoWorld Thrown (option SagaInstanceRecord) :=
  store_claim "saga-1" (lease demo_cfg "runner-2" 30100).

Lemma stale_save_refused_witness :
  exists w3, store_save "saga-1" demo_claim demo_progress (snd (demo_retaken demo_world)) = (inr None, w3).
Proof.
  destruct (stale_save_refused saga_table "saga-1" demo_claim (lease demo_cfg "runner-2" 30100) demo_progress
    (leased (lease demo_cfg "runner-2" 30100) demo_claimed) demo_world (snd (demo_retaken demo_world)))
    as (w3 & Heq & _); [discriminate|reflexivity|].
  exists w3. exact Heq.
Defined.

Lemma claimDue_oldest_first_witness :
  exists batch1 batch2 w1 w2,
    prisma_claimDue (lease demo_cfg "runner-1" 40000) 1 demo_world = (inr (leased (lease demo_cfg "runner-1" 40000) <$> batch1), w1) /\
    prisma_claimDue (lease demo_cfg "runner-2" 50000) 1 w1 = (inr (leased (lease demo_cfg "runner-2" 50000) <$> batch2), w2) /\
    forall id, id ∈ (sr_id <$> batch1) -> id ∉ (sr_id <$> batch2).
Proof.
  destruct (claimDue_oldest_first (lease demo_cfg "runner-1" 40000) (lease demo_cfg "runner-2" 50000) 1 1 demo_world)
    as (b1 & b2 & w1 & w2 & H1 & H2 & _ & _ & _ & H3); [reflexivity|].
  exists b1, b2, w1, w2. split; [exact H1|]. split; [exact H2|exact H3].
Defined.

Lemma idempotencyKey_distinct_witness :
  idempotencyKey "saga-1" "reserve-stock" = "saga-1:reserve-stock"%string /\
  ("saga-1"%string = "saga-1"%string /\
   CompensatableStep "reserve-stock" (demo_ok None) (demo_ok tt) =
   CompensatableStep "reserve-stock" (demo_ok None) (demo_ok tt)).
Proof.
  split; [reflexivity|].
  apply (idempotencyKey_distinct (demo_def true)); [apply demo_wf|left|left|reflexivity|reflexivity].
Defined.

Lemma register_find_witness :
  registry_find [("order.checkout"%string, demo_def true)] "order.checkout" = Some (demo_def true) /\
  register [("order.checkout"%string, demo_def true)] (demo_def false) =
    inl {| error_saga := "order.checkout"; error_problem := RegisteredTwice |}.
Proof.
  destruct (register_find [] [("order.checkout"%string, demo_def true)] (demo_def true) (NoDup_nil_2) eq_refl)
    as (H1 & _ & _ & H2).
  split; [exact H1|]. apply H2. reflexivity.
Defined.
