(* ===== verification/SagaRuns.v ===== *)
(** * SagaRuns: the orchestrator's own code under any number of runners

    [src/src/saga/saga-orchestrator.service.ts] and
    [src/src/saga/saga-recovery.service.ts], cut where another process can get
    in between: the claim, the step, the save, the abandonment.  Every move of
    [run_step] is a call of the store or of [step] itself, on one shared world;
    [drive_is_a_run] shows that the loop of [drive] is a sequence of these
    moves.  What the participants were asked to do is read off an observation
    of the world, [calls], not off the log the orchestrator keeps. *)

From S2P Require Import Prelude Json Backoff SagaDefinition SagaStore SagaOrchestrator SagaLifecycle SagaTheorems.

(** ** What the participants see *)

(** A participant was called, and a participant's call came back without an
    error. *)
Inductive CallEvent :=
| Made (saga step : string) (dir : SagaDirection)
| Answered (saga step : string) (dir : SagaDirection).

Definition call_events {A} (saga step : string) (dir : SagaDirection) (r : Thrown + A) : list CallEvent :=
  Made saga step dir :: match r with inr _ => [Answered saga step dir] | inl _ => [] end.

(** [calls] observes the participants of [def]: each of their calls adds what it
    did, the store adds nothing, and a call that is left running has been made
    although it may not have been answered. *)
Class CallTrace (W : Type) `{!SagaStore W, !SagaEnv W} (calls : W -> list CallEvent) (def : SagaDefinition W) : Prop := {
  trace_execute s ctx w : s ∈ saga_steps def ->
    calls (snd (step_execute s ctx w)) =
    calls w ++ call_events (ctx_sagaId ctx) (step_name s) Forward (fst (step_execute s ctx w));
  trace_compensate name ex comp ctx w : CompensatableStep name ex comp ∈ saga_steps def ->
    calls (snd (comp ctx w)) = calls w ++ call_events (ctx_sagaId ctx) name Backward (fst (comp ctx w));
  trace_leave f w e es : calls (f w) = calls w ++ e :: es ->
    exists es', es' `prefix_of` es /\ calls (env_leave f w) = calls w ++ e :: es';
  trace_claim id c w : calls (snd (store_claim id c w)) = calls w;
  trace_claimDue c limit w : calls (snd (store_claimDue c limit w)) = calls w;
  trace_save id c p w : calls (snd (store_save id c p w)) = calls w;
  trace_abandon id reason w : calls (snd (store_abandon id reason w)) = calls w;
}.

(** ** Runs *)

(** A runner inside the loop of [drive]: about to take a step of the record it
    holds, or about to write down what the step came to. *)
Inductive Runner :=
| At (cur : SagaInstanceRecord)
| Decided (cur : SagaInstanceRecord) (outcome : Thrown + SagaProgress).

Definition belief (rn : Runner) : SagaInstanceRecord := match rn with At cur | Decided cur _ => cur end.

(** The world all share, the runners of one saga by owner id, and the owner ids
    drawn so far. *)
Record Run (W : Type) := { run_world : W; run_runners : gmap string Runner; run_used : gset string }.
Arguments run_world {W} _. Arguments run_runners {W} _. Arguments run_used {W} _.
Arguments Build_Run {W} _ _ _.

Section runs.
Context {W : Type} `{!SagaStore W, !SagaEnv W} (table : W -> gmap string SagaInstanceRecord) (calls : W -> list CallEvent).
Context (cfg : OrchestratorConfig) (def : SagaDefinition W) (id : string).

(** Not a new call on behalf of this saga. *)
Definition foreign (e : CallEvent) : Prop := match e with Made saga _ _ => saga <> id | Answered _ _ _ => True end.

Inductive run_step : Run W -> Run W -> Prop :=
| run_claim w R U owner now r w' :
    owner ∉ U -> store_claim id (lease cfg owner now) w = (inr (Some r), w') ->
    run_step (Build_Run w R U) (Build_Run w' (<[owner := At r]> R) ({[owner]} ∪ U))
| run_poll w R U owner now limit batch r w' :
    owner ∉ U -> store_claimDue (lease cfg owner now) limit w = (inr batch, w') -> r ∈ batch -> sr_id r = id ->
    run_step (Build_Run w R U) (Build_Run w' (<[owner := At r]> R) ({[owner]} ∪ U))
| run_decide w R U owner cur outcome w' :
    R !! owner = Some (At cur) -> isTerminal (sr_status cur) = false -> step cfg def cur w = (outcome, w') ->
    run_step (Build_Run w R U) (Build_Run w' (<[owner := Decided cur outcome]> R) U)
| run_saved w R U owner cur progress now next w' :
    R !! owner = Some (Decided cur (inr progress)) ->
    store_save (sr_id cur) (lease cfg owner now) progress w = (inr (Some next), w') ->
    run_step (Build_Run w R U)
      (Build_Run w' (if pg_release progress then delete owner R else <[owner := At next]> R) U)
| run_lost w R U owner cur progress now w' :
    R !! owner = Some (Decided cur (inr progress)) ->
    store_save (sr_id cur) (lease cfg owner now) progress w = (inr None, w') ->
    run_step (Build_Run w R U) (Build_Run w' (delete owner R) U)
| run_abandoned w R U owner rn reason w' :
    R !! owner = Some rn -> store_abandon (sr_id (belief rn)) reason w = (inr tt, w') ->
    run_step (Build_Run w R U) (Build_Run w' (delete owner R) U)
| run_died w R U owner : run_step (Build_Run w R U) (Build_Run w (delete owner R) U)
| run_elsewhere w R U w' es :
    table w' !! id = table w !! id -> calls w' = calls w ++ es -> Forall foreign es ->
    run_step (Build_Run w R U) (Build_Run w' R U).

(** The saga has just been written, and nobody has been called for it. *)
Definition run_start (s : Run W) : Prop :=
  exists n w0 r, new_id n = id /\ table w0 !! id = None /\ store_create n w0 = (inr r, run_world s) /\
    run_runners s = ∅ /\ run_used s = ∅ /\ Forall foreign (calls (run_world s)).

Definition run_reaches (s : Run W) : Prop := exists s0, run_start s0 /\ rtc run_step s0 s.

End runs.

(** ** The loop of [drive] is a run *)

Section drive.
Context {W : Type} `{!SagaStore W, !SagaEnv W} (table : W -> gmap string SagaInstanceRecord) (calls : W -> list CallEvent)
  `{!SagaStoreSpec W table}.
Context (cfg : OrchestratorConfig) (def : SagaDefinition W) (id : string).

Lemma save_total i c p w : exists result w', store_save i c p w = (inr result, w').
Proof.
  destruct (table w !! i) as [r|] eqn:Hr.
  - destruct (decide (sr_lockedBy r = Some (claim_owner c))).
    + edestruct (save_held i c p r w) as (w' & -> & _); [done|done|]. eauto.
    + edestruct (save_lost i c p w) as (w' & -> & _); [intros; by simplify_eq|]. eauto.
  - edestruct (save_lost i c p w) as (w' & -> & _); [intros; by simplify_eq|]. eauto.
Qed.

Lemma abandon_runs w R U owner rn fallback reason res w' row :
  R !! owner = Some rn -> table w !! sr_id fallback = Some row -> sr_id (belief rn) = sr_id fallback ->
  abandon fallback reason w = (res, w') ->
  run_step table calls cfg def id (Build_Run w R U) (Build_Run w' (delete owner R) U).
Proof.
  intros HR Hrow Hid H. unfold abandon, bind in H.
  destruct (abandon_spec (sr_id fallback) (truncate reason) row w Hrow) as (now & w1 & Heq & _).
  rewrite Heq, find_spec in H. injection H as _ <-. eapply run_abandoned; [done|]. by rewrite Hid.
Qed.

Lemma drive_loop_runs owner fuel r w res w' R U row :
  isolated table def -> table w !! sr_id r = Some row -> sr_id row = sr_id r -> R !! owner = Some (At r) ->
  drive_loop cfg def owner fuel r w = (res, w') ->
  exists R', delete owner R' = delete owner R /\
    rtc (run_step table calls cfg def id) (Build_Run w R U) (Build_Run w' R' U).
Proof.
  intros Hiso. revert r w R row. induction fuel as [|fuel IH]; intros r w R row Hrow Hid HR H; cbn [drive_loop] in H.
  { injection H as <- <-. by exists R. }
  destruct (isTerminal (sr_status r)) eqn:Ht. { injection H as <- <-. by exists R. }
  unfold bind at 1, attempt in H. pose proof (step_table table cfg def Hiso r w) as Htab.
  destruct (step cfg def r w) as [o w1] eqn:Hs. simpl in Htab.
  assert (run_step table calls cfg def id (Build_Run w R U) (Build_Run w1 (<[owner := Decided r o]> R) U)) as H1
    by by eapply run_decide.
  assert (<[owner := Decided r o]> R !! owner = Some (Decided r o)) as HR1 by apply lookup_insert_eq.
  destruct o as [caught|p].
  - exists (delete owner R). split; [by rewrite delete_delete_eq|]. eapply rtc_l; [done|]. apply rtc_once.
    rewrite <-(delete_insert_eq R owner (Decided r (inl caught))). rewrite <-Htab in Hrow. by eapply abandon_runs.
  - unfold bind at 1, reads, bind at 1 in H.
    destruct (save_total (sr_id r) (lease cfg owner (env_now w1)) p w1) as (result & w2 & Hsave). rewrite Hsave in H.
    destruct result as [next|].
    + assert (run_step table calls cfg def id (Build_Run w1 (<[owner := Decided r (inr p)]> R) U)
        (Build_Run w2 (if pg_release p then delete owner R else <[owner := At next]> R) U)) as H2.
      { eapply (eq_rect _ (run_step table calls cfg def id _)); [by eapply run_saved|].
        by rewrite delete_insert_eq, insert_insert_eq. }
      destruct (pg_release p).
      * injection H as _ <-. exists (delete owner R). split; [by rewrite delete_delete_eq|]. eapply rtc_l; [done|]. by apply rtc_once.
      * destruct (decide (sr_lockedBy row = Some owner)) as [Hl|Hl].
        2:{ destruct (save_lost (table := table) (sr_id r) (lease cfg owner (env_now w1)) p w1) as (w3 & He & _);
              [rewrite Htab; intros; by simplify_eq|]. congruence. }
        destruct (save_held (table := table) (sr_id r) (lease cfg owner (env_now w1)) p row w1) as (w3 & He & Hw3);
          [by rewrite Htab|done|]. rewrite Hsave in He. injection He as -> ->.
        destruct (IH (saved (lease cfg owner (env_now w1)) p row) w3 (<[owner := At (saved (lease cfg owner (env_now w1)) p row)]> R)
          (saved (lease cfg owner (env_now w1)) p row)) as (R' & HR' & Hrtc);
          [simpl; rewrite Hw3, Hid; apply lookup_insert_eq|done|apply lookup_insert_eq|done|].
        exists R'. split; [by rewrite HR', delete_insert_eq|]. by do 2 (eapply rtc_l; [done|]).
    + unfold bind in H. rewrite find_spec in H. injection H as _ <-.
      exists (delete owner R). split; [by rewrite delete_delete_eq|]. eapply rtc_l; [done|]. apply rtc_once.
      rewrite <-(delete_insert_eq R owner (Decided r (inr p))). by eapply run_lost.
Qed.


(** Whichever way [drive] goes, a claimed saga of this definition that is driven
    alone makes the moves of a run. *)
Lemma drive_is_a_run registry owner r w res w' U :
  isolated table def -> table w !! sr_id r = Some r ->
  (forall d, registry_find registry (sr_name r) = Some d -> d = def) ->
  drive cfg registry r owner w = (res, w') ->
  exists R', delete owner R' = ∅ /\
    rtc (run_step table calls cfg def id) (Build_Run w {[owner := At r]} U) (Build_Run w' R' U).
Proof.
  intros Hiso Hrow Hreg H. unfold drive in H. destruct (registry_find registry (sr_name r)) as [d|].
  - rewrite (Hreg d eq_refl) in H. destruct (drive_loop_runs _ _ _ _ _ _ {[owner := At r]} U r Hiso Hrow eq_refl
      ltac:(apply lookup_singleton_eq) H) as (R' & HR' & Hrtc).
    exists R'. by rewrite HR', delete_singleton_eq.
  - exists ∅. split; [done|]. apply rtc_once. rewrite <-(delete_singleton_eq owner (At r)).
    by eapply abandon_runs; [apply lookup_singleton_eq| | |].
Qed.

End drive.

(** ** What every state of a run has in common *)

Section invariant.
Context {W : Type} `{!SagaStore W, !SagaEnv W} (table : W -> gmap string SagaInstanceRecord) (calls : W -> list CallEvent)
  `{!SagaStoreSpec W table}.
Context (cfg : OrchestratorConfig) (def : SagaDefinition W) (id : string).
Context (Hwf : saga_wf def) (Hiso : isolated table def) `{!CallTrace W calls def}.
Implicit Types (r cur row : SagaInstanceRecord) (tr es : list CallEvent) (p : SagaProgress).

(** *** Calls *)

Lemma call_trace {A} name (work : Eff W Thrown A) step dir w :
  calls (snd (work w)) = calls w ++ call_events id step dir (fst (work w)) ->
  exists es, calls (snd (call cfg name work w)) = calls w ++ Made id step dir :: es /\
    (forall e, e ∈ es -> e = Answered id step dir) /\
    (forall a, fst (call cfg name work w) = inr a -> Answered id step dir ∈ es).
Proof.
  intros Hw. unfold call. destruct (env_timedOut name w).
  - destruct (trace_leave (fun w => snd (work w)) w _ _ Hw) as (es & Hpre & Hes). exists es. split_and!; [done| |done].
    intros e He. destruct Hpre as [rest Hrest]. destruct (fst (work w)); simpl in Hrest.
    + destruct es; simplify_list_eq. set_solver.
    + destruct es as [|? []]; simplify_list_eq; set_solver.
  - eexists. split; [exact Hw|]. destruct (fst (work w)) as [e|a] eqn:Hr; split; set_solver.
Qed.

(** A step calls its participant at most once, in the direction the record is
    going; and what it records as completed was answered. *)
Lemma step_trace cur s w outcome w' :
  sr_id cur = id -> assertResumable def cur = None -> step_at def (sr_cursor cur) = Some s ->
  step cfg def cur w = (outcome, w') ->
  exists es, calls w' = calls w ++ es /\
    (forall e, e ∈ es -> e = Made id (step_name s) (direction_of cur) \/ e = Answered id (step_name s) (direction_of cur)) /\
    (forall p, outcome = inr p -> le_outcome (pg_entry p) = Completed ->
       Answered id (le_step (pg_entry p)) (le_direction (pg_entry p)) ∈ es).
Proof.
  intros Hid Hres Hs H. unfold step in H. rewrite Hres, Hs in H.
  apply step_at_Some in Hs as [_ Hs]. apply list_elem_of_lookup_2 in Hs. unfold direction_of.
  destruct (decide (sr_status cur = COMPENSATING)).
  - unfold compensateStep, bind, reads, attempt, ret in H. destruct s as [name ex comp|name ex|name ex].
    2,3: injection H as <- <-; exists []; rewrite app_nil_r; split_and!; [done|set_solver|by intros p [= <-]].
    pose proof (trace_compensate name ex comp (context cur (CompensatableStep name ex comp) (Some (failureFrom def cur))) w Hs) as Htr.
    simpl in Htr. rewrite Hid in Htr. apply (call_trace name) in Htr as (es & Hes & Hin & Hok). simpl in *.
    destruct (call cfg name _ w) as [[err|[]] w1]; simpl in *.
    + assert (w' = w1) as -> by (destruct (retryAt _ _ _ _ _); by injection H).
      eexists. split; [exact Hes|]. split; [set_solver|]. intros p ->. destruct (retryAt _ _ _ _ _); by injection H as <-.
    + injection H as <- <-. eexists. split; [exact Hes|]. split; [set_solver|]. intros p [= <-] _. simpl. right. by eapply Hok.
  - unfold executeStep, bind, reads, attempt, ret in H.
    pose proof (trace_execute s (context cur s None) w Hs) as Htr.
    simpl in Htr. rewrite Hid in Htr. apply (call_trace (step_name s)) in Htr as (es & Hes & Hin & Hok).
    destruct (call cfg (step_name s) _ w) as [[err|patch] w1]; simpl in *.
    + assert (w' = w1) as -> by (destruct (retryAt _ _ _ _ _); [by injection H|]; case_decide; by injection H).
      eexists. split; [exact Hes|]. split; [set_solver|]. intros p ->.
      destruct (retryAt _ _ _ _ _); [by injection H as <-|]. case_decide; by injection H as <-.
    + injection H as <- <-. eexists. split; [exact Hes|]. split; [set_solver|]. intros p [= <-] _. simpl. right. by eapply Hok.
Qed.

(** *** Records over time *)

(** The saga has turned back. *)
Definition turned r : Prop :=
  sr_status r = COMPENSATING \/ sr_status r = COMPENSATED \/ sr_status r = STUCK /\ backward_phase def r.

(** [cur] is what [row] was at some earlier time. *)
Definition behind cur row : Prop :=
  (length (forward_done (sr_log cur)) <= length (forward_done (sr_log row)))%nat /\
  (turned cur -> turned row /\ forward_done (sr_log cur) = forward_done (sr_log row)).

(** What the log calls completed was answered. *)
Definition justified tr r : Prop :=
  forall item, item ∈ sr_log r -> le_outcome item = Completed -> Answered id (le_step item) (le_direction item) ∈ tr.

(** Compensations are asked for only once the saga has turned back, and only
    when everything further on has been undone; and no step is asked for before
    those in front of it are done. *)
Definition ordered row tr : Prop :=
  (forall tr1 name tr2, tr = tr1 ++ Made id name Backward :: tr2 ->
     turned row /\ exists i s, saga_steps def !! i = Some s /\ step_name s = name /\
       forall j u, (i < j <= length (forward_done (sr_log row)))%nat -> saga_steps def !! j = Some u ->
         step_kind u = Compensatable -> Answered id (step_name u) Backward ∈ tr1) /\
  (forall name, Made id name Forward ∈ tr ->
     exists i s, saga_steps def !! i = Some s /\ step_name s = name /\ (i <= length (forward_done (sr_log row)))%nat).

Lemma turned_backward r : inst_inv cfg def r -> turned r -> backward_phase def r.
Proof. intros (_ & _ & _ & Hst) [Ht|[Ht|[Ht Hb]]]; rewrite ?Ht in Hst; naive_solver. Qed.

Lemma behind_refl r : behind r r.
Proof. by split. Qed.

Lemma behind_trans r1 r2 r3 : behind r1 r2 -> behind r2 r3 -> behind r1 r3.
Proof. intros [H1 H2] [H3 H4]. split; [lia|]. intros Ht. destruct (H2 Ht) as [H5 ->]. by apply H4. Qed.

Lemma behind_leased c r : behind r (leased c r).
Proof. by split. Qed.

Lemma behind_abandoned reason now r : inst_inv cfg def r -> behind r (abandoned reason now r).
Proof.
  intros Hinv. split; [done|]. intros Ht. split; [|done]. right; right. split; [done|]. exact (turned_backward r Hinv Ht).
Qed.

Lemma behind_saved c p r :
  inst_inv cfg def r -> isTerminal (sr_status r) = false -> step_spec cfg def r p -> behind r (saved c p r).
Proof.
  intros Hinv Hterm Hspec. pose proof (inv_saved cfg def c p r Hinv Hterm Hspec) as Hinv'.
  assert (turned r -> sr_status r = COMPENSATING) as Hturn.
  { intros [?|[Ht|[Ht _]]]; [done|by rewrite Ht in Hterm..]. }
  unfold behind, turned at 2. cbn [sr_log sr_status saved].
  destruct Hspec as [s Hs Hst (Hn & Hd & Ho)|s Hs (_ & _ & Ho) Hc _ _ _ Hp|s Hs Hst|s out Hs Hst Hout (_ & Hd & Ho) Hc _ Hr Hp|s Hs Hk (_ & _ & Ho) Hc _ _ Hp].
  - destruct (done_app_forward (sr_log r) _ Hd Ho) as [-> _]. rewrite length_app. split; [lia|]. intros Ht%Hturn. done.
  - destruct (done_app_failed (sr_log r) _ Ho) as [-> _]. split; [lia|]. intros Ht%Hturn. rewrite Hp, decide_True by done. auto.
  - split; [|by intros ?%Hturn]. rewrite forward_done_app, length_app. lia.
  - destruct (done_app_backward (sr_log r) (pg_entry p) Hd) as [-> _]; [rewrite Ho, Hout; by case_decide|].
    split; [lia|]. intros _. rewrite Hp. destruct (pg_release p); auto.
  - destruct (done_app_failed (sr_log r) _ Ho) as [Hfd Hbd]. rewrite Hfd. split; [lia|]. intros Ht%Hturn. split; [|done].
    right; right. split; [done|]. destruct Hinv as (_ & _ & _ & Hi). rewrite Ht in Hi. destruct Hi as [Hb _].
    unfold backward_phase in *. cbn [sr_log sr_cursor saved]. by rewrite Hfd, Hbd, Hc.
Qed.

Lemma ordered_behind row row' tr : behind row row' -> ordered row tr -> ordered row' tr.
Proof.
  intros [Hle Hturn] [Hb Hf]. split.
  - intros tr1 name tr2 Htr. destruct (Hb tr1 name tr2 Htr) as (Ht & i & s & Hs & Hn & Hall).
    destruct (Hturn Ht) as [Ht' <-]. split; [done|]. by exists i, s.
  - intros name Hin. destruct (Hf name Hin) as (i & s & Hs & Hn & Hi). exists i, s. split_and!; [done..|lia].
Qed.

Lemma ordered_app row tr es :
  ordered row tr ->
  (forall name, Made id name Backward ∈ es ->
     turned row /\ exists i s, saga_steps def !! i = Some s /\ step_name s = name /\
       forall j u, (i < j <= length (forward_done (sr_log row)))%nat -> saga_steps def !! j = Some u ->
         step_kind u = Compensatable -> Answered id (step_name u) Backward ∈ tr) ->
  (forall name, Made id name Forward ∈ es ->
     exists i s, saga_steps def !! i = Some s /\ step_name s = name /\ (i <= length (forward_done (sr_log row)))%nat) ->
  ordered row (tr ++ es).
Proof.
  intros [Hb Hf] Hb' Hf'. split.
  - intros tr1 name tr2 Htr. apply app_eq_inv in Htr as [(l & -> & Hes)|(l & -> & Hes)].
    + destruct l as [|e l]; simplify_list_eq.
      * destruct (Hb' name) as (Ht & i & s & Hs & Hn & Hall); [left|]. split; [done|]. by exists i, s.
      * by eapply (Hb tr1 _ l).
    + destruct (Hb' name) as (Ht & i & s & Hs & Hn & Hall); [set_solver|]. split; [done|]. exists i, s. split_and!; [done..|].
      intros. apply elem_of_app. left. by eapply Hall.
  - intros name [Hin|Hin]%elem_of_app; auto.
Qed.

Lemma ordered_foreign row tr es : ordered row tr -> Forall (foreign id) es -> ordered row (tr ++ es).
Proof.
  intros Ho Hes. rewrite Forall_forall in Hes. apply ordered_app; [done|..]; intros name Hin; by destruct (Hes _ Hin).
Qed.

(** *** Runs *)

Definition runner_ok row tr (rn : Runner) : Prop :=
  sr_id (belief rn) = id /\ inst_inv cfg def (belief rn) /\ isTerminal (sr_status (belief rn)) = false /\
  justified tr (belief rn) /\ behind (belief rn) row /\
  match rn with
  | Decided cur (inr p) => step_spec cfg def cur p /\
      (le_outcome (pg_entry p) = Completed -> Answered id (le_step (pg_entry p)) (le_direction (pg_entry p)) ∈ tr)
  | _ => True
  end.

Definition run_inv (s : Run W) : Prop :=
  exists row, table (run_world s) !! id = Some row /\ sr_id row = id /\ inst_inv cfg def row /\
    justified (calls (run_world s)) row /\ ordered row (calls (run_world s)) /\
    (forall o, sr_lockedBy row = Some o -> o ∈ run_used s) /\
    forall o rn, run_runners s !! o = Some rn ->
      o ∈ run_used s /\ (sr_lockedBy row = Some o -> belief rn = row) /\ runner_ok row (calls (run_world s)) rn.

Lemma runner_ok_later row row' tr es rn : behind row row' -> runner_ok row tr rn -> runner_ok row' (tr ++ es) rn.
Proof.
  intros Hb (Hid & Hinv & Ht & Hj & Hbe & Hd). split_and!; [done..| | |].
  - intros item Hitem Hc. apply elem_of_app. left. by apply Hj.
  - by eapply behind_trans.
  - destruct rn as [|cur [e|p]]; [done..|]. destruct Hd as [? Hd]. split; [done|]. intros Hc. apply elem_of_app. left. by apply Hd.
Qed.

Lemma runner_ok_row row row' tr rn : behind row row' -> runner_ok row tr rn -> runner_ok row' tr rn.
Proof. intros Hb Hr. rewrite <-(app_nil_r tr). by eapply runner_ok_later. Qed.

(** Dropping runners, and whatever leaves the row alone and calls nobody for
    this saga. *)
Lemma run_inv_quiet w R U w' R' es :
  run_inv (Build_Run w R U) -> table w' !! id = table w !! id -> calls w' = calls w ++ es -> Forall (foreign id) es ->
  (forall o rn, R' !! o = Some rn -> R !! o = Some rn) -> run_inv (Build_Run w' R' U).
Proof.
  intros (row & Hrow & Hid & Hinv & Hj & Ho & Hl & HR) Ht Hc Hes HR'. exists row. simpl in *. rewrite Ht, Hc.
  split_and!; [done..| |by apply ordered_foreign|done|].
  - intros item Hitem Hcomp. apply elem_of_app. left. by apply Hj.
  - intros o rn Hrn%HR'. destruct (HR o rn Hrn) as (H1 & H2 & H3). split_and!; [done..|].
    by eapply runner_ok_later; [apply behind_refl|].
Qed.

Lemma delete_sub o (R : gmap string Runner) o' rn : delete o R !! o' = Some rn -> R !! o' = Some rn.
Proof. rewrite lookup_delete. by case_decide. Qed.

Lemma run_inv_leased w R U w' owner c row :
  run_inv (Build_Run w R U) -> owner ∉ U -> claim_owner c = owner -> table w !! id = Some row -> isClaimable row (claim_now c) ->
  table w' !! id = Some (leased c row) -> calls w' = calls w ->
  run_inv (Build_Run w' (<[owner := At (leased c row)]> R) ({[owner]} ∪ U)).
Proof.
  intros (row0 & Hrow & Hid & Hinv & Hj & Ho & Hl & HR) Hfresh <- Hrow0 (Hst & _) Ht Hc. simpl in *. rewrite Hrow0 in Hrow. injection Hrow as <-.
  exists (leased c row). simpl. rewrite Hc. split_and!; [done..|set_solver|].
  intros o rn. rewrite lookup_insert. case_decide; intros Hrn; simplify_eq.
  - split_and!; [set_solver|done|]. split_and!; try done. simpl. by destruct Hst as [-> | ->].
  - destruct (HR o rn Hrn) as (H1 & H2 & H3). split_and!; [set_solver|congruence|].
    by eapply runner_ok_row; [apply behind_leased|].
Qed.

Lemma run_inv_decide w R U owner cur outcome w' :
  run_inv (Build_Run w R U) -> R !! owner = Some (At cur) -> step cfg def cur w = (outcome, w') ->
  run_inv (Build_Run w' (<[owner := Decided cur outcome]> R) U).
Proof.
  intros (row & Hrow & Hid & Hinv & Hj & Ho & Hl & HR) HRo Hstep. simpl in *.
  destruct (HR _ _ HRo) as (Hu & Hlock & Hcid & Hcinv & Hct & Hcj & Hbe & _). simpl in *.
  destruct (inv_cursor cfg def cur Hcinv Hct) as (s & Hs). pose proof (inv_resumable cfg def cur Hcinv) as Hres.
  destruct (step_trace cur s w outcome w' Hcid Hres Hs Hstep) as (es & Hes & Hin & Hans).
  pose proof (step_table table cfg def Hiso cur w) as Htab. rewrite Hstep in Htab. simpl in Htab.
  destruct (step_refines_spec cfg def cur s w Hres Hs) as (p & Hp & Hspec). rewrite Hstep in Hp. simpl in Hp. subst outcome.
  apply step_at_Some in Hs as [H0 Hs].
  exists row. simpl. rewrite Htab, Hes. split_and!; [done..| | |done|].
  - intros item Hitem Hc. apply elem_of_app. left. by apply Hj.
  - apply ordered_app; [done|..]; intros name Hname; destruct (Hin _ Hname) as [Heq|Heq]; try done; injection Heq as -> Hdir;
      unfold direction_of in Hdir; case_decide as Hst; try done.
    + assert (turned cur) as Htu by by left. destruct (proj2 Hbe Htu) as [Htr Hfd]. split; [done|].
      exists (Z.to_nat (sr_cursor cur)), s. split_and!; [done..|]. intros j u Hj' Hu' Hk. rewrite <-Hfd in Hj'.
      destruct (backward_logged cfg def Hwf cur j u Hcinv (turned_backward cur Hcinv Htu)) as (item & Hitem & <- & <- & Hco);
        [lia|lia|done|done|]. by apply Hcj.
    + exists (Z.to_nat (sr_cursor cur)), s. split_and!; [done..|].
      destruct Hcinv as (_ & _ & _ & Hi). rewrite (unfinished_running cur Hct Hst) in Hi. destruct Hi as [[-> _] _].
      destruct Hbe. lia.
  - intros o rn. rewrite lookup_insert. case_decide; intros Hrn; simplify_eq.
    + split_and!; [done..|]. split_and!; [done..| |done|done|].
      * intros item Hitem Hc. apply elem_of_app. left. by apply Hcj.
      * intros Hc. apply elem_of_app. right. by apply Hans.
    + destruct (HR o rn Hrn) as (H1 & H2 & H3). split_and!; [done..|]. by eapply runner_ok_later; [apply behind_refl|].
Qed.

Lemma run_inv_saved w R U owner cur p now next w' :
  run_inv (Build_Run w R U) -> R !! owner = Some (Decided cur (inr p)) ->
  store_save (sr_id cur) (lease cfg owner now) p w = (inr (Some next), w') ->
  run_inv (Build_Run w' (if pg_release p then delete owner R else <[owner := At next]> R) U).
Proof.
  intros (row & Hrow & Hid & Hinv & Hj & Ho & Hl & HR) HRo Hsave. simpl in *.
  destruct (HR _ _ HRo) as (Hu & Hlock & Hcid & Hcinv & Hct & Hcj & Hbe & Hspec & Hans). simpl in *.
  pose proof (trace_save (calls := calls) (def := def) (sr_id cur) (lease cfg owner now) p w) as Hcalls.
  rewrite Hsave in Hcalls. simpl in Hcalls. rewrite Hcid in Hsave. set (c := lease cfg owner now) in *.
  destruct (decide (sr_lockedBy row = Some owner)) as [Hheld|Hno].
  2:{ destruct (save_lost (table := table) id c p w) as (? & He & _); [intros; by simplify_eq|congruence]. }
  destruct (save_held (table := table) id c p row w Hrow Hheld) as (w1 & He & Hw1). rewrite Hsave in He. injection He as -> ->.
  specialize (Hlock Hheld) as ->. pose proof (behind_saved c p row Hinv Hct Hspec) as Hb.
  assert (justified (calls w) (saved c p row)) as Hj'.
  { intros item. cbn [sr_log saved]. rewrite elem_of_app, list_elem_of_singleton. intros [?| ->]; [by apply Hj|done]. }
  exists (saved c p row). simpl. rewrite Hcalls, Hw1. split_and!; [apply lookup_insert_eq|done|by apply inv_saved|done| | |].
  - by eapply ordered_behind.
  - intros o. destruct (pg_release p); [done|]. by intros [= <-].
  - intros o rn. destruct (pg_release p) eqn:Hrel.
    + intros Hrn%delete_sub. destruct (HR o rn Hrn) as (H1 & H2 & H3). split_and!; [done..|]. by eapply runner_ok_row.
    + rewrite lookup_insert. case_decide; intros Hrn; simplify_eq.
      * split_and!; [done..|]. destruct (remaining_decreases cfg def c p row Hinv Hct Hspec Hrel) as [Ht' _].
        split_and!; [done|by apply inv_saved|done|done|apply behind_refl|done].
      * destruct (HR o rn Hrn) as (H1 & H2 & H3). split_and!; [done|simpl; congruence|]. by eapply runner_ok_row.
Qed.

Lemma run_inv_abandoned w R U owner rn reason w' :
  run_inv (Build_Run w R U) -> R !! owner = Some rn -> store_abandon (sr_id (belief rn)) reason w = (inr tt, w') ->
  run_inv (Build_Run w' (delete owner R) U).
Proof.
  intros (row & Hrow & Hid & Hinv & Hj & Ho & Hl & HR) HRo Hab. simpl in *.
  destruct (HR _ _ HRo) as (_ & _ & Hcid & _). rewrite Hcid in Hab.
  pose proof (trace_abandon (calls := calls) (def := def) id reason w) as Hcalls. rewrite Hab in Hcalls. simpl in Hcalls.
  destruct (abandon_spec (table := table) id reason row w Hrow) as (now & w1 & He & Hw1). rewrite Hab in He. injection He as ->.
  pose proof (behind_abandoned reason now row Hinv) as Hb.
  exists (abandoned reason now row). simpl. rewrite Hcalls, Hw1.
  split_and!; [apply lookup_insert_eq|done|by apply inv_abandoned|done|by eapply ordered_behind|done|].
  intros o rn' Hrn%delete_sub. destruct (HR o rn' Hrn) as (H1 & H2 & H3). split_and!; [done..|]. by eapply runner_ok_row.
Qed.

Lemma run_inv_step s s' : run_step table calls cfg def id s s' -> run_inv s -> run_inv s'.
Proof.
  intros Hstep Hinv. destruct Hstep as [w R U owner now r w' Hfresh Hcl|w R U owner now limit batch r w' Hfresh Hcl Hr Hrid
    |w R U owner cur o w' HR Ht Hs|w R U owner cur p now next w' HR Hs|w R U owner cur p now w' HR Hs
    |w R U owner rn reason w' HR Hs|w R U owner|w R U w' es Ht Hc Hes].
  - pose proof (trace_claim (calls := calls) (def := def) id (lease cfg owner now) w) as Hcalls. rewrite Hcl in Hcalls.
    apply (claim_granted_inv table) in Hcl as (r0 & Hr0 & Hcl & -> & Hw').
    eapply run_inv_leased; [done..|rewrite Hw'; apply lookup_insert_eq|done].
  - pose proof (trace_claimDue (calls := calls) (def := def) (lease cfg owner now) limit w) as Hcalls. rewrite Hcl in Hcalls.
    destruct (claimDue_spec (table := table) (lease cfg owner now) limit w) as (b & w1 & He & _ & _ & Hb & _ & Hw1).
    rewrite Hcl in He. injection He as -> ->. apply list_elem_of_fmap in Hr as (r0 & -> & Hr0). simpl in Hrid.
    destruct (Hb r0 Hr0) as [Hrow Hcl0]. rewrite Hrid in Hrow.
    eapply run_inv_leased; [done..| |done]. rewrite Hw1, decide_True, Hrow by (rewrite <-Hrid; by apply list_elem_of_fmap_2). done.
  - by eapply run_inv_decide.
  - by eapply run_inv_saved.
  - pose proof (trace_save (calls := calls) (def := def) (sr_id cur) (lease cfg owner now) p w) as Hcalls. rewrite Hs in Hcalls.
    eapply (run_inv_quiet _ _ _ _ _ []); [done| |by rewrite app_nil_r|done|apply delete_sub].
    destruct (table w !! sr_id cur) as [r|] eqn:Hr; [destruct (decide (sr_lockedBy r = Some owner)) as [Hheld|]|].
    + destruct (save_held (table := table) (sr_id cur) (lease cfg owner now) p r w Hr Hheld) as (? & ? & _). congruence.
    + destruct (save_lost (table := table) (sr_id cur) (lease cfg owner now) p w) as (? & He & Hw); [intros; by simplify_eq|].
      rewrite Hs in He. injection He as ->. by rewrite Hw.
    + destruct (save_lost (table := table) (sr_id cur) (lease cfg owner now) p w) as (? & He & Hw); [intros; by simplify_eq|].
      rewrite Hs in He. injection He as ->. by rewrite Hw.
  - by eapply run_inv_abandoned.
  - eapply (run_inv_quiet _ _ _ _ _ []); [done|done|by rewrite app_nil_r|done|apply delete_sub].
  - by eapply run_inv_quiet.
Qed.

Lemma run_inv_start s : run_start table calls id s -> run_inv s.
Proof.
  intros (n & w0 & r & Hn & Hnone & Hcr & HR & HU & Hcalls).
  destruct (create_spec (table := table) n w0 ltac:(by rewrite Hn)) as (now & w1 & He & Hw1). rewrite Hcr in He. injection He as -> <-.
  destruct Hwf as (Hne & _). exists (fresh_instance n now). rewrite Hw1, HR, Hn.
  split_and!; [apply lookup_insert_eq|done|by apply inv_fresh|by intros item Hi%not_elem_of_nil| |done|done].
  apply (ordered_foreign _ [] (calls (run_world s))); [|done]. split.
  - intros tr1 name tr2 Hl. by destruct tr1.
  - by intros name Hi%not_elem_of_nil.
Qed.

Lemma run_reaches_inv s : run_reaches table calls cfg def id s -> run_inv s.
Proof. intros (s0 & Hs0%run_inv_start & Hrtc). induction Hrtc as [|x y z Hxy _ IH]; [done|]. by eapply IH, run_inv_step. Qed.

End invariant.

(** ** Theorems *)

(** C1: the pivot is a point of no return.  However many runners and recovery
    polls, each with an owner id of its own, claim a saga, take steps of it and
    save them in any order, with crashes, lost leases, abandonments and calls
    that outlive their timeout anywhere in between: once the log has the pivot
    as completed, no participant has ever been asked to compensate for this
    saga, and the status is neither COMPENSATING nor COMPENSATED.  The
    definition does not change meanwhile and participants keep out of the saga
    table. *)
Theorem pivot_no_return {W} `{!SagaStore W, !SagaEnv W} table calls `{!SagaStoreSpec W table}
    cfg (def : SagaDefinition W) id `{!CallTrace W calls def} s row p :
  saga_wf def -> isolated table def -> run_reaches table calls cfg def id s ->
  table (run_world s) !! id = Some row -> p ∈ saga_steps def -> step_kind p = Pivot ->
  step_name p ∈ forward_done (sr_log row) ->
  (forall name, Made id name Backward ∉ calls (run_world s)) /\
  sr_status row <> COMPENSATING /\ sr_status row <> COMPENSATED /\ backward_done (sr_log row) = [].
Proof.
  intros Hwf Hiso Hreach Hrow Hp Hpk Hin.
  destruct (run_reaches_inv table calls cfg def id Hwf Hiso s Hreach) as (row' & Hrow' & _ & Hinv & _ & [Hb _] & _).
  simplify_eq. pose proof (pivot_not_backward cfg def Hwf row p Hinv Hp Hpk Hin) as Hno. split.
  - intros name (tr1 & tr2 & Htr)%list_elem_of_split. destruct (Hb tr1 name tr2 Htr) as [Ht _].
    apply Hno. by apply (turned_backward cfg).
  - destruct Hinv as (_ & _ & _ & Hst). unfold forward_phase in Hst. destruct (sr_status row); naive_solver.
Qed.

(** C8: a compensated saga is undone completely and in reverse.  Under the same
    runners, crashes and timeouts, once the saga is COMPENSATED there is a step
    at some position [k], not a retriable one, such that: every step before it
    was called and answered, and no step after it was ever called; every
    compensatable step up to and including it had its compensation called and
    answered; and whenever a compensation was called, those of all compensatable
    steps between it and [k] had been answered before.  The log says the same:
    the [k] steps completed in order, and [k]+1 undone, last first. *)
Theorem compensated_undone {W} `{!SagaStore W, !SagaEnv W} table calls `{!SagaStoreSpec W table}
    cfg (def : SagaDefinition W) id `{!CallTrace W calls def} s row :
  saga_wf def -> isolated table def -> run_reaches table calls cfg def id s ->
  table (run_world s) !! id = Some row -> sr_status row = COMPENSATED ->
  exists k f, saga_steps def !! k = Some f /\ step_kind f <> Retriable /\
    (forall i u, (i < k)%nat -> saga_steps def !! i = Some u -> Answered id (step_name u) Forward ∈ calls (run_world s)) /\
    (forall i u, (k < i)%nat -> saga_steps def !! i = Some u -> Made id (step_name u) Forward ∉ calls (run_world s)) /\
    (forall i u, (i <= k)%nat -> saga_steps def !! i = Some u -> step_kind u = Compensatable ->
       Answered id (step_name u) Backward ∈ calls (run_world s)) /\
    (forall before after i j u v, calls (run_world s) = before ++ Made id (step_name u) Backward :: after ->
       (i < j <= k)%nat -> saga_steps def !! i = Some u -> saga_steps def !! j = Some v -> step_kind v = Compensatable ->
       Answered id (step_name v) Backward ∈ before) /\
    forward_done (sr_log row) = take k (step_names def) /\
    backward_done (sr_log row) = reverse (take (S k) (step_names def)).
Proof.
  intros Hwf Hiso Hreach Hrow Hst.
  destruct (run_reaches_inv table calls cfg def id Hwf Hiso s Hreach) as (row' & Hrow' & _ & Hinv & Hj & [Hb Hf] & _).
  rewrite Hrow in Hrow'. injection Hrow' as <-. pose proof Hwf as (_ & Hnd & _).
  assert (forall i i' u u', saga_steps def !! i = Some u -> saga_steps def !! i' = Some u' -> step_name u = step_name u' -> i = i') as Hpos.
  { intros i i' u u' Hu%step_names_lookup Hu'%step_names_lookup Heq. rewrite Heq in Hu. by eapply NoDup_lookup. }
  pose proof (turned_backward cfg def row Hinv ltac:(by right; left)) as Hbp.
  pose proof Hbp as (f & Hk & Hkind & Hrange & Hbd). pose proof Hinv as (Hfd & _ & _ & Hc). rewrite Hst in Hc. destruct Hc as [_ Hc].
  pose proof (lookup_lt_Some _ _ _ Hk) as Hlen.
  exists (length (forward_done (sr_log row))), f. split_and!; [done|done| | | | |done|].
  - intros i u Hi Hu. assert (step_name u ∈ forward_done (sr_log row)) as Hin.
    { rewrite Hfd. apply (list_elem_of_lookup_2 _ i). rewrite lookup_take_lt by done. by apply step_names_lookup. }
    apply list_elem_of_fmap in Hin as (item & -> & Hitem). apply list_elem_of_filter in Hitem as [[<- Ho] Hitem]. by apply Hj.
  - intros i u Hi Hu Hmade. destruct (Hf _ Hmade) as (i' & u' & Hu' & Hn & Hi'). rewrite (Hpos _ _ _ _ Hu' Hu Hn) in Hi'. lia.
  - intros i u Hi Hu Hcomp. destruct (backward_logged cfg def Hwf row i u Hinv Hbp) as (item & Hitem & <- & <- & Ho);
      [lia|done..|]. by apply Hj.
  - intros before after i j u v Htr Hij Hu Hv Hcomp. destruct (Hb _ _ _ Htr) as (_ & i' & u' & Hu' & Hn & Hall).
    rewrite (Hpos _ _ _ _ Hu' Hu Hn) in Hall. by apply (Hall j).
  - rewrite Hbd, Hc. apply take_ge. rewrite length_reverse, length_take. lia.
Qed.

(** ** A checkout whose participants keep a diary *)

Record TracedWorld := { tw_rows : gmap string SagaRow; tw_calls : list CallEvent }.

#[global] Instance TracedWorld_rows : HasSagaRows TracedWorld := {|
  rows := tw_rows;
  set_rows t w := {| tw_rows := t; tw_calls := tw_calls w |};
  clock _ := 100;
|}.

#[global] Instance TracedWorld_rows_laws : HasSagaRowsLaws TracedWorld.
Proof. done. Qed.

#[global] Instance TracedWorld_env : SagaEnv TracedWorld := {|
  env_now _ := 100;
  env_random _ := {| draw_num := 1; draw_den := 2 |};
  env_randomUUID _ := "runner-1"%string;
  env_timedOut _ _ := false;
  env_leave f := f;
|}.

Definition diary {A} (step : string) (dir : SagaDirection) (r : Thrown + A) (ctx : SagaStepContext) : Eff TracedWorld Thrown A :=
  fun w => (r, {| tw_rows := tw_rows w; tw_calls := tw_calls w ++ call_events (ctx_sagaId ctx) step dir r |}).

(** Reserve, ship (the pivot), confirm; shipping works or is refused. *)
Definition traced_def (ships : bool) : SagaDefinition TracedWorld := {|
  saga_name := "order.checkout";
  saga_steps := [
    CompensatableStep "reserve-stock" (diary "reserve-stock" Forward (inr None)) (diary "reserve-stock" Backward (inr tt));
    PivotStep "create-shipment" (diary "create-shipment" Forward
      (if ships then inr None else inl (ThrownError (UnretryableStepError (js "nobody delivers there")))));
    RetriableStep "confirm-order" (diary "confirm-order" Forward (inr None))]%string;
|}.

#[global] Instance traced_def_trace ships : CallTrace TracedWorld tw_calls (traced_def ships).
Proof.
  split.
  - intros s ctx w Hs. simpl in Hs. repeat (apply elem_of_cons in Hs as [->|Hs]; [by destruct ships|]).
    by apply not_elem_of_nil in Hs.
  - intros name ex comp ctx w Hs. simpl in Hs. apply elem_of_cons in Hs as [[= -> _ ->]|Hs]; [done|].
    repeat (apply elem_of_cons in Hs as [?|Hs]; [done|]). by apply not_elem_of_nil in Hs.
  - intros f w e es H. by exists es.
  - intros id c w. simpl. unfold prisma_claim. by repeat case_match.
  - done.
  - intros id c p w. simpl. unfold prisma_save. by repeat case_match.
  - intros id reason w. simpl. unfold prisma_abandon. by repeat case_match.
Qed.

Lemma traced_isolated ships : isolated saga_table (traced_def ships).
Proof.
  split; [done|]. intros s Hs. simpl in Hs.
  repeat (apply elem_of_cons in Hs as [->|Hs]; [by destruct ships|]). by apply not_elem_of_nil in Hs.
Qed.

Lemma traced_wf ships : saga_wf (traced_def ships).
Proof. apply (defineSaga_wf "order.checkout" (saga_steps (traced_def ships))). by destruct ships. Qed.

Definition traced_created : TracedWorld := snd (store_create demo_new {| tw_rows := ∅; tw_calls := [] |}).
Definition traced_claimed : TracedWorld := snd (store_claim "saga-1" demo_claim traced_created).
Definition traced_end (ships : bool) : TracedWorld :=
  snd (drive demo_cfg [("order.checkout"%string, traced_def ships)] demo_claimed "runner-1" traced_claimed).
Definition traced_row (ships : bool) : SagaInstanceRecord :=
  default demo_claimed (saga_table (traced_end ships) !! "saga-1"%string).

Lemma traced_row_found ships : saga_table (traced_end ships) !! "saga-1"%string = Some (traced_row ships).
Proof. by destruct ships; vm_compute. Qed.

Lemma traced_reaches ships : exists R U,
  run_reaches saga_table tw_calls demo_cfg (traced_def ships) "saga-1" (Build_Run (traced_end ships) R U).
Proof.
  destruct (drive_is_a_run saga_table tw_calls demo_cfg (traced_def ships) "saga-1"
    [("order.checkout"%string, traced_def ships)] "runner-1" demo_claimed traced_claimed
    (fst (drive demo_cfg [("order.checkout"%string, traced_def ships)] demo_claimed "runner-1" traced_claimed))
    (traced_end ships) ({["runner-1"%string]} ∪ ∅) (traced_isolated ships)) as (R & _ & Hrtc).
  - reflexivity.
  - intros d Hd. by injection Hd.
  - apply surjective_pairing.
  - exists R, ({["runner-1"%string]} ∪ ∅). exists (Build_Run traced_created ∅ ∅). split.
    + exists demo_new, {| tw_rows := ∅; tw_calls := [] |}, (fresh_instance demo_new 100). by split_and!.
    + eapply rtc_l; [|exact Hrtc]. by apply (run_claim _ _ _ _ _ _ _ _ _ 100).
Qed.

Lemma pivot_no_return_witness :
  sr_status (traced_row true) = COMPLETED /\
  tw_calls (traced_end true) = call_events "saga-1" "reserve-stock" Forward (inr tt) ++
    call_events "saga-1" "create-shipment" Forward (inr tt) ++ call_events "saga-1" "confirm-order" Forward (inr tt) /\
  forall name, Made "saga-1" name Backward ∉ tw_calls (traced_end true).
Proof.
  split; [reflexivity|]. split; [reflexivity|]. destruct (traced_reaches true) as (R & U & Hreach).
  apply (pivot_no_return saga_table tw_calls demo_cfg (traced_def true) "saga-1" (Build_Run (traced_end true) R U) (traced_row true)
    (PivotStep "create-shipment" (diary "create-shipment" Forward (inr None))) (traced_wf true) (traced_isolated true) Hreach
    (traced_row_found true)).
  - right. left.
  - reflexivity.
  - vm_compute. right. left.
Defined.

Lemma compensated_undone_witness :
  backward_done (sr_log (traced_row false)) = ["create-shipment"; "reserve-stock"]%string /\
  exists k f, saga_steps (traced_def false) !! k = Some f /\
    forall i u, (i <= k)%nat -> saga_steps (traced_def false) !! i = Some u -> step_kind u = Compensatable ->
      Answered "saga-1" (step_name u) Backward ∈ tw_calls (traced_end false).
Proof.
  split; [reflexivity|]. destruct (traced_reaches false) as (R & U & Hreach).
  destruct (compensated_undone saga_table tw_calls demo_cfg (traced_def false) "saga-1" (Build_Run (traced_end false) R U)
    (traced_row false) (traced_wf false) (traced_isolated false) Hreach (traced_row_found false) eq_refl) as (k & f & Hk & _ & _ & _ & Hb & _).
  exists k, f. split; [exact Hk|exact Hb].
Defined.
