(* ===== verification/Bulkhead.v ===== *)
(** * Bulkhead: the counting semaphore in front of each outbound dependency

    [common/bulkhead/bulkhead.ts].  Promises, timers and the [released] flag a
    permit closes over are kept in a shared store, so that a permit called
    twice, a timer that fires late and a hand-over to a waiter are the steps
    the event loop can take.  A promise is named by the order of the [acquire]
    that created it; the permit it resolves to and the timer that bounds its
    wait carry the same name. *)

From S2P Require Import Prelude.

(** ** The code *)

Record BulkheadPolicy := {
  maxConcurrent : Z;
  maxQueued : Z;
  maxQueueWaitMs : Z;
}.

Inductive BulkheadRejectionReason := QueueFull | QueueTimeout.

Record BulkheadRejectedError := {
  rej_bulkhead : string;
  rej_reason : BulkheadRejectionReason;
  rej_policy : BulkheadPolicy;
  rej_waitedMs : Z;
}.

(** A wait budget is any finite number of milliseconds: a fraction. *)
Record Budget := { budget_num : Z; budget_den : positive }.
Definition whole (ms : Z) : Budget := {| budget_num := ms; budget_den := 1 |}.
Definition trunc (b : Budget) : Z := Z.quot (budget_num b) (Zpos (budget_den b)).

Record Waiter := { waiter_promise : nat; queuedAt : Z }.

Record Bulkhead := {
  name : string;
  policy : BulkheadPolicy;
  inFlight : Z;
  waiting : list Waiter;
  queueFullRejections : Z;
  queueTimeoutRejections : Z;
}.

Inductive BulkheadRangeError := NeedsMaxConcurrent (got : Z) | NeedsMaxQueued (got : Z).

Definition newBulkhead (name : string) (policy : BulkheadPolicy) : BulkheadRangeError + Bulkhead :=
  if decide (maxConcurrent policy < 1) then inl (NeedsMaxConcurrent (maxConcurrent policy))
  else if decide (maxQueued policy < 0) then inl (NeedsMaxQueued (maxQueued policy))
  else inr {| name := name; policy := policy; inFlight := 0; waiting := [];
              queueFullRejections := 0; queueTimeoutRejections := 0 |}.

Inductive Settlement := Resolved | Rejected (error : BulkheadRejectedError).

(** A call of [run]: awaiting its permit, running its work, or finished with its
    permit given back. *)
Inductive RunState := RunAwaiting | RunWorking | RunEnded.

#[global] Instance RunState_eq_dec : EqDecision RunState.
Proof. solve_decision. Defined.

Record World := {
  bulkhead : Bulkhead;
  promises : gmap nat Settlement;   (* settled promises *)
  permits : gmap nat bool;          (* permits handed out, with [released] *)
  timers : gmap nat Z;              (* armed timers and when they are due *)
  runs : gmap nat RunState;
  next : nat;                       (* promises created so far *)
  clock : Z;
}.

Definition with_bulkhead (b : Bulkhead) (w : World) : World := {|
  bulkhead := b; promises := promises w; permits := permits w; timers := timers w;
  runs := runs w; next := next w; clock := clock w |}.

Definition set_inFlight (n : Z) (b : Bulkhead) : Bulkhead := {|
  name := name b; policy := policy b; inFlight := n; waiting := waiting b;
  queueFullRejections := queueFullRejections b; queueTimeoutRejections := queueTimeoutRejections b |}.

Definition set_waiting (l : list Waiter) (b : Bulkhead) : Bulkhead := {|
  name := name b; policy := policy b; inFlight := inFlight b; waiting := l;
  queueFullRejections := queueFullRejections b; queueTimeoutRejections := queueTimeoutRejections b |}.

Definition count_full (b : Bulkhead) : Bulkhead := {|
  name := name b; policy := policy b; inFlight := inFlight b; waiting := waiting b;
  queueFullRejections := queueFullRejections b + 1; queueTimeoutRejections := queueTimeoutRejections b |}.

Definition count_timeout (b : Bulkhead) : Bulkhead := {|
  name := name b; policy := policy b; inFlight := inFlight b; waiting := waiting b;
  queueFullRejections := queueFullRejections b; queueTimeoutRejections := queueTimeoutRejections b + 1 |}.

(** Settling a promise that is already settled does nothing. *)
Definition settle (p : nat) (s : Settlement) (w : World) : World := {|
  bulkhead := bulkhead w;
  promises := match promises w !! p with Some _ => promises w | None => <[p := s]> (promises w) end;
  permits := permits w; timers := timers w; runs := runs w; next := next w; clock := clock w |}.

(** [permit()]: a fresh closure with [released = false]. *)
Definition permit (p : nat) (w : World) : World := {|
  bulkhead := bulkhead w; promises := promises w; permits := <[p := false]> (permits w);
  timers := timers w; runs := runs w; next := next w; clock := clock w |}.

Definition setTimeout (p : nat) (ms : Z) (w : World) : World := {|
  bulkhead := bulkhead w; promises := promises w; permits := permits w;
  timers := <[p := clock w + ms]> (timers w); runs := runs w; next := next w; clock := clock w |}.

Definition clearTimeout (p : nat) (w : World) : World := {|
  bulkhead := bulkhead w; promises := promises w; permits := permits w;
  timers := delete p (timers w); runs := runs w; next := next w; clock := clock w |}.

Definition new_promise (w : World) : World := {|
  bulkhead := bulkhead w; promises := promises w; permits := permits w; timers := timers w;
  runs := runs w; next := S (next w); clock := clock w |}.

Definition reject (p : nat) (reason : BulkheadRejectionReason) (waitedMs : Z) (w : World) : World :=
  settle p (Rejected {| rej_bulkhead := name (bulkhead w); rej_reason := reason;
    rej_policy := policy (bulkhead w); rej_waitedMs := waitedMs |}) w.

(** [acquire(waitBudgetMs)]: the promise it returns is [next w]. *)
Definition acquire (waitBudgetMs : Budget) (w0 : World) : World :=
  let p := next w0 in
  let w := new_promise w0 in
  let b := bulkhead w in
  if decide (inFlight b < maxConcurrent (policy b)) then
    settle p Resolved (permit p (with_bulkhead (set_inFlight (inFlight b + 1) b) w))
  else
    let budgetMs := Z.max 0 (Z.min (trunc waitBudgetMs) (maxQueueWaitMs (policy b))) in
    if decide (budgetMs = 0) then
      reject p QueueTimeout 0 (with_bulkhead (count_timeout b) w)
    else if decide (maxQueued (policy b) <= Z.of_nat (length (waiting b))) then
      reject p QueueFull 0 (with_bulkhead (count_full b) w)
    else
      let waiter := {| waiter_promise := p; queuedAt := clock w |} in
      with_bulkhead (set_waiting (waiting b ++ [waiter]) b) (setTimeout p budgetMs w).

(** [this.waiting.indexOf(waiter)] and [splice(index, 1)]. *)
Definition indexOf (p : nat) (l : list Waiter) : option (nat * Waiter) :=
  list_find (fun x => waiter_promise x = p) l.

(** The callback of the timer armed for promise [p]. *)
Definition onTimeout (p : nat) (w0 : World) : World :=
  let w := clearTimeout p w0 in
  let b := bulkhead w in
  match indexOf p (waiting b) with
  | None => w
  | Some (index, waiter) =>
      reject p QueueTimeout (clock w - queuedAt waiter)
        (with_bulkhead (count_timeout (set_waiting (take index (waiting b) ++ drop (S index) (waiting b)) b)) w)
  end.

Definition release (w : World) : World :=
  let b := bulkhead w in
  match waiting b with
  | [] => with_bulkhead (set_inFlight (inFlight b - 1) b) w
  | waiter :: rest =>
      let p := waiter_promise waiter in
      settle p Resolved (permit p (clearTimeout p (with_bulkhead (set_waiting rest b) w)))
  end.

(** Calling the permit that promise [p] resolved to. *)
Definition call_permit (p : nat) (w : World) : World :=
  match permits w !! p with
  | Some false =>
      release {| bulkhead := bulkhead w; promises := promises w; permits := <[p := true]> (permits w);
                 timers := timers w; runs := runs w; next := next w; clock := clock w |}
  | _ => w
  end.

Definition set_run (p : nat) (s : RunState) (w : World) : World := {|
  bulkhead := bulkhead w; promises := promises w; permits := permits w; timers := timers w;
  runs := <[p := s]> (runs w); next := next w; clock := clock w |}.

(** [run(work, waitBudgetMs)] up to its [await this.acquire(...)]; resuming once
    the promise is settled, with the work or with the rejection; and its
    [finally], however the work ended. *)
Definition run_start (waitBudgetMs : option Budget) (w : World) : World :=
  let budget := match waitBudgetMs with
    | Some b => b
    | None => whole (maxQueueWaitMs (policy (bulkhead w)))
    end in
  set_run (next w) RunAwaiting (acquire budget w).

Definition run_resume (p : nat) (w : World) : World :=
  match runs w !! p, promises w !! p with
  | Some RunAwaiting, Some Resolved => set_run p RunWorking w
  | Some RunAwaiting, Some (Rejected _) => set_run p RunEnded w
  | _, _ => w
  end.

Definition run_finally (p : nat) (w : World) : World :=
  match runs w !! p with
  | Some RunWorking => set_run p RunEnded (call_permit p w)
  | _ => w
  end.

Record BulkheadStats := {
  stats_inFlight : Z; stats_queued : nat;
  stats_queueFullRejections : Z; stats_queueTimeoutRejections : Z;
}.

Definition stats (b : Bulkhead) : BulkheadStats := {|
  stats_inFlight := inFlight b; stats_queued := length (waiting b);
  stats_queueFullRejections := queueFullRejections b;
  stats_queueTimeoutRejections := queueTimeoutRejections b |}.

(** ** The event loop *)

Definition advance_clock (ms : Z) (w : World) : World := {|
  bulkhead := bulkhead w; promises := promises w; permits := permits w; timers := timers w;
  runs := runs w; next := next w; clock := clock w + ms |}.

(** Callers acquire and run as they like; a permit a caller was handed may be
    called at any time and any number of times; a timer fires when it is due. *)
Inductive bh_step : World -> World -> Prop :=
  | bh_acquire budget w : bh_step w (acquire budget w)
  | bh_permit p w : runs w !! p = None -> promises w !! p = Some Resolved -> bh_step w (call_permit p w)
  | bh_timer p due w : timers w !! p = Some due -> due <= clock w -> bh_step w (onTimeout p w)
  | bh_run budget w : bh_step w (run_start budget w)
  | bh_resume p w : bh_step w (run_resume p w)
  | bh_finally p w : bh_step w (run_finally p w)
  | bh_tick ms w : 0 <= ms -> bh_step w (advance_clock ms w).

Definition world_of (b : Bulkhead) (now : Z) : World := {|
  bulkhead := b; promises := ∅; permits := ∅; timers := ∅; runs := ∅; next := 0; clock := now |}.

Definition bh_reachable (policy : BulkheadPolicy) (w : World) : Prop :=
  exists name b now, newBulkhead name policy = inr b /\ rtc bh_step (world_of b now) w.

(** ** The invariant *)

Definition queue (w : World) : list nat := waiter_promise <$> waiting (bulkhead w).

(** Permits handed out and not given back. *)
Definition held (m : gmap nat bool) : gmap nat bool := filter (fun kv => kv.2 = false) m.

Record bh_inv (pol : BulkheadPolicy) (w : World) : Prop := {
  inv_policy : policy (bulkhead w) = pol;
  inv_count : inFlight (bulkhead w) = Z.of_nat (size (held (permits w)));
  inv_cap : inFlight (bulkhead w) <= maxConcurrent pol;
  inv_queued : Z.of_nat (length (waiting (bulkhead w))) <= maxQueued pol;
  inv_busy : waiting (bulkhead w) <> [] -> inFlight (bulkhead w) = maxConcurrent pol;
  inv_sorted : StronglySorted lt (queue w);
  inv_settled : forall p, is_Some (promises w !! p) -> (p < next w)%nat;
  inv_pending : forall p, p ∈ queue w <-> (p < next w)%nat /\ promises w !! p = None;
  inv_permits : forall p, is_Some (permits w !! p) <-> promises w !! p = Some Resolved;
  inv_timers : forall x, x ∈ waiting (bulkhead w) ->
    exists due, timers w !! waiter_promise x = Some due /\ due <= queuedAt x + maxQueueWaitMs pol;
  inv_order : forall p q, p ∈ queue w -> (p < q)%nat -> promises w !! q <> Some Resolved;
  inv_runs : forall p s, runs w !! p = Some s -> (p < next w)%nat;
  inv_running : forall p s, runs w !! p = Some s -> s <> RunEnded -> permits w !! p <> Some true;
  inv_working : forall p, runs w !! p = Some RunWorking -> promises w !! p = Some Resolved;
}.

Section held.
Implicit Types m : gmap nat bool.

Lemma held_fresh m p : m !! p = None -> size (held (<[p := false]> m)) = S (size (held m)).
Proof.
  intros Hp. unfold held. rewrite map_filter_insert_True by done.
  apply map_size_insert_None, map_lookup_filter_None. by left.
Qed.

Lemma held_released m p : m !! p = Some false -> S (size (held (<[p := true]> m))) = size (held m).
Proof.
  intros Hp. unfold held. rewrite map_filter_insert_False by done.
  assert (filter (fun kv => kv.2 = false) m !! p = Some false) as Hf by by apply map_lookup_filter_Some.
  rewrite map_filter_delete, map_size_delete_Some by done.
  assert (size (filter (fun kv => kv.2 = false) m) <> 0%nat) as Hn; [|lia].
  intros H0%map_size_empty_inv. by rewrite H0 in Hf.
Qed.

End held.

Lemma queue_snoc w p t : waiter_promise <$> (waiting (bulkhead w) ++ [{| waiter_promise := p; queuedAt := t |}]) =
  queue w ++ [p].
Proof. by rewrite fmap_app. Qed.

Lemma sorted_snoc l p : StronglySorted lt l -> (forall q, q ∈ l -> (q < p)%nat) -> StronglySorted lt (l ++ [p]).
Proof.
  intros Hs Hl. induction Hs as [|a l Hs IH Ha]; simpl; [repeat constructor|].
  constructor; [apply IH; set_solver|]. apply Forall_app. split; [done|].
  apply Forall_singleton, Hl. left.
Qed.

Lemma sorted_remove l i : StronglySorted lt l -> StronglySorted lt (take i l ++ drop (S i) l).
Proof.
  intros Hs. revert i. induction Hs as [|a l Hs IH Ha]; intros [|i]; simpl; [constructor..| |]; rewrite ?drop_0; [done|].
  constructor; [apply IH|]. rewrite Forall_forall in *. intros x Hx. apply Ha.
  rewrite elem_of_app in Hx. destruct Hx as [Hx|Hx]; [by eapply subseteq_take|by eapply subseteq_drop].
Qed.

Lemma sorted_lt_NoDup (l : list nat) : StronglySorted lt l -> NoDup l.
Proof.
  induction 1 as [|a l Hs IH Ha]; constructor; [|done]. rewrite Forall_forall in Ha.
  intros Hin%Ha. lia.
Qed.

Lemma NoDup_remove_elem (l : list nat) i p :
  NoDup l -> l !! i = Some p -> forall q, q ∈ take i l ++ drop (S i) l <-> q ∈ l /\ q <> p.
Proof.
  intros Hnd Hi q. rewrite <-(take_drop_middle l i p Hi) in Hnd |- * at 3.
  apply NoDup_app in Hnd as (_ & Hd & Hnd2). apply NoDup_cons in Hnd2 as [Hp _].
  assert (p ∉ take i l) by (intros H; eapply Hd; [exact H|left]).
  rewrite !elem_of_app, elem_of_cons. naive_solver.
Qed.

(** ** Every step keeps it *)

Section preservation.
Context (pol : BulkheadPolicy).
Implicit Types w : World.

(** The promise about to be created is unknown to the store. *)
Lemma next_fresh w : bh_inv pol w -> promises w !! next w = None /\ permits w !! next w = None.
Proof.
  intros Hi. assert (promises w !! next w = None) as Hn.
  { destruct (promises w !! next w) eqn:E; [|done].
    assert (next w < next w)%nat by (apply (inv_settled _ _ Hi); eauto). lia. }
  split; [done|]. destruct (permits w !! next w) eqn:E; [|done].
  rewrite (proj1 (inv_permits _ _ Hi (next w))) in Hn by eauto. done.
Qed.

(** A caller turned away at the door changes nothing but a counter. *)
Lemma turned_away_inv w b r :
  policy b = policy (bulkhead w) -> inFlight b = inFlight (bulkhead w) -> waiting b = waiting (bulkhead w) ->
  bh_inv pol w -> bh_inv pol (reject (next w) r 0 (with_bulkhead b (new_promise w))).
Proof.
  intros Eb1 Eb2 Eb3 Hi. destruct (next_fresh w Hi) as [Hfresh Hfreshp].
  destruct Hi as [Hpol Hc Hcap Hq Hb Hs Hset Hpend Hper Htim Hord Hruns Hrun Hwork].
  unfold reject, settle. split; simpl; unfold queue in *; simpl in *;
    rewrite ?Hfresh; rewrite ?Eb1, ?Eb2, ?Eb3; try done.
  - intros p. rewrite lookup_insert. case_decide; [lia|]. intros ?%Hset. lia.
  - intros p. rewrite lookup_insert, Hpend. case_decide; [naive_solver lia|]. split; intros []; split; done || lia.
  - intros p. rewrite lookup_insert. case_decide; [|apply Hper]. subst p. rewrite Hfreshp. split; [by intros []|done].
  - intros p q Hp Hlt. rewrite lookup_insert. case_decide; [done|by eapply Hord].
  - intros p s Hr%Hruns. lia.
  - intros p Hr%Hwork. rewrite lookup_insert. case_decide; congruence.
Qed.

Lemma granted_inv w :
  inFlight (bulkhead w) < maxConcurrent pol -> bh_inv pol w ->
  bh_inv pol (settle (next w) Resolved (permit (next w)
    (with_bulkhead (set_inFlight (inFlight (bulkhead w) + 1) (bulkhead w)) (new_promise w)))).
Proof.
  intros Hfree Hi. destruct (next_fresh w Hi) as [Hfresh Hfreshp].
  destruct Hi as [Hpol Hc Hcap Hq Hb Hs Hset Hpend Hper Htim Hord Hruns Hrun Hwork].
  destruct (waiting (bulkhead w)) as [|x l] eqn:Hw; [|specialize (Hb ltac:(done)); lia].
  assert (queue w = []) as Hqn by (unfold queue; by rewrite Hw).
  split; simpl; unfold queue; simpl; rewrite ?Hw, ?Hfresh; simpl; try done.
  - rewrite held_fresh by done. lia.
  - lia.
  - constructor.
  - intros p. rewrite lookup_insert. case_decide; [lia|]. intros ?%Hset. lia.
  - intros p. rewrite lookup_insert. specialize (Hpend p). rewrite Hqn in Hpend.
    case_decide; [naive_solver lia|]. split; [by intros ?%not_elem_of_nil|].
    intros [? ?]. apply Hpend. split; [lia|done].
  - intros p. rewrite !lookup_insert. case_decide; [naive_solver|]. apply Hper.
  - set_solver.
  - intros p s Hr%Hruns. lia.
  - intros p s Hr Hne. rewrite lookup_insert. case_decide; [done|eauto].
  - intros p Hr. rewrite lookup_insert. case_decide; [done|auto].
Qed.

Lemma queued_inv w budget :
  maxConcurrent pol <= inFlight (bulkhead w) -> 0 < budget <= maxQueueWaitMs pol ->
  Z.of_nat (length (waiting (bulkhead w))) < maxQueued pol -> bh_inv pol w ->
  bh_inv pol (with_bulkhead (set_waiting (waiting (bulkhead w) ++
      [{| waiter_promise := next w; queuedAt := clock w |}]) (bulkhead w)) (setTimeout (next w) budget (new_promise w))).
Proof.
  intros Hfull Hbud Hroom Hi. destruct (next_fresh w Hi) as [Hfresh Hfreshp].
  destruct Hi as [Hpol Hc Hcap Hq Hb Hs Hset Hpend Hper Htim Hord Hruns Hrun Hwork].
  assert (forall q, q ∈ queue w -> (q < next w)%nat) as Hlt by by intros q [? ?]%Hpend.
  split; simpl; unfold queue; simpl; rewrite ?queue_snoc; try done.
  - rewrite length_app. simpl. lia.
  - intros _. lia.
  - by apply sorted_snoc.
  - intros p ?%Hset. lia.
  - intros p. rewrite elem_of_app, list_elem_of_singleton, Hpend.
    destruct (decide (p = next w)); naive_solver lia.
  - intros x [Hx| ->%list_elem_of_singleton]%elem_of_app; simpl.
    + rewrite lookup_insert_ne; [by apply Htim|].
      assert (waiter_promise x ∈ queue w) as ?%Hlt by by apply list_elem_of_fmap_2. lia.
    + rewrite lookup_insert_eq. eexists. split; [done|]. lia.
  - intros p q [Hp| ->%list_elem_of_singleton]%elem_of_app; [by apply Hord|].
    intros Hq' Hr. assert (q < next w)%nat by (apply Hset; eauto). lia.
  - intros p s Hr%Hruns. lia.
Qed.

Lemma acquire_inv budget w : bh_inv pol w -> bh_inv pol (acquire budget w).
Proof.
  intros Hi. pose proof (inv_policy _ _ Hi) as Hpol. unfold acquire. simpl. rewrite Hpol.
  case_decide; [by apply granted_inv|]. case_decide as Hbud; [by apply turned_away_inv|].
  case_decide; [by apply turned_away_inv|]. apply queued_inv; [lia..|done].
Qed.

Lemma onTimeout_inv p w : bh_inv pol w -> bh_inv pol (onTimeout p w).
Proof.
  intros Hi. pose proof (sorted_lt_NoDup _ (inv_sorted _ _ Hi)) as Hnd.
  destruct Hi as [Hpol Hc Hcap Hq Hb Hs Hset Hpend Hper Htim Hord Hruns Hrun Hwork].
  unfold onTimeout. simpl. unfold indexOf. case_match eqn:Hfind.
  - destruct p0 as [i x]. apply list_find_Some in Hfind as (Hi & <- & _).
    assert (queue w !! i = Some (waiter_promise x)) as Hi' by (unfold queue; by rewrite list_lookup_fmap, Hi).
    set (p := waiter_promise x) in *.
    assert (p ∈ queue w) as [Hlt Hnone]%Hpend by by eapply list_elem_of_lookup_2.
    assert (Hrem : waiter_promise <$> (take i (waiting (bulkhead w)) ++ drop (S i) (waiting (bulkhead w))) =
      take i (queue w) ++ drop (S i) (queue w)) by (unfold queue; by rewrite fmap_app, fmap_take, fmap_drop).
    pose proof (NoDup_remove_elem _ _ _ Hnd Hi') as Hin.
    assert (Hsub : forall y, y ∈ take i (waiting (bulkhead w)) ++ drop (S i) (waiting (bulkhead w)) ->
      y ∈ waiting (bulkhead w)) by (intros y [?|?]%elem_of_app; [by eapply subseteq_take|by eapply subseteq_drop]).
    unfold reject, settle. split; simpl; unfold queue; simpl; rewrite ?Hnone, ?Hrem; try done.
    + apply lookup_lt_Some in Hi. rewrite length_app, length_take, length_drop. lia.
    + intros _. apply Hb. intros Hw. by rewrite Hw in Hi.
    + by apply sorted_remove.
    + intros q. rewrite lookup_insert. case_decide; [naive_solver|apply Hset].
    + intros q. rewrite Hin, Hpend, lookup_insert. case_decide; naive_solver.
    + intros q. rewrite lookup_insert. case_decide; [|apply Hper]. subst q.
      rewrite Hper, Hnone. done.
    + intros y Hy. rewrite lookup_delete_ne; [by apply Htim, Hsub|].
      assert (waiter_promise y ∈ take i (queue w) ++ drop (S i) (queue w)) as [? ?]%Hin; [|done].
      rewrite <-Hrem. by apply list_elem_of_fmap_2.
    + intros q r [? ?]%Hin Hqr. rewrite lookup_insert. case_decide; [done|by eapply Hord].
    + intros q Hr%Hwork. rewrite lookup_insert. case_decide; congruence.
  - apply list_find_None in Hfind. rewrite Forall_forall in Hfind. split; simpl; try done.
    intros x Hx. rewrite lookup_delete_ne; [by apply Htim|]. intros ->. by eapply Hfind.
Qed.

(** Giving a permit back to an empty queue, and to a queue. *)
Lemma call_permit_idle w p :
  permits w !! p = Some false -> waiting (bulkhead w) = [] -> (forall s, runs w !! p = Some s -> s = RunEnded) ->
  bh_inv pol w -> bh_inv pol (call_permit p w).
Proof.
  intros Hp Hw Hnr [Hpol Hc Hcap Hq Hb Hs Hset Hpend Hper Htim Hord Hruns Hrun Hwork].
  unfold call_permit, release. rewrite Hp. simpl. rewrite Hw. pose proof (held_released _ _ Hp).
  split; simpl; unfold queue in *; simpl; rewrite ?Hw in *; try done.
  - lia.
  - lia.
  - intros q. rewrite lookup_insert. case_decide; [|apply Hper]. subst q. rewrite <-Hper, Hp. naive_solver.
  - intros q s Hr Hne. rewrite lookup_insert_ne; [eauto|]. intros <-. eauto.
Qed.

Lemma call_permit_handover w p x l :
  permits w !! p = Some false -> waiting (bulkhead w) = x :: l -> (forall s, runs w !! p = Some s -> s = RunEnded) ->
  bh_inv pol w -> bh_inv pol (call_permit p w).
Proof.
  intros Hp Hw Hnr [Hpol Hc Hcap Hq Hb Hs Hset Hpend Hper Htim Hord Hruns Hrun Hwork].
  unfold call_permit, release. rewrite Hp. simpl. rewrite Hw. pose proof (held_released _ _ Hp) as Hheld.
  set (q := waiter_promise x).
  unfold queue in *. rewrite Hw in *. csimpl in *. apply StronglySorted_inv in Hs as [Hs Hhd].
  rewrite Forall_forall in Hhd.
  assert ((q < next w)%nat /\ promises w !! q = None) as [Hqlt Hqn] by (apply Hpend; left).
  assert (permits w !! q = None) as Hqp.
  { destruct (permits w !! q) eqn:E; [|done]. rewrite (proj1 (Hper q)) in Hqn by eauto. done. }
  assert (p <> q) by (intros ->; simplify_eq).
  assert (<[p:=true]> (permits w) !! q = None) as Hqp' by by rewrite lookup_insert_ne.
  split; simpl; unfold queue; simpl; rewrite ?Hqn; try done.
  - rewrite held_fresh by done. lia.
  - lia.
  - intros _. by apply Hb.
  - intros r. rewrite lookup_insert. case_decide; [naive_solver|apply Hset].
  - intros r. specialize (Hpend r). rewrite elem_of_cons in Hpend. rewrite lookup_insert.
    case_decide as Hr; [|naive_solver]. subst r. split; [|by intros []]. intros Hin%Hhd. lia.
  - intros r. rewrite !lookup_insert. case_decide; [naive_solver|]. case_decide; [|apply Hper].
    subst r. rewrite <-Hper, Hp. naive_solver.
  - intros y Hy. rewrite lookup_delete_ne; [by apply Htim; right|].
    assert (q < waiter_promise y)%nat by by apply Hhd, list_elem_of_fmap_2. lia.
  - intros a b Ha Hab. rewrite lookup_insert. case_decide; [apply Hhd in Ha; lia|]. apply (Hord a b); [by right|done].
  - intros r s Hr Hne. rewrite !lookup_insert. case_decide; [done|]. case_decide; [subst; naive_solver|eauto].
  - intros r Hr%Hwork. rewrite lookup_insert. case_decide; congruence.
Qed.

Lemma call_permit_inv w p : (forall s, runs w !! p = Some s -> s = RunEnded) -> bh_inv pol w -> bh_inv pol (call_permit p w).
Proof.
  intros Hr Hi. destruct (permits w !! p) as [[]|] eqn:Hp.
  1, 3: unfold call_permit; by rewrite Hp.
  destruct (waiting (bulkhead w)) eqn:Hw; eauto using call_permit_idle, call_permit_handover.
Qed.

Lemma set_run_inv w p s :
  (p < next w)%nat -> (s <> RunEnded -> permits w !! p <> Some true) ->
  (s = RunWorking -> promises w !! p = Some Resolved) -> bh_inv pol w -> bh_inv pol (set_run p s w).
Proof.
  intros Hlt Hs Hs' []. split; simpl; try done.
  - intros q t. rewrite lookup_insert. case_decide; naive_solver.
  - intros q t. rewrite lookup_insert. case_decide; naive_solver.
  - intros q. rewrite lookup_insert. case_decide; naive_solver.
Qed.

Lemma run_start_inv w budget : bh_inv pol w -> bh_inv pol (run_start budget w).
Proof.
  intros Hi. unfold run_start. destruct (next_fresh w Hi) as [Hn Hn'].
  apply set_run_inv; [| |done|by apply acquire_inv].
  - unfold acquire, reject, settle. simpl. repeat case_decide; simpl; lia.
  - intros _. unfold acquire, reject, settle. simpl.
    repeat case_decide; simpl; rewrite ?lookup_insert_eq, ?Hn'; done.
Qed.

Lemma run_resume_inv w p : bh_inv pol w -> bh_inv pol (run_resume p w).
Proof.
  intros Hi. unfold run_resume. destruct (runs w !! p) as [[]|] eqn:Hr; try done.
  pose proof (inv_runs _ _ Hi _ _ Hr). pose proof (inv_running _ _ Hi _ _ Hr).
  destruct (promises w !! p) as [[]|] eqn:Hp; try done; by apply set_run_inv; auto.
Qed.

Lemma run_finally_inv w p : bh_inv pol w -> bh_inv pol (run_finally p w).
Proof.
  intros Hi. unfold run_finally. destruct (runs w !! p) as [[]|] eqn:Hr; try done.
  assert (set_run p RunEnded (call_permit p w) = call_permit p (set_run p RunEnded w)) as ->.
  { unfold call_permit, release, settle. simpl. repeat (case_match; simpl; try done). }
  apply call_permit_inv.
  - simpl. intros s. rewrite lookup_insert_eq. congruence.
  - apply set_run_inv; [|done..]. by eapply inv_runs.
Qed.

Lemma bh_step_inv w w' : bh_step w w' -> bh_inv pol w -> bh_inv pol w'.
Proof.
  destruct 1 as [|p w Hnone| | | | |].
  - apply acquire_inv.
  - apply call_permit_inv. by rewrite Hnone.
  - apply onTimeout_inv.
  - apply run_start_inv.
  - apply run_resume_inv.
  - apply run_finally_inv.
  - by intros [].
Qed.

End preservation.

Lemma bh_reachable_inv pol w : bh_reachable pol w -> bh_inv pol w.
Proof.
  intros (nm & b & now & Hnew & Hsteps).
  assert (bh_inv pol (world_of b now)) as Hinit.
  { unfold newBulkhead in Hnew. repeat case_decide; simplify_eq/=.
    split; simpl; unfold queue; simpl; try done; try lia; try constructor;
      intros; rewrite ?lookup_empty in *; try (exfalso; by eapply is_Some_None); try set_solver;
      naive_solver lia. }
  clear Hnew. induction Hsteps; [done|]. eauto using bh_step_inv.
Qed.

(** ** What the bulkhead guarantees *)

(** However callers, permits and timers interleave, at most [maxConcurrent]
    permits are out and at most [maxConcurrent] [run] bodies are executing, at
    most [maxQueued] callers wait, [stats()] counts the permits that are out,
    and nobody waits while a permit is free. *)
Theorem bulkhead_capped pol w :
  bh_reachable pol w ->
  Z.of_nat (size (filter (fun kv => kv.2 = RunWorking) (runs w))) <= stats_inFlight (stats (bulkhead w)) /\
  stats_inFlight (stats (bulkhead w)) = Z.of_nat (size (held (permits w))) /\
  Z.of_nat (size (held (permits w))) <= maxConcurrent pol /\
  Z.of_nat (stats_queued (stats (bulkhead w))) <= maxQueued pol /\
  (stats_queued (stats (bulkhead w)) <> 0%nat -> stats_inFlight (stats (bulkhead w)) = maxConcurrent pol).
Proof.
  intros Hi%bh_reachable_inv. unfold stats. simpl. rewrite (inv_count _ _ Hi). split_and!; [|done|..].
  - apply Nat2Z.inj_le. rewrite <-!size_dom. apply subseteq_size. intros p.
    rewrite !elem_of_dom. intros [s [Hr Hs]%map_lookup_filter_Some]. simpl in Hs. subst s.
    pose proof (inv_working _ _ Hi p Hr) as [released Hp]%(inv_permits _ _ Hi).
    pose proof (inv_running _ _ Hi p _ Hr ltac:(done)). exists false. apply map_lookup_filter_Some.
    split; [|done]. by destruct released.
  - rewrite <-(inv_count _ _ Hi). apply Hi.
  - apply Hi.
  - intros Hne. rewrite <-(inv_count _ _ Hi). apply (inv_busy _ _ Hi). intros Hw. by rewrite Hw in Hne.
Qed.

(** The queue is fair: while a caller is still waiting for its permit, no caller
    that arrived after it has been admitted. *)
Theorem bulkhead_no_overtaking pol w p q :
  bh_reachable pol w -> (p < next w)%nat -> promises w !! p = None -> (p < q)%nat ->
  promises w !! q <> Some Resolved.
Proof.
  intros Hi%bh_reachable_inv Hlt Hn Hpq. apply (inv_order _ _ Hi p); [|done].
  by apply (inv_pending _ _ Hi).
Qed.

(** C23: no caller is forgotten: every promise [acquire] ever returned is
    settled, or waits in the queue behind a timer due at most [maxQueueWaitMs]
    after it was queued, and that timer rejects exactly this caller, adds one to
    the count of queue timeouts and to no other, and leaves the others in order. *)
Theorem bulkhead_no_lost_caller pol w p :
  bh_reachable pol w -> (p < next w)%nat -> promises w !! p = None ->
  exists before x after due,
    waiting (bulkhead w) = before ++ x :: after /\ waiter_promise x = p /\
    timers w !! p = Some due /\ due <= queuedAt x + maxQueueWaitMs pol /\
    waiting (bulkhead (onTimeout p w)) = before ++ after /\
    inFlight (bulkhead (onTimeout p w)) = inFlight (bulkhead w) /\
    stats_queueTimeoutRejections (stats (bulkhead (onTimeout p w))) = stats_queueTimeoutRejections (stats (bulkhead w)) + 1 /\
    stats_queueFullRejections (stats (bulkhead (onTimeout p w))) = stats_queueFullRejections (stats (bulkhead w)) /\
    promises (onTimeout p w) = <[p := Rejected {| rej_bulkhead := name (bulkhead w); rej_reason := QueueTimeout;
      rej_policy := pol; rej_waitedMs := clock w - queuedAt x |}]> (promises w).
Proof.
  intros Hi%bh_reachable_inv Hlt Hn.
  assert (p ∈ queue w) as Hin by by apply (inv_pending _ _ Hi).
  unfold onTimeout. simpl. unfold indexOf.
  destruct (list_find _ _) as [[i x]|] eqn:Hf.
  - pose proof Hf as (Hx & <- & _)%list_find_Some.
    destruct (inv_timers _ _ Hi x) as (due & Ht & Hdue); [by eapply list_elem_of_lookup_2|].
    exists (take i (waiting (bulkhead w))), x, (drop (S i) (waiting (bulkhead w))), due.
    rewrite take_drop_middle by done. simpl. rewrite Hn, (inv_policy _ _ Hi). done.
  - apply list_find_None in Hf. rewrite Forall_forall in Hf.
    apply list_elem_of_fmap in Hin as (x & -> & Hx). by destruct (Hf x Hx).
Qed.

(** A permit gives its slot back once: calling it again changes nothing. The
    call that counts hands the slot to the caller that has waited longest, with
    [inFlight] unchanged, or frees it when nobody waits. *)
Theorem permit_released_once pol w p :
  bh_reachable pol w ->
  call_permit p (call_permit p w) = call_permit p w /\
  (permits w !! p = Some false ->
   match waiting (bulkhead w) with
   | [] => inFlight (bulkhead (call_permit p w)) = inFlight (bulkhead w) - 1 /\
           promises (call_permit p w) = promises w
   | x :: rest => inFlight (bulkhead (call_permit p w)) = inFlight (bulkhead w) /\
           waiting (bulkhead (call_permit p w)) = rest /\
           promises (call_permit p w) = <[waiter_promise x := Resolved]> (promises w) /\
           permits (call_permit p w) !! waiter_promise x = Some false
   end).
Proof.
  intros Hi%bh_reachable_inv. unfold call_permit at 2 3 4 5 6 7 8 9.
  destruct (permits w !! p) as [[]|] eqn:Hp; [by unfold call_permit; rewrite Hp| |by unfold call_permit; rewrite Hp].
  unfold release. simpl. destruct (waiting (bulkhead w)) as [|x l] eqn:Hw; simpl.
  - split; [|done]. unfold call_permit. simpl. by rewrite lookup_insert_eq.
  - assert (waiter_promise x ∈ queue w) as [_ Hn]%(inv_pending _ _ Hi) by (unfold queue; rewrite Hw; left).
    assert (waiter_promise x <> p).
    { intros <-. assert (promises w !! waiter_promise x = Some Resolved); [|congruence].
      apply (inv_permits _ _ Hi). eauto. }
    rewrite Hn. split.
    + unfold call_permit. simpl. by rewrite lookup_insert_ne, lookup_insert_eq by done.
    + intros _. by rewrite lookup_insert_eq.
Qed.

(** ** A bulkhead of one, with room for one more to wait *)

Definition narrow : BulkheadPolicy := {| maxConcurrent := 1; maxQueued := 1; maxQueueWaitMs := 50 |}.

Definition narrow_bulkhead : Bulkhead := {|
  name := "stripe"; policy := narrow; inFlight := 0; waiting := [];
  queueFullRejections := 0; queueTimeoutRejections := 0 |}.

(** A [run] holds the permit, a second caller waits and a third is refused. *)
Definition narrow_world : World :=
  acquire (whole 20) (acquire (whole 20) (run_resume 0 (run_start None (world_of narrow_bulkhead 1000)))).

Lemma narrow_reachable : bh_reachable narrow narrow_world.
Proof.
  exists "stripe"%string, narrow_bulkhead, 1000. split; [reflexivity|].
  do 4 (eapply rtc_r; [|constructor]). apply rtc_refl.
Qed.

Lemma bulkhead_capped_witness :
  stats (bulkhead narrow_world) =
    {| stats_inFlight := 1; stats_queued := 1; stats_queueFullRejections := 1; stats_queueTimeoutRejections := 0 |} /\
  Z.of_nat (size (filter (fun kv => kv.2 = RunWorking) (runs narrow_world))) <= 1.
Proof.
  split; [reflexivity|]. apply (bulkhead_capped narrow narrow_world narrow_reachable).
Defined.

Lemma bulkhead_no_overtaking_witness : promises narrow_world !! 2%nat <> Some Resolved.
Proof.
  apply (bulkhead_no_overtaking narrow narrow_world 1); [apply narrow_reachable|vm_compute; lia|reflexivity|lia].
Defined.

Lemma bulkhead_no_lost_caller_witness :
  exists due, timers narrow_world !! 1%nat = Some due /\ due <= 1050.
Proof.
  destruct (bulkhead_no_lost_caller narrow narrow_world 1 narrow_reachable ltac:(vm_compute; lia) eq_refl)
    as (before & x & after & due & Hw & _ & Ht & _).
  exists due. split; [exact Ht|]. vm_compute in Ht. injection Ht as <-. lia.
Defined.

Lemma permit_released_once_witness :
  waiting (bulkhead (call_permit 0 narrow_world)) = [] /\
  inFlight (bulkhead (call_permit 0 narrow_world)) = 1 /\
  call_permit 0 (call_permit 0 narrow_world) = call_permit 0 narrow_world.
Proof.
  destruct (permit_released_once narrow narrow_world 0 narrow_reachable) as [Honce Hfirst].
  specialize (Hfirst eq_refl). simpl in Hfirst. destruct Hfirst as (H1 & H2 & _).
  split; [exact H2|]. split; [exact H1|exact Honce].
Defined.
