(* ===== verification/Redlock.v ===== *)
(** * Redlock: mutual exclusion over N independent Redis nodes

    [common/locking/redlock.service.ts].  The four Lua scripts are functions on
    a node; an acquisition attempt and the handle it yields are a state machine
    whose transitions are the code between two [await]s; commands travel
    through a network that may delay, lose or never answer them, which is what
    [withTimeout] has to live with.  A run is a list of events. *)

From S2P Require Import Prelude.

(** ** The scripts, on one node *)

(** A node's keys carry a value and the node-clock reading at which they expire;
    [fence] is the counter every fencing token is drawn from, 0 when the key
    does not exist. *)
Record Node := { locks : gmap string (string * Z); fence : Z }.

Definition empty_node : Node := {| locks := ∅; fence := 0 |}.

(** [GET key] at node time [t]: an expired key is gone. *)
Definition GET (t : Z) (key : string) (nd : Node) : option string :=
  match locks nd !! key with
  | Some (v, e) => if decide (t < e) then Some v else None
  | None => None
  end.

Definition ACQUIRE (t : Z) (key value : string) (ttlMs : Z) (nd : Node) : Z * Node :=
  match GET t key nd with
  | None => (fence nd + 1, {| locks := <[key := (value, t + ttlMs)]> (locks nd); fence := fence nd + 1 |})
  | Some _ => (-1, nd)
  end.

Definition BUMP_FENCE (token : Z) (nd : Node) : Z * Node :=
  (1, if decide (fence nd < token) then {| locks := locks nd; fence := token |} else nd).

Definition RELEASE (t : Z) (key value : string) (nd : Node) : Z * Node :=
  if decide (GET t key nd = Some value)
  then (1, {| locks := delete key (locks nd); fence := fence nd |}) else (0, nd).

Definition EXTEND (t : Z) (key value : string) (ttlMs : Z) (nd : Node) : Z * Node :=
  if decide (GET t key nd = Some value)
  then (1, {| locks := <[key := (value, t + ttlMs)]> (locks nd); fence := fence nd |}) else (0, nd).

(** ** The service *)

Record RedlockOptions := {
  nodeCount : nat;
  driftNum : Z;            (* driftFactor, as a fraction *)
  driftDen : Z;
  driftConstantMs : Z;
  keyPrefix : string;
}.

Definition quorum (o : RedlockOptions) : nat := (nodeCount o / 2 + 1)%nat.

(** [Math.round(ttlMs * driftFactor) + driftConstantMs] *)
Definition drift (o : RedlockOptions) (ttlMs : Z) : Z :=
  (2 * (ttlMs * driftNum o) + driftDen o) / (2 * driftDen o) + driftConstantMs o.

Definition validityFrom (o : RedlockOptions) (ttlMs start now : Z) : Z := ttlMs - (now - start) - drift o ttlMs.

Definition MAX_SAFE_INTEGER : Z := 2 ^ 53 - 1.

(** What a holder keeps: [fencingToken] and [validUntil]. *)
Record Handle := { fencingToken : Z; expiry : Z }.

(** Where an attempt, and then its handle, stands: waiting for the votes; for
    the fence publication; held; waiting for an extension; waiting, with the
    handle still live, for the [releaseEverywhere] of an extension that failed;
    waiting for [releaseEverywhere] with no live handle; over, with what
    [release] reported. *)
Inductive Phase :=
  | Voting
  | Publishing (token : Z)
  | Held (h : Handle)
  | Extending (h : Handle) (ttlMs start : Z)
  | Dropping (h : Handle)
  | Releasing
  | Ended (released : bool).

(** [results] collects the [NodeResult]s of the current [onEveryNode]: [None]
    for an error or a timeout.  [round] tells the answers of one [onEveryNode]
    from late answers to an earlier one. *)
Record Attempt := {
  at_lockKey : string;
  at_value : string;
  at_ttlMs : Z;
  at_start : Z;
  at_phase : Phase;
  at_round : nat;
  at_results : gmap nat (option Z);
}.

Inductive Kind := KAcquire | KBump (token : Z) | KRelease | KExtend (ttlMs : Z).

Record Command := { cmd_attempt : nat; cmd_node : nat; cmd_round : nat; cmd_kind : Kind }.

Record Sys := {
  nodes : gmap nat Node;
  attempts : gmap nat Attempt;
  network : list Command;      (* sent and not yet applied *)
  now : Z;                     (* the monotonic clock *)
}.

Definition node (s : Sys) (i : nat) : Node := default empty_node (nodes s !! i).

Definition with_phase (p : Phase) (a : Attempt) : Attempt := {|
  at_lockKey := at_lockKey a; at_value := at_value a; at_ttlMs := at_ttlMs a; at_start := at_start a;
  at_phase := p; at_round := at_round a; at_results := at_results a |}.

Definition with_results (r : gmap nat (option Z)) (a : Attempt) : Attempt := {|
  at_lockKey := at_lockKey a; at_value := at_value a; at_ttlMs := at_ttlMs a; at_start := at_start a;
  at_phase := at_phase a; at_round := at_round a; at_results := r |}.

Definition next_round (a : Attempt) : Attempt := {|
  at_lockKey := at_lockKey a; at_value := at_value a; at_ttlMs := at_ttlMs a; at_start := at_start a;
  at_phase := at_phase a; at_round := S (at_round a); at_results := ∅ |}.

Section service.
Context (o : RedlockOptions) (nclk : nat -> Z -> Z).  (* node clocks, as functions of the lock clock *)

(** [onEveryNode(command)]: the attempt enters phase [p] and waits for every
    node's answer to [kind]. *)
Definition onEveryNode (id : nat) (a : Attempt) (p : Phase) (kind : Kind) (s : Sys) : Sys :=
  let a' := next_round (with_phase p a) in
  {| nodes := nodes s;
     attempts := <[id := a']> (attempts s);
     network := network s ++
       ((fun i => {| cmd_attempt := id; cmd_node := i; cmd_round := at_round a'; cmd_kind := kind |})
          <$> seq 0 (nodeCount o));
     now := now s |}.

Definition set_attempt (id : nat) (a : Attempt) (s : Sys) : Sys := {|
  nodes := nodes s; attempts := <[id := a]> (attempts s); network := network s; now := now s |}.

(** The nodes whose answer satisfies [P], and their number. *)
Definition answered (P : Z -> bool) (a : Attempt) : gset nat :=
  dom (filter (fun kv => match kv.2 with Some v => P v | None => false end = true) (at_results a)).

Definition positive (v : Z) : bool := bool_decide (0 < v).
Definition is_one (v : Z) : bool := bool_decide (v = 1).

(** [Math.max(...claimed.map((vote) => vote.value))] *)
Definition max_vote (a : Attempt) : Z :=
  foldr Z.max 0 (filter (fun v => positive v = true) (omap snd (map_to_list (at_results a)))).

(** [attempt(key, ttlMs)] up to its first [await]; [value] is drawn from the
    CSPRNG. *)
Definition start_attempt (id : nat) (key value : string) (ttlMs : Z) (s : Sys) : Sys :=
  let a := {| at_lockKey := keyPrefix o +:+ key; at_value := value; at_ttlMs := ttlMs; at_start := now s;
              at_phase := Voting; at_round := 0; at_results := ∅ |} in
  onEveryNode id a Voting KAcquire s.

Definition releaseEverywhere (id : nat) (a : Attempt) (s : Sys) : Sys := onEveryNode id a Releasing KRelease s.

(** The code that runs once every node has answered or timed out. *)
Definition after_votes (id : nat) (a : Attempt) (s : Sys) : Sys :=
  if decide ((size (answered positive a) < quorum o)%nat \/ validityFrom o (at_ttlMs a) (at_start a) (now s) <= 0)
  then releaseEverywhere id a s
  else
    let token := max_vote a in
    if decide (MAX_SAFE_INTEGER < token) then releaseEverywhere id a s
    else onEveryNode id a (Publishing token) (KBump token) s.

Definition after_publish (id : nat) (a : Attempt) (token : Z) (s : Sys) : Sys :=
  let validity := validityFrom o (at_ttlMs a) (at_start a) (now s) in
  if decide ((size (answered is_one a) < quorum o)%nat \/ validity <= 0)
  then releaseEverywhere id a s
  else set_attempt id (with_phase (Held {| fencingToken := token; expiry := now s + validity |}) a) s.

(** [extendEverywhere] with a TTL of its own; a handle that lost its quorum
    stays live until its keys have been released. *)
Definition after_extend (id : nat) (a : Attempt) (h : Handle) (ttlMs start : Z) (s : Sys) : Sys :=
  let validity := validityFrom o ttlMs start (now s) in
  if decide ((size (answered is_one a) < quorum o)%nat \/ validity <= 0)
  then onEveryNode id a (Dropping h) KRelease s
  else set_attempt id
    (with_phase (Held {| fencingToken := fencingToken h; expiry := now s + validity |}) a) s.

Definition after_drop (id : nat) (a : Attempt) (s : Sys) : Sys := set_attempt id (with_phase (Ended false) a) s.

Definition after_release (id : nat) (a : Attempt) (s : Sys) : Sys :=
  set_attempt id (with_phase (Ended (bool_decide (quorum o <= size (answered is_one a))%nat)) a) s.

Definition continue (id : nat) (a : Attempt) (s : Sys) : Sys :=
  match at_phase a with
  | Voting => after_votes id a s
  | Publishing token => after_publish id a token s
  | Extending h ttlMs start => after_extend id a h ttlMs start s
  | Dropping _ => after_drop id a s
  | Releasing => after_release id a s
  | Held _ | Ended _ => s
  end.

(** One script, on the node the command was sent to. *)
Definition run_script (t : Z) (a : Attempt) (kind : Kind) (nd : Node) : Z * Node :=
  match kind with
  | KAcquire => ACQUIRE t (at_lockKey a) (at_value a) (at_ttlMs a) nd
  | KBump token => BUMP_FENCE token nd
  | KRelease => RELEASE t (at_lockKey a) (at_value a) nd
  | KExtend ttlMs => EXTEND t (at_lockKey a) (at_value a) ttlMs nd
  end.

(** A result counts once, and only for the [onEveryNode] that is waiting. *)
Definition record_result (round i : nat) (r : option Z) (a : Attempt) : Attempt :=
  if decide (round = at_round a /\ at_results a !! i = None)
  then with_results (<[i := r]> (at_results a)) a else a.

Inductive Event :=
  | EvStart (id : nat) (key value : string) (ttlMs : Z)
  | EvApply (k : nat) (answers : bool)       (* the k-th command reaches its node *)
  | EvTimeout (id i : nat)                   (* nodeTimeoutMs passed, or the node failed *)
  | EvContinue (id : nat)
  | EvExtend (id : nat) (ttlMs : Z)
  | EvRelease (id : nat)
  | EvTick (ms : Z).

Definition event (e : Event) (s : Sys) : option Sys :=
  match e with
  | EvStart id key value ttlMs =>
      if decide (attempts s !! id = None /\ 0 < ttlMs /\
        map_Forall (fun _ a => at_value a <> value) (attempts s))
      then Some (start_attempt id key value ttlMs s) else None
  | EvApply k answers =>
      match network s !! k with
      | Some c =>
          match attempts s !! cmd_attempt c with
          | Some a =>
              let '(v, nd) := run_script (nclk (cmd_node c) (now s)) a (cmd_kind c) (node s (cmd_node c)) in
              Some {| nodes := <[cmd_node c := nd]> (nodes s);
                      attempts := if answers : bool
                        then <[cmd_attempt c := record_result (cmd_round c) (cmd_node c) (Some v) a]> (attempts s) else attempts s;
                      network := delete k (network s);
                      now := now s |}
          | None => None
          end
      | None => None
      end
  | EvTimeout id i =>
      match attempts s !! id with
      | Some a =>
          if decide (i < nodeCount o)%nat
          then Some (set_attempt id (record_result (at_round a) i None a) s)
          else None
      | None => None
      end
  | EvContinue id =>
      match attempts s !! id with
      | Some a => if decide (size (at_results a) = nodeCount o) then Some (continue id a s) else None
      | None => None
      end
  | EvExtend id ttlMs =>
      match attempts s !! id with
      | Some a =>
          match at_phase a with
          | Held h => if decide (0 < ttlMs) then Some (onEveryNode id a (Extending h ttlMs (now s)) (KExtend ttlMs) s) else None
          | _ => None
          end
      | None => None
      end
  | EvRelease id =>
      match attempts s !! id with
      | Some a => match at_phase a with Held h => Some (releaseEverywhere id a s) | _ => None end
      | None => None
      end
  | EvTick ms => if decide (0 <= ms)
      then Some {| nodes := nodes s; attempts := attempts s; network := network s; now := now s + ms |} else None
  end.

Fixpoint run (es : list Event) (s : Sys) : option Sys :=
  match es with
  | [] => Some s
  | e :: es' => match event e s with Some s' => run es' s' | None => None end
  end.

(** The handle's own view: [remainingMs() > 0] on a handle that is live. *)
Definition handle_of (a : Attempt) : option Handle :=
  match at_phase a with Held h | Extending h _ _ | Dropping h => Some h | _ => None end.

Definition believes_held (s : Sys) (id : nat) (a : Attempt) (h : Handle) : Prop :=
  attempts s !! id = Some a /\ handle_of a = Some h /\ 0 < Z.max 0 (expiry h - now s).

(** No extension of it has failed. *)
Definition unbroken (a : Attempt) : Prop := match at_phase a with Dropping _ => False | _ => True end.

(** Each acquisition is extended only by the TTL it was acquired with, as
    [lock-session.ts] does. *)
Definition own_ttl (ttl_of : nat -> Z) (e : Event) : Prop :=
  match e with EvStart id _ _ ttlMs | EvExtend id ttlMs => ttlMs = ttl_of id | _ => True end.

End service.

Definition initial (t : Z) (ns : gmap nat Node) : Sys :=
  {| nodes := ns; attempts := ∅; network := []; now := t |}.

(** ** Quorums meet *)

Definition is_quorum (o : RedlockOptions) (C : gset nat) : Prop :=
  (quorum o <= size C)%nat /\ forall i, i ∈ C -> (i < nodeCount o)%nat.

Lemma quorums_meet o C D : is_quorum o C -> is_quorum o D -> exists i, i ∈ C /\ i ∈ D.
Proof.
  intros [HC HCn] [HD HDn].
  destruct (decide (C ∩ D ≡ ∅)) as [Hd|Hne].
  - exfalso. assert (size (C ∪ D) <= size (set_seq (C := gset nat) 0 (nodeCount o)))%nat as Hle.
    { apply subseteq_size. intros i. rewrite elem_of_union, elem_of_set_seq. intros [?%HCn|?%HDn]; lia. }
    rewrite size_union, size_set_seq in Hle by set_solver. unfold quorum in *.
    pose proof (Nat.div_mod (nodeCount o) 2 ltac:(done)). pose proof (Nat.mod_upper_bound (nodeCount o) 2 ltac:(done)). lia.
  - apply set_choose in Hne as [i Hi]. exists i. set_solver.
Qed.

Lemma elem_of_answered P a i : i ∈ answered P a <-> exists v, at_results a !! i = Some (Some v) /\ P v = true.
Proof.
  unfold answered. rewrite elem_of_dom. split.
  - intros [[v|] [H1 H2]%map_lookup_filter_Some]; [by exists v|done].
  - intros (v & H1 & H2). exists (Some v). by apply map_lookup_filter_Some.
Qed.

Lemma foldr_max_ge l v : v ∈ l -> v <= foldr Z.max 0 l.
Proof. induction l; [by intros ?%not_elem_of_nil|]. intros [->|?]%elem_of_cons; simpl; [lia|]. specialize (IHl ltac:(done)). lia. Qed.

Lemma max_vote_ge a i v : at_results a !! i = Some (Some v) -> 0 < v -> v <= max_vote a.
Proof.
  intros Hr Hv. apply foldr_max_ge, list_elem_of_filter. split; [by apply bool_decide_eq_true|].
  apply list_elem_of_omap. exists (i, Some v). split; [by apply elem_of_map_to_list|done].
Qed.

(** ** The invariant *)

Section invariant.
Context (o : RedlockOptions) (nclk : nat -> Z -> Z).

(** The nodes' clocks gain less on the lock clock over a lease than the drift
    allowance writes off. *)
Definition drift_bounded : Prop := forall i t1 t2 ttl,
  0 < ttl -> t1 <= t2 -> t2 - t1 < ttl - drift o ttl -> nclk i t2 - nclk i t1 < ttl.

Context (Hdrift : drift_bounded).

(** Node [i] holds the key for [a], and will until the lock clock reads [D]. *)
Definition grips (s : Sys) (i : nat) (a : Attempt) (D : Z) : Prop :=
  exists e, locks (node s i) !! at_lockKey a = Some (at_value a, e) /\ forall t, now s <= t < D -> nclk i t < e.

Definition gripped (s : Sys) (a : Attempt) (D : Z) : Prop :=
  now s < D -> exists C, is_quorum o C /\ forall i, i ∈ C -> grips s i a D.

Definition published (s : Sys) (token : Z) : Prop :=
  exists P, is_quorum o P /\ forall i, i ∈ P -> token <= fence (node s i).

Definition lease_end (a : Attempt) (start : Z) : Z := start + at_ttlMs a - drift o (at_ttlMs a).

Definition handle_inv (s : Sys) (a : Attempt) (h : Handle) : Prop :=
  gripped s a (expiry h) /\ expiry h <= lease_end a (now s) /\ published s (fencingToken h).

Definition phase_inv (s : Sys) (a : Attempt) : Prop :=
  match at_phase a with
  | Voting => forall i v, at_results a !! i = Some (Some v) -> 0 < v -> now s < lease_end a (at_start a) ->
      grips s i a (lease_end a (at_start a))
  | Publishing token => gripped s a (lease_end a (at_start a)) /\
      forall i, at_results a !! i = Some (Some 1) -> token <= fence (node s i)
  | Held h => handle_inv s a h
  | Extending h ttlMs start => handle_inv s a h /\ start <= now s /\ ttlMs = at_ttlMs a /\
      forall i, at_results a !! i = Some (Some 1) -> now s < lease_end a start -> grips s i a (lease_end a start)
  | Dropping h => published s (fencingToken h)
  | Releasing | Ended _ => True
  end.

Definition att_inv (s : Sys) (a : Attempt) : Prop :=
  0 < at_ttlMs a /\ at_start a <= now s /\
  (forall i, is_Some (at_results a !! i) -> (i < nodeCount o)%nat) /\ phase_inv s a.

Definition over (p : Phase) : Prop := match p with Dropping _ | Releasing | Ended _ => True | _ => False end.

Definition kind_ok (p : Phase) (k : Kind) : Prop :=
  match p with
  | Voting => k = KAcquire
  | Publishing token => k = KBump token
  | Extending _ ttlMs _ => k = KExtend ttlMs
  | _ => True
  end.

Definition cmd_ok (c : Command) (a : Attempt) : Prop :=
  (cmd_round c <= at_round a)%nat /\ (cmd_kind c = KRelease -> over (at_phase a)) /\
  (forall ttlMs, cmd_kind c = KExtend ttlMs -> ttlMs = at_ttlMs a) /\
  (cmd_round c = at_round a -> kind_ok (at_phase a) (cmd_kind c)).

(** ** A script reaches a node *)

Definition touch (i : nat) (nd : Node) (ats : gmap nat Attempt) (net : list Command) (s : Sys) : Sys :=
  {| nodes := <[i := nd]> (nodes s); attempts := ats; network := net; now := now s |}.

Lemma node_touch i nd ats net s j : node (touch i nd ats net s) j = if decide (i = j) then nd else node s j.
Proof. unfold node, touch. simpl. rewrite lookup_insert. by case_decide. Qed.

Lemma GET_Some t key nd v : GET t key nd = Some v <-> exists e, locks nd !! key = Some (v, e) /\ t < e.
Proof.
  unfold GET. destruct (locks nd !! key) as [[v' e]|]; [case_decide|]; naive_solver.
Qed.

Lemma fence_mono t a kind nd v nd' : run_script t a kind nd = (v, nd') -> fence nd <= fence nd'.
Proof.
  destruct kind; simpl; unfold ACQUIRE, BUMP_FENCE, RELEASE, EXTEND; intros; repeat case_match;
    simplify_eq/=; try case_decide; simpl; lia.
Qed.

(** No script takes the key from a holder whose lease runs, other than that
    holder's own release. *)
Lemma script_keeps_lock t a b kind nd v nd' e :
  run_script t b kind nd = (v, nd') -> locks nd !! at_lockKey a = Some (at_value a, e) -> t < e ->
  (at_value b = at_value a -> kind <> KRelease) ->
  exists e', locks nd' !! at_lockKey a = Some (at_value a, e') /\
    (e' = e \/ at_value b = at_value a /\ exists ttlMs, kind = KExtend ttlMs /\ e' = t + ttlMs).
Proof.
  intros Hrun Hl Hlive Hrel.
  assert (forall key, key = at_lockKey a -> GET t key nd = Some (at_value a)) as Hget
    by (intros key ->; apply GET_Some; eauto).
  destruct (decide (at_lockKey b = at_lockKey a)) as [Hk|Hk].
  - specialize (Hget _ Hk). destruct kind; simpl in Hrun; unfold ACQUIRE, BUMP_FENCE, RELEASE, EXTEND in Hrun;
      rewrite ?Hget in Hrun.
    + simplify_eq. eauto.
    + simplify_eq. case_decide; eauto.
    + case_decide as Hv; simplify_eq; [|eauto]. by destruct Hrel.
    + case_decide as Hv; simplify_eq; [|eauto]. simpl. rewrite Hk, lookup_insert_eq.
      exists (t + ttlMs). split; [congruence|]. right. split; [congruence|eauto].
  - exists e. split; [|by left]. destruct kind; simpl in Hrun; unfold ACQUIRE, BUMP_FENCE, RELEASE, EXTEND in Hrun;
      repeat case_match; simplify_eq/=; try case_decide; simpl;
      rewrite ?lookup_insert_ne, ?lookup_delete_ne by done; exact Hl.
Qed.

Section apply.
Context (s : Sys) (b : Attempt) (i : nat) (kind : Kind) (v : Z) (nd : Node) (ats : gmap nat Attempt) (net : list Command).
Context (Hrun : run_script (nclk i (now s)) b kind (node s i) = (v, nd)).
Let s' := touch i nd ats net s.

Lemma grips_apply a j D :
  grips s j a D -> now s < D -> D <= lease_end a (now s) -> 0 < at_ttlMs a ->
  (at_value b = at_value a -> (forall ttlMs, kind = KExtend ttlMs -> ttlMs = at_ttlMs a) /\ kind <> KRelease) -> grips s' j a D.
Proof using Hrun Hdrift.
  intros (e & Hl & He) Hlt HD Httl Hself. unfold grips, s'. rewrite node_touch. case_decide; [subst j|by exists e].
  destruct (script_keeps_lock _ a _ _ _ _ _ e Hrun Hl (He (now s) ltac:(lia)) ltac:(naive_solver)) as (e' & Hl' & Hcase).
  exists e'. split; [done|]. simpl. intros t Ht. destruct Hcase as [->|(Hv & ttlMs & Hk & ->)]; [by apply He|].
  rewrite (proj1 (Hself Hv) _ Hk). unfold lease_end in HD.
  pose proof (Hdrift i (now s) t (at_ttlMs a) Httl ltac:(lia) ltac:(lia)). lia.
Qed.

Lemma gripped_apply a D :
  gripped s a D -> D <= lease_end a (now s) -> 0 < at_ttlMs a ->
  (at_value b = at_value a -> (forall ttlMs, kind = KExtend ttlMs -> ttlMs = at_ttlMs a) /\ kind <> KRelease) -> gripped s' a D.
Proof using Hrun Hdrift.
  intros Hg HD Httl Hself Hlt. destruct (Hg Hlt) as (C & HC & Hall). exists C. split; [done|].
  intros j Hj. apply grips_apply; auto.
Qed.

Lemma fence_apply j : fence (node s j) <= fence (node s' j).
Proof using Hrun.
  unfold s'. rewrite node_touch. case_decide; [subst j|done]. by eapply fence_mono.
Qed.

Lemma published_apply token : published s token -> published s' token.
Proof using Hrun.
  intros (P & HP & Hf). exists P. split; [done|]. intros j Hj. pose proof (fence_apply j). specialize (Hf j Hj). lia.
Qed.

Lemma att_inv_apply a :
  att_inv s a -> (at_value b = at_value a -> (forall ttlMs, kind = KExtend ttlMs -> ttlMs = at_ttlMs a) /\ (kind = KRelease -> over (at_phase a))) ->
  att_inv s' a.
Proof using Hrun Hdrift.
  intros (Httl & Hst & Hres & Hph) Hself. split_and!; [done..|]. unfold phase_inv, handle_inv in *.
  destruct (at_phase a) as [|token|h|h tl st|h| |] eqn:Hp; simpl in Hself; try done.
  - intros j v' Hv Hpos Hlt. apply grips_apply; [by eapply Hph|done|unfold lease_end; lia|done|naive_solver].
  - destruct Hph as [Hg Hf]. split; [apply gripped_apply; [done|unfold lease_end; lia|done|naive_solver]|].
    intros j Hj. specialize (Hf j Hj). pose proof (fence_apply j). lia.
  - destruct Hph as (Hg & HD & Hf). split_and!; [apply gripped_apply; try done; naive_solver|done|by apply published_apply].
  - destruct Hph as ((Hg & HD & Hf) & Hst' & Htl & Hex).
    split_and!; [apply gripped_apply; try done; naive_solver|done|by apply published_apply|done|done|].
    intros j Hj Hlt. apply grips_apply; [by eapply Hex|done|unfold lease_end; lia|done|naive_solver].
  - by apply published_apply.
Qed.

End apply.

(** ** What an answer is worth *)

Section answer.
Context (s : Sys) (a : Attempt) (i : nat) (kind : Kind) (v : Z) (nd : Node) (ats : gmap nat Attempt) (net : list Command).
Context (Hrun : run_script (nclk i (now s)) a kind (node s i) = (v, nd)) (Httl : 0 < at_ttlMs a).
Let s' := touch i nd ats net s.

Lemma fresh_lease e st :
  locks nd !! at_lockKey a = Some (at_value a, e) -> e = nclk i (now s) + at_ttlMs a -> st <= now s ->
  grips s' i a (lease_end a st).
Proof using Hdrift Httl.
  intros Hl -> Hst. exists (nclk i (now s) + at_ttlMs a). unfold s'. rewrite node_touch, decide_True by done.
  split; [done|]. simpl. unfold lease_end. intros t Ht.
  pose proof (Hdrift i (now s) t (at_ttlMs a) Httl ltac:(lia) ltac:(lia)). lia.
Qed.

Lemma vote_grips : kind = KAcquire -> 0 < v -> at_start a <= now s -> grips s' i a (lease_end a (at_start a)).
Proof using Hdrift Httl Hrun.
  intros -> Hv Hst. simpl in Hrun. unfold ACQUIRE in Hrun. case_match; [simplify_eq; lia|].
  eapply fresh_lease; [|done|done]. clear s'. simplify_eq/=. by rewrite lookup_insert_eq.
Qed.

Lemma extension_grips st : kind = KExtend (at_ttlMs a) -> v = 1 -> st <= now s -> grips s' i a (lease_end a st).
Proof using Hdrift Httl Hrun.
  intros -> -> Hst. simpl in Hrun. unfold EXTEND in Hrun. case_decide; [|by simplify_eq].
  eapply fresh_lease; [|done|done]. clear s'. simplify_eq/=. by rewrite lookup_insert_eq.
Qed.

Lemma bump_publishes token : kind = KBump token -> token <= fence (node s' i).
Proof using Hrun.
  intros ->. simpl in Hrun. unfold s'. rewrite node_touch, decide_True by done. unfold BUMP_FENCE in Hrun.
  case_decide; simplify_eq/=; lia.
Qed.

Lemma record_inv round :
  (i < nodeCount o)%nat -> (round = at_round a -> kind_ok (at_phase a) kind) ->
  att_inv s' a -> att_inv s' (record_result round i (Some v) a).
Proof using Hdrift Httl Hrun.
  intros Hi Hk Hinv. unfold record_result. case_decide as Hrec; [|done]. destruct Hrec as [Hr Hnone].
  specialize (Hk Hr). destruct Hinv as (_ & Hst & Hres & Hph). split_and!; [done|done| |].
  - intros j. simpl. rewrite lookup_insert. case_decide; [congruence|apply Hres].
  - unfold phase_inv in *. simpl. destruct (at_phase a) as [|token|h|h tl st|h| |]; simpl in Hk; try exact Hph.
    + intros j v' Hj Hv Hlt. rewrite lookup_insert in Hj. case_decide; [|by eapply Hph]. subst j.
      apply vote_grips; [done|congruence|done].
    + split; [apply Hph|]. intros j Hj. rewrite lookup_insert in Hj. case_decide; [|by apply Hph].
      subst j. by apply bump_publishes.
    + destruct Hph as (Hh & Hst' & Htl & Hex). split_and!; [done|done|done|].
      intros j Hj Hlt. rewrite lookup_insert in Hj. case_decide; [|by eapply Hex]. subst j.
      apply extension_grips; [congruence|congruence|done].
Qed.

End answer.

Lemma timeout_inv s a round i :
  (i < nodeCount o)%nat -> att_inv s a -> att_inv s (record_result round i None a).
Proof.
  intros Hi (Httl & Hst & Hres & Hph). unfold record_result. case_decide as Hrec; [|done].
  split_and!; [done|done| |].
  - intros j. simpl. rewrite lookup_insert. case_decide; [congruence|apply Hres].
  - assert (forall j v, <[i:=None]> (at_results a) !! j = Some (Some v) -> at_results a !! j = Some (Some v)) as Hsub.
    { intros j v. rewrite lookup_insert. by case_decide. }
    unfold phase_inv in *. simpl. destruct (at_phase a) as [|token|h|h tl st|h| |]; try exact Hph; naive_solver.
Qed.

Lemma record_keeps round i r a :
  at_value (record_result round i r a) = at_value a /\ at_phase (record_result round i r a) = at_phase a /\
  at_round (record_result round i r a) = at_round a /\ at_ttlMs (record_result round i r a) = at_ttlMs a.
Proof. unfold record_result. by case_decide. Qed.

(** ** Changing one attempt *)

(** The TTL each acquisition is made and extended with. *)
Context (ttl_of : nat -> Z).

Record inv (s : Sys) : Prop := {
  inv_att : forall id a, attempts s !! id = Some a -> att_inv s a;
  inv_ttl : forall id a, attempts s !! id = Some a -> at_ttlMs a = ttl_of id;
  inv_values : forall id1 id2 a1 a2, attempts s !! id1 = Some a1 -> attempts s !! id2 = Some a2 ->
    at_value a1 = at_value a2 -> id1 = id2;
  inv_cmds : forall c, c ∈ network s ->
    exists a, attempts s !! cmd_attempt c = Some a /\ (cmd_node c < nodeCount o)%nat /\ cmd_ok c a;
}.

Lemma inv_replace s id a a' net :
  inv s -> attempts s !! id = Some a -> at_value a' = at_value a -> at_ttlMs a' = at_ttlMs a -> att_inv s a' ->
  (forall c, c ∈ net -> c ∈ network s /\ (cmd_attempt c = id -> cmd_ok c a -> cmd_ok c a') \/
     cmd_attempt c = id /\ (cmd_node c < nodeCount o)%nat /\ cmd_ok c a') ->
  inv {| nodes := nodes s; attempts := <[id := a']> (attempts s); network := net; now := now s |}.
Proof.
  intros [Hatt Httl Hval Hcmd] Hid Hv Ht Ha' Hnet. split; simpl.
  - intros j b. rewrite lookup_insert. case_decide; [intros [= <-]; exact Ha'|intros Hb; exact (Hatt j b Hb)].
  - intros j b. rewrite lookup_insert. case_decide; [intros [= <-]; subst j; rewrite Ht; by apply Httl|apply Httl].
  - intros j1 j2 b1 b2. rewrite !lookup_insert. repeat case_decide; intros; simplify_eq; try done; try (eapply Hval; eauto; congruence).
  - intros c Hc. rewrite lookup_insert. destruct (Hnet c Hc) as [[Hin Hok]|(Hat & Hi & Hok)].
    + destruct (Hcmd c Hin) as (b & Hb & Hi & Hokb). case_decide; [|eauto]. subst id. simplify_eq. eauto.
    + rewrite decide_True by done. eauto.
Qed.

Lemma onEveryNode_inv s id a p kind :
  inv s -> attempts s !! id = Some a -> ~ over (at_phase a) ->
  (kind = KRelease -> over p) -> (forall ttlMs, kind = KExtend ttlMs -> ttlMs = at_ttlMs a) -> kind_ok p kind ->
  phase_inv s (next_round (with_phase p a)) -> inv (onEveryNode o id a p kind s).
Proof.
  intros Hi Hid Hno Hrel Hext Hk Hph. unfold onEveryNode. apply (inv_replace s id a); [done|done|done|done| |].
  - destruct (inv_att _ Hi _ _ Hid) as (Httl & Hst & _ & _). split_and!; [done|done|by intros i [? ?]|done].
  - intros c [Hc|Hc]%elem_of_app.
    + left. split; [done|]. intros _ (Hr & Hrel' & Hext' & _). split_and!; simpl; [lia| |done|intros ?; lia].
      intros HR. by destruct Hno; auto.
    + right. apply list_elem_of_fmap in Hc as (i & -> & Hin%elem_of_seq). simpl. split_and!; [done|lia|].
      split_and!; simpl; [lia|done|done|done].
Qed.

Lemma set_phase_inv s id a p :
  inv s -> attempts s !! id = Some a -> (over (at_phase a) -> over p) ->
  (forall k, kind_ok p k) -> phase_inv s (with_phase p a) -> inv (set_attempt id (with_phase p a) s).
Proof.
  intros Hi Hid Hov Hk Hph. apply (inv_replace s id a); [done|done|done|done| |].
  - destruct (inv_att _ Hi _ _ Hid) as (Httl & Hst & Hres & _). split_and!; done.
  - intros c Hc. left. split; [done|]. intros _ (Hr & Hrel & Hext & _). split_and!; simpl; auto.
Qed.

Lemma start_inv s id key value ttl :
  inv s -> attempts s !! id = None -> 0 < ttl -> ttl = ttl_of id -> map_Forall (fun _ a => at_value a <> value) (attempts s) ->
  inv (start_attempt o id key value ttl s).
Proof.
  intros [Hatt Htl Hval Hcmd] Hid Httl Hown Hfresh. split; simpl.
  - intros j b. rewrite lookup_insert. case_decide; [|intros Hb; exact (Hatt j b Hb)].
    intros [= <-]. split_and!; simpl; [done|done|by intros i [? ?]|done].
  - intros j b. rewrite lookup_insert. case_decide; [|apply Htl]. intros [= <-]. simpl. congruence.
  - intros j1 j2 b1 b2. rewrite !lookup_insert. repeat case_decide; intros; simplify_eq/=; try done.
    + by destruct (Hfresh j2 b2).
    + by destruct (Hfresh j1 b1).
    + eauto.
  - intros c [Hc|Hc]%elem_of_app.
    + destruct (Hcmd c Hc) as (b & Hb & Hrest). exists b. rewrite lookup_insert_ne by congruence. done.
    + apply list_elem_of_fmap in Hc as (i & -> & Hin%elem_of_seq). simpl. rewrite lookup_insert_eq. eexists.
      split_and!; [done|lia|]. split_and!; simpl; [lia|done|done|done].
Qed.

Lemma answered_quorum s a P :
  att_inv s a -> ~ (size (answered P a) < quorum o)%nat -> is_quorum o (answered P a).
Proof.
  intros (_ & _ & Hres & _) Hn. split; [lia|]. intros i (v & Hv & _)%elem_of_answered. apply Hres. eauto.
Qed.

Lemma releaseEverywhere_inv s id a :
  inv s -> attempts s !! id = Some a -> ~ over (at_phase a) -> inv (releaseEverywhere o id a s).
Proof. intros. by apply onEveryNode_inv. Qed.

Lemma after_votes_inv s id a :
  inv s -> attempts s !! id = Some a -> at_phase a = Voting -> inv (after_votes o id a s).
Proof.
  intros Hi Hid Hp. pose proof (inv_att _ Hi _ _ Hid) as Ha. assert (~ over (at_phase a)) as Hno by (rewrite Hp; exact (fun H => H)).
  unfold after_votes. case_decide as Hq; [by apply releaseEverywhere_inv|].
  case_decide; [by apply releaseEverywhere_inv|]. apply onEveryNode_inv; try done.
  apply Decidable.not_or in Hq as [Hq _]. split; [|done].
  intros Hlt. exists (answered positive a). split; [by eapply answered_quorum|].
  intros i (v & Hv & Hpos%bool_decide_eq_true)%elem_of_answered. destruct Ha as (_ & _ & _ & Hph).
  unfold phase_inv in Hph. rewrite Hp in Hph. exact (Hph i v Hv Hpos Hlt).
Qed.

Lemma after_publish_inv s id a token :
  inv s -> attempts s !! id = Some a -> at_phase a = Publishing token -> inv (after_publish o id a token s).
Proof.
  intros Hi Hid Hp. pose proof (inv_att _ Hi _ _ Hid) as Ha. assert (~ over (at_phase a)) as Hno by (rewrite Hp; exact (fun H => H)).
  unfold after_publish. case_decide as Hq; [by apply releaseEverywhere_inv|].
  apply Decidable.not_or in Hq as [Hq _]. apply set_phase_inv; try done.
  destruct Ha as (Httl & Hst & Hres & Hph) eqn:HE. clear HE. unfold phase_inv in Hph. rewrite Hp in Hph. destruct Hph as [Hg Hf].
  assert (now s + validityFrom o (at_ttlMs a) (at_start a) (now s) = lease_end a (at_start a)) as Heq
    by (unfold validityFrom, lease_end; lia).
  unfold phase_inv. simpl. split_and!; simpl; rewrite ?Heq; [exact Hg|unfold lease_end; simpl; lia|].
  exists (answered is_one a). split; [by eapply answered_quorum; eauto using inv_att|].
  intros i (v & Hv & ->%bool_decide_eq_true)%elem_of_answered. by apply Hf.
Qed.

Lemma after_extend_inv s id a h tl st :
  inv s -> attempts s !! id = Some a -> at_phase a = Extending h tl st -> inv (after_extend o id a h tl st s).
Proof.
  intros Hi Hid Hp. pose proof (inv_att _ Hi _ _ Hid) as Ha. assert (~ over (at_phase a)) as Hno by (rewrite Hp; exact (fun H => H)).
  pose proof Ha as (Httl & _ & _ & Hph). unfold phase_inv in Hph. rewrite Hp in Hph. destruct Hph as ((_ & _ & Hf) & Hst & Htl & Hex).
  unfold after_extend. case_decide as Hq; [by apply onEveryNode_inv|].
  apply Decidable.not_or in Hq as [Hq _]. pose proof (answered_quorum _ _ _ Ha Hq) as HQ. apply set_phase_inv; try done.
  rewrite Htl. assert (now s + validityFrom o (at_ttlMs a) st (now s) = lease_end a st) as Heq
    by (unfold validityFrom, lease_end; lia).
  unfold phase_inv. simpl. split_and!; simpl; rewrite ?Heq; [|unfold lease_end; simpl; lia|exact Hf].
  intros Hlt. exists (answered is_one a). split; [done|].
  intros i (v & Hv & ->%bool_decide_eq_true)%elem_of_answered. exact (Hex i Hv Hlt).
Qed.

Lemma continue_inv s id a : inv s -> attempts s !! id = Some a -> inv (continue o id a s).
Proof.
  intros Hi Hid. unfold continue. destruct (at_phase a) eqn:Hp; [by apply after_votes_inv|by apply after_publish_inv|done| | | |done].
  - by apply after_extend_inv.
  - unfold after_drop. by apply set_phase_inv; rewrite ?Hp.
  - unfold after_release. by apply set_phase_inv; rewrite ?Hp.
Qed.

Lemma apply_inv s k c a v nd (answers : bool) :
  inv s -> network s !! k = Some c -> attempts s !! cmd_attempt c = Some a ->
  run_script (nclk (cmd_node c) (now s)) a (cmd_kind c) (node s (cmd_node c)) = (v, nd) ->
  inv (touch (cmd_node c) nd
    (if answers then <[cmd_attempt c := record_result (cmd_round c) (cmd_node c) (Some v) a]> (attempts s) else attempts s)
    (delete k (network s)) s).
Proof using Hdrift.
  intros Hi Hk Hid Hrun. set (ats := if answers then _ else _).
  destruct (inv_cmds _ Hi c) as (a' & Ha' & Hn & Hr & Hrel & Hext & Hkind); [by eapply list_elem_of_lookup_2|]. simplify_eq.
  destruct (record_keeps (cmd_round c) (cmd_node c) (Some v) a) as (Ev & Ep & Er & Et).
  assert (Hframe : forall id b, attempts s !! id = Some b -> att_inv (touch (cmd_node c) nd ats (delete k (network s)) s) b).
  { intros id b Hb. eapply att_inv_apply; [done|by eapply inv_att|]. intros Hv.
    assert (cmd_attempt c = id) by by eapply inv_values. subst id. simplify_eq. by split. }
  assert (Hats : forall id b, ats !! id = Some b -> exists b0, attempts s !! id = Some b0 /\ at_value b = at_value b0 /\
    at_phase b = at_phase b0 /\ at_ttlMs b = at_ttlMs b0 /\
    (b = b0 \/ id = cmd_attempt c /\ b = record_result (cmd_round c) (cmd_node c) (Some v) a)).
  { intros id b. subst ats. destruct answers; [|naive_solver]. rewrite lookup_insert. case_decide; naive_solver. }
  split; simpl.
  - intros id b Hb. destruct (Hats id b Hb) as (b0 & Hb0 & _ & _ & _ & [->|[-> ->]]); [by eapply Hframe|].
    simplify_eq. eapply record_inv; try done; [by destruct (inv_att _ Hi _ _ Hid)|by eapply Hframe].
  - intros j b (b0 & Hb0 & _ & _ & -> & _)%Hats. by eapply inv_ttl.
  - intros j1 j2 b1 b2 (c1 & ? & -> & _)%Hats (c2 & ? & -> & _)%Hats. by eapply inv_values.
  - intros d Hd. assert (d ∈ network s) as Hd' by by eapply list_elem_of_delete_inv.
    destruct (inv_cmds _ Hi d Hd') as (b0 & Hb0 & Hnd & Hok). subst ats. destruct answers; [|eauto].
    rewrite lookup_insert. case_decide as Heq; [|eauto]. rewrite Heq in *. simplify_eq. eexists. split_and!; [done|done|].
    unfold cmd_ok. by rewrite Ep, Er, Et.
Qed.

Lemma tick_att_inv s a ms :
  0 <= ms -> att_inv s a ->
  att_inv {| nodes := nodes s; attempts := attempts s; network := network s; now := now s + ms |} a.
Proof.
  intros Hms (Httl & Hst & Hres & Hph). set (s' := Build_Sys _ _ _ _).
  assert (Hg : forall i D, grips s i a D -> grips s' i a D).
  { intros i D (e & Hl & He). exists e. split; [done|]. simpl. intros t Ht. apply He. lia. }
  assert (HG : forall D, gripped s a D -> gripped s' a D).
  { intros D HD Hlt. simpl in Hlt. destruct (HD ltac:(lia)) as (C & HC & Hall). exists C. eauto. }
  split_and!; [done|simpl; lia|done|]. unfold phase_inv, handle_inv, lease_end in *. simpl.
  destruct (at_phase a) as [|token|h|h tl st|h| |]; try done.
  - intros i v Hv Hpos Hlt. apply Hg. eapply Hph; [done|done|lia].
  - destruct Hph as [? ?]. split; [by apply HG|done].
  - destruct Hph as (? & ? & ?). split_and!; [by apply HG|lia|done].
  - destruct Hph as ((? & ? & ?) & ? & ? & Hex). split_and!; [by apply HG|lia|done|lia|done|].
    intros i Hv Hlt. apply Hg, Hex; [done|lia].
Qed.

Lemma redlock_event_inv e s s' : own_ttl ttl_of e -> inv s -> event o nclk e s = Some s' -> inv s'.
Proof using Hdrift.
  intros Hown Hi. destruct e; simpl in Hown |- *.
  - case_decide as Hs; [|done]. intros [= <-]. destruct Hs as (? & ? & ?). by apply start_inv.
  - destruct (network s !! k) as [c|] eqn:Hk; [|done].
    destruct (attempts s !! cmd_attempt c) as [a|] eqn:Ha; [|done].
    destruct (run_script _ _ _ _) as [v nd] eqn:Hrun. intros [= <-]. by eapply apply_inv.
  - destruct (attempts s !! id) as [a|] eqn:Ha; [|done]. case_decide; [|done]. intros [= <-].
    destruct (record_keeps (at_round a) i None a) as (Ev & Ep & Er & Et).
    apply (inv_replace s id a); [done|done|done|done|by apply timeout_inv; eauto using inv_att|].
    intros c Hc. left. split; [done|]. unfold cmd_ok. by rewrite Ep, Er, Et.
  - destruct (attempts s !! id) as [a|] eqn:Ha; [|done]. case_decide; [|done]. intros [= <-]. by apply continue_inv.
  - destruct (attempts s !! id) as [a|] eqn:Ha; [|done]. destruct (at_phase a) as [| |h| | | |] eqn:Hp; try done.
    case_decide; [|done]. rewrite <-(inv_ttl _ Hi _ _ Ha) in Hown.
    intros [= <-]. apply onEveryNode_inv; try done; [by rewrite Hp; intros []|by intros ? [= <-]|].
    destruct (inv_att _ Hi _ _ Ha) as (_ & _ & _ & Hph). unfold phase_inv in *. rewrite Hp in Hph. simpl.
    split_and!; [apply Hph..|lia|done|done].
  - destruct (attempts s !! id) as [a|] eqn:Ha; [|done]. destruct (at_phase a) as [| |h| | | |] eqn:Hp; try done.
    intros [= <-]. apply releaseEverywhere_inv; [done|done|by rewrite Hp; intros []].
  - case_decide; [|done]. intros [= <-]. destruct Hi as [Hatt Htl Hval Hcmd]. split; simpl; [|done..].
    intros id a Ha. by apply tick_att_inv, (Hatt id).
Qed.

Lemma redlock_run_inv es s s' : Forall (own_ttl ttl_of) es -> inv s -> run o nclk es s = Some s' -> inv s'.
Proof using Hdrift.
  intros Hown. revert s. induction Hown as [|e es He Hes IH]; intros s Hi; simpl; [by intros [= <-]|].
  destruct (event o nclk e s) as [s1|] eqn:Hev; [|done]. intros. eapply IH; [by eapply redlock_event_inv|done].
Qed.

(** ** Tokens drawn after a publication *)

Section later.
Context (old : gmap nat Attempt) (P : gset nat) (T : Z) (HP : is_quorum o P).

Definition later_phase (a : Attempt) : Prop :=
  match at_phase a with
  | Voting => forall i v, i ∈ P -> at_results a !! i = Some (Some v) -> 0 < v -> T < v
  | Publishing token => T < token
  | Held h | Extending h _ _ | Dropping h => T < fencingToken h
  | Releasing | Ended _ => True
  end.

Definition later_inv (s : Sys) : Prop :=
  (forall i, i ∈ P -> T <= fence (node s i)) /\
  forall id a, attempts s !! id = Some a -> old !! id = None -> later_phase a.

Lemma later_update s id a' net :
  later_inv s -> (old !! id = None -> later_phase a') ->
  later_inv {| nodes := nodes s; attempts := <[id := a']> (attempts s); network := net; now := now s |}.
Proof.
  intros [Hf Hl] Ha'. split; [exact Hf|]. simpl. intros j b. rewrite lookup_insert.
  case_decide; [intros [= <-] Ho; apply Ha'; congruence|eauto].
Qed.

Lemma later_votes s a :
  att_inv s a -> at_phase a = Voting -> later_phase a -> ~ (size (answered positive a) < quorum o)%nat -> T < max_vote a.
Proof using HP.
  intros Ha Hp Hl Hq. destruct (quorums_meet o _ _ HP (answered_quorum _ _ _ Ha Hq)) as (i & Hi & Hv).
  apply elem_of_answered in Hv as (v & Hv & Hpos%bool_decide_eq_true). unfold later_phase in Hl. rewrite Hp in Hl.
  specialize (Hl i v Hi Hv Hpos). pose proof (max_vote_ge _ _ _ Hv Hpos). lia.
Qed.

Lemma later_continue s id a : inv s -> attempts s !! id = Some a -> later_inv s -> later_inv (continue o id a s).
Proof using HP.
  intros Hi Hid Hl. pose proof (inv_att _ Hi _ _ Hid) as Ha. pose proof (proj2 Hl id a Hid) as Hla.
  unfold continue. destruct (at_phase a) as [|token|h|h tl st|h| |] eqn:Hp; try done.
  - unfold after_votes. case_decide as Hq; [by apply later_update|]. case_decide; [by apply later_update|].
    apply Decidable.not_or in Hq as [Hq _]. apply later_update; [done|]. intros Ho. by eapply later_votes; eauto.
  - unfold after_publish. case_decide; [by apply later_update|]. apply later_update; [done|].
    intros Ho. specialize (Hla Ho). unfold later_phase in *. by rewrite Hp in Hla.
  - unfold after_extend. case_decide; apply later_update; try done;
      intros Ho; specialize (Hla Ho); unfold later_phase in *; by rewrite Hp in Hla.
  - by apply later_update.
  - by apply later_update.
Qed.

(** A vote cast now is above every counter value published before. *)
Lemma later_record s c a v nd :
  later_inv s -> inv s -> c ∈ network s -> attempts s !! cmd_attempt c = Some a -> old !! cmd_attempt c = None ->
  run_script (nclk (cmd_node c) (now s)) a (cmd_kind c) (node s (cmd_node c)) = (v, nd) ->
  later_phase (record_result (cmd_round c) (cmd_node c) (Some v) a).
Proof.
  intros [Hf Hl] Hi Hc Ha Ho Hrun. specialize (Hl _ _ Ha Ho).
  destruct (inv_cmds _ Hi c Hc) as (a' & Ha' & Hn & Hr & Hrel & _ & Hkind). simplify_eq.
  unfold record_result. case_decide as Hrec; [|done]. destruct Hrec as [Heq _]. specialize (Hkind Heq).
  unfold later_phase in *. simpl. destruct (at_phase a) as [|token|h|h tl st|h| |] eqn:Hp; try done.
  simpl in Hkind. intros i w HiP Hw Hpos. rewrite lookup_insert in Hw. case_decide as Hi'; [|by eapply Hl].
  subst i. assert (w = v) as -> by congruence. rewrite Hkind in Hrun. simpl in Hrun. unfold ACQUIRE in Hrun.
  specialize (Hf _ HiP). case_match; simplify_eq/=; lia.
Qed.

Lemma later_event e s s' : inv s -> later_inv s -> event o nclk e s = Some s' -> later_inv s'.
Proof using HP.
  intros Hi Hl. destruct e; simpl.
  - case_decide; [|done]. intros [= <-]. by apply later_update.
  - destruct (network s !! k) as [c|] eqn:Hk; [|done].
    destruct (attempts s !! cmd_attempt c) as [a|] eqn:Ha; [|done].
    destruct (run_script _ _ _ _) as [v nd] eqn:Hrun. intros [= <-]. split.
    + intros i HiP. pose proof (proj1 Hl i HiP). unfold node in *. simpl. rewrite lookup_insert.
      case_decide; [|done]. subst i. simpl. apply fence_mono in Hrun. unfold node in Hrun. lia.
    + simpl. intros id b Hb Ho. destruct answers; [|by eapply Hl]. rewrite lookup_insert in Hb.
      case_decide as Heq; [|by eapply Hl]. subst id. injection Hb as <-.
      eapply later_record; try done. by eapply list_elem_of_lookup_2.
  - destruct (attempts s !! id) as [a|] eqn:Ha; [|done]. case_decide; [|done]. intros [= <-].
    apply later_update; [done|]. intros Ho. pose proof (proj2 Hl id a Ha Ho) as Hla.
    unfold record_result. case_decide; [|done]. unfold later_phase in *. simpl. destruct (at_phase a); try done.
    intros j v HjP. rewrite lookup_insert. case_decide; [done|]. by apply Hla.
  - destruct (attempts s !! id) as [a|] eqn:Ha; [|done]. case_decide; [|done]. intros [= <-]. by apply later_continue.
  - destruct (attempts s !! id) as [a|] eqn:Ha; [|done]. destruct (at_phase a) as [| |h| | | |] eqn:Hp; try done.
    case_decide; [|done]. intros [= <-]. apply later_update; [done|]. intros Ho. pose proof (proj2 Hl id a Ha Ho) as Hla.
    unfold later_phase in *. by rewrite Hp in Hla.
  - destruct (attempts s !! id) as [a|] eqn:Ha; [|done]. destruct (at_phase a) as [| |h| | | |] eqn:Hp; try done.
    intros [= <-]. by apply later_update.
  - case_decide; [|done]. by intros [= <-].
Qed.

Lemma later_run es s s' :
  Forall (own_ttl ttl_of) es -> inv s -> later_inv s -> run o nclk es s = Some s' -> later_inv s'.
Proof using HP Hdrift.
  intros Hown. revert s. induction Hown as [|e es He Hes IH]; intros s Hi Hl; simpl; [by intros [= <-]|].
  destruct (event o nclk e s) as [s1|] eqn:Hev; [|done]. intros.
  eapply IH; [by eapply redlock_event_inv|by eapply later_event|done].
Qed.

End later.

Lemma redlock_initial_inv t ns : inv (initial t ns).
Proof. split; simpl; [done..|]. by intros c ?%not_elem_of_nil. Qed.

End invariant.

(** ** What the lock guarantees *)

(** C2: mutual exclusion.  However attempts, delayed and unanswered commands,
    time-outs, extensions and releases interleave, two acquisitions of one key
    never both have a live handle with [remainingMs() > 0], as long as the
    nodes' clocks stay within the drift allowance, no key's value is drawn
    twice, each acquisition is extended by the TTL it was made with, one call on
    a handle is made at a time, and neither handle is inside an [extend] that
    has failed and is still releasing its keys. *)
Theorem redlock_mutual_exclusion o nclk ttl_of es t ns s id1 id2 a1 a2 h1 h2 :
  drift_bounded o nclk -> Forall (own_ttl ttl_of) es ->
  run o nclk es (initial t ns) = Some s ->
  believes_held s id1 a1 h1 -> believes_held s id2 a2 h2 -> unbroken a1 -> unbroken a2 ->
  at_lockKey a1 = at_lockKey a2 -> id1 = id2.
Proof.
  intros Hdrift Hown Hrun (Ha1 & Hh1 & Hl1) (Ha2 & Hh2 & Hl2) Hu1 Hu2 Hkey.
  assert (inv o nclk ttl_of s) as Hi by (eapply redlock_run_inv; [done|done|apply redlock_initial_inv|done]).
  assert (Hgrip : forall id a h, attempts s !! id = Some a -> handle_of a = Some h -> 0 < Z.max 0 (expiry h - now s) ->
    unbroken a -> exists C, is_quorum o C /\ forall i, i ∈ C -> grips nclk s i a (expiry h)).
  { intros id a h Ha Hh Hl Hu. destruct (inv_att _ _ _ _ Hi _ _ Ha) as (_ & _ & _ & Hph).
    unfold phase_inv, handle_inv, handle_of, unbroken in *. destruct (at_phase a); simplify_eq; try done; apply Hph; lia. }
  destruct (Hgrip _ _ _ Ha1 Hh1 Hl1 Hu1) as (C1 & HC1 & Hg1). destruct (Hgrip _ _ _ Ha2 Hh2 Hl2 Hu2) as (C2 & HC2 & Hg2).
  destruct (quorums_meet _ _ _ HC1 HC2) as (i & Hi1 & Hi2).
  destruct (Hg1 i Hi1) as (e1 & He1 & _). destruct (Hg2 i Hi2) as (e2 & He2 & _).
  eapply (inv_values _ _ _ _ Hi); [done|done|]. rewrite Hkey in He1. congruence.
Qed.

(** Fencing: an acquisition that starts after another one's handle was returned
    gets a strictly larger token, whatever keys they lock and however many nodes
    fail to answer in between. *)
Theorem redlock_fencing o nclk ttl_of es1 es2 t ns s1 s2 id1 id2 a1 a2 h1 h2 :
  drift_bounded o nclk -> Forall (own_ttl ttl_of) (es1 ++ es2) ->
  run o nclk es1 (initial t ns) = Some s1 -> run o nclk es2 s1 = Some s2 ->
  attempts s1 !! id1 = Some a1 -> handle_of a1 = Some h1 ->
  attempts s1 !! id2 = None ->
  attempts s2 !! id2 = Some a2 -> handle_of a2 = Some h2 ->
  fencingToken h1 < fencingToken h2.
Proof.
  intros Hdrift [Hown1 Hown2]%Forall_app Hrun1 Hrun2 Ha1 Hh1 Hnew Ha2 Hh2.
  assert (inv o nclk ttl_of s1) as Hi by exact (redlock_run_inv o nclk Hdrift ttl_of es1 _ _ Hown1 (redlock_initial_inv o nclk ttl_of t ns) Hrun1).
  assert (published o s1 (fencingToken h1)) as (P & HP & Hf).
  { destruct (inv_att _ _ _ _ Hi _ _ Ha1) as (_ & _ & _ & Hph).
    unfold phase_inv, handle_inv, handle_of in *. destruct (at_phase a1); simplify_eq; apply Hph. }
  assert (later_inv (attempts s1) P (fencingToken h1) s2) as [_ Hl].
  { apply (later_run o nclk Hdrift ttl_of (attempts s1) P (fencingToken h1) HP es2 s1 s2 Hown2 Hi); [|done]. split; [done|]. intros id a Ha Ho. congruence. }
  specialize (Hl id2 a2 Ha2 Hnew). unfold later_phase, handle_of in *. destruct (at_phase a2); by simplify_eq.
Qed.

(** ** Three nodes *)

Definition three : RedlockOptions := {|
  nodeCount := 3; driftNum := 1; driftDen := 100; driftConstantMs := 2; keyPrefix := "redlock:lock:" |}.

Definition exact_clock (_ : nat) (t : Z) : Z := t.

Lemma exact_clock_bounded : drift_bounded three exact_clock.
Proof.
  intros i t1 t2 ttl Httl Hle. unfold drift, exact_clock, three. cbn [driftNum driftDen driftConstantMs].
  assert (0 <= (2 * (ttl * 1) + 100) / (2 * 100)) by (apply Z.div_pos; lia). lia.
Qed.

(** An acquisition while node 2 does not answer, and its release. *)
Definition first_holder : list Event :=
  [EvStart 0 "order-1" "z" 1000; EvApply 0 true; EvApply 0 true; EvTimeout 0 2; EvContinue 0;
   EvApply 1 true; EvApply 1 true; EvTimeout 0 2; EvContinue 0].
Definition first_release : list Event :=
  [EvRelease 0; EvApply 2 true; EvApply 2 true; EvTimeout 0 2; EvContinue 0].

(** Two acquisitions race: [b] takes node 1, [a] nodes 0 and 2; [a] publishes
    its token to nodes 0 and 1 only and returns. *)
Definition racing : list Event :=
  [EvStart 1 "order-1" "a" 1000; EvStart 2 "order-1" "b" 1000;
   EvApply 7 true; EvApply 3 true; EvApply 4 true; EvApply 3 true; EvApply 3 true; EvContinue 1;
   EvApply 4 true; EvApply 4 true; EvTimeout 1 2; EvContinue 1].

(** [a] releases, then [b]'s delayed command reaches node 2. *)
Definition handover : list Event :=
  [EvRelease 1; EvApply 5 true; EvApply 5 true; EvApply 5 true; EvContinue 1;
   EvApply 3 true; EvContinue 2; EvApply 4 true; EvApply 4 true; EvApply 4 true; EvContinue 2].

Definition after (es : list Event) : Sys := default (initial 0 ∅) (run three exact_clock es (initial 0 ∅)).

(** The fencing guarantee stops at overlapping attempts: an attempt whose votes
    straddle a rival's publication can be handed the rival's token again after
    the rival released, so consecutive holders of one key may carry the same
    token. *)
Theorem redlock_fencing_overlap :
  exists s1 s2 a b h1 h2,
    run three exact_clock (first_holder ++ first_release ++ racing) (initial 0 ∅) = Some s1 /\
    run three exact_clock handover s1 = Some s2 /\
    attempts s1 !! 1%nat = Some a /\ handle_of a = Some h1 /\
    option_map handle_of (attempts s1 !! 2%nat) = Some None /\
    option_map at_phase (attempts s2 !! 1%nat) = Some (Ended true) /\
    attempts s2 !! 2%nat = Some b /\ handle_of b = Some h2 /\
    at_lockKey a = at_lockKey b /\ fencingToken h2 = fencingToken h1.
Proof. do 6 eexists. split; [vm_compute; reflexivity|]. split; [vm_compute; reflexivity|]. repeat split. Qed.

Definition second_holder : list Event :=
  first_release ++ [EvStart 1 "order-1" "a" 1000; EvApply 3 true; EvApply 3 true; EvApply 3 true; EvContinue 1;
    EvApply 3 true; EvApply 3 true; EvApply 3 true; EvContinue 1].

Lemma first_holder_runs : run three exact_clock first_holder (initial 0 ∅) = Some (after first_holder).
Proof. vm_compute. reflexivity. Qed.

Lemma second_holder_runs :
  run three exact_clock second_holder (after first_holder) = Some (after (first_holder ++ second_holder)).
Proof. vm_compute. reflexivity. Qed.

Definition attempt_in (s : Sys) (id : nat) : Attempt :=
  default {| at_lockKey := ""; at_value := ""; at_ttlMs := 0; at_start := 0; at_phase := Voting; at_round := 0;
             at_results := ∅ |} (attempts s !! id).

Lemma redlock_fencing_witness :
  handle_of (attempt_in (after first_holder) 0) = Some {| fencingToken := 1; expiry := 988 |} /\
  handle_of (attempt_in (after (first_holder ++ second_holder)) 1) = Some {| fencingToken := 2; expiry := 988 |} /\
  1 < 2.
Proof.
  split; [reflexivity|]. split; [vm_compute; reflexivity|].
  apply (redlock_fencing three exact_clock (fun _ => 1000) first_holder second_holder 0 ∅ (after first_holder)
    (after (first_holder ++ second_holder)) 0 1 (attempt_in (after first_holder) 0)
    (attempt_in (after (first_holder ++ second_holder)) 1)
    {| fencingToken := 1; expiry := 988 |} {| fencingToken := 2; expiry := 988 |});
    [apply exact_clock_bounded|repeat constructor|apply first_holder_runs|apply second_holder_runs|vm_compute; reflexivity..].
Defined.

(** While the first holder's lease runs, a rival asks for the same key. *)
Definition rival : list Event := first_holder ++ [EvStart 1 "order-1" "a" 1000; EvApply 3 true; EvTick 100].

Lemma rival_runs : run three exact_clock rival (initial 0 ∅) = Some (after rival).
Proof. vm_compute. reflexivity. Qed.

Lemma redlock_mutual_exclusion_witness :
  believes_held (after rival) 0 (attempt_in (after rival) 0) {| fencingToken := 1; expiry := 988 |} /\
  ~ believes_held (after rival) 1 (attempt_in (after rival) 1) {| fencingToken := 2; expiry := 988 |}.
Proof.
  assert (believes_held (after rival) 0 (attempt_in (after rival) 0) {| fencingToken := 1; expiry := 988 |}) as Hh.
  { split; [reflexivity|]. split; reflexivity. }
  split; [exact Hh|]. intros Hb.
  assert (0%nat = 1%nat) as H; [|discriminate H].
  apply (redlock_mutual_exclusion three exact_clock (fun _ => 1000) rival 0 ∅ (after rival) 0 1
    (attempt_in (after rival) 0) (attempt_in (after rival) 1) {| fencingToken := 1; expiry := 988 |}
    {| fencingToken := 2; expiry := 988 |});
    [apply exact_clock_bounded|repeat constructor|apply rival_runs|exact Hh|exact Hb|exact I|exact I|vm_compute; reflexivity].
Defined.

(** ** Where the guarantee stops *)

(** No answer to an extension arrives, its keys are released, and a rival takes
    them before the releases are answered. *)
Definition failed_extension : list Event :=
  first_holder ++ [EvExtend 0 1000; EvTimeout 0 0; EvTimeout 0 1; EvTimeout 0 2; EvContinue 0;
    EvApply 5 false; EvApply 5 false; EvStart 1 "order-1" "a" 1000; EvApply 6 true; EvApply 6 true; EvApply 6 true;
    EvContinue 1; EvApply 6 true; EvApply 6 true; EvApply 6 true; EvContinue 1].

(** An extension by less than what is left shortens the lease on the nodes while
    the handle goes by the old one. *)
Definition short_extension : list Event :=
  first_holder ++ [EvExtend 0 10; EvApply 2 false; EvApply 2 false; EvTick 20;
    EvStart 1 "order-1" "a" 1000; EvApply 3 true; EvApply 3 true; EvApply 3 true;
    EvContinue 1; EvApply 3 true; EvApply 3 true; EvApply 3 true; EvContinue 1].

(** In both cases two handles of one key are live with [remainingMs() > 0] at
    the same time. *)
Lemma extension_admits_two :
  Forall (fun es => exists s h1 h2, run three exact_clock es (initial 0 ∅) = Some s /\
      believes_held s 0 (attempt_in s 0) h1 /\ believes_held s 1 (attempt_in s 1) h2 /\
      at_lockKey (attempt_in s 0) = at_lockKey (attempt_in s 1))
    [failed_extension; short_extension].
Proof.
  repeat (apply Forall_cons; split; [do 3 eexists; split; [vm_compute; reflexivity|];
    split; [split; [reflexivity|split; reflexivity]|]; split; [split; [reflexivity|split; reflexivity]|reflexivity]|]).
  by apply Forall_nil.
Qed.
