(* ===== verification/LockSession.v ===== *)
(** * LockSession: the lock port, its in-process implementation and [withLock]

    [common/locking/ports], [in-memory-distributed-lock.ts], [lock-session.ts]
    and the [RedlockHandle] of [redlock.service.ts].  [withLock] is written
    against the port; the guarded operation is cut at its [await]s, where the
    renewal loop may wake. *)

From S2P Require Import Prelude.

(** ** The port *)

Section port.
Context (W E : Type).

Record LockHandle := {
  lh_key : string;
  lh_fencingToken : Z;
  lh_validUntil : W -> Z;
  lh_remainingMs : W -> Z;
  lh_extend : Z -> Eff W E bool;
  lh_release : Eff W E bool;
}.

Record LockAcquireOptions := { ttlMs : Z; waitMs : option Z; retryDelayMs : option Z }.

Record DistributedLock := { dl_acquire : string -> LockAcquireOptions -> Eff W E (option LockHandle) }.

(** [LockClock] *)
Class LockClock := {
  clock_now : W -> Z;
  clock_sleep : Z -> W -> W;
}.

(** The clock is monotonic and a sleep takes time. *)
Class LockClockLaws `{!LockClock} :=
  sleep_advances : forall ms w, clock_now w < clock_now (clock_sleep ms w).

(** An operation, cut at its [await]s: what it does up to the next one, and
    how it goes on from there. *)
Inductive Operation (T : Type) :=
  | Settled (r : E + T)
  | Awaits (slice : W -> W) (k : W -> Operation T).

End port.

Arguments lh_key {W E}.
Arguments lh_fencingToken {W E}.
Arguments lh_validUntil {W E}.
Arguments lh_remainingMs {W E}.
Arguments lh_extend {W E}.
Arguments lh_release {W E}.
Arguments dl_acquire {W E}.
Arguments clock_now {W _}.
Arguments clock_sleep {W _}.
Arguments Settled {W E T}.
Arguments Awaits {W E T}.

(** ** [withLock] *)

Record WithLockOptions := {
  wl_acquire : LockAcquireOptions;
  wl_renew : bool;
  wl_renewIntervalMs : option Z;
  wl_maxHoldMs : option Z;
}.

Inductive SessionError (E : Type) :=
  | LockNotAcquiredError (key : string) (waitedMs : Z)
  | LockLostError (key : string) (token heldMs : Z)
  | Propagated (e : E).
Arguments LockNotAcquiredError {E}.
Arguments LockLostError {E}.
Arguments Propagated {E}.

(** The renewal loop between two wake-ups: still sleeping until [rn_wake], or
    [finished], with the boolean it resolved to or the error it threw. *)
Inductive Renewal (E : Type) :=
  | Sleeping (startedAt wake : Z)
  | FinishedLoop (outcome : E + bool).
Arguments Sleeping {E}.
Arguments FinishedLoop {E}.

Section session.
Context {W E : Type} `{!LockClock W}.
Implicit Types (handle : LockHandle W E) (options : WithLockOptions).

Definition renew_interval options : Z :=
  default (Z.max 1 (ttlMs (wl_acquire options) / 3)) (wl_renewIntervalMs options).

Definition startRenewal options (w : W) : Renewal E :=
  if wl_renew options then Sleeping (clock_now w) (clock_now w + renew_interval options)
  else FinishedLoop (inr false).

(** The loop's turn, if its sleep is over. *)
Definition renewal_turn handle options (rn : Renewal E) (w : W) : Renewal E * W :=
  match rn with
  | FinishedLoop _ => (rn, w)
  | Sleeping startedAt wake =>
      if decide (clock_now w < wake) then (rn, w)
      else if match wl_maxHoldMs options with
              | Some maxHoldMs => bool_decide (maxHoldMs <= clock_now w - startedAt)
              | None => false end
      then (FinishedLoop (inr false), w)
      else
        match lh_extend handle (ttlMs (wl_acquire options)) w with
        | (inl e, w') => (FinishedLoop (inl e), w')
        | (inr true, w') => (Sleeping startedAt (clock_now w' + renew_interval options), w')
        | (inr false, w') => (FinishedLoop (inr true), w')
        end
  end.

(** The operation to its end, with the renewal loop's turns at its awaits. *)
Fixpoint run_operation {T} handle options (op : Operation W E T) (rn : Renewal E) (w : W) : (E + T) * Renewal E * W :=
  match op with
  | Settled r => (r, rn, w)
  | Awaits slice k =>
      let '(rn', w2) := renewal_turn handle options rn (slice w) in
      run_operation handle options (k w) rn' w2
  end.

(** [stop(renewal, handle, ...)]: a loop still asleep is woken by the stop
    signal and resolves [false]; an error of the loop is thrown before the
    release; an error of the release is logged and swallowed. *)
Definition stop handle (rn : Renewal E) : Eff W E bool := fun w =>
  match rn with
  | FinishedLoop (inl e) => (inl e, w)
  | FinishedLoop (inr failed) => let '(_, w') := lh_release handle w in (inr failed, w')
  | Sleeping _ _ => let '(_, w') := lh_release handle w in (inr false, w')
  end.

Definition withLock {T} (lock : DistributedLock W E) (key : string) options
    (operation : LockHandle W E -> Operation W E T) : Eff W (SessionError E) T := fun w =>
  match dl_acquire lock key (wl_acquire options) w with
  | (inl e, w1) => (inl (Propagated e), w1)
  | (inr None, w1) => (inl (LockNotAcquiredError key (default 0 (waitMs (wl_acquire options)))), w1)
  | (inr (Some handle), w1) =>
      let acquiredAt := clock_now w1 in
      match run_operation handle options (operation handle) (startRenewal options w1) w1 with
      | (inl error, rn, w2) =>
          match stop handle rn w2 with
          | (inl e, w3) => (inl (Propagated e), w3)
          | (inr _, w3) => (inl (Propagated error), w3)
          end
      | (inr result, rn, w2) =>
          match stop handle rn w2 with
          | (inl e, w3) => (inl (Propagated e), w3)
          | (inr renewalFailed, w3) =>
              let lapsed := bool_decide (lh_remainingMs handle w3 <= 0) in
              if renewalFailed || lapsed
              then (inl (LockLostError key (lh_fencingToken handle) (clock_now w3 - acquiredAt)), w3)
              else (inr result, w3)
          end
      end
  end.

(** The retry loop both implementations of [acquire] run around one attempt. *)
Fixpoint acquire_loop (fuel : nat) (once : W -> option (LockHandle W E) * W) (deadline : Z)
    (delay : W -> Z) (w : W) : option (option (LockHandle W E) * W) :=
  match fuel with
  | O => None
  | S fuel' =>
      let '(r, w1) := once w in
      match r with
      | Some handle => Some (Some handle, w1)
      | None =>
          let remaining := deadline - clock_now w1 in
          if decide (remaining <= 0) then Some (None, w1)
          else acquire_loop fuel' once deadline delay (clock_sleep (Z.min remaining (delay w1)) w1)
      end
  end.

End session.

(** ** [RedlockHandle] *)

(** The handle's two mutable fields live in a store keyed by the lock value;
    the nodes are behind the service calls. *)
Class RedlockServiceOps (W : Type) := {
  svc_now : W -> Z;
  svc_quorum : nat;
  svc_extendEverywhere : string -> string -> Z -> W -> option Z * W;
  svc_releaseEverywhere : string -> string -> W -> nat * W;
  handle_live : string -> W -> bool;
  handle_expiry : string -> W -> Z;
  set_live : string -> bool -> W -> W;
  set_expiry : string -> Z -> W -> W;
}.

(** Assigning a field is read back, leaves the other field alone and takes no
    time; the service does not write the fields of a handle. *)
Class RedlockServiceLaws (W : Type) `{!RedlockServiceOps W} := {
  expiry_set : forall v t w, handle_expiry v (set_expiry v t w) = t;
  now_set_expiry : forall v t w, svc_now (set_expiry v t w) = svc_now w;
  live_set_expiry : forall v t w, handle_live v (set_expiry v t w) = handle_live v w;
  live_extend : forall k v ttl w, handle_live v (svc_extendEverywhere k v ttl w).2 = handle_live v w;
}.

Section redlock_handle.
Context {W E : Type} `{!RedlockServiceOps W} (badTtl : Z -> E).
Context (key lockKey value : string) (token : Z).

Definition redlock_remainingMs (w : W) : Z := Z.max 0 (handle_expiry value w - svc_now w).

Definition redlock_extend (ttl : Z) : Eff W E bool := fun w =>
  if decide (ttl <= 0) then (inl (badTtl ttl), w)
  else if negb (handle_live value w) then (inr false, w)
  else
    match svc_extendEverywhere lockKey value ttl w with
    | (None, w1) =>
        let w2 := set_live value false w1 in (inr false, set_expiry value (svc_now w2) w2)
    | (Some validity, w1) => (inr true, set_expiry value (svc_now w1 + validity) w1)
    end.

Definition redlock_release : Eff W E bool := fun w =>
  if negb (handle_live value w) then (inr false, w)
  else
    let '(released, w1) := svc_releaseEverywhere lockKey value (set_live value false w) in
    (inr (bool_decide (svc_quorum <= released)%nat), set_expiry value (svc_now w1) w1).

Definition RedlockHandle : LockHandle W E := {|
  lh_key := key;
  lh_fencingToken := token;
  lh_validUntil := handle_expiry value;
  lh_remainingMs := redlock_remainingMs;
  lh_extend := redlock_extend;
  lh_release := redlock_release;
|}.

End redlock_handle.

(** [RedlockService.acquire(key, options)] around one [attempt]; a wait budget
    or a retry delay, when given, must not be negative. *)
Definition redlock_acquire {W E} `{!LockClock W} (invalid : string -> Z -> E) (defaultDelay : Z)
    (attempt : string -> Z -> W -> option (LockHandle W E) * W) (delay : Z -> W -> Z)
    (key : string) (options : LockAcquireOptions) : Eff W E (option (LockHandle W E)) := fun w =>
  if decide (ttlMs options <= 0) then (inl (invalid "ttlMs" (ttlMs options)), w)
  else if decide (default 0 (waitMs options) < 0) then (inl (invalid "waitMs" (default 0 (waitMs options))), w)
  else if decide (default 0 (retryDelayMs options) < 0)
  then (inl (invalid "retryDelayMs" (default 0 (retryDelayMs options))), w)
  else
    let wait := default 0 (waitMs options) in
    match acquire_loop (S (Z.to_nat wait)) (attempt key (ttlMs options)) (clock_now w + wait)
            (delay (default defaultDelay (retryDelayMs options))) w with
    | Some (r, w') => (inr r, w')
    | None => (inr None, w)
    end.

(** ** [InMemoryDistributedLock] *)

(** Entries are shared objects: the map holds references, named by the
    fencing token, to entries whose [expiresAt] a handle's [extend] assigns. *)
Record MemoryLock := {
  entries : gmap string Z;
  heap : gmap Z Z;              (* token -> expiresAt *)
  counter : Z;
}.

Class HasMemoryLock (W : Type) := {
  mem : W -> MemoryLock;
  set_mem : MemoryLock -> W -> W;
}.

Class HasMemoryLockLaws (W : Type) `{!HasMemoryLock W, !LockClock W} := {
  mem_set : forall m w, mem (set_mem m w) = m;
  now_set_mem : forall m w, clock_now (set_mem m w) = clock_now w;
}.

Section memory.
Context {W E : Type} `{!HasMemoryLock W, !LockClock W}.

Definition expiresAt (token : Z) (w : W) : Z := default 0 (heap (mem w) !! token).

(** [holds(key, entry)] *)
Definition holds (key : string) (token : Z) (w : W) : bool :=
  bool_decide (entries (mem w) !! key = Some token) && bool_decide (clock_now w < expiresAt token w).

Definition memory_remainingMs (token : Z) (w : W) : Z := Z.max 0 (expiresAt token w - clock_now w).

Definition memory_extend (key : string) (token extendMs : Z) : Eff W E bool := fun w =>
  if holds key token w then
    (inr true, set_mem {| entries := entries (mem w);
       heap := <[token := clock_now w + extendMs]> (heap (mem w)); counter := counter (mem w) |} w)
  else (inr false, w).

Definition memory_release (key : string) (token : Z) : Eff W E bool := fun w =>
  if holds key token w then
    (inr true, set_mem {| entries := delete key (entries (mem w)); heap := heap (mem w);
       counter := counter (mem w) |} w)
  else (inr false, w).

Definition memory_handle (key : string) (token : Z) : LockHandle W E := {|
  lh_key := key;
  lh_fencingToken := token;
  lh_validUntil := expiresAt token;
  lh_remainingMs := memory_remainingMs token;
  lh_extend := memory_extend key token;
  lh_release := memory_release key token;
|}.

Definition claim (key : string) (ttl : Z) (w : W) : option (LockHandle W E) * W :=
  let held := match entries (mem w) !! key with
    | Some existing => bool_decide (clock_now w < expiresAt existing w)
    | None => false
    end in
  if held then (None, w)
  else
    let token := counter (mem w) + 1 in
    (Some (memory_handle key token),
     set_mem {| entries := <[key := token]> (entries (mem w));
                heap := <[token := clock_now w + ttl]> (heap (mem w)); counter := token |} w).

(** [clear()] *)
Definition clear (w : W) : W :=
  set_mem {| entries := ∅; heap := heap (mem w); counter := counter (mem w) |} w.

(** [acquire(key, options)]; [delay] is [Math.round(retryDelayMs * random())],
    and the loop runs at most once per millisecond of the wait budget. *)
Definition memory_acquire (badTtl : Z -> E) (delay : Z -> W -> Z) (key : string) (options : LockAcquireOptions) :
    Eff W E (option (LockHandle W E)) := fun w =>
  if decide (ttlMs options <= 0) then (inl (badTtl (ttlMs options)), w)
  else
    let wait := default 0 (waitMs options) in
    match acquire_loop (S (Z.to_nat wait)) (claim key (ttlMs options)) (clock_now w + wait)
            (delay (default 100 (retryDelayMs options))) w with
    | Some (r, w') => (inr r, w')
    | None => (inr None, w)
    end.

Definition InMemoryDistributedLock (badTtl : Z -> E) (delay : Z -> W -> Z) : DistributedLock W E :=
  {| dl_acquire := memory_acquire badTtl delay |}.

End memory.

(** ** The retry loop settles *)

Lemma acquire_loop_settles {W E} `{!LockClock W, !LockClockLaws W}
    (once : W -> option (LockHandle W E) * W) deadline delay fuel w :
  (forall u, clock_now u <= clock_now (once u).2) -> deadline - clock_now w < Z.of_nat fuel ->
  fuel <> 0%nat -> exists r, acquire_loop fuel once deadline delay w = Some r.
Proof.
  intros Honce. revert w. induction fuel as [|fuel IH]; intros w Hlt Hne; [done|]. simpl.
  destruct (once w) as [[h|] w1] eqn:Ho; [eauto|]. case_decide; [eauto|].
  pose proof (Honce w) as Hle. rewrite Ho in Hle. simpl in Hle.
  pose proof (sleep_advances W (Z.min (deadline - clock_now w1) (delay w1)) w1).
  apply IH; lia.
Qed.

(** The loop of [redlock_acquire] never runs out: what it answers is an
    attempt's handle, or [null] once the wait budget is spent. *)
Lemma redlock_acquire_answers {W E} `{!LockClock W, !LockClockLaws W} (invalid : string -> Z -> E) defaultDelay
    attempt delay key options (w : W) :
  (forall k ttl u, clock_now u <= clock_now (attempt k ttl u).2) ->
  0 < ttlMs options -> 0 <= default 0 (waitMs options) -> 0 <= default 0 (retryDelayMs options) ->
  exists r, acquire_loop (S (Z.to_nat (default 0 (waitMs options)))) (attempt key (ttlMs options))
      (clock_now w + default 0 (waitMs options)) (delay (default defaultDelay (retryDelayMs options))) w = Some r /\
    redlock_acquire invalid defaultDelay attempt delay key options w = (inr r.1, r.2).
Proof.
  intros Hclk Httl Hw Hd. unfold redlock_acquire. rewrite !decide_False by lia.
  destruct (acquire_loop_settles (attempt key (ttlMs options)) (clock_now w + default 0 (waitMs options))
    (delay (default defaultDelay (retryDelayMs options))) (S (Z.to_nat (default 0 (waitMs options)))) w) as [[r w'] Hr];
    [apply Hclk|lia|done|]. rewrite Hr. by eexists.
Qed.

(** ** Sessions over the in-process lock *)

Section memory_laws.
Context {W E : Type} `{!HasMemoryLock W, !LockClock W, !HasMemoryLockLaws W}.
Implicit Types (w : W) (key : string) (token : Z).

Lemma claim_clock key ttl w : clock_now (claim (E := E) key ttl w).2 = clock_now w.
Proof. unfold claim. repeat case_match; simpl; by rewrite ?now_set_mem. Qed.

Lemma holds_spec key token w :
  holds key token w = true <-> entries (mem w) !! key = Some token /\ clock_now w < expiresAt token w.
Proof. unfold holds. by rewrite andb_true_iff, !bool_decide_eq_true. Qed.

(** The lease of [token] has lapsed. *)
Definition lapsed token w : Prop := expiresAt token w <= clock_now w.

(** What code between two [await]s may do to a lock it does not own: time
    passes; the entry object is only written through its own handle; the key
    is taken over only once the lease has lapsed. *)
Definition foreign key token w w' : Prop :=
  clock_now w <= clock_now w' /\ expiresAt token w' = expiresAt token w /\
  (entries (mem w) !! key = Some token -> clock_now w' < expiresAt token w' -> entries (mem w') !! key = Some token).

Fixpoint respects {T} key token (op : Operation W E T) : Prop :=
  match op with
  | Settled _ => True
  | Awaits slice k => forall w, foreign key token w (slice w) /\ respects key token (k w)
  end.

(** The worlds the operation awaits in. *)
Fixpoint await_points {T} (handle : LockHandle W E) options (op : Operation W E T) (rn : Renewal E) w : list W :=
  match op with
  | Settled _ => []
  | Awaits slice k =>
      let w1 := slice w in
      let '(rn', w2) := renewal_turn handle options rn w1 in
      w1 :: await_points handle options (k w) rn' w2
  end.

Lemma extend_lapsed key token ttl w : lapsed token w -> memory_extend (E := E) key token ttl w = (inr false, w).
Proof.
  intros Hl. unfold memory_extend. destruct (holds key token w) eqn:Hh; [|done].
  apply holds_spec in Hh as [_ ?]. unfold lapsed in Hl. lia.
Qed.

Lemma turn_lapsed key token options rn w rn' w' :
  lapsed token w -> renewal_turn (memory_handle (E := E) key token) options rn w = (rn', w') -> w' = w.
Proof.
  intros Hl. unfold renewal_turn. simpl. rewrite extend_lapsed by done. intros. repeat case_match; by simplify_eq.
Qed.

(** A lapsed lease stays lapsed. *)
Lemma run_lapsed {T} key token options (op : Operation W E T) rn w r rn' w' :
  respects key token op -> lapsed token w ->
  run_operation (memory_handle key token) options op rn w = (r, rn', w') -> lapsed token w'.
Proof.
  revert rn w. induction op as [r0|slice k IH]; simpl; intros rn w Hres Hl; [by intros [= _ _ <-]|].
  destruct (Hres w) as [(Hclk & Hexp & _) Hk].
  assert (lapsed token (slice w)) as Hl' by (unfold lapsed in *; lia).
  destruct (renewal_turn _ _ _ _) as [rn1 w2] eqn:Ht. apply (turn_lapsed _ _ _ _ _ _ _ Hl') in Ht. subst w2.
  by apply IH.
Qed.

Lemma turn_holds key token options rn w rn' w' :
  0 < ttlMs (wl_acquire options) -> holds key token w = true ->
  renewal_turn (memory_handle (E := E) key token) options rn w = (rn', w') -> holds key token w' = true.
Proof.
  intros Httl Hh. unfold renewal_turn. simpl. unfold memory_extend. rewrite Hh.
  assert (holds key token (set_mem {| entries := entries (mem w);
    heap := <[token:=clock_now w + ttlMs (wl_acquire options)]> (heap (mem w)); counter := counter (mem w) |} w) = true).
  { apply holds_spec. apply holds_spec in Hh as [? _]. unfold expiresAt. rewrite mem_set, now_set_mem. simpl.
    rewrite lookup_insert_eq. simpl. split; [done|lia]. }
  intros. repeat case_match; by simplify_eq.
Qed.

(** If the lease is alive at the end it was alive, and the key was this
    holder's, at every [await]. *)
Lemma run_held {T} key token options (op : Operation W E T) rn w r rn' w' :
  0 < ttlMs (wl_acquire options) -> respects key token op -> holds key token w = true ->
  run_operation (memory_handle key token) options op rn w = (r, rn', w') -> ~ lapsed token w' ->
  Forall (fun u => holds key token u = true) (await_points (memory_handle key token) options op rn w) /\
  holds key token w' = true.
Proof.
  intros Httl. revert rn w. induction op as [r0|slice k IH]; simpl; intros rn w Hres Hh; [by intros [= _ _ <-]|].
  destruct (Hres w) as [(Hclk & Hexp & Hkeep) Hk].
  destruct (renewal_turn _ _ _ _) as [rn1 w2] eqn:Ht. intros Hrun Hend.
  destruct (decide (clock_now (slice w) < expiresAt token (slice w))) as [Halive|Hdead].
  - assert (holds key token (slice w) = true) as Hh'.
    { apply holds_spec. split; [|done]. apply Hkeep; [|done]. by apply holds_spec in Hh as [? _]. }
    pose proof (turn_holds _ _ _ _ _ _ _ Httl Hh' Ht) as Hh2.
    destruct (IH w rn1 w2 Hk Hh2 Hrun Hend). split; [|done]. by constructor.
  - assert (lapsed token (slice w)) as Hl by (unfold lapsed; lia).
    pose proof (turn_lapsed _ _ _ _ _ _ _ Hl Ht) as ->. destruct Hend. by eapply run_lapsed.
Qed.

Lemma claim_Some key ttl w h w1 :
  claim (E := E) key ttl w = (Some h, w1) ->
  h = memory_handle key (counter (mem w) + 1) /\
  w1 = set_mem {| entries := <[key := counter (mem w) + 1]> (entries (mem w));
    heap := <[counter (mem w) + 1 := clock_now w + ttl]> (heap (mem w)); counter := counter (mem w) + 1 |} w /\
  forall token, holds key token w = false.
Proof.
  unfold claim. destruct (entries (mem w) !! key) as [t|] eqn:He.
  - case_bool_decide as Hlt; intros; simplify_eq. split_and!; [done|done|]. intros token.
    apply not_true_is_false. rewrite holds_spec, He. intros [[= ->] ?]. done.
  - intros; simplify_eq. split_and!; [done|done|]. intros token.
    apply not_true_is_false. rewrite holds_spec, He. by intros [? ?].
Qed.

Lemma claim_holds key ttl w h w1 :
  0 < ttl -> claim (E := E) key ttl w = (Some h, w1) -> holds key (counter (mem w) + 1) w1 = true.
Proof.
  intros Httl (_ & -> & _)%claim_Some. apply holds_spec. unfold expiresAt. rewrite mem_set, now_set_mem. simpl.
  rewrite !lookup_insert_eq. simpl. split; [done|lia].
Qed.

Lemma acquire_loop_claim key ttl deadline delay fuel w h w1 :
  acquire_loop fuel (claim (E := E) key ttl) deadline delay w = Some (Some h, w1) ->
  exists w0, claim key ttl w0 = (Some h, w1).
Proof.
  revert w. induction fuel as [|fuel IH]; intros w; simpl; [done|].
  destruct (claim key ttl w) as [[h'|] w'] eqn:Hc; [intros; simplify_eq; eauto|]. case_decide; [done|]. apply IH.
Qed.

End memory_laws.

(** ** Sessions over Redlock *)

Section redlock_laws.
Context {W E : Type} `{!RedlockServiceOps W, !RedlockServiceLaws W, !LockClock W} (badTtl : Z -> E).
Context (key lockKey value : string) (token : Z).

(** A handle that is no longer live has no lease left. *)
Definition dead_lapsed (w : W) : Prop := handle_live value w = false -> handle_expiry value w <= svc_now w.

(** Other code never writes the handle's fields, and time passes. *)
Fixpoint keeps_fields {T} (op : Operation W E T) : Prop :=
  match op with
  | Settled _ => True
  | Awaits slice k => forall w, (dead_lapsed w -> dead_lapsed (slice w)) /\ keeps_fields (k w)
  end.

Lemma extend_dead_lapsed ttl w : dead_lapsed w -> dead_lapsed (redlock_extend badTtl lockKey value ttl w).2.
Proof using RedlockServiceLaws0.
  intros Hd. unfold redlock_extend. case_decide; [done|]. destruct (handle_live value w) eqn:Hl; [|done]. simpl.
  pose proof (live_extend lockKey value ttl w) as Hk.
  destruct (svc_extendEverywhere lockKey value ttl w) as [[validity|] w1]; simpl in *; unfold dead_lapsed.
  - rewrite live_set_expiry, Hk, Hl. done.
  - rewrite expiry_set, now_set_expiry. done.
Qed.

Lemma turn_dead_lapsed options rn w rn' w' :
  dead_lapsed w -> renewal_turn (RedlockHandle badTtl key lockKey value token) options rn w = (rn', w') -> dead_lapsed w'.
Proof using RedlockServiceLaws0.
  intros Hd. pose proof (extend_dead_lapsed (ttlMs (wl_acquire options)) w Hd) as He. unfold renewal_turn. simpl.
  destruct (redlock_extend _ _ _ _ w) as [r w1]. simpl in He. intros. repeat case_match; by simplify_eq.
Qed.

Lemma run_dead_lapsed {T} options (op : Operation W E T) rn w r rn' w' :
  keeps_fields op -> dead_lapsed w ->
  run_operation (RedlockHandle badTtl key lockKey value token) options op rn w = (r, rn', w') -> dead_lapsed w'.
Proof using RedlockServiceLaws0.
  revert rn w. induction op as [r0|slice k IH]; simpl; intros rn w Hop Hd; [by intros [= _ _ <-]|].
  destruct (Hop w) as [Hs Hk]. destruct (renewal_turn _ _ _ _) as [rn1 w2] eqn:Ht.
  apply IH; [done|]. eapply turn_dead_lapsed; [|done]. by apply Hs.
Qed.

(** Once [release] has run, [remainingMs()] is zero. *)
Lemma released_lapsed w : dead_lapsed w -> redlock_remainingMs value (redlock_release (E := E) lockKey value w).2 = 0.
Proof using RedlockServiceLaws0.
  intros Hd. unfold redlock_remainingMs, redlock_release. destruct (handle_live value w) eqn:Hl; simpl.
  - destruct (svc_releaseEverywhere _ _ _) as [n w1]. simpl. rewrite expiry_set, now_set_expiry. lia.
  - specialize (Hd Hl). lia.
Qed.

End redlock_laws.

(** ** What a session guarantees *)

(** Over the in-process lock, [withLock] reports success only if the
    lock was held for all of it: the key belonged to this acquisition, inside
    its lease, at every point where the operation awaited, renewals included,
    and the lock has been given back. *)
Theorem withLock_memory_held {W E T} `{!HasMemoryLock W, !LockClock W, !HasMemoryLockLaws W}
    badTtl delay key options (operation : LockHandle W E -> Operation W E T) (w w' : W) result :
  (forall token, respects key token (operation (memory_handle key token))) ->
  withLock (InMemoryDistributedLock badTtl delay) key options operation w = (inr result, w') ->
  exists token w1,
    memory_acquire badTtl delay key (wl_acquire options) w = (inr (Some (memory_handle key token)), w1) /\
    holds key token w1 = true /\
    Forall (fun u => holds key token u = true)
      (await_points (memory_handle key token) options (operation (memory_handle key token)) (startRenewal options w1) w1) /\
    entries (mem w') !! key = None /\ clock_now w' < expiresAt token w'.
Proof.
  intros Hres. unfold withLock. simpl. destruct (memory_acquire _ _ _ _ w) as [[e|[h|]] w1] eqn:Hacq; [done| |done].
  assert (0 < ttlMs (wl_acquire options) /\ exists w0, claim key (ttlMs (wl_acquire options)) w0 = (Some h, w1))
    as (Httl & w0 & Hc).
  { unfold memory_acquire in Hacq. case_decide; [done|]. split; [lia|].
    destruct (acquire_loop _ _ _ _ _) as [[r u]|] eqn:Hl; simplify_eq. by eapply acquire_loop_claim. }
  pose proof (claim_holds _ _ _ _ _ Httl Hc) as Hh1. pose proof Hc as (-> & _ & _)%claim_Some.
  set (token := counter (mem w0) + 1) in *.
  destruct (run_operation _ _ _ _ _) as [[[e|v] rn] w2] eqn:Hrun; [by case_match; case_match|].
  destruct (stop _ _ _) as [[e|failed] w3] eqn:Hstop; [done|]. simpl.
  destruct failed; [done|]. simpl. case_bool_decide as Hl; [done|]. intros [= <- <-].
  assert (w3 = (memory_release (E := E) key token w2).2) as ->.
  { unfold stop in Hstop. simpl in Hstop. destruct (memory_release key token w2) eqn:Hr.
    repeat case_match; by simplify_eq. }
  assert (~ lapsed token w2) as Hnl.
  { intros Hlap. apply Hl. unfold memory_release, memory_remainingMs.
    destruct (holds key token w2) eqn:Hh2; [apply holds_spec in Hh2 as [_ ?]|simpl]; unfold lapsed in Hlap; lia. }
  destruct (run_held _ _ _ _ _ _ _ _ _ Httl (Hres token) Hh1 Hrun Hnl) as [Hpts Hh2].
  exists token, w1. split_and!; [done|done|done|..].
  - unfold memory_release. rewrite Hh2. simpl. rewrite mem_set. simpl. apply lookup_delete_eq.
  - unfold memory_release. rewrite Hh2. simpl. unfold expiresAt. rewrite mem_set, now_set_mem. simpl.
    by apply holds_spec in Hh2 as [_ ?].
Qed.

(** A [RedlockHandle] forgets its lease when it is released, and
    [withLock] looks at the lease only after releasing: over Redlock no
    guarded operation is ever reported as a success, whatever the nodes
    answer. *)
Theorem withLock_redlock_never_succeeds {W E T} `{!RedlockServiceOps W, !RedlockServiceLaws W, !LockClock W}
    (badTtl : Z -> E) lock key options (operation : LockHandle W E -> Operation W E T) (w : W) :
  (forall k o u h u', dl_acquire lock k o u = (inr (Some h), u') ->
     exists lockKey value token, h = RedlockHandle badTtl k lockKey value token /\ handle_live value u' = true) ->
  (forall h value, keeps_fields value (operation h)) ->
  forall result w', withLock lock key options operation w <> (inr result, w').
Proof.
  intros Hlock Hop result w'. unfold withLock.
  destruct (dl_acquire lock key _ w) as [[e|[h|]] w1] eqn:Hacq; [done| |done].
  destruct (Hlock _ _ _ _ _ Hacq) as (lockKey & value & token & -> & Hlive).
  set (h := RedlockHandle badTtl key lockKey value token).
  destruct (run_operation _ _ _ _ _) as [[[e|v] rn] w2] eqn:Hrun; [by case_match; case_match|].
  assert (dead_lapsed value w2) as Hd.
  { eapply (run_dead_lapsed badTtl key lockKey value token); [apply Hop| |exact Hrun]. intros ?. congruence. }
  destruct (stop h rn w2) as [[e|failed] w3] eqn:Hstop; [done|].
  assert (w3 = (redlock_release (E := E) lockKey value w2).2) as ->.
  { unfold stop in Hstop. simpl in Hstop. destruct (redlock_release lockKey value w2) eqn:Hr.
    repeat case_match; by simplify_eq. }
  destruct failed; simpl; [done|]. rewrite bool_decide_eq_true_2; [done|].
  rewrite (released_lapsed (E := E) lockKey value w2 Hd). done.
Qed.

(** The in-process lock excludes: a successful claim found the key free or
    lapsed, draws a token above every earlier one, keeps every other claim out
    until its lease ends, and cannot be extended or released by any other
    acquisition of the key. *)
Theorem memory_claim_exclusive {W E} `{!HasMemoryLock W, !LockClock W, !HasMemoryLockLaws W} key ttl (w w1 : W) h :
  claim (E := E) key ttl w = (Some h, w1) -> 0 < ttl ->
  lh_fencingToken h = counter (mem w1) /\ counter (mem w) < counter (mem w1) /\
  (forall token, holds key token w = false) /\
  (forall w2 ttl', mem w2 = mem w1 -> clock_now w2 < clock_now w1 + ttl -> claim (E := E) key ttl' w2 = (None, w2)) /\
  (forall token ttl', token <> lh_fencingToken h ->
     memory_release (E := E) key token w1 = (inr false, w1) /\
     memory_extend (E := E) key token ttl' w1 = (inr false, w1)).
Proof.
  intros Hc Httl. pose proof (claim_holds _ _ _ _ _ Httl Hc) as Hh. apply holds_spec in Hh as [Hent _].
  apply claim_Some in Hc as (-> & -> & Hfree). simpl. rewrite mem_set in *. simpl in *.
  split_and!; [done|lia|done| |].
  - intros w2 ttl' Hm Hlt. unfold claim, expiresAt. rewrite Hm. simpl. rewrite !lookup_insert_eq. simpl.
    rewrite now_set_mem in Hlt. by rewrite bool_decide_eq_true_2.
  - intros token ttl' Hne. unfold memory_release, memory_extend.
    assert (holds key token (set_mem {| entries := <[key:=counter (mem w) + 1]> (entries (mem w));
      heap := <[counter (mem w) + 1:=clock_now w + ttl]> (heap (mem w)); counter := counter (mem w) + 1 |} w) = false) as ->;
      [|done].
    apply not_true_is_false. rewrite holds_spec, mem_set. simpl. rewrite lookup_insert_eq. intros [[= ?] _]. done.
Qed.

Lemma acquire_loop_refused {W E} `{!LockClock W} (once : W -> option (LockHandle W E) * W) deadline delay fuel w w' :
  acquire_loop fuel once deadline delay w = Some (None, w') -> deadline <= clock_now w'.
Proof.
  revert w. induction fuel as [|fuel IH]; intros w; simpl; [done|].
  destruct (once w) as [[h|] w1]; [done|]. case_decide; [intros [= <-]; lia|]. apply IH.
Qed.

(** [acquire] always answers: with a handle whose lease is running, or,
    once the wait budget is spent and not before, with [null]. *)
Theorem memory_acquire_answers {W E} `{!HasMemoryLock W, !LockClock W, !HasMemoryLockLaws W, !LockClockLaws W}
    (badTtl : Z -> E) delay key options (w : W) :
  0 < ttlMs options -> 0 <= default 0 (waitMs options) ->
  exists r w', memory_acquire badTtl delay key options w = (inr r, w') /\
    match r with
    | Some h => exists token, h = memory_handle key token /\ holds key token w' = true
    | None => clock_now w + default 0 (waitMs options) <= clock_now w'
    end.
Proof.
  intros Httl Hwait. unfold memory_acquire. rewrite decide_False by lia.
  set (fuel := S (Z.to_nat (default 0 (waitMs options)))).
  destruct (acquire_loop_settles (claim (E := E) key (ttlMs options)) (clock_now w + default 0 (waitMs options))
    (delay (default 100 (retryDelayMs options))) fuel w) as [[r w'] Hr].
  - intros u. rewrite claim_clock. lia.
  - unfold fuel. lia.
  - done.
  - rewrite Hr. exists r, w'. split; [done|]. destruct r as [h|].
    + destruct (acquire_loop_claim _ _ _ _ _ _ _ _ Hr) as [w0 Hc]. exists (counter (mem w0) + 1).
      pose proof (claim_holds _ _ _ _ _ Httl Hc). apply claim_Some in Hc as (-> & _). done.
    + by apply acquire_loop_refused in Hr.
Qed.

(** ** A process with one lock table *)

Record DemoWorld := { dw_mem : MemoryLock; dw_clock : Z }.

#[global] Instance DemoWorld_mem : HasMemoryLock DemoWorld :=
  {| mem := dw_mem; set_mem m w := {| dw_mem := m; dw_clock := dw_clock w |} |}.
#[global] Instance DemoWorld_clock : LockClock DemoWorld :=
  {| clock_now := dw_clock; clock_sleep ms w := {| dw_mem := dw_mem w; dw_clock := dw_clock w + Z.max 1 ms |} |}.
#[global] Instance DemoWorld_laws : HasMemoryLockLaws DemoWorld.
Proof. split; done. Qed.
#[global] Instance DemoWorld_clock_laws : LockClockLaws DemoWorld.
Proof. intros ms w. simpl. lia. Qed.

Definition demo_start : DemoWorld := {| dw_mem := {| entries := ∅; heap := ∅; counter := 0 |}; dw_clock := 0 |}.

Definition demo_options : WithLockOptions := {|
  wl_acquire := {| ttlMs := 30; waitMs := None; retryDelayMs := None |};
  wl_renew := true; wl_renewIntervalMs := None; wl_maxHoldMs := None |}.

Definition demo_pause (ms : Z) (w : DemoWorld) : DemoWorld := {| dw_mem := dw_mem w; dw_clock := dw_clock w + ms |}.

(** Work that outlives the first lease and is carried by renewals. *)
Definition demo_work (_ : LockHandle DemoWorld string) : Operation DemoWorld string nat :=
  Awaits (demo_pause 20) (fun _ => Awaits (demo_pause 20) (fun _ => Settled (inr 7%nat))).

Lemma demo_work_respects key token : respects key token (demo_work (memory_handle key token)).
Proof. assert (forall w, foreign key token w (demo_pause 20 w)); [|by simpl]. intros w. split_and!; simpl; [lia|done..]. Qed.

Definition demo_ended : DemoWorld :=
  snd (withLock (InMemoryDistributedLock (fun _ => "bad ttl"%string) (fun _ _ => 1)) "k" demo_options demo_work demo_start).

Lemma withLock_memory_held_witness : entries (mem demo_ended) !! "k"%string = None /\ clock_now demo_ended = 40.
Proof.
  split; [|reflexivity].
  destruct (withLock_memory_held (fun _ => "bad ttl"%string) (fun _ _ => 1) "k" demo_options demo_work demo_start demo_ended 7%nat)
    as (token & w1 & _ & _ & _ & He & _); [intros token; apply demo_work_respects|reflexivity|exact He].
Defined.

Definition claimed_world : DemoWorld := snd (claim (E := string) "k" 30 demo_start).

Lemma memory_claim_exclusive_witness :
  claim (E := string) "k" 5 (demo_pause 29 claimed_world) = (None, demo_pause 29 claimed_world).
Proof.
  assert (claim "k" 30 demo_start = (Some (memory_handle (E := string) "k" 1), claimed_world)) as Hc by reflexivity.
  destruct (memory_claim_exclusive (E := string) "k" 30 demo_start claimed_world (memory_handle "k" 1) Hc ltac:(lia))
    as (_ & _ & _ & Hexcl & _).
  apply Hexcl; [reflexivity|vm_compute; reflexivity].
Defined.

Lemma memory_acquire_answers_witness :
  exists r w', memory_acquire (E := string) (fun _ => "bad ttl"%string) (fun _ _ => 1) "k"
      {| ttlMs := 30; waitMs := Some 5; retryDelayMs := None |} claimed_world = (inr r, w').
Proof.
  destruct (memory_acquire_answers (E := string) (fun _ => "bad ttl"%string) (fun _ _ => 1) "k"
    {| ttlMs := 30; waitMs := Some 5; retryDelayMs := None |} claimed_world ltac:(simpl; lia) ltac:(simpl; lia))
    as (r & w' & Heq & _).
  exists r, w'. exact Heq.
Defined.

(** A Redlock whose nodes always agree. *)
Record AgreeingWorld := { aw_cells : gmap string (bool * Z); aw_clock : Z }.

#[global] Instance Agreeing_ops : RedlockServiceOps AgreeingWorld := {|
  svc_now := aw_clock;
  svc_quorum := 2;
  svc_extendEverywhere _ _ ttl w := (Some ttl, w);
  svc_releaseEverywhere _ _ w := (3%nat, w);
  handle_live v w := fst (default (false, 0) (aw_cells w !! v));
  handle_expiry v w := snd (default (false, 0) (aw_cells w !! v));
  set_live v b w := {| aw_cells := <[v := (b, snd (default (false, 0) (aw_cells w !! v)))]> (aw_cells w); aw_clock := aw_clock w |};
  set_expiry v t w := {| aw_cells := <[v := (fst (default (false, 0) (aw_cells w !! v)), t)]> (aw_cells w); aw_clock := aw_clock w |};
|}.

#[global] Instance Agreeing_laws : RedlockServiceLaws AgreeingWorld.
Proof. split; simpl; intros; rewrite ?lookup_insert_eq; done. Qed.

#[global] Instance Agreeing_clock : LockClock AgreeingWorld := {|
  clock_now := aw_clock; clock_sleep ms w := {| aw_cells := aw_cells w; aw_clock := aw_clock w + ms |} |}.

Definition agreeing_lock : DistributedLock AgreeingWorld string := {|
  dl_acquire k o w := (inr (Some (RedlockHandle (fun _ => "bad ttl"%string) k k "v" 1)),
    {| aw_cells := <["v"%string := (true, aw_clock w + ttlMs o)]> (aw_cells w); aw_clock := aw_clock w |}) |}.

Lemma withLock_redlock_never_succeeds_witness :
  withLock agreeing_lock "k" demo_options (fun _ => Settled (inr 7%nat)) {| aw_cells := ∅; aw_clock := 0 |} <>
  (inr 7%nat, {| aw_cells := {["v"%string := (false, 0)]}; aw_clock := 0 |}).
Proof.
  apply (withLock_redlock_never_succeeds (fun _ => "bad ttl"%string)).
  - intros k o u h u' [= <- <-]. exists k, "v"%string, 1. split; [reflexivity|]. simpl. by rewrite lookup_insert_eq.
  - intros h value. exact I.
Defined.
