(* ===== verification/Outbox.v ===== *)
(** * Outbox: events that commit with the data and are published afterwards

    [outbox/transactional-outbox.service.ts], [prisma-outbox.store.ts] and
    [outbox-relay.service.ts].  Inside one transaction the code is a
    computation over the rows and the broker; several relays draining at once,
    with [FOR UPDATE SKIP LOCKED] between them, are a transition system whose
    steps are those computations. *)

From S2P Require Import Prelude Json Backoff.

(** ** Rows and records *)

Inductive OutboxStatus := PENDING | PUBLISHED | DEAD.

#[global] Instance OutboxStatus_eq_dec : EqDecision OutboxStatus.
Proof. solve_decision. Defined.

Record TraceCarrier := { traceparent : option string; tracestate : option string }.

Record NewOutboxEvent := {
  ne_name : string;
  ne_payload : JsonValue;
  ne_eventId : string;
  ne_occurredAt : Z;
  ne_correlationId : option string;
  ne_trace : TraceCarrier;
}.

(** A row of [outbox_events], under its id. *)
Record OutboxRow := {
  ob_eventId : string;
  ob_name : string;
  ob_payload : JsonValue;
  ob_correlationId : option string;
  ob_occurredAt : Z;
  ob_trace : TraceCarrier;
  ob_attempts : Z;
  ob_status : OutboxStatus;
  ob_nextAttemptAt : Z;
  ob_publishedAt : option Z;
  ob_lastError : option JSText;
}.

Record OutboxRecord := {
  rec_id : string;
  rec_eventId : string;
  rec_name : string;
  rec_payload : JsonValue;
  rec_correlationId : option string;
  rec_occurredAt : Z;
  rec_attempts : Z;
  rec_trace : TraceCarrier;
}.

Inductive Disposition := Published | Retry (error : JSText) (nextAttemptAt : Z) | DeadLettered (error : JSText).

Record OutboxOutcome := { out_eventId : string; out_name : string; out_disposition : Disposition }.

Record DrainReport := { dr_claimed : nat; dr_outcomes : list OutboxOutcome }.

Definition DOMAIN_EVENT_NAMES : list string :=
  ["user.registered"; "user.deleted"; "order.placed"; "order.confirmed"; "order.cancelled"]%string.

Definition isDomainEventName (name : string) : bool := bool_decide (name ∈ DOMAIN_EVENT_NAMES).

Definition UnknownOutboxEventError (eventId name : string) : JSText :=
  js ("Outbox event " +:+ eventId +:+ " names " +:+ dq +:+ name +:+ dq +:+
    ", which is not in DomainEventPayloads. It was staged by a build that knew this event and cannot be published by this one.").

(** [toRecord(row)]: the record, or the message of what it throws. *)
Definition toRecord (id : string) (row : OutboxRow) : JSText + OutboxRecord :=
  if isDomainEventName (ob_name row) then
    inr {| rec_id := id; rec_eventId := ob_eventId row; rec_name := ob_name row; rec_payload := ob_payload row;
           rec_correlationId := ob_correlationId row; rec_occurredAt := ob_occurredAt row;
           rec_attempts := ob_attempts row; rec_trace := ob_trace row |}
  else inl (UnknownOutboxEventError (ob_eventId row) (ob_name row)).

(** ** Staging *)

Definition stage_row (now : Z) (e : NewOutboxEvent) : OutboxRow := {|
  ob_eventId := ne_eventId e; ob_name := ne_name e; ob_payload := ne_payload e;
  ob_correlationId := ne_correlationId e; ob_occurredAt := ne_occurredAt e; ob_trace := ne_trace e;
  ob_attempts := 0; ob_status := PENDING; ob_nextAttemptAt := now; ob_publishedAt := None; ob_lastError := None |}.

(** The table, and whatever the transaction or the broker otherwise touches. *)
Abbreviation Table := (gmap string OutboxRow).

(** [TransactionalOutbox.stage(tx, name, payload, context)]: [validate] is the
    event contract, [uuid] the event id, [id] the row id the database assigns. *)
Definition stage {B} (validate : string -> JsonValue -> option JSText) (uuid id : string) (now : Z)
    (trace : TraceCarrier) (name : string) (payload : JsonValue) (correlationId : option string) :
    Eff (Table * B) JSText (string * string * Z) := fun '(t, b) =>
  match validate name payload with
  | Some error => (inl error, (t, b))
  | None =>
      let event := {| ne_name := name; ne_payload := payload; ne_eventId := uuid; ne_occurredAt := now;
                      ne_correlationId := correlationId; ne_trace := trace |} in
      (inr (uuid, name, now), (<[id := stage_row now event]> t, b))
  end.

(** ** Draining *)

Record DrainOptions (B : Type) := {
  opt_batchSize : nat;
  opt_now : Z;
  opt_deliver : OutboxRecord -> Eff B JSText unit;
  opt_retryAt : OutboxRecord -> option Z;
}.
Arguments opt_batchSize {B}.
Arguments opt_now {B}.
Arguments opt_deliver {B}.
Arguments opt_retryAt {B}.

Definition due (now : Z) (locked : gset string) (kr : string * OutboxRow) : Prop :=
  ob_status kr.2 = PENDING /\ ob_nextAttemptAt kr.2 <= now /\ kr.1 ∉ locked.

#[global] Instance due_dec now locked kr : Decision (due now locked kr).
Proof. unfold due. apply _. Defined.

(** [ORDER BY "occurredAt" ASC, "id" ASC] *)
Definition occurred_le (a b : string * OutboxRow) : Prop :=
  ob_occurredAt a.2 < ob_occurredAt b.2 \/
  ob_occurredAt a.2 = ob_occurredAt b.2 /\ String.leb a.1 b.1 = true.

#[global] Instance occurred_le_dec : RelDecision occurred_le.
Proof. intros a b. unfold occurred_le. apply _. Defined.

#[global] Instance occurred_le_total : Total occurred_le.
Proof.
  intros [k r] [k' r']. unfold occurred_le; simpl.
  destruct (Z.lt_trichotomy (ob_occurredAt r) (ob_occurredAt r')) as [|[Heq|]]; [auto| |auto].
  destruct (String.leb_total k k'); auto.
Qed.

(** [claim(client, options)]: the rows no other transaction has locked. *)
Definition claim (now : Z) (batchSize : nat) (locked : gset string) (t : Table) : list (string * OutboxRow) :=
  first_rows (due now locked) occurred_le batchSize t.

Lemma elem_of_claim now batch locked t id row :
  (id, row) ∈ claim now batch locked t -> t !! id = Some row /\ due now locked (id, row).
Proof. exact (elem_of_first_rows (due now locked) occurred_le batch t id row). Qed.

Definition mark_published (now : Z) (row : OutboxRow) : OutboxRow := {|
  ob_eventId := ob_eventId row; ob_name := ob_name row; ob_payload := ob_payload row;
  ob_correlationId := ob_correlationId row; ob_occurredAt := ob_occurredAt row; ob_trace := ob_trace row;
  ob_attempts := ob_attempts row + 1; ob_status := PUBLISHED; ob_nextAttemptAt := ob_nextAttemptAt row;
  ob_publishedAt := Some now; ob_lastError := ob_lastError row |}.

Definition mark_dead (attempts : Z) (error : JSText) (row : OutboxRow) : OutboxRow := {|
  ob_eventId := ob_eventId row; ob_name := ob_name row; ob_payload := ob_payload row;
  ob_correlationId := ob_correlationId row; ob_occurredAt := ob_occurredAt row; ob_trace := ob_trace row;
  ob_attempts := attempts; ob_status := DEAD; ob_nextAttemptAt := ob_nextAttemptAt row;
  ob_publishedAt := ob_publishedAt row; ob_lastError := Some (truncate error) |}.

Definition mark_retry (attempts nextAttemptAt : Z) (error : JSText) (row : OutboxRow) : OutboxRow := {|
  ob_eventId := ob_eventId row; ob_name := ob_name row; ob_payload := ob_payload row;
  ob_correlationId := ob_correlationId row; ob_occurredAt := ob_occurredAt row; ob_trace := ob_trace row;
  ob_attempts := attempts; ob_status := ob_status row; ob_nextAttemptAt := nextAttemptAt;
  ob_publishedAt := ob_publishedAt row; ob_lastError := Some (truncate error) |}.

Section drain.
Context {B : Type}.
Implicit Types (options : DrainOptions B).

(** [client.outboxEvent.update({ where: { id }, data })] *)
Definition update (id : string) (f : OutboxRow -> OutboxRow) : Eff (Table * B) JSText unit := fun '(t, b) =>
  match t !! id with
  | Some row => (inr tt, (<[id := f row]> t, b))
  | None => (inl (js "Record to update not found."), (t, b))
  end.

Definition markDead (id : string) (attempts : Z) (error : JSText) : Eff (Table * B) JSText unit :=
  update id (mark_dead attempts error).

Definition with_broker {A} (m : Eff B JSText A) : Eff (Table * B) JSText A := fun '(t, b) =>
  let '(r, b') := m b in (r, (t, b')).

Definition outcome (row : OutboxRow) (d : Disposition) : OutboxOutcome :=
  {| out_eventId := ob_eventId row; out_name := ob_name row; out_disposition := d |}.

Definition deliverOne options (id : string) (row : OutboxRow) : Eff (Table * B) JSText OutboxOutcome :=
  match toRecord id row with
  | inl error =>
      do! markDead id (ob_attempts row + 1) error in
      ret (outcome row (DeadLettered error))
  | inr record =>
      try_catch
        (do! with_broker (opt_deliver options record) in
         do! update id (mark_published (opt_now options)) in
         ret (outcome row Published))
        (fun error =>
          let attempts := ob_attempts row + 1 in
          match opt_retryAt options record with
          | None =>
              do! markDead id attempts error in
              ret (outcome row (DeadLettered error))
          | Some nextAttemptAt =>
              do! update id (mark_retry attempts nextAttemptAt error) in
              ret (outcome row (Retry error nextAttemptAt))
          end)
  end.

Fixpoint deliverAll options (rows : list (string * OutboxRow)) : Eff (Table * B) JSText (list OutboxOutcome) :=
  match rows with
  | [] => ret []
  | (id, row) :: rest =>
      let! o := deliverOne options id row in
      let! os := deliverAll options rest in
      ret (o :: os)
  end.

(** [this.prisma.$transaction(body)]: what the body wrote to the table is kept
    only if it returned and the commit went through; the broker keeps
    everything. *)
Definition transaction {A} (commits : bool) (body : Eff (Table * B) JSText A) : Eff (Table * B) JSText A := fun '(t, b) =>
  match body (t, b) with
  | (inr a, (t', b')) =>
      if commits then (inr a, (t', b')) else (inl (js "Transaction API error"), (t, b'))
  | (inl e, (_, b')) => (inl e, (t, b'))
  end.

(** [drain(options)], with the rows other transactions hold at that moment. *)
Definition drain (commits : bool) (locked : gset string) options : Eff (Table * B) JSText DrainReport :=
  transaction commits
    (let! rows := reads (fun '(t, _) => claim (opt_now options) (opt_batchSize options) locked t) in
     let! outcomes := deliverAll options rows in
     ret {| dr_claimed := length rows; dr_outcomes := outcomes |}).

(** ** The relay *)

(** [deliver(record)]: the publish, raced against the relay's timeout; a publish
    that lost the race still runs. *)
Definition deliver (publish : OutboxRecord -> Eff B JSText unit) (timedOut : OutboxRecord -> B -> bool)
    (timeoutMessage : OutboxRecord -> JSText) (record : OutboxRecord) : Eff B JSText unit := fun b =>
  let '(r, b') := publish record b in
  if timedOut record b then (inl (timeoutMessage record), b') else (r, b').

(** [runOnce(now)] *)
Definition relay_options (publish : OutboxRecord -> Eff B JSText unit) timedOut timeoutMessage
    (policy : BackoffPolicy) (random : OutboxRecord -> Draw) (batchSize : nat) (now : Z) : DrainOptions B := {|
  opt_batchSize := batchSize;
  opt_now := now;
  opt_deliver := deliver publish timedOut timeoutMessage;
  opt_retryAt := fun record => nextAttemptAt now (rec_attempts record + 1) policy (random record);
|}.

End drain.

(** ** Many relays *)

(** A drain in flight: the batch it claimed, the part it has not delivered yet,
    and the table as its transaction sees it. *)
Record DrainTx (B : Type) := {
  tx_options : DrainOptions B;
  tx_claimed : list (string * OutboxRow);
  tx_todo : list (string * OutboxRow);
  tx_view : Table;
}.
Arguments tx_options {B}.
Arguments tx_claimed {B}.
Arguments tx_todo {B}.
Arguments tx_view {B}.

(** [delivered] lists the rows whose publish was acknowledged, [aborted] those
    of them whose transaction was then rolled back. *)
Record Sys (B : Type) := {
  s_table : Table;
  s_locks : gmap string nat;
  s_drains : gmap nat (DrainTx B);
  s_broker : B;
  s_delivered : list string;
  s_aborted : list string;
}.
Arguments s_table {B}.
Arguments s_locks {B}.
Arguments s_drains {B}.
Arguments s_broker {B}.
Arguments s_delivered {B}.
Arguments s_aborted {B}.

Definition lock_all (r : nat) (ids : list string) (locks : gmap string nat) : gmap string nat :=
  foldr (fun id m => <[id := r]> m) locks ids.

Definition unlock (r : nat) (locks : gmap string nat) : gmap string nat := filter (fun kv => kv.2 <> r) locks.

(** What commit makes of the table: the transaction's version of the rows it
    locked. *)
Definition apply_view (ids : list string) (view t : Table) : Table :=
  map_imap (fun k row => Some (if decide (k ∈ ids) then default row (view !! k) else row)) t.

Definition is_published (t : Table) (id : string) : bool :=
  match t !! id with Some row => bool_decide (ob_status row = PUBLISHED) | None => false end.

Definition rolled_back {B} (tx : DrainTx B) : list string :=
  filter (fun id => is_published (tx_view tx) id = true) (tx_claimed tx).*1.

Definition times (id : string) (l : list string) : nat := length (filter (fun x => x = id) l).

Lemma lock_all_lookup r ids locks id :
  lock_all r ids locks !! id = if decide (id ∈ ids) then Some r else locks !! id.
Proof.
  induction ids as [|k ids IH]; [by rewrite decide_False by apply not_elem_of_nil|].
  change (lock_all r (k :: ids) locks) with (<[k := r]> (lock_all r ids locks)). rewrite lookup_insert. destruct (decide (k = id)) as [->|Hne]; [by rewrite decide_True by left|].
  rewrite IH. destruct (decide (id ∈ ids)); [by rewrite decide_True by by right|].
  rewrite decide_False; [done|]. set_solver.
Qed.

Lemma unlock_lookup r locks id :
  unlock r locks !! id = match locks !! id with Some q => if decide (q = r) then None else Some q | None => None end.
Proof.
  unfold unlock. destruct (locks !! id) as [q|] eqn:Hq.
  - case_decide.
    + apply map_lookup_filter_None. right. intros x Hx. simplify_eq. naive_solver.
    + by apply map_lookup_filter_Some.
  - apply map_lookup_filter_None. by left.
Qed.

Lemma apply_view_lookup ids view t id :
  apply_view ids view t !! id = (fun row => if decide (id ∈ ids) then default row (view !! id) else row) <$> t !! id.
Proof. unfold apply_view. apply (lookup_view (fun k row => if decide (k ∈ ids) then default row (view !! k) else row)). Qed.

Lemma times_cons id x l : times id (x :: l) = (Nat.b2n (bool_decide (x = id)) + times id l)%nat.
Proof. unfold times. rewrite filter_cons. case_bool_decide; case_decide; done. Qed.

Lemma times_app id l l' : times id (l ++ l') = (times id l + times id l')%nat.
Proof. unfold times. by rewrite filter_app, length_app. Qed.

Lemma times_NoDup id l : NoDup l -> times id l = Nat.b2n (bool_decide (id ∈ l)).
Proof.
  induction 1 as [|x l Hx Hnd IH]; [done|]. rewrite times_cons, IH. repeat case_bool_decide; simpl; set_solver.
Qed.

Section relays.
Context {B : Type} (publish : OutboxRecord -> Eff B JSText unit) (timedOut : OutboxRecord -> B -> bool)
  (timeoutMessage : OutboxRecord -> JSText) (policy : BackoffPolicy) (random : OutboxRecord -> Draw).

Let options := relay_options publish timedOut timeoutMessage policy random.

Inductive sys_step : Sys B -> Sys B -> Prop :=
  (** a unit of work commits, with the event it staged *)
  | step_stage s id now e :
      s_table s !! id = None ->
      sys_step s {| s_table := <[id := stage_row now e]> (s_table s); s_locks := s_locks s; s_drains := s_drains s;
                    s_broker := s_broker s; s_delivered := s_delivered s; s_aborted := s_aborted s |}
  | step_claim s r now batchSize rows :
      s_drains s !! r = None -> rows = claim now batchSize (dom (s_locks s)) (s_table s) ->
      sys_step s {| s_table := s_table s; s_locks := lock_all r rows.*1 (s_locks s);
        s_drains := <[r := {| tx_options := options batchSize now; tx_claimed := rows; tx_todo := rows;
                              tx_view := s_table s |}]> (s_drains s);
        s_broker := s_broker s; s_delivered := s_delivered s; s_aborted := s_aborted s |}
  | step_deliver s r tx id row rest o view b :
      s_drains s !! r = Some tx -> tx_todo tx = (id, row) :: rest ->
      deliverOne (tx_options tx) id row (tx_view tx, s_broker s) = (inr o, (view, b)) ->
      sys_step s {| s_table := s_table s; s_locks := s_locks s;
        s_drains := <[r := {| tx_options := tx_options tx; tx_claimed := tx_claimed tx; tx_todo := rest;
                              tx_view := view |}]> (s_drains s);
        s_broker := b;
        s_delivered := match out_disposition o with Published => id :: s_delivered s | _ => s_delivered s end;
        s_aborted := s_aborted s |}
  | step_commit s r tx :
      s_drains s !! r = Some tx -> tx_todo tx = [] ->
      sys_step s {| s_table := apply_view (tx_claimed tx).*1 (tx_view tx) (s_table s); s_locks := unlock r (s_locks s);
        s_drains := delete r (s_drains s); s_broker := s_broker s; s_delivered := s_delivered s;
        s_aborted := s_aborted s |}
  (** the relay died, the transaction timed out or an update failed *)
  | step_abort s r tx b :
      s_drains s !! r = Some tx ->
      sys_step s {| s_table := s_table s; s_locks := unlock r (s_locks s);
        s_drains := delete r (s_drains s); s_broker := b; s_delivered := s_delivered s;
        s_aborted := rolled_back tx ++ s_aborted s |}
  (** other producers and the consumers *)
  | step_broker s b :
      sys_step s {| s_table := s_table s; s_locks := s_locks s; s_drains := s_drains s;
                    s_broker := b; s_delivered := s_delivered s; s_aborted := s_aborted s |}.

Definition sys_start (b : B) : Sys B := {|
  s_table := ∅; s_locks := ∅; s_drains := ∅; s_broker := b; s_delivered := []; s_aborted := [] |}.

Definition reachable (s : Sys B) : Prop := exists b, rtc sys_step (sys_start b) s.

(** ** One delivery *)

Definition same_event (row row' : OutboxRow) : Prop :=
  ob_eventId row' = ob_eventId row /\ ob_name row' = ob_name row /\ ob_payload row' = ob_payload row /\
  ob_correlationId row' = ob_correlationId row /\ ob_occurredAt row' = ob_occurredAt row /\ ob_trace row' = ob_trace row.

(** What a delivery may make of a row. *)
Definition settled (row row' : OutboxRow) : Prop :=
  same_event row row' /\ ob_attempts row' = ob_attempts row + 1 /\
  match ob_status row' with
  | PUBLISHED => isDomainEventName (ob_name row) = true /\ is_Some (ob_publishedAt row')
  | DEAD => isDomainEventName (ob_name row) = false \/ maxAttempts policy <= ob_attempts row + 1
  | PENDING => ob_attempts row + 1 < maxAttempts policy
  end.

Lemma retry_none now batch id row record :
  toRecord id row = inr record ->
  (opt_retryAt (options batch now) record = None <-> maxAttempts policy <= ob_attempts row + 1).
Proof.
  unfold toRecord. case_match; [|done]. intros [= <-]. simpl. unfold nextAttemptAt.
  rewrite <-(nextAttemptDelayMs_None _ policy (random {| rec_id := id; rec_eventId := ob_eventId row; rec_name := ob_name row;
    rec_payload := ob_payload row; rec_correlationId := ob_correlationId row; rec_occurredAt := ob_occurredAt row;
    rec_attempts := ob_attempts row; rec_trace := ob_trace row |})). case_match; split; (done || congruence).
Qed.

(** A delivery always ends in an update of its own row and nothing else. *)
Lemma deliverOne_settles batch now id row view b :
  view !! id = Some row -> ob_status row = PENDING ->
  exists o row' b', deliverOne (options batch now) id row (view, b) = (inr o, (<[id := row']> view, b')) /\
    settled row row' /\ (out_disposition o = Published <-> ob_status row' = PUBLISHED) /\
    out_eventId o = ob_eventId row.
Proof.
  intros Hv Hp. unfold deliverOne. destruct (toRecord id row) as [error|record] eqn:Hr.
  - exists (outcome row (DeadLettered error)), (mark_dead (ob_attempts row + 1) error row), b.
    unfold bind, markDead, update. rewrite Hv. split; [done|]. split; [|done].
    unfold toRecord in Hr. case_match; [done|]. split_and!; try done. by left.
  - pose proof (retry_none now batch id row record Hr) as Hret.
    assert (isDomainEventName (ob_name row) = true) as Hname by (unfold toRecord in Hr; by case_match).
    unfold try_catch, with_broker, bind. destruct (opt_deliver (options batch now) record b) as [[error|[]] b'].
    + destruct (opt_retryAt (options batch now) record) as [t|] eqn:Ht.
      * exists (outcome row (Retry error t)), (mark_retry (ob_attempts row + 1) t error row), b'.
        unfold update. rewrite Hv. split; [done|]. split; [|simpl; rewrite Hp; done].
        split_and!; try done. simpl. rewrite Hp. destruct (decide (maxAttempts policy <= ob_attempts row + 1)); [|lia].
        apply Hret in l. done.
      * exists (outcome row (DeadLettered error)), (mark_dead (ob_attempts row + 1) error row), b'.
        unfold markDead, update. rewrite Hv. split; [done|]. split; [|done].
        split_and!; try done. right. by apply Hret.
    + exists (outcome row Published), (mark_published now row), b'. unfold update. rewrite Hv. split; [done|].
      split; [|done]. split_and!; try done; simpl; eauto.
Qed.

(** ** The invariant *)

Definition row_ok (row : OutboxRow) : Prop :=
  match ob_status row with
  | PENDING => ob_attempts row = 0 \/ 0 < ob_attempts row < maxAttempts policy
  | PUBLISHED => isDomainEventName (ob_name row) = true /\ is_Some (ob_publishedAt row)
  | DEAD => isDomainEventName (ob_name row) = false \/ maxAttempts policy <= ob_attempts row
  end /\ 0 <= ob_attempts row <= Z.max 1 (maxAttempts policy).

Record tx_inv (s : Sys B) (r : nat) (tx : DrainTx B) : Prop := {
  tx_opts : exists batch now, tx_options tx = options batch now;
  tx_NoDup : NoDup (tx_claimed tx).*1;
  tx_locked : forall id row, (id, row) ∈ tx_claimed tx ->
    s_locks s !! id = Some r /\ s_table s !! id = Some row /\ ob_status row = PENDING;
  tx_progress : exists finished, tx_claimed tx = finished ++ tx_todo tx /\
    (forall id row, (id, row) ∈ tx_todo tx -> tx_view tx !! id = Some row) /\
    (forall id row, (id, row) ∈ finished -> exists row', tx_view tx !! id = Some row' /\ settled row row');
}.

(** Deliveries acknowledged inside a transaction that is still open. *)
Definition inflight (s : Sys B) (id : string) : nat :=
  match s_locks s !! id with
  | Some r => match s_drains s !! r with Some tx => Nat.b2n (is_published (tx_view tx) id) | None => 0%nat end
  | None => 0%nat
  end.

Record inv (s : Sys B) : Prop := {
  inv_rows : forall id row, s_table s !! id = Some row -> row_ok row;
  inv_locks : forall id r, s_locks s !! id = Some r ->
    exists tx row, s_drains s !! r = Some tx /\ (id, row) ∈ tx_claimed tx;
  inv_drains : forall r tx, s_drains s !! r = Some tx -> tx_inv s r tx;
  inv_counts : forall id, times id (s_delivered s) =
    (Nat.b2n (is_published (s_table s) id) + times id (s_aborted s) + inflight s id)%nat;
}.

(** A transaction's invariant looks only at the rows it holds. *)
Lemma tx_inv_frame s s' r tx :
  (forall id, s_locks s !! id = Some r -> s_locks s' !! id = Some r) ->
  (forall id, s_locks s !! id = Some r -> s_table s' !! id = s_table s !! id) ->
  tx_inv s r tx -> tx_inv s' r tx.
Proof.
  intros Hl Ht [Hopt Hnd Hlk Hpr]. split; [done|done| |done].
  intros id row Hin. destruct (Hlk id row Hin) as (H1 & H2 & H3). split_and!; [by apply Hl|by rewrite Ht|done].
Qed.

Lemma stage_inv s id now e :
  s_table s !! id = None -> inv s ->
  inv {| s_table := <[id := stage_row now e]> (s_table s); s_locks := s_locks s; s_drains := s_drains s;
         s_broker := s_broker s; s_delivered := s_delivered s; s_aborted := s_aborted s |}.
Proof.
  intros Hnone [Hrows Hlocks Hdr Hcnt]. split; simpl.
  - intros k row. rewrite lookup_insert. case_decide; [|apply Hrows]. intros [= <-]. split; simpl; [by left|lia].
  - done.
  - intros r tx Htx. eapply tx_inv_frame; [| |by apply Hdr]; simpl; [done|].
    intros k Hk. rewrite lookup_insert_ne; [done|]. intros <-.
    destruct (Hlocks _ _ Hk) as (tx' & row & Htx' & Hin). destruct (tx_locked _ _ _ (Hdr _ _ Htx') _ _ Hin) as (_ & ? & _).
    congruence.
  - intros k. rewrite Hcnt. unfold inflight, is_published. simpl. rewrite lookup_insert. case_decide; [|done].
    subst k. by rewrite Hnone.
Qed.

Lemma outbox_claim_inv s r now batch :
  s_drains s !! r = None -> inv s ->
  let rows := claim now batch (dom (s_locks s)) (s_table s) in
  inv {| s_table := s_table s; s_locks := lock_all r rows.*1 (s_locks s);
         s_drains := <[r := {| tx_options := options batch now; tx_claimed := rows; tx_todo := rows;
                               tx_view := s_table s |}]> (s_drains s);
         s_broker := s_broker s; s_delivered := s_delivered s; s_aborted := s_aborted s |}.
Proof.
  intros Hr [Hrows Hlocks Hdr Hcnt] rows.
  assert (Hclaim : forall id row, (id, row) ∈ rows ->
    s_table s !! id = Some row /\ ob_status row = PENDING /\ s_locks s !! id = None).
  { intros id row Hin. apply elem_of_claim in Hin as [Ht (Hp & _ & Hl)]. split_and!; [done|done|].
    simpl in Hl. by apply not_elem_of_dom in Hl. }
  assert (Hids : forall id, id ∈ rows.*1 -> exists row, (id, row) ∈ rows).
  { intros id ([k row] & -> & Hin)%list_elem_of_fmap. eauto. }
  split; simpl.
  - done.
  - intros id q. rewrite lock_all_lookup. case_decide as Hin.
    + intros [= <-]. destruct (Hids id Hin) as [row Hrow]. eexists _, row. by rewrite lookup_insert_eq.
    + intros Hq. destruct (Hlocks _ _ Hq) as (tx & row & Htx & ?). exists tx, row.
      rewrite lookup_insert_ne by congruence. done.
  - intros q tx. rewrite lookup_insert. case_decide as Heq.
    + subst q. intros [= <-]. split; simpl.
      * eauto.
      * exact (first_rows_NoDup (due now (dom (s_locks s))) occurred_le batch (s_table s)).
      * intros id row Hin. destruct (Hclaim id row Hin) as (? & ? & _). split_and!; [|done|done].
        rewrite lock_all_lookup, decide_True; [done|]. by apply (list_elem_of_fmap_2 fst rows (id, row)).
      * exists []. split; [done|]. split; [|by intros ?? ?%not_elem_of_nil]. intros id row Hin. by apply Hclaim.
    + intros Htx. eapply tx_inv_frame; [| |by apply Hdr]; simpl; [|done].
      intros id Hid. rewrite lock_all_lookup, decide_False; [done|]. intros [row Hin]%Hids.
      destruct (Hclaim id row Hin) as (_ & _ & ?). congruence.
  - intros id. rewrite Hcnt. unfold inflight. simpl. rewrite lock_all_lookup. case_decide as Hin.
    + destruct (Hids id Hin) as [row Hrow]. destruct (Hclaim id row Hrow) as (Ht & Hp & Hl). rewrite Hl, lookup_insert_eq.
      simpl. unfold is_published. rewrite Ht, bool_decide_eq_false_2 by congruence. done.
    + destruct (s_locks s !! id) as [q|] eqn:Hq; [|done]. rewrite lookup_insert. case_decide; [|done]. subst q.
      destruct (Hlocks _ _ Hq) as (tx & row & Htx & _). congruence.
Qed.

Lemma todo_head s r tx id row rest :
  tx_inv s r tx -> tx_todo tx = (id, row) :: rest ->
  (id, row) ∈ tx_claimed tx /\ tx_view tx !! id = Some row /\ ob_status row = PENDING /\ s_locks s !! id = Some r.
Proof.
  intros [_ _ Hlk (fin & Hcl & Htodo & _)] Ht.
  assert ((id, row) ∈ tx_claimed tx) as Hin by (rewrite Hcl, Ht; set_solver).
  destruct (Hlk id row Hin) as (? & _ & ?). split_and!; [done| |done|done]. apply Htodo. rewrite Ht. left.
Qed.

Lemma deliver_tx_inv s r tx id row rest row' s' :
  tx_inv s r tx -> tx_todo tx = (id, row) :: rest -> settled row row' ->
  s_locks s' = s_locks s -> s_table s' = s_table s ->
  tx_inv s' r {| tx_options := tx_options tx; tx_claimed := tx_claimed tx; tx_todo := rest;
                 tx_view := <[id := row']> (tx_view tx) |}.
Proof.
  intros [Hopt Hnd Hlk (fin & Hcl & Htodo & Hfin)] Ht Hset Hl Htab.
  assert (Hother : forall k x, (k, x) ∈ fin ++ rest -> k <> id).
  { intros k x Hin ->. rewrite Hcl, Ht, fmap_app in Hnd. csimpl in Hnd.
    apply NoDup_app in Hnd as (_ & Hd & Hnd). apply NoDup_cons in Hnd as [Hn _].
    apply elem_of_app in Hin as [Hin%(list_elem_of_fmap_2 fst)|Hin%(list_elem_of_fmap_2 fst)]; simpl in Hin; [|done].
    apply (Hd id Hin). left. }
  split; simpl; [done|done|by rewrite Hl, Htab|].
  exists (fin ++ [(id, row)]). split; [by rewrite Hcl, Ht, <-app_assoc|]. split.
  - intros k x Hin. rewrite lookup_insert_ne; [apply Htodo; rewrite Ht; by right|].
    apply not_eq_sym, (Hother k x). set_solver.
  - intros k x [Hin|[= -> ->]%list_elem_of_singleton]%elem_of_app; [|rewrite lookup_insert_eq; eauto].
    rewrite lookup_insert_ne; [by apply Hfin|]. apply not_eq_sym, (Hother k x). set_solver.
Qed.

Lemma deliver_inv s r tx id row rest o view b :
  s_drains s !! r = Some tx -> tx_todo tx = (id, row) :: rest ->
  deliverOne (tx_options tx) id row (tx_view tx, s_broker s) = (inr o, (view, b)) -> inv s ->
  inv {| s_table := s_table s; s_locks := s_locks s;
         s_drains := <[r := {| tx_options := tx_options tx; tx_claimed := tx_claimed tx; tx_todo := rest;
                               tx_view := view |}]> (s_drains s);
         s_broker := b;
         s_delivered := match out_disposition o with Published => id :: s_delivered s | _ => s_delivered s end;
         s_aborted := s_aborted s |}.
Proof.
  intros Htx Ht Hd [Hrows Hlocks Hdr Hcnt]. pose proof (Hdr _ _ Htx) as Hti.
  destruct (todo_head _ _ _ _ _ _ Hti Ht) as (Hin & Hv & Hp & Hlk).
  destruct (tx_opts _ _ _ Hti) as (batch & now & Hopt). rewrite Hopt in Hd.
  destruct (deliverOne_settles batch now id row (tx_view tx) (s_broker s) Hv Hp) as (o' & row' & b' & Hd' & Hset & Hpub & _).
  rewrite Hd in Hd'. injection Hd' as <- -> <-.
  split; simpl; [done| | |].
  - intros k q Hk. destruct (Hlocks _ _ Hk) as (tx0 & x & Htx0 & Hx). rewrite lookup_insert.
    case_decide; [|eauto]. simplify_eq. eexists _, x. split; [done|done].
  - intros q tx0. rewrite lookup_insert. case_decide; [|intros Hq; by eapply tx_inv_frame; [| |by apply Hdr]].
    subst q. intros [= <-]. eapply deliver_tx_inv; done.
  - intros k. assert (times k (match out_disposition o with Published => id :: s_delivered s | _ => s_delivered s end) =
      (Nat.b2n (bool_decide (k = id) && bool_decide (ob_status row' = PUBLISHED)) + times k (s_delivered s))%nat) as ->.
    { destruct (out_disposition o); [rewrite times_cons, (bool_decide_eq_true_2 (ob_status row' = _)) by by apply Hpub|
        rewrite (bool_decide_eq_false_2 (ob_status row' = _)) by (intros ?%Hpub; done)..];
        rewrite ?andb_true_r, ?andb_false_r; [|done..]. f_equal. f_equal. by apply bool_decide_ext. }
    rewrite Hcnt. unfold inflight. simpl. destruct (decide (k = id)) as [->|Hne].
    + rewrite Hlk, lookup_insert_eq, Htx. simpl. unfold is_published at 2 4. rewrite Hv, lookup_insert_eq, bool_decide_eq_true_2 by done.
      rewrite (bool_decide_eq_false_2 (ob_status row = _)) by congruence. simpl. lia.
    + rewrite bool_decide_eq_false_2 by done. simpl. f_equal. destruct (s_locks s !! k) as [q|]; [|done].
      rewrite lookup_insert. case_decide; [|done]. subst q. rewrite Htx. simpl. unfold is_published.
      by rewrite lookup_insert_ne by done.
Qed.

Lemma settled_ok row row' : ob_status row = PENDING -> row_ok row -> settled row row' -> row_ok row'.
Proof.
  intros Hp [Hrow Hb] (Hsame & Hatt & Hst). rewrite Hp in Hrow. unfold row_ok.
  destruct Hsame as (_ & Hn & _). rewrite Hn, Hatt. destruct (ob_status row'); (split; [naive_solver lia|lia]).
Qed.

(** What a transaction holds, it holds alone. *)
Lemma held_by s r tx id : inv s -> s_drains s !! r = Some tx ->
  (id ∈ (tx_claimed tx).*1 <-> s_locks s !! id = Some r).
Proof.
  intros Hi Htx. split.
  - intros ([k row] & -> & Hin)%list_elem_of_fmap. by apply (tx_locked _ _ _ (inv_drains _ Hi _ _ Htx) k row Hin).
  - intros Hl. destruct (inv_locks _ Hi _ _ Hl) as (tx' & row & Htx' & Hin). simplify_eq.
    by apply (list_elem_of_fmap_2 fst _ (id, row)).
Qed.

Lemma claimed_pending s r tx id :
  inv s -> s_drains s !! r = Some tx -> id ∈ (tx_claimed tx).*1 -> is_published (s_table s) id = false.
Proof.
  intros Hi Htx ([k row] & -> & Hin)%list_elem_of_fmap.
  destruct (tx_locked _ _ _ (inv_drains _ Hi _ _ Htx) k row Hin) as (_ & Ht & Hp).
  unfold is_published. simpl. rewrite Ht. by rewrite bool_decide_eq_false_2 by congruence.
Qed.

(** Ending a transaction leaves the others as they were. *)
Lemma ended_locks s r tx (t : Table) b del ab :
  inv s -> s_drains s !! r = Some tx ->
  (forall id, id ∉ (tx_claimed tx).*1 -> t !! id = s_table s !! id) ->
  let s' := {| s_table := t; s_locks := unlock r (s_locks s); s_drains := delete r (s_drains s);
               s_broker := b; s_delivered := del; s_aborted := ab |} in
  (forall id q, s_locks s' !! id = Some q -> exists tx row, s_drains s' !! q = Some tx /\ (id, row) ∈ tx_claimed tx) /\
  (forall q tx, s_drains s' !! q = Some tx -> tx_inv s' q tx) /\
  (forall id, inflight s' id = if decide (id ∈ (tx_claimed tx).*1) then 0%nat else inflight s id).
Proof.
  intros Hi Htx Hsame. simpl. split_and!.
  - intros id q. rewrite unlock_lookup. case_match eqn:Hl; [|done]. case_decide; [done|]. intros [= <-].
    rewrite lookup_delete_ne by done. by apply (inv_locks _ Hi).
  - intros q tx'. rewrite lookup_delete_Some. intros [Hne Hq]. eapply tx_inv_frame; [| |by apply (inv_drains _ Hi)]; simpl.
    + intros id Hl. rewrite unlock_lookup, Hl. by case_decide.
    + intros id Hl. apply Hsame. rewrite (held_by s r tx id Hi Htx). congruence.
  - intros id. unfold inflight. simpl. rewrite unlock_lookup. case_decide as Hin.
    + rewrite (held_by s r tx id Hi Htx) in Hin. rewrite Hin. by case_decide.
    + rewrite (held_by s r tx id Hi Htx) in Hin. destruct (s_locks s !! id) as [q|]; [|done].
      case_decide; [congruence|]. by rewrite lookup_delete_ne by congruence.
Qed.

Lemma commit_inv s r tx :
  s_drains s !! r = Some tx -> tx_todo tx = [] -> inv s ->
  inv {| s_table := apply_view (tx_claimed tx).*1 (tx_view tx) (s_table s); s_locks := unlock r (s_locks s);
         s_drains := delete r (s_drains s); s_broker := s_broker s; s_delivered := s_delivered s;
         s_aborted := s_aborted s |}.
Proof.
  intros Htx Ht Hi. pose proof (inv_drains _ Hi _ _ Htx) as Hti.
  destruct (tx_progress _ _ _ Hti) as (fin & Hcl & _ & Hfin). rewrite Ht, app_nil_r in Hcl. subst fin.
  destruct (ended_locks s r tx (apply_view (tx_claimed tx).*1 (tx_view tx) (s_table s)) (s_broker s) (s_delivered s)
    (s_aborted s) Hi Htx) as (Hlocks & Hdr & Hfl).
  { intros id Hn. rewrite apply_view_lookup. destruct (s_table s !! id); simpl; [by rewrite decide_False|done]. }
  assert (Hview : forall id, id ∈ (tx_claimed tx).*1 -> exists row row', s_table s !! id = Some row /\
    ob_status row = PENDING /\ tx_view tx !! id = Some row' /\ settled row row').
  { intros id ([k row] & -> & Hin)%list_elem_of_fmap. destruct (Hfin k row Hin) as (row' & ? & ?).
    destruct (tx_locked _ _ _ Hti k row Hin) as (_ & ? & ?). simpl. eauto 10. }
  split; simpl; [|exact Hlocks|exact Hdr|].
  - intros id row. rewrite apply_view_lookup. destruct (s_table s !! id) as [row0|] eqn:H0; [|done].
    pose proof (inv_rows _ Hi _ _ H0) as Hok. simpl. case_decide as Hin; [|by intros [= <-]].
    destruct (Hview id Hin) as (r0 & row' & H0' & Hp & Hv & Hset). simplify_eq. rewrite Hv. simpl. intros [= <-].
    by eapply settled_ok.
  - intros id. rewrite Hfl, (inv_counts _ Hi). unfold is_published at 2. rewrite apply_view_lookup.
    case_decide as Hin.
    + destruct (Hview id Hin) as (r0 & row' & H0' & Hp & Hv & Hset). rewrite (claimed_pending _ _ _ _ Hi Htx Hin), H0'.
      simpl. rewrite Hv. unfold inflight. apply (held_by s r tx id Hi Htx) in Hin.
      rewrite Hin, Htx. unfold is_published. rewrite Hv. simpl. lia.
    + unfold is_published. by destruct (s_table s !! id).
Qed.

Lemma abort_inv s r tx b :
  s_drains s !! r = Some tx -> inv s ->
  inv {| s_table := s_table s; s_locks := unlock r (s_locks s); s_drains := delete r (s_drains s);
         s_broker := b; s_delivered := s_delivered s; s_aborted := rolled_back tx ++ s_aborted s |}.
Proof.
  intros Htx Hi. pose proof (inv_drains _ Hi _ _ Htx) as Hti.
  destruct (ended_locks s r tx (s_table s) b (s_delivered s) (rolled_back tx ++ s_aborted s) Hi Htx)
    as (Hlocks & Hdr & Hfl); [done|].
  split; simpl; [apply Hi|exact Hlocks|exact Hdr|].
  intros id. rewrite Hfl, (inv_counts _ Hi), times_app, (times_NoDup id (rolled_back tx)) by
    (apply NoDup_filter; by apply (tx_NoDup _ _ _ Hti)).
  unfold rolled_back. case_decide as Hin.
  - rewrite (claimed_pending _ _ _ _ Hi Htx Hin). pose proof Hin as Hl. apply (held_by s r tx id Hi Htx) in Hl.
    unfold inflight. rewrite Hl, Htx. simpl.
    rewrite (bool_decide_ext _ (is_published (tx_view tx) id = true)); [|rewrite list_elem_of_filter; naive_solver].
    destruct (is_published (tx_view tx) id); simpl; lia.
  - rewrite bool_decide_eq_false_2; [simpl; lia|]. rewrite list_elem_of_filter. naive_solver.
Qed.

Lemma sys_step_inv s s' : sys_step s s' -> inv s -> inv s'.
Proof.
  destruct 1; subst; [by apply stage_inv|by apply outbox_claim_inv|by eapply deliver_inv|by apply commit_inv|by apply abort_inv|].
  intros [Hrows Hlocks Hdr Hcnt]. split; [done|done| |done]. intros q tx Hq. by eapply tx_inv_frame; [| |apply Hdr].
Qed.

Lemma outbox_reachable_inv s : reachable s -> inv s.
Proof.
  intros [b Hs]. assert (inv (sys_start b)) as Hinit by (split; simpl; intros; [by simplify_map_eq..|done]).
  induction Hs; eauto using sys_step_inv.
Qed.

End relays.

(** ** What the broker acknowledged *)

Section acknowledged.
Context {B : Type} (publish : OutboxRecord -> Eff B JSText unit) (timedOut : OutboxRecord -> B -> bool)
  (timeoutMessage : OutboxRecord -> JSText) (policy : BackoffPolicy) (random : OutboxRecord -> Draw).

Let options := relay_options publish timedOut timeoutMessage policy random.

(** [acks b]: the records the broker has acknowledged by the time it is [b]. *)
Context (acks : B -> list OutboxRecord).

(** A publish that returns was acknowledged. *)
Definition acknowledges : Prop := forall record b b', publish record b = (inr tt, b') -> record ∈ acks b'.

(** The broker does not take an acknowledgement back. *)
Definition brokered_step (s s' : Sys B) : Prop :=
  sys_step publish timedOut timeoutMessage policy random s s' /\
  forall record, record ∈ acks (s_broker s) -> record ∈ acks (s_broker s').

Definition brokered (s : Sys B) : Prop := exists b, rtc brokered_step (sys_start b) s.

(** The broker has acknowledged exactly the event of this row. *)
Definition acked (b : B) (id : string) (row : OutboxRow) : Prop :=
  exists record, record ∈ acks b /\ rec_id record = id /\ rec_eventId record = ob_eventId row /\
    rec_name record = ob_name row /\ rec_payload record = ob_payload row /\
    rec_correlationId record = ob_correlationId row /\ rec_occurredAt record = ob_occurredAt row /\
    rec_trace record = ob_trace row.

Definition table_acked (b : B) (t : Table) : Prop :=
  forall id row, t !! id = Some row -> ob_status row = PUBLISHED -> acked b id row.

Definition acked_inv (s : Sys B) : Prop :=
  table_acked (s_broker s) (s_table s) /\
  forall r tx, s_drains s !! r = Some tx -> table_acked (s_broker s) (tx_view tx).

Context (Hacks : acknowledges).

Lemma deliverOne_acked batch now id row view b o view' b' :
  view !! id = Some row -> ob_status row = PENDING ->
  deliverOne (options batch now) id row (view, b) = (inr o, (view', b')) ->
  exists row', view' = <[id := row']> view /\ (ob_status row' = PUBLISHED -> acked b' id row').
Proof using Hacks.
  intros Hv Hp. unfold deliverOne, bind, markDead, update, with_broker, try_catch.
  destruct (toRecord id row) as [error|record] eqn:Hr; [rewrite Hv; intros [= _ <- <-]; eexists; by split|].
  simpl. unfold deliver. destruct (publish record b) as [res b1] eqn:Hpub.
  assert (res = inr tt -> acked b1 id (mark_published now row)) as Hack.
  { intros ->. exists record. split; [by eapply Hacks|]. unfold toRecord in Hr. case_match; [|done]. by injection Hr as <-. }
  destruct (if timedOut record b then _ else _) as [[error|[]] b2] eqn:Hd.
  - destruct (nextAttemptAt _ _ _ _); rewrite Hv; intros [= _ <- <-]; eexists; (split; [done|]); simpl; by rewrite ?Hp.
  - rewrite Hv. intros [= _ <- <-]. eexists. split; [done|]. intros _.
    destruct (timedOut record b); [done|]. injection Hd as -> ->. by apply Hack.
Qed.

Lemma brokered_step_acked s s' :
  inv publish timedOut timeoutMessage policy random s -> brokered_step s s' -> acked_inv s -> acked_inv s'.
Proof using Hacks.
  intros Hi [Hstep Hmono] [Ht Hv].
  assert (forall t, table_acked (s_broker s) t -> table_acked (s_broker s') t) as Hkeep.
  { intros t H id row Hid Hpub. destruct (H id row Hid Hpub) as (record & ? & ?). exists record. auto. }
  destruct Hstep as [s id now e Hnone|s r now batch rows Hr ->|s r tx id row rest o view b Htx Htodo Hd|s r tx Htx Htodo
    |s r tx b Htx|s b]; split; simpl in *; eauto.
  - intros k row. rewrite lookup_insert. case_decide; [by intros [= <-]|apply Ht].
  - intros q tx. rewrite lookup_insert. case_decide; [|eauto]. by intros [= <-].
  - intros q tx0. rewrite lookup_insert. case_decide; [|eauto]. intros [= <-]. simpl.
    pose proof (inv_drains _ _ _ _ _ _ Hi _ _ Htx) as Hti. destruct (tx_opts _ _ _ _ _ _ _ _ Hti) as (batch & now & Hopt).
    rewrite Hopt in Hd. destruct (todo_head _ _ _ _ _ _ _ _ _ _ _ Hti Htodo) as (_ & Hvid & Hp & _).
    destruct (deliverOne_acked _ _ _ _ _ _ _ _ _ Hvid Hp Hd) as (row' & -> & Hack).
    intros k x. rewrite lookup_insert. case_decide; [intros [= <-]; subst k; exact Hack|by apply (Hkeep _ (Hv _ _ Htx))].
  - intros k row. rewrite apply_view_lookup. destruct (s_table s !! k) as [row0|] eqn:H0; [|done]. simpl.
    case_decide; [|intros [= <-]; by apply Ht]. destruct (tx_view tx !! k) as [row1|] eqn:H1; intros [= <-];
      [by apply (Hv _ _ Htx)|by apply Ht].
  - intros q tx0 Hq. apply lookup_delete_Some in Hq as [_ Hq]. by eapply Hv.
  - intros q tx0 Hq. apply lookup_delete_Some in Hq as [_ Hq]. eauto.
Qed.

Lemma brokered_inv s : brokered s -> inv publish timedOut timeoutMessage policy random s /\ acked_inv s.
Proof using Hacks.
  intros (b & Hrtc).
  assert (inv publish timedOut timeoutMessage policy random (sys_start b) /\ acked_inv (sys_start b)) as Hinit.
  { split; [apply outbox_reachable_inv; by exists b|]. split; [intros k row; simpl|intros q tx; simpl]; by rewrite lookup_empty. }
  induction Hrtc as [|x y z Hxy _ IH]; [done|]. apply IH. destruct Hinit as [Hi Ha]. split.
  - by eapply sys_step_inv; [apply Hxy|].
  - by eapply brokered_step_acked.
Qed.

End acknowledged.

(** ** What the outbox guarantees *)

Section guarantees.
Context {B : Type} (publish : OutboxRecord -> Eff B JSText unit) (timedOut : OutboxRecord -> B -> bool)
  (timeoutMessage : OutboxRecord -> JSText) (policy : BackoffPolicy) (random : OutboxRecord -> Draw).

Let options := relay_options publish timedOut timeoutMessage policy random.

(** An open transaction's acknowledgement belongs to a row not yet published. *)
Lemma inflight_pending s id :
  inv publish timedOut timeoutMessage policy random s ->
  (inflight s id <= 1)%nat /\ (is_published (s_table s) id = true -> inflight s id = 0%nat).
Proof.
  intros Hi. unfold inflight. destruct (s_locks s !! id) as [r|] eqn:Hl; [|auto].
  destruct (s_drains s !! r) as [tx|] eqn:Htx; [|auto].
  split; [destruct (is_published _ _); simpl; lia|]. intros Hp.
  apply (held_by publish timedOut timeoutMessage policy random s r tx id Hi Htx) in Hl.
  rewrite (claimed_pending _ _ _ _ _ _ _ _ _ Hi Htx Hl) in Hp. done.
Qed.

(** The whole batch, delivered one after the other. *)
Lemma deliverAll_settles batch now rows view b :
  NoDup rows.*1 -> (forall id row, (id, row) ∈ rows -> view !! id = Some row /\ ob_status row = PENDING) ->
  exists os view' b', deliverAll (options batch now) rows (view, b) = (inr os, (view', b')) /\
    out_eventId <$> os = (fun kr => ob_eventId kr.2) <$> rows /\
    (forall id, id ∉ rows.*1 -> view' !! id = view !! id) /\
    (forall id row, (id, row) ∈ rows -> exists row', view' !! id = Some row' /\ settled policy row row').
Proof.
  revert view b. induction rows as [|[id row] rows IH]; intros view b Hnd Hrows; csimpl in *.
  - exists [], view, b. split_and!; [done|done|done|]. by intros ?? ?%not_elem_of_nil.
  - apply NoDup_cons in Hnd as [Hn Hnd]. destruct (Hrows id row) as [Hv Hp]; [left|].
    destruct (deliverOne_settles publish timedOut timeoutMessage policy random batch now id row view b Hv Hp)
      as (o & row' & b1 & Hd & Hset & _ & Ho).
    destruct (IH (<[id := row']> view) b1 Hnd) as (os & view' & b' & Hall & Hev & Hother & Hdone).
    { intros k x Hin. assert (k <> id) by (intros ->; by apply Hn, (list_elem_of_fmap_2 fst rows (id, x))).
      rewrite lookup_insert_ne by done. apply Hrows. by right. }
    exists (o :: os), view', b'. split_and!.
    + unfold bind. change (relay_options publish timedOut timeoutMessage policy random batch now) with (options batch now) in Hd.
      rewrite Hd, Hall. done.
    + csimpl. by rewrite Ho, Hev.
    + intros k Hk. rewrite Hother by set_solver. rewrite lookup_insert_ne; [done|]. set_solver.
    + intros k x [[= -> ->]|Hin]%elem_of_cons; [|by apply Hdone]. exists row'. rewrite Hother by done.
      by rewrite lookup_insert_eq.
Qed.

End guarantees.

(** C3: nothing is lost and nothing is claimed that did not happen.  However
    many relays drain, die, time out and roll back: for a row marked published
    the broker has acknowledged a record with that row's id, event id, name,
    payload, correlation id, time and trace; a row is dead only when no build of
    this catalogue can publish it or its attempts are spent; any other row is
    still pending with attempts left, and attempts never exceed the policy. *)
Theorem outbox_no_event_lost {B} publish timedOut timeoutMessage policy random acks (s : Sys B) id row :
  acknowledges publish acks -> brokered publish timedOut timeoutMessage policy random acks s ->
  s_table s !! id = Some row ->
  0 <= ob_attempts row <= Z.max 1 (maxAttempts policy) /\
  match ob_status row with
  | PUBLISHED => acked acks (s_broker s) id row /\ is_Some (ob_publishedAt row)
  | DEAD => isDomainEventName (ob_name row) = false \/ maxAttempts policy <= ob_attempts row
  | PENDING => ob_attempts row = 0 \/ ob_attempts row < maxAttempts policy
  end.
Proof.
  intros Hacks Hs Ht. destruct (brokered_inv _ _ _ _ _ _ Hacks s Hs) as [Hi [Hack _]].
  destruct (inv_rows _ _ _ _ _ _ Hi _ _ Ht) as [Hok Hb]. split; [done|].
  destruct (ob_status row) eqn:Hst; [naive_solver| |naive_solver]. destruct Hok as [_ Hpub]. split; [|done]. by apply Hack.
Qed.

(** A duplicate is always the price of a rollback: an event is acknowledged at
    most once more than transactions carrying its acknowledgement were rolled
    back, exactly that once when it is published, and a row that nobody is
    delivering and is not published was acknowledged only in transactions that
    were rolled back. *)
Theorem outbox_duplicates_need_rollback {B} publish timedOut timeoutMessage policy random (s : Sys B) id :
  reachable publish timedOut timeoutMessage policy random s ->
  (times id (s_delivered s) <= 1 + times id (s_aborted s))%nat /\
  (is_published (s_table s) id = true -> times id (s_delivered s) = (1 + times id (s_aborted s))%nat) /\
  (is_published (s_table s) id = false -> s_locks s !! id = None -> times id (s_delivered s) = times id (s_aborted s)).
Proof.
  intros Hi%outbox_reachable_inv. rewrite (inv_counts _ _ _ _ _ _ Hi).
  destruct (inflight_pending _ _ _ _ _ s id Hi) as [Hle Hpub]. split_and!.
  - destruct (is_published (s_table s) id); [rewrite Hpub by done|]; simpl; lia.
  - intros Hp. rewrite Hp, Hpub by done. simpl. lia.
  - intros Hp Hl. rewrite Hp. unfold inflight. rewrite Hl. simpl. lia.
Qed.

(** Two relays draining at the same time never hold the same event. *)
Theorem outbox_drains_disjoint {B} publish timedOut timeoutMessage policy random (s : Sys B) r1 r2 tx1 tx2 id :
  reachable publish timedOut timeoutMessage policy random s ->
  s_drains s !! r1 = Some tx1 -> s_drains s !! r2 = Some tx2 ->
  id ∈ (tx_claimed tx1).*1 -> id ∈ (tx_claimed tx2).*1 -> r1 = r2.
Proof.
  intros Hi%outbox_reachable_inv H1 H2. rewrite (held_by _ _ _ _ _ _ _ _ _ Hi H1), (held_by _ _ _ _ _ _ _ _ _ Hi H2). congruence.
Qed.

(** Whatever the system does next, a staged event stays as it was staged and a
    published or dead row is never touched again. *)
Theorem outbox_rows_final {B} publish timedOut timeoutMessage policy random (s s' : Sys B) id row :
  reachable publish timedOut timeoutMessage policy random s ->
  sys_step publish timedOut timeoutMessage policy random s s' -> s_table s !! id = Some row ->
  exists row', s_table s' !! id = Some row' /\ same_event row row' /\ (ob_status row <> PENDING -> row' = row).
Proof.
  intros Hi%outbox_reachable_inv Hstep Ht. destruct Hstep as [s k now e Hnone| | |s r tx Htx Htodo| |]; simpl;
    try (exists row; by repeat split).
  - exists row. rewrite lookup_insert_ne by congruence. by repeat split.
  - rewrite apply_view_lookup, Ht. simpl. case_decide as Hin; [|by eexists; repeat split].
    apply list_elem_of_fmap in Hin as ([k x] & -> & Hin). simpl in *.
    pose proof (inv_drains _ _ _ _ _ _ Hi _ _ Htx) as Hti. destruct (tx_locked _ _ _ _ _ _ _ _ Hti k x Hin) as (_ & Hx & Hp).
    simplify_eq. destruct (tx_progress _ _ _ _ _ _ _ _ Hti) as (fin & Hcl & _ & Hfin). rewrite Htodo, app_nil_r in Hcl. subst fin.
    destruct (Hfin k row Hin) as (row' & Hv & Hsame & _). rewrite Hv. exists row'. by split_and!.
Qed.

(** A claim takes due, unlocked rows only, at most the batch size, and leaves
    one out only when the batch is full of rows that occurred no later. *)
Theorem outbox_claim_oldest now batch locked t id row :
  t !! id = Some row -> due now locked (id, row) ->
  (length (claim now batch locked t) <= batch)%nat /\
  (forall k x, (k, x) ∈ claim now batch locked t -> t !! k = Some x /\ due now locked (k, x)) /\
  ((id, row) ∈ claim now batch locked t \/
   length (claim now batch locked t) = batch /\
   forall k x, (k, x) ∈ claim now batch locked t -> ob_occurredAt x <= ob_occurredAt row).
Proof.
  intros Ht Hdue. split_and!.
  - exact (first_rows_length (due now locked) occurred_le batch t).
  - apply elem_of_claim.
  - destruct (first_rows_least (due now locked) occurred_le (fun a b => ob_occurredAt a.2 <= ob_occurredAt b.2) batch t id row)
      as [?|[? Hle]]; [intros ???; lia|unfold occurred_le; intros; lia|done|done|by left|].
    right. split; [done|]. intros k x Hin. exact (Hle (k, x) Hin).
Qed.

(** One drain is all or nothing for the table: a committed one has settled every
    row it claimed, in claim order, and no other; one that does not commit
    leaves the table as it found it. *)
Theorem drain_settles_batch {B} publish timedOut timeoutMessage policy random commits locked batch now (t : Table) (b : B) :
  exists r t' b',
    drain commits locked (relay_options publish timedOut timeoutMessage policy random batch now) (t, b) = (r, (t', b')) /\
    if commits : bool then
      exists report, r = inr report /\ dr_claimed report = length (claim now batch locked t) /\
        out_eventId <$> dr_outcomes report = (fun kr => ob_eventId kr.2) <$> claim now batch locked t /\
        (forall id, id ∉ (claim now batch locked t).*1 -> t' !! id = t !! id) /\
        (forall id row, (id, row) ∈ claim now batch locked t -> exists row', t' !! id = Some row' /\ settled policy row row')
    else (exists e, r = inl e) /\ t' = t.
Proof.
  destruct (deliverAll_settles publish timedOut timeoutMessage policy random batch now (claim now batch locked t) t b)
    as (os & t' & b' & Hd & Hev & Hother & Hdone).
  - exact (first_rows_NoDup (due now locked) occurred_le batch t).
  - intros id row Hin. apply elem_of_claim in Hin as [? (Hp & _)]. done.
  - unfold drain, transaction, bind, reads. simpl. rewrite Hd. destruct commits.
    + do 3 eexists. split; [done|]. eexists. split_and!; [done|done|done|done|done].
    + do 3 eexists. split; [done|]. split; [by eexists|done].
Qed.

(** ** A relay and a broker that takes everything *)

Definition demo_publish (r : OutboxRecord) : Eff (list OutboxRecord) JSText unit := fun b => (inr tt, r :: b).
Definition demo_timedOut (_ : OutboxRecord) (_ : list OutboxRecord) : bool := false.
Definition demo_message (_ : OutboxRecord) : JSText := js "timed out".
Definition demo_policy : BackoffPolicy := {| baseMs := 500; maxMs := 300000; maxAttempts := 8 |}.
Definition demo_random (_ : OutboxRecord) : Draw := {| draw_num := 1; draw_den := 2 |}.

Abbreviation demo_step := (sys_step demo_publish demo_timedOut demo_message demo_policy demo_random).
Abbreviation demo_reachable := (reachable demo_publish demo_timedOut demo_message demo_policy demo_random).
Abbreviation demo_options := (relay_options demo_publish demo_timedOut demo_message demo_policy demo_random).

Definition demo_event : NewOutboxEvent := {|
  ne_name := "order.placed"; ne_payload := JNull; ne_eventId := "e-1"; ne_occurredAt := 5; ne_correlationId := None;
  ne_trace := {| traceparent := None; tracestate := None |} |}.

Definition demo_row : OutboxRow := stage_row 5 demo_event.

Definition demo_record : OutboxRecord := {|
  rec_id := "row-1"; rec_eventId := "e-1"; rec_name := "order.placed"; rec_payload := JNull; rec_correlationId := None;
  rec_occurredAt := 5; rec_attempts := 0; rec_trace := {| traceparent := None; tracestate := None |} |}.

Definition demo_staged : Sys (list OutboxRecord) := {|
  s_table := {["row-1"%string := demo_row]}; s_locks := ∅; s_drains := ∅; s_broker := []; s_delivered := [];
  s_aborted := [] |}.

Definition demo_tx : DrainTx (list OutboxRecord) := {|
  tx_options := demo_options 10 7; tx_claimed := [("row-1"%string, demo_row)]; tx_todo := [("row-1"%string, demo_row)];
  tx_view := s_table demo_staged |}.

Definition demo_claimed : Sys (list OutboxRecord) := {|
  s_table := s_table demo_staged; s_locks := {["row-1"%string := 0%nat]}; s_drains := {[0%nat := demo_tx]};
  s_broker := []; s_delivered := []; s_aborted := [] |}.

Definition demo_tx_done : DrainTx (list OutboxRecord) := {|
  tx_options := tx_options demo_tx; tx_claimed := tx_claimed demo_tx; tx_todo := [];
  tx_view := <["row-1"%string := mark_published 7 demo_row]> (s_table demo_staged) |}.

Definition demo_delivered : Sys (list OutboxRecord) := {|
  s_table := s_table demo_staged; s_locks := {["row-1"%string := 0%nat]}; s_drains := {[0%nat := demo_tx_done]};
  s_broker := [demo_record]; s_delivered := ["row-1"%string]; s_aborted := [] |}.

Definition demo_committed : Sys (list OutboxRecord) := {|
  s_table := {["row-1"%string := mark_published 7 demo_row]}; s_locks := ∅; s_drains := ∅;
  s_broker := [demo_record]; s_delivered := ["row-1"%string]; s_aborted := [] |}.

Lemma demo_claim_step : demo_step demo_staged demo_claimed.
Proof.
  apply (step_claim demo_publish demo_timedOut demo_message demo_policy demo_random demo_staged 0 7 10
    [("row-1"%string, demo_row)]); reflexivity.
Qed.

Lemma demo_commit_step : demo_step demo_delivered demo_committed.
Proof.
  apply (step_commit demo_publish demo_timedOut demo_message demo_policy demo_random demo_delivered 0 demo_tx_done); reflexivity.
Qed.

Lemma demo_claimed_reachable : demo_reachable demo_claimed.
Proof.
  exists []. eapply rtc_l; [|eapply rtc_l; [apply demo_claim_step|apply rtc_refl]].
  apply (step_stage demo_publish demo_timedOut demo_message demo_policy demo_random (sys_start []) "row-1" 5 demo_event). done.
Qed.

Lemma demo_delivered_reachable : demo_reachable demo_delivered.
Proof.
  destruct demo_claimed_reachable as [b Hb]. exists b. eapply rtc_r; [exact Hb|].
  apply (step_deliver demo_publish demo_timedOut demo_message demo_policy demo_random demo_claimed 0 demo_tx "row-1" demo_row []
    (outcome demo_row Published) (tx_view demo_tx_done) [demo_record]); reflexivity.
Qed.

Lemma demo_committed_reachable : demo_reachable demo_committed.
Proof.
  destruct demo_delivered_reachable as [b Hb]. exists b. eapply rtc_r; [exact Hb|apply demo_commit_step].
Qed.

Lemma demo_acknowledges : acknowledges demo_publish (fun b => b).
Proof. intros record b b' [= <-]. left. Qed.

Lemma demo_committed_brokered : brokered demo_publish demo_timedOut demo_message demo_policy demo_random (fun b => b) demo_committed.
Proof.
  exists []. apply (rtc_l _ _ demo_staged); [split; [|done]|apply (rtc_l _ _ demo_claimed); [split; [apply demo_claim_step|done]|]].
  - apply (step_stage demo_publish demo_timedOut demo_message demo_policy demo_random (sys_start []) "row-1" 5 demo_event). done.
  - apply (rtc_l _ _ demo_delivered); [split; [|by intros ? ?%not_elem_of_nil]|eapply rtc_l; [split; [apply demo_commit_step|done]|apply rtc_refl]].
    apply (step_deliver demo_publish demo_timedOut demo_message demo_policy demo_random demo_claimed 0 demo_tx "row-1" demo_row []
      (outcome demo_row Published) (tx_view demo_tx_done) [demo_record]); reflexivity.
Qed.

Lemma outbox_no_event_lost_witness :
  acked (fun b => b) (s_broker demo_committed) "row-1" (mark_published 7 demo_row) /\ ob_attempts (mark_published 7 demo_row) = 1.
Proof.
  split; [|reflexivity].
  apply (outbox_no_event_lost demo_publish demo_timedOut demo_message demo_policy demo_random (fun b => b) demo_committed "row-1"
    (mark_published 7 demo_row) demo_acknowledges demo_committed_brokered eq_refl).
Defined.

Lemma outbox_duplicates_need_rollback_witness :
  times "row-1" (s_delivered demo_committed) = (1 + times "row-1" (s_aborted demo_committed))%nat.
Proof.
  apply (outbox_duplicates_need_rollback demo_publish demo_timedOut demo_message demo_policy demo_random demo_committed "row-1"
    demo_committed_reachable). reflexivity.
Defined.

Lemma outbox_drains_disjoint_witness : 0%nat = 0%nat /\ s_drains demo_claimed !! 0%nat = Some demo_tx.
Proof.
  split; [|reflexivity].
  apply (outbox_drains_disjoint demo_publish demo_timedOut demo_message demo_policy demo_random demo_claimed 0 0 demo_tx demo_tx
    "row-1" demo_claimed_reachable eq_refl eq_refl); left.
Defined.

Lemma outbox_rows_final_witness :
  exists row', s_table demo_committed !! "row-1"%string = Some row' /\ same_event demo_row row'.
Proof.
  destruct (outbox_rows_final demo_publish demo_timedOut demo_message demo_policy demo_random demo_delivered demo_committed
    "row-1" demo_row demo_delivered_reachable demo_commit_step eq_refl) as (row' & Ht & Hsame & _).
  exists row'. split; [exact Ht|exact Hsame].
Defined.

Lemma outbox_claim_oldest_witness :
  (length (claim 7 10 ∅ (s_table demo_staged)) <= 10)%nat /\ claim 7 10 ∅ (s_table demo_staged) = [("row-1"%string, demo_row)].
Proof.
  split; [|reflexivity].
  apply (outbox_claim_oldest 7 10 ∅ (s_table demo_staged) "row-1" demo_row eq_refl).
  split; [reflexivity|]. split; [vm_compute; discriminate|apply not_elem_of_empty].
Defined.
