(* ===== verification/Idempotency.v ===== *)
(** * Idempotency: one execution per [Idempotency-Key]

    [common/idempotency]: the key and its fingerprint, the record and its JSON,
    the Redis and the in-process store, and the interceptor.  Each Redis
    command is atomic and requests interleave between commands; a run is a list
    of events. *)

From S2P Require Import Prelude Json.

(** ** Keys and fingerprints *)

Definition MAX_KEY_LENGTH : nat := 255.

Definition toUpperCase (s : string) : string :=
  String.string_of_list_ascii
    ((fun c => let n := Ascii.N_of_ascii c in
        if decide (97 <= n <= 122)%N then Ascii.ascii_of_N (n - 32) else c) <$> String.list_ascii_of_string s).

Definition REPLAYABLE_METHODS : list string := ["POST"; "PUT"; "PATCH"; "DELETE"]%string.

Definition isReplayableMethod (method : string) : bool := bool_decide (toUpperCase method ∈ REPLAYABLE_METHODS).

Definition printable (c : Ascii.ascii) : bool := bool_decide (32 <= Ascii.N_of_ascii c <= 126)%N.

(** Within printable ASCII only the space is trimmed. *)
Definition isValidKey (key : string) : bool :=
  let cs := String.list_ascii_of_string key in
  existsb (fun c => negb (bool_decide (Ascii.N_of_ascii c = 32%N))) cs &&
  bool_decide (length cs <= MAX_KEY_LENGTH)%nat && forallb printable cs.

Record Request := {
  req_method : string;
  req_user : option string;         (* [user.id], when authenticated *)
  req_ip : option string;
  req_originalUrl : string;
  req_contentType : option string;
  req_contentLength : option string;
  req_body : option JsonValue;      (* [None] for undefined or null *)
}.

Definition callerScope (req : Request) : string :=
  match req_user req with
  | Some id => if decide (id = ""%string) then "ip:" +:+ default "unknown"%string (req_ip req) else "user:" +:+ id
  | None => "ip:" +:+ default "unknown"%string (req_ip req)
  end.

Definition storeKey (scope key : string) : string := scope +:+ ":" +:+ key.

(** [Object.entries(value).sort(...)]: by key. *)
Definition entry_le (a b : string * JSText) : Prop := String.leb a.1 b.1 = true.

#[global] Instance entry_le_dec : RelDecision entry_le.
Proof. intros a b. unfold entry_le. apply _. Defined.

Section fingerprint.
(** [JSON.stringify] on strings and numbers, and SHA-256. *)
Context (stringifyString : JSText -> JSText) (stringifyNumber : Z -> Z -> JSText) (sha256 : JSText -> JSText).

Fixpoint stableStringify (v : JsonValue) : JSText :=
  match v with
  | JNull => js "null"
  | JBool b => if b : bool then js "true" else js "false"
  | JNumber m e => stringifyNumber m e
  | JString s => stringifyString s
  | JArray l => js "[" ++ join (js ",") (stableStringify <$> l) ++ js "]"
  | JObject members =>
      let entries := (fun kv => (kv.1, stableStringify kv.2)) <$> members in
      js "{" ++ join (js ",") ((fun kv => stringifyString (js kv.1) ++ js ":" ++ kv.2) <$> merge_sort entry_le entries) ++
      js "}"
  end.

Definition newline : JSText := [10%N].

Definition fingerprint (req : Request) : JSText :=
  let body := match req_body req with None => [] | Some v => stableStringify v end in
  sha256 (join newline
    [js (toUpperCase (req_method req)); js (req_originalUrl req); js (default ""%string (req_contentType req));
     js (default ""%string (req_contentLength req)); body]).

End fingerprint.

(** ** Records *)

(** [rr_status] is a number as the parser leaves it, mantissa and exponent. *)
Record RecordedResponse := { rr_status : Z * Z; rr_contentType : option JSText; rr_body : option JSText }.

Inductive RecordState := InFlight | Completed (response : RecordedResponse).

Record IdempotencyRecord := { ir_fingerprint : JSText; ir_lease : JSText; ir_state : RecordState }.

Definition member (name : string) (members : list (string * JsonValue)) : option JsonValue :=
  snd <$> last (filter (fun kv => kv.1 = name) members).

Definition json_nullable (v : option JSText) : JsonValue := match v with None => JNull | Some s => JString s end.

Definition json_of_response (r : RecordedResponse) : JsonValue :=
  JObject [("status"%string, JNumber (rr_status r).1 (rr_status r).2); ("contentType"%string, json_nullable (rr_contentType r));
           ("body"%string, json_nullable (rr_body r))].

(** [JSON.stringify(record)], as the value it denotes. *)
Definition json_of_record (r : IdempotencyRecord) : JsonValue :=
  JObject ([("state"%string, JString (match ir_state r with InFlight => js "in-flight" | Completed _ => js "completed" end));
            ("fingerprint"%string, JString (ir_fingerprint r)); ("lease"%string, JString (ir_lease r))] ++
           match ir_state r with InFlight => [] | Completed resp => [("response"%string, json_of_response resp)] end).

Definition nullable_of_json (v : option JsonValue) : option (option JSText) :=
  match v with
  | Some JNull => Some None
  | Some (JString s) => Some (Some s)
  | _ => None
  end.

(** [isRecordedResponse(value)], with the response it accepts. *)
Definition response_of_json (v : JsonValue) : option RecordedResponse :=
  match v with
  | JObject ms =>
      match member "status" ms, nullable_of_json (member "contentType" ms), nullable_of_json (member "body" ms) with
      | Some (JNumber m e), Some ct, Some body =>
          Some {| rr_status := (m, e); rr_contentType := ct; rr_body := body |}
      | _, _, _ => None
      end
  | _ => None
  end.

(** [parseRecord(raw)], from the value [JSON.parse] gave. *)
Definition record_of_json (v : JsonValue) : option IdempotencyRecord :=
  match v with
  | JObject ms =>
      match member "fingerprint" ms, member "lease" ms with
      | Some (JString fp), Some (JString lease) =>
          match member "state" ms with
          | Some (JString st) =>
              if decide (st = js "in-flight")
              then Some {| ir_fingerprint := fp; ir_lease := lease; ir_state := InFlight |}
              else if decide (st = js "completed") then
                match option_map response_of_json (member "response" ms) with
                | Some (Some resp) => Some {| ir_fingerprint := fp; ir_lease := lease; ir_state := Completed resp |}
                | _ => None
                end
              else None
          | _ => None
          end
      | _, _ => None
      end
  | _ => None
  end.

(** A stored value: JSON, or text that does not parse. *)
Definition Raw : Type := option JsonValue.

Definition parseRecord (raw : Raw) : option IdempotencyRecord :=
  match raw with Some v => record_of_json v | None => None end.

(** ** Redis *)

Abbreviation Store := (gmap string (Raw * Z)).

Definition KEY_PREFIX : string := "idempotency:".
Definition RESERVE_ATTEMPTS : nat := 3.

(** [normaliseTtl(ttlMs)], for a whole number of milliseconds. *)
Definition normaliseTtl (ttlMs : Z) : Z := Z.max 1 ttlMs.

Definition redis_get (t : Z) (key : string) (st : Store) : option Raw :=
  match st !! key with
  | Some (raw, e) => if decide (t < e) then Some raw else None
  | None => None
  end.

(** [SET key value PX ttl NX] *)
Definition redis_setnx (t : Z) (key : string) (value : Raw) (ttl : Z) (st : Store) : bool * Store :=
  match redis_get t key st with
  | Some _ => (false, st)
  | None => (true, <[key := (value, t + ttl)]> st)
  end.

Definition set_member (name : string) (v : JsonValue) (members : list (string * JsonValue)) : list (string * JsonValue) :=
  filter (fun kv => kv.1 <> name) members ++ [(name, v)].

(** The record a lease check of the scripts accepts. *)
Definition leased_members (t : Z) (key : string) (lease : JSText) (st : Store) : option (list (string * JsonValue)) :=
  match redis_get t key st with
  | Some (Some (JObject ms)) =>
      match member "lease" ms with
      | Some (JString l) => if decide (l = lease) then Some ms else None
      | _ => None
      end
  | _ => None
  end.

Definition COMPLETE_IF_LEASED (t : Z) (key : string) (lease : JSText) (response : RecordedResponse) (ttl : Z) (st : Store) : Z * Store :=
  match leased_members t key lease st with
  | Some ms =>
      (1, <[key := (Some (JObject (set_member "response" (json_of_response response)
                                     (set_member "state" (JString (js "completed")) ms))), t + ttl)]> st)
  | None => (0, st)
  end.

Definition RELEASE_IF_LEASED (t : Z) (key : string) (lease : JSText) (st : Store) : Z * Store :=
  match leased_members t key lease st with
  | Some _ => (1, delete key st)
  | None => (0, st)
  end.

(** ** [RedisIdempotencyStore], one call at a time *)

(** The loop of [reserve]; [inl] is [IdempotencyStoreUnavailableError]. *)
Fixpoint reserve_loop (attempts : nat) (t : Z) (namespaced : string) (record : IdempotencyRecord) (ttl : Z) (st : Store) :
    (unit + option IdempotencyRecord) * Store :=
  match attempts with
  | O => (inl tt, st)
  | S attempts =>
      match redis_setnx t namespaced (Some (json_of_record record)) ttl st with
      | (true, st) => (inr None, st)
      | (false, st) =>
          match redis_get t namespaced st with
          | Some raw =>
              match parseRecord raw with
              | Some existing => (inr (Some existing), st)
              | None => (inr None, <[namespaced := (Some (json_of_record record), t + ttl)]> st)
              end
          | None => reserve_loop attempts t namespaced record ttl st
          end
      end
  end.

Definition redis_reserve (t : Z) (key : string) (record : IdempotencyRecord) (ttlMs : Z) (st : Store) :
    (unit + option IdempotencyRecord) * Store :=
  reserve_loop RESERVE_ATTEMPTS t (KEY_PREFIX +:+ key) record (normaliseTtl ttlMs) st.

Definition redis_complete (t : Z) (key : string) (lease : JSText) (response : RecordedResponse) (ttlMs : Z) (st : Store) :
    bool * Store :=
  let '(updated, st') := COMPLETE_IF_LEASED t (KEY_PREFIX +:+ key) lease response (normaliseTtl ttlMs) st in
  (bool_decide (updated = 1), st').

Definition redis_release (t : Z) (key : string) (lease : JSText) (st : Store) : bool * Store :=
  let '(released, st') := RELEASE_IF_LEASED t (KEY_PREFIX +:+ key) lease st in (bool_decide (released = 1), st').

Definition redis_get_record (t : Z) (key : string) (st : Store) : option IdempotencyRecord :=
  match redis_get t (KEY_PREFIX +:+ key) st with Some raw => parseRecord raw | None => None end.

(** ** [InMemoryIdempotencyStore] *)

Abbreviation MemoryStore := (gmap string (IdempotencyRecord * Z)).

(** [read(key)]: an expired entry is swept. *)
Definition memory_read (now : Z) (key : string) (m : MemoryStore) : option IdempotencyRecord * MemoryStore :=
  match m !! key with
  | None => (None, m)
  | Some (r, expiresAt) => if decide (expiresAt <= now) then (None, delete key m) else (Some r, m)
  end.

Definition memory_reserve (now : Z) (key : string) (record : IdempotencyRecord) (ttlMs : Z) (m : MemoryStore) :
    option IdempotencyRecord * MemoryStore :=
  match memory_read now key m with
  | (Some existing, m') => (Some existing, m')
  | (None, m') => (None, <[key := (record, now + ttlMs)]> m')
  end.

Definition memory_complete (now : Z) (key : string) (lease : JSText) (response : RecordedResponse) (ttlMs : Z) (m : MemoryStore) :
    bool * MemoryStore :=
  match memory_read now key m with
  | (Some existing, m') =>
      if decide (ir_lease existing = lease) then
        (true, <[key := ({| ir_fingerprint := ir_fingerprint existing; ir_lease := lease;
                            ir_state := Completed response |}, now + ttlMs)]> m')
      else (false, m')
  | (None, m') => (false, m')
  end.

Definition memory_release (now : Z) (key : string) (lease : JSText) (m : MemoryStore) : bool * MemoryStore :=
  match memory_read now key m with
  | (Some existing, m') => if decide (ir_lease existing = lease) then (true, delete key m') else (false, m')
  | (None, m') => (false, m')
  end.

(** ** The interceptor *)

Definition REPLAYABLE_STATUS_CEILING : Z := 500.

(** What [res.send] was last given, and whether it was called. *)
Inductive Payload := PString (s : JSText) | PNothing | PBinary.

Record Recorder := { rc_body : option JSText; rc_wroteThroughSend : bool }.

Definition fresh_recorder : Recorder := {| rc_body := None; rc_wroteThroughSend := false |}.

(** The patched [res.send(payload)]: anything but a string or nothing leaves the
    kept body alone. *)
Definition record_send (payload : Payload) (rc : Recorder) : Recorder := {|
  rc_body := match payload with PString s => Some s | PNothing => None | PBinary => rc_body rc end;
  rc_wroteThroughSend := true |}.

Inductive SettleAction := DoRelease | DoPersist (response : RecordedResponse).

(** [settle(persist)] on a response that finished with [statusCode]. *)
Definition settle (persist : bool) (statusCode : Z) (contentType : option JSText) (rc : Recorder) : SettleAction :=
  if negb persist then DoRelease
  else if decide (REPLAYABLE_STATUS_CEILING <= statusCode) then DoRelease
  else if negb (rc_wroteThroughSend rc) then DoRelease
  else DoPersist {| rr_status := (statusCode, 0); rr_contentType := contentType; rr_body := rc_body rc |}.

(** What a request with the header gets instead of its handler running. *)
Inductive Answer :=
  | Refused (status : Z)
  | Replayed (response : RecordedResponse)
  | Served.                                  (* its own handler's response went out, or the connection closed *)

(** A request between two store commands. *)
Inductive Phase :=
  | Reserving (attempt : nat)                (* about to [SET NX] *)
  | Reading (attempt : nat)                  (* about to [GET] *)
  | Overwriting                              (* about to [SET] over an unreadable value *)
  | Running (reservedAt : Z) (rc : Recorder) (* owns the key, handler running *)
  | Answered (a : Answer).

Record Req := { rq_key : string; rq_fingerprint : JSText; rq_lease : JSText; rq_phase : Phase }.

Definition with_phase (p : Phase) (r : Req) : Req :=
  {| rq_key := rq_key r; rq_fingerprint := rq_fingerprint r; rq_lease := rq_lease r; rq_phase := p |}.

Definition reservation (r : Req) : Raw :=
  Some (json_of_record {| ir_fingerprint := rq_fingerprint r; ir_lease := rq_lease r; ir_state := InFlight |}).

(** What [intercept] makes of a record that was already there. *)
Definition on_existing (fp : JSText) (existing : IdempotencyRecord) : Answer :=
  if decide (ir_fingerprint existing = fp) then
    match ir_state existing with
    | InFlight => Refused 409
    | Completed response => Replayed response
    end
  else Refused 422.

(** Whether the store answers while a response is being settled: it does, its
    first command fails, or every command fails. *)
Inductive Health := Answers | FailsOnce | Fails.

Record Sys := { s_store : Store; s_reqs : gmap nat Req; s_now : Z }.

Inductive Event :=
  | EvIntercept (id : nat) (req : Request) (header lease : string)
  | EvSetNx (id : nat)
  | EvGet (id : nat)
  | EvSet (id : nat)
  | EvUnavailable (id : nat)                 (* the store threw *)
  | EvSend (id : nat) (payload : Payload)
  | EvFinish (id : nat) (statusCode : Z) (contentType : option JSText) (health : Health)
  | EvClose (id : nat)
  | EvTick (ms : Z).

Section interceptor.
Context (ttlMs : Z) (stringifyString : JSText -> JSText) (stringifyNumber : Z -> Z -> JSText) (sha256 : JSText -> JSText).

Let ttl := normaliseTtl ttlMs.

Definition put (id : nat) (r : Req) (st : Store) (s : Sys) : Sys :=
  {| s_store := st; s_reqs := <[id := r]> (s_reqs s); s_now := s_now s |}.

(** [release(key, lease, why)] and [persist(key, lease, response)] *)
Definition do_action (r : Req) (action : SettleAction) (t : Z) (st : Store) : Store :=
  match action with
  | DoRelease => (RELEASE_IF_LEASED t (KEY_PREFIX +:+ rq_key r) (rq_lease r) st).2
  | DoPersist response => (COMPLETE_IF_LEASED t (KEY_PREFIX +:+ rq_key r) (rq_lease r) response ttl st).2
  end.

(** A failed [complete] is followed by a [release]; a failed [release] is
    logged. *)
Definition settle_store (r : Req) (action : SettleAction) (health : Health) (t : Z) (st : Store) : Store :=
  match health, action with
  | Answers, _ => do_action r action t st
  | FailsOnce, DoPersist _ => do_action r DoRelease t st
  | _, _ => st
  end.

Definition event (e : Event) (s : Sys) : option Sys :=
  match e with
  | EvIntercept id req header lease =>
      if decide (s_reqs s !! id = None /\ isReplayableMethod (req_method req) = true /\
                 map_Forall (fun _ r => rq_lease r <> js lease) (s_reqs s))
      then
        let r := {| rq_key := storeKey (callerScope req) header;
                    rq_fingerprint := fingerprint stringifyString stringifyNumber sha256 req;
                    rq_lease := js lease; rq_phase := Reserving 0 |} in
        Some (put id (if isValidKey header then r else with_phase (Answered (Refused 400)) r) (s_store s) s)
      else None
  | EvSetNx id =>
      match s_reqs s !! id with
      | Some r =>
          match rq_phase r with
          | Reserving attempt =>
              match redis_setnx (s_now s) (KEY_PREFIX +:+ rq_key r) (reservation r) ttl (s_store s) with
              | (true, st) => Some (put id (with_phase (Running (s_now s) fresh_recorder) r) st s)
              | (false, st) => Some (put id (with_phase (Reading attempt) r) st s)
              end
          | _ => None
          end
      | None => None
      end
  | EvGet id =>
      match s_reqs s !! id with
      | Some r =>
          match rq_phase r with
          | Reading attempt =>
              let next :=
                match redis_get (s_now s) (KEY_PREFIX +:+ rq_key r) (s_store s) with
                | None => if decide (S attempt < RESERVE_ATTEMPTS)%nat then Reserving (S attempt) else Answered (Refused 503)
                | Some raw =>
                    match parseRecord raw with
                    | Some existing => Answered (on_existing (rq_fingerprint r) existing)
                    | None => Overwriting
                    end
                end in
              Some (put id (with_phase next r) (s_store s) s)
          | _ => None
          end
      | None => None
      end
  | EvSet id =>
      match s_reqs s !! id with
      | Some r =>
          match rq_phase r with
          | Overwriting =>
              Some (put id (with_phase (Running (s_now s) fresh_recorder) r)
                (<[KEY_PREFIX +:+ rq_key r := (reservation r, s_now s + ttl)]> (s_store s)) s)
          | _ => None
          end
      | None => None
      end
  | EvUnavailable id =>
      match s_reqs s !! id with
      | Some r =>
          match rq_phase r with
          | Reserving _ | Reading _ | Overwriting => Some (put id (with_phase (Answered (Refused 503)) r) (s_store s) s)
          | _ => None
          end
      | None => None
      end
  | EvSend id payload =>
      match s_reqs s !! id with
      | Some r =>
          match rq_phase r with
          | Running t rc => Some (put id (with_phase (Running t (record_send payload rc)) r) (s_store s) s)
          | _ => None
          end
      | None => None
      end
  | EvFinish id statusCode contentType health =>
      match s_reqs s !! id with
      | Some r =>
          match rq_phase r with
          | Running _ rc =>
              Some (put id (with_phase (Answered Served) r)
                (settle_store r (settle true statusCode contentType rc) health (s_now s) (s_store s)) s)
          | _ => None
          end
      | None => None
      end
  | EvClose id =>
      match s_reqs s !! id with
      | Some r =>
          match rq_phase r with
          | Running _ rc =>
              Some (put id (with_phase (Answered Served) r) (do_action r (settle false 0 None rc) (s_now s) (s_store s)) s)
          | _ => None
          end
      | None => None
      end
  | EvTick ms => if decide (0 <= ms) then Some {| s_store := s_store s; s_reqs := s_reqs s; s_now := s_now s + ms |} else None
  end.

Fixpoint run (es : list Event) (s : Sys) : option Sys :=
  match es with
  | [] => Some s
  | e :: es => match event e s with Some s' => run es s' | None => None end
  end.

End interceptor.

Definition initial (t : Z) (st : Store) : Sys := {| s_store := st; s_reqs := ∅; s_now := t |}.

(** ** Records survive the store *)

Lemma member_app_last name v ms : member name (ms ++ [(name, v)]) = Some v.
Proof. unfold member. rewrite filter_app, filter_cons_True, filter_nil, last_snoc by done. done. Qed.

Lemma member_set_same name v ms : member name (set_member name v ms) = Some v.
Proof. apply member_app_last. Qed.

Lemma member_set_other name name' v ms : name <> name' -> member name (set_member name' v ms) = member name ms.
Proof.
  intros Hne. unfold member, set_member. rewrite filter_app, filter_cons_False, filter_nil, app_nil_r by naive_solver.
  rewrite list_filter_filter. f_equal. f_equal. apply list_filter_iff. intros [k x]. simpl. naive_solver.
Qed.

Lemma response_roundtrip r : response_of_json (json_of_response r) = Some r.
Proof. destruct r as [[m e] [ct|] [b|]]; reflexivity. Qed.

Lemma record_roundtrip r : record_of_json (json_of_record r) = Some r.
Proof.
  destruct r as [fp lease [|[[m e] [ct|] [b|]]]]; reflexivity.
Qed.

(** What a readable value looks like to the scripts. *)
Lemma parse_members raw rec :
  parseRecord raw = Some rec ->
  exists ms, raw = Some (JObject ms) /\ member "lease" ms = Some (JString (ir_lease rec)) /\
    member "fingerprint" ms = Some (JString (ir_fingerprint rec)).
Proof.
  destruct raw as [v|]; [|done]. simpl. destruct v; try done. simpl. intros H. exists members. split; [done|].
  repeat (case_match; try done; simplify_eq/=); done.
Qed.

Lemma parse_completed ms fp lease resp :
  member "fingerprint" ms = Some (JString fp) -> member "lease" ms = Some (JString lease) ->
  parseRecord (Some (JObject (set_member "response" (json_of_response resp) (set_member "state" (JString (js "completed")) ms)))) =
  Some {| ir_fingerprint := fp; ir_lease := lease; ir_state := Completed resp |}.
Proof.
  intros Hfp Hl. unfold parseRecord, record_of_json.
  rewrite !(member_set_other "fingerprint"), !(member_set_other "lease"), Hfp, Hl by done.
  rewrite (member_set_other "state"), member_set_same, member_set_same by done. cbn [option_map].
  by rewrite response_roundtrip, decide_False, decide_True by done.
Qed.

Section system.
Context (ttlMs : Z) (stringifyString : JSText -> JSText) (stringifyNumber : Z -> Z -> JSText) (sha256 : JSText -> JSText).
Let ttl := normaliseTtl ttlMs.
Let step := event ttlMs stringifyString stringifyNumber sha256.

Definition readable (st : Store) : Prop := forall k raw e, st !! k = Some (raw, e) -> is_Some (parseRecord raw).

Definition owns (st : Store) (r : Req) (t : Z) : Prop :=
  exists raw, st !! (KEY_PREFIX +:+ rq_key r) = Some (raw, t + ttl) /\
    parseRecord raw = Some {| ir_fingerprint := rq_fingerprint r; ir_lease := rq_lease r; ir_state := InFlight |}.

Definition phase_ok (st : Store) (now : Z) (r : Req) : Prop :=
  match rq_phase r with
  | Overwriting => False
  | Running t _ => t <= now /\ (now < t + ttl -> owns st r t)
  | _ => True
  end.

Record inv (s : Sys) : Prop := {
  inv_readable : readable (s_store s);
  inv_leases : forall i j r q, s_reqs s !! i = Some r -> s_reqs s !! j = Some q -> rq_lease r = rq_lease q -> i = j;
  inv_phase : forall i r, s_reqs s !! i = Some r ->
    phase_ok (s_store s) (s_now s) r;
}.

Lemma redis_get_Some t k st raw : redis_get t k st = Some raw <-> exists e, st !! k = Some (raw, e) /\ t < e.
Proof. unfold redis_get. destruct (st !! k) as [[v e]|]; [case_decide|]; naive_solver. Qed.

Lemma leased_members_Some t k lease st ms rec raw e :
  st !! k = Some (raw, e) -> parseRecord raw = Some rec -> leased_members t k lease st = Some ms ->
  raw = Some (JObject ms) /\ ir_lease rec = lease.
Proof.
  intros Hk Hp. destruct (parse_members _ _ Hp) as (ms' & -> & Hl & _). unfold leased_members, redis_get. rewrite Hk.
  case_decide; [|done]. rewrite Hl. case_decide; [|done]. intros [= <-]. done.
Qed.

(** Settling a request only touches the entry its own lease holds. *)
Lemma settle_store_other r action health t st k raw e rec :
  st !! k = Some (raw, e) -> parseRecord raw = Some rec -> rq_lease r <> ir_lease rec ->
  settle_store ttlMs r action health t st !! k = Some (raw, e).
Proof.
  intros Hk Hp Hne. assert (forall act, do_action ttlMs r act t st !! k = Some (raw, e)) as Hact.
  { intros act. unfold do_action, RELEASE_IF_LEASED, COMPLETE_IF_LEASED.
    destruct (decide (k = KEY_PREFIX +:+ rq_key r)) as [->|Hkey].
    - destruct (leased_members _ _ _ _) as [ms|] eqn:Hm; [|by destruct act].
      destruct (leased_members_Some _ _ _ _ _ _ _ _ Hk Hp Hm). congruence.
    - destruct (leased_members _ _ _ _) as [ms|]; destruct act; simpl;
        rewrite ?lookup_delete_ne, ?lookup_insert_ne by congruence; exact Hk. }
  unfold settle_store. destruct health, action; auto.
Qed.

Lemma settle_store_readable r action health t st : readable st -> readable (settle_store ttlMs r action health t st).
Proof.
  intros Hr. assert (Hd : forall k, readable (delete k st)).
  { intros k k' raw e [_ ?]%lookup_delete_Some. by eapply Hr. }
  unfold settle_store, do_action, RELEASE_IF_LEASED, COMPLETE_IF_LEASED.
  repeat case_match; simpl; try done; try apply Hd.
  intros k raw e. rewrite lookup_insert. case_decide; [|apply Hr]. intros [= <- <-].
  match goal with H : leased_members _ _ _ _ = Some _ |- _ =>
    unfold leased_members in H; destruct (redis_get _ _ _) as [raw|] eqn:Hg; [|done] end.
  apply redis_get_Some in Hg as (e' & Hk & _). destruct (Hr _ _ _ Hk) as [rec Hp].
  destruct (parse_members _ _ Hp) as (ms & -> & Hl & Hf). simplify_option_eq.
  eexists. exact (parse_completed _ _ _ _ Hf Hl).
Qed.

(** An entry that is alive outlasts every event but the settling of the request
    whose lease it carries. *)
Definition settles (e : Event) (id : nat) : Prop :=
  match e with EvFinish i _ _ _ | EvClose i => i = id | _ => False end.

Lemma setnx_keeps t k raw e k' v st ok st' :
  st !! k = Some (raw, e) -> t < e -> redis_setnx t k' v ttl st = (ok, st') -> st' !! k = Some (raw, e).
Proof.
  intros Hk Hlt. unfold redis_setnx. destruct (redis_get t k' st) eqn:Hg; [by intros [= _ <-]|].
  intros [= _ <-]. rewrite lookup_insert_ne; [done|]. intros ->.
  assert (redis_get t k st = Some raw); [|congruence]. apply redis_get_Some. eauto.
Qed.

Lemma event_keeps s e s' k raw exp rec :
  inv s -> step e s = Some s' -> s_store s !! k = Some (raw, exp) -> parseRecord raw = Some rec -> s_now s < exp ->
  (forall id r, settles e id -> s_reqs s !! id = Some r -> rq_lease r <> ir_lease rec) ->
  s_store s' !! k = Some (raw, exp).
Proof.
  intros Hi Hstep Hk Hp Hlt Hown. unfold step in Hstep. destruct e as [id|id|id|id|id|id|id st ct h|id|ms]; simpl in *.
  - case_decide; [|done]. by simplify_eq.
  - destruct (s_reqs s !! id) as [r|]; [|done]. destruct (rq_phase r); try done.
    destruct (redis_setnx _ _ _ _ _) as [ok st'] eqn:Hset. pose proof (setnx_keeps _ _ _ _ _ _ _ _ _ Hk Hlt Hset).
    destruct ok; by simplify_eq.
  - destruct (s_reqs s !! id) as [r|]; [|done]. destruct (rq_phase r); try done. by simplify_eq.
  - destruct (s_reqs s !! id) as [r|] eqn:Hr; [|done]. pose proof (inv_phase _ Hi _ _ Hr) as Hph. unfold phase_ok in Hph.
    by destruct (rq_phase r).
  - destruct (s_reqs s !! id) as [r|]; [|done]. destruct (rq_phase r); try done; by simplify_eq.
  - destruct (s_reqs s !! id) as [r|]; [|done]. destruct (rq_phase r); try done. by simplify_eq.
  - destruct (s_reqs s !! id) as [r|] eqn:Hr; [|done]. destruct (rq_phase r); try done. simplify_eq. simpl.
    eapply settle_store_other; [done|done|]. by apply (Hown id).
  - destruct (s_reqs s !! id) as [r|] eqn:Hr; [|done]. destruct (rq_phase r); try done. simplify_eq. simpl.
    apply (settle_store_other r DoRelease Answers _ _ _ _ _ rec); [done|done|]. by apply (Hown id).
  - case_decide; [|done]. by simplify_eq.
Qed.

Lemma put_inv s id r r' st :
  inv s -> s_reqs s !! id = Some r -> rq_lease r' = rq_lease r -> readable st -> phase_ok st (s_now s) r' ->
  (forall j q t, j <> id -> s_reqs s !! j = Some q -> s_now s < t + ttl -> owns (s_store s) q t -> owns st q t) ->
  inv (put id r' st s).
Proof.
  intros [Hrd Hl Hph] Hr Hlease Hst Hok Hothers. split; simpl.
  - done.
  - intros i j a b. rewrite !lookup_insert. repeat case_decide; intros; simplify_eq; try done; eapply Hl; eauto; congruence.
  - intros i a. rewrite lookup_insert. case_decide; [by intros [= <-]|]. intros Ha. specialize (Hph _ _ Ha).
    unfold phase_ok in *. destruct (rq_phase a); try done. destruct Hph as [? Hown]. split; [done|].
    intros Hlt. eapply Hothers; eauto.
Qed.

Lemma reservation_readable r : parseRecord (reservation r) =
  Some {| ir_fingerprint := rq_fingerprint r; ir_lease := rq_lease r; ir_state := InFlight |}.
Proof. apply record_roundtrip. Qed.

Lemma settle_put_inv s id r t rc action health :
  inv s -> s_reqs s !! id = Some r -> rq_phase r = Running t rc ->
  inv (put id (with_phase (Answered Served) r) (settle_store ttlMs r action health (s_now s) (s_store s)) s).
Proof.
  intros Hi Hr Hp. apply (put_inv s id r); [done|done|done| |done|].
  - apply settle_store_readable, Hi.
  - intros j q t' Hne Hq Hlt (raw & Hk & Hraw). exists raw. split; [|done].
    eapply settle_store_other; [done|done|]. simpl. intros Heq. destruct Hne. by eapply (inv_leases _ Hi).
Qed.

Lemma idempotency_event_inv e s s' : inv s -> step e s = Some s' -> inv s'.
Proof.
  intros Hi Hstep. unfold step in Hstep. destruct e as [id req h l|id|id|id|id|id|id st ct h|id|ms]; simpl in *.
  - case_decide as Hc; [|done]. destruct Hc as (Hnone & _ & Hfresh). simplify_eq. destruct Hi as [Hrd Hl Hph]. split; simpl.
    + done.
    + intros i j a b. rewrite !lookup_insert. repeat case_decide; intros Ha Hb Hlease; simplify_eq; try done;
        [| |by eapply Hl; eauto].
      * exfalso. apply (Hfresh j b Hb). rewrite <-Hlease. by case_match.
      * exfalso. apply (Hfresh i a Ha). rewrite Hlease. by case_match.
    + intros i a. rewrite lookup_insert. case_decide; [|apply Hph]. intros [= <-]. by case_match.
  - destruct (s_reqs s !! id) as [r|] eqn:Hr; [|done]. destruct (rq_phase r) eqn:Hp; try done.
    destruct (redis_setnx _ _ _ _ _) as [ok st'] eqn:Hset.
    assert (Hkeep : forall j q t, j <> id -> s_reqs s !! j = Some q -> s_now s < t + ttl ->
      owns (s_store s) q t -> owns st' q t).
    { intros j q t _ _ Hlt (raw & Hk & Hraw). exists raw. split; [|done]. by eapply setnx_keeps. }
    unfold redis_setnx in Hset. destruct (redis_get _ _ _) eqn:Hg; simplify_eq.
    + apply (put_inv s id r); try done. apply Hi.
    + apply (put_inv s id r); try done.
      * intros k raw e. rewrite lookup_insert. case_decide; [|apply Hi]. intros [= <- <-]. rewrite reservation_readable. eauto.
      * split; [simpl; lia|]. intros _. eexists. rewrite lookup_insert_eq. split; [done|]. exact (reservation_readable r).
  - destruct (s_reqs s !! id) as [r|] eqn:Hr; [|done]. destruct (rq_phase r) eqn:Hp; try done. simplify_eq.
    apply (put_inv s id r); try done; [apply Hi|]. unfold phase_ok. simpl.
    destruct (redis_get _ _ _) as [raw|] eqn:Hg; [|by case_decide].
    apply redis_get_Some in Hg as (e & Hk & _). destruct (inv_readable _ Hi _ _ _ Hk) as [rec Hrec]. by rewrite Hrec.
  - destruct (s_reqs s !! id) as [r|] eqn:Hr; [|done]. pose proof (inv_phase _ Hi _ _ Hr) as Hph. unfold phase_ok in Hph.
    by destruct (rq_phase r).
  - destruct (s_reqs s !! id) as [r|] eqn:Hr; [|done].
    destruct (rq_phase r) eqn:Hp; try done; simplify_eq; (apply (put_inv s id r); try done; apply Hi).
  - destruct (s_reqs s !! id) as [r|] eqn:Hr; [|done]. destruct (rq_phase r) eqn:Hp; try done. simplify_eq.
    pose proof (inv_phase _ Hi _ _ Hr) as Hph. unfold phase_ok in Hph. rewrite Hp in Hph.
    apply (put_inv s id r); try done. apply Hi.
  - destruct (s_reqs s !! id) as [r|] eqn:Hr; [|done]. destruct (rq_phase r) eqn:Hp; try done. simplify_eq.
    by eapply settle_put_inv.
  - destruct (s_reqs s !! id) as [r|] eqn:Hr; [|done]. destruct (rq_phase r) eqn:Hp; try done. simplify_eq.
    by apply (settle_put_inv s id r reservedAt rc DoRelease Answers).
  - case_decide; [|done]. simplify_eq. destruct Hi as [Hrd Hl Hph]. split; simpl; [done|done|].
    intros i a Ha. specialize (Hph _ _ Ha). unfold phase_ok in *. destruct (rq_phase a); try done.
    destruct Hph as [? Hown]. split; [lia|]. intros ?. apply Hown. lia.
Qed.

Lemma idempotency_run_inv es s s' : inv s -> run ttlMs stringifyString stringifyNumber sha256 es s = Some s' -> inv s'.
Proof.
  revert s. induction es as [|e es IH]; intros s Hi; simpl; [by intros [= <-]|].
  destruct (event _ _ _ _ e s) as [s1|] eqn:He; [|done]. intros. eapply IH; [by eapply idempotency_event_inv|done].
Qed.

Lemma idempotency_initial_inv t st : readable st -> inv (initial t st).
Proof. intros Hrd. split; simpl; [done|done|]. intros i r. by rewrite lookup_empty. Qed.

End system.

(** ** What the interceptor guarantees *)

#[global] Instance entry_le_total : Total entry_le.
Proof. intros a b. unfold entry_le. apply String.leb_total. Qed.

#[global] Instance entry_le_trans : Transitive entry_le.
Proof. intros a b c. unfold entry_le. apply string_leb_trans. Qed.

Lemma NoDup_fst_unique {A} (l : list (string * A)) k x y : NoDup l.*1 -> (k, x) ∈ l -> (k, y) ∈ l -> x = y.
Proof.
  induction l as [|[k' z] l IH]; csimpl; [by intros _ ?%not_elem_of_nil|]. rewrite NoDup_cons, !elem_of_cons.
  intros [Hn Hnd] [Hx|Hx] [Hy|Hy]; simplify_eq; [done| | |auto].
  - destruct Hn. by apply (list_elem_of_fmap_2 fst l (k', y)).
  - destruct Hn. by apply (list_elem_of_fmap_2 fst l (k', x)).
Qed.

(** Sorting entries with distinct keys forgets the order they came in. *)
Lemma sort_entries_perm (l l' : list (string * JSText)) :
  NoDup l.*1 -> l ≡ₚ l' -> merge_sort entry_le l = merge_sort entry_le l'.
Proof.
  intros Hnd Hp. apply (Sorted_unique_strong entry_le).
  - intros [k1 x1] [k2 x2] H1 H2 Hle1 Hle2. rewrite merge_sort_Permutation in H1, H2. rewrite <-Hp in H2.
    assert (k1 = k2) as -> by (apply String.leb_antisym; done).
    f_equal. eapply NoDup_fst_unique; eauto.
  - apply (Sorted_merge_sort entry_le).
  - apply (Sorted_merge_sort entry_le).
  - by rewrite !merge_sort_Permutation.
Qed.

(** A retry that sends its JSON body with the members in another order has the
    same fingerprint, so it is recognised as the same request. *)
Theorem fingerprint_member_order stringifyString stringifyNumber sha256 (r r' : Request) ms ms' :
  req_body r = Some (JObject ms) -> req_body r' = Some (JObject ms') -> NoDup ms.*1 -> ms ≡ₚ ms' ->
  req_method r = req_method r' -> req_originalUrl r = req_originalUrl r' ->
  req_contentType r = req_contentType r' -> req_contentLength r = req_contentLength r' ->
  fingerprint stringifyString stringifyNumber sha256 r = fingerprint stringifyString stringifyNumber sha256 r'.
Proof.
  intros Hb Hb' Hnd Hp Hm Hu Hct Hcl. unfold fingerprint. rewrite Hb, Hb', Hm, Hu, Hct, Hcl. cbn [stableStringify].
  do 3 f_equal. rewrite (sort_entries_perm _ ((fun kv => (kv.1, stableStringify stringifyString stringifyNumber kv.2)) <$> ms'));
    [done| |by rewrite Hp].
  rewrite <-list_fmap_compose. done.
Qed.

(** C4: single flight: in a store whose values are all records this version can
    read, and however requests and store commands interleave, two handlers never
    run under one key at the same time while both reservations are inside their
    TTL. *)
Theorem idempotency_single_flight ttlMs ss sn sha es t st s i j r q t1 t2 rc1 rc2 :
  readable st -> run ttlMs ss sn sha es (initial t st) = Some s ->
  s_reqs s !! i = Some r -> rq_phase r = Running t1 rc1 -> s_now s < t1 + normaliseTtl ttlMs ->
  s_reqs s !! j = Some q -> rq_phase q = Running t2 rc2 -> s_now s < t2 + normaliseTtl ttlMs ->
  rq_key r = rq_key q -> i = j.
Proof.
  intros Hrd Hrun Hr Hpr Hlt1 Hq Hpq Hlt2 Hkey.
  assert (inv ttlMs s) as Hi by (eapply idempotency_run_inv; [by apply idempotency_initial_inv|done]).
  pose proof (inv_phase _ _ Hi _ _ Hr) as H1. pose proof (inv_phase _ _ Hi _ _ Hq) as H2. unfold phase_ok in *.
  rewrite Hpr in H1. rewrite Hpq in H2. destruct H1 as [_ H1], H2 as [_ H2].
  destruct (H1 Hlt1) as (raw1 & Hk1 & Hp1). destruct (H2 Hlt2) as (raw2 & Hk2 & Hp2).
  rewrite Hkey, Hk2 in Hk1. eapply (inv_leases _ _ Hi); [done|done|]. congruence.
Qed.

(** The record request [i] left under key [k]. *)
Definition recorded (s : Sys) (i : nat) (k : string) (rec : IdempotencyRecord) (exp : Z) : Prop :=
  (exists r a, s_reqs s !! i = Some r /\ rq_phase r = Answered a /\ rq_lease r = ir_lease rec) /\
  (s_now s < exp -> exists raw, s_store s !! k = Some (raw, exp) /\ parseRecord raw = Some rec).

Lemma event_answered ttlMs ss sn sha e s s' i r a :
  event ttlMs ss sn sha e s = Some s' -> s_reqs s !! i = Some r -> rq_phase r = Answered a ->
  s_reqs s' !! i = Some r /\ ~ settles e i /\ s_now s <= s_now s'.
Proof.
  intros Hstep Hr Hp. assert (Hput : forall id q q' st, s_reqs s !! id = Some q -> rq_phase q <> Answered a ->
    s_reqs (put id q' st s) !! i = Some r /\ id <> i /\ s_now s <= s_now (put id q' st s)).
  { intros id q q' st Hq Hne. assert (id <> i) by congruence. simpl. rewrite lookup_insert_ne by done. split_and!; [done|done|lia]. }
  destruct e as [id|id|id|id|id|id|id st ct h|id|ms]; simpl in *.
  1: case_decide as Hc; [|done]. 9: case_decide; [|done].
  2-8: destruct (s_reqs s !! id) as [q|] eqn:Hq; [|done]; destruct (rq_phase q) eqn:Hpq; try done.
  all: try destruct (redis_setnx _ _ _ _ _) as [[] st'].
  all: simplify_eq; try (destruct (Hput id q (with_phase (Answered Served) q) (s_store s) Hq ltac:(congruence)) as (_ & Hne & _);
    simpl; rewrite lookup_insert_ne by done; split_and!; [done|tauto|lia]).
  - simpl. rewrite lookup_insert_ne by (intros ->; naive_solver). split_and!; [done|tauto|lia].
  - split_and!; [done|tauto|simpl; lia].
Qed.

Lemma recorded_run ttlMs ss sn sha es s s' i k rec exp :
  inv ttlMs s -> recorded s i k rec exp -> run ttlMs ss sn sha es s = Some s' -> recorded s' i k rec exp.
Proof.
  revert s. induction es as [|e es IH]; intros s Hi Hrec; simpl; [by intros [= <-]|].
  destruct (event _ _ _ _ e s) as [s1|] eqn:He; [|done]. apply IH; [by eapply idempotency_event_inv|].
  destruct Hrec as [(r & a & Hr & Hp & Hl) Hst]. destruct (event_answered _ _ _ _ _ _ _ _ _ _ He Hr Hp) as (Hr' & Hns & Hle).
  split; [eauto|]. intros Hlt. destruct Hst as (raw & Hk & Hraw); [lia|]. exists raw. split; [|done].
  eapply event_keeps; [done|done|done|done|lia|]. intros id q Hset Hq Heq.
  assert (id = i) as -> by (eapply (inv_leases _ _ Hi); [done|done|congruence]). done.
Qed.

Lemma finish_records ttlMs ss sn sha s i r t rc statusCode ct :
  inv ttlMs s -> s_reqs s !! i = Some r -> rq_phase r = Running t rc -> s_now s < t + normaliseTtl ttlMs ->
  statusCode < REPLAYABLE_STATUS_CEILING -> rc_wroteThroughSend rc = true ->
  exists s1, event ttlMs ss sn sha (EvFinish i statusCode ct Answers) s = Some s1 /\ s_now s1 = s_now s /\
    recorded s1 i (KEY_PREFIX +:+ rq_key r)
      {| ir_fingerprint := rq_fingerprint r; ir_lease := rq_lease r;
         ir_state := Completed {| rr_status := (statusCode, 0); rr_contentType := ct; rr_body := rc_body rc |} |}
      (s_now s + normaliseTtl ttlMs).
Proof.
  intros Hi Hr Hp Hlt Hst Hw. simpl. rewrite Hr, Hp. eexists. split; [done|]. split; [done|].
  pose proof (inv_phase _ _ Hi _ _ Hr) as Hph. unfold phase_ok in Hph. rewrite Hp in Hph. destruct Hph as [_ Hown].
  destruct (Hown Hlt) as (raw & Hk & Hraw). destruct (parse_members _ _ Hraw) as (ms & -> & Hl & Hf). simpl in Hl, Hf.
  split.
  - simpl. rewrite lookup_insert_eq. eexists _, _. done.
  - intros _. unfold settle_store, settle, do_action, COMPLETE_IF_LEASED, leased_members, redis_get. simpl.
    rewrite decide_False by lia. rewrite Hw. cbn [negb]. rewrite Hk, decide_True by done. rewrite Hl, decide_True by done.
    eexists. split; [apply lookup_insert_eq|]. by apply parse_completed.
Qed.


(** The records alive in a store, with their expiry. *)
Definition redis_live (now : Z) (st : Store) (k : string) : option (option IdempotencyRecord * Z) :=
  match st !! k with Some (raw, e) => if decide (now < e) then Some (parseRecord raw, e) else None | None => None end.

Definition memory_live (now : Z) (m : MemoryStore) (k : string) : option (option IdempotencyRecord * Z) :=
  match m !! k with Some (x, e) => if decide (e <= now) then None else Some (Some x, e) | None => None end.

Definition agree (now : Z) (st : Store) (m : MemoryStore) : Prop :=
  forall k, redis_live now st (KEY_PREFIX +:+ k) = memory_live now m k.

Lemma prefixed_eq k k' : KEY_PREFIX +:+ k = KEY_PREFIX +:+ k' <-> k = k'.
Proof. split; [|by intros ->]. intros H. injection H as H. exact H. Qed.

Lemma agree_insert now st m k raw x e :
  agree now st m -> parseRecord raw = Some x -> now < e -> agree now (<[KEY_PREFIX +:+ k := (raw, e)]> st) (<[k := (x, e)]> m).
Proof.
  intros Ha Hp Hlt k'. specialize (Ha k'). unfold redis_live, memory_live in *. destruct (decide (k = k')) as [->|Hne].
  - rewrite !lookup_insert_eq. by rewrite decide_True, decide_False, Hp by lia.
  - rewrite lookup_insert_ne by by rewrite prefixed_eq. by rewrite lookup_insert_ne.
Qed.

Lemma agree_delete now st m k : agree now st m -> agree now (delete (KEY_PREFIX +:+ k) st) (delete k m).
Proof.
  intros Ha k'. specialize (Ha k'). unfold redis_live, memory_live in *. destruct (decide (k = k')) as [->|Hne].
  - by rewrite !lookup_delete_eq.
  - rewrite lookup_delete_ne by by rewrite prefixed_eq. by rewrite lookup_delete_ne.
Qed.

(** What has expired in one store has expired in the other. *)
Lemma agree_tick now ms st m : 0 <= ms -> agree now st m -> agree (now + ms) st m.
Proof.
  intros Hms Ha k. specialize (Ha k). unfold redis_live, memory_live in *.
  destruct (st !! _) as [[raw e]|], (m !! k) as [[x e']|]; repeat destruct (decide _); simplify_eq; try congruence; exfalso; lia.
Qed.

(** [read] sweeps what no longer exists anyway. *)
Lemma agree_read now st m k x m' :
  agree now st m -> memory_read now k m = (x, m') -> agree now st m' /\
    match x with
    | Some r => exists raw, redis_get now (KEY_PREFIX +:+ k) st = Some raw /\ parseRecord raw = Some r
    | None => redis_get now (KEY_PREFIX +:+ k) st = None
    end.
Proof.
  intros Ha Hr. pose proof (Ha k) as Hk. unfold memory_read, redis_live, memory_live, redis_get in *.
  destruct (m !! k) as [[y e]|] eqn:Hm; [|by simplify_eq; split; [done|]; repeat case_match].
  case_decide as He; simplify_eq.
  - split; [|by repeat case_match]. intros k'. unfold redis_live, memory_live. rewrite lookup_delete.
    case_decide; [subst k'|by apply Ha]. by repeat case_match.
  - split; [done|]. repeat case_match; simplify_eq. eauto.
Qed.

Lemma leased_members_agree now st k raw r lease :
  redis_get now k st = Some raw -> parseRecord raw = Some r ->
  exists ms, raw = Some (JObject ms) /\ member "fingerprint" ms = Some (JString (ir_fingerprint r)) /\
    member "lease" ms = Some (JString (ir_lease r)) /\
    leased_members now k lease st = if decide (ir_lease r = lease) then Some ms else None.
Proof.
  intros Hg Hp. destruct (parse_members _ _ Hp) as (ms & -> & Hl & Hf). exists ms. split_and!; try done.
  unfold leased_members. by rewrite Hg, Hl.
Qed.

(** *** The port, and a client of it *)

Inductive StoreCall :=
  | Reserve (key : string) (record : IdempotencyRecord) (ttlMs : Z)
  | Complete (key : string) (lease : JSText) (response : RecordedResponse) (ttlMs : Z)
  | Release (key : string) (lease : JSText)
  | Get (key : string)
  | Wait (ms : Z).

Inductive StoreReply := Found (r : option IdempotencyRecord) | Did (b : bool) | Unavailable | Waited.

Definition memory_call (c : StoreCall) (now : Z) (m : MemoryStore) : StoreReply * MemoryStore :=
  match c with
  | Reserve key record ttlMs => let '(x, m') := memory_reserve now key record ttlMs m in (Found x, m')
  | Complete key lease response ttlMs => let '(b, m') := memory_complete now key lease response ttlMs m in (Did b, m')
  | Release key lease => let '(b, m') := memory_release now key lease m in (Did b, m')
  | Get key => let '(x, m') := memory_read now key m in (Found x, m')
  | Wait _ => (Waited, m)
  end.

Definition redis_call (c : StoreCall) (now : Z) (st : Store) : StoreReply * Store :=
  match c with
  | Reserve key record ttlMs =>
      match redis_reserve now key record ttlMs st with (inr x, st') => (Found x, st') | (inl _, st') => (Unavailable, st') end
  | Complete key lease response ttlMs => let '(b, st') := redis_complete now key lease response ttlMs st in (Did b, st')
  | Release key lease => let '(b, st') := redis_release now key lease st in (Did b, st')
  | Get key => (Found (redis_get_record now key st), st)
  | Wait _ => (Waited, st)
  end.

Definition clock_after (c : StoreCall) (now : Z) : Z := match c with Wait ms => now + ms | _ => now end.

(** TTLs are whole and positive, and time goes forward. *)
Definition call_ok (c : StoreCall) : Prop :=
  match c with Reserve _ _ ttlMs | Complete _ _ _ ttlMs => 1 <= ttlMs | Wait ms => 0 <= ms | _ => True end.

Fixpoint replies {S} (call : StoreCall -> Z -> S -> StoreReply * S) (cs : list StoreCall) (now : Z) (st : S) : list StoreReply :=
  match cs with
  | [] => []
  | c :: cs => let '(x, st') := call c now st in x :: replies call cs (clock_after c now) st'
  end.

Lemma normaliseTtl_id ttl : 1 <= ttl -> normaliseTtl ttl = ttl.
Proof. unfold normaliseTtl. lia. Qed.

Lemma call_agrees c now st m :
  call_ok c -> agree now st m ->
  (redis_call c now st).1 = (memory_call c now m).1 /\
  agree (clock_after c now) (redis_call c now st).2 (memory_call c now m).2.
Proof.
  intros Hc Ha. destruct c as [key r ttl|key lease resp ttl|key lease|key|ms]; simpl in Hc |- *.
  5: { split; [done|]. by apply agree_tick. }
  all: destruct (memory_read now key m) as [x m'] eqn:Hr; destruct (agree_read _ _ _ _ _ _ Ha Hr) as [Ha' Hx].
  - unfold memory_reserve, redis_reserve. rewrite Hr. unfold reserve_loop, RESERVE_ATTEMPTS, redis_setnx. rewrite (normaliseTtl_id ttl Hc).
    destruct x as [x|]; [destruct Hx as (raw & Hg & Hp); rewrite Hg; by rewrite Hg, Hp|]. rewrite Hx. split; [done|].
    apply agree_insert; [done|apply record_roundtrip|lia].
  - unfold memory_complete, redis_complete, COMPLETE_IF_LEASED. rewrite Hr, (normaliseTtl_id ttl Hc).
    destruct x as [x|]; [|unfold leased_members; by rewrite Hx]. destruct Hx as (raw & Hg & Hp).
    destruct (leased_members_agree now st _ raw x lease Hg Hp) as (ms & -> & Hf & Hl & ->).
    case_decide; [|done]. subst lease. split; [done|]. apply agree_insert; [done|by apply parse_completed|lia].
  - unfold memory_release, redis_release, RELEASE_IF_LEASED. rewrite Hr.
    destruct x as [x|]; [|unfold leased_members; by rewrite Hx]. destruct Hx as (raw & Hg & Hp).
    destruct (leased_members_agree now st _ raw x lease Hg Hp) as (ms & -> & Hf & Hl & ->).
    case_decide; [|done]. split; [done|]. by apply agree_delete.
  - unfold redis_get_record. destruct x as [x|]; [destruct Hx as (raw & -> & ->)|rewrite Hx]; done.
Qed.

(** C25: the two stores are one.  Whatever sequence of reservations,
    completions, releases, reads and waits a client makes of a store that starts
    empty, one call at a time and with whole positive TTLs, Redis and the
    in-process store give the same answers, call by call: the same record found,
    or none, the same verdict on a lease; and Redis is never unavailable for
    having lost a race. *)
Theorem stores_agree cs now :
  Forall call_ok cs -> replies redis_call cs now (∅ : Store) = replies memory_call cs now (∅ : MemoryStore).
Proof.
  assert (agree now ∅ ∅) as Ha by (intros k; unfold redis_live, memory_live; by rewrite !lookup_empty).
  revert now Ha. generalize (∅ : Store) (∅ : MemoryStore). intros st m now Ha Hcs. revert now st m Ha.
  induction Hcs as [|c cs Hc Hcs IH]; intros now st m Ha; [done|]. simpl.
  destruct (call_agrees c now st m Hc Ha) as [Hx Ha']. destruct (redis_call c now st), (memory_call c now m). simpl in *.
  subst. f_equal. by apply IH.
Qed.

(** ** Two requests with one key *)

Definition demo_text (s : JSText) : JSText := s.
Definition demo_number (_ _ : Z) : JSText := js "0".

Definition demo_request (body : JsonValue) : Request := {|
  req_method := "post"; req_user := Some "u1"%string; req_ip := None; req_originalUrl := "/orders";
  req_contentType := Some "application/json"%string; req_contentLength := None; req_body := Some body |}.

Definition demo_members : list (string * JsonValue) := [("a"%string, JNull); ("b"%string, JBool true)].

Abbreviation demo_run := (run 60000 demo_text demo_number demo_text).

(** The first request reserves the key and answers 201; a retry arrives. *)
Definition demo_first : list Event :=
  [EvIntercept 0 (demo_request (JObject demo_members)) "k-1" "lease-0"; EvSetNx 0; EvSend 0 (PString (js "created"))].

Definition demo_running : Sys := default (initial 0 ∅) (demo_run demo_first (initial 0 ∅)).

Definition demo_served : Sys :=
  default (initial 0 ∅) (event 60000 demo_text demo_number demo_text (EvFinish 0 201 None Answers) demo_running).

Definition demo_retry : list Event :=
  [EvTick 500; EvIntercept 1 (demo_request (JObject (reverse demo_members))) "k-1" "lease-1"; EvSetNx 1].

Definition demo_retried : Sys := default (initial 0 ∅) (demo_run demo_retry demo_served).

Definition demo_req (s : Sys) (i : nat) : Req :=
  default {| rq_key := ""; rq_fingerprint := []; rq_lease := []; rq_phase := Overwriting |} (s_reqs s !! i).

Definition demo_recorder : Recorder := {| rc_body := Some (js "created"); rc_wroteThroughSend := true |}.

Lemma demo_running_runs : demo_run demo_first (initial 0 ∅) = Some demo_running.
Proof. vm_compute. reflexivity. Qed.

Lemma demo_retried_runs : demo_run demo_retry demo_served = Some demo_retried.
Proof. vm_compute. reflexivity. Qed.

Lemma empty_readable : readable ∅.
Proof. intros k raw e. by rewrite lookup_empty. Qed.

Lemma fingerprint_member_order_witness :
  fingerprint demo_text demo_number demo_text (demo_request (JObject demo_members)) =
  fingerprint demo_text demo_number demo_text (demo_request (JObject (reverse demo_members))).
Proof.
  apply (fingerprint_member_order demo_text demo_number demo_text _ _ demo_members (reverse demo_members)); try reflexivity.
  - by apply (bool_decide_unpack _), I.
  - by rewrite reverse_Permutation.
Defined.

Lemma idempotency_single_flight_witness :
  rq_phase (demo_req demo_running 0) = Running 0 demo_recorder /\ 0%nat = 0%nat.
Proof.
  split; [vm_compute; reflexivity|].
  apply (idempotency_single_flight 60000 demo_text demo_number demo_text demo_first 0 ∅ demo_running 0 0
    (demo_req demo_running 0) (demo_req demo_running 0) 0 0 demo_recorder demo_recorder);
    [apply empty_readable|apply demo_running_runs|vm_compute; reflexivity..].
Defined.


Definition demo_record (lease : string) : IdempotencyRecord :=
  {| ir_fingerprint := js "f"; ir_lease := js lease; ir_state := InFlight |}.
Definition demo_response : RecordedResponse := {| rr_status := (200, 0); rr_contentType := None; rr_body := None |}.
Definition demo_done (lease : string) : IdempotencyRecord :=
  {| ir_fingerprint := js "f"; ir_lease := js lease; ir_state := Completed demo_response |}.

(** Reserve, be refused, complete with the wrong and the right lease, read, and
    reserve again once the record has expired. *)
Definition demo_calls : list StoreCall :=
  [Reserve "k" (demo_record "a") 100; Reserve "k" (demo_record "b") 100; Complete "k" (js "b") demo_response 100;
   Complete "k" (js "a") demo_response 100; Get "k"; Wait 100; Reserve "k" (demo_record "b") 100; Release "k" (js "b"); Get "k"].

Lemma stores_agree_witness :
  replies redis_call demo_calls 0 (∅ : Store) = replies memory_call demo_calls 0 (∅ : MemoryStore) /\
  replies memory_call demo_calls 0 (∅ : MemoryStore) =
    [Found None; Found (Some (demo_record "a")); Did false; Did true; Found (Some (demo_done "a")); Waited; Found None; Did true;
     Found None].
Proof.
  split; [|vm_compute; reflexivity].
  apply (stores_agree demo_calls 0). repeat (apply Forall_cons; split; [simpl; lia || exact I|]). apply Forall_nil_2.
Defined.

(** A body sent as bytes is recorded, and replayed, as no body at all. *)
Lemma binary_response_recorded_empty statusCode ct :
  statusCode < REPLAYABLE_STATUS_CEILING ->
  settle true statusCode ct (record_send PBinary fresh_recorder) =
  DoPersist {| rr_status := (statusCode, 0); rr_contentType := ct; rr_body := None |}.
Proof. intros H. unfold settle. simpl. by rewrite decide_False by lia. Qed.

(** A value nobody can read is overwritten without a condition, so two requests
    that both saw it both run their handlers. *)
Lemma unreadable_value_admits_two :
  exists s, demo_run
      [EvIntercept 0 (demo_request JNull) "k-1" "lease-0"; EvIntercept 1 (demo_request JNull) "k-1" "lease-1";
       EvSetNx 0; EvSetNx 1; EvGet 0; EvGet 1; EvSet 0; EvSet 1]
      (initial 0 {["idempotency:user:u1:k-1"%string := (None, 1000)]}) = Some s /\
    rq_phase (demo_req s 0) = Running 0 fresh_recorder /\ rq_phase (demo_req s 1) = Running 0 fresh_recorder.
Proof. eexists. split; [vm_compute; reflexivity|]. split; reflexivity. Qed.
