(* ===== verification/RefreshTokens.v ===== *)
(** * RefreshTokens: rotation, replay detection and sign-out

    [auth/prisma-refresh-token.store.ts] and the token half of
    [auth/auth.service.ts].  [consume] runs as the transaction it is: it takes
    the token's row lock, then the family's, and decides and writes under both;
    other presentations, sign-ins, sign-outs and pruning interleave between its
    statements.  A run is a list of events. *)

From S2P Require Import Prelude.

(** ** Data *)

Inductive RefreshTokenRevocation := REUSE_DETECTED | LOGOUT.

#[export] Instance RefreshTokenRevocation_eq_dec : EqDecision RefreshTokenRevocation.
Proof. solve_decision. Defined.

Record TokenRow := {
  tk_userId : string;
  tk_familyId : string;
  tk_expiresAt : Z;
  tk_consumedAt : option Z;
}.

#[export] Instance TokenRow_eq_dec : EqDecision TokenRow.
Proof. solve_decision. Defined.

Record FamilyRow := {
  fam_userId : string;
  fam_revoked : option (Z * RefreshTokenRevocation);   (* revokedAt, revokedReason *)
}.

#[export] Instance FamilyRow_eq_dec : EqDecision FamilyRow.
Proof. solve_decision. Defined.

(** [refresh_tokens] by its unique [token], and [refresh_token_families]. *)
Record DB := { tokens : gmap string TokenRow; families : gmap string FamilyRow }.

#[export] Instance DB_eq_dec : EqDecision DB.
Proof. solve_decision. Defined.

Record ConsumedRefreshToken := {
  ct_userId : string; ct_email : string; ct_role : string; ct_expiresAt : Z; ct_familyId : string }.

Record RefreshTokenReuse := { ru_familyId : string; ru_userId : string; ru_revokedTokens : nat }.

Inductive RefreshTokenClaim :=
  | Claimed (token : ConsumedRefreshToken)
  | Reused (reuse : RefreshTokenReuse)
  | Revoked
  | Unknown.

(** ** The store *)

Definition new_token (userId familyId : string) (expiresAt : Z) : TokenRow :=
  {| tk_userId := userId; tk_familyId := familyId; tk_expiresAt := expiresAt; tk_consumedAt := None |}.

(** [issue(data)]: into an existing family, which the foreign key checks, or
    into one of its own, whose id the database assigns. *)
Definition issue_into (token userId familyId : string) (expiresAt : Z) (db : DB) : option DB :=
  match families db !! familyId, tokens db !! token with
  | Some _, None =>
      Some {| tokens := <[token := new_token userId familyId expiresAt]> (tokens db); families := families db |}
  | _, _ => None
  end.

Definition issue_fresh (token userId familyId : string) (expiresAt : Z) (db : DB) : DB := {|
  tokens := <[token := new_token userId familyId expiresAt]> (tokens db);
  families := <[familyId := {| fam_userId := userId; fam_revoked := None |}]> (families db) |}.

Definition unspent_in (familyId : string) (_ : string) (row : TokenRow) : bool :=
  bool_decide (tk_familyId row = familyId) && bool_decide (tk_consumedAt row = None).

Definition set_revoked (now : Z) (reason : RefreshTokenRevocation) (f : FamilyRow) : FamilyRow :=
  {| fam_userId := fam_userId f; fam_revoked := Some (now, reason) |}.

(** [revokeFamily(tx, familyId, userId)] *)
Definition revokeFamily (now : Z) (familyId userId : string) (family : FamilyRow) (db : DB) : RefreshTokenReuse * DB :=
  ({| ru_familyId := familyId; ru_userId := userId;
      ru_revokedTokens := map_count (unspent_in familyId) (tokens db) |},
   {| tokens := tokens db; families := <[familyId := set_revoked now REUSE_DETECTED family]> (families db) |}).

Definition spend (now : Z) (row : TokenRow) : TokenRow := {|
  tk_userId := tk_userId row; tk_familyId := tk_familyId row; tk_expiresAt := tk_expiresAt row;
  tk_consumedAt := Some now |}.

(** The end of [consume(token)], under both locks: [row] is what was read
    under the token's lock, the family is read now. *)
Definition consume_locked (users : string -> string * string) (now : Z) (token : string) (row : TokenRow) (db : DB) :
    RefreshTokenClaim * DB :=
  match families db !! tk_familyId row with
  | None => (Unknown, db)
  | Some family =>
      let alreadyRevoked := bool_decide (fam_revoked family <> None) in
      match tk_consumedAt row with
      | Some _ =>
          if alreadyRevoked then (Revoked, db)
          else let '(reuse, db') := revokeFamily now (tk_familyId row) (tk_userId row) family db in (Reused reuse, db')
      | None =>
          if alreadyRevoked then (Revoked, db)
          else
            (Claimed {| ct_userId := tk_userId row; ct_email := (users (tk_userId row)).1;
                        ct_role := (users (tk_userId row)).2; ct_expiresAt := tk_expiresAt row;
                        ct_familyId := tk_familyId row |},
             {| tokens := <[token := spend now row]> (tokens db); families := families db |})
      end
  end.

(** [revoke(token)]: the first revocation of a family is kept. *)
Definition revoke (now : Z) (token : string) (db : DB) : DB :=
  match tokens db !! token with
  | Some row =>
      match families db !! tk_familyId row with
      | Some family =>
          match fam_revoked family with
          | None => {| tokens := tokens db;
                       families := <[tk_familyId row := set_revoked now LOGOUT family]> (families db) |}
          | Some _ => db
          end
      | None => db
      end
  | None => db
  end.

(** A family is prunable when every token of it expired before [before]. *)
Definition prunable (before : Z) (db : DB) (familyId : string) : bool :=
  bool_decide (map_count (fun _ row => bool_decide (tk_familyId row = familyId /\ before <= tk_expiresAt row)) (tokens db) = 0%nat).

(** [prune(before)]; the tokens go through the foreign key's cascade. *)
Definition prune (before : Z) (db : DB) : nat * DB :=
  (map_count (fun id _ => prunable before db id) (families db),
   {| tokens := filter (fun kv => prunable before db (tk_familyId kv.2) = false) (tokens db);
      families := filter (fun kv => prunable before db kv.1 = false) (families db) |}).

(** ** [AuthService.refresh], as a process *)

Inductive RefreshResult := Issued (token : string) | InvalidToken | TokenExpired | Failed.

Inductive Proc :=
  | Presenting (token : string)                       (* waiting for the token's row lock *)
  | HoldsToken (token : string) (row : TokenRow)      (* has read the row, waiting for the family's lock *)
  | HoldsBoth (token : string) (row : TokenRow)
  | Issuing (userId familyId : string)                (* claimed: the successor is about to be issued *)
  | Ended (result : RefreshResult).

Record Sys := {
  s_db : DB;
  s_now : Z;
  s_tokenLocks : gmap string nat;
  s_familyLocks : gmap string nat;
  s_procs : gmap nat Proc;
  s_issued : list string;           (* every token value ever drawn *)
  s_started : list string;          (* every family id ever assigned *)
  s_claims : list (string * string); (* tokens [consume] answered [claimed] for, with their family *)
  s_reuses : list string;           (* families a reuse was reported for *)
}.

Inductive Event :=
  | EvSignIn (userId token familyId : string) (expiresAt : Z)
  | EvRefresh (pid : nat) (token : string)
  | EvLockToken (pid : nat)
  | EvLockFamily (pid : nat)
  | EvDecide (pid : nat)
  | EvAbort (pid : nat)
  | EvIssue (pid : nat) (token : string) (expiresAt : Z)
  | EvLogout (token : string)
  | EvPrune (before : Z)
  | EvTick (ms : Z).

Definition unlock (pid : nat) (locks : gmap string nat) : gmap string nat := filter (fun kv => kv.2 <> pid) locks.

Definition set_proc (pid : nat) (p : Proc) (s : Sys) : Sys := {|
  s_db := s_db s; s_now := s_now s; s_tokenLocks := s_tokenLocks s; s_familyLocks := s_familyLocks s;
  s_procs := <[pid := p]> (s_procs s); s_issued := s_issued s; s_started := s_started s; s_claims := s_claims s;
  s_reuses := s_reuses s |}.

Definition set_db (db : DB) (s : Sys) : Sys := {|
  s_db := db; s_now := s_now s; s_tokenLocks := s_tokenLocks s; s_familyLocks := s_familyLocks s;
  s_procs := s_procs s; s_issued := s_issued s; s_started := s_started s; s_claims := s_claims s;
  s_reuses := s_reuses s |}.

(** The transaction of process [pid] ends: its locks go, it continues as [p],
    and what [consume] answered is noted. *)
Definition end_transaction (pid : nat) (p : Proc) (db : DB) (claims : list (string * string)) (reuses : list string) (s : Sys) : Sys := {|
  s_db := db; s_now := s_now s; s_tokenLocks := unlock pid (s_tokenLocks s); s_familyLocks := unlock pid (s_familyLocks s);
  s_procs := <[pid := p]> (s_procs s); s_issued := s_issued s; s_started := s_started s;
  s_claims := claims ++ s_claims s; s_reuses := reuses ++ s_reuses s |}.

Section auth.
Context (users : string -> string * string).

(** What [refresh] does with each outcome. *)
Definition after_consume (now : Z) (claim : RefreshTokenClaim) : Proc :=
  match claim with
  | Unknown | Revoked => Ended InvalidToken
  | Reused _ => Ended InvalidToken
  | Claimed token =>
      if decide (ct_expiresAt token < now) then Ended TokenExpired
      else Issuing (ct_userId token) (ct_familyId token)
  end.

Definition event (e : Event) (s : Sys) : option Sys :=
  match e with
  | EvSignIn userId token familyId expiresAt =>
      if decide ((token ∉ s_issued s) /\ (familyId ∉ s_started s)) then
        Some {| s_db := issue_fresh token userId familyId expiresAt (s_db s); s_now := s_now s;
                s_tokenLocks := s_tokenLocks s; s_familyLocks := s_familyLocks s; s_procs := s_procs s;
                s_issued := token :: s_issued s; s_started := familyId :: s_started s; s_claims := s_claims s;
                s_reuses := s_reuses s |}
      else None
  | EvRefresh pid token =>
      if decide (s_procs s !! pid = None) then Some (set_proc pid (Presenting token) s) else None
  | EvLockToken pid =>
      match s_procs s !! pid with
      | Some (Presenting token) =>
          match tokens (s_db s) !! token with
          | None => Some (set_proc pid (Ended InvalidToken) s)
          | Some row =>
              if decide (s_tokenLocks s !! token = None) then
                Some {| s_db := s_db s; s_now := s_now s; s_tokenLocks := <[token := pid]> (s_tokenLocks s);
                        s_familyLocks := s_familyLocks s; s_procs := <[pid := HoldsToken token row]> (s_procs s);
                        s_issued := s_issued s; s_started := s_started s; s_claims := s_claims s;
                        s_reuses := s_reuses s |}
              else None
          end
      | _ => None
      end
  | EvLockFamily pid =>
      match s_procs s !! pid with
      | Some (HoldsToken token row) =>
          if decide (s_familyLocks s !! tk_familyId row = None) then
            Some {| s_db := s_db s; s_now := s_now s; s_tokenLocks := s_tokenLocks s;
                    s_familyLocks := <[tk_familyId row := pid]> (s_familyLocks s);
                    s_procs := <[pid := HoldsBoth token row]> (s_procs s);
                    s_issued := s_issued s; s_started := s_started s; s_claims := s_claims s; s_reuses := s_reuses s |}
          else None
      | _ => None
      end
  | EvDecide pid =>
      match s_procs s !! pid with
      | Some (HoldsBoth token row) =>
          let '(claim, db) := consume_locked users (s_now s) token row (s_db s) in
          Some (end_transaction pid (after_consume (s_now s) claim) db
            (match claim with Claimed c => [(token, ct_familyId c)] | _ => [] end)
            (match claim with Reused reuse => [ru_familyId reuse] | _ => [] end) s)
      | _ => None
      end
  | EvAbort pid =>
      match s_procs s !! pid with
      | Some (Presenting _ | HoldsToken _ _ | HoldsBoth _ _) =>
          Some (end_transaction pid (Ended Failed) (s_db s) [] [] s)
      | _ => None
      end
  | EvIssue pid token expiresAt =>
      match s_procs s !! pid with
      | Some (Issuing userId familyId) =>
          if decide (token ∈ s_issued s) then None
          else
            match issue_into token userId familyId expiresAt (s_db s) with
            | Some db => Some {| s_db := db; s_now := s_now s; s_tokenLocks := s_tokenLocks s;
                s_familyLocks := s_familyLocks s; s_procs := <[pid := Ended (Issued token)]> (s_procs s);
                s_issued := token :: s_issued s; s_started := s_started s; s_claims := s_claims s;
                s_reuses := s_reuses s |}
            | None => Some (set_proc pid (Ended Failed) s)
            end
      | _ => None
      end
  | EvLogout token =>
      (* an update of the family's row waits for whoever holds it *)
      match tokens (s_db s) !! token with
      | Some row =>
          if decide (s_familyLocks s !! tk_familyId row = None \/ revoke (s_now s) token (s_db s) = s_db s)
          then Some (set_db (revoke (s_now s) token (s_db s)) s) else None
      | None => Some s
      end
  | EvPrune before =>
      (* so does the delete, for every row it takes *)
      let db := (prune before (s_db s)).2 in
      if decide (map_Forall (fun token _ => is_Some (tokens db !! token)) (s_tokenLocks s) /\
                 map_Forall (fun id _ => is_Some (families db !! id)) (s_familyLocks s))
      then Some (set_db db s) else None
  | EvTick ms => if decide (0 <= ms) then
      Some {| s_db := s_db s; s_now := s_now s + ms; s_tokenLocks := s_tokenLocks s; s_familyLocks := s_familyLocks s;
              s_procs := s_procs s; s_issued := s_issued s; s_started := s_started s; s_claims := s_claims s;
              s_reuses := s_reuses s |}
      else None
  end.

Fixpoint run (es : list Event) (s : Sys) : option Sys :=
  match es with
  | [] => Some s
  | e :: es => match event e s with Some s' => run es s' | None => None end
  end.

End auth.

Definition initial (t : Z) : Sys := {|
  s_db := {| tokens := ∅; families := ∅ |}; s_now := t; s_tokenLocks := ∅; s_familyLocks := ∅; s_procs := ∅;
  s_issued := []; s_started := []; s_claims := []; s_reuses := [] |}.

(** ** The invariant *)

Definition issuing_in (familyId : string) (_ : nat) (p : Proc) : bool :=
  match p with Issuing _ f => bool_decide (f = familyId) | _ => false end.

(** Credentials of a family that can still be used, or are about to exist. *)
Definition live (s : Sys) (familyId : string) : nat :=
  (map_count (unspent_in familyId) (tokens (s_db s)) + map_count (issuing_in familyId) (s_procs s))%nat.

Definition proc_ok (s : Sys) (pid : nat) (p : Proc) : Prop :=
  match p with
  | HoldsToken token row => s_tokenLocks s !! token = Some pid /\ tokens (s_db s) !! token = Some row
  | HoldsBoth token row => (s_tokenLocks s !! token = Some pid /\ tokens (s_db s) !! token = Some row) /\
      s_familyLocks s !! tk_familyId row = Some pid
  | Issuing _ f => f ∈ s_started s
  | Presenting _ | Ended _ => True
  end.

Record inv (s : Sys) : Prop := {
  inv_tokens : forall t row, tokens (s_db s) !! t = Some row ->
    is_Some (families (s_db s) !! tk_familyId row) /\ t ∈ s_issued s /\ tk_familyId row ∈ s_started s;
  inv_families : forall f, is_Some (families (s_db s) !! f) -> f ∈ s_started s;
  inv_procs : forall pid p, s_procs s !! pid = Some p -> proc_ok s pid p;
  inv_claims : NoDup (s_claims s).*1 /\ forall t, t ∈ (s_claims s).*1 ->
    t ∈ s_issued s /\ forall row, tokens (s_db s) !! t = Some row -> tk_consumedAt row <> None;
  inv_reuses : NoDup (s_reuses s) /\ forall f, f ∈ s_reuses s ->
    f ∈ s_started s /\ forall fam, families (s_db s) !! f = Some fam -> fam_revoked fam <> None;
  inv_live : forall f, (live s f <= 1)%nat;
}.

Lemma unlock_ne pid locks k q : locks !! k = Some q -> q <> pid -> unlock pid locks !! k = Some q.
Proof. intros. by apply map_lookup_filter_Some. Qed.

(** A process keeps its hold when its rows and its locks stay. *)
Lemma proc_ok_frame s s' pid p :
  (forall t row, s_tokenLocks s !! t = Some pid -> tokens (s_db s) !! t = Some row ->
     s_tokenLocks s' !! t = Some pid /\ tokens (s_db s') !! t = Some row) ->
  (forall f, s_familyLocks s !! f = Some pid -> s_familyLocks s' !! f = Some pid) ->
  s_started s ⊆ s_started s' -> proc_ok s pid p -> proc_ok s' pid p.
Proof.
  intros Ht Hf Hst. destruct p; simpl; try done.
  - intros [Hl Hrow]. auto.
  - intros [[Hl Hrow] Hfl]. auto.
  - set_solver.
Qed.

Lemma signIn_inv s userId token familyId expiresAt :
  token ∉ s_issued s -> familyId ∉ s_started s -> inv s ->
  inv {| s_db := issue_fresh token userId familyId expiresAt (s_db s); s_now := s_now s;
         s_tokenLocks := s_tokenLocks s; s_familyLocks := s_familyLocks s; s_procs := s_procs s;
         s_issued := token :: s_issued s; s_started := familyId :: s_started s; s_claims := s_claims s;
         s_reuses := s_reuses s |}.
Proof.
  intros Ht Hf [Htok Hfam Hpr [Hcn Hcl] [Hrn Hre] Hlive].
  assert (tokens (s_db s) !! token = None) as Hnone.
  { destruct (tokens (s_db s) !! token) eqn:E; [|done]. by destruct (Htok _ _ E) as (_ & ? & _). }
  split; simpl.
  - intros t row. rewrite lookup_insert. case_decide.
    + intros [= <-]. simpl. rewrite lookup_insert_eq. subst. split; [by eexists|]. split; left.
    + intros Hrow. destruct (Htok _ _ Hrow) as (? & ? & ?). rewrite lookup_insert_ne by set_solver. split_and!; [done|by right..].
  - intros f. rewrite lookup_insert. case_decide; [intros _; subst; left|]. intros ?%Hfam. by right.
  - intros pid p Hp. eapply proc_ok_frame; [| | |by apply Hpr]; simpl; [|done|set_solver].
    intros t row Hl Hrow. split; [done|]. rewrite lookup_insert_ne; [done|]. congruence.
  - split; [done|]. intros t Hin. destruct (Hcl t Hin) as [? Hrow]. split; [by right|]. intros row.
    rewrite lookup_insert_ne by congruence. apply Hrow.
  - split; [done|]. intros f Hin. destruct (Hre f Hin) as [? Hrow]. split; [by right|]. intros fam.
    rewrite lookup_insert_ne by congruence. apply Hrow.
  - intros f. unfold live in *. simpl. rewrite map_count_fresh by done. unfold unspent_in at 1. simpl.
    specialize (Hlive f). case_bool_decide; simpl; [|lia]. subst f.
    rewrite (map_count_zero (unspent_in familyId)), (map_count_zero (issuing_in familyId)); [simpl; lia| |].
    + intros pid p Hp. destruct p; try done. simpl. apply bool_decide_eq_false. intros ->. by destruct Hf; eapply (Hpr _ _ Hp).
    + intros t row Hrow. unfold unspent_in. rewrite bool_decide_eq_false_2; [done|]. intros <-.
      by destruct (Htok _ _ Hrow) as (_ & _ & ?).
Qed.

(** A step of one process that leaves the tables alone. *)
Lemma proc_step_inv s s' pid p' :
  s_db s' = s_db s -> s_issued s' = s_issued s -> s_started s' = s_started s -> s_claims s' = s_claims s ->
  s_reuses s' = s_reuses s -> s_procs s' = <[pid := p']> (s_procs s) ->
  (forall q k, q <> pid -> s_tokenLocks s !! k = Some q -> s_tokenLocks s' !! k = Some q) ->
  (forall q k, q <> pid -> s_familyLocks s !! k = Some q -> s_familyLocks s' !! k = Some q) ->
  proc_ok s' pid p' -> (forall f, issuing_in f pid p' = false) -> inv s -> inv s'.
Proof.
  intros Hdb His Hst Hcl Hre Hps Htl Hfl Hok Hni Hinv.
  split; rewrite ?Hdb, ?His, ?Hst, ?Hcl, ?Hre; try apply Hinv.
  - intros q p. rewrite Hps, lookup_insert. case_decide; [by intros [= <-]; subst|]. intros Hp.
    eapply proc_ok_frame; [| | |by apply (inv_procs s Hinv)].
    + intros t row Hl Hrow. rewrite Hdb. auto.
    + auto.
    + by rewrite Hst.
  - intros f. pose proof (inv_live s Hinv f). unfold live in *. rewrite Hdb, Hps.
    pose proof (map_count_insert_le (issuing_in f) (s_procs s) pid p' (Hni f)). lia.
Qed.

Lemma lock_taken_keeps (locks : gmap string nat) k pid q k' :
  locks !! k = None -> locks !! k' = Some q -> <[k := pid]> locks !! k' = Some q.
Proof. intros Hn Hk. rewrite lookup_insert_ne; [done|congruence]. Qed.

(** The claim: the row that was read is the row, so one credential leaves as
    its successor is about to enter. *)
Lemma token_claim_inv s pid token row p' now :
  s_procs s !! pid = Some (HoldsBoth token row) -> tk_consumedAt row = None ->
  (p' = Ended TokenExpired \/ p' = Issuing (tk_userId row) (tk_familyId row)) -> inv s ->
  inv (end_transaction pid p' {| tokens := <[token := spend now row]> (tokens (s_db s)); families := families (s_db s) |}
         [(token, tk_familyId row)] [] s).
Proof.
  intros Hpid Hun Hp' Hinv. destruct (inv_procs s Hinv _ _ Hpid) as [[Hl Hrow] Hf].
  destruct (inv_tokens s Hinv _ _ Hrow) as (Hfam & His & Hst).
  split; simpl.
  - intros t r. rewrite lookup_insert. case_decide; [intros [= <-]; subst; by split_and!|]. apply (inv_tokens s Hinv).
  - apply (inv_families s Hinv).
  - intros q p. rewrite lookup_insert. case_decide as Hq.
    + intros [= <-]. destruct Hp' as [->| ->]; done.
    + intros Hp. eapply proc_ok_frame; [| | |by apply (inv_procs s Hinv)]; simpl; [| |done].
      * intros t r Ht Hr. split; [by apply unlock_ne|]. rewrite lookup_insert_ne; [done|congruence].
      * intros f Hfl. by apply unlock_ne.
  - destruct (inv_claims s Hinv) as [Hnd Hc]. split.
    + constructor; [|done]. intros Hin. by apply (proj2 (Hc _ Hin) row Hrow).
    + intros t. rewrite elem_of_cons. intros [->|Hin].
      * split; [done|]. intros r. rewrite lookup_insert_eq. by intros [= <-].
      * destruct (Hc t Hin) as [? Hr]. split; [done|]. intros r. rewrite lookup_insert. case_decide; [by intros [= <-]|apply Hr].
  - apply (inv_reuses s Hinv).
  - intros f. pose proof (inv_live s Hinv f) as Hlive. unfold live in *. simpl.
    pose proof (map_count_update (unspent_in f) _ _ _ (spend now row) Hrow) as H1.
    pose proof (map_count_update (issuing_in f) _ _ _ p' Hpid) as H2.
    assert (unspent_in f token row = bool_decide (tk_familyId row = f)) as E1.
    { unfold unspent_in. by rewrite Hun, andb_true_r. }
    assert (unspent_in f token (spend now row) = false) as E2 by apply andb_false_r.
    rewrite E1, E2 in H1. simpl in H1.
    destruct Hp' as [->| ->]; simpl in H2; lia.
Qed.

(** The revocation. *)
Lemma reuse_inv s pid token row family now :
  s_procs s !! pid = Some (HoldsBoth token row) -> families (s_db s) !! tk_familyId row = Some family ->
  fam_revoked family = None -> inv s ->
  inv (end_transaction pid (Ended InvalidToken)
         {| tokens := tokens (s_db s); families := <[tk_familyId row := set_revoked now REUSE_DETECTED family]> (families (s_db s)) |}
         [] [tk_familyId row] s).
Proof.
  intros Hpid Hfamily Hlive Hinv. destruct (inv_procs s Hinv _ _ Hpid) as [[Hl Hrow] Hf].
  split; simpl.
  - intros t r Hr. destruct (inv_tokens s Hinv _ _ Hr) as (? & ? & ?). split; [|done].
    rewrite lookup_insert. by case_decide.
  - intros f. rewrite lookup_insert. case_decide; [|apply (inv_families s Hinv)].
    intros _. subst f. by apply (inv_families s Hinv).
  - intros q p. rewrite lookup_insert. case_decide as Hq; [by intros [= <-]|].
    intros Hp. eapply proc_ok_frame; [| | |by apply (inv_procs s Hinv)]; simpl; [| |done]; intros; try split; by try apply unlock_ne.
  - apply (inv_claims s Hinv).
  - destruct (inv_reuses s Hinv) as [Hnd Hr]. split.
    + constructor; [|done]. intros Hin. by apply (proj2 (Hr _ Hin) family Hfamily).
    + intros f. rewrite elem_of_cons. intros [->|Hin].
      * split; [by eapply (inv_families s Hinv)|]. intros fam. rewrite lookup_insert_eq. by intros [= <-].
      * destruct (Hr f Hin) as [? Hfs]. split; [done|]. intros fam. rewrite lookup_insert. case_decide; [by intros [= <-]|apply Hfs].
  - intros f. pose proof (inv_live s Hinv f). unfold live in *. simpl.
    pose proof (map_count_insert_le (issuing_in f) (s_procs s) pid (Ended InvalidToken) eq_refl). lia.
Qed.

Lemma issue_inv s pid userId familyId token expiresAt db :
  s_procs s !! pid = Some (Issuing userId familyId) -> token ∉ s_issued s ->
  issue_into token userId familyId expiresAt (s_db s) = Some db -> inv s ->
  inv {| s_db := db; s_now := s_now s; s_tokenLocks := s_tokenLocks s; s_familyLocks := s_familyLocks s;
         s_procs := <[pid := Ended (Issued token)]> (s_procs s); s_issued := token :: s_issued s;
         s_started := s_started s; s_claims := s_claims s; s_reuses := s_reuses s |}.
Proof.
  intros Hpid Hfresh Hissue Hinv. unfold issue_into in Hissue.
  destruct (families (s_db s) !! familyId) as [fam|] eqn:Hfam; [|done].
  destruct (tokens (s_db s) !! token) eqn:Hnone; [done|]. injection Hissue as <-.
  split; simpl.
  - intros t row. rewrite lookup_insert. case_decide.
    + intros [= <-]. simpl. subst t. split; [by eexists|]. split; [left|]. by apply (inv_families s Hinv).
    + intros Hrow. destruct (inv_tokens s Hinv _ _ Hrow) as (? & ? & ?). split_and!; [done|by right|done].
  - apply (inv_families s Hinv).
  - intros q p. rewrite lookup_insert. case_decide; [by intros [= <-]|]. intros Hp.
    eapply proc_ok_frame; [| | |by apply (inv_procs s Hinv)]; simpl; [|done..].
    intros t row Hl Hrow. split; [done|]. rewrite lookup_insert_ne; [done|congruence].
  - destruct (inv_claims s Hinv) as [? Hc]. split; [done|]. intros t Hin. destruct (Hc t Hin) as [? Hrow].
    split; [by right|]. intros row. rewrite lookup_insert_ne by congruence. apply Hrow.
  - apply (inv_reuses s Hinv).
  - intros f. pose proof (inv_live s Hinv f) as Hlive. unfold live in *. simpl.
    rewrite map_count_fresh by done. pose proof (map_count_update (issuing_in f) _ _ _ (Ended (Issued token)) Hpid) as H2.
    simpl in H2. unfold unspent_in at 1. simpl. rewrite andb_true_r. lia.
Qed.

(** A change of the tables that only removes rows, or only revokes. *)
Lemma db_inv s db :
  tokens db ⊆ tokens (s_db s) ->
  (forall t row, tokens db !! t = Some row -> is_Some (families db !! tk_familyId row)) ->
  (forall f fam, families db !! f = Some fam -> exists fam0, families (s_db s) !! f = Some fam0 /\
     (fam_revoked fam0 <> None -> fam_revoked fam <> None)) ->
  (forall t, is_Some (s_tokenLocks s !! t) -> tokens db !! t = tokens (s_db s) !! t) ->
  inv s -> inv (set_db db s).
Proof.
  intros Hsub Htf Hfam Hlk Hinv. split; simpl.
  - intros t row Hrow. split; [by eapply Htf|]. by eapply (inv_tokens s Hinv), lookup_weaken.
  - intros f [fam Hf]. destruct (Hfam _ _ Hf) as (fam0 & ? & _). by apply (inv_families s Hinv).
  - intros q p Hp. eapply proc_ok_frame; [| | |by apply (inv_procs s Hinv)]; simpl; [|done..].
    intros t row Hl Hrow. split; [done|]. by rewrite Hlk.
  - destruct (inv_claims s Hinv) as [? Hc]. split; [done|]. intros t Hin. destruct (Hc t Hin) as [? Hrow].
    split; [done|]. intros row Hr. by eapply Hrow, lookup_weaken.
  - destruct (inv_reuses s Hinv) as [? Hr]. split; [done|]. intros f Hin. destruct (Hr f Hin) as [? Hf].
    split; [done|]. intros fam Hfm. destruct (Hfam _ _ Hfm) as (fam0 & Hf0 & Hrev). apply Hrev, Hf, Hf0.
  - intros f. pose proof (inv_live s Hinv f). unfold live in *. simpl.
    pose proof (map_count_mono (unspent_in f) _ _ Hsub). lia.
Qed.

Lemma revoke_tokens now token db : tokens (revoke now token db) = tokens db.
Proof. unfold revoke. by repeat case_match. Qed.

(** A sign-out revokes, and keeps a revocation that is there. *)
Lemma revoke_families now token db f fam :
  families (revoke now token db) !! f = Some fam -> exists fam0, families db !! f = Some fam0 /\
    (fam_revoked fam0 <> None -> fam = fam0).
Proof.
  unfold revoke. repeat case_match; simpl; eauto. rewrite lookup_insert. case_decide; [|eauto].
  subst f. intros [= <-]. eexists. split; [done|]. congruence.
Qed.

Lemma revoke_some now token db f : is_Some (families db !! f) -> is_Some (families (revoke now token db) !! f).
Proof. unfold revoke. repeat case_match; simpl; try done. rewrite lookup_insert. by case_decide. Qed.

Lemma refresh_event_inv users e s s' : event users e s = Some s' -> inv s -> inv s'.
Proof.
  intros He Hinv. destruct e as [userId token familyId expiresAt|pid token|pid|pid|pid|pid|pid token expiresAt|token|before|ms];
    simpl in He.
  - case_decide as Hd; [|done]. injection He as <-. destruct Hd. by apply signIn_inv.
  - case_decide; [|done]. injection He as <-. by apply (proc_step_inv s _ pid (Presenting token)).
  - destruct (s_procs s !! pid) as [[token| | | |]|] eqn:Hp; try done.
    destruct (tokens (s_db s) !! token) as [row|] eqn:Hrow.
    + case_decide as Hfree; [|done]. injection He as <-.
      apply (proc_step_inv s _ pid (HoldsToken token row)); simpl; try done.
      * intros q k _. by apply lock_taken_keeps.
      * by rewrite lookup_insert_eq.
    + injection He as <-. by apply (proc_step_inv s _ pid (Ended InvalidToken)).
  - destruct (s_procs s !! pid) as [[|token row| | |]|] eqn:Hp; try done. case_decide as Hfree; [|done]. injection He as <-.
    apply (proc_step_inv s _ pid (HoldsBoth token row)); simpl; try done.
    + intros q k _. by apply lock_taken_keeps.
    + split; [by apply (inv_procs s Hinv _ _ Hp)|]. by rewrite lookup_insert_eq.
  - destruct (s_procs s !! pid) as [[| |token row| |]|] eqn:Hp; try done. unfold consume_locked in He.
    assert (inv (end_transaction pid (Ended InvalidToken) (s_db s) [] [] s)) as Hno.
    { apply (proc_step_inv s _ pid (Ended InvalidToken)); simpl; try done; intros; by apply unlock_ne. }
    destruct (families (s_db s) !! tk_familyId row) as [family|] eqn:Hfam; [|by injection He as <-].
    destruct (tk_consumedAt row) eqn:Hc; case_bool_decide as Hr; simplify_eq/=; try done.
    + apply (reuse_inv _ _ token _ family); try done.
    + apply (token_claim_inv _ _ _ _ _ _ Hp Hc); [|done]. simpl. case_decide; auto.
  - destruct (s_procs s !! pid) as [[| | | |]|] eqn:Hp; simplify_eq;
      apply (proc_step_inv s _ pid (Ended Failed)); simpl; try done; intros; by apply unlock_ne.
  - destruct (s_procs s !! pid) as [[| | |userId familyId|]|] eqn:Hp; try done. case_decide as Hd; [done|].
    destruct (issue_into _ _ _ _ _) as [db|] eqn:Hi; injection He as <-.
    + by eapply issue_inv.
    + by apply (proc_step_inv s _ pid (Ended Failed)).
  - destruct (tokens (s_db s) !! token) as [row|]; [|by injection He as <-]. case_decide; [|done]. injection He as <-.
    apply db_inv; try done; rewrite ?revoke_tokens; try done.
    + intros t r Hr. by apply revoke_some, (inv_tokens s Hinv _ _ Hr).
    + intros f fam Hf. apply revoke_families in Hf as (fam0 & ? & Hk). exists fam0. split; [done|].
      intros Hrev. by rewrite (Hk Hrev).
  - case_decide as Hd; [|done]. injection He as <-. destruct Hd as [Hlk _]. apply db_inv; simpl; try done.
    + apply map_filter_subseteq.
    + intros t row Hrow. apply map_lookup_filter_Some in Hrow as [Hrow Hp].
      destruct (inv_tokens s Hinv _ _ Hrow) as [[fam Hf] _]. exists fam. by apply map_lookup_filter_Some.
    + intros f fam Hf. apply map_lookup_filter_Some in Hf as [Hf _]. by exists fam.
    + intros t [q Hq]. destruct (Hlk _ _ Hq) as [row Hrow]. simpl in Hrow. rewrite Hrow. symmetry.
      by apply map_lookup_filter_Some in Hrow as [? _].
  - case_decide; [|done]. injection He as <-. destruct Hinv. by split.
Qed.

Lemma refresh_run_inv users es s s' : run users es s = Some s' -> inv s -> inv s'.
Proof.
  revert s. induction es as [|e es IH]; simpl; intros s; [by intros [= <-]|].
  destruct (event users e s) as [s1|] eqn:He; [|done]. intros Hrun Hinv. by eapply IH, refresh_event_inv.
Qed.

Lemma refresh_initial_inv t : inv (initial t).
Proof.
  split; try done; try (split; [constructor|]); try set_solver. intros f [? [=]].
Qed.

(** A family that is revoked, or gone after having been. *)
Definition finished (f : string) (r : Z * RefreshTokenRevocation) (s : Sys) : Prop :=
  f ∈ s_started s /\ forall fam, families (s_db s) !! f = Some fam -> fam_revoked fam = Some r.

Lemma finished_insert f r (m : gmap string FamilyRow) g fam' :
  (forall fam, m !! f = Some fam -> fam_revoked fam = Some r) -> g <> f ->
  forall fam, <[g := fam']> m !! f = Some fam -> fam_revoked fam = Some r.
Proof. intros Hm Hne fam. rewrite lookup_insert_ne by done. apply Hm. Qed.

Lemma decide_finished users s pid token row f r claim db :
  finished f r s -> s_procs s !! pid = Some (HoldsBoth token row) ->
  consume_locked users (s_now s) token row (s_db s) = (claim, db) ->
  (forall fam, families db !! f = Some fam -> fam_revoked fam = Some r) /\
  (forall c, claim = Claimed c -> ct_familyId c <> f).
Proof.
  intros [_ Hfin] Hp. unfold consume_locked.
  destruct (families (s_db s) !! tk_familyId row) as [family|] eqn:Hfam; [|by intros [= <- <-]].
  assert (fam_revoked family = None -> tk_familyId row <> f) as Hne.
  { intros Hn Hf. rewrite Hf in Hfam. apply Hfin in Hfam. congruence. }
  destruct (tk_consumedAt row); case_bool_decide as Hr; intros [= <- <-]; try done.
  - simpl. split; [|done]. apply finished_insert; [done|]. apply Hne. by destruct (fam_revoked family).
  - split; [done|]. intros c [= <-]. simpl. apply Hne. by destruct (fam_revoked family).
Qed.

Lemma event_finished users e s s' f r :
  event users e s = Some s' -> finished f r s ->
  finished f r s' /\ forall t, (t, f) ∈ s_claims s' -> (t, f) ∈ s_claims s.
Proof.
  intros He [Hst Hfin]. destruct e as [userId token familyId expiresAt|pid token|pid|pid|pid|pid|pid token expiresAt|token|before|ms];
    simpl in He.
  - case_decide as Hd; [|done]. injection He as <-. split; [|done]. split; simpl; [by right|].
    apply finished_insert; [done|]. intros ->. by destruct Hd.
  - case_decide; [|done]. by injection He as <-.
  - repeat case_match; simplify_eq; done.
  - repeat case_match; simplify_eq; done.
  - destruct (s_procs s !! pid) as [[| |token row| |]|] eqn:Hp; try done.
    destruct (consume_locked _ _ _ _ _) as [claim db] eqn:Hc. injection He as <-.
    destruct (decide_finished users s pid token row f r claim db (conj Hst Hfin) Hp Hc) as [Hfam Hclaim].
    split; [done|]. intros t. simpl. destruct claim; try done.
    intros [[=]|?]%elem_of_cons; [|done]. by destruct (Hclaim _ eq_refl).
  - repeat case_match; simplify_eq; done.
  - destruct (s_procs s !! pid) as [[| | |userId familyId|]|] eqn:Hp; try done. case_decide; [done|].
    unfold issue_into in He. repeat case_match; simplify_eq; done.
  - destruct (tokens (s_db s) !! token) as [row|]; [|by injection He as <-]. case_decide; [|done]. injection He as <-.
    split; [|done]. split; [done|]. intros fam Hf. simpl in Hf. apply revoke_families in Hf as (fam0 & Hf0 & Hk).
    rewrite Hk; [by apply Hfin|]. by rewrite (Hfin _ Hf0).
  - case_decide; [|done]. injection He as <-. split; [|done]. split; [done|]. simpl. intros fam Hf.
    apply map_lookup_filter_Some in Hf as [Hf _]. by apply Hfin.
  - case_decide; [|done]. by injection He as <-.
Qed.

Lemma run_finished users es s s' f r :
  run users es s = Some s' -> finished f r s -> finished f r s' /\ forall t, (t, f) ∈ s_claims s' -> (t, f) ∈ s_claims s.
Proof.
  revert s. induction es as [|e es IH]; simpl; intros s; [by intros [= <-]|].
  destruct (event users e s) as [s1|] eqn:He; [|done]. intros Hrun Hfin.
  destruct (event_finished _ _ _ _ _ _ He Hfin) as [Hfin1 Hc1]. destruct (IH _ Hrun Hfin1) as [? Hc]. auto.
Qed.

(** ** Theorems *)

(** C7: Whatever presentations, sign-ins, sign-outs, failures and prunings
    interleave, a refresh token is claimed at most once, and a family is
    reported compromised at most once: two concurrent presentations of one
    token, or replays of two tokens of one family, have one winner. *)
Theorem refresh_single_use users es t s :
  run users es (initial t) = Some s -> NoDup (s_claims s).*1 /\ NoDup (s_reuses s).
Proof.
  intros Hrun. pose proof (refresh_run_inv _ _ _ _ Hrun (refresh_initial_inv t)) as Hinv.
  split; [apply (inv_claims s Hinv)|apply (inv_reuses s Hinv)].
Qed.

(** At every moment a family has at most one unspent token: rotation moves
    the credential on, it never copies it. *)
Theorem refresh_one_live users es t s familyId :
  run users es (initial t) = Some s -> (map_count (unspent_in familyId) (tokens (s_db s)) <= 1)%nat.
Proof.
  intros Hrun. pose proof (inv_live s (refresh_run_inv _ _ _ _ Hrun (refresh_initial_inv t)) familyId). unfold live in *. lia.
Qed.

(** A token that was claimed and is presented again is refused, and when
    that presentation is decided its family is revoked, the successor the
    legitimate client holds included. *)
Theorem refresh_replay_revokes users es t s s' pid token row :
  run users es (initial t) = Some s -> token ∈ (s_claims s).*1 ->
  s_procs s !! pid = Some (HoldsBoth token row) -> event users (EvDecide pid) s = Some s' ->
  s_procs s' !! pid = Some (Ended InvalidToken) /\ s_claims s' = s_claims s /\
  exists family, families (s_db s') !! tk_familyId row = Some family /\ fam_revoked family <> None.
Proof.
  intros Hrun Hcl Hp. pose proof (refresh_run_inv _ _ _ _ Hrun (refresh_initial_inv t)) as Hinv.
  destruct (inv_procs s Hinv _ _ Hp) as [[_ Hrow] _].
  destruct (inv_tokens s Hinv _ _ Hrow) as [[family Hfam] _].
  pose proof (proj2 (proj2 (inv_claims s Hinv) _ Hcl) _ Hrow) as Hspent.
  simpl. rewrite Hp. unfold consume_locked. rewrite Hfam. destruct (tk_consumedAt row); [|done].
  case_bool_decide as Hr; intros [= <-]; simpl; rewrite lookup_insert_eq; (split; [done|]); (split; [done|]).
  - eauto.
  - rewrite lookup_insert_eq. eexists. split; [done|]. done.
Qed.

(** A revocation is final: whatever happens afterwards no token of the
    family, spent or yet to be issued into it, is claimed again, and the
    family keeps the time and the reason it was first revoked with - a later
    sign-out does not relabel a detected replay. *)
Theorem refresh_revocation_final users es es' t s s' f fam r :
  run users es (initial t) = Some s -> families (s_db s) !! f = Some fam -> fam_revoked fam = Some r ->
  run users es' s = Some s' ->
  (forall token, (token, f) ∈ s_claims s' -> (token, f) ∈ s_claims s) /\
  (forall fam', families (s_db s') !! f = Some fam' -> fam_revoked fam' = Some r).
Proof.
  intros Hrun Hfam Hr Hrun'. pose proof (refresh_run_inv _ _ _ _ Hrun (refresh_initial_inv t)) as Hinv.
  destruct (run_finished users es' s s' f r Hrun') as [[_ ?] ?]; [|done].
  split; [by apply (inv_families s Hinv)|]. congruence.
Qed.

(** A session: sign-in, a rotation, and the spent token presented again. *)
Definition sample_users (_ : string) : string * string := ("a@b.c", "USER")%string.

Definition sample_present (pid : nat) (token : string) : list Event :=
  [EvRefresh pid token; EvLockToken pid; EvLockFamily pid].

Definition sample_rotation : list Event :=
  [EvSignIn "u" "t1" "f" 1000] ++ sample_present 1 "t1" ++ [EvDecide 1; EvIssue 1 "t2" 2000].

Definition sample_replay : list Event := sample_rotation ++ sample_present 2 "t1".

Definition sample_after : list Event :=
  [EvTick 5; EvLogout "t2"] ++ sample_present 3 "t2" ++ [EvDecide 3; EvPrune 5000].

Definition ran (es : list Event) : Sys := default (initial 0) (run sample_users es (initial 0)).

Lemma refresh_single_use_witness :
  length (s_claims (ran (sample_replay ++ [EvDecide 2]))) = 1%nat /\
  length (s_reuses (ran (sample_replay ++ [EvDecide 2]))) = 1%nat /\
  NoDup (s_claims (ran (sample_replay ++ [EvDecide 2]))).*1 /\ NoDup (s_reuses (ran (sample_replay ++ [EvDecide 2]))).
Proof.
  split; [vm_compute; reflexivity|]. split; [vm_compute; reflexivity|].
  apply (refresh_single_use sample_users (sample_replay ++ [EvDecide 2]) 0). vm_compute. reflexivity.
Defined.

Lemma refresh_one_live_witness :
  (map_count (unspent_in "f") (tokens (s_db (ran sample_rotation))) <= 1)%nat /\
  map_count (unspent_in "f") (tokens (s_db (ran sample_rotation))) = 1%nat.
Proof.
  split; [|vm_compute; reflexivity].
  apply (refresh_one_live sample_users sample_rotation 0). vm_compute. reflexivity.
Defined.

Definition sample_spent : TokenRow :=
  {| tk_userId := "u"; tk_familyId := "f"; tk_expiresAt := 1000; tk_consumedAt := Some 0 |}.

Lemma refresh_replay_revokes_witness :
  s_procs (ran (sample_replay ++ [EvDecide 2])) !! 2%nat = Some (Ended InvalidToken) /\
  s_claims (ran (sample_replay ++ [EvDecide 2])) = s_claims (ran sample_replay) /\
  exists family, families (s_db (ran (sample_replay ++ [EvDecide 2]))) !! tk_familyId sample_spent = Some family /\
    fam_revoked family <> None.
Proof.
  apply (refresh_replay_revokes sample_users sample_replay 0 (ran sample_replay)
           (ran (sample_replay ++ [EvDecide 2])) 2%nat "t1" sample_spent).
  - vm_compute. reflexivity.
  - vm_compute. left.
  - vm_compute. reflexivity.
  - vm_compute. reflexivity.
Defined.

Lemma refresh_revocation_final_witness :
  (forall token, (token, "f"%string) ∈ s_claims (ran (sample_replay ++ [EvDecide 2] ++ sample_after)) ->
     (token, "f"%string) ∈ s_claims (ran (sample_replay ++ [EvDecide 2]))) /\
  (forall fam', families (s_db (ran (sample_replay ++ [EvDecide 2] ++ sample_after))) !! "f"%string = Some fam' ->
     fam_revoked fam' = Some (0, REUSE_DETECTED)).
Proof.
  apply (refresh_revocation_final sample_users (sample_replay ++ [EvDecide 2]) sample_after 0
           (ran (sample_replay ++ [EvDecide 2])) _ "f" {| fam_userId := "u"; fam_revoked := Some (0, REUSE_DETECTED) |}).
  - vm_compute. reflexivity.
  - vm_compute. reflexivity.
  - reflexivity.
  - vm_compute. reflexivity.
Defined.
