(* ===== verification/SchemaRegistry.v ===== *)
(** * SchemaRegistry: event contracts and their evolution

    [schema-registry]: the closed JSON Schema profile, the compatibility
    checker, the catalogue served as a registry and the compiled contract.
    A schema document is a [JsonValue] whose members are listed in the
    object's own enumeration order; [assertInProfile] narrows it to the
    [SchemaNode] the checker walks.  The validator is Ajv: a parameter, with
    the meaning the JSON Schema draft gives the profile's keywords. *)

From S2P Require Import Prelude Json Outbox.

#[local] Set Warnings "-register-all".

(** ** [json-schema.ts] *)

Definition JSON_SCHEMA_DRAFT : JSText := js "http://json-schema.org/draft-07/schema#".

Inductive PrimitiveType := TString | TNumber | TInteger | TBoolean | TNull.

#[export] Instance PrimitiveType_eq_dec : EqDecision PrimitiveType.
Proof. solve_decision. Defined.

Definition PRIMITIVE_TYPES : list (JSText * PrimitiveType) :=
  [(js "string", TString); (js "number", TNumber); (js "integer", TInteger); (js "boolean", TBoolean);
   (js "null", TNull)].

(** [JsonScalar]; a number is a double in lowest terms, so that equality is
    [===]. *)
Inductive JsonScalar := SString (s : JSText) | SNumber (mantissa exponent : Z) | SBoolean (b : bool) | SNull.

#[export] Instance JsonScalar_eq_dec : EqDecision JsonScalar.
Proof. solve_decision. Defined.

Fixpoint lowest_terms (p : positive) (exponent : Z) : positive * Z :=
  match p with
  | xO p => lowest_terms p (exponent + 1)
  | _ => (p, exponent)
  end.

Definition scalar_of_json (v : JsonValue) : option JsonScalar :=
  match v with
  | JString s => Some (SString s)
  | JNumber 0 _ => Some (SNumber 0 0)
  | JNumber (Zpos p) e => let '(p, e) := lowest_terms p e in Some (SNumber (Zpos p) e)
  | JNumber (Zneg p) e => let '(p, e) := lowest_terms p e in Some (SNumber (Zneg p) e)
  | JBool b => Some (SBoolean b)
  | JNull => Some SNull
  | JArray _ | JObject _ => None
  end.

(** [ObjectSchemaNode], [ArraySchemaNode] and [ScalarSchemaNode]; the absent
    [required] is the empty one, and a single type a list of one. *)
Inductive SchemaNode :=
  | ObjectNode (properties : list (JSText * SchemaNode)) (required : list JSText)
  | ArrayNode (items : SchemaNode)
  | ScalarNode (types : list PrimitiveType) (format : option JSText) (enum : option (list JsonScalar)).

Record SchemaProfileError := { pe_path : JSText; pe_reason : JSText }.

(** The value of a property of an object, by name. *)
Fixpoint own {A} (key : JSText) (members : list (JSText * A)) : option A :=
  match members with
  | [] => None
  | (k, a) :: members => if decide (k = key) then Some a else own key members
  end.

Definition own_member (key : JSText) (members : list (string * JsonValue)) : option JsonValue :=
  own key ((fun kv => (js kv.1, kv.2)) <$> members).

Definition DOCUMENT_KEYWORDS : list JSText := js <$> ["$schema"; "$id"; "title"]%string.
Definition OBJECT_KEYWORDS : list JSText := js <$> ["type"; "description"; "properties"; "required"; "additionalProperties"]%string.
Definition ARRAY_KEYWORDS : list JSText := js <$> ["type"; "description"; "items"]%string.
Definition SCALAR_KEYWORDS : list JSText := js <$> ["type"; "description"; "format"; "enum"]%string.

(** The error monad of the profile check. *)
Definition Checked (A : Type) : Type := SchemaProfileError + A.

Definition refuse {A} (path reason : JSText) : Checked A := inl {| pe_path := path; pe_reason := reason |}.

Definition andThen {A B} (m : Checked A) (f : A -> Checked B) : Checked B :=
  match m with inl e => inl e | inr a => f a end.

Notation "'let?' x := c 'in' k" := (andThen c (fun x => k)) (at level 10, x binder, c at level 200, k at level 200).

Fixpoint traverse {A B} (f : A -> Checked B) (l : list A) : Checked (list B) :=
  match l with
  | [] => inr []
  | a :: l => let? b := f a in let? bs := traverse f l in inr (b :: bs)
  end.

(** [require(condition, path, reason)]: the check's guards. *)
Definition require (condition : bool) (path reason : JSText) : Checked unit :=
  if condition then inr tt else refuse path reason.

Definition quote (s : JSText) : JSText := js dq ++ s ++ js dq.

Definition describe (v : JsonValue) : JSText :=
  match v with
  | JNull => js "null"
  | JArray _ => js "an array"
  | JBool _ => js "boolean"
  | JNumber _ _ => js "number"
  | JString _ => js "string"
  | JObject _ => js "object"
  end.

Definition text_of (v : JsonValue) : option JSText := match v with JString s => Some s | _ => None end.

(** [typeNamesOf(type, path)] *)
Definition typeNamesOf (type : option JsonValue) (path : JSText) : Checked (list JSText) :=
  let bad := refuse path (js dq ++ js "type" ++ js dq ++ js " must be a type name or a non-empty array of them") in
  match type with
  | Some (JString s) => inr [s]
  | Some (JArray l) =>
      match mapM text_of l with
      | Some ((_ :: _) as names) => inr names
      | _ => bad
      end
  | _ => bad
  end.

Definition assertKeywords (members : list (string * JsonValue)) (path : JSText) (allowed : list JSText) : Checked unit :=
  let? _ := traverse (fun kv => require (bool_decide (js kv.1 ∈ allowed)) path
    (quote (js kv.1) ++ js " is not in the profile (allowed here: " ++ join (js ", ") allowed ++ js ")")) members in
  inr tt.

Definition primitive_of (path name : JSText) : Checked PrimitiveType :=
  match own name PRIMITIVE_TYPES with
  | Some t => inr t
  | None => refuse path (quote name ++ js " is not a supported type")
  end.

(** The scalar branch of [assertNodeInProfile]. *)
Definition scalarNode (members : list (string * JsonValue)) (path : JSText) : Checked SchemaNode :=
  let? names := typeNamesOf (own_member (js "type") members) path in
  let? types := traverse (primitive_of path) names in
  let? format :=
    match own_member (js "format") members with
    | None => inr None
    | Some (JString f) => inr (Some f)
    | Some _ => refuse path (quote (js "format") ++ js " must be a string")
    end in
  let? enum :=
    match own_member (js "enum") members with
    | None => inr None
    | Some (JArray ((_ :: _) as values)) =>
        let? scalars := traverse (fun value =>
          match scalar_of_json value with
          | Some s => inr s
          | None => refuse path (quote (js "enum") ++ js " entries must be scalars; objects and arrays are outside the profile")
          end) values in
        inr (Some scalars)
    | Some _ => refuse path (quote (js "enum") ++ js " must be a non-empty array")
    end in
  inr (ScalarNode types format enum).

(** The check of [required] against the declared properties. *)
Definition requiredNames (required : option JsonValue) (path : JSText) (declared : list JSText) : Checked (list JSText) :=
  match required with
  | None => inr []
  | Some v =>
      match match v with JArray l => mapM text_of l | _ => None end with
      | None => refuse path (quote (js "required") ++ js " must be an array of strings")
      | Some names =>
          traverse (fun key =>
            let? _ := require (bool_decide (key ∈ declared \/ key ∈ objectPrototype)) path
              (quote key ++ js " is required but has no entry in " ++ quote (js "properties")) in
            inr key) names
      end
  end.

Definition additionalProperties_reason : JSText :=
  quote (js "additionalProperties") ++
  js " must be true or absent. A closed content model cannot be evolved: adding a field breaks every consumer that has not been redeployed, because their schema forbids the field they have not heard of".

(** [assertNodeInProfile(asRecord(value, path), path, extraKeywords)], with
    the node it accepts. *)
Fixpoint assertNodeInProfile (value : JsonValue) (path : JSText) (extraKeywords : list JSText) : Checked SchemaNode :=
  match value with
  | JObject members =>
      (* the checks of this node's grandchildren and of its children *)
      let grandchildren := (fun kv => (js kv.1,
        match kv.2 with JObject ps => Some ((fun p => (js p.1, assertNodeInProfile p.2)) <$> ps) | _ => None end)) <$> members in
      let children := (fun kv => (js kv.1, assertNodeInProfile kv.2)) <$> members in
      match own_member (js "type") members with
      | Some (JString type) =>
          if decide (type = js "object") then
            let? _ := assertKeywords members path (OBJECT_KEYWORDS ++ extraKeywords) in
            match own_member (js "properties") members, own (js "properties") grandchildren with
            | Some _, Some (Some checks) =>
                let? properties := traverse (fun check =>
                  let? child := check.2 (path ++ js "/properties/" ++ check.1) [] in inr (check.1, child)) checks in
                let? required := requiredNames (own_member (js "required") members) path properties.*1 in
                let? _ := require
                  match own_member (js "additionalProperties") members with None | Some (JBool true) => true | Some _ => false end
                  path additionalProperties_reason in
                inr (ObjectNode properties required)
            | Some v, _ => refuse (path ++ js "/properties") (js "expected a JSON object, got " ++ describe v)
            | None, _ => refuse path (js "an object schema must declare " ++ quote (js "properties"))
            end
          else if decide (type = js "array") then
            let? _ := assertKeywords members path (ARRAY_KEYWORDS ++ extraKeywords) in
            match own_member (js "items") members, own (js "items") children with
            | Some (JArray _), _ => refuse path (js "tuple-form " ++ quote (js "items") ++
                js " is outside the profile; positional element types have their own compatibility rules and none are implemented")
            | Some _, Some check => let? items := check (path ++ js "/items") [] in inr (ArrayNode items)
            | _, _ => refuse path (js "an array schema must declare " ++ quote (js "items"))
            end
          else
            let? _ := assertKeywords members path (SCALAR_KEYWORDS ++ extraKeywords) in scalarNode members path
      | _ => let? _ := assertKeywords members path (SCALAR_KEYWORDS ++ extraKeywords) in scalarNode members path
      end
  | v => refuse path (js "expected a JSON object, got " ++ describe v)
  end.

(** [assertInProfile(document, path)] *)
Definition assertInProfile (document : JsonValue) (path : JSText) : Checked SchemaNode :=
  match document with
  | JObject root =>
      let? _ := traverse (fun keyword => require
        match own_member keyword root with Some (JString _) => true | _ => false end
        path (quote keyword ++ js " must be a string")) DOCUMENT_KEYWORDS in
      let? _ := require
        match own_member (js "$schema") root with Some (JString s) => bool_decide (s = JSON_SCHEMA_DRAFT) | _ => false end
        path (quote (js "$schema") ++ js " must be " ++ quote JSON_SCHEMA_DRAFT) in
      let? _ := require
        match own_member (js "type") root with Some (JString s) => bool_decide (s = js "object") | _ => false end
        path (js "the document root must be an object schema") in
      assertNodeInProfile document path DOCUMENT_KEYWORDS
  | v => refuse path (js "expected a JSON object, got " ++ describe v)
  end.

(** ** [compatibility.ts] *)

Inductive CompatibilityDirection := Backward | Forward.

#[export] Instance CompatibilityDirection_eq_dec : EqDecision CompatibilityDirection.
Proof. solve_decision. Defined.

Definition BOTH_DIRECTIONS : list CompatibilityDirection := [Backward; Forward].

Record Incompatibility := {
  ic_path : JSText;
  ic_rule : JSText;
  ic_breaks : list CompatibilityDirection;
  ic_detail : JSText;
}.

(** The checks append to [findings] and may throw. *)
Abbreviation Check := (Eff (list Incompatibility) SchemaProfileError unit).

Definition push (path : JSText) (rule : string) (breaks : list CompatibilityDirection) (detail : JSText) : Check :=
  modify (fun findings => findings ++
    [{| ic_path := path; ic_rule := js rule; ic_breaks := breaks; ic_detail := detail |}]).

Definition when (b : bool) (m : Check) : Check := if b then m else ret tt.

Fixpoint forEach {A} (f : A -> Check) (l : list A) : Check :=
  match l with
  | [] => ret tt
  | a :: l => do! f a in forEach f l
  end.

Inductive Kind := KObject | KArray | KScalar.

#[export] Instance Kind_eq_dec : EqDecision Kind.
Proof. solve_decision. Defined.

Definition kindOf (node : SchemaNode) : Kind :=
  match node with ObjectNode _ _ => KObject | ArrayNode _ => KArray | ScalarNode _ _ _ => KScalar end.

Definition kind_name (k : Kind) : JSText :=
  match k with KObject => js "object" | KArray => js "array" | KScalar => js "scalar" end.

Definition kind_changed (path : JSText) (previousKind nextKind : Kind) : Check :=
  push path "kind-changed" BOTH_DIRECTIONS
    (js "changed from " ++ kind_name previousKind ++ js " to " ++ kind_name nextKind ++
     js "; neither reader can read the other's data").

(** [covers(superset, subset)] *)
Definition covers (superset subset : list PrimitiveType) : bool :=
  forallb (fun type => bool_decide (type ∈ superset) ||
    (bool_decide (type = TInteger) && bool_decide (TNumber ∈ superset))) subset.

(** [format(types)]: the distinct names, sorted. *)
Definition format (types : list PrimitiveType) : JSText :=
  join (js "|") (fst <$> filter (fun nt => nt.2 ∈ types)
    [(js "boolean", TBoolean); (js "integer", TInteger); (js "null", TNull); (js "number", TNumber); (js "string", TString)]).

Definition every_in (a b : list JsonScalar) : bool := forallb (fun value => bool_decide (value ∈ b)) a.

Definition enumBreaks (previous next : list JsonScalar) : list CompatibilityDirection :=
  (if every_in previous next then [] else [Backward]) ++ (if every_in next previous then [] else [Forward]).

(** [compareConstraint(previous, next, path, keyword, findings, equal, show,
    whenDifferent)] *)
Definition compareConstraint {T} (previous next : option T) (path : JSText) (keyword : string)
    (equal : T -> T -> bool) (show : T -> JSText) (whenDifferent : T -> T -> list CompatibilityDirection) : Check :=
  let name := quote (js keyword) in
  match previous, next with
  | None, None => ret tt
  | None, Some b =>
      push path (keyword +:+ "-added") [Backward]
        (name ++ js " " ++ show b ++ js " is new; values already written are not constrained by it")
  | Some a, None =>
      push path (keyword +:+ "-removed") [Forward]
        (name ++ js " " ++ show a ++ js " was removed; a writer on the new schema may emit values a reader still on the old one rejects")
  | Some a, Some b =>
      when (negb (equal a b)) (push path (keyword +:+ "-changed") (whenDifferent a b)
        (name ++ js " went from " ++ show a ++ js " to " ++ show b))
  end.

(** The distinct keys of two objects, in a [Set]'s order. *)
Definition keys_of (l : list JSText) : list JSText :=
  foldl (fun acc key => if decide (key ∈ acc) then acc else acc ++ [key]) [] l.

(** What an indexed read of [properties] finds. *)
Inductive Found (A : Type) := Own (a : A) | Inherited | Undefined.
Arguments Own {_} _.
Arguments Inherited {_}.
Arguments Undefined {_}.

Definition read {A} (key : JSText) (properties : list (JSText * A)) : Found A :=
  match own key properties with
  | Some a => Own a
  | None => if decide (key ∈ objectPrototype) then Inherited else Undefined
  end.

Section compare.
(** [JSON.stringify] of a scalar, for the diagnostics. *)
Context (stringify : JsonScalar -> JSText).

Definition show_enum (values : list JsonScalar) : JSText := js "[" ++ join (js ", ") (stringify <$> values) ++ js "]".

Definition compareScalars (previousTypes nextTypes : list PrimitiveType) (previousFormat nextFormat : option JSText)
    (previousEnum nextEnum : option (list JsonScalar)) (path : JSText) : Check :=
  let typeBreaks := (if covers nextTypes previousTypes then [] else [Backward]) ++
                    (if covers previousTypes nextTypes then [] else [Forward]) in
  do! when (bool_decide (0 < length typeBreaks)%nat)
        (push path "type-changed" typeBreaks (js "type went from " ++ format previousTypes ++ js " to " ++ format nextTypes)) in
  do! compareConstraint previousEnum nextEnum path "enum" (fun a b => every_in a b && every_in b a) show_enum enumBreaks in
  compareConstraint previousFormat nextFormat path "format" (fun a b => bool_decide (a = b)) quote (fun _ _ => BOTH_DIRECTIONS).

(** [compareNodes] when one side is a name every object inherits: a value with
    no [type], so a scalar node whose types cannot be read. *)
Definition compareInherited (node : SchemaNode) (inheritedFirst : bool) (path : JSText) : Check :=
  if decide (kindOf node = KScalar) then
    throw {| pe_path := path; pe_reason := quote (js "type") ++ js " must be a type name or a non-empty array of them" |}
  else if inheritedFirst then kind_changed path KScalar (kindOf node) else kind_changed path (kindOf node) KScalar.

(** The two rules on a property both schemas have. *)
Definition requiredness (previousRequired nextRequired : list JSText) (key childPath : JSText) : Check :=
  do! when (bool_decide (key ∉ previousRequired) && bool_decide (key ∈ nextRequired))
        (push childPath "optional-became-required" [Backward]
           (quote key ++ js " was optional and is now required; data already written may omit it, and a reader on the new schema rejects it")) in
  when (bool_decide (key ∈ previousRequired) && bool_decide (key ∉ nextRequired))
    (push childPath "required-became-optional" [Forward]
       (quote key ++ js " was required and is now optional; a writer on the new schema may omit it, and a reader still on the old one rejects that")).

(** One turn of [compareObjects]' loop; a property of the previous schema is
    given with the comparison against it. *)
Definition compareProperty (before : Found (SchemaNode * (SchemaNode -> JSText -> Check))) (after : Found SchemaNode)
    (previousRequired nextRequired : list JSText) (key childPath : JSText) : Check :=
  match before, after with
  | Own (_, compare), Own a =>
      do! requiredness previousRequired nextRequired key childPath in compare a childPath
  | Own (b, _), Inherited =>
      do! requiredness previousRequired nextRequired key childPath in compareInherited b false childPath
  | Inherited, Own a =>
      do! requiredness previousRequired nextRequired key childPath in compareInherited a true childPath
  | Inherited, Inherited =>
      do! requiredness previousRequired nextRequired key childPath in
      throw {| pe_path := childPath; pe_reason := quote (js "type") ++ js " must be a type name or a non-empty array of them" |}
  | (Own _ | Inherited), Undefined =>
      when (bool_decide (key ∈ previousRequired))
        (push childPath "required-property-removed" [Forward]
           (js "required " ++ quote key ++ js " was removed; a writer on the new schema omits it, and a reader still on the old one requires it"))
  | Undefined, _ =>
      when (bool_decide (key ∈ nextRequired))
        (push childPath "required-property-added" [Backward]
           (quote key ++ js " is new and required; nothing already written contains it, so a reader on the new schema rejects the whole history. Add it as optional instead"))
  end.

(** [compareNodes(previous, next, path, findings)] *)
Fixpoint compareNodes (previous next : SchemaNode) (path : JSText) : Check :=
  match previous, next with
  | ObjectNode previousProperties previousRequired, ObjectNode nextProperties nextRequired =>
      let comparers := (fun kn => (kn.1, (kn.2, compareNodes kn.2))) <$> previousProperties in
      forEach (fun key =>
          compareProperty (read key comparers) (read key nextProperties) previousRequired nextRequired key
            (path ++ js "/properties/" ++ key))
        (keys_of (previousProperties.*1 ++ nextProperties.*1))
  | ArrayNode previousItems, ArrayNode nextItems => compareNodes previousItems nextItems (path ++ js "/items")
  | ScalarNode previousTypes previousFormat previousEnum, ScalarNode nextTypes nextFormat nextEnum =>
      compareScalars previousTypes nextTypes previousFormat nextFormat previousEnum nextEnum path
  | _, _ => kind_changed path (kindOf previous) (kindOf next)
  end.

(** [checkCompatibility(previous, next)] *)
Definition checkCompatibility (previous next : JsonValue) : Checked (list Incompatibility) :=
  let? p := assertInProfile previous (js "#(previous)") in
  let? n := assertInProfile next (js "#(next)") in
  match compareNodes p n (js "#") [] with
  | (inl e, _) => inl e
  | (inr _, findings) => inr findings
  end.

(** What the registry and the contract throw. *)
Inductive RegistryError :=
  | SchemaProfile (e : SchemaProfileError)
  | IncompatibleEvolutionError (subject : string) (previousVersion nextVersion : nat) (findings : list Incompatibility)
  | SubjectNotRegisteredError (subject : string) (known : list string)
  | SchemaCompilationError (subject : string) (version : nat) (cause : JSText)
  | SchemaValidationError (subject : string) (version : nat) (violations : list JSText).

Record RegisteredSchema := { rs_subject : string; rs_version : nat; rs_schema : JsonValue }.

Definition orThrow {A B} (m : RegistryError + A) (f : A -> RegistryError + B) : RegistryError + B :=
  match m with inl e => inl e | inr a => f a end.

Definition assertFullyCompatible (subject : string) (previous next : RegisteredSchema) : RegistryError + unit :=
  match checkCompatibility (rs_schema previous) (rs_schema next) with
  | inl e => inl (SchemaProfile e)
  | inr [] => inr tt
  | inr findings => inl (IncompatibleEvolutionError subject (rs_version previous) (rs_version next) findings)
  end.

Fixpoint assertAll {A} (f : A -> RegistryError + unit) (l : list A) : RegistryError + unit :=
  match l with
  | [] => inr tt
  | a :: l => orThrow (f a) (fun _ => assertAll f l)
  end.

(** [assertHistoryIsFullyCompatible(subject, versions)]: every version against
    every later one. *)
Fixpoint assertHistoryIsFullyCompatible (subject : string) (versions : list RegisteredSchema) : RegistryError + unit :=
  match versions with
  | [] => inr tt
  | older :: newer =>
      orThrow (assertAll (assertFullyCompatible subject older) newer)
        (fun _ => assertHistoryIsFullyCompatible subject newer)
  end.

End compare.

(** ** [local-schema-registry.ts] *)

Section registry.
Context (stringify : JsonScalar -> JSText).

(** [versions] of one subject: numbered by position, each in the profile. *)
Fixpoint number_versions (subject : string) (index : nat) (history : list JsonValue) : RegistryError + list RegisteredSchema :=
  match history with
  | [] => inr []
  | schema :: history =>
      match assertInProfile schema (js ("#(" +:+ subject +:+ " v" +:+ pretty (S index) +:+ ")")) with
      | inl e => inl (SchemaProfile e)
      | inr _ => orThrow (number_versions subject (S index) history)
          (fun versions => inr ({| rs_subject := subject; rs_version := S index; rs_schema := schema |} :: versions))
      end
  end.

Definition register_subject (subject : string) (history : list JsonValue) : RegistryError + list RegisteredSchema :=
  if decide (history = []) then inl (SubjectNotRegisteredError subject [])
  else
    orThrow (number_versions subject 0 history) (fun versions =>
    orThrow (assertHistoryIsFullyCompatible stringify subject versions) (fun _ => inr versions)).

(** [LocalSchemaRegistry], as its [bySubject] map in insertion order. *)
Definition LocalSchemaRegistry : Type := list (string * list RegisteredSchema).

Fixpoint build_registry (catalogue : string -> list JsonValue) (names : list string) : RegistryError + LocalSchemaRegistry :=
  match names with
  | [] => inr []
  | subject :: names =>
      orThrow (register_subject subject (catalogue subject)) (fun versions =>
      orThrow (build_registry catalogue names) (fun rest => inr ((subject, versions) :: rest)))
  end.

(** [new LocalSchemaRegistry(catalogue)] *)
Definition new_registry (catalogue : string -> list JsonValue) : RegistryError + LocalSchemaRegistry :=
  build_registry catalogue DOMAIN_EVENT_NAMES.

End registry.

Definition subjects (r : LocalSchemaRegistry) : list string := r.*1.

Fixpoint versions (r : LocalSchemaRegistry) (known : list string) (subject : string) : RegistryError + list RegisteredSchema :=
  match r with
  | [] => inl (SubjectNotRegisteredError subject known)
  | (s, history) :: r => if decide (s = subject) then inr history else versions r known subject
  end.

Definition latest (r : LocalSchemaRegistry) (subject : string) : RegistryError + option RegisteredSchema :=
  orThrow (versions r (subjects r) subject) (fun history => inr (last history)).

(** ** [event-contract.service.ts] *)

Section contract.
(** [ajv.compile(schema)]: a message, or a validating function with the
    errors it reports. *)
Context (compile : JsonValue -> JSText + (JsonValue -> list JSText + unit)).

Definition Validator : Type := nat * (JsonValue -> list JSText + unit).

(** The constructor's inner loop: every version is compiled, the reader's is
    kept. *)
Fixpoint compile_versions (subject : string) (readerVersion : nat) (history : list RegisteredSchema) (kept : option Validator) :
    RegistryError + option Validator :=
  match history with
  | [] => inr kept
  | registered :: history =>
      match compile (rs_schema registered) with
      | inl cause => inl (SchemaCompilationError subject (rs_version registered) cause)
      | inr fn =>
          compile_versions subject readerVersion history
            (if decide (rs_version registered = readerVersion) then Some (rs_version registered, fn) else kept)
      end
  end.

Fixpoint compile_subjects (r : LocalSchemaRegistry) (names : list string) : RegistryError + list (string * Validator) :=
  match names with
  | [] => inr []
  | subject :: names =>
      orThrow (latest r subject) (fun reader =>
      orThrow (versions r (subjects r) subject) (fun history =>
      orThrow (compile_versions subject (from_option rs_version 0%nat reader) history None) (fun kept =>
      orThrow (compile_subjects r names) (fun rest =>
      inr (match kept with Some v => (subject, v) :: rest | None => rest end)))))
  end.

(** [new EventContract(registry)] *)
Definition EventContract (r : LocalSchemaRegistry) : RegistryError + list (string * Validator) := compile_subjects r (subjects r).

Fixpoint find_validator (validators : list (string * Validator)) (name : string) : option Validator :=
  match validators with
  | [] => None
  | (s, v) :: validators => if decide (s = name) then Some v else find_validator validators name
  end.

(** [validate(name, payload)] *)
Definition validate (validators : list (string * Validator)) (name : string) (payload : JsonValue) : RegistryError + nat :=
  match find_validator validators name with
  | None => inl (SchemaValidationError name 0 [js "no compiled schema for " ++ quote (js name)])
  | Some (version, fn) =>
      match fn payload with
      | inr _ => inr version
      | inl violations => inl (SchemaValidationError name version violations)
      end
  end.

End contract.

(** ** The catalogue *)

Definition jstr (s : string) : JsonValue := JString (js s).

Definition em_dash : JSText := [8212%N].

(** [{ type, description }] *)
Definition typed (type : JsonValue) (description : string) : JsonValue :=
  JObject [("type"%string, type); ("description"%string, jstr description)].

Definition document (subject : string) (description : JSText) (properties : list (string * JsonValue)) (required : list string) : JsonValue :=
  JObject [("$schema"%string, JString JSON_SCHEMA_DRAFT);
           ("$id"%string, jstr ("urn:boilerplate-nestjs-api:schema:" +:+ subject +:+ ":1"));
           ("title"%string, jstr (subject +:+ " v1"));
           ("description"%string, JString description);
           ("type"%string, jstr "object");
           ("additionalProperties"%string, JBool true);
           ("properties"%string, JObject properties);
           ("required"%string, JArray (jstr <$> required))].

Definition string_or_null : JsonValue := JArray [jstr "string"; jstr "null"].

Definition USER_REGISTERED_SCHEMAS : list JsonValue :=
  [document "user.registered" (js "A new account exists " ++ em_dash ++ js " email + password, or an OAuth profile.")
     [("userId"%string, typed (jstr "string") "The new user's id.");
      ("email"%string, typed (jstr "string") "The address the account was created with.");
      ("name"%string, typed string_or_null "Display name, or null when the profile did not supply one.");
      ("provider"%string, typed string_or_null (dq +:+ "google" +:+ dq +:+ " for OAuth sign-ups, null for email + password."))]
     ["userId"; "email"; "name"; "provider"]%string].

Definition USER_DELETED_SCHEMAS : list JsonValue :=
  [document "user.deleted" (js "An account is gone. Emitted after the row is deleted, not before.")
     [("userId"%string, typed (jstr "string") "The id of the account that was deleted.");
      ("email"%string, typed (jstr "string") "Carried on the event because the row no longer exists to be read.")]
     ["userId"; "email"]%string].

Definition ORDER_PLACED_SCHEMAS : list JsonValue :=
  [document "order.placed" (js "A customer has asked to buy something. Nothing is reserved, charged or shipped.")
     [("orderId"%string, typed (jstr "string") "The new order's id.");
      ("userId"%string, typed (jstr "string") "Who placed it.");
      ("totalMinor"%string, typed (jstr "integer") "Order total in minor units of `currency`.");
      ("currency"%string, typed (jstr "string") "Upper-case ISO 4217 alphabetic code.");
      ("lineCount"%string, typed (jstr "integer") "How many lines the order has.")]
     ["orderId"; "userId"; "totalMinor"; "currency"; "lineCount"]%string].

Definition ORDER_CONFIRMED_SCHEMAS : list JsonValue :=
  [document "order.confirmed" (js "Paid and shipped. The checkout saga completed.")
     [("orderId"%string, typed (jstr "string") "The order that was confirmed.");
      ("userId"%string, typed (jstr "string") "Whose order it is.");
      ("paymentId"%string, typed (jstr "string") "The gateway's payment id, for reconciliation.");
      ("shipmentId"%string, typed (jstr "string") "The carrier booking.")]
     ["orderId"; "userId"; "paymentId"; "shipmentId"]%string].

Definition ORDER_CANCELLED_SCHEMAS : list JsonValue :=
  [document "order.cancelled" (js "A checkout that could not be completed and was unwound.")
     [("orderId"%string, typed (jstr "string") "The order that was cancelled.");
      ("userId"%string, typed (jstr "string") "Whose order it was.");
      ("reason"%string, typed (jstr "string") "The failing step's message, as the customer will be shown it.")]
     ["orderId"; "userId"; "reason"]%string].

Definition SCHEMA_CATALOGUE (subject : string) : list JsonValue :=
  if decide (subject = "user.registered")%string then USER_REGISTERED_SCHEMAS
  else if decide (subject = "user.deleted")%string then USER_DELETED_SCHEMAS
  else if decide (subject = "order.placed")%string then ORDER_PLACED_SCHEMAS
  else if decide (subject = "order.confirmed")%string then ORDER_CONFIRMED_SCHEMAS
  else if decide (subject = "order.cancelled")%string then ORDER_CANCELLED_SCHEMAS
  else [].

Definition REFERENCE_PAYLOADS : list (string * JsonValue) :=
  [("user.registered", JObject [("userId", jstr "00000000-0000-4000-8000-000000000001");
      ("email", jstr "reference-user@example.test"); ("name", jstr "Reference User"); ("provider", JNull)]);
   ("user.deleted", JObject [("userId", jstr "00000000-0000-4000-8000-000000000002");
      ("email", jstr "reference-deleted@example.test")]);
   ("order.placed", JObject [("orderId", jstr "00000000-0000-4000-8000-000000000010");
      ("userId", jstr "00000000-0000-4000-8000-000000000001"); ("totalMinor", JNumber 4999 0); ("currency", jstr "GBP");
      ("lineCount", JNumber 2 0)]);
   ("order.confirmed", JObject [("orderId", jstr "00000000-0000-4000-8000-000000000010");
      ("userId", jstr "00000000-0000-4000-8000-000000000001"); ("paymentId", jstr "pay_reference_000001");
      ("shipmentId", jstr "00000000-0000-4000-8000-000000000010:create-shipment")]);
   ("order.cancelled", JObject [("orderId", jstr "00000000-0000-4000-8000-000000000011");
      ("userId", jstr "00000000-0000-4000-8000-000000000001"); ("reason", jstr ("No carrier serves " +:+ dq +:+ "AQ" +:+ dq))])]%string.
