(* ===== verification/SchemaTheorems.v ===== *)
(** * SchemaTheorems: the compatibility checker is sound

    What a validator of the profile means, as an interface; that a pair of
    schemas without a finding in a direction can be read in that direction;
    and what follows for the registry and the contract. *)

From S2P Require Import Prelude Json Outbox SchemaRegistry.

(** ** The meaning of the profile *)

Definition integral (mantissa exponent : Z) : bool :=
  bool_decide (0 <= exponent) || bool_decide (mantissa mod 2 ^ (- exponent) = 0).

Definition hasType (t : PrimitiveType) (v : JsonValue) : bool :=
  match t, v with
  | TString, JString _ | TNumber, JNumber _ _ | TBoolean, JBool _ | TNull, JNull => true
  | TInteger, JNumber m e => integral m e
  | _, _ => false
  end.

(** Names no object inherits, each declared once. *)
Definition plain_names (names : list JSText) : bool :=
  bool_decide (NoDup names) && forallb (fun k => bool_decide (k ∉ objectPrototype)) names.

Fixpoint plain (n : SchemaNode) : bool :=
  match n with
  | ObjectNode properties required =>
      plain_names properties.*1 && forallb (fun k => bool_decide (k ∉ objectPrototype)) required &&
      forallb (fun kn => plain kn.2) properties
  | ArrayNode items => plain items
  | ScalarNode _ _ _ => true
  end.

(** A validator that gives the profile's keywords the meaning the draft gives
    them, formats being its own. *)
Class ProfileValidator (formatOk : JSText -> JsonValue -> bool) (valid : SchemaNode -> JsonValue -> bool) : Prop := {
  valid_object : forall properties required v,
    plain_names properties.*1 = true -> required ⊆ properties.*1 ->
    valid (ObjectNode properties required) v = true <->
    exists members, v = JObject members /\ (forall k, k ∈ required -> is_Some (own_member k members)) /\
      (forall k child x, own k properties = Some child -> own_member k members = Some x -> valid child x = true);
  valid_array : forall items v,
    valid (ArrayNode items) v = true <-> exists l, v = JArray l /\ Forall (fun x => valid items x = true) l;
  valid_scalar : forall types format enum v,
    valid (ScalarNode types format enum) v = true <->
    (exists t, t ∈ types /\ hasType t v = true) /\ (forall f, format = Some f -> formatOk f v = true) /\
    (forall values, enum = Some values -> exists s, scalar_of_json v = Some s /\ s ∈ values);
}.

(** A payload that has only declared properties, at every depth. *)
Fixpoint declared (n : SchemaNode) (v : JsonValue) : bool :=
  match n, v with
  | ObjectNode properties _, JObject members =>
      let checks := (fun kn => (kn.1, declared kn.2)) <$> properties in
      forallb (fun kv => match own (js kv.1) checks with Some check => check kv.2 | None => false end) members
  | ArrayNode items, JArray l => forallb (declared items) l
  | _, _ => true
  end.

(** ** Nested induction *)

Lemma SchemaNode_nested_ind (P : SchemaNode -> Prop) :
  (forall properties required, Forall (fun kn => P kn.2) properties -> P (ObjectNode properties required)) ->
  (forall items, P items -> P (ArrayNode items)) ->
  (forall types format enum, P (ScalarNode types format enum)) -> forall n, P n.
Proof.
  intros Hobj Harr Hsc. fix IH 1. intros [properties required|items|types format enum].
  - apply Hobj. induction properties as [|[k n] l IHl]; constructor; [apply IH|exact IHl].
  - apply Harr, IH.
  - apply Hsc.
Qed.

(** ** Reading properties *)

Lemma own_fmap {A B} (f : A -> B) k (l : list (JSText * A)) :
  own k ((fun kn => (kn.1, f kn.2)) <$> l) = f <$> own k l.
Proof. induction l as [|[k' a] l IH]; simpl; [done|]. by case_decide. Qed.

Lemma own_Some_elem {A} k (l : list (JSText * A)) a : own k l = Some a -> (k, a) ∈ l.
Proof.
  induction l as [|[k' a'] l IH]; simpl; [done|]. case_decide; [intros [= ->]; subst; left|].
  intros ?%IH. by right.
Qed.

Lemma own_is_Some {A} k (l : list (JSText * A)) : is_Some (own k l) <-> k ∈ l.*1.
Proof.
  induction l as [|[k' a'] l IH]; simpl.
  - split; [by intros []|intros []%elem_of_nil].
  - rewrite elem_of_cons. case_decide; [subst; naive_solver|]. rewrite IH. naive_solver.
Qed.

Lemma elem_of_keys_of k l : k ∈ keys_of l <-> k ∈ l.
Proof.
  unfold keys_of. enough (forall acc, k ∈ foldl (fun acc key => if decide (key ∈ acc) then acc else acc ++ [key]) acc l <->
    k ∈ acc \/ k ∈ l) as H by (rewrite H; set_solver).
  induction l as [|x l IH]; intros acc; simpl; [set_solver|]. rewrite IH. case_decide; set_solver.
Qed.

(** ** Findings only grow *)

Definition grows (m : Check) : Prop := forall w r w', m w = (r, w') -> w `prefix_of` w'.

Lemma grows_ret : grows (ret tt).
Proof. by intros w r w' [= _ <-]. Qed.

Lemma grows_throw e : grows (throw e).
Proof. by intros w r w' [= _ <-]. Qed.

Lemma grows_push path rule breaks detail : grows (push path rule breaks detail).
Proof. intros w r w' [= _ <-]. by eexists. Qed.

Lemma grows_bind (m : Check) k : grows m -> grows k -> grows (do! m in k).
Proof.
  intros Hm Hk w r w'. unfold bind. destruct (m w) as [[e|u] w1] eqn:E.
  - intros [= _ <-]. by eapply Hm.
  - intros H. etrans; [by eapply Hm|by eapply Hk].
Qed.

Lemma grows_when b m : grows m -> grows (when b m).
Proof. destruct b; [done|]. intros _. apply grows_ret. Qed.

Lemma grows_forEach {A} (f : A -> Check) l : (forall a, grows (f a)) -> grows (forEach f l).
Proof. intros Hf. induction l; simpl; [apply grows_ret|by apply grows_bind]. Qed.

#[export] Hint Resolve grows_ret grows_throw grows_push grows_bind grows_when : service.

Lemma grows_compareConstraint {T} (a b : option T) path keyword equal show different :
  grows (compareConstraint a b path keyword equal show different).
Proof. destruct a, b; simpl; eauto with service. Qed.

Lemma grows_compareInherited n b path : grows (compareInherited n b path).
Proof. unfold compareInherited, kind_changed. repeat case_decide; [|destruct b]; eauto with service. Qed.

Lemma grows_requiredness p n key path : grows (requiredness p n key path).
Proof. unfold requiredness. eauto with service. Qed.

#[export] Hint Resolve grows_compareConstraint grows_compareInherited grows_requiredness : service.

Lemma grows_compareProperty before after p n key path :
  (forall b compare, before = Own (b, compare) -> forall a path, grows (compare a path)) ->
  grows (compareProperty before after p n key path).
Proof. intros Hb. destruct before as [[b compare]| |], after; simpl; eauto 6 with service. Qed.

Lemma grows_compareNodes stringify p n path : grows (compareNodes stringify p n path).
Proof.
  revert n path. induction p as [pp pr IH|items IH|types fmt enum] using SchemaNode_nested_ind; intros [np nr|nitems|ntypes nfmt nenum] path;
    simpl; unfold kind_changed, compareScalars; eauto with service.
  apply grows_forEach. intros key. apply grows_compareProperty. intros b compare. unfold read.
  rewrite (own_fmap (fun n => (n, compareNodes stringify n))).
  destruct (own key pp) as [b'|] eqn:Hb; simpl; [|by case_decide]. intros [= <- <-] a path'.
  apply own_Some_elem in Hb. rewrite Forall_forall in IH. apply (IH _ Hb).
Qed.

(** A list of findings that leaves one direction alone. *)
Definition clean (d : CompatibilityDirection) (findings : list Incompatibility) : Prop :=
  forall f, f ∈ findings -> d ∉ ic_breaks f.

Lemma clean_prefix d w w' : w `prefix_of` w' -> clean d w' -> clean d w.
Proof. intros [k ->] Hc f Hf. apply Hc. set_solver. Qed.

Lemma push_clean d path rule breaks detail w r w' :
  push path rule breaks detail w = (r, w') -> clean d w' -> d ∉ breaks.
Proof. intros [= _ <-] Hc. apply (Hc {| ic_path := path; ic_rule := js rule; ic_breaks := breaks; ic_detail := detail |}). set_solver. Qed.

Lemma do_inr (m k : Check) w w' :
  (do! m in k) w = (inr tt, w') -> exists w1, m w = (inr tt, w1) /\ k w1 = (inr tt, w').
Proof. intros H. apply bind_inr in H as ([] & w1 & ? & ?). eauto. Qed.

Lemma forEach_inr {A} (f : A -> Check) l w w' a :
  (forall a, grows (f a)) -> forEach f l w = (inr tt, w') -> a ∈ l ->
  exists w1 w2, f a w1 = (inr tt, w2) /\ w2 `prefix_of` w'.
Proof.
  intros Hg. revert w. induction l as [|x l IH]; intros w; simpl; [intros _ []%elem_of_nil|].
  intros (w1 & Hx & Hl)%do_inr [->|Hin]%elem_of_cons; [|eauto].
  exists w, w1. split; [done|]. by eapply grows_forEach.
Qed.

Lemma when_push_clean d (b : bool) path rule breaks detail w w' :
  when b (push path rule breaks detail) w = (inr tt, w') -> clean d w' -> d ∈ breaks -> b = false.
Proof. destruct b; [|done]. intros H Hc Hd. by destruct (push_clean _ _ _ _ _ _ _ _ H Hc). Qed.

(** ** Soundness *)

(** A node whose required names are its own. *)
Fixpoint wf (n : SchemaNode) : Prop :=
  match n with
  | ObjectNode properties required =>
      plain_names properties.*1 = true /\ required ⊆ properties.*1 /\
      foldr (fun kn P => wf kn.2 /\ P) True properties
  | ArrayNode items => wf items
  | ScalarNode _ _ _ => True
  end.

Lemma wf_child properties required k n : wf (ObjectNode properties required) -> own k properties = Some n -> wf n.
Proof.
  intros (_ & _ & Hc) Hk%own_Some_elem. induction properties as [|[k' n'] l IH]; [by apply elem_of_nil in Hk|].
  destruct Hc as [Hn Hl]. apply elem_of_cons in Hk as [[= -> ->]|Hk]; auto.
Qed.

Lemma plain_names_spec names k : plain_names names = true -> k ∈ names -> k ∉ objectPrototype.
Proof.
  unfold plain_names. intros [_ H]%andb_true_iff Hk. rewrite forallb_forall in H.
  apply list_elem_of_In, H in Hk. by apply bool_decide_eq_true in Hk.
Qed.

Lemma read_own {A} key (l : list (JSText * A)) a : own key l = Some a -> read key l = Own a.
Proof. unfold read. by intros ->. Qed.

Lemma read_undefined {A} key (l : list (JSText * A)) : own key l = None -> key ∉ objectPrototype -> read key l = Undefined.
Proof. unfold read. intros ->. intros. by rewrite decide_False. Qed.

Section sound.
Context (stringify : JsonScalar -> JSText).

(** What a run of [compareObjects] says of one property. *)
Lemma compareObjects_property pp pr np nr path w w' key :
  compareNodes stringify (ObjectNode pp pr) (ObjectNode np nr) path w = (inr tt, w') ->
  key ∈ pp.*1 \/ key ∈ np.*1 ->
  exists w1 w2 childPath, w2 `prefix_of` w' /\
    compareProperty (match read key pp with Own b => Own (b, compareNodes stringify b) | Inherited => Inherited | Undefined => Undefined end)
      (read key np) pr nr key childPath w1 = (inr tt, w2).
Proof.
  simpl. intros Hrun Hkey.
  eapply forEach_inr in Hrun as (w1 & w2 & Hp & Hpre); [| |apply elem_of_keys_of; rewrite elem_of_app; exact Hkey].
  - exists w1, w2, (path ++ js "/properties/" ++ key). split; [done|]. rewrite <-Hp. f_equal. unfold read.
    rewrite (own_fmap (fun n => (n, compareNodes stringify n))). destruct (own key pp); simpl; [done|]. by case_decide.
  - intros k. apply grows_compareProperty. intros b compare. unfold read.
    rewrite (own_fmap (fun n => (n, compareNodes stringify n))).
    destruct (own k pp) as [b'|]; simpl; [|by case_decide]. intros [= <- <-] a path'. apply grows_compareNodes.
Qed.

Lemma property_kept pp pr np nr path w w' key b a :
  compareNodes stringify (ObjectNode pp pr) (ObjectNode np nr) path w = (inr tt, w') ->
  own key pp = Some b -> own key np = Some a ->
  (exists w1 w2 childPath, w2 `prefix_of` w' /\ compareNodes stringify b a childPath w1 = (inr tt, w2)) /\
  (clean Backward w' -> key ∈ nr -> key ∈ pr) /\ (clean Forward w' -> key ∈ pr -> key ∈ nr).
Proof.
  intros Hrun Hb Ha. destruct (compareObjects_property _ _ _ _ _ _ _ key Hrun) as (w1 & w2 & childPath & Hpre & Hp).
  { left. apply own_is_Some. eauto. }
  rewrite (read_own _ _ _ Hb), (read_own _ _ _ Ha) in Hp. simpl in Hp.
  apply do_inr in Hp as (w3 & Hreq & Hcmp). apply do_inr in Hreq as (w4 & H1 & H2).
  assert (w3 `prefix_of` w') as Hw3 by (etrans; [by eapply grows_compareNodes|done]).
  assert (w4 `prefix_of` w') as Hw4.
  { etrans; [|exact Hw3]. eapply grows_when; [apply grows_push|done]. }
  split; [eauto 6|]. split.
  - intros Hc Hn. eapply when_push_clean in H1; [|by eapply clean_prefix|set_solver].
    rewrite (bool_decide_eq_true_2 (key ∈ nr)), andb_true_r in H1 by done. apply bool_decide_eq_false in H1. by apply dec_stable.
  - intros Hc Hpr. eapply when_push_clean in H2; [|by eapply clean_prefix|set_solver].
    rewrite (bool_decide_eq_true_2 (key ∈ pr)) in H2 by done. apply bool_decide_eq_false in H2. by apply dec_stable.
Qed.

Lemma property_removed pp pr np nr path w w' key b :
  compareNodes stringify (ObjectNode pp pr) (ObjectNode np nr) path w = (inr tt, w') ->
  own key pp = Some b -> own key np = None -> key ∉ objectPrototype -> clean Forward w' -> key ∉ pr.
Proof.
  intros Hrun Hb Ha Hpl Hc. destruct (compareObjects_property _ _ _ _ _ _ _ key Hrun) as (w1 & w2 & childPath & Hpre & Hp).
  { left. apply own_is_Some. eauto. }
  rewrite (read_own _ _ _ Hb), (read_undefined _ _ Ha Hpl) in Hp. simpl in Hp.
  eapply when_push_clean in Hp; [|by eapply clean_prefix|set_solver]. by apply bool_decide_eq_false in Hp.
Qed.

Lemma property_added pp pr np nr path w w' key a :
  compareNodes stringify (ObjectNode pp pr) (ObjectNode np nr) path w = (inr tt, w') ->
  own key pp = None -> own key np = Some a -> key ∉ objectPrototype -> clean Backward w' -> key ∉ nr.
Proof.
  intros Hrun Hb Ha Hpl Hc. destruct (compareObjects_property _ _ _ _ _ _ _ key Hrun) as (w1 & w2 & childPath & Hpre & Hp).
  { right. apply own_is_Some. eauto. }
  rewrite (read_own _ _ _ Ha), (read_undefined _ _ Hb Hpl) in Hp. simpl in Hp.
  eapply when_push_clean in Hp; [|by eapply clean_prefix|set_solver]. by apply bool_decide_eq_false in Hp.
Qed.

(** The scalar rules. *)
Lemma covers_hasType super sub v t :
  covers super sub = true -> t ∈ sub -> hasType t v = true -> exists t', t' ∈ super /\ hasType t' v = true.
Proof.
  unfold covers. rewrite forallb_forall. intros Hc Ht Hv. apply list_elem_of_In, Hc, orb_true_iff in Ht as [Ht|Ht].
  - apply bool_decide_eq_true in Ht. eauto.
  - apply andb_true_iff in Ht as [Heq%bool_decide_eq_true Hn%bool_decide_eq_true]. subst t.
    exists TNumber. split; [done|]. by destruct v.
Qed.

Lemma every_in_elem a b s : every_in a b = true -> s ∈ a -> s ∈ b.
Proof. unfold every_in. rewrite forallb_forall. intros H Hs. by apply list_elem_of_In, H, bool_decide_eq_true in Hs. Qed.

(** What one side's absent constraint or a reported difference leaves. *)
Lemma compareConstraint_clean {T} (a b : option T) path keyword equal show different w w' :
  compareConstraint a b path keyword equal show different w = (inr tt, w') ->
  (clean Backward w' -> forall y, b = Some y -> exists x, a = Some x /\ (equal x y = true \/ Backward ∉ different x y)) /\
  (clean Forward w' -> forall x, a = Some x -> exists y, b = Some y /\ (equal x y = true \/ Forward ∉ different x y)).
Proof.
  destruct a as [x|], b as [y|]; simpl; intros H; split; intros Hc z; try done; intros [= <-].
  - exists x. split; [done|]. revert H. destruct (equal x y); intros H; [by left|]. right. exact (push_clean _ _ _ _ _ _ _ _ H Hc).
  - exists y. split; [done|]. revert H. destruct (equal x y); intros H; [by left|]. right. exact (push_clean _ _ _ _ _ _ _ _ H Hc).
  - exfalso. eapply push_clean; [exact H|exact Hc|set_solver].
  - exfalso. eapply push_clean; [exact H|exact Hc|set_solver].
Qed.

Lemma typeBreaks_clean d (breaks : list CompatibilityDirection) path detail w w' :
  when (bool_decide (0 < length breaks)%nat) (push path "type-changed" breaks detail) w = (inr tt, w') ->
  clean d w' -> d ∉ breaks.
Proof.
  case_bool_decide as Hl; simpl; [apply push_clean|]. destruct breaks; simpl in *; [set_solver|lia].
Qed.

Lemma declared_member properties required members k x :
  declared (ObjectNode properties required) (JObject members) = true -> own_member k members = Some x ->
  exists child, own k properties = Some child /\ declared child x = true.
Proof.
  simpl. rewrite forallb_forall. intros Hd Hk. apply own_Some_elem, list_elem_of_fmap in Hk as ([k' x'] & [= -> ->] & Hin).
  apply list_elem_of_In, Hd in Hin. simpl in Hin. rewrite (own_fmap declared) in Hin.
  destruct (own (js k') properties) as [child|]; [|done]. eauto.
Qed.

Context (formatOk : JSText -> JsonValue -> bool) (valid : SchemaNode -> JsonValue -> bool).
Context `{!ProfileValidator formatOk valid}.

(** [readable reader writer]: the reader accepts what the writer writes. *)
Definition readable (reader writer : SchemaNode) : Prop :=
  forall v, valid writer v = true -> declared writer v = true -> valid reader v = true.

Lemma scalars_sound pt nt pf nf pe ne path w w' :
  compareScalars stringify pt nt pf nf pe ne path w = (inr tt, w') ->
  (clean Backward w' -> readable (ScalarNode nt nf ne) (ScalarNode pt pf pe)) /\
  (clean Forward w' -> readable (ScalarNode pt pf pe) (ScalarNode nt nf ne)).
Proof.
  intros (w1 & Htype & Hrest)%do_inr. apply do_inr in Hrest as (w2 & Henum & Hformat).
  assert (w2 `prefix_of` w') as Hw2 by by eapply grows_compareConstraint.
  assert (w1 `prefix_of` w') as Hw1 by (etrans; [by eapply grows_compareConstraint|done]).
  apply compareConstraint_clean in Henum as [HeB HeF]. apply compareConstraint_clean in Hformat as [HfB HfF].
  split; intros Hc v Hv _; apply valid_scalar in Hv as ((t & Ht & Hty) & Hf & He); apply valid_scalar; split_and!.
  - eapply covers_hasType; [|exact Ht|exact Hty]. eapply typeBreaks_clean in Htype; [|by eapply clean_prefix].
    destruct (covers nt pt); [done|set_solver].
  - intros f Hn. destruct (HfB Hc f Hn) as (f' & Hp & [->%bool_decide_eq_true|Hno]); [by apply Hf|set_solver].
  - intros values Hn. destruct (HeB (clean_prefix _ _ _ Hw2 Hc) values Hn) as (values' & Hp & Hin).
    destruct (He _ Hp) as (s & Hs & Hsin). exists s. split; [done|]. eapply every_in_elem; [|exact Hsin].
    destruct Hin as [[? _]%andb_true_iff|Hno]; [done|]. unfold enumBreaks in Hno. destruct (every_in values' values); [done|set_solver].
  - eapply covers_hasType; [|exact Ht|exact Hty]. eapply typeBreaks_clean in Htype; [|by eapply clean_prefix].
    destruct (covers pt nt); [done|]. set_solver.
  - intros f Hn. destruct (HfF Hc f Hn) as (f' & Hp & [<-%bool_decide_eq_true|Hno]); [by apply Hf|set_solver].
  - intros values Hn. destruct (HeF (clean_prefix _ _ _ Hw2 Hc) values Hn) as (values' & Hp & Hin).
    destruct (He _ Hp) as (s & Hs & Hsin). exists s. split; [done|]. eapply every_in_elem; [|exact Hsin].
    destruct Hin as [[_ ?]%andb_true_iff|Hno]; [done|]. unfold enumBreaks in Hno. destruct (every_in values' values); [done|set_solver].
Qed.

Lemma objects_readable pp pr np nr :
  wf (ObjectNode pp pr) -> wf (ObjectNode np nr) ->
  (forall k b a, own k pp = Some b -> own k np = Some a -> readable a b /\ (k ∈ nr -> k ∈ pr)) ->
  (forall k a, own k pp = None -> own k np = Some a -> k ∉ nr) ->
  readable (ObjectNode np nr) (ObjectNode pp pr).
Proof.
  intros (Hpn & Hpr & _) (Hnn & Hnr & _) Hkept Hadded v Hv Hd.
  apply valid_object in Hv as (members & -> & Hreq & Hprops); [|done..].
  apply valid_object; [done..|]. exists members. split_and!; [done| |].
  - intros k Hk. pose proof (Hnr k Hk) as Hin. apply own_is_Some in Hin as [a Ha].
    destruct (own k pp) as [b|] eqn:Hb; [by apply Hreq, (Hkept k b a)|]. by destruct (Hadded k a).
  - intros k child x Hc Hx. destruct (declared_member _ _ _ _ _ Hd Hx) as (b & Hb & Hdx).
    apply (Hkept k b child); try done. by eapply Hprops.
Qed.

Lemma kind_changed_dirty d path a b w r w' : kind_changed path a b w = (r, w') -> clean d w' -> False.
Proof. intros H Hc. apply (push_clean _ _ _ _ _ _ _ _ H Hc). destruct d; unfold BOTH_DIRECTIONS; set_solver. Qed.

(** The checker is sound, direction by direction. *)
Lemma compareNodes_sound p n path w w' :
  wf p -> wf n -> compareNodes stringify p n path w = (inr tt, w') ->
  (clean Backward w' -> readable n p) /\ (clean Forward w' -> readable p n).
Proof.
  revert n path w w'. induction p as [pp pr IH|items IH|pt pf pe] using SchemaNode_nested_ind;
    intros [np nr|nitems|nt nf ne] path w w' Hp Hn Hrun;
    try (by split; intros Hc; destruct (kind_changed_dirty _ _ _ _ _ _ _ Hrun Hc)).
  - assert (forall k b a, own k pp = Some b -> own k np = Some a ->
      (clean Backward w' -> readable a b) /\ (clean Forward w' -> readable b a)) as Hchild.
    { intros k b a Hb Ha. destruct (property_kept _ _ _ _ _ _ _ _ _ _ Hrun Hb Ha) as [(w1 & w2 & cp & Hpre & Hcmp) _].
      rewrite Forall_forall in IH. apply own_Some_elem in Hb as Hin.
      destruct (IH _ Hin a cp w1 w2 (wf_child _ _ _ _ Hp Hb) (wf_child _ _ _ _ Hn Ha) Hcmp) as [HB HF].
      split; intros Hc; [apply HB|apply HF]; by eapply clean_prefix. }
    split; intros Hc; apply objects_readable; try done.
    + intros k b a Hb Ha. split; [exact (proj1 (Hchild k b a Hb Ha) Hc)|]. by apply (property_kept _ _ _ _ _ _ _ _ _ _ Hrun Hb Ha).
    + intros k a Hb Ha. eapply property_added; [exact Hrun|done..| |done]. eapply plain_names_spec; [apply Hn|]. apply own_is_Some. eauto.
    + intros k b a Hb Ha. split; [exact (proj2 (Hchild k a b Ha Hb) Hc)|]. by apply (property_kept _ _ _ _ _ _ _ _ _ _ Hrun Ha Hb).
    + intros k a Hb Ha. eapply property_removed; [exact Hrun|done..| |done]. eapply plain_names_spec; [apply Hp|]. apply own_is_Some. eauto.
  - destruct (IH nitems _ w w' Hp Hn Hrun) as [HB HF].
    assert (forall a b, readable a b -> readable (ArrayNode a) (ArrayNode b)) as Harr.
    { intros a b Hab v Hv Hd. apply valid_array in Hv as (l & -> & Hl). apply valid_array. exists l. split; [done|].
      simpl in Hd. rewrite forallb_forall in Hd. rewrite Forall_forall in *. intros x Hx. apply Hab; [by apply Hl|].
      by apply Hd, list_elem_of_In. }
    split; intros Hc; apply Harr; auto.
  - by eapply scalars_sound.
Qed.

End sound.

(** ** What the profile establishes *)

Lemma andThen_inr {A B} (m : Checked A) (f : A -> Checked B) b :
  andThen m f = inr b <-> exists a, m = inr a /\ f a = inr b.
Proof. destruct m; simpl; naive_solver. Qed.

Lemma traverse_inr {A B} (f : A -> Checked B) l bs : traverse f l = inr bs -> Forall2 (fun a b => f a = inr b) l bs.
Proof.
  revert bs. induction l as [|a l IH]; simpl; intros bs.
  - intros [= <-]. constructor.
  - intros (b & Hb & (bs' & Hbs & [= <-])%andThen_inr)%andThen_inr. constructor; auto.
Qed.

(** Required names have an entry in [properties], or are inherited. *)
Fixpoint in_profile (n : SchemaNode) : Prop :=
  match n with
  | ObjectNode properties required =>
      (forall k, k ∈ required -> k ∈ properties.*1 \/ k ∈ objectPrototype) /\
      foldr (fun kn P => in_profile kn.2 /\ P) True properties
  | ArrayNode items => in_profile items
  | ScalarNode types _ _ => True
  end.

Lemma requiredNames_inr required path declared names :
  requiredNames required path declared = inr names -> forall k, k ∈ names -> k ∈ declared \/ k ∈ objectPrototype.
Proof.
  unfold requiredNames. destruct required as [v|]; [|intros [= <-]; set_solver].
  destruct (match v with JArray l => mapM text_of l | _ => None end) as [l|]; [|done].
  intros H%traverse_inr k Hk. apply list_elem_of_lookup in Hk as [i Hi].
  destruct (Forall2_lookup_r _ _ _ _ _ H Hi) as (k' & _ & (u & Hr & [= ->])%andThen_inr).
  unfold require in Hr. by case_bool_decide.
Qed.

Lemma scalarNode_in_profile members path n : scalarNode members path = inr n -> in_profile n.
Proof.
  unfold scalarNode. intros (names & _ & H)%andThen_inr. apply andThen_inr in H as (types & _ & H).
  apply andThen_inr in H as (fmt & _ & H). by apply andThen_inr in H as (enum & _ & [= <-]).
Qed.

Lemma own_js_fmap {B} (f : JsonValue -> B) k members :
  own k ((fun kv : string * JsonValue => (js kv.1, f kv.2)) <$> members) = f <$> own_member k members.
Proof. unfold own_member. induction members as [|[k' x] l IH]; simpl; [done|]. by case_decide. Qed.

Lemma traverse_children_in_profile (checks : list (JSText * (JSText -> list JSText -> Checked SchemaNode))) path properties :
  Forall (fun check => forall p e n, check.2 p e = inr n -> in_profile n) checks ->
  traverse (fun check => let? child := check.2 (path ++ js "/properties/" ++ check.1) [] in inr (check.1, child)) checks = inr properties ->
  foldr (fun kn P => in_profile kn.2 /\ P) True properties.
Proof.
  intros Hf H%traverse_inr. induction H as [|check kn checks properties Hc H IH]; simpl; [done|].
  inversion_clear Hf as [|? ? H1 H2]. apply andThen_inr in Hc as (child & Hc & [= <-]). split; [by eapply H1|auto].
Qed.

Lemma assertNodeInProfile_in_profile v :
  (forall path extra n, assertNodeInProfile v path extra = inr n -> in_profile n) /\
  (forall ps, v = JObject ps -> Forall (fun p => forall path extra n, assertNodeInProfile p.2 path extra = inr n -> in_profile n) ps).
Proof.
  induction v as [| | | | |members IH] using JsonValue_nested_ind; try (split; [done|done]).
  split; [|intros ps [= <-]; eapply Forall_impl; [exact IH|by intros ? []]].
  intros path extra n. simpl.
  assert ((let? _ := assertKeywords members path (SCALAR_KEYWORDS ++ extra) in scalarNode members path) = inr n -> in_profile n) as Hscalar.
  { intros (? & _ & H)%andThen_inr. by eapply scalarNode_in_profile. }
  destruct (own_member (js "type") members) as [[| | |type| |]|]; try done.
  repeat case_decide; try done.
  - intros (_ & _ & Hx)%andThen_inr. revert Hx.
    rewrite (own_js_fmap (fun x => match x with JObject ps => Some ((fun p => (js p.1, assertNodeInProfile p.2)) <$> ps) | _ => None end)).
    destruct (own_member (js "properties") members) as [pv|] eqn:Hpv; [|done]. simpl.
    destruct pv as [| | | | |ps]; try done.
    intros (properties & Hps & (required & Hreq & (_ & _ & [= <-])%andThen_inr)%andThen_inr)%andThen_inr. simpl. split.
    + by eapply requiredNames_inr.
    + eapply traverse_children_in_profile; [|exact Hps]. apply Forall_fmap.
      apply own_Some_elem, list_elem_of_fmap in Hpv as ([k x] & Heq & Hin).
      apply (f_equal snd) in Heq. simpl in Heq. subst x. rewrite Forall_forall in IH.
      exact (proj2 (IH _ Hin) ps eq_refl).
  - intros (_ & _ & Hx)%andThen_inr. revert Hx. rewrite (own_js_fmap assertNodeInProfile).
    destruct (own_member (js "items") members) as [iv|] eqn:Hiv; [|done]. simpl.
    apply own_Some_elem, list_elem_of_fmap in Hiv as ([k x] & Heq & Hin).
      apply (f_equal snd) in Heq. simpl in Heq. subst x. rewrite Forall_forall in IH. apply IH in Hin as [Hin _].
    destruct iv; try done; intros (items & Hi & [= <-])%andThen_inr; simpl; by eapply Hin.
Qed.

Lemma assertInProfile_in_profile v path n : assertInProfile v path = inr n -> in_profile n.
Proof.
  unfold assertInProfile. destruct v as [| | | | |members]; try done.
  intros (_ & _ & (_ & _ & (_ & _ & H)%andThen_inr)%andThen_inr)%andThen_inr.
  by eapply (proj1 (assertNodeInProfile_in_profile (JObject members))).
Qed.

Lemma in_profile_plain_wf n : in_profile n -> plain n = true -> wf n.
Proof.
  induction n as [properties required IH|items IH|] using SchemaNode_nested_ind; simpl; auto.
  intros [Hreq Hch] [[Hn Hr]%andb_true_iff Hc]%andb_true_iff. split; [done|]. split.
  - intros k Hk. destruct (Hreq k Hk) as [?|Hp]; [done|]. rewrite forallb_forall in Hr.
    by apply list_elem_of_In, Hr, bool_decide_eq_true in Hk.
  - clear Hreq Hn Hr. induction IH as [|kn l Hkn Hl IHl]; simpl in *; [done|]. destruct Hch. apply andb_true_iff in Hc as [??]. auto.
Qed.

(** ** The path only shows in errors *)

Lemma andThen_mono {A B} (m m' : Checked A) (f f' : A -> Checked B) b :
  (forall a, m = inr a -> m' = inr a) -> (forall a, f a = inr b -> f' a = inr b) ->
  andThen m f = inr b -> andThen m' f' = inr b.
Proof. intros Hm Hf (a & Ha & Hb)%andThen_inr. apply andThen_inr. eauto. Qed.

Lemma traverse_mono {A B} (f f' : A -> Checked B) l bs :
  Forall (fun a => forall b, f a = inr b -> f' a = inr b) l -> traverse f l = inr bs -> traverse f' l = inr bs.
Proof.
  intros Hf. revert bs. induction Hf as [|a l Ha Hl IH]; simpl; intros bs; [done|].
  apply andThen_mono; [done|]. intros b. apply andThen_mono; auto.
Qed.

Lemma require_path b p p' r r' u : require b p r = inr u -> require b p' r' = inr u.
Proof. by destruct b. Qed.

Lemma assertKeywords_path members p p' allowed u : assertKeywords members p allowed = inr u -> assertKeywords members p' allowed = inr u.
Proof.
  apply andThen_mono; [|done]. intros us. apply traverse_mono, Forall_forall. intros kv _ b. apply require_path.
Qed.

Lemma scalarNode_path members p p' n : scalarNode members p = inr n -> scalarNode members p' = inr n.
Proof.
  apply andThen_mono; [intros a; unfold typeNamesOf; by repeat case_match|]. intros names.
  apply andThen_mono.
  { intros types. apply traverse_mono, Forall_forall. intros x _ b. unfold primitive_of. by case_match. }
  intros types. apply andThen_mono; [intros a; by repeat case_match|]. intros fmt.
  apply andThen_mono; [|done]. intros enum. repeat case_match; try done. apply andThen_mono; [|done].
  intros scalars. apply traverse_mono, Forall_forall. intros x _ b. by case_match.
Qed.

Lemma requiredNames_path required p p' declared names :
  requiredNames required p declared = inr names -> requiredNames required p' declared = inr names.
Proof.
  unfold requiredNames. repeat case_match; try done. apply traverse_mono, Forall_forall. intros k _ b.
  apply andThen_mono; [|done]. intros u. apply require_path.
Qed.

Lemma assertNodeInProfile_path v :
  (forall p p' extra n, assertNodeInProfile v p extra = inr n -> assertNodeInProfile v p' extra = inr n) /\
  (forall ps, v = JObject ps -> Forall (fun q => forall p p' extra n,
     assertNodeInProfile q.2 p extra = inr n -> assertNodeInProfile q.2 p' extra = inr n) ps).
Proof.
  induction v as [| | | | |members IH] using JsonValue_nested_ind; try (split; [done|done]).
  split; [|intros ps [= <-]; eapply Forall_impl; [exact IH|by intros ? []]].
  intros p p' extra n. simpl.
  assert (forall u : unit, (fun _ : unit => scalarNode members p) u = inr n -> (fun _ : unit => scalarNode members p') u = inr n) as Hsc.
  { intros _. apply scalarNode_path. }
  destruct (own_member (js "type") members) as [[| | |type| |]|];
    try (apply andThen_mono; [intros u; apply assertKeywords_path|exact Hsc]).
  repeat case_decide; (apply andThen_mono; [intros u; apply assertKeywords_path|]); try done; intros _.
  - rewrite (own_js_fmap (fun x => match x with JObject ps => Some ((fun p => (js p.1, assertNodeInProfile p.2)) <$> ps) | _ => None end)).
    destruct (own_member (js "properties") members) as [[| | | | |ps]|] eqn:Hpv; try done. simpl.
    apply andThen_mono.
    + intros bs. apply traverse_mono, Forall_fmap.
      apply own_Some_elem, list_elem_of_fmap in Hpv as ([k x] & Heq & Hin). apply (f_equal snd) in Heq. simpl in Heq. subst x.
      rewrite Forall_forall in IH. eapply Forall_impl; [exact (proj2 (IH _ Hin) ps eq_refl)|].
      intros q Hq b. apply andThen_mono; [|done]. intros a. apply Hq.
    + intros properties. apply andThen_mono; [intros a; apply requiredNames_path|]. intros required.
      apply andThen_mono; [|done]. intros u. apply require_path.
  - rewrite (own_js_fmap assertNodeInProfile).
    destruct (own_member (js "items") members) as [iv|] eqn:Hiv; [|done]. simpl.
    apply own_Some_elem, list_elem_of_fmap in Hiv as ([k x] & Heq & Hin). apply (f_equal snd) in Heq. simpl in Heq. subst x.
    rewrite Forall_forall in IH. apply IH in Hin as [Hin _].
    destruct iv; try done; (apply andThen_mono; [|done]); intros a; apply Hin.
Qed.

Lemma assertInProfile_path v p p' n : assertInProfile v p = inr n -> assertInProfile v p' = inr n.
Proof.
  unfold assertInProfile. destruct v as [| | | | |members]; try done.
  apply andThen_mono; [intros us; apply traverse_mono, Forall_forall; intros k _ b; apply require_path|]. intros _.
  apply andThen_mono; [intros u; apply require_path|]. intros _.
  apply andThen_mono; [intros u; apply require_path|]. intros _. apply assertNodeInProfile_path.
Qed.

(** ** Histories *)

Lemma orThrow_inr {A B} (m : RegistryError + A) (f : A -> RegistryError + B) b :
  orThrow m f = inr b <-> exists a, m = inr a /\ f a = inr b.
Proof. destruct m; simpl; naive_solver. Qed.

Lemma assertAll_inr {A} (f : A -> RegistryError + unit) l u : assertAll f l = inr u -> forall a, a ∈ l -> f a = inr tt.
Proof.
  induction l as [|x l IH]; simpl; [intros _ a []%elem_of_nil|]. intros ([] & Hx & Hl)%orThrow_inr a [->|Ha]%elem_of_cons; auto.
Qed.

Lemma history_pairs stringify subject vs u i j older newer :
  assertHistoryIsFullyCompatible stringify subject vs = inr u -> vs !! i = Some older -> vs !! j = Some newer -> (i < j)%nat ->
  checkCompatibility stringify (rs_schema older) (rs_schema newer) = inr [].
Proof.
  revert i j. induction vs as [|v vs IH]; simpl; intros i j; [done|].
  intros ([] & Hall & Hrest)%orThrow_inr Hi Hj Hij. destruct j as [|j]; [lia|]. destruct i as [|i]; [|by eapply (IH i j); [| | |lia]].
  injection Hi as ->. simpl in Hj. apply list_elem_of_lookup_2, (assertAll_inr _ _ _ Hall) in Hj.
  unfold assertFullyCompatible in Hj. destruct (checkCompatibility _ _ _) as [e|[|]]; done.
Qed.

Lemma clean_nil d : clean d [].
Proof. intros f []%elem_of_nil. Qed.

Section theorems.
Context (stringify : JsonScalar -> JSText) (formatOk : JSText -> JsonValue -> bool) (valid : SchemaNode -> JsonValue -> bool).
Context `{!ProfileValidator formatOk valid}.

Lemma checkCompatibility_readable previous next path p n findings :
  checkCompatibility stringify previous next = inr findings ->
  assertInProfile previous path = inr p -> assertInProfile next path = inr n -> plain p = true -> plain n = true ->
  (clean Backward findings -> readable valid n p) /\ (clean Forward findings -> readable valid p n).
Proof.
  unfold checkCompatibility. intros (p' & Hp & (n' & Hn & Hc)%andThen_inr)%andThen_inr Hp' Hn' Hpp Hpn.
  apply (assertInProfile_path _ _ path) in Hp, Hn. assert (p' = p) by congruence. assert (n' = n) by congruence. subst p' n'.
  destruct (compareNodes stringify p n (js "#") []) as [[e|[]] fs] eqn:E; [done|]. injection Hc as <-.
  eapply compareNodes_sound; [done| | |exact E]; apply in_profile_plain_wf; try done; by eapply assertInProfile_in_profile.
Qed.

(** C10: The compatibility checker is sound in each direction: when no finding
    breaks [backward], every payload a writer on the previous schema can
    produce - valid, with declared properties only - is valid under the next
    one; when none breaks [forward], the other way round. *)
Theorem compatibility_sound previous next path p n findings :
  checkCompatibility stringify previous next = inr findings ->
  assertInProfile previous path = inr p -> assertInProfile next path = inr n -> plain p = true -> plain n = true ->
  ((forall f, f ∈ findings -> Backward ∉ ic_breaks f) ->
     forall v, valid p v = true -> declared p v = true -> valid n v = true) /\
  ((forall f, f ∈ findings -> Forward ∉ ic_breaks f) ->
     forall v, valid n v = true -> declared n v = true -> valid p v = true).
Proof. apply checkCompatibility_readable. Qed.

Lemma history_readable_lemma subject vs u i j older newer path p n :
  assertHistoryIsFullyCompatible stringify subject vs = inr u -> vs !! i = Some older -> vs !! j = Some newer ->
  assertInProfile (rs_schema older) path = inr p -> assertInProfile (rs_schema newer) path = inr n ->
  plain p = true -> plain n = true -> readable valid n p.
Proof.
  intros Hh Hi Hj Hp Hn Hpp Hpn. destruct (decide (i = j)) as [->|Hne].
  - assert (older = newer) by congruence. subst newer. assert (p = n) by congruence. subst n. by intros v ? ?.
  - destruct (decide (i < j)%nat) as [Hlt|Hge].
    + pose proof (history_pairs _ _ _ _ _ _ _ _ Hh Hi Hj Hlt) as Hc.
      exact (proj1 (checkCompatibility_readable _ _ path p n _ Hc Hp Hn Hpp Hpn) (clean_nil _)).
    + pose proof (history_pairs _ _ _ _ _ _ _ _ Hh Hj Hi ltac:(lia)) as Hc.
      exact (proj2 (checkCompatibility_readable _ _ path n p _ Hc Hn Hp Hpn Hpp) (clean_nil _)).
Qed.

(** A history the check accepts is fully and transitively compatible: a
    payload written against any version of it, old or new, is read by any
    other version. *)
Theorem history_fully_compatible subject vs u i j writer reader path p n v :
  assertHistoryIsFullyCompatible stringify subject vs = inr u -> vs !! i = Some writer -> vs !! j = Some reader ->
  assertInProfile (rs_schema writer) path = inr p -> assertInProfile (rs_schema reader) path = inr n ->
  plain p = true -> plain n = true -> valid p v = true -> declared p v = true -> valid n v = true.
Proof. intros. by eapply (history_readable_lemma subject vs u i j). Qed.

(** *** The registry and the contract *)

Lemma number_versions_inr subject index history vs :
  number_versions subject index history = inr vs ->
  rs_schema <$> vs = history /\ forall i r, vs !! i = Some r -> rs_version r = (S index + i)%nat.
Proof.
  revert index vs. induction history as [|schema history IH]; simpl; intros index vs.
  - intros [= <-]. split; [done|]. intros i r. by rewrite lookup_nil.
  - destruct (assertInProfile _ _); [done|]. intros (rest & Hrest & [= <-])%orThrow_inr.
    destruct (IH _ _ Hrest) as [Hs Hv]. split; [by rewrite fmap_cons, Hs|].
    intros [|i] r; simpl; [intros [= <-]; simpl; lia|]. intros ->%Hv. lia.
Qed.

Lemma build_registry_inr catalogue names r :
  build_registry stringify catalogue names = inr r ->
  r.*1 = names /\ forall subject vs, (subject, vs) ∈ r -> register_subject stringify subject (catalogue subject) = inr vs.
Proof.
  revert r. induction names as [|subject names IH]; simpl; intros r.
  - intros [= <-]. split; [done|]. intros ? ? []%elem_of_nil.
  - intros (vs & Hvs & (rest & Hrest & [= <-])%orThrow_inr)%orThrow_inr. destruct (IH _ Hrest) as [Hn Hr].
    split; [by rewrite fmap_cons, Hn|]. intros s vs' [[= -> ->]|Hin]%elem_of_cons; auto.
Qed.

Lemma versions_inr r known subject vs : versions r known subject = inr vs -> (subject, vs) ∈ r.
Proof.
  induction r as [|[s h] r IH]; simpl; [done|]. case_decide; [intros [= <-]; subst; left|]. intros ?%IH. by right.
Qed.

Context (compile : JsonValue -> JSText + (JsonValue -> list JSText + unit)).

Lemma compile_versions_kept subject rv history kept kept' :
  compile_versions compile subject rv history kept = inr kept' ->
  (forall r, r ∈ history -> rs_version r <> rv) -> kept' = kept.
Proof.
  revert kept. induction history as [|r history IH]; simpl; intros kept.
  - by intros [= <-].
  - destruct (compile (rs_schema r)) as [|fn]; [done|]. intros H Hne.
    rewrite decide_False in H by (apply Hne; left). apply IH in H; [done|]. intros r' Hr'. apply Hne. by right.
Qed.

(** The reader's version is the one that is kept. *)
Lemma compile_versions_reader subject history reader kept kept' :
  compile_versions compile subject (rs_version reader) history kept = inr kept' -> last history = Some reader ->
  exists fn, compile (rs_schema reader) = inr fn /\ kept' = Some (rs_version reader, fn).
Proof.
  intros H [l ->]%last_Some. revert kept H. induction l as [|r l IH]; simpl; intros kept.
  - destruct (compile (rs_schema reader)) as [|fn]; [done|]. rewrite decide_True by done. intros [= <-]. eauto.
  - destruct (compile (rs_schema r)) as [|fn]; [done|]. apply IH.
Qed.

Lemma compile_subjects_find r names c subject history reader :
  compile_subjects compile r names = inr c -> subject ∈ names -> versions r (subjects r) subject = inr history ->
  last history = Some reader ->
  exists fn, compile (rs_schema reader) = inr fn /\ find_validator c subject = Some (rs_version reader, fn).
Proof.
  intros Hc Hin Hh Hl. revert c Hc. induction names as [|s names IH]; [by apply elem_of_nil in Hin|]. simpl.
  intros c (rd & Hrd & (h & Hvs & (kept & Hk & (rest & Hrest & [= <-])%orThrow_inr)%orThrow_inr)%orThrow_inr)%orThrow_inr.
  destruct (decide (s = subject)) as [->|Hne].
  - rewrite Hh in Hvs. injection Hvs as <-. unfold latest in Hrd. rewrite Hh in Hrd. simpl in Hrd. rewrite Hl in Hrd. injection Hrd as <-.
    destruct (compile_versions_reader _ _ _ _ _ Hk Hl) as (fn & Hfn & ->). exists fn. split; [done|]. simpl. by rewrite decide_True.
  - apply elem_of_cons in Hin as [?|Hin]; [congruence|]. destruct (IH Hin _ Hrest) as (fn & Hfn & Hfind). exists fn. split; [done|].
    destruct kept; simpl; [by rewrite decide_False|done].
Qed.

(** C6: a service that booted reads its whole history: a payload written against
    any version of a subject's schemas passes [validate], which answers with the
    reader's version, the number of schemas.  The payload has no member its
    writer's schema does not declare, and neither schema names a property after
    a member of [Object.prototype]; the JSON Schema compiler is taken to accept
    exactly what the keywords of the profile mean. *)
Theorem contract_reads_history catalogue r c subject i writer reader path p n payload :
  (forall document q m fn v, assertInProfile document q = inr m -> compile document = inr fn ->
     (fn v = inr tt <-> valid m v = true)) ->
  new_registry stringify catalogue = inr r -> EventContract compile r = inr c -> subject ∈ DOMAIN_EVENT_NAMES ->
  catalogue subject !! i = Some writer -> assertInProfile writer path = inr p -> plain p = true ->
  last (catalogue subject) = Some reader -> assertInProfile reader path = inr n -> plain n = true ->
  valid p payload = true -> declared p payload = true ->
  validate c subject payload = inr (length (catalogue subject)).
Proof.
  intros Hcompile Hreg Hcon Hsub Hi Hp Hpp Hlast Hn Hpn Hv Hd.
  destruct (build_registry_inr _ _ _ Hreg) as [Hnames Hvers].
  assert (exists vs, versions r (subjects r) subject = inr vs) as [vs Hvs].
  { generalize (subjects r). intros known. rewrite <-Hnames in Hsub. clear -Hsub. induction r as [|[s h] r IH]; simpl in *; [by apply elem_of_nil in Hsub|].
    case_decide; [eauto|]. apply IH. set_solver. }
  pose proof (Hvers _ _ (versions_inr _ _ _ _ Hvs)) as Hrs. unfold register_subject in Hrs. case_decide; [done|].
  apply orThrow_inr in Hrs as (vs' & Hnum & (u & Hhist & [= ->])%orThrow_inr).
  destruct (number_versions_inr _ _ _ _ Hnum) as [Hschemas Hversions].
  assert (length vs = length (catalogue subject)) as Hlen by by rewrite <-Hschemas, length_fmap.
  rewrite <-Hschemas in Hi, Hlast. apply list_lookup_fmap_Some in Hi as (w & -> & Hw).
  rewrite last_lookup, length_fmap in Hlast. apply list_lookup_fmap_Some in Hlast as (rd & -> & Hrd).
  destruct (compile_subjects_find r (subjects r) c subject vs rd) as (fn & Hfn & Hfind); try done.
  { unfold subjects. by rewrite Hnames. }
  { by rewrite last_lookup. }
  unfold validate. rewrite Hfind. pose proof (Hversions _ _ Hrd) as Hv'.
  assert (fn payload = inr tt) as ->.
  { apply (Hcompile _ path n fn payload Hn Hfn). by eapply (history_readable_lemma subject vs u i _ w rd path p n). }
  f_equal. apply lookup_lt_Some in Hrd. lia.
Qed.

End theorems.

(** ** A validator that satisfies the interface *)

Section reference.
Context (formatOk : JSText -> JsonValue -> bool).

Fixpoint reference_valid (n : SchemaNode) (v : JsonValue) : bool :=
  match n, v with
  | ObjectNode properties required, JObject members =>
      let checks := (fun kn => (kn.1, reference_valid kn.2)) <$> properties in
      forallb (fun k => bool_decide (is_Some (own_member k members))) required &&
      forallb (fun kc => match own_member kc.1 members with Some x => kc.2 x | None => true end) checks
  | ArrayNode items, JArray l => forallb (reference_valid items) l
  | ScalarNode types format enum, v =>
      existsb (fun t => hasType t v) types &&
      match format with Some f => formatOk f v | None => true end &&
      match enum with
      | Some values => match scalar_of_json v with Some s => bool_decide (s ∈ values) | None => false end
      | None => true
      end
  | _, _ => false
  end.

Lemma own_elem_NoDup {A} k (l : list (JSText * A)) a : NoDup l.*1 -> (k, a) ∈ l -> own k l = Some a.
Proof.
  induction l as [|[k' a'] l IH]; simpl; [intros _ []%elem_of_nil|].
  intros [Hn Hnd]%NoDup_cons [[= <- <-]|Hin]%elem_of_cons; [by rewrite decide_True|].
  rewrite decide_False; [auto|]. intros ->. apply Hn, list_elem_of_fmap. by exists (k, a).
Qed.

#[global] Instance reference_validator : ProfileValidator formatOk reference_valid.
Proof.
  split.
  - intros properties required v Hn _. destruct v as [| | | | |members]; simpl;
      try (split; [done|by intros (? & ? & _)]).
    rewrite andb_true_iff, !forallb_forall. split.
    + intros [Hr Hp]. exists members. split_and!; [done| |].
      * intros k Hk%list_elem_of_In%Hr. by apply bool_decide_eq_true in Hk.
      * intros k child x Hc Hx. apply own_Some_elem in Hc. specialize (Hp (k, reference_valid child)). simpl in Hp.
        rewrite Hx in Hp. apply Hp, list_elem_of_In, list_elem_of_fmap. by exists (k, child).
    + intros (ms & [= <-] & Hr & Hp). split.
      * intros k Hk%list_elem_of_In. apply bool_decide_eq_true. auto.
      * intros kc Hkc%list_elem_of_In. apply list_elem_of_fmap in Hkc as ([k child] & -> & Hin). simpl.
        destruct (own_member k members) eqn:Hx; [|done]. eapply Hp; [|exact Hx]. apply own_elem_NoDup; [|done].
        unfold plain_names in Hn. apply andb_true_iff in Hn as [Hn _]. by apply bool_decide_eq_true in Hn.
  - intros items v. destruct v as [| | | |l|]; simpl; try (split; [done|by intros (? & ? & _)]).
    rewrite forallb_forall. split.
    + intros H. exists l. split; [done|]. apply Forall_forall. intros x Hx. by apply H, list_elem_of_In.
    + intros (l' & [= <-] & Hl) x Hx%list_elem_of_In. rewrite Forall_forall in Hl. auto.
  - intros types format enum v. simpl. rewrite !andb_true_iff, existsb_exists. split.
    + intros [[(t & Ht & Hv) Hf] He]. split_and!; [exists t; split; [by apply list_elem_of_In|done]|by intros f ->|].
      intros values ->. destruct (scalar_of_json v) as [s|]; [|done]. exists s. split; [done|]. by apply bool_decide_eq_true in He.
    + intros ((t & Ht & Hv) & Hf & He). split_and!; [exists t; split; [by apply list_elem_of_In|done]|destruct format; auto|].
      destruct enum as [values|]; [|done]. destruct (He values eq_refl) as (s & -> & ?). by apply bool_decide_eq_true.
Qed.

End reference.

(** The interface leaves no choice on well-formed nodes. *)
Lemma validators_agree formatOk valid n v :
  ProfileValidator formatOk valid -> wf n -> reference_valid formatOk n v = true -> valid n v = true.
Proof.
  intros Hval. revert v. induction n as [properties required IH|items IH|types fmt enum] using SchemaNode_nested_ind; intros v Hwf Hv.
  - apply valid_object in Hv as (members & -> & Hr & Hp); [|apply Hwf..]. apply valid_object; [apply Hwf..|].
    exists members. split_and!; [done..|]. intros k child x Hc Hx. apply own_Some_elem in Hc as Hin. rewrite Forall_forall in IH.
    apply (IH _ Hin); [by eapply wf_child|]. by eapply Hp.
  - apply valid_array in Hv as (l & -> & Hl). apply valid_array. exists l. split; [done|]. eapply Forall_impl; [exact Hl|]. auto.
  - apply valid_scalar in Hv. by apply valid_scalar.
Qed.

Definition node_of (document : JsonValue) : SchemaNode :=
  match assertInProfile document (js "#") with inr n => n | inl _ => ArrayNode (ScalarNode [] None None) end.

(** Whether the reader schema of a reference payload's subject accepts it. *)
Definition reference_accepted (formatOk : JSText -> JsonValue -> bool) (subject : string) (payload : JsonValue) : bool :=
  match last (SCHEMA_CATALOGUE subject) with
  | Some doc =>
      match assertInProfile doc (js "#") with
      | inr n => plain n && reference_valid formatOk n payload && declared n payload
      | inl _ => false
      end
  | None => false
  end.

(** The shipped catalogue boots: every history is non-empty, in the
    profile and fully compatible, and the reader schema of each event accepts
    the reference payload, whatever validator implements the profile. *)
Theorem catalogue_boots stringify formatOk valid :
  ProfileValidator formatOk valid ->
  (exists r, new_registry stringify SCHEMA_CATALOGUE = inr r /\ subjects r = DOMAIN_EVENT_NAMES) /\
  Forall (fun sp => exists doc n, last (SCHEMA_CATALOGUE sp.1) = Some doc /\ assertInProfile doc (js "#") = inr n /\
    valid n sp.2 = true) REFERENCE_PAYLOADS.
Proof.
  intros Hval. split; [eexists; split; vm_compute; reflexivity|].
  assert (forallb (fun sp => reference_accepted formatOk sp.1 sp.2) REFERENCE_PAYLOADS = true) as H by (vm_compute; reflexivity).
  rewrite forallb_forall in H. apply Forall_forall. intros [subject payload] Hin%list_elem_of_In%H. revert Hin. simpl.
  unfold reference_accepted.
  destruct (last (SCHEMA_CATALOGUE subject)) as [doc|]; [|done]. destruct (assertInProfile doc (js "#")) as [|n] eqn:Hn; [done|].
  intros [[Hpl Hv]%andb_true_iff _]%andb_true_iff. exists doc, n. split_and!; [done..|].
  eapply validators_agree; [done| |exact Hv]. apply in_profile_plain_wf; [|done]. by eapply assertInProfile_in_profile.
Qed.

(** *** Concrete histories *)

Definition no_stringify (_ : JsonScalar) : JSText := [].
Definition any_format (_ : JSText) (_ : JsonValue) : bool := true.

(** [user.deleted] v1, and v2 with an optional property. *)
Definition sample_v1 : JsonValue :=
  document "user.deleted" [] [("userId"%string, typed (jstr "string") "")] ["userId"%string].
Definition sample_v2 : JsonValue :=
  document "user.deleted" [] [("userId"%string, typed (jstr "string") ""); ("reason"%string, typed (jstr "string") "")] ["userId"%string].

Definition sample_payload : JsonValue := JObject [("userId"%string, jstr "u1")].

Lemma compatibility_sound_witness :
  ((forall f, f ∈ [] -> Backward ∉ ic_breaks f) ->
     forall v, reference_valid any_format (node_of sample_v1) v = true -> declared (node_of sample_v1) v = true ->
       reference_valid any_format (node_of sample_v2) v = true) /\
  ((forall f, f ∈ [] -> Forward ∉ ic_breaks f) ->
     forall v, reference_valid any_format (node_of sample_v2) v = true -> declared (node_of sample_v2) v = true ->
       reference_valid any_format (node_of sample_v1) v = true).
Proof.
  apply (compatibility_sound no_stringify any_format (reference_valid any_format) sample_v1 sample_v2 (js "#")
           (node_of sample_v1) (node_of sample_v2) []); vm_compute; reflexivity.
Defined.

Definition sample_versions : list RegisteredSchema :=
  [{| rs_subject := "user.deleted"; rs_version := 1; rs_schema := sample_v1 |};
   {| rs_subject := "user.deleted"; rs_version := 2; rs_schema := sample_v2 |}].

Lemma history_fully_compatible_witness :
  reference_valid any_format (node_of sample_v2) sample_payload = true.
Proof.
  apply (history_fully_compatible no_stringify any_format (reference_valid any_format) "user.deleted" sample_versions tt 0 1
           {| rs_subject := "user.deleted"; rs_version := 1; rs_schema := sample_v1 |}
           {| rs_subject := "user.deleted"; rs_version := 2; rs_schema := sample_v2 |}
           (js "#") (node_of sample_v1) (node_of sample_v2) sample_payload); vm_compute; reflexivity.
Defined.

Definition sample_compile (doc : JsonValue) : JSText + (JsonValue -> list JSText + unit) :=
  match assertInProfile doc (js "#") with
  | inl _ => inl []
  | inr n => inr (fun v => if reference_valid any_format n v then inr tt else inl [])
  end.

Lemma sample_compile_valid document q m fn v :
  assertInProfile document q = inr m -> sample_compile document = inr fn ->
  (fn v = inr tt <-> reference_valid any_format m v = true).
Proof.
  intros Hm%(assertInProfile_path _ _ (js "#")). unfold sample_compile. rewrite Hm. intros [= <-].
  by destruct (reference_valid any_format m v).
Qed.

Definition sample_registry : LocalSchemaRegistry :=
  match new_registry no_stringify SCHEMA_CATALOGUE with inr r => r | inl _ => [] end.
Definition sample_contract : list (string * Validator) :=
  match EventContract sample_compile sample_registry with inr c => c | inl _ => [] end.

Definition sample_deleted : JsonValue := JObject [("userId"%string, jstr "u1"); ("email"%string, jstr "a@b.c")].

Lemma contract_reads_history_witness : validate sample_contract "user.deleted" sample_deleted = inr 1%nat.
Proof.
  apply (contract_reads_history no_stringify any_format (reference_valid any_format) sample_compile SCHEMA_CATALOGUE
           sample_registry sample_contract "user.deleted" 0
           (default JNull (head USER_DELETED_SCHEMAS)) (default JNull (head USER_DELETED_SCHEMAS)) (js "#")
           (node_of (default JNull (head USER_DELETED_SCHEMAS))) (node_of (default JNull (head USER_DELETED_SCHEMAS)))).
  - exact sample_compile_valid.
  - vm_compute. reflexivity.
  - vm_compute. reflexivity.
  - unfold DOMAIN_EVENT_NAMES. right. left.
  - vm_compute. reflexivity.
  - vm_compute. reflexivity.
  - vm_compute. reflexivity.
  - vm_compute. reflexivity.
  - vm_compute. reflexivity.
  - vm_compute. reflexivity.
  - vm_compute. reflexivity.
  - vm_compute. reflexivity.
Defined.

Lemma catalogue_boots_witness :
  (exists r, new_registry no_stringify SCHEMA_CATALOGUE = inr r /\ subjects r = DOMAIN_EVENT_NAMES) /\
  Forall (fun sp => exists doc n, last (SCHEMA_CATALOGUE sp.1) = Some doc /\ assertInProfile doc (js "#") = inr n /\
    reference_valid any_format n sp.2 = true) REFERENCE_PAYLOADS.
Proof. apply (catalogue_boots no_stringify any_format (reference_valid any_format)). apply reference_validator. Defined.

(** The content model is open, and the checker does not account for it: a
    new optional property constrains a name an old payload may already use
    for anything.  The pair below has no finding, yet a payload that is valid
    under the previous schema is rejected by a reader on the next. *)
Theorem open_content_unreadable :
  checkCompatibility no_stringify sample_v1 sample_v2 = inr [] /\
  exists payload, reference_valid any_format (node_of sample_v1) payload = true /\
    reference_valid any_format (node_of sample_v2) payload = false.
Proof.
  split; [vm_compute; reflexivity|].
  exists (JObject [("userId"%string, jstr "u1"); ("reason"%string, JNumber 7 0)]). split; vm_compute; reflexivity.
Qed.
