(* ===== verification/AuditLog.v ===== *)
(** * AuditLog: the hash chain and its verifier

    [audit/audit-hash.ts], [audit/audit-chain.verifier.ts],
    [audit/prisma-audit-log.store.ts] and [audit/audit-log.service.ts].
    SHA-256 is a parameter, and no theorem assumes it injective: where it
    matters, the conclusion is the property or two inputs that collide. *)

From S2P Require Import Prelude Text Json.

#[local] Set Warnings "-register-all".

(** ** Values *)

(** What a caller can pass as [details]; an instance is an object whose
    prototype is not [Object]'s. *)
Inductive JsValue :=
  | JsNull
  | JsBool (b : bool)
  | JsNumber (mantissa exponent : Z)
  | JsNonFinite (name : string)
  | JsString (s : JSText)
  | JsUndefined
  | JsOther (typeof : string)
  | JsArray (items : list JsValue)
  | JsPlain (members : list (string * JsValue))
  | JsInstance (constructorName : string).

Inductive AuditError := AuditEncodingError (message : JSText) | TypeError.

Definition AUDIT_ACTIONS : list (JSText * JSText) :=
  [(js "user.registered", js "user"); (js "user.deleted", js "user");
   (js "auth.refresh_token_reuse_detected", js "refresh_token_family")].

Record AuditActor := { actor_id : JSText; actor_role : JSText }.

Record NewAuditEntry := {
  na_action : JSText;
  na_resourceId : JSText;
  na_details : JsValue;
  na_actor : option AuditActor;
  na_correlationId : option JSText;
  na_occurredAt : Z;
}.

(** [Hashable]: an entry without its hash. *)
Record Hashable := {
  h_seq : Z;
  h_occurredAt : Z;
  h_action : JSText;
  h_resourceType : JSText;
  h_resourceId : JSText;
  h_details : JsValue;
  h_actorId : option JSText;
  h_actorRole : option JSText;
  h_correlationId : option JSText;
  h_prevHash : JSText;
}.

Record AuditEntry := { entry_of : Hashable; entry_hash : JSText }.

(** The table, in the order of its primary key [seq]. *)
Abbreviation Table := (list AuditEntry).

Definition GENESIS_HASH : JSText := replicate 64 48%N.
Definition PREIMAGE_VERSION : JSText := js "audit-chain-v1".
Definition FIRST_SEQ : Z := 1.

Definition hex_digit (c : N) : bool := bool_decide (48 <= c <= 57)%N || bool_decide (97 <= c <= 102)%N.

(** [HEX_64.test(value)] *)
Definition isChainHash (value : JSText) : bool := bool_decide (length value = 64%nat) && forallb hex_digit value.

(** ** Encoding and hashing *)

Section encoding.
(** [JSON.stringify] of a string and of a finite number, [toISOString] and
    SHA-256 in lower-case hex. *)
Context (stringifyString : JSText -> JSText) (stringifyNumber : Z -> Z -> JSText) (toISOString : Z -> JSText)
  (sha256 : list N -> JSText).

Definition encodingError {A} (message : JSText) : AuditError + A :=
  inl (AuditEncodingError (js "This audit entry cannot be hashed: " ++ message)).

Fixpoint collect {A} (l : list (AuditError + A)) : AuditError + list A :=
  match l with
  | [] => inr []
  | inl e :: _ => inl e
  | inr a :: l => match collect l with inl e => inl e | inr l => inr (a :: l) end
  end.

Definition key_le (a b : string * (JSText -> AuditError + JSText)) : Prop := String.leb a.1 b.1 = true.

#[local] Instance key_le_dec : RelDecision key_le.
Proof. intros a b. unfold key_le. apply _. Defined.

Definition is_undefined (v : JsValue) : bool := match v with JsUndefined => true | _ => false end.

(** [canonicalJson(value, path)] *)
Fixpoint canonicalJson (value : JsValue) (path : JSText) : AuditError + JSText :=
  match value with
  | JsNull => inr (js "null")
  | JsString s => inr (stringifyString s)
  | JsBool b => inr (if b : bool then js "true" else js "false")
  | JsNonFinite name => encodingError (path ++ js " is " ++ js name ++ js ", which JSON cannot represent")
  | JsNumber m e => inr (if decide (m = 0) then stringifyNumber 0 0 else stringifyNumber m e)
  | JsUndefined => encodingError (path ++ js " is a undefined, which is not JSON")
  | JsOther typeof => encodingError (path ++ js " is a " ++ js typeof ++ js ", which is not JSON")
  | JsArray items =>
      match collect (imap (fun index encode => encode (path ++ js "[" ++ js (pretty index) ++ js "]")) (canonicalJson <$> items)) with
      | inl e => inl e
      | inr encoded => inr (js "[" ++ join (js ",") encoded ++ js "]")
      end
  | JsInstance name =>
      encodingError (path ++ js " is a " ++ js name ++
        js ". Audit details must be plain JSON: convert it at the call site, where the right representation is known.")
  | JsPlain members =>
      let encoders := (fun kv => (kv.1,
        if is_undefined kv.2 then fun p => encodingError (p ++
          js " is undefined. JSON.stringify would drop the key entirely, so an entry with it and an entry without it would hash the same " ++
          [8212%N] ++ js " use null.")
        else canonicalJson kv.2)) <$> members in
      match collect ((fun kv => match kv.2 (path ++ js "." ++ js kv.1) with
          | inl e => inl e
          | inr text => inr (stringifyString (js kv.1) ++ js ":" ++ text)
          end) <$> merge_sort key_le encoders) with
      | inl e => inl e
      | inr encoded => inr (js "{" ++ join (js ",") encoded ++ js "}")
      end
  end.

(** [field(name, value)] *)
Definition field (name : string) (value : option JSText) : JSText :=
  match value with
  | None => js name ++ js ":null" ++ [10%N]
  | Some v => js name ++ js ":" ++ js (pretty (byteLength v)) ++ js ":" ++ v ++ [10%N]
  end.

(** The fields of an entry whose details encode as [details]. *)
Definition preimage_text (entry : Hashable) (details : JSText) : JSText :=
  field "version" (Some PREIMAGE_VERSION) ++
  field "seq" (Some (js (pretty (h_seq entry)))) ++
  field "occurredAt" (Some (toISOString (h_occurredAt entry))) ++
  field "action" (Some (h_action entry)) ++
  field "resourceType" (Some (h_resourceType entry)) ++
  field "resourceId" (Some (h_resourceId entry)) ++
  field "actorId" (h_actorId entry) ++
  field "actorRole" (h_actorRole entry) ++
  field "correlationId" (h_correlationId entry) ++
  field "details" (Some details) ++
  field "prevHash" (Some (h_prevHash entry)).

(** [auditEntryPreimage(entry)] *)
Definition auditEntryPreimage (entry : Hashable) : AuditError + JSText :=
  match canonicalJson (h_details entry) (js "details") with
  | inl e => inl e
  | inr details => inr (preimage_text entry details)
  end.

(** [auditEntryHash(entry)] *)
Definition auditEntryHash (entry : Hashable) : AuditError + JSText :=
  match auditEntryPreimage entry with
  | inl e => inl e
  | inr preimage => inr (sha256 (utf8 preimage))
  end.

Fixpoint action_type (action : JSText) (actions : list (JSText * JSText)) : option JSText :=
  match actions with
  | [] => None
  | (name, type) :: actions => if decide (name = action) then Some type else action_type action actions
  end.

(** [sealAuditEntry(draft, seq, prevHash)] *)
Definition sealAuditEntry (draft : NewAuditEntry) (seq : Z) (prevHash : JSText) : AuditError + AuditEntry :=
  if negb (isChainHash prevHash) && negb (bool_decide (prevHash = GENESIS_HASH))
  then encodingError (js "prevHash " ++ stringifyString prevHash ++ js " is not a chain hash")
  else
    match action_type (na_action draft) AUDIT_ACTIONS with
    | None =>
        if decide (na_action draft ∈ objectPrototype) then inl TypeError   (* a function is not text to measure *)
        else encodingError (stringifyString (na_action draft) ++
          js " is not in AUDIT_ACTIONS, so there is no resource type to record it against")
    | Some resourceType =>
        let placed := {|
          h_seq := seq; h_occurredAt := na_occurredAt draft; h_action := na_action draft; h_resourceType := resourceType;
          h_resourceId := na_resourceId draft; h_details := na_details draft; h_actorId := actor_id <$> na_actor draft;
          h_actorRole := actor_role <$> na_actor draft; h_correlationId := na_correlationId draft; h_prevHash := prevHash |} in
        match auditEntryHash placed with
        | inl e => inl e
        | inr hash => inr {| entry_of := placed; entry_hash := hash |}
        end
    end.

(** ** The verifier *)

Inductive AuditChainBreachKind := WrongGenesis | Gap | BrokenLink | ForgedHash.

Record AuditChainBreach := { br_seq : Z; br_kind : AuditChainBreachKind; br_detail : JSText }.

Record AuditChainReport := {
  rp_intact : bool;
  rp_checked : nat;
  rp_firstSeq : option Z;
  rp_lastSeq : option Z;
  rp_headHash : option JSText;
  rp_breach : option AuditChainBreach;
}.

Definition seq_of (e : AuditEntry) : Z := h_seq (entry_of e).

Definition num (z : Z) : JSText := js (pretty z).

(** [inspect(entry, previous)] *)
Definition inspect (entry : AuditEntry) (previous : option AuditEntry) : AuditError + option AuditChainBreach :=
  let expectedSeq := match previous with Some p => seq_of p + 1 | None => FIRST_SEQ end in
  let expectedPrevHash := match previous with Some p => entry_hash p | None => GENESIS_HASH end in
  if decide (seq_of entry <> expectedSeq) then
    inr (Some {| br_seq := expectedSeq; br_kind := match previous with Some _ => Gap | None => WrongGenesis end;
      br_detail :=
        match previous with
        | Some p => js "Entry " ++ num expectedSeq ++ js " is missing: " ++ num (seq_of p) ++ js " is followed by " ++ num (seq_of entry) ++ js "."
        | None => js "The chain starts at " ++ num (seq_of entry) ++ js " rather than " ++ num FIRST_SEQ ++ js ", so " ++
            num (seq_of entry - FIRST_SEQ) ++ js " entries have been removed from the front."
        end |})
  else if decide (h_prevHash (entry_of entry) <> expectedPrevHash) then
    inr (Some {| br_seq := seq_of entry; br_kind := BrokenLink;
      br_detail := js "Entry " ++ num (seq_of entry) ++ js " links to " ++ h_prevHash (entry_of entry) ++ js ", but entry " ++
        num (expectedSeq - 1) ++ js " hashes to " ++ expectedPrevHash ++ js "." |})
  else
    match auditEntryHash (entry_of entry) with
    | inl e => inl e
    | inr recomputed =>
        if decide (recomputed <> entry_hash entry) then
          inr (Some {| br_seq := seq_of entry; br_kind := ForgedHash;
            br_detail := js "Entry " ++ num (seq_of entry) ++ js " stores hash " ++ entry_hash entry ++ js ", but its contents hash to " ++
              recomputed ++ js ". The row has been modified since it was written." |})
        else inr None
    end.

(** [read({ afterSeq, limit })] *)
Definition read (afterSeq : option Z) (limit : nat) (t : Table) : list AuditEntry :=
  take limit (match afterSeq with Some s => filter (fun e => s < seq_of e) t | None => t end).

Definition VERIFY_PAGE_SIZE : nat := 500.

(** The loop's variables. *)
Record Cursor := { cu_previous : option AuditEntry; cu_checked : nat; cu_firstSeq : option Z }.

Definition report (breach : option AuditChainBreach) (c : Cursor) : AuditChainReport := {|
  rp_intact := match breach with None => true | Some _ => false end; rp_checked := cu_checked c; rp_firstSeq := cu_firstSeq c;
  rp_lastSeq := seq_of <$> cu_previous c; rp_headHash := entry_hash <$> cu_previous c; rp_breach := breach |}.

(** One page: the first breach, or the cursor after it. *)
Fixpoint scan (page : list AuditEntry) (c : Cursor) : AuditError + (AuditChainReport + Cursor) :=
  match page with
  | [] => inr (inr c)
  | entry :: page =>
      match inspect entry (cu_previous c) with
      | inl e => inl e
      | inr (Some breach) => inr (inl (report (Some breach) c))
      | inr None =>
          scan page {| cu_previous := Some entry; cu_checked := S (cu_checked c);
                       cu_firstSeq := match cu_firstSeq c with None => Some (seq_of entry) | f => f end |}
      end
  end.

(** The loop over pages; [None] is a loop that has not ended yet. *)
Fixpoint verify_loop (pageSize fuel : nat) (t : Table) (c : Cursor) : option (AuditError + AuditChainReport) :=
  match fuel with
  | O => None
  | S fuel =>
      let page := read (seq_of <$> cu_previous c) pageSize t in
      if decide (length page = 0%nat) then Some (inr (report None c))
      else
        match scan page c with
        | inl e => Some (inl e)
        | inr (inl r) => Some (inr r)
        | inr (inr c') =>
            if decide (length page < pageSize)%nat then Some (inr (report None c'))
            else verify_loop pageSize fuel t c'
        end
  end.

Definition start : Cursor := {| cu_previous := None; cu_checked := 0; cu_firstSeq := None |}.

(** [verify()]; a page is never empty before the end, so as many turns as
    there are entries, and one more, are enough. *)
Definition verify (t : Table) : option (AuditError + AuditChainReport) :=
  verify_loop VERIFY_PAGE_SIZE (S (length t)) t start.

(** ** The store *)

Definition head (t : Table) : option AuditEntry := last t.

(** [append(tx, draft)], once the lock is held: [t] is what the transaction
    sees, its own appends included. *)
Definition append (draft : NewAuditEntry) (t : Table) : AuditError + AuditEntry :=
  let tail := last t in
  sealAuditEntry draft (match tail with Some e => seq_of e + 1 | None => FIRST_SEQ end)
    (match tail with Some e => entry_hash e | None => GENESIS_HASH end).

(** What the columns give back: [details] comes out of a [jsonb]. *)
Definition stored (jsonb : JsValue -> JsValue) (e : AuditEntry) : AuditEntry :=
  let h := entry_of e in
  {| entry_of := {|
       h_seq := h_seq h; h_occurredAt := h_occurredAt h; h_action := h_action h; h_resourceType := h_resourceType h;
       h_resourceId := h_resourceId h; h_details := jsonb (h_details h); h_actorId := h_actorId h; h_actorRole := h_actorRole h;
       h_correlationId := h_correlationId h; h_prevHash := h_prevHash h |};
     entry_hash := entry_hash e |}.

(** Transactions that append: the advisory lock is taken by the first append
    and held to the end. *)
Record Sys := { s_table : Table; s_tx : option (nat * list AuditEntry) }.

Inductive Event := EvAppend (pid : nat) (draft : NewAuditEntry) | EvCommit (pid : nat) | EvRollback (pid : nat).

(** [AuditLog.record(...)]'s draft. *)
Definition record (now : Z) (action resourceId : JSText) (details : JsValue) (actor : option AuditActor)
    (correlationId : option JSText) : NewAuditEntry := {|
  na_action := action; na_resourceId := resourceId; na_details := details; na_actor := actor;
  na_correlationId := correlationId; na_occurredAt := now |}.

Definition event (jsonb : JsValue -> JsValue) (e : Event) (s : Sys) : option Sys :=
  match e with
  | EvAppend pid draft =>
      let pending := match s_tx s with Some (_, l) => l | None => [] end in
      if match s_tx s with Some (q, _) => bool_decide (q = pid) | None => true end then
        match append draft (s_table s ++ pending) with
        | inl _ => Some {| s_table := s_table s; s_tx := None |}         (* the throw rolls the caller back *)
        | inr entry => Some {| s_table := s_table s; s_tx := Some (pid, pending ++ [stored jsonb entry]) |}
        end
      else None                                                            (* waits for the lock *)
  | EvCommit pid =>
      match s_tx s with
      | Some (q, pending) => if decide (q = pid) then Some {| s_table := s_table s ++ pending; s_tx := None |} else None
      | None => None
      end
  | EvRollback pid =>
      match s_tx s with
      | Some (q, _) => if decide (q = pid) then Some {| s_table := s_table s; s_tx := None |} else None
      | None => None
      end
  end.

Fixpoint run (jsonb : JsValue -> JsValue) (es : list Event) (s : Sys) : option Sys :=
  match es with
  | [] => Some s
  | e :: es => match event jsonb e s with Some s' => run jsonb es s' | None => None end
  end.

(** ** The chain *)

(** Every entry passes its inspection. *)
Fixpoint chained (previous : option AuditEntry) (t : Table) : Prop :=
  match t with
  | [] => True
  | e :: t => inspect e previous = inr None /\ chained (Some e) t
  end.

Lemma inspect_intact e previous :
  inspect e previous = inr None <->
  seq_of e = match previous with Some p => seq_of p + 1 | None => FIRST_SEQ end /\
  h_prevHash (entry_of e) = match previous with Some p => entry_hash p | None => GENESIS_HASH end /\
  auditEntryHash (entry_of e) = inr (entry_hash e).
Proof.
  unfold inspect. destruct (decide (seq_of e <> _)) as [|Hs]; [naive_solver|].
  destruct (decide (h_prevHash (entry_of e) <> _)) as [|Hp]; [naive_solver|]. apply dec_stable in Hs, Hp.
  destruct (auditEntryHash (entry_of e)) as [|h]; [naive_solver|].
  destruct (decide (h <> entry_hash e)) as [|Hh]; [naive_solver|]. apply dec_stable in Hh. naive_solver.
Qed.

Lemma chained_app previous t1 t2 :
  chained previous (t1 ++ t2) <-> chained previous t1 /\ chained (match last t1 with Some e => Some e | None => previous end) t2.
Proof.
  revert previous. induction t1 as [|e t1 IH]; intros previous; simpl; [naive_solver|]. rewrite IH.
  replace (match last (e :: t1) with Some x => Some x | None => previous end) with
    (match last t1 with Some x => Some x | None => Some e end); [naive_solver|].
  destruct t1; [done|]. rewrite last_cons_cons. by destruct (last (a :: t1)) eqn:E; [|apply last_None in E].
Qed.

Definition first_of (c : Cursor) (t : Table) : option Z :=
  match cu_firstSeq c with None => seq_of <$> list.head t | f => f end.

(** The scan of a chain goes through. *)
Lemma scan_chained t c :
  chained (cu_previous c) t ->
  scan t c = inr (inr {| cu_previous := match last t with Some e => Some e | None => cu_previous c end;
    cu_checked := cu_checked c + length t; cu_firstSeq := first_of c t |}).
Proof.
  revert c. induction t as [|e t IH]; intros c; simpl.
  - intros _. destruct c as [p k f]; unfold first_of; simpl. rewrite Nat.add_0_r. by destruct f.
  - intros [-> Hc]. rewrite IH by done. simpl. unfold first_of. simpl. do 3 f_equal.
    + destruct t; [done|]. rewrite last_cons_cons. by destruct (last (a :: t)) eqn:E; [|apply last_None in E].
    + lia.
    + by destruct (cu_firstSeq c).
Qed.

(** A scan that ends without a breach scanned a chain. *)
Lemma scan_inv t c c' : scan t c = inr (inr c') -> chained (cu_previous c) t.
Proof.
  revert c. induction t as [|e t IH]; intros c; simpl; [done|].
  destruct (inspect e (cu_previous c)) as [|[b|]] eqn:E; try done. intros H. split; [done|]. by apply IH in H.
Qed.

Lemma scan_app t1 t2 c :
  scan (t1 ++ t2) c = match scan t1 c with inr (inr c') => scan t2 c' | r => r end.
Proof.
  revert c. induction t1 as [|e t1 IH]; intros c; simpl; [done|].
  destruct (inspect e (cu_previous c)) as [|[b|]]; [done..|]. apply IH.
Qed.

(** One pass over the table, the verifier's meaning. *)
Definition verify_once (t : Table) : AuditError + AuditChainReport :=
  match scan t start with
  | inl e => inl e
  | inr (inl r) => inr r
  | inr (inr c) => inr (report None c)
  end.

Definition by_seq (a b : AuditEntry) : Prop := seq_of a < seq_of b.

(** The rows after the last one seen are the rest of the table. *)
Lemma read_rest seen rest limit :
  StronglySorted by_seq (seen ++ rest) -> read (seq_of <$> last seen) limit (seen ++ rest) = take limit rest.
Proof.
  intros Hs. unfold read. destruct (last seen) as [e|] eqn:E; simpl.
  - apply last_Some in E as [l ->]. f_equal.
    apply filter_suffix; apply Forall_forall; intros x Hx.
    + enough (seq_of x <= seq_of e) by lia. apply elem_of_app in Hx as [Hx|<-%list_elem_of_singleton]; [|lia].
      assert (by_seq x e); [|unfold by_seq in *; lia].
      apply (StronglySorted_take_drop by_seq (length l) _ x e Hs).
      * by rewrite <-app_assoc, take_app_length.
      * rewrite <-app_assoc, drop_app_length. left.
    + apply (StronglySorted_take_drop by_seq (length (l ++ [e])) _ e x Hs).
      * rewrite take_app_length. set_solver.
      * by rewrite drop_app_length.
  - apply last_None in E as ->. done.
Qed.

(** Paging changes nothing: the loop ends within its fuel with what one pass
    over the rest of the table gives. *)
Lemma verify_loop_once pageSize t fuel seen rest c :
  (0 < pageSize)%nat -> StronglySorted by_seq t -> t = seen ++ rest -> cu_previous c = last seen -> (length rest < fuel)%nat ->
  verify_loop pageSize fuel t c = Some match scan rest c with
    | inl e => inl e | inr (inl r) => inr r | inr (inr c') => inr (report None c') end.
Proof.
  intros Hps Hs. revert seen rest c. induction fuel as [|fuel IH]; intros seen rest c Ht Hp Hlen; [lia|]. simpl.
  assert (read (seq_of <$> cu_previous c) pageSize t = take pageSize rest) as Hread.
  { rewrite Hp, Ht. apply read_rest. by rewrite <-Ht. }
  rewrite Hread, !length_take. destruct (decide (_ `min` _ = 0)%nat) as [H0|H0].
  { destruct rest; simpl in *; [done|lia]. }
  rewrite <-(take_drop pageSize rest) at 2. rewrite scan_app.
  destruct (scan (take pageSize rest) c) as [e|[r|c']] eqn:Hscan; [done..|].
  destruct (decide (_ `min` _ < _)%nat) as [Hlt|Hge]; [by rewrite drop_ge by lia|].
  apply (IH (seen ++ take pageSize rest)).
  - by rewrite <-app_assoc, take_drop.
  - pose proof (scan_chained _ _ (scan_inv _ _ _ Hscan)) as Hc. rewrite Hscan in Hc. injection Hc as ->. simpl.
    rewrite last_app. destruct (last (take pageSize rest)) eqn:E; [done|]. apply last_None, (f_equal length) in E.
    rewrite length_take in E. simpl in E. lia.
  - rewrite length_drop. lia.
Qed.

Lemma verify_eq_once t : StronglySorted by_seq t -> verify t = Some (verify_once t).
Proof. intros Hs. apply (verify_loop_once _ _ _ [] t); [unfold VERIFY_PAGE_SIZE|..]; done || lia. Qed.

Lemma chained_sorted previous t :
  chained previous t -> StronglySorted by_seq t /\ forall p, previous = Some p -> Forall (by_seq p) t.
Proof.
  revert previous. induction t as [|e t IH]; simpl; intros previous; [by repeat constructor|].
  intros [(Hseq & _)%inspect_intact Hc]. destruct (IH _ Hc) as [Hs Hf]. specialize (Hf _ eq_refl). split; [by constructor|].
  intros p ->. assert (by_seq p e) by (unfold by_seq; lia). constructor; [done|]. eapply Forall_impl; [exact Hf|].
  unfold by_seq in *. lia.
Qed.

Lemma scan_breach t c r : scan t c = inr (inl r) -> rp_intact r = false.
Proof.
  revert c. induction t as [|e t IH]; intros c; simpl; [done|].
  destruct (inspect e (cu_previous c)) as [|[b|]]; [done|by intros [= <-]|apply IH].
Qed.

Lemma verify_once_intact t r : verify_once t = inr r -> rp_intact r = true -> chained None t /\ rp_headHash r = entry_hash <$> last t.
Proof.
  unfold verify_once. destruct (scan t start) as [|[r'|c]] eqn:E; [done| |].
  - intros [= <-]. by rewrite (scan_breach _ _ _ E).
  - intros [= <-] _. apply scan_inv in E as Hc. split; [done|]. apply scan_chained in Hc. rewrite E in Hc. injection Hc as ->.
    simpl. by destruct (last t).
Qed.

Lemma verify_once_chained t : chained None t ->
  verify_once t = inr {| rp_intact := true; rp_checked := length t; rp_firstSeq := seq_of <$> list.head t;
    rp_lastSeq := seq_of <$> last t; rp_headHash := entry_hash <$> last t; rp_breach := None |}.
Proof. intros Hc. unfold verify_once. rewrite scan_chained by done. unfold report. simpl. by destruct (last t). Qed.

(** *** Appends *)

Section appends.
Context (jsonb : JsValue -> JsValue).
Context (jsonb_keeps : forall v text, canonicalJson v (js "details") = inr text -> canonicalJson (jsonb v) (js "details") = inr text).

Lemma append_chained t draft entry :
  append draft t = inr entry -> chained None t -> chained None (t ++ [stored jsonb entry]).
Proof.
  intros Ha Hc. apply chained_app. split; [done|]. simpl. split; [|done]. apply inspect_intact.
  unfold append, sealAuditEntry in Ha. destruct (_ && _); [done|]. destruct (action_type _ _) as [rt|]; [|by case_decide].
  destruct (auditEntryHash _) as [|h] eqn:Hh; [done|]. injection Ha as <-. simpl. split_and!.
  - unfold seq_of. simpl. by destruct (last t).
  - by destruct (last t).
  - unfold auditEntryHash, auditEntryPreimage in *. simpl in *.
    destruct (canonicalJson (na_details draft) (js "details")) as [|text] eqn:Hcan; [done|].
    rewrite (jsonb_keeps _ _ Hcan). done.
Qed.

Definition pending (s : Sys) : list AuditEntry := match s_tx s with Some (_, l) => l | None => [] end.

Lemma event_chained e s s' :
  event jsonb e s = Some s' -> chained None (s_table s ++ pending s) -> chained None (s_table s' ++ pending s').
Proof.
  assert (forall t, chained None (s_table s ++ t) -> chained None (s_table s ++ [])) as Hpre.
  { intros t [? _]%chained_app. by rewrite app_nil_r. }
  destruct e as [pid draft|pid|pid]; simpl.
  - destruct (match s_tx s with Some (q, _) => bool_decide (q = pid) | None => true end); [|done].
    fold (pending s). destruct (append draft (s_table s ++ pending s)) as [|entry] eqn:Ha; intros [= <-]; [apply Hpre|].
    change (chained None (s_table s ++ pending s) -> chained None (s_table s ++ (pending s ++ [stored jsonb entry]))).
    rewrite app_assoc. by apply append_chained with draft.
  - unfold pending. destruct (s_tx s) as [[q l]|]; [|done]. case_decide; [|done]. intros [= <-]. simpl. by rewrite app_nil_r.
  - unfold pending. destruct (s_tx s) as [[q l]|]; [|done]. case_decide; [|done]. intros [= <-]. simpl. apply Hpre.
Qed.

Lemma run_chained es s s' :
  run jsonb es s = Some s' -> chained None (s_table s ++ pending s) -> chained None (s_table s' ++ pending s').
Proof.
  revert s. induction es as [|e es IH]; simpl; intros s; [by intros [= <-]|].
  destruct (event jsonb e s) as [s1|] eqn:He; [|done]. intros Hr Hc. by eapply IH, event_chained.
Qed.

End appends.
End encoding.

(** ** The preimage is unambiguous *)

Definition digits (s : JSText) : Prop := Forall (fun c => 48 <= c <= 57)%N s.

Lemma pretty_N_char_digit n : (48 <= Ascii.N_of_ascii (pretty_N_char n) <= 57)%N.
Proof. unfold pretty_N_char. repeat case_match; vm_compute; split; discriminate. Qed.

Lemma pretty_N_go_digits n s : digits (js s) -> digits (js (pretty_N_go n s)).
Proof.
  revert s. induction (N.lt_wf_0 n) as [n _ IH]; intros s Hs. destruct (decide (0 < n)%N) as [Hn|Hn].
  - rewrite pretty_N_go_step by done. apply IH; [by apply N.div_lt|]. constructor; [apply pretty_N_char_digit|done].
  - by replace n with 0%N by lia.
Qed.

Lemma pretty_nat_digits (n : nat) : digits (js (pretty n)).
Proof.
  unfold pretty, pretty_nat, pretty, pretty_N. case_decide; [repeat constructor; vm_compute; discriminate|].
  apply pretty_N_go_digits. constructor.
Qed.

Lemma digits_ascii s : digits s -> ascii_text s.
Proof. intros Hd. eapply Forall_impl; [exact Hd|]. simpl. lia. Qed.

Lemma separator_inj (c : N) a b x y : c ∉ a -> c ∉ b -> a ++ c :: x = b ++ c :: y -> a = b /\ x = y.
Proof.
  revert b. induction a as [|d a IH]; intros [|e b] Ha Hb; simpl; intros H; simplify_eq; [done|set_solver..|].
  destruct (IH b) as [-> ->]; [set_solver..|done|done].
Qed.

(** What a field is in bytes, after its name. *)
Definition field_bytes (value : option JSText) : list N :=
  match value with
  | None => js "null" ++ [10%N]
  | Some v => js (pretty (byteLength v)) ++ 58%N :: utf8 v ++ [10%N]
  end.

Lemma utf8_field name value r :
  ascii_text (js name) -> ascii_start r -> utf8 (field name value ++ r) = js name ++ 58%N :: field_bytes value ++ utf8 r.
Proof.
  intros Hn Hr. destruct value as [v|]; unfold field, field_bytes.
  - rewrite <-!app_assoc, utf8_ascii_app by done. f_equal.
    rewrite (utf8_ascii_app (js ":")) by by apply ascii_text_dec.
    rewrite (utf8_ascii_app (js (pretty _))) by apply digits_ascii, pretty_nat_digits.
    rewrite (utf8_ascii_app (js ":")) by by apply ascii_text_dec.
    rewrite utf8_app by (simpl; lia). rewrite (utf8_ascii_app [10%N]) by by apply ascii_text_dec.
    change (js ":") with [58%N]. simpl. rewrite <-!app_assoc. simpl. by rewrite <-?app_assoc.
  - rewrite <-!app_assoc, utf8_ascii_app by done. f_equal.
Qed.

Lemma field_bytes_inj v1 v2 r1 r2 :
  field_bytes v1 ++ r1 = field_bytes v2 ++ r2 -> utf8 <$> v1 = utf8 <$> v2 /\ r1 = r2.
Proof.
  assert (forall v r r', field_bytes None ++ r = field_bytes (Some v) ++ r' -> False) as Hnull.
  { intros v r r' H. simpl in H. pose proof (pretty_nat_digits (byteLength v)) as Hd.
    destruct (js (pretty (byteLength v))) as [|c l]; simpl in H; injection H as Hc H; [done|].
    inversion_clear Hd. subst. lia. }
  destruct v1 as [v1|], v2 as [v2|]; intros H.
  - simpl in H. rewrite <-!app_assoc in H. simpl in H.
    apply separator_inj in H as [Hl H].
    + apply js_inj, (inj pretty) in Hl. rewrite <-!app_assoc in H. apply app_inj_1 in H as [Hu H]; [|done].
      injection H as ->. simpl. by rewrite Hu.
    + intros Hin. pose proof (pretty_nat_digits (byteLength v1)) as Hd. unfold digits in Hd. rewrite Forall_forall in Hd. apply Hd in Hin. lia.
    + intros Hin. pose proof (pretty_nat_digits (byteLength v2)) as Hd. unfold digits in Hd. rewrite Forall_forall in Hd. apply Hd in Hin. lia.
  - by destruct (Hnull _ _ _ (eq_sym H)).
  - by destruct (Hnull _ _ _ H).
  - apply app_inj_1 in H as [_ ->]; done.
Qed.

Lemma field_inj name v1 v2 r1 r2 :
  ascii_text (js name) -> ascii_start r1 -> ascii_start r2 -> utf8 (field name v1 ++ r1) = utf8 (field name v2 ++ r2) ->
  utf8 <$> v1 = utf8 <$> v2 /\ utf8 r1 = utf8 r2.
Proof.
  intros Hn H1 H2. rewrite !utf8_field by done. intros [_ H]%app_inj_1; [|done]. injection H as H. by apply field_bytes_inj in H.
Qed.

Section tamper.
Context (stringifyString : JSText -> JSText) (stringifyNumber : Z -> Z -> JSText) (toISOString : Z -> JSText)
  (sha256 : list N -> JSText).

Let preimage := auditEntryPreimage stringifyString stringifyNumber toISOString.
Let hash := auditEntryHash stringifyString stringifyNumber toISOString sha256.
Let canonical := canonicalJson stringifyString stringifyNumber.
Let chain := chained stringifyString stringifyNumber toISOString sha256.

(** An ISO timestamp is ASCII with one spelling per instant; a digest is 64
    hexadecimal digits. *)
Context (toISOString_ascii : forall t, ascii_text (toISOString t)) (toISOString_inj : Inj eq eq toISOString).
Context (sha256_hex : forall b, isChainHash (sha256 b) = true).

(** Two entries with the same contents: text is compared as the bytes it is
    stored as, and details as their canonical encoding. *)
Definition same_contents (a b : Hashable) : Prop :=
  h_seq a = h_seq b /\ h_occurredAt a = h_occurredAt b /\ utf8 (h_action a) = utf8 (h_action b) /\
  utf8 (h_resourceType a) = utf8 (h_resourceType b) /\ utf8 (h_resourceId a) = utf8 (h_resourceId b) /\
  utf8 <$> h_actorId a = utf8 <$> h_actorId b /\ utf8 <$> h_actorRole a = utf8 <$> h_actorRole b /\
  utf8 <$> h_correlationId a = utf8 <$> h_correlationId b /\
  (exists da db, canonical (h_details a) (js "details") = inr da /\ canonical (h_details b) (js "details") = inr db /\ utf8 da = utf8 db) /\
  utf8 (h_prevHash a) = utf8 (h_prevHash b).

Lemma field_start name value r : ascii_start (js name ++ js ":") -> ascii_start (field name value ++ r).
Proof. unfold field. destruct (js name), value; simpl; done. Qed.

Lemma ascii_pretty_Z (z : Z) : ascii_text (js (pretty z)).
Proof.
  destruct z as [|p|p].
  - by apply ascii_text_dec.
  - apply digits_ascii. apply (pretty_nat_digits (Pos.to_nat p)) || idtac.
    replace (pretty (Z.pos p)) with (pretty (Pos.to_nat p)); [apply pretty_nat_digits|].
    unfold pretty, pretty_nat, pretty_Z, pretty, pretty_positive. by rewrite positive_nat_N.
  - assert (pretty (Z.neg p) = "-" +:+ pretty (Pos.to_nat p)) as ->.
    { unfold pretty, pretty_nat, pretty_Z, pretty, pretty_positive. by rewrite positive_nat_N. }
    constructor; [vm_compute; done|]. apply digits_ascii, pretty_nat_digits.
Qed.

Lemma some_utf8_inj a b : utf8 <$> Some a = utf8 <$> Some b -> utf8 a = utf8 b.
Proof. by intros [= ?]. Qed.

Lemma preimage_inj a b pa pb : preimage a = inr pa -> preimage b = inr pb -> utf8 pa = utf8 pb -> same_contents a b.
Proof.
  unfold preimage, auditEntryPreimage. fold canonical.
  destruct (canonical (h_details a) (js "details")) as [|da] eqn:Da; [done|].
  destruct (canonical (h_details b) (js "details")) as [|db] eqn:Db; [done|]. intros [= <-] [= <-] H. unfold preimage_text in H.
  apply field_inj in H as [_ H]; [|by apply ascii_text_dec|done..].
  apply field_inj in H as [Hseq H]; [|by apply ascii_text_dec|done..].
  apply field_inj in H as [Hat H]; [|by apply ascii_text_dec|done..].
  apply field_inj in H as [Hact H]; [|by apply ascii_text_dec|done..].
  apply field_inj in H as [Hrt H]; [|by apply ascii_text_dec|done..].
  apply field_inj in H as [Hri H]; [|by apply ascii_text_dec|by apply field_start..].
  apply field_inj in H as [Hai H]; [|by apply ascii_text_dec|by apply field_start..].
  apply field_inj in H as [Har H]; [|by apply ascii_text_dec|by apply field_start..].
  apply field_inj in H as [Hci H]; [|by apply ascii_text_dec|done..].
  apply field_inj in H as [Hd H]; [|by apply ascii_text_dec|done..].
  rewrite <-(app_nil_r (field "prevHash" (Some (h_prevHash a)))), <-(app_nil_r (field "prevHash" (Some (h_prevHash b)))) in H.
  apply field_inj in H as [Hph _]; [|by apply ascii_text_dec|done..].
  apply some_utf8_inj in Hseq, Hat, Hact, Hrt, Hri, Hd, Hph.
  rewrite !utf8_ascii in Hseq by apply ascii_pretty_Z. rewrite !utf8_ascii in Hat by done.
  apply js_inj, (inj pretty) in Hseq. apply toISOString_inj in Hat. unfold same_contents. split_and!; eauto 6.
Qed.

Lemma chain_hash_ascii x : isChainHash x = true -> ascii_text x.
Proof.
  unfold isChainHash, hex_digit. intros [_ H]%andb_true_iff. rewrite forallb_forall in H. apply Forall_forall.
  intros c Hc%list_elem_of_In%H. apply orb_true_iff in Hc as [Hc|Hc]; apply bool_decide_eq_true in Hc; lia.
Qed.

(** Two entries that are hashed as different bytes with one digest. *)
Definition collide (a b : Hashable) : Prop :=
  exists pa pb, preimage a = inr pa /\ preimage b = inr pb /\ utf8 pa <> utf8 pb /\ sha256 (utf8 pa) = sha256 (utf8 pb).

(** An entry of one log and an entry of another that collide. *)
Definition collision (t1 t2 : Table) : Prop :=
  exists a b, a ∈ t1 /\ b ∈ t2 /\ collide (entry_of a) (entry_of b).

Lemma collision_mono t1 t2 t1' t2' : collision t1 t2 -> t1 ⊆ t1' -> t2 ⊆ t2' -> collision t1' t2'.
Proof. intros (a & b & Ha & Hb & Hc) H1 H2. exists a, b. auto. Qed.

Lemma hash_inj a b h : hash a = inr h -> hash b = inr h -> same_contents a b \/ collide a b.
Proof.
  unfold hash, auditEntryHash. fold preimage. destruct (preimage a) as [|pa] eqn:Ha; [done|].
  destruct (preimage b) as [|pb] eqn:Hb; [done|]. intros [= Hxa] [= Hxb].
  destruct (decide (utf8 pa = utf8 pb)) as [Heq|Hne]; [left; by eapply preimage_inj|].
  right. exists pa, pb. split_and!; [done|done|done|congruence].
Qed.

Definition same_rows (t1 t2 : Table) : Prop :=
  Forall2 (fun a b => same_contents (entry_of a) (entry_of b) /\ entry_hash a = entry_hash b) t1 t2.

Lemma chain_snoc t e :
  chain None (t ++ [e]) -> chain None t /\ seq_of e = Z.of_nat (length t) + 1 /\
  h_prevHash (entry_of e) = match last t with Some p => entry_hash p | None => GENESIS_HASH end /\ hash (entry_of e) = inr (entry_hash e).
Proof.
  intros [Ht [He _]]%chained_app. split; [done|]. apply inspect_intact in He as (Hseq & Hprev & Hh).
  split; [|split; [by destruct (last t)|done]].
  clear Hprev Hh. revert e Hseq. induction t as [|p t IH] using rev_ind; intros e Hseq; simpl in *; [done|].
  rewrite last_snoc in Hseq. apply chained_app in Ht as [Ht [Hp _]]. apply inspect_intact in Hp as (Hp & _).
  rewrite Hseq, length_app. rewrite (IH Ht p Hp). simpl. lia.
Qed.

Lemma chain_last_hex t e : chain None t -> last t = Some e -> ascii_text (entry_hash e).
Proof.
  intros Hc [l ->]%last_Some. apply chain_snoc in Hc as (_ & _ & _ & Hh). unfold hash, auditEntryHash in Hh.
  destruct (auditEntryPreimage _ _ _ _); [done|]. injection Hh as <-. by apply chain_hash_ascii.
Qed.

Lemma genesis_ascii : ascii_text GENESIS_HASH.
Proof. by apply ascii_text_dec. Qed.

(** Two chains that end in one hash are one chain. *)
Lemma same_head t1 t2 e1 e2 :
  chain None (t1 ++ [e1]) -> chain None (t2 ++ [e2]) -> entry_hash e1 = entry_hash e2 ->
  same_rows (t1 ++ [e1]) (t2 ++ [e2]) \/ collision (t1 ++ [e1]) (t2 ++ [e2]).
Proof.
  revert t2 e1 e2. induction t1 as [|p1 t1 IH] using rev_ind; intros t2 e1 e2 H1 H2 Hh;
    apply chain_snoc in H1 as (Hc1 & Hs1 & Hp1 & Hh1); apply chain_snoc in H2 as (Hc2 & Hs2 & Hp2 & Hh2);
    rewrite Hh in Hh1; (destruct (hash_inj _ _ _ Hh1 Hh2) as [Hsame|?]; [|by right; exists e1, e2; set_solver]);
    pose proof Hsame as (Hseq & _ & _ & _ & _ & _ & _ & _ & _ & Hprev); unfold seq_of in *; rewrite Hs1, Hs2 in Hseq;
    destruct t2 as [|p2 t2 _] using rev_ind; rewrite ?length_app in Hseq; simpl in Hseq; try lia.
  - left. constructor; [done|constructor].
  - rewrite !last_snoc in *. rewrite Hp1, Hp2 in Hprev.
    rewrite (utf8_ascii (entry_hash p1)) in Hprev by exact (chain_last_hex _ _ Hc1 (last_snoc _ _)).
    rewrite (utf8_ascii (entry_hash p2)) in Hprev by exact (chain_last_hex _ _ Hc2 (last_snoc _ _)).
    destruct (IH t2 p1 p2 Hc1 Hc2 Hprev) as [Hrows|Hcol]; [left|by right; eapply collision_mono; [exact Hcol|set_solver..]].
    apply Forall2_app; [done|]. constructor; [done|constructor].
Qed.

End tamper.

Lemma run_table_chained ss sn iso sha jsonb es s :
  (forall v text, canonicalJson ss sn v (js "details") = inr text -> canonicalJson ss sn (jsonb v) (js "details") = inr text) ->
  run ss sn iso sha jsonb es {| s_table := []; s_tx := None |} = Some s -> chained ss sn iso sha None (s_table s).
Proof.
  intros Hj Hrun. apply (run_chained ss sn iso sha jsonb Hj) in Hrun; [|done]. by apply chained_app in Hrun as [? _].
Qed.

(** ** Theorems *)

(** C22: Whatever transactions append, commit and roll back, in whatever order,
    the committed log verifies: [verify] returns, reports every entry checked
    and no breach, from the first entry to the head. *)
Theorem audit_log_verifies ss sn iso sha jsonb es s :
  (forall v text, canonicalJson ss sn v (js "details") = inr text -> canonicalJson ss sn (jsonb v) (js "details") = inr text) ->
  run ss sn iso sha jsonb es {| s_table := []; s_tx := None |} = Some s ->
  verify ss sn iso sha (s_table s) = Some (inr {|
    rp_intact := true; rp_checked := length (s_table s); rp_firstSeq := seq_of <$> list.head (s_table s);
    rp_lastSeq := seq_of <$> last (s_table s); rp_headHash := entry_hash <$> head (s_table s); rp_breach := None |}).
Proof.
  intros Hj Hrun. pose proof (run_table_chained _ _ _ _ _ _ _ Hj Hrun) as Hc.
  rewrite verify_eq_once by by eapply chained_sorted. by rewrite verify_once_chained.
Qed.

(** Verification does not depend on its pages: on any table with unique
    sequence numbers, tampered with or not, the loop ends and answers exactly
    what one pass over the whole table answers. *)
Theorem verify_pages_irrelevant ss sn iso sha t :
  StronglySorted by_seq t -> verify ss sn iso sha t = Some (verify_once ss sn iso sha t).
Proof. apply verify_eq_once. Qed.

(** C5: A head hash pins the whole log.  Two logs that both verify and report
    the same head hash hold the same entries, field by field and from the
    first one - or an entry of one and an entry of the other are hashed as
    different bytes to one SHA-256 digest. *)
Theorem audit_head_pins_history ss sn iso sha t1 t2 r1 r2 h :
  (forall t, ascii_text (iso t)) -> Inj eq eq iso -> (forall b, isChainHash (sha b) = true) ->
  StronglySorted by_seq t1 -> StronglySorted by_seq t2 ->
  verify ss sn iso sha t1 = Some (inr r1) -> verify ss sn iso sha t2 = Some (inr r2) ->
  rp_intact r1 = true -> rp_intact r2 = true -> rp_headHash r1 = Some h -> rp_headHash r2 = Some h ->
  same_rows ss sn t1 t2 \/ collision ss sn iso sha t1 t2.
Proof.
  intros Hasc Hinj Hhex Hs1 Hs2. rewrite !verify_eq_once by done. intros [= Hv1] [= Hv2] Hi1 Hi2 Hh1 Hh2.
  apply verify_once_intact in Hv1 as [Hc1 Hr1]; [|done]. apply verify_once_intact in Hv2 as [Hc2 Hr2]; [|done].
  rewrite Hh1 in Hr1. rewrite Hh2 in Hr2. symmetry in Hr1, Hr2.
  apply fmap_Some in Hr1 as (e1 & [l1 ->]%last_Some & He1). apply fmap_Some in Hr2 as (e2 & [l2 ->]%last_Some & He2).
  apply (same_head ss sn iso sha Hasc Hinj Hhex); congruence.
Qed.

(** *** Concrete logs *)

Definition sample_string (s : JSText) : JSText := js dq ++ s ++ js dq.
Definition sample_number (m e : Z) : JSText := js (pretty m) ++ js "p" ++ js (pretty e).
Definition sample_iso (t : Z) : JSText := js (pretty t).
Definition sample_sha (b : list N) : JSText := replicate 64 (97 + N.of_nat (length b) mod 6)%N.

Definition sample_draft (who : string) : NewAuditEntry :=
  record 5 (js "user.deleted") (js who) (JsPlain [("email"%string, JsString (js "a@b.c"))]) None None.

Definition sample_events : list Event :=
  [EvAppend 1 (sample_draft "u1"); EvAppend 1 (sample_draft "u2"); EvCommit 1; EvAppend 2 (sample_draft "u3"); EvRollback 2;
   EvAppend 3 (sample_draft "u4"); EvCommit 3].

Definition sample_log : Sys :=
  default {| s_table := []; s_tx := None |}
    (run sample_string sample_number sample_iso sample_sha id sample_events {| s_table := []; s_tx := None |}).

Lemma audit_log_verifies_witness :
  length (s_table sample_log) = 3%nat /\
  verify sample_string sample_number sample_iso sample_sha (s_table sample_log) = Some (inr {|
    rp_intact := true; rp_checked := length (s_table sample_log); rp_firstSeq := seq_of <$> list.head (s_table sample_log);
    rp_lastSeq := seq_of <$> last (s_table sample_log); rp_headHash := entry_hash <$> head (s_table sample_log); rp_breach := None |}).
Proof.
  split; [vm_compute; reflexivity|].
  apply (audit_log_verifies sample_string sample_number sample_iso sample_sha id sample_events sample_log).
  - intros v text H. exact H.
  - vm_compute. reflexivity.
Defined.

Lemma sample_log_sorted : StronglySorted by_seq (s_table sample_log).
Proof.
  refine (proj1 (chained_sorted sample_string sample_number sample_iso sample_sha None _ _)).
  apply (run_table_chained sample_string sample_number sample_iso sample_sha id sample_events); [by intros v text|].
  vm_compute. reflexivity.
Qed.

Lemma verify_pages_irrelevant_witness :
  verify sample_string sample_number sample_iso sample_sha (s_table sample_log) =
  Some (verify_once sample_string sample_number sample_iso sample_sha (s_table sample_log)).
Proof. apply (verify_pages_irrelevant sample_string sample_number sample_iso sample_sha (s_table sample_log)). exact sample_log_sorted. Defined.

Lemma sample_sha_hex b : isChainHash (sample_sha b) = true.
Proof.
  unfold isChainHash, sample_sha. rewrite length_replicate. apply andb_true_iff. split; [done|].
  apply forallb_forall. intros c Hc%list_elem_of_In%elem_of_replicate. destruct Hc as [-> _].
  unfold hex_digit. apply orb_true_iff. right. apply bool_decide_eq_true.
  pose proof (N.mod_lt (N.of_nat (length b)) 6 ltac:(done)) as H. revert H. generalize (N.of_nat (length b) mod 6)%N. lia.
Qed.

Lemma sample_iso_inj : Inj eq eq sample_iso.
Proof. intros a b H. by apply js_inj, (inj pretty) in H. Qed.

Lemma audit_head_pins_history_witness :
  same_rows sample_string sample_number (s_table sample_log) (s_table sample_log) \/
  collision sample_string sample_number sample_iso sample_sha (s_table sample_log) (s_table sample_log).
Proof.
  apply (audit_head_pins_history sample_string sample_number sample_iso sample_sha (s_table sample_log) (s_table sample_log)
    {| rp_intact := true; rp_checked := length (s_table sample_log); rp_firstSeq := seq_of <$> list.head (s_table sample_log);
       rp_lastSeq := seq_of <$> last (s_table sample_log); rp_headHash := entry_hash <$> head (s_table sample_log); rp_breach := None |}
    {| rp_intact := true; rp_checked := length (s_table sample_log); rp_firstSeq := seq_of <$> list.head (s_table sample_log);
       rp_lastSeq := seq_of <$> last (s_table sample_log); rp_headHash := entry_hash <$> head (s_table sample_log); rp_breach := None |}
    (default [] (entry_hash <$> head (s_table sample_log)))).
  - exact ascii_pretty_Z.
  - exact sample_iso_inj.
  - exact sample_sha_hex.
  - exact sample_log_sorted.
  - exact sample_log_sorted.
  - vm_compute. reflexivity.
  - vm_compute. reflexivity.
  - reflexivity.
  - reflexivity.
  - vm_compute. reflexivity.
  - vm_compute. reflexivity.
Defined.
