(* ===== verification/Orders.v ===== *)
(** * Orders: baskets, prices, the warehouse and the carrier

    [orders/basket.ts], [orders/catalogue.ts] and the in-process participants
    of the checkout, [orders/services].  Quantities and minor units are
    integers; a number that JavaScript would make [NaN] is [None].  A name every
    object inherits is not a SKU the request validation lets through, which is
    the hypothesis of [order_priced] on names. *)

From S2P Require Import Prelude Json Idempotency.

(** ** [basket.ts] *)

(** A line with whatever else it carries: nothing for a [ReservedLine], the
    unit price for an [OrderItem]. *)
Record Line (X : Type) := { sku : string; quantity : Z; extra : X }.
Arguments sku {_} _.
Arguments quantity {_} _.
Arguments extra {_} _.

Abbreviation ReservedLine := (Line unit).

(** [unitPriceMinor]; [None] is [undefined]. *)
Abbreviation OrderItem := (Line (option Z)).

Definition MAX_QUANTITY_PER_SKU : Z := 100.

Inductive BasketError :=
  | LineQuantityExceededError (sku : string) (quantity : Z)
  | UnknownSkuError (sku : string).

Section basket.
Context {X : Type}.
Implicit Types (l : Line X) (ls : list (Line X)).

Definition add_quantity (q : Z) l : Line X := {| sku := sku l; quantity := quantity l + q; extra := extra l |}.

(** [merged.set(line.sku, ...)] on a map in insertion order. *)
Fixpoint merge_into l ls : list (Line X) :=
  match ls with
  | [] => [l]
  | seen :: rest => if decide (sku seen = sku l) then add_quantity (quantity l) seen :: rest else seen :: merge_into l rest
  end.

Definition mergeLines ls : list (Line X) := foldl (fun merged l => merge_into l merged) [] ls.

Fixpoint over_bound ls : option (Line X) :=
  match ls with
  | [] => None
  | l :: ls => if decide (MAX_QUANTITY_PER_SKU < quantity l) then Some l else over_bound ls
  end.

Definition canonicaliseBasket ls : BasketError + list (Line X) :=
  let basket := mergeLines ls in
  match over_bound basket with
  | Some l => inl (LineQuantityExceededError (sku l) (quantity l))
  | None => inr basket
  end.

(** How much of a product a list of lines is for. *)
Definition quantity_of (s : string) ls : Z :=
  foldr (fun l total => (if decide (sku l = s) then quantity l else 0) + total) 0 ls.

End basket.

(** ** [catalogue.ts] *)

Definition CATALOGUE_CURRENCY : string := "GBP".

Definition PRODUCT_CATALOGUE : list (string * Z) :=
  [("SKU-DESK-01", 34900); ("SKU-CHAIR-02", 18500); ("SKU-LAMP-03", 4250); ("SKU-SOLD-OUT", 999)]%string.

Fixpoint unit_price (s : string) (catalogue : list (string * Z)) : option Z :=
  match catalogue with
  | [] => None
  | (name, price) :: catalogue => if decide (name = s) then Some price else unit_price s catalogue
  end.

(** One line's price; a name every object inherits is an entry without one. *)
Definition price_line (l : ReservedLine) : BasketError + OrderItem :=
  match unit_price (sku l) PRODUCT_CATALOGUE with
  | Some price => inr {| sku := sku l; quantity := quantity l; extra := Some price |}
  | None =>
      if decide (js (sku l) ∈ objectPrototype) then inr {| sku := sku l; quantity := quantity l; extra := None |}
      else inl (UnknownSkuError (sku l))
  end.

Fixpoint price_lines (ls : list ReservedLine) : BasketError + list OrderItem :=
  match ls with
  | [] => inr []
  | l :: ls =>
      match price_line l with
      | inl e => inl e
      | inr item => match price_lines ls with inl e => inl e | inr items => inr (item :: items) end
      end
  end.

(** [items.reduce((sum, item) => sum + item.unitPriceMinor * item.quantity, 0)] *)
Definition amount (items : list OrderItem) : option Z :=
  foldl (fun sum item =>
    match sum, extra item with Some sum, Some price => Some (sum + price * quantity item) | _, _ => None end) (Some 0) items.

Record PricedOrder := { po_items : list OrderItem; po_amountMinor : option Z; po_currency : string }.

Definition priceOrder (lines : list ReservedLine) : BasketError + PricedOrder :=
  match price_lines lines with
  | inl e => inl e
  | inr priced =>
      match canonicaliseBasket priced with
      | inl e => inl e
      | inr items => inr {| po_items := items; po_amountMinor := amount items; po_currency := CATALOGUE_CURRENCY |}
      end
  end.

(** ** [in-memory-inventory.service.ts] *)

Record StockReservation := { res_id : string; res_orderId : string; res_lines : list ReservedLine; res_held : bool }.

Record Inventory := { stock : gmap string Z; reservations : gmap string StockReservation }.

Definition SEED_STOCK : gmap string Z :=
  list_to_map [("SKU-DESK-01", 25); ("SKU-CHAIR-02", 40); ("SKU-LAMP-03", 12); ("SKU-SOLD-OUT", 0)]%string.

Definition newInventory : Inventory := {| stock := SEED_STOCK; reservations := ∅ |}.

Definition stockOf (inv : Inventory) (s : string) : Z := default 0 (stock inv !! s).

Record OutOfStockError := { oos_sku : string; oos_requested : Z; oos_available : Z }.

Fixpoint short (st : gmap string Z) (lines : list ReservedLine) : option OutOfStockError :=
  match lines with
  | [] => None
  | l :: lines =>
      let available := default 0 (st !! sku l) in
      if decide (available < quantity l) then Some {| oos_sku := sku l; oos_requested := quantity l; oos_available := available |}
      else short st lines
  end.

(** [stock.set(line.sku, (stock.get(line.sku) ?? 0) + delta)] per line. *)
Definition move (sign : Z) (lines : list ReservedLine) (st : gmap string Z) : gmap string Z :=
  foldl (fun st l => <[sku l := default 0 (st !! sku l) + sign * quantity l]> st) st lines.

Definition reserve (orderId reservationId : string) (input : list ReservedLine) (inv : Inventory) :
    (OutOfStockError + StockReservation) * Inventory :=
  match reservations inv !! reservationId with
  | Some existing => (inr existing, inv)
  | None =>
      let lines := mergeLines input in
      match short (stock inv) lines with
      | Some e => (inl e, inv)
      | None =>
          let reservation := {| res_id := reservationId; res_orderId := orderId; res_lines := lines; res_held := true |} in
          (inr reservation,
           {| stock := move (-1) lines (stock inv); reservations := <[reservationId := reservation]> (reservations inv) |})
      end
  end.

Definition let_go (r : StockReservation) : StockReservation :=
  {| res_id := res_id r; res_orderId := res_orderId r; res_lines := res_lines r; res_held := false |}.

Definition release (reservationId : string) (inv : Inventory) : Inventory :=
  match reservations inv !! reservationId with
  | Some r =>
      if res_held r then
        {| stock := move 1 (res_lines r) (stock inv); reservations := <[reservationId := let_go r]> (reservations inv) |}
      else inv
  | None => inv
  end.

Definition findReservation (reservationId : string) (inv : Inventory) : option StockReservation :=
  reservations inv !! reservationId.

Definition setStock (s : string) (q : Z) (inv : Inventory) : Inventory :=
  {| stock := <[s := q]> (stock inv); reservations := reservations inv |}.

(** [reset]: the shelves as they were and no hold, whatever there was. *)
Definition resetInventory (inv : Inventory) : Inventory :=
  {| stock := foldl (fun st '(s, q) => <[s := q]> st) ∅ (map_to_list SEED_STOCK); reservations := ∅ |}.

(** ** [in-memory-shipping.service.ts] *)

Definition SERVICED_COUNTRIES : list string := ["GB"; "IE"; "FR"; "DE"; "US"; "CA"]%string.
Definition CARRIERS : list string := ["parcelforce"; "dhl"; "ups"]%string.

Record Shipment := {
  sh_id : string; sh_orderId : string; sh_carrier : string; sh_trackingCode : string; sh_destination : string }.

Record Shipping := { shipments : gmap string Shipment; sequence : nat }.

Definition newShipping : Shipping := {| shipments := ∅; sequence := 0 |}.

Definition createShipment (orderId destination shipmentId : string) (w : Shipping) : (string + Shipment) * Shipping :=
  match shipments w !! shipmentId with
  | Some existing => (inr existing, w)
  | None =>
      let destination := toUpperCase destination in
      if decide (destination ∈ SERVICED_COUNTRIES) then
        let n := S (sequence w) in
        let shipment := {|
          sh_id := shipmentId; sh_orderId := orderId;
          sh_carrier := default "parcelforce"%string (CARRIERS !! (n mod length CARRIERS)%nat);
          sh_trackingCode := "TRK" +:+ padStart 8 (pretty n); sh_destination := destination |} in
        (inr shipment, {| shipments := <[shipmentId := shipment]> (shipments w); sequence := n |})
      else (inl destination, w)
  end.

Definition findShipment (shipmentId : string) (w : Shipping) : option Shipment := shipments w !! shipmentId.

Definition resetShipping (w : Shipping) : Shipping := {| shipments := ∅; sequence := 0 |}.

(** ** Merging *)

Section merge.
Context {X : Type}.
Implicit Types (l : Line X) (ls : list (Line X)).

Lemma merge_into_skus l ls :
  sku <$> merge_into l ls = if decide (sku l ∈ sku <$> ls) then sku <$> ls else (sku <$> ls) ++ [sku l].
Proof.
  induction ls as [|seen ls IH]; [done|]. cbn [merge_into]. destruct (decide (sku seen = sku l)) as [Heq|Hne]; rewrite !fmap_cons.
  - rewrite decide_True by (rewrite Heq; left). done.
  - rewrite IH. destruct (decide (sku l ∈ sku <$> ls)) as [Hin|Hout].
    + by rewrite decide_True by (by right).
    + rewrite decide_False; [done|]. rewrite elem_of_cons. intros [?|?]; congruence.
Qed.

Lemma merge_into_NoDup l ls : NoDup (sku <$> ls) -> NoDup (sku <$> merge_into l ls).
Proof.
  intros Hnd. rewrite merge_into_skus. case_decide as Hin; [done|]. apply NoDup_app. split; [done|].
  split; [|by apply NoDup_singleton]. intros x Hx ->%list_elem_of_singleton. done.
Qed.

(** Any weight per unit of a product is conserved. *)
Definition worth (f : string -> Z) ls : Z := foldr (fun l total => f (sku l) * quantity l + total) 0 ls.

Lemma merge_into_worth f l ls : worth f (merge_into l ls) = worth f ls + f (sku l) * quantity l.
Proof.
  induction ls as [|seen ls IH]; simpl; [lia|]. case_decide as Heq; simpl; [rewrite Heq; lia|]. rewrite IH. lia.
Qed.

Lemma foldl_merge_worth f ls acc : worth f (foldl (fun merged l => merge_into l merged) acc ls) = worth f acc + worth f ls.
Proof. revert acc. induction ls as [|l ls IH]; intros acc; simpl; [lia|]. rewrite IH, merge_into_worth. lia. Qed.

Lemma mergeLines_worth f ls : worth f (mergeLines ls) = worth f ls.
Proof. apply foldl_merge_worth. Qed.

Lemma quantity_of_worth s ls : quantity_of s ls = worth (fun x => if decide (x = s) then 1 else 0) ls.
Proof. induction ls as [|l ls IH]; simpl; [done|]. rewrite IH. case_decide; lia. Qed.

Lemma mergeLines_quantity s ls : quantity_of s (mergeLines ls) = quantity_of s ls.
Proof. rewrite !quantity_of_worth. apply mergeLines_worth. Qed.

Lemma foldl_merge_NoDup ls acc : NoDup (sku <$> acc) -> NoDup (sku <$> foldl (fun merged l => merge_into l merged) acc ls).
Proof. revert acc. induction ls as [|l ls IH]; intros acc; simpl; [done|]. intros. by apply IH, merge_into_NoDup. Qed.

Lemma mergeLines_NoDup ls : NoDup (sku <$> mergeLines ls).
Proof. apply foldl_merge_NoDup. constructor. Qed.

Lemma merge_into_fresh l ls : sku l ∉ sku <$> ls -> merge_into l ls = ls ++ [l].
Proof.
  induction ls as [|seen ls IH]; simpl; [done|]. rewrite elem_of_cons. intros Hn. rewrite decide_False by naive_solver.
  rewrite IH by naive_solver. done.
Qed.

Lemma mergeLines_merged ls : NoDup (sku <$> ls) -> mergeLines ls = ls.
Proof.
  unfold mergeLines. enough (forall acc, NoDup (sku <$> (acc ++ ls)) -> foldl (fun merged l => merge_into l merged) acc ls = acc ++ ls)
    as H by (intros; by apply (H [])).
  induction ls as [|l ls IH]; intros acc; simpl; [by rewrite app_nil_r|]. intros Hnd.
  rewrite merge_into_fresh.
  - rewrite IH; rewrite <-app_assoc; done.
  - rewrite fmap_app, fmap_cons in Hnd. apply NoDup_app in Hnd as (_ & Hd & _). intros Hin. apply (Hd _ Hin). left.
Qed.

(** A property of every line that merging cannot break. *)
Lemma mergeLines_Forall (P : string -> X -> Prop) ls :
  Forall (fun l => P (sku l) (extra l)) ls -> Forall (fun l => P (sku l) (extra l)) (mergeLines ls).
Proof.
  unfold mergeLines. enough (forall acc, Forall (fun l => P (sku l) (extra l)) acc -> Forall (fun l => P (sku l) (extra l)) ls ->
    Forall (fun l => P (sku l) (extra l)) (foldl (fun merged l => merge_into l merged) acc ls)) as H by (intros; by apply H).
  induction ls as [|l ls IH]; intros acc Hacc Hls; simpl; [done|]. inversion_clear Hls as [|? ? Hl Hrest]. apply IH; [|done].
  clear -Hacc Hl. induction Hacc as [|seen acc Hs Ha IH]; simpl; [by constructor|]. case_decide; by constructor.
Qed.

Lemma quantity_of_bound ls s q :
  NoDup (sku <$> ls) -> 0 <= q -> Forall (fun l => quantity l <= q) ls -> quantity_of s ls <= q.
Proof.
  intros Hnd Hq Hf. induction Hf as [|l ls Hl Hf IH]; simpl; [done|]. apply NoDup_cons in Hnd as [Hn Hnd].
  case_decide as Heq; [|rewrite Z.add_0_l; auto].
  enough (quantity_of s ls = 0) by lia. subst s. clear -Hn. induction ls as [|l' ls IH]; simpl; [done|].
  apply not_elem_of_cons in Hn as [Hne Hn]. rewrite decide_False by congruence. by rewrite IH.
Qed.

Lemma quantity_of_nonneg ls s : Forall (fun l => 0 <= quantity l) ls -> 0 <= quantity_of s ls.
Proof. induction 1 as [|l ls Hl Hf IH]; simpl; [done|]. case_decide; lia. Qed.

Lemma over_bound_None ls : over_bound ls = None -> Forall (fun l => quantity l <= MAX_QUANTITY_PER_SKU) ls.
Proof. induction ls as [|l ls IH]; simpl; [constructor|]. case_decide; [done|]. constructor; [lia|auto]. Qed.

End merge.

(** ** Prices *)

Definition price (s : string) : Z := default 0 (unit_price s PRODUCT_CATALOGUE).

Lemma amount_worth items :
  Forall (fun i => extra i = Some (price (sku i))) items -> amount items = Some (worth price items).
Proof.
  unfold amount. enough (forall acc, Forall (fun i => extra i = Some (price (sku i))) items ->
    foldl (fun sum item => match sum, extra item with Some sum, Some p => Some (sum + p * quantity item) | _, _ => None end)
      (Some acc) items = Some (acc + worth price items)) as H by (intros; by rewrite H).
  induction items as [|i items IH]; intros acc Hf; simpl; [f_equal; lia|]. inversion_clear Hf as [|? ? Hi Hf'].
  rewrite Hi, IH by done. f_equal. lia.
Qed.

Lemma price_lines_inr lines items :
  price_lines lines = inr items -> Forall (fun l => js (sku l) ∉ objectPrototype) lines ->
  worth price items = worth price lines /\ (forall s, quantity_of s items = quantity_of s lines) /\
  Forall (fun i => is_Some (unit_price (sku i) PRODUCT_CATALOGUE) /\ extra i = Some (price (sku i))) items.
Proof.
  intros H Hpl. revert items H. induction Hpl as [|l lines Hl Hpl IH]; simpl; intros items.
  - intros [= <-]. by split_and!.
  - unfold price_line. destruct (unit_price (sku l) PRODUCT_CATALOGUE) as [p|] eqn:Hp; [|by rewrite decide_False].
    destruct (price_lines lines) as [|items'] eqn:E; [done|]. intros [= <-]. destruct (IH _ eq_refl) as (Hw & Hq & Hf).
    split_and!; simpl; [by rewrite Hw|intros s; by rewrite Hq|]. constructor; [|done]. simpl. unfold price. rewrite Hp. eauto.
Qed.

(** What a basket is worth, product by product. *)
Lemma worth_by_product {X} (ls : list (Line X)) :
  Forall (fun l => is_Some (unit_price (sku l) PRODUCT_CATALOGUE)) ls ->
  worth price ls = 34900 * quantity_of "SKU-DESK-01" ls + 18500 * quantity_of "SKU-CHAIR-02" ls +
    4250 * quantity_of "SKU-LAMP-03" ls + 999 * quantity_of "SKU-SOLD-OUT" ls.
Proof.
  induction 1 as [|l ls [p Hp] Hf IH]; [done|]. simpl. rewrite IH. clear IH.
  assert (price (sku l) = p) as -> by (unfold price; by rewrite Hp).
  unfold PRODUCT_CATALOGUE in Hp. simpl in Hp.
  repeat case_decide; simplify_eq; first [lia|congruence].
Qed.

(** ** The warehouse *)

Lemma stock_move sign lines st s :
  default 0 (move sign lines st !! s) = default 0 (st !! s) + sign * quantity_of s lines.
Proof.
  unfold move. revert st. induction lines as [|l lines IH]; intros st; simpl; [lia|].
  rewrite IH, lookup_insert. destruct (decide (sku l = s)) as [<-|]; simpl; lia.
Qed.

Lemma short_None st lines : short st lines = None -> Forall (fun l => quantity l <= default 0 (st !! sku l)) lines.
Proof. induction lines as [|l lines IH]; simpl; [constructor|]. case_decide; [done|]. constructor; [lia|auto]. Qed.

Lemma short_quantity st lines s :
  NoDup (sku <$> lines) -> short st lines = None -> 0 <= default 0 (st !! s) -> quantity_of s lines <= default 0 (st !! s).
Proof.
  intros Hnd Hs%short_None H0. induction Hs as [|l lines Hl Hs IH]; simpl; [done|]. apply NoDup_cons in Hnd as [Hn Hnd].
  case_decide as Heq; [|rewrite Z.add_0_l; auto]. subst s. enough (quantity_of (sku l) lines = 0) by lia.
  clear -Hn. induction lines as [|l' ls IH]; simpl; [done|]. apply not_elem_of_cons in Hn as [Hne Hn].
  rewrite decide_False by congruence. by rewrite IH.
Qed.

(** Stock that is held for somebody. *)
Definition held_by (s : string) (r : StockReservation) : Z := if res_held r then quantity_of s (res_lines r) else 0.

Definition held (s : string) (m : gmap string StockReservation) : Z := map_fold (fun _ r total => held_by s r + total) 0 m.

Lemma held_insert s m id r : m !! id = None -> held s (<[id := r]> m) = held_by s r + held s m.
Proof. intros Hn. unfold held. rewrite map_fold_insert_L; [done| |done]. intros. lia. Qed.

Lemma held_update s m id r r' : m !! id = Some r -> held s (<[id := r']> m) = held s m - held_by s r + held_by s r'.
Proof.
  intros Hr.
  assert (held s m = held_by s r + held s (delete id m)) as ->.
  { rewrite <-(insert_delete_id m id r Hr) at 1. apply held_insert, lookup_delete_eq. }
  rewrite <-(insert_delete_eq m id r'), held_insert by apply lookup_delete_eq. lia.
Qed.

(** What the saga, its retries and its compensations do to the warehouse. *)
Inductive InventoryCall :=
  | Reserve (orderId reservationId : string) (lines : list ReservedLine)
  | Release (reservationId : string).

Definition inventory_call (c : InventoryCall) (inv : Inventory) : Inventory :=
  match c with
  | Reserve orderId id lines => (reserve orderId id lines inv).2
  | Release id => release id inv
  end.

Definition inventory_run (cs : list InventoryCall) (inv : Inventory) : Inventory :=
  foldl (fun inv c => inventory_call c inv) inv cs.

Definition positive_call (c : InventoryCall) : Prop :=
  match c with Reserve _ _ lines => Forall (fun l => 0 <= quantity l) lines | Release _ => True end.

Record balanced (total : string -> Z) (inv : Inventory) : Prop := {
  bal_total : forall s, stockOf inv s + held s (reservations inv) = total s;
  bal_stock : forall s, 0 <= stockOf inv s;
  bal_lines : forall id r s, reservations inv !! id = Some r -> 0 <= quantity_of s (res_lines r);
}.

Lemma reserve_balanced total orderId id lines inv :
  Forall (fun l => 0 <= quantity l) lines -> balanced total inv -> balanced total (reserve orderId id lines inv).2.
Proof.
  intros Hpos [Ht Hs Hl]. unfold reserve. destruct (reservations inv !! id) eqn:Hid; [done|].
  destruct (short (stock inv) (mergeLines lines)) eqn:Hsh; [done|].
  assert (forall s, 0 <= quantity_of s (mergeLines lines)) as Hq.
  { intros s. rewrite mergeLines_quantity. by apply quantity_of_nonneg. }
  split; simpl.
  - intros s. unfold stockOf. simpl. rewrite stock_move, held_insert by done. unfold held_by. simpl.
    specialize (Ht s). unfold stockOf in Ht. lia.
  - intros s. unfold stockOf. simpl. rewrite stock_move.
    pose proof (short_quantity _ _ s (mergeLines_NoDup lines) Hsh (Hs s)). unfold stockOf in *. lia.
  - intros k r s. rewrite lookup_insert. case_decide; [by intros [= <-]|]. apply Hl.
Qed.

Lemma release_balanced total id inv : balanced total inv -> balanced total (release id inv).
Proof.
  intros [Ht Hs Hl]. unfold release. destruct (reservations inv !! id) as [r|] eqn:Hid; [|done].
  destruct (res_held r) eqn:Hh; [|done]. split; simpl.
  - intros s. unfold stockOf. simpl. rewrite stock_move, (held_update _ _ _ r) by done. unfold held_by. rewrite Hh. simpl.
    specialize (Ht s). unfold stockOf in Ht. lia.
  - intros s. unfold stockOf. simpl. rewrite stock_move. specialize (Hl id r s Hid). specialize (Hs s). unfold stockOf in Hs. lia.
  - intros k r' s. rewrite lookup_insert. case_decide; [|apply Hl]. intros [= <-]. simpl. by apply (Hl id).
Qed.

Lemma inventory_run_balanced total cs inv : Forall positive_call cs -> balanced total inv -> balanced total (inventory_run cs inv).
Proof.
  intros Hc. revert inv. induction Hc as [|c cs Hc Hcs IH]; intros inv Hb; [done|]. apply IH.
  destruct c; [by apply reserve_balanced|by apply release_balanced].
Qed.

(** ** Theorems *)

(** A priced basket charges for exactly what was ordered: every line is
    priced from the catalogue, the total is the sum over the caller's lines,
    each product appears once with its full quantity, and the total stays far
    inside the integers a double represents exactly. *)
Theorem order_priced lines p :
  priceOrder lines = inr p -> Forall (fun l => js (sku l) ∉ objectPrototype) lines ->
  Forall (fun l => 1 <= quantity l) lines ->
  po_amountMinor p = Some (worth price lines) /\ NoDup (sku <$> po_items p) /\
  (forall s, quantity_of s (po_items p) = quantity_of s lines) /\ 0 <= worth price lines <= 5864900.
Proof.
  unfold priceOrder, canonicaliseBasket. destruct (price_lines lines) as [|items] eqn:E; [done|].
  destruct (over_bound (mergeLines items)) eqn:Hb; [done|]. intros [= <-] Hpl Hpos. simpl.
  destruct (price_lines_inr _ _ E Hpl) as (Hw & Hq & Hf).
  assert (Forall (fun i => is_Some (unit_price (sku i) PRODUCT_CATALOGUE) /\ extra i = Some (price (sku i))) (mergeLines items)) as Hm.
  { by apply (mergeLines_Forall (fun s x => is_Some (unit_price s PRODUCT_CATALOGUE) /\ x = Some (price s))). }
  rewrite amount_worth by (eapply Forall_impl; [exact Hm|naive_solver]).
  rewrite mergeLines_worth, Hw. split; [done|]. split; [apply mergeLines_NoDup|].
  split; [intros s; by rewrite mergeLines_quantity, Hq|].
  rewrite <-Hw, <-mergeLines_worth, worth_by_product by (eapply Forall_impl; [exact Hm|naive_solver]).
  assert (forall s, 0 <= quantity_of s (mergeLines items) <= 100) as Hbound; [|pose proof (Hbound "SKU-DESK-01"%string);
    pose proof (Hbound "SKU-CHAIR-02"%string); pose proof (Hbound "SKU-LAMP-03"%string); pose proof (Hbound "SKU-SOLD-OUT"%string); lia].
  intros s. split.
  - rewrite mergeLines_quantity, Hq. apply quantity_of_nonneg. eapply Forall_impl; [exact Hpos|]. simpl. lia.
  - apply quantity_of_bound; [apply mergeLines_NoDup|done|]. by apply over_bound_None.
Qed.

(** The warehouse neither loses nor oversells stock: whatever reservations,
    repeated reservations and releases it is asked for, in whatever order,
    what is on the shelf and what is held always add up to what it started
    with, and no shelf goes below zero. *)
Theorem stock_conserved cs st s :
  Forall positive_call cs -> (forall x, 0 <= default 0 (st !! x)) ->
  stockOf (inventory_run cs {| stock := st; reservations := ∅ |}) s +
    held s (reservations (inventory_run cs {| stock := st; reservations := ∅ |})) = default 0 (st !! s) /\
  0 <= stockOf (inventory_run cs {| stock := st; reservations := ∅ |}) s.
Proof.
  intros Hc Hst. destruct (inventory_run_balanced (fun x => default 0 (st !! x)) cs {| stock := st; reservations := ∅ |} Hc) as [Ht Hs _].
  - split; simpl; [|done|intros ? ? ?; by rewrite lookup_empty]. intros x. unfold held. rewrite map_fold_empty. unfold stockOf. simpl. lia.
  - split; [apply Ht|apply Hs].
Qed.

(** Repeating a participant call changes nothing. *)
Lemma reserve_idempotent orderId id lines inv r :
  (reserve orderId id lines inv).1 = inr r ->
  reserve orderId id lines (reserve orderId id lines inv).2 = (inr r, (reserve orderId id lines inv).2).
Proof.
  unfold reserve. destruct (reservations inv !! id) as [e|] eqn:Hid; simpl; [intros [= <-]; by rewrite Hid|].
  destruct (short (stock inv) (mergeLines lines)); simpl; [done|]. intros [= <-]. by rewrite lookup_insert_eq.
Qed.

Lemma resetInventory_new inv : resetInventory inv = newInventory.
Proof. by vm_compute. Qed.

Lemma release_idempotent id inv : release id (release id inv) = release id inv.
Proof.
  unfold release. destruct (reservations inv !! id) as [r|] eqn:Hid; [|by rewrite Hid].
  destruct (res_held r) eqn:Hh; simpl; [by rewrite lookup_insert_eq|by rewrite Hid, Hh].
Qed.

Lemma createShipment_idempotent orderId destination id w r :
  (createShipment orderId destination id w).1 = inr r ->
  createShipment orderId destination id (createShipment orderId destination id w).2 = (inr r, (createShipment orderId destination id w).2).
Proof.
  unfold createShipment. destruct (shipments w !! id) as [e|] eqn:Hid; simpl; [intros [= <-]; by rewrite Hid|].
  case_decide; simpl; [|done]. intros [= <-]. by rewrite lookup_insert_eq.
Qed.

(** *** Concrete orders *)

Definition sample_basket : list ReservedLine :=
  [{| sku := "SKU-DESK-01"; quantity := 2; extra := tt |}; {| sku := "SKU-LAMP-03"; quantity := 1; extra := tt |};
   {| sku := "SKU-DESK-01"; quantity := 3; extra := tt |}]%string.

Definition sample_priced : PricedOrder :=
  match priceOrder sample_basket with inr p => p | inl _ => {| po_items := []; po_amountMinor := None; po_currency := "" |} end.

Lemma order_priced_witness :
  po_amountMinor sample_priced = Some (worth price sample_basket) /\ NoDup (sku <$> po_items sample_priced) /\
  (forall s, quantity_of s (po_items sample_priced) = quantity_of s sample_basket) /\ 0 <= worth price sample_basket <= 5864900.
Proof.
  apply (order_priced sample_basket sample_priced).
  - vm_compute. reflexivity.
  - repeat constructor; apply (bool_decide_unpack _); vm_compute; exact I.
  - repeat constructor; vm_compute; discriminate.
Defined.

Definition sample_calls : list InventoryCall :=
  [Reserve "o1" "r1" sample_basket; Reserve "o1" "r1" sample_basket; Reserve "o2" "r2" sample_basket; Release "r1"; Release "r1"]%string.

Lemma stock_conserved_witness :
  stockOf (inventory_run sample_calls {| stock := SEED_STOCK; reservations := ∅ |}) "SKU-DESK-01" +
    held "SKU-DESK-01" (reservations (inventory_run sample_calls {| stock := SEED_STOCK; reservations := ∅ |})) =
  default 0 (SEED_STOCK !! "SKU-DESK-01"%string) /\
  0 <= stockOf (inventory_run sample_calls {| stock := SEED_STOCK; reservations := ∅ |}) "SKU-DESK-01".
Proof.
  apply (stock_conserved sample_calls SEED_STOCK "SKU-DESK-01").
  - repeat constructor; vm_compute; discriminate.
  - intros x. destruct (SEED_STOCK !! x) as [q|] eqn:E; [|discriminate]. simpl.
    assert (map_Forall (fun _ q => 0 <= q) SEED_STOCK) as H by (apply (bool_decide_unpack _); vm_compute; exact I).
    exact (H x q E).
Defined.
