(* ===== verification/Payments.v ===== *)
(** * Payments: money, the refund rules and the in-memory gateway

    [payments/money.ts], [payments/refund-rules.ts],
    [payments/ports/payment-provider.port.ts],
    [payments/providers/mock-payment.provider.ts] and
    [payments/payment-provider.factory.ts].  Currency codes and decimal
    strings are ASCII text. *)

From S2P Require Import Prelude Text Idempotency.

(** ** [money.ts] *)

(** A number as the caller hands it over: an integer, or one that is not, as
    [String] prints it. *)
Inductive Number := Whole (z : Z) | NotWhole (printed : string).

Record Amount := { raw_amountMinor : Number; raw_currency : string }.

Record Money := { amountMinor : Z; currency : string }.

Definition amount_of (m : Money) : Amount := {| raw_amountMinor := Whole (amountMinor m); raw_currency := currency m |}.

Definition ZERO_DECIMAL_CURRENCIES : list string := ["HUF"; "JPY"; "TWD"]%string.

Inductive InvalidMoneyError :=
  | CurrencyNotIso (received : string)
  | AmountNotInteger (received : string)
  | AmountNegative (received : Z)
  | AmountUnsafe (received : Z)
  | NotADecimal (value : string)
  | TooPrecise (value currency : string) (exponent : nat)
  | DecimalUnsafe (value : string).

(** [/^[A-Z]{3}$/] *)
Definition isCurrency (s : string) : bool :=
  let cs := String.list_ascii_of_string s in
  bool_decide (length cs = 3%nat) && forallb (fun c => bool_decide (65 <= code c <= 90)%N) cs.

Definition normaliseMoney (money : Amount) : InvalidMoneyError + Money :=
  let currency := toUpperCase (raw_currency money) in
  if negb (isCurrency currency) then inl (CurrencyNotIso (raw_currency money))
  else match raw_amountMinor money with
  | NotWhole printed => inl (AmountNotInteger printed)
  | Whole amountMinor =>
      if decide (amountMinor < 0) then inl (AmountNegative amountMinor)
      else if decide (MAX_SAFE_INTEGER < amountMinor) then inl (AmountUnsafe amountMinor)
      else inr {| amountMinor := amountMinor; currency := currency |}
  end.

Definition minorUnitExponent (currency : string) : nat :=
  if decide (toUpperCase currency ∈ ZERO_DECIMAL_CURRENCIES) then 0 else 2.

(** [digits.slice(0, -n)] and [digits.slice(-n)] of a text at least [n] long. *)
Definition init_chars (n : nat) (cs : list Ascii.ascii) : list Ascii.ascii := take (length cs - n) cs.
Definition last_chars (n : nat) (cs : list Ascii.ascii) : list Ascii.ascii := drop (length cs - n) cs.

Definition dot : Ascii.ascii := Ascii.ascii_of_N 46.

Definition toDecimalString (money : Amount) : InvalidMoneyError + string :=
  match normaliseMoney money with
  | inl e => inl e
  | inr {| amountMinor := amountMinor; currency := currency |} =>
      let exponent := minorUnitExponent currency in
      if decide (exponent = 0%nat) then inr (pretty amountMinor)
      else
        let digits := String.list_ascii_of_string (padStart (exponent + 1) (pretty amountMinor)) in
        inr (String.string_of_list_ascii (init_chars exponent digits ++ dot :: last_chars exponent digits))
  end.

(** What [trim] drops: tab, line feed, vertical tab, form feed, carriage
    return and space. *)
Definition isSpace (c : Ascii.ascii) : bool := bool_decide (code c ∈ [9; 10; 11; 12; 13; 32]%N).

Fixpoint drop_spaces (cs : list Ascii.ascii) : list Ascii.ascii :=
  match cs with
  | c :: rest => if isSpace c then drop_spaces rest else cs
  | [] => []
  end.

Definition trim (cs : list Ascii.ascii) : list Ascii.ascii := reverse (drop_spaces (reverse (drop_spaces cs))).

Fixpoint span_digits (cs : list Ascii.ascii) : list Ascii.ascii * list Ascii.ascii :=
  match cs with
  | c :: rest => if isDigit c then let '(d, r) := span_digits rest in (c :: d, r) else ([], cs)
  | [] => ([], [])
  end.

(** [/^(\d+)(?:\.(\d+))?$/.exec(...)]: the whole part, and the fraction with
    its default. *)
Definition matchDecimal (cs : list Ascii.ascii) : option (list Ascii.ascii * list Ascii.ascii) :=
  match span_digits cs with
  | ([], _) => None
  | (whole, []) => Some (whole, [])
  | (whole, c :: rest) =>
      if decide (c = dot) then
        match span_digits rest with
        | ((_ :: _) as fraction, []) => Some (whole, fraction)
        | _ => None
        end
      else None
  end.

Definition fromDecimalString (value currency : string) : InvalidMoneyError + Money :=
  let normalisedCurrency := toUpperCase currency in
  if negb (isCurrency normalisedCurrency) then inl (CurrencyNotIso currency)
  else match matchDecimal (trim (String.list_ascii_of_string value)) with
  | None => inl (NotADecimal value)
  | Some (whole, fraction) =>
      let exponent := minorUnitExponent normalisedCurrency in
      if decide (exponent < length fraction)%nat then inl (TooPrecise value normalisedCurrency exponent)
      else
        let amountMinor := decimal (whole ++ fraction ++ replicate (exponent - length fraction) zero) in
        if decide (MAX_SAFE_INTEGER < amountMinor) then inl (DecimalUnsafe value)
        else inr {| amountMinor := amountMinor; currency := normalisedCurrency |}
  end.

Definition sameCurrency (a b : Money) : bool := bool_decide (toUpperCase (currency a) = toUpperCase (currency b)).

(** ** [payment-provider.port.ts] and [payment.errors.ts] *)

Inductive PaymentProviderName := Stripe | Paypal | Mock.

#[global] Instance PaymentProviderName_eq_dec : EqDecision PaymentProviderName.
Proof. solve_decision. Defined.

Definition provider_name (p : PaymentProviderName) : string :=
  match p with Stripe => "stripe" | Paypal => "paypal" | Mock => "mock" end.

Inductive PaymentStatus :=
  | RequiresAction | Authorized | Processing | Succeeded | PartiallyRefunded | Refunded | Canceled | Failed_.

#[global] Instance PaymentStatus_eq_dec : EqDecision PaymentStatus.
Proof. solve_decision. Defined.

Definition status_name (s : PaymentStatus) : string :=
  match s with
  | RequiresAction => "requires_action" | Authorized => "authorized" | Processing => "processing"
  | Succeeded => "succeeded" | PartiallyRefunded => "partially_refunded" | Refunded => "refunded"
  | Canceled => "canceled" | Failed_ => "failed"
  end.

Record Payment := {
  p_id : string;
  p_provider : PaymentProviderName;
  p_status : PaymentStatus;
  p_amount : Money;
  p_amountRefunded : Money;
  p_reference : string;
}.

Inductive PaymentError :=
  | MoneyError (e : InvalidMoneyError)
  | PaymentNotFoundError (provider : PaymentProviderName) (paymentId : string)
  | PaymentStateError (provider : PaymentProviderName) (message : string).

(** The gateway as the application sees it; the description and the return
    URLs of [CreatePaymentInput] do not reach the in-memory one. *)
Class PaymentProvider (W : Type) := {
  authorize : Amount -> string -> Eff W PaymentError Payment;
  capture : string -> Eff W PaymentError Payment;
  refund : string -> option Amount -> Eff W PaymentError Payment;
  findPayment : string -> Eff W PaymentError (option Payment);
}.

(** ** [refund-rules.ts] *)

Definition resolveRefundAmount (payment : Payment) (amount : option Amount) : PaymentError + Money :=
  let refuse message := inl (PaymentStateError (p_provider payment) message) in
  if decide (p_status payment <> Succeeded /\ p_status payment <> PartiallyRefunded) then
    refuse ("Payment " +:+ p_id payment +:+ " cannot be refunded from status " +:+ dq +:+ status_name (p_status payment) +:+ dq)%string
  else
    let remaining := amountMinor (p_amount payment) - amountMinor (p_amountRefunded payment) in
    match
      match amount with
      | Some amount => normaliseMoney amount
      | None => inr {| amountMinor := remaining; currency := currency (p_amount payment) |}
      end
    with
    | inl e => inl (MoneyError e)
    | inr requested =>
        if negb (sameCurrency requested (p_amount payment)) then
          refuse ("Cannot refund " +:+ currency requested +:+ " against a " +:+ currency (p_amount payment) +:+ " payment")%string
        else if decide (amountMinor requested = 0) then refuse "Refund amount must be positive"%string
        else if decide (remaining < amountMinor requested) then
          refuse ("Refund of " +:+ pretty (amountMinor requested) +:+ " exceeds the " +:+ pretty remaining +:+
                  " still refundable on " +:+ p_id payment)%string
        else inr requested
    end.

(** ** [mock-payment.provider.ts] *)

Record MockPayments := { payments : gmap string Payment; idsByReference : gmap string string; mock_sequence : nat }.

Definition newMockPayments : MockPayments := {| payments := ∅; idsByReference := ∅; mock_sequence := 0 |}.

Definition mock_id (n : nat) : string := "pay_mock_" +:+ padStart 6 (pretty n).

Definition require (paymentId : string) : Eff MockPayments PaymentError Payment := fun w =>
  match payments w !! paymentId with
  | Some payment => (inr payment, w)
  | None => (inl (PaymentNotFoundError Mock paymentId), w)
  end.

Definition store (payment : Payment) : Eff MockPayments PaymentError Payment := fun w =>
  (inr payment, {| payments := <[p_id payment := payment]> (payments w); idsByReference := idsByReference w;
                   mock_sequence := mock_sequence w |}).

Definition mock_authorize (input : Amount) (reference : string) : Eff MockPayments PaymentError Payment := fun w =>
  match normaliseMoney input with
  | inl e => (inl (MoneyError e), w)
  | inr amount =>
      match idsByReference w !! reference with
      | Some existingId => require existingId w
      | None =>
          let n := S (mock_sequence w) in
          let payment := {|
            p_id := mock_id n; p_provider := Mock; p_status := Authorized; p_amount := amount;
            p_amountRefunded := {| amountMinor := 0; currency := currency amount |}; p_reference := reference |} in
          (inr payment, {|
            payments := <[p_id payment := payment]> (payments w);
            idsByReference := <[reference := p_id payment]> (idsByReference w);
            mock_sequence := n |})
      end
  end.

Definition with_status (s : PaymentStatus) (refunded : Z) (p : Payment) : Payment := {|
  p_id := p_id p; p_provider := p_provider p; p_status := s; p_amount := p_amount p;
  p_amountRefunded := {| amountMinor := refunded; currency := currency (p_amount p) |}; p_reference := p_reference p |}.

Definition mock_capture (paymentId : string) : Eff MockPayments PaymentError Payment :=
  let! payment := require paymentId in
  if decide (p_status payment <> Authorized) then
    throw (PaymentStateError Mock ("Payment " +:+ paymentId +:+ " cannot be captured from status " +:+
      dq +:+ status_name (p_status payment) +:+ dq)%string)
  else store {| p_id := p_id payment; p_provider := p_provider payment; p_status := Succeeded; p_amount := p_amount payment;
                p_amountRefunded := p_amountRefunded payment; p_reference := p_reference payment |}.

Definition mock_refund (paymentId : string) (amount : option Amount) : Eff MockPayments PaymentError Payment :=
  let! payment := require paymentId in
  match resolveRefundAmount payment amount with
  | inl e => throw e
  | inr requested =>
      let refunded := amountMinor (p_amountRefunded payment) + amountMinor requested in
      store (with_status (if decide (refunded = amountMinor (p_amount payment)) then Refunded else PartiallyRefunded)
        refunded payment)
  end.

Definition mock_find (paymentId : string) : Eff MockPayments PaymentError (option Payment) :=
  reads (fun w => payments w !! paymentId).

#[global] Instance MockPaymentProvider : PaymentProvider MockPayments := {|
  authorize := mock_authorize; capture := mock_capture; refund := mock_refund; findPayment := mock_find;
|}.

(** ** [payment-provider.factory.ts] *)

Definition PAYMENT_PROVIDER_NAMES : list PaymentProviderName := [Stripe; Paypal; Mock].

(** [isPaymentProviderName], with the name it narrows to. *)
Fixpoint parse_name (value : string) (names : list PaymentProviderName) : option PaymentProviderName :=
  match names with
  | [] => None
  | n :: names => if decide (provider_name n = value) then Some n else parse_name value names
  end.

Definition isPaymentProviderName (value : string) : option PaymentProviderName := parse_name value PAYMENT_PROVIDER_NAMES.

(** What the factory reads of a provider. *)
Record Provider := { pr_name : PaymentProviderName; pr_isConfigured : bool }.

Record PaymentProviderFactory := { pf_registry : list Provider; pf_defaultName : PaymentProviderName }.

Inductive FactoryError :=
  | DuplicateProvider (name : PaymentProviderName)
  | DefaultNotRegistered (configured : string)
  | UnknownPaymentProviderError (name : string) (available : list PaymentProviderName)
  | PaymentProviderNotConfiguredError (name : PaymentProviderName) (requiredEnv : list string).

Fixpoint registry_get (name : PaymentProviderName) (registry : list Provider) : option Provider :=
  match registry with
  | [] => None
  | p :: registry => if decide (pr_name p = name) then Some p else registry_get name registry
  end.

(** The loop that fills the registry, an insertion-ordered map. *)
Fixpoint build_registry (registry providers : list Provider) : FactoryError + list Provider :=
  match providers with
  | [] => inr registry
  | p :: providers =>
      match registry_get (pr_name p) registry with
      | Some _ => inl (DuplicateProvider (pr_name p))
      | None => build_registry (registry ++ [p]) providers
      end
  end.

Definition newFactory (PAYMENTS_PROVIDER : option string) (providers : list Provider) : FactoryError + PaymentProviderFactory :=
  match build_registry [] providers with
  | inl e => inl e
  | inr registry =>
      let configured := default "mock"%string PAYMENTS_PROVIDER in
      match isPaymentProviderName configured with
      | None => inl (DefaultNotRegistered configured)
      | Some name =>
          match registry_get name registry with
          | None => inl (DefaultNotRegistered configured)
          | Some _ => inr {| pf_registry := registry; pf_defaultName := name |}
          end
      end
  end.

Definition requiredEnvFor (name : PaymentProviderName) : list string :=
  match name with
  | Stripe => ["STRIPE_SECRET_KEY"]
  | Paypal => ["PAYPAL_CLIENT_ID"; "PAYPAL_CLIENT_SECRET"]
  | Mock => []
  end%string.

Definition registered (f : PaymentProviderFactory) : list PaymentProviderName := pr_name <$> pf_registry f.

Definition available (f : PaymentProviderFactory) : list PaymentProviderName :=
  pr_name <$> filter (fun p => pr_isConfigured p = true) (pf_registry f).

Definition resolve (f : PaymentProviderFactory) (name : option string) : FactoryError + Provider :=
  let requested := default (provider_name (pf_defaultName f)) name in
  match isPaymentProviderName requested with
  | None => inl (UnknownPaymentProviderError requested (registered f))
  | Some n =>
      match registry_get n (pf_registry f) with
      | None => inl (UnknownPaymentProviderError requested (registered f))
      | Some provider =>
          if pr_isConfigured provider then inr provider
          else inl (PaymentProviderNotConfiguredError (pr_name provider) (requiredEnvFor (pr_name provider)))
      end
  end.

Definition defaultProvider (f : PaymentProviderFactory) : FactoryError + Provider :=
  resolve f (Some (provider_name (pf_defaultName f))).

(** ** Decimals *)

Lemma span_digits_all ds rest :
  digits_ok ds -> match rest with [] => True | c :: _ => isDigit c = false end -> span_digits (ds ++ rest) = (ds, rest).
Proof.
  intros Hd Hr. induction Hd as [|d ds Hd _ IH]; simpl.
  - destruct rest as [|c rest]; [done|]. simpl. by rewrite Hr.
  - by rewrite Hd, IH.
Qed.

Lemma matchDecimal_whole ds : digits_ok ds -> ds <> [] -> matchDecimal ds = Some (ds, []).
Proof.
  intros Hd Hne. unfold matchDecimal. rewrite <-(app_nil_r ds) at 1. rewrite span_digits_all by done. by destruct ds.
Qed.

Lemma matchDecimal_fraction ds es :
  digits_ok ds -> digits_ok es -> ds <> [] -> es <> [] -> matchDecimal (ds ++ dot :: es) = Some (ds, es).
Proof.
  intros Hd He Hnd Hne. unfold matchDecimal. rewrite span_digits_all by done.
  assert (span_digits es = (es, [])) as H by (rewrite <-(app_nil_r es) at 1; by apply span_digits_all).
  destruct ds as [|d ds]; [done|]. rewrite decide_True by done. rewrite H. by destruct es.
Qed.

Lemma digit_not_space c : isDigit c = true \/ c = dot -> isSpace c = false.
Proof.
  intros [H| ->]; [|done]. unfold isDigit in H. apply bool_decide_eq_true in H.
  apply bool_decide_eq_false. rewrite !elem_of_cons, elem_of_nil. lia.
Qed.

Lemma drop_spaces_none cs : Forall (fun c => isSpace c = false) cs -> drop_spaces cs = cs.
Proof. destruct 1 as [|c cs Hc _]; [done|]. simpl. by rewrite Hc. Qed.

Lemma trim_none cs : Forall (fun c => isSpace c = false) cs -> trim cs = cs.
Proof.
  intros H. unfold trim. rewrite (drop_spaces_none cs) by done. rewrite drop_spaces_none by (by apply Forall_reverse).
  apply reverse_involutive.
Qed.

Lemma digits_no_space ds : digits_ok ds -> Forall (fun c => isSpace c = false) ds.
Proof. intros H. eapply Forall_impl; [exact H|]. intros c Hc. apply digit_not_space. by left. Qed.

(** ** The gateway *)

Lemma normaliseMoney_inr a m :
  normaliseMoney a = inr m ->
  currency m = toUpperCase (raw_currency a) /\ isCurrency (currency m) = true /\
  raw_amountMinor a = Whole (amountMinor m) /\ 0 <= amountMinor m <= MAX_SAFE_INTEGER.
Proof.
  unfold normaliseMoney. destruct (isCurrency (toUpperCase (raw_currency a))) eqn:Hc; [|done]. simpl.
  destruct (raw_amountMinor a) as [z|]; [|done]. repeat case_decide; try done. intros [= <-]. simpl. split_and!; done || lia.
Qed.

(** What a payment's status says of the money given back. *)
Definition status_ok (s : PaymentStatus) (amount refunded : Z) : Prop :=
  match s with
  | Authorized | Succeeded => refunded = 0
  | PartiallyRefunded => 0 < refunded < amount
  | Refunded => 0 < refunded /\ refunded = amount
  | RequiresAction | Processing | Canceled | Failed_ => False
  end.

Record payment_ok (p : Payment) : Prop := {
  po_amount : 0 <= amountMinor (p_amount p) <= MAX_SAFE_INTEGER;
  po_status : status_ok (p_status p) (amountMinor (p_amount p)) (amountMinor (p_amountRefunded p));
  po_provider : p_provider p = Mock;
}.

Record gateway_ok (w : MockPayments) : Prop := {
  gw_payments : forall id p, payments w !! id = Some p -> p_id p = id /\ payment_ok p /\ idsByReference w !! p_reference p = Some id;
  gw_references : forall r id, idsByReference w !! r = Some id -> exists p, payments w !! id = Some p /\ p_reference p = r;
  gw_sequence : forall id p, payments w !! id = Some p -> exists n, id = mock_id n /\ (n <= mock_sequence w)%nat;
}.

Lemma mock_id_inj n m : mock_id n = mock_id m -> n = m.
Proof.
  intros H. apply (f_equal chars) in H. unfold mock_id in H. rewrite !chars_app in H. apply app_inv_head in H.
  apply (f_equal decimal) in H.
  assert (forall k, decimal (chars (padStart 6 (pretty k))) = Z.of_nat k) as Hk; [|rewrite !Hk in H; lia].
  intros k. destruct (pretty_nat_decimal k) as [Hd Hv]. destruct (padStart_decimal 6 _ Hd) as (_ & -> & _). done.
Qed.

Lemma gateway_store w id p p' :
  gateway_ok w -> payments w !! id = Some p -> p_id p' = p_id p -> p_reference p' = p_reference p -> payment_ok p' ->
  gateway_ok (store p' w).2.
Proof.
  intros [Hp Hr Hs] Hid Heq Href Hok. destruct (Hp _ _ Hid) as (Hpid & _ & Hre). simpl. rewrite Heq, Hpid. split; simpl.
  - intros k q. rewrite lookup_insert. case_decide; [|apply Hp]. intros [= <-]. subst k. rewrite Heq, Href. done.
  - intros r k Hk. rewrite lookup_insert. destruct (Hr _ _ Hk) as (q & Hq & Hqr). case_decide; [|eauto].
    subst k. simplify_eq. eauto.
  - intros k q. rewrite lookup_insert. case_decide; [|apply Hs]. intros [= <-]. subst k. eapply Hs, Hid.
Qed.

Lemma mock_authorize_ok a r w : gateway_ok w -> gateway_ok (mock_authorize a r w).2.
Proof.
  intros Hw. pose proof Hw as [Hp Hr Hs]. unfold mock_authorize. destruct (normaliseMoney a) as [|m] eqn:Hm; [done|].
  destruct (idsByReference w !! r) as [id|] eqn:Hid.
  { unfold require. by destruct (payments w !! id). }
  assert (payments w !! mock_id (S (mock_sequence w)) = None) as Hfresh.
  { apply eq_None_not_Some. intros [p Hk]. destruct (Hs _ _ Hk) as (n & <-%mock_id_inj & Hn). lia. }
  apply normaliseMoney_inr in Hm as (_ & _ & _ & Hm).
  split; simpl.
  - intros k q. rewrite lookup_insert. case_decide.
    + intros [= <-]. subst k. simpl. rewrite lookup_insert_eq. by split_and!.
    + intros Hk. destruct (Hp _ _ Hk) as (? & ? & Hre). rewrite lookup_insert_ne by congruence. done.
  - intros r' k. rewrite lookup_insert. case_decide; subst.
    + intros [= <-]. rewrite lookup_insert_eq. eauto.
    + intros Hk. destruct (Hr _ _ Hk) as (q & Hq & ?). rewrite lookup_insert_ne by congruence. eauto.
  - intros k q. rewrite lookup_insert. case_decide; [intros _; subst; by exists (S (mock_sequence w))|].
    intros Hk. destruct (Hs _ _ Hk) as (n & -> & ?). exists n. split; [done|lia].
Qed.

Lemma mock_capture_ok id w : gateway_ok w -> gateway_ok (mock_capture id w).2.
Proof.
  intros Hw. unfold mock_capture, bind, require. destruct (payments w !! id) as [p|] eqn:Hid; [|done].
  destruct (gw_payments _ Hw _ _ Hid) as (Hpid & [Ha Hst Hpr] & Hre). case_decide as Hs; [done|].
  apply (gateway_store w id p); try done. rewrite Hs in Hst. by split.
Qed.

Lemma resolveRefundAmount_inr p a m :
  resolveRefundAmount p a = inr m -> payment_ok p ->
  (p_status p = Succeeded \/ p_status p = PartiallyRefunded) /\
  0 < amountMinor m <= amountMinor (p_amount p) - amountMinor (p_amountRefunded p).
Proof.
  unfold resolveRefundAmount. intros H [Ha Hst _]. case_decide as Hs; [done|].
  assert (p_status p = Succeeded \/ p_status p = PartiallyRefunded) as Hs'
    by (destruct (decide (p_status p = Succeeded)); [by left|right; by destruct (decide (p_status p = PartiallyRefunded)); [|exfalso; apply Hs]]).
  split; [done|].
  destruct a as [a|].
  - destruct (normaliseMoney a) as [|r] eqn:Hn; [done|]. apply normaliseMoney_inr in Hn as (_ & _ & _ & Hn).
    destruct (sameCurrency r (p_amount p)); [|done]. simpl in H. repeat case_decide; try done. injection H as <-. lia.
  - assert (0 <= amountMinor (p_amount p) - amountMinor (p_amountRefunded p)) by (destruct Hs' as [E|E]; rewrite E in Hst; simpl in Hst; lia).
    match type of H with context [sameCurrency ?x ?y] => destruct (sameCurrency x y) end; [|done]. simpl in H.
    repeat case_decide; try done. injection H as <-. simpl in *. lia.
Qed.

Lemma mock_refund_ok id a w : gateway_ok w -> gateway_ok (mock_refund id a w).2.
Proof.
  intros Hw. unfold mock_refund, bind, require. destruct (payments w !! id) as [p|] eqn:Hid; [|done].
  destruct (gw_payments _ Hw _ _ Hid) as (Hpid & Hok & Hre). destruct (resolveRefundAmount p a) as [|m] eqn:Hm; [done|].
  destruct (resolveRefundAmount_inr _ _ _ Hm Hok) as [Hs Hb]. pose proof Hok as [Ha Hst Hpr].
  apply (gateway_store w id p); try done. split; simpl; [done| |done].
  assert (0 <= amountMinor (p_amountRefunded p)) by (destruct Hs as [E|E]; rewrite E in Hst; simpl in Hst; lia).
  case_decide; simpl; lia.
Qed.

(** What clients ask of the gateway. *)
Inductive GatewayCall :=
  | CallAuthorize (amount : Amount) (reference : string)
  | CallCapture (paymentId : string)
  | CallRefund (paymentId : string) (amount : option Amount).

Definition gateway_call (c : GatewayCall) (w : MockPayments) : MockPayments :=
  match c with
  | CallAuthorize amount reference => (mock_authorize amount reference w).2
  | CallCapture id => (mock_capture id w).2
  | CallRefund id amount => (mock_refund id amount w).2
  end.

Definition gateway_run (cs : list GatewayCall) : MockPayments := foldl (fun w c => gateway_call c w) newMockPayments cs.

Lemma gateway_run_ok cs : gateway_ok (gateway_run cs).
Proof.
  unfold gateway_run. assert (gateway_ok newMockPayments) as H by (split; intros ? ?; simpl; by rewrite lookup_empty).
  revert H. generalize newMockPayments as w. induction cs as [|c cs IH]; intros w Hw; [done|]. simpl. apply IH.
  destruct c; [by apply mock_authorize_ok|by apply mock_capture_ok|by apply mock_refund_ok].
Qed.

(** A retried authorisation is the payment that already exists. *)
Lemma mock_authorize_again a r w p w1 :
  gateway_ok w -> mock_authorize a r w = (inr p, w1) -> mock_authorize a r w1 = (inr p, w1).
Proof.
  intros Hw H. pose proof (mock_authorize_ok a r w Hw) as Hok. rewrite H in Hok. simpl in Hok. revert H.
  unfold mock_authorize. destruct (normaliseMoney a) as [|m]; [done|].
  destruct (idsByReference w !! r) as [id|] eqn:Hr.
  - unfold require. destruct (payments w !! id) eqn:Hid; [|done]. intros [= <- <-]. by rewrite Hr, Hid.
  - intros [= <- <-]. simpl. unfold require. simpl. by rewrite !lookup_insert_eq.
Qed.

(** The default of a factory that was built is registered, so asking for it
    never names an unknown provider. *)
Lemma isPaymentProviderName_name n : isPaymentProviderName (provider_name n) = Some n.
Proof. by destruct n. Qed.

Lemma registry_get_name n registry p : registry_get n registry = Some p -> pr_name p = n.
Proof. induction registry as [|q registry IH]; simpl; [done|]. case_decide; [by intros [= <-]|done]. Qed.

Lemma defaultProvider_known env providers f :
  newFactory env providers = inr f ->
  exists p, registry_get (pf_defaultName f) (pf_registry f) = Some p /\ pr_name p = pf_defaultName f /\
    defaultProvider f = if pr_isConfigured p then inr p
      else inl (PaymentProviderNotConfiguredError (pf_defaultName f) (requiredEnvFor (pf_defaultName f))).
Proof.
  unfold newFactory. destruct (build_registry [] providers) as [|registry]; [done|].
  destruct (isPaymentProviderName _) as [n|]; [|done]. destruct (registry_get n registry) as [p|] eqn:Hp; [|done].
  intros [= <-]. pose proof (registry_get_name _ _ _ Hp) as Hn. exists p. split_and!; [done..|].
  unfold defaultProvider, resolve. simpl. rewrite isPaymentProviderName_name, Hp, Hn. done.
Qed.

(** ** Theorems *)

Lemma toUpperCase_upper s : isCurrency s = true -> toUpperCase s = s.
Proof.
  intros H. unfold isCurrency in H. apply andb_true_iff in H as [_ H].
  unfold toUpperCase. rewrite <-(String.string_of_list_ascii_of_string s) at 2. f_equal.
  induction (chars s) as [|c cs IH]; [done|]. simpl in H. apply andb_true_iff in H as [Hc H]. apply bool_decide_eq_true in Hc.
  rewrite fmap_cons, IH by done. f_equal. unfold code in Hc. rewrite decide_False; [done|lia].
Qed.

Lemma list_split_last {A} n (l : list A) : (n < length l)%nat ->
  l = take (length l - n) l ++ drop (length l - n) l /\ length (drop (length l - n) l) = n /\ take (length l - n) l <> [].
Proof.
  intros Hn. rewrite take_drop, length_drop. split_and!; [done|lia|]. intros H. apply (f_equal length) in H.
  rewrite length_take in H. simpl in H. lia.
Qed.

(** An amount that the domain accepts goes out as a decimal string and
    comes back as the same amount, whatever the currency's minor unit. *)
Theorem money_roundtrip a m :
  normaliseMoney a = inr m ->
  exists s, toDecimalString a = inr s /\ fromDecimalString s (raw_currency a) = inr m.
Proof.
  intros Hm. pose proof (normaliseMoney_inr _ _ Hm) as (Hcur & Hiso & _ & Hb). unfold toDecimalString, fromDecimalString.
  rewrite Hm. destruct m as [z cur]. simpl in *. rewrite <-Hcur, Hiso. simpl.
  destruct (pretty_decimal z) as (Hd & Hv & Hne); [lia|]. destruct (decide (minorUnitExponent cur = 0%nat)) as [He|He].
  - eexists. split; [done|]. rewrite trim_none by (by apply digits_no_space). rewrite matchDecimal_whole by done.
    rewrite He, decide_False by (simpl; lia). simpl. rewrite app_nil_r, Hv. by rewrite decide_False by lia.
  - assert (minorUnitExponent cur = 2%nat) as -> by (unfold minorUnitExponent in *; by case_decide).
    destruct (padStart_decimal (2 + 1) _ Hd) as (Hpd & Hpv & Hlen). eexists. split; [done|].
    rewrite String.list_ascii_of_string_of_list_ascii. unfold init_chars, last_chars.
    destruct (list_split_last 2 (chars (padStart (2 + 1) (pretty z)))) as (Hsplit & Hl2 & Hw); [lia|].
    set (ds := chars (padStart (2 + 1) (pretty z))) in *. set (whole := take _ ds) in *. set (frac := drop _ ds) in *.
    rewrite Hsplit in Hpd. apply Forall_app in Hpd as [Hdw Hdf].
    assert (frac <> []) as Hnf by (intros E; rewrite E in Hl2; done).
    rewrite trim_none, matchDecimal_fraction; try done.
    + rewrite Hl2, decide_False by lia. rewrite Nat.sub_diag. simpl. rewrite app_nil_r, <-Hsplit, Hpv, Hv.
      by rewrite decide_False by lia.
    + apply Forall_app_2; [by apply digits_no_space|]. constructor; [by apply digit_not_space; right|by apply digits_no_space].
Qed.

(** Whatever authorisations, captures and refunds the in-memory gateway is
    asked for, a payment is found under its own id and is the one payment of
    its reference, what was refunded never exceeds what was taken, and the
    status says exactly how much that was. *)
Theorem gateway_accounts cs id p :
  payments (gateway_run cs) !! id = Some p ->
  p_id p = id /\ idsByReference (gateway_run cs) !! p_reference p = Some id /\
  0 <= amountMinor (p_amountRefunded p) <= amountMinor (p_amount p) /\
  (p_status p = Authorized \/ p_status p = Succeeded -> amountMinor (p_amountRefunded p) = 0) /\
  (p_status p = Refunded -> amountMinor (p_amountRefunded p) = amountMinor (p_amount p)).
Proof.
  intros Hid. destruct (gw_payments _ (gateway_run_ok cs) _ _ Hid) as (H1 & [Ha Hs _] & H2).
  split; [done|]. split; [done|]. destruct (p_status p); simpl in Hs; split_and!; naive_solver lia.
Qed.

(** *** Concrete amounts *)

Lemma money_roundtrip_witness :
  exists s, toDecimalString {| raw_amountMinor := Whole 2305; raw_currency := "eur" |} = inr s /\
    fromDecimalString s "eur" = inr {| amountMinor := 2305; currency := "EUR" |}.
Proof. apply (money_roundtrip {| raw_amountMinor := Whole 2305; raw_currency := "eur" |}). vm_compute. reflexivity. Defined.

Definition sample_gateway : list GatewayCall :=
  [CallAuthorize {| raw_amountMinor := Whole 500; raw_currency := "gbp" |} "order-1";
   CallAuthorize {| raw_amountMinor := Whole 500; raw_currency := "gbp" |} "order-1";
   CallCapture "pay_mock_000001"; CallRefund "pay_mock_000001" (Some {| raw_amountMinor := Whole 200; raw_currency := "GBP" |});
   CallRefund "pay_mock_000001" (Some {| raw_amountMinor := Whole 400; raw_currency := "GBP" |}); CallRefund "pay_mock_000001" None].

Definition sample_payment : Payment := {|
  p_id := "pay_mock_000001"; p_provider := Mock; p_status := Refunded; p_amount := {| amountMinor := 500; currency := "GBP" |};
  p_amountRefunded := {| amountMinor := 500; currency := "GBP" |}; p_reference := "order-1" |}.

Lemma gateway_accounts_witness :
  payments (gateway_run sample_gateway) !! "pay_mock_000001"%string = Some sample_payment /\
  0 <= amountMinor (p_amountRefunded sample_payment) <= amountMinor (p_amount sample_payment).
Proof.
  assert (payments (gateway_run sample_gateway) !! "pay_mock_000001"%string = Some sample_payment) as H by (vm_compute; reflexivity).
  split; [exact H|]. apply (gateway_accounts sample_gateway "pay_mock_000001" sample_payment H).
Defined.
