(* ===== verification/Checkout.v ===== *)
(** * Checkout: the checkout saga over its participants

    [orders/checkout.saga.ts], [orders/write/place-order.command.ts] and
    [orders/prisma-order.store.ts]: five steps over the order table, the
    warehouse, the payment gateway and the carrier, run by the orchestrator of
    [SagaOrchestrator].  The default payment provider is the in-memory one.
    The encryption of the order lines at rest is left out: a row holds the
    lines its reader gets. *)

From S2P Require Import Prelude Text Json Idempotency Outbox Backoff SagaDefinition SagaStore SagaOrchestrator Orders Payments.

(** ** [order.ts] and the world of a checkout *)

Inductive OrderStatus := PENDING | PROCESSING | CONFIRMED | CANCELLED.

#[global] Instance OrderStatus_eq_dec : EqDecision OrderStatus.
Proof. solve_decision. Defined.

(** A row of [orders], under its id. *)
Record OrderRow := {
  or_userId : string;
  or_items : list OrderItem;
  or_total : Amount;
  or_shippingCountry : string;
  or_status : OrderStatus;
  or_failureReason : option JSText;
  or_sagaId : string;
  or_createdAt : Z;
  or_updatedAt : Z;
}.

(** The database ([orders], [saga_instances], [outbox_events]), the three
    participants, and whatever else a process reads. *)
Record World (E : Type) := {
  cw_orders : gmap string OrderRow;
  cw_sagas : gmap string SagaRow;
  cw_outbox : gmap string OutboxRow;
  cw_inventory : Inventory;
  cw_payments : MockPayments;
  cw_shipping : Shipping;
  cw_env : E;
}.
Arguments cw_orders {_} _.
Arguments cw_sagas {_} _.
Arguments cw_outbox {_} _.
Arguments cw_inventory {_} _.
Arguments cw_payments {_} _.
Arguments cw_shipping {_} _.
Arguments cw_env {_} _.

(** ** The saga's state *)

Record CheckoutSagaState := {
  st_orderId : string;
  st_userId : string;
  st_currency : string;
  st_totalMinor : Number;
  st_shippingCountry : string;
  st_lines : list ReservedLine;
  st_reservationId : option string;
  st_paymentId : option string;
  st_shipmentId : option string;
}.

Definition unjs (t : JSText) : string := String.string_of_list_ascii (Ascii.ascii_of_N <$> t).

Definition json_string (s : string) : JsonValue := JString (js s).

Definition read_string (v : JsonValue) : option string := match v with JString t => Some (unjs t) | _ => None end.

Definition read_nullable (v : JsonValue) : option (option string) :=
  match v with JString t => Some (Some (unjs t)) | JNull => Some None | _ => None end.

(** The double [m * 2 ^ e], and whether it is an integer. *)
Definition number (m e : Z) : Number :=
  if decide (0 <= e) then Whole (m * 2 ^ e)
  else if decide (m mod 2 ^ (- e) = 0) then Whole (m / 2 ^ (- e))
  else NotWhole "a fraction".

Definition read_number (v : JsonValue) : option Number := match v with JNumber m e => Some (number m e) | _ => None end.

Definition read_line (v : JsonValue) : option ReservedLine :=
  match v with
  | JObject members =>
      match object_members members !! "sku"%string, object_members members !! "quantity"%string with
      | Some (JString s), Some (JNumber m e) =>
          match number m e with Whole q => Some {| sku := unjs s; quantity := q; extra := tt |} | NotWhole _ => None end
      | _, _ => None
      end
  | _ => None
  end.

Definition read_lines (v : JsonValue) : option (list ReservedLine) :=
  match v with JArray items => mapM read_line items | _ => None end.

(** The members a step reads, at the types the state declares. *)
Definition readState (s : SagaState) : option CheckoutSagaState :=
  orderId ← s !! "orderId"%string ≫= read_string;
  userId ← s !! "userId"%string ≫= read_string;
  currency ← s !! "currency"%string ≫= read_string;
  totalMinor ← s !! "totalMinor"%string ≫= read_number;
  shippingCountry ← s !! "shippingCountry"%string ≫= read_string;
  lines ← s !! "lines"%string ≫= read_lines;
  reservationId ← s !! "reservationId"%string ≫= read_nullable;
  paymentId ← s !! "paymentId"%string ≫= read_nullable;
  shipmentId ← s !! "shipmentId"%string ≫= read_nullable;
  Some {| st_orderId := orderId; st_userId := userId; st_currency := currency; st_totalMinor := totalMinor;
          st_shippingCountry := shippingCountry; st_lines := lines; st_reservationId := reservationId;
          st_paymentId := paymentId; st_shipmentId := shipmentId |}.

Definition json_number (n : Number) : JsonValue := match n with Whole z => JNumber z 0 | NotWhole _ => JNull end.

Definition json_nullable (s : option string) : JsonValue := match s with Some s => json_string s | None => JNull end.

Definition json_line (l : ReservedLine) : JsonValue :=
  JObject [("sku", json_string (sku l)); ("quantity", JNumber (quantity l) 0)]%string.

(** The object literal of [PlaceOrderHandler.execute]; [JSON.stringify] writes a
    number that is not finite as [null]. *)
Definition writeState (st : CheckoutSagaState) : SagaState :=
  list_to_map [
    ("orderId", json_string (st_orderId st)); ("userId", json_string (st_userId st));
    ("currency", json_string (st_currency st)); ("totalMinor", json_number (st_totalMinor st));
    ("shippingCountry", json_string (st_shippingCountry st)); ("lines", JArray (json_line <$> st_lines st));
    ("reservationId", json_nullable (st_reservationId st)); ("paymentId", json_nullable (st_paymentId st));
    ("shipmentId", json_nullable (st_shipmentId st))]%string.

Definition CHECKOUT_SAGA : string := "order.checkout".

(** ** Errors, as the orchestrator catches them *)

Definition plain (message : string) : Thrown := ThrownError (PlainError (js message)).

Definition money_message (e : InvalidMoneyError) : string :=
  match e with
  | CurrencyNotIso c => "Currency must be a 3-letter ISO 4217 code, received " +:+ dq +:+ c +:+ dq
  | AmountNotInteger n => "Amount must be an integer number of minor units, received " +:+ n
  | AmountNegative z => "Amount must not be negative, received " +:+ pretty z
  | AmountUnsafe z => "Amount " +:+ pretty z +:+ " is larger than the largest minor-unit amount that can be represented exactly ("
      +:+ pretty MAX_SAFE_INTEGER +:+ ")"
  | NotADecimal v => "Amount " +:+ dq +:+ v +:+ dq +:+ " is not a decimal number"
  | TooPrecise v c e => "Amount " +:+ dq +:+ v +:+ dq +:+ " has more precision than " +:+ c +:+ " allows (" +:+ pretty e +:+ " dp)"
  | DecimalUnsafe v => "Amount " +:+ dq +:+ v +:+ dq +:+ " is larger than the largest minor-unit amount that can be represented exactly ("
      +:+ pretty MAX_SAFE_INTEGER +:+ " minor units)"
  end.

Definition payment_message (e : PaymentError) : string :=
  match e with
  | MoneyError e => money_message e
  | PaymentNotFoundError p id => "Payment " +:+ id +:+ " not found at provider " +:+ dq +:+ provider_name p +:+ dq
  | PaymentStateError _ message => message
  end.

Definition out_of_stock_message (e : OutOfStockError) : string :=
  "Only " +:+ pretty (oos_available e) +:+ " of " +:+ dq +:+ oos_sku e +:+ dq +:+ " available, " +:+ pretty (oos_requested e) +:+ " requested".

Section checkout.
Context {E : Type}.
Context `{!SagaEnv (World E)}.

(** The event contract, and whether the commit of a transaction fails. *)
Context (validate : string -> JsonValue -> option JSText) (commit_fails : World E -> bool).

Definition set_orders (t : gmap string OrderRow) (w : World E) : World E :=
  {| cw_orders := t; cw_sagas := cw_sagas w; cw_outbox := cw_outbox w; cw_inventory := cw_inventory w;
     cw_payments := cw_payments w; cw_shipping := cw_shipping w; cw_env := cw_env w |}.
Definition set_sagas (t : gmap string SagaRow) (w : World E) : World E :=
  {| cw_orders := cw_orders w; cw_sagas := t; cw_outbox := cw_outbox w; cw_inventory := cw_inventory w;
     cw_payments := cw_payments w; cw_shipping := cw_shipping w; cw_env := cw_env w |}.
Definition set_outbox (t : gmap string OutboxRow) (w : World E) : World E :=
  {| cw_orders := cw_orders w; cw_sagas := cw_sagas w; cw_outbox := t; cw_inventory := cw_inventory w;
     cw_payments := cw_payments w; cw_shipping := cw_shipping w; cw_env := cw_env w |}.
Definition set_inventory (i : Inventory) (w : World E) : World E :=
  {| cw_orders := cw_orders w; cw_sagas := cw_sagas w; cw_outbox := cw_outbox w; cw_inventory := i;
     cw_payments := cw_payments w; cw_shipping := cw_shipping w; cw_env := cw_env w |}.
Definition set_payments (p : MockPayments) (w : World E) : World E :=
  {| cw_orders := cw_orders w; cw_sagas := cw_sagas w; cw_outbox := cw_outbox w; cw_inventory := cw_inventory w;
     cw_payments := p; cw_shipping := cw_shipping w; cw_env := cw_env w |}.
Definition set_shipping (s : Shipping) (w : World E) : World E :=
  {| cw_orders := cw_orders w; cw_sagas := cw_sagas w; cw_outbox := cw_outbox w; cw_inventory := cw_inventory w;
     cw_payments := cw_payments w; cw_shipping := s; cw_env := cw_env w |}.

#[global] Instance World_rows : HasSagaRows (World E) := {| rows := cw_sagas; set_rows := set_sagas; clock := env_now |}.

#[global] Instance World_rows_laws : HasSagaRowsLaws (World E).
Proof. done. Qed.

Abbreviation Act := (Eff (World E) Thrown).

(** ** [prisma-order.store.ts] and the transaction runner *)

Definition findOrder (id : string) : Act (option OrderRow) := reads (fun w => cw_orders w !! id).

Definition transition (id : string) (status : OrderStatus) (failureReason : option JSText) : Act unit := fun w =>
  match cw_orders w !! id with
  | None => (inl (plain "No record was found for an update."), w)
  | Some row =>
      (inr tt, set_orders (<[id := {|
        or_userId := or_userId row; or_items := or_items row; or_total := or_total row;
        or_shippingCountry := or_shippingCountry row; or_status := status; or_failureReason := failureReason;
        or_sagaId := or_sagaId row; or_createdAt := or_createdAt row; or_updatedAt := env_now w |}]> (cw_orders w)) w)
  end.

(** [orders.create]: the row starts [PENDING], by the column's default. *)
Definition createOrder (id userId : string) (items : list OrderItem) (total : Amount) (shippingCountry sagaId : string) :
    Act OrderRow := fun w =>
  match cw_orders w !! id with
  | Some _ => (inl (plain "Unique constraint failed on the fields: (id)"), w)
  | None =>
      let row := {|
        or_userId := userId; or_items := items; or_total := total; or_shippingCountry := shippingCountry;
        or_status := PENDING; or_failureReason := None; or_sagaId := sagaId;
        or_createdAt := env_now w; or_updatedAt := env_now w |} in
      (inr row, set_orders (<[id := row]> (cw_orders w)) w)
  end.

(** [transactions.run]: all of the work, or none of it. *)
Definition run_tx {A} (work : Act A) : Act A := fun w =>
  match work w with
  | (inl e, _) => (inl e, w)
  | (inr a, w') => if commit_fails w' then (inl (plain "Transaction failed to commit."), w) else (inr a, w')
  end.

(** [outbox.stage]; the row's id is one no row has. *)
Definition stageEvent (name : string) (payload : JsonValue) (correlationId : option string) : Act unit := fun w =>
  match Outbox.stage (B := unit) validate (env_randomUUID w) (fresh (dom (cw_outbox w))) (env_now w)
          {| traceparent := None; tracestate := None |} name payload correlationId (cw_outbox w, tt) with
  | (inl message, _) => (inl (ThrownError (PlainError message)), w)
  | (inr _, (t, _)) => (inr tt, set_outbox t w)
  end.

(** ** The steps *)

Definition stateOf (ctx : SagaStepContext) : Act CheckoutSagaState :=
  match readState (ctx_state ctx) with
  | Some st => ret st
  | None => throw (plain "TypeError: the state is not a checkout's.")
  end.

Definition no_longer_exists (orderId : string) : Thrown := plain ("Order " +:+ orderId +:+ " no longer exists.").

Definition cancelled_payload (st : CheckoutSagaState) (reason : JSText) : JsonValue :=
  JObject [("orderId", json_string (st_orderId st)); ("userId", json_string (st_userId st)); ("reason", JString reason)]%string.

Definition acceptOrder : SagaStep (World E) :=
  CompensatableStep "accept-order"
    (fun ctx =>
      let! st := stateOf ctx in
      let! order := findOrder (st_orderId st) in
      match order with
      | None => throw (no_longer_exists (st_orderId st))
      | Some order =>
          if decide (or_status order <> PENDING) then ret None
          else do! run_tx (transition (st_orderId st) PROCESSING None) in ret None
      end)
    (fun ctx =>
      let! st := stateOf ctx in
      let! order := findOrder (st_orderId st) in
      match order with
      | None => ret tt
      | Some order =>
          if decide (or_status order = CANCELLED) then ret tt
          else
            let reason := match ctx_failure ctx with
              | Some failure => failure_message failure
              | None => js "Checkout could not be completed"
              end in
            run_tx
              (do! transition (st_orderId st) CANCELLED (Some reason) in
               stageEvent "order.cancelled" (cancelled_payload st reason) None)
      end).

Definition patch (member value : string) : option SagaStatePatch := Some {[member := Some (json_string value)]}.

Definition reserveStock : SagaStep (World E) :=
  CompensatableStep "reserve-stock"
    (fun ctx =>
      let! st := stateOf ctx in
      fun w =>
        match reserve (st_orderId st) (ctx_idempotencyKey ctx) (st_lines st) (cw_inventory w) with
        | (inl e, inv) => (inl (ThrownError (UnretryableStepError (js (out_of_stock_message e)))), set_inventory inv w)
        | (inr reservation, inv) => (inr (patch "reservationId" (res_id reservation)), set_inventory inv w)
        end)
    (fun ctx => modify (fun w => set_inventory (release (ctx_idempotencyKey ctx) (cw_inventory w)) w)).

Definition amountOf (st : CheckoutSagaState) : Amount :=
  {| raw_amountMinor := st_totalMinor st; raw_currency := st_currency st |}.

Definition gateway {A} (m : Eff MockPayments PaymentError A) : Eff (World E) PaymentError A := fun w =>
  let '(r, p) := m (cw_payments w) in (r, set_payments p w).

(** A payment error that a step lets through. *)
Definition raised {A} (m : Eff (World E) PaymentError A) : Act A :=
  try_catch m (fun e => throw (plain (payment_message e))).

Definition isCaptured (p : Payment) : Prop := p_status p = Succeeded \/ p_status p = PartiallyRefunded.

#[global] Instance isCaptured_dec p : Decision (isCaptured p).
Proof. unfold isCaptured. apply _. Defined.

Definition captureIfNeeded (payment : Payment) : Act Payment :=
  if decide (isCaptured payment) then ret payment
  else if decide (p_status payment <> Authorized) then
    throw (ThrownError (UnretryableStepError (js ("Payment " +:+ p_id payment +:+ " is " +:+ dq +:+
      status_name (p_status payment) +:+ dq +:+ " and cannot be captured without the buyer."))))
  else
    try_catch (gateway (capture (p_id payment))) (fun e =>
      match e with
      | PaymentStateError _ message =>
          let! current := raised (gateway (findPayment (p_id payment))) in
          let refused := throw (ThrownError (UnretryableStepError (js ("Payment " +:+ p_id payment +:+
            " could not be captured: " +:+ message)))) in
          match current with
          | Some current => if decide (isCaptured current) then ret current else refused
          | None => refused
          end
      | _ => throw (plain (payment_message e))
      end).

Definition resolvePayment (st : CheckoutSagaState) (idempotencyKey : string) : Act (option Payment) :=
  match st_paymentId st with
  | Some id => if decide (id = ""%string) then
      let! p := raised (gateway (authorize (amountOf st) idempotencyKey)) in ret (Some p)
    else raised (gateway (findPayment id))
  | None => let! p := raised (gateway (authorize (amountOf st) idempotencyKey)) in ret (Some p)
  end.

Definition chargePayment : SagaStep (World E) :=
  CompensatableStep "charge-payment"
    (fun ctx =>
      let! st := stateOf ctx in
      let! authorized := raised (gateway (authorize (amountOf st) (ctx_idempotencyKey ctx))) in
      let! settled := captureIfNeeded authorized in
      ret (patch "paymentId" (p_id settled)))
    (fun ctx =>
      let! st := stateOf ctx in
      let! payment := resolvePayment st (ctx_idempotencyKey ctx) in
      match payment with
      | None => ret tt
      | Some payment =>
          if decide (p_status payment = Refunded) then ret tt
          else if decide (~ isCaptured payment) then ret tt
          else do! raised (gateway (refund (p_id payment) None)) in ret tt
      end).

Definition createShipment : SagaStep (World E) :=
  PivotStep "create-shipment"
    (fun ctx =>
      let! st := stateOf ctx in
      fun w =>
        match Orders.createShipment (st_orderId st) (st_shippingCountry st) (ctx_idempotencyKey ctx) (cw_shipping w) with
        | (inl destination, s) =>
            (inl (ThrownError (UnretryableStepError (js ("No carrier serves " +:+ dq +:+ destination +:+ dq)))), set_shipping s w)
        | (inr shipment, s) => (inr (patch "shipmentId" (sh_id shipment)), set_shipping s w)
        end).

Definition confirmed_payload (st : CheckoutSagaState) (paymentId shipmentId : string) : JsonValue :=
  JObject [("orderId", json_string (st_orderId st)); ("userId", json_string (st_userId st));
           ("paymentId", json_string paymentId); ("shipmentId", json_string shipmentId)]%string.

(** A member that is there and not the empty string. *)
Definition truthy (s : option string) : option string := match s with Some ""%string | None => None | Some s => Some s end.

Definition confirmOrder : SagaStep (World E) :=
  RetriableStep "confirm-order"
    (fun ctx =>
      let! st := stateOf ctx in
      match truthy (st_paymentId st), truthy (st_shipmentId st) with
      | Some paymentId, Some shipmentId =>
          let! order := findOrder (st_orderId st) in
          match order with
          | None => throw (no_longer_exists (st_orderId st))
          | Some order =>
              if decide (or_status order = CONFIRMED) then ret None
              else
                do! run_tx
                  (do! transition (st_orderId st) CONFIRMED None in
                   stageEvent "order.confirmed" (confirmed_payload st paymentId shipmentId) None) in
                ret None
          end
      | _, _ => throw (plain ("Order " +:+ st_orderId st +:+ " reached confirm-order without a payment or a shipment."))
      end).

Definition checkout_steps : list (SagaStep (World E)) :=
  [acceptOrder; reserveStock; chargePayment; createShipment; confirmOrder].

Definition checkout : SagaDefinition (World E) := {| saga_name := CHECKOUT_SAGA; saga_steps := checkout_steps |}.

(** The constructor's [defineSaga] accepts it. *)
Lemma checkout_defined : defineSaga CHECKOUT_SAGA checkout_steps = inr checkout.
Proof. reflexivity. Qed.

(** ** [place-order.command.ts] *)

Record PlaceOrderInput := { in_lines : list ReservedLine; in_shippingCountry : string; in_correlationId : option string }.

Definition initial_state (orderId userId shippingCountry : string) (priced : PricedOrder) : CheckoutSagaState := {|
  st_orderId := orderId; st_userId := userId; st_currency := po_currency priced;
  st_totalMinor := match po_amountMinor priced with Some z => Whole z | None => NotWhole "NaN" end;
  st_shippingCountry := shippingCountry;
  st_lines := (fun item => {| sku := sku item; quantity := quantity item; extra := tt |}) <$> po_items priced;
  st_reservationId := None; st_paymentId := None; st_shipmentId := None |}.

Definition placed_payload (st : CheckoutSagaState) : JsonValue :=
  JObject [("orderId", json_string (st_orderId st)); ("userId", json_string (st_userId st));
           ("totalMinor", json_number (st_totalMinor st)); ("currency", json_string (st_currency st));
           ("lineCount", JNumber (Z.of_nat (length (st_lines st))) 0)]%string.

(** The transaction: the saga, the order it drives and the event, together. *)
Definition place_tx (registry : SagaRegistry (World E)) (st : CheckoutSagaState) (items : list OrderItem)
    (correlationId : option string) : Act (OrderRow * string) :=
  run_tx
    (let! saga := start registry CHECKOUT_SAGA (writeState st) correlationId in
     let! created := createOrder (st_orderId st) (st_userId st) items
       {| raw_amountMinor := st_totalMinor st; raw_currency := st_currency st |} (st_shippingCountry st) (sr_id saga) in
     do! stageEvent "order.placed" (placed_payload st) correlationId in
     ret (created, sr_id saga)).

(** [PlaceOrderHandler.execute]; [orderId] is the id it draws. *)
Definition placeOrder (cfg : OrchestratorConfig) (registry : SagaRegistry (World E)) (orderId userId : string)
    (input : PlaceOrderInput) : Eff (World E) (BasketError + Thrown) OrderRow :=
  match priceOrder (in_lines input) with
  | inl e => throw (inl e)
  | inr priced =>
      let st := initial_state orderId userId (toUpperCase (in_shippingCountry input)) priced in
      let! placed := try_catch (place_tx registry st (po_items priced) (in_correlationId input)) (fun e => throw (inr e)) in
      do! try_catch (fun w => (let! _ := advance cfg registry (snd placed) (env_now w) in ret tt) w) (fun _ : Thrown => ret tt) in
      let! order := try_catch (findOrder orderId) (fun e => throw (inr e)) in
      ret (default (fst placed) order)
  end.

End checkout.

(** ** State *)

Lemma unjs_js s : unjs (js s) = s.
Proof.
  unfold unjs, js. rewrite <-(String.string_of_list_ascii_of_string s) at 2. f_equal.
  induction (String.list_ascii_of_string s) as [|c cs IH]; [done|]. rewrite !fmap_cons, IH, Ascii.ascii_N_embedding. done.
Qed.

Lemma read_line_json l : read_line (json_line l) = Some l.
Proof.
  destruct l as [s q []]. unfold read_line, json_line. simpl.
  assert (object_members [("sku", json_string s); ("quantity", JNumber q 0)]%string !! "sku"%string = Some (json_string s)) as -> by done.
  assert (object_members [("sku", json_string s); ("quantity", JNumber q 0)]%string !! "quantity"%string = Some (JNumber q 0)) as -> by done.
  unfold json_string, number. rewrite decide_True by lia. rewrite unjs_js, Z.mul_1_r. done.
Qed.

Lemma read_lines_json ls : read_lines (JArray (json_line <$> ls)) = Some ls.
Proof.
  simpl. induction ls as [|l ls IH]; [done|]. rewrite fmap_cons. cbn [mapM]. rewrite read_line_json. simpl. by rewrite IH.
Qed.

Lemma read_nullable_json o : read_nullable (json_nullable o) = Some o.
Proof. destruct o as [s|]; [|done]. simpl. by rewrite unjs_js. Qed.

(** What the command writes is what the steps read, for an integer total. *)
Lemma readState_writeState st z : st_totalMinor st = Whole z -> readState (writeState st) = Some st.
Proof.
  intros Hz. destruct st. simpl in Hz. subst. unfold readState, writeState. simpl.
  rewrite !lookup_insert_eq. repeat (rewrite lookup_insert_ne by done; rewrite ?lookup_insert_eq). cbn [mbind option_bind].
  unfold json_string. cbn [read_string read_number json_number]. rewrite !unjs_js. unfold number. rewrite decide_True by lia.
  cbn [mbind option_bind]. rewrite read_lines_json. cbn [mbind option_bind]. rewrite !read_nullable_json. simpl. by rewrite Z.mul_1_r.
Qed.

Lemma mergeState_patch s member value : mergeState s (patch member value) = <[member := json_string value]> s.
Proof. unfold mergeState, patch. rewrite omap_singleton_Some with (y := json_string value) by done. by rewrite insert_union_singleton_l. Qed.

Definition with_reservation (id : string) (st : CheckoutSagaState) : CheckoutSagaState := {|
  st_orderId := st_orderId st; st_userId := st_userId st; st_currency := st_currency st; st_totalMinor := st_totalMinor st;
  st_shippingCountry := st_shippingCountry st; st_lines := st_lines st; st_reservationId := Some id;
  st_paymentId := st_paymentId st; st_shipmentId := st_shipmentId st |}.

Definition with_payment (id : string) (st : CheckoutSagaState) : CheckoutSagaState := {|
  st_orderId := st_orderId st; st_userId := st_userId st; st_currency := st_currency st; st_totalMinor := st_totalMinor st;
  st_shippingCountry := st_shippingCountry st; st_lines := st_lines st; st_reservationId := st_reservationId st;
  st_paymentId := Some id; st_shipmentId := st_shipmentId st |}.

Definition with_shipment (id : string) (st : CheckoutSagaState) : CheckoutSagaState := {|
  st_orderId := st_orderId st; st_userId := st_userId st; st_currency := st_currency st; st_totalMinor := st_totalMinor st;
  st_shippingCountry := st_shippingCountry st; st_lines := st_lines st; st_reservationId := st_reservationId st;
  st_paymentId := st_paymentId st; st_shipmentId := Some id |}.

Ltac read_patched :=
  unfold readState; rewrite mergeState_patch;
  repeat match goal with
    | |- context [<[?k := ?v]> ?s !! ?j] => first [rewrite (lookup_insert_eq s j v) | rewrite (lookup_insert_ne s k j v) by done]
    end;
  intros H;
  repeat (apply bind_Some in H as (? & ?H & H));
  repeat match goal with Hx : _ ≫= _ = Some _ |- _ => rewrite Hx; clear Hx; cbn [mbind option_bind] end;
  unfold json_string; cbn [mbind option_bind read_nullable]; rewrite unjs_js; simplify_eq; done.

Lemma read_reservation s st id :
  readState s = Some st -> readState (mergeState s (patch "reservationId" id)) = Some (with_reservation id st).
Proof. read_patched. Qed.

Lemma read_payment s st id :
  readState s = Some st -> readState (mergeState s (patch "paymentId" id)) = Some (with_payment id st).
Proof. read_patched. Qed.

Lemma read_shipment s st id :
  readState s = Some st -> readState (mergeState s (patch "shipmentId" id)) = Some (with_shipment id st).
Proof. read_patched. Qed.

(** ** The events of an order *)

Definition payload_order (v : JsonValue) : option string :=
  match v with JObject members => object_members members !! "orderId"%string ≫= read_string | _ => None end.

Definition announces (name orderId : string) (row : OutboxRow) : bool :=
  bool_decide (ob_name row = name /\ payload_order (ob_payload row) = Some orderId).

Definition events {E} (name orderId : string) (w : World E) : nat :=
  map_count (fun _ row => announces name orderId row) (cw_outbox w).

(** ** What holds of the participants

    [n] is the cursor: going forward, the number of steps that completed;
    going backward, the step that is undone next. *)

(** A call that timed out has taken its effect, if it has one, before its saga
    goes on. *)
Definition prompt (W : Type) `{!SagaEnv W} : Prop := forall (f : W -> W) w, env_leave f w = f w.

Section correct.
Context {E : Type} `{!SagaEnv (World E)}.
Context (validate : string -> JsonValue -> option JSText) (commit_fails : World E -> bool).
Context (sid : string) (st0 : CheckoutSagaState).

Abbreviation kR := (idempotencyKey sid "reserve-stock").
Abbreviation kP := (idempotencyKey sid "charge-payment").
Abbreviation kS := (idempotencyKey sid "create-shipment").
Abbreviation oid := (st_orderId st0).

(** The members no step changes. *)
Record same_order (st : CheckoutSagaState) : Prop := {
  so_order : st_orderId st = st_orderId st0;
  so_amount : amountOf st = amountOf st0;
  so_country : st_shippingCountry st = st_shippingCountry st0;
  so_lines : st_lines st = st_lines st0;
}.

Definition order_is (P : OrderStatus -> Prop) (w : World E) : Prop :=
  exists row, cw_orders w !! oid = Some row /\ P (or_status row) /\
    events "order.confirmed" oid w = Nat.b2n (bool_decide (or_status row = CONFIRMED)) /\
    events "order.cancelled" oid w = Nat.b2n (bool_decide (or_status row = CANCELLED)).

Definition order_fwd (n : Z) (s : OrderStatus) : Prop :=
  match s with PENDING => n = 0 | PROCESSING => 0 <= n <= 4 | CONFIRMED => 4 <= n | CANCELLED => False end.

Definition order_bwd (n : Z) (s : OrderStatus) : Prop :=
  match s with PENDING | PROCESSING => 0 <= n | CONFIRMED => False | CANCELLED => n <= 0 end.

Definition stock_fwd (n : Z) (inv : Inventory) : Prop :=
  match reservations inv !! kR with
  | None => n <= 1
  | Some r => 1 <= n /\ r = {| res_id := kR; res_orderId := oid; res_lines := mergeLines (st_lines st0); res_held := true |}
  end.

Definition stock_bwd (n : Z) (inv : Inventory) : Prop :=
  forall r, reservations inv !! kR = Some r -> res_held r = true -> 1 <= n.

Definition pay_fwd (n : Z) (st : CheckoutSagaState) (g : MockPayments) : Prop :=
  gateway_ok g /\ (n <= 2 -> st_paymentId st = None) /\
  match idsByReference g !! kP with
  | None => n <= 2
  | Some pid => 2 <= n /\ (3 <= n -> st_paymentId st = Some pid) /\
      exists p, payments g !! pid = Some p /\ normaliseMoney (amountOf st0) = inr (p_amount p) /\
        (p_status p = Succeeded \/ n = 2 /\ p_status p = Authorized)
  end.

Definition pay_bwd (n : Z) (st : CheckoutSagaState) (g : MockPayments) : Prop :=
  gateway_ok g /\ (forall pid, st_paymentId st = Some pid -> pid <> ""%string /\ idsByReference g !! kP = Some pid) /\
  forall pid p, idsByReference g !! kP = Some pid -> payments g !! pid = Some p ->
    p_status p = Authorized \/ p_status p = Refunded \/ p_status p = Succeeded /\ 2 <= n.

Definition ship_fwd (n : Z) (st : CheckoutSagaState) (s : Shipping) : Prop :=
  (4 <= n -> st_shipmentId st = Some kS) /\
  match shipments s !! kS with
  | None => n <= 3
  | Some sh => 3 <= n /\ sh_id sh = kS /\ sh_orderId sh = oid /\ sh_destination sh = toUpperCase (st_shippingCountry st0)
  end.

Definition fwd (n : Z) (st : CheckoutSagaState) (w : World E) : Prop :=
  order_is (order_fwd n) w /\ stock_fwd n (cw_inventory w) /\ pay_fwd n st (cw_payments w) /\ ship_fwd n st (cw_shipping w).

Definition bwd (n : Z) (st : CheckoutSagaState) (w : World E) : Prop :=
  order_is (order_bwd n) w /\ stock_bwd n (cw_inventory w) /\ pay_bwd n st (cw_payments w).

(** *** Orders and their events *)

Lemma transition_inv id s reason w r w' :
  transition id s reason w = (r, w') ->
  (exists e, r = inl e) \/
  exists row row', cw_orders w !! id = Some row /\ r = inr tt /\ or_status row' = s /\
    w' = set_orders (<[id := row']> (cw_orders w)) w.
Proof.
  unfold transition. destruct (cw_orders w !! id) as [row|]; intros [= <- <-]; [right|by left; eexists].
  eexists _, _. split_and!; [done|done| |done]. done.
Qed.

Lemma stageEvent_inv name payload corr w r w' :
  stageEvent validate name payload corr w = (r, w') ->
  (exists e, r = inl e) \/
  exists id row, r = inr tt /\ cw_outbox w !! id = None /\ ob_name row = name /\ ob_payload row = payload /\
    w' = set_outbox (<[id := row]> (cw_outbox w)) w.
Proof.
  unfold stageEvent, Outbox.stage. destruct (validate name payload); intros [= <- <-]; [by left; eexists|right].
  exists (fresh (dom (cw_outbox w))). eexists. split_and!; [done| | | |done]; [|done|done].
  apply not_elem_of_dom, is_fresh.
Qed.

Lemma run_tx_inv {A} (work : Eff (World E) Thrown A) w r w' :
  run_tx commit_fails work w = (r, w') -> (exists e, r = inl e) /\ w' = w \/ exists a, r = inr a /\ work w = (inr a, w').
Proof.
  unfold run_tx. destruct (work w) as [[e|a] w1]; [intros [= <- <-]; eauto|].
  destruct (commit_fails w1); intros [= <- <-]; eauto.
Qed.

Lemma events_insert name id row o (w : World E) :
  cw_outbox w !! id = None ->
  events name o (set_outbox (<[id := row]> (cw_outbox w)) w) = (Nat.b2n (announces name o row) + events name o w)%nat.
Proof. intros H. unfold events. simpl. by rewrite map_count_fresh. Qed.

(** The order row moves to [s], and the event that announces it is staged with it. *)
Lemma order_moves (P Q : OrderStatus -> Prop) s name payload reason w r w' :
  run_tx commit_fails (do! transition oid s reason in stageEvent validate name payload None) w = (r, w') ->
  order_is P w -> (forall x, P x -> x <> CONFIRMED /\ x <> CANCELLED) -> payload_order payload = Some oid ->
  (s = CONFIRMED /\ name = "order.confirmed"%string \/ s = CANCELLED /\ name = "order.cancelled"%string) -> Q s ->
  (exists e, r = inl e) /\ w' = w \/
  r = inr tt /\ order_is Q w' /\ exists os ob, w' = set_outbox ob (set_orders os w).
Proof.
  intros Hrun (row & Hrow & HP & Hc & Hx) HPn Hpay Hs HQ. apply run_tx_inv in Hrun as [?|(a & -> & Hw)]; [by left|]. right.
  apply bind_inr in Hw as ([] & w1 & Ht & Hst).
  apply transition_inv in Ht as [[e ?]|(row0 & row' & Hrow0 & _ & Hs' & ->)]; [done|].
  apply stageEvent_inv in Hst as [[e ?]|(id & ev & [= ->] & Hid & Hn & Hp & ->)]; [done|]. split; [done|].
  simpl in Hid. destruct (HPn _ HP) as [Hnc Hnx]. rewrite bool_decide_false in Hc, Hx by done.
  split; [|by eexists _, _]. exists row'. rewrite !events_insert by done. simpl.
  rewrite lookup_insert_eq, Hs'. unfold events in *. simpl. rewrite Hc, Hx. split_and!; [done|done|..];
    unfold announces; rewrite Hn, Hp, Hpay; destruct Hs as [[-> ->]|[-> ->]]; repeat case_bool_decide; naive_solver.
Qed.

Definition exec_ok (n : Z) (s : SagaStep (World E)) : Prop :=
  forall ctx st w res w',
    readState (ctx_state ctx) = Some st -> same_order st -> ctx_idempotencyKey ctx = idempotencyKey sid (step_name s) ->
    fwd n st w -> step_execute s ctx w = (res, w') ->
    fwd n st w' /\
    forall p, res = inr p -> exists st', readState (mergeState (ctx_state ctx) p) = Some st' /\ same_order st' /\ fwd (n + 1) st' w'.

Lemma order_is_mono (P Q : OrderStatus -> Prop) w w' :
  cw_orders w' = cw_orders w -> cw_outbox w' = cw_outbox w -> (forall s, P s -> Q s) -> order_is P w -> order_is Q w'.
Proof.
  intros Ho Hb H (row & Hrow & HP & Hc & Hx). exists row. unfold events in *. rewrite Ho, Hb. auto.
Qed.

Ltac order_step := apply order_is_mono; [reflexivity|reflexivity|intros []; simpl; lia].

Lemma stock_fwd_up n inv : n <> 1 -> stock_fwd n inv -> stock_fwd (n + 1) inv.
Proof. unfold stock_fwd. destruct (reservations inv !! kR); [intros ? []; split; [lia|done]|lia]. Qed.

Lemma pay_fwd_up n st g : n <> 2 -> pay_fwd n st g -> pay_fwd (n + 1) st g.
Proof.
  intros Hn (Hg & Hnone & H). unfold pay_fwd. destruct (idsByReference g !! kP) as [pid|].
  - destruct H as (H1 & H2 & p & Hp & Ha & Hs). split_and!; [done|lia|lia|intros _; apply H2; lia|].
    exists p. split_and!; [done..|]. left. destruct Hs as [|[]]; [done|lia].
  - split_and!; [done| |lia]. intros _. apply Hnone. done.
Qed.

Lemma ship_fwd_up n st s : n <> 3 -> ship_fwd n st s -> ship_fwd (n + 1) st s.
Proof.
  intros Hn [Hid H]. unfold ship_fwd. split; [intros; apply Hid; lia|].
  destruct (shipments s !! kS); [|lia]. destruct H as (? & ? & ? & ?). split_and!; [lia|done..].
Qed.

Lemma acceptOrder_exec : exec_ok 0 (acceptOrder validate commit_fails).
Proof.
  intros ctx st w res w' Hst Hsame _ (Ho & Hi & Hp & Hs) Hexec. destruct Hsame as [Hoid Ha Hc Hl].
  assert (stock_fwd 1 (cw_inventory w) /\ pay_fwd 1 st (cw_payments w) /\ ship_fwd 1 st (cw_shipping w)) as (Hi1 & Hp1 & Hs1).
  { split_and!; [by apply (stock_fwd_up 0)|by apply (pay_fwd_up 0)|by apply (ship_fwd_up 0)]. }
  assert (exists st', readState (mergeState (ctx_state ctx) None) = Some st' /\ st' = st) as (st' & Hst' & ->) by eauto.
  simpl in Hexec. unfold bind, stateOf, ret, findOrder, reads in Hexec. rewrite Hst in Hexec.
  pose proof Ho as (row & Hrow & Hstatus & Hec & Hex). rewrite Hoid, Hrow in Hexec. case_decide as Hpend.
  - injection Hexec as <- <-. split; [done|]. intros p [= <-]. exists st. split_and!; [done|done|].
    split_and!; [|done..]. exists row. split_and!; [done| |done..]. destruct (or_status row); simpl in *; (done || lia).
  - destruct (run_tx commit_fails (transition oid PROCESSING None) w) as [r w1] eqn:Hrun.
    apply run_tx_inv in Hrun as [[[e ->] ->]|(a & -> & Ht)].
    { injection Hexec as <- <-. split; [done|]. done. }
    injection Hexec as <- <-. apply transition_inv in Ht as [[e ?]|(row0 & row' & _ & _ & Hs' & ->)]; [done|].
    assert (order_is (order_fwd 1) (set_orders (<[oid := row']> (cw_orders w)) w)) as Ho1.
    { exists row'. simpl. rewrite lookup_insert_eq, Hs'. rewrite Hpend in Hec, Hex. split_and!; [done|simpl; lia|done|done]. }
    split; [split_and!; [|done..]; revert Ho1; order_step|]. intros p [= <-]. exists st. split_and!; [done|done|].
    by split_and!.
Qed.

Lemma reserveStock_exec : exec_ok 1 reserveStock.
Proof.
  intros ctx st w res w' Hst Hsame Hkey (Ho & Hi & Hp & Hs) Hexec. pose proof Hsame as [Hoid Ha Hc Hl].
  simpl in Hexec, Hkey. unfold bind, stateOf, ret in Hexec. rewrite Hst, Hkey, Hoid, Hl in Hexec.
  destruct (reserve oid kR (st_lines st0) (cw_inventory w)) as [[e|r] inv] eqn:Hr; injection Hexec as <- <-.
  - assert (inv = cw_inventory w) as ->.
    { revert Hr. unfold reserve. destruct (reservations (cw_inventory w) !! kR); [done|]. by destruct (short _ _); intros [= ? <-]. }
    split; [|done]. by split_and!.
  - assert (r = {| res_id := kR; res_orderId := oid; res_lines := mergeLines (st_lines st0); res_held := true |} /\
      reservations inv !! kR = Some r) as [-> Hheld].
    { revert Hi Hr. unfold stock_fwd, reserve. destruct (reservations (cw_inventory w) !! kR) eqn:Hk.
      - intros [_ ->] [= <- <-]. done.
      - intros _. destruct (short _ _); [done|]. intros [= <- <-]. simpl. by rewrite lookup_insert_eq. }
    assert (forall n, 1 <= n -> stock_fwd n inv) as Hinv by (intros n Hn; unfold stock_fwd; by rewrite Hheld).
    split; [by split_and!; [|apply Hinv|..]|]. intros p [= <-]. simpl. exists (with_reservation kR st).
    split_and!; [by apply read_reservation|by split|]. split_and!; simpl; [revert Ho; order_step|by apply Hinv| |].
    + by apply (pay_fwd_up 1).
    + by apply (ship_fwd_up 1).
Qed.

Lemma createShipment_exec : exec_ok 3 createShipment.
Proof.
  intros ctx st w res w' Hst Hsame Hkey (Ho & Hi & Hp & Hs) Hexec. pose proof Hsame as [Hoid Ha Hc Hl].
  simpl in Hexec, Hkey. unfold bind, stateOf, ret in Hexec. rewrite Hst, Hkey, Hoid, Hc in Hexec.
  destruct (Orders.createShipment oid (st_shippingCountry st0) kS (cw_shipping w)) as [[e|sh] s] eqn:Hr; injection Hexec as <- <-.
  - assert (s = cw_shipping w) as ->.
    { revert Hr. unfold Orders.createShipment. destruct (shipments (cw_shipping w) !! kS); [done|]. by case_decide; intros [= ? <-]. }
    split; [|done]. by split_and!.
  - assert (sh_id sh = kS /\ sh_orderId sh = oid /\ sh_destination sh = toUpperCase (st_shippingCountry st0) /\
      shipments s !! kS = Some sh) as (H1 & H2 & H3 & Hsh).
    { destruct Hs as [_ Hs]. revert Hs Hr. unfold Orders.createShipment. destruct (shipments (cw_shipping w) !! kS) eqn:Hk.
      - intros (_ & ? & ? & ?) [= <- <-]. done.
      - intros _. case_decide; [|done]. intros [= <- <-]. simpl. by rewrite lookup_insert_eq. }
    split; [split_and!; try done; split; [lia|]; simpl; rewrite Hsh; done|].
    intros p [= <-]. rewrite H1. exists (with_shipment kS st).
    split_and!; [by apply read_shipment|by split|]. split_and!; simpl; [revert Ho; order_step| | |].
    + by apply (stock_fwd_up 3).
    + by apply (pay_fwd_up 3) in Hp.
    + split; [done|]. rewrite Hsh. split_and!; (done || lia).
Qed.

Lemma confirmOrder_exec : exec_ok 4 (confirmOrder validate commit_fails).
Proof.
  intros ctx st w res w' Hst Hsame _ (Ho & Hi & Hp & Hs) Hexec. pose proof Hsame as [Hoid Ha Hc Hl].
  assert (stock_fwd 5 (cw_inventory w) /\ pay_fwd 5 st (cw_payments w) /\ ship_fwd 5 st (cw_shipping w)) as (Hi1 & Hp1 & Hs1).
  { split_and!; [by apply (stock_fwd_up 4)|by apply (pay_fwd_up 4)|by apply (ship_fwd_up 4)]. }
  simpl in Hexec. unfold bind, stateOf, ret, findOrder, reads in Hexec. rewrite Hst in Hexec.
  destruct (truthy (st_paymentId st)) as [pid|]; [|by injection Hexec as <- <-].
  destruct (truthy (st_shipmentId st)) as [shid|]; [|by injection Hexec as <- <-].
  pose proof Ho as (row & Hrow & Hstatus & Hec & Hex). rewrite Hoid, Hrow in Hexec. case_decide as Hconf.
  - injection Hexec as <- <-. split; [done|]. intros p [= <-]. exists st. split_and!; [done|done|].
    split_and!; [|done..]. exists row. rewrite Hconf in *. split_and!; [done|simpl; lia|done|done].
  - match type of Hexec with context [run_tx ?c ?m w] => destruct (run_tx c m w) as [r w1] eqn:Hrun end.
    assert (order_is (fun s => s = PROCESSING) w) as Hop.
    { exists row. split_and!; [done| |done|done]. by destruct (or_status row); simpl in *; (done || lia). }
    destruct (order_moves _ (order_fwd 5) _ _ _ _ _ _ _ Hrun Hop) as [[[e ->] ->]|(-> & Hn & os & ob & ->)];
      [by intros ? ->| |by left|done|..].
    + unfold payload_order, confirmed_payload. simpl. rewrite Hoid. unfold json_string.
      assert (forall a b c, object_members [("orderId", JString (js oid)); ("userId", a); ("paymentId", b); ("shipmentId", c)]%string
        !! "orderId"%string = Some (JString (js oid))) as -> by done.
      simpl. by rewrite unjs_js.
    + by injection Hexec as <- <-.
    + injection Hexec as <- <-. split; [split_and!; [|done..]; revert Hn; order_step|].
      intros p [= <-]. exists st. split_and!; [done|done|]. by split_and!.
Qed.

(** *** The gateway, seen from this saga's reference *)

(** The payment under the reference, as the gateway has it. *)
Definition paid (g : MockPayments) (p : Payment) : Prop :=
  gateway_ok g /\ idsByReference g !! kP = Some (p_id p) /\ payments g !! p_id p = Some p.

Lemma authorize_inv a g r g' :
  mock_authorize a kP g = (r, g') -> gateway_ok g ->
  (exists e, r = inl e) /\ g' = g \/
  exists p m, r = inr p /\ paid g' p /\ normaliseMoney a = inr m /\
    (g' = g \/ idsByReference g !! kP = None /\ p_amount p = m /\ p_status p = Authorized).
Proof.
  intros H Hg. pose proof (mock_authorize_ok a kP g Hg) as Hg'. rewrite H in Hg'. simpl in Hg'.
  unfold mock_authorize in H. destruct (normaliseMoney a) as [e|m]; [injection H as <- <-; eauto|].
  destruct (idsByReference g !! kP) as [pid|] eqn:Hid.
  - unfold require in H. destruct (payments g !! pid) as [p|] eqn:Hp; injection H as <- <-; [|eauto].
    destruct (gw_payments _ Hg _ _ Hp) as (Hpid & _ & _). right. exists p, m. unfold paid. rewrite Hpid. split_and!; [done..|by left].
  - injection H as <- <-. right. eexists _, m. split; [done|]. unfold paid. simpl in *. rewrite !lookup_insert_eq.
    split_and!; [done..|by right].
Qed.

Lemma capture_inv g p r g' :
  mock_capture (p_id p) g = (r, g') -> paid g p -> p_status p = Authorized ->
  exists p', r = inr p' /\ paid g' p' /\ p_id p' = p_id p /\ p_amount p' = p_amount p /\ p_status p' = Succeeded.
Proof.
  intros H (Hg & Hid & Hp) Hs. pose proof (mock_capture_ok (p_id p) g Hg) as Hg'. rewrite H in Hg'. simpl in Hg'.
  unfold mock_capture, bind, require in H. rewrite Hp, decide_False in H by naive_solver. unfold store in H. injection H as <- <-.
  eexists. split; [done|]. unfold paid. simpl in *. by rewrite lookup_insert_eq.
Qed.

Lemma refund_inv g p r g' :
  mock_refund (p_id p) None g = (r, g') -> paid g p -> p_status p = Succeeded ->
  (exists e, r = inl e) /\ g' = g \/
  exists p', r = inr p' /\ paid g' p' /\ p_id p' = p_id p /\ p_status p' = Refunded.
Proof.
  intros H (Hg & Hid & Hp) Hs. pose proof (mock_refund_ok (p_id p) None g Hg) as Hg'. rewrite H in Hg'. simpl in Hg'.
  destruct (gw_payments _ Hg _ _ Hp) as (_ & Hok & _).
  unfold mock_refund, bind, require in H. rewrite Hp in H. destruct (resolveRefundAmount p None) as [e|m] eqn:Hm.
  { injection H as <- <-. eauto. }
  right. assert (amountMinor (p_amountRefunded p) + amountMinor m = amountMinor (p_amount p)) as Hall.
  { destruct Hok as [_ Hst _]. rewrite Hs in Hst. simpl in Hst. revert Hm. unfold resolveRefundAmount.
    repeat case_decide; try done; match goal with |- context [negb ?b] => destruct b end; simpl; try done;
    intros [= <-]; simpl; lia. }
  unfold store in H. injection H as <- <-. eexists. split; [done|]. unfold paid. rewrite decide_True in Hg' |- * by done. simpl in *.
  by rewrite lookup_insert_eq.
Qed.

Lemma paid_nonempty g p : paid g p -> p_id p <> ""%string.
Proof. intros (Hg & _ & Hp). destruct (gw_sequence _ Hg _ _ Hp) as (n & -> & _). done. Qed.

Lemma pay_fwd_paid n st g p :
  paid g p -> 2 <= n -> (n <= 2 -> st_paymentId st = None) -> (3 <= n -> st_paymentId st = Some (p_id p)) ->
  normaliseMoney (amountOf st0) = inr (p_amount p) -> p_status p = Succeeded \/ n = 2 /\ p_status p = Authorized ->
  pay_fwd n st g.
Proof.
  intros (Hg & Hid & Hp) Hn H2 H3 Ha Hs. unfold pay_fwd. rewrite Hid. split_and!; [done..|]. by exists p.
Qed.

Lemma chargePayment_exec : exec_ok 2 chargePayment.
Proof.
  intros ctx st w res w' Hst Hsame Hkey (Ho & Hi & Hp & Hs) Hexec. pose proof Hsame as [Hoid Ha Hc Hl].
  simpl in Hexec, Hkey. unfold bind at 1, stateOf, ret in Hexec. rewrite Hst, Hkey, Ha in Hexec.
  pose proof Hp as (Hg & Hnone & Hpay). specialize (Hnone ltac:(lia)).
  unfold bind at 1, raised at 1, try_catch, gateway in Hexec. simpl in Hexec.
  destruct (mock_authorize (amountOf st0) kP (cw_payments w)) as [r g1] eqn:Hauth.
  destruct (authorize_inv _ _ _ _ Hauth Hg) as [[[e ->] ->]|(p & m & -> & Hpaid & Hm & Hor)].
  { injection Hexec as <- <-. by destruct w. }
  assert (normaliseMoney (amountOf st0) = inr (p_amount p) /\ (p_status p = Succeeded \/ p_status p = Authorized)) as [Hamt Hstat].
  { destruct Hor as [->|(Hid & <- & Hau)]; [|auto]. destruct Hpaid as (_ & Hid & Hpp). rewrite Hid in Hpay.
    destruct Hpay as (_ & _ & q & Hq & Hqa & Hqs). simplify_eq. naive_solver. }
  assert (forall q g, paid g q -> normaliseMoney (amountOf st0) = inr (p_amount q) -> p_status q = Succeeded ->
    pay_fwd 2 st g /\ pay_fwd 3 (with_payment (p_id q) st) g) as Hdone.
  { intros q g Hq Hqa Hqs. split; eapply pay_fwd_paid; eauto; simpl; try lia; done. }
  assert (forall q g, paid g q -> normaliseMoney (amountOf st0) = inr (p_amount q) -> p_status q = Succeeded ->
    fwd 2 st (set_payments g w) /\ forall p0, inr (patch "paymentId" (p_id q)) = inr p0 :> Thrown + _ ->
      exists st', readState (mergeState (ctx_state ctx) p0) = Some st' /\ same_order st' /\ fwd (2 + 1) st' (set_payments g w)) as Hend.
  { intros q g Hq Hqa Hqs. destruct (Hdone q g Hq Hqa Hqs) as [H2 H3]. split; [by split_and!|]. intros p0 [= <-].
    exists (with_payment (p_id q) st). split_and!; [by apply read_payment|by split|].
    split_and!; simpl; [revert Ho; order_step|by apply (stock_fwd_up 2)|done|by apply (ship_fwd_up 2) in Hs]. }
  unfold bind, captureIfNeeded in Hexec. destruct Hstat as [Hss|Hsa].
  - rewrite decide_True in Hexec by (by left). injection Hexec as <- <-. by apply Hend.
  - rewrite decide_False in Hexec by (intros [|]; congruence). rewrite decide_False in Hexec by naive_solver.
    unfold try_catch, gateway in Hexec. simpl in Hexec. destruct (mock_capture (p_id p) g1) as [r2 g2] eqn:Hcap.
    destruct (capture_inv _ _ _ _ Hcap Hpaid Hsa) as (q & -> & Hq & Hqid & Hqa & Hqs). rewrite <-Hqa in Hamt.
    injection Hexec as <- <-. destruct w. by apply (Hend q g2).
Qed.

(** *** Undoing *)

Definition comp_ok (n : Z) (compensate : SagaStepContext -> Eff (World E) Thrown unit) (name : string) : Prop :=
  forall ctx st w res w',
    readState (ctx_state ctx) = Some st -> same_order st -> ctx_idempotencyKey ctx = idempotencyKey sid name ->
    bwd n st w -> compensate ctx w = (res, w') -> bwd n st w' /\ (res = inr tt -> bwd (n - 1) st w').

Lemma stock_bwd_down n inv : n <> 1 -> stock_bwd n inv -> stock_bwd (n - 1) inv.
Proof. intros Hn H r Hr Hh. specialize (H r Hr Hh). lia. Qed.

Lemma pay_bwd_down n st g : n <> 2 -> pay_bwd n st g -> pay_bwd (n - 1) st g.
Proof.
  intros Hn (Hg & Hid & Hp). split_and!; [done..|]. intros pid p H1 H2. destruct (Hp pid p H1 H2) as [?|[?|[? ?]]]; auto.
  right; right. split; [done|lia].
Qed.

(** The compensation of a step, if it has one. *)
Definition step_compensate {W} (s : SagaStep W) : SagaStepContext -> Eff W Thrown unit :=
  match s with CompensatableStep _ _ compensate => compensate | _ => fun _ => ret tt end.

Lemma acceptOrder_comp : comp_ok 0 (step_compensate (acceptOrder validate commit_fails)) "accept-order".
Proof.
  intros ctx st w res w' Hst [Hoid Ha Hc Hl] _ (Ho & Hi & Hp) Hexec.
  assert (stock_bwd (0 - 1) (cw_inventory w) /\ pay_bwd (0 - 1) st (cw_payments w)) as (Hi1 & Hp1).
  { split; [by apply stock_bwd_down|by apply pay_bwd_down]. }
  simpl in Hexec. unfold bind at 1, stateOf, ret in Hexec. rewrite Hst in Hexec. unfold bind at 1, findOrder, reads in Hexec.
  pose proof Ho as (row & Hrow & Hstatus & Hec & Hex). rewrite Hoid, Hrow in Hexec. case_decide as Hcan.
  - injection Hexec as <- <-. split; [done|]. intros _. split_and!; [|done..].
    exists row. rewrite Hcan in *. split_and!; [done|simpl; lia|done|done].
  - assert (order_is (fun s => s = PENDING \/ s = PROCESSING) w) as Hop.
    { exists row. split_and!; [done| |done|done]. by destruct (or_status row); simpl in *; auto. }
    destruct (order_moves _ (order_bwd (-1)) _ _ _ _ _ _ _ Hexec Hop) as [[[e ->] ->]|(-> & Hn & os & ob & ->)];
      [by intros ? [-> | ->]| |by right|done|..].
    + unfold payload_order, cancelled_payload. rewrite Hoid.
      assert (forall a b, object_members [("orderId", json_string oid); ("userId", a); ("reason", b)]%string
        !! "orderId"%string = Some (json_string oid)) as -> by done.
      unfold json_string. simpl. by rewrite unjs_js.
    + done.
    + split; [split_and!; [|done..]; revert Hn; order_step|]. intros _. by split_and!.
Qed.

Lemma reserveStock_comp : comp_ok 1 (step_compensate (W := World E) reserveStock) "reserve-stock".
Proof.
  intros ctx st w res w' Hst Hsame Hkey (Ho & Hi & Hp) Hexec. unfold step_compensate, reserveStock, modify in Hexec.
  rewrite Hkey in Hexec. injection Hexec as <- <-.
  assert (forall n, stock_bwd n (release kR (cw_inventory w))) as Hrel.
  { intros n r. unfold release. destruct (reservations (cw_inventory w) !! kR) as [r0|] eqn:Hr; [|by rewrite Hr].
    destruct (res_held r0) eqn:Hh; simpl; [rewrite lookup_insert_eq|rewrite Hr]; intros [= <-]; simpl; congruence. }
  split; [by split_and!; [|apply Hrel|]|]. intros _. split_and!; [revert Ho; order_step|apply Hrel|by apply pay_bwd_down].
Qed.

(** What [resolvePayment] finds is the payment of the reference. *)
Lemma resolvePayment_inv st (w w' : World E) r :
  resolvePayment st kP w = (r, w') -> pay_bwd 2 st (cw_payments w) ->
  exists g, w' = set_payments g w /\ pay_bwd 2 st g /\
    ((exists e, r = inl e) \/ exists p, r = inr (Some p) /\ paid g p).
Proof.
  intros H Hp. pose proof Hp as (Hg & Hid & Hst). unfold resolvePayment in H.
  assert (forall r w', (let! p := raised (gateway (authorize (amountOf st) kP)) in ret (Some p)) w = (r, w') ->
    (st_paymentId st = None) -> exists g, w' = set_payments g w /\ pay_bwd 2 st g /\
      ((exists e, r = inl e) \/ exists p, r = inr (Some p) /\ paid g p)) as Hauth.
  { clear H r w'. intros r w' H Hno. unfold bind, raised, try_catch, gateway in H. simpl in H.
    destruct (mock_authorize (amountOf st) kP (cw_payments w)) as [r1 g1] eqn:Ha. exists g1.
    destruct (authorize_inv _ _ _ _ Ha Hg) as [[[e ->] ->]|(p & m & -> & Hpaid & _ & Hor)]; injection H as <- <-;
      (split; [done|]); [split; [done|left; eauto]|]. split; [|right; eauto].
    destruct Hor as [->|(_ & _ & Hs)]; [done|]. pose proof Hpaid as (Hg1 & Hid1 & Hp1). split_and!; [done| |].
    - rewrite Hno. done.
    - intros pid q Hq1 Hq2. simplify_eq. by left. }
  destruct (st_paymentId st) as [pid|] eqn:Hpid; [|by apply Hauth].
  destruct (Hid pid eq_refl) as [Hne Hk]. rewrite decide_False in H by done. unfold raised, try_catch, gateway in H. simpl in H.
  injection H as <- <-. exists (cw_payments w). split; [done|]. split; [by rewrite <-Hpid in *|]. right.
  destruct (gw_references _ Hg _ _ Hk) as (p & Hpp & _). exists p. rewrite Hpp. split; [done|].
  destruct (gw_payments _ Hg _ _ Hpp) as (Hpi & _). split_and!; [done|by rewrite Hpi|by rewrite Hpi].
Qed.

Lemma chargePayment_comp : comp_ok 2 (step_compensate (W := World E) chargePayment) "charge-payment".
Proof.
  intros ctx st w res w' Hst Hsame Hkey (Ho & Hi & Hp) Hexec. unfold step_compensate, chargePayment in Hexec.
  unfold bind at 1, stateOf, ret in Hexec. rewrite Hst, Hkey in Hexec. unfold bind at 1 in Hexec.
  destruct (resolvePayment st kP w) as [r w1] eqn:Hres.
  destruct (resolvePayment_inv _ _ _ _ Hres Hp) as (g & -> & Hpb & Hr).
  assert (forall g', pay_bwd 2 st g' -> bwd 2 st (set_payments g' w)) as Hb2 by (intros g' ?; by split_and!).
  assert (forall g', pay_bwd 1 st g' -> bwd (2 - 1) st (set_payments g' w)) as Hb1.
  { intros g' ?. split_and!; [revert Ho; order_step|by apply stock_bwd_down in Hi|done]. }
  destruct Hr as [[e ->]|(p & -> & Hpaid)]; [injection Hexec as <- <-; by split; [apply Hb2|]|].
  pose proof Hpaid as (Hg & Hid & Hpp). pose proof Hpb as (_ & Hids & Hstat).
  assert (forall g' p', paid g' p' -> p_id p' = p_id p -> p_status p' = Authorized \/ p_status p' = Refunded ->
    pay_bwd 2 st g' /\ pay_bwd 1 st g') as Hfin.
  { intros g' p' (Hg' & Hid' & Hp') Heq Hs'. rewrite Heq in *.
    assert (forall n, pay_bwd n st g') as H; [|done]. intros n. split_and!; [done| |].
    - intros pid Hpid. destruct (Hids _ Hpid) as [? Hk]. rewrite Hid in Hk. simplify_eq. done.
    - intros pid q Hq1 Hq2. simplify_eq. naive_solver. }
  destruct (decide (p_status p = Succeeded)) as [Hsuc|Hns].
  - rewrite decide_False in Hexec by congruence. rewrite decide_False in Hexec by (unfold isCaptured; naive_solver).
    unfold bind, raised, try_catch, gateway in Hexec. simpl in Hexec.
    destruct (mock_refund (p_id p) None g) as [r2 g2] eqn:Href.
    destruct (refund_inv _ _ _ _ Href Hpaid Hsuc) as [[[e ->] ->]|(p' & -> & Hp' & Hi' & Hs')]; injection Hexec as <- <-.
    + split; [by apply Hb2|done].
    + destruct (Hfin _ _ Hp' Hi' (or_intror Hs')) as [H2 H1]. split; [by apply Hb2|]. intros _. by apply Hb1.
  - assert (p_status p = Authorized \/ p_status p = Refunded) as Hs by (destruct (Hstat _ _ Hid Hpp) as [?|[?|[? _]]]; auto; done).
    destruct (Hfin _ _ Hpaid eq_refl Hs) as [H2 H1].
    assert (res = inr tt /\ w' = set_payments g w) as [-> ->].
    { destruct Hs as [Hs|Hs]; [|rewrite decide_True in Hexec by done; by injection Hexec as <- <-].
      rewrite decide_False in Hexec by congruence. rewrite decide_True in Hexec by (intros [|]; congruence). by injection Hexec as <- <-. }
    split; [by apply Hb2|]. intros _. by apply Hb1.
Qed.

(** *** One step of the orchestrator *)

Context (cfg : OrchestratorConfig) (Hprompt : prompt (World E)).

Lemma call_inv {A} name (work : Eff (World E) Thrown A) w r w' :
  call cfg name work w = (r, w') -> exists out, work w = (out, w') /\ (r = out \/ exists e, r = inl e).
Proof. unfold call. rewrite Hprompt. destruct (work w) as [out w1]. case_match; intros [= <- <-]; eauto. Qed.

Lemma executeStep_cases def r s (w w' : World E) res :
  executeStep cfg def r s w = (res, w') ->
  exists out p, step_execute s (context r s None) w = (out, w') /\ res = inr p /\
    ((exists patch, out = inr patch /\ pg_cursor p = sr_cursor r + 1 /\ pg_state p = mergeState (sr_state r) patch /\
        pg_status p = if bool_decide (sr_cursor r + 1 >= Z.of_nat (length (saga_steps def))) then COMPLETED else RUNNING) \/
     (pg_cursor p = sr_cursor r /\ pg_state p = sr_state r /\
        (pg_status p = RUNNING \/ pg_status p = STUCK \/ step_kind s <> Retriable /\ pg_status p = COMPENSATING))).
Proof.
  unfold executeStep, bind, reads, attempt, ret. destruct (call _ _ _ _) as [r1 w1] eqn:Hc.
  apply call_inv in Hc as (out & Hout & Hr). intros H.
  assert (w' = w1) as ->.
  { destruct r1 as [e|pt]; [|by injection H]. destruct (retryAt _ _ _ _ _); [by injection H|]. case_decide; by injection H. }
  destruct r1 as [e|pt].
  - exists out. destruct (retryAt _ _ _ _ _); [|case_decide]; injection H as <-; eexists; (split; [done|]); (split; [done|]);
      right; simpl; tauto.
  - injection H as <-. destruct Hr as [<-|[? ?]]; [|done]. eexists _, _. split; [done|]. split; [done|]. left. by exists pt.
Qed.

Lemma compensateStep_cases def r s (w w' : World E) res :
  compensateStep cfg def r s w = (res, w') ->
  exists out p, step_compensate s (context r s (Some (failureFrom def r))) w = (out, w') /\ res = inr p /\ pg_state p = sr_state r /\
    ((out = inr tt /\ pg_cursor p = sr_cursor r - 1 /\
        pg_status p = if bool_decide (sr_cursor r - 1 < 0) then COMPENSATED else COMPENSATING) \/
     (pg_cursor p = sr_cursor r /\ (pg_status p = COMPENSATING \/ pg_status p = STUCK))).
Proof.
  unfold compensateStep, bind, reads, attempt, ret.
  destruct s as [name ex comp|name ex|name ex]; simpl.
  - destruct (call _ _ _ _) as [r1 w1] eqn:Hc. apply call_inv in Hc as (out & Hout & Hr). intros H.
    assert (w' = w1) as -> by (destruct r1 as [e|[]]; [destruct (retryAt _ _ _ _ _)|]; by injection H).
    destruct r1 as [e|[]].
    + exists out. destruct (retryAt _ _ _ _ _); injection H as <-; eexists; (split; [done|]); split_and!; try done; right; simpl; auto.
    + injection H as <-. destruct Hr as [<-|[? ?]]; [|done]. eexists _, _. split; [done|]. split_and!; try done. by left.
  - intros [= <- <-]. eexists _, _. split; [done|]. split_and!; try done. by left.
  - intros [= <- <-]. eexists _, _. split; [done|]. split_and!; try done. by left.
Qed.

(** *** The invariant of a checkout *)

Abbreviation def := (checkout validate commit_fails).

Definition phase (r : SagaInstanceRecord) (st : CheckoutSagaState) (w : World E) : Prop :=
  match sr_status r with
  | RUNNING => 0 <= sr_cursor r <= 4 /\ fwd (sr_cursor r) st w
  | COMPLETED => fwd 5 st w
  | COMPENSATING => 0 <= sr_cursor r <= 3 /\ bwd (sr_cursor r) st w
  | COMPENSATED => bwd (-1) st w
  | STUCK => 0 <= sr_cursor r <= 4 /\ fwd (sr_cursor r) st w \/ 0 <= sr_cursor r <= 3 /\ bwd (sr_cursor r) st w
  end.

Definition checkout_inv (r : SagaInstanceRecord) (w : World E) : Prop :=
  sr_id r = sid /\ exists st, readState (sr_state r) = Some st /\ same_order st /\ phase r st w.

(** A step that gives up leaves something the compensations undo. *)
Lemma fwd_turns n st w : 0 <= n <= 3 -> fwd n st w -> bwd n st w.
Proof.
  intros Hn (Ho & Hi & (Hg & Hnone & Hp) & _). split_and!.
  - revert Ho. apply order_is_mono; [done|done|]. intros []; simpl; lia.
  - intros r Hr _. unfold stock_fwd in Hi. rewrite Hr in Hi. lia.
  - split_and!; [done| |].
    + intros pid Hpid. destruct (decide (n <= 2)) as [H2|H2]; [by rewrite Hnone in Hpid|].
      destruct (idsByReference (cw_payments w) !! kP) as [q|]; [|lia]. destruct Hp as (_ & Hq & p & Hpp & _).
      rewrite Hq in Hpid by lia. injection Hpid as <-. split; [|done].
      destruct (gw_sequence _ Hg _ _ Hpp) as (k & -> & _). done.
    + intros pid p Hid Hpp. rewrite Hid in Hp. destruct Hp as (? & _ & q & Hq & _ & Hs). simplify_eq. naive_solver.
Qed.

Lemma checkout_exec n s : 0 <= n -> checkout_steps validate commit_fails !! Z.to_nat n = Some s -> exec_ok n s.
Proof.
  intros Hn Hs. assert (n = 0 \/ n = 1 \/ n = 2 \/ n = 3 \/ n = 4) as H.
  { apply lookup_lt_Some in Hs. simpl in Hs. lia. }
  repeat (destruct H as [->|H]); [..|subst n]; injection Hs as <-.
  - apply acceptOrder_exec.
  - apply reserveStock_exec.
  - apply chargePayment_exec.
  - apply createShipment_exec.
  - apply confirmOrder_exec.
Qed.

Lemma checkout_comp n s : 0 <= n <= 3 -> checkout_steps validate commit_fails !! Z.to_nat n = Some s ->
  comp_ok n (step_compensate s) (step_name s).
Proof.
  intros Hn Hs. assert (n = 0 \/ n = 1 \/ n = 2 \/ n = 3) as H by lia.
  repeat (destruct H as [->|H]); [..|subst n]; injection Hs as <-.
  - apply acceptOrder_comp.
  - apply reserveStock_comp.
  - apply chargePayment_comp.
  - intros ctx st w res w' _ _ _ Hb [= <- <-]. split; [done|]. intros _. destruct Hb as (Ho & Hi & Hp).
    split_and!; [revert Ho; order_step|by apply stock_bwd_down in Hi|by apply pay_bwd_down in Hp].
Qed.

Lemma executeStep_keeps r s st w res w' c :
  sr_id r = sid -> readState (sr_state r) = Some st -> same_order st -> 0 <= sr_cursor r <= 4 -> fwd (sr_cursor r) st w ->
  sr_status r = RUNNING -> checkout_steps validate commit_fails !! Z.to_nat (sr_cursor r) = Some s ->
  executeStep cfg def r s w = (res, w') ->
  checkout_inv r w' /\ forall p, res = inr p -> checkout_inv (saved c p r) w'.
Proof.
  intros Hid Hst Hsame Hn Hf Hrun Hs Hex. destruct (executeStep_cases _ _ _ _ _ _ Hex) as (out & p & Hout & -> & Hp).
  assert (ctx_idempotencyKey (context r s None) = idempotencyKey sid (step_name s)) as Hkey by (simpl; by rewrite Hid).
  destruct (checkout_exec _ _ (proj1 Hn) Hs (context r s None) st w out w' Hst Hsame Hkey Hf Hout) as [Hf' Hnext].
  split; [split; [done|]; exists st; split_and!; try done; unfold phase; by rewrite Hrun|].
  intros q [= <-]. split; [done|]. simpl. destruct Hp as [(pt & -> & Hc & Hpst & Hss)|(Hc & Hpst & Hss)].
  - destruct (Hnext _ eq_refl) as (st' & Hst' & Hsame' & Hf1). exists st'. rewrite Hpst. split_and!; [done|done|].
    change (Z.of_nat (length (saga_steps def))) with 5 in Hss.
    unfold phase. simpl. rewrite Hss, Hc. simpl. case_bool_decide; [|split; [lia|done]].
    by replace (sr_cursor r + 1) with 5 in Hf1 by lia.
  - exists st. rewrite Hpst. split_and!; [done|done|]. unfold phase. simpl. rewrite Hc.
    destruct Hss as [->|[->|[Hk ->]]]; [done|by left|].
    assert (sr_cursor r <> 4) by (intros H4; rewrite H4 in Hs; injection Hs as <-; done).
    split; [lia|]. apply fwd_turns; [lia|done].
Qed.

Lemma compensateStep_keeps r s st w res w' c :
  sr_id r = sid -> readState (sr_state r) = Some st -> same_order st -> 0 <= sr_cursor r <= 3 -> bwd (sr_cursor r) st w ->
  sr_status r = COMPENSATING -> checkout_steps validate commit_fails !! Z.to_nat (sr_cursor r) = Some s ->
  compensateStep cfg def r s w = (res, w') ->
  checkout_inv r w' /\ forall p, res = inr p -> checkout_inv (saved c p r) w'.
Proof.
  intros Hid Hst Hsame Hn Hb Hrun Hs Hex. destruct (compensateStep_cases _ _ _ _ _ _ Hex) as (out & p & Hout & -> & Hpst & Hp).
  assert (forall f, ctx_idempotencyKey (context r s f) = idempotencyKey sid (step_name s)) as Hkey by (intros f; simpl; by rewrite Hid).
  destruct (checkout_comp _ _ Hn Hs (context r s (Some (failureFrom def r))) st w out w' Hst Hsame (Hkey _) Hb Hout) as [Hb' Hnext].
  split; [split; [done|]; exists st; split_and!; try done; unfold phase; by rewrite Hrun|].
  intros q [= <-]. split; [done|]. exists st. simpl. rewrite Hpst. split_and!; [done|done|]. unfold phase. simpl.
  destruct Hp as [(-> & Hc & Hss)|(Hc & Hss)]; rewrite Hc.
  - specialize (Hnext eq_refl). rewrite Hss. case_bool_decide; [|split; [lia|done]].
    by replace (sr_cursor r - 1) with (-1) in Hnext by lia.
  - destruct Hss as [->| ->]; [done|by right].
Qed.

Lemma step_keeps r w res w' c :
  checkout_inv r w -> isTerminal (sr_status r) = false -> step cfg def r w = (res, w') ->
  checkout_inv r w' /\ forall p, res = inr p -> checkout_inv (saved c p r) w'.
Proof.
  intros Hinv Hterm. pose proof Hinv as (Hid & st & Hst & Hsame & Hph). unfold step.
  destruct (assertResumable def r); [intros [= <- <-]; by split|].
  destruct (step_at def (sr_cursor r)) as [s|] eqn:Hs; [|intros [= <- <-]; by split].
  unfold step_at in Hs. case_decide; [|done]. simpl in Hs. unfold phase in Hph.
  destruct (sr_status r) eqn:Hr; try done; destruct Hph as [Hn Hph]; [rewrite decide_False by done|rewrite decide_True by done].
  - by eapply executeStep_keeps.
  - by eapply compensateStep_keeps.
Qed.

(** *** Every run of a checkout *)

(** What other requests, sagas and relays may do meanwhile: anything that leaves
    this order's row, keys and events alone. *)
Record elsewhere (w w' : World E) : Prop := {
  el_order : cw_orders w' !! oid = cw_orders w !! oid;
  el_confirmed : events "order.confirmed" oid w' = events "order.confirmed" oid w;
  el_cancelled : events "order.cancelled" oid w' = events "order.cancelled" oid w;
  el_stock : reservations (cw_inventory w') !! kR = reservations (cw_inventory w) !! kR;
  el_gateway : gateway_ok (cw_payments w');
  el_reference : idsByReference (cw_payments w') !! kP = idsByReference (cw_payments w) !! kP;
  el_payment : forall pid, idsByReference (cw_payments w) !! kP = Some pid ->
    payments (cw_payments w') !! pid = payments (cw_payments w) !! pid;
  el_shipment : shipments (cw_shipping w') !! kS = shipments (cw_shipping w) !! kS;
}.

(** The runner that holds the lease takes a step and saves it, or dies, or loses
    its lease, after the step took effect; the row is claimed, or abandoned; or
    something happens elsewhere. *)
Inductive checkout_step : SagaInstanceRecord * World E -> SagaInstanceRecord * World E -> Prop :=
| co_saved r w c p w' :
    isTerminal (sr_status r) = false -> step cfg def r w = (inr p, w') -> checkout_step (r, w) (saved c p r, w')
| co_unsaved r w res w' :
    isTerminal (sr_status r) = false -> step cfg def r w = (res, w') -> checkout_step (r, w) (r, w')
| co_claimed r w c : checkout_step (r, w) (leased c r, w)
| co_abandoned r w reason now : isTerminal (sr_status r) = false -> checkout_step (r, w) (abandoned reason now r, w)
| co_elsewhere r w w' : elsewhere w w' -> checkout_step (r, w) (r, w').

Lemma phase_elsewhere r st w w' : elsewhere w w' -> phase r st w -> phase r st w'.
Proof.
  intros [H1 H2 H3 H4 H5 H6 H7 H8].
  assert (forall P, order_is P w -> order_is P w') as Ho by (intros P; unfold order_is; by rewrite H1, H2, H3).
  assert (forall n, fwd n st w -> fwd n st w') as Hf.
  { intros n (Ho' & Hi & (Hg & Hnone & Hp) & Hs). split_and!; [by apply Ho| | |].
    - unfold stock_fwd. by rewrite H4.
    - unfold pay_fwd. rewrite H6. split_and!; [done..|].
      destruct (idsByReference (cw_payments w) !! kP) as [pid|]; [|done]. by rewrite (H7 pid eq_refl).
    - unfold ship_fwd. by rewrite H8. }
  assert (forall n, bwd n st w -> bwd n st w') as Hb.
  { intros n (Ho' & Hi & (Hg & Hnone & Hp)). split_and!; [by apply Ho| |].
    - unfold stock_bwd. by rewrite H4.
    - unfold pay_bwd. rewrite H6. split_and!; [done..|]. intros pid p Hid. rewrite (H7 pid Hid). by apply Hp. }
  unfold phase. destruct (sr_status r); naive_solver.
Qed.

Lemma checkout_step_keeps x y : checkout_step x y -> checkout_inv x.1 x.2 -> checkout_inv y.1 y.2.
Proof.
  intros [r w c p w' Ht Hstep|r w res w' Ht Hstep|r w c|r w reason now Ht|r w w' He] Hinv; simpl in *.
  - by apply (step_keeps _ _ _ _ c Hinv Ht Hstep).
  - by apply (step_keeps _ _ _ _ {| claim_owner := ""; claim_now := 0; claim_leaseMs := 0 |} Hinv Ht Hstep).
  - done.
  - destruct Hinv as (Hid & st & Hst & Hsame & Hph). split; [done|]. exists st. split_and!; [done|done|].
    unfold phase in *. simpl. destruct (sr_status r); try done; auto.
  - destruct Hinv as (Hid & st & Hst & Hsame & Hph). split; [done|]. exists st. split_and!; [done|done|].
    by eapply phase_elsewhere.
Qed.

(** A world in which the order has just been placed. *)
Record placed (w : World E) : Prop := {
  pl_order : order_is (fun s => s = PENDING) w;
  pl_stock : reservations (cw_inventory w) !! kR = None;
  pl_gateway : gateway_ok (cw_payments w);
  pl_payment : idsByReference (cw_payments w) !! kP = None;
  pl_shipment : shipments (cw_shipping w) !! kS = None;
}.

(** The customer has paid in full for what was put aside and sent. *)
Record fulfilled (w : World E) : Prop := {
  fu_order : order_is (fun s => s = CONFIRMED) w;
  fu_stock : reservations (cw_inventory w) !! kR =
    Some {| res_id := kR; res_orderId := oid; res_lines := mergeLines (st_lines st0); res_held := true |};
  fu_payment : exists pid p, idsByReference (cw_payments w) !! kP = Some pid /\ payments (cw_payments w) !! pid = Some p /\
    p_status p = Succeeded /\ normaliseMoney (amountOf st0) = inr (p_amount p) /\ amountMinor (p_amountRefunded p) = 0;
  fu_shipment : exists sh, shipments (cw_shipping w) !! kS = Some sh /\ sh_orderId sh = oid /\
    sh_destination sh = toUpperCase (st_shippingCountry st0);
}.

(** The order is cancelled, nothing is held for it and no money is kept. *)
Record undone (w : World E) : Prop := {
  un_order : order_is (fun s => s = CANCELLED) w;
  un_stock : forall r, reservations (cw_inventory w) !! kR = Some r -> res_held r = false;
  un_payment : forall pid p, idsByReference (cw_payments w) !! kP = Some pid -> payments (cw_payments w) !! pid = Some p ->
    p_status p = Authorized \/ p_status p = Refunded /\ amountMinor (p_amountRefunded p) = amountMinor (p_amount p);
}.

Lemma fwd_fulfilled st w : fwd 5 st w -> fulfilled w.
Proof.
  intros (Ho & Hi & (Hg & _ & Hp) & (_ & Hs)). split.
  - revert Ho. apply order_is_mono; [done|done|]. intros []; simpl; (done || lia).
  - unfold stock_fwd in Hi. destruct (reservations _ !! kR); [|lia]. by destruct Hi as [_ ->].
  - destruct (idsByReference (cw_payments w) !! kP) as [pid|]; [|lia]. destruct Hp as (_ & _ & p & Hpp & Ha & Hss).
    exists pid, p. assert (p_status p = Succeeded) as Hsuc by (destruct Hss as [|[]]; [done|lia]). split_and!; try done.
    destruct (gw_payments _ Hg _ _ Hpp) as (_ & [_ Hok _] & _). by rewrite Hsuc in Hok.
  - destruct (shipments (cw_shipping w) !! kS) as [sh|]; [|lia]. exists sh. naive_solver.
Qed.

Lemma bwd_undone st w : bwd (-1) st w -> undone w.
Proof.
  intros (Ho & Hi & (Hg & _ & Hp)). split.
  - revert Ho. apply order_is_mono; [done|done|]. intros []; simpl; (done || lia).
  - intros r Hr. destruct (res_held r) eqn:Hh; [|done]. specialize (Hi r Hr Hh). lia.
  - intros pid p Hid Hpp. destruct (Hp pid p Hid Hpp) as [?|[Hrf|[_ ?]]]; [by left| |lia]. right. split; [done|].
    destruct (gw_payments _ Hg _ _ Hpp) as (_ & [_ Hok _] & _). rewrite Hrf in Hok. simpl in Hok. lia.
Qed.

Lemma checkout_inv_initial n now w :
  new_id n = sid -> readState (new_state n) = Some st0 -> st_paymentId st0 = None -> placed w ->
  checkout_inv (fresh_instance n now) w.
Proof.
  intros Hid Hst Hnone [Ho Hi Hg Hp Hs]. split; [done|]. exists st0. split_and!; [done|by split|]. unfold phase. simpl.
  split; [lia|]. split_and!.
  - revert Ho. apply order_is_mono; [done|done|]. intros []; simpl; (done || lia).
  - unfold stock_fwd. rewrite Hi. lia.
  - unfold pay_fwd. rewrite Hp. split_and!; (done || lia).
  - unfold ship_fwd. rewrite Hs. split; lia.
Qed.

Lemma checkout_reaches_inv x y : rtc checkout_step x y -> checkout_inv x.1 x.2 -> checkout_inv y.1 y.2.
Proof. induction 1 as [|x z y Hxz _ IH]; [done|]. intros Hx. by eapply IH, checkout_step_keeps. Qed.

End correct.

(** ** Theorems *)

(** C11: a checkout that ends, ends one way or the other.  Over any sequence of
    steps, each taken on the stored row by the runner that holds its lease and
    then saved or lost after it took effect, with any timeouts, retries, claims
    and abandonments: once the saga is COMPLETED the order is confirmed, its
    stock held, the full total captured and a parcel booked; once it is
    COMPENSATED the order is cancelled, nothing is held and no money is kept;
    the one event that says so was staged exactly once and the other one never.
    Assumed: nobody else writes this order's row, its two events or its
    reservation, payment and shipment keys meanwhile, and a call that timed out
    has taken its effect, if any, before the saga goes on.  A saga that is STUCK
    waits for an operator and is not covered. *)
Theorem checkout_outcome {E} `{!SagaEnv (World E)} validate commit_fails cfg n st0 now (w0 w : World E) r :
  prompt (World E) -> readState (new_state n) = Some st0 -> st_paymentId st0 = None -> placed (new_id n) st0 w0 ->
  rtc (checkout_step validate commit_fails (new_id n) st0 cfg) (fresh_instance n now, w0) (r, w) ->
  (sr_status r = COMPLETED -> fulfilled (new_id n) st0 w) /\ (sr_status r = COMPENSATED -> undone (new_id n) st0 w).
Proof.
  intros Hprompt Hst Hnone Hpl Hr.
  destruct (checkout_reaches_inv _ _ _ _ _ Hprompt _ _ Hr (checkout_inv_initial _ _ _ _ _ eq_refl Hst Hnone Hpl)) as (_ & st & _ & _ & Hph).
  unfold phase in Hph. simpl in Hph. split; intros Hs; rewrite Hs in Hph; [by eapply fwd_fulfilled|by eapply bwd_undone].
Qed.

(** Placing an order writes the saga, the order it drives and the order.placed
    event together or not at all; the order starts PENDING, and the saga it
    names starts with a state from which every step reads back exactly the
    basket, total and destination that were priced. *)
Theorem place_order_together {E} `{!SagaEnv (World E)} validate commit_fails def st items corr z (w w' : World E) r :
  st_totalMinor st = Whole z ->
  place_tx validate commit_fails [(CHECKOUT_SAGA, def)] st items corr w = (r, w') ->
  (exists e, r = inl e) /\ w' = w \/
  exists row id now n, r = inr (row, id) /\ cw_orders w !! st_orderId st = None /\
    cw_orders w' = <[st_orderId st := row]> (cw_orders w) /\ or_status row = PENDING /\ or_sagaId row = id /\ or_items row = items /\
    new_id n = id /\ saga_table w' !! id = Some (fresh_instance n now) /\ readState (new_state n) = Some st /\
    events "order.placed" (st_orderId st) w' = S (events "order.placed" (st_orderId st) w) /\
    cw_inventory w' = cw_inventory w /\ cw_payments w' = cw_payments w /\ cw_shipping w' = cw_shipping w.
Proof.
  intros Hz Hrun. apply run_tx_inv in Hrun as [?|(a & -> & Hw)]; [by left|]. right.
  apply bind_inr in Hw as (saga & w1 & Hstart & Hw). apply bind_inr in Hw as (row & w2 & Hcreate & Hw).
  apply bind_inr in Hw as ([] & w3 & Hstage & Hw). injection Hw as <- <-.
  unfold start in Hstart. cbn [registry_find] in Hstart. rewrite decide_True in Hstart by done.
  apply bind_inr in Hstart as (id & w0 & Hid & Hstart). injection Hid as <- <-. simpl in Hstart. unfold prisma_create in Hstart.
  destruct (rows w !! _) eqn:Hfree; [done|]. rewrite toRecord_new in Hstart. injection Hstart as <- <-.
  unfold createOrder in Hcreate. simpl in Hcreate. destruct (cw_orders w !! st_orderId st) eqn:Hno; [done|]. injection Hcreate as <- <-.
  apply stageEvent_inv in Hstage as [[e ?]|(oid & ev & _ & Hoid & Hn & Hp & ->)]; [done|].
  assert (announces "order.placed" (st_orderId st) ev = true) as Hann.
  { unfold announces. apply bool_decide_eq_true. rewrite Hn, Hp. split; [done|]. unfold payload_order, placed_payload.
    assert (forall a b c d, object_members [("orderId", json_string (st_orderId st)); ("userId", a); ("totalMinor", b); ("currency", c);
      ("lineCount", d)]%string !! "orderId"%string = Some (json_string (st_orderId st))) as -> by done.
    unfold json_string. simpl. by rewrite unjs_js. }
  pose proof (events_insert "order.placed" _ ev (st_orderId st) _ Hoid) as Hev. rewrite Hann in Hev.
  eexists _, _, (env_now w), {| new_id := env_randomUUID w; new_name := CHECKOUT_SAGA; new_state := writeState st; new_correlationId := corr |}.
  split; [done|]. split; [done|]. simpl. split; [done|]. split; [done|]. split; [done|]. split; [done|].
  split; [done|]. split; [rewrite saga_table_lookup; simpl; rewrite lookup_insert_eq; simpl; by rewrite <-toRecord_new|].
  split; [by eapply readState_writeState|]. split; [|done].
  exact Hev.
Qed.

(** ** Concrete checkouts *)

Fixpoint run_steps {W} `{!SagaEnv W} (cfg : OrchestratorConfig) (def : SagaDefinition W) (c : SagaClaim) (fuel : nat)
    (x : SagaInstanceRecord * W) : SagaInstanceRecord * W :=
  match fuel with
  | O => x
  | S fuel =>
      if isTerminal (sr_status x.1) then x
      else match step cfg def x.1 x.2 with
      | (inr p, w') => run_steps cfg def c fuel (saved c p x.1, w')
      | (inl _, _) => x
      end
  end.

Lemma run_steps_path {E} `{!SagaEnv (World E)} validate commit_fails sid st0 cfg c fuel x :
  rtc (checkout_step validate commit_fails sid st0 cfg) x (run_steps cfg (checkout validate commit_fails) c fuel x).
Proof.
  revert x. induction fuel as [|fuel IH]; intros [r w]; cbn [run_steps]; [done|].
  simpl. destruct (isTerminal (sr_status r)) eqn:Ht; [done|].
  destruct (step cfg (checkout validate commit_fails) r w) as [[e|p] w'] eqn:Hs; [done|].
  eapply rtc_l; [|apply IH]. by apply co_saved.
Qed.

(** The environment lists the steps whose replies get lost. *)
#[local] Instance lossy_env : SagaEnv (World (list string)) := {|
  env_now _ := 1000; env_random _ := {| draw_num := 1; draw_den := 2 |}; env_randomUUID _ := "saga-1"%string;
  env_timedOut step w := bool_decide (step ∈ cw_env w);
  env_leave f := f;
|}.

Lemma lossy_prompt : prompt (World (list string)).
Proof. done. Qed.

Definition sample_state (country : string) : CheckoutSagaState := {|
  st_orderId := "order-1"; st_userId := "user-1"; st_currency := "GBP"; st_totalMinor := Whole 178750;
  st_shippingCountry := country; st_lines := sample_basket; st_reservationId := None; st_paymentId := None; st_shipmentId := None |}.

Definition sample_world (lost : list string) : World (list string) := {|
  cw_orders := {["order-1" := {|
    or_userId := "user-1"; or_items := []; or_total := {| raw_amountMinor := Whole 178750; raw_currency := "GBP" |};
    or_shippingCountry := "GB"; or_status := PENDING; or_failureReason := None; or_sagaId := "saga-1";
    or_createdAt := 1000; or_updatedAt := 1000 |}]}%string;
  cw_sagas := ∅; cw_outbox := ∅; cw_inventory := newInventory; cw_payments := newMockPayments; cw_shipping := newShipping;
  cw_env := lost |}.

Definition sample_cfg : OrchestratorConfig := {|
  cfg_leaseMs := 30000; cfg_stepTimeoutMs := 10000; cfg_policy := {| baseMs := 500; maxMs := 60000; maxAttempts := 2 |} |}.

Definition sample_new (country : string) : NewSagaInstance := {|
  new_id := "saga-1"; new_name := CHECKOUT_SAGA; new_state := writeState (sample_state country); new_correlationId := None |}.

Definition accept_all : string -> JsonValue -> option JSText := fun _ _ => None.
Definition always_commits : World (list string) -> bool := fun _ => false.

Definition sample_checkout (country : string) (lost : list string) : SagaInstanceRecord * World (list string) :=
  run_steps sample_cfg (checkout accept_all always_commits) {| claim_owner := "r"; claim_now := 1000; claim_leaseMs := 30000 |} 20
    (fresh_instance (sample_new country) 1000, sample_world lost).

Lemma sample_gateway_ok : gateway_ok newMockPayments.
Proof. split; intros ? ?; simpl; by rewrite lookup_empty. Qed.

Lemma sample_placed country lost : placed "saga-1" (sample_state country) (sample_world lost).
Proof.
  split; [|done|apply sample_gateway_ok|done|done]. eexists. split; [done|]. by split_and!.
Qed.

Lemma checkout_outcome_witness :
  fulfilled "saga-1" (sample_state "GB") (sample_checkout "GB" []).2 /\
  undone "saga-1" (sample_state "AQ") (sample_checkout "AQ" []).2.
Proof.
  split.
  - apply (checkout_outcome accept_all always_commits sample_cfg (sample_new "GB") (sample_state "GB") 1000 (sample_world [])
      _ (sample_checkout "GB" []).1 lossy_prompt ltac:(by apply (readState_writeState _ 178750)) eq_refl (sample_placed "GB" [])).
    + unfold sample_checkout. rewrite <-surjective_pairing. apply run_steps_path.
    + vm_compute. reflexivity.
  - apply (checkout_outcome accept_all always_commits sample_cfg (sample_new "AQ") (sample_state "AQ") 1000
      (sample_world []) _ (sample_checkout "AQ" []).1
      lossy_prompt ltac:(by apply (readState_writeState _ 178750)) eq_refl (sample_placed "AQ" [])).
    + unfold sample_checkout. rewrite <-surjective_pairing. apply run_steps_path.
    + vm_compute. reflexivity.
Defined.

Definition sample_place : (Thrown + (OrderRow * string)) * World (list string) :=
  place_tx accept_all always_commits [(CHECKOUT_SAGA, checkout accept_all always_commits)] (sample_state "GB") [] None
    {| cw_orders := ∅; cw_sagas := ∅; cw_outbox := ∅; cw_inventory := newInventory; cw_payments := newMockPayments;
       cw_shipping := newShipping; cw_env := [] |}.

Lemma place_order_together_witness :
  (exists e, sample_place.1 = inl e) /\ sample_place.2 = {| cw_orders := ∅; cw_sagas := ∅; cw_outbox := ∅; cw_inventory := newInventory;
      cw_payments := newMockPayments; cw_shipping := newShipping; cw_env := [] |} \/
  exists row id, sample_place.1 = inr (row, id) /\ or_status row = PENDING /\ or_sagaId row = id.
Proof.
  destruct (place_order_together accept_all always_commits (checkout accept_all always_commits) (sample_state "GB") [] None 178750
    {| cw_orders := ∅; cw_sagas := ∅; cw_outbox := ∅; cw_inventory := newInventory; cw_payments := newMockPayments;
       cw_shipping := newShipping; cw_env := [] |} sample_place.2 sample_place.1 eq_refl ltac:(apply surjective_pairing))
    as [H|(row & id & now & n & H1 & _ & _ & H2 & H3 & _)]; [left; exact H|right; exists row, id; auto].
Defined.

(** The pivot's answer may get lost every time although the parcel is booked:
    the saga then turns back, and ends with the money returned and the parcel on
    its way. *)
Lemma checkout_ships_and_refunds :
  sr_status (sample_checkout "GB" ["create-shipment"%string]).1 = COMPENSATED /\
  (sh_orderId <$> shipments (cw_shipping (sample_checkout "GB" ["create-shipment"%string]).2) !! "saga-1:create-shipment"%string) =
    Some "order-1"%string /\
  (p_status <$> payments (cw_payments (sample_checkout "GB" ["create-shipment"%string]).2) !! "pay_mock_000001"%string) = Some Refunded.
Proof. vm_compute. split_and!; reflexivity. Qed.
