(* ===== verification/Broker.v ===== *)
(** * Broker: partitioned logs, consumer groups and committed offsets

    [messaging/in-memory-broker.ts] and the vocabulary of
    [messaging/ports/message-broker.port.ts].  A member's read loop is cut at
    its awaits: between two of them the code runs to completion, and anything
    may happen while a handler runs or the member sleeps.  An offset is the
    integer the source keeps as a [bigint]; the timer of a handler is one more
    way for it to fail. *)

From S2P Require Import Prelude Text.

(** ** Messages *)

Abbreviation Headers := (gmap string JSText).

Record OutgoingMessage := { om_topic : string; om_key : option JSText; om_value : list N; om_headers : Headers }.

Record IncomingMessage := {
  im_topic : string; im_partition : nat; im_offset : N; im_key : option JSText; im_value : list N; im_headers : Headers; im_timestamp : Z }.

Record TopicSpec := { ts_topic : string; ts_partitions : nat }.

Definition nextOffset (offset : N) : N := offset + 1.

(** ** State *)

Record StoredRecord := { rec_key : option JSText; rec_value : list N; rec_headers : Headers; rec_timestamp : Z }.

(** Where a member's loop is: about to start a pass, in a handler call at a
    partition and offset with the rest of the pass to come, asleep (with a timer
    or not), or over. *)
Inductive Pump :=
  | Ready
  | InFlight (key : string) (from : N) (rest : list string) (delivered failed : bool)
  | Waiting (timer : bool)
  | Finished.

Record Member := {
  mb_id : nat;
  mb_topics : list string;
  mb_fromBeginning : bool;
  mb_assigned : list string;
  mb_positions : gmap string N;
  mb_stopped : bool;
  mb_pending : bool;
  mb_pump : Pump;
}.

Record Group := { committed : gmap string N; members : list Member }.

Abbreviation Logs := (list (list StoredRecord)).

Record Broker := {
  partitions : gmap string Logs;
  groups : gmap string Group;
  defaultPartitions : nat;
  roundRobin : Z;
  closed : bool;
}.

(** The error's operation. *)
Inductive BrokerClosedError := BrokerClosed (operation : string).

Definition newBroker (defaultPartitions : nat) : Broker :=
  {| partitions := ∅; groups := ∅; defaultPartitions := defaultPartitions; roundRobin := 0; closed := false |}.

Definition set_partitions (p : gmap string Logs) (b : Broker) : Broker :=
  {| partitions := p; groups := groups b; defaultPartitions := defaultPartitions b; roundRobin := roundRobin b; closed := closed b |}.
Definition set_groups (g : gmap string Group) (b : Broker) : Broker :=
  {| partitions := partitions b; groups := g; defaultPartitions := defaultPartitions b; roundRobin := roundRobin b; closed := closed b |}.
Definition set_roundRobin (r : Z) (b : Broker) : Broker :=
  {| partitions := partitions b; groups := groups b; defaultPartitions := defaultPartitions b; roundRobin := r; closed := closed b |}.

Definition with_pump (p : Pump) (pending : bool) (m : Member) : Member :=
  {| mb_id := mb_id m; mb_topics := mb_topics m; mb_fromBeginning := mb_fromBeginning m; mb_assigned := mb_assigned m;
     mb_positions := mb_positions m; mb_stopped := mb_stopped m; mb_pending := pending; mb_pump := p |}.
Definition with_positions (ps : gmap string N) (m : Member) : Member :=
  {| mb_id := mb_id m; mb_topics := mb_topics m; mb_fromBeginning := mb_fromBeginning m; mb_assigned := mb_assigned m;
     mb_positions := ps; mb_stopped := mb_stopped m; mb_pending := mb_pending m; mb_pump := mb_pump m |}.
Definition with_assigned (keys : list string) (ps : gmap string N) (m : Member) : Member :=
  {| mb_id := mb_id m; mb_topics := mb_topics m; mb_fromBeginning := mb_fromBeginning m; mb_assigned := keys;
     mb_positions := ps; mb_stopped := mb_stopped m; mb_pending := mb_pending m; mb_pump := mb_pump m |}.
Definition with_stopped (m : Member) : Member :=
  {| mb_id := mb_id m; mb_topics := mb_topics m; mb_fromBeginning := mb_fromBeginning m; mb_assigned := mb_assigned m;
     mb_positions := mb_positions m; mb_stopped := true; mb_pending := mb_pending m; mb_pump := mb_pump m |}.

(** ** Keys and partitions *)

Definition hash_char : Ascii.ascii := Ascii.ascii_of_N 35.

Definition partitionKey (topic : string) (partition : nat) : string :=
  topic +:+ String hash_char (pretty partition).

(** The text before and after the last separator. *)
Fixpoint split_last (cs : list Ascii.ascii) : option (list Ascii.ascii * list Ascii.ascii) :=
  match cs with
  | [] => None
  | c :: rest =>
      match split_last rest with
      | Some (before, after) => Some (c :: before, after)
      | None => if decide (c = hash_char) then Some ([], rest) else None
      end
  end.

(** [parsePartitionKey] of a key that has a separator, as every key has. *)
Definition parsePartitionKey (key : string) : option (string * nat) :=
  match split_last (chars key) with
  | Some (topic, partition) => Some (String.string_of_list_ascii topic, Z.to_nat (decimal partition))
  | None => None
  end.

(** FNV-1a on 32 bits: [Math.imul(hash ^ code, 0x01000193) >>> 0]. *)
Definition fnv1a (key : JSText) : Z :=
  foldl (fun hash code => (Z.lxor hash (Z.of_N code) * 16777619) mod 2 ^ 32) 2166136261 key.

(** The partition, and the counter that spreads messages without a key. *)
Definition partitionFor (key : option JSText) (count : nat) (counter : Z) : nat * Z :=
  match key with
  | None => let counter := (counter + 1) mod MAX_SAFE_INTEGER in (Z.to_nat (counter mod Z.of_nat count), counter)
  | Some key => (Z.to_nat (fnv1a key mod Z.of_nat count), counter)
  end.

(** ** Operations *)

(** [logsFor]: the topic's partitions, created on first use. *)
Definition logsFor (topic : string) (b : Broker) : Logs * Broker :=
  match partitions b !! topic with
  | Some logs => (logs, b)
  | None =>
      let logs := replicate (defaultPartitions b) [] in
      (logs, set_partitions (<[topic := logs]> (partitions b)) b)
  end.

Definition ensureTopic (spec : TopicSpec) (b : Broker) : Broker :=
  match partitions b !! ts_topic spec with
  | Some _ => b
  | None => set_partitions (<[ts_topic spec := replicate (ts_partitions spec) []]> (partitions b)) b
  end.

Definition ensureTopics (specs : list TopicSpec) (b : Broker) : BrokerClosedError + Broker :=
  if closed b then inl (BrokerClosed "ensureTopics") else inr (foldl (fun b spec => ensureTopic spec b) b specs).

Definition append (now : Z) (message : OutgoingMessage) (b : Broker) : Broker :=
  let '(logs, b) := logsFor (om_topic message) b in
  let '(partition, counter) := partitionFor (om_key message) (length logs) (roundRobin b) in
  let record := {| rec_key := om_key message; rec_value := om_value message; rec_headers := om_headers message; rec_timestamp := now |} in
  set_roundRobin counter
    (set_partitions (<[om_topic message := alter (fun log => log ++ [record]) partition logs]> (partitions b)) b).

(** Wakes a member, or records that it should not go to sleep. *)
Definition notify (m : Member) : Member :=
  match mb_pump m with
  | Waiting _ => with_pump Ready false m
  | p => with_pump p true m
  end.

Definition map_members (f : Member -> Member) (g : Group) : Group := {| committed := committed g; members := f <$> members g |}.

Definition wakeSubscribersOf (topic : string) (b : Broker) : Broker :=
  set_groups (map_members (fun m => if decide (topic ∈ mb_topics m) then notify m else m) <$> groups b) b.

(** [new Set(...)]: each once, in order of first appearance. *)
Definition distinct (l : list string) : list string := reverse (remove_dups (reverse l)).

Definition produce (now : Z) (messages : list OutgoingMessage) (b : Broker) : BrokerClosedError + Broker :=
  if closed b then inl (BrokerClosed "produce")
  else
    let b := foldl (fun b m => append now m b) b messages in
    inr (foldl (fun b topic => wakeSubscribersOf topic b) b (distinct (om_topic <$> messages))).

Definition groupFor (groupId : string) (b : Broker) : Group := default {| committed := ∅; members := [] |} (groups b !! groupId).

(** The topics of a group, in order and once each. *)
Definition group_topics (ms : list Member) : list string := merge_sort String.le (remove_dups (ms ≫= mb_topics)).

Fixpoint topic_keys (topics : list string) (b : Broker) : list string * Broker :=
  match topics with
  | [] => ([], b)
  | topic :: topics =>
      let '(logs, b) := logsFor topic b in
      let '(keys, b) := topic_keys topics b in
      ((partitionKey topic <$> seq 0 (length logs)) ++ keys, b)
  end.

(** The keys that fall to the member at [i] of [n]. *)
Definition deal (n i : nat) (keys : list string) : list string :=
  omap (fun '(index, key) => if decide ((index mod n)%nat = i) then Some key else None) (imap pair keys).

Definition reassign (keys : list string) (m : Member) : Member :=
  notify (with_assigned keys (filter (fun kv => kv.1 ∈ keys) (mb_positions m)) m).

Definition rebalance (groupId : string) (b : Broker) : Broker :=
  let g := groupFor groupId b in
  if decide (members g = []) then set_groups (<[groupId := g]> (groups b)) b
  else
    let '(keys, b) := topic_keys (group_topics (members g)) b in
    let ms := imap (fun i m => reassign (deal (length (members g)) i keys) m) (members g) in
    set_groups (<[groupId := {| committed := committed g; members := ms |}]> (groups b)) b.

(** [subscribe], up to the start of the member's loop. *)
Definition subscribe (groupId : string) (id : nat) (topics : list string) (fromBeginning : bool) (b : Broker) :
    BrokerClosedError + Broker :=
  if closed b then inl (BrokerClosed "subscribe")
  else
    let g := groupFor groupId b in
    let m := {| mb_id := id; mb_topics := topics; mb_fromBeginning := fromBeginning; mb_assigned := []; mb_positions := ∅;
                mb_stopped := false; mb_pending := false; mb_pump := Ready |} in
    inr (rebalance groupId (set_groups (<[groupId := {| committed := committed g; members := members g ++ [m] |}]> (groups b)) b)).

(** ** One member's loop *)

Definition log_of (b : Broker) (key : string) : option (list StoredRecord) :=
  match parsePartitionKey key with
  | Some (topic, partition) => logs ← partitions b !! topic; logs !! partition
  | None => None
  end.

Definition startOffset (m : Member) (log : list StoredRecord) : N :=
  if mb_fromBeginning m then 0 else N.of_nat (length log).

(** The rest of the [for] loop, up to the next handler call. *)
Fixpoint scan (b : Broker) (committed : gmap string N) (keys : list string) (m : Member) : Member * option (string * N * list string) :=
  match keys with
  | [] => (m, None)
  | key :: rest =>
      if mb_stopped m then (m, None)
      else match log_of b key with
      | None => scan b committed rest m
      | Some log =>
          let from := match mb_positions m !! key with
            | Some from => from
            | None => default (startOffset m log) (committed !! key)
            end in
          let m := with_positions (<[key := from]> (mb_positions m)) m in
          if decide (N.of_nat (length log) <= from)%N then scan b committed rest m else (m, Some (key, from, rest))
      end
  end.

(** [idle], up to its promise. *)
Definition idle (failed : bool) (m : Member) : Member :=
  if mb_pending m || mb_stopped m then with_pump Ready false m else with_pump (Waiting failed) false m.

(** From the top of the [for] loop to the next await. *)
Definition pass (b : Broker) (committed : gmap string N) (keys : list string) (delivered failed : bool) (m : Member) : Member :=
  match scan b committed keys m with
  | (m, Some (key, from, rest)) => with_pump (InFlight key from rest delivered failed) (mb_pending m) m
  | (m, None) =>
      if mb_stopped m then with_pump Finished (mb_pending m) m
      else if delivered then with_pump Ready (mb_pending m) m
      else idle failed m
  end.

(** The loop's head. *)
Definition run (b : Broker) (committed : gmap string N) (m : Member) : Member :=
  match mb_pump m with
  | Ready => if mb_stopped m then with_pump Finished (mb_pending m) m else pass b committed (mb_assigned m) false false m
  | _ => m
  end.

(** The message a handler is given. *)
Definition message_at (b : Broker) (key : string) (from : N) : option IncomingMessage :=
  match parsePartitionKey key with
  | Some (topic, partition) =>
      logs ← partitions b !! topic; log ← logs !! partition; record ← log !! N.to_nat from;
      Some {| im_topic := topic; im_partition := partition; im_offset := from; im_key := rec_key record;
              im_value := rec_value record; im_headers := rec_headers record; im_timestamp := rec_timestamp record |}
  | None => None
  end.

(** ** Everything that can happen *)

Inductive Ev :=
  | EvEnsure (specs : list TopicSpec)
  | EvProduce (now : Z) (messages : list OutgoingMessage)
  | EvSubscribe (groupId : string) (id : nat) (topics : list string) (fromBeginning : bool)
  | EvRun (groupId : string) (id : nat)
  | EvSettle (groupId : string) (id : nat) (resolved : bool)
  | EvTimer (groupId : string) (id : nat)
  | EvStop (groupId : string) (id : nat)
  | EvLeave (groupId : string) (id : nat)
  | EvDisconnect
  | EvDisconnected.

(** The broker, and the messages whose handler resolved: group, partition and offset. *)
Record Sys := { sys_broker : Broker; sys_handled : list (string * string * N) }.

Definition at_member (id : nat) (f : Member -> Member) (m : Member) : Member := if decide (mb_id m = id) then f m else m.

Definition update_group (groupId : string) (f : Group -> Group) (b : Broker) : Broker :=
  match groups b !! groupId with
  | Some g => set_groups (<[groupId := f g]> (groups b)) b
  | None => b
  end.

Definition find_member (id : nat) (ms : list Member) : option Member := head (filter (fun m => mb_id m = id) ms).

(** [await this.callHandler(...)] has settled. *)
Definition settle (groupId : string) (id : nat) (resolved : bool) (s : Sys) : Sys :=
  let b := sys_broker s in
  match groups b !! groupId with
  | None => s
  | Some g =>
      match find_member id (members g) with
      | Some {| mb_pump := InFlight key from rest delivered failed |} =>
          if resolved then
            let next := nextOffset from in
            let committed' := <[key := next]> (committed g) in
            let f m := pass b committed' rest true failed (with_positions (<[key := next]> (mb_positions m)) m) in
            {| sys_broker := set_groups (<[groupId := {| committed := committed'; members := at_member id f <$> members g |}]> (groups b)) b;
               sys_handled := (groupId, key, from) :: sys_handled s |}
          else
            {| sys_broker := set_groups (<[groupId := map_members (at_member id (pass b (committed g) rest delivered true)) g]> (groups b)) b;
               sys_handled := sys_handled s |}
      | _ => s
      end
  end.

(** The retry timer of [idle] fires. *)
Definition timer (m : Member) : Member := match mb_pump m with Waiting true => with_pump Ready false m | _ => m end.

Definition stop (m : Member) : Member := if mb_stopped m then m else notify (with_stopped m).

(** The end of [stop]: the loop is over, the member leaves and the others take
    its partitions. *)
Definition leave (groupId : string) (id : nat) (b : Broker) : Broker :=
  match groups b !! groupId with
  | Some g =>
      match find_member id (members g) with
      | Some {| mb_pump := Finished |} =>
          rebalance groupId (set_groups (<[groupId :=
            {| committed := committed g; members := filter (fun m => mb_id m <> id) (members g) |}]> (groups b)) b)
      | _ => b
      end
  | None => b
  end.

Definition disconnect (b : Broker) : Broker :=
  if closed b then b
  else {| partitions := partitions b; groups := map_members (fun m => notify (with_stopped m)) <$> groups b;
          defaultPartitions := defaultPartitions b; roundRobin := roundRobin b; closed := true |}.

Definition isFinished (m : Member) : bool := match mb_pump m with Finished => true | _ => false end.

(** The end of [disconnect], once every loop is over. *)
Definition disconnected (b : Broker) : Broker :=
  if closed b && bool_decide (map_Forall (fun _ g => forallb isFinished (members g) = true) (groups b))
  then set_groups ((fun g => {| committed := committed g; members := [] |}) <$> groups b) b
  else b.

Definition on_broker (f : Broker -> Broker) (s : Sys) : Sys := {| sys_broker := f (sys_broker s); sys_handled := sys_handled s |}.

Definition or_same (r : BrokerClosedError + Broker) (b : Broker) : Broker := match r with inr b => b | inl _ => b end.

Definition event (e : Ev) (s : Sys) : Sys :=
  match e with
  | EvEnsure specs => on_broker (fun b => or_same (ensureTopics specs b) b) s
  | EvProduce now messages => on_broker (fun b => or_same (produce now messages b) b) s
  | EvSubscribe groupId id topics fromBeginning =>
      (* a member is a new object *)
      if decide (id ∈ mb_id <$> members (groupFor groupId (sys_broker s))) then s
      else on_broker (fun b => or_same (subscribe groupId id topics fromBeginning b) b) s
  | EvRun groupId id => on_broker (fun b => update_group groupId (fun g => map_members (at_member id (run b (committed g))) g) b) s
  | EvSettle groupId id resolved => settle groupId id resolved s
  | EvTimer groupId id => on_broker (update_group groupId (map_members (at_member id timer))) s
  | EvStop groupId id => on_broker (update_group groupId (map_members (at_member id stop))) s
  | EvLeave groupId id => on_broker (leave groupId id) s
  | EvDisconnect => on_broker disconnect s
  | EvDisconnected => on_broker disconnected s
  end.

Definition run_events (events : list Ev) (s : Sys) : Sys := foldl (fun s e => event e s) s events.

Definition committedOffsets (groupId : string) (b : Broker) : gmap string N := committed (groupFor groupId b).

(** ** What is committed has been handled *)

Section covered.
Context (handled : list (string * string * N)).

Definition covered (groupId key : string) (n : N) : Prop := forall o, (o < n)%N -> (groupId, key, o) ∈ handled.

Record member_ok (groupId : string) (m : Member) : Prop := {
  mo_start : mb_fromBeginning m = true;
  mo_positions : forall key n, mb_positions m !! key = Some n -> covered groupId key n;
  mo_flight : match mb_pump m with InFlight key from _ _ _ => covered groupId key from | _ => True end;
}.

Record group_ok (groupId : string) (g : Group) : Prop := {
  go_committed : forall key n, committed g !! key = Some n -> covered groupId key n;
  go_members : Forall (member_ok groupId) (members g);
}.

Lemma covered_0 groupId key : covered groupId key 0.
Proof. intros o Ho. lia. Qed.

Lemma member_ok_pump groupId m p pending :
  member_ok groupId m -> match p with InFlight key from _ _ _ => covered groupId key from | _ => True end ->
  member_ok groupId (with_pump p pending m).
Proof. intros [] ?. by split. Qed.

Lemma notify_ok groupId m : member_ok groupId m -> member_ok groupId (notify m).
Proof. intros Hm. unfold notify. pose proof (mo_flight _ _ Hm) as Hf. destruct (mb_pump m); by apply member_ok_pump. Qed.

Lemma scan_ok groupId b cs keys m m' r :
  scan b cs keys m = (m', r) -> (forall key n, cs !! key = Some n -> covered groupId key n) ->
  member_ok groupId m -> member_ok groupId m' /\ (forall key from rest, r = Some (key, from, rest) -> covered groupId key from).
Proof.
  intros Hs Hcs. revert m Hs. induction keys as [|key keys IH]; intros m; simpl; [by intros [= <- <-]|].
  destruct (mb_stopped m); [by intros [= <- <-]|]. destruct (log_of b key) as [log|]; [|apply IH].
  intros Hs Hm. set (from := match mb_positions m !! key with Some from => from | None => default (startOffset m log) (cs !! key) end) in *.
  assert (covered groupId key from) as Hfrom.
  { unfold from. destruct (mb_positions m !! key) as [n|] eqn:Hp; [by eapply mo_positions|].
    destruct (cs !! key) as [n|] eqn:Hc; simpl; [by eapply Hcs|]. unfold startOffset. rewrite (mo_start _ _ Hm). apply covered_0. }
  assert (member_ok groupId (with_positions (<[key := from]> (mb_positions m)) m)) as Hm'.
  { destruct Hm as [H1 H2 H3]. split; [done| |done]. intros k n. simpl. rewrite lookup_insert. destruct (decide (key = k)) as [<-|]; [|apply H2].
    by intros [= <-]. }
  case_decide; [by eapply IH|]. injection Hs as <- <-. split; [done|]. by intros k f rest [= <- <- <-].
Qed.

Lemma pass_ok groupId b cs keys d f m :
  (forall key n, cs !! key = Some n -> covered groupId key n) -> member_ok groupId m -> member_ok groupId (pass b cs keys d f m).
Proof.
  intros Hcs Hm. unfold pass, idle. destruct (scan b cs keys m) as [m' [[[key from] rest]|]] eqn:Hs;
    destruct (scan_ok _ _ _ _ _ _ _ Hs Hcs Hm) as [Hm' Hr].
  - apply member_ok_pump; [done|]. by eapply Hr.
  - repeat case_match; by apply member_ok_pump.
Qed.

Lemma Forall_fmap_member groupId f ms :
  Forall (member_ok groupId) ms -> (forall m, member_ok groupId m -> member_ok groupId (f m)) -> Forall (member_ok groupId) (f <$> ms).
Proof. intros Hms Hf. apply Forall_fmap. eapply Forall_impl; [exact Hms|]. exact Hf. Qed.

Lemma map_members_ok groupId f g :
  group_ok groupId g -> (forall m, member_ok groupId m -> member_ok groupId (f m)) -> group_ok groupId (map_members f g).
Proof. intros [Hc Hm] Hf. split; [done|]. by apply Forall_fmap_member. Qed.

Definition broker_ok (b : Broker) : Prop := forall groupId g, groups b !! groupId = Some g -> group_ok groupId g.

Lemma broker_ok_insert b groupId g : broker_ok b -> group_ok groupId g -> broker_ok (set_groups (<[groupId := g]> (groups b)) b).
Proof. intros Hb Hg k g'. simpl. rewrite lookup_insert. case_decide; [|apply Hb]. subst. by intros [= <-]. Qed.

Lemma groupFor_ok b groupId : broker_ok b -> group_ok groupId (groupFor groupId b).
Proof.
  intros Hb. unfold groupFor. destruct (groups b !! groupId) eqn:Hg; [by apply Hb|]. split; simpl; [|constructor].
  intros key n. by rewrite lookup_empty.
Qed.

Lemma broker_ok_groups b b' : groups b' = groups b -> broker_ok b -> broker_ok b'.
Proof. intros Heq Hb groupId g. rewrite Heq. apply Hb. Qed.

Lemma logsFor_groups topic b logs b' : logsFor topic b = (logs, b') -> groups b' = groups b.
Proof. unfold logsFor. destruct (partitions b !! topic); by intros [= _ <-]. Qed.

Lemma topic_keys_groups topics b keys b' : topic_keys topics b = (keys, b') -> groups b' = groups b.
Proof.
  revert b keys b'. induction topics as [|t topics IH]; intros b keys b'; simpl; [by intros [= _ <-]|].
  destruct (logsFor t b) as [logs b1] eqn:H1. destruct (topic_keys topics b1) as [ks b2] eqn:H2. intros [= _ <-].
  rewrite (IH _ _ _ H2). by eapply logsFor_groups.
Qed.

Lemma rebalance_ok b groupId : broker_ok b -> broker_ok (rebalance groupId b).
Proof.
  intros Hb. unfold rebalance. pose proof (groupFor_ok b groupId Hb) as Hg. case_decide; [by apply broker_ok_insert|].
  destruct (topic_keys (group_topics (members (groupFor groupId b))) b) as [keys b'] eqn:Hk. apply broker_ok_insert.
  - eapply broker_ok_groups; [by eapply topic_keys_groups|done].
  - destruct Hg as [Hc Hm]. split; simpl; [done|]. apply Forall_lookup. intros i m. rewrite list_lookup_imap.
    destruct (members (groupFor groupId b) !! i) as [m0|] eqn:Hi; [|done]. intros [= <-]. apply notify_ok.
    rewrite Forall_lookup in Hm. destruct (Hm i m0 Hi) as [H1 H2 H3]. split; simpl; [done| |done].
    intros key n [Hp _]%map_lookup_filter_Some. by eapply H2.
Qed.

End covered.

Lemma member_ok_mono h h' groupId m : h ⊆ h' -> member_ok h groupId m -> member_ok h' groupId m.
Proof.
  intros Hs [H1 H2 H3]. split; [done| |].
  - intros key n Hn o Ho. apply Hs. by eapply H2.
  - destruct (mb_pump m); try done. intros o Ho. apply Hs. by apply H3.
Qed.

Lemma broker_ok_mono h h' b : h ⊆ h' -> broker_ok h b -> broker_ok h' b.
Proof.
  intros Hs Hb groupId g Hg. destruct (Hb groupId g Hg) as [Hc Hm]. split.
  - intros key n Hn o Ho. apply Hs. by eapply Hc.
  - eapply Forall_impl; [exact Hm|]. intros m. by apply member_ok_mono.
Qed.

Definition sys_ok (s : Sys) : Prop := broker_ok (sys_handled s) (sys_broker s).

Lemma find_member_Some id ms m : find_member id ms = Some m -> m ∈ ms /\ mb_id m = id.
Proof.
  unfold find_member. intros H. assert (m ∈ filter (fun m => mb_id m = id) ms) as Hin; [|apply list_elem_of_filter in Hin; tauto].
  destruct (filter _ ms); simpl in H; [done|]. injection H as ->. left.
Qed.

Lemma at_member_ok h groupId id f m :
  (member_ok h groupId m -> member_ok h groupId (f m)) -> member_ok h groupId m -> member_ok h groupId (at_member id f m).
Proof. intros Hf Hm. unfold at_member. case_decide; auto. Qed.

Lemma settle_ok groupId id resolved s : sys_ok s -> sys_ok (settle groupId id resolved s).
Proof.
  intros Hs. unfold settle. destruct (groups (sys_broker s) !! groupId) as [g|] eqn:Hg; [|done].
  destruct (find_member id (members g)) as [m|] eqn:Hm; [|done]. destruct m as [i ts fb asg ps st pend p].
  destruct p as [|key from rest delivered failed| |]; try done.
  destruct (find_member_Some _ _ _ Hm) as [Hin _]. pose proof (Hs _ _ Hg) as [Hc Hms].
  rewrite Forall_forall in Hms. pose proof (mo_flight _ _ _ (Hms _ Hin)) as Hflight. simpl in Hflight. destruct resolved.
  - set (h := (groupId, key, from) :: sys_handled s).
    assert (sys_handled s ⊆ h) as Hsub by (intros x Hx; by right).
    assert (covered h groupId key (nextOffset from)) as Hnext.
    { intros o Ho. unfold nextOffset in Ho. destruct (decide (o = from)) as [->|]; [left|right; apply Hflight; lia]. }
    assert (forall k n, <[key := nextOffset from]> (committed g) !! k = Some n -> covered h groupId k n) as Hc'.
    { intros k n. rewrite lookup_insert. case_decide; [subst; by intros [= <-]|]. intros Hk o Ho. apply Hsub. by eapply Hc. }
    apply broker_ok_insert; [by eapply broker_ok_mono|]. split; [done|]. simpl. apply Forall_fmap, Forall_forall. intros m Hm'.
    apply at_member_ok; [|by eapply member_ok_mono, Hms]. intros Hok. apply pass_ok; [done|].
    destruct Hok as [H1 H2 H3]. split; [done| |done]. intros k n. simpl. rewrite lookup_insert.
    case_decide; [subst; by intros [= <-]|apply H2].
  - apply broker_ok_insert; [done|]. apply map_members_ok; [by apply Hs|]. intros m Hok. apply at_member_ok; [|done].
    intros _. by apply pass_ok.
Qed.

(** A subscription that reads from the start of the log. *)
Definition from_start (e : Ev) : Prop := match e with EvSubscribe _ _ _ fromBeginning => fromBeginning = true | _ => True end.

Lemma append_groups now m b : groups (append now m b) = groups b.
Proof.
  unfold append. destruct (logsFor (om_topic m) b) as [logs b'] eqn:H. destruct (partitionFor _ _ _). simpl.
  by eapply logsFor_groups.
Qed.

Lemma appends_groups now ms b : groups (foldl (fun b m => append now m b) b ms) = groups b.
Proof. revert b. induction ms as [|m ms IH]; intros b; [done|]. simpl. by rewrite IH, append_groups. Qed.

Lemma broker_ok_fmap h b f c :
  broker_ok h b -> (forall groupId g, group_ok h groupId g -> group_ok h groupId (f g)) ->
  groups c = f <$> groups b -> broker_ok h c.
Proof. intros Hb Hf Hc groupId g. rewrite Hc, lookup_fmap. destruct (groups b !! groupId) eqn:Hg; [|done]. intros [= <-]. auto. Qed.

Lemma wakes_ok h topics b : broker_ok h b -> broker_ok h (foldl (fun b topic => wakeSubscribersOf topic b) b topics).
Proof.
  revert b. induction topics as [|t topics IH]; intros b Hb; [done|]. simpl. apply IH.
  eapply broker_ok_fmap; [exact Hb| |reflexivity]. intros groupId g Hg. apply map_members_ok; [done|]. intros m Hm.
  case_decide; [by apply notify_ok|done].
Qed.

Lemma with_stopped_ok h groupId m : member_ok h groupId m -> member_ok h groupId (with_stopped m).
Proof. intros []. by split. Qed.

Lemma update_group_ok h groupId f b :
  broker_ok h b -> (forall g, groups b !! groupId = Some g -> group_ok h groupId g -> group_ok h groupId (f g)) ->
  broker_ok h (update_group groupId f b).
Proof.
  intros Hb Hf. unfold update_group. destruct (groups b !! groupId) eqn:Hg; [|done]. apply broker_ok_insert; auto.
Qed.

Lemma ensure_groups specs b : groups (foldl (fun b spec => ensureTopic spec b) b specs) = groups b.
Proof.
  revert b. induction specs as [|sp specs IH]; intros b; [done|]. simpl. rewrite IH. unfold ensureTopic.
  by destruct (partitions b !! ts_topic sp).
Qed.

Lemma event_ok e s : from_start e -> sys_ok s -> sys_ok (event e s).
Proof.
  intros He Hs. destruct e as [specs|now ms|g id ts fb|g id|g id r|g id|g id|g id| |]; simpl.
  - unfold ensureTopics, or_same, sys_ok in *. simpl. destruct (closed _); [done|].
    eapply broker_ok_groups; [apply ensure_groups|done].
  - unfold produce, or_same, sys_ok in *. simpl. destruct (closed _); [done|]. apply wakes_ok.
    eapply broker_ok_groups; [apply appends_groups|done].
  - case_decide; [done|]. unfold subscribe, or_same, sys_ok in *. simpl. destruct (closed _); [done|]. apply rebalance_ok, broker_ok_insert; [done|].
    pose proof (groupFor_ok _ _ g Hs) as [Hc Hm]. split; simpl; [done|]. apply Forall_app_2; [done|]. constructor; [|constructor].
    split; simpl; [done| |done]. intros key n. by rewrite lookup_empty.
  - apply update_group_ok; [done|]. intros gr _ Hg. apply map_members_ok; [done|]. intros m Hm. apply at_member_ok; [|done].
    intros _. unfold run. destruct (mb_pump m); try done. case_match; [by apply member_ok_pump|]. apply pass_ok; [by apply Hg|done].
  - by apply settle_ok.
  - apply update_group_ok; [done|]. intros gr _ Hg. apply map_members_ok; [done|]. intros m Hm. apply at_member_ok; [|done].
    intros _. unfold timer. destruct (mb_pump m) as [| |[]|]; try done. by apply member_ok_pump.
  - apply update_group_ok; [done|]. intros gr _ Hg. apply map_members_ok; [done|]. intros m Hm. apply at_member_ok; [|done].
    intros _. unfold stop. destruct (mb_stopped m); [done|]. by apply notify_ok, with_stopped_ok.
  - unfold sys_ok, leave in *. simpl. destruct (groups _ !! g) as [gr|] eqn:Hg; [|done]. repeat case_match; try done.
    apply rebalance_ok, broker_ok_insert; [done|]. destruct (Hs _ _ Hg) as [Hc Hm]. split; simpl; [done|].
    apply Forall_forall. intros m' [_ Hin]%list_elem_of_filter. rewrite Forall_forall in Hm. auto.
  - unfold sys_ok, disconnect in *. simpl. destruct (closed _); [done|]. eapply broker_ok_fmap; [exact Hs| |reflexivity].
    intros groupId gr Hg. apply map_members_ok; [done|]. intros m Hm. by apply notify_ok, with_stopped_ok.
  - unfold sys_ok, disconnected in *. simpl. case_match; [|done]. eapply broker_ok_fmap; [exact Hs| |reflexivity].
    intros groupId gr [Hc Hm]. split; simpl; [done|constructor].
Qed.

Lemma run_events_ok events s : Forall from_start events -> sys_ok s -> sys_ok (run_events events s).
Proof. intros He. revert s. induction He as [|e events He _ IH]; intros s Hs; [done|]. simpl. by apply IH, event_ok. Qed.

(** ** Keys *)

Lemma split_last_app before after :
  hash_char ∉ after -> split_last (before ++ hash_char :: after) = Some (before, after).
Proof.
  intros Hn. induction before as [|c before IH]; simpl; [|by rewrite IH].
  assert (split_last after = None) as ->; [|done].
  induction after as [|c after IH]; [done|]. simpl. apply not_elem_of_cons in Hn as [Hc Hn]. rewrite IH by done.
  by rewrite decide_False by congruence.
Qed.

Lemma parse_partitionKey topic n : parsePartitionKey (partitionKey topic n) = Some (topic, n).
Proof.
  unfold parsePartitionKey, partitionKey. rewrite chars_app. change (chars (String hash_char (pretty n))) with (hash_char :: chars (pretty n)).
  destruct (pretty_nat_decimal n) as [Hd Hv]. rewrite split_last_app.
  - rewrite Hv, Nat2Z.id, String.string_of_list_ascii_of_string. done.
  - intros Hin. unfold digits_ok in Hd. rewrite Forall_forall in Hd. by specialize (Hd _ Hin).
Qed.

Lemma partitionKey_inj t1 n1 t2 n2 : partitionKey t1 n1 = partitionKey t2 n2 -> t1 = t2 /\ n1 = n2.
Proof. intros H. apply (f_equal parsePartitionKey) in H. rewrite !parse_partitionKey in H. by simplify_eq. Qed.

Lemma log_of_key b topic n : log_of b (partitionKey topic n) = (logs ← partitions b !! topic; logs !! n).
Proof. unfold log_of. by rewrite parse_partitionKey. Qed.

(** ** Who reads what *)

Lemma elem_of_deal n i keys key : key ∈ deal n i keys <-> exists index, keys !! index = Some key /\ (index mod n)%nat = i.
Proof.
  unfold deal. rewrite list_elem_of_omap. split.
  - intros ([index k] & Hin & Hf). apply list_elem_of_lookup in Hin as [j Hj]. rewrite list_lookup_imap in Hj.
    destruct (keys !! j) eqn:Hk; [|done]. injection Hj as <- <-. case_decide; [|done]. injection Hf as <-. eauto.
  - intros (index & Hk & Hm). exists (index, key). split; [|by rewrite decide_True].
    apply list_elem_of_lookup. exists index. by rewrite list_lookup_imap, Hk.
Qed.

Lemma topic_keys_spec topics b keys b' :
  topic_keys topics b = (keys, b') -> NoDup topics ->
  NoDup keys /\
  (forall key, key ∈ keys <-> exists topic n log, topic ∈ topics /\ key = partitionKey topic n /\ log_of b' key = Some log) /\
  (forall key log, log_of b key = Some log -> log_of b' key = Some log).
Proof.
  revert b keys b'. induction topics as [|t topics IH]; intros b keys b' H Hnd.
  { injection H as <- <-. split_and!; [constructor| |done]. intros key. split; [by intros ?%elem_of_nil|].
    intros (topic & n & log & Hin & _). by apply elem_of_nil in Hin. }
  apply NoDup_cons in Hnd as [Hnt Hnd]. simpl in H. destruct (logsFor t b) as [logs b1] eqn:H1.
  destruct (topic_keys topics b1) as [ks b2] eqn:H2. injection H as <- <-.
  destruct (IH _ _ _ H2 Hnd) as (Hk1 & Hk2 & Hk3).
  assert (partitions b1 !! t = Some logs) as Hlogs.
  { revert H1. unfold logsFor. destruct (partitions b !! t) eqn:Ht; intros [= <- <-]; [done|]. simpl. apply lookup_insert_eq. }
  assert (forall n log, logs !! n = Some log -> log_of b2 (partitionKey t n) = Some log) as Hin2.
  { intros n log Hn. apply Hk3. rewrite log_of_key, Hlogs. done. }
  assert (forall n log, log_of b2 (partitionKey t n) = Some log -> (n < length logs)%nat) as Hlen.
  { clear -H2 Hlogs Hnt. revert b1 ks b2 H2 Hlogs. induction topics as [|t' topics IH]; intros b1 ks b2 H2 Hlogs n log.
    - injection H2 as _ <-. rewrite log_of_key, Hlogs. simpl. apply lookup_lt_Some.
    - apply not_elem_of_cons in Hnt as [Hne Hnt]. simpl in H2. destruct (logsFor t' b1) as [l' b3] eqn:H3.
      destruct (topic_keys topics b3) as [ks' b4] eqn:H4. injection H2 as _ <-. apply (IH Hnt b3 ks' b4 H4).
      revert H3. unfold logsFor. destruct (partitions b1 !! t'); intros [= _ <-]; [done|]. simpl. by rewrite lookup_insert_ne. }
  split_and!.
  - apply NoDup_app. split_and!; [|intros key|done].
    + apply NoDup_fmap_2_strong; [|apply NoDup_seq]. intros x y _ _ Heq. by apply partitionKey_inj in Heq as [_ ?].
    + intros (n & -> & _)%list_elem_of_fmap Hin. apply Hk2 in Hin as (t' & n' & log & Ht' & Heq & _).
      apply partitionKey_inj in Heq as [-> _]. done.
  - intros key. rewrite elem_of_app, list_elem_of_fmap. split.
    + intros [(n & -> & Hn)|Hin].
      * apply elem_of_seq in Hn. destruct (lookup_lt_is_Some_2 logs n) as [log Hlog]; [lia|].
        exists t, n, log. split_and!; [left|done|by apply Hin2].
      * apply Hk2 in Hin as (t' & n' & log & ? & ? & ?). exists t', n', log. split_and!; [by right|done|done].
    + intros (t' & n & log & Ht' & -> & Hlog). apply elem_of_cons in Ht' as [->|Ht'].
      * left. exists n. split; [done|]. apply elem_of_seq. apply Hlen in Hlog. lia.
      * right. apply Hk2. eauto 10.
  - intros key log Hlog. apply Hk3. revert H1. unfold logsFor. destruct (partitions b !! t) as [l0|] eqn:Ht; intros [= _ <-]; [done|].
    unfold log_of in *. destruct (parsePartitionKey key) as [[t' n]|]; [|done]. simpl.
    destruct (decide (t = t')) as [->|]; [by rewrite Ht in Hlog|by rewrite lookup_insert_ne].
Qed.

Lemma group_topics_NoDup ms : NoDup (group_topics ms).
Proof. unfold group_topics. rewrite merge_sort_Permutation. apply NoDup_remove_dups. Qed.

Lemma elem_of_group_topics ms topic : topic ∈ group_topics ms <-> exists m, m ∈ ms /\ topic ∈ mb_topics m.
Proof.
  unfold group_topics. rewrite merge_sort_Permutation, elem_of_remove_dups, list_elem_of_bind. naive_solver.
Qed.

Lemma notify_fields m :
  mb_id (notify m) = mb_id m /\ mb_topics (notify m) = mb_topics m /\ mb_assigned (notify m) = mb_assigned m /\
  mb_positions (notify m) = mb_positions m /\ mb_pump (notify m) = match mb_pump m with Waiting _ => Ready | p => p end.
Proof. unfold notify. by destruct (mb_pump m). Qed.

(** The members of a group that has been rebalanced. *)
Lemma rebalance_members b groupId :
  members (groupFor groupId b) <> [] ->
  exists keys b' ms, topic_keys (group_topics (members (groupFor groupId b))) b = (keys, b') /\
    partitions (rebalance groupId b) = partitions b' /\
    groups (rebalance groupId b) = <[groupId := {| committed := committed (groupFor groupId b); members := ms |}]> (groups b) /\
    length ms = length (members (groupFor groupId b)) /\
    forall i m', ms !! i = Some m' -> exists m, members (groupFor groupId b) !! i = Some m /\
      m' = reassign (deal (length (members (groupFor groupId b))) i keys) m.
Proof.
  intros Hne. unfold rebalance. rewrite decide_False by done.
  destruct (topic_keys (group_topics (members (groupFor groupId b))) b) as [keys b'] eqn:Hk.
  exists keys, b'. eexists. split; [done|]. split; [done|]. simpl. rewrite (topic_keys_groups _ _ _ _ Hk). split; [done|].
  split; [by rewrite length_imap|]. intros i m'. rewrite list_lookup_imap.
  destruct (members (groupFor groupId b) !! i) as [m|]; [|done]. intros [= <-]. eauto.
Qed.

(** ** Theorems *)

(** C12: a consumer group never skips a message.  When every member subscribes from
    the beginning, and however handlers fail, members join and leave, and
    partitions move while a handler is running: every offset below the one a
    group has committed for a partition is an offset at which a handler of that
    group resolved. *)
Theorem broker_commits_what_was_handled defaults events groupId key n :
  Forall from_start events ->
  committedOffsets groupId (sys_broker (run_events events {| sys_broker := newBroker defaults; sys_handled := [] |})) !! key = Some n ->
  forall offset, (offset < n)%N ->
    (groupId, key, offset) ∈ sys_handled (run_events events {| sys_broker := newBroker defaults; sys_handled := [] |}).
Proof.
  intros He. set (s := run_events events _). assert (sys_ok s) as Hs.
  { apply run_events_ok; [done|]. intros g gr. simpl. by rewrite lookup_empty. }
  unfold committedOffsets. intros Hc. exact (go_committed _ _ _ (groupFor_ok _ _ groupId Hs) key n Hc).
Qed.

(** A rebalance hands every partition of every topic a group subscribes to to
    exactly one of its members, and hands out nothing else. *)
Theorem rebalance_exactly_one groupId b ms :
  members (groupFor groupId b) <> [] -> members <$> groups (rebalance groupId b) !! groupId = Some ms ->
  (forall m key, m ∈ ms -> key ∈ mb_assigned m -> exists topic n log,
    topic ∈ group_topics (members (groupFor groupId b)) /\ key = partitionKey topic n /\ log_of (rebalance groupId b) key = Some log) /\
  (forall topic n log,
    topic ∈ group_topics (members (groupFor groupId b)) -> log_of (rebalance groupId b) (partitionKey topic n) = Some log ->
    exists i m, ms !! i = Some m /\ partitionKey topic n ∈ mb_assigned m /\
      forall j m', ms !! j = Some m' -> partitionKey topic n ∈ mb_assigned m' -> j = i).
Proof.
  intros Hne Hms. destruct (rebalance_members b groupId Hne) as (keys & b' & ms' & Hk & Hp & Hg & Hlen & Hm).
  rewrite Hg, lookup_insert_eq in Hms. simpl in Hms. injection Hms as ->.
  destruct (topic_keys_spec _ _ _ _ Hk (group_topics_NoDup _)) as (Hnd & Hkeys & _).
  assert (forall key, log_of (rebalance groupId b) key = log_of b' key) as Hlog by (intros key; unfold log_of; by rewrite Hp).
  set (n0 := length (members (groupFor groupId b))) in *. assert (n0 <> 0%nat) as Hn0.
  { unfold n0. destruct (members (groupFor groupId b)); done. }
  assert (forall i m', ms !! i = Some m' -> mb_assigned m' = deal n0 i keys) as Has.
  { intros i m' Hi. destruct (Hm i m' Hi) as (m & _ & ->). unfold reassign. by destruct (notify_fields (with_assigned (deal n0 i keys)
      (filter (fun kv => kv.1 ∈ deal n0 i keys) (mb_positions m)) m)) as (_ & _ & -> & _). }
  split.
  - intros m key [i Hi]%list_elem_of_lookup Hin. rewrite (Has _ _ Hi) in Hin. apply elem_of_deal in Hin as (index & Hx & _).
    rewrite Hlog. apply Hkeys. apply list_elem_of_lookup. eauto.
  - intros topic n log Ht Hl. rewrite Hlog in Hl.
    assert (partitionKey topic n ∈ keys) as [index Hx]%list_elem_of_lookup by (apply Hkeys; eauto 10).
    assert (index mod n0 < length ms)%nat as Hlt by (rewrite Hlen; by apply Nat.mod_upper_bound).
    destruct (lookup_lt_is_Some_2 ms _ Hlt) as [m Hi]. exists (index mod n0)%nat, m. split; [done|]. split.
    + rewrite (Has _ _ Hi). apply elem_of_deal. eauto.
    + intros j m' Hj Hin. rewrite (Has _ _ Hj) in Hin. apply elem_of_deal in Hin as (index' & Hx' & <-).
      by rewrite (NoDup_lookup _ _ _ _ Hnd Hx Hx').
Qed.

(** *** Appending *)

Definition of_key (k : JSText) (log : list StoredRecord) : list StoredRecord := filter (fun r => rec_key r = Some k) log.

Definition record_of (now : Z) (m : OutgoingMessage) : StoredRecord :=
  {| rec_key := om_key m; rec_value := om_value m; rec_headers := om_headers m; rec_timestamp := now |}.

Definition sent (topic : string) (k : JSText) (ms : list OutgoingMessage) : list OutgoingMessage :=
  filter (fun m => om_topic m = topic /\ om_key m = Some k) ms.

Lemma append_partitions now m b topic logs :
  partitions b !! topic = Some logs ->
  partitions (append now m b) !! topic = Some
    (if decide (om_topic m = topic) then alter (fun log => log ++ [record_of now m]) (partitionFor (om_key m) (length logs) (roundRobin b)).1 logs
     else logs).
Proof.
  intros Hl. unfold append, logsFor. destruct (decide (om_topic m = topic)) as [Heq|Hne].
  - rewrite Heq, Hl. destruct (partitionFor _ _ _) as [p c] eqn:Hp. simpl. by rewrite lookup_insert_eq.
  - destruct (partitions b !! om_topic m) as [l|]; destruct (partitionFor _ _ _) as [p c]; simpl; rewrite !lookup_insert_ne by done; done.
Qed.

Lemma wakes_partitions topics b : partitions (foldl (fun b t => wakeSubscribersOf t b) b topics) = partitions b.
Proof. revert b. induction topics as [|t topics IH]; intros b; [done|]. simpl. by rewrite IH. Qed.

Lemma fnv_partition k n counter counter' : partitionFor (Some k) n counter = ((partitionFor (Some k) n counter').1, counter).
Proof. done. Qed.

Lemma appends_ordered now ms topic k b logs :
  partitions b !! topic = Some logs ->
  exists logs', partitions (foldl (fun b m => append now m b) b ms) !! topic = Some logs' /\ length logs' = length logs /\
    forall i log, logs !! i = Some log -> exists log', logs' !! i = Some log' /\ log `prefix_of` log' /\
      of_key k log' = of_key k log ++
        (if decide (i = (partitionFor (Some k) (length logs) 0).1) then record_of now <$> sent topic k ms else []).
Proof.
  revert b logs. induction ms as [|m ms IH]; intros b logs Hl; cbn [foldl].
  { exists logs. split_and!; [done|done|]. intros i log Hi. exists log. split_and!; [done|done|]. by case_decide; rewrite app_nil_r. }
  pose proof (append_partitions now m b topic logs Hl) as Happ.
  set (logs1 := if decide (om_topic m = topic) then _ else logs) in Happ.
  assert (length logs1 = length logs) as Hlen1 by (unfold logs1; case_decide; [by rewrite length_alter|done]).
  destruct (IH _ _ Happ) as (logs' & Hl' & Hlen & Hall). exists logs'. split; [done|]. split; [congruence|]. intros i log Hi.
  rewrite Hlen1 in Hall. unfold sent. rewrite filter_cons. fold (sent topic k ms).
  assert (exists log1, logs1 !! i = Some log1 /\ log `prefix_of` log1 /\
    of_key k log1 = of_key k log ++ (if decide (i = (partitionFor (Some k) (length logs) 0).1)
      then (if decide (om_topic m = topic /\ om_key m = Some k) then [record_of now m] else []) else [])) as (log1 & Hi1 & Hpre & Hk1).
  { unfold logs1. destruct (decide (om_topic m = topic)) as [Ht|Ht].
    - destruct (decide ((partitionFor (om_key m) (length logs) (roundRobin b)).1 = i)) as [Hp|Hp].
      + rewrite Hp, list_lookup_alter_eq, Hi. exists (log ++ [record_of now m]). split; [done|]. split; [by apply prefix_app_r|].
        unfold of_key. rewrite filter_app, filter_cons, filter_nil. simpl. f_equal.
        destruct (decide (om_key m = Some k)) as [Hk|Hk]; [|by rewrite (decide_False (P := _ /\ _)) by tauto; case_decide].
        rewrite Hk in Hp. rewrite decide_True by (by rewrite <-Hp). by rewrite decide_True.
      + rewrite list_lookup_alter_ne by done. exists log. split; [done|]. split; [done|]. destruct (decide (om_key m = Some k)) as [Hk|Hk].
        * rewrite Hk in Hp. rewrite decide_False by (intros Hq; apply Hp; by rewrite Hq). by rewrite app_nil_r.
        * rewrite (decide_False (P := _ /\ _)) by tauto. by case_decide; rewrite app_nil_r.
    - exists log. split; [done|]. split; [done|]. rewrite (decide_False (P := _ /\ _)) by tauto. by case_decide; rewrite app_nil_r. }
  destruct (Hall i log1 Hi1) as (log' & Hlog' & Hpre' & Hk'). exists log'. split; [done|]. split; [by etrans|].
  rewrite Hk', Hk1, <-app_assoc. f_equal. case_decide; [|done]. by case_decide.
Qed.

(** Messages with one key keep their order: whatever else is produced, all of
    them land in one partition of the topic, behind what was there, in the order
    they were produced and each exactly once; no log is ever rewritten and no
    topic repartitioned. *)
Theorem produce_keeps_key_order now ms b b' topic k logs :
  produce now ms b = inr b' -> partitions b !! topic = Some logs ->
  exists logs', partitions b' !! topic = Some logs' /\ length logs' = length logs /\
    forall i log, logs !! i = Some log -> exists log', logs' !! i = Some log' /\ log `prefix_of` log' /\
      of_key k log' = of_key k log ++
        (if decide (i = (partitionFor (Some k) (length logs) 0).1) then record_of now <$> sent topic k ms else []).
Proof.
  unfold produce. destruct (closed b); [done|]. intros [= <-] Hl. rewrite wakes_partitions. by apply appends_ordered.
Qed.

(** ** Nobody sleeps through a message *)

Section awake.
Context (T : string -> list string).

(** A member of a group whose members all subscribe to [T]: when it sleeps
    without a timer, it has read all its partitions to their ends. *)
Record awake_ok (b : Broker) (groupId : string) (m : Member) : Prop := {
  aw_topics : mb_topics m = T groupId;
  aw_assigned : forall key, key ∈ mb_assigned m -> exists topic n log,
    topic ∈ T groupId /\ key = partitionKey topic n /\ log_of b key = Some log;
  aw_sleep : mb_pump m = Waiting false -> forall key log, key ∈ mb_assigned m -> log_of b key = Some log ->
    exists pos, mb_positions m !! key = Some pos /\ (N.of_nat (length log) <= pos)%N;
}.

Definition awake (b : Broker) : Prop :=
  forall groupId g m, groups b !! groupId = Some g -> m ∈ members g -> awake_ok b groupId m.

Definition logs_kept (b b' : Broker) : Prop := forall key log, log_of b key = Some log -> log_of b' key = Some log.

Lemma awake_ok_kept b b' groupId m : logs_kept b b' -> awake_ok b groupId m -> awake_ok b' groupId m.
Proof.
  intros Hk [H1 H2 H3]. split; [done| |].
  - intros key Hin. destruct (H2 key Hin) as (t & n & log & ? & ? & ?). exists t, n, log. auto.
  - intros Hw key log Hin Hlog. destruct (H2 key Hin) as (t & n & log0 & _ & _ & Hlog0).
    pose proof (Hk _ _ Hlog0) as Hl. rewrite Hlog in Hl. injection Hl as ->. by eapply H3.
Qed.

(** A member that is not asleep only has to hold partitions that exist. *)
Lemma awake_ok_up b groupId m m' :
  awake_ok b groupId m -> mb_topics m' = mb_topics m -> mb_assigned m' = mb_assigned m -> mb_pump m' <> Waiting false ->
  awake_ok b groupId m'.
Proof. intros [H1 H2 H3] Ht Ha Hp. split; [by rewrite Ht|by rewrite Ha|done]. Qed.

Lemma notify_awake b groupId m : awake_ok b groupId m -> awake_ok b groupId (notify m).
Proof.
  intros Hm. destruct (notify_fields m) as (_ & Ht & Ha & _ & Hp). eapply awake_ok_up; [done..|]. rewrite Hp.
  by destruct (mb_pump m).
Qed.

Lemma scan_fields b cs keys m m' r :
  scan b cs keys m = (m', r) ->
  mb_topics m' = mb_topics m /\ mb_assigned m' = mb_assigned m /\ mb_stopped m' = mb_stopped m /\ mb_pending m' = mb_pending m /\
  (forall key pos, mb_positions m !! key = Some pos -> mb_positions m' !! key = Some pos).
Proof.
  revert m. induction keys as [|key keys IH]; intros m; simpl; [intros [= <- _]; by split_and!|].
  destruct (mb_stopped m) eqn:Hst; [intros [= <- _]; by split_and!|]. destruct (log_of b key) as [log|]; [|rewrite <-Hst; apply IH].
  set (from := match mb_positions m !! key with Some from => from | None => _ end).
  assert (forall k pos, mb_positions m !! k = Some pos -> <[key := from]> (mb_positions m) !! k = Some pos) as Hkeep.
  { intros k pos Hk. rewrite lookup_insert. case_decide; [|done]. subst k. unfold from. by rewrite Hk. }
  case_decide.
  - intros H1. destruct (IH _ H1) as (? & ? & Hs' & ? & Hp). simpl in *. rewrite Hst in Hs'. split_and!; auto.
  - intros [= <- _]. simpl. split_and!; auto.
Qed.

Lemma scan_end b cs keys m m' :
  scan b cs keys m = (m', None) -> mb_stopped m = false ->
  forall key log, key ∈ keys -> log_of b key = Some log ->
    exists pos, mb_positions m' !! key = Some pos /\ (N.of_nat (length log) <= pos)%N.
Proof.
  revert m. induction keys as [|k keys IH]; intros m Hs Hst key log; [by intros ?%elem_of_nil|]. simpl in Hs. rewrite Hst in Hs.
  destruct (log_of b k) as [lk|] eqn:Hk.
  - case_decide as Hle; [|done]. rewrite elem_of_cons. intros [->|Hin] Hlog; [|by eapply IH]. simplify_eq.
    destruct (scan_fields _ _ _ _ _ _ Hs) as (_ & _ & _ & _ & Hkeep). eexists. split; [|exact Hle]. apply Hkeep. simpl.
    by rewrite lookup_insert_eq.
  - rewrite elem_of_cons. intros [->|Hin] Hlog; [congruence|by eapply IH].
Qed.

Lemma pass_awake b cs groupId keys d f m0 m :
  awake_ok b groupId m0 -> mb_topics m = mb_topics m0 -> mb_assigned m = mb_assigned m0 -> d || f = true \/ keys = mb_assigned m /\ mb_stopped m = false -> awake_ok b groupId (pass b cs keys d f m).
Proof.
  intros Hm Ht0 Ha0 Hor. unfold pass, idle. destruct (scan b cs keys m) as [m' r] eqn:Hs.
  destruct (scan_fields _ _ _ _ _ _ Hs) as (Ht & Ha & Hst & Hpe & _).
  assert (forall p pe, p <> Waiting false -> awake_ok b groupId (with_pump p pe m')) as Hup.
  { intros p pe Hp. eapply awake_ok_up; [done|simpl; congruence..|done]. }
  destruct r as [[[key from] rest]|]; [by apply Hup|].
  destruct (mb_stopped m') eqn:Hstop; [by apply Hup|]. destruct d; [by apply Hup|]. rewrite orb_false_r.
  destruct (mb_pending m'); [by apply Hup|]. destruct f; [by apply Hup|]. destruct Hor as [|[-> Hms]]; [done|].
  destruct Hm as [H1 H2 H3]. split; simpl; [congruence|by rewrite Ha, Ha0|]. intros _ key log Hin Hlog. rewrite Ha in Hin.
  by eapply scan_end.
Qed.

Lemma awake_insert b groupId g :
  awake b -> (forall m, m ∈ members g -> awake_ok b groupId m) -> awake (set_groups (<[groupId := g]> (groups b)) b).
Proof.
  intros Hb Hg k g' m Hk Hm. simpl in Hk. apply (awake_ok_kept b); [by intros ? ? ?|]. rewrite lookup_insert in Hk.
  case_decide; [|by eapply Hb]. subst. injection Hk as <-. by apply Hg.
Qed.

Lemma awake_map b c f :
  awake b -> (forall groupId m, awake_ok b groupId m -> awake_ok b groupId (f m)) ->
  partitions c = partitions b -> groups c = map_members f <$> groups b -> awake c.
Proof.
  intros Hb Hf Hp Hg k g m Hk. rewrite Hg, lookup_fmap in Hk. destruct (groups b !! k) as [g0|] eqn:H0; [|done]. injection Hk as <-.
  intros (m0 & -> & Hin)%list_elem_of_fmap. apply (awake_ok_kept b); [intros key log; unfold log_of; by rewrite Hp|].
  by apply Hf, (Hb _ _ _ H0).
Qed.

Lemma awake_partitions b b' : logs_kept b b' -> groups b' = groups b -> awake b -> awake b'.
Proof. intros Hk Hg Hb groupId g m H Hm. rewrite Hg in H. eapply awake_ok_kept; [done|]. by eapply Hb. Qed.

Lemma rebalance_awake b groupId :
  (forall k g m, groups b !! k = Some g -> m ∈ members g -> k <> groupId -> awake_ok b k m) ->
  (forall m, m ∈ members (groupFor groupId b) -> mb_topics m = T groupId) ->
  awake (rebalance groupId b).
Proof.
  intros Hother Hmine. destruct (decide (members (groupFor groupId b) = [])) as [Hnil|Hne].
  { unfold rebalance. rewrite decide_True by done. intros k g m. simpl. rewrite lookup_insert. case_decide as Hk.
    - intros [= <-] Hm. rewrite Hnil in Hm. by apply elem_of_nil in Hm.
    - intros Hg Hm. apply (awake_ok_kept b); [by intros ? ? ?|]. by eapply Hother. }
  destruct (rebalance_members b groupId Hne) as (keys & b' & ms & Hk & Hp & Hg & Hlen & Hm).
  destruct (topic_keys_spec _ _ _ _ Hk (group_topics_NoDup _)) as (_ & Hkeys & Hkept).
  assert (forall key, log_of (rebalance groupId b) key = log_of b' key) as Hlog by (intros key; unfold log_of; by rewrite Hp).
  intros k g m. rewrite Hg, lookup_insert. case_decide as Hkg.
  - subst k. intros [= <-] [i Hi]%list_elem_of_lookup. destruct (Hm i m Hi) as (m0 & Hm0 & ->). unfold reassign.
    match goal with |- awake_ok _ _ (notify ?x) => destruct (notify_fields x) as (_ & Ht & Ha & _ & Hpump) end.
    split; [rewrite Ht; simpl; apply Hmine, list_elem_of_lookup; by exists i| |rewrite Hpump; simpl; by destruct (mb_pump m0)].
    intros key. rewrite Ha. simpl. intros (index & Hx & _)%elem_of_deal. rewrite Hlog.
    assert (key ∈ keys) as Hin by (apply list_elem_of_lookup; eauto). apply Hkeys in Hin as (t & n & log & Hin & -> & Hl).
    exists t, n, log. split_and!; [|done|done]. apply elem_of_group_topics in Hin as (m1 & Hm1 & Hin). by rewrite <-(Hmine m1 Hm1).
  - intros Hgk Hin. apply (awake_ok_kept b); [intros key log; rewrite Hlog; apply Hkept|]. by eapply Hother.
Qed.

(** *** Producing *)

Lemma appends_log now ms b topic n log :
  log_of b (partitionKey topic n) = Some log ->
  exists log', log_of (foldl (fun b m => append now m b) b ms) (partitionKey topic n) = Some log' /\
    (topic ∉ om_topic <$> ms -> log' = log).
Proof.
  rewrite !log_of_key. revert b log. induction ms as [|m ms IH]; intros b log Hl; cbn [foldl]; [eauto|].
  apply bind_Some in Hl as (logs & Hlogs & Hn). pose proof (append_partitions now m b topic logs Hlogs) as Happ.
  set (logs1 := if decide (om_topic m = topic) then _ else logs) in Happ.
  assert (exists log1, logs1 !! n = Some log1 /\ (om_topic m <> topic -> log1 = log)) as (log1 & Hn1 & Heq1).
  { unfold logs1. case_decide; [|eauto]. destruct (decide ((partitionFor (om_key m) (length logs) (roundRobin b)).1 = n)) as [Hp|Hp].
    - rewrite Hp, list_lookup_alter_eq, Hn. simpl. eexists. split; [done|done].
    - rewrite list_lookup_alter_ne by done. eauto. }
  destruct (IH (append now m b) log1) as (log' & Hlog' & Heq); [by rewrite Happ|]. exists log'. split; [done|].
  rewrite fmap_cons, not_elem_of_cons. intros [Hne Hnin]. rewrite Heq by done. auto.
Qed.

Definition wake_all (topics : list string) (m : Member) : Member :=
  foldl (fun m t => if decide (t ∈ mb_topics m) then notify m else m) m topics.

Lemma wakes_groups topics b :
  groups (foldl (fun b t => wakeSubscribersOf t b) b topics) = map_members (wake_all topics) <$> groups b.
Proof.
  revert b. induction topics as [|t topics IH]; intros b; cbn [foldl].
  - symmetry. rewrite <-(map_fmap_id (groups b)) at 2. apply map_fmap_ext. intros k [c ms] _. unfold map_members. simpl. f_equal.
    by rewrite list_fmap_id.
  - rewrite IH. simpl. rewrite <-map_fmap_compose. apply map_fmap_ext. intros k [c ms] _. unfold map_members. simpl. f_equal.
    by rewrite <-list_fmap_compose.
Qed.

Lemma wake_all_fields topics m :
  mb_topics (wake_all topics m) = mb_topics m /\ mb_assigned (wake_all topics m) = mb_assigned m /\
  mb_positions (wake_all topics m) = mb_positions m /\
  (mb_pump (wake_all topics m) = Waiting false -> mb_pump m = Waiting false /\ Forall (fun t => t ∉ mb_topics m) topics).
Proof.
  revert m. induction topics as [|t topics IH]; intros m; simpl; [by split_and!|].
  fold (wake_all topics (if decide (t ∈ mb_topics m) then notify m else m)).
  destruct (IH (if decide (t ∈ mb_topics m) then notify m else m)) as (H1 & H2 & H3 & H4).
  destruct (notify_fields m) as (_ & Nt & Na & Np & Npump). rewrite H1, H2, H3. case_decide.
  - rewrite Nt, Na, Np. split_and!; [done..|]. intros Hw. destruct (H4 Hw) as [Hw' _]. rewrite Npump in Hw'. by destruct (mb_pump m).
  - split_and!; [done..|]. intros Hw. destruct (H4 Hw) as [? ?]. split; [done|]. by constructor.
Qed.

Lemma elem_of_distinct l x : x ∈ distinct l <-> x ∈ l.
Proof. unfold distinct. by rewrite elem_of_reverse, elem_of_remove_dups, elem_of_reverse. Qed.

Lemma produce_awake now ms b b' : produce now ms b = inr b' -> awake b -> awake b'.
Proof.
  unfold produce. destruct (closed b); [done|]. intros [= <-] Hb groupId g m. rewrite wakes_groups, lookup_fmap, appends_groups.
  destruct (groups b !! groupId) as [g0|] eqn:Hg; [|done]. intros [= <-] (m0 & -> & Hin)%list_elem_of_fmap.
  destruct (Hb _ _ _ Hg Hin) as [H1 H2 H3]. destruct (wake_all_fields (distinct (om_topic <$> ms)) m0) as (W1 & W2 & W3 & W4).
  assert (forall key, log_of (foldl (fun b t => wakeSubscribersOf t b) (foldl (fun b m => append now m b) b ms) (distinct (om_topic <$> ms))) key =
    log_of (foldl (fun b m => append now m b) b ms) key) as Hlog by (intros key; unfold log_of; by rewrite wakes_partitions).
  split.
  - by rewrite W1.
  - intros key. rewrite W2, Hlog. intros Hk. destruct (H2 key Hk) as (t & n & log & Ht & -> & Hl).
    destruct (appends_log now ms b t n log Hl) as (log' & Hl' & _). exists t, n, log'. auto.
  - intros Hw key log. rewrite W2, W3, Hlog. intros Hk Hl'. destruct (W4 Hw) as [Hw0 Hnone].
    destruct (H2 key Hk) as (t & n & log0 & Ht & -> & Hl). destruct (appends_log now ms b t n log0 Hl) as (log1 & Hl1 & Heq).
    rewrite Heq in Hl1; [rewrite Hl' in Hl1; injection Hl1 as ->; by apply H3|].
    intros Hin'. rewrite Forall_forall in Hnone. apply (Hnone t); [by apply elem_of_distinct|]. by rewrite H1.
Qed.

Lemma awake_update b groupId f :
  awake b -> (forall g m, groups b !! groupId = Some g -> awake_ok b groupId m -> awake_ok b groupId (f g m)) ->
  awake (update_group groupId (fun g => map_members (f g) g) b).
Proof.
  intros Hb Hf. unfold update_group. destruct (groups b !! groupId) as [g|] eqn:Hg; [|done]. apply awake_insert; [done|].
  intros m (m0 & -> & Hin)%list_elem_of_fmap. eapply Hf; [done|]. by eapply Hb.
Qed.

Lemma at_member_awake b groupId id f m :
  (awake_ok b groupId m -> awake_ok b groupId (f m)) -> awake_ok b groupId m -> awake_ok b groupId (at_member id f m).
Proof. intros Hf Hm. unfold at_member. case_decide; auto. Qed.

End awake.

(** Every subscription of a group is to the group's topics. *)
Definition same_topics (T : string -> list string) (e : Ev) : Prop :=
  match e with EvSubscribe groupId _ topics _ => topics = T groupId | _ => True end.

Lemma ensure_logs specs b : logs_kept b (foldl (fun b spec => ensureTopic spec b) b specs).
Proof.
  revert b. induction specs as [|sp specs IH]; intros b; [by intros ? ?|]. simpl. intros key log Hl. apply IH.
  unfold ensureTopic. destruct (partitions b !! ts_topic sp) eqn:Ht; [done|]. unfold log_of in *. simpl.
  destruct (parsePartitionKey key) as [[t n]|]; [|done]. destruct (decide (ts_topic sp = t)) as [Heq|]; [|by rewrite lookup_insert_ne].
  by rewrite <-Heq, Ht in Hl.
Qed.

Lemma settle_awake T groupId id resolved s : awake T (sys_broker s) -> awake T (sys_broker (settle groupId id resolved s)).
Proof.
  intros Hs. unfold settle. destruct (groups (sys_broker s) !! groupId) as [g|] eqn:Hg; [|done].
  destruct (find_member id (members g)) as [m|]; [|done]. destruct m as [i ts fb asg ps st pend p].
  destruct p as [|key from rest delivered failed| |]; try done. destruct resolved; simpl; (apply awake_insert; [done|]);
    intros m (m0 & -> & Hin)%list_elem_of_fmap; pose proof (Hs _ _ _ Hg Hin) as Hm; unfold at_member; case_decide; try done;
    (eapply pass_awake; [exact Hm|done|done|left; by rewrite ?orb_true_r]).
Qed.

Lemma groupFor_topics T b groupId : awake T b -> forall m, m ∈ members (groupFor groupId b) -> mb_topics m = T groupId.
Proof.
  intros Hb m. unfold groupFor. destruct (groups b !! groupId) as [g|] eqn:Hg; simpl; [|by intros ?%elem_of_nil].
  intros Hin. apply (aw_topics _ _ _ _ (Hb _ _ _ Hg Hin)).
Qed.

(** A group is replaced and rebalanced. *)
Lemma replace_rebalance_awake T b groupId g :
  awake T b -> (forall m, m ∈ members g -> mb_topics m = T groupId) ->
  awake T (rebalance groupId (set_groups (<[groupId := g]> (groups b)) b)).
Proof.
  intros Hb Hg. apply rebalance_awake.
  - intros k g' m. simpl. intros Hk Hm Hne. rewrite lookup_insert_ne in Hk by done.
    apply (awake_ok_kept T b); [by intros ? ? ?|]. by eapply Hb.
  - unfold groupFor. simpl. rewrite lookup_insert_eq. done.
Qed.

Lemma event_awake T e s : same_topics T e -> awake T (sys_broker s) -> awake T (sys_broker (event e s)).
Proof.
  intros He Hs. destruct e as [specs|now ms|g id ts fb|g id|g id r|g id|g id|g id| |]; simpl.
  - unfold ensureTopics, or_same. destruct (closed _); [done|]. eapply awake_partitions; [apply ensure_logs|apply ensure_groups|done].
  - unfold or_same. destruct (produce now ms (sys_broker s)) eqn:Hp; [done|]. by eapply produce_awake.
  - case_decide; [done|]. unfold subscribe, or_same. simpl. destruct (closed _); [done|]. apply replace_rebalance_awake; [done|].
    intros m [Hm|Hm]%elem_of_app; [by eapply groupFor_topics|]. apply list_elem_of_singleton in Hm as ->. done.
  - apply (awake_update _ _ _ (fun gr => at_member id (run (sys_broker s) (committed gr)))); [done|]. intros gr m _. apply at_member_awake.
    intros Hm. unfold run. destruct (mb_pump m) eqn:Hp; try done. destruct (mb_stopped m) eqn:Hst; [by eapply awake_ok_up|].
    eapply pass_awake; [done..|]. by right.
  - by apply settle_awake.
  - apply (awake_update _ _ _ (fun _ => at_member id timer)); [done|]. intros gr m _. apply at_member_awake. intros Hm. unfold timer.
    destruct (mb_pump m) as [| |[]|] eqn:Hp; try done. by eapply awake_ok_up.
  - apply (awake_update _ _ _ (fun _ => at_member id stop)); [done|]. intros gr m _. apply at_member_awake. intros Hm. unfold stop.
    destruct (mb_stopped m); [done|]. destruct (notify_fields (with_stopped m)) as (_ & Ht & Ha & _ & Hp).
    eapply awake_ok_up; [done..|]. rewrite Hp. simpl. by destruct (mb_pump m).
  - unfold leave. destruct (groups (sys_broker s) !! g) as [gr|] eqn:Hg; [|done]. repeat case_match; try done.
    apply replace_rebalance_awake; [done|]. intros m' [_ Hin]%list_elem_of_filter. apply (aw_topics _ _ _ _ (Hs _ _ _ Hg Hin)).
  - unfold disconnect. destruct (closed _); [done|]. eapply awake_map; [exact Hs| |reflexivity|reflexivity]. intros k m Hm.
    destruct (notify_fields (with_stopped m)) as (_ & Ht & Ha & _ & Hp). eapply awake_ok_up; [done..|]. rewrite Hp. simpl.
    by destruct (mb_pump m).
  - unfold disconnected. case_match; [|done]. intros k g m. simpl. rewrite lookup_fmap. destruct (groups _ !! k); [|done].
    intros [= <-] Hin. by apply elem_of_nil in Hin.
Qed.

Lemma run_events_awake T events s : Forall (same_topics T) events -> awake T (sys_broker s) -> awake T (sys_broker (run_events events s)).
Proof. intros He. revert s. induction He as [|e events He _ IH]; intros s Hs; [done|]. simpl. by apply IH, event_awake. Qed.

(** No wake-up is lost: in a group whose members subscribe to the same
    topics, a member that sleeps without a retry timer has read every partition
    it holds to its end, whatever was produced, rebalanced or settled while it
    was reading. *)
Theorem broker_no_lost_wakeup T defaults events groupId g m key log :
  Forall (same_topics T) events ->
  groups (sys_broker (run_events events {| sys_broker := newBroker defaults; sys_handled := [] |})) !! groupId = Some g ->
  m ∈ members g -> mb_pump m = Waiting false -> key ∈ mb_assigned m ->
  log_of (sys_broker (run_events events {| sys_broker := newBroker defaults; sys_handled := [] |})) key = Some log ->
  exists position, mb_positions m !! key = Some position /\ (N.of_nat (length log) <= position)%N.
Proof.
  intros He. set (s := run_events events _). assert (awake T (sys_broker s)) as Hs.
  { apply run_events_awake; [done|]. intros k gr m'. simpl. by rewrite lookup_empty. }
  intros Hg Hm Hw. by apply (aw_sleep _ _ _ _ (Hs _ _ _ Hg Hm)).
Qed.

(** ** Concrete runs *)

Definition sample_message (key : string) (v : N) : OutgoingMessage :=
  {| om_topic := "events"; om_key := Some (js key); om_value := [v]; om_headers := ∅ |}.

Definition sample_events : list Ev :=
  [EvEnsure [{| ts_topic := "events"; ts_partitions := 2 |}]; EvSubscribe "svc" 1 ["events"%string] true; EvRun "svc" 1;
   EvProduce 10 [sample_message "a" 1; sample_message "a" 2; sample_message "b" 3]; EvRun "svc" 1; EvSubscribe "svc" 2 ["events"%string] true;
   EvSettle "svc" 1 false; EvTimer "svc" 1; EvRun "svc" 1; EvRun "svc" 2; EvSettle "svc" 1 true; EvSettle "svc" 2 true;
   EvRun "svc" 1; EvRun "svc" 2; EvSettle "svc" 1 true; EvSettle "svc" 2 true; EvRun "svc" 1; EvRun "svc" 2;
   EvSettle "svc" 1 true; EvSettle "svc" 2 true; EvRun "svc" 1; EvRun "svc" 2; EvRun "svc" 1; EvRun "svc" 2].

Definition sample_sys : Sys := run_events sample_events {| sys_broker := newBroker 1; sys_handled := [] |}.

Lemma broker_commits_what_was_handled_witness :
  committedOffsets "svc" (sys_broker sample_sys) !! "events#0"%string = Some 2%N /\
  ("svc"%string, "events#0"%string, 1%N) ∈ sys_handled sample_sys.
Proof.
  split; [vm_compute; reflexivity|].
  apply (broker_commits_what_was_handled 1 sample_events "svc" "events#0" 2).
  - repeat constructor.
  - vm_compute. reflexivity.
  - lia.
Defined.

Definition sample_group : Group := groupFor "svc" (sys_broker sample_sys).

Lemma broker_no_lost_wakeup_witness :
  exists m, m ∈ members sample_group /\ mb_pump m = Waiting false /\
    forall key log, key ∈ mb_assigned m -> log_of (sys_broker sample_sys) key = Some log ->
      exists position, mb_positions m !! key = Some position /\ (N.of_nat (length log) <= position)%N.
Proof.
  assert (exists m, members sample_group !! 0%nat = Some m /\ mb_pump m = Waiting false) as (m & Hm & Hw)
    by (vm_compute; eexists; split; reflexivity).
  exists m. split; [apply list_elem_of_lookup; eauto|]. split; [exact Hw|]. intros key log.
  apply (broker_no_lost_wakeup (fun _ => ["events"%string]) 1 sample_events "svc" sample_group m key log).
  - repeat constructor.
  - vm_compute. reflexivity.
  - apply list_elem_of_lookup. eauto.
  - exact Hw.
Defined.

Definition sample_broker : Broker := sys_broker (run_events (take 6 sample_events) {| sys_broker := newBroker 1; sys_handled := [] |}).

Lemma rebalance_exactly_one_witness :
  exists i m, (members <$> groups (rebalance "svc" sample_broker) !! "svc"%string) ≫= (fun ms => ms !! i) = Some m /\
    partitionKey "events" 1 ∈ mb_assigned m.
Proof.
  destruct (members <$> groups (rebalance "svc" sample_broker) !! "svc"%string) as [ms|] eqn:Hms; [|vm_compute in Hms; discriminate].
  destruct (rebalance_exactly_one "svc" sample_broker ms ltac:(vm_compute; discriminate) Hms) as [_ H].
  destruct (log_of (rebalance "svc" sample_broker) (partitionKey "events" 1)) as [log|] eqn:Hl; [|vm_compute in Hl; discriminate].
  destruct (H "events"%string 1%nat log) as (i & m & Hi & Hin & _); [|exact Hl|exists i, m; split; assumption].
  apply (bool_decide_unpack _). vm_compute. exact I.
Defined.

Definition sample_produced : Broker :=
  or_same (produce 20 [sample_message "a" 7; sample_message "b" 8; sample_message "a" 9] sample_broker) sample_broker.

Lemma produce_keeps_key_order_witness :
  exists logs', partitions sample_produced !! "events"%string = Some logs' /\ length logs' = 2%nat.
Proof.
  destruct (partitions sample_broker !! "events"%string) as [logs|] eqn:Hl; [|vm_compute in Hl; discriminate].
  destruct (produce_keeps_key_order 20 [sample_message "a" 7; sample_message "b" 8; sample_message "a" 9] sample_broker sample_produced
    "events" (js "a") logs ltac:(vm_compute; reflexivity) Hl) as (logs' & H & Hlen & _).
  exists logs'. split; [exact H|]. rewrite Hlen. vm_compute in Hl. injection Hl as <-. reflexivity.
Defined.

(** A rebalance while a handler runs: the first member finishes its pass over
    the partitions it held before, reads one it no longer holds and keeps a
    position there. *)
Lemma stale_pass_keeps_position :
  (fun m => (mb_assigned m, mb_positions m !! "events#1"%string)) <$> members sample_group !! 0%nat =
  Some (["events#0"%string], Some 1%N).
Proof. vm_compute. reflexivity. Qed.

(** A slow handler of the previous holder commits behind the current one. *)
Definition regress_events : list Ev :=
  [EvEnsure [{| ts_topic := "events"; ts_partitions := 2 |}]; EvSubscribe "svc" 1 ["events"%string] true;
   EvProduce 10 [sample_message "b" 1; sample_message "b" 2]; EvRun "svc" 1; EvSubscribe "svc" 2 ["events"%string] true;
   EvRun "svc" 2; EvSettle "svc" 2 true; EvRun "svc" 2; EvSettle "svc" 2 true].

Lemma commit_moves_backwards :
  committedOffsets "svc" (sys_broker (run_events regress_events {| sys_broker := newBroker 1; sys_handled := [] |})) !! "events#1"%string = Some 2%N /\
  committedOffsets "svc" (sys_broker (run_events (regress_events ++ [EvSettle "svc" 1 true])
    {| sys_broker := newBroker 1; sys_handled := [] |})) !! "events#1"%string = Some 1%N.
Proof. vm_compute. split; reflexivity. Qed.

(** In a group whose members subscribe to different topics, a member can hold a
    partition of a topic it is not woken for, and sleep on a message. *)
Definition mixed_events : list Ev :=
  [EvSubscribe "svc" 1 ["a"%string] true; EvSubscribe "svc" 2 ["b"%string] true; EvSubscribe "svc" 3 ["a"; "b"]%string true;
   EvSubscribe "svc" 4 ["0"%string] true;
   EvRun "svc" 1; EvRun "svc" 1; EvRun "svc" 2; EvRun "svc" 2; EvRun "svc" 3; EvRun "svc" 3;
   EvProduce 10 [{| om_topic := "a"; om_key := None; om_value := []; om_headers := ∅ |}]].

Definition mixed_broker : Broker := sys_broker (run_events mixed_events {| sys_broker := newBroker 1; sys_handled := [] |}).

Lemma mixed_group_sleeps :
  exists m, members (groupFor "svc" mixed_broker) !! 1%nat = Some m /\ mb_pump m = Waiting false /\ mb_assigned m = ["a#0"%string] /\
    mb_positions m !! "a#0"%string = Some 0%N /\ length <$> log_of mixed_broker "a#0" = Some 1%nat.
Proof. vm_compute. eexists. split_and!; reflexivity. Qed.
