(* ===== verification/Consumer.v ===== *)
(** * Consumer: domain events on the wire, and what becomes of each message

    [messaging/domain-event-codec.ts], [messaging/dead-letter.ts],
    [messaging/dead-letter-queue.service.ts],
    [messaging/domain-event-consumer.service.ts],
    [messaging/broker-outbox.publisher.ts], [events/domain-event-bus.service.ts]
    and the wrapper of [events/on-domain-event.ts].  The broker and the event
    emitter are actions on a world; spans, metrics and log lines are left
    out. *)

From S2P Require Import Prelude Text Json Backoff Outbox Broker.

(** ** Events *)

Record EncodedDomainEvent := {
  ev_name : string;
  ev_payload : JsonValue;
  ev_eventId : JSText;
  ev_occurredAt : Z;
  ev_correlationId : option JSText;
}.

Record DecodedDomainEvent := { de_event : EncodedDomainEvent; de_writerSchemaVersion : option Z }.

Definition H_NAME : string := "event-name".
Definition H_ID : string := "event-id".
Definition H_OCCURRED_AT : string := "event-occurred-at".
Definition H_CORRELATION_ID : string := "correlation-id".
Definition H_CONTENT_TYPE : string := "content-type".
Definition H_SCHEMA_VERSION : string := "event-schema-version".

Definition EVENT_CONTENT_TYPE : JSText := js "application/json".

(** What is thrown on the way: a message that is no event, an event that breaks
    its contract, a dead letter that could not be written, a ladder that was
    interrupted, or any other error. *)
Inductive ConsumerError :=
  | UndecodableMessageError (topic : string) (partition : nat) (offset : N) (reason : JSText)
  | SchemaContractViolationError (topic : string) (partition : nat) (offset : N) (subject : string)
      (writerVersion : option Z) (readerVersion : nat) (violations : list JSText)
  | DeadLetterPublishError (topic : string) (cause : JSText)
  | LadderAborted
  | AnyError (message : JSText).

Definition joined (sep : string) (l : list JSText) : JSText := join (js sep) l.

Definition message_text (e : ConsumerError) : JSText :=
  match e with
  | UndecodableMessageError topic partition offset reason =>
      js ("Cannot decode " +:+ topic +:+ "/" +:+ pretty partition +:+ "@" +:+ pretty offset +:+ ": ") ++ reason
  | SchemaContractViolationError topic partition offset subject writer reader violations =>
      js (subject +:+ " at " +:+ topic +:+ "/" +:+ pretty partition +:+ "@" +:+ pretty offset +:+
          " violates its schema contract " ) ++ [8212%N] ++ js (" written by " +:+
          match writer with None => "an unversioned producer" | Some v => "v" +:+ pretty v end +:+
          ", rejected by v" +:+ pretty reader +:+ ": ") ++ joined "; " violations
  | DeadLetterPublishError topic cause =>
      js ("Could not publish to the dead-letter topic " +:+ dq +:+ topic +:+ dq +:+ ": ") ++ cause ++
      js ". The message was not committed and will be redelivered."
  | LadderAborted => js "Retry ladder aborted; the consumer is shutting down."
  | AnyError message => message
  end.

Definition error_type (e : ConsumerError) : JSText :=
  js match e with
  | UndecodableMessageError _ _ _ _ => "UndecodableMessageError"
  | SchemaContractViolationError _ _ _ _ _ _ _ => "SchemaContractViolationError"
  | DeadLetterPublishError _ _ => "DeadLetterPublishError"
  | LadderAborted => "LadderAbortedError"
  | AnyError _ => "Error"
  end.

(** ** The codec *)

(** [PayloadContract.validate]: the reader's version, or the version that
    refused and why. *)
Definition PayloadContract : Type := string -> JsonValue -> (nat * list JSText) + nat.

Section codec.

(** [JSON.stringify] and [JSON.parse] through UTF-8, [toISOString] and [new
    Date], [Number] of a text that is not plain digits, and the global trace
    propagator. *)
Context (stringify : JsonValue -> list N) (parse : list N -> JSText + JsonValue).
Context (toISOString : Z -> JSText) (parseDate : JSText -> option Z).
Context (otherNumber : JSText -> option Z) (injectTraceContext : Headers -> Headers).
Context (contract : PayloadContract).

(** Every entry of [PARTITION_KEY] is the user's id. *)
Definition partitionKeyFor (payload : JsonValue) : option JSText :=
  match payload with
  | JObject members =>
      match (list_to_map (reverse members) : gmap string JsonValue) !! "userId"%string with Some (JString id) => Some id | _ => None end
  | _ => None
  end.

Definition encodeDomainEvent (topic : string) (event : EncodedDomainEvent) : (nat * list JSText) + OutgoingMessage :=
  match contract (ev_name event) (ev_payload event) with
  | inl e => inl e
  | inr schemaVersion =>
      let headers : Headers := list_to_map [
        (H_NAME, js (ev_name event)); (H_ID, ev_eventId event); (H_OCCURRED_AT, toISOString (ev_occurredAt event));
        (H_CONTENT_TYPE, EVENT_CONTENT_TYPE); (H_SCHEMA_VERSION, js (pretty schemaVersion))] in
      let headers := match ev_correlationId event with Some c => <[H_CORRELATION_ID := c]> headers | None => headers end in
      inr {| om_topic := topic; om_key := partitionKeyFor (ev_payload event); om_value := stringify (ev_payload event);
             om_headers := injectTraceContext headers |}
  end.

(** [Number(raw)], where it is an integer. *)
Definition toNumber (raw : JSText) : option Z :=
  if decide (raw <> [] /\ allDigits raw = true) then Some (decimal (toText raw)) else otherNumber raw.

(** The catalogue name a header spells. *)
Fixpoint find_name (header : JSText) (names : list string) : option string :=
  match names with
  | [] => None
  | name :: names => if decide (js name = header) then Some name else find_name header names
  end.

Definition isObject (v : JsonValue) : bool := match v with JObject _ => true | _ => false end.

Definition reject {A} (message : IncomingMessage) (reason : JSText) : ConsumerError + A :=
  inl (UndecodableMessageError (im_topic message) (im_partition message) (im_offset message) reason).

Definition quoted (s : string) : string := dq +:+ s +:+ dq.

Definition readWriterVersion (message : IncomingMessage) : ConsumerError + option Z :=
  match im_headers message !! H_SCHEMA_VERSION with
  | None => inr None
  | Some raw =>
      match toNumber raw with
      | Some version => if decide (version < 1) then reject message (js (quoted H_SCHEMA_VERSION +:+ " is not a version number: ") ++ raw) else inr (Some version)
      | None => reject message (js (quoted H_SCHEMA_VERSION +:+ " is not a version number: ") ++ raw)
      end
  end.

Definition decodeDomainEvent (message : IncomingMessage) : ConsumerError + DecodedDomainEvent :=
  match im_headers message !! H_NAME with
  | None => reject message (js ("no " +:+ quoted H_NAME +:+ " header"))
  | Some header =>
  match find_name header DOMAIN_EVENT_NAMES with
  | None => reject message (js dq ++ header ++ js (dq +:+ " is not an event this build knows"))
  | Some name =>
  match im_headers message !! H_ID with
  | None | Some [] => reject message (js ("no " +:+ quoted H_ID +:+ " header"))
  | Some eventId =>
  match im_headers message !! H_OCCURRED_AT with
  | None => reject message (js ("no " +:+ quoted H_OCCURRED_AT +:+ " header"))
  | Some occurredAtRaw =>
  match parseDate occurredAtRaw with
  | None => reject message (js (quoted H_OCCURRED_AT +:+ " is not a date: ") ++ occurredAtRaw)
  | Some occurredAt =>
  match parse (im_value message) with
  | inl why => reject message (js "value is not JSON: " ++ why)
  | inr payload =>
      if negb (isObject payload) then reject message (js "value is not a JSON object")
      else match readWriterVersion message with
      | inl e => inl e
      | inr writerSchemaVersion =>
          match contract name payload with
          | inl (version, violations) =>
              inl (SchemaContractViolationError (im_topic message) (im_partition message) (im_offset message) name
                writerSchemaVersion version violations)
          | inr _ =>
              inr {| de_event := {| ev_name := name; ev_payload := payload; ev_eventId := eventId; ev_occurredAt := occurredAt;
                       ev_correlationId := im_headers message !! H_CORRELATION_ID |};
                     de_writerSchemaVersion := writerSchemaVersion |}
          end
      end
  end
  end
  end
  end
  end
  end.

(** ** Dead letters *)

Inductive DeadLetterReason := Undecodable | SchemaInvalid | HandlerFailed.

Definition reason_name (r : DeadLetterReason) : string :=
  match r with Undecodable => "undecodable" | SchemaInvalid => "schema-invalid" | HandlerFailed => "handler-failed" end.

Record DeadLetterContext := {
  dl_groupId : string; dl_reason : DeadLetterReason; dl_attempts : Z; dl_error : ConsumerError; dl_failedAt : Z }.

Definition deadLetterHeaders (message : IncomingMessage) (context : DeadLetterContext) : Headers :=
  list_to_map [
    ("dlt-reason", js (reason_name (dl_reason context))); ("dlt-error", truncate (message_text (dl_error context)));
    ("dlt-error-type", error_type (dl_error context)); ("dlt-attempts", js (pretty (dl_attempts context)));
    ("dlt-consumer-group", js (dl_groupId context)); ("dlt-origin-topic", js (im_topic message));
    ("dlt-origin-partition", js (pretty (im_partition message))); ("dlt-origin-offset", js (pretty (im_offset message)));
    ("dlt-failed-at", toISOString (dl_failedAt context))]%string.

Definition toDeadLetterMessage (topic : string) (message : IncomingMessage) (context : DeadLetterContext) : OutgoingMessage := {|
  om_topic := topic; om_key := im_key message; om_value := im_value message;
  om_headers := deadLetterHeaders message context ∪ im_headers message |}.

Definition defaultDeadLetterTopic (sourceTopic : string) : string := sourceTopic +:+ ".dlt".

(** ** The bus *)

Record Envelope := { en_id : JSText; en_name : string; en_occurredAt : JSText; en_correlationId : option JSText; en_payload : JsonValue }.

(** A subscriber's outcome, [None] for a success. *)
Record HandlerOutcome := { ho_handler : JSText; ho_error : option JSText }.

Definition isFailed (o : HandlerOutcome) : bool := match ho_error o with Some _ => true | None => false end.

Section consumer.
Context {W : Type}.

(** [emitter.emitAsync]: what each listener resolved to, [None] for a value that
    is no outcome; the clock; and [broker.produce]. *)
Context (emitAsync : Envelope -> Eff W JSText (list (option HandlerOutcome))) (now : W -> Z).
Context (broker_produce : list OutgoingMessage -> Eff W JSText unit).

(** The wrapper [@OnDomainEvent] puts around a method: it reports, and never rejects. *)
Definition OnDomainEvent (handler : JSText) (handle : Envelope -> Eff W JSText unit) (event : Envelope) : Eff W JSText HandlerOutcome :=
  try_catch (do! handle event in ret {| ho_handler := handler; ho_error := None |})
    (fun error => ret {| ho_handler := handler; ho_error := Some error |}).

Definition bus_dispatch (event : Envelope) : Eff W JSText (list HandlerOutcome) :=
  let! results := emitAsync event in
  ret (imap (fun index result => match result with
    | Some outcome => outcome
    | None => {| ho_handler := js ("listener#" +:+ pretty index); ho_error := None |}
    end) results).

Definition envelope (event : EncodedDomainEvent) : Envelope := {|
  en_id := ev_eventId event; en_name := ev_name event; en_occurredAt := toISOString (ev_occurredAt event);
  en_correlationId := ev_correlationId event; en_payload := ev_payload event |}.

(** [publishAndSettle], with the identity and the time of the event. *)
Definition publishAndSettle (event : EncodedDomainEvent) : Eff W JSText (list HandlerOutcome * list HandlerOutcome) :=
  let! outcomes := bus_dispatch (envelope event) in
  ret (outcomes, filter (fun o => isFailed o = true) outcomes).

(** ** [broker-outbox.publisher.ts] *)

Definition publish (topic : string) (event : EncodedDomainEvent) : Eff W ((nat * list JSText) + JSText) unit :=
  match encodeDomainEvent topic event with
  | inl e => throw (inl e)
  | inr message => try_catch (broker_produce [message]) (fun e => throw (inr e))
  end.

(** ** [dead-letter-queue.service.ts] and the consumer *)

Context (deadLetterTopic : option string) (groupId : string) (policy : BackoffPolicy) (env : LadderEnv W JSText).

Definition send (message : IncomingMessage) (context : DeadLetterContext) : Eff W ConsumerError unit :=
  match deadLetterTopic with
  | None => throw (AnyError (js "DeadLetterQueue.send was called with dead-lettering disabled. Check `enabled` first."))
  | Some topic =>
      try_catch (broker_produce [toDeadLetterMessage topic message context])
        (fun cause => throw (DeadLetterPublishError topic cause))
  end.

Definition giveUp (message : IncomingMessage) (reason : DeadLetterReason) (attempts : Z) (error : ConsumerError) :
    Eff W ConsumerError unit :=
  match deadLetterTopic with
  | None => throw error
  | Some _ => fun w =>
      send message {| dl_groupId := groupId; dl_reason := reason; dl_attempts := attempts; dl_error := error; dl_failedAt := now w |} w
  end.

Inductive Disposition := Handled | DeadLettered.

(** One attempt: the event is published, and one failure fails it. *)
Definition attempt_event (event : EncodedDomainEvent) : Eff W (LadderError JSText) unit :=
  let! report := try_catch (publishAndSettle event) (fun e => throw (OperationError e)) in
  let failed := snd report in
  if decide (failed = []) then ret tt
  else throw (OperationError
    (js (pretty (length failed) +:+ " subscriber(s) failed for " +:+ ev_name event +:+ " (") ++ ev_eventId event ++ js "): " ++
     joined "; " ((fun o => ho_handler o ++ js ": " ++ default (js "unknown error") (ho_error o)) <$> failed))).

Definition dispatch (message : IncomingMessage) : Eff W ConsumerError Disposition :=
  match decodeDomainEvent message with
  | inl (SchemaContractViolationError _ _ _ _ _ _ _ as e) => do! giveUp message SchemaInvalid 1 e in ret DeadLettered
  | inl (UndecodableMessageError _ _ _ _ as e) => do! giveUp message Undecodable 1 e in ret DeadLettered
  | inl e => throw e
  | inr decoded =>
      let! result := try_catch (runRetryLadder env policy (attempt_event (de_event decoded)))
        (fun e => throw (match e with LadderAbortedError => LadderAborted | OperationError m => AnyError m end)) in
      match result with
      | Some (Exhausted attempts error) => do! giveUp message HandlerFailed attempts (AnyError error) in ret DeadLettered
      | Some (Succeeded _) => ret Handled
      | None => throw (AnyError (js "the ladder did not end"))
      end
  end.

End consumer.
End codec.

(** ** Facts *)

Lemma find_name_member name names : name ∈ names -> find_name (js name) names = Some name.
Proof.
  induction names as [|n names IH]; [by intros ?%not_elem_of_nil|]. simpl. intros Hin.
  destruct (decide (js n = js name)) as [->%js_inj|Hne]; [done|].
  apply IH. by apply elem_of_cons in Hin as [->|?].
Qed.

(** A printed number is read back. *)
Lemma toNumber_pretty otherNumber (n : nat) : toNumber otherNumber (js (pretty n)) = Some (Z.of_nat n).
Proof.
  destruct (pretty_nat_decimal n) as [Hd Hv]. unfold toNumber. rewrite decide_True; [by rewrite toText_js, Hv|].
  split; [|by apply allDigits_js]. intros Hnil%fmap_nil_inv.
  change (pretty n) with (pretty (N.of_nat n)) in Hnil.
  assert (pretty (N.of_nat n) = pretty (Z.of_nat n)) as Heq by (by destruct n). rewrite Heq in Hnil.
  by destruct (pretty_decimal (Z.of_nat n)) as (_ & _ & ?); [lia|].
Qed.

(** A ladder that succeeded has just run its operation, without an error, and
    did nothing after it. *)
Lemma ladder_loop_succeeded {W E} (env : LadderEnv W E) policy operation fuel attempts w n w' :
  ladder_loop env policy operation fuel attempts w = (inr (Some (Succeeded n)), w') ->
  exists w1, operation w1 = (inr tt, w').
Proof.
  revert attempts w. induction fuel as [|fuel IH]; intros attempts w; [done|]. simpl.
  unfold bind, throwIfAborted, Prelude.attempt, reads, ret, throw, modify, sleep, bind, throwIfAborted.
  destruct (ladder_aborted env w); [done|].
  destruct (operation w) as [[[|e]|[]] w1] eqn:Hop; simpl; [done| |naive_solver].
  destruct (nextAttemptDelayMs _ _ _); [|done]. simpl.
  destruct (ladder_aborted _ _); [done|]. destruct (ladder_aborted _ _); [done|]. apply IH.
Qed.

(** An error the ladder gave up with is one the operation threw, and again
    nothing happened in between. *)
Lemma ladder_loop_exhausted_by {W E} (env : LadderEnv W E) policy operation fuel attempts w n e w' :
  ladder_loop env policy operation fuel attempts w = (inr (Some (Exhausted n e)), w') ->
  exists w1, operation w1 = (inl (OperationError e), w').
Proof.
  revert attempts w. induction fuel as [|fuel IH]; intros attempts w; [done|]. simpl.
  unfold bind, throwIfAborted, Prelude.attempt, reads, ret, throw, modify, sleep, bind, throwIfAborted.
  destruct (ladder_aborted env w); [done|].
  destruct (operation w) as [[[|e1]|[]] w1] eqn:Hop; simpl; [done| |done].
  destruct (nextAttemptDelayMs _ _ _); [|naive_solver]. simpl.
  destruct (ladder_aborted _ _); [done|]. destruct (ladder_aborted _ _); [done|]. apply IH.
Qed.

(** A ladder only ever throws what its operation throws, or the abort. *)
Lemma ladder_loop_throws {W E} (env : LadderEnv W E) policy operation fuel attempts w e w' :
  ladder_loop env policy operation fuel attempts w = (inl e, w') -> e = LadderAbortedError.
Proof.
  revert attempts w. induction fuel as [|fuel IH]; intros attempts w; [done|]. simpl.
  unfold bind, throwIfAborted, Prelude.attempt, reads, ret, throw, modify, sleep, bind, throwIfAborted.
  destruct (ladder_aborted env w); [naive_solver|].
  destruct (operation w) as [[[|e1]|[]] w1] eqn:Hop; simpl; [naive_solver| |done].
  destruct (nextAttemptDelayMs _ _ _); [|done]. simpl.
  destruct (ladder_aborted _ _); [naive_solver|]. destruct (ladder_aborted _ _); [naive_solver|]. apply IH.
Qed.

Section facts.
Context (stringify : JsonValue -> list N) (parse : list N -> JSText + JsonValue).
Context (toISOString : Z -> JSText) (parseDate : JSText -> option Z).
Context (otherNumber : JSText -> option Z) (injectTraceContext : Headers -> Headers).
Context (contract : PayloadContract).

Abbreviation encode := (encodeDomainEvent stringify toISOString injectTraceContext contract).
Abbreviation decode := (decodeDomainEvent parse parseDate otherNumber contract).

(** The record a produced message becomes, as a consumer receives it. *)
Definition arrived (m : OutgoingMessage) (partition : nat) (offset : N) (timestamp : Z) : IncomingMessage := {|
  im_topic := om_topic m; im_partition := partition; im_offset := offset; im_key := om_key m;
  im_value := om_value m; im_headers := om_headers m; im_timestamp := timestamp |}.

Definition EVENT_HEADERS : list string := [H_NAME; H_ID; H_OCCURRED_AT; H_CORRELATION_ID; H_CONTENT_TYPE; H_SCHEMA_VERSION].

(** An event survives the wire.  When [JSON.parse] undoes [JSON.stringify]
    on the payload and [new Date] undoes [toISOString] on its time, and the
    trace propagator leaves the event's own headers alone, an event whose name
    is in the catalogue, with an id and an object for a payload, is either
    refused by its contract before anything is produced, or arrives with the
    same name, payload, id, time and correlation id, marked with the version it
    was validated against, whichever partition and offset it was given. *)
Theorem codec_roundtrip topic event partition offset timestamp :
  (forall headers k, k ∈ EVENT_HEADERS -> injectTraceContext headers !! k = headers !! k) ->
  (forall name payload version, contract name payload = inr version -> (1 <= version)%nat) ->
  ev_name event ∈ DOMAIN_EVENT_NAMES ->
  ev_eventId event <> [] ->
  isObject (ev_payload event) = true ->
  parse (stringify (ev_payload event)) = inr (ev_payload event) ->
  parseDate (toISOString (ev_occurredAt event)) = Some (ev_occurredAt event) ->
  match contract (ev_name event) (ev_payload event) with
  | inl refused => encode topic event = inl refused
  | inr version => exists m, encode topic event = inr m /\ om_topic m = topic /\
      decode (arrived m partition offset timestamp) =
      inr {| de_event := event; de_writerSchemaVersion := Some (Z.of_nat version) |}
  end.
Proof.
  intros Hinj Hver Hname Hid Hobj Hjson Hdate.
  unfold encodeDomainEvent. destruct (contract _ _) as [refused|version] eqn:Hc; [done|].
  eexists. split_and!; [done|done|]. unfold decodeDomainEvent, readWriterVersion, arrived. cbn [im_headers om_headers im_value om_value].
  rewrite !Hinj by (unfold EVENT_HEADERS; set_solver).
  set (headers := match ev_correlationId event with Some _ => _ | None => _ end).
  assert (forall k v, k <> H_CORRELATION_ID ->
    (list_to_map [(H_NAME, js (ev_name event)); (H_ID, ev_eventId event); (H_OCCURRED_AT, toISOString (ev_occurredAt event));
        (H_CONTENT_TYPE, EVENT_CONTENT_TYPE); (H_SCHEMA_VERSION, js (pretty version))] : Headers) !! k = Some v ->
    headers !! k = Some v) as Hh.
  { intros k v Hk Hv. subst headers. destruct (ev_correlationId event); [by rewrite lookup_insert_ne|done]. }
  rewrite (Hh H_NAME (js (ev_name event))) by done. rewrite find_name_member by done.
  rewrite (Hh H_ID (ev_eventId event)) by done. destruct (ev_eventId event) as [|c id] eqn:He; [done|].
  rewrite (Hh H_OCCURRED_AT (toISOString (ev_occurredAt event))) by done. rewrite Hdate, Hjson, Hobj.
  rewrite (Hh H_SCHEMA_VERSION (js (pretty version))) by done. rewrite toNumber_pretty.
  rewrite decide_False by (specialize (Hver _ _ _ Hc); lia). rewrite Hc.
  assert (headers !! H_CORRELATION_ID = ev_correlationId event) as ->.
  { subst headers. destruct (ev_correlationId event); [by rewrite lookup_insert_eq|done]. }
  rewrite <-He. by destruct event.
Qed.

Lemma decode_errors message e :
  decode message = inl e ->
  (exists t p o why, e = UndecodableMessageError t p o why) \/
  (exists t p o subject writer reader violations, e = SchemaContractViolationError t p o subject writer reader violations).
Proof.
  unfold decodeDomainEvent, readWriterVersion, reject. intros H.
  repeat (case_match; simplify_eq); eauto 10.
Qed.

Section consumer_facts.
Context {W : Type} (emitAsync : Envelope -> Eff W JSText (list (option HandlerOutcome))) (now : W -> Z).
Context (broker_produce : list OutgoingMessage -> Eff W JSText unit).
Context (deadLetterTopic : option string) (groupId : string) (policy : BackoffPolicy) (env : LadderEnv W JSText).

Abbreviation consume := (dispatch parse toISOString parseDate otherNumber contract emitAsync now broker_produce deadLetterTopic groupId policy env).
Abbreviation attempts_at := (attempt_event toISOString emitAsync).

Lemma attempt_event_ok event w w' :
  attempts_at event w = (inr tt, w') ->
  exists outcomes, emitAsync (envelope toISOString event) w = (inr outcomes, w') /\
    forall o, Some o ∈ outcomes -> ho_error o = None.
Proof.
  unfold attempt_event, publishAndSettle, bus_dispatch. unfold bind, try_catch, throw, ret.
  destruct (emitAsync _ w) as [[e|outcomes] w1]; [done|]. cbn [snd].
  case_decide as Hf; [|done]. intros [= <-]. exists outcomes. split; [done|]. intros o Ho.
  apply list_elem_of_lookup in Ho as [i Hi]. apply eq_None_not_Some. intros [e He].
  refine (not_elem_of_nil o _). rewrite <-Hf. apply list_elem_of_filter. split; [by unfold isFailed; rewrite He|].
  apply list_elem_of_lookup. exists i. by rewrite list_lookup_imap, Hi.
Qed.

(** What [giveUp] does: it returns only after the copy was produced. *)
Lemma giveUp_outcome message reason attempts error w :
  match giveUp toISOString now broker_produce deadLetterTopic groupId message reason attempts error w with
  | (inr _, w') => exists topic, deadLetterTopic = Some topic /\
      broker_produce [toDeadLetterMessage toISOString topic message {| dl_groupId := groupId; dl_reason := reason;
        dl_attempts := attempts; dl_error := error; dl_failedAt := now w |}] w = (inr tt, w')
  | (inl e, w') => (deadLetterTopic = None /\ e = error /\ w' = w) \/
      exists topic cause, deadLetterTopic = Some topic /\ e = DeadLetterPublishError topic cause
  end.
Proof.
  unfold giveUp, send. destruct deadLetterTopic as [topic|]; [|by left].
  unfold try_catch, throw. destruct (broker_produce _ w) as [[cause|[]] w'] eqn:Hp; [right|]; eauto.
Qed.

(** Why a message can be given up on, and how many attempts it took. *)
Inductive hopeless (message : IncomingMessage) : DeadLetterReason -> Z -> ConsumerError -> Prop :=
  | hopeless_bytes topic partition offset why :
      decode message = inl (UndecodableMessageError topic partition offset why) ->
      hopeless message Undecodable 1 (UndecodableMessageError topic partition offset why)
  | hopeless_contract topic partition offset subject writer reader violations :
      decode message = inl (SchemaContractViolationError topic partition offset subject writer reader violations) ->
      hopeless message SchemaInvalid 1 (SchemaContractViolationError topic partition offset subject writer reader violations)
  | hopeless_handlers decoded error w1 w2 :
      decode message = inr decoded ->
      attempts_at (de_event decoded) w1 = (inl (OperationError error), w2) ->
      hopeless message HandlerFailed (Z.max 1 (maxAttempts policy)) (AnyError error).

(** What stands behind each way [dispatch] can end. *)
Definition accounted (message : IncomingMessage) (result : (ConsumerError + Disposition) * W) : Prop :=
  match result with
  | (inr Handled, w') => exists decoded w1 outcomes, decode message = inr decoded /\
      emitAsync (envelope toISOString (de_event decoded)) w1 = (inr outcomes, w') /\
      forall o, Some o ∈ outcomes -> ho_error o = None
  | (inr DeadLettered, w') => exists topic reason attempts error w1, deadLetterTopic = Some topic /\
      hopeless message reason attempts error /\
      broker_produce [toDeadLetterMessage toISOString topic message {| dl_groupId := groupId; dl_reason := reason;
        dl_attempts := attempts; dl_error := error; dl_failedAt := now w1 |}] w1 = (inr tt, w')
  | (inl e, _) => e = LadderAborted \/
      (deadLetterTopic = None /\ exists reason attempts, hopeless message reason attempts e) \/
      exists topic cause, deadLetterTopic = Some topic /\ e = DeadLetterPublishError topic cause
  end.

Lemma giveUp_accounted message reason attempts error w :
  hopeless message reason attempts error ->
  accounted message ((do! giveUp toISOString now broker_produce deadLetterTopic groupId message reason attempts error in ret DeadLettered) w).
Proof.
  intros Hh. pose proof (giveUp_outcome message reason attempts error w) as Hg. unfold bind.
  destruct (giveUp _ _ _ _ _ _ _ _ _ w) as [[e|[]] w']; simpl in *.
  - right. destruct Hg as [(? & -> & _)|?]; [left; eauto|by right].
  - destruct Hg as (topic & ? & ?). eauto 10.
Qed.

(** C13: a message's offset is committed only when it has been handled or a copy
    of it exists.  [dispatch] answers [handled] only when it decoded the event
    and its last act was an emission no subscriber failed; it answers
    [dead-lettered] only when there was a reason to give up (bytes that are no
    event, a payload that breaks its contract, or subscribers that still failed
    when the policy's attempts were used up) and the broker accepted the dead
    letter; and it throws, which leaves the offset where it is, only when the
    ladder was aborted, when dead-lettering is off, or when the copy could not
    be written. *)
Theorem consumer_handles_or_copies message w : accounted message (consume message w).
Proof.
  unfold dispatch. destruct (decode message) as [e|decoded] eqn:Hd.
  - destruct (decode_errors _ _ Hd) as [(t & p & o & why & ->)|(t & p & o & s & wr & r & v & ->)];
      apply giveUp_accounted; by econstructor.
  - unfold bind at 1, try_catch, throw, runRetryLadder.
    destruct (ladder_loop _ _ _ _ _ w) as [[e|[[n|n error]|]] w'] eqn:Hl.
    + apply ladder_loop_throws in Hl as ->. by left.
    + apply ladder_loop_succeeded in Hl as [w1 (outcomes & ? & ?)%attempt_event_ok]. simpl. eauto 10.
    + pose proof (runRetryLadder_exhausted env policy (attempts_at (de_event decoded)) w n error) as Hn.
      unfold runRetryLadder in Hn. rewrite Hl in Hn. rewrite (Hn eq_refl).
      apply ladder_loop_exhausted_by in Hl as [w1 ?]. apply giveUp_accounted. by econstructor.
    + exfalso. apply (ladder_loop_settles env policy (attempts_at (de_event decoded)) (S (Z.to_nat (maxAttempts policy))) 0 w);
        [lia..|by rewrite Hl].
Qed.

End consumer_facts.
End facts.

(** ** Witnesses *)

(** A payload is written as the user's id it holds and a time in digits; one
    subscriber fails on every event, until the world, a counter of emissions,
    reaches the number it is given. *)
Definition demo_stringify (v : JsonValue) : list N :=
  match v with JObject [(_, JString id)] => id | _ => [] end.
Definition demo_parse (bytes : list N) : JSText + JsonValue := inr (JObject [("userId"%string, JString bytes)]).
Definition demo_toISOString (t : Z) : JSText := js (pretty t).
Definition demo_parseDate (t : JSText) : option Z := Some (decimal (toText t)).
Definition demo_contract : PayloadContract := fun name _ =>
  if decide (name = "user.deleted"%string) then inl (1%nat, [js "reason is required"]) else inr 2%nat.

Definition demo_event : EncodedDomainEvent := {|
  ev_name := "user.registered"; ev_payload := JObject [("userId"%string, JString (js "u1"))]; ev_eventId := js "e1";
  ev_occurredAt := 1700; ev_correlationId := Some (js "req-9") |}.

Lemma codec_roundtrip_witness :
  exists m, encodeDomainEvent demo_stringify demo_toISOString id demo_contract "events" demo_event = inr m /\
    om_topic m = "events"%string /\
    decodeDomainEvent demo_parse demo_parseDate (fun _ => None) demo_contract (arrived m 3 7 1800) =
    inr {| de_event := demo_event; de_writerSchemaVersion := Some 2 |}.
Proof.
  apply (codec_roundtrip demo_stringify demo_parse demo_toISOString demo_parseDate (fun _ => None) id demo_contract
    "events" demo_event 3 7 1800).
  - done.
  - intros name payload version. unfold demo_contract. case_decide; [done|]. intros [= <-]. lia.
  - by left.
  - done.
  - done.
  - done.
  - vm_compute. reflexivity.
Defined.

Definition demo_consume (failures : Z) (deadLetterTopic : option string) (name : string) :=
  dispatch demo_parse demo_toISOString demo_parseDate (fun _ => None) demo_contract
    (fun _ '(n, produced) => (inr [Some {| ho_handler := js "Welcome.onRegistered";
      ho_error := if decide (n < failures) then Some (js "queue down") else None |}], (n + 1, produced)))
    (fun _ => 0) (fun ms '(n, produced) => (inr tt, (n, produced ++ ms))) deadLetterTopic "api"
    {| baseMs := 1; maxMs := 8; maxAttempts := 3 |}
    {| ladder_random _ := {| draw_num := 0; draw_den := 1 |}; ladder_aborted _ := false;
       ladder_elapse _ w := w; ladder_onRetry _ _ _ w := w |}
    {| im_topic := "events"; im_partition := 0; im_offset := 5; im_key := Some (js "u1"); im_value := js "u1";
       im_headers := list_to_map [(H_NAME, js name); (H_ID, js "e1"); (H_OCCURRED_AT, js "1700")]; im_timestamp := 0 |}
    (0, [] : list OutgoingMessage).

(** Two failures are retried away, three are a dead letter that keeps the key
    and the bytes, and with no dead-letter topic the message is left
    uncommitted. *)
Example consumer_runs :
  demo_consume 2 (Some "events.dlt"%string) "user.registered" = (inr Handled, (3, [])) /\
  (exists m, demo_consume 3 (Some "events.dlt"%string) "user.registered" = (inr DeadLettered, (3, [m])) /\
    om_key m = Some (js "u1") /\ om_value m = js "u1" /\
    om_headers m !! "dlt-reason"%string = Some (js "handler-failed") /\
    om_headers m !! "dlt-origin-offset"%string = Some (js "5") /\ om_headers m !! H_ID = Some (js "e1")) /\
  (exists m, demo_consume 0 (Some "events.dlt"%string) "user.deleted" = (inr DeadLettered, (0, [m])) /\
    om_headers m !! "dlt-reason"%string = Some (js "schema-invalid")) /\
  (exists e, demo_consume 3 None "user.registered" = (inl e, (3, []))).
Proof.
  split; [vm_compute; reflexivity|]. split; [|split].
  - eexists. split; [vm_compute; reflexivity|]. by repeat split.
  - eexists. split; [vm_compute; reflexivity|]. done.
  - eexists. vm_compute. reflexivity.
Qed.
