(* ===== verification/Streaming.v ===== *)
(** * Streaming: the server-sent event stream and its resume

    [streaming/replay-buffer.ts], [streaming/stream-cursor.ts],
    [streaming/stream-visibility.ts], [streaming/stream-frames.ts] and
    [streaming/event-stream.service.ts].  An observable runs synchronously: what the
    hub writes to a connection is the list of its frames. *)

From S2P Require Import Prelude Text Json Outbox Consumer.

(** ** The ring of recent events *)

Record SequencedEvent := { se_seq : nat; se_event : Envelope }.

Record ReplayBuffer := { rb_capacity : nat; rb_slots : list (option SequencedEvent); rb_appended : nat }.

Definition newReplayBuffer (capacity : nat) : JSText + ReplayBuffer :=
  if decide (capacity < 1)%nat then inl (js ("ReplayBuffer capacity must be a positive integer, got " +:+ pretty capacity))
  else inr {| rb_capacity := capacity; rb_slots := replicate capacity None; rb_appended := 0 |}.

Definition rb_append (entry : SequencedEvent) (b : ReplayBuffer) : ReplayBuffer := {|
  rb_capacity := rb_capacity b;
  rb_slots := <[(rb_appended b `mod` rb_capacity b)%nat := Some entry]> (rb_slots b);
  rb_appended := S (rb_appended b) |}.

Definition rb_size (b : ReplayBuffer) : nat := Nat.min (rb_appended b) (rb_capacity b).

(** [Math.max(0, this.appended - this.capacity)] *)
Definition oldestIndex (b : ReplayBuffer) : nat := (rb_appended b - rb_capacity b)%nat.

(** [this.slots[i % this.capacity]], [undefined] for a hole. *)
Definition rb_slot (b : ReplayBuffer) (i : nat) : option SequencedEvent :=
  default None (rb_slots b !! (i `mod` rb_capacity b)%nat).

Definition oldestSeq (b : ReplayBuffer) : option nat := se_seq <$> rb_slot b (oldestIndex b).

Definition since (seq : nat) (b : ReplayBuffer) : list SequencedEvent :=
  omap (fun i => match rb_slot b i with
    | Some entry => if decide (seq < se_seq entry)%nat then Some entry else None
    | None => None
    end) (List.seq (oldestIndex b) (rb_appended b - oldestIndex b)).

(** ** Cursors *)

Record StreamCursor := { cu_epoch : JSText; cu_seq : nat }.

Definition MAX_SEQ_DIGITS : nat := 15.

Definition formatCursor (epoch : JSText) (seq : nat) : JSText := epoch ++ [46%N] ++ js (pretty seq).

Definition isLowerHex (c : N) : bool := isDigitUnit c || bool_decide (97 <= c <= 102)%N.

(** [0|[1-9][0-9]{0,14}] *)
Definition seqPattern (ds : JSText) : bool :=
  match ds with
  | [] => false
  | d :: rest => bool_decide (ds = [48%N]) ||
      (bool_decide (49 <= d <= 57)%N && allDigits rest && bool_decide (length rest <= MAX_SEQ_DIGITS - 1)%nat)
  end.

(** [[0-9a-f]{32}] *)
Definition epochPattern (e : JSText) : bool := bool_decide (length e = 32%nat) && forallb isLowerHex e.

(** [CURSOR_PATTERN.exec] *)
Definition matchCursor (t : JSText) : option StreamCursor :=
  let epoch := take 32 t in
  match drop 32 t with
  | separator :: digits =>
      if bool_decide (separator = 46%N) && epochPattern epoch && seqPattern digits
      then Some {| cu_epoch := epoch; cu_seq := Z.to_nat (decimal (toText digits)) |} else None
  | [] => None
  end.

Definition parseCursor (raw : option JSText) : option StreamCursor :=
  match raw with
  | None => None
  | Some raw => matchCursor (trimText raw)
  end.

(** ** Who may see what *)

Record StreamAudience := { au_id : JSText; au_role : JSText }.

Definition ADMIN : JSText := js "ADMIN".

Definition userIdOf (payload : JsonValue) : option JSText := partitionKeyFor payload.

Definition isVisibleTo (event : Envelope) (audience : StreamAudience) : bool :=
  if decide (au_role audience = ADMIN) then true
  else bool_decide (en_name event ∈ DOMAIN_EVENT_NAMES) && bool_decide (userIdOf (en_payload event) = Some (au_id audience)).

(** ** Frames *)

Inductive ResumeGap := NoCursor | MalformedCursor | EpochChanged | BufferEvicted | CursorAhead.

#[export] Instance ResumeGap_eq_dec : EqDecision ResumeGap.
Proof. solve_decision. Defined.

Inductive FrameData :=
  | OpenData (epoch cursor : JSText) (resumed : bool) (replayed : nat) (gap : option ResumeGap)
  | EventData (event : Envelope)
  | HeartbeatData
  | ClosingData.

Record MessageEvent := { fr_type : string; fr_id : JSText; fr_retry : option Z; fr_data : FrameData }.

Definition eventFrame (epoch : JSText) (seq : nat) (event : Envelope) : MessageEvent :=
  {| fr_type := en_name event; fr_id := formatCursor epoch seq; fr_retry := None; fr_data := EventData event |}.

Definition openFrame (epoch : JSText) (seq : nat) (retryHintMs : Z) (resumed : bool) (replayed : nat) (gap : option ResumeGap) : MessageEvent :=
  {| fr_type := "stream.open"; fr_id := formatCursor epoch seq; fr_retry := Some retryHintMs;
     fr_data := OpenData epoch (formatCursor epoch seq) resumed replayed gap |}.

Definition heartbeatFrame (epoch : JSText) (seq : nat) : MessageEvent :=
  {| fr_type := "stream.heartbeat"; fr_id := formatCursor epoch seq; fr_retry := None; fr_data := HeartbeatData |}.

Definition closingFrame (epoch : JSText) (seq : nat) : MessageEvent :=
  {| fr_type := "stream.closing"; fr_id := formatCursor epoch seq; fr_retry := None; fr_data := ClosingData |}.

(** ** The hub *)

Record Resume := { rs_from : nat; rs_backlog : list SequencedEvent; rs_gap : option ResumeGap }.

Record EventStreamOptions := { heartbeatIntervalMs : Z; replayBufferSize : nat; maxConnections : Z; retryHintMs : Z }.

(** One connection: who it is for, the header it came with, what was decided
    about it, the position it has processed, the frames written to it, and
    whether it is still subscribed. *)
Record Stream := {
  st_audience : StreamAudience; st_lastEventId : option JSText; st_resume : Resume;
  st_cursor : nat; st_frames : list MessageEvent; st_live : bool }.

Record EventStreamHub := {
  h_options : EventStreamOptions; h_epoch : JSText; h_buffer : ReplayBuffer; h_seq : nat; h_open : Z;
  h_stopping : bool; h_streams : list Stream }.

Definition newHub (options : EventStreamOptions) (epoch : JSText) : JSText + EventStreamHub :=
  match newReplayBuffer (replayBufferSize options) with
  | inl e => inl e
  | inr buffer => inr {| h_options := options; h_epoch := epoch; h_buffer := buffer; h_seq := 0; h_open := 0;
      h_stopping := false; h_streams := [] |}
  end.

Definition with_streams (streams : list Stream) (open : Z) (h : EventStreamHub) : EventStreamHub := {|
  h_options := h_options h; h_epoch := h_epoch h; h_buffer := h_buffer h; h_seq := h_seq h; h_open := open;
  h_stopping := h_stopping h; h_streams := streams |}.

Definition write (frame : MessageEvent) (s : Stream) : Stream := {|
  st_audience := st_audience s; st_lastEventId := st_lastEventId s; st_resume := st_resume s; st_cursor := st_cursor s;
  st_frames := st_frames s ++ [frame]; st_live := st_live s |}.

Definition at_cursor (cursor : nat) (s : Stream) : Stream := {|
  st_audience := st_audience s; st_lastEventId := st_lastEventId s; st_resume := st_resume s; st_cursor := cursor;
  st_frames := st_frames s; st_live := st_live s |}.

Definition ended (s : Stream) : Stream := {|
  st_audience := st_audience s; st_lastEventId := st_lastEventId s; st_resume := st_resume s; st_cursor := st_cursor s;
  st_frames := st_frames s; st_live := false |}.

(** One entry through the pipe of a connection: the cursor moves, then the entry
    is shown or filtered out. *)
Definition deliver_entry (epoch : JSText) (s : Stream) (entry : SequencedEvent) : Stream :=
  let s := at_cursor (se_seq entry) s in
  if isVisibleTo (se_event entry) (st_audience s) then write (eventFrame epoch (se_seq entry) (se_event entry)) s else s.

Definition record (event : Envelope) (h : EventStreamHub) : EventStreamHub :=
  let entry := {| se_seq := S (h_seq h); se_event := event |} in
  {| h_options := h_options h; h_epoch := h_epoch h; h_buffer := rb_append entry (h_buffer h); h_seq := S (h_seq h);
     h_open := h_open h; h_stopping := h_stopping h;
     h_streams := (fun s => if st_live s then deliver_entry (h_epoch h) s entry else s) <$> h_streams h |}.

(** The names with an [@OnDomainEvent] method. *)
Definition SUBSCRIBED : list string := ["user.registered"; "user.deleted"]%string.

Definition onDomainEvent (event : Envelope) (h : EventStreamHub) : EventStreamHub :=
  if decide (en_name event ∈ SUBSCRIBED) then record event h else h.

Definition resolveResume (lastEventId : option JSText) (h : EventStreamHub) : Resume :=
  let live gap := {| rs_from := h_seq h; rs_backlog := []; rs_gap := Some gap |} in
  match lastEventId with
  | None => live NoCursor
  | Some raw =>
      if decide (trimText raw = []) then live NoCursor
      else match parseCursor (Some raw) with
      | None => live MalformedCursor
      | Some cursor =>
          if decide (cu_epoch cursor <> h_epoch h) then live EpochChanged
          else if decide (h_seq h < cu_seq cursor)%nat then live CursorAhead
          else match oldestSeq (h_buffer h) with
          | Some oldest =>
              if decide (Z.of_nat (cu_seq cursor) < Z.of_nat oldest - 1) then live BufferEvicted
              else {| rs_from := cu_seq cursor; rs_backlog := since (cu_seq cursor) (h_buffer h); rs_gap := None |}
          | None => {| rs_from := cu_seq cursor; rs_backlog := since (cu_seq cursor) (h_buffer h); rs_gap := None |}
          end
      end
  end.

(** A stream as it is when its opening frame has been written. *)
Definition opened (audience : StreamAudience) (lastEventId : option JSText) (h : EventStreamHub) : Stream :=
  let resume := resolveResume lastEventId h in
  {| st_audience := audience; st_lastEventId := lastEventId; st_resume := resume; st_cursor := rs_from resume;
     st_frames := [openFrame (h_epoch h) (rs_from resume) (retryHintMs (h_options h))
       (bool_decide (rs_gap resume = None)) (length (rs_backlog resume))
       (if decide (rs_gap resume = Some NoCursor) then None else rs_gap resume)];
     st_live := true |}.

(** The farewell, and the slot given back. *)
Definition farewell (epoch : JSText) (s : Stream) : Stream := ended (write (closingFrame epoch (st_cursor s)) s).

(** [connect], from the moment it is subscribed to.  A hub that is stopping
    completes the stream before the backlog is read. *)
Definition connect (audience : StreamAudience) (lastEventId : option JSText) (h : EventStreamHub) :
    JSText + EventStreamHub :=
  if decide (maxConnections (h_options h) <= h_open h)
  then inl (js ("Event stream is at capacity (" +:+ pretty (maxConnections (h_options h)) +:+ " connections)"))
  else
    let s := opened audience lastEventId h in
    inr (if h_stopping h then with_streams (h_streams h ++ [farewell (h_epoch h) s]) (h_open h) h
         else with_streams (h_streams h ++ [foldl (deliver_entry (h_epoch h)) s (rs_backlog (st_resume s))]) (h_open h + 1) h).

Definition on_stream (i : nat) (f : Stream -> Stream) (h : EventStreamHub) : EventStreamHub :=
  with_streams (alter f i (h_streams h)) (h_open h) h.

Definition heartbeat (i : nat) (h : EventStreamHub) : EventStreamHub :=
  on_stream i (fun s => if st_live s then write (heartbeatFrame (h_epoch h) (st_cursor s)) s else s) h.

(** The client goes away: the subscription ends and [finalize] runs. *)
Definition hangup (i : nat) (h : EventStreamHub) : EventStreamHub :=
  match h_streams h !! i with
  | Some s => if st_live s then with_streams (<[i := ended s]> (h_streams h)) (h_open h - 1) h else h
  | None => h
  end.

Definition live_count (streams : list Stream) : Z := Z.of_nat (length (filter (fun s => st_live s = true) streams)).

Definition onApplicationShutdown (h : EventStreamHub) : EventStreamHub := {|
  h_options := h_options h; h_epoch := h_epoch h; h_buffer := h_buffer h; h_seq := h_seq h;
  h_open := h_open h - live_count (h_streams h); h_stopping := true;
  h_streams := (fun s => if st_live s then farewell (h_epoch h) s else s) <$> h_streams h |}.

Definition currentCursor (h : EventStreamHub) : JSText := formatCursor (h_epoch h) (h_seq h).

(** ** Everything that can happen *)

Inductive HubEvent :=
  | HubPublish (event : Envelope)
  | HubConnect (audience : StreamAudience) (lastEventId : option JSText)
  | HubHeartbeat (i : nat)
  | HubHangup (i : nat)
  | HubShutdown.

Definition hub_event (e : HubEvent) (h : EventStreamHub) : EventStreamHub :=
  match e with
  | HubPublish event => onDomainEvent event h
  | HubConnect audience lastEventId => match connect audience lastEventId h with inr h => h | inl _ => h end
  | HubHeartbeat i => heartbeat i h
  | HubHangup i => hangup i h
  | HubShutdown => onApplicationShutdown h
  end.

Definition hub_run (events : list HubEvent) (h : EventStreamHub) : EventStreamHub := foldl (fun h e => hub_event e h) h events.

(** The events of an account's own life. *)
Definition account_event (event : Envelope) : Prop :=
  en_name event = "user.registered"%string \/ en_name event = "user.deleted"%string.

#[global] Instance account_event_dec event : Decision (account_event event).
Proof. unfold account_event. apply _. Defined.

Lemma subscribed_iff event : en_name event ∈ SUBSCRIBED <-> account_event event.
Proof. unfold SUBSCRIBED, account_event. set_solver. Qed.

(** The account events that were published, in order. *)
Definition published (events : list HubEvent) : list Envelope :=
  omap (fun e => match e with HubPublish event => if decide (account_event event) then Some event else None | _ => None end) events.

Definition numbered (es : list Envelope) : list SequencedEvent := imap (fun i e => {| se_seq := S i; se_event := e |}) es.

(** ** The ring holds the last events *)

Lemma length_numbered es : length (numbered es) = length es.
Proof. apply length_imap. Qed.

Lemma lookup_numbered es i : numbered es !! i = (fun e => {| se_seq := S i; se_event := e |}) <$> es !! i.
Proof. unfold numbered. by rewrite list_lookup_imap. Qed.

Lemma numbered_snoc es e : numbered (es ++ [e]) = numbered es ++ [{| se_seq := S (length es); se_event := e |}].
Proof. unfold numbered. rewrite imap_app. simpl. by rewrite Nat.add_0_r. Qed.

Record ring_ok (b : ReplayBuffer) (es : list Envelope) : Prop := {
  ro_capacity : (1 <= rb_capacity b)%nat;
  ro_slots : length (rb_slots b) = rb_capacity b;
  ro_appended : rb_appended b = length es;
  ro_kept i : (i < length es)%nat -> (length es <= i + rb_capacity b)%nat -> rb_slot b i = numbered es !! i;
  ro_holes : es = [] -> rb_slot b 0 = None;
}.

Lemma mod_window i n c : (i < n)%nat -> (n < i + c)%nat -> (i mod c <> n mod c)%nat.
Proof.
  intros H1 H2 H3. pose proof (Nat.div_mod_eq i c) as Hi. pose proof (Nat.div_mod_eq n c) as Hn. rewrite H3 in Hi.
  assert (n / c = i / c \/ i / c + 1 <= n / c \/ n / c + 1 <= i / c)%nat as [E|[E|E]] by lia; [nia..].
Qed.

Lemma newReplayBuffer_ok capacity b : newReplayBuffer capacity = inr b -> ring_ok b [].
Proof.
  unfold newReplayBuffer. case_decide; [done|]. intros [= <-]. constructor; simpl.
  - lia.
  - apply length_replicate.
  - done.
  - lia.
  - intros _. unfold rb_slot. simpl. rewrite Nat.Div0.mod_0_l. by destruct capacity; [lia|].
Qed.

Lemma rb_append_ok b es e :
  ring_ok b es -> ring_ok (rb_append {| se_seq := S (length es); se_event := e |} b) (es ++ [e]).
Proof.
  intros [Hc Hs Ha Hk Hh]. constructor; simpl.
  - done.
  - by rewrite length_insert.
  - rewrite length_app, Ha. simpl. lia.
  - rewrite length_app. simpl. intros i Hi Hw. unfold rb_slot. simpl. rewrite Ha. destruct (decide (i = length es)) as [->|Hne].
    + rewrite list_lookup_insert_eq by (rewrite Hs; apply Nat.mod_upper_bound; lia).
      rewrite numbered_snoc, lookup_app_r, length_numbered, Nat.sub_diag by (rewrite length_numbered; lia). done.
    + rewrite list_lookup_insert_ne by (intros E; symmetry in E; revert E; apply mod_window; lia).
      rewrite numbered_snoc, lookup_app_l by (rewrite length_numbered; lia). apply Hk; lia.
  - by intros [_ ?]%app_nil.
Qed.

(** The entries after position [k] of a run of entries that starts after [a]. *)
Lemma omap_after k l a :
  (forall i e, l !! i = Some e -> se_seq e = S (a + i)) ->
  omap (fun e => if decide (k < se_seq e)%nat then Some e else None) l = drop (k - a) l.
Proof.
  revert a. induction l as [|x l IH]; intros a Hl; [by rewrite drop_nil|].
  assert (se_seq x = S a) as Hx by (rewrite (Hl 0%nat x); [lia|done]).
  assert (forall i e, l !! i = Some e -> se_seq e = S (S a + i)) as Hl' by (intros i e Hi; rewrite (Hl (S i) e); [lia|done]).
  specialize (IH (S a) Hl'). simpl. rewrite Hx. case_decide.
  - replace (k - a)%nat with 0%nat by lia. replace (k - S a)%nat with 0%nat in IH by lia. exact (f_equal (cons x) IH).
  - replace (k - a)%nat with (S (k - S a)) by lia. exact IH.
Qed.

(** Everything after [k] is there, as long as it has not been overwritten. *)
Lemma since_kept b es k :
  ring_ok b es -> (length es <= k + rb_capacity b)%nat -> since k b = drop k (numbered es).
Proof.
  intros [Hc Hs Ha Hk _] Hle. unfold since, oldestIndex. rewrite Ha. set (old := (length es - rb_capacity b)%nat).
  transitivity (omap (fun e => if decide (k < se_seq e)%nat then Some e else None) (drop old (numbered es))).
  - apply list_omap_ext, Forall2_same_length_lookup.
    split; [by rewrite length_seq, length_drop, length_numbered|]. intros i x y Hx Hy.
    apply lookup_seq in Hx as [-> Hi]. rewrite lookup_drop in Hy. rewrite Hk by (subst old; lia). by rewrite Hy.
  - rewrite (omap_after k _ old), drop_drop; [f_equal; lia|]. intros i e. rewrite lookup_drop, lookup_numbered.
    intros (e' & _ & ->)%fmap_Some. simpl. lia.
Qed.

Lemma oldestSeq_kept b es :
  ring_ok b es -> oldestSeq b = if decide (es = []) then None else Some (S (length es - rb_capacity b)).
Proof.
  intros [Hc Hs Ha Hk Hh]. unfold oldestSeq, oldestIndex. rewrite Ha. case_decide as He.
  - subst es. change (length (@nil Envelope) - rb_capacity b)%nat with 0%nat. by rewrite Hh.
  - assert (length es <> 0)%nat by (by intros ?%length_zero_iff_nil). rewrite Hk by lia. rewrite lookup_numbered.
    destruct (lookup_lt_is_Some_2 es (length es - rb_capacity b)) as [e ->]; [lia|done].
Qed.

(** ** What a client has been shown *)

(** An administrator may see the whole catalogue, anyone else the events of it
    that are about themselves. *)
Definition may_see (audience : StreamAudience) (e : Envelope) : Prop :=
  au_role audience = ADMIN \/ en_name e ∈ DOMAIN_EVENT_NAMES /\ userIdOf (en_payload e) = Some (au_id audience).

#[global] Instance may_see_dec audience e : Decision (may_see audience e).
Proof. unfold may_see. apply _. Defined.

Lemma isVisibleTo_iff e audience : isVisibleTo e audience = true <-> may_see audience e.
Proof.
  unfold isVisibleTo, may_see. case_decide; [naive_solver|]. rewrite andb_true_iff, !bool_decide_eq_true. naive_solver.
Qed.

(** The events after position [from] up to position [to] that [audience] may see. *)
Definition shown (audience : StreamAudience) (from to : nat) (es : list Envelope) : list Envelope :=
  filter (may_see audience) (take (to - from) (drop from es)).

Definition events_of (frames : list MessageEvent) : list Envelope :=
  omap (fun f => match fr_data f with EventData e => Some e | _ => None end) frames.

Lemma shown_app audience a b c es :
  (a <= b <= c)%nat -> shown audience a b es ++ shown audience b c es = shown audience a c es.
Proof.
  intros H. unfold shown. rewrite <-filter_app. f_equal. replace (c - a)%nat with ((b - a) + (c - b))%nat by lia.
  rewrite <-take_take_drop, drop_drop. do 3 f_equal. lia.
Qed.

Lemma shown_empty audience a es : shown audience a a es = [].
Proof. unfold shown. by rewrite Nat.sub_diag. Qed.

Lemma shown_next audience n es e :
  es !! n = Some e -> shown audience n (S n) es = if isVisibleTo e audience then [e] else [].
Proof.
  intros He. unfold shown. replace (S n - n)%nat with 1%nat by lia. rewrite (drop_S _ e) by done. simpl.
  pose proof (isVisibleTo_iff e audience) as Hiff. destruct (isVisibleTo e audience).
  - rewrite filter_cons_True; [done|by apply Hiff].
  - rewrite filter_cons_False; [done|]. by intros ?%Hiff.
Qed.

Lemma shown_mono audience a b es e : (b <= length es)%nat -> shown audience a b (es ++ [e]) = shown audience a b es.
Proof.
  intros Hb. unfold shown. f_equal. destruct (decide (a <= length es)%nat).
  - rewrite drop_app_le by lia. rewrite take_app_le; [done|]. rewrite length_drop. lia.
  - by replace (b - a)%nat with 0%nat by lia.
Qed.

Lemma events_of_snoc frames f : events_of (frames ++ [f]) = events_of frames ++ events_of [f].
Proof. apply omap_app. Qed.

Record stream_ok (epoch : JSText) (es : list Envelope) (s : Stream) : Prop := {
  so_range : (rs_from (st_resume s) <= st_cursor s <= length es)%nat;
  so_now : events_of (st_frames s) = shown (st_audience s) (rs_from (st_resume s)) (st_cursor s) es;
  so_frames F f : F ++ [f] `prefix_of` st_frames s -> exists k, fr_id f = formatCursor epoch k /\
    (rs_from (st_resume s) <= k <= st_cursor s)%nat /\
    events_of (F ++ [f]) = shown (st_audience s) (rs_from (st_resume s)) k es;
  so_resume : rs_gap (st_resume s) = None ->
    exists raw, st_lastEventId s = Some raw /\ parseCursor (Some raw) = Some {| cu_epoch := epoch; cu_seq := rs_from (st_resume s) |};
}.

Lemma prefix_snoc_cases {A} (l k : list A) x : l `prefix_of` k ++ [x] -> l = k ++ [x] \/ l `prefix_of` k.
Proof.
  intros [r Hr]. destruct r as [|y r _] using rev_ind.
  - left. by rewrite app_nil_r in Hr.
  - right. rewrite app_assoc in Hr. apply app_inj_tail in Hr as [-> _]. by apply prefix_app_r.
Qed.

(** A frame written at the cursor keeps the account, when what it shows is what
    the cursor says was shown. *)
Lemma write_ok epoch es s f :
  (rs_from (st_resume s) <= st_cursor s <= length es)%nat ->
  (forall F f, F ++ [f] `prefix_of` st_frames s -> exists k, fr_id f = formatCursor epoch k /\
    (rs_from (st_resume s) <= k <= st_cursor s)%nat /\
    events_of (F ++ [f]) = shown (st_audience s) (rs_from (st_resume s)) k es) ->
  (rs_gap (st_resume s) = None ->
    exists raw, st_lastEventId s = Some raw /\ parseCursor (Some raw) = Some {| cu_epoch := epoch; cu_seq := rs_from (st_resume s) |}) ->
  fr_id f = formatCursor epoch (st_cursor s) ->
  events_of (st_frames s ++ [f]) = shown (st_audience s) (rs_from (st_resume s)) (st_cursor s) es ->
  stream_ok epoch es (write f s).
Proof.
  intros Hr Hf Hg Hid Hev. constructor; simpl; [done|done| |done].
  intros F f' [[-> ->]%app_inj_tail|Hp]%prefix_snoc_cases; [|by apply Hf].
  exists (st_cursor s). split_and!; [done|lia|lia|done].
Qed.

Lemma control_ok epoch es s f :
  stream_ok epoch es s -> fr_id f = formatCursor epoch (st_cursor s) -> events_of [f] = [] -> stream_ok epoch es (write f s).
Proof.
  intros [Hr Hn Hf Hg] Hid Hev. apply write_ok; [done..|]. by rewrite events_of_snoc, Hev, app_nil_r.
Qed.

Lemma ended_ok epoch es s : stream_ok epoch es s -> stream_ok epoch es (ended s).
Proof. by intros []. Qed.

Lemma farewell_ok epoch es s : stream_ok epoch es s -> stream_ok epoch es (farewell epoch s).
Proof. intros Hs. by apply ended_ok, control_ok. Qed.

Lemma stream_mono epoch es e s : stream_ok epoch es s -> stream_ok epoch (es ++ [e]) s.
Proof.
  intros [Hr Hn Hf Hg]. constructor; [rewrite length_app; lia|rewrite shown_mono by lia; done| |done].
  intros F f Hp. destruct (Hf F f Hp) as (k & ? & ? & ?). exists k. rewrite shown_mono by lia. done.
Qed.

(** The next event goes by. *)
Lemma deliver_ok epoch es s e :
  stream_ok epoch es s -> es !! st_cursor s = Some e ->
  stream_ok epoch es (deliver_entry epoch s {| se_seq := S (st_cursor s); se_event := e |}).
Proof.
  intros [Hr Hn Hf Hg] He. pose proof (lookup_lt_Some _ _ _ He). unfold deliver_entry. simpl.
  assert (forall F f, F ++ [f] `prefix_of` st_frames s -> exists k, fr_id f = formatCursor epoch k /\
    (rs_from (st_resume s) <= k <= S (st_cursor s))%nat /\
    events_of (F ++ [f]) = shown (st_audience s) (rs_from (st_resume s)) k es) as Hf'.
  { intros F f Hp. destruct (Hf F f Hp) as (k & ? & ? & ?). exists k. split_and!; [done|lia|lia|done]. }
  pose proof (shown_next (st_audience s) _ _ _ He) as Hnext.
  assert (shown (st_audience s) (rs_from (st_resume s)) (S (st_cursor s)) es =
    events_of (st_frames s) ++ shown (st_audience s) (st_cursor s) (S (st_cursor s)) es) as Hs
    by (rewrite Hn; symmetry; apply shown_app; lia).
  destruct (isVisibleTo e (st_audience s)).
  - apply write_ok; simpl; [lia|done|done|done|]. by rewrite events_of_snoc, Hs, Hnext.
  - constructor; simpl; [lia| |done|done]. by rewrite Hs, Hnext, app_nil_r.
Qed.

Lemma deliver_fields epoch s entry :
  st_cursor (deliver_entry epoch s entry) = se_seq entry /\ st_live (deliver_entry epoch s entry) = st_live s.
Proof. unfold deliver_entry. by case_match. Qed.

(** The backlog brings a stream up to date. *)
Lemma backlog_ok epoch es s :
  stream_ok epoch es s ->
  let s' := foldl (deliver_entry epoch) s (drop (st_cursor s) (numbered es)) in
  stream_ok epoch es s' /\ st_cursor s' = length es /\ st_live s' = st_live s.
Proof.
  intros Hs. remember (length es - st_cursor s)%nat as n eqn:Hn. revert s Hs Hn.
  induction n as [|n IH]; intros s Hs Hn; pose proof (so_range _ _ _ Hs).
  - rewrite drop_ge by (rewrite length_numbered; lia). simpl. split_and!; [done|lia|done].
  - destruct (lookup_lt_is_Some_2 es (st_cursor s)) as [e He]; [lia|].
    rewrite (drop_S _ {| se_seq := S (st_cursor s); se_event := e |}) by (by rewrite lookup_numbered, He). simpl.
    destruct (deliver_fields epoch s {| se_seq := S (st_cursor s); se_event := e |}) as [Hc Hl]. simpl in Hc.
    specialize (IH _ (deliver_ok _ _ _ _ Hs He)). rewrite Hc, Hl in IH. apply IH. lia.
Qed.

(** ** The hub *)

Record hub_ok (h : EventStreamHub) (es : list Envelope) : Prop := {
  ho_ring : ring_ok (h_buffer h) es;
  ho_capacity : rb_capacity (h_buffer h) = replayBufferSize (h_options h);
  ho_seq : h_seq h = length es;
  ho_streams : Forall (fun s => stream_ok (h_epoch h) es s /\ (st_live s = true -> st_cursor s = length es)) (h_streams h);
  ho_open : h_open h = live_count (h_streams h);
  ho_max : h_open h <= Z.max 0 (maxConnections (h_options h));
}.

Lemma live_count_fmap (f : Stream -> Stream) streams :
  (forall s, st_live (f s) = st_live s) -> live_count (f <$> streams) = live_count streams.
Proof.
  intros Hf. unfold live_count. f_equal. induction streams as [|s streams IH]; [done|].
  rewrite fmap_cons, !filter_cons, Hf. case_decide; simpl; by rewrite IH.
Qed.

Lemma live_count_dead (f : Stream -> Stream) streams : (forall s, st_live (f s) = false) -> live_count (f <$> streams) = 0.
Proof.
  intros Hf. unfold live_count. induction streams as [|s streams IH]; [done|].
  rewrite fmap_cons, filter_cons. case_decide as Hd; [by rewrite Hf in Hd|done].
Qed.

Lemma live_count_snoc streams s : live_count (streams ++ [s]) = live_count streams + if st_live s then 1 else 0.
Proof.
  unfold live_count. rewrite filter_app, length_app. destruct (st_live s) eqn:Hs.
  - rewrite filter_cons_True by done. simpl. lia.
  - rewrite filter_cons_False by (by rewrite Hs). simpl. lia.
Qed.

Lemma live_count_end streams i s :
  streams !! i = Some s -> st_live s = true -> live_count (<[i := ended s]> streams) = live_count streams - 1.
Proof.
  unfold live_count. revert i. induction streams as [|x streams IH]; intros [|i] Hi Hs; [done..| |]; simpl in *.
  - simplify_eq. rewrite filter_cons_False, filter_cons_True by done. simpl. lia.
  - specialize (IH i Hi Hs). rewrite !filter_cons. case_decide; simpl; lia.
Qed.

Lemma live_count_alter f i streams :
  (forall s, st_live (f s) = st_live s) -> live_count (alter f i streams) = live_count streams.
Proof.
  intros Hf. unfold live_count. f_equal. revert i. induction streams as [|s streams IH]; intros [|i]; [done..| |]; simpl.
  - rewrite !filter_cons, Hf. by case_decide.
  - specialize (IH i). rewrite !filter_cons. case_decide; [exact (f_equal S IH)|exact IH].
Qed.

Lemma live_count_nonneg streams : 0 <= live_count streams.
Proof. unfold live_count. lia. Qed.

Lemma newHub_ok options epoch h : newHub options epoch = inr h -> hub_ok h [].
Proof.
  unfold newHub. destruct (newReplayBuffer _) as [|b] eqn:Hb; [done|]. intros [= <-].
  pose proof (newReplayBuffer_ok _ _ Hb). constructor; simpl; [done| |done|done|done|lia].
  revert Hb. unfold newReplayBuffer. case_decide; [done|]. by intros [= <-].
Qed.

Lemma record_ok h es e : hub_ok h es -> hub_ok (record e h) (es ++ [e]).
Proof.
  intros [Hr Hc Hq Hs Ho Hm]. constructor; simpl.
  - rewrite Hq. by apply rb_append_ok.
  - done.
  - rewrite length_app, Hq. simpl. lia.
  - rewrite Forall_fmap. eapply Forall_impl; [exact Hs|]. intros s [Hok Hlive]. simpl. rewrite length_app, Nat.add_1_r.
    destruct (st_live s) eqn:Hl; [|split; [by apply stream_mono|by rewrite Hl]].
    specialize (Hlive eq_refl). rewrite Hq, <-Hlive. split; [|intros _; by rewrite (proj1 (deliver_fields _ _ _))].
    apply deliver_ok; [by apply stream_mono|]. rewrite Hlive. by apply list_lookup_middle.
  - rewrite live_count_fmap; [done|]. intros s. destruct (st_live s) eqn:Hl; [|done]. by rewrite (proj2 (deliver_fields _ _ _)).
  - done.
Qed.

(** What [resolveResume] answers, whatever it is given: either the stream starts
    at the present with nothing to replay, or it starts at a position of this
    process's and replays everything since. *)
Lemma resolveResume_ok h es raw :
  hub_ok h es ->
  let r := resolveResume raw h in
  (rs_gap r <> None /\ rs_from r = length es /\ rs_backlog r = []) \/
  (rs_gap r = None /\ (rs_from r <= length es)%nat /\ rs_backlog r = drop (rs_from r) (numbered es) /\
   exists t, raw = Some t /\ parseCursor (Some t) = Some {| cu_epoch := h_epoch h; cu_seq := rs_from r |}).
Proof.
  intros [Hr Hc Hq _ _ _]. unfold resolveResume. destruct raw as [t|]; [|by left].
  destruct (decide (trimText t = [])); [by left|]. destruct (parseCursor (Some t)) as [[epoch seq]|] eqn:Hp; [|by left]. simpl.
  destruct (decide (epoch <> h_epoch h)) as [|He]; [by left|]. apply dec_stable in He as ->.
  destruct (decide (h_seq h < seq)%nat); [by left|]. rewrite (oldestSeq_kept _ _ Hr).
  destruct (decide (es = [])) as [->|Hne].
  - right. simpl in *. split_and!; [done|lia| |eauto]. apply since_kept; [done|simpl; lia].
  - destruct (decide (Z.of_nat seq < _)); [by left|]. right. simpl. split_and!; [done|lia| |eauto].
    apply since_kept; [done|lia].
Qed.

Lemma opened_ok h es audience raw : hub_ok h es -> stream_ok (h_epoch h) es (opened audience raw h).
Proof.
  intros Hh. pose proof (resolveResume_ok h es raw Hh) as Hr. unfold opened. constructor; simpl.
  - destruct Hr as [(_ & -> & _)|(_ & ? & _)]; lia.
  - by rewrite shown_empty.
  - intros F f [r Hr']. destruct F as [|? [|??]]; simplify_eq/=. exists (rs_from (resolveResume raw h)).
    by rewrite shown_empty.
  - intros Hg. destruct Hr as [(? & _)|(_ & _ & _ & t & -> & ?)]; [done|eauto].
Qed.

Lemma connect_ok h es audience raw h' : hub_ok h es -> connect audience raw h = inr h' -> hub_ok h' es.
Proof.
  intros Hh. pose proof (opened_ok h es audience raw Hh) as Hs. pose proof (resolveResume_ok h es raw Hh) as Hr.
  unfold connect. case_decide as Hmax; [done|]. destruct Hh as [Hring Hcap Hq Hss Ho Hm]. intros [= <-]. simpl in *.
  destruct (h_stopping h).
  - constructor; simpl; [done..| |by rewrite live_count_snoc, Ho; simpl; lia|done].
    apply Forall_app_2; [done|]. constructor; [|done]. split; [by apply farewell_ok|done].
  - set (s := opened audience raw h) in *. fold (resolveResume raw h).
    assert (rs_backlog (resolveResume raw h) = drop (st_cursor s) (numbered es)) as ->.
    { change (st_cursor s) with (rs_from (resolveResume raw h)).
      destruct Hr as [(_ & -> & ->)|(_ & _ & -> & _)]; [|done]. by rewrite drop_ge by (by rewrite length_numbered). }
    destruct (backlog_ok _ _ _ Hs) as (Hok & Hcur & Hlive). change (st_live s) with true in Hlive.
    set (s' := foldl _ _ _) in *. clearbody s'.
    constructor; simpl; [done..| | |lia].
    + apply Forall_app_2; [done|]. constructor; [|done]. done.
    + rewrite live_count_snoc, Hlive, Ho. done.
Qed.

Lemma hub_event_ok h es e : hub_ok h es -> hub_ok (hub_event e h) (es ++ published [e]).
Proof.
  intros Hh. destruct e as [e|audience raw|i|i|]; simpl; rewrite ?app_nil_r.
  - unfold onDomainEvent. rewrite (decide_ext _ _ _ _ (subscribed_iff e)). case_decide; rewrite ?app_nil_r; [by apply record_ok|done].
  - destruct (connect audience raw h) as [|h'] eqn:Hc; [done|]. by eapply connect_ok.
  - destruct Hh as [Hring Hcap Hq Hss Ho Hm]. constructor; simpl; [done..| | |done].
    + apply Forall_alter; [done|]. intros s _ [Hok Hl]. destruct (st_live s) eqn:E; [|by rewrite E].
      split; [by apply control_ok|]. intros _. by apply Hl.
    + rewrite Ho. unfold on_stream. symmetry. apply live_count_alter. intros s. by destruct (st_live s) eqn:?.
  - unfold hangup. destruct (h_streams h !! i) as [s|] eqn:Hi; [|done]. destruct (st_live s) eqn:Hl; [|done].
    destruct Hh as [Hring Hcap Hq Hss Ho Hm]. constructor; simpl; [done..| | |].
    + apply Forall_insert; [done|]. rewrite Forall_lookup in Hss. destruct (Hss _ _ Hi). split; [by apply ended_ok|done].
    + rewrite (live_count_end _ _ _ Hi Hl), Ho. done.
    + lia.
  - destruct Hh as [Hring Hcap Hq Hss Ho Hm]. constructor; simpl; [done..| | |].
    + rewrite Forall_fmap. eapply Forall_impl; [exact Hss|]. intros s [Hok Hl]. unfold compose.
      destruct (st_live s) eqn:E; [|by rewrite E]. split; [by apply farewell_ok|done].
    + rewrite live_count_dead; [lia|]. intros s. by destruct (st_live s) eqn:?.
    + pose proof (live_count_nonneg (h_streams h)). lia.
Qed.

Lemma hub_run_ok events h es : hub_ok h es -> hub_ok (hub_run events h) (es ++ published events).
Proof.
  revert h es. induction events as [|e events IH]; intros h es Hh; [by rewrite app_nil_r|].
  change (published (e :: events)) with (published ([e] ++ events)). unfold published. rewrite omap_app, app_assoc.
  apply IH. by apply hub_event_ok.
Qed.

(** ** Cursors *)

Lemma seqPattern_pretty n : Z.of_nat n < 10 ^ 15 -> seqPattern (js (pretty n)) = true.
Proof.
  intros Hn. destruct (decide (n = 0)%nat) as [->|Hz]; [done|].
  pose proof (pretty_canonical n Hz) as Hc. pose proof (canonical_length _ Hc) as [Hl _].
  destruct (pretty_nat_decimal n) as [Hd Hv]. rewrite Hv in Hl. pose proof (allDigits_js _ Hd) as Ha.
  destruct Hc as [_ (d & rest & Hp & Hdz)]. unfold js in *. rewrite Hp in *. rewrite fmap_cons in *. unfold seqPattern.
  apply Forall_cons in Hd as [Hd _]. apply isDigit_range in Hd. unfold code in *.
  unfold allDigits in Ha. cbn [forallb] in Ha. apply andb_true_iff in Ha as [_ Ha]. fold (allDigits (Ascii.N_of_ascii <$> rest)) in Ha.
  apply orb_true_iff. right. rewrite Ha, !andb_true_iff, !bool_decide_eq_true. split_and!; [lia|lia|done|].
  cbn [length] in Hl. rewrite length_fmap. unfold MAX_SEQ_DIGITS.
  assert (10 ^ Z.of_nat (length rest) < 10 ^ 15) as H%Z.pow_lt_mono_r_iff; [|lia..].
  replace (Z.of_nat (length rest)) with (Z.of_nat (S (length rest)) - 1) by lia. lia.
Qed.

(** A matched number is the printed form of its value. *)
Lemma seqPattern_canonical ds :
  seqPattern ds = true ->
  Z.of_nat (Z.to_nat (decimal (toText ds))) < 10 ^ 15 /\ ds = js (pretty (Z.to_nat (decimal (toText ds)))).
Proof.
  destruct ds as [|d rest]; [done|]. unfold seqPattern. rewrite orb_true_iff, !andb_true_iff, !bool_decide_eq_true.
  intros [->|[[Hd Hr] Hl]]; [by split|]. assert (allDigits (d :: rest) = true) as Ha.
  { apply allDigits_Forall. constructor; [lia|]. by apply allDigits_Forall. }
  pose proof (digits_toText _ Ha) as Hok. set (n := Z.to_nat _).
  assert (canonical (toText (d :: rest))) as Hc.
  { split; [done|]. eexists _, _. split; [done|]. unfold code. rewrite Ascii.N_ascii_embedding by lia. lia. }
  pose proof (canonical_length _ Hc) as [Hlo Hhi].
  assert (length (toText (d :: rest)) = S (length rest)) as Hlen by (unfold toText; by rewrite length_fmap).
  rewrite Hlen in Hlo, Hhi.
  unfold MAX_SEQ_DIGITS in Hl. pose proof (decimal_bound _ Hok) as [Hnn _].
  assert (10 ^ Z.of_nat (S (length rest)) <= 10 ^ 15) by (apply Z.pow_le_mono_r; lia).
  assert (0 < 10 ^ (Z.of_nat (S (length rest)) - 1)) by (apply Z.pow_pos_nonneg; lia).
  assert (Z.of_nat n = decimal (toText (d :: rest))) as Hn by (subst n; lia). split; [lia|].
  assert (n <> 0%nat) as Hz by lia. unfold js. rewrite <-(canonical_inj _ _ Hc (pretty_canonical n Hz)).
  - rewrite js_toText; [done|]. apply allDigits_Forall in Ha. eapply Forall_impl; [exact Ha|]. intros c Hcc. cbn beta in Hcc. lia.
  - rewrite (proj2 (pretty_nat_decimal n)). done.
Qed.

Lemma match_issued epoch seq :
  epochPattern epoch = true -> Z.of_nat seq < 10 ^ 15 ->
  matchCursor (formatCursor epoch seq) = Some {| cu_epoch := epoch; cu_seq := seq |}.
Proof.
  intros He Hn. unfold matchCursor, formatCursor. assert (length epoch = 32%nat) as Hlen.
  { unfold epochPattern in He. apply andb_true_iff in He as [?%bool_decide_eq_true _]. done. }
  rewrite take_app_le, take_ge by lia. rewrite drop_app_length' by done. simpl. rewrite He, (seqPattern_pretty _ Hn). simpl.
  rewrite toText_js, (proj2 (pretty_nat_decimal seq)). by rewrite Nat2Z.id.
Qed.

(** A cursor means what it was issued as, and nothing else means it.
    [parseCursor] accepts a text exactly when, trimmed, it is what
    [formatCursor] prints for an epoch of 32 lower-case hexadecimal digits and a
    position below [10^15], and it answers that epoch and that position. *)
Theorem cursor_roundtrip raw epoch seq :
  parseCursor (Some raw) = Some {| cu_epoch := epoch; cu_seq := seq |} <->
  trimText raw = formatCursor epoch seq /\ epochPattern epoch = true /\ Z.of_nat seq < 10 ^ 15.
Proof.
  unfold parseCursor. set (t := trimText raw). clearbody t. split; [|by intros (-> & ? & ?); apply match_issued].
  unfold matchCursor. destruct (drop 32 t) as [|c digits] eqn:Hd; [done|].
  destruct (_ && seqPattern digits) eqn:Hp; [|done]. apply andb_true_iff in Hp as [[->%bool_decide_eq_true He]%andb_true_iff Hs].
  intros [= <- <-]. destruct (seqPattern_canonical _ Hs) as [Hlt Hj]. split; [|by split].
  unfold formatCursor. rewrite <-Hj. rewrite <-(take_drop 32 t) at 1. by rewrite Hd.
Qed.

Lemma formatCursor_trim epoch seq : epochPattern epoch = true -> trimText (formatCursor epoch seq) = formatCursor epoch seq.
Proof.
  unfold epochPattern. intros [_ He]%andb_true_iff. apply trimText_none. unfold formatCursor. apply Forall_app_2; [|apply Forall_app_2].
  - rewrite forallb_forall in He. apply Forall_forall. intros c Hc%list_elem_of_In%He. unfold isLowerHex, isDigitUnit in Hc.
    apply orb_true_iff in Hc as [Hc|Hc]; apply bool_decide_eq_true in Hc; [by apply digit_not_whitespace|].
    unfold isWhitespace. rewrite !orb_false_iff, !bool_decide_eq_false.
    split_and!; [lia|lia|]. rewrite !elem_of_cons, elem_of_nil. lia.
  - by constructor.
  - destruct (pretty_nat_decimal seq) as [Hd _]. apply allDigits_js, allDigits_Forall in Hd.
    eapply Forall_impl; [exact Hd|]. apply digit_not_whitespace.
Qed.

(** A cursor this process printed is read back as the position it was. *)
Lemma parse_issued epoch seq :
  epochPattern epoch = true -> Z.of_nat seq < 10 ^ 15 ->
  parseCursor (Some (formatCursor epoch seq)) = Some {| cu_epoch := epoch; cu_seq := seq |}.
Proof.
  intros He Hn. unfold parseCursor. rewrite formatCursor_trim by done. by apply match_issued.
Qed.

Lemma hub_event_fixed e h : h_epoch (hub_event e h) = h_epoch h /\ h_options (hub_event e h) = h_options h.
Proof.
  destruct e; simpl; [|unfold connect| |unfold hangup|done].
  - unfold onDomainEvent. by case_decide.
  - case_decide; [done|]. simpl. by case_match.
  - done.
  - by repeat case_match.
Qed.

Lemma hub_run_fixed events h : h_epoch (hub_run events h) = h_epoch h /\ h_options (hub_run events h) = h_options h.
Proof.
  revert h. induction events as [|e events IH]; intros h; [done|].
  change (hub_run (e :: events) h) with (hub_run events (hub_event e h)).
  destruct (IH (hub_event e h)) as [-> ->]. apply hub_event_fixed.
Qed.

Section reachable.
Context (options : EventStreamOptions) (epoch : JSText) (h0 : EventStreamHub) (events : list HubEvent).
Hypothesis start : newHub options epoch = inr h0.
Let hub := hub_run events h0.

Lemma hub_epoch : h_epoch hub = epoch /\ h_options hub = options.
Proof.
  subst hub. destruct (hub_run_fixed events h0) as [-> ->]. revert start. unfold newHub. case_match; [done|]. by intros [= <-].
Qed.

Lemma hub_reachable_ok : hub_ok hub (published events).
Proof. apply (hub_run_ok events h0 []). by eapply newHub_ok. Qed.

Lemma hub_stream_ok i s : h_streams hub !! i = Some s -> stream_ok epoch (published events) s /\
  (st_live s = true -> st_cursor s = length (published events)).
Proof.
  intros Hi. pose proof (ho_streams _ _ hub_reachable_ok) as Hs. rewrite Forall_lookup in Hs.
  rewrite <-(proj1 hub_epoch). by eapply Hs.
Qed.


(** An open stream is never behind.  The frames written to a connection that is
    still subscribed carry, in order, exactly the events its account may see of
    all the hub has been told of since the position the stream started from. *)
Theorem stream_never_behind i s :
  h_streams hub !! i = Some s -> st_live s = true ->
  events_of (st_frames s) = shown (st_audience s) (rs_from (st_resume s)) (length (published events)) (published events).
Proof.
  intros Hi Hl. destruct (hub_stream_ok _ _ Hi) as [Hs Hc]. by rewrite <-(Hc Hl), (so_now _ _ _ Hs).
Qed.

(** The verdict on a cursor is exact.  For a position this process printed, the
    hub answers [cursor-ahead] when it has not come that far, [buffer-evicted]
    exactly when more events have gone by since than the replay buffer holds,
    and otherwise resumes from it with every event after it. *)
Theorem stream_resume_exact k :
  epochPattern epoch = true -> Z.of_nat k < 10 ^ 15 ->
  resolveResume (Some (formatCursor epoch k)) hub =
    (if decide (length (published events) < k)%nat
     then {| rs_from := length (published events); rs_backlog := []; rs_gap := Some CursorAhead |}
     else if decide (k + replayBufferSize options < length (published events))%nat
     then {| rs_from := length (published events); rs_backlog := []; rs_gap := Some BufferEvicted |}
     else {| rs_from := k; rs_backlog := drop k (numbered (published events)); rs_gap := None |}).
Proof.
  intros He Hk. pose proof hub_reachable_ok as [Hr Hc Hq _ _ _]. destruct hub_epoch as [Hep Hop]. rewrite Hop in Hc.
  unfold resolveResume. rewrite formatCursor_trim by done. rewrite decide_False by (unfold formatCursor; by intros [_ ?]%app_nil).
  rewrite parse_issued by done. simpl. rewrite decide_False by (by rewrite Hep; intros []). rewrite Hq.
  destruct (decide (length (published events) < k)%nat) as [|Hle]; [done|]. rewrite (oldestSeq_kept _ _ Hr), Hc.
  destruct (decide (published events = [])) as [Hnil|Hne].
  - rewrite (decide_False (P := (k + _ < _)%nat)) by (rewrite Hnil; simpl; lia).
    rewrite (since_kept _ _ _ Hr) by (rewrite Hnil; simpl; lia). done.
  - destruct (decide (Z.of_nat k < _)) as [Hlt|Hge].
    + by rewrite decide_True by lia.
    + rewrite decide_False by lia. rewrite (since_kept _ _ _ Hr) by lia. done.
Qed.

(** A slot is held by every open stream and by nothing else, and there are never
    more of them than configured: whatever opens, hangs up and shuts down, the
    count that admits connections is the number of streams that are subscribed. *)
Theorem stream_slots : h_open hub = live_count (h_streams hub) /\ 0 <= h_open hub <= Z.max 0 (maxConnections options).
Proof.
  pose proof hub_reachable_ok as [_ _ _ _ Ho Hm]. rewrite (proj2 hub_epoch) in Hm.
  pose proof (live_count_nonneg (h_streams hub)). split; [done|lia].
Qed.

End reachable.

(** ** Witnesses *)

Definition demo_epoch : JSText := js "0123456789abcdef0123456789abcdef".
Definition demo_options : EventStreamOptions := {| heartbeatIntervalMs := 15000; replayBufferSize := 2; maxConnections := 2; retryHintMs := 3000 |}.
Definition about (name user id : string) : Envelope := {|
  en_id := js id; en_name := name; en_occurredAt := js "t"; en_correlationId := None;
  en_payload := JObject [("userId"%string, JString (js user))] |}.
Definition member (user : string) : StreamAudience := {| au_id := js user; au_role := js "USER" |}.

(** One user connects, misses two events while away, and comes back with the id
    of the last frame it saw. *)
Definition demo_hub_events : list HubEvent := [
  HubConnect (member "u1") None;
  HubPublish (about "user.registered" "u1" "e1");
  HubPublish (about "user.registered" "u2" "e2");
  HubHeartbeat 0; HubHangup 0;
  HubPublish (about "user.deleted" "u2" "e3");
  HubPublish (about "user.deleted" "u1" "e4");
  HubConnect (member "u1") (Some (formatCursor demo_epoch 2))].

Definition demo_start : EventStreamHub := match newHub demo_options demo_epoch with inr h => h | inl _ => {|
  h_options := demo_options; h_epoch := []; h_buffer := {| rb_capacity := 0; rb_slots := []; rb_appended := 0 |}; h_seq := 0;
  h_open := 0; h_stopping := true; h_streams := [] |} end.
Abbreviation demo_hub := (hub_run demo_hub_events demo_start).

Definition demo_first : list MessageEvent := default [] (st_frames <$> h_streams demo_hub !! 0%nat).
Definition demo_second : list MessageEvent := default [] (st_frames <$> h_streams demo_hub !! 1%nat).


Lemma stream_never_behind_witness :
  exists s, h_streams (hub_run demo_hub_events demo_start) !! 1%nat = Some s /\
    events_of (st_frames s) = shown (st_audience s) (rs_from (st_resume s)) 4 (published demo_hub_events).
Proof.
  destruct (h_streams (hub_run demo_hub_events demo_start) !! 1%nat) as [s|] eqn:H; [|vm_compute in H; discriminate].
  exists s. split; [reflexivity|].
  apply (stream_never_behind demo_options demo_epoch demo_start demo_hub_events ltac:(vm_compute; reflexivity) 1 s H).
  vm_compute in H. injection H as <-. reflexivity.
Defined.

(** Of four events the buffer holds two: position two resumes, position one has
    been evicted. *)
Lemma stream_resume_exact_witness :
  rs_gap (resolveResume (Some (formatCursor demo_epoch 2)) demo_hub) = None /\
  rs_gap (resolveResume (Some (formatCursor demo_epoch 1)) demo_hub) = Some BufferEvicted.
Proof.
  split.
  - rewrite (stream_resume_exact demo_options demo_epoch demo_start demo_hub_events ltac:(vm_compute; reflexivity) 2);
      [vm_compute; reflexivity|vm_compute; reflexivity|lia].
  - rewrite (stream_resume_exact demo_options demo_epoch demo_start demo_hub_events ltac:(vm_compute; reflexivity) 1);
      [vm_compute; reflexivity|vm_compute; reflexivity|lia].
Defined.

Lemma stream_slots_witness : h_open demo_hub = 1 /\ 0 <= h_open demo_hub <= Z.max 0 (maxConnections demo_options).
Proof.
  split; [vm_compute; reflexivity|].
  exact (proj2 (stream_slots demo_options demo_epoch demo_start demo_hub_events ltac:(vm_compute; reflexivity))).
Defined.

(** The visibility rule lets a customer see the events of their own orders, but
    the hub has no subscriber for them: an order's event reaches no stream. *)
Lemma order_events_not_streamed h user id :
  isVisibleTo (about "order.confirmed" user id) (member user) = true /\
  onDomainEvent (about "order.confirmed" user id) h = h.
Proof.
  split; [|done]. unfold isVisibleTo, member. simpl. unfold userIdOf, about. simpl.
  by rewrite !bool_decide_eq_true_2 by (done || (unfold DOMAIN_EVENT_NAMES; set_solver)).
Qed.
