(* ===== verification/Tenancy.v ===== *)
(** * Tenancy: which tenant a request acts for

    [tenancy/tenant.resolver.ts], [tenant-context.ts], [tenant-context.middleware.ts],
    [tenant.guard.ts], [tenancy.env.ts] and [rls-enforcement.service.ts], with
    the claims of an access token ([auth/strategies/jwt.strategy.ts]) and the
    guard before it.  The settings are read and checked, the tenant is resolved
    from the host and the header, put in scope, compared with the token's, and
    the boot check decides whether the database enforces it.  What the database
    then does is [TenantIsolation]. *)

From S2P Require Import Prelude Text.

(** ** Tenant ids *)

Abbreviation TenantId := JSText.

Definition isAlnumLower (c : N) : bool := isDigitUnit c || bool_decide (97 <= c <= 122)%N.

(** [/^[a-z0-9][a-z0-9-]{0,61}[a-z0-9]$/] *)
Definition isTenantId (t : JSText) : bool :=
  bool_decide (2 <= length t <= 63)%nat &&
  forallb (fun c => isAlnumLower c || bool_decide (c = 45%N)) t &&
  match head t, last t with Some a, Some b => isAlnumLower a && isAlnumLower b | _, _ => false end.

Inductive TenantSource := FromHost | FromHeader | FromDefault | Explicit.

#[export] Instance TenantSource_eq : EqDecision TenantSource.
Proof. solve_decision. Defined.

Record TenantContext := { tc_tenantId : TenantId; tc_source : TenantSource }.

#[export] Instance TenantContext_eq : EqDecision TenantContext.
Proof. solve_decision. Defined.

Inductive TenantError :=
  | HostAndHeaderDisagree (fromHost fromHeader : JSText)
  | HeaderRepeated (times : nat)
  | NotATenantId (value : JSText)
  | MissingTenantContextError (what : string)
  | Unauthorized
  | TokenOfAnotherTenant (issuedFor : TenantId) (scope : option TenantId).

(** ** Settings *)

Record TenancyEnv := {
  TENANCY_DEFAULT_TENANT_ID : JSText;
  TENANCY_TRUST_HEADER : bool;
  TENANCY_BASE_DOMAIN : option JSText;
}.

(** A setting as the configuration holds it: the text an operator wrote, or the
    boolean an earlier parse returned. *)
Inductive RawFlag := FlagText (t : JSText) | FlagBool (b : bool).

(** [z.union([z.boolean(), z.enum(["true", "false", "1", "0"])]).default(true)]
    and its transform; [None] is a parse error. *)
Definition parseTrustHeader (raw : option RawFlag) : option bool :=
  match raw with
  | None => Some true
  | Some (FlagBool b) => Some b
  | Some (FlagText t) =>
      if decide (t = js "true" \/ t = js "1") then Some true
      else if decide (t = js "false" \/ t = js "0") then Some false else None
  end.

Definition tenancyEnvFrom (tenant : option JSText) (trust : option RawFlag) (domain : option JSText) : option TenancyEnv :=
  trust ← parseTrustHeader trust;
  Some {| TENANCY_DEFAULT_TENANT_ID := default (js "default") tenant; TENANCY_TRUST_HEADER := trust; TENANCY_BASE_DOMAIN := domain |}.

(** [toLowerCase] of text whose characters are in Latin-1, as every character of
    a header is: Node decodes headers byte by byte. *)
Definition lowerLatin1 (c : N) : N :=
  if decide (65 <= c <= 90 \/ 192 <= c <= 222 /\ c <> 215)%N then (c + 32)%N else c.

Definition toLowerCase (t : JSText) : JSText := lowerLatin1 <$> t.

Inductive TenancyIssue := BadDefaultTenant | BaseDomainSpelling | BaseDomainDots.

Definition dot : N := 46.

Definition refineTenancyEnv (env : TenancyEnv) : list TenancyIssue :=
  (if isTenantId (TENANCY_DEFAULT_TENANT_ID env) then [] else [BadDefaultTenant]) ++
  match TENANCY_BASE_DOMAIN env with
  | None => []
  | Some d =>
      (if decide (d <> toLowerCase d \/ d <> trimText d) then [BaseDomainSpelling] else []) ++
      (if decide (d = [] \/ head d = Some dot \/ last d = Some dot) then [BaseDomainDots] else [])
  end.

(** ** Resolution *)

(** Node hands over a header that was sent once as a string, and one that was
    sent again as an array. *)
Inductive HeaderValue := Once (value : JSText) | Repeated (values : list JSText).

Record TenantRequestHeaders := { th_host : option JSText; th_tenant : option HeaderValue }.

(** The part of [t] before the last [sep], when there is one. *)
Fixpoint before_last (sep : N) (t : JSText) : option JSText :=
  match t with
  | [] => None
  | c :: rest => match before_last sep rest with
                 | Some part => Some (c :: part)
                 | None => if decide (c = sep) then Some [] else None
                 end
  end.

(** [t.slice(0, t.indexOf(sep) + 1)]: empty when [sep] does not occur. *)
Fixpoint through_first (sep : N) (t : JSText) : option JSText :=
  match t with
  | [] => None
  | c :: rest => if decide (c = sep) then Some [c] else cons c <$> through_first sep rest
  end.

Definition stripPort (host : JSText) : JSText :=
  if decide (head host = Some 91%N) then default [] (through_first 93 host)
  else default host (before_last 58 host).

Definition endsWith (t suffix : JSText) : bool := bool_decide (drop (length t - length suffix) t = suffix).

Definition tenantFromHost (host baseDomain : option JSText) : option TenantId :=
  match host, baseDomain with
  | Some host, Some baseDomain =>
      let hostname := toLowerCase (stripPort host) in
      let suffix := dot :: baseDomain in
      if endsWith hostname suffix then
        let label := take (length hostname - length suffix) hostname in
        if bool_decide (dot ∈ label) || negb (isTenantId label) then None else Some label
      else None
  | _, _ => None
  end.

Definition tenantFromHeader (value : option HeaderValue) : TenantError + option TenantId :=
  match value with
  | None => inr None
  | Some (Repeated values) => inl (HeaderRepeated (length values))
  | Some (Once value) =>
      let trimmed := trimText value in
      if decide (trimmed = []) then inr None
      else if isTenantId trimmed then inr (Some trimmed) else inl (NotATenantId trimmed)
  end.

Definition resolveTenant (headers : TenantRequestHeaders) (env : TenancyEnv) : TenantError + TenantContext :=
  let fromHost := tenantFromHost (th_host headers) (TENANCY_BASE_DOMAIN env) in
  match (if TENANCY_TRUST_HEADER env then tenantFromHeader (th_tenant headers) else inr None) with
  | inl e => inl e
  | inr fromHeader =>
      match fromHost, fromHeader with
      | Some h, Some x =>
          if decide (h = x) then inr {| tc_tenantId := h; tc_source := FromHost |} else inl (HostAndHeaderDisagree h x)
      | Some h, None => inr {| tc_tenantId := h; tc_source := FromHost |}
      | None, Some x => inr {| tc_tenantId := x; tc_source := FromHeader |}
      | None, None => inr {| tc_tenantId := TENANCY_DEFAULT_TENANT_ID env; tc_source := FromDefault |}
      end
  end.

(** ** The tenant in scope

    An [AsyncLocalStorage] as a state: [run] and [exit] put the previous value
    back when the work returns or throws, [enterWith] leaves its value. *)

Abbreviation Scope := (option TenantContext).
Definition Scoped (A : Type) : Type := Scope -> (TenantError + A) * Scope.

Definition sret {A} (a : A) : Scoped A := fun s => (inr a, s).
Definition sthrow {A} (e : TenantError) : Scoped A := fun s => (inl e, s).
Definition sbind {A B} (m : Scoped A) (f : A -> Scoped B) : Scoped B :=
  fun s => match m s with (inl e, s') => (inl e, s') | (inr a, s') => f a s' end.

Definition storage_run {A} (value : Scope) (work : Scoped A) : Scoped A := fun s => (fst (work value), s).

Definition currentTenant : Scoped (option TenantContext) := fun s => (inr s, s).
Definition currentTenantId : Scoped (option TenantId) := fun s => (inr (tc_tenantId <$> s), s).

Definition requireTenantId (what : string) : Scoped TenantId :=
  sbind currentTenantId (fun t => match t with Some t => sret t | None => sthrow (MissingTenantContextError what) end).

Definition explicit (t : TenantId) : TenantContext := {| tc_tenantId := t; tc_source := Explicit |}.

Definition runInTenant {A} (t : TenantId) (work : Scoped A) : Scoped A :=
  if isTenantId t then storage_run (Some (explicit t)) work else sthrow (NotATenantId t).

Definition outsideAnyTenant {A} (work : Scoped A) : Scoped A := storage_run None work.

Definition enterTenant (t : TenantId) : Scoped unit :=
  fun s => if isTenantId t then (inr tt, Some (explicit t)) else (inl (NotATenantId t), s).

Definition runInTenantContext {A} (context : TenantContext) (work : Scoped A) : Scoped A := storage_run (Some context) work.

(** ** From a request to a scope *)

(** What the middleware leaves: a failure on the request, or a scope around
    everything behind it. *)
Definition tenantContextMiddleware (env : TenancyEnv) (headers : TenantRequestHeaders) : option TenantError * Scope :=
  match resolveTenant headers env with inl e => (Some e, None) | inr context => (None, Some context) end.

Record JwtPayload := { jp_sub : JSText; jp_email : JSText; jp_role : JSText; jp_tid : option JSText }.
Record AuthenticatedUser := { us_id : JSText; us_email : JSText; us_role : JSText; us_tenantId : TenantId }.

Definition validate (payload : JwtPayload) : option AuthenticatedUser :=
  match jp_tid payload with
  | Some t =>
      if isTenantId t
      then Some {| us_id := jp_sub payload; us_email := jp_email payload; us_role := jp_role payload; us_tenantId := t |}
      else None
  | None => None
  end.

(** A route is public, or its request carries the verified claims of a token;
    one with no valid token has none. *)
Inductive Credentials := PublicRoute | Bearer (claims : option JwtPayload).

(** [JwtAuthGuard.canActivate] and [handleRequest] *)
Definition jwtAuthGuard (credentials : Credentials) : TenantError + option AuthenticatedUser :=
  match credentials with
  | PublicRoute => inr None
  | Bearer claims => match claims ≫= validate with Some user => inr (Some user) | None => inl Unauthorized end
  end.

(** [TenantGuard.canActivate] on an HTTP request. *)
Definition tenantGuard (failure : option TenantError) (user : option AuthenticatedUser) : Scoped unit :=
  match failure with
  | Some e => sthrow e
  | None =>
      match user with
      | None => sret tt
      | Some user =>
          sbind currentTenantId (fun scope =>
            if decide (Some (us_tenantId user) = scope) then sret tt
            else sthrow (TokenOfAnotherTenant (us_tenantId user) scope))
      end
  end.

(** The middleware around the two guards, in the order [AppModule] lists them,
    around the handler. *)
Definition serve {A} (env : TenancyEnv) (headers : TenantRequestHeaders) (credentials : Credentials) (handler : Scoped A) : Scoped A :=
  let (failure, context) := tenantContextMiddleware env headers in
  let guarded : Scoped A := match jwtAuthGuard credentials with
                            | inl e => sthrow e
                            | inr user => sbind (tenantGuard failure user) (fun _ => handler)
                            end in
  match context with Some context => runInTenantContext context guarded | None => guarded end.

(** [AuthService.issueTokens]: the claims of the token it signs. *)
Definition issuedClaims (sub email role : JSText) : Scoped JwtPayload :=
  sbind (requireTenantId "AuthService.issueTokens") (fun t =>
    sret {| jp_sub := sub; jp_email := email; jp_role := role; jp_tid := Some t |}).

(** ** Is it enforced? *)

Inductive Table := Orders | Tenants | Users.

#[export] Instance Table_eq : EqDecision Table.
Proof. solve_decision. Defined.

#[export] Instance Table_countable : Countable Table.
Proof.
  refine (inj_countable' (fun t => match t with Orders => 0 | Tenants => 1 | Users => 2 end)%N
            (fun n => match n with 0 => Orders | 1 => Tenants | _ => Users end)%N _).
  by intros [].
Defined.

Definition TENANT_SCOPED_TABLES : list Table := [Orders; Tenants; Users].

(** What the catalogue says of the connected role and of each table. *)
Record PolicyRow := { pr_enabled : bool; pr_forced : bool; pr_owned : bool }.
Record Catalog := { ct_role : string; ct_super : bool; ct_bypassrls : bool; ct_policies : gmap Table PolicyRow }.

Record RlsReport := { rr_role : string; rr_bypassesPolicies : bool; rr_unprotectedTables : list Table }.

Definition protectedTable (c : Catalog) (t : Table) : bool :=
  match ct_policies c !! t with Some row => pr_enabled row && pr_forced row | None => false end.

Definition inspect (c : Catalog) : RlsReport :=
  {| rr_role := ct_role c; rr_bypassesPolicies := ct_super c || ct_bypassrls c;
     rr_unprotectedTables := List.filter (fun t => negb (protectedTable c t)) TENANT_SCOPED_TABLES |}.

Inductive NodeEnv := Production | TestEnv | OtherEnv.

(** Whether the process starts; [catalog] is [None] when the query failed. *)
Definition onApplicationBootstrap (nodeEnv : NodeEnv) (catalog : option Catalog) : bool :=
  match nodeEnv with
  | TestEnv => true
  | _ =>
      let production := match nodeEnv with Production => true | _ => false end in
      match inspect <$> catalog with
      | None => negb production
      | Some report =>
          (negb (rr_bypassesPolicies report) && bool_decide (rr_unprotectedTables report = [])) || negb production
      end
  end.

(** Row-level security as Postgres applies it: not to a superuser or a role with
    [BYPASSRLS], and to an owner only where it is forced. *)
Definition enforced (c : Catalog) (t : Table) : bool :=
  negb (ct_super c) && negb (ct_bypassrls c) &&
  match ct_policies c !! t with
  | Some row => pr_enabled row && (pr_forced row || negb (pr_owned row))
  | None => false
  end.

(** ** Lemmas *)

Lemma refine_default env : refineTenancyEnv env = [] -> isTenantId (TENANCY_DEFAULT_TENANT_ID env) = true.
Proof. unfold refineTenancyEnv. by destruct (isTenantId _). Qed.

Lemma endsWith_spec t suffix : endsWith t suffix = true <-> exists prefix, t = prefix ++ suffix.
Proof.
  unfold endsWith. rewrite bool_decide_eq_true. split.
  - intros H. exists (take (length t - length suffix) t). rewrite <-(take_drop (length t - length suffix) t) at 1. by rewrite H.
  - intros [prefix ->]. rewrite length_app, drop_app_length'; [done|lia].
Qed.

Lemma tenantFromHost_spec host d t :
  tenantFromHost host (Some d) = Some t <->
  exists h, host = Some h /\ toLowerCase (stripPort h) = t ++ dot :: d /\ isTenantId t = true.
Proof.
  unfold tenantFromHost. destruct host as [h|]; [|split; [done|by intros (? & ? & _)]].
  split.
  - destruct (endsWith _ _) eqn:He; [|done]. apply endsWith_spec in He as [prefix He]. rewrite He.
    rewrite length_app, take_app_length' by lia.
    destruct (bool_decide _); [done|]. destruct (isTenantId prefix) eqn:Ht; [|done]. intros [= <-]. eauto.
  - intros (h' & [= <-] & He & Ht). rewrite (proj2 (endsWith_spec _ _)) by eauto.
    rewrite He, length_app, take_app_length' by lia. rewrite Ht, orb_false_r.
    rewrite bool_decide_eq_false_2; [done|].
    intros Hin. unfold isTenantId in Ht. apply andb_true_iff in Ht as [Ht _]. apply andb_true_iff in Ht as [_ Ht].
    rewrite forallb_forall in Ht. specialize (Ht dot (proj1 (list_elem_of_In _ _) Hin)). done.
Qed.

Lemma tenantFromHeader_spec value t :
  tenantFromHeader value = inr (Some t) <-> exists v, value = Some (Once v) /\ trimText v = t /\ isTenantId t = true.
Proof.
  unfold tenantFromHeader. split.
  - destruct value as [[v|vs]|]; try done. case_decide; [done|]. destruct (isTenantId (trimText v)) eqn:E; [|done].
    intros [= <-]. eauto.
  - intros (v & -> & Hv & Ht). rewrite Hv. rewrite decide_False; [by rewrite Ht|]. by intros ->.
Qed.

Lemma booted_enforced catalog t :
  onApplicationBootstrap Production (Some catalog) = true -> enforced catalog t = true.
Proof.
  unfold onApplicationBootstrap, inspect, enforced, TENANT_SCOPED_TABLES. cbn [fmap option_fmap option_map rr_bypassesPolicies rr_unprotectedTables].
  rewrite orb_false_r. intros H. apply andb_true_iff in H as [H1 H2]. rewrite negb_orb in H1. rewrite H1. cbn [andb].
  apply bool_decide_eq_true in H2.
  assert (t ∈ [Orders; Tenants; Users]) as Hin by (destruct t; set_solver).
  assert (protectedTable catalog t = true) as Hp.
  { destruct (protectedTable catalog t) eqn:E; [done|].
    assert (t ∈ @nil Table) as Hn; [|by apply elem_of_nil in Hn]. rewrite <-H2. apply list_elem_of_In, filter_In.
    split; [by apply list_elem_of_In|]. by rewrite E. }
  unfold protectedTable in Hp.
  destruct (ct_policies catalog !! t) as [row|]; [|done]. apply andb_true_iff in Hp as [-> ->]. done.
Qed.

Definition names_nobody (headers : TenantRequestHeaders) (env : TenancyEnv) : Prop :=
  tenantFromHost (th_host headers) (TENANCY_BASE_DOMAIN env) = None /\
  (TENANCY_TRUST_HEADER env = true -> tenantFromHeader (th_tenant headers) = inr None).

(** What a resolved context says of the request it was resolved from. *)
Definition resolved_from (headers : TenantRequestHeaders) (env : TenancyEnv) (c : TenantContext) : Prop :=
  match tc_source c with
  | FromHost => exists h d, th_host headers = Some h /\ TENANCY_BASE_DOMAIN env = Some d /\
                            toLowerCase (stripPort h) = tc_tenantId c ++ dot :: d
  | FromHeader => TENANCY_TRUST_HEADER env = true /\
                  exists v, th_tenant headers = Some (Once v) /\ trimText v = tc_tenantId c
  | FromDefault => tc_tenantId c = TENANCY_DEFAULT_TENANT_ID env /\ names_nobody headers env
  | Explicit => False
  end.

Lemma resolved_is headers env c :
  refineTenancyEnv env = [] -> resolveTenant headers env = inr c ->
  isTenantId (tc_tenantId c) = true /\ resolved_from headers env c.
Proof.
  intros Henv. unfold resolveTenant, resolved_from, names_nobody.
  destruct (TENANCY_BASE_DOMAIN env) as [d|] eqn:Ed.
  2: { assert (tenantFromHost (th_host headers) None = None) as -> by (by destruct (th_host headers)).
       destruct (TENANCY_TRUST_HEADER env) eqn:Et.
       - destruct (tenantFromHeader _) as [e|[x|]] eqn:Ex; [done| |]; intros [= <-].
         + apply tenantFromHeader_spec in Ex as (v & ? & ? & ?). split; [done|]. split; [done|]. by exists v.
         + split; [by apply refine_default|]. by split.
       - intros [= <-]. split; [by apply refine_default|]. by split. }
  destruct (tenantFromHost (th_host headers) (Some d)) as [h|] eqn:Eh.
  - apply tenantFromHost_spec in Eh as (h' & ? & ? & ?).
    destruct (if TENANCY_TRUST_HEADER env then _ else _) as [e|[x|]]; [done| |intros [= <-]; split; [done|]; by exists h', d].
    case_decide; [|done]. intros [= <-]. split; [done|]. by exists h', d.
  - destruct (TENANCY_TRUST_HEADER env) eqn:Et.
    + destruct (tenantFromHeader _) as [e|[x|]] eqn:Ex; [done| |]; intros [= <-].
      * apply tenantFromHeader_spec in Ex as (v & ? & ? & ?). split; [done|]. split; [done|]. by exists v.
      * split; [by apply refine_default|]. by split.
    + intros [= <-]. split; [by apply refine_default|]. by split.
Qed.

Lemma serve_scope {A} env headers credentials (handler : Scoped A) s a s' :
  serve env headers credentials handler s = (inr a, s') ->
  exists c, resolveTenant headers env = inr c /\ fst (handler (Some c)) = inr a /\ s' = s /\
            forall claims, credentials = Bearer claims -> exists p, claims = Some p /\ jp_tid p = Some (tc_tenantId c).
Proof.
  unfold serve, tenantContextMiddleware. destruct (resolveTenant headers env) as [e|c].
  - destruct (jwtAuthGuard credentials) as [e'|user]; [done|]. done.
  - unfold runInTenantContext, storage_run. intros [= H <-]. exists c. split; [done|].
    destruct credentials as [|claims]; simpl in H.
    + unfold sbind, sret in H. split_and!; [done|done|by intros].
    + destruct claims as [p|]; [|done]. unfold validate in H. cbn [mbind option_bind] in H.
      destruct (jp_tid p) as [t|] eqn:Et; [|done]. destruct (isTenantId t); [|done].
      unfold sbind, sret, tenantGuard, currentTenantId in H. simpl in H.
      case_decide as Hd; [|done]. split_and!; [done|done|]. intros ? [= <-]. exists p. split; [done|]. by rewrite Et.
Qed.

(** ** Properties *)

(** A request acts for the tenant it names, and for no other.  When the settings
    pass their check and a handler ran, whatever the host and the header
    carried: the tenant in scope is a well-formed id; it is the one label before
    the base domain of the host, or the trimmed header where headers are
    trusted, or the default when neither names anybody; where the route needs a
    token, the token was issued for that very tenant; and the scope ends with
    the request. *)
Theorem request_scope {A} env headers credentials (handler : Scoped A) s a s' :
  refineTenancyEnv env = [] ->
  serve env headers credentials handler s = (inr a, s') ->
  s' = s /\
  exists c, fst (handler (Some c)) = inr a /\ isTenantId (tc_tenantId c) = true /\ resolved_from headers env c /\
    forall claims, credentials = Bearer claims -> exists p, claims = Some p /\ jp_tid p = Some (tc_tenantId c).
Proof.
  intros Henv H. apply serve_scope in H as (c & Hc & Hh & Hs & Hcl). split; [done|].
  destruct (resolved_is _ _ _ Henv Hc). by exists c.
Qed.

Definition sample_tenancy : TenancyEnv :=
  {| TENANCY_DEFAULT_TENANT_ID := js "default"; TENANCY_TRUST_HEADER := true; TENANCY_BASE_DOMAIN := Some (js "api.example.com") |}.

Definition acme_headers : TenantRequestHeaders :=
  {| th_host := Some (js "Acme.api.example.com:4000"); th_tenant := Some (Once (js " acme ")) |}.

Definition acme_token : JwtPayload :=
  {| jp_sub := js "u1"; jp_email := js "ann@example.com"; jp_role := js "USER"; jp_tid := Some (js "acme") |}.

Lemma request_scope_witness :
  serve sample_tenancy acme_headers (Bearer (Some acme_token)) (requireTenantId "handler") None = (inr (js "acme"), None) /\
  exists c, fst (requireTenantId "handler" (Some c)) = inr (js "acme") /\ isTenantId (tc_tenantId c) = true.
Proof.
  split; [by vm_compute|].
  destruct (request_scope sample_tenancy acme_headers (Bearer (Some acme_token)) (requireTenantId "handler") None (js "acme") None)
    as (_ & c & Hc & Ht & _); [by vm_compute|by vm_compute|]. by exists c.
Defined.

(** A comment of the resolver says that the label [www] and an upper-case label
    name nobody.  Both name a tenant: [www] is a well-formed id, and the host is
    lower-cased before its label is looked at. *)
Example www_names_a_tenant :
  tenantFromHost (Some (js "www.api.example.com")) (Some (js "api.example.com")) = Some (js "www") /\
  tenantFromHost (Some (js "ACME.api.example.com")) (Some (js "api.example.com")) = Some (js "acme").
Proof. by vm_compute. Qed.
