(* ===== verification/Realtime.v ===== *)
(** * Realtime: the WebSocket gateway

    [realtime/backpressured-socket.ts], [realtime/rooms.ts],
    [realtime/connection-registry.ts], [realtime/realtime-frames.ts],
    [realtime/close-codes.ts], [realtime/handshake.ts] and
    [realtime/realtime.gateway.ts].  A connection is an object the registry, the
    rooms and the socket's listeners share: the model keeps a heap of them, by socket. *)

From S2P Require Import Prelude Text Json Outbox Consumer Streaming Tenancy.

(** ** Frames and close codes *)

Inductive RealtimeErrorCode := MalformedPayload | UnknownRoom | ForbiddenRoom | RoomLimitExceeded.

Abbreviation RoomName := JSText.

Inductive RealtimeFrame :=
  | WelcomeFrame (connectionId : string) (userId role : JSText) (rooms : list RoomName)
      (heartbeatIntervalMs : Z) (maxRooms : nat) (sendHighWaterMarkBytes : Z)
  | SubscribedFrame (rooms allRooms : list RoomName)
  | UnsubscribedFrame (rooms allRooms : list RoomName)
  | LaggedFrame (dropped : Z) (since : JSText)
  | ErrorFrame (code : RealtimeErrorCode) (message : JSText) (room : option JSText)
  | ShutdownFrame
  | DomainEventFrame (event : Envelope).

Definition GOING_AWAY : Z := 1001.
Definition UNAUTHENTICATED : Z := 4401.
Definition FORBIDDEN : Z := 4403.
Definition SLOW_CONSUMER : Z := 4408.
Definition AT_CAPACITY : Z := 4429.

(** ** The send side of one connection *)

Definition SOCKET_OPEN : Z := 1.

(** [ws.WebSocket] as far as it is used: its state, the bytes queued and not
    flushed, what was handed to [send], the pings, what it was closed with, and
    the bytes of the ping, pong and close frames it has written. *)
Record Socket := {
  sk_readyState : Z; sk_bufferedAmount : Z; sk_sent : list RealtimeFrame; sk_pings : nat; sk_close : option (Z * JSText);
  sk_protocol : Z }.

Definition newSocket : Socket := {| sk_readyState := SOCKET_OPEN; sk_bufferedAmount := 0; sk_sent := []; sk_pings := 0; sk_close := None; sk_protocol := 0 |}.

Record BackpressureOptions := { highWaterMarkBytes : Z; graceMs : Z }.

Record BackpressuredSocket := {
  bp_socket : Socket; bp_options : BackpressureOptions; bp_laggingSince : option Z;
  bp_droppedWhileLagging : Z; bp_droppedTotal : Z }.

Inductive SendOutcome := Sent | Dropped | Closed.

Section socket.

(** [toISOString] of an instant, and the bytes a frame's JSON takes. *)
Context (toISOString : Z -> JSText) (size : RealtimeFrame -> Z).

Definition newWriter (socket : Socket) (options : BackpressureOptions) : BackpressuredSocket := {|
  bp_socket := socket; bp_options := options; bp_laggingSince := None; bp_droppedWhileLagging := 0; bp_droppedTotal := 0 |}.

Definition lowWaterMarkBytes (w : BackpressuredSocket) : Z := highWaterMarkBytes (bp_options w) / 2.

Definition isOpen (w : BackpressuredSocket) : bool := bool_decide (sk_readyState (bp_socket w) = SOCKET_OPEN).

Definition with_socket (f : Socket -> Socket) (w : BackpressuredSocket) : BackpressuredSocket := {|
  bp_socket := f (bp_socket w); bp_options := bp_options w; bp_laggingSince := bp_laggingSince w;
  bp_droppedWhileLagging := bp_droppedWhileLagging w; bp_droppedTotal := bp_droppedTotal w |}.

Definition with_lag (since : option Z) (dropped : Z) (w : BackpressuredSocket) : BackpressuredSocket := {|
  bp_socket := bp_socket w; bp_options := bp_options w; bp_laggingSince := since;
  bp_droppedWhileLagging := dropped; bp_droppedTotal := bp_droppedTotal w |}.

Definition socket_send (frame : RealtimeFrame) (s : Socket) : Socket := {|
  sk_readyState := sk_readyState s; sk_bufferedAmount := sk_bufferedAmount s + size frame;
  sk_sent := sk_sent s ++ [frame]; sk_pings := sk_pings s; sk_close := sk_close s; sk_protocol := sk_protocol s |}.

(** The socket writes a protocol frame of so many bytes. *)
Definition protocol_frame (bytes : Z) (s : Socket) : Socket := {|
  sk_readyState := sk_readyState s; sk_bufferedAmount := sk_bufferedAmount s + bytes; sk_sent := sk_sent s; sk_pings := sk_pings s;
  sk_close := sk_close s; sk_protocol := sk_protocol s + bytes |}.

(** [close] begins the handshake with a frame: a header and a code of two bytes
    each, and the reason.  The socket is [CLOSING]. *)
Definition socket_close (code : Z) (reason : JSText) (s : Socket) : Socket :=
  let s := protocol_frame (4 + Z.of_nat (length reason)) s in {|
  sk_readyState := 2; sk_bufferedAmount := sk_bufferedAmount s; sk_sent := sk_sent s; sk_pings := sk_pings s;
  sk_close := Some (code, reason); sk_protocol := sk_protocol s |}.

Definition socket_terminate (s : Socket) : Socket := {|
  sk_readyState := 3; sk_bufferedAmount := sk_bufferedAmount s; sk_sent := sk_sent s; sk_pings := sk_pings s; sk_close := sk_close s;
  sk_protocol := sk_protocol s |}.

(** A ping without a payload is its header. *)
Definition socket_ping (s : Socket) : Socket :=
  let s := protocol_frame 2 s in {|
  sk_readyState := sk_readyState s; sk_bufferedAmount := sk_bufferedAmount s; sk_sent := sk_sent s; sk_pings := S (sk_pings s);
  sk_close := sk_close s; sk_protocol := sk_protocol s |}.

Definition bp_write (frame : RealtimeFrame) (w : BackpressuredSocket) : BackpressuredSocket := with_socket (socket_send frame) w.

Definition closeSlow (w : BackpressuredSocket) : BackpressuredSocket :=
  with_lag None (bp_droppedWhileLagging w)
    (with_socket (socket_close SLOW_CONSUMER (js ("slow consumer: " +:+ pretty (bp_droppedWhileLagging w) +:+ " frames dropped"))) w).

Definition recover (w : BackpressuredSocket) : BackpressuredSocket :=
  match bp_laggingSince w with
  | Some since => bp_write (LaggedFrame (bp_droppedWhileLagging w) (toISOString since)) (with_lag None 0 w)
  | None => with_lag None 0 w
  end.

Definition expired (now : Z) (w : BackpressuredSocket) : bool :=
  match bp_laggingSince w with
  | Some since => bool_decide (graceMs (bp_options w) <= now - since)
  | None => false
  end.

Definition stayLagging (now : Z) (w : BackpressuredSocket) : SendOutcome * BackpressuredSocket :=
  let w := {| bp_socket := bp_socket w; bp_options := bp_options w; bp_laggingSince := bp_laggingSince w;
              bp_droppedWhileLagging := bp_droppedWhileLagging w + 1; bp_droppedTotal := bp_droppedTotal w + 1 |} in
  if expired now w then (Closed, closeSlow w) else (Dropped, w).

Definition bp_send (now : Z) (frame : RealtimeFrame) (w : BackpressuredSocket) : SendOutcome * BackpressuredSocket :=
  if negb (isOpen w) then (Closed, w)
  else match bp_laggingSince w with
  | Some _ =>
      if decide (sk_bufferedAmount (bp_socket w) > lowWaterMarkBytes w) then stayLagging now w
      else (Sent, bp_write frame (recover w))
  | None =>
      if decide (sk_bufferedAmount (bp_socket w) > highWaterMarkBytes (bp_options w))
      then stayLagging now (with_lag (Some now) 0 w)
      else (Sent, bp_write frame w)
  end.

Definition review (now : Z) (w : BackpressuredSocket) : BackpressuredSocket :=
  if negb (isOpen w) then w
  else match bp_laggingSince w with
  | None => w
  | Some _ =>
      if expired now w then closeSlow w
      else if decide (sk_bufferedAmount (bp_socket w) <= lowWaterMarkBytes w) then recover w else w
  end.

Definition bp_close (code : Z) (reason : JSText) (w : BackpressuredSocket) : BackpressuredSocket :=
  if isOpen w then with_socket (socket_close code reason) w else w.

Definition bp_ping (w : BackpressuredSocket) : BackpressuredSocket := if isOpen w then with_socket socket_ping w else w.

Definition bp_terminate (w : BackpressuredSocket) : BackpressuredSocket := with_socket socket_terminate w.

Definition sendUnconditionally (frame : RealtimeFrame) (w : BackpressuredSocket) : BackpressuredSocket :=
  if isOpen w then bp_write frame w else w.

(** The kernel takes some of the buffer, or the peer closes. *)
Definition drain (bytes : Z) (w : BackpressuredSocket) : BackpressuredSocket :=
  with_socket (fun s => {| sk_readyState := sk_readyState s; sk_bufferedAmount := Z.max 0 (sk_bufferedAmount s - Z.max 0 bytes);
    sk_sent := sk_sent s; sk_pings := sk_pings s; sk_close := sk_close s; sk_protocol := sk_protocol s |}) w.

(** The peer sends a ping, whose payload is at most 125 bytes: [ws] answers by
    itself with a pong of the same payload. *)
Definition pinged (payload : Z) (w : BackpressuredSocket) : BackpressuredSocket :=
  if isOpen w then with_socket (protocol_frame (2 + Z.max 0 (Z.min 125 payload))) w else w.

(** ** Rooms *)

Definition MAX_USER_ID_LENGTH : nat := 128.

Definition userRoom (userId : JSText) : RoomName := js "user:" ++ userId.
Definition eventRoom (name : string) : RoomName := js "events:" ++ js name.

(** The text before and after the first colon. *)
Fixpoint split_colon (t : JSText) : option (JSText * JSText) :=
  match t with
  | [] => None
  | c :: rest =>
      if decide (c = 58%N) then Some ([], rest)
      else match split_colon rest with Some (a, b) => Some (c :: a, b) | None => None end
  end.

(** [/[\s:,]/] *)
Definition forbiddenInId (c : N) : bool := isWhitespace c || bool_decide (c = 58%N) || bool_decide (c = 44%N).

Definition parseRoom (raw : JsonValue) : option RoomName :=
  match raw with
  | JString raw =>
      match split_colon raw with
      | None => None
      | Some (prefix, rest) =>
          if decide (prefix = js "user") then
            if decide (rest = [] \/ (MAX_USER_ID_LENGTH < length rest)%nat) then None
            else if existsb forbiddenInId rest then None
            else Some (userRoom rest)
          else if decide (prefix = js "events") then
            match find_name rest DOMAIN_EVENT_NAMES with Some name => Some (eventRoom name) | None => None end
          else None
      end
  | _ => None
  end.

Definition roomsFor (event : Envelope) : list RoomName :=
  if decide (en_name event ∈ DOMAIN_EVENT_NAMES)
  then [userRoom (default (js "undefined") (userIdOf (en_payload event))); eventRoom (en_name event)]
  else [].

Definition canJoin (audience : StreamAudience) (room : RoomName) : bool :=
  if decide (au_role audience = ADMIN) then true else bool_decide (room = userRoom (au_id audience)).

Definition defaultRoomsFor (audience : StreamAudience) : list RoomName := [userRoom (au_id audience)].

(** ** The registry *)

Record RealtimeConnection := {
  cn_id : string; cn_audience : StreamAudience; cn_writer : BackpressuredSocket; cn_rooms : list RoomName; cn_awaitingPong : bool }.

(** A socket is its number, and names the connection object made for it. *)
Record Gateway := {
  g_heap : gmap nat RealtimeConnection; g_bySocket : list nat; g_byRoom : gmap RoomName (list nat) }.

Definition with_writer (f : BackpressuredSocket -> BackpressuredSocket) (c : RealtimeConnection) : RealtimeConnection := {|
  cn_id := cn_id c; cn_audience := cn_audience c; cn_writer := f (cn_writer c); cn_rooms := cn_rooms c; cn_awaitingPong := cn_awaitingPong c |}.
Definition with_rooms (rooms : list RoomName) (c : RealtimeConnection) : RealtimeConnection := {|
  cn_id := cn_id c; cn_audience := cn_audience c; cn_writer := cn_writer c; cn_rooms := rooms; cn_awaitingPong := cn_awaitingPong c |}.
Definition with_pong (b : bool) (c : RealtimeConnection) : RealtimeConnection := {|
  cn_id := cn_id c; cn_audience := cn_audience c; cn_writer := cn_writer c; cn_rooms := cn_rooms c; cn_awaitingPong := b |}.

Definition on_heap (socket : nat) (f : RealtimeConnection -> RealtimeConnection) (g : Gateway) : Gateway := {|
  g_heap := alter f socket (g_heap g); g_bySocket := g_bySocket g; g_byRoom := g_byRoom g |}.

Definition add_member (socket : nat) (members : list nat) : list nat :=
  if decide (socket ∈ members) then members else members ++ [socket].

Definition index (room : RoomName) (socket : nat) (g : Gateway) : Gateway := {|
  g_heap := g_heap g; g_bySocket := g_bySocket g;
  g_byRoom := <[room := match g_byRoom g !! room with Some members => add_member socket members | None => [socket] end]> (g_byRoom g) |}.

Definition deindex (room : RoomName) (socket : nat) (g : Gateway) : Gateway := {|
  g_heap := g_heap g; g_bySocket := g_bySocket g;
  g_byRoom := match g_byRoom g !! room with
    | None => g_byRoom g
    | Some members =>
        let members := filter (fun s => s <> socket) members in
        if decide (members = []) then delete room (g_byRoom g) else <[room := members]> (g_byRoom g)
    end |}.

Definition add (socket : nat) (connection : RealtimeConnection) (g : Gateway) : Gateway :=
  foldl (fun g room => index room socket g)
    {| g_heap := <[socket := connection]> (g_heap g); g_bySocket := add_member socket (g_bySocket g); g_byRoom := g_byRoom g |}
    (cn_rooms connection).

(** [registry.get]: a connection is found while its socket is registered. *)
Definition get (socket : nat) (g : Gateway) : option RealtimeConnection :=
  if decide (socket ∈ g_bySocket g) then g_heap g !! socket else None.

Definition remove (socket : nat) (g : Gateway) : Gateway :=
  match get socket g with
  | None => g
  | Some connection =>
      on_heap socket (with_rooms [])
        (foldl (fun g room => deindex room socket g)
          {| g_heap := g_heap g; g_bySocket := filter (fun s => s <> socket) (g_bySocket g); g_byRoom := g_byRoom g |}
          (cn_rooms connection))
  end.

Definition rooms_of (socket : nat) (g : Gateway) : list RoomName := default [] (cn_rooms <$> g_heap g !! socket).

Definition join_room (socket : nat) (room : RoomName) (g : Gateway) : bool * Gateway :=
  if decide (room ∈ rooms_of socket g) then (false, g)
  else (true, index room socket (on_heap socket (with_rooms (rooms_of socket g ++ [room])) g)).

Definition leave_room (socket : nat) (room : RoomName) (g : Gateway) : bool * Gateway :=
  if decide (room ∈ rooms_of socket g)
  then (true, deindex room socket (on_heap socket (with_rooms (filter (fun r => r <> room) (rooms_of socket g))) g))
  else (false, g).

Definition membersOf (room : RoomName) (g : Gateway) : list nat := default [] (g_byRoom g !! room).
End socket.

(** ** The handshake *)

Inductive HandshakeRejection := MissingCredentials | MalformedCredentials | TokenInQuery | InvalidToken | UnexpectedClaims.
Inductive CredentialSource := AuthorizationHeader | Subprotocol.

Record HandshakeRequest := { hr_url : option JSText; hr_authorization : option JSText; hr_protocol : option JSText }.

(** [toLowerCase] on the Latin letters; no other character's lower case is one
    of the letters it is compared with. *)
Definition lowerUnit (c : N) : N := if decide (65 <= c <= 90)%N then (c + 32)%N else c.

(** [/^Bearer\s+(\S+)$/i] *)
Definition bearerToken (t : JSText) : option JSText :=
  if decide (lowerUnit <$> take 6 t = js "bearer") then
    let rest := drop 6 t in
    let token := dropWhitespace rest in
    if decide (length token < length rest)%nat then
      if decide (token <> [] /\ forallb (fun c => negb (isWhitespace c)) token = true) then Some token else None
    else None
  else None.

Fixpoint split_comma (t : JSText) : list JSText :=
  match t with
  | [] => [[]]
  | c :: rest =>
      if decide (c = 44%N) then [] :: split_comma rest
      else match split_comma rest with part :: parts => (c :: part) :: parts | [] => [[c]] end
  end.

Definition claim (name : string) (claims : JsonValue) : option JsonValue :=
  match claims with JObject members => (list_to_map (reverse members) : gmap string JsonValue) !! name | _ => None end.

Definition isAccessTokenPayload (claims : JsonValue) : option AuthenticatedUser :=
  match claim "sub" claims, claim "email" claims, claim "role" claims, claim "tid" claims with
  | Some (JString sub), Some (JString email), Some (JString role), Some (JString tid) =>
      if decide (sub <> [] /\ isTenantId tid = true)
      then Some {| us_id := sub; us_email := email; us_role := role; us_tenantId := tid |} else None
  | _, _, _, _ => None
  end.

Definition TOKEN_QUERY_PARAMS : list JSText := js <$> ["token"; "access_token"; "accessToken"; "jwt"; "authorization"]%string.

Section handshake.

(** The parameter names of a URL's query, and [JwtService.verify]. *)
Context (searchParams : JSText -> list JSText) (verify : JSText -> option JsonValue).

Definition hasTokenInQuery (url : option JSText) : bool :=
  match url with
  | None => false
  | Some url => existsb (fun name => bool_decide (name ∈ searchParams url)) TOKEN_QUERY_PARAMS
  end.

Definition readHandshakeCredentials (request : HandshakeRequest) : HandshakeRejection + (JSText * CredentialSource) :=
  match hr_authorization request with
  | Some authorization =>
      match bearerToken (trimText authorization) with
      | Some token => inr (token, AuthorizationHeader)
      | None => inl MalformedCredentials
      end
  | None =>
  match hr_protocol request with
  | Some offered =>
      let parts := filter (fun part => part <> []) (trimText <$> split_comma offered) in
      match parts with
      | [scheme; token] => if decide (lowerUnit <$> scheme = js "bearer") then inr (token, Subprotocol) else inl MalformedCredentials
      | _ => inl MalformedCredentials
      end
  | None => inl (if hasTokenInQuery (hr_url request) then TokenInQuery else MissingCredentials)
  end
  end.

Definition authenticateHandshake (request : HandshakeRequest) : HandshakeRejection + (AuthenticatedUser * CredentialSource) :=
  match readHandshakeCredentials request with
  | inl rejection => inl rejection
  | inr (token, source) =>
      match verify token with
      | None => inl InvalidToken
      | Some claims => match isAccessTokenPayload claims with Some user => inr (user, source) | None => inl UnexpectedClaims end
      end
  end.

Definition closeCodeFor (rejection : HandshakeRejection) : Z :=
  match rejection with UnexpectedClaims => FORBIDDEN | _ => UNAUTHENTICATED end.

End handshake.

(** ** The gateway *)

Record RealtimeOptions := {
  ro_maxConnections : Z; ro_maxRoomsPerConnection : nat; ro_sendHighWaterMarkBytes : Z; ro_slowConsumerGraceMs : Z;
  ro_heartbeatIntervalMs : Z }.

Inductive Intent := Join | Leave.

#[export] Instance Intent_eq_dec : EqDecision Intent.
Proof. solve_decision. Defined.

Section gateway.
Context (toISOString : Z -> JSText) (size : RealtimeFrame -> Z) (options : RealtimeOptions).

Abbreviation send := (bp_send toISOString size).

Definition send_to (now : Z) (socket : nat) (frame : RealtimeFrame) (g : Gateway) : Gateway :=
  on_heap socket (with_writer (fun w => snd (send now frame w))) g.

(** A new socket, with the handshake's verdict: the close code it is refused
    with, or the gateway that holds it. *)
Definition handleConnection (now : Z) (socket : nat) (uuid : string) (handshake : HandshakeRejection + AuthenticatedUser) (g : Gateway) :
    Z + Gateway :=
  match handshake with
  | inl rejection => inl (closeCodeFor rejection)
  | inr user =>
      if decide (ro_maxConnections options <= Z.of_nat (length (g_bySocket g))) then inl AT_CAPACITY
      else
        let audience := {| au_id := us_id user; au_role := us_role user |} in
        let rooms := defaultRoomsFor audience in
        let connection := {| cn_id := uuid; cn_audience := audience;
          cn_writer := newWriter newSocket {| highWaterMarkBytes := ro_sendHighWaterMarkBytes options; graceMs := ro_slowConsumerGraceMs options |};
          cn_rooms := rooms; cn_awaitingPong := false |} in
        inr (send_to now socket (WelcomeFrame uuid (au_id audience) (au_role audience) rooms (ro_heartbeatIntervalMs options)
              (ro_maxRoomsPerConnection options) (ro_sendHighWaterMarkBytes options))
            (add socket connection g))
  end.

Definition handleDisconnect (socket : nat) (g : Gateway) : Gateway := remove socket g.

(** The array of [{ rooms: [...] }]. *)
Definition isRoomRequest (body : JsonValue) : option (list JsonValue) :=
  match claim "rooms" body with Some (JArray rooms) => Some rooms | _ => None end.

Record RoomError := { re_code : RealtimeErrorCode; re_message : JSText; re_room : option JSText }.

Fixpoint read_rooms (audience : StreamAudience) (intent : Intent) (raws : list JsonValue) : RoomError + list RoomName :=
  match raws with
  | [] => inr []
  | raw :: raws =>
      match parseRoom raw with
      | None => inl {| re_code := UnknownRoom; re_message := js "Not a room this build issues. Rooms are `user:<id>` or `events:<event name>`.";
                       re_room := match raw with JString t => Some t | _ => None end |}
      | Some room =>
          if decide (intent = Join /\ canJoin audience room = false)
          then inl {| re_code := ForbiddenRoom; re_message := js "This account may not subscribe to that room."; re_room := Some room |}
          else match read_rooms audience intent raws with inl e => inl e | inr rooms => inr (room :: rooms) end
      end
  end.

Definition parseRooms (connection : RealtimeConnection) (body : JsonValue) (intent : Intent) : RoomError + list RoomName :=
  let max := ro_maxRoomsPerConnection options in
  match isRoomRequest body with
  | None => inl {| re_code := MalformedPayload;
      re_message := js ("Expected { " +:+ dq +:+ "rooms" +:+ dq +:+ ": [" +:+ dq +:+ "<room>" +:+ dq +:+ ", ") ++ ellipsis ++
        js ("] } with between 1 and " +:+ pretty max +:+ " room names."); re_room := None |}
  | Some raws =>
      if decide (raws = [] \/ (max < length raws)%nat)
      then inl {| re_code := if decide (raws = []) then MalformedPayload else RoomLimitExceeded;
                  re_message := js ("A room frame carries between 1 and " +:+ pretty max +:+ " names."); re_room := None |}
      else match read_rooms (cn_audience connection) intent raws with
      | inl e => inl e
      | inr rooms =>
          if decide (intent = Join /\ (max < length (remove_dups (cn_rooms connection ++ rooms)))%nat)
          then inl {| re_code := RoomLimitExceeded; re_message := js ("A connection may hold at most " +:+ pretty max +:+ " rooms."); re_room := None |}
          else inr rooms
      end
  end.

(** [parsed.rooms.filter((room) => this.registry.join(connection, room))] *)
Fixpoint filter_rooms (change : nat -> RoomName -> Gateway -> bool * Gateway) (socket : nat) (rooms : list RoomName) (g : Gateway) :
    list RoomName * Gateway :=
  match rooms with
  | [] => ([], g)
  | room :: rooms =>
      let '(changed, g) := change socket room g in
      let '(kept, g) := filter_rooms change socket rooms g in
      (if changed then room :: kept else kept, g)
  end.

Definition handleSubscribe (now : Z) (socket : nat) (body : JsonValue) (g : Gateway) : Gateway :=
  match get socket g with
  | None => g
  | Some connection =>
      match parseRooms connection body Join with
      | inl e => send_to now socket (ErrorFrame (re_code e) (re_message e) (re_room e)) g
      | inr rooms =>
          let '(joined, g) := filter_rooms join_room socket rooms g in
          send_to now socket (SubscribedFrame joined (rooms_of socket g)) g
      end
  end.

Definition handleUnsubscribe (now : Z) (socket : nat) (body : JsonValue) (g : Gateway) : Gateway :=
  match get socket g with
  | None => g
  | Some connection =>
      match parseRooms connection body Leave with
      | inl e => send_to now socket (ErrorFrame (re_code e) (re_message e) (re_room e)) g
      | inr rooms =>
          let '(gone, g) := filter_rooms leave_room socket rooms g in
          send_to now socket (UnsubscribedFrame gone (rooms_of socket g)) g
      end
  end.

(** The inner loop over one room's members, and the loop over the rooms. *)
Fixpoint offer (now : Z) (event : Envelope) (members : list nat) (considered : list nat) (g : Gateway) : list nat * Gateway :=
  match members with
  | [] => (considered, g)
  | socket :: members =>
      if decide (socket ∈ considered) then offer now event members considered g
      else
        let g := match g_heap g !! socket with
          | Some connection => if isVisibleTo event (cn_audience connection) then send_to now socket (DomainEventFrame event) g else g
          | None => g
          end in
        offer now event members (socket :: considered) g
  end.

Fixpoint offer_rooms (now : Z) (event : Envelope) (rooms : list RoomName) (considered : list nat) (g : Gateway) : list nat * Gateway :=
  match rooms with
  | [] => (considered, g)
  | room :: rooms =>
      let '(considered, g) := offer now event (membersOf room g) considered g in
      offer_rooms now event rooms considered g
  end.

Definition broadcast (now : Z) (event : Envelope) (g : Gateway) : Gateway :=
  snd (offer_rooms now event (roomsFor event) [] g).

(** The five [@OnDomainEvent] methods cover the catalogue. *)
Definition gateway_onDomainEvent (now : Z) (event : Envelope) (g : Gateway) : Gateway :=
  if decide (en_name event ∈ DOMAIN_EVENT_NAMES) then broadcast now event g else g.

Definition sweep_one (now : Z) (c : RealtimeConnection) : RealtimeConnection :=
  let c := with_writer (review toISOString size now) c in
  if negb (isOpen (cn_writer c)) then c
  else if cn_awaitingPong c then with_writer bp_terminate c
  else with_writer bp_ping (with_pong true c).

Definition runSweep (now : Z) (g : Gateway) : Gateway :=
  foldl (fun g socket => on_heap socket (sweep_one now) g) g (g_bySocket g).

Definition pong (socket : nat) (g : Gateway) : Gateway := on_heap socket (with_pong false) g.

Definition shutdown_one (c : RealtimeConnection) : RealtimeConnection :=
  with_writer (fun w => bp_close GOING_AWAY (js "server shutting down") (sendUnconditionally size ShutdownFrame w)) c.

Definition beforeApplicationShutdown (g : Gateway) : Gateway :=
  foldl (fun g socket => on_heap socket shutdown_one g) g (g_bySocket g).

(** ** Everything that can happen *)

Inductive GatewayEvent :=
  | GwConnect (socket : nat) (uuid : string) (handshake : HandshakeRejection + AuthenticatedUser)
  | GwDisconnect (socket : nat)
  | GwSubscribe (socket : nat) (body : JsonValue)
  | GwUnsubscribe (socket : nat) (body : JsonValue)
  | GwPublish (event : Envelope)
  | GwSweep
  | GwPong (socket : nat)
  | GwPing (socket : nat) (payload : Z)
  | GwDrain (socket : nat) (bytes : Z)
  | GwShutdown.

(** A socket that has been seen before is not connected again; the clock is read
    at each event. *)
Definition gateway_event (e : Z * GatewayEvent) (g : Gateway) : Gateway :=
  let '(now, e) := e in
  match e with
  | GwConnect socket uuid handshake =>
      match g_heap g !! socket with
      | Some _ => g
      | None => match handleConnection now socket uuid handshake g with inr g => g | inl _ => g end
      end
  | GwDisconnect socket => handleDisconnect socket g
  | GwSubscribe socket body => handleSubscribe now socket body g
  | GwUnsubscribe socket body => handleUnsubscribe now socket body g
  | GwPublish event => gateway_onDomainEvent now event g
  | GwSweep => runSweep now g
  | GwPong socket => pong socket g
  | GwPing socket payload => on_heap socket (with_writer (pinged payload)) g
  | GwDrain socket bytes => on_heap socket (with_writer (drain bytes)) g
  | GwShutdown => beforeApplicationShutdown g
  end.

Definition newGateway : Gateway := {| g_heap := ∅; g_bySocket := []; g_byRoom := ∅ |}.

Definition gateway_run (events : list (Z * GatewayEvent)) (g : Gateway) : Gateway := foldl (fun g e => gateway_event e g) g events.

End gateway.

(** ** The send side *)

(** What the lagged frames a client was sent say it missed. *)
Definition told (frames : list RealtimeFrame) : Z :=
  foldr (fun f acc => match f with LaggedFrame dropped _ => dropped + acc | _ => acc end) 0 frames.

Lemma told_snoc frames f : told (frames ++ [f]) = told frames + told [f].
Proof. induction frames as [|[] frames IH]; simpl in *; lia. Qed.

(** The frames the gateway itself writes: no lag report, and only events the
    account may see. *)
Definition offerable (audience : StreamAudience) (frame : RealtimeFrame) : Prop :=
  match frame with LaggedFrame _ _ => False | DomainEventFrame e => isVisibleTo e audience = true | _ => True end.

Definition pending_drops (w : BackpressuredSocket) : Z :=
  match bp_laggingSince w with Some _ => bp_droppedWhileLagging w | None => 0 end.

Section writers.
Context (toISOString : Z -> JSText) (size : RealtimeFrame -> Z) (M : Z).
Hypothesis size_bound : forall f, 0 <= size f <= M.

Record writer_ok (audience : StreamAudience) (w : BackpressuredSocket) : Prop := {
  wo_visible e : DomainEventFrame e ∈ sk_sent (bp_socket w) -> isVisibleTo e audience = true;
  wo_told : isOpen w = true -> bp_droppedTotal w = told (sk_sent (bp_socket w)) + pending_drops w;
  wo_high : 0 <= highWaterMarkBytes (bp_options w);
  wo_open : isOpen w = true -> sk_bufferedAmount (bp_socket w) <= highWaterMarkBytes (bp_options w) + 2 * M + sk_protocol (bp_socket w);
  wo_memory : sk_bufferedAmount (bp_socket w) <= highWaterMarkBytes (bp_options w) + 3 * M + sk_protocol (bp_socket w);
  wo_protocol : 0 <= sk_protocol (bp_socket w);
}.

Lemma M_nonneg : 0 <= M.
Proof. pose proof (size_bound ShutdownFrame). lia. Qed.

Lemma newWriter_ok audience options : 0 <= highWaterMarkBytes options -> writer_ok audience (newWriter newSocket options).
Proof.
  pose proof M_nonneg. intros Hh. constructor; simpl; [by intros e ?%elem_of_nil|done|done|lia|lia|done].
Qed.

Lemma closed_ok audience w w' :
  writer_ok audience w -> bp_options w' = bp_options w -> isOpen w' = false ->
  sk_sent (bp_socket w') = sk_sent (bp_socket w) ->
  sk_bufferedAmount (bp_socket w') - sk_bufferedAmount (bp_socket w) = sk_protocol (bp_socket w') - sk_protocol (bp_socket w) ->
  sk_protocol (bp_socket w) <= sk_protocol (bp_socket w') -> writer_ok audience w'.
Proof. intros [Hv Ht Hh Ho Hm Hp] Hopt Hc Hs Hb Hle. constructor; rewrite ?Hopt, ?Hs, ?Hc; done || lia. Qed.

Lemma protocol_frame_ok audience bytes w : 0 <= bytes -> writer_ok audience w -> writer_ok audience (with_socket (protocol_frame bytes) w).
Proof. intros Hb [Hv Ht Hh Ho Hm Hp]. constructor; simpl; [done|done|done| |lia|lia]. intros Hopen. specialize (Ho Hopen). lia. Qed.

(** Writing a frame to an open socket that is at or below the high-water mark. *)
Lemma write_frame_ok audience w f :
  writer_ok audience w -> bp_laggingSince w = None -> offerable audience f ->
  sk_bufferedAmount (bp_socket w) <= highWaterMarkBytes (bp_options w) + M ->
  writer_ok audience (bp_write size f w).
Proof.
  intros [Hv Ht Hh Ho Hm Hp] Hl Hf Hb. pose proof (size_bound f). pose proof M_nonneg. constructor; simpl; [| |done|lia|lia|lia].
  - intros e [He|He%list_elem_of_singleton]%elem_of_app; [by apply Hv|]. by subst f.
  - intros Hopen. unfold pending_drops in *. simpl. rewrite Hl in *. rewrite told_snoc, Ht by done.
    destruct f; [simpl; lia..|done|simpl; lia|simpl; lia|simpl; lia].
Qed.

Lemma recover_ok audience w :
  writer_ok audience w -> isOpen w = true -> sk_bufferedAmount (bp_socket w) <= lowWaterMarkBytes w ->
  writer_ok audience (recover toISOString size w) /\ bp_laggingSince (recover toISOString size w) = None /\
  sk_bufferedAmount (bp_socket (recover toISOString size w)) <= highWaterMarkBytes (bp_options (recover toISOString size w)) + M.
Proof.
  intros [Hv Ht Hh Ho Hm Hp] Hopen Hb. unfold lowWaterMarkBytes in Hb. pose proof M_nonneg.
  assert (highWaterMarkBytes (bp_options w) / 2 <= highWaterMarkBytes (bp_options w)) by (apply Z.div_le_upper_bound; lia).
  unfold recover. specialize (Ht Hopen). unfold pending_drops in Ht. destruct (bp_laggingSince w) as [since|] eqn:Hl.
  - pose proof (size_bound (LaggedFrame (bp_droppedWhileLagging w) (toISOString since))). simpl. split_and!; [|done|lia].
    constructor; simpl; [| |done|lia|lia|lia].
    + intros e [He|He%list_elem_of_singleton]%elem_of_app; [by apply Hv|done].
    + intros _. rewrite told_snoc, Ht. unfold pending_drops. simpl. lia.
  - simpl. split_and!; [|done|lia]. constructor; simpl; [done| |done|done|done|done]. intros _. by rewrite Ht.
Qed.

Lemma stayLagging_ok audience now w :
  writer_ok audience w -> is_Some (bp_laggingSince w) -> writer_ok audience (snd (stayLagging now w)).
Proof.
  intros Hw [since Hl]. unfold stayLagging. case_match; simpl; [eapply closed_ok; simpl; done || lia|].
  destruct Hw as [Hv Ht Hh Ho Hm Hp]. constructor; simpl; [done| |done|done|done|done].
  intros Hopen. unfold pending_drops in *. simpl. rewrite Hl in *. rewrite (Ht Hopen). lia.
Qed.

Lemma bp_send_ok audience now f w :
  writer_ok audience w -> offerable audience f -> writer_ok audience (snd (bp_send toISOString size now f w)).
Proof.
  intros Hw Hf. unfold bp_send. destruct (isOpen w) eqn:Hopen; [|done]. simpl. destruct (bp_laggingSince w) as [since|] eqn:Hl.
  - destruct (decide _) as [|Hb]; [apply stayLagging_ok; [done|by eexists]|]. simpl.
    destruct (recover_ok audience w) as (Hr & Hn & Hle); [done|done|lia|]. by apply write_frame_ok.
  - destruct (decide _) as [|Hb]; simpl.
    + apply stayLagging_ok; [|by eexists]. destruct Hw as [Hv Ht Hh Ho Hm Hp]. constructor; simpl; [done| |done|done|done|done].
      intros _. rewrite (Ht Hopen). unfold pending_drops. simpl. by rewrite Hl.
    + pose proof M_nonneg. apply write_frame_ok; [done|done|done|lia].
Qed.

Lemma review_ok audience now w : writer_ok audience w -> writer_ok audience (review toISOString size now w).
Proof.
  intros Hw. unfold review. destruct (isOpen w) eqn:Hopen; [|done]. simpl. destruct (bp_laggingSince w) as [since|] eqn:Hl; [|done].
  case_match; [eapply closed_ok; simpl; done || lia|]. destruct (decide _); [|done]. by apply recover_ok.
Qed.

Lemma ping_ok audience w : writer_ok audience w -> writer_ok audience (bp_ping w).
Proof. intros Hw. unfold bp_ping. destruct (isOpen w) eqn:Ho; [|done].
  destruct (protocol_frame_ok audience 2 w); [done..|]. by constructor.
Qed.

Lemma pinged_ok audience payload w : writer_ok audience w -> writer_ok audience (pinged payload w).
Proof. intros Hw. unfold pinged. destruct (isOpen w); [|done]. apply protocol_frame_ok; [lia|done]. Qed.

Lemma drain_ok audience bytes w : writer_ok audience w -> writer_ok audience (drain bytes w).
Proof.
  intros [Hv Ht Hh Ho Hm Hp]. pose proof M_nonneg. constructor; simpl; [done|done|done| |lia|done].
  intros Hopen. specialize (Ho Hopen). lia.
Qed.

Lemma farewell_frame_ok audience w :
  writer_ok audience w -> writer_ok audience (bp_close GOING_AWAY (js "server shutting down") (sendUnconditionally size ShutdownFrame w)).
Proof.
  intros Hw. unfold bp_close, sendUnconditionally. destruct (isOpen w) eqn:Hopen; [|by rewrite Hopen]. destruct Hw as [Hv Ht Hh Ho Hm Hp].
  change (isOpen (bp_write size ShutdownFrame w)) with (isOpen w). rewrite Hopen.
  pose proof (size_bound ShutdownFrame). specialize (Ho Hopen). constructor; simpl; [|done|done|done|lia|lia].
  intros e [He|He%list_elem_of_singleton]%elem_of_app; [by apply Hv|done].
Qed.

End writers.

(** ** The registry *)

Lemma elem_of_add_member s s' ms : s' ∈ add_member s ms <-> s' = s \/ s' ∈ ms.
Proof. unfold add_member. case_decide; set_solver. Qed.

Lemma NoDup_add_member s ms : NoDup ms -> NoDup (add_member s ms).
Proof.
  intros H. unfold add_member. case_decide as Hin; [done|]. apply NoDup_app. split_and!; [done| |apply NoDup_singleton].
  intros x Hx ->%list_elem_of_singleton. done.
Qed.

Lemma add_member_nonempty s ms : add_member s ms <> [].
Proof. unfold add_member. case_decide; [by destruct ms; [set_solver|]|by intros [_ ?]%app_nil]. Qed.

Lemma membersOf_index room s g room' :
  membersOf room' (index room s g) = if decide (room' = room) then add_member s (membersOf room g) else membersOf room' g.
Proof.
  unfold membersOf, index. simpl. case_decide as H.
  - subst room'. rewrite lookup_insert_eq. by destruct (g_byRoom g !! room).
  - by rewrite lookup_insert_ne.
Qed.

Lemma membersOf_deindex room s g room' :
  membersOf room' (deindex room s g) = if decide (room' = room) then filter (fun x => x <> s) (membersOf room g) else membersOf room' g.
Proof.
  unfold membersOf, deindex. simpl. destruct (g_byRoom g !! room) as [ms|] eqn:Hr; simpl.
  - destruct (decide (filter _ ms = [])) as [He|He]; destruct (decide (room' = room)) as [->|Hne].
    + rewrite lookup_delete_eq. by rewrite He.
    + by rewrite lookup_delete_ne.
    + by rewrite lookup_insert_eq.
    + by rewrite lookup_insert_ne.
  - destruct (decide (room' = room)) as [->|Hne]; [by rewrite Hr|done].
Qed.

Definition entries_ok (byRoom : gmap RoomName (list nat)) : Prop := map_Forall (fun _ ms => ms <> [] /\ NoDup ms) byRoom.

Lemma index_entries room s g : entries_ok (g_byRoom g) -> entries_ok (g_byRoom (index room s g)).
Proof.
  intros H. simpl. apply map_Forall_insert_2; [|done]. destruct (g_byRoom g !! room) as [ms|] eqn:Hr.
  - destruct (H _ _ Hr). split; [apply add_member_nonempty|by apply NoDup_add_member].
  - split; [done|apply NoDup_singleton].
Qed.

Lemma deindex_entries room s g : entries_ok (g_byRoom g) -> entries_ok (g_byRoom (deindex room s g)).
Proof.
  intros H. unfold deindex. simpl. destruct (g_byRoom g !! room) as [ms|] eqn:Hr; [|done]. destruct (H _ _ Hr).
  case_decide; [by apply map_Forall_delete|]. apply map_Forall_insert_2; [|done]. split; [done|by apply NoDup_filter].
Qed.

(** Both directions of the index, at once. *)
Record registry_ok (options : RealtimeOptions) (g : Gateway) : Prop := {
  ry_heap s : s ∈ g_bySocket g -> is_Some (g_heap g !! s);
  ry_sockets : NoDup (g_bySocket g);
  ry_size : Z.of_nat (length (g_bySocket g)) <= Z.max 0 (ro_maxConnections options);
  ry_members room s : s ∈ membersOf room g <-> s ∈ g_bySocket g /\ room ∈ rooms_of s g;
  ry_entries : entries_ok (g_byRoom g);
  ry_rooms s : NoDup (rooms_of s g) /\ (length (rooms_of s g) <= Nat.max 1 (ro_maxRoomsPerConnection options))%nat;
}.

Lemma rooms_of_heap f s s' g :
  rooms_of s' (on_heap s f g) = if decide (s' = s) then default [] (cn_rooms ∘ f <$> g_heap g !! s) else rooms_of s' g.
Proof.
  unfold rooms_of, on_heap. simpl. case_decide as H.
  - subst s'. rewrite lookup_alter_eq. by destruct (g_heap g !! s).
  - by rewrite lookup_alter_ne.
Qed.

(** An update of connections that leaves their rooms alone. *)
Lemma on_heap_registry options f s g :
  (forall c, cn_rooms (f c) = cn_rooms c) -> registry_ok options g -> registry_ok options (on_heap s f g).
Proof.
  intros Hf [Hh Hs Hz Hm He Hr].
  assert (forall s', rooms_of s' (on_heap s f g) = rooms_of s' g) as Hrooms.
  { intros s'. rewrite rooms_of_heap. case_decide; [|done]. subst s'. unfold rooms_of.
    destruct (g_heap g !! s); [|done]. simpl. apply Hf. }
  constructor; simpl; [|done|done| |done|].
  - intros s' H. rewrite lookup_alter_is_Some. by apply Hh.
  - intros room s'. rewrite Hrooms. apply Hm.
  - intros s'. rewrite Hrooms. apply Hr.
Qed.

Lemma fold_heap_registry options f l g :
  (forall c, cn_rooms (f c) = cn_rooms c) -> registry_ok options g ->
  registry_ok options (foldl (fun g s => on_heap s f g) g l).
Proof. intros Hf. revert g. induction l as [|s l IH]; intros g Hg; [done|]. apply IH. by apply on_heap_registry. Qed.

Lemma fold_index rooms s g :
  let g' := foldl (fun g room => index room s g) g rooms in
  g_heap g' = g_heap g /\ g_bySocket g' = g_bySocket g /\
  (entries_ok (g_byRoom g) -> entries_ok (g_byRoom g')) /\
  (forall room s', s' ∈ membersOf room g' <-> s' ∈ membersOf room g \/ (s' = s /\ room ∈ rooms)).
Proof.
  revert g. induction rooms as [|r rooms IH]; intros g.
  - simpl. split_and!; [done|done|done|]. intros. set_solver.
  - destruct (IH (index r s g)) as (H1 & H2 & H3 & H4). simpl. split_and!; [done|done| |].
    + intros He. by apply H3, index_entries.
    + intros room s'. rewrite H4, membersOf_index, elem_of_cons. case_decide; [|naive_solver].
      subst. rewrite elem_of_add_member. naive_solver.
Qed.

Lemma fold_deindex rooms s g :
  let g' := foldl (fun g room => deindex room s g) g rooms in
  g_heap g' = g_heap g /\ g_bySocket g' = g_bySocket g /\
  (entries_ok (g_byRoom g) -> entries_ok (g_byRoom g')) /\
  (forall room s', s' ∈ membersOf room g' <-> s' ∈ membersOf room g /\ ~ (s' = s /\ room ∈ rooms)).
Proof.
  revert g. induction rooms as [|r rooms IH]; intros g.
  - simpl. split_and!; [done|done|done|]. intros. set_solver.
  - destruct (IH (deindex r s g)) as (H1 & H2 & H3 & H4). simpl. split_and!; [done|done| |].
    + intros He. by apply H3, deindex_entries.
    + intros room s'. rewrite H4, membersOf_deindex, elem_of_cons. case_decide; [|naive_solver].
      subst. rewrite list_elem_of_filter. naive_solver.
Qed.

Lemma add_registry options s c g :
  registry_ok options g -> g_heap g !! s = None -> length (cn_rooms c) = 1%nat ->
  Z.of_nat (length (g_bySocket g)) < ro_maxConnections options -> registry_ok options (add s c g).
Proof.
  intros [Hh Hs Hz Hm He Hr] Hnew Hone Hlt. unfold add.
  destruct (fold_index (cn_rooms c) s {| g_heap := <[s := c]> (g_heap g); g_bySocket := add_member s (g_bySocket g); g_byRoom := g_byRoom g |})
    as (Eh & Es & Ee & Em). set (g' := foldl _ _ _) in *. clearbody g'. simpl in *.
  assert (s ∉ g_bySocket g) as Hfresh by (intros Hin; destruct (Hh _ Hin); congruence).
  assert (forall s', rooms_of s' g' = if decide (s' = s) then cn_rooms c else rooms_of s' g) as Hrooms.
  { intros s'. unfold rooms_of. rewrite Eh. case_decide; [subst; by rewrite lookup_insert_eq|by rewrite lookup_insert_ne]. }
  constructor.
  - intros s' H. rewrite Eh. destruct (decide (s' = s)) as [->|]; [rewrite lookup_insert_eq; by eexists|].
    rewrite lookup_insert_ne by done. apply Hh. rewrite Es, elem_of_add_member in H. naive_solver.
  - rewrite Es. by apply NoDup_add_member.
  - rewrite Es. unfold add_member. rewrite decide_False by done. rewrite length_app. simpl. lia.
  - intros room s'. rewrite Em, Es, elem_of_add_member, Hrooms. unfold membersOf at 1. simpl. fold (membersOf room g).
    rewrite Hm. case_decide; [subst; naive_solver|naive_solver].
  - by apply Ee.
  - intros s'. rewrite Hrooms. case_decide; [|apply Hr]. subst s'. destruct (cn_rooms c) as [|r [|]]; simplify_eq/=.
    split; [apply NoDup_singleton|simpl; lia].
Qed.

Lemma remove_registry options s g : registry_ok options g -> registry_ok options (remove s g).
Proof.
  intros [Hh Hs Hz Hm He Hr]. unfold remove, get. case_decide as Hin; [|by constructor].
  destruct (g_heap g !! s) as [c|] eqn:Hc; [|by constructor].
  destruct (fold_deindex (cn_rooms c) s {| g_heap := g_heap g; g_bySocket := filter (fun x => x <> s) (g_bySocket g); g_byRoom := g_byRoom g |})
    as (Eh & Es & Ee & Em). set (g' := foldl _ _ _) in *. clearbody g'. simpl in *.
  assert (rooms_of s g = cn_rooms c) as Hrs by (unfold rooms_of; by rewrite Hc).
  assert (forall s', rooms_of s' (on_heap s (with_rooms []) g') = if decide (s' = s) then [] else rooms_of s' g) as Hrooms.
  { intros s'. rewrite rooms_of_heap. case_decide; [by rewrite Eh, Hc|]. unfold rooms_of. by rewrite Eh. }
  constructor; simpl.
  - intros s' H. rewrite lookup_alter_is_Some, Eh. apply Hh. rewrite Es in H. by apply list_elem_of_filter in H as [_ ?].
  - rewrite Es. by apply NoDup_filter.
  - rewrite Es. pose proof (length_filter (fun x => x <> s) (g_bySocket g)). lia.
  - intros room s'. unfold membersOf at 1. simpl. fold (membersOf room g'). rewrite Em, Es, list_elem_of_filter, Hrooms.
    unfold membersOf at 1. simpl. fold (membersOf room g). rewrite Hm.
    case_decide; [|naive_solver]. subst s'. rewrite Hrs. set_solver.
  - by apply Ee.
  - intros s'. rewrite Hrooms. case_decide; [|apply Hr]. split; [constructor|simpl; lia].
Qed.

Lemma subset_length (l k : list RoomName) : NoDup l -> l ⊆ k -> (length l <= length (remove_dups k))%nat.
Proof.
  intros Hl Hk. apply submseteq_length, NoDup_submseteq; [done|]. intros x Hx. apply elem_of_remove_dups. by apply Hk.
Qed.

Lemma join_registry options s room g :
  registry_ok options g -> s ∈ g_bySocket g ->
  (length (rooms_of s g ++ [room]) <= Nat.max 1 (ro_maxRoomsPerConnection options))%nat ->
  let g' := snd (join_room s room g) in
  registry_ok options g' /\ g_bySocket g' = g_bySocket g /\
  rooms_of s g' = if decide (room ∈ rooms_of s g) then rooms_of s g else rooms_of s g ++ [room].
Proof.
  intros Hg Hin Hlen. unfold join_room. case_decide as Hroom; [done|]. simpl. destruct Hg as [Hh Hs Hz Hm He Hr].
  destruct (Hh _ Hin) as [c Hc].
  assert (forall s', rooms_of s' (index room s (on_heap s (with_rooms (rooms_of s g ++ [room])) g)) =
    if decide (s' = s) then rooms_of s g ++ [room] else rooms_of s' g) as Hrooms.
  { intros s'. change (rooms_of s' (index room s ?g)) with (rooms_of s' g). rewrite rooms_of_heap, Hc. by case_decide. }
  split_and!; [|done|rewrite Hrooms; by rewrite decide_True].
  constructor; [|done|done| | |].
  - intros s' H. simpl. rewrite lookup_alter_is_Some. by apply Hh.
  - intros room' s'. rewrite membersOf_index, Hrooms. simpl. unfold membersOf. simpl. fold (membersOf room g) (membersOf room' g).
    destruct (decide (room' = room)) as [->|Hne]; [rewrite elem_of_add_member|]; rewrite Hm;
      (destruct (decide (s' = s)) as [->|]; [set_solver|naive_solver]).
  - by apply index_entries.
  - intros s'. rewrite Hrooms. destruct (decide (s' = s)) as [->|]; [|apply Hr]. split; [|done].
    apply NoDup_app. split_and!; [apply Hr| |apply NoDup_singleton]. intros x Hx ->%list_elem_of_singleton. done.
Qed.

Lemma leave_registry options s room g :
  registry_ok options g -> s ∈ g_bySocket g ->
  let g' := snd (leave_room s room g) in registry_ok options g' /\ g_bySocket g' = g_bySocket g.
Proof.
  intros Hg Hin. unfold leave_room. case_decide as Hroom; [|done]. simpl. split; [|done]. destruct Hg as [Hh Hs Hz Hm He Hr].
  destruct (Hh _ Hin) as [c Hc].
  assert (forall s', rooms_of s' (deindex room s (on_heap s (with_rooms (filter (fun r => r <> room) (rooms_of s g))) g)) =
    if decide (s' = s) then filter (fun r => r <> room) (rooms_of s g) else rooms_of s' g) as Hrooms.
  { intros s'. change (rooms_of s' (deindex room s ?g)) with (rooms_of s' g). rewrite rooms_of_heap, Hc. by case_decide. }
  constructor; [|done|done| | |].
  - intros s' H. simpl. rewrite lookup_alter_is_Some. by apply Hh.
  - intros room' s'. rewrite membersOf_deindex, Hrooms. simpl. unfold membersOf. simpl. fold (membersOf room g) (membersOf room' g).
    destruct (decide (room' = room)) as [->|Hne]; [rewrite list_elem_of_filter|]; rewrite Hm;
      (destruct (decide (s' = s)) as [->|]; [rewrite list_elem_of_filter; naive_solver|naive_solver]).
  - by apply deindex_entries.
  - intros s'. rewrite Hrooms. destruct (decide (s' = s)) as [->|]; [|apply Hr]. destruct (Hr s) as [Hnd Hl].
    split; [by apply NoDup_filter|]. pose proof (length_filter (fun r => r <> room) (rooms_of s g)). lia.
Qed.

Lemma joins_registry options s rooms l g :
  registry_ok options g -> s ∈ g_bySocket g -> rooms_of s g ⊆ l -> rooms ⊆ l ->
  (length (remove_dups l) <= ro_maxRoomsPerConnection options)%nat ->
  registry_ok options (snd (filter_rooms join_room s rooms g)).
Proof.
  intros Hg Hin Hsub Hrooms Hl. revert g Hg Hin Hsub. induction rooms as [|room rooms IH]; intros g Hg Hin Hsub; [done|]. simpl.
  assert (room ∈ l) as Hroom by set_solver. assert (rooms ⊆ l) as Hrest by set_solver.
  assert (room ∈ rooms_of s g \/ (length (rooms_of s g ++ [room]) <= Nat.max 1 (ro_maxRoomsPerConnection options))%nat) as Hlen.
  { destruct (decide (room ∈ rooms_of s g)) as [|Hn]; [by left|right]. etrans; [|apply Nat.le_max_r]. etrans; [|exact Hl].
    apply subset_length; [|set_solver]. apply NoDup_app. split_and!; [apply (ry_rooms _ _ Hg)| |apply NoDup_singleton].
    intros x Hx ->%list_elem_of_singleton. done. }
  destruct Hlen as [Hold|Hlen].
  - unfold join_room. rewrite decide_True by done. specialize (IH Hrest g Hg Hin Hsub). by destruct (filter_rooms _ _ _ _).
  - destruct (join_registry options s room g Hg Hin Hlen) as (Hg' & Hs' & Hr').
    destruct (join_room s room g) as [changed g']. simpl in *.
    specialize (IH Hrest g' Hg'). destruct (filter_rooms _ _ _ _). apply IH; [by rewrite Hs'|]. rewrite Hr'. case_decide; set_solver.
Qed.

Lemma leaves_registry options s rooms g :
  registry_ok options g -> s ∈ g_bySocket g -> registry_ok options (snd (filter_rooms leave_room s rooms g)).
Proof.
  revert g. induction rooms as [|room rooms IH]; intros g Hg Hin; [done|]. simpl.
  destruct (leave_registry options s room g Hg Hin) as [Hg' Hs']. destruct (leave_room s room g) as [changed g']. simpl in *.
  specialize (IH g' Hg'). destruct (filter_rooms _ _ _ _). apply IH. by rewrite Hs'.
Qed.

(** ** What one broadcast does *)

Section broadcasting.
Context (toISOString : Z -> JSText) (size : RealtimeFrame -> Z).

Definition offer_one (now : Z) (event : Envelope) (c : RealtimeConnection) : RealtimeConnection :=
  if isVisibleTo event (cn_audience c)
  then with_writer (fun w => snd (bp_send toISOString size now (DomainEventFrame event) w)) c else c.

Lemma offer_spec now event members considered g :
  let r := offer toISOString size now event members considered g in
  g_byRoom (snd r) = g_byRoom g /\ g_bySocket (snd r) = g_bySocket g /\
  (forall s, s ∈ fst r <-> s ∈ considered \/ s ∈ members) /\
  (forall s, g_heap (snd r) !! s =
    if decide (s ∈ members /\ s ∉ considered) then offer_one now event <$> g_heap g !! s else g_heap g !! s).
Proof.
  revert considered g. induction members as [|m members IH]; intros considered g; cbn zeta; cbn [offer].
  - split_and!; [done|done|set_solver|]. intros s. rewrite decide_False by set_solver. done.
  - case_decide as Hm.
    + destruct (IH considered g) as (H1 & H2 & H3 & H4). split_and!; [done|done|set_solver|].
      intros s. rewrite H4. destruct (decide (s ∈ members /\ s ∉ considered)).
      * by rewrite decide_True by set_solver.
      * rewrite decide_False; [done|]. set_solver.
    + set (g1 := match g_heap g !! m with Some _ => _ | None => _ end).
      assert (g_byRoom g1 = g_byRoom g /\ g_bySocket g1 = g_bySocket g) as [Hb1 Hs1] by (subst g1; by repeat case_match).
      assert (forall s, g_heap g1 !! s = if decide (s = m) then offer_one now event <$> g_heap g !! s else g_heap g !! s) as Hh1.
      { intros s. subst g1. unfold offer_one. destruct (decide (s = m)) as [->|Hne]; destruct (g_heap g !! m) as [c|] eqn:Hc.
        - simpl. destruct (isVisibleTo event (cn_audience c)); [|done]. simpl. by rewrite lookup_alter_eq, Hc.
        - by rewrite Hc.
        - destruct (isVisibleTo event (cn_audience c)); [|done]. simpl. by rewrite lookup_alter_ne.
        - done. }
      destruct (IH (m :: considered) g1) as (H1 & H2 & H3 & H4).
      split_and!; [congruence|congruence|set_solver|]. intros s. rewrite H4, Hh1.
      destruct (decide (s = m)) as [->|Hne].
      * rewrite decide_False by set_solver. by rewrite decide_True by set_solver.
      * destruct (decide (s ∈ members /\ s ∉ m :: considered)).
        -- by rewrite decide_True by set_solver.
        -- rewrite decide_False; [done|]. set_solver.
Qed.

Lemma offer_rooms_spec now event rooms considered g :
  let r := offer_rooms toISOString size now event rooms considered g in
  g_byRoom (snd r) = g_byRoom g /\ g_bySocket (snd r) = g_bySocket g /\
  (forall s, g_heap (snd r) !! s =
    if decide ((s ∉ considered) /\ Exists (fun room => s ∈ membersOf room g) rooms)
    then offer_one now event <$> g_heap g !! s else g_heap g !! s).
Proof.
  revert considered g. induction rooms as [|room rooms IH]; intros considered g; cbn zeta; cbn [offer_rooms].
  - split_and!; [done|done|]. intros s. rewrite decide_False by (intros [_ ?%Exists_nil]; done). done.
  - destruct (offer_spec now event (membersOf room g) considered g) as (H1 & H2 & H3 & H4).
    destruct (offer _ _ _ _ _ _ _) as [considered' g'] eqn:Ho. cbn [fst snd] in *.
    destruct (IH considered' g') as (I1 & I2 & I3). split_and!; [congruence|congruence|].
    assert (forall r, membersOf r g' = membersOf r g) as Hmem by (intros r; unfold membersOf; by rewrite H1).
    intros s. rewrite I3, H4.
    assert (Exists (fun r => s ∈ membersOf r g') rooms <-> Exists (fun r => s ∈ membersOf r g) rooms) as Hex.
    { rewrite !Exists_exists. by setoid_rewrite Hmem. }
    destruct (decide ((s ∉ considered') /\ _)) as [[Hn He]|Hn1]; destruct (decide (s ∈ membersOf room g /\ s ∉ considered)) as [[Hm Hc]|Hn2];
      destruct (decide ((s ∉ considered) /\ _)) as [[Hc' He']|Hn3]; try done; exfalso; rewrite ?Hex, ?H3, ?Exists_cons in *; tauto.
Qed.

End broadcasting.

(** ** What becomes of a frame *)

(** The frames of the gateway's own that a client was sent. *)
Definition written (frames : list RealtimeFrame) : Z :=
  foldr (fun f acc => match f with LaggedFrame _ _ => acc | _ => 1 + acc end) 0 frames.

Lemma written_snoc frames f : written (frames ++ [f]) = written frames + written [f].
Proof. induction frames as [|[] frames IH]; simpl in *; lia. Qed.

(** Written, reported as lost, or to be reported. *)
Definition accounted (w : BackpressuredSocket) : Z := written (sk_sent (bp_socket w)) + told (sk_sent (bp_socket w)) + pending_drops w.

(** A step of one connection that is meant to send [n] frames to it. *)
Definition accounts (n : Z) (w w' : BackpressuredSocket) : Prop :=
  isOpen w' = true -> isOpen w = true /\ accounted w' = accounted w + n.

Section accounting.
Context (toISOString : Z -> JSText) (size : RealtimeFrame -> Z) (options : RealtimeOptions).

Lemma recover_accounts w : accounts 0 w (recover toISOString size w).
Proof.
  unfold accounts, recover, accounted, pending_drops, isOpen. destruct (bp_laggingSince w) as [since|] eqn:Hl; simpl; intros Ho.
  - split; [done|]. rewrite written_snoc, told_snoc. simpl. lia.
  - split; [done|]. lia.
Qed.

Lemma write_accounts f w :
  (forall n since, f <> LaggedFrame n since) -> bp_laggingSince w = None -> accounts 1 w (bp_write size f w).
Proof.
  intros Hf Hl. unfold accounts, accounted, pending_drops, isOpen. simpl. rewrite Hl, written_snoc, told_snoc. intros Ho. split; [done|].
  destruct f; simpl; try lia. by destruct (Hf dropped since).
Qed.

Lemma stayLagging_accounts now w : is_Some (bp_laggingSince w) -> accounts 1 w (snd (stayLagging now w)).
Proof.
  intros [since Hl]. unfold accounts, stayLagging. case_match; simpl; intros Ho; [done|]. split; [done|].
  unfold accounted, pending_drops. simpl. rewrite Hl. lia.
Qed.

Lemma recover_lag w : bp_laggingSince (recover toISOString size w) = None.
Proof. unfold recover. by case_match. Qed.

Lemma send_accounts now f w : (forall n since, f <> LaggedFrame n since) -> accounts 1 w (snd (bp_send toISOString size now f w)).
Proof.
  intros Hf. unfold bp_send. destruct (isOpen w) eqn:Hopen; [|intros Ho; simpl in Ho; congruence]. simpl.
  destruct (bp_laggingSince w) as [since|] eqn:Hl; case_decide; simpl.
  - apply stayLagging_accounts. by rewrite Hl.
  - intros Ho. destruct (write_accounts f _ Hf (recover_lag w) Ho) as [Ho1 ->]. destruct (recover_accounts w Ho1) as [_ ->]. split; [done|lia].
  - intros Ho. destruct (stayLagging_accounts now (with_lag (Some now) 0 w) ltac:(by eexists) Ho) as [_ ->]. split; [done|].
    unfold accounted, pending_drops. simpl. rewrite Hl. lia.
  - by apply write_accounts.
Qed.

Lemma review_accounts now w : accounts 0 w (review toISOString size now w).
Proof.
  unfold review. destruct (isOpen w) eqn:Hopen; [|intros Ho; simpl in Ho; congruence]. simpl.
  assert (accounts 0 w w) as Hw by (intros _; split; [done|lia]).
  destruct (bp_laggingSince w); [|done]. case_match; [by intros Ho|]. case_decide; [apply recover_accounts|done].
Qed.

End accounting.

(** The same of the whole heap, at one socket. *)
Definition writer_at (s : nat) (g : Gateway) : option BackpressuredSocket := cn_writer <$> g_heap g !! s.

Definition counts (n : Z) (o o' : option BackpressuredSocket) : Prop :=
  match o, o' with
  | Some w, Some w' => accounts n w w'
  | None, Some w' => isOpen w' = true -> accounted w' = n
  | None, None => n = 0
  | Some _, None => False
  end.

Lemma counts_refl o : counts 0 o o.
Proof. destruct o as [w|]; simpl; [|done]. intros Ho. split; [done|lia]. Qed.

Lemma counts_trans n m o o1 o2 : counts n o o1 -> counts m o1 o2 -> counts (n + m) o o2.
Proof.
  destruct o as [w|], o1 as [w1|], o2 as [w2|]; simpl; try done; intros H1 H2.
  - intros Ho. destruct (H2 Ho) as [Ho1 ->]. destruct (H1 Ho1) as [? ->]. split; [done|lia].
  - intros Ho. destruct (H2 Ho) as [Ho1 ->]. rewrite (H1 Ho1). lia.
  - intros Ho. rewrite H1, (H2 Ho). lia.
  - lia.
Qed.

Lemma on_heap_counts f s' s n g :
  (forall c, accounts n (cn_writer c) (cn_writer (f c))) -> (n = 0 \/ is_Some (g_heap g !! s)) ->
  counts (if decide (s' = s) then n else 0) (writer_at s g) (writer_at s (on_heap s' f g)).
Proof.
  intros Hf Hn. unfold writer_at, on_heap. simpl. case_decide as Hs.
  - subst s'. rewrite lookup_alter_eq. destruct (g_heap g !! s) as [c|]; simpl; [apply Hf|]. destruct Hn as [->|[c Hc]]; [|done]. done.
  - rewrite lookup_alter_ne by done. apply counts_refl.
Qed.

Lemma fold_heap_counts f s n l g :
  (forall c, accounts n (cn_writer c) (cn_writer (f c))) -> (forall c, accounts 0 (cn_writer c) (cn_writer (f c))) ->
  (s ∈ l -> n = 0 \/ is_Some (g_heap g !! s)) ->
  counts (if decide (s ∈ l) then n else 0) (writer_at s g) (writer_at s (foldl (fun g x => on_heap x f g) g l)).
Proof.
  intros Hn H0. revert g. induction l as [|x l IH]; intros g Hs; [rewrite decide_False by set_solver; apply counts_refl|].
  assert (is_Some (g_heap g !! s) -> is_Some (g_heap (on_heap x f g) !! s)) as Hkeep by (intros; simpl; by apply lookup_alter_is_Some).
  assert (s ∈ l -> n = 0 \/ is_Some (g_heap (on_heap x f g) !! s)) as Hs' by (intros; destruct Hs; [set_solver|by left|right; auto]).
  specialize (IH (on_heap x f g) Hs'). cbn [foldl]. destruct (decide (s ∈ l)) as [Hin|Hin].
  - rewrite decide_True by set_solver. replace n with (0 + n) by lia. eapply counts_trans; [|exact IH].
    pose proof (on_heap_counts f x s 0 g H0 (or_introl eq_refl)) as H. by case_decide.
  - destruct (decide (s ∈ x :: l)) as [Hx|Hx].
    + assert (x = s) as -> by set_solver. replace n with (n + 0) by lia. eapply counts_trans; [|exact IH].
      pose proof (on_heap_counts f s s n g Hn (Hs Hx)) as H. by rewrite decide_True in H by done.
    + replace 0 with (0 + 0) by lia. eapply counts_trans; [|exact IH].
      pose proof (on_heap_counts f x s 0 g H0 (or_introl eq_refl)) as H. by case_decide.
Qed.

Section accounting_heap.
Context (toISOString : Z -> JSText) (size : RealtimeFrame -> Z) (options : RealtimeOptions).

Lemma sweep_accounts now c : accounts 0 (cn_writer c) (cn_writer (sweep_one toISOString size now c)).
Proof.
  pose proof (review_accounts toISOString size now (cn_writer c)) as Hr. unfold sweep_one. simpl. destruct (isOpen (review _ _ _ _)) eqn:Ho; simpl; [|done].
  destruct (cn_awaitingPong c); simpl; [by intros ?|]. unfold bp_ping. rewrite Ho. intros _. by apply Hr.
Qed.

Lemma shutdown_accounts n c : accounts n (cn_writer c) (cn_writer (shutdown_one size c)).
Proof.
  intros Ho. exfalso. revert Ho. unfold shutdown_one. simpl. unfold bp_close, sendUnconditionally.
  destruct (isOpen (cn_writer c)) eqn:Ho; [|by rewrite !Ho].
  change (isOpen (bp_write size ShutdownFrame (cn_writer c))) with (isOpen (cn_writer c)). by rewrite Ho.
Qed.

Lemma filter_rooms_writers change s rooms g s' :
  (forall room g, writer_at s' (snd (change s room g)) = writer_at s' g) -> writer_at s' (snd (filter_rooms change s rooms g)) = writer_at s' g.
Proof.
  intros Hch. revert g. induction rooms as [|room rooms IH]; intros g; [done|]. simpl. specialize (Hch room g).
  destruct (change s room g) as [changed g']. specialize (IH g'). destruct (filter_rooms change s rooms g'). simpl in *. congruence.
Qed.

Lemma with_rooms_writers rooms s s' g : writer_at s' (on_heap s (with_rooms rooms) g) = writer_at s' g.
Proof.
  unfold writer_at, on_heap. simpl. destruct (decide (s' = s)) as [->|]; [rewrite lookup_alter_eq|by rewrite lookup_alter_ne].
  by destruct (g_heap g !! s).
Qed.

Lemma join_writers s room g s' : writer_at s' (snd (join_room s room g)) = writer_at s' g.
Proof. unfold join_room. case_decide; [done|]. simpl. apply (with_rooms_writers _ s). Qed.

Lemma leave_writers s room g s' : writer_at s' (snd (leave_room s room g)) = writer_at s' g.
Proof. unfold leave_room. case_decide; [|done]. simpl. apply (with_rooms_writers _ s). Qed.

Lemma remove_writers s s' g : writer_at s' (remove s g) = writer_at s' g.
Proof.
  unfold remove. destruct (get s g) as [c|]; [|done]. rewrite with_rooms_writers. unfold writer_at.
  match goal with |- context [foldl _ ?g0 ?rooms] => destruct (fold_deindex rooms s g0) as (-> & _) end. done.
Qed.

Lemma send_to_counts now s' f s g :
  (forall n since, f <> LaggedFrame n since) -> is_Some (g_heap g !! s') ->
  counts (if decide (s' = s) then 1 else 0) (writer_at s g) (writer_at s (send_to toISOString size now s' f g)).
Proof.
  intros Hf Hs. unfold send_to. destruct (decide (s' = s)) as [->|Hne].
  - pose proof (on_heap_counts (with_writer (fun w => snd (bp_send toISOString size now f w))) s s 1 g) as H.
    rewrite decide_True in H by done. apply H; [|by right]. intros c. simpl. by apply send_accounts.
  - unfold writer_at. simpl. rewrite lookup_alter_ne by done. apply counts_refl.
Qed.

(** The frames an event means to send to [s]: the greeting of a connection that
    is admitted, the answer to a request, an event of the catalogue that goes to
    a room it is in and that its account may see, the farewell. *)
Definition addressed_by (e : GatewayEvent) (s : nat) (g : Gateway) : Z :=
  match e with
  | GwConnect s' _ (inr _) =>
      if decide (s' = s /\ g_heap g !! s = None /\ Z.of_nat (length (g_bySocket g)) < ro_maxConnections options) then 1 else 0
  | GwSubscribe s' _ | GwUnsubscribe s' _ => if decide (s' = s /\ s ∈ g_bySocket g) then 1 else 0
  | GwPublish event =>
      match g_heap g !! s with
      | Some c =>
          if bool_decide (en_name event ∈ DOMAIN_EVENT_NAMES) && bool_decide (s ∈ g_bySocket g) &&
             existsb (fun room => bool_decide (room ∈ cn_rooms c)) (roomsFor event) && isVisibleTo event (cn_audience c) then 1 else 0
      | None => 0
      end
  | GwShutdown => if decide (s ∈ g_bySocket g) then 1 else 0
  | _ => 0
  end.

Fixpoint addressed (s : nat) (events : list (Z * GatewayEvent)) (g : Gateway) : Z :=
  match events with
  | [] => 0
  | e :: events => addressed_by e.2 s g + addressed s events (gateway_event toISOString size options e g)
  end.

End accounting_heap.

(** ** The gateway *)

Section gateway_facts.
Context (toISOString : Z -> JSText) (size : RealtimeFrame -> Z) (options : RealtimeOptions) (M : Z).
Hypothesis size_bound : forall f, 0 <= size f <= M.
Hypothesis mark_nonneg : 0 <= ro_sendHighWaterMarkBytes options.

Definition conn_ok (c : RealtimeConnection) : Prop :=
  writer_ok M (cn_audience c) (cn_writer c) /\ highWaterMarkBytes (bp_options (cn_writer c)) = ro_sendHighWaterMarkBytes options.

Definition conns_ok (g : Gateway) : Prop := map_Forall (fun _ => conn_ok) (g_heap g).

Record gateway_ok (g : Gateway) : Prop := { gw_registry : registry_ok options g; gw_conns : conns_ok g }.

Lemma on_heap_conns f s g : (forall c, conn_ok c -> conn_ok (f c)) -> conns_ok g -> conns_ok (on_heap s f g).
Proof.
  intros Hf Hg s' c. simpl. destruct (decide (s' = s)) as [->|].
  - rewrite lookup_alter_eq. intros (c' & Hc & ->)%fmap_Some. by apply Hf, (Hg s).
  - rewrite lookup_alter_ne by done. apply Hg.
Qed.

Lemma on_heap_ok f s g :
  (forall c, cn_rooms (f c) = cn_rooms c) -> (forall c, conn_ok c -> conn_ok (f c)) -> gateway_ok g -> gateway_ok (on_heap s f g).
Proof. intros Hr Hf [H1 H2]. split; [by apply on_heap_registry|by apply on_heap_conns]. Qed.

Lemma fold_heap_ok f l g :
  (forall c, cn_rooms (f c) = cn_rooms c) -> (forall c, conn_ok c -> conn_ok (f c)) -> gateway_ok g ->
  gateway_ok (foldl (fun g s => on_heap s f g) g l).
Proof. intros Hr Hf. revert g. induction l as [|s l IH]; intros g Hg; [done|]. apply IH. by apply on_heap_ok. Qed.

Lemma bp_send_options now f w : bp_options (snd (bp_send toISOString size now f w)) = bp_options w.
Proof. unfold bp_send, stayLagging, recover. by repeat case_match. Qed.

Lemma send_conn_ok now f c :
  conn_ok c -> offerable (cn_audience c) f -> conn_ok (with_writer (fun w => snd (bp_send toISOString size now f w)) c).
Proof. intros [Hw Ho] Hf. split; simpl; [by eapply bp_send_ok|by rewrite bp_send_options]. Qed.

(** A control frame may go to anyone. *)
Lemma control_frame_ok now s f g :
  (forall audience, offerable audience f) -> gateway_ok g -> gateway_ok (send_to toISOString size now s f g).
Proof. intros Hf. apply on_heap_ok; [done|]. intros c Hc. by apply send_conn_ok. Qed.

Lemma sweep_conn_ok now c : conn_ok c -> conn_ok (sweep_one toISOString size now c).
Proof.
  intros [Hw Ho]. pose proof (review_ok toISOString size M size_bound _ now _ Hw) as Hr.
  assert (bp_options (review toISOString size now (cn_writer c)) = bp_options (cn_writer c)) as Hro
    by (unfold review, recover; by repeat case_match).
  unfold sweep_one. simpl. destruct (isOpen _) eqn:Hopen; simpl; [|split; simpl; [done|congruence]].
  destruct (cn_awaitingPong c); split; simpl.
  - eapply closed_ok; simpl; done || lia.
  - congruence.
  - by apply ping_ok.
  - unfold bp_ping. case_match; simpl; congruence.
Qed.

Lemma shutdown_conn_ok c : conn_ok c -> conn_ok (shutdown_one size c).
Proof.
  intros [Hw Ho]. split; simpl; [by apply farewell_frame_ok|]. unfold bp_close, sendUnconditionally. by repeat case_match.
Qed.

Lemma broadcast_ok now event g : gateway_ok g -> gateway_ok (broadcast toISOString size now event g).
Proof.
  intros [Hr Hc]. unfold broadcast. destruct (offer_rooms_spec toISOString size now event (roomsFor event) [] g) as (H1 & H2 & H3).
  set (g' := snd _) in *. clearbody g'.
  assert (forall s, rooms_of s g' = rooms_of s g) as Hrooms.
  { intros s. unfold rooms_of. rewrite H3. case_decide; [|done]. destruct (g_heap g !! s); [|done]. simpl. unfold offer_one. by case_match. }
  split.
  - destruct Hr as [Hh Hs Hz Hm He Hr]. constructor.
    + intros s Hin. rewrite H3, H2 in *. case_decide; [apply fmap_is_Some|]; by apply Hh.
    + by rewrite H2.
    + by rewrite H2.
    + intros room s. unfold membersOf. rewrite H1, H2, Hrooms. apply Hm.
    + by rewrite H1.
    + intros s. rewrite Hrooms. apply Hr.
  - intros s c. rewrite H3. case_decide; [|apply Hc]. intros (c' & Hc' & ->)%fmap_Some. specialize (Hc _ _ Hc').
    unfold offer_one. case_match; [|done]. by apply send_conn_ok.
Qed.

Lemma filter_rooms_conns change s rooms g :
  (forall room g, conns_ok g -> conns_ok (snd (change s room g))) -> conns_ok g -> conns_ok (snd (filter_rooms change s rooms g)).
Proof.
  intros Hch. revert g. induction rooms as [|room rooms IH]; intros g Hg; [done|]. simpl. specialize (Hch room g Hg).
  destruct (change s room g) as [changed g']. specialize (IH g' Hch). by destruct (filter_rooms change s rooms g').
Qed.

Lemma join_conns s room g : conns_ok g -> conns_ok (snd (join_room s room g)).
Proof. intros Hg. unfold join_room. case_decide; [done|]. by apply (on_heap_conns (with_rooms _)). Qed.

Lemma leave_conns s room g : conns_ok g -> conns_ok (snd (leave_room s room g)).
Proof. intros Hg. unfold leave_room. case_decide; [|done]. by apply (on_heap_conns (with_rooms _)). Qed.

Lemma parseRooms_limit c body rooms :
  parseRooms options c body Join = inr rooms -> (length (remove_dups (cn_rooms c ++ rooms)) <= ro_maxRoomsPerConnection options)%nat.
Proof.
  unfold parseRooms. destruct (isRoomRequest body) as [raws|]; [|done]. destruct (decide _); [done|].
  destruct (read_rooms _ _ _) as [|rooms']; [done|]. destruct (decide _) as [|Hn]; [done|]. intros [= ->].
  apply Nat.nlt_ge. intros Hlt. by apply Hn.
Qed.

Lemma get_Some s g c : get s g = Some c -> s ∈ g_bySocket g /\ rooms_of s g = cn_rooms c.
Proof. unfold get. case_decide; [|done]. intros Hc. split; [done|]. unfold rooms_of. by rewrite Hc. Qed.

Lemma subscribe_ok now s body g : gateway_ok g -> gateway_ok (handleSubscribe toISOString size options now s body g).
Proof.
  intros Hg. unfold handleSubscribe. destruct (get s g) as [c|] eqn:Hget; [|done]. apply get_Some in Hget as [Hin Hrooms].
  destruct (parseRooms options c body Join) as [e|rooms] eqn:Hp; [by apply control_frame_ok|]. apply parseRooms_limit in Hp.
  destruct Hg as [Hr Hc]. pose proof (joins_registry options s rooms (cn_rooms c ++ rooms) g Hr Hin) as Hr'.
  pose proof (filter_rooms_conns join_room s rooms g (join_conns s) Hc) as Hc'.
  destruct (filter_rooms join_room s rooms g) as [joined g']. apply control_frame_ok; [done|]. split; [|done].
  apply Hr'; [|set_solver|done]. rewrite Hrooms. set_solver.
Qed.

Lemma unsubscribe_ok now s body g : gateway_ok g -> gateway_ok (handleUnsubscribe toISOString size options now s body g).
Proof.
  intros Hg. unfold handleUnsubscribe. destruct (get s g) as [c|] eqn:Hget; [|done]. apply get_Some in Hget as [Hin _].
  destruct (parseRooms options c body Leave) as [e|rooms]; [by apply control_frame_ok|].
  destruct Hg as [Hr Hc]. pose proof (leaves_registry options s rooms g Hr Hin) as Hr'.
  pose proof (filter_rooms_conns leave_room s rooms g (leave_conns s) Hc) as Hc'.
  destruct (filter_rooms leave_room s rooms g) as [gone g']. by apply control_frame_ok.
Qed.

Lemma connection_ok now s uuid handshake g g' :
  gateway_ok g -> g_heap g !! s = None -> handleConnection toISOString size options now s uuid handshake g = inr g' -> gateway_ok g'.
Proof.
  intros [Hr Hc] Hnew. unfold handleConnection. destruct handshake as [|user]; [done|]. case_decide as Hmax; [done|]. intros [= <-].
  apply control_frame_ok; [done|]. split; [apply add_registry; [done|done|done|lia]|].
  intros s' c'. unfold add. match goal with |- context [foldl _ ?g0 ?rooms] => destruct (fold_index rooms s g0) as (Eh & _) end.
  rewrite Eh. simpl. destruct (decide (s' = s)) as [->|]; [rewrite lookup_insert_eq|rewrite lookup_insert_ne by done; apply Hc].
  intros [= <-]. split; [|done]. simpl. by eapply newWriter_ok.
Qed.

Lemma remove_ok s g : gateway_ok g -> gateway_ok (remove s g).
Proof.
  intros [Hr Hc]. split; [by apply remove_registry|]. unfold remove. destruct (get s g) as [c|]; [|done].
  apply on_heap_conns; [done|]. unfold conns_ok.
  match goal with |- context [foldl _ ?g0 ?rooms] => destruct (fold_deindex rooms s g0) as (Eh & _) end. by rewrite Eh.
Qed.

Lemma gateway_event_ok e g : gateway_ok g -> gateway_ok (gateway_event toISOString size options e g).
Proof.
  intros Hg. destruct e as [now [s uuid handshake|s|s body|s body|event| |s|s payload|s bytes|]]; simpl.
  - destruct (g_heap g !! s) eqn:Hnew; [done|]. destruct (handleConnection _ _ _ _ _ _ _ g) as [|g'] eqn:Hh; [done|].
    by eapply connection_ok.
  - by apply remove_ok.
  - by apply subscribe_ok.
  - by apply unsubscribe_ok.
  - unfold gateway_onDomainEvent. case_decide; [by apply broadcast_ok|done].
  - apply fold_heap_ok; [|apply sweep_conn_ok|done]. intros c. unfold sweep_one. by repeat case_match.
  - by apply on_heap_ok.
  - apply on_heap_ok; [done| |done]. intros c [Hw Ho]. split; simpl; [by apply pinged_ok|]. unfold pinged. by case_match.
  - apply on_heap_ok; [done| |done]. intros c [Hw Ho]. split; simpl; [by eapply drain_ok|done].
  - apply fold_heap_ok; [done|apply shutdown_conn_ok|done].
Qed.

Lemma newGateway_ok : gateway_ok newGateway.
Proof.
  split; [|by intros ?? ?]. constructor; simpl; [by intros ? ?%elem_of_nil|constructor|lia| |apply map_Forall_empty|].
  - intros room s. unfold membersOf, rooms_of. simpl. rewrite !lookup_empty. simpl. set_solver.
  - intros s. unfold rooms_of. simpl. rewrite lookup_empty. simpl. split; [constructor|lia].
Qed.

Lemma realtime_run_ok events : gateway_ok (gateway_run toISOString size options events newGateway).
Proof.
  unfold gateway_run. generalize newGateway_ok. generalize newGateway. induction events as [|e events IH]; intros g Hg; [done|].
  by apply IH, gateway_event_ok.
Qed.

Lemma broadcast_heap now event g s :
  gateway_ok g ->
  g_heap (broadcast toISOString size now event g) !! s =
  (fun c => if bool_decide (s ∈ g_bySocket g) && existsb (fun room => bool_decide (room ∈ cn_rooms c)) (roomsFor event) &&
               isVisibleTo event (cn_audience c)
            then with_writer (fun w => snd (bp_send toISOString size now (DomainEventFrame event) w)) c else c) <$> g_heap g !! s.
Proof.
  intros Hg. pose proof (ry_members options g (gw_registry _ Hg)) as Hm. unfold broadcast.
  destruct (offer_rooms_spec toISOString size now event (roomsFor event) [] g) as (_ & _ & ->).
  destruct (g_heap g !! s) as [c|] eqn:Hc; [|by case_decide]. cbn [fmap option_fmap option_map].
  assert (rooms_of s g = cn_rooms c) as Hrooms by (unfold rooms_of; by rewrite Hc).
  assert (((s ∉ []) /\ Exists (fun room => s ∈ membersOf room g) (roomsFor event)) <->
    bool_decide (s ∈ g_bySocket g) && existsb (fun room => bool_decide (room ∈ cn_rooms c)) (roomsFor event) = true) as Hiff.
  { rewrite andb_true_iff, bool_decide_eq_true, existsb_exists, Exists_exists. setoid_rewrite Hm. rewrite Hrooms.
    setoid_rewrite bool_decide_eq_true. setoid_rewrite <-list_elem_of_In. set_solver. }
  destruct (decide ((s ∉ []) /\ _)) as [Hd|Hd].
  - apply Hiff in Hd as ->. done.
  - destruct (bool_decide _ && _); [|done]. by destruct Hd; apply Hiff.
Qed.

(** One answer, whatever happened to the rooms before it. *)
Lemma answer_counts now s' f s g g' :
  (forall n since, f <> LaggedFrame n since) -> (forall x, writer_at x g' = writer_at x g) -> s' ∈ g_bySocket g -> gateway_ok g ->
  counts (if decide (s' = s /\ s ∈ g_bySocket g) then 1 else 0) (writer_at s g) (writer_at s (send_to toISOString size now s' f g')).
Proof.
  intros Hf Hw Hin Hg. rewrite <-(Hw s). replace (if decide (s' = s /\ _) then 1 else 0) with (if decide (s' = s) then 1 else 0).
  - apply send_to_counts; [done|]. apply (ry_heap _ _ (gw_registry _ Hg)) in Hin as [c Hc]. specialize (Hw s'). unfold writer_at in Hw.
    rewrite Hc in Hw. destruct (g_heap g' !! s'); [by eexists|done].
  - repeat case_decide; naive_solver.
Qed.

Lemma publish_counts now event s g :
  gateway_ok g -> counts (addressed_by options (GwPublish event) s g) (writer_at s g) (writer_at s (gateway_onDomainEvent toISOString size now event g)).
Proof.
  intros Hg. unfold gateway_onDomainEvent, addressed_by, writer_at. destruct (decide (en_name event ∈ DOMAIN_EVENT_NAMES)) as [Hd|Hd].
  - rewrite broadcast_heap by done. rewrite bool_decide_true by done. destruct (g_heap g !! s) as [c|]; simpl; [|done].
    destruct (_ && _); simpl; [by apply send_accounts|]. apply (counts_refl (Some _)).
  - rewrite bool_decide_false by done. destruct (g_heap g !! s) as [c|]; [apply (counts_refl (Some _))|done].
Qed.

Lemma connect_counts now s' uuid handshake s g :
  g_heap g !! s' = None ->
  counts (addressed_by options (GwConnect s' uuid handshake) s g) (writer_at s g)
    (writer_at s match handleConnection toISOString size options now s' uuid handshake g with inr g' => g' | inl _ => g end).
Proof.
  intros Hnew. unfold handleConnection, addressed_by. destruct handshake as [|user]; [apply counts_refl|].
  destruct (decide (ro_maxConnections options <= Z.of_nat (length (g_bySocket g)))) as [Hmax|Hmax].
  - rewrite decide_False by lia. apply counts_refl.
  - match goal with |- context [add s' ?x g] => set (c := x) end.
    assert (forall x, writer_at x (add s' c g) = if decide (x = s') then Some (cn_writer c) else writer_at x g) as Hadd.
    { intros x. unfold add, writer_at. match goal with |- context [foldl _ ?g0 ?rooms] => destruct (fold_index rooms s' g0) as (-> & _) end.
      simpl. case_decide as Hx; [subst x; by rewrite lookup_insert_eq|by rewrite lookup_insert_ne]. }
    match goal with |- context [send_to _ _ now s' ?f _] => pose proof (send_to_counts toISOString size now s' f s (add s' c g) ltac:(done)) as Hs end.
    destruct (decide (s' = s)) as [->|Hne].
    + rewrite decide_True by (split_and!; [done|done|lia]). specialize (Hadd s). rewrite decide_True in Hadd by done.
      replace 1 with (0 + 1) by lia. eapply counts_trans; [|apply Hs].
      * rewrite Hadd. unfold writer_at. rewrite Hnew. by simpl.
      * unfold writer_at in Hadd. destruct (g_heap (add s c g) !! s); [by eexists|done].
    + rewrite decide_False by naive_solver. pose proof (Hadd s) as Hs'. rewrite decide_False in Hs' by done. rewrite <-Hs'. apply Hs.
      specialize (Hadd s'). rewrite decide_True in Hadd by done. unfold writer_at in Hadd. destruct (g_heap (add s' c g) !! s'); [by eexists|done].
Qed.

(** Every event sends a connection what it means to, or counts it as lost. *)
Lemma event_counts e s g :
  gateway_ok g -> counts (addressed_by options e.2 s g) (writer_at s g) (writer_at s (gateway_event toISOString size options e g)).
Proof.
  intros Hg. destruct e as [now [s' uuid handshake|s'|s' body|s' body|event| |s'|s' payload|s' bytes|]]; cbn [snd gateway_event].
  - destruct (g_heap g !! s') eqn:Hnew; [|by apply connect_counts]. unfold addressed_by. destruct handshake; [apply counts_refl|].
    rewrite decide_False by (intros (-> & ? & _); congruence). apply counts_refl.
  - unfold handleDisconnect. rewrite remove_writers. apply counts_refl.
  - unfold handleSubscribe, addressed_by, get. destruct (decide (s' ∈ g_bySocket g)) as [Hin|Hin].
    2: { rewrite decide_False by naive_solver. apply counts_refl. }
    destruct (ry_heap _ _ (gw_registry _ Hg) s' Hin) as [c Hc]. rewrite Hc.
    destruct (parseRooms options c body Join) as [err|rooms]; [by apply answer_counts|].
    pose proof (fun x => filter_rooms_writers join_room s' rooms g x (fun room g => join_writers s' room g x)) as Hw.
    destruct (filter_rooms join_room s' rooms g) as [joined g']. by apply answer_counts.
  - unfold handleUnsubscribe, addressed_by, get. destruct (decide (s' ∈ g_bySocket g)) as [Hin|Hin].
    2: { rewrite decide_False by naive_solver. apply counts_refl. }
    destruct (ry_heap _ _ (gw_registry _ Hg) s' Hin) as [c Hc]. rewrite Hc.
    destruct (parseRooms options c body Leave) as [err|rooms]; [by apply answer_counts|].
    pose proof (fun x => filter_rooms_writers leave_room s' rooms g x (fun room g => leave_writers s' room g x)) as Hw.
    destruct (filter_rooms leave_room s' rooms g) as [gone g']. by apply answer_counts.
  - by apply publish_counts.
  - pose proof (fold_heap_counts (sweep_one toISOString size now) s 0 (g_bySocket g) g (sweep_accounts _ _ now) (sweep_accounts _ _ now) (fun _ => or_introl eq_refl)) as H.
    by destruct (decide (s ∈ g_bySocket g)).
  - pose proof (on_heap_counts (with_pong false) s' s 0 g (fun c => counts_refl (Some (cn_writer c))) (or_introl eq_refl)) as H. by case_decide.
  - assert (forall c, accounts 0 (cn_writer c) (cn_writer (with_writer (pinged payload) c))) as Hp.
    { intros c. simpl. unfold pinged. destruct (isOpen (cn_writer c)) eqn:Ho; [|apply (counts_refl (Some _))]. intros _. split; [done|]. symmetry. apply Z.add_0_r. }
    pose proof (on_heap_counts _ s' s 0 g Hp (or_introl eq_refl)) as H. by case_decide.
  - assert (forall c, accounts 0 (cn_writer c) (cn_writer (with_writer (drain bytes) c))) as Hp
      by (intros c Ho; split; [exact Ho|symmetry; apply Z.add_0_r]).
    pose proof (on_heap_counts _ s' s 0 g Hp (or_introl eq_refl)) as H. by case_decide.
  - apply fold_heap_counts; [apply shutdown_accounts|apply shutdown_accounts|]. intros Hin. right. by apply (ry_heap _ _ (gw_registry _ Hg)).
Qed.

Lemma run_counts s events g :
  gateway_ok g -> counts (addressed toISOString size options s events g) (writer_at s g) (writer_at s (gateway_run toISOString size options events g)).
Proof.
  revert g. induction events as [|e events IH]; intros g Hg; [apply counts_refl|]. cbn [addressed]. eapply counts_trans; [by apply event_counts|].
  by apply IH, gateway_event_ok.
Qed.

Let reached (events : list (Z * GatewayEvent)) : Gateway := gateway_run toISOString size options events newGateway.

(** The rooms and the connections always agree.  Whatever connects, subscribes,
    leaves and disconnects: a socket is among a room's members exactly when it
    is registered and its connection holds the room; no room is left empty and
    none lists a member twice; no connection holds more rooms than configured,
    nor the gateway more sockets. *)
Theorem rooms_and_connections_agree events :
  (forall room s, s ∈ membersOf room (reached events) <->
    s ∈ g_bySocket (reached events) /\ room ∈ rooms_of s (reached events)) /\
  (forall room members, g_byRoom (reached events) !! room = Some members -> members <> [] /\ NoDup members) /\
  (forall s, (length (rooms_of s (reached events)) <= Nat.max 1 (ro_maxRoomsPerConnection options))%nat) /\
  Z.of_nat (length (g_bySocket (reached events))) <= Z.max 0 (ro_maxConnections options).
Proof.
  destruct (realtime_run_ok events) as [[_ _ Hz Hm He Hr] _]. split_and!; [done|done| |done]. intros s. apply Hr.
Qed.

(** A room is a filter and never a permission.  Every domain event ever written
    to a socket is one [isVisibleTo] lets its account see, whichever rooms it
    has joined and whatever else happened. *)
Theorem realtime_only_visible events s c event :
  g_heap (reached events) !! s = Some c -> DomainEventFrame event ∈ sk_sent (bp_socket (cn_writer c)) ->
  isVisibleTo event (cn_audience c) = true.
Proof. intros Hc. destruct (gw_conns _ (realtime_run_ok events) s c Hc) as [Hw _]. apply (wo_visible _ _ _ Hw). Qed.


(** A broadcast offers an event once to each connection it concerns, and to no
    other: a registered connection that is in a room of the event and may see it
    is sent the frame exactly once, even when it is in both of its rooms, and
    every other connection is left as it was. *)
Theorem broadcast_exact events now event s :
  g_heap (broadcast toISOString size now event (reached events)) !! s =
  (fun c => if bool_decide (s ∈ g_bySocket (reached events)) &&
               existsb (fun room => bool_decide (room ∈ cn_rooms c)) (roomsFor event) &&
               isVisibleTo event (cn_audience c)
            then with_writer (fun w => snd (bp_send toISOString size now (DomainEventFrame event) w)) c else c) <$>
  g_heap (reached events) !! s.
Proof. apply broadcast_heap, realtime_run_ok. Qed.

End gateway_facts.

(** ** Witnesses *)

Definition demo_size (f : RealtimeFrame) : Z := 100.
Definition demo_iso (t : Z) : JSText := js (pretty t).
Definition demo_rt_options : RealtimeOptions := {|
  ro_maxConnections := 10; ro_maxRoomsPerConnection := 4; ro_sendHighWaterMarkBytes := 250; ro_slowConsumerGraceMs := 1000;
  ro_heartbeatIntervalMs := 5000 |}.
Definition user (id role : string) : AuthenticatedUser := {| us_id := js id; us_email := js "m"; us_role := js role; us_tenantId := js "acme" |}.
Definition subscribing (rooms : list string) : JsonValue := JObject [("rooms"%string, JArray ((fun r => JString (js r)) <$> rooms))].

(** An administrator joins an event room and its own account's, falls behind,
    and drains. *)
Definition demo_gateway_events : list (Z * GatewayEvent) := [
  (0, GwConnect 7 "c7" (inr (user "root" "ADMIN")));
  (0, GwConnect 8 "c8" (inr (user "u1" "USER")));
  (1, GwSubscribe 7 (subscribing ["events:user.registered"; "user:u1"]));
  (1, GwSubscribe 8 (subscribing ["events:user.registered"]));
  (2, GwPublish (about "user.registered" "u1" "e1"));
  (3, GwPublish (about "user.registered" "u1" "e2"));
  (4, GwDrain 7 300);
  (5, GwPublish (about "user.registered" "u1" "e3"))].

Abbreviation demo_gateway := (gateway_run demo_iso demo_size demo_rt_options demo_gateway_events newGateway).

Lemma demo_size_bound f : 0 <= demo_size f <= 100.
Proof. done. Qed.

(** The ordinary account's attempt on the event room is refused; the
    administrator is told of the frame it missed. *)
Example demo_gateway_frames :
  ((fun c => sk_sent (bp_socket (cn_writer c))) <$> g_heap demo_gateway !! 7%nat) = Some [
    WelcomeFrame "c7" (js "root") (js "ADMIN") [js "user:root"] 5000 4 250;
    SubscribedFrame [js "events:user.registered"; js "user:u1"] [js "user:root"; js "events:user.registered"; js "user:u1"];
    DomainEventFrame (about "user.registered" "u1" "e1"); LaggedFrame 1 (js "3");
    DomainEventFrame (about "user.registered" "u1" "e3")] /\
  ((fun c => sk_sent (bp_socket (cn_writer c))) <$> g_heap demo_gateway !! 8%nat) = Some [
    WelcomeFrame "c8" (js "u1") (js "USER") [js "user:u1"] 5000 4 250;
    ErrorFrame ForbiddenRoom (js "This account may not subscribe to that room.") (Some (js "events:user.registered"));
    DomainEventFrame (about "user.registered" "u1" "e1")].
Proof. split; vm_compute; reflexivity. Qed.

Lemma rooms_and_connections_agree_witness :
  8%nat ∈ membersOf (js "user:u1") demo_gateway /\ (length (rooms_of 7 demo_gateway) <= 4)%nat.
Proof.
  destruct (rooms_and_connections_agree demo_iso demo_size demo_rt_options 100 demo_size_bound ltac:(done) demo_gateway_events)
    as (Hm & _ & Hr & _).
  split; [|exact (Hr 7%nat)]. apply (Hm (js "user:u1") 8%nat). split; apply (bool_decide_unpack _); vm_compute; exact I.
Defined.

Lemma realtime_only_visible_witness :
  exists c, g_heap demo_gateway !! 8%nat = Some c /\ isVisibleTo (about "user.registered" "u1" "e1") (cn_audience c) = true.
Proof.
  destruct (g_heap demo_gateway !! 8%nat) as [c|] eqn:Hc; [|vm_compute in Hc; discriminate]. exists c. split; [reflexivity|].
  apply (realtime_only_visible demo_iso demo_size demo_rt_options 100 demo_size_bound ltac:(done) demo_gateway_events 8 c
    (about "user.registered" "u1" "e1") Hc).
  vm_compute in Hc. injection Hc as <-. simpl. right. right. left.
Defined.


Lemma broadcast_exact_witness :
  g_heap (broadcast demo_iso demo_size 6 (about "user.deleted" "u2" "e4") demo_gateway) !! 8%nat = g_heap demo_gateway !! 8%nat.
Proof.
  rewrite (broadcast_exact demo_iso demo_size demo_rt_options 100 demo_size_bound ltac:(done) demo_gateway_events 6
    (about "user.deleted" "u2" "e4") 8).
  vm_compute. reflexivity.
Defined.

(** The sweep looks at the clock before it looks at the buffer: a peer that has
    drained completely, but was sent nothing since, is closed as a slow consumer
    once the grace window has passed. *)
Lemma review_closes_drained_peer :
  let w := {| bp_socket := newSocket; bp_options := {| highWaterMarkBytes := 250; graceMs := 1000 |};
              bp_laggingSince := Some 0; bp_droppedWhileLagging := 1; bp_droppedTotal := 1 |} in
  sk_bufferedAmount (bp_socket w) = 0 /\
  sk_close (bp_socket (review demo_iso demo_size 1000 w)) = Some (SLOW_CONSUMER, js "slow consumer: 1 frames dropped").
Proof. split; vm_compute; reflexivity. Qed.

(** What the protocol itself writes is bounded by nothing: a peer that sends
    pings and reads nothing makes the socket buffer as many pongs as it likes,
    and is not lagging as long as it is in no room that has events. *)
Lemma pongs_are_not_held_back n :
  exists c, g_heap (gateway_run demo_iso demo_size demo_rt_options ((0, GwConnect 7 "c7" (inr (user "u1" "USER"))) :: replicate n (1, GwPing 7 125)) newGateway) !! 7%nat = Some c /\
    isOpen (cn_writer c) = true /\ bp_laggingSince (cn_writer c) = None /\ sk_bufferedAmount (bp_socket (cn_writer c)) = 100 + 127 * Z.of_nat n.
Proof.
  unfold gateway_run. cbn [foldl].
  set (g := gateway_event _ _ _ _ newGateway). assert (exists c, g_heap g !! 7%nat = Some c /\ isOpen (cn_writer c) = true /\
    bp_laggingSince (cn_writer c) = None /\ sk_bufferedAmount (bp_socket (cn_writer c)) = 100) as Hg by (vm_compute; eauto).
  clearbody g. revert g Hg. generalize 100.
  induction n as [|n IH]; intros b g (c & Hc & Ho & Hl & Hb); [exists c; split_and!; [done..|simpl; lia]|]. cbn [replicate foldl].
  destruct (IH (b + 127) (gateway_event demo_iso demo_size demo_rt_options (1, GwPing 7 125) g)) as (c' & H1 & H2 & H3 & H4).
  - eexists. split; [simpl; by rewrite lookup_alter_eq, Hc|]. simpl. unfold pinged. rewrite Ho. split_and!; [done|done|]. simpl. rewrite Hb. lia.
  - exists c'. split_and!; [done..|]. lia.
Qed.
