(* ===== verification/Crypto.v ===== *)
(** * Crypto: encrypted columns

    [crypto/encrypted-field.ts], [crypto/field-envelope.ts],
    [crypto/field-encryption.service.ts], [crypto/data-key-cache.ts], the port
    [crypto/ports/key-provider.port.ts] and its local adapter,
    [crypto/adapters/local-master-key.key-provider.ts].  AES-256-GCM and base64
    are parameters; random bytes are arguments. *)

From S2P Require Import Prelude Text Json AuditLog.

Abbreviation Bytes := (list N).

(** ** Fields and what is bound to their values *)

Record EncryptedField := { ef_table : string; ef_column : string }.

(** Why the local provider refuses a wrapped key: not its framing, or the tag
    does not check out. *)
Inductive UnwrapRefusal := NotWrappedHere | NotAuthentic.

Inductive CryptoError :=
  | EnvelopeFormatError (reason : JSText)
  | InvalidEncryptedFieldError (message : JSText)
  | FieldDecryptionError (field : EncryptedField) (recordId : JSText)
  | KeyProviderError (operation message : string)
  | DataKeyUnwrapError (reason : UnwrapRefusal)
  | OtherError (message : JSText).

Definition FIELD_ENCRYPTION_VERSION : JSText := js "field-encryption-v1".

(** [/^[A-Za-z_][A-Za-z0-9_]*$/] *)
Definition identStart (c : N) : bool :=
  bool_decide (65 <= c <= 90)%N || bool_decide (97 <= c <= 122)%N || bool_decide (c = 95%N).
Definition identPart (c : N) : bool := identStart c || isDigitUnit c.
Definition IDENTIFIER (s : string) : bool :=
  match js s with c :: rest => identStart c && forallb identPart rest | [] => false end.

Section fields.
Context (stringifyString : JSText -> JSText).

Definition unusable (part value : string) : CryptoError :=
  InvalidEncryptedFieldError (stringifyString (js value) ++ js (" is not a usable " +:+ part +:+
    " name. It is bound into the authenticated data of every value in this column and read back by an operator in a key-use log, so it has to be a plain identifier.")).

Definition encryptedField (table column : string) : CryptoError + EncryptedField :=
  if negb (IDENTIFIER table) then inl (unusable "table" table)
  else if negb (IDENTIFIER column) then inl (unusable "column" column)
  else inr {| ef_table := table; ef_column := column |}.
End fields.

Definition fieldName (field : EncryptedField) : string := ef_table field +:+ "." +:+ ef_column field.

(** A record of strings, in the order its properties were written. *)
Definition EncryptionContext : Type := list (string * JSText).

Definition fieldKeyContext (field : EncryptedField) : EncryptionContext :=
  [("purpose", FIELD_ENCRYPTION_VERSION); ("table", js (ef_table field)); ("column", js (ef_column field))]%string.

Definition part (name : string) (value : JSText) : JSText :=
  js name ++ js ":" ++ js (pretty (byteLength value)) ++ js ":" ++ value ++ [10%N].

Definition recordAad (field : EncryptedField) (recordId : JSText) : CryptoError + Bytes :=
  if decide (recordId = []) then
    inl (InvalidEncryptedFieldError (js ("A value in " +:+ fieldName field +:+
      " cannot be encrypted without the id of the record it belongs to: the id is what stops the ciphertext being readable on another row.")))
  else inr (utf8 (part "version" FIELD_ENCRYPTION_VERSION ++ part "table" (js (ef_table field)) ++
    part "column" (js (ef_column field)) ++ part "record" recordId)).

(** ** The envelope *)

Definition IV_BYTES : nat := 12.
Definition TAG_BYTES : nat := 16.
Definition DATA_KEY_BYTES : nat := 32.
Definition ENVELOPE_FORMAT_VERSION : N := 1.
Definition HEADER_BYTES : nat := 1 + 2 + IV_BYTES + TAG_BYTES.

Record DataKey := { dk_plaintext : Bytes; dk_wrapped : Bytes }.

Record ParsedEnvelope := { pe_wrappedKey : Bytes; pe_iv : Bytes; pe_tag : Bytes; pe_ciphertext : Bytes }.

(** [source.copy(target, start)]: what does not fit is left out. *)
Definition copy (source target : Bytes) (start : nat) : Bytes :=
  take start target ++ take (length target - start) source ++ drop (start + length source) target.

Definition writeUInt8 (value : N) (target : Bytes) (offset : nat) : Bytes := copy [value] target offset.
Definition writeUInt16BE (value : nat) (target : Bytes) (offset : nat) : Bytes :=
  copy [N.of_nat (value / 256); N.of_nat (value mod 256)] target offset.

Definition serialiseEnvelope (envelope : ParsedEnvelope) : CryptoError + Bytes :=
  if decide (length (pe_wrappedKey envelope) = 0%nat \/ 65535 < Z.of_nat (length (pe_wrappedKey envelope)))
  then inl (EnvelopeFormatError (js ("a wrapped data key of " +:+ pretty (length (pe_wrappedKey envelope)) +:+
    " bytes does not fit the format, which stores the length as a uint16")))
  else
    let header := replicate HEADER_BYTES 0%N in
    let header := writeUInt8 ENVELOPE_FORMAT_VERSION header 0 in
    let header := writeUInt16BE (length (pe_wrappedKey envelope)) header 1 in
    let header := copy (pe_iv envelope) header 3 in
    let header := copy (pe_tag envelope) header (3 + IV_BYTES) in
    inr (header ++ pe_wrappedKey envelope ++ pe_ciphertext envelope).

Definition subarray (start stop : nat) (bytes : Bytes) : Bytes := take (stop - start) (drop start bytes).

Definition readUInt16BE (bytes : Bytes) (offset : nat) : nat :=
  (N.to_nat (bytes !!! offset) * 256 + N.to_nat (bytes !!! S offset))%nat.

Definition parseEnvelope (bytes : Bytes) : CryptoError + ParsedEnvelope :=
  if decide (length bytes < HEADER_BYTES)%nat
  then inl (EnvelopeFormatError (js (pretty (length bytes) +:+ " bytes is shorter than the " +:+ pretty HEADER_BYTES +:+ "-byte header")))
  else
  let version := bytes !!! 0%nat in
  if decide (version <> ENVELOPE_FORMAT_VERSION)
  then inl (EnvelopeFormatError (js ("format version " +:+ pretty version +:+ " is not " +:+ pretty ENVELOPE_FORMAT_VERSION +:+
    ", which is the only one this build can read")))
  else
  let wrappedKeyLength := readUInt16BE bytes 1 in
  if decide (wrappedKeyLength = 0%nat) then inl (EnvelopeFormatError (js "the wrapped data key is empty"))
  else if decide (length bytes < HEADER_BYTES + wrappedKeyLength)%nat
  then inl (EnvelopeFormatError (js ("the header claims a " +:+ pretty wrappedKeyLength +:+ "-byte wrapped data key, which overruns the " +:+
    pretty (length bytes) +:+ " bytes stored")))
  else inr {|
    pe_iv := subarray 3 (3 + IV_BYTES) bytes;
    pe_tag := subarray (3 + IV_BYTES) HEADER_BYTES bytes;
    pe_wrappedKey := subarray HEADER_BYTES (HEADER_BYTES + wrappedKeyLength) bytes;
    pe_ciphertext := drop (HEADER_BYTES + wrappedKeyLength) bytes |}.

Definition assertDataKeyLength (key : Bytes) : CryptoError + unit :=
  if decide (length key <> DATA_KEY_BYTES)
  then inl (EnvelopeFormatError (js ("a data key of " +:+ pretty (length key) +:+ " bytes cannot drive AES-256, which needs " +:+ pretty DATA_KEY_BYTES)))
  else inr tt.

(** ** AES-256-GCM *)

(** What the platform's cipher promises: a tag of 16 bytes, and that what was
    sealed opens under the same key, IV and additional data. *)
Class Gcm := {
  gcm_seal : Bytes -> Bytes -> Bytes -> Bytes -> Bytes * Bytes;
  gcm_open : Bytes -> Bytes -> Bytes -> Bytes -> Bytes -> option Bytes;
  gcm_tag_length key iv aad plaintext : length (snd (gcm_seal key iv aad plaintext)) = TAG_BYTES;
  gcm_length key iv aad plaintext : length (fst (gcm_seal key iv aad plaintext)) = length plaintext;
  gcm_opens key iv aad plaintext :
    gcm_open key iv aad (fst (gcm_seal key iv aad plaintext)) (snd (gcm_seal key iv aad plaintext)) = Some plaintext;
}.

(** ** Key providers *)

(** The port: [random] is what [randomBytes] gave, a data key and an IV. *)
Class KeyProvider := {
  generateDataKey : EncryptionContext -> Bytes * Bytes -> CryptoError + DataKey;
  unwrapDataKey : Bytes -> EncryptionContext -> CryptoError + Bytes;
}.

Definition fresh_random (random : Bytes * Bytes) : Prop := length (fst random) = DATA_KEY_BYTES /\ length (snd random) = IV_BYTES.

(** What the port promises its clients. *)
Class KeyProviderLaws (P : KeyProvider) : Prop := {
  generated_length context random key : fresh_random random -> generateDataKey context random = inr key ->
    length (dk_plaintext key) = DATA_KEY_BYTES;
  generated_fits context random key : fresh_random random -> generateDataKey context random = inr key ->
    0 < Z.of_nat (length (dk_wrapped key)) <= 65535;
  generated_unwraps context random key : fresh_random random -> generateDataKey context random = inr key ->
    unwrapDataKey (dk_wrapped key) context = inr (dk_plaintext key);
}.

Definition WRAP_VERSION : N := 1.

Definition context_le (a b : string * JSText) : Prop := String.leb (fst a) (fst b) = true.

#[export] Instance context_le_dec : RelDecision context_le.
Proof. intros a b. unfold context_le. apply _. Defined.

Definition contextAad (context : EncryptionContext) : Bytes :=
  utf8 (js ("local-wrap-v" +:+ pretty WRAP_VERSION) ++ [10%N] ++
    concat ((fun kv => js (pretty (byteLength (js (fst kv)))) ++ js ":" ++ js (fst kv) ++ js "=" ++
      js (pretty (byteLength (snd kv))) ++ js ":" ++ snd kv ++ [10%N]) <$> merge_sort context_le context)).

Section local_provider.
Context `{Gcm}.

(** [decodeMasterKey] of the configured value; base64 is the platform's. *)
Context (fromBase64 : JSText -> Bytes) (toBase64 : Bytes -> JSText).

(** [value.replace(/=+$/, "")] *)
Fixpoint drop_equals (t : JSText) : JSText := match t with c :: rest => if decide (c = 61%N) then drop_equals rest else t | [] => [] end.
Definition strip_padding (t : JSText) : JSText := reverse (drop_equals (reverse t)).

Definition decodeMasterKey (raw : option JSText) : option Bytes :=
  match raw with
  | None => None
  | Some raw =>
      let value := trimText raw in
      if decide (value = []) then None
      else
      let decoded := fromBase64 value in
      if decide (length decoded <> DATA_KEY_BYTES) then None
      else if decide (strip_padding (toBase64 decoded) <> strip_padding value) then None
      else if decide (decoded = replicate DATA_KEY_BYTES 0%N) then None
      else Some decoded
  end.

Definition requireMasterKey (masterKey : option Bytes) (operation : string) : CryptoError + Bytes :=
  match masterKey with
  | None => inl (KeyProviderError operation ("ENCRYPTION_LOCAL_MASTER_KEY is not set to " +:+ pretty DATA_KEY_BYTES +:+ " base64-encoded bytes"))
  | Some key => inr key
  end.

Definition local_generateDataKey (masterKey : option Bytes) (context : EncryptionContext) (random : Bytes * Bytes) : CryptoError + DataKey :=
  match requireMasterKey masterKey "generateDataKey" with
  | inl e => inl e
  | inr master =>
      let '(plaintext, iv) := random in
      let '(sealed, tag) := gcm_seal master iv (contextAad context) plaintext in
      inr {| dk_plaintext := plaintext; dk_wrapped := [WRAP_VERSION] ++ iv ++ tag ++ sealed |}
  end.

Definition local_unwrapDataKey (masterKey : option Bytes) (wrapped : Bytes) (context : EncryptionContext) : CryptoError + Bytes :=
  match requireMasterKey masterKey "unwrapDataKey" with
  | inl e => inl e
  | inr master =>
      let minimum := (1 + IV_BYTES + TAG_BYTES)%nat in
      if decide (length wrapped <> (minimum + DATA_KEY_BYTES)%nat \/ wrapped !!! 0%nat <> WRAP_VERSION)
      then inl (DataKeyUnwrapError NotWrappedHere)
      else match gcm_open master (subarray 1 (1 + IV_BYTES) wrapped) (contextAad context) (drop minimum wrapped) (subarray (1 + IV_BYTES) minimum wrapped) with
      | Some plaintext => inr plaintext
      | None => inl (DataKeyUnwrapError NotAuthentic)
      end
  end.

Definition LocalMasterKeyProvider (masterKey : option Bytes) : KeyProvider := {|
  generateDataKey := local_generateDataKey masterKey; unwrapDataKey := local_unwrapDataKey masterKey |}.

End local_provider.

(** ** The service *)

Section service.
Context `{Gcm}.

Definition sealField (dataKey : DataKey) (plaintext aad iv : Bytes) : CryptoError + Bytes :=
  match assertDataKeyLength (dk_plaintext dataKey) with
  | inl e => inl e
  | inr _ =>
      let '(ciphertext, tag) := gcm_seal (dk_plaintext dataKey) iv aad plaintext in
      serialiseEnvelope {| pe_wrappedKey := dk_wrapped dataKey; pe_iv := iv; pe_tag := tag; pe_ciphertext := ciphertext |}
  end.

Definition openField (key : Bytes) (envelope : ParsedEnvelope) (aad : Bytes) : CryptoError + Bytes :=
  match assertDataKeyLength key with
  | inl e => inl e
  | inr _ =>
      match gcm_open key (pe_iv envelope) aad (pe_ciphertext envelope) (pe_tag envelope) with
      | Some plaintext => inr plaintext
      | None => inl (OtherError (js "Unsupported state or unable to authenticate data"))
      end
  end.

(** [encrypt], once the cache has given its key. *)
Definition encrypt (field : EncryptedField) (recordId : JSText) (plaintext : Bytes) (dataKey : DataKey) (iv : Bytes) : CryptoError + Bytes :=
  match recordAad field recordId with
  | inl e => inl e
  | inr aad => sealField dataKey plaintext aad iv
  end.

Context `{HP : KeyProvider}.

Definition isFormatError (e : CryptoError) : bool := match e with EnvelopeFormatError _ => true | _ => false end.

(** The data key is asked of the provider; that the cache answers with the same
    key for a column and a wrapped key is [KeyCache.unwrap_answers]. *)
Definition decrypt (field : EncryptedField) (recordId : JSText) (stored : Bytes) : CryptoError + Bytes :=
  match parseEnvelope stored with
  | inl e => inl e
  | inr envelope =>
      match
        match unwrapDataKey (pe_wrappedKey envelope) (fieldKeyContext field) with
        | inl e => inl e
        | inr dataKey =>
            match recordAad field recordId with
            | inl e => inl e
            | inr aad => openField dataKey envelope aad
            end
        end
      with
      | inl e => inl (if isFormatError e then e else FieldDecryptionError field recordId)
      | inr plaintext => inr plaintext
      end
  end.

(** [JSON.stringify] and [JSON.parse] through UTF-8. *)
Context (stringify : JsonValue -> Bytes) (parse : Bytes -> option JsonValue).

Definition encryptJson (field : EncryptedField) (recordId : JSText) (value : JsonValue) (dataKey : DataKey) (iv : Bytes) : CryptoError + Bytes :=
  encrypt field recordId (stringify value) dataKey iv.

Definition decryptJson (field : EncryptedField) (recordId : JSText) (stored : Bytes) : CryptoError + JsonValue :=
  match decrypt field recordId stored with
  | inl e => inl e
  | inr plaintext => match parse plaintext with Some value => inr value | None => inl (FieldDecryptionError field recordId) end
  end.

End service.

(** ** The envelope is canonical *)

Lemma copy_middle source a b c : length b = length source -> copy source (a ++ b ++ c) (length a) = a ++ source ++ c.
Proof.
  intros Hl. unfold copy. rewrite take_app_length. f_equal. rewrite !length_app.
  rewrite take_ge by lia. f_equal. rewrite drop_app_ge by lia.
  replace (length a + length source - length a)%nat with (length b) by lia. apply drop_app_length.
Qed.

Lemma subarray_middle a b c n m : n = length a -> m = (n + length b)%nat -> subarray n m (a ++ b ++ c) = b.
Proof.
  intros -> ->. unfold subarray. rewrite drop_app_length. replace (length a + length b - length a)%nat with (length b) by lia.
  apply take_app_length.
Qed.

Definition envelope_ok (e : ParsedEnvelope) : Prop :=
  length (pe_iv e) = IV_BYTES /\ length (pe_tag e) = TAG_BYTES /\ 0 < Z.of_nat (length (pe_wrappedKey e)) <= 65535.

(** The bytes of an envelope. *)
Definition layout (hi lo : N) (e : ParsedEnvelope) : Bytes :=
  [ENVELOPE_FORMAT_VERSION; hi; lo] ++ pe_iv e ++ pe_tag e ++ pe_wrappedKey e ++ pe_ciphertext e.

Lemma serialise_layout e :
  envelope_ok e ->
  serialiseEnvelope e = inr (layout (N.of_nat (length (pe_wrappedKey e) / 256)) (N.of_nat (length (pe_wrappedKey e) mod 256)) e).
Proof.
  intros (Hiv & Htag & Hw). unfold serialiseEnvelope. rewrite decide_False by lia. f_equal.
  unfold layout. rewrite !app_assoc. do 2 f_equal. unfold writeUInt8, writeUInt16BE.
  change (replicate HEADER_BYTES 0%N) with ([] ++ [0%N] ++ [0; 0]%N ++ replicate 12 0%N ++ replicate 16 0%N).
  rewrite (copy_middle [ENVELOPE_FORMAT_VERSION] []) by done. cbn [app length].
  change (ENVELOPE_FORMAT_VERSION :: 0%N :: 0%N :: ?r) with ([ENVELOPE_FORMAT_VERSION] ++ [0; 0]%N ++ r).
  set (hi := N.of_nat _). set (lo := N.of_nat _).
  rewrite (copy_middle [hi; lo] [ENVELOPE_FORMAT_VERSION] [0; 0]%N) by done. rewrite app_assoc.
  change 3%nat with (length ([ENVELOPE_FORMAT_VERSION] ++ [hi; lo])) at 1.
  rewrite (copy_middle (pe_iv e)) by done. rewrite <-(app_nil_r (replicate 16 0%N)), (app_assoc _ (pe_iv e)).
  replace (3 + IV_BYTES)%nat with (length (([ENVELOPE_FORMAT_VERSION] ++ [hi; lo]) ++ pe_iv e)) by (rewrite length_app, Hiv; done).
  rewrite (copy_middle (pe_tag e)) by (by rewrite Htag). by rewrite app_nil_r, <-!app_assoc.
Qed.

Lemma parse_layout hi lo e :
  length (pe_iv e) = IV_BYTES -> length (pe_tag e) = TAG_BYTES ->
  (N.to_nat hi * 256 + N.to_nat lo)%nat = length (pe_wrappedKey e) -> length (pe_wrappedKey e) <> 0%nat ->
  parseEnvelope (layout hi lo e) = inr e.
Proof.
  intros Hiv Htag Hlen Hnz. unfold parseEnvelope.
  assert (length (layout hi lo e) = (HEADER_BYTES + length (pe_wrappedKey e) + length (pe_ciphertext e))%nat) as Hl.
  { unfold layout. rewrite !length_app, Hiv, Htag. simpl. lia. }
  rewrite decide_False by lia. change (layout hi lo e !!! 0%nat) with ENVELOPE_FORMAT_VERSION. rewrite decide_False by (intros []; done).
  assert (readUInt16BE (layout hi lo e) 1 = length (pe_wrappedKey e)) as -> by exact Hlen.
  rewrite decide_False by done. rewrite decide_False by lia. f_equal. destruct e as [w iv tag c]; simpl in *. unfold layout. simpl pe_iv. simpl pe_tag.
  simpl pe_wrappedKey. simpl pe_ciphertext. f_equal.
  - rewrite 2!app_assoc, subarray_middle; [done| |done]. rewrite !length_app, Hiv, Htag. done.
  - apply subarray_middle; [done|by rewrite Hiv].
  - rewrite app_assoc. apply subarray_middle; [by rewrite length_app, Hiv|by rewrite Htag].
  - rewrite !app_assoc. rewrite drop_app_length'; [done|]. rewrite !length_app, Hiv, Htag. done.
Qed.

(** What was read is where it was read from. *)
Lemma parse_inv bytes e :
  parseEnvelope bytes = inr e ->
  exists hi lo, bytes = layout hi lo e /\ length (pe_iv e) = IV_BYTES /\ length (pe_tag e) = TAG_BYTES /\
    (N.to_nat hi * 256 + N.to_nat lo)%nat = length (pe_wrappedKey e) /\ length (pe_wrappedKey e) <> 0%nat.
Proof.
  unfold parseEnvelope. case_decide as Hl; [done|]. destruct (decide (_ <> _)) as [|Hv]; [done|]. apply dec_stable in Hv.
  destruct (decide (_ = _)) as [|Hnz]; [done|]. destruct (decide (_ < _)%nat) as [|Hw]; [done|]. intros [= <-]. simpl pe_iv. simpl pe_tag. simpl pe_wrappedKey.
  unfold HEADER_BYTES, IV_BYTES, TAG_BYTES in *. change (1 + 2 + 12 + 16)%nat with 31%nat in *. change (3 + 12)%nat with 15%nat.
  destruct bytes as [|v [|hi [|lo rest]]]; [simpl in Hl; lia..|]. exists hi, lo.
  set (n := readUInt16BE _ 1) in *. assert (n = N.to_nat hi * 256 + N.to_nat lo)%nat as Hn by reflexivity. clearbody n.
  change (v = ENVELOPE_FORMAT_VERSION) in Hv. subst v. unfold subarray. cbn [length drop] in *. change (31 + n)%nat with (S (S (S (28 + n)))).
  cbn [drop]. rewrite !length_take, !length_drop. split_and!; [|lia|lia|lia|lia].
  unfold layout. simpl pe_iv. simpl pe_tag. simpl pe_wrappedKey. simpl pe_ciphertext. cbn [app]. do 3 f_equal.
  change (15 - 3)%nat with 12%nat. replace (S (S (S (28 + n))) - 31)%nat with n by lia.
  rewrite <-(take_drop 12 rest) at 1. f_equal. rewrite <-(take_drop 16 (drop 12 rest)) at 1. rewrite drop_drop. f_equal.
  change (12 + 16)%nat with 28%nat. rewrite Nat.sub_0_r, <-(take_drop n (drop 28 rest)) at 1. f_equal. by rewrite drop_drop.
Qed.

(** The stored form is canonical.  For bytes, [parseEnvelope] answers an
    envelope exactly when [serialiseEnvelope] prints those bytes for it, and
    then its IV has 12 bytes and its tag 16: nothing that was written is
    misread, and no two envelopes share a stored form. *)
Theorem envelope_roundtrip bytes e :
  Forall (fun b => b < 256)%N bytes ->
  parseEnvelope bytes = inr e <->
  serialiseEnvelope e = inr bytes /\ length (pe_iv e) = IV_BYTES /\ length (pe_tag e) = TAG_BYTES.
Proof.
  intros Hb. split.
  - intros Hp. destruct (parse_inv _ _ Hp) as (hi & lo & -> & Hiv & Htag & Hlen & Hnz). split_and!; [|done|done].
    apply Forall_cons in Hb as [_ Hb]. apply Forall_cons in Hb as [Hhi Hb]. apply Forall_cons in Hb as [Hlo _]. cbn beta in Hhi, Hlo.
    assert (envelope_ok e) as Hok by (split_and!; [done|done|lia|lia]).
    rewrite (serialise_layout _ Hok), <-Hlen. do 2 f_equal.
    + rewrite Nat.div_add_l by lia. rewrite Nat.div_small by lia. lia.
    + rewrite Nat.add_comm, Nat.Div0.mod_add, Nat.mod_small by lia. lia.
  - intros (Hs & Hiv & Htag). assert (envelope_ok e) as Hok.
    { revert Hs. unfold serialiseEnvelope. case_decide; [done|]. intros _. split_and!; [done|done|lia|lia]. }
    rewrite (serialise_layout _ Hok) in Hs. injection Hs as <-. destruct Hok as (_ & _ & Hw). apply parse_layout; [done|done| |lia].
    rewrite !Nat2N.id, Nat.mul_comm. symmetry. apply Nat.div_mod_eq.
Qed.

(** ** The local provider keeps the port's promises *)

#[export] Instance local_provider_laws `{Gcm} (masterKey : option Bytes) : KeyProviderLaws (LocalMasterKeyProvider masterKey).
Proof.
  assert (forall context random key, fresh_random random -> local_generateDataKey masterKey context random = inr key ->
    exists master, masterKey = Some master /\ dk_plaintext key = fst random /\
    dk_wrapped key = [WRAP_VERSION] ++ snd random ++ snd (gcm_seal master (snd random) (contextAad context) (fst random)) ++
      fst (gcm_seal master (snd random) (contextAad context) (fst random))) as Hgen.
  { intros context [plaintext iv] key _. unfold local_generateDataKey, requireMasterKey. destruct masterKey as [master|]; [|done].
    destruct (gcm_seal master iv (contextAad context) plaintext) as [sealed tag] eqn:Hs. intros [= <-]. exists master. simpl. by rewrite Hs. }
  constructor; intros context random key Hr Hg; destruct (Hgen context random key Hr Hg) as (master & -> & Hp & Hw); destruct Hr as [Hr1 Hr2].
  - by rewrite Hp.
  - rewrite Hw, !length_app, Hr2, gcm_tag_length, gcm_length, Hr1. unfold IV_BYTES, TAG_BYTES, DATA_KEY_BYTES. simpl. lia.
  - simpl. unfold local_unwrapDataKey. simpl. rewrite decide_False.
    + rewrite Hw, Hp. rewrite subarray_middle; [|done|by rewrite Hr2].
      rewrite app_assoc, subarray_middle; [|by rewrite length_app, Hr2|by rewrite gcm_tag_length].
      rewrite app_assoc, drop_app_length' by (rewrite !length_app, Hr2, gcm_tag_length; done). by rewrite gcm_opens.
    + rewrite Hw, !length_app, Hr2, gcm_tag_length, gcm_length, Hr1. by intros [[]|[]].
Qed.

(** ** The service *)

Section service_facts.
Context `{Gcm} `{HP : KeyProvider} `{!KeyProviderLaws HP}.

(** C26: what was encrypted for a record is read back for it.  A value encrypted
    under a data key a provider generated for the column, whatever the value,
    the record and the random bytes, is stored, and decrypting it for the same
    column and record returns it. *)
Theorem field_encryption_roundtrip field recordId plaintext random iv dataKey :
  fresh_random random -> length iv = IV_BYTES -> recordId <> [] ->
  generateDataKey (fieldKeyContext field) random = inr dataKey ->
  exists stored, encrypt field recordId plaintext dataKey iv = inr stored /\ decrypt field recordId stored = inr plaintext.
Proof.
  intros Hr Hiv Hid Hg. pose proof (generated_length _ _ _ Hr Hg) as Hlen. pose proof (generated_fits _ _ _ Hr Hg) as Hfits.
  pose proof (generated_unwraps _ _ _ Hr Hg) as Hun.
  assert (exists aad, recordAad field recordId = inr aad) as [aad Haad] by (unfold recordAad; rewrite decide_False by done; eauto).
  unfold encrypt, decrypt. rewrite Haad. unfold sealField, assertDataKeyLength. rewrite decide_False by (intros []; done).
  destruct (gcm_seal (dk_plaintext dataKey) iv aad plaintext) as [ciphertext tag] eqn:Hs.
  pose proof (gcm_tag_length (dk_plaintext dataKey) iv aad plaintext) as Htag. pose proof (gcm_opens (dk_plaintext dataKey) iv aad plaintext) as Hopen.
  rewrite Hs in Htag, Hopen. simpl in Htag, Hopen.
  set (e := {| pe_wrappedKey := dk_wrapped dataKey; pe_iv := iv; pe_tag := tag; pe_ciphertext := ciphertext |}).
  assert (envelope_ok e) as Hok by done. rewrite (serialise_layout e Hok). eexists. split; [done|].
  rewrite parse_layout; [|done|done|by rewrite !Nat2N.id, Nat.mul_comm; symmetry; apply Nat.div_mod_eq|simpl; lia].
  change (pe_wrappedKey e) with (dk_wrapped dataKey). rewrite Hun. unfold openField, assertDataKeyLength.
  rewrite decide_False by (intros []; done). simpl. by rewrite Hopen.
Qed.

Lemma recordAad_fields f r aad :
  recordAad f r = inr aad ->
  utf8 (field "version" (Some FIELD_ENCRYPTION_VERSION) ++ field "table" (Some (js (ef_table f))) ++
    field "column" (Some (js (ef_column f))) ++ field "record" (Some r) ++ []) = aad.
Proof. unfold recordAad. case_decide; [done|]. intros Haad%(inj inr). by rewrite app_nil_r. Qed.

(** The additional data of two records differ unless they are the same record of
    the same column. *)
Lemma recordAad_inj f1 r1 f2 r2 aad :
  recordAad f1 r1 = inr aad -> recordAad f2 r2 = inr aad ->
  utf8 (js (ef_table f1)) = utf8 (js (ef_table f2)) /\ utf8 (js (ef_column f1)) = utf8 (js (ef_column f2)) /\ utf8 r1 = utf8 r2.
Proof.
  intros E%recordAad_fields <-%recordAad_fields.
  apply field_inj in E as [_ E]; [|by apply ascii_text_dec|by apply field_start..].
  apply field_inj in E as [Ht E]; [|by apply ascii_text_dec|by apply field_start..].
  apply field_inj in E as [Hc E]; [|by apply ascii_text_dec|by apply field_start..].
  apply field_inj in E as [Hr _]; [|by apply ascii_text_dec|done..].
  by apply some_utf8_inj in Ht, Hc, Hr.
Qed.

(** The ciphertext and tag sealed for one record open, under whatever key the
    column of another unwraps, with the additional data of that other record. *)
Definition accepts_moved (f1 : EncryptedField) (r1 : JSText) (f2 : EncryptedField) (r2 : JSText) (plaintext : Bytes) (dataKey : DataKey) (iv : Bytes) : Prop :=
  exists key aad1 aad2 plaintext', recordAad f1 r1 = inr aad1 /\ recordAad f2 r2 = inr aad2 /\ aad1 <> aad2 /\
    unwrapDataKey (dk_wrapped dataKey) (fieldKeyContext f2) = inr key /\
    let sealed := gcm_seal (dk_plaintext dataKey) iv aad1 plaintext in gcm_open key iv aad2 (fst sealed) (snd sealed) = Some plaintext'.

(** C19: a stored value is readable on its own row only.  If the bytes that were
    stored for one record of a column decrypt for a record and a column, it is
    that record of that column (compared as the bytes they are hashed as), or
    AES-GCM has accepted this very ciphertext under the additional data of the
    other record. *)
Theorem field_ciphertext_bound f1 r1 f2 r2 plaintext plaintext' dataKey iv stored :
  length iv = IV_BYTES ->
  encrypt f1 r1 plaintext dataKey iv = inr stored -> decrypt f2 r2 stored = inr plaintext' ->
  (utf8 (js (ef_table f1)) = utf8 (js (ef_table f2)) /\ utf8 (js (ef_column f1)) = utf8 (js (ef_column f2)) /\ utf8 r1 = utf8 r2) \/
  accepts_moved f1 r1 f2 r2 plaintext dataKey iv.
Proof.
  intros Hiv. unfold encrypt, decrypt. destruct (recordAad f1 r1) as [|aad] eqn:Haad; [done|]. unfold sealField.
  destruct (assertDataKeyLength _); [done|]. destruct (gcm_seal (dk_plaintext dataKey) iv aad plaintext) as [ciphertext tag] eqn:Hs.
  pose proof (gcm_tag_length (dk_plaintext dataKey) iv aad plaintext) as Htag. rewrite Hs in Htag. simpl in Htag.
  set (e := {| pe_wrappedKey := dk_wrapped dataKey; pe_iv := iv; pe_tag := tag; pe_ciphertext := ciphertext |}).
  intros Hser. assert (envelope_ok e) as Hok.
  { revert Hser. unfold serialiseEnvelope. case_decide; [done|]. intros _. split_and!; [done|done|lia|lia]. }
  rewrite (serialise_layout e Hok) in Hser. injection Hser as <-. destruct Hok as (_ & _ & Hw).
  rewrite parse_layout; [|done|done|by rewrite !Nat2N.id, Nat.mul_comm; symmetry; apply Nat.div_mod_eq|lia].
  simpl. destruct (unwrapDataKey _ _) as [|key] eqn:Hun; [done|]. destruct (recordAad f2 r2) as [|aad'] eqn:Haad'; [done|].
  unfold openField. destruct (assertDataKeyLength key); [done|]. simpl. destruct (gcm_open _ _ _ _ _) as [p|] eqn:Hopen; [|done].
  intros _. destruct (decide (aad = aad')) as [->|Hne]; [left; by eapply recordAad_inj|].
  right. exists key, aad, aad', p. split_and!; [done..|]. by rewrite Hs.
Qed.

End service_facts.

(** ** Samples *)

(** A cipher that encrypts nothing and whose tag is the sum of what it covers,
    sixteen times over: enough for its own promises. *)
Definition sample_tag (key iv aad plaintext : Bytes) : Bytes :=
  replicate TAG_BYTES (foldr N.add 0 (key ++ iv ++ aad ++ plaintext) mod 256)%N.

#[export] Instance sample_gcm : Gcm.
Proof.
  refine {|
    gcm_seal key iv aad plaintext := (plaintext, sample_tag key iv aad plaintext);
    gcm_open key iv aad ciphertext tag := if decide (tag = sample_tag key iv aad ciphertext) then Some ciphertext else None |}.
  - done.
  - done.
  - intros. simpl. by rewrite decide_True.
Defined.

Definition sample_field : EncryptedField := {| ef_table := "orders"; ef_column := "items" |}.
Definition sample_random : Bytes * Bytes := (replicate 32 7%N, replicate 12 9%N).
Definition sample_provider : KeyProvider := LocalMasterKeyProvider (Some (replicate 32 5%N)).
Definition sample_key : DataKey := {|
  dk_plaintext := replicate 32 7%N;
  dk_wrapped := [WRAP_VERSION] ++ replicate 12 9%N ++
    sample_tag (replicate 32 5%N) (replicate 12 9%N) (contextAad (fieldKeyContext sample_field)) (replicate 32 7%N) ++ replicate 32 7%N |}.

Definition sample_stored : Bytes :=
  match encrypt sample_field (js "o1") [1; 2; 3]%N sample_key (replicate 12 4%N) with inr stored => stored | inl _ => [] end.

Definition sample_envelope : ParsedEnvelope := {|
  pe_wrappedKey := [1; 2]%N; pe_iv := replicate 12 4%N; pe_tag := replicate 16 8%N; pe_ciphertext := [9; 9; 9]%N |}.

Lemma envelope_roundtrip_witness :
  parseEnvelope (layout 0 2 sample_envelope) = inr sample_envelope <->
  serialiseEnvelope sample_envelope = inr (layout 0 2 sample_envelope) /\
  length (pe_iv sample_envelope) = IV_BYTES /\ length (pe_tag sample_envelope) = TAG_BYTES.
Proof. apply (envelope_roundtrip (layout 0 2 sample_envelope) sample_envelope). vm_compute. repeat constructor. Defined.

Lemma field_encryption_roundtrip_witness :
  exists stored, encrypt sample_field (js "o1") [1; 2; 3]%N sample_key (replicate 12 4%N) = inr stored /\
    decrypt (HP := sample_provider) sample_field (js "o1") stored = inr [1; 2; 3]%N.
Proof.
  apply (field_encryption_roundtrip (HP := sample_provider) sample_field (js "o1") [1; 2; 3]%N sample_random (replicate 12 4%N) sample_key).
  - done.
  - done.
  - done.
  - vm_compute. reflexivity.
Defined.

Lemma field_ciphertext_bound_witness :
  (utf8 (js "orders") = utf8 (js "orders") /\ utf8 (js "items") = utf8 (js "items") /\ utf8 (js "o1") = utf8 (js "o1")) \/
  accepts_moved (HP := sample_provider) sample_field (js "o1") sample_field (js "o1") [1; 2; 3]%N sample_key (replicate 12 4%N).
Proof.
  apply (field_ciphertext_bound (HP := sample_provider) sample_field (js "o1") sample_field (js "o1") [1; 2; 3]%N [1; 2; 3]%N
    sample_key (replicate 12 4%N) sample_stored).
  - done.
  - vm_compute. reflexivity.
  - vm_compute. reflexivity.
Defined.

(** The same bytes are refused on another row, and another column's. *)
Example moved_value_refused :
  decrypt (HP := sample_provider) sample_field (js "o2") sample_stored = inl (FieldDecryptionError sample_field (js "o2")).
Proof. vm_compute. reflexivity. Qed.
