(* ===== verification/KeyCache.v ===== *)
(** * KeyCache: the data keys a process keeps

    [crypto/data-key-cache.ts] with the service as its source
    ([mint] and [unwrap] of [crypto/field-encryption.service.ts]) and
    [crypto/key-provider.factory.ts].  An event is one stretch of code between
    two awaits: a call up to its first await, the [then] and the [finally] of a
    mint, the continuation of a caller that waited.  Mints and unwraps are
    numbered in the order they start, and a promise is its number. *)

From Stdlib Require Import QArith.
From S2P Require Import Prelude Text Json AuditLog Crypto.
Open Scope Z_scope.

(** ** Maps in insertion order *)

Section assoc.
Context {K V : Type} `{EqDecision K}.

Fixpoint assoc_get (k : K) (l : list (K * V)) : option V :=
  match l with (k', v) :: l => if decide (k = k') then Some v else assoc_get k l | [] => None end.

Fixpoint assoc_set (k : K) (v : V) (l : list (K * V)) : list (K * V) :=
  match l with (k', v') :: l => if decide (k = k') then (k, v) :: l else (k', v') :: assoc_set k v l | [] => [(k, v)] end.

Fixpoint assoc_delete (k : K) (l : list (K * V)) : list (K * V) :=
  match l with (k', v) :: l => if decide (k = k') then l else (k', v) :: assoc_delete k l | [] => [] end.

Lemma assoc_get_elem k v l : assoc_get k l = Some v -> (k, v) ∈ l.
Proof.
  induction l as [|[k' v'] l IH]; simpl; [done|]. case_decide; [intros [= ->]; subst; constructor|].
  intros. right. auto.
Qed.

Lemma assoc_set_elem k v l x : x ∈ assoc_set k v l -> x = (k, v) \/ x ∈ l.
Proof.
  induction l as [|[k' v'] l IH]; simpl; [set_solver|]. case_decide; rewrite !elem_of_cons; naive_solver.
Qed.

Lemma assoc_delete_elem k l x : x ∈ assoc_delete k l -> x ∈ l.
Proof. induction l as [|[k' v'] l IH]; simpl; [done|]. case_decide; rewrite !elem_of_cons; naive_solver. Qed.
End assoc.

(** ** State *)

Record DataKeyCacheOptions := {
  co_ttlMs : Z;
  co_maxUses : Z;
  co_maxDecryptEntries : Z;
  co_refreshFraction : Q;
}.

Record ActiveKey := {
  ak_key : DataKey;
  ak_uses : Z;
  ak_expiresAt : Z;
  ak_refreshAt : Z;
  ak_maxUses : Z;
  ak_refreshAfterUses : Z;
}.

Record UnwrappedEntry := { ue_plaintext : nat; ue_expiresAt : Z }.

(** Where the promise of a mint stands: the source is still at work; the [then]
    has run; the source has thrown; the [finally] has run after either. *)
Inductive MintStatus := MintPending | MintStored | MintThrew (e : CryptoError) | MintSettled | MintFailed (e : CryptoError).

(** [mc_background]: the mint was started by [refreshInBackground], whose [catch] logs. *)
Record MintCall := { mc_field : EncryptedField; mc_status : MintStatus; mc_background : bool }.

(** A call that awaits a mint. *)
Inductive MintWaiter := WaitsForKey (field : EncryptedField) | WaitsToPrepare (field : EncryptedField).

(** [kc_entries] is the heap: the entry a mint made, under the mint's number.
    [kc_unwrapped] keeps its insertion order. *)
Record DataKeyCache := {
  kc_entries : gmap nat ActiveKey;
  kc_active : gmap string nat;
  kc_minting : gmap string nat;
  kc_unwrapped : list (JSText * UnwrappedEntry);
  kc_mints : list MintCall;
  kc_unwraps : list (EncryptedField * Bytes);
  kc_waiting : list (MintWaiter * nat);
}.

(** What a call did: called the source, handed out the key of a mint, began to
    wait for one, threw, answered a promise of [unwrap], logged. *)
Inductive KcOutput :=
  | SourceMint (m : nat) (field : EncryptedField)
  | HandedOut (field : EncryptedField) (m : nat) (key : DataKey)
  | Waits (field : EncryptedField) (m : nat)
  | Prepared (field : EncryptedField)
  | Rejected (field : EncryptedField) (e : CryptoError)
  | Warned (name : string)
  | SourceUnwrap (u : nat) (field : EncryptedField) (wrapped : Bytes)
  | UnwrapAnswered (field : EncryptedField) (wrapped : Bytes) (u : nat) (now expiresAt : Z).

Definition with_entries (f : gmap nat ActiveKey -> gmap nat ActiveKey) (c : DataKeyCache) : DataKeyCache :=
  {| kc_entries := f (kc_entries c); kc_active := kc_active c; kc_minting := kc_minting c; kc_unwrapped := kc_unwrapped c;
     kc_mints := kc_mints c; kc_unwraps := kc_unwraps c; kc_waiting := kc_waiting c |}.
Definition with_active (f : gmap string nat -> gmap string nat) (c : DataKeyCache) : DataKeyCache :=
  {| kc_entries := kc_entries c; kc_active := f (kc_active c); kc_minting := kc_minting c; kc_unwrapped := kc_unwrapped c;
     kc_mints := kc_mints c; kc_unwraps := kc_unwraps c; kc_waiting := kc_waiting c |}.
Definition with_minting (f : gmap string nat -> gmap string nat) (c : DataKeyCache) : DataKeyCache :=
  {| kc_entries := kc_entries c; kc_active := kc_active c; kc_minting := f (kc_minting c); kc_unwrapped := kc_unwrapped c;
     kc_mints := kc_mints c; kc_unwraps := kc_unwraps c; kc_waiting := kc_waiting c |}.
Definition with_mints (f : list MintCall -> list MintCall) (c : DataKeyCache) : DataKeyCache :=
  {| kc_entries := kc_entries c; kc_active := kc_active c; kc_minting := kc_minting c; kc_unwrapped := kc_unwrapped c;
     kc_mints := f (kc_mints c); kc_unwraps := kc_unwraps c; kc_waiting := kc_waiting c |}.
Definition with_waiting (f : list (MintWaiter * nat) -> list (MintWaiter * nat)) (c : DataKeyCache) : DataKeyCache :=
  {| kc_entries := kc_entries c; kc_active := kc_active c; kc_minting := kc_minting c; kc_unwrapped := kc_unwrapped c;
     kc_mints := kc_mints c; kc_unwraps := kc_unwraps c; kc_waiting := f (kc_waiting c) |}.
Definition with_unwrapped (u : list (JSText * UnwrappedEntry)) (calls : list (EncryptedField * Bytes)) (c : DataKeyCache) : DataKeyCache :=
  {| kc_entries := kc_entries c; kc_active := kc_active c; kc_minting := kc_minting c; kc_unwrapped := u;
     kc_mints := kc_mints c; kc_unwraps := calls; kc_waiting := kc_waiting c |}.

Definition used (e : ActiveKey) : ActiveKey :=
  {| ak_key := ak_key e; ak_uses := ak_uses e + 1; ak_expiresAt := ak_expiresAt e; ak_refreshAt := ak_refreshAt e;
     ak_maxUses := ak_maxUses e; ak_refreshAfterUses := ak_refreshAfterUses e |}.
Definition with_mint_status (s : MintStatus) (m : MintCall) : MintCall :=
  {| mc_field := mc_field m; mc_status := s; mc_background := mc_background m |}.

(** The constructor. *)
Definition newDataKeyCache (o : DataKeyCacheOptions) : string + DataKeyCache :=
  if decide (co_ttlMs o <= 0 \/ co_maxUses o <= 0 \/ co_maxDecryptEntries o <= 0)
  then inl "DataKeyCache needs a positive ttlMs, maxUses and maxDecryptEntries: a zero budget means a KMS call for every value, which is the cost this cache exists to remove."%string
  else if Qle_bool (co_refreshFraction o) 0 || Qle_bool 1 (co_refreshFraction o)
  then inl "DataKeyCache refreshFraction must be between 0 and 1, exclusive"%string
  else inr {| kc_entries := ∅; kc_active := ∅; kc_minting := ∅; kc_unwrapped := []; kc_mints := []; kc_unwraps := []; kc_waiting := [] |}.

Section cache.
Context (o : DataKeyCacheOptions).

(** [Math.floor(x * fraction)] in doubles, and [toString("base64")]. *)
Context (floorTimes : Z -> Q -> Z) (base64 : Bytes -> JSText).

Definition isSpent (now : Z) (entry : ActiveKey) : bool :=
  bool_decide (ak_expiresAt entry <= now) || bool_decide (ak_maxUses entry <= ak_uses entry).

Definition shouldRefresh (now : Z) (entry : ActiveKey) : bool :=
  bool_decide (ak_refreshAt entry <= now) || bool_decide (ak_refreshAfterUses entry <= ak_uses entry).

Definition newEntry (now : Z) (key : DataKey) : ActiveKey := {|
  ak_key := key; ak_uses := 0; ak_expiresAt := now + co_ttlMs o;
  ak_refreshAt := now + floorTimes (co_ttlMs o) (co_refreshFraction o);
  ak_maxUses := co_maxUses o;
  ak_refreshAfterUses := Z.max 1 (floorTimes (co_maxUses o) (co_refreshFraction o)) |}.

(** [mint]: the promise in flight, or a new one. *)
Definition mint (background : bool) (field : EncryptedField) (name : string) (c : DataKeyCache) : DataKeyCache * nat * list KcOutput :=
  match kc_minting c !! name with
  | Some m => (c, m, [])
  | None =>
      let m := length (kc_mints c) in
      (with_minting <[name := m]> (with_mints (fun l => l ++ [{| mc_field := field; mc_status := MintPending; mc_background := background |}]) c),
       m, [SourceMint m field])
  end.

Definition refreshInBackground (field : EncryptedField) (name : string) (c : DataKeyCache) : DataKeyCache * list KcOutput :=
  match kc_minting c !! name with
  | Some _ => (c, [])
  | None => let '(c, _, out) := mint true field name c in (c, out)
  end.

(** The entry a field may be encrypted with now. *)
Definition unspent (name : string) (now : Z) (c : DataKeyCache) : option (nat * ActiveKey) :=
  match kc_active c !! name with
  | None => None
  | Some m => match kc_entries c !! m with
              | Some entry => if isSpent now entry then None else Some (m, entry)
              | None => None
              end
  end.

Definition encryptionKey (field : EncryptedField) (now : Z) (c : DataKeyCache) : DataKeyCache * list KcOutput :=
  let name := fieldName field in
  match unspent name now c with
  | Some (m, existing) =>
      let existing := used existing in
      let c := with_entries <[m := existing]> c in
      let '(c, out) := if shouldRefresh now existing then refreshInBackground field name c else (c, []) in
      (c, out ++ [HandedOut field m (ak_key existing)])
  | None =>
      let '(c, m, out) := mint false field name c in
      (with_waiting (fun w => w ++ [(WaitsForKey field, m)]) c, out ++ [Waits field m])
  end.

Definition prepare (field : EncryptedField) (now : Z) (c : DataKeyCache) : DataKeyCache * list KcOutput :=
  let name := fieldName field in
  match unspent name now c with
  | Some _ => (c, [Prepared field])
  | None =>
      let '(c, m, out) := mint false field name c in
      (with_waiting (fun w => w ++ [(WaitsToPrepare field, m)]) c, out)
  end.

(** The [then] of a mint, with what the source answered. *)
Definition mintThen (m : nat) (answer : CryptoError + DataKey) (now : Z) (c : DataKeyCache) : option (DataKeyCache * list KcOutput) :=
  match kc_mints c !! m with
  | Some ({| mc_status := MintPending |} as call) =>
      Some (match answer with
            | inl e => (with_mints <[m := with_mint_status (MintThrew e) call]> c, [])
            | inr key =>
                (with_mints <[m := with_mint_status MintStored call]>
                   (with_active <[fieldName (mc_field call) := m]> (with_entries <[m := newEntry now key]> c)), [])
            end)
  | _ => None
  end.

(** The [finally] of a mint, and the [catch] of a background one after it. *)
Definition mintFinally (m : nat) (c : DataKeyCache) : option (DataKeyCache * list KcOutput) :=
  match kc_mints c !! m with
  | Some call =>
      let name := fieldName (mc_field call) in
      let c := with_minting (delete name) c in
      match mc_status call with
      | MintStored => Some (with_mints <[m := with_mint_status MintSettled call]> c, [])
      | MintThrew e => Some (with_mints <[m := with_mint_status (MintFailed e) call]> c, if mc_background call then [Warned name] else [])
      | _ => None
      end
  | None => None
  end.

(** The continuation of the [i]-th call that waits. *)
Definition resume (i : nat) (c : DataKeyCache) : option (DataKeyCache * list KcOutput) :=
  match kc_waiting c !! i with
  | None => None
  | Some (waiter, m) =>
      let c' := with_waiting (delete i) c in
      match mc_status <$> kc_mints c !! m, waiter with
      | Some MintSettled, WaitsForKey field =>
          match kc_entries c !! m with
          | Some fresh => Some (with_entries <[m := used fresh]> c', [HandedOut field m (ak_key fresh)])
          | None => None
          end
      | Some MintSettled, WaitsToPrepare field => Some (c', [Prepared field])
      | Some (MintFailed e), (WaitsForKey field | WaitsToPrepare field) => Some (c', [Rejected field e])
      | _, _ => None
      end
  end.

(** *** Unwrapped keys *)

Definition cacheKey (field : EncryptedField) (wrapped : Bytes) : JSText := js (fieldName field) ++ [124%N] ++ base64 wrapped.

(** The loop drops the first entry while there are too many. *)
Fixpoint evictOldestUnwrapped (l : list (JSText * UnwrappedEntry)) : list (JSText * UnwrappedEntry) :=
  if decide (co_maxDecryptEntries o < Z.of_nat (length l)) then match l with _ :: rest => evictOldestUnwrapped rest | [] => [] end else l.

Definition unwrap (field : EncryptedField) (wrapped : Bytes) (now : Z) (c : DataKeyCache) : DataKeyCache * list KcOutput :=
  let key := cacheKey field wrapped in
  let miss (cached : list (JSText * UnwrappedEntry)) :=
    let u := length (kc_unwraps c) in
    let cached := assoc_set key {| ue_plaintext := u; ue_expiresAt := now + co_ttlMs o |} cached in
    (with_unwrapped (evictOldestUnwrapped cached) (kc_unwraps c ++ [(field, wrapped)]) c,
     [SourceUnwrap u field wrapped; UnwrapAnswered field wrapped u now (now + co_ttlMs o)]) in
  match assoc_get key (kc_unwrapped c) with
  | Some hit => if decide (now < ue_expiresAt hit) then (c, [UnwrapAnswered field wrapped (ue_plaintext hit) now (ue_expiresAt hit)])
                else miss (assoc_delete key (kc_unwrapped c))
  | None => miss (kc_unwrapped c)
  end.

(** The [catch] of an unwrap that was rejected. *)
Definition unwrapCatch (u : nat) (c : DataKeyCache) : option (DataKeyCache * list KcOutput) :=
  match kc_unwraps c !! u with
  | Some (field, wrapped) => Some (with_unwrapped (assoc_delete (cacheKey field wrapped) (kc_unwrapped c)) (kc_unwraps c) c, [])
  | None => None
  end.

Definition clear (c : DataKeyCache) : DataKeyCache :=
  with_unwrapped [] (kc_unwraps c) (with_minting (fun _ => ∅) (with_active (fun _ => ∅) c)).

Definition sizes (c : DataKeyCache) : nat * nat := (size (kc_active c), length (kc_unwrapped c)).

Inductive KcEvent :=
  | EEncryptionKey (field : EncryptedField) (now : Z)
  | EPrepare (field : EncryptedField) (now : Z)
  | EMintThen (m : nat) (answer : CryptoError + DataKey) (now : Z)
  | EMintFinally (m : nat)
  | EResume (i : nat)
  | EUnwrap (field : EncryptedField) (wrapped : Bytes) (now : Z)
  | EUnwrapCatch (u : nat)
  | EClear.

Definition kc_step (e : KcEvent) (c : DataKeyCache) : option (DataKeyCache * list KcOutput) :=
  match e with
  | EEncryptionKey field now => Some (encryptionKey field now c)
  | EPrepare field now => Some (prepare field now c)
  | EMintThen m answer now => mintThen m answer now c
  | EMintFinally m => mintFinally m c
  | EResume i => resume i c
  | EUnwrap field wrapped now => Some (unwrap field wrapped now c)
  | EUnwrapCatch u => unwrapCatch u c
  | EClear => Some (clear c, [])
  end.

Fixpoint kc_run (es : list KcEvent) (c : DataKeyCache) : option (DataKeyCache * list KcOutput) :=
  match es with
  | [] => Some (c, [])
  | e :: es => match kc_step e c with
               | Some (c, out) => match kc_run es c with Some (c, out') => Some (c, out ++ out') | None => None end
               | None => None
               end
  end.

End cache.

(** ** Budgets *)

Definition count (p : KcOutput -> bool) (out : list KcOutput) : Z := Z.of_nat (length (List.filter p out)).
Definition hands_out (m : nat) (x : KcOutput) : bool := match x with HandedOut _ m' _ => bool_decide (m' = m) | _ => false end.
Definition waits_for (m : nat) (x : KcOutput) : bool := match x with Waits _ m' => bool_decide (m' = m) | _ => false end.

(** How many values were encrypted under the key of mint [m], and how many calls
    have waited for it. *)
Definition handed (m : nat) (out : list KcOutput) : Z := count (hands_out m) out.
Definition waits (m : nat) (out : list KcOutput) : Z := count (waits_for m) out.
Definition key_waiter (m : nat) (w : MintWaiter * nat) : bool :=
  match w with (WaitsForKey _, m') => bool_decide (m' = m) | _ => false end.
Definition waiting (m : nat) (ws : list (MintWaiter * nat)) : Z := Z.of_nat (length (List.filter (key_waiter m) ws)).

Lemma count_app p a b : count p (a ++ b) = count p a + count p b.
Proof. unfold count. rewrite List.filter_app, length_app. lia. Qed.
Lemma count_nonneg p a : 0 <= count p a.
Proof. unfold count. lia. Qed.
Lemma waiting_app m a b : waiting m (a ++ b) = waiting m a + waiting m b.
Proof. unfold waiting. rewrite List.filter_app, length_app. lia. Qed.
Lemma waiting_delete m ws i w :
  ws !! i = Some w -> waiting m ws = waiting m (delete i ws) + (if key_waiter m w then 1 else 0).
Proof.
  intros Hi. rewrite <-(take_drop_middle _ _ _ Hi) at 1. rewrite delete_take_drop.
  change (w :: drop (S i) ws) with ([w] ++ drop (S i) ws). rewrite !waiting_app. unfold waiting at 2. simpl. destruct (key_waiter m w); simpl; lia.
Qed.

Section budget.
Context (o : DataKeyCacheOptions) (floorTimes : Z -> Q -> Z) (base64 : Bytes -> JSText).

(** Mint [m] was made for a column of this name. *)
Definition minted_for (c : DataKeyCache) (m : nat) (name : string) : Prop :=
  exists call, kc_mints c !! m = Some call /\ fieldName (mc_field call) = name.

Definition finished (s : MintStatus) : bool := match s with MintStored | MintSettled => true | _ => false end.

Record kc_inv (c : DataKeyCache) (out : list KcOutput) : Prop := {
  inv_entry m entry : kc_entries c !! m = Some entry ->
    ak_uses entry = handed m out /\ ak_maxUses entry = co_maxUses o /\
    exists call, kc_mints c !! m = Some call /\ finished (mc_status call) = true;
  inv_no_entry m : kc_entries c !! m = None -> handed m out = 0;
  inv_budget m : handed m out + waiting m (kc_waiting c) <= co_maxUses o + waits m out;
  inv_waits m : waiting m (kc_waiting c) <= waits m out;
  inv_active name m : kc_active c !! name = Some m -> minted_for c m name;
  inv_minting name m : kc_minting c !! name = Some m -> minted_for c m name;
  inv_waiting field m : (WaitsForKey field, m) ∈ kc_waiting c -> minted_for c m (fieldName field);
  inv_handed field m key : HandedOut field m key ∈ out ->
    minted_for c m (fieldName field) /\ exists entry, kc_entries c !! m = Some entry /\ ak_key entry = key;
  inv_source m call : kc_mints c !! m = Some call -> SourceMint m (mc_field call) ∈ out;
}.

(** Outputs that hand nothing out, start no wait and are of no mint. *)
Definition quiet (x : KcOutput) : Prop := match x with HandedOut _ _ _ | Waits _ _ => False | _ => True end.

Lemma quiet_counts m out : Forall quiet out -> handed m out = 0 /\ waits m out = 0.
Proof. unfold handed, waits, count. induction 1 as [|x out Hx _ IH]; [done|]. destruct x; simpl in *; done. Qed.

Lemma quiet_no_hand field m key out : Forall quiet out -> HandedOut field m key ∉ out.
Proof. intros Hq Hin. rewrite Forall_forall in Hq. exact (Hq _ Hin). Qed.

(** Mints are only added, keep their column, and do not come undone. *)
Definition grows (c c' : DataKeyCache) : Prop :=
  forall m call, kc_mints c !! m = Some call ->
    exists call', kc_mints c' !! m = Some call' /\ mc_field call' = mc_field call /\
      (finished (mc_status call) = true -> finished (mc_status call') = true).

Lemma grows_refl c : grows c c.
Proof. intros m call Hm. exists call. done. Qed.

Lemma grows_minted c c' m name : grows c c' -> minted_for c m name -> minted_for c' m name.
Proof. intros Hg (call & Hm & Hn). destruct (Hg _ _ Hm) as (call' & Hm' & Hf & _). exists call'. by rewrite Hf. Qed.

Lemma inv_quiet c out c' out' :
  kc_inv c out -> grows c c' -> kc_entries c' = kc_entries c -> Forall quiet out' ->
  (forall m, waiting m (kc_waiting c') <= waiting m (kc_waiting c)) ->
  (forall field m, (WaitsForKey field, m) ∈ kc_waiting c' -> (WaitsForKey field, m) ∈ kc_waiting c) ->
  (forall name m, kc_active c' !! name = Some m -> kc_active c !! name = Some m) ->
  (forall name m, kc_minting c' !! name = Some m -> minted_for c' m name) ->
  (forall m call, kc_mints c' !! m = Some call -> SourceMint m (mc_field call) ∈ out ++ out') ->
  kc_inv c' (out ++ out').
Proof.
  intros HI Hg He Hq Hw Hwe Ha Hm Hs.
  assert (forall m, handed m (out ++ out') = handed m out /\ waits m (out ++ out') = waits m out) as Hc.
  { intros m. destruct (quiet_counts m _ Hq) as [H1 H2]. unfold handed, waits in *. rewrite !count_app. lia. }
  constructor.
  - intros m entry Hm'. rewrite He in Hm'. destruct (inv_entry _ _ HI _ _ Hm') as (Hu & Hmax & call & Hcall & Hf).
    destruct (Hg _ _ Hcall) as (call' & ? & _ & ?). rewrite (proj1 (Hc m)). split_and!; eauto.
  - intros m Hm'. rewrite He in Hm'. rewrite (proj1 (Hc m)). by apply (inv_no_entry _ _ HI).
  - intros m. destruct (Hc m) as [-> ->]. pose proof (inv_budget _ _ HI m). pose proof (Hw m). lia.
  - intros m. destruct (Hc m) as [_ ->]. pose proof (inv_waits _ _ HI m). pose proof (Hw m). lia.
  - intros name m Hm'. eapply grows_minted, (inv_active _ _ HI); eauto.
  - exact Hm.
  - intros field m Hin. eapply grows_minted, (inv_waiting _ _ HI); eauto.
  - intros field m key [Hin|Hin]%elem_of_app; [|by apply quiet_no_hand in Hin].
    destruct (inv_handed _ _ HI _ _ _ Hin) as (? & entry & ? & ?). split; [by eapply grows_minted|]. exists entry. by rewrite He.
  - exact Hs.
Qed.

Lemma inv_hand c out field m entry :
  kc_inv c out -> kc_entries c !! m = Some entry -> minted_for c m (fieldName field) ->
  handed m out + 1 + waiting m (kc_waiting c) <= co_maxUses o + waits m out ->
  kc_inv (with_entries <[m := used entry]> c) (out ++ [HandedOut field m (ak_key entry)]).
Proof.
  intros HI He Hm Hb.
  assert (forall m', handed m' (out ++ [HandedOut field m (ak_key entry)]) = handed m' out + if decide (m = m') then 1 else 0) as Hh.
  { intros m'. unfold handed. rewrite count_app. unfold count at 2. simpl. case_decide; [rewrite bool_decide_eq_true_2 by done|rewrite bool_decide_eq_false_2 by done]; simpl; lia. }
  assert (forall m', waits m' (out ++ [HandedOut field m (ak_key entry)]) = waits m' out) as Hw.
  { intros m'. unfold waits. rewrite count_app. unfold count at 2. simpl. lia. }
  constructor; simpl.
  - intros m' entry'. rewrite Hh. destruct (decide (m = m')) as [<-|Hne].
    + rewrite lookup_insert_eq. intros [= <-]. simpl. destruct (inv_entry _ _ HI _ _ He) as (-> & -> & Hx). split_and!; [done|done|exact Hx].
    + rewrite lookup_insert_ne by done. rewrite Z.add_0_r. apply (inv_entry _ _ HI).
  - intros m' [Hm' Hne]%lookup_insert_None. rewrite Hh, decide_False by done. rewrite Z.add_0_r. by apply (inv_no_entry _ _ HI).
  - intros m'. rewrite Hh, Hw. pose proof (inv_budget _ _ HI m'). case_decide; subst; lia.
  - intros m'. rewrite Hw. apply (inv_waits _ _ HI).
  - apply (inv_active _ _ HI).
  - apply (inv_minting _ _ HI).
  - apply (inv_waiting _ _ HI).
  - intros f m' key [Hin|Hin%list_elem_of_singleton]%elem_of_app.
    + destruct (inv_handed _ _ HI _ _ _ Hin) as (? & entry' & He' & Hk). split; [done|].
      destruct (decide (m = m')) as [<-|Hne]; [|exists entry'; by rewrite lookup_insert_ne].
      rewrite He in He'. injection He' as <-. exists (used entry). by rewrite lookup_insert_eq.
    + injection Hin as -> -> ->. split; [done|]. exists (used entry). by rewrite lookup_insert_eq.
  - intros m' call Hcall. apply elem_of_app. left. by apply (inv_source _ _ HI).
Qed.

Lemma inv_wait c out field m :
  kc_inv c out -> minted_for c m (fieldName field) ->
  kc_inv (with_waiting (fun w => w ++ [(WaitsForKey field, m)]) c) (out ++ [Waits field m]).
Proof.
  intros HI Hm.
  assert (forall m', handed m' (out ++ [Waits field m]) = handed m' out) as Hh.
  { intros m'. unfold handed. rewrite count_app. unfold count at 2. simpl. lia. }
  assert (forall m', waits m' (out ++ [Waits field m]) = waits m' out + waiting m' [(WaitsForKey field, m)]) as Hw.
  { intros m'. unfold waits. rewrite count_app. unfold count at 2, waiting. simpl. by destruct (bool_decide _). }
  constructor; simpl.
  - intros m' entry He. rewrite Hh. by apply (inv_entry _ _ HI).
  - intros m' He. rewrite Hh. by apply (inv_no_entry _ _ HI).
  - intros m'. rewrite Hh, Hw, waiting_app. pose proof (inv_budget _ _ HI m'). lia.
  - intros m'. rewrite Hw, waiting_app. pose proof (inv_waits _ _ HI m'). lia.
  - apply (inv_active _ _ HI).
  - apply (inv_minting _ _ HI).
  - intros f m' [Hin|Hin%list_elem_of_singleton]%elem_of_app; [by apply (inv_waiting _ _ HI)|]. by injection Hin as -> ->.
  - intros f m' key [Hin|Hin%list_elem_of_singleton]%elem_of_app; [|done]. by apply (inv_handed _ _ HI) in Hin.
  - intros m' call Hcall. apply elem_of_app. left. by apply (inv_source _ _ HI).
Qed.

Lemma inv_mint c out background field c' m out' :
  kc_inv c out -> mint background field (fieldName field) c = (c', m, out') ->
  kc_inv c' (out ++ out') /\ minted_for c' m (fieldName field) /\ kc_entries c' = kc_entries c /\ kc_waiting c' = kc_waiting c.
Proof.
  intros HI. unfold mint. destruct (kc_minting c !! fieldName field) as [m0|] eqn:Hf; intros [= <- <- <-].
  { rewrite app_nil_r. split_and!; [done| |done|done]. by apply (inv_minting _ _ HI). }
  set (call := {| mc_field := field; mc_status := MintPending; mc_background := background |}).
  set (c' := with_minting _ _).
  assert (grows c c') as Hg.
  { intros m call0 Hm. exists call0. split; [|done]. simpl. by apply lookup_app_l_Some. }
  assert (minted_for c' (length (kc_mints c)) (fieldName field)) as Hnew.
  { exists call. split; [|done]. simpl. by rewrite lookup_app_r, Nat.sub_diag by done. }
  split_and!; [|done|done|done]. eapply inv_quiet; [exact HI|exact Hg|done|by repeat constructor|done|done|done| |].
  - intros name m. simpl. destruct (decide (name = fieldName field)) as [->|Hne].
    + rewrite lookup_insert_eq. by intros [= <-].
    + rewrite lookup_insert_ne by done. intros Hm. eapply grows_minted; [exact Hg|]. by apply (inv_minting _ _ HI).
  - intros m call0. simpl. intros [Hm|[Hl Hm]]%lookup_app_Some; apply elem_of_app.
    + left. by apply (inv_source _ _ HI).
    + right. apply list_lookup_singleton_Some in Hm as [Hm <-]. replace m with (length (kc_mints c)) by lia. constructor.
Qed.

Lemma refresh_entries field name f c :
  refreshInBackground field name (with_entries f c) =
  (with_entries f (fst (refreshInBackground field name c)), snd (refreshInBackground field name c)).
Proof. unfold refreshInBackground, mint. simpl. by destruct (kc_minting c !! name). Qed.

Lemma inv_refresh c out field :
  kc_inv c out ->
  let '(c', out') := refreshInBackground field (fieldName field) c in
  kc_inv c' (out ++ out') /\ kc_entries c' = kc_entries c /\ kc_waiting c' = kc_waiting c /\ grows c c' /\ Forall quiet out'.
Proof.
  intros HI. unfold refreshInBackground. destruct (kc_minting c !! fieldName field) eqn:Hm.
  { rewrite app_nil_r. split_and!; [done|done|done|apply grows_refl|constructor]. }
  destruct (mint true field (fieldName field) c) as [[c' m] out'] eqn:Hmint.
  destruct (inv_mint _ _ _ _ _ _ _ HI Hmint) as (? & _ & ? & ?). split_and!; [done..| |];
    unfold mint in Hmint; rewrite Hm in Hmint; injection Hmint as <- <- <-.
  - intros m' call Hc. exists call. split; [|done]. simpl. by apply lookup_app_l_Some.
  - by repeat constructor.
Qed.

Lemma inv_encryptionKey c out field now :
  kc_inv c out -> let '(c', out') := encryptionKey field now c in kc_inv c' (out ++ out').
Proof.
  intros HI. unfold encryptionKey, unspent.
  destruct (match kc_active c !! fieldName field with Some m => _ | None => _ end) as [[m entry]|] eqn:Hu.
  - destruct (kc_active c !! fieldName field) as [m0|] eqn:Ha; [|done]. destruct (kc_entries c !! m0) as [entry0|] eqn:He; [|done].
    destruct (isSpent now entry0) eqn:Hs; [done|]. injection Hu as -> ->.
    assert (ak_uses entry < co_maxUses o) as Hlt.
    { unfold isSpent in Hs. apply orb_false_iff in Hs as [_ Hs%bool_decide_eq_false].
      destruct (inv_entry _ _ HI _ _ He) as (_ & <- & _). lia. }
    destruct (inv_entry _ _ HI _ _ He) as (Hh & _ & _). pose proof (inv_waits _ _ HI m) as Hw.
    pose proof (inv_active _ _ HI _ _ Ha) as Hm.
    destruct (shouldRefresh now (used entry)); simpl.
    + rewrite refresh_entries. pose proof (inv_refresh _ _ field HI) as Hr. destruct (refreshInBackground field (fieldName field) c) as [c' out'].
      destruct Hr as (HI' & He' & Hw' & Hg & Hq). simpl. rewrite app_assoc. apply inv_hand; [done|by rewrite He'|by eapply grows_minted|].
      destruct (quiet_counts m _ Hq) as [Q1 Q2]. unfold handed, waits in *. rewrite !count_app, Hw'. lia.
    + apply inv_hand; [done|done|done|]. lia.
  - destruct (mint false field (fieldName field) c) as [[c' m] out'] eqn:Hmint.
    destruct (inv_mint _ _ _ _ _ _ _ HI Hmint) as (HI' & Hm & _). rewrite app_assoc. by apply inv_wait.
Qed.

(** Changes that touch no mint, entry, key or waiting call. *)
Lemma inv_elsewhere c out c' out' :
  kc_inv c out -> kc_mints c' = kc_mints c -> kc_entries c' = kc_entries c -> Forall quiet out' ->
  (forall m, waiting m (kc_waiting c') <= waiting m (kc_waiting c)) ->
  (forall field m, (WaitsForKey field, m) ∈ kc_waiting c' -> (WaitsForKey field, m) ∈ kc_waiting c) ->
  kc_active c' ⊆ kc_active c -> kc_minting c' ⊆ kc_minting c -> kc_inv c' (out ++ out').
Proof.
  intros HI Hm He Hq Hw Hwe Ha Hmint.
  assert (grows c c') as Hg by (intros m call Hc; exists call; by rewrite Hm).
  eapply inv_quiet; [exact HI|exact Hg|done..| | |].
  - intros name m Hl. by eapply lookup_weaken.
  - intros name m Hl. eapply grows_minted; [exact Hg|]. apply (inv_minting _ _ HI). by eapply lookup_weaken.
  - intros m call Hc. rewrite Hm in Hc. apply elem_of_app. left. by apply (inv_source _ _ HI).
Qed.

Lemma inv_prepare c out field now :
  kc_inv c out -> let '(c', out') := prepare field now c in kc_inv c' (out ++ out').
Proof.
  intros HI. unfold prepare. destruct (unspent _ _ _); [apply (inv_elsewhere c); [done|done|done|by repeat constructor|done..]|].
  destruct (mint false field (fieldName field) c) as [[c' m] out'] eqn:Hmint.
  destruct (inv_mint _ _ _ _ _ _ _ HI Hmint) as (HI' & Hm & _). rewrite <-(app_nil_r (out ++ out')).
  apply (inv_elsewhere c'); [done..| | |done|done]; simpl.
  - intros m'. rewrite waiting_app. unfold waiting at 2. simpl. lia.
  - intros f m'. set_solver.
Qed.

Lemma status_grows c m call status :
  kc_mints c !! m = Some call -> finished (mc_status call) = false \/ finished status = true ->
  grows c (with_mints <[m := with_mint_status status call]> c).
Proof.
  intros Hm Hs m' call' Hm'. simpl. destruct (decide (m = m')) as [<-|Hne].
  - rewrite Hm in Hm'. injection Hm' as <-. rewrite list_lookup_insert_eq by by eapply lookup_lt_Some.
    eexists. split; [done|]. split; [done|]. simpl. intros Hf. destruct Hs as [Hs|Hs]; [congruence|done].
  - rewrite list_lookup_insert_ne by done. exists call'. done.
Qed.

Lemma status_source c m call status m' call' :
  kc_mints c !! m = Some call -> <[m := with_mint_status status call]> (kc_mints c) !! m' = Some call' ->
  exists call0, kc_mints c !! m' = Some call0 /\ mc_field call' = mc_field call0.
Proof.
  intros Hm [(<- & <- & _)|[_ Hm']]%list_lookup_insert_Some; eauto.
Qed.

(** A mint moves on, with the entries it has left as they are. *)
Lemma inv_status c out c' out' m call status :
  kc_inv c out -> kc_mints c !! m = Some call -> finished (mc_status call) = false \/ finished status = true ->
  kc_mints c' = <[m := with_mint_status status call]> (kc_mints c) -> kc_entries c' = kc_entries c -> Forall quiet out' ->
  kc_waiting c' = kc_waiting c -> kc_active c' = kc_active c -> kc_minting c' ⊆ kc_minting c -> kc_inv c' (out ++ out').
Proof.
  intros HI Hm Hs Hms He Hq Hw Ha Hmint.
  assert (grows c c') as Hg.
  { intros m' call' Hm'. rewrite Hms. exact (status_grows _ _ _ _ Hm Hs _ _ Hm'). }
  eapply inv_quiet; [exact HI|exact Hg|done|done|by rewrite Hw|by rewrite Hw|by rewrite Ha| |].
  - intros name m' Hl. eapply grows_minted; [exact Hg|]. apply (inv_minting _ _ HI). by eapply lookup_weaken.
  - intros m' call' Hc. rewrite Hms in Hc. destruct (status_source _ _ _ _ _ _ Hm Hc) as (call0 & Hc0 & ->).
    apply elem_of_app. left. by apply (inv_source _ _ HI).
Qed.

Lemma inv_mintThen c out m answer now c' out' :
  kc_inv c out -> mintThen o floorTimes m answer now c = Some (c', out') -> kc_inv c' (out ++ out').
Proof.
  intros HI. unfold mintThen. destruct (kc_mints c !! m) as [call|] eqn:Hm; [|done].
  destruct call as [field [] background] eqn:Hcall; try done. rewrite <-Hcall in *. assert (finished (mc_status call) = false) as Hf by by rewrite Hcall.
  assert (mc_field call = field) as Hfield by by rewrite Hcall. destruct answer as [e|key]; intros [= <- <-].
  { eapply inv_status; [exact HI|exact Hm|by left|done..]. }
  assert (kc_entries c !! m = None) as Hnone.
  { destruct (kc_entries c !! m) eqn:He; [|done]. destruct (inv_entry _ _ HI _ _ He) as (_ & _ & call' & Hm' & Hf'). congruence. }
  rewrite app_nil_r. set (c' := with_mints _ _).
  assert (grows c c') as Hg by (exact (status_grows c m call MintStored Hm (or_introl Hf))).
  constructor; simpl.
  - intros m' entry. destruct (decide (m = m')) as [<-|Hne].
    + rewrite lookup_insert_eq. intros [= <-]. simpl. rewrite (inv_no_entry _ _ HI _ Hnone). split_and!; [done|done|].
      exists (with_mint_status MintStored call). split; [|done]. apply list_lookup_insert_eq. by eapply lookup_lt_Some.
    + rewrite lookup_insert_ne by done. intros He. destruct (inv_entry _ _ HI _ _ He) as (? & ? & call' & Hm' & Hf').
      destruct (Hg _ _ Hm') as (call'' & ? & _ & ?). split_and!; eauto.
  - intros m' [He _]%lookup_insert_None. by apply (inv_no_entry _ _ HI).
  - apply (inv_budget _ _ HI).
  - apply (inv_waits _ _ HI).
  - intros name m'. rewrite Hfield. destruct (decide (name = fieldName field)) as [->|Hne].
    + rewrite lookup_insert_eq. intros [= <-]. eapply grows_minted; [exact Hg|]. exists call. by rewrite Hfield.
    + rewrite lookup_insert_ne by done. intros Ha. eapply grows_minted; [exact Hg|]. by apply (inv_active _ _ HI).
  - intros name m' Ha. eapply grows_minted; [exact Hg|]. by apply (inv_minting _ _ HI).
  - intros f m' Ha. eapply grows_minted; [exact Hg|]. by apply (inv_waiting _ _ HI).
  - intros f m' k Hin. destruct (inv_handed _ _ HI _ _ _ Hin) as (Hmf & entry & He & Hk). split; [by eapply grows_minted|].
    exists entry. rewrite lookup_insert_ne; [done|congruence].
  - intros m' call' Hc. destruct (status_source _ _ _ _ _ _ Hm Hc) as (call0 & Hc0 & ->). by apply (inv_source _ _ HI).
Qed.

Lemma inv_mintFinally c out m c' out' :
  kc_inv c out -> mintFinally m c = Some (c', out') -> kc_inv c' (out ++ out').
Proof.
  intros HI. unfold mintFinally. destruct (kc_mints c !! m) as [call|] eqn:Hm; [|done].
  destruct (mc_status call) eqn:Hs; try done; intros [= <- <-];
    (eapply inv_status; [exact HI|exact Hm| |done|done| |done|done|apply delete_subseteq]).
  - by right.
  - constructor.
  - left. by rewrite Hs.
  - destruct (mc_background call); by repeat constructor.
Qed.

Lemma inv_resume c out i c' out' :
  kc_inv c out -> resume i c = Some (c', out') -> kc_inv c' (out ++ out').
Proof.
  intros HI. unfold resume. destruct (kc_waiting c !! i) as [[waiter m]|] eqn:Hi; [|done].
  pose proof (fun m' => waiting_delete m' _ _ _ Hi) as Hdel.
  assert (forall x, x ∈ delete i (kc_waiting c) -> x ∈ kc_waiting c) as Hsub.
  { intros x Hx. rewrite delete_take_drop in Hx. rewrite <-(take_drop_middle _ _ _ Hi). set_solver. }
  assert (forall out'', Forall quiet out'' -> kc_inv (with_waiting (delete i) c) (out ++ out'')) as Hq.
  { intros out'' Hq. apply (inv_elsewhere c); [done|done|done|done| |by auto|done|done]. intros m'. simpl. rewrite (Hdel m').
    destruct (key_waiter _ _); lia. }
  destruct (mc_status <$> kc_mints c !! m) as [[]|]; try done; destruct waiter as [field|field]; try done.
  2-4: intros [= <- <-]; apply Hq; constructor; done.
  destruct (kc_entries c !! m) as [fresh|] eqn:He; [|done]. intros [= <- <-].
  apply (inv_hand (with_waiting (delete i) c)); [|done| |].
  - rewrite <-(app_nil_r out). apply Hq. constructor.
  - apply (inv_waiting _ _ HI field). by eapply list_elem_of_lookup_2.
  - pose proof (inv_budget _ _ HI m) as Hb. rewrite (Hdel m) in Hb. simpl in Hb. rewrite bool_decide_eq_true_2 in Hb by done. simpl. lia.
Qed.

Lemma inv_step c out e c' out' :
  kc_inv c out -> kc_step o floorTimes base64 e c = Some (c', out') -> kc_inv c' (out ++ out').
Proof.
  intros HI. destruct e as [field now|field now|m answer now|m|i|field wrapped now|u|]; simpl.
  - intros [= Hs]. pose proof (inv_encryptionKey _ _ field now HI) as H. by rewrite Hs in H.
  - intros [= Hs]. pose proof (inv_prepare _ _ field now HI) as H. by rewrite Hs in H.
  - by apply inv_mintThen.
  - by apply inv_mintFinally.
  - by apply inv_resume.
  - unfold unwrap. intros [= Hs].
    destruct (assoc_get _ _) as [hit|]; [destruct (decide _)|]; injection Hs as <- <-;
      (apply (inv_elsewhere c); [done|done|done|by repeat constructor|done..]).
  - unfold unwrapCatch. destruct (kc_unwraps c !! u) as [[field wrapped]|]; [|done]. intros [= <- <-].
    apply (inv_elsewhere c); [done|done|done|constructor|done..].
  - intros [= <- <-]. apply (inv_elsewhere c); [done|done|done|constructor|done|done|apply map_empty_subseteq..].
Qed.

Lemma inv_run es c out c' out' :
  kc_inv c out -> kc_run o floorTimes base64 es c = Some (c', out') -> kc_inv c' (out ++ out').
Proof.
  revert c out out'. induction es as [|e es IH]; intros c out out' HI; simpl; [intros [= <- <-]; by rewrite app_nil_r|].
  destruct (kc_step _ _ _ e c) as [[c1 out1]|] eqn:Hs; [|done]. destruct (kc_run _ _ _ es c1) as [[c2 out2]|] eqn:Hr; [|done].
  intros [= <- <-]. rewrite app_assoc. eapply IH; [|done]. by eapply inv_step.
Qed.

Lemma inv_init c : newDataKeyCache o = inr c -> kc_inv c [].
Proof.
  unfold newDataKeyCache. case_decide as Hpos; [done|]. destruct (_ || _); [done|]. intros [= <-].
  constructor; try done; intros m; simpl; try (unfold handed, waits, waiting, count; simpl; lia).
  all: set_solver.
Qed.


(** *** The unwrapped keys *)

(** What [encryptedField] accepts. *)
Definition valid_field (field : EncryptedField) : Prop := IDENTIFIER (ef_table field) = true /\ IDENTIFIER (ef_column field) = true.

Lemma identifier_part s : IDENTIFIER s = true -> forallb identPart (js s) = true.
Proof.
  unfold IDENTIFIER. destruct (js s) as [|c rest]; [done|]. intros [Hc Hr]%andb_true_iff. simpl. rewrite Hr. unfold identPart. by rewrite Hc.
Qed.

Lemma identifier_no s c : IDENTIFIER s = true -> identPart c = false -> c ∉ js s.
Proof. intros Hs%identifier_part Hc Hin. rewrite forallb_forall in Hs. rewrite Hs in Hc; [done|]. by apply list_elem_of_In. Qed.

Lemma js_append s t : js (s +:+ t) = js s ++ js t.
Proof. unfold js. induction s as [|a s IH]; simpl; [done|]. f_equal. exact IH. Qed.

Lemma js_fieldName field : js (fieldName field) = js (ef_table field) ++ 46%N :: js (ef_column field).
Proof. unfold fieldName. by rewrite !js_append. Qed.

Lemma fieldName_no c field : valid_field field -> identPart c = false -> c <> 46%N -> c ∉ js (fieldName field).
Proof.
  intros [Ht Hc] Hp Hne. rewrite js_fieldName, not_elem_of_app, not_elem_of_cons. split_and!; [by apply identifier_no|done|by apply identifier_no].
Qed.

Lemma fieldName_inj f g : valid_field f -> valid_field g -> fieldName f = fieldName g -> f = g.
Proof.
  intros [Hf Hf'] [Hg Hg'] H. assert (js (fieldName f) = js (fieldName g)) as E by by rewrite H. rewrite !js_fieldName in E.
  apply separator_inj in E as [E1 E2]; [|by apply identifier_no..]. apply js_inj in E1, E2. destruct f, g; simpl in *; congruence.
Qed.

Lemma cacheKey_inj f w g v : Inj eq eq base64 -> valid_field f -> valid_field g -> cacheKey base64 f w = cacheKey base64 g v -> f = g /\ w = v.
Proof.
  intros Hb Hf Hg E. unfold cacheKey in E. apply separator_inj in E as [E1 E2]; [|by apply fieldName_no..].
  apply js_inj in E1. split; [by apply fieldName_inj|by apply Hb].
Qed.

Record uw_inv (c : DataKeyCache) (out : list KcOutput) : Prop := {
  uw_entry key entry : (key, entry) ∈ kc_unwrapped c ->
    exists field wrapped, kc_unwraps c !! ue_plaintext entry = Some (field, wrapped) /\ key = cacheKey base64 field wrapped;
  uw_size : Z.of_nat (length (kc_unwrapped c)) <= co_maxDecryptEntries o;
  uw_source u field wrapped : kc_unwraps c !! u = Some (field, wrapped) -> SourceUnwrap u field wrapped ∈ out;
  uw_answer field wrapped u now expiresAt : UnwrapAnswered field wrapped u now expiresAt ∈ out -> now < expiresAt /\
    exists field' wrapped', kc_unwraps c !! u = Some (field', wrapped') /\ cacheKey base64 field wrapped = cacheKey base64 field' wrapped';
}.

Definition no_unwrap (x : KcOutput) : Prop := match x with UnwrapAnswered _ _ _ _ _ => False | _ => True end.

Lemma uw_elsewhere c out c' out' :
  uw_inv c out -> kc_unwraps c' = kc_unwraps c -> kc_unwrapped c' `sublist_of` kc_unwrapped c -> Forall no_unwrap out' -> uw_inv c' (out ++ out').
Proof.
  intros HI Hu Hs Hn. constructor.
  - intros key entry Hin. rewrite Hu. apply (uw_entry _ _ HI). by eapply elem_of_sublist.
  - apply sublist_length in Hs. pose proof (uw_size _ _ HI). lia.
  - intros u field wrapped Hl. rewrite Hu in Hl. apply elem_of_app. left. by apply (uw_source _ _ HI).
  - intros field wrapped u now expiresAt [Hin|Hin]%elem_of_app; [rewrite Hu; by apply (uw_answer _ _ HI)|].
    rewrite Forall_forall in Hn. by apply Hn in Hin.
Qed.

Lemma assoc_delete_sublist k (l : list (JSText * UnwrappedEntry)) : assoc_delete k l `sublist_of` l.
Proof. induction l as [|[k' v] l IH]; simpl; [done|]. case_decide; [by constructor|by constructor]. Qed.

Lemma evict_spec l :
  0 < co_maxDecryptEntries o ->
  evictOldestUnwrapped o l = drop (length l - Z.to_nat (co_maxDecryptEntries o)) l.
Proof.
  intros Hpos. induction l as [|x l IH]; simpl evictOldestUnwrapped; [by case_decide|]. cbn [length].
  destruct (decide (co_maxDecryptEntries o < Z.of_nat (S (length l)))) as [Hlt|Hge].
  - rewrite IH. replace (S (length l) - Z.to_nat (co_maxDecryptEntries o))%nat with (S (length l - Z.to_nat (co_maxDecryptEntries o))) by lia. done.
  - replace (S (length l) - Z.to_nat (co_maxDecryptEntries o))%nat with 0%nat by lia. done.
Qed.

Lemma uw_unwrap c out field wrapped now :
  0 < co_maxDecryptEntries o -> 0 < co_ttlMs o -> uw_inv c out ->
  let '(c', out') := unwrap o base64 field wrapped now c in uw_inv c' (out ++ out').
Proof.
  intros Hpos Httl HI. unfold unwrap. set (key := cacheKey base64 field wrapped).
  assert (forall cached, cached `sublist_of` kc_unwrapped c ->
    uw_inv (with_unwrapped (evictOldestUnwrapped o (assoc_set key {| ue_plaintext := length (kc_unwraps c); ue_expiresAt := now + co_ttlMs o |} cached))
      (kc_unwraps c ++ [(field, wrapped)]) c)
      (out ++ [SourceUnwrap (length (kc_unwraps c)) field wrapped; UnwrapAnswered field wrapped (length (kc_unwraps c)) now (now + co_ttlMs o)])) as Hmiss.
  { intros cached Hsub. assert ((kc_unwraps c ++ [(field, wrapped)]) !! length (kc_unwraps c) = Some (field, wrapped)) as Hnew.
    { by rewrite lookup_app_r, Nat.sub_diag by done. }
    constructor; simpl.
    - intros k entry Hin. rewrite evict_spec in Hin by done. apply (fun H => elem_of_sublist _ _ _ H (sublist_drop _ _)) in Hin.
      apply assoc_set_elem in Hin as [[= -> ->]|Hin]; [by exists field, wrapped|].
      destruct (uw_entry _ _ HI k entry) as (f & w & Hl & ->); [by eapply elem_of_sublist|]. exists f, w. split; [|done]. by apply lookup_app_l_Some.
    - rewrite evict_spec by done. rewrite length_drop. lia.
    - intros u f w. intros [Hl|[Hl Hs]]%lookup_app_Some; apply elem_of_app; [left; by apply (uw_source _ _ HI)|right].
      apply list_lookup_singleton_Some in Hs as [Hs [= <- <-]]. replace u with (length (kc_unwraps c)) by lia. constructor.
    - intros f w u now' expiresAt [Hin|Hin]%elem_of_app.
      + destruct (uw_answer _ _ HI _ _ _ _ _ Hin) as (? & f' & w' & Hl & ?). split; [done|]. exists f', w'. split; [|done]. by apply lookup_app_l_Some.
      + apply elem_of_cons in Hin as [Hin|Hin%list_elem_of_singleton]; [done|]. injection Hin as -> -> -> -> ->. split; [lia|]. by exists field, wrapped. }
  destruct (assoc_get key (kc_unwrapped c)) as [hit|] eqn:Hget; [|by apply Hmiss].
  destruct (decide (now < ue_expiresAt hit)) as [Hlt|]; [|apply Hmiss, assoc_delete_sublist].
  destruct (uw_entry _ _ HI _ _ (assoc_get_elem _ _ _ Hget)) as (f' & w' & Hl & Hk).
  constructor; [apply (uw_entry _ _ HI)|apply (uw_size _ _ HI)| |].
  - intros u f w Hu. apply elem_of_app. left. by apply (uw_source _ _ HI).
  - intros f w u now' expiresAt [Hin|Hin%list_elem_of_singleton]%elem_of_app; [by apply (uw_answer _ _ HI)|].
    injection Hin as -> -> -> -> ->. split; [done|]. by exists f', w'.
Qed.

Lemma mint_unwraps background field name c :
  let '(c', _, out') := mint background field name c in
  kc_unwraps c' = kc_unwraps c /\ kc_unwrapped c' = kc_unwrapped c /\ Forall no_unwrap out'.
Proof. unfold mint. destruct (kc_minting c !! name); split_and!; by repeat constructor. Qed.

Lemma encryptionKey_unwraps field now c :
  let '(c', out') := encryptionKey field now c in
  kc_unwraps c' = kc_unwraps c /\ kc_unwrapped c' = kc_unwrapped c /\ Forall no_unwrap out'.
Proof.
  unfold encryptionKey, refreshInBackground. destruct (unspent _ _ _) as [[m existing]|].
  - set (c1 := with_entries _ c). destruct (shouldRefresh _ _); [|split_and!; by repeat constructor].
    destruct (kc_minting c1 !! fieldName field); [split_and!; by repeat constructor|].
    pose proof (mint_unwraps true field (fieldName field) c1) as H. destruct (mint _ _ _ _) as [[c' m'] out'].
    destruct H as (-> & -> & H). split_and!; [done|done|]. apply Forall_app. split; [done|by repeat constructor].
  - pose proof (mint_unwraps false field (fieldName field) c) as H. destruct (mint _ _ _ _) as [[c' m'] out'].
    destruct H as (H1 & H2 & H). split_and!; [done|done|]. apply Forall_app. split; [done|by repeat constructor].
Qed.

Lemma prepare_unwraps field now c :
  let '(c', out') := prepare field now c in
  kc_unwraps c' = kc_unwraps c /\ kc_unwrapped c' = kc_unwrapped c /\ Forall no_unwrap out'.
Proof.
  unfold prepare. destruct (unspent _ _ _); [split_and!; by repeat constructor|].
  pose proof (mint_unwraps false field (fieldName field) c) as H. by destruct (mint _ _ _ _) as [[c' m'] out'].
Qed.

Lemma settle_unwraps e c c' out' :
  match e with EMintThen _ _ _ | EMintFinally _ | EResume _ => True | _ => False end ->
  kc_step o floorTimes base64 e c = Some (c', out') ->
  kc_unwraps c' = kc_unwraps c /\ kc_unwrapped c' = kc_unwrapped c /\ Forall no_unwrap out'.
Proof.
  destruct e; try done; intros _; simpl; unfold mintThen, mintFinally, resume;
    repeat (match goal with |- context [match ?x with _ => _ end] => destruct x end; try done); intros [= <- <-]; split_and!; by repeat constructor.
Qed.

Lemma uw_step c out e c' out' :
  0 < co_maxDecryptEntries o -> 0 < co_ttlMs o -> uw_inv c out -> kc_step o floorTimes base64 e c = Some (c', out') -> uw_inv c' (out ++ out').
Proof.
  intros Hpos Httl HI Hs.
  assert (kc_unwraps c' = kc_unwraps c /\ kc_unwrapped c' = kc_unwrapped c /\ Forall no_unwrap out' -> uw_inv c' (out ++ out')) as Hsame.
  { intros (H1 & H2 & H3). apply (uw_elsewhere c); [done|done|by rewrite H2|done]. }
  destruct e as [field now|field now|m answer now|m|i|field wrapped now|u|];
    try (apply Hsame; eapply settle_unwraps; [|exact Hs]; exact I); cbn [kc_step] in Hs.
  - apply (inj Some) in Hs. apply Hsame. pose proof (encryptionKey_unwraps field now c) as H. by rewrite Hs in H.
  - apply (inj Some) in Hs. apply Hsame. pose proof (prepare_unwraps field now c) as H. by rewrite Hs in H.
  - apply (inj Some) in Hs. pose proof (uw_unwrap c out field wrapped now Hpos Httl HI) as H. by rewrite Hs in H.
  - unfold unwrapCatch in Hs. destruct (kc_unwraps c !! u) as [[f w]|]; [|done]. injection Hs as <- <-.
    apply (uw_elsewhere c); [done|done|apply assoc_delete_sublist|constructor].
  - injection Hs as <- <-. apply (uw_elsewhere c); [done|done|apply sublist_nil_l|constructor].
Qed.

Lemma uw_run es c out c' out' :
  0 < co_maxDecryptEntries o -> 0 < co_ttlMs o -> uw_inv c out -> kc_run o floorTimes base64 es c = Some (c', out') -> uw_inv c' (out ++ out').
Proof.
  intros Hpos Httl. revert c out out'. induction es as [|e es IH]; intros c out out' HI; simpl; [intros [= <- <-]; by rewrite app_nil_r|].
  destruct (kc_step _ _ _ e c) as [[c1 out1]|] eqn:Hs; [|done]. destruct (kc_run _ _ _ es c1) as [[c2 out2]|] eqn:Hr; [|done].
  intros [= <- <-]. rewrite app_assoc. eapply IH; [|done]. by eapply uw_step.
Qed.

Lemma new_cache_inv c : newDataKeyCache o = inr c -> 0 < co_ttlMs o /\ 0 < co_maxUses o /\ 0 < co_maxDecryptEntries o /\ uw_inv c [].
Proof.
  unfold newDataKeyCache. case_decide as Hp; [done|]. destruct (_ || _); [done|]. intros [= <-]. split_and!; [lia..|].
  constructor; simpl; [set_solver|lia|set_solver|set_solver].
Qed.

(** *** One mint in flight *)

Definition in_flight (s : MintStatus) : bool := match s with MintPending | MintStored | MintThrew _ => true | _ => false end.

Record sf_inv (c : DataKeyCache) : Prop := {
  sf_flight m call : kc_mints c !! m = Some call -> in_flight (mc_status call) = true -> kc_minting c !! fieldName (mc_field call) = Some m;
}.

Lemma sf_mint c background field c' m out' : sf_inv c -> mint background field (fieldName field) c = (c', m, out') -> sf_inv c'.
Proof.
  intros HI. unfold mint. destruct (kc_minting c !! fieldName field) as [m0|] eqn:Hf; intros [= <- <- <-]; [done|].
  constructor. intros m call. simpl. intros [Hm|[Hl Hm]]%lookup_app_Some Hs.
  - pose proof (sf_flight _ HI _ _ Hm Hs) as Hk. rewrite lookup_insert_ne; [done|congruence].
  - apply list_lookup_singleton_Some in Hm as [Hm <-]. simpl. rewrite lookup_insert_eq. f_equal. lia.
Qed.

Lemma sf_same c c' : sf_inv c -> kc_mints c' = kc_mints c -> kc_minting c' = kc_minting c -> sf_inv c'.
Proof. intros HI H1 H2. constructor. rewrite H1, H2. apply (sf_flight _ HI). Qed.

Lemma sf_encryptionKey c field now : sf_inv c -> sf_inv (fst (encryptionKey field now c)).
Proof.
  intros HI. unfold encryptionKey. destruct (unspent _ _ _) as [[m existing]|].
  - destruct (shouldRefresh _ _); [|by apply (sf_same c)]. rewrite refresh_entries. simpl.
    apply (sf_same (fst (refreshInBackground field (fieldName field) c))); [|done|done].
    unfold refreshInBackground. destruct (kc_minting c !! fieldName field); [done|].
    destruct (mint true _ _ _) as [[c' m'] out'] eqn:Hm. by eapply sf_mint.
  - destruct (mint false _ _ _) as [[c' m'] out'] eqn:Hm. apply (sf_same c'); [by eapply sf_mint|done|done].
Qed.

Lemma sf_step c e c' out' :
  e <> EClear -> sf_inv c -> kc_step o floorTimes base64 e c = Some (c', out') -> sf_inv c'.
Proof.
  intros Hne HI. destruct e as [field now|field now|m answer now|m|i|field wrapped now|u|]; simpl; [..|done].
  - intros [= Hs]. pose proof (sf_encryptionKey c field now HI) as H. by rewrite Hs in H.
  - unfold prepare. destruct (unspent _ _ _); [by intros [= <- <-]|].
    destruct (mint false _ _ _) as [[c1 m'] out1] eqn:Hm. intros [= <- <-]. apply (sf_same c1); [by eapply sf_mint|done|done].
  - unfold mintThen. destruct (kc_mints c !! m) as [call|] eqn:Hm; [|done]. destruct call as [field [] background] eqn:Hcall; try done. rewrite <-Hcall in *.
    assert (in_flight (mc_status call) = true) as Hf by by rewrite Hcall.
    intros Hs. assert (kc_minting c' = kc_minting c /\ exists s, kc_mints c' = <[m := with_mint_status s call]> (kc_mints c)) as [H1 [s H2]].
    { destruct answer; injection Hs as <- <-; eauto. }
    constructor. rewrite H1, H2. intros m' call' [(<- & <- & _)|[_ Hm']]%list_lookup_insert_Some; intros.
    + exact (sf_flight _ HI _ _ Hm Hf).
    + by apply (sf_flight _ HI).
  - unfold mintFinally. destruct (kc_mints c !! m) as [call|] eqn:Hm; [|done]. intros Hs.
    assert (in_flight (mc_status call) = true /\ kc_minting c' = delete (fieldName (mc_field call)) (kc_minting c) /\
      exists s, in_flight s = false /\ kc_mints c' = <[m := with_mint_status s call]> (kc_mints c)) as (Hf & H1 & s & Hns & H2).
    { destruct (mc_status call); try done; injection Hs as <- <-; (split; [done|split; [done|]]); eexists; (split; [|reflexivity]); done. }
    constructor. rewrite H1, H2. intros m' call' [(<- & <- & _)|[Hne' Hm']]%list_lookup_insert_Some Hs'; [simpl in Hs'; congruence|].
    pose proof (sf_flight _ HI _ _ Hm' Hs') as H'. rewrite lookup_delete_ne; [done|]. intros Heq.
    pose proof (sf_flight _ HI _ _ Hm Hf). congruence.
  - unfold resume. repeat (match goal with |- context [match ?x with _ => _ end] => destruct x end; try done); intros [= <- <-]; by apply (sf_same c).
  - unfold unwrap. intros [= Hs]. destruct (assoc_get _ _) as [hit|]; [destruct (decide _)|]; injection Hs as <- <-; by apply (sf_same c).
  - unfold unwrapCatch. destruct (kc_unwraps c !! u) as [[f w]|]; [|done]. intros [= <- <-]. by apply (sf_same c).
Qed.

Lemma sf_run es c c' out' : EClear ∉ es -> sf_inv c -> kc_run o floorTimes base64 es c = Some (c', out') -> sf_inv c'.
Proof.
  revert c out'. induction es as [|e es IH]; intros c out' Hne HI; simpl; [by intros [= <- <-]|].
  destruct (kc_step _ _ _ e c) as [[c1 out1]|] eqn:Hs; [|done]. destruct (kc_run _ _ _ es c1) as [[c2 out2]|] eqn:Hr; [|done].
  intros [= <- <-]. apply not_elem_of_cons in Hne as [? ?]. eapply IH; [done| |done]. by eapply sf_step.
Qed.

(** The columns that appear were declared with [encryptedField]. *)
Definition declared (x : KcOutput) : Prop :=
  match x with
  | SourceMint _ f | HandedOut f _ _ | SourceUnwrap _ f _ | UnwrapAnswered f _ _ _ _ => valid_field f
  | _ => True
  end.

(** C20: the budget of a data key.  Whatever calls, mints, failures and clears
    happen in whatever order, the key of one mint is handed out at most
    [maxUses] times and once more for every call that waited for that mint; and
    it is only ever handed to the column it was minted for. *)
Theorem data_key_budget es c0 c out :
  newDataKeyCache o = inr c0 -> kc_run o floorTimes base64 es c0 = Some (c, out) -> Forall declared out ->
  forall m, handed m out <= co_maxUses o + waits m out /\
    forall field key, HandedOut field m key ∈ out -> SourceMint m field ∈ out.
Proof.
  intros Hnew Hrun Hd m. pose proof (inv_run _ _ _ _ _ (inv_init _ Hnew) Hrun) as HI. simpl in HI. split.
  - pose proof (inv_budget _ _ HI m). unfold waiting in *. lia.
  - intros field key Hin. destruct (inv_handed _ _ HI _ _ _ Hin) as [(call & Hm & Hf) _]. pose proof (inv_source _ _ HI _ _ Hm) as Hs.
    rewrite Forall_forall in Hd. rewrite <-(fieldName_inj _ _ (Hd _ Hs) (Hd _ Hin) Hf). done.
Qed.

(** What [unwrap] answers.  A call is answered with a promise of the source for
    this very column and these very bytes, made less than the TTL ago, and no
    more than [maxDecryptEntries] unwrapped keys are ever kept. *)
Theorem unwrap_answers es c0 c out field wrapped u now expiresAt :
  Inj eq eq base64 -> newDataKeyCache o = inr c0 -> kc_run o floorTimes base64 es c0 = Some (c, out) -> Forall declared out ->
  Z.of_nat (length (kc_unwrapped c)) <= co_maxDecryptEntries o /\
  (UnwrapAnswered field wrapped u now expiresAt ∈ out -> now < expiresAt /\ SourceUnwrap u field wrapped ∈ out).
Proof.
  intros Hb Hnew Hrun Hd. destruct (new_cache_inv _ Hnew) as (Httl & _ & Hmax & H0).
  pose proof (uw_run _ _ _ _ _ Hmax Httl H0 Hrun) as HI. simpl in HI. split; [apply (uw_size _ _ HI)|]. intros Hin.
  destruct (uw_answer _ _ HI _ _ _ _ _ Hin) as (Hlt & f & w & Hl & Hk). split; [done|]. pose proof (uw_source _ _ HI _ _ _ Hl) as Hs.
  rewrite Forall_forall in Hd. destruct (cacheKey_inj _ _ _ _ Hb (Hd _ Hin) (Hd _ Hs) Hk) as [-> ->]. done.
Qed.

(** One call to the key service per cold column.  Until the cache is
    cleared, two mints of one column that have both not settled are the same
    mint, however many callers ask. *)
Theorem mint_single_flight es c0 c out m1 m2 call1 call2 :
  newDataKeyCache o = inr c0 -> EClear ∉ es -> kc_run o floorTimes base64 es c0 = Some (c, out) ->
  kc_mints c !! m1 = Some call1 -> kc_mints c !! m2 = Some call2 ->
  in_flight (mc_status call1) = true -> in_flight (mc_status call2) = true ->
  fieldName (mc_field call1) = fieldName (mc_field call2) -> m1 = m2.
Proof.
  intros Hnew Hc Hrun H1 H2 F1 F2 Hn. assert (sf_inv c0) as H0.
  { revert Hnew. unfold newDataKeyCache. case_decide; [done|]. destruct (_ || _); [done|]. intros [= <-]. constructor. set_solver. }
  pose proof (sf_run _ _ _ _ Hc H0 Hrun) as HI. pose proof (sf_flight _ HI _ _ H1 F1). pose proof (sf_flight _ HI _ _ H2 F2). congruence.
Qed.

End budget.

(** ** Configuration and boot *)

Inductive KeyProviderName := Local | Kms.
#[export] Instance KeyProviderName_eq : EqDecision KeyProviderName.
Proof. solve_decision. Defined.

Record CryptoEnv := {
  ENCRYPTION_KEY_PROVIDER : KeyProviderName;
  ENCRYPTION_LOCAL_MASTER_KEY : option JSText;
  ENCRYPTION_KMS_KEY_ID : option JSText;
  ENCRYPTION_DATA_KEY_TTL_SECONDS : Z;
  ENCRYPTION_DATA_KEY_MAX_USES : Z;
  ENCRYPTION_DATA_KEY_CACHE_SIZE : Z;
}.

Definition MAX_DATA_KEY_USES : Z := 2 ^ 32.
Definition MAX_DATA_KEY_TTL_SECONDS : Z := 3600.

(** The path and a name for the message of each refusal. *)
Inductive EnvIssue := MasterKeyMissing | MasterKeyUnusable | KmsKeyIdMissing | TtlTooLong | TooManyUses.

Section boot.
Context (fromBase64 : JSText -> Bytes) (toBase64 : Bytes -> JSText).

Definition refineCryptoEnv (env : CryptoEnv) : list EnvIssue :=
  (if decide (ENCRYPTION_KEY_PROVIDER env = Local) then
     match ENCRYPTION_LOCAL_MASTER_KEY env with
     | None => [MasterKeyMissing]
     | Some raw => if decide (trimText raw = []) then [MasterKeyMissing]
                   else match decodeMasterKey fromBase64 toBase64 (Some raw) with None => [MasterKeyUnusable] | Some _ => [] end
     end
   else []) ++
  (if decide (ENCRYPTION_KEY_PROVIDER env = Kms /\ default [] (ENCRYPTION_KMS_KEY_ID env) = []) then [KmsKeyIdMissing] else []) ++
  (if decide (MAX_DATA_KEY_TTL_SECONDS < ENCRYPTION_DATA_KEY_TTL_SECONDS env) then [TtlTooLong] else []) ++
  (if decide (MAX_DATA_KEY_USES < ENCRYPTION_DATA_KEY_MAX_USES env) then [TooManyUses] else []).

(** What a provider shows of itself. *)
Record Provider := { pv_name : KeyProviderName; pv_isConfigured : bool; pv_requiredEnv : list string }.

Definition local_provider (env : CryptoEnv) : Provider := {|
  pv_name := Local; pv_requiredEnv := ["ENCRYPTION_LOCAL_MASTER_KEY"%string];
  pv_isConfigured := match decodeMasterKey fromBase64 toBase64 (ENCRYPTION_LOCAL_MASTER_KEY env) with Some _ => true | None => false end |}.

Definition kms_keyId (env : CryptoEnv) : option JSText :=
  match ENCRYPTION_KMS_KEY_ID env with
  | Some raw => if decide (trimText raw = []) then None else Some (trimText raw)
  | None => None
  end.

Definition kms_provider (env : CryptoEnv) : Provider := {|
  pv_name := Kms; pv_requiredEnv := ["ENCRYPTION_KMS_KEY_ID"%string];
  pv_isConfigured := match kms_keyId env with Some _ => true | None => false end |}.

Inductive BootError := NoSuchProvider (name : KeyProviderName) | EncryptionNotConfiguredError (name : KeyProviderName) (requiredEnv : list string).

(** [find], then the check; the second component says whether the one warning is logged. *)
Definition selectKeyProvider (selected : KeyProviderName) (providers : list Provider) (nodeEnv : option string) : BootError + Provider * bool :=
  match list_find (fun p => pv_name p = selected) providers with
  | None => inl (NoSuchProvider selected)
  | Some (_, provider) =>
      if negb (pv_isConfigured provider) then inl (EncryptionNotConfiguredError (pv_name provider) (pv_requiredEnv provider))
      else inr (provider, bool_decide (pv_name provider = Local /\ nodeEnv = Some "production"%string))
  end.

(** The module's factory and the service's constructor. *)
Definition boot (env : CryptoEnv) (nodeEnv : option string) : BootError + Provider * bool :=
  selectKeyProvider (ENCRYPTION_KEY_PROVIDER env) [local_provider env; kms_provider env] nodeEnv.

Definition cacheOptions (env : CryptoEnv) : DataKeyCacheOptions := {|
  co_ttlMs := ENCRYPTION_DATA_KEY_TTL_SECONDS env * 1000;
  co_maxUses := ENCRYPTION_DATA_KEY_MAX_USES env;
  co_maxDecryptEntries := ENCRYPTION_DATA_KEY_CACHE_SIZE env;
  co_refreshFraction := 4 # 5 |}.

(** Settings that were accepted boot.  If the refinement has no complaint about
    positive budgets, the cache is built, and the selected provider is found and
    configured - for KMS, unless the key id is nothing but white space, which
    the refinement lets through and the boot then refuses. *)
Theorem accepted_settings_boot env nodeEnv :
  0 < ENCRYPTION_DATA_KEY_TTL_SECONDS env -> 0 < ENCRYPTION_DATA_KEY_MAX_USES env -> 0 < ENCRYPTION_DATA_KEY_CACHE_SIZE env ->
  refineCryptoEnv env = [] ->
  (exists cache, newDataKeyCache (cacheOptions env) = inr cache) /\
  co_maxUses (cacheOptions env) <= 2 ^ 32 /\
  match ENCRYPTION_KEY_PROVIDER env with
  | Local => exists warn, boot env nodeEnv = inr (local_provider env, warn)
  | Kms => if decide (trimText (default [] (ENCRYPTION_KMS_KEY_ID env)) = [])
           then boot env nodeEnv = inl (EncryptionNotConfiguredError Kms ["ENCRYPTION_KMS_KEY_ID"%string])
           else exists warn, boot env nodeEnv = inr (kms_provider env, warn)
  end.
Proof.
  intros Ht Hu Hc. unfold refineCryptoEnv. intros [Hlocal [Hkms [Httl Huses]%app_nil]%app_nil]%app_nil.
  split; [|split].
  - unfold newDataKeyCache. rewrite decide_False by (simpl; lia). simpl. eauto.
  - destruct (decide (MAX_DATA_KEY_USES < ENCRYPTION_DATA_KEY_MAX_USES env)) as [|Hle]; [done|]. change (2 ^ 32) with MAX_DATA_KEY_USES.
    unfold cacheOptions, co_maxUses. lia.
  - unfold boot. destruct (ENCRYPTION_KEY_PROVIDER env) eqn:Hp.
    + assert (pv_isConfigured (local_provider env) = true) as Hcfg.
      { rewrite decide_True in Hlocal by done. unfold local_provider, pv_isConfigured.
        destruct (ENCRYPTION_LOCAL_MASTER_KEY env) as [raw|]; [|done]. destruct (decide (trimText raw = [])); [done|].
        by destruct (decodeMasterKey fromBase64 toBase64 (Some raw)). }
      unfold selectKeyProvider. change (list_find _ _) with (Some (0%nat, local_provider env)). cbn beta iota. rewrite Hcfg. eexists. reflexivity.
    + unfold selectKeyProvider. change (list_find _ _) with (Some (1%nat, kms_provider env)). cbn beta iota.
      unfold kms_provider, pv_isConfigured, kms_keyId.
      destruct (ENCRYPTION_KMS_KEY_ID env) as [raw|]; [|by rewrite decide_True in Hkms]. change (default [] (Some raw)) with raw.
      destruct (decide (trimText raw = [])); [done|]. eexists. reflexivity.
Qed.
End boot.

(** ** Samples *)

Definition sample_options : DataKeyCacheOptions :=
  {| co_ttlMs := 1000; co_maxUses := 1; co_maxDecryptEntries := 1; co_refreshFraction := 4 # 5 |}.
Definition sample_floor (x : Z) (q : Q) : Z := (x * Qnum q) / Zpos (Qden q).
Definition sample_base64 (b : Bytes) : JSText := b.

Definition sample_cache : DataKeyCache :=
  {| kc_entries := ∅; kc_active := ∅; kc_minting := ∅; kc_unwrapped := []; kc_mints := []; kc_unwraps := []; kc_waiting := [] |}.

Definition sample_events : list KcEvent := [
  EEncryptionKey sample_field 0; EEncryptionKey sample_field 0; EMintThen 0 (inr sample_key) 5; EMintFinally 0; EResume 0; EResume 0;
  EEncryptionKey sample_field 10; EUnwrap sample_field [1]%N 20; EUnwrap sample_field [1]%N 30; EUnwrap sample_field [2]%N 40].

Definition sample_end : DataKeyCache * list KcOutput :=
  default (sample_cache, []) (kc_run sample_options sample_floor sample_base64 sample_events sample_cache).

(** Two calls that found no key share one mint, and both encrypt under its key,
    whose budget was one value. *)
Example cold_start_exceeds_the_budget :
  handed 0 (snd sample_end) = 2 /\ co_maxUses sample_options = 1 /\ waits 0 (snd sample_end) = 2.
Proof. vm_compute. done. Qed.

Lemma sample_declared : Forall declared (snd sample_end).
Proof. vm_compute. repeat constructor. Qed.

Lemma data_key_budget_witness :
  handed 0 (snd sample_end) <= co_maxUses sample_options + waits 0 (snd sample_end) /\
  forall field key, HandedOut field 0 key ∈ snd sample_end -> SourceMint 0 field ∈ snd sample_end.
Proof.
  apply (data_key_budget sample_options sample_floor sample_base64 sample_events sample_cache (fst sample_end) (snd sample_end)).
  - reflexivity.
  - vm_compute. reflexivity.
  - exact sample_declared.
Defined.

Lemma unwrap_answers_witness :
  Z.of_nat (length (kc_unwrapped (fst sample_end))) <= co_maxDecryptEntries sample_options /\
  (UnwrapAnswered sample_field [1]%N 0 30 1020 ∈ snd sample_end -> 30 < 1020 /\ SourceUnwrap 0 sample_field [1]%N ∈ snd sample_end).
Proof.
  apply (unwrap_answers sample_options sample_floor sample_base64 sample_events sample_cache (fst sample_end) (snd sample_end)).
  - intros x y H. exact H.
  - reflexivity.
  - vm_compute. reflexivity.
  - exact sample_declared.
Defined.

Lemma mint_single_flight_witness : (1 = 1)%nat.
Proof.
  apply (mint_single_flight sample_options sample_floor sample_base64 sample_events sample_cache (fst sample_end) (snd sample_end) 1 1
    {| mc_field := sample_field; mc_status := MintPending; mc_background := false |}
    {| mc_field := sample_field; mc_status := MintPending; mc_background := false |}).
  - reflexivity.
  - unfold sample_events. rewrite !not_elem_of_cons. split_and!; [done..|apply not_elem_of_nil].
  - vm_compute. reflexivity.
  - vm_compute. reflexivity.
  - vm_compute. reflexivity.
  - reflexivity.
  - reflexivity.
  - reflexivity.
Defined.

Definition sample_env : CryptoEnv := {|
  ENCRYPTION_KEY_PROVIDER := Local; ENCRYPTION_LOCAL_MASTER_KEY := Some (replicate 32 65%N); ENCRYPTION_KMS_KEY_ID := None;
  ENCRYPTION_DATA_KEY_TTL_SECONDS := 300; ENCRYPTION_DATA_KEY_MAX_USES := 10000; ENCRYPTION_DATA_KEY_CACHE_SIZE := 500 |}.

Lemma accepted_settings_boot_witness :
  (exists cache, newDataKeyCache (cacheOptions sample_env) = inr cache) /\ co_maxUses (cacheOptions sample_env) <= 2 ^ 32 /\
  exists warn, boot sample_base64 sample_base64 sample_env (Some "production"%string) = inr (local_provider sample_base64 sample_base64 sample_env, warn).
Proof.
  apply (accepted_settings_boot sample_base64 sample_base64 sample_env (Some "production"%string)).
  - reflexivity.
  - reflexivity.
  - reflexivity.
  - vm_compute. reflexivity.
Defined.
