(* ===== verification/EntityTag.v ===== *)
(** * EntityTag: validators and preconditions

    [common/concurrency/entity-tag.ts], [common/concurrency/if-match.decorator.ts],
    [common/concurrency/versioned-resource.ts] and
    [common/concurrency/entity-tag.interceptor.ts].  A position in a field value
    is the text that is left from it. *)

From S2P Require Import Prelude Text.

Definition QUOTE : N := 34.
Definition COMMA : N := 44.

Record ParsedEntityTag := { et_weak : bool; et_opaque : JSText; et_version : option Z }.

Inductive ExpectedVersion := Unconditional | AnyVersion | VersionList (tags : list ParsedEntityTag).

#[export] Instance ParsedEntityTag_eq : EqDecision ParsedEntityTag.
Proof. solve_decision. Defined.

Definition UNCONDITIONAL : ExpectedVersion := Unconditional.

(** A zero, or digits of which the first is not. *)
Definition VERSION_PATTERN (t : JSText) : bool :=
  match t with
  | [] => false
  | d :: rest => bool_decide (t = [48%N]) || (bool_decide (49 <= d <= 57)%N && allDigits rest)
  end.

Definition formatEntityTag (version : Z) : JSText := [QUOTE] ++ js (pretty version) ++ [QUOTE].

Definition readVersion (opaque : JSText) : option Z :=
  if VERSION_PATTERN opaque then
    let parsed := decimal (toText opaque) in
    if decide (parsed <= MAX_SAFE_INTEGER) then Some parsed else None
  else None.

(** From an index on: [while (value[index] is a space or a tab) index += 1]. *)
Fixpoint skipWhitespace (value : JSText) : JSText :=
  match value with
  | c :: rest => if decide (c = 32%N \/ c = 9%N) then skipWhitespace rest else value
  | [] => []
  end.

(** [slice] up to the index of the next quote, and what is after it. *)
Fixpoint upToQuote (value : JSText) : option (JSText * JSText) :=
  match value with
  | [] => None
  | c :: rest =>
      if decide (c = QUOTE) then Some ([], rest)
      else match upToQuote rest with Some (opaque, after) => Some (c :: opaque, after) | None => None end
  end.

Definition readWeak (value : JSText) : bool * JSText :=
  match value with
  | 87%N :: 47%N :: rest => (true, rest)
  | _ => (false, value)
  end.

Definition expectedTags : string := "If-Match must be " +:+ dq +:+ "*" +:+ dq +:+ " or a comma-separated list of quoted entity-tags".

(** The first half of a turn of the loop: one tag, and what is after it. *)
Definition readTag (value : JSText) : string + ParsedEntityTag * JSText :=
  let '(weak, value) := readWeak (skipWhitespace value) in
  match value with
  | c :: value =>
      if decide (c <> QUOTE) then inl expectedTags
      else
      match upToQuote value with
      | None => inl "If-Match contains an unterminated entity-tag"%string
      | Some (opaque, value) => inr ({| et_weak := weak; et_opaque := opaque; et_version := readVersion opaque |}, skipWhitespace value)
      end
  | [] => inl expectedTags
  end.

(** The loop.  Every turn reads at least the two quotes of a tag, so as many
    turns as there are characters are enough; [None] is running out of them. *)
Fixpoint parseEntityTagList (fuel : nat) (value : JSText) (tags : list ParsedEntityTag) : option (string + list ParsedEntityTag) :=
  match fuel with
  | O => None
  | S fuel =>
      match readTag value with
      | inl e => Some (inl e)
      | inr (tag, value) =>
          let tags := tags ++ [tag] in
          match value with
          | [] => Some (inr tags)
          | c :: value =>
              if decide (c <> COMMA) then Some (inl "If-Match entity-tags must be separated by commas"%string)
              else parseEntityTagList fuel value tags
          end
      end
  end.

(** [inl] is a [BadRequestException]. *)
Definition parseIfMatch (raw : JSText) : option (string + ExpectedVersion) :=
  let value := trimText raw in
  if decide (value = []) then Some (inl "If-Match must not be empty"%string)
  else if decide (value = [42%N]) then Some (inr AnyVersion)
  else match parseEntityTagList (S (length value)) value [] with
       | None => None
       | Some (inl e) => Some (inl e)
       | Some (inr tags) => Some (inr (VersionList tags))
       end.

Definition satisfies (actual : Z) (tag : ParsedEntityTag) : bool :=
  negb (et_weak tag) && bool_decide (et_version tag = Some actual).

Definition isSatisfiedBy (expected : ExpectedVersion) (actual : Z) : bool :=
  match expected with
  | Unconditional | AnyVersion => true
  | VersionList tags => existsb (satisfies actual) tags
  end.

(** A tag as it is written, and a list of them. *)
Definition printTag (tag : ParsedEntityTag) : JSText :=
  (if et_weak tag then js "W/" else []) ++ [QUOTE] ++ et_opaque tag ++ [QUOTE].

Fixpoint joinTags (tags : list ParsedEntityTag) : JSText :=
  match tags with
  | [] => []
  | [tag] => printTag tag
  | tag :: rest => printTag tag ++ js ", " ++ joinTags rest
  end.

Definition DASH : JSText := [32; 8212; 32]%N.

Definition describeMismatch (expected : ExpectedVersion) (actual : Z) : JSText :=
  let current := js "the resource is now at " ++ formatEntityTag actual in
  match expected with
  | VersionList tags =>
      if forallb et_weak tags
      then js "If-Match precondition failed" ++ DASH ++
           js "a weak entity-tag never matches under the strong comparison If-Match requires, and " ++ current
      else js "If-Match precondition failed" ++ DASH ++ js "sent " ++ joinTags tags ++ js ", but " ++ current
  | _ => js "If-Match precondition failed" ++ DASH ++ current
  end.

(** A header as Node gives it: absent, one value, or an array. *)
Inductive HeaderValue := HeaderAbsent | HeaderOne (value : JSText) | HeaderMany (values : list JSText).

Definition resolveIfMatch (raw : HeaderValue) : option (string + ExpectedVersion) :=
  match raw with
  | HeaderAbsent => Some (inr UNCONDITIONAL)
  | HeaderMany _ => Some (inl "If-Match must be sent exactly once"%string)
  | HeaderOne value => parseIfMatch value
  end.

(** [true] when a [PreconditionRequiredException] is thrown. *)
Definition requireConditional (expected : ExpectedVersion) : bool :=
  match expected with Unconditional => true | _ => false end.

(** A handler's result: plain, or wrapped with the version of what it shows; the
    interceptor unwraps it into an [ETag] and a body. *)
Inductive HandlerResult (A : Type) := Plain (body : A) | Versioned (body : A) (version : Z).
Arguments Plain {A}. Arguments Versioned {A}.

Definition entityTagInterceptor {A} (value : HandlerResult A) : option JSText * A :=
  match value with
  | Plain body => (None, body)
  | Versioned body version => (Some (formatEntityTag version), body)
  end.

(** ** Reading and printing *)

Lemma skipWhitespace_length value : (length (skipWhitespace value) <= length value)%nat.
Proof. induction value as [|c value IH]; simpl; [done|]. case_decide; simpl; lia. Qed.

Lemma upToQuote_length value opaque after : upToQuote value = Some (opaque, after) -> (length after < length value)%nat.
Proof.
  revert opaque. induction value as [|c value IH]; intros opaque; simpl; [done|]. case_decide; [intros [= <- <-]; simpl; lia|].
  destruct (upToQuote value) as [[o a]|]; [|done]. intros [= <- <-]. specialize (IH _ eq_refl). lia.
Qed.

Lemma readWeak_length value : (length (snd (readWeak value)) <= length value)%nat.
Proof. unfold readWeak. repeat (case_match; simpl; try lia). Qed.

Lemma readTag_length value tag after : readTag value = inr (tag, after) -> (length after < length value)%nat.
Proof.
  unfold readTag. pose proof (skipWhitespace_length value) as H1. pose proof (readWeak_length (skipWhitespace value)) as H2.
  destruct (readWeak (skipWhitespace value)) as [weak rest]. simpl in H2. destruct rest as [|c rest]; [done|].
  case_decide; [done|]. destruct (upToQuote rest) as [[opaque after']|] eqn:Hq; [|done]. apply upToQuote_length in Hq.
  intros [= <- <-]. pose proof (skipWhitespace_length after'). simpl in *. lia.
Qed.

(** The loop ends. *)
Lemma parseEntityTagList_total fuel value tags : (length value < fuel)%nat -> is_Some (parseEntityTagList fuel value tags).
Proof.
  revert value tags. induction fuel as [|fuel IH]; intros value tags Hl; [lia|]. cbn [parseEntityTagList].
  destruct (readTag value) as [|[tag after]] eqn:Hr; [eauto|]. apply readTag_length in Hr. destruct after as [|c after]; [eauto|].
  case_decide; [eauto|]. apply IH. simpl in *. lia.
Qed.

Lemma upToQuote_print opaque after : QUOTE ∉ opaque -> upToQuote (opaque ++ QUOTE :: after) = Some (opaque, after).
Proof.
  induction opaque as [|c opaque IH]; intros Hn; simpl; [done|]. apply not_elem_of_cons in Hn as [Hc Hn].
  rewrite decide_False by congruence. by rewrite IH.
Qed.

(** A tag that can be written down. *)
Definition tag_ok (tag : ParsedEntityTag) : Prop := (QUOTE ∉ et_opaque tag) /\ et_version tag = readVersion (et_opaque tag).

Lemma read_print tag after : tag_ok tag -> readTag (printTag tag ++ after) = inr (tag, skipWhitespace after).
Proof.
  intros [Hq Hv]. unfold readTag. assert (readWeak (skipWhitespace (printTag tag ++ after)) = (et_weak tag, QUOTE :: et_opaque tag ++ QUOTE :: after)) as ->.
  { unfold printTag. destruct (et_weak tag); simpl; by rewrite <-app_assoc. }
  rewrite decide_False by (intros []; done). rewrite upToQuote_print by done. rewrite <-Hv. by destruct tag.
Qed.

Lemma readTag_space value : readTag (32%N :: value) = readTag value.
Proof. done. Qed.

Lemma parse_join fuel tags acc :
  Forall tag_ok tags -> tags <> [] -> (length (joinTags tags) < fuel)%nat ->
  parseEntityTagList fuel (joinTags tags) acc = Some (inr (acc ++ tags)).
Proof.
  revert fuel acc. induction tags as [|tag tags IH]; intros fuel acc Hok Hne Hl; [done|]. apply Forall_cons in Hok as [Ht Hok].
  destruct fuel as [|fuel]; [lia|]. cbn [parseEntityTagList]. destruct tags as [|t2 tags].
  { cbn [joinTags]. rewrite <-(app_nil_r (printTag tag)), read_print by done. done. }
  change (joinTags (tag :: t2 :: tags)) with (printTag tag ++ js ", " ++ joinTags (t2 :: tags)) in *. rewrite read_print by done.
  change (skipWhitespace (js ", " ++ joinTags (t2 :: tags))) with (COMMA :: 32%N :: joinTags (t2 :: tags)).
  cbv beta iota zeta. rewrite decide_False by (intros []; done). rewrite !length_app in Hl. change (length (js ", ")) with 2%nat in Hl.
  destruct fuel as [|fuel]; [lia|]. specialize (IH (S fuel) (acc ++ [tag]) Hok ltac:(done) ltac:(lia)).
  rewrite <-app_assoc in IH. etrans; [|exact IH]. cbn [parseEntityTagList]. by rewrite readTag_space.
Qed.

(** Every tag that is read can be written down. *)
Lemma upToQuote_no_quote value opaque after : upToQuote value = Some (opaque, after) -> QUOTE ∉ opaque.
Proof.
  revert opaque. induction value as [|c value IH]; intros opaque; simpl; [done|]. case_decide as Hc; [intros [= <- <-]; by apply not_elem_of_nil|].
  destruct (upToQuote value) as [[o a]|]; [|done]. intros [= <- <-]. apply not_elem_of_cons. split; [congruence|by eapply IH].
Qed.

Lemma parse_ok fuel value acc tags :
  Forall tag_ok acc -> parseEntityTagList fuel value acc = Some (inr tags) -> Forall tag_ok tags /\ tags <> [].
Proof.
  revert value acc. induction fuel as [|fuel IH]; intros value acc Hacc; [done|]. cbn [parseEntityTagList].
  destruct (readTag value) as [|[tag after]] eqn:Hr; [done|]. assert (tag_ok tag) as Ht.
  { unfold readTag in Hr. destruct (readWeak _) as [weak [|c rest]]; [done|]. case_decide; [done|].
    destruct (upToQuote rest) as [[o a]|] eqn:Hq; [|done]. injection Hr as <- <-. split; [by eapply upToQuote_no_quote|done]. }
  assert (Forall tag_ok (acc ++ [tag])) as Hacc' by (apply Forall_app; split; [done|by constructor]).
  destruct after as [|c after]; [intros [= <-]; split; [done|by destruct acc]|]. case_decide; [done|]. by apply IH.
Qed.

Lemma trim_ends c t d : isWhitespace c = false -> isWhitespace d = false -> trimText (c :: t ++ [d]) = c :: t ++ [d].
Proof.
  intros Hc Hd. unfold trimText. cbn [dropWhitespace]. rewrite Hc. change (c :: t ++ [d]) with ((c :: t) ++ [d]).
  rewrite reverse_snoc. cbn [dropWhitespace]. by rewrite Hd, reverse_cons, reverse_involutive.
Qed.

Lemma joinTags_ends tags : tags <> [] -> exists c t, joinTags tags = c :: t ++ [QUOTE] /\ (c = QUOTE \/ c = 87%N).
Proof.
  intros Hne. assert (exists t, joinTags tags = t ++ [QUOTE]) as [t Ht].
  { clear -Hne. induction tags as [|tag [|t2 tags] IH]; [done| |].
    - cbn [joinTags]. unfold printTag. rewrite !app_assoc. eauto.
    - destruct (IH ltac:(done)) as [t Ht]. change (joinTags (tag :: t2 :: tags)) with (printTag tag ++ js ", " ++ joinTags (t2 :: tags)).
      rewrite Ht, !app_assoc. eauto. }
  assert (exists c d t, joinTags tags = c :: d :: t /\ (c = QUOTE \/ c = 87%N)) as (c & d & t' & Hj & Hc).
  { destruct tags as [|tag tags]; [done|]. assert (exists rest, joinTags (tag :: tags) = printTag tag ++ rest) as [rest ->].
    { destruct tags; [exists []; by rewrite app_nil_r|by eexists]. }
    unfold printTag. destruct (et_weak tag); [eexists _, _, _; split; [reflexivity|by right]|].
    destruct (et_opaque tag); eexists _, _, _; (split; [reflexivity|by left]). }
  exists c. rewrite Ht in Hj. destruct t as [|c' t]; [simpl in Hj; congruence|]. injection Hj as -> Hj. exists t. by rewrite Ht.
Qed.

(** ** Versions *)

Lemma version_pretty v : 0 <= v <= MAX_SAFE_INTEGER -> readVersion (js (pretty v)) = Some v.
Proof.
  intros Hv. unfold readVersion. assert (VERSION_PATTERN (js (pretty v)) = true) as ->.
  { destruct (decide (v = 0)) as [->|Hz]; [done|]. replace (pretty v) with (pretty (Z.to_nat v)).
    2: { rewrite <-(Z2Nat.id v) at 2 by lia. by destruct (Z.to_nat v). }
    assert (Z.to_nat v <> 0%nat) as Hn by lia. pose proof (pretty_canonical _ Hn) as [Hd (d & rest & Hp & Hdz)].
    pose proof (allDigits_js _ Hd) as Ha. unfold js in *. rewrite Hp in *. rewrite fmap_cons in *. unfold VERSION_PATTERN.
    apply Forall_cons in Hd as [Hd _]. apply isDigit_range in Hd. unfold allDigits in Ha. cbn [forallb] in Ha. apply andb_true_iff in Ha as [_ Ha].
    apply orb_true_iff. right. apply andb_true_iff. split; [|exact Ha]. apply bool_decide_eq_true. unfold code in *. lia. }
  destruct (pretty_decimal v) as (_ & Hd & _); [lia|]. rewrite toText_js, Hd. by rewrite decide_True by lia.
Qed.

(** A tag that names a version is the tag that version is printed as. *)
Lemma version_canonical opaque v : readVersion opaque = Some v -> 0 <= v <= MAX_SAFE_INTEGER /\ opaque = js (pretty v).
Proof.
  unfold readVersion. destruct (VERSION_PATTERN opaque) eqn:Hp; [|done]. case_decide as Hmax; [|done]. intros [= <-].
  destruct opaque as [|d rest]; [done|]. unfold VERSION_PATTERN in Hp. rewrite orb_true_iff, andb_true_iff, !bool_decide_eq_true in Hp.
  destruct Hp as [->|[Hd Hr]]; [by split|]. assert (allDigits (d :: rest) = true) as Ha.
  { apply allDigits_Forall. constructor; [lia|]. by apply allDigits_Forall. }
  pose proof (digits_toText _ Ha) as Hok. pose proof (decimal_bound _ Hok) as [Hnn _]. split; [lia|].
  assert (canonical (toText (d :: rest))) as Hc.
  { split; [done|]. eexists _, _. split; [done|]. unfold code. rewrite Ascii.N_ascii_embedding by lia. lia. }
  set (v := decimal _) in *. assert (v <> 0) as Hz.
  { pose proof (canonical_length _ Hc) as [Hlo _]. fold v in Hlo. assert (0 < 10 ^ (Z.of_nat (length (toText (d :: rest))) - 1)); [|lia].
    apply Z.pow_pos_nonneg; [lia|]. unfold toText. rewrite length_fmap. simpl. lia. }
  assert (Z.to_nat v <> 0%nat) as Hn by lia.
  assert (pretty v = pretty (Z.to_nat v)) as ->. { rewrite <-(Z2Nat.id v) at 1 by lia. by destruct (Z.to_nat v). }
  unfold js. rewrite <-(canonical_inj _ _ Hc (pretty_canonical _ Hn)).
  - rewrite js_toText; [done|]. apply allDigits_Forall in Ha. eapply Forall_impl; [exact Ha|]. intros c Hcc. cbn beta in Hcc. lia.
  - rewrite (proj2 (pretty_nat_decimal _)). fold v. lia.
Qed.

Lemma parse_printed tags :
  tags <> [] -> Forall tag_ok tags -> parseIfMatch (joinTags tags) = Some (inr (VersionList tags)).
Proof.
  intros Hne Hok. unfold parseIfMatch. destruct (joinTags_ends _ Hne) as (c & t & Hj & Hc).
  assert (trimText (joinTags tags) = joinTags tags) as ->.
  { rewrite Hj. apply trim_ends; destruct Hc as [-> | ->]; done. }
  rewrite decide_False by (by rewrite Hj). rewrite decide_False by (rewrite Hj; intros [= -> ?]; by destruct Hc).
  rewrite parse_join by (done || lia). done.
Qed.

(** A client that sends back the [ETag] it was given is satisfied by that
    version and by no other. *)
Lemma etag_names_version v :
  0 <= v <= MAX_SAFE_INTEGER ->
  resolveIfMatch (HeaderOne (formatEntityTag v)) =
    Some (inr (VersionList [{| et_weak := false; et_opaque := js (pretty v); et_version := Some v |}])).
Proof.
  intros Hv. apply (parse_printed [{| et_weak := false; et_opaque := js (pretty v); et_version := Some v |}]); [done|]. repeat constructor; simpl; [|by rewrite version_pretty].
  intros Hin. destruct (pretty_decimal v) as (Hd & _ & _); [lia|]. apply allDigits_js, allDigits_Forall in Hd.
  rewrite Forall_forall in Hd. apply Hd in Hin. unfold QUOTE in Hin. lia.
Qed.

(** ** Theorems *)

(** A list of entity-tags means what it was written as.  Any list of tags, with
    any text between their quotes, weak or strong, is read back as itself from
    the form a 412 quotes it in. *)
Theorem if_match_roundtrip tags :
  tags <> [] -> Forall tag_ok tags -> parseIfMatch (joinTags tags) = Some (inr (VersionList tags)).
Proof. apply parse_printed. Qed.

(** [If-Match] compares the way it must.  The field is always answered,
    with a complaint, [*] or a list of tags; and a list of tags is satisfied by
    a version exactly when one of them is strong and is, character for
    character, the [ETag] that version is sent as. *)
Theorem if_match_strong_comparison raw actual :
  0 <= actual <= MAX_SAFE_INTEGER ->
  match parseIfMatch raw with
  | None => False
  | Some (inr (VersionList tags)) =>
      isSatisfiedBy (VersionList tags) actual = true <-> exists tag, tag ∈ tags /\ printTag tag = formatEntityTag actual
  | Some _ => True
  end.
Proof.
  intros Ha. unfold parseIfMatch. case_decide; [done|]. case_decide; [done|].
  destruct (parseEntityTagList_total (S (length (trimText raw))) (trimText raw) [] ltac:(lia)) as [r Hr]. rewrite Hr.
  destruct r as [e|tags]; [done|]. destruct (parse_ok _ _ _ _ (Forall_nil_2 _) Hr) as [Hok _]. rewrite Forall_forall in Hok.
  simpl. rewrite existsb_exists. unfold satisfies. split.
  - intros (tag & Hin%list_elem_of_In & [Hw%negb_true_iff Hv%bool_decide_eq_true]%andb_true_iff). exists tag. split; [done|].
    destruct (Hok _ Hin) as [_ Hr']. rewrite Hv in Hr'. symmetry in Hr'. apply version_canonical in Hr' as [_ Hop].
    unfold printTag, formatEntityTag. by rewrite Hw, Hop.
  - intros (tag & Hin & Hp). exists tag. split; [by apply list_elem_of_In|]. destruct (Hok _ Hin) as [_ Hr'].
    unfold printTag, formatEntityTag in Hp. destruct (et_weak tag); [done|]. injection Hp as Hp. apply app_inv_tail in Hp.
    rewrite Hr', Hp, version_pretty by done. simpl. by rewrite bool_decide_eq_true_2.
Qed.

Definition sample_tags : list ParsedEntityTag :=
  [{| et_weak := false; et_opaque := js "3"; et_version := Some 3 |}; {| et_weak := true; et_opaque := js "a,b"; et_version := None |}].

Lemma if_match_roundtrip_witness : parseIfMatch (joinTags sample_tags) = Some (inr (VersionList sample_tags)).
Proof.
  apply (if_match_roundtrip sample_tags).
  - discriminate.
  - repeat constructor; simpl; set_solver.
Defined.

Lemma if_match_strong_comparison_witness :
  match parseIfMatch (joinTags sample_tags) with
  | None => False
  | Some (inr (VersionList tags)) =>
      isSatisfiedBy (VersionList tags) 3 = true <-> exists tag, tag ∈ tags /\ printTag tag = formatEntityTag 3
  | Some _ => True
  end.
Proof. apply (if_match_strong_comparison (joinTags sample_tags) 3). unfold MAX_SAFE_INTEGER. lia. Defined.
