(* ===== verification/Users.v ===== *)
(** * Users: accounts and optimistic concurrency

    [users/prisma-users.repository.ts], the commands and queries of [users/write]
    and [users/read], [users/users.access-policy.ts],
    [users/types/user-preferences.ts] with [common/prisma/prisma.extensions.ts],
    and the account half of [auth/auth.service.ts].  A handler is a program over
    the statements it sends to the database and the cache; between two statements
    of one handler any other statements may run.  A unit of work is one
    statement, and ids come from [cuid()], which never repeats one. *)

From S2P Require Import Prelude Text EntityTag.

(** ** Preferences *)

Inductive Theme := Light | Dark | System.

Record UserPreferences := {
  pf_theme : Theme; pf_language : string; pf_emailNotifications : bool; pf_smsNotifications : bool;
  pf_pushNotifications : bool; pf_timezone : string;
}.

(** [Partial<UserPreferences>]; an absent key and an [undefined] one are the same. *)
Record PartialPreferences := {
  pp_theme : option Theme; pp_language : option string; pp_emailNotifications : option bool; pp_smsNotifications : option bool;
  pp_pushNotifications : option bool; pp_timezone : option string;
}.

Definition DEFAULT_USER_PREFERENCES : UserPreferences := {|
  pf_theme := System; pf_language := "en"; pf_emailNotifications := true; pf_smsNotifications := false;
  pf_pushNotifications := false; pf_timezone := "UTC" |}.

(** [patch]: the defined keys of [changes] over [current]. *)
Definition mergePreferences (current : UserPreferences) (changes : PartialPreferences) : UserPreferences := {|
  pf_theme := default (pf_theme current) (pp_theme changes);
  pf_language := default (pf_language current) (pp_language changes);
  pf_emailNotifications := default (pf_emailNotifications current) (pp_emailNotifications changes);
  pf_smsNotifications := default (pf_smsNotifications current) (pp_smsNotifications changes);
  pf_pushNotifications := default (pf_pushNotifications current) (pp_pushNotifications changes);
  pf_timezone := default (pf_timezone current) (pp_timezone changes) |}.

Definition NO_CHANGES : PartialPreferences := {|
  pp_theme := None; pp_language := None; pp_emailNotifications := None; pp_smsNotifications := None;
  pp_pushNotifications := None; pp_timezone := None |}.

(** What is stored after a write: every key. *)
Definition stored_form (p : UserPreferences) : PartialPreferences := {|
  pp_theme := Some (pf_theme p); pp_language := Some (pf_language p); pp_emailNotifications := Some (pf_emailNotifications p);
  pp_smsNotifications := Some (pf_smsNotifications p); pp_pushNotifications := Some (pf_pushNotifications p);
  pp_timezone := Some (pf_timezone p) |}.

(** ** Rows *)

Inductive Role := USER | ADMIN.

#[export] Instance Role_eq : EqDecision Role.
Proof. solve_decision. Defined.

Record User := {
  u_id : string; u_email : string; u_password : option string; u_name : option string; u_role : Role;
  u_provider : option string; u_providerAccountId : option string; u_avatarUrl : option string;
  u_preferences : option PartialPreferences; u_version : Z;
}.

(** [UpdateUserData], with the preferences a preference write sets. *)
Record RowChange := {
  rc_name : option string; rc_provider : option string; rc_providerAccountId : option string; rc_avatarUrl : option string;
  rc_preferences : option UserPreferences;
}.

Definition or_keep {A} (change current : option A) : option A := match change with Some a => Some a | None => current end.

(** [data: { ...data, version: { increment: 1 } }]; [undefined] leaves a column alone. *)
Definition apply_change (data : RowChange) (row : User) : User := {|
  u_id := u_id row; u_email := u_email row; u_password := u_password row; u_name := or_keep (rc_name data) (u_name row); u_role := u_role row;
  u_provider := or_keep (rc_provider data) (u_provider row); u_providerAccountId := or_keep (rc_providerAccountId data) (u_providerAccountId row);
  u_avatarUrl := or_keep (rc_avatarUrl data) (u_avatarUrl row);
  u_preferences := or_keep (stored_form <$> rc_preferences data) (u_preferences row);
  u_version := u_version row + 1 |}.

Record CreateUserData := {
  cd_email : string; cd_password : option string; cd_name : option string; cd_provider : option string; cd_providerAccountId : option string;
}.

Definition new_user (id : string) (data : CreateUserData) : User := {|
  u_id := id; u_email := cd_email data; u_password := cd_password data; u_name := cd_name data; u_role := USER;
  u_provider := cd_provider data; u_providerAccountId := cd_providerAccountId data; u_avatarUrl := None; u_preferences := None; u_version := 0 |}.

Inductive UserEvent := UserRegistered (userId email : string) (name provider : option string) | UserDeleted (userId email : string).

Record AuditRecord := { ar_event : string; ar_subject : string; ar_email : string; ar_actor : option (string * Role) }.

(** The database, the cache of user representations (the row they were made
    from), the bucket and the refresh tokens that were issued.  [w_issued] are
    the ids [cuid()] has given out. *)
Record World := {
  w_users : gmap string User;
  w_issued : gset string;
  w_outbox : list UserEvent;
  w_audit : list AuditRecord;
  w_cache : gmap string User;
  w_uploads : list string;
  w_sessions : list string;
}.

(** ** Statements *)

Inductive Op : Type -> Type :=
  | FindUnique (id : string) : Op (option User)
  | FindByEmail (email : string) : Op (option User)
  | FindByProviderAccount (provider account : string) : Op (option User)
  | UpdateRow (id : string) (filter : option (list Z)) (data : RowChange) : Op (option User)
  | DeleteTx (id : string) (filter : option (list Z)) (email : string) (actor : option (string * Role)) : Op (option User)
  | CreateTx (id : string) (data : CreateUserData) : Op (option User)
  | CacheGet (key : string) : Op (option User)
  | CacheSet (key : string) (value : User) : Op unit
  | CacheDel (keys : list string) : Op unit
  | Upload (key : string) : Op unit
  | IssueTokens (userId : string) : Op unit.

Definition with_users (users : gmap string User) (w : World) : World :=
  {| w_users := users; w_issued := w_issued w; w_outbox := w_outbox w; w_audit := w_audit w; w_cache := w_cache w; w_uploads := w_uploads w; w_sessions := w_sessions w |}.
Definition with_cache (cache : gmap string User) (w : World) : World :=
  {| w_users := w_users w; w_issued := w_issued w; w_outbox := w_outbox w; w_audit := w_audit w; w_cache := cache; w_uploads := w_uploads w; w_sessions := w_sessions w |}.
Definition with_announced (users : gmap string User) (issued : gset string) (event : UserEvent) (record : AuditRecord) (w : World) : World :=
  {| w_users := users; w_issued := issued; w_outbox := w_outbox w ++ [event]; w_audit := w_audit w ++ [record];
     w_cache := w_cache w; w_uploads := w_uploads w; w_sessions := w_sessions w |}.

Definition find_user (P : User -> Prop) `{forall u, Decision (P u)} (w : World) : option User :=
  (fun p => snd (snd p)) <$> list_find (fun kv => P (snd kv)) (map_to_list (w_users w)).

(** [where: { id, version: { in: [...] } }] *)
Definition matching (id : string) (filter : option (list Z)) (w : World) : option User :=
  match w_users w !! id with
  | Some row => match filter with
                | None => Some row
                | Some versions => if decide (u_version row ∈ versions) then Some row else None
                end
  | None => None
  end.

Definition USERS_LIST_CACHE_KEY : string := "v1:users:list".
Definition userCacheKey (id : string) : string := "v1:users:" +:+ id.
Definition userPreferencesCacheKey (id : string) : string := userCacheKey id +:+ ":prefs".

Definition delete_keys (keys : list string) (cache : gmap string User) : gmap string User := foldr delete cache keys.

(** The unit of work of a deletion, once the row matched: the row goes, its
    representations are evicted, the event is staged and the entry recorded. *)
Definition delete_unit (id email : string) (actor : option (string * Role)) (w : World) : World :=
  with_cache (delete_keys [userCacheKey id; USERS_LIST_CACHE_KEY] (w_cache w))
    (with_announced (delete id (w_users w)) (w_issued w) (UserDeleted id email)
       {| ar_event := "user.deleted"; ar_subject := id; ar_email := email; ar_actor := actor |} w).

(** The unit of work of a registration: the row, the event and the entry. *)
Definition stageRegistered (user : User) (w : World) : World :=
  with_announced (<[u_id user := user]> (w_users w)) ({[u_id user]} ∪ w_issued w)
    (UserRegistered (u_id user) (u_email user) (u_name user) (u_provider user))
    {| ar_event := "user.registered"; ar_subject := u_id user; ar_email := u_email user; ar_actor := Some (u_id user, u_role user) |} w.

(** One statement.  [None] from a write is a [P2025], from an insert a [P2002]. *)
Definition perform {X} (op : Op X) (w : World) : X * World :=
  match op in Op X return X * World with
  | FindUnique id => (w_users w !! id, w)
  | FindByEmail email => (find_user (fun u => u_email u = email) w, w)
  | FindByProviderAccount provider account =>
      (find_user (fun u => u_provider u = Some provider /\ u_providerAccountId u = Some account) w, w)
  | UpdateRow id filter data =>
      match matching id filter w with
      | Some row => let row := apply_change data row in (Some row, with_users (<[id := row]> (w_users w)) w)
      | None => (None, w)
      end
  | DeleteTx id filter email actor =>
      match matching id filter w with
      | Some row => (Some row, delete_unit id email actor w)
      | None => (None, w)
      end
  | CreateTx id data =>
      if decide (id ∈ w_issued w \/ map_Exists (fun _ u => u_email u = cd_email data) (w_users w)) then (None, w)
      else
        let row := new_user id data in (Some row, stageRegistered row w)
  | CacheGet key => (w_cache w !! key, w)
  | CacheSet key value => (tt, with_cache (<[key := value]> (w_cache w)) w)
  | CacheDel keys => (tt, with_cache (delete_keys keys (w_cache w)) w)
  | Upload key => (tt, {| w_users := w_users w; w_issued := w_issued w; w_outbox := w_outbox w; w_audit := w_audit w;
                          w_cache := w_cache w; w_uploads := w_uploads w ++ [key]; w_sessions := w_sessions w |})
  | IssueTokens userId => (tt, {| w_users := w_users w; w_issued := w_issued w; w_outbox := w_outbox w; w_audit := w_audit w;
                                  w_cache := w_cache w; w_uploads := w_uploads w; w_sessions := w_sessions w ++ [userId] |})
  end.

Inductive AnyOp : Type := | Stmt {X : Type} (op : Op X) : AnyOp.

Definition run_op (w : World) (s : AnyOp) : World := match s with Stmt op => snd (perform op w) end.
Definition run_ops (ops : list AnyOp) (w : World) : World := foldl run_op w ops.

(** ** Programs *)

Inductive UserError :=
  | NotFoundException (message : string)
  | ForbiddenException (message : string)
  | PreconditionRequiredException
  | PreconditionFailedException (message : JSText)
  | ConflictException (message : string)
  | VersionConflictError (currentVersion : Z)
  | RecordNotFound
  | UniqueViolation
  | PlainError (message : string).

Inductive Prog (A : Type) : Type :=
  | Ret (a : A)
  | Throw (e : UserError)
  | Vis {X : Type} (op : Op X) (k : X -> Prog A).
Arguments Ret {A}. Arguments Throw {A}. Arguments Vis {A X}.

Fixpoint pbind {A B} (p : Prog A) (f : A -> Prog B) : Prog B :=
  match p with
  | Ret a => f a
  | Throw e => Throw e
  | Vis op k => Vis op (fun x => pbind (k x) f)
  end.

Fixpoint pcatch {A} (p : Prog A) (h : UserError -> Prog A) : Prog A :=
  match p with
  | Ret a => Ret a
  | Throw e => h e
  | Vis op k => Vis op (fun x => pcatch (k x) h)
  end.

Definition send {X} (op : Op X) : Prog X := Vis op Ret.

Notation "'await' x := p 'in' q" := (pbind p (fun x => q)) (at level 10, x binder, p at level 200, q at level 200).

(** A program with other statements before each of its own; what is left of them
    is returned. *)
Fixpoint exec {A} (p : Prog A) (env : list (list AnyOp)) (w : World) : (UserError + A) * World * list (list AnyOp) :=
  match p with
  | Ret a => (inr a, w, env)
  | Throw e => (inl e, w, env)
  | Vis op k =>
      let '(x, w) := perform op (run_ops (default [] (head env)) w) in
      exec (k x) (tail env) w
  end.

(** ** The store *)

Definition versionPredicate (expected : ExpectedVersion) : option (list Z) :=
  match expected with
  | VersionList tags => Some (omap (fun tag => if et_weak tag then None else et_version tag) tags)
  | _ => None
  end.

Definition explainWriteFailure (id : string) (expected : ExpectedVersion) (error : UserError) : Prog UserError :=
  await current := send (FindUnique id) in
  Ret (match current with
       | Some row => if isSatisfiedBy expected (u_version row) then error else VersionConflictError (u_version row)
       | None => error
       end).

(** [try { ... } catch (error) { throw await this.explainWriteFailure(...) }] *)
Definition explained {A} (id : string) (expected : ExpectedVersion) (write : Prog A) : Prog A :=
  pcatch write (fun error => await e := explainWriteFailure id expected error in Throw e).

Definition write_row (id : string) (filter : option (list Z)) (data : RowChange) : Prog User :=
  await written := send (UpdateRow id filter data) in
  match written with Some row => Ret row | None => Throw RecordNotFound end.

Definition repo_update (id : string) (data : RowChange) (expected : ExpectedVersion) : Prog User :=
  explained id expected (write_row id (versionPredicate expected) data).

(** The delete, with what its unit of work stages and records. *)
Definition repo_delete (id : string) (expected : ExpectedVersion) (email : string) (actor : option (string * Role)) : Prog User :=
  explained id expected (
    await deleted := send (DeleteTx id (versionPredicate expected) email actor) in
    match deleted with Some row => Ret row | None => Throw RecordNotFound end).

Definition getPreferences (id : string) : Prog UserPreferences :=
  await user := send (FindUnique id) in
  Ret (mergePreferences DEFAULT_USER_PREFERENCES (default NO_CHANGES (user ≫= u_preferences))).

Definition prefs_change (p : UserPreferences) : RowChange :=
  {| rc_name := None; rc_provider := None; rc_providerAccountId := None; rc_avatarUrl := None; rc_preferences := Some p |}.

(** The extension's read-modify-write. *)
Definition ext_setPreferences (id : string) (patch : PartialPreferences) (versionFilter : option (list Z)) : Prog (UserPreferences * Z) :=
  await user := send (FindUnique id) in
  match user with
  | None => Throw (PlainError ("User " +:+ id +:+ " not found"))
  | Some user =>
      let current := mergePreferences DEFAULT_USER_PREFERENCES (default NO_CHANGES (u_preferences user)) in
      let updated := mergePreferences current patch in
      await written := write_row id versionFilter (prefs_change updated) in
      Ret (updated, u_version written)
  end.

Definition repo_setPreferences (id : string) (patch : PartialPreferences) (expected : ExpectedVersion) : Prog (UserPreferences * Z) :=
  explained id expected (ext_setPreferences id patch (versionPredicate expected)).

(** ** The write model *)

Record RequesterIdentity := { rq_id : string; rq_role : Role }.

Inductive UserOwnedAction := UpdateProfile | UpdateAvatar | ReadPreferences | UpdatePreferences.

Definition DENIAL_MESSAGE (action : UserOwnedAction) : string :=
  match action with
  | UpdateProfile => "Cannot modify another user's profile"
  | UpdateAvatar => "Cannot modify another user's avatar"
  | ReadPreferences => "Cannot read another user's preferences"
  | UpdatePreferences => "Cannot modify another user's preferences"
  end.

Definition canAct (requester : RequesterIdentity) (targetUserId : string) : bool :=
  bool_decide (rq_id requester = targetUserId) || bool_decide (rq_role requester = ADMIN).

Definition assertCanAct (requester : RequesterIdentity) (targetUserId : string) (action : UserOwnedAction) : Prog unit :=
  if canAct requester targetUserId then Ret tt else Throw (ForbiddenException (DENIAL_MESSAGE action)).

Definition requireUser (id : string) : Prog User :=
  await user := send (FindUnique id) in
  match user with Some user => Ret user | None => Throw (NotFoundException ("User " +:+ id +:+ " not found")) end.

Definition evictUser (id : string) : Prog unit := send (CacheDel [userCacheKey id; USERS_LIST_CACHE_KEY]).
Definition evictList : Prog unit := send (CacheDel [USERS_LIST_CACHE_KEY]).
Definition evictPreferences (id : string) : Prog unit := send (CacheDel [userPreferencesCacheKey id]).

Definition assertPrecondition (id : string) (expected : ExpectedVersion) : Prog User :=
  await user := requireUser id in
  if requireConditional expected then Throw PreconditionRequiredException
  else if negb (isSatisfiedBy expected (u_version user)) then Throw (PreconditionFailedException (describeMismatch expected (u_version user)))
  else Ret user.

Definition conflictMessage (currentVersion : Z) : JSText :=
  js "Version conflict" ++ DASH ++ js ("the resource is at version " +:+ pretty currentVersion).

Definition conditionally {A} (write : Prog A) : Prog A :=
  pcatch write (fun error =>
    match error with
    | VersionConflictError v => Throw (PreconditionFailedException (conflictMessage v))
    | error => Throw error
    end).

Definition applyUpdate (id : string) (data : RowChange) (expected : ExpectedVersion) : Prog User :=
  await updated := conditionally (repo_update id data expected) in
  await _ := evictUser id in
  Ret updated.

(** ** Commands *)

Definition profile_change (name : option string) : RowChange :=
  {| rc_name := name; rc_provider := None; rc_providerAccountId := None; rc_avatarUrl := None; rc_preferences := None |}.
Definition avatar_change (key : string) : RowChange :=
  {| rc_name := None; rc_provider := None; rc_providerAccountId := None; rc_avatarUrl := Some key; rc_preferences := None |}.
Definition link_change (provider account : string) : RowChange :=
  {| rc_name := None; rc_provider := Some provider; rc_providerAccountId := Some account; rc_avatarUrl := None; rc_preferences := None |}.

Definition updateUserProfile (requester : RequesterIdentity) (targetId : string) (name : option string) (expected : ExpectedVersion) : Prog User :=
  await _ := assertCanAct requester targetId UpdateProfile in
  await _ := assertPrecondition targetId expected in
  applyUpdate targetId (profile_change name) expected.

(** [key] is [avatars/<id>/<now>.<extension>]. *)
Definition avatarKey (targetId : string) (now : Z) (extension : string) : string :=
  "avatars/" +:+ targetId +:+ "/" +:+ pretty now +:+ "." +:+ extension.

Definition updateUserAvatar (requester : RequesterIdentity) (targetId : string) (now : Z) (extension : string) (expected : ExpectedVersion) : Prog User :=
  await _ := assertCanAct requester targetId UpdateAvatar in
  await _ := assertPrecondition targetId expected in
  let key := avatarKey targetId now extension in
  await _ := send (Upload key) in
  applyUpdate targetId (avatar_change key) expected.

Definition updateUserPreferences (requester : RequesterIdentity) (userId : string) (dto : PartialPreferences) (expected : ExpectedVersion) :
    Prog (UserPreferences * Z) :=
  await _ := assertCanAct requester userId UpdatePreferences in
  await _ := assertPrecondition userId expected in
  await written := conditionally (repo_setPreferences userId dto expected) in
  await _ := evictPreferences userId in
  await _ := evictUser userId in
  Ret written.

Definition deleteUser (id : string) (expected : ExpectedVersion) (actor : option (string * Role)) : Prog unit :=
  await user := assertPrecondition id expected in
  await _ := conditionally (repo_delete id expected (u_email user) actor) in
  Ret tt.

Definition updateUser (id : string) (data : RowChange) (expected : ExpectedVersion) : Prog User :=
  await _ := requireUser id in
  applyUpdate id data expected.

(** ** Queries *)

Definition getUser (id : string) : Prog User := requireUser id.

Definition getUserPreferences (requester : RequesterIdentity) (userId : string) : Prog (UserPreferences * Z) :=
  await _ := assertCanAct requester userId ReadPreferences in
  await user := requireUser userId in
  await preferences := getPreferences userId in
  Ret (preferences, u_version user).

(** [findOne] behind [UserResourceCacheInterceptor]: the representation, and the
    version its [ETag] names. *)
Definition findOne (id : string) : Prog (HandlerResult User) :=
  await cached := send (CacheGet (userCacheKey id)) in
  match cached with
  | Some user => Ret (Versioned user (u_version user))
  | None =>
      await user := getUser id in
      await _ := send (CacheSet (userCacheKey id) user) in
      Ret (Versioned user (u_version user))
  end.

(** The projector. *)
Definition projectEvent (event : UserEvent) : Prog unit :=
  match event with UserRegistered _ _ _ _ => evictList | UserDeleted userId _ => evictUser userId end.

(** ** Registration and sign-in *)

Definition createUser (id : string) (data : CreateUserData) : Prog User :=
  await created := send (CreateTx id data) in
  match created with Some row => Ret row | None => Throw UniqueViolation end.

(** [hash] is what argon2 made of the password, [id] what [cuid()] gives. *)
Definition register (email : string) (hash : string) (name : option string) (id : string) : Prog User :=
  await exists_ := send (FindByEmail email) in
  match exists_ with
  | Some _ => Throw (ConflictException "Email already in use")
  | None =>
      await user := createUser id {| cd_email := email; cd_password := Some hash; cd_name := name; cd_provider := None; cd_providerAccountId := None |} in
      await _ := send (IssueTokens (u_id user)) in
      Ret user
  end.

Record GoogleProfile := { gp_googleId : string; gp_email : string; gp_name : option string }.

Definition loginWithGoogle (profile : GoogleProfile) (id : string) : Prog User :=
  await linked := send (FindByProviderAccount "google" (gp_googleId profile)) in
  await user :=
    match linked with
    | Some user => Ret user
    | None =>
        await byEmail := send (FindByEmail (gp_email profile)) in
        match byEmail with
        | Some byEmail => updateUser (u_id byEmail) (link_change "google" (gp_googleId profile)) UNCONDITIONAL
        | None => createUser id {| cd_email := gp_email profile; cd_password := None; cd_name := gp_name profile;
                                   cd_provider := Some "google"; cd_providerAccountId := Some (gp_googleId profile) |}
        end
    end in
  await _ := send (IssueTokens (u_id user)) in
  Ret user.

(** ** Rows and versions *)

Definition emails_unique (w : World) : Prop :=
  forall i j u v, w_users w !! i = Some u -> w_users w !! j = Some v -> u_email u = u_email v -> i = j.

Record world_ok (w : World) : Prop := {
  wo_issued id : is_Some (w_users w !! id) -> id ∈ w_issued w;
  wo_id id u : w_users w !! id = Some u -> u_id u = id;
  wo_version id u : w_users w !! id = Some u -> 0 <= u_version u;
  wo_email : emails_unique w;
}.

Lemma matching_Some id filter w row :
  matching id filter w = Some row -> w_users w !! id = Some row /\ match filter with Some vs => u_version row ∈ vs | None => True end.
Proof. unfold matching. destruct (w_users w !! id) as [r|]; [|done]. destruct filter as [vs|]; [case_decide; [|done]|]; by intros [= <-]. Qed.

Lemma world_ok_users w w' : w_users w' = w_users w -> w_issued w' = w_issued w -> world_ok w -> world_ok w'.
Proof. intros Hu Hi []. constructor; unfold emails_unique in *; rewrite ?Hu, ?Hi; done. Qed.

(** Replacing a row by one with the same id and address. *)
Lemma world_ok_update w id row row' :
  w_users w !! id = Some row -> u_id row' = u_id row -> u_email row' = u_email row -> u_version row <= u_version row' ->
  world_ok w -> world_ok (with_users (<[id := row']> (w_users w)) w).
Proof.
  intros Hl Hid Hem Hv [Hi Ho Hz He]. constructor; simpl.
  - intros i [u Hu]. destruct (decide (i = id)) as [->|]; [apply Hi; eauto|]. rewrite lookup_insert_ne in Hu by done. eauto.
  - intros i u [[<- <-]|[? Hu]]%lookup_insert_Some; [rewrite Hid|]; eauto.
  - intros i u [[<- <-]|[? Hu]]%lookup_insert_Some; [specialize (Hz _ _ Hl); lia|eauto].
  - intros i j u v. simpl. intros [[<- <-]|[? Hu]]%lookup_insert_Some [[<- <-]|[? Hv']]%lookup_insert_Some Heq; [done|..].
    + rewrite Hem in Heq. eauto.
    + rewrite Hem in Heq. eauto.
    + eauto.
Qed.

Lemma run_op_ok w s : world_ok w -> world_ok (run_op w s).
Proof.
  intros Hok. destruct s as [X op]. destruct op; simpl; try done.
  - destruct (matching id filter w) as [row|] eqn:Hm; [|done]. apply matching_Some in Hm as [Hl _]. simpl. eapply world_ok_update; [done|done|done|simpl; lia|done].
  - destruct (matching id filter w) as [row|] eqn:Hm; [|done]. simpl. destruct Hok as [Hi Ho Hz He]. constructor; simpl.
    + intros i [u [_ Hu]%lookup_delete_Some]. eauto.
    + intros i u [_ Hu]%lookup_delete_Some. eauto.
    + intros i u [_ Hu]%lookup_delete_Some. eauto.
    + intros i j u v. simpl. intros [_ Hu]%lookup_delete_Some [_ Hv]%lookup_delete_Some. eauto.
  - case_decide as Hc; [done|]. simpl. apply Decidable.not_or in Hc as [Hc Hex]. destruct Hok as [Hi Ho Hz He]. constructor; simpl.
    + intros i [u [[<- _]|[_ Hu]]%lookup_insert_Some]; [set_solver|]. apply elem_of_union. right. eauto.
    + intros i u [[<- <-]|[_ Hu]]%lookup_insert_Some; [done|eauto].
    + intros i u [[<- <-]|[_ Hu]]%lookup_insert_Some; [done|eauto].
    + intros i j u v. simpl. intros [[<- <-]|[? Hu]]%lookup_insert_Some [[<- <-]|[? Hv]]%lookup_insert_Some Heq; [done|..|eauto].
      * destruct Hex. exists j, v. done.
      * destruct Hex. exists i, u. done.
  - by apply (world_ok_users w).
  - by apply (world_ok_users w).
  - by apply (world_ok_users w).
  - by apply (world_ok_users w).
Qed.

Lemma run_ops_ok ops w : world_ok w -> world_ok (run_ops ops w).
Proof. revert w. induction ops as [|s ops IH]; intros w Hw; [done|]. apply IH. by apply run_op_ok. Qed.

(** What one statement does to one row: nothing, a later version, or it is gone
    for good. *)
Lemma run_op_row w s id :
  world_ok w -> id ∈ w_issued w ->
  id ∈ w_issued (run_op w s) /\
  match w_users w !! id with
  | None => w_users (run_op w s) !! id = None
  | Some r => w_users (run_op w s) !! id = Some r \/ w_users (run_op w s) !! id = None \/
              exists r', w_users (run_op w s) !! id = Some r' /\ u_version r' = u_version r + 1
  end.
Proof.
  intros Hok Hid. destruct s as [X op]. assert (forall o : option User, match o with None => o = None | Some r => o = Some r \/ o = None \/
    exists r', o = Some r' /\ u_version r' = u_version r + 1 end) as Hsame by (intros []; auto).
  destruct op as [ | | |i filter data|i filter email actor|i data| | | | | ]; simpl; try (split; [done|apply Hsame]).
  - destruct (matching i filter w) as [row|] eqn:Hm; [|split; [done|apply Hsame]]. simpl. split; [done|].
    destruct (decide (i = id)) as [->|Hne]; [|rewrite lookup_insert_ne by done; apply Hsame].
    apply matching_Some in Hm as [-> _]. rewrite lookup_insert_eq. right. right. eexists. split; [done|]. done.
  - destruct (matching i filter w) as [row|] eqn:Hm; [|split; [done|apply Hsame]]. simpl. split; [done|].
    destruct (decide (i = id)) as [->|Hne]; [|rewrite lookup_delete_ne by done; apply Hsame].
    rewrite lookup_delete_eq. destruct (w_users w !! id); auto.
  - case_decide as Hc; [split; [done|apply Hsame]|]. simpl. apply Decidable.not_or in Hc as [Hc _]. split; [set_solver|].
    rewrite lookup_insert_ne by (intros ->; done). apply Hsame.
Qed.

(** A version is one state of a row. *)
Lemma version_determines_row ops w id r r' :
  world_ok w -> w_users w !! id = Some r -> w_users (run_ops ops w) !! id = Some r' ->
  u_version r <= u_version r' /\ (u_version r = u_version r' -> r = r').
Proof.
  intros Hok Hr Hr'. assert (id ∈ w_issued w) as Hi by (apply (wo_issued _ Hok); eauto).
  assert (forall ops w1, world_ok w1 -> id ∈ w_issued w1 ->
    match w_users w1 !! id with Some r1 => u_version r < u_version r1 \/ r1 = r | None => True end ->
    match w_users (run_ops ops w1) !! id with Some r2 => u_version r < u_version r2 \/ r2 = r | None => True end) as H.
  { clear. induction ops as [|s ops IH]; intros w1 Hok Hi H1; [done|]. apply IH; [by apply run_op_ok| |];
      destruct (run_op_row w1 s id Hok Hi) as [Hi' Hrow]; [done|].
    destruct (w_users w1 !! id) as [r1|]; [|by rewrite Hrow]. destruct Hrow as [-> | [-> | (r2 & -> & Hv)]]; [done|done|].
    left. destruct H1 as [? | ->]; lia. }
  specialize (H ops w Hok Hi). rewrite Hr, Hr' in H. destruct H as [H | ->]; [by right|lia|]. split; [lia|done].
Qed.

(** ** Programs *)

Lemma exec_bind {A B} (p : Prog A) (f : A -> Prog B) env w :
  exec (pbind p f) env w =
  match exec p env w with
  | (inr a, w, env) => exec (f a) env w
  | (inl e, w, env) => (inl e, w, env)
  end.
Proof.
  revert env w. induction p as [a|e|X op k IH]; intros env w; [done|done|]. simpl.
  destruct (perform op _) as [x w1]. apply IH.
Qed.

Lemma exec_catch {A} (p : Prog A) h env w :
  exec (pcatch p h) env w =
  match exec p env w with
  | (inr a, w, env) => (inr a, w, env)
  | (inl e, w, env) => exec (h e) env w
  end.
Proof.
  revert env w. induction p as [a|e|X op k IH]; intros env w; [done|done|]. simpl.
  destruct (perform op _) as [x w1]. apply IH.
Qed.

Lemma bind_returns {A B} (p : Prog A) (f : A -> Prog B) env w b w' env' :
  exec (pbind p f) env w = (inr b, w', env') ->
  exists a w1 env1, exec p env w = (inr a, w1, env1) /\ exec (f a) env1 w1 = (inr b, w', env').
Proof. rewrite exec_bind. destruct (exec p env w) as [[[e|a] w1] env1]; [done|]. eauto. Qed.

(** A world that others' statements and a program's own lead to. *)
Definition evolves (w w' : World) : Prop := exists ops, w' = run_ops ops w.

Lemma evolves_refl w : evolves w w.
Proof. by exists []. Qed.

Lemma evolves_trans w1 w2 w3 : evolves w1 w2 -> evolves w2 w3 -> evolves w1 w3.
Proof. intros [a ->] [b ->]. exists (a ++ b). unfold run_ops. by rewrite foldl_app. Qed.

Lemma evolves_ops w ops : evolves w (run_ops ops w).
Proof. by exists ops. Qed.

Lemma evolves_perform {X} (op : Op X) w : evolves w (snd (perform op w)).
Proof. by exists [Stmt op]. Qed.

Create HintDb users.
#[local] Hint Resolve evolves_refl evolves_ops evolves_perform : users.

Lemma exec_evolves {A} (p : Prog A) env w : evolves w (snd (fst (exec p env w))).
Proof.
  revert env w. induction p as [a|e|X op k IH]; intros env w; simpl; [auto with users..|].
  pose proof (evolves_perform op (run_ops (default [] (head env)) w)) as H. destruct (perform op _) as [x w1]. simpl in *.
  eapply evolves_trans; [apply evolves_ops|]. by eapply evolves_trans; [|apply IH].
Qed.

Lemma returns_evolves {A} (p : Prog A) env w r w' env' : exec p env w = (r, w', env') -> evolves w w'.
Proof. intros H. pose proof (exec_evolves p env w) as He. by rewrite H in He. Qed.

(** A statement that is sent meets a world the others led to. *)
Lemma exec_send {X} (op : Op X) env w :
  exists w1, evolves w w1 /\ exec (send op) env w = (inr (fst (perform op w1)), snd (perform op w1), tail env).
Proof.
  exists (run_ops (default [] (head env)) w). split; [apply evolves_ops|]. simpl. by destruct (perform op _).
Qed.

Lemma versions_evolve w w' id r r' :
  world_ok w -> evolves w w' -> w_users w !! id = Some r -> w_users w' !! id = Some r' ->
  u_version r <= u_version r' /\ (u_version r = u_version r' -> r = r').
Proof. intros Hok [ops ->]. by apply version_determines_row. Qed.

(** A row that is written while it is at a version is the row that had that version. *)
Lemma write_row_at w id v data env u w' env' :
  exec (write_row id (Some [v]) data) env w = (inr u, w', env') ->
  exists w1 row, evolves w w1 /\ w_users w1 !! id = Some row /\ u_version row = v /\ u = apply_change data row.
Proof.
  unfold write_row. intros (x & w2 & env2 & Hs & Hk)%bind_returns.
  destruct (exec_send (UpdateRow id (Some [v]) data) env w) as (w1 & Hev & Hs'). rewrite Hs' in Hs. injection Hs as <- <- <-.
  simpl in Hk. destruct (matching id (Some [v]) w1) as [row|] eqn:Hm; simpl in Hk; [|done]. injection Hk as <- <- <-.
  apply matching_Some in Hm as [Hl Hv%list_elem_of_singleton]. eauto 6.
Qed.

Lemma explained_returns {A} id expected (p : Prog A) env w a w' env' :
  exec (explained id expected p) env w = (inr a, w', env') -> exec p env w = (inr a, w', env').
Proof.
  unfold explained. rewrite exec_catch. destruct (exec p env w) as [[[e|a'] w1] env1]; [|done].
  rewrite exec_bind. destruct (exec (explainWriteFailure id expected e) env1 w1) as [[[e'|a'] w2] env2]; done.
Qed.

Lemma conditionally_returns {A} (p : Prog A) env w a w' env' :
  exec (conditionally p) env w = (inr a, w', env') -> exec p env w = (inr a, w', env').
Proof.
  unfold conditionally. rewrite exec_catch. destruct (exec p env w) as [[[e|a'] w1] env1]; [|done]. by destruct e.
Qed.

(** The precondition a client states with the [ETag] it was given. *)
Definition holding (v : Z) : ExpectedVersion := VersionList [{| et_weak := false; et_opaque := js (pretty v); et_version := Some v |}].

Lemma applyUpdate_holding w0 w id r data env u w' env' :
  world_ok w0 -> w_users w0 !! id = Some r -> evolves w0 w ->
  exec (applyUpdate id data (holding (u_version r))) env w = (inr u, w', env') -> u = apply_change data r.
Proof.
  intros Hok Hr Hev. unfold applyUpdate. intros (u' & w1 & env1 & Hw & Hk)%bind_returns.
  apply bind_returns in Hk as (x & w2 & env2 & _ & Hk). injection Hk as <- <- <-.
  apply conditionally_returns, explained_returns in Hw. simpl in Hw.
  destruct (write_row_at _ _ _ _ _ _ _ _ Hw) as (w3 & row & Hev3 & Hl & Hv & ->).
  assert (evolves w0 w3) as He by by eapply evolves_trans.
  destruct (versions_evolve _ _ _ _ _ Hok He Hr Hl) as [_ Heq]. by rewrite <-Heq.
Qed.

Lemma assertCanAct_returns requester id action env w x w' env' :
  exec (assertCanAct requester id action) env w = (inr x, w', env') -> canAct requester id = true /\ w' = w /\ env' = env.
Proof. unfold assertCanAct. destruct (canAct requester id); [by intros [= <- <- <-]|done]. Qed.

Lemma header_of r expected :
  0 <= u_version r <= MAX_SAFE_INTEGER ->
  resolveIfMatch (HeaderOne (formatEntityTag (u_version r))) = Some (inr expected) -> expected = holding (u_version r).
Proof. intros Hv. rewrite etag_names_version by done. by intros [= <-]. Qed.

(** ** Announcements *)

Definition registered_event (id : string) (e : UserEvent) : bool := match e with UserRegistered i _ _ _ => bool_decide (i = id) | _ => false end.
Definition deleted (id : string) (e : UserEvent) : bool := match e with UserDeleted i _ => bool_decide (i = id) | _ => false end.
Definition count_events (p : UserEvent -> bool) (es : list UserEvent) : nat := length (List.filter p es).

Definition audit_name (e : UserEvent) : string * string :=
  match e with UserRegistered i _ _ _ => ("user.registered"%string, i) | UserDeleted i _ => ("user.deleted"%string, i) end.

(** Every account that was ever created is announced once, every one that is
    gone is announced gone once, nothing else is announced, and the audit log
    has an entry for each announcement. *)
Record announced (w : World) : Prop := {
  an_audit : (fun r => (ar_event r, ar_subject r)) <$> w_audit w = audit_name <$> w_outbox w;
  an_registered id : count_events (registered_event id) (w_outbox w) = if decide (id ∈ w_issued w) then 1%nat else 0%nat;
  an_deleted id : count_events (deleted id) (w_outbox w) =
    if decide (id ∈ w_issued w /\ w_users w !! id = None) then 1%nat else 0%nat;
}.

Lemma count_events_snoc p es e : count_events p (es ++ [e]) = (count_events p es + if p e then 1 else 0)%nat.
Proof. unfold count_events. rewrite List.filter_app, length_app. simpl. by destruct (p e). Qed.

Lemma announced_users w w' :
  w_issued w' = w_issued w -> w_outbox w' = w_outbox w -> w_audit w' = w_audit w ->
  (forall id, w_users w' !! id = None <-> w_users w !! id = None) -> announced w -> announced w'.
Proof.
  intros Hi Ho Ha Hu [H1 H2 H3]. constructor; rewrite ?Hi, ?Ho, ?Ha; [done|done|]. intros id. rewrite H3.
  apply decide_ext. by rewrite (Hu id).
Qed.

Lemma run_op_announced w s : world_ok w -> announced w -> announced (run_op w s).
Proof.
  intros Hok Ha. destruct s as [X op].
  destruct op as [ | | |i filter data|i filter email actor|i data| | | | | ]; simpl; try done; try (by apply (announced_users w)).
  - destruct (matching i filter w) as [row|] eqn:Hm; [|done]. apply matching_Some in Hm as [Hl _]. apply (announced_users w); [done..| |done].
    intros id. simpl. destruct (decide (i = id)) as [->|]; [rewrite lookup_insert_eq, Hl; done|by rewrite lookup_insert_ne].
  - destruct (matching i filter w) as [row|] eqn:Hm; [|done]. apply matching_Some in Hm as [Hl _]. destruct Ha as [H1 H2 H3].
    assert (i ∈ w_issued w) as Hi by (apply (wo_issued _ Hok); eauto). constructor; simpl.
    + by rewrite !fmap_app, H1.
    + intros id. rewrite count_events_snoc, H2. simpl. lia.
    + intros id. rewrite count_events_snoc, H3. simpl. destruct (decide (i = id)) as [->|Hne].
      * rewrite bool_decide_eq_true_2 by done. rewrite lookup_delete_eq, decide_False, decide_True; [done|done|]. intros [_ Hn]. congruence.
      * rewrite bool_decide_eq_false_2 by done. rewrite lookup_delete_ne by done. lia.
  - case_decide as Hc; [done|]. apply Decidable.not_or in Hc as [Hc _]. destruct Ha as [H1 H2 H3]. constructor; simpl.
    + by rewrite !fmap_app, H1.
    + intros id. rewrite count_events_snoc, H2. simpl. destruct (decide (i = id)) as [->|Hne].
      * rewrite bool_decide_eq_true_2 by done. rewrite decide_False by done. rewrite decide_True by set_solver. done.
      * rewrite bool_decide_eq_false_2 by done. rewrite Nat.add_0_r. apply decide_ext. set_solver.
    + intros id. rewrite count_events_snoc, H3. simpl. rewrite Nat.add_0_r. apply decide_ext. destruct (decide (i = id)) as [->|Hne].
      * rewrite lookup_insert_eq. naive_solver.
      * rewrite lookup_insert_ne by done. set_solver.
Qed.

Lemma run_ops_announced ops w : world_ok w -> announced w -> announced (run_ops ops w).
Proof. revert w. induction ops as [|s ops IH]; intros w Hok Ha; [done|]. apply IH; [by apply run_op_ok|by apply run_op_announced]. Qed.

Definition empty_world : World :=
  {| w_users := ∅; w_issued := ∅; w_outbox := []; w_audit := []; w_cache := ∅; w_uploads := []; w_sessions := [] |}.

Lemma empty_ok : world_ok empty_world.
Proof. constructor; simpl; [intros id [u Hu]| | |intros i j u v]; simpl; rewrite ?lookup_empty in *; try done; intros ? ?; by rewrite lookup_empty. Qed.

Lemma empty_announced : announced empty_world.
Proof. constructor; [done|..]; intros id; simpl; (rewrite decide_False; [done|set_solver]). Qed.

(** ** Writers of one version *)

Definition writes_version (id : string) (v : Z) (w : World) (s : AnyOp) : bool :=
  match s with
  | Stmt (UpdateRow i (Some [v']) _) => bool_decide (i = id) && bool_decide (v' = v) &&
      match matching i (Some [v']) w with Some _ => true | None => false end
  | _ => false
  end.

(** How many writes that hold version [v] of a row succeed. *)
Fixpoint winners (id : string) (v : Z) (ops : list AnyOp) (w : World) : nat :=
  match ops with
  | [] => 0
  | s :: ops => ((if writes_version id v w s then 1 else 0) + winners id v ops (run_op w s))%nat
  end.

Lemma no_more_winners id v ops w :
  world_ok w -> id ∈ w_issued w -> match w_users w !! id with Some r => v < u_version r | None => True end -> winners id v ops w = 0%nat.
Proof.
  revert w. induction ops as [|s ops IH]; intros w Hok Hi Hr; [done|]. simpl.
  destruct (run_op_row w s id Hok Hi) as [Hi' Hrow]. rewrite IH; [|by apply run_op_ok|done|].
  - destruct (writes_version id v w s) eqn:Hw; [|done]. exfalso. unfold writes_version in Hw.
    destruct s as [X []]; try done. destruct filter as [[|v' [|]]|]; try done.
    destruct (matching id0 (Some [v']) w) as [row|] eqn:Hm; [|by rewrite andb_false_r in Hw].
    rewrite andb_true_r, andb_true_iff, !bool_decide_eq_true in Hw. destruct Hw as [-> ->].
    apply matching_Some in Hm as [Hl Hv%list_elem_of_singleton]. rewrite Hl in Hr. lia.
  - destruct (w_users w !! id) as [r|]; [|by rewrite Hrow]. destruct Hrow as [-> | [-> | (r' & -> & Hv)]]; [done|done|lia].
Qed.

(** ** Theorems *)

(** C15: no update is lost.  A client that was shown a row, and later sends its
    edit with the [ETag] of what it was shown, either fails or has exactly that
    row edited: whatever other statements ran since and run in between, a
    profile or avatar write that returns has applied the edit to the very state
    the client saw, one version further. *)
Theorem no_lost_update w0 id r env0 env requester change expected result w' env' :
  world_ok w0 -> w_users w0 !! id = Some r -> u_version r <= MAX_SAFE_INTEGER ->
  resolveIfMatch (HeaderOne (formatEntityTag (u_version r))) = Some (inr expected) ->
  exec (match change with
        | inl name => updateUserProfile requester id name expected
        | inr (now, extension) => updateUserAvatar requester id now extension expected
        end) env (run_ops env0 w0) = (inr result, w', env') ->
  canAct requester id = true /\
  result = apply_change (match change with inl name => profile_change name | inr (now, extension) => avatar_change (avatarKey id now extension) end) r.
Proof.
  intros Hok Hr Hmax Hh. apply header_of in Hh; [|split; [by eapply wo_version|done]]. subst expected.
  destruct change as [name|[now extension]].
  - unfold updateUserProfile. intros (x & w1 & e1 & Hc & Hk)%bind_returns. apply assertCanAct_returns in Hc as (Hc & -> & ->).
    apply bind_returns in Hk as (x' & w2 & e2 & Hp%returns_evolves & Hk). split; [done|].
    eapply applyUpdate_holding; [exact Hok|exact Hr| |exact Hk]. by eapply evolves_trans; [apply evolves_ops|].
  - unfold updateUserAvatar. intros (x & w1 & e1 & Hc & Hk)%bind_returns. apply assertCanAct_returns in Hc as (Hc & -> & ->).
    apply bind_returns in Hk as (x' & w2 & e2 & Hp%returns_evolves & Hk). cbv zeta in Hk.
    apply bind_returns in Hk as (x'' & w3 & e3 & Hu%returns_evolves & Hk). split; [done|].
    eapply applyUpdate_holding; [exact Hok|exact Hr| |exact Hk].
    eapply evolves_trans; [apply evolves_ops|]. by eapply evolves_trans.
Qed.

(** No preference is lost.  Preferences are read, merged and written back
    in separate statements, and still: a write sent with the [ETag] of a row
    that returns has merged its patch into the preferences of that row, and
    reports the version after it. *)
Theorem preferences_no_lost_update w0 id r env0 env requester dto expected prefs v w' env' :
  world_ok w0 -> w_users w0 !! id = Some r -> u_version r <= MAX_SAFE_INTEGER ->
  resolveIfMatch (HeaderOne (formatEntityTag (u_version r))) = Some (inr expected) ->
  exec (updateUserPreferences requester id dto expected) env (run_ops env0 w0) = (inr (prefs, v), w', env') ->
  prefs = mergePreferences (mergePreferences DEFAULT_USER_PREFERENCES (default NO_CHANGES (u_preferences r))) dto /\ v = u_version r + 1.
Proof.
  intros Hok Hr Hmax Hh. apply header_of in Hh; [|split; [by eapply wo_version|done]]. subst expected.
  unfold updateUserPreferences. intros (x & w1 & e1 & Hc & Hk)%bind_returns. apply assertCanAct_returns in Hc as (Hc & -> & ->).
  apply bind_returns in Hk as (x' & w2 & e2 & Hp%returns_evolves & Hk).
  apply bind_returns in Hk as (written & w3 & e3 & Hw & Hk).
  apply bind_returns in Hk as (x3 & w4 & e4 & _ & Hk). apply bind_returns in Hk as (x4 & w5 & e5 & _ & Hk). injection Hk as -> <- <-.
  apply conditionally_returns, explained_returns in Hw. unfold ext_setPreferences in Hw.
  apply bind_returns in Hw as (user & w6 & e6 & Hf & Hw).
  destruct (exec_send (FindUnique id) e2 w2) as (wr & Hevr & Hs). rewrite Hs in Hf. injection Hf as <- <- <-. cbn [perform fst snd] in Hw.
  destruct (w_users wr !! id) as [r1|] eqn:Hr1; [|done].
  apply bind_returns in Hw as (row & w7 & e7 & Hwr & Hk). injection Hk as <- <- <- <-.
  destruct (write_row_at _ _ _ _ _ _ _ _ Hwr) as (w8 & r2 & Hev8 & Hl & Hv & ->).
  assert (evolves w0 wr) as H1 by (eapply evolves_trans; [apply evolves_ops|]; by eapply evolves_trans).
  assert (evolves w0 w8) as H2 by by eapply evolves_trans.
  destruct (versions_evolve _ _ _ _ _ Hok H1 Hr Hr1) as [Hle1 Heq1].
  assert (world_ok wr) as Hokr by (destruct H1 as [ops ->]; by apply run_ops_ok).
  destruct (versions_evolve _ _ _ _ _ Hokr Hev8 Hr1 Hl) as [Hle2 _].
  rewrite <-Heq1 by lia. split; [done|]. simpl. lia.
Qed.

(** Of the writers that hold one version of a row, at most one wins, in any
    sequence of statements. *)
Theorem one_writer_per_version w id r v ops :
  world_ok w -> w_users w !! id = Some r -> (winners id v ops w <= 1)%nat.
Proof.
  intros Hok Hr. assert (id ∈ w_issued w) as Hi by (apply (wo_issued _ Hok); eauto).
  assert (forall ops w, world_ok w -> id ∈ w_issued w -> (winners id v ops w <= 1)%nat) as H; [|by apply H].
  clear. induction ops as [|s ops IH]; intros w Hok Hi; simpl; [lia|]. destruct (run_op_row w s id Hok Hi) as [Hi' Hrow].
  destruct (writes_version id v w s) eqn:Hw; [|by apply IH, Hi'; apply run_op_ok].
  rewrite no_more_winners; [done|by apply run_op_ok|done|].
  unfold writes_version in Hw. destruct s as [X []]; try done. destruct filter as [[|v' [|]]|]; try done.
  destruct (matching id0 (Some [v']) w) as [row|] eqn:Hm; [|by rewrite andb_false_r in Hw].
  rewrite andb_true_r, andb_true_iff, !bool_decide_eq_true in Hw. destruct Hw as [-> ->]. simpl. rewrite Hm. simpl.
  rewrite lookup_insert_eq. apply matching_Some in Hm as [_ Hv%list_elem_of_singleton]. simpl. lia.
Qed.

(** What a profile update answers, alone: 403 for somebody else's profile, then
    404 for a user that is not there, then 428 without a precondition, then 412
    for one that does not hold, and otherwise the row with the edit, stored and
    one version further, with its cached representation dropped. *)
Theorem profile_update_outcome requester id name expected w :
  let '(outcome, w', _) := exec (updateUserProfile requester id name expected) [] w in
  if negb (canAct requester id) then outcome = inl (ForbiddenException "Cannot modify another user's profile") /\ w' = w
  else match w_users w !! id with
  | None => outcome = inl (NotFoundException ("User " +:+ id +:+ " not found")) /\ w' = w
  | Some row =>
      if requireConditional expected then outcome = inl PreconditionRequiredException /\ w' = w
      else if negb (isSatisfiedBy expected (u_version row))
      then outcome = inl (PreconditionFailedException (describeMismatch expected (u_version row))) /\ w' = w
      else outcome = inr (apply_change (profile_change name) row) /\
           w_users w' = <[id := apply_change (profile_change name) row]> (w_users w) /\
           w_cache w' = delete_keys [userCacheKey id; USERS_LIST_CACHE_KEY] (w_cache w)
  end.
Proof.
  unfold updateUserProfile, assertCanAct. destruct (canAct requester id); [|done]. simpl.
  destruct (w_users w !! id) as [row|] eqn:Hrow; [|done]. simpl. destruct (requireConditional expected) eqn:Hc; [done|].
  destruct (isSatisfiedBy expected (u_version row)) eqn:Hs; simpl; [|done].
  assert (matching id (versionPredicate expected) w = Some row) as Hm.
  { unfold matching. rewrite Hrow. destruct expected as [| |tags]; [done|done|]. simpl in *. rewrite decide_True; [done|].
    apply existsb_exists in Hs as (tag & Hin & Hsat). unfold satisfies in Hsat. apply andb_true_iff in Hsat as [Hw%negb_true_iff Hv%bool_decide_eq_true].
    apply list_elem_of_omap. exists tag. split; [by apply list_elem_of_In|]. by rewrite Hw. }
  rewrite Hm. simpl. done.
Qed.

(** Accounts and announcements go together.  Whatever statements run in
    whatever order from an empty database, every account was announced as
    registered exactly once, is announced as deleted exactly once when it is
    gone and not before, and the audit log has the same entries in the same
    order. *)
Theorem accounts_announced ops : announced (run_ops ops empty_world).
Proof. apply run_ops_announced; [apply empty_ok|apply empty_announced]. Qed.

(** The users table is well formed after any statements: a row is stored
    under its own id, which was given out, its version is not negative, and no
    two rows share an address. *)
Theorem users_well_formed ops : world_ok (run_ops ops empty_world).
Proof. apply run_ops_ok, empty_ok. Qed.

(** ** Samples *)

Definition ann : CreateUserData := {| cd_email := "ann@example.com"; cd_password := Some "hash"; cd_name := Some "Ann"; cd_provider := None; cd_providerAccountId := None |}.
Definition sample_world : World := run_ops [Stmt (CreateTx "u1" ann)] empty_world.
Definition sample_user : User := new_user "u1" ann.
Definition ann_herself : RequesterIdentity := {| rq_id := "u1"; rq_role := USER |}.

Lemma sample_world_ok : world_ok sample_world.
Proof. apply run_ops_ok, empty_ok. Qed.

Definition sample_env : list (list AnyOp) := [[]; [Stmt (CacheDel ["other"%string])]; []; []].

Lemma no_lost_update_witness :
  canAct ann_herself "u1" = true /\ apply_change (profile_change (Some "Anna"%string)) sample_user = apply_change (profile_change (Some "Anna"%string)) sample_user.
Proof.
  apply (no_lost_update sample_world "u1" sample_user [] sample_env ann_herself (inl (Some "Anna"%string)) (holding 0)
    (apply_change (profile_change (Some "Anna"%string)) sample_user)
    (snd (fst (exec (updateUserProfile ann_herself "u1" (Some "Anna"%string) (holding 0)) sample_env sample_world)))
    (snd (exec (updateUserProfile ann_herself "u1" (Some "Anna"%string) (holding 0)) sample_env sample_world))).
  - exact sample_world_ok.
  - vm_compute. reflexivity.
  - vm_compute. discriminate.
  - vm_compute. reflexivity.
  - vm_compute. reflexivity.
Defined.

Definition dark : PartialPreferences := {| pp_theme := Some Dark; pp_language := None; pp_emailNotifications := None;
  pp_smsNotifications := None; pp_pushNotifications := None; pp_timezone := None |}.
Definition french : PartialPreferences := {| pp_theme := None; pp_language := Some "fr"%string; pp_emailNotifications := None;
  pp_smsNotifications := None; pp_pushNotifications := None; pp_timezone := None |}.

Lemma preferences_no_lost_update_witness :
  mergePreferences DEFAULT_USER_PREFERENCES dark =
    mergePreferences (mergePreferences DEFAULT_USER_PREFERENCES (default NO_CHANGES (u_preferences sample_user))) dark /\ 1 = 0 + 1.
Proof.
  apply (preferences_no_lost_update sample_world "u1" sample_user [] sample_env ann_herself dark (holding 0)
    (mergePreferences DEFAULT_USER_PREFERENCES dark) 1
    (snd (fst (exec (updateUserPreferences ann_herself "u1" dark (holding 0)) sample_env sample_world)))
    (snd (exec (updateUserPreferences ann_herself "u1" dark (holding 0)) sample_env sample_world))).
  - exact sample_world_ok.
  - vm_compute. reflexivity.
  - vm_compute. discriminate.
  - vm_compute. reflexivity.
  - vm_compute. reflexivity.
Defined.

Lemma one_writer_per_version_witness :
  (winners "u1" 0 [Stmt (UpdateRow "u1" (Some [0%Z]) (profile_change (Some "A"%string))); Stmt (UpdateRow "u1" (Some [0%Z]) (profile_change (Some "B"%string)))] sample_world <= 1)%nat.
Proof.
  apply (one_writer_per_version sample_world "u1" sample_user).
  - exact sample_world_ok.
  - vm_compute. reflexivity.
Defined.

(** With [If-Match: *] the same write is not guarded: another patch between its
    read and its write is lost. *)
Example preferences_lost_under_any :
  let other := [Stmt (UpdateRow "u1" (Some [0%Z]) (prefs_change (mergePreferences DEFAULT_USER_PREFERENCES french)))] in
  let '(outcome, w, _) := exec (updateUserPreferences ann_herself "u1" dark AnyVersion) [[]; []; other] sample_world in
  outcome = inr (mergePreferences DEFAULT_USER_PREFERENCES dark, 2) /\
  (u_preferences <$> w_users w !! "u1") = Some (Some (stored_form (mergePreferences DEFAULT_USER_PREFERENCES dark))).
Proof. vm_compute. done. Qed.

(** A read that began before a write puts the old representation back into the
    cache after the write evicted it. *)
Example evicted_representation_returns :
  let write := [Stmt (UpdateRow "u1" (Some [0%Z]) (profile_change (Some "Anna"%string))); Stmt (CacheDel [userCacheKey "u1"; USERS_LIST_CACHE_KEY])] in
  let '(outcome, w, _) := exec (findOne "u1") [[]; []; write] sample_world in
  outcome = inr (Versioned sample_user 0) /\ w_cache w !! userCacheKey "u1" = Some sample_user /\ (u_version <$> w_users w !! "u1") = Some 1.
Proof. vm_compute. done. Qed.
