(* ===== verification/HttpClient.v ===== *)
(** * HttpClient: outbound calls with a breaker, a bulkhead and a deadline

    [common/http/resilient-http.client.ts], [common/http/http-resilience.ts],
    [common/http/http.errors.ts] and the parts of [common/http/json-http.ts] that
    decide when to retry.  The transport, the circuit breaker (opossum), the
    bulkhead of [Bulkhead] and the clock are an interface; [HttpEnvLaws] is what
    is relied on.  The clock counts ticks, a thousand to the millisecond: a
    monotonic clock reads in fractions of one. *)

From Stdlib Require Import QArith Qround.
From S2P Require Import Prelude Text Json Backoff Bulkhead.
Open Scope Z_scope.

(** ** Answers and errors *)

Record HttpJsonResponse := { hr_status : Z; hr_ok : bool; hr_body : JsonValue; hr_retryAfterMs : option Z }.

(** A [fetch] rejection: its name and message. *)
Record Cause := { cs_name : string; cs_message : string }.

Inductive HttpError :=
  | HttpCircuitOpenError (dependency : string) (retryAfterMs : Z)
  | HttpBulkheadRejectedError (dependency : string) (cause : BulkheadRejectedError)
  | HttpDeadlineExceededError (dependency : string) (deadlineMs attempts : Z) (cause : option Cause)
  | HttpTransportError (dependency : string) (attempts : Z) (cause : Cause).

Definition isRetryableStatus (status : Z) : bool :=
  bool_decide (500 <= status) || bool_decide (status = 408) || bool_decide (status = 429).

(** [toUpperCase] on the letters methods are made of. *)
Definition upperUnit (c : N) : N := if decide (97 <= c <= 122)%N then (c - 32)%N else c.

Definition isSafeMethod (method : option JSText) : bool :=
  let normalised := upperUnit <$> default (js "GET") method in
  bool_decide (normalised = js "GET") || bool_decide (normalised = js "HEAD") || bool_decide (normalised = js "OPTIONS").

(** [parseRetryAfter]; [toNumber] is [Number] where it is finite, [parseDate] is
    [Date.parse]. *)
Definition mathRound (x : Q) : Z := Qfloor (x + (1 # 2))%Q.

Definition parseRetryAfter (toNumber : JSText -> option Q) (parseDate : JSText -> option Z) (header : option JSText) (now : Z) : option Z :=
  match header with
  | None => None
  | Some header =>
      let trimmed := trimText header in
      if decide (trimmed = []) then None
      else match toNumber trimmed with
      | Some seconds => if Qle_bool 0 seconds then Some (mathRound (seconds * 1000)%Q) else None
      | None => match parseDate trimmed with
                | None => None
                | Some date => Some (Z.max 0 (date - now))
                end
      end
  end.

(** ** Policy *)

Record CircuitBreakerPolicy := {
  failureThresholdPercent : Z; volumeThreshold : Z; rollingWindowMs : Z; rollingBuckets : Z; resetTimeoutMs : Z;
}.

Record HttpResiliencePolicy := {
  hp_retry : BackoffPolicy; hp_breaker : CircuitBreakerPolicy; hp_bulkhead : BulkheadPolicy; hp_deadlineMs : Z;
}.

Record HttpRequestOptions := { ho_timeoutMs : option Z; ho_deadlineMs : option Z; ho_idempotent : option bool }.

Definition DEFAULT_HTTP_TIMEOUT_MS : Z := 10000.

Definition TICKS : Z := 1000.

(** ** What a call runs in *)

(** [he_acquire remaining] waits for a permit at most that long; [he_send
    timeoutMs] is [requestJson] with an abort after that many milliseconds; the
    breaker either admits a call and is told how it went, or does not. *)
Record HttpEnv (W : Type) := {
  he_now : W -> Z;
  he_acquire : Z -> W -> (BulkheadRejectedError + unit) * W;
  he_release : W -> W;
  he_admits : W -> bool;
  he_record : bool -> W -> W;
  he_send : Z -> W -> (Cause + HttpJsonResponse) * W;
  he_random : W -> Draw * W;
  he_sleep : Z -> W -> W;
}.
Arguments he_now {W}. Arguments he_acquire {W}. Arguments he_release {W}. Arguments he_admits {W}.
Arguments he_record {W}. Arguments he_send {W}. Arguments he_random {W}. Arguments he_sleep {W}.

(** What the [catch] of the loop tells apart; a failure is what [fetch] threw or
    a response worth another attempt. *)
Inductive Caught :=
  | CaughtDeadline (attempts : Z)
  | CaughtBulkhead (e : BulkheadRejectedError)
  | CaughtOpen
  | CaughtFailure (failure : Cause + HttpJsonResponse).

Section client.
Context {W : Type} (env : HttpEnv W).

(** One attempt as the breaker sees it. *)
Definition attemptRequest (timeoutMs : Z) (w : W) : (Caught + HttpJsonResponse) * W :=
  match he_send env timeoutMs w with
  | (inl cause, w) => (inl (CaughtFailure (inl cause)), w)
  | (inr response, w) =>
      if negb (hr_ok response) && isRetryableStatus (hr_status response) then (inl (CaughtFailure (inr response)), w)
      else (inr response, w)
  end.

(** [breaker.fire], of a breaker that has not been shut down: after [shutdown] it
    rejects every call. *)
Definition fire (timeoutMs : Z) (w : W) : (Caught + HttpJsonResponse) * W :=
  if he_admits env w then
    match attemptRequest timeoutMs w with
    | (inl caught, w) => (inl caught, he_record env false w)
    | (inr response, w) => (inr response, he_record env true w)
    end
  else (inl CaughtOpen, w).

(** The body of the [try]: [bulkhead.run(..., remainingMs)]. *)
Definition attempt_once (attemptTimeoutMs deadline attempt remaining : Z) (w : W) :
    (Caught + HttpJsonResponse) * W :=
  match he_acquire env remaining w with
  | (inl rejected, w) => (inl (CaughtBulkhead rejected), w)
  | (inr _, w) =>
      let attemptBudgetMs := (deadline - he_now env w) / TICKS in
      let '(result, w) :=
        if decide (attemptBudgetMs < 1) then (inl (CaughtDeadline (attempt - 1)), w)
        else fire (Z.max 1 (Z.min attemptTimeoutMs attemptBudgetMs)) w in
      (result, he_release env w)
  end.

Definition delayFor (attempt : Z) (ladder : BackoffPolicy) (retryAfterMs : option Z) (w : W) : option Z * W :=
  if decide (attempt >= maxAttempts ladder) then (None, w)
  else
    let '(draw, w) := he_random env w in
    match nextAttemptDelayMs attempt ladder draw with
    | None => (None, w)
    | Some jittered =>
        match retryAfterMs with
        | None => (Some jittered, w)
        | Some hint =>
            if decide (maxMs ladder < hint) then (None, w)
            else let '(draw, w) := he_random env w in
                 (Some (hint + (draw_num draw * baseMs ladder) / draw_den draw), w)
        end
    end.

(** The rest of a turn after a failure: the call is over, or it goes on after a sleep. *)
Definition after_failure (dependency : string) (ladder : BackoffPolicy) (budgetMs deadline attempt : Z) (lastResponse : option HttpJsonResponse)
    (failure : Cause + HttpJsonResponse) (next : option HttpJsonResponse -> W -> option ((HttpError + HttpJsonResponse) * W)) (w : W) :
    option ((HttpError + HttpJsonResponse) * W) :=
  let response := match failure with inr response => Some response | inl _ => None end in
  let lastResponse := match response with Some _ => response | None => lastResponse end in
  let '(delay, w) := delayFor attempt ladder (response ≫= hr_retryAfterMs) w in
  let budgetLeft := deadline - he_now env w in
  match delay with
  | Some delayMs =>
      if decide (budgetLeft <= delayMs * TICKS) then
        Some (match failure with
              | inr response => inr response
              | inl cause => inl (HttpDeadlineExceededError dependency budgetMs attempt (Some cause))
              end, w)
      else next lastResponse (he_sleep env delayMs w)
  | None =>
      Some (match failure with
            | inr response => inr response
            | inl cause => inl (HttpTransportError dependency attempt cause)
            end, w)
  end.

(** The loop from [attempt] on; [None] is running out of turns. *)
Fixpoint request_loop (fuel : nat) (dependency : string) (resetTimeout : Z) (ladder : BackoffPolicy) (attemptTimeoutMs budgetMs deadline attempt : Z)
    (lastResponse : option HttpJsonResponse) (w : W) : option ((HttpError + HttpJsonResponse) * W) :=
  match fuel with
  | O => None
  | S fuel =>
      let remaining := deadline - he_now env w in
      if decide (remaining <= 0) then
        Some (match lastResponse with
              | Some response => inr response
              | None => inl (HttpDeadlineExceededError dependency budgetMs (attempt - 1) None)
              end, w)
      else
      match attempt_once attemptTimeoutMs deadline attempt remaining w with
      | (inr response, w) => Some (inr response, w)
      | (inl (CaughtDeadline attempts), w) => Some (inl (HttpDeadlineExceededError dependency budgetMs attempts None), w)
      | (inl (CaughtBulkhead e), w) => Some (inl (HttpBulkheadRejectedError dependency e), w)
      | (inl CaughtOpen, w) => Some (inl (HttpCircuitOpenError dependency resetTimeout), w)
      | (inl (CaughtFailure failure), w) =>
          after_failure dependency ladder budgetMs deadline attempt lastResponse failure
            (request_loop fuel dependency resetTimeout ladder attemptTimeoutMs budgetMs deadline (attempt + 1)) w
      end
  end.

Definition ladderOf (policy : HttpResiliencePolicy) (options : HttpRequestOptions) (method : option JSText) : BackoffPolicy := {|
  baseMs := baseMs (hp_retry policy); maxMs := maxMs (hp_retry policy);
  maxAttempts := if default (isSafeMethod method) (ho_idempotent options) then maxAttempts (hp_retry policy) else 1 |}.

Definition request (policy : HttpResiliencePolicy) (dependency : string) (method : option JSText) (options : HttpRequestOptions) (w : W) :
    option ((HttpError + HttpJsonResponse) * W) :=
  let ladder := ladderOf policy options method in
  let budgetMs := default (hp_deadlineMs policy) (ho_deadlineMs options) in
  request_loop (S (Z.to_nat (maxAttempts ladder))) dependency (resetTimeoutMs (hp_breaker policy)) ladder
    (default DEFAULT_HTTP_TIMEOUT_MS (ho_timeoutMs options)) budgetMs (he_now env w + budgetMs * TICKS) 1 None w.

End client.

(** ** What is relied on *)

(** A [Retry-After] that was parsed is not negative. *)
Definition hint_ok (answer : Cause + HttpJsonResponse) : Prop :=
  match answer with inr response => 0 <= default 0 (hr_retryAfterMs response) | inl _ => True end.

Lemma parseRetryAfter_nonneg toNumber parseDate header now ms : parseRetryAfter toNumber parseDate header now = Some ms -> 0 <= ms.
Proof.
  unfold parseRetryAfter. destruct header as [header|]; [|done]. case_decide; [done|]. destruct (toNumber _) as [x|].
  - destruct (Qle_bool 0 x) eqn:Hx; [|done]. intros [= <-]. apply Qle_bool_iff in Hx. unfold mathRound.
    change 0 with (Qfloor 0). apply Qfloor_resp_le. rewrite <-(Qplus_0_r 0) at 1. apply Qplus_le_compat; [|done].
    apply Qmult_le_0_compat; [done|discriminate].
  - destruct (parseDate _); [|done]. intros [= <-]. lia.
Qed.

(** [log] is what the transport has answered so far.  Waiting takes at most as
    long as it was asked to and [slack] more, and nothing but sending sends. *)
Class HttpEnvLaws {W} (env : HttpEnv W) (log : W -> list (Cause + HttpJsonResponse)) (slack : Z) : Prop := {
  slack_nonneg : 0 <= slack;
  acquire_time remaining w : 0 < remaining -> he_now env (snd (he_acquire env remaining w)) <= he_now env w + remaining + slack;
  acquire_log remaining w : log (snd (he_acquire env remaining w)) = log w;
  release_time w : he_now env (he_release env w) = he_now env w;
  release_log w : log (he_release env w) = log w;
  record_time b w : he_now env (he_record env b w) = he_now env w;
  record_log b w : log (he_record env b w) = log w;
  send_time t w : 0 < t -> he_now env (snd (he_send env t w)) <= he_now env w + t * TICKS + slack;
  send_log t w : log (snd (he_send env t w)) = log w ++ [fst (he_send env t w)];
  send_hint t w : hint_ok (fst (he_send env t w));
  random_valid w : valid_draw (fst (he_random env w));
  random_time w : he_now env (snd (he_random env w)) = he_now env w;
  random_log w : log (snd (he_random env w)) = log w;
  sleep_time d w : he_now env (he_sleep env d w) <= he_now env w + Z.max 0 d * TICKS + slack;
  sleep_log d w : log (he_sleep env d w) = log w;
}.

Section laws.
Context {W : Type} (env : HttpEnv W) (log : W -> list (Cause + HttpJsonResponse)) (slack : Z) `{!HttpEnvLaws env log slack}.

Definition as_result (caught : Caught) : option (Cause + HttpJsonResponse) :=
  match caught with
  | CaughtFailure failure => Some failure
  | _ => None
  end.

Lemma fire_spec t w :
  0 < t ->
  let '(result, w') := fire env t w in
  he_now env w' <= he_now env w + t * TICKS + slack /\
  match result with
  | inr response => log w' = log w ++ [inr response]
  | inl caught => match as_result caught with
                  | Some r => log w' = log w ++ [r] /\ hint_ok r
                  | None => log w' = log w /\ caught = CaughtOpen
                  end
  end.
Proof.
  intros Ht. unfold fire, attemptRequest. destruct (he_admits env w).
  - pose proof (send_time t w Ht) as Hn. pose proof (send_log t w) as Hl. pose proof (send_hint t w) as Hh. destruct (he_send env t w) as [[cause|response] w1]; simpl in *.
    + rewrite record_time, record_log. done.
    + destruct (negb (hr_ok response) && isRetryableStatus (hr_status response)); rewrite record_time, record_log; done.
  - split; [|done]. pose proof slack_nonneg. unfold TICKS. lia.
Qed.

Lemma attempt_spec timeout deadline attempt w :
  he_now env w < deadline ->
  let '(result, w') := attempt_once env timeout deadline attempt (deadline - he_now env w) w in
  he_now env w' <= deadline + slack /\
  match result with
  | inr response => log w' = log w ++ [inr response]
  | inl caught => match as_result caught with
                  | Some r => log w' = log w ++ [r] /\ hint_ok r
                  | None => log w' = log w
                  end
  end.
Proof.
  intros Hlt. unfold attempt_once. pose proof (acquire_time (deadline - he_now env w) w ltac:(lia)) as Ha.
  pose proof (acquire_log (deadline - he_now env w) w) as Hl. destruct (he_acquire env _ w) as [[rejected|[]] w1]; simpl in *; [split; [lia|done]|].
  case_decide as Hd; simpl; rewrite ?release_time, ?release_log; [split; [lia|done]|].
  pose proof (fire_spec (Z.max 1 (Z.min timeout ((deadline - he_now env w1) / TICKS))) w1 ltac:(lia)) as Hf.
  destruct (fire env _ w1) as [result w2]. rewrite release_time, release_log. destruct Hf as [Hn Hr]. rewrite Hl in Hr. split.
  - pose proof (Z.mul_div_le (deadline - he_now env w1) TICKS ltac:(done)). unfold TICKS in *. lia.
  - destruct result as [caught|]; [|done]. destruct (as_result caught); [done|]. by destruct Hr.
Qed.

Lemma delayFor_spec attempt ladder hint w :
  valid_policy ladder -> 1 <= attempt -> 0 <= default 0 hint ->
  let '(delay, w') := delayFor env attempt ladder hint w in
  he_now env w' = he_now env w /\ log w' = log w /\ (forall d, delay = Some d -> attempt < maxAttempts ladder /\ 0 <= d).
Proof.
  intros Hp Ha Hh. unfold delayFor. case_decide as Hm; [done|].
  pose proof (random_time w) as H1. pose proof (random_log w) as H2. pose proof (random_valid w) as Hv.
  destruct (he_random env w) as [draw w1]; simpl in *.
  destruct (nextAttemptDelayMs attempt ladder draw) as [j|] eqn:Hj; [|done].
  destruct (nextAttemptDelayMs_bounds _ _ _ _ Hp Hv Ha Hj) as [[Hj0 _] _].
  destruct hint as [h|]; [|split_and!; [done|done|intros d [= <-]; split; [lia|done]]]. case_decide; [done|].
  pose proof (random_time w1) as H3. pose proof (random_log w1) as H4. pose proof (random_valid w1) as Hv1.
  destruct (he_random env w1) as [draw2 w2]; simpl in *.
  rewrite H3, H4. split_and!; [done|done|]. intros d [= <-]. split; [lia|]. destruct Hv1, Hp.
  assert (0 <= draw_num draw2 * baseMs ladder / draw_den draw2); [|lia]. apply Z.div_pos; nia.
Qed.

(** The last response among what was answered. *)
Definition responses (answers : list (Cause + HttpJsonResponse)) : list HttpJsonResponse :=
  omap (fun a => match a with inr r => Some r | inl _ => None end) answers.

(** What a call that ends in [outcome] has to show for it, given [answers] of its own. *)
Definition accounts_for (outcome : HttpError + HttpJsonResponse) (answers : list (Cause + HttpJsonResponse)) : Prop :=
  match outcome with
  | inr response => last (responses answers) = Some response
  | inl (HttpTransportError _ attempts cause) => last answers = Some (inl cause)
  | inl (HttpDeadlineExceededError _ _ _ (Some cause)) => last answers = Some (inl cause)
  | inl _ => True
  end.

Lemma responses_snoc answers r : last (responses (answers ++ [inr r])) = Some r.
Proof. unfold responses. rewrite omap_app. simpl. apply last_snoc. Qed.

Lemma request_loop_spec fuel dependency reset ladder timeout budget deadline attempt before lastResponse w :
  valid_policy ladder -> 1 <= attempt -> (Z.to_nat (maxAttempts ladder - attempt) < fuel)%nat ->
  he_now env w <= deadline + slack ->
  (exists answers, log w = before ++ answers /\ last (responses answers) = lastResponse) ->
  exists outcome w' answers,
    request_loop env fuel dependency reset ladder timeout budget deadline attempt lastResponse w = Some (outcome, w') /\
    he_now env w' <= deadline + slack /\
    log w' = before ++ answers /\ accounts_for outcome answers /\
    Z.of_nat (length (log w')) <= Z.of_nat (length (log w)) + Z.max 1 (maxAttempts ladder - attempt + 1).
Proof.
  intros Hp. revert attempt lastResponse w. induction fuel as [|fuel IH]; intros attempt lastResponse w Hatt Hfuel Hnow (answers & Hlog & Hlast); [lia|].
  cbn [request_loop]. case_decide as Hrem.
  { destruct lastResponse as [r|]; eexists _, _, answers; split_and!; try done; lia. }
  pose proof (attempt_spec timeout deadline attempt w ltac:(lia)) as Ha.
  destruct (attempt_once _ _ _ _ _ w) as [result w1]. destruct Ha as [Hn1 Hl1].
  assert (forall r, log w1 = log w ++ [r] -> log w1 = before ++ (answers ++ [r]) /\ Z.of_nat (length (log w1)) = Z.of_nat (length (log w)) + 1) as Hsnoc.
  { intros r Hr. rewrite Hr, Hlog, <-app_assoc, !length_app. simpl. split; [done|lia]. }
  destruct result as [caught|response]; cycle 1.
  { destruct (Hsnoc _ Hl1) as [Hl Hlen]. eexists _, _, _. split_and!; [done|done|exact Hl|apply responses_snoc|lia]. }
  destruct caught as [attempts|e| |failure]; cbn [as_result] in Hl1.
  1-3: eexists _, _, answers; split_and!; [done|done|congruence|done|rewrite Hl1; lia].
  destruct Hl1 as [Hl1 Hhint]. destruct (Hsnoc _ Hl1) as [Hl Hlen]. unfold after_failure.
  set (response := match failure with inr x => Some x | inl _ => None end). set (lastResponse' := match response with Some _ => response | None => lastResponse end).
  assert (last (responses (answers ++ [failure])) = lastResponse') as Hlast'.
  { destruct failure as [cause|x]; [|apply responses_snoc]. unfold responses in *. rewrite omap_app. simpl. by rewrite app_nil_r. }
  assert (0 <= default 0 (response ≫= hr_retryAfterMs)) as Hh by (by destruct failure).
  pose proof (delayFor_spec attempt ladder (response ≫= hr_retryAfterMs) w1 Hp Hatt Hh) as Hd.
  destruct (delayFor env attempt ladder (response ≫= hr_retryAfterMs) w1) as [delay w2]. destruct Hd as (Hn2 & Hl2 & Hd). rewrite <-Hl2 in Hl, Hlen.
  assert (last (answers ++ [failure]) = Some failure) as Hlastf by apply last_snoc.
  destruct delay as [delay|]; [destruct (decide (deadline - he_now env w2 <= delay * TICKS)) as [Hle|Hgt]|].
  - eexists _, _, _. split_and!; [done|lia|exact Hl|destruct failure; simpl; done|lia].
  - destruct (Hd _ eq_refl) as [Hmax Hd0]. pose proof (sleep_time delay w2) as Hs. pose proof slack_nonneg.
    destruct (IH (attempt + 1) lastResponse' (he_sleep env delay w2)) as (outcome & w' & answers' & Hrun & Hn' & Hl' & Hacc & Hlen').
    + lia.
    + lia.
    + unfold TICKS in *. lia.
    + exists (answers ++ [failure]). by rewrite sleep_log.
    + rewrite sleep_log in Hlen'. exists outcome, w', answers'. split_and!; [done|done|done|done|lia].
  - eexists _, _, _. split_and!; [done|lia|exact Hl|destruct failure; simpl; done|lia].
Qed.

End laws.

(** ** Theorems *)

(** C33: an outbound call is bounded, and honest about what it got.  Whatever the
    dependency does, the call settles, no later than its budget and one timer's
    overshoot after it began; the request is sent at most as often as the ladder
    allows and at most once when it may not be replayed; a response it returns
    is the last one that came back, and a transport error it throws is what the
    last attempt threw. *)
Theorem http_call_bounded {W} (env : HttpEnv W) log slack `{!HttpEnvLaws env log slack} policy dependency method options w :
  valid_policy (hp_retry policy) -> 0 <= default (hp_deadlineMs policy) (ho_deadlineMs options) ->
  exists outcome w' answers,
    request env policy dependency method options w = Some (outcome, w') /\
    he_now env w' <= he_now env w + default (hp_deadlineMs policy) (ho_deadlineMs options) * TICKS + slack /\
    log w' = log w ++ answers /\ accounts_for outcome answers /\
    Z.of_nat (length answers) <= Z.max 1 (if default (isSafeMethod method) (ho_idempotent options) then maxAttempts (hp_retry policy) else 1).
Proof.
  intros Hp Hb. unfold request. set (ladder := ladderOf policy options method). set (budget := default (hp_deadlineMs policy) (ho_deadlineMs options)) in *.
  destruct (request_loop_spec env log slack (S (Z.to_nat (maxAttempts ladder))) dependency (resetTimeoutMs (hp_breaker policy)) ladder
    (default DEFAULT_HTTP_TIMEOUT_MS (ho_timeoutMs options)) budget (he_now env w + budget * TICKS) 1 (log w) None w)
    as (outcome & w' & answers & Hrun & Hn & Hl & Hacc & Hlen); [done|lia|lia| | |].
  - pose proof (slack_nonneg (env := env) (log := log) (slack := slack)). unfold TICKS. lia.
  - exists []. by rewrite app_nil_r.
  - exists outcome, w', answers. split_and!; [done|done|done|done|]. rewrite Hl, length_app in Hlen.
    replace (maxAttempts ladder - 1 + 1) with (maxAttempts ladder) in Hlen by lia. unfold ladder, ladderOf in Hlen. simpl in Hlen. lia.
Qed.

(** ** Samples *)

(** A world that is the time, the answers to come and the answers given. *)
Record Script := { sc_now : Z; sc_todo : list (Z * Z * (Cause + HttpJsonResponse)); sc_log : list (Cause + HttpJsonResponse) }.

Definition ECONNRESET : Cause := {| cs_name := "TypeError"; cs_message := "fetch failed" |}.

(** Each answer with how long its permit and how long it took, as far as the
    limits let it. *)
Definition script_env : HttpEnv Script := {|
  he_now := sc_now;
  he_acquire remaining w :=
    let wait := match sc_todo w with (wait, _, _) :: _ => wait | [] => 0 end in
    (inr tt, {| sc_now := sc_now w + Z.min wait remaining; sc_todo := sc_todo w; sc_log := sc_log w |});
  he_release w := w;
  he_admits _ := true;
  he_record _ w := w;
  he_send t w :=
    match sc_todo w with
    | (_, took, answer) :: rest =>
        let answer := match answer with inr r => inr {| hr_status := hr_status r; hr_ok := hr_ok r; hr_body := hr_body r; hr_retryAfterMs := Z.max 0 <$> hr_retryAfterMs r |} | inl c => inl c end in
        (answer, {| sc_now := sc_now w + Z.min took (t * TICKS); sc_todo := rest; sc_log := sc_log w ++ [answer] |})
    | [] => (inl ECONNRESET, {| sc_now := sc_now w; sc_todo := []; sc_log := sc_log w ++ [inl ECONNRESET] |})
    end;
  he_random w := ({| draw_num := 1; draw_den := 2 |}, w);
  he_sleep d w := {| sc_now := sc_now w + Z.max 0 d * TICKS; sc_todo := sc_todo w; sc_log := sc_log w |};
|}.

#[export] Instance script_laws : HttpEnvLaws script_env sc_log 0.
Proof.
  constructor; simpl; try (intros; lia); try done.
  - intros t w Ht. destruct (sc_todo w) as [|[[wait took] answer] rest]; simpl; unfold TICKS; lia.
  - intros t w. by destruct (sc_todo w) as [|[[wait took] answer] rest].
  - intros t w. destruct (sc_todo w) as [|[[wait took] [c|r]] rest]; simpl; [done|done|]. destruct (hr_retryAfterMs r); simpl; lia.
Qed.

Definition unavailable : HttpJsonResponse := {| hr_status := 503; hr_ok := false; hr_body := JNull; hr_retryAfterMs := None |}.

Definition sample_policy : HttpResiliencePolicy := {|
  hp_retry := {| baseMs := 100; maxMs := 1000; maxAttempts := 3 |};
  hp_breaker := {| failureThresholdPercent := 50; volumeThreshold := 5; rollingWindowMs := 10000; rollingBuckets := 10; resetTimeoutMs := 30000 |};
  hp_bulkhead := {| maxConcurrent := 10; maxQueued := 10; maxQueueWaitMs := 1000 |}; hp_deadlineMs := 1000 |}.
Definition sample_options : HttpRequestOptions := {| ho_timeoutMs := None; ho_deadlineMs := None; ho_idempotent := None |}.

(** Three responses that are worth another attempt: the last one is returned. *)
Definition sample_script : Script := {| sc_now := 0; sc_todo := replicate 5 (0, 5000, inr unavailable); sc_log := [] |}.

Lemma http_call_bounded_witness :
  exists outcome w' answers,
    request script_env sample_policy "stripe" (Some (js "get")) sample_options sample_script = Some (outcome, w') /\
    sc_now w' <= 0 + 1000 * TICKS + 0 /\ sc_log w' = [] ++ answers /\ accounts_for outcome answers /\ Z.of_nat (length answers) <= Z.max 1 3.
Proof.
  apply (http_call_bounded script_env sc_log 0 sample_policy "stripe" (Some (js "get")) sample_options sample_script).
  - vm_compute. done.
  - vm_compute. done.
Defined.

Example ladder_spent_returns_the_response :
  (fst <$> request script_env sample_policy "stripe" (Some (js "get")) sample_options sample_script) = Some (inr unavailable).
Proof. vm_compute. reflexivity. Qed.

(** A response that is in hand is forgotten: by a last attempt whose socket
    dies, and by a budget that ends while the next attempt waits for its permit. *)
Example response_in_hand_is_dropped :
  (fst <$> request script_env sample_policy "stripe" (Some (js "get")) sample_options
     {| sc_now := 0; sc_todo := [(0, 5000, inr unavailable); (0, 5000, inr unavailable); (0, 5000, inl ECONNRESET)]; sc_log := [] |})
  = Some (inl (HttpTransportError "stripe" 3 ECONNRESET)) /\
  (fst <$> request script_env sample_policy "stripe" (Some (js "get")) sample_options
     {| sc_now := 0; sc_todo := [(0, 5000, inr unavailable); (2000000, 5000, inr unavailable)]; sc_log := [] |})
  = Some (inl (HttpDeadlineExceededError "stripe" 1000 1 None)).
Proof. vm_compute. done. Qed.
