(* ===== verification/Notifications.v ===== *)
(** * Notifications: channels chosen by preference

    [notifications/notification-dispatcher.service.ts],
    [notifications/notification-preferences.ts], the port and its three channels
    ([notifications/channels]), and the welcome listener.  The HTTP client and
    the mail queue are parameters of the channels: what they answered. *)

From S2P Require Import Prelude Text Json Bulkhead HttpClient Users.

(** ** The port *)

Inductive NotificationChannelName := Email | Sms | Push.

#[export] Instance NotificationChannelName_eq : EqDecision NotificationChannelName.
Proof. solve_decision. Defined.

Definition NOTIFICATION_CHANNEL_NAMES : list NotificationChannelName := [Email; Sms; Push].

Inductive NotificationCategory := Transactional | Marketing.

#[export] Instance NotificationCategory_eq : EqDecision NotificationCategory.
Proof. solve_decision. Defined.

Record NotificationRecipient := { nr_userId : string; nr_email : option JSText; nr_phone : option JSText; nr_deviceTokens : list JSText }.

Record Notification := { nt_category : NotificationCategory; nt_title : JSText; nt_body : JSText }.

Inductive DeliveryStatus := Sent | Queued.

Record NotificationDelivery := {
  nd_channel : NotificationChannelName; nd_status : DeliveryStatus; nd_address : JSText; nd_providerMessageId : option JSText;
}.

Inductive SendError :=
  | NotificationChannelError (channel : NotificationChannelName) (message : JSText) (upstreamCode : option JSText) (status : Z)
  | NotificationAddressRejectedError (channel : NotificationChannelName) (address reason : JSText)
  | TransportFailed (e : HttpError)
  | QueueFailed (message : JSText).

Record NotificationChannel := {
  nc_channel : NotificationChannelName;
  nc_isConfigured : bool;
  nc_addressFor : NotificationRecipient -> option JSText;
  nc_send : NotificationRecipient -> Notification -> SendError + NotificationDelivery;
}.

(** ** Reading an upstream's JSON *)

Fixpoint member (key : string) (members : list (string * JsonValue)) : option JsonValue :=
  match members with
  | [] => None
  | (k, v) :: rest => if decide (k = key) then Some v else member key rest
  end.

Definition asRecord (value : JsonValue) : option (list (string * JsonValue)) :=
  match value with JObject members => Some members | _ => None end.

Definition readString (source : option (list (string * JsonValue))) (key : string) : option JSText :=
  match source ≫= member key with Some (JString s) => Some s | _ => None end.

Definition readNumber (source : option (list (string * JsonValue))) (key : string) : option (Z * Z) :=
  match source ≫= member key with Some (JNumber m e) => Some (m, e) | _ => None end.

Definition readArray (source : option (list (string * JsonValue))) (key : string) : list JsonValue :=
  match source ≫= member key with Some (JArray items) => items | _ => [] end.

(** Whether the double [m * 2 ^ e] is the integer [n]. *)
Definition number_is (n : Z) (number : Z * Z) : bool :=
  let '(m, e) := number in bool_decide (m * 2 ^ Z.max e 0 = n * 2 ^ Z.max (- e) 0).

(** ** Preferences *)

Definition isChannelEnabled (preferences : UserPreferences) (channel : NotificationChannelName) : bool :=
  match channel with
  | Email => pf_emailNotifications preferences
  | Sms => pf_smsNotifications preferences
  | Push => pf_pushNotifications preferences
  end.

Definition TRANSACTIONAL_FALLBACK_CHANNEL : NotificationChannelName := Email.

Definition selectChannels (preferences : UserPreferences) (category : NotificationCategory) : list NotificationChannelName :=
  let enabled := List.filter (isChannelEnabled preferences) NOTIFICATION_CHANNEL_NAMES in
  if decide (enabled <> [] \/ category <> Transactional) then enabled else [TRANSACTIONAL_FALLBACK_CHANNEL].

(** ** The dispatcher *)

Inductive SkipReason := PreferenceDisabled | NotConfigured | NoAddress | Failed (e : SendError).

Record SkippedChannel := { sk_channel : NotificationChannelName; sk_reason : SkipReason }.

Record DispatchReport := { dr_userId : string; dr_delivered : list NotificationDelivery; dr_skipped : list SkippedChannel }.

(** [localeCompare] on the three names. *)
Definition channelRank (c : NotificationChannelName) : nat := match c with Email => 0 | Push => 1 | Sms => 2 end.
Definition channel_le (a b : SkippedChannel) : Prop := (channelRank (sk_channel a) <= channelRank (sk_channel b))%nat.

#[export] Instance channel_le_dec : RelDecision channel_le.
Proof. intros a b. unfold channel_le. apply _. Defined.
#[export] Instance channel_le_total : Total channel_le.
Proof. intros a b. unfold channel_le. lia. Qed.
#[export] Instance channel_le_trans : Transitive channel_le.
Proof. intros a b c. unfold channel_le. lia. Qed.

Definition sortByChannel (skipped : list SkippedChannel) : list SkippedChannel := merge_sort channel_le skipped.

(** The constructor: the registry, in registration order. *)
Fixpoint registerChannels (channels registry : list NotificationChannel) : string + list NotificationChannel :=
  match channels with
  | [] => inr registry
  | channel :: rest =>
      if decide (nc_channel channel ∈ nc_channel <$> registry) then inl "Duplicate notification channel registered"%string
      else registerChannels rest (registry ++ [channel])
  end.

Definition lookupChannel (registry : list NotificationChannel) (name : NotificationChannelName) : option NotificationChannel :=
  snd <$> list_find (fun c => nc_channel c = name) registry.

Definition available (registry : list NotificationChannel) : list NotificationChannelName :=
  nc_channel <$> filter (fun c => nc_isConfigured c = true) registry.

(** The second loop: who is attempted, and who is not. *)
Fixpoint narrow (registry : list NotificationChannel) (recipient : NotificationRecipient) (chosen : list NotificationChannelName)
    (skipped : list SkippedChannel) (eligible : list NotificationChannel) : list SkippedChannel * list NotificationChannel :=
  match chosen with
  | [] => (skipped, eligible)
  | name :: rest =>
      match lookupChannel registry name with
      | None => narrow registry recipient rest skipped eligible
      | Some channel =>
          if negb (nc_isConfigured channel) then narrow registry recipient rest (skipped ++ [{| sk_channel := name; sk_reason := NotConfigured |}]) eligible
          else match nc_addressFor channel recipient with
          | None => narrow registry recipient rest (skipped ++ [{| sk_channel := name; sk_reason := NoAddress |}]) eligible
          | Some _ => narrow registry recipient rest skipped (eligible ++ [channel])
          end
      end
  end.

(** The report and the channels that were attempted. *)
Definition notifyWith (registry : list NotificationChannel) (recipient : NotificationRecipient) (notification : Notification) (preferences : UserPreferences) :
    DispatchReport * list NotificationChannelName :=
  let chosen := selectChannels preferences (nt_category notification) in
  let disabled := omap (fun c => if decide (nc_channel c ∈ chosen) then None else Some {| sk_channel := nc_channel c; sk_reason := PreferenceDisabled |}) registry in
  let '(skipped, eligible) := narrow registry recipient chosen disabled [] in
  let results := (fun c => (nc_channel c, nc_send c recipient notification)) <$> eligible in
  let delivered := omap (fun r => match snd r with inr delivery => Some delivery | inl _ => None end) results in
  let failed := omap (fun r => match snd r with inl e => Some {| sk_channel := fst r; sk_reason := Failed e |} | inr _ => None end) results in
  ({| dr_userId := nr_userId recipient; dr_delivered := delivered; dr_skipped := sortByChannel (skipped ++ failed) |}, nc_channel <$> eligible).

(** [notify]: against what the store holds now. *)
Definition notify (registry : list NotificationChannel) (recipient : NotificationRecipient) (notification : Notification) :
    Prog (DispatchReport * list NotificationChannelName) :=
  await preferences := getPreferences (nr_userId recipient) in
  Ret (notifyWith registry recipient notification preferences).

(** ** Email *)

Definition noSpaceOrAt (c : N) : bool := negb (isWhitespace c) && negb (bool_decide (c = 64%N)).

(** A text, an at sign, and a text with a dot that is neither its first nor its
    last character; no white space and no other at sign. *)
Definition EMAIL_SHAPED (t : JSText) : bool :=
  match list_find (fun c => c = 64%N) t with
  | Some (i, _) =>
      let local := take i t in
      let domain := drop (S i) t in
      bool_decide (local <> []) && forallb noSpaceOrAt local && forallb noSpaceOrAt domain &&
      bool_decide (46%N ∈ drop 1 (take (length domain - 1) domain))
  | None => false
  end.

Definition email_addressFor (recipient : NotificationRecipient) : option JSText :=
  match trimText <$> nr_email recipient with
  | Some email => if decide (email <> []) then if EMAIL_SHAPED email then Some email else None else None
  | None => None
  end.

Definition noUsable (channel : NotificationChannelName) (what : string) (recipient : NotificationRecipient) : SendError :=
  NotificationChannelError channel (js (what +:+ " for user " +:+ nr_userId recipient)) None 502.

(** [enqueue] is the queue's [add]: the id it gave the job, or why there is no job. *)
Definition sendNotificationEmail (enqueue : JSText -> Notification -> JSText + option JSText) (to : JSText) (notification : Notification) : JSText + JSText :=
  match enqueue to notification with
  | inl e => inl e
  | inr id => inr (default (js "unknown") id)
  end.

Definition email_channel (enqueue : JSText -> Notification -> JSText + option JSText) : NotificationChannel := {|
  nc_channel := Email;
  nc_isConfigured := true;
  nc_addressFor := email_addressFor;
  nc_send recipient notification :=
    match email_addressFor recipient with
    | None => inl (noUsable Email "No usable email address" recipient)
    | Some to =>
        match sendNotificationEmail enqueue to notification with
        | inl e => inl (QueueFailed e)
        | inr jobId => inr {| nd_channel := Email; nd_status := Queued; nd_address := to; nd_providerMessageId := Some jobId |}
        end
    end |}.

(** ** SMS *)

(** A plus sign, a digit that is not zero, and one to fourteen digits more. *)
Definition E164 (t : JSText) : bool :=
  match t with
  | 43%N :: d :: rest => bool_decide (49 <= d <= 57)%N && allDigits rest && bool_decide (1 <= length rest <= 14)%nat
  | _ => false
  end.

Definition sms_addressFor (recipient : NotificationRecipient) : option JSText :=
  match trimText <$> nr_phone recipient with
  | Some phone => if decide (phone <> []) then if E164 phone then Some phone else None else None
  | None => None
  end.

Definition PERMANENT_ADDRESS_ERRORS : list Z := [21211; 21610; 21614; 21408].
Definition isPermanent (code : Z * Z) : bool := existsb (fun n => number_is n code) PERMANENT_ADDRESS_ERRORS.

Definition TERMINAL_FAILURE_STATUSES : list JSText := js <$> ["failed"; "undelivered"; "canceled"]%string.

Definition SMS_MAX_LENGTH : nat := 320.

Definition composeSms (notification : Notification) : JSText :=
  let text := nt_title notification ++ js ": " ++ nt_body notification in
  if decide (length text <= SMS_MAX_LENGTH)%nat then text else take (SMS_MAX_LENGTH - 1) text ++ ellipsis.

Definition redactPhone (phone : JSText) : JSText :=
  if decide (length phone <= 8)%nat then phone
  else take 4 phone ++ replicate 3 8226%N ++ drop (length phone - 4) phone.

Record TwilioCredentials := { tw_accountSid : option JSText; tw_authToken : option JSText; tw_from : option JSText }.

Definition truthy (t : option JSText) : bool := match t with Some (_ :: _) => true | _ => false end.

Definition sms_isConfigured (c : TwilioCredentials) : bool := truthy (tw_accountSid c) && truthy (tw_authToken c) && truthy (tw_from c).

Section sms.
(** How a JavaScript number prints. *)
Context (printNumber : Z * Z -> JSText).

(** What the API's answer means. *)
Definition interpretTwilio (to : JSText) (response : HttpJsonResponse) : SendError + NotificationDelivery :=
  let body := asRecord (hr_body response) in
  let refuse (code : option (Z * Z)) (message : JSText) :=
    match code with
    | Some c => if isPermanent c then inl (NotificationAddressRejectedError Sms to (printNumber c ++ js " " ++ message))
                else inl (NotificationChannelError Sms message (printNumber <$> code) 502)
    | None => inl (NotificationChannelError Sms message (printNumber <$> code) 502)
    end in
  if negb (hr_ok response) then
    refuse (readNumber body "code") (default (js ("Twilio responded " +:+ pretty (hr_status response))) (readString body "message"))
  else
  match readString body "status" with
  | Some status =>
      if decide (status ∈ TERMINAL_FAILURE_STATUSES) then
        refuse (readNumber body "error_code") (default (js ("Twilio status " +:+ dq) ++ status ++ js dq) (readString body "error_message"))
      else match readString body "sid" with
           | Some (c :: sid) => inr {| nd_channel := Sms; nd_status := Sent; nd_address := redactPhone to; nd_providerMessageId := Some (c :: sid) |}
           | _ => inl (NotificationChannelError Sms (js "Twilio accepted the message without a SID") None 502)
           end
  | None =>
      match readString body "sid" with
      | Some (c :: sid) => inr {| nd_channel := Sms; nd_status := Sent; nd_address := redactPhone to; nd_providerMessageId := Some (c :: sid) |}
      | _ => inl (NotificationChannelError Sms (js "Twilio accepted the message without a SID") None 502)
      end
  end.

(** [post to text] is the request through the resilient client. *)
Definition sms_channel (credentials : TwilioCredentials) (post : JSText -> JSText -> HttpError + HttpJsonResponse) : NotificationChannel := {|
  nc_channel := Sms;
  nc_isConfigured := sms_isConfigured credentials;
  nc_addressFor := sms_addressFor;
  nc_send recipient notification :=
    match sms_addressFor recipient with
    | None => inl (noUsable Sms "No E.164 phone number" recipient)
    | Some to =>
        if negb (sms_isConfigured credentials) then
          inl (NotificationChannelError Sms (js "SMS is not configured. Set TWILIO_ACCOUNT_SID, TWILIO_AUTH_TOKEN, and TWILIO_FROM_NUMBER or TWILIO_MESSAGING_SERVICE_SID.") None 503)
        else match post to (composeSms notification) with
        | inl e => inl (TransportFailed e)
        | inr response => interpretTwilio to response
        end
    end |}.
End sms.

(** ** Push *)

(** [^Expo(nent)?PushToken\[[^\]]+\]$] *)
Definition EXPO_PUSH_TOKEN (t : JSText) : bool :=
  let inside (prefix : JSText) :=
    bool_decide (take (length prefix) t = prefix) &&
    (let rest := drop (length prefix) t in
     bool_decide (last rest = Some 93%N) && bool_decide (2 <= length rest)%nat && forallb (fun c => negb (bool_decide (c = 93%N))) (take (length rest - 1) rest)) in
  inside (js "ExpoPushToken[") || inside (js "ExponentPushToken[").

Definition tokensFor (recipient : NotificationRecipient) : list JSText :=
  List.filter EXPO_PUSH_TOKEN (trimText <$> nr_deviceTokens recipient).

Definition devices (count : nat) : JSText := js (pretty count +:+ " device" +:+ (if decide (count = 1%nat) then "" else "s")).

Definition push_addressFor (recipient : NotificationRecipient) : option JSText :=
  let count := length (tokensFor recipient) in
  if decide (0 < count)%nat then Some (devices count) else None.

Definition interpretExpo (recipient : NotificationRecipient) (response : HttpJsonResponse) : SendError + NotificationDelivery :=
  let body := asRecord (hr_body response) in
  if negb (hr_ok response) then
    let first := match readArray body "errors" with v :: _ => asRecord v | [] => None end in
    inl (NotificationChannelError Push (default (js ("Expo responded " +:+ pretty (hr_status response))) (readString first "message"))
           (readString first "code") 502)
  else
  let tickets := asRecord <$> readArray body "data" in
  match tickets with
  | [] => inl (NotificationChannelError Push (js "Expo returned no push tickets") None 502)
  | failure :: _ =>
      match List.filter (fun t => bool_decide (readString t "status" = Some (js "ok"))) tickets with
      | [] =>
          let detail := readString (match failure ≫= member "details" with Some v => asRecord v | None => None end) "error" in
          let message := default (js "Expo rejected every push ticket") (readString failure "message") in
          if decide (detail = Some (js "DeviceNotRegistered")) then
            inl (NotificationAddressRejectedError Push (default (js "unknown") (push_addressFor recipient)) (js "DeviceNotRegistered"))
          else inl (NotificationChannelError Push message detail 502)
      | (first :: _) as accepted =>
          inr {| nd_channel := Push; nd_status := Sent; nd_address := devices (length accepted); nd_providerMessageId := readString first "id" |}
      end
  end.

(** [accessToken !== null] for being configured, and [!accessToken] when it is used. *)
Definition push_channel (accessToken : option JSText) (post : list JSText -> Notification -> HttpError + HttpJsonResponse) : NotificationChannel := {|
  nc_channel := Push;
  nc_isConfigured := match accessToken with Some _ => true | None => false end;
  nc_addressFor := push_addressFor;
  nc_send recipient notification :=
    match tokensFor recipient with
    | [] => inl (noUsable Push "No registered device tokens" recipient)
    | tokens =>
        if negb (truthy accessToken) then inl (NotificationChannelError Push (js "Push is not configured. Set EXPO_ACCESS_TOKEN.") None 503)
        else match post tokens notification with
        | inl e => inl (TransportFailed e)
        | inr response => interpretExpo recipient response
        end
    end |}.

(** ** The welcome listener *)

Definition displayName (email : JSText) (name : option JSText) : JSText :=
  match trimText <$> name with
  | Some (c :: trimmed) => c :: trimmed
  | _ =>
      match trimText (match list_find (fun c => c = 64%N) email with Some (i, _) => take i email | None => email end) with
      | [] => email
      | localPart => localPart
      end
  end.

(** ** What a report says *)

(** The reference: what becomes of one registered channel. *)
Inductive Verdict := VSkip (reason : SkipReason) | VDelivered (delivery : NotificationDelivery).

Definition verdict (chosen : list NotificationChannelName) (recipient : NotificationRecipient) (notification : Notification) (c : NotificationChannel) : Verdict :=
  if decide (nc_channel c ∈ chosen) then
    if nc_isConfigured c then
      match nc_addressFor c recipient with
      | None => VSkip NoAddress
      | Some _ => match nc_send c recipient notification with inl e => VSkip (Failed e) | inr d => VDelivered d end
      end
    else VSkip NotConfigured
  else VSkip PreferenceDisabled.

Definition skip_of (chosen : list NotificationChannelName) (recipient : NotificationRecipient) (notification : Notification) (c : NotificationChannel) : option SkippedChannel :=
  match verdict chosen recipient notification c with VSkip r => Some {| sk_channel := nc_channel c; sk_reason := r |} | VDelivered _ => None end.

Definition delivery_of (chosen : list NotificationChannelName) (recipient : NotificationRecipient) (notification : Notification) (c : NotificationChannel) : option NotificationDelivery :=
  match verdict chosen recipient notification c with VDelivered d => Some d | VSkip _ => None end.

(** A channel that has its credentials and an address for the recipient. *)
Definition reachable (recipient : NotificationRecipient) (c : NotificationChannel) : bool :=
  nc_isConfigured c && match nc_addressFor c recipient with Some _ => true | None => false end.

(** The channels of [registry] under the chosen names, in the order of the names. *)
Definition in_order (registry : list NotificationChannel) (chosen : list NotificationChannelName) : list NotificationChannel :=
  omap (lookupChannel registry) chosen.

Definition unreachable (recipient : NotificationRecipient) (c : NotificationChannel) : option SkippedChannel :=
  if nc_isConfigured c then
    match nc_addressFor c recipient with None => Some {| sk_channel := nc_channel c; sk_reason := NoAddress |} | Some _ => None end
  else Some {| sk_channel := nc_channel c; sk_reason := NotConfigured |}.

Lemma lookupChannel_Some registry name c : lookupChannel registry name = Some c -> c ∈ registry /\ nc_channel c = name.
Proof.
  unfold lookupChannel. rewrite fmap_Some. intros ([i c'] & (Hi & <- & _)%list_find_Some & ->).
  split; [by eapply list_elem_of_lookup_2|done].
Qed.

Lemma lookupChannel_unique registry c :
  NoDup (nc_channel <$> registry) -> c ∈ registry -> lookupChannel registry (nc_channel c) = Some c.
Proof.
  intros Hnd [i Hi]%list_elem_of_lookup. unfold lookupChannel.
  enough (list_find (fun c' => nc_channel c' = nc_channel c) registry = Some (i, c)) as -> by done.
  apply list_find_Some. split_and!; [done|done|]. intros j c' Hj Hlt Heq.
  assert (i = j); [|lia]. apply (NoDup_lookup _ _ _ (nc_channel c) Hnd); rewrite list_lookup_fmap; [by rewrite Hi|by rewrite Hj, <- Heq].
Qed.

Lemma registerChannels_registry channels : forall registry out,
  registerChannels channels registry = inr out -> NoDup (nc_channel <$> registry) -> out = registry ++ channels /\ NoDup (nc_channel <$> out).
Proof.
  induction channels as [|c channels IH]; intros registry out; cbn.
  - intros [= <-] Hnd. by rewrite app_nil_r.
  - case_decide as Hin; [done|]. intros Hr Hnd.
    destruct (IH _ _ Hr) as [-> Hnd'].
    { rewrite fmap_app. apply NoDup_app. split_and!; [done| |apply NoDup_singleton].
      intros x Hx ->%list_elem_of_singleton. done. }
    split; [by rewrite <- app_assoc|done].
Qed.

(** The channels a registry without duplicates accepts. *)
Lemma registerChannels_ok channels out : registerChannels channels [] = inr out -> out = channels /\ NoDup (nc_channel <$> channels).
Proof. intros H. destruct (registerChannels_registry _ _ _ H) as [-> Hnd]; [apply NoDup_nil_2|done]. Qed.

Lemma narrow_spec registry recipient chosen : forall skipped eligible,
  narrow registry recipient chosen skipped eligible =
  (skipped ++ omap (unreachable recipient) (in_order registry chosen),
   eligible ++ List.filter (reachable recipient) (in_order registry chosen)).
Proof.
  induction chosen as [|name chosen IH]; intros skipped eligible; cbn; [by rewrite !app_nil_r|].
  destruct (lookupChannel registry name) as [c|] eqn:Hc; [|apply IH].
  apply lookupChannel_Some in Hc as [_ <-]. cbn. unfold unreachable at 1, reachable at 1.
  destruct (nc_isConfigured c); cbn; [destruct (nc_addressFor c recipient); cbn|]; rewrite IH, <- app_assoc; done.
Qed.

Lemma NoDup_selectChannels preferences category : NoDup (selectChannels preferences category).
Proof.
  unfold selectChannels. case_decide; [|apply NoDup_singleton].
  assert (NoDup NOTIFICATION_CHANNEL_NAMES) as Hnd by (apply (bool_decide_unpack _); vm_compute; done).
  apply NoDup_ListNoDup. apply List.NoDup_filter. by apply NoDup_ListNoDup.
Qed.

Lemma NoDup_in_order registry chosen : NoDup chosen -> NoDup (in_order registry chosen).
Proof.
  unfold in_order. induction 1 as [|name chosen Hn _ IH]; cbn; [apply NoDup_nil_2|].
  destruct (lookupChannel registry name) as [c|] eqn:Hc; [|done].
  apply NoDup_cons; split; [|done]. rewrite list_elem_of_omap. intros (name' & Hin & Hc').
  apply lookupChannel_Some in Hc as [_ <-]. by apply lookupChannel_Some in Hc' as [_ <-].
Qed.

(** Following the names or the registry meets the same channels. *)
Lemma in_order_perm registry chosen :
  NoDup (nc_channel <$> registry) -> NoDup chosen -> in_order registry chosen ≡ₚ filter (fun c => nc_channel c ∈ chosen) registry.
Proof.
  intros Hr Hc. apply NoDup_Permutation; [by apply NoDup_in_order|apply NoDup_filter; by eapply NoDup_fmap_1|].
  intros c. unfold in_order. rewrite list_elem_of_omap, list_elem_of_filter. split.
  - intros (name & Hin & [Hmem <-]%lookupChannel_Some). done.
  - intros [Hin Hmem]. exists (nc_channel c). split; [done|by apply lookupChannel_unique].
Qed.

Section report.
Context (recipient : NotificationRecipient) (notification : Notification).

Definition failed_of (c : NotificationChannel) : option SkippedChannel :=
  match nc_send c recipient notification with inl e => Some {| sk_channel := nc_channel c; sk_reason := Failed e |} | inr _ => None end.

Definition disabled_of (chosen : list NotificationChannelName) (c : NotificationChannel) : option SkippedChannel :=
  if decide (nc_channel c ∈ chosen) then None else Some {| sk_channel := nc_channel c; sk_reason := PreferenceDisabled |}.

(** The three loops that skip, taken together, judge every registered channel once. *)
Lemma skips_perm registry chosen : let F := filter (fun c => nc_channel c ∈ chosen) registry in
  omap (disabled_of chosen) registry ++ omap (unreachable recipient) F ++ omap failed_of (List.filter (reachable recipient) F)
  ≡ₚ omap (skip_of chosen recipient notification) registry.
Proof.
  cbn zeta. induction registry as [|c registry IH]; [done|].
  rewrite (filter_cons _ c). cbn. unfold disabled_of at 1, skip_of at 1, verdict.
  destruct (decide (nc_channel c ∈ chosen)); [|cbn; by rewrite <- IH].
  cbn. unfold unreachable at 1, reachable at 1.
  destruct (nc_isConfigured c); cbn; [|by rewrite <- Permutation_middle, <- IH].
  destruct (nc_addressFor c recipient); cbn; [|by rewrite <- Permutation_middle, <- IH].
  unfold failed_of at 1. destruct (nc_send c recipient notification); cbn; [|done].
  rewrite !app_assoc, <- Permutation_middle, <- !app_assoc. by rewrite <- IH.
Qed.

(** The channels the chosen names reach deliver in the order of the names. *)
Lemma deliveries_eq chosen cs : (forall c, c ∈ cs -> nc_channel c ∈ chosen) ->
  omap (fun c => match nc_send c recipient notification with inr d => Some d | inl _ => None end) (List.filter (reachable recipient) cs)
  = omap (delivery_of chosen recipient notification) cs.
Proof.
  induction cs as [|c cs IH]; intros Hall; [done|].
  cbn. unfold delivery_of at 1, verdict, reachable at 1.
  rewrite decide_True by (apply Hall; left).
  assert (forall c, c ∈ cs -> nc_channel c ∈ chosen) as Hall' by (intros c' Hc'; apply Hall; by right).
  destruct (nc_isConfigured c); cbn; [|by apply IH].
  destruct (nc_addressFor c recipient); cbn; [|by apply IH].
  destruct (nc_send c recipient notification); cbn; by rewrite IH.
Qed.
End report.

Lemma list_omap_fmap {A B C} (f : B -> option C) (g : A -> B) (l : list A) : omap f (g <$> l) = omap (fun x => f (g x)) l.
Proof. induction l as [|x l IH]; [done|]. cbn in *. by rewrite IH. Qed.

#[local] Instance boolean_filter_perm {A} (f : A -> bool) : Proper ((≡ₚ) ==> (≡ₚ)) (List.filter f).
Proof.
  induction 1 as [|x k k' _ IH|x y k|k k' k'' _ IH1 _ IH2]; cbn; [done|by destruct (f x); rewrite IH| |by rewrite IH1].
  destruct (f x), (f y); (apply perm_swap || done).
Qed.

Lemma skipped_spec registry recipient notification preferences : let chosen := selectChannels preferences (nt_category notification) in
  NoDup (nc_channel <$> registry) ->
  dr_skipped (notifyWith registry recipient notification preferences).1 ≡ₚ omap (skip_of chosen recipient notification) registry.
Proof.
  intros chosen Hnd. unfold notifyWith. fold chosen. rewrite narrow_spec. cbn.
  unfold sortByChannel. rewrite merge_sort_Permutation, <- (skips_perm recipient notification registry chosen), <- app_assoc.
  rewrite <- (in_order_perm registry chosen Hnd (NoDup_selectChannels _ _)).
  do 2 f_equiv. rewrite list_omap_fmap. done.
Qed.

Lemma delivered_spec registry recipient notification preferences : let chosen := selectChannels preferences (nt_category notification) in
  dr_delivered (notifyWith registry recipient notification preferences).1
  = omap (delivery_of chosen recipient notification) (in_order registry chosen).
Proof.
  intros chosen. unfold notifyWith. fold chosen. rewrite narrow_spec. cbn. rewrite list_omap_fmap.
  apply (deliveries_eq recipient notification). intros c. unfold in_order.
  rewrite list_elem_of_omap. intros (name & Hin & [_ <-]%lookupChannel_Some). done.
Qed.

Lemma omap_split_length {A B C} (f : A -> option B) (g : A -> option C) (l : list A) :
  (forall x, is_Some (f x) <-> g x = None) -> (length (omap f l) + length (omap g l))%nat = length l.
Proof.
  intros Hfg. induction l as [|x l IH]; [done|]. cbn. specialize (Hfg x).
  destruct (f x), (g x); cbn; rewrite <- ?IH; try lia; exfalso; naive_solver.
Qed.

Lemma delivered_perm registry recipient notification preferences : let chosen := selectChannels preferences (nt_category notification) in
  NoDup (nc_channel <$> registry) ->
  dr_delivered (notifyWith registry recipient notification preferences).1 ≡ₚ omap (delivery_of chosen recipient notification) registry.
Proof.
  intros chosen Hnd. rewrite delivered_spec, (in_order_perm _ _ Hnd (NoDup_selectChannels _ _)). fold chosen.
  clear Hnd. induction registry as [|c registry IH]; [done|]. rewrite filter_cons. cbn.
  unfold delivery_of at 2, verdict. destruct (decide (nc_channel c ∈ chosen)) as [Hin|]; [|done]. cbn.
  unfold delivery_of at 1, verdict. rewrite decide_True by done. by destruct (nc_isConfigured c), (nc_addressFor c recipient), (nc_send c recipient notification); cbn; rewrite IH.
Qed.

(** Only a transactional message to somebody who switched everything off goes
    where the preferences do not allow, and then by email. *)
Lemma chosen_allowed preferences category name : name ∈ selectChannels preferences category <->
  isChannelEnabled preferences name = true \/
  (category = Transactional /\ name = Email /\ forall other, isChannelEnabled preferences other = false).
Proof.
  destruct preferences as [? ? [] [] [] ?], category, name; vm_compute; split; intros H;
    try (by left); try (by right; split_and!; try done; intros []); try set_solver;
    destruct H as [H|(H & H' & Hall)]; try done; try (by specialize (Hall Email)); try (by specialize (Hall Sms)); try (by specialize (Hall Push)).
Qed.

(** C32: a dispatch judges every registered channel exactly once.  The deliveries
    are those of the channels that were chosen, configured, reachable and
    answered, in the order the channels are declared in; every other channel is
    on the report with the first reason that applies, sorted by name; and
    together they are all of the channels, so that none is lost and none counted
    twice.  A transport was only used when the user's preferences allow it,
    except for the email fallback of a transactional message to a user who
    switched everything off. *)
Theorem dispatch_exact channels registry recipient notification preferences :
  registerChannels channels [] = inr registry ->
  let chosen := selectChannels preferences (nt_category notification) in
  let '(report, attempted) := notifyWith registry recipient notification preferences in
  dr_userId report = nr_userId recipient /\
  dr_delivered report = omap (delivery_of chosen recipient notification) (in_order channels chosen) /\
  dr_skipped report ≡ₚ omap (skip_of chosen recipient notification) channels /\
  Sorted channel_le (dr_skipped report) /\
  (length (dr_delivered report) + length (dr_skipped report))%nat = length channels /\
  attempted = nc_channel <$> List.filter (reachable recipient) (in_order channels chosen) /\
  (forall name, name ∈ attempted ->
     isChannelEnabled preferences name = true \/
     (nt_category notification = Transactional /\ name = Email /\ forall other, isChannelEnabled preferences other = false)).
Proof.
  intros [-> Hnd]%registerChannels_ok chosen.
  pose proof (skipped_spec channels recipient notification preferences Hnd) as Hskip.
  pose proof (delivered_perm channels recipient notification preferences Hnd) as Hperm.
  pose proof (delivered_spec channels recipient notification preferences) as Hdel.
  assert (dr_userId (notifyWith channels recipient notification preferences).1 = nr_userId recipient /\
    Sorted channel_le (dr_skipped (notifyWith channels recipient notification preferences).1) /\
    (notifyWith channels recipient notification preferences).2 = nc_channel <$> List.filter (reachable recipient) (in_order channels chosen))
    as (Hid & Hsorted & Hatt).
  { unfold notifyWith. fold chosen. rewrite narrow_spec. cbn. split_and!; [done|apply (Sorted_merge_sort _)|done]. }
  destruct (notifyWith channels recipient notification preferences) as [report attempted]. cbn in *. fold chosen in Hskip, Hperm, Hdel.
  split_and!; [done..| | |].
  - rewrite Hperm, Hskip. apply omap_split_length. intros c. unfold delivery_of, skip_of.
    destruct (verdict chosen recipient notification c); by split.
  - done.
  - intros name. rewrite Hatt, list_elem_of_fmap. intros (c & -> & Hc). apply chosen_allowed.
    apply list_elem_of_In, List.filter_In in Hc as [Hc%list_elem_of_In _].
    unfold in_order in Hc. apply list_elem_of_omap in Hc as (name & Hin & [_ <-]%lookupChannel_Some). done.
Qed.

(** Three channels: the queue takes the email, nobody configured SMS, and Expo
    cannot be reached. *)
Definition exampleChannels : list NotificationChannel :=
  [push_channel (Some (js "token")) (fun _ _ => inl (HttpCircuitOpenError "push" 1000));
   email_channel (fun _ _ => inr (Some (js "7")));
   sms_channel (fun _ => []) {| tw_accountSid := None; tw_authToken := None; tw_from := None |} (fun _ _ => inl (HttpCircuitOpenError "sms" 1))].

Definition exampleRecipient : NotificationRecipient :=
  {| nr_userId := "user-1"; nr_email := Some (js " erin@example.com "); nr_phone := Some (js "+15551234567");
     nr_deviceTokens := [js "ExponentPushToken[abc]"; js "not a token"] |}.

Definition exampleNotification : Notification := {| nt_category := Transactional; nt_title := js "Reset"; nt_body := js "Your code" |}.

Definition everythingOn : UserPreferences := mergePreferences DEFAULT_USER_PREFERENCES
  {| pp_theme := None; pp_language := None; pp_emailNotifications := Some true; pp_smsNotifications := Some true;
     pp_pushNotifications := Some true; pp_timezone := None |}.

Lemma dispatch_exact_witness :
  registerChannels exampleChannels [] = inr exampleChannels /\
  let report := (notifyWith exampleChannels exampleRecipient exampleNotification everythingOn).1 in
  dr_delivered report = [{| nd_channel := Email; nd_status := Queued; nd_address := js "erin@example.com"; nd_providerMessageId := Some (js "7") |}] /\
  dr_skipped report = [{| sk_channel := Push; sk_reason := Failed (TransportFailed (HttpCircuitOpenError "push" 1000)) |};
                       {| sk_channel := Sms; sk_reason := NotConfigured |}] /\
  (length (dr_delivered report) + length (dr_skipped report))%nat = 3%nat.
Proof.
  split; [reflexivity|]. split; [vm_compute; reflexivity|]. split; [vm_compute; reflexivity|].
  exact (proj1 (proj2 (proj2 (proj2 (proj2 (dispatch_exact exampleChannels exampleChannels exampleRecipient exampleNotification everythingOn eq_refl)))))).
Defined.

(** An SMS is at most two segments. *)
Lemma length_composeSms notification : (length (composeSms notification) <= SMS_MAX_LENGTH)%nat.
Proof.
  unfold composeSms, SMS_MAX_LENGTH. case_decide as H; [done|]. rewrite length_app, length_take. cbn [length ellipsis]. lia.
Qed.

(** Every channel of the module reports deliveries and refusals under its own
    name, and refuses a recipient it has no address for before it asks its
    transport. *)
Lemma channel_contract channel recipient notification :
  (exists enqueue, channel = email_channel enqueue) \/ (exists print credentials post, channel = sms_channel print credentials post) \/
  (exists token post, channel = push_channel token post) ->
  match nc_send channel recipient notification with
  | inr delivery => nd_channel delivery = nc_channel channel /\ is_Some (nc_addressFor channel recipient)
  | inl (NotificationChannelError c _ _ _) | inl (NotificationAddressRejectedError c _ _) => c = nc_channel channel
  | inl _ => is_Some (nc_addressFor channel recipient)
  end.
Proof.
  intros [[enqueue ->]|[(print & credentials & post & ->)|(token & post & ->)]]; cbn [nc_send nc_addressFor nc_channel email_channel sms_channel push_channel].
  - destruct (email_addressFor recipient); [|done]. by destruct (sendNotificationEmail _ _ _).
  - destruct (sms_addressFor recipient); [|done]. destruct (sms_isConfigured credentials); [|done].
    destruct (post _ _); [by eexists|]. unfold interpretTwilio. cbn. repeat case_match; simplify_eq/=; eauto.
  - unfold push_addressFor. destruct (tokensFor recipient) as [|t ts] eqn:Ht; [done|].
    destruct (truthy token); [|done]. rewrite decide_True by (cbn; lia).
    destruct (post _ _); [by eexists|]. unfold interpretExpo. cbn. repeat case_match; simplify_eq/=; eauto.
Qed.

(** With an empty [EXPO_ACCESS_TOKEN] the channel calls itself configured and
    refuses every message. *)
Example empty_token_is_configured :
  let push := push_channel (Some []) (fun _ _ => inl (HttpCircuitOpenError "push" 1)) in
  nc_isConfigured push = true /\
  nc_send push exampleRecipient exampleNotification = inl (NotificationChannelError Push (js "Push is not configured. Set EXPO_ACCESS_TOKEN.") None 503).
Proof. split; reflexivity. Qed.
