(* ===== verification/Storage.v ===== *)
(** * Storage: object keys, the port and the store in a map

    [storage/object-key.ts], [storage/list-options.ts],
    [storage/ports/storage-adapter.port.ts], [storage/storage.errors.ts],
    [storage/adapters/in-memory-storage.adapter.ts] and
    [storage/storage.service.ts].  The adapter on the disk is in [DiskStorage].
    MD5 is a parameter. *)

From Stdlib Require Import QArith Qround.
From S2P Require Import Prelude Text Json.

#[global] Open Scope Z_scope.

(** ** Errors *)

Inductive StorageAdapterName := S3 | Local | Memory.

#[export] Instance StorageAdapterName_eq : EqDecision StorageAdapterName.
Proof. solve_decision. Defined.

Inductive StorageError :=
  | ObjectNotFoundError (key : JSText)
  | InvalidObjectKeyError (key : JSText) (reason : JSText)
  | InvalidObjectMetadataError (reason : JSText)
  | StorageNotConfiguredError (adapter : StorageAdapterName) (requiredEnv : list string)
  | PresignedUrlsUnsupportedError (adapter : StorageAdapterName)
  | StorageOperationError (adapter : StorageAdapterName) (operation : JSText) (upstreamCode : string)
  | UncaughtErrno (code : string)
  | BootError (message : JSText).

(** ** Keys *)

Definition MAX_KEY_BYTES : nat := 1024.
Definition MAX_KEY_SEGMENT_BYTES : nat := 255.
Definition MAX_METADATA_BYTES : nat := 2048.

Definition slash : N := 47.

(** [key.split("/")] *)
Fixpoint splitSlash (key : JSText) : list JSText :=
  match key with
  | [] => [[]]
  | c :: rest =>
      if decide (c = slash) then [] :: splitSlash rest
      else match splitSlash rest with
           | segment :: more => (c :: segment) :: more
           | [] => [[c]]
           end
  end.

Definition isControl (c : N) : bool := bool_decide (c <= 31)%N || bool_decide (c = 127)%N.
Definition isLetter (c : N) : bool := bool_decide (65 <= c <= 90)%N || bool_decide (97 <= c <= 122)%N.

Definition dot : JSText := js ".".
Definition dotdot : JSText := js "..".

(** The loop over the segments: what is wrong with the first bad one. *)
Fixpoint badSegment (segments : list JSText) : option JSText :=
  match segments with
  | [] => None
  | segment :: rest =>
      if decide (segment = []) then Some (js "key must not contain an empty path segment")
      else if decide (segment = dot \/ segment = dotdot) then Some (js "key must not contain '.' or '..' segments")
      else if decide (MAX_KEY_SEGMENT_BYTES < byteLength segment)%nat then
        Some (js ("key segment is " +:+ pretty (byteLength segment) +:+ " bytes, over the " +:+ pretty MAX_KEY_SEGMENT_BYTES +:+
                  "-byte limit a filesystem allows for one path component"))
      else if decide (segment <> trimText segment) then Some (js "key segments must not have leading or trailing spaces")
      else badSegment rest
  end.

Definition startsWithDrive (key : JSText) : bool :=
  match key with c :: 58%N :: _ => isLetter c | _ => false end.

Definition assertValidObjectKey (key : JSText) : StorageError + JSText :=
  let refuse reason := inl (InvalidObjectKeyError key reason) in
  if decide (key = []) then refuse (js "key must be a non-empty string")
  else if decide (MAX_KEY_BYTES < byteLength key)%nat then
    refuse (js ("key is " +:+ pretty (byteLength key) +:+ " bytes, over the " +:+ pretty MAX_KEY_BYTES +:+ "-byte limit"))
  else if existsb isControl key then refuse (js "key contains control characters")
  else if decide (92%N ∈ key) then refuse (js "key must not contain a backslash")
  else if decide (head key = Some slash) then refuse (js "key must be relative, not start with '/'")
  else if decide (last key = Some slash) then refuse (js "key must not end with '/'")
  else match badSegment (splitSlash key) with
  | Some reason => refuse reason
  | None => if startsWithDrive key then refuse (js "key must not start with a drive letter") else inr key
  end.

(** ** Metadata *)

(** [toLowerCase] on a key that could pass the check below: the letters, and the
    Kelvin sign, which is the one character outside ASCII that becomes a single
    ASCII letter. *)
Definition lowerUnit (c : N) : N :=
  if decide (65 <= c <= 90)%N then (c + 32)%N else if decide (c = 8490)%N then 107%N else c.

Definition isLowerOrDigit (c : N) : bool := bool_decide (97 <= c <= 122)%N || isDigitUnit c.

(** [^[a-z0-9][a-z0-9-]*$] *)
Definition isHeaderName (t : JSText) : bool :=
  match t with c :: rest => isLowerOrDigit c && forallb (fun d => isLowerOrDigit d || bool_decide (d = 45%N)) rest | [] => false end.

Definition isPrintable (t : JSText) : bool := forallb (fun c => bool_decide (32 <= c <= 126)%N) t.

Definition ofText (t : JSText) : string := String.string_of_list_ascii (toText t).

Definition metadataError (reason : JSText) : StorageError := InvalidObjectMetadataError reason.

Fixpoint normalise_loop (entries : list (JSText * JSText)) (normalised : gmap string JSText) (bytes : nat) : StorageError + (gmap string JSText * nat) :=
  match entries with
  | [] => inr (normalised, bytes)
  | (rawKey, value) :: rest =>
      let key := lowerUnit <$> rawKey in
      if negb (isHeaderName key) then
        inl (metadataError (js ("key " +:+ dq) ++ rawKey ++ js (dq +:+ " must be alphanumeric with hyphens, as it becomes an HTTP header name")))
      else if decide (is_Some (normalised !! ofText key)) then
        inl (metadataError (js ("duplicate key " +:+ dq) ++ key ++ js (dq +:+ " after case normalisation")))
      else if negb (isPrintable value) then
        inl (metadataError (js ("value for " +:+ dq) ++ key ++ js (dq +:+ " must be printable ASCII, as it travels as an HTTP header")))
      else normalise_loop rest (<[ofText key := value]> normalised) (bytes + (byteLength key + byteLength value))
  end.

Definition normaliseMetadata (metadata : option (list (JSText * JSText))) : StorageError + gmap string JSText :=
  match metadata with
  | None => inr ∅
  | Some entries =>
      match normalise_loop entries ∅ 0 with
      | inl e => inl e
      | inr (normalised, bytes) =>
          if decide (MAX_METADATA_BYTES < bytes)%nat then
            inl (metadataError (js ("metadata is " +:+ pretty bytes +:+ " bytes, over the " +:+ pretty MAX_METADATA_BYTES +:+ "-byte limit")))
          else inr normalised
      end
  end.

(** ** The port *)

Definition Bytes : Type := list N.

Record StorageObject := {
  so_key : JSText; so_size : nat; so_contentType : JSText; so_etag : JSText; so_lastModified : Z; so_metadata : gmap string JSText;
}.

Record PutObjectOptions := { po_contentType : JSText; po_metadata : option (list (JSText * JSText)); po_cacheControl : option JSText }.

(** A limit is absent, not finite, or a number. *)
Record ListObjectsOptions := { lo_prefix : option JSText; lo_limit : option (option Q); lo_cursor : option JSText }.

Record ListObjectsPage := { lp_objects : list StorageObject; lp_nextCursor : option JSText }.

Definition LIST_OBJECTS_MAX_LIMIT : nat := 1000.

Definition clampListLimit (limit : option (option Q)) : nat :=
  match limit with
  | None => LIST_OBJECTS_MAX_LIMIT
  | Some None => 1
  | Some (Some q) => if decide (Qfloor q < 1) then 1 else Nat.min (Z.to_nat (Qfloor q)) LIST_OBJECTS_MAX_LIMIT
  end.

(** The order of JavaScript strings: by code units. *)
Fixpoint text_leb (s t : JSText) : bool :=
  match s, t with
  | [], _ => true
  | _ :: _, [] => false
  | c :: s, d :: t => if decide (c < d)%N then true else if decide (c = d) then text_leb s t else false
  end.
Definition text_le (s t : JSText) : Prop := text_leb s t = true.
Definition text_lt (s t : JSText) : Prop := text_le s t /\ s <> t.

#[export] Instance text_le_dec : RelDecision text_le.
Proof. intros s t. unfold text_le. apply _. Defined.
#[export] Instance text_lt_dec : RelDecision text_lt.
Proof. intros s t. unfold text_lt. apply _. Defined.

(** [key.startsWith(prefix)] *)
Definition startsWith (key prefix : JSText) : Prop := prefix `prefix_of` key.

(** The filter of both listings. *)
Definition listed (options : ListObjectsOptions) (key : JSText) : Prop :=
  default [] (lo_prefix options) `prefix_of` key /\ match lo_cursor options with None => True | Some cursor => text_lt cursor key end.

#[export] Instance listed_dec options key : Decision (listed options key).
Proof. unfold listed. destruct (lo_cursor options); apply _. Defined.

(** The cursor of a page of [matching] cut at [limit]. *)
Definition nextCursor (limit : nat) (matching : list JSText) : option JSText :=
  if decide (limit < length matching)%nat then last (take limit matching) else None.

Record StorageAdapter (W : Type) := {
  sa_name : StorageAdapterName;
  sa_isConfigured : bool;
  sa_put : JSText -> Bytes -> PutObjectOptions -> Eff W StorageError StorageObject;
  sa_get : JSText -> Eff W StorageError (StorageObject * Bytes);
  sa_getStream : JSText -> Eff W StorageError (StorageObject * Bytes);
  sa_head : JSText -> Eff W StorageError StorageObject;
  sa_exists : JSText -> Eff W StorageError bool;
  sa_delete : JSText -> Eff W StorageError unit;
  sa_list : ListObjectsOptions -> Eff W StorageError ListObjectsPage;
}.
Arguments sa_name {W}. Arguments sa_isConfigured {W}. Arguments sa_put {W}. Arguments sa_get {W}. Arguments sa_getStream {W}.
Arguments sa_head {W}. Arguments sa_exists {W}. Arguments sa_delete {W}. Arguments sa_list {W}.

(** What [assertValidObjectKey] and the like throw, in the monad. *)
Definition throwing {W A} (r : StorageError + A) : Eff W StorageError A := fun w => (r, w).

(** ** The store in a map *)

Record StoredEntry := { se_body : Bytes; se_object : StorageObject }.

Record MemoryStore := { ms_objects : gmap JSText StoredEntry; ms_now : Z }.

Definition with_objects (objects : gmap JSText StoredEntry) (m : MemoryStore) : MemoryStore := {| ms_objects := objects; ms_now := ms_now m |}.

(** Sorted by key. *)
Definition sortKeys : list JSText -> list JSText := merge_sort text_le.

Section memory.
Context (md5 : Bytes -> JSText).

Definition etagOf (body : Bytes) : JSText := js dq ++ md5 body ++ js dq.

Definition memory_require (key : JSText) : Eff MemoryStore StorageError StoredEntry :=
  let! _ := throwing (assertValidObjectKey key) in
  let! entry := reads (fun m => ms_objects m !! key) in
  throwing (match entry with Some e => inr e | None => inl (ObjectNotFoundError key) end).

Definition memory_put (key : JSText) (body : Bytes) (options : PutObjectOptions) : Eff MemoryStore StorageError StorageObject :=
  let! _ := throwing (assertValidObjectKey key) in
  let! metadata := throwing (normaliseMetadata (po_metadata options)) in
  let! now := reads ms_now in
  let object := {| so_key := key; so_size := length body; so_contentType := po_contentType options; so_etag := etagOf body;
                   so_lastModified := now; so_metadata := metadata |} in
  do! modify (fun m => with_objects (<[key := {| se_body := body; se_object := object |}]> (ms_objects m)) m) in
  ret object.

Definition memory_get (key : JSText) : Eff MemoryStore StorageError (StorageObject * Bytes) :=
  let! entry := memory_require key in ret (se_object entry, se_body entry).

Definition memory_head (key : JSText) : Eff MemoryStore StorageError StorageObject :=
  let! entry := memory_require key in ret (se_object entry).

Definition memory_exists (key : JSText) : Eff MemoryStore StorageError bool :=
  let! _ := throwing (assertValidObjectKey key) in
  reads (fun m => bool_decide (is_Some (ms_objects m !! key))).

Definition memory_delete (key : JSText) : Eff MemoryStore StorageError unit :=
  let! _ := throwing (assertValidObjectKey key) in
  modify (fun m => with_objects (delete key (ms_objects m)) m).

Definition object_le (a b : StorageObject) : Prop := text_le (so_key a) (so_key b).
#[export] Instance object_le_dec : RelDecision object_le.
Proof. intros a b. unfold object_le. apply _. Defined.

Definition memory_list (options : ListObjectsOptions) : Eff MemoryStore StorageError ListObjectsPage :=
  let limit := clampListLimit (lo_limit options) in
  let! stored := reads ms_objects in
  let matching := merge_sort object_le (filter (fun o => listed options (so_key o)) (se_object <$> (map_to_list stored).*2)) in
  let objects := take limit matching in
  ret {| lp_objects := objects;
         lp_nextCursor := if decide (limit < length matching)%nat then so_key <$> last objects else None |}.

Definition InMemoryStorageAdapter : StorageAdapter MemoryStore := {|
  sa_name := Memory; sa_isConfigured := true;
  sa_put := memory_put; sa_get := memory_get; sa_getStream := memory_get; sa_head := memory_head;
  sa_exists := memory_exists; sa_delete := memory_delete; sa_list := memory_list |}.
End memory.

(** ** The service *)

Definition STORAGE_ADAPTER_NAMES : list (string * StorageAdapterName) := [("s3", S3); ("local", Local); ("memory", Memory)]%string.

Definition name_text (name : StorageAdapterName) : string := match name with S3 => "s3" | Local => "local" | Memory => "memory" end.

Definition storageAdapterName (value : string) : option StorageAdapterName :=
  snd <$> List.find (fun p => bool_decide (p.1 = value)) STORAGE_ADAPTER_NAMES.

Definition requiredEnvFor (name : StorageAdapterName) : list string :=
  match name with
  | S3 => ["S3_BUCKET"; "S3_ACCESS_KEY_ID"; "S3_SECRET_ACCESS_KEY"]
  | Local => ["STORAGE_LOCAL_ROOT"]
  | Memory => []
  end%string.

(** Adapters of any world, and whether each can presign. *)
Record RegisteredAdapter := { ra_world : Type; ra_adapter : StorageAdapter ra_world; ra_presigns : bool }.
Definition ra_name (r : RegisteredAdapter) : StorageAdapterName := sa_name (ra_adapter r).

Fixpoint registerAdapters (adapters registry : list RegisteredAdapter) : StorageError + list RegisteredAdapter :=
  match adapters with
  | [] => inr registry
  | adapter :: rest =>
      if decide (ra_name adapter ∈ ra_name <$> registry) then
        inl (BootError (js ("Duplicate storage adapter registered for name " +:+ dq +:+ name_text (ra_name adapter) +:+ dq)))
      else registerAdapters rest (registry ++ [adapter])
  end.

Definition selectAdapter (setting : option string) (adapters : list RegisteredAdapter) : StorageError + RegisteredAdapter :=
  match registerAdapters adapters [] with
  | inl e => inl e
  | inr registry =>
      let configured := default "memory"%string setting in
      match storageAdapterName configured ≫= (fun name => List.find (fun r => bool_decide (ra_name r = name)) registry) with
      | None => inl (BootError (js ("STORAGE_ADAPTER is " +:+ dq +:+ configured +:+ dq +:+ ", which is not a registered adapter (") ++
                                join (js ", ") ((fun r => js (name_text (ra_name r))) <$> registry) ++ js ")"))
      | Some selected =>
          if sa_isConfigured (ra_adapter selected) then inr selected
          else inl (StorageNotConfiguredError (ra_name selected) (requiredEnvFor (ra_name selected)))
      end
  end.

Definition requirePresigning (r : RegisteredAdapter) : StorageError + RegisteredAdapter :=
  if ra_presigns r then inr r else inl (PresignedUrlsUnsupportedError (ra_name r)).

Definition uploadBuffer {W} (a : StorageAdapter W) (key : JSText) (buffer : Bytes) (contentType : JSText) : Eff W StorageError JSText :=
  let! stored := sa_put a key buffer {| po_contentType := contentType; po_metadata := None; po_cacheControl := None |} in
  ret (so_key stored).

(** ** What the port promises *)

(** An object as the specification keeps it, and what a caller sees of it:
    everything but the time. *)
Record Stored := { st_body : Bytes; st_contentType : JSText; st_metadata : gmap string JSText; st_cacheControl : option JSText }.

Record ObjectView := { ov_key : JSText; ov_size : nat; ov_contentType : JSText; ov_etag : JSText; ov_metadata : gmap string JSText }.

Definition view (o : StorageObject) : ObjectView :=
  {| ov_key := so_key o; ov_size := so_size o; ov_contentType := so_contentType o; ov_etag := so_etag o; ov_metadata := so_metadata o |}.

Arguments view : simpl never.

(** A flat keyspace. *)
Abbreviation FlatStore := (gmap JSText Stored).

Inductive StorageOp :=
  | OpPut (key : JSText) (body : Bytes) (options : PutObjectOptions)
  | OpGet (key : JSText) | OpGetStream (key : JSText) | OpHead (key : JSText) | OpExists (key : JSText) | OpDelete (key : JSText)
  | OpList (options : ListObjectsOptions).

Inductive Answer :=
  | APut (o : ObjectView) | AGet (o : ObjectView) (body : Bytes) | AHead (o : ObjectView) | AExists (b : bool) | ADelete
  | AList (objects : list ObjectView) (next : option JSText).

Definition run_op {W} (a : StorageAdapter W) (op : StorageOp) : Eff W StorageError Answer :=
  match op with
  | OpPut key body options => let! o := sa_put a key body options in ret (APut (view o))
  | OpGet key => let! r := sa_get a key in ret (AGet (view r.1) r.2)
  | OpGetStream key => let! r := sa_getStream a key in ret (AGet (view r.1) r.2)
  | OpHead key => let! o := sa_head a key in ret (AHead (view o))
  | OpExists key => let! b := sa_exists a key in ret (AExists b)
  | OpDelete key => let! _ := sa_delete a key in ret ADelete
  | OpList options => let! page := sa_list a options in ret (AList (view <$> lp_objects page) (lp_nextCursor page))
  end.

Section spec.
Context (md5 : Bytes -> JSText).

Definition stored_view (key : JSText) (o : Stored) : ObjectView :=
  {| ov_key := key; ov_size := length (st_body o); ov_contentType := st_contentType o; ov_etag := etagOf md5 (st_body o); ov_metadata := st_metadata o |}.

Arguments stored_view : simpl never.

(** The keys a listing would give if it had no limit. *)
Definition matching_keys (options : ListObjectsOptions) (s : FlatStore) : list JSText :=
  sortKeys (filter (listed options) (map_to_list s).*1).

Definition spec_list (options : ListObjectsOptions) (s : FlatStore) : Answer :=
  let limit := clampListLimit (lo_limit options) in
  let matching := matching_keys options s in
  AList (omap (fun key => stored_view key <$> s !! key) (take limit matching)) (nextCursor limit matching).

Definition spec_find {A} (key : JSText) (f : Stored -> A) : Eff FlatStore StorageError A :=
  let! _ := throwing (assertValidObjectKey key) in
  let! found := reads (fun s : FlatStore => s !! key) in
  throwing (match found with Some o => inr (f o) | None => inl (ObjectNotFoundError key) end).

Definition spec_op (op : StorageOp) : Eff FlatStore StorageError Answer :=
  match op with
  | OpPut key body options =>
      let! _ := throwing (assertValidObjectKey key) in
      let! metadata := throwing (normaliseMetadata (po_metadata options)) in
      let o := {| st_body := body; st_contentType := po_contentType options; st_metadata := metadata; st_cacheControl := po_cacheControl options |} in
      do! modify (fun s : FlatStore => <[key := o]> s) in ret (APut (stored_view key o))
  | OpGet key | OpGetStream key => spec_find key (fun o => AGet (stored_view key o) (st_body o))
  | OpHead key => spec_find key (fun o => AHead (stored_view key o))
  | OpExists key =>
      let! _ := throwing (assertValidObjectKey key) in
      reads (fun s : FlatStore => AExists (bool_decide (is_Some (s !! key))))
  | OpDelete key =>
      let! _ := throwing (assertValidObjectKey key) in
      do! modify (fun s : FlatStore => delete key s) in ret ADelete
  | OpList options => reads (spec_list options)
  end.

(** What an adapter owes its callers, for the operations it accepts: the answers
    of the flat keyspace, errors included. *)
Class StorageContract {W} (a : StorageAdapter W) (accepts : StorageOp -> Prop) := {
  represents : W -> FlatStore -> Prop;
  contract_step op w s : accepts op -> represents w s ->
    (run_op a op w).1 = (spec_op op s).1 /\ represents (run_op a op w).2 (spec_op op s).2;
}.
End spec.

Arguments represents {md5 W a accepts _} w s.
Arguments contract_step {md5 W a accepts _} op w s.

(** ** The order of keys *)

Lemma text_leb_refl s : text_leb s s = true.
Proof. induction s as [|c s IH]; [done|]. simpl. rewrite decide_False by lia. by rewrite decide_True. Qed.

#[export] Instance text_le_total : Total text_le.
Proof.
  intros s. unfold text_le. induction s as [|c s IH]; intros [|d t]; simpl; [by left..|by right|].
  destruct (decide (c < d)%N); [by left|]. destruct (decide (c = d)) as [->|].
  - rewrite decide_False by lia. rewrite decide_True by done. apply IH.
  - right. by rewrite decide_True by lia.
Qed.

#[export] Instance text_le_trans : Transitive text_le.
Proof.
  unfold text_le. intros r. induction r as [|b r IH]; intros [|c s] [|d t]; simpl; try done.
  repeat case_decide; try done; try lia; intros; subst; try lia. by eapply IH.
Qed.

#[export] Instance text_le_antisymm : AntiSymm (=) text_le.
Proof.
  unfold text_le. intros s. induction s as [|c s IH]; intros [|d t]; simpl; try done.
  repeat case_decide; try done; try lia. intros. f_equal; [done|by apply IH].
Qed.

Lemma text_lt_le s t : text_lt s t <-> ~ text_le t s.
Proof.
  unfold text_lt. split.
  - intros [H Hn] H'. apply Hn. by apply (anti_symm text_le).
  - intros H. destruct (total text_le s t) as [?|?]; [|done]. split; [done|]. intros ->. by apply H.
Qed.

#[export] Instance text_lt_trans : Transitive text_lt.
Proof.
  intros r s t [H1 N1] [H2 N2]. split; [by etrans|]. intros ->. apply N1. by apply (anti_symm text_le).
Qed.

Lemma text_lt_irrefl s : ~ text_lt s s.
Proof. intros [_ H]. done. Qed.

(** Sorting forgets the order its input came in. *)
Lemma sortKeys_perm k l : k ≡ₚ l -> sortKeys k = sortKeys l.
Proof.
  intros H. apply (Sorted_unique text_le); [apply (Sorted_merge_sort _)..|].
  unfold sortKeys. by rewrite !merge_sort_Permutation.
Qed.

Lemma sorted_strictly l : NoDup l -> StronglySorted text_le l -> StronglySorted text_lt l.
Proof.
  intros Hnd. induction 1 as [|x l Hs IH Hall]; [constructor|]. apply NoDup_cons in Hnd as [Hx Hnd].
  constructor; [by apply IH|]. rewrite Forall_forall in Hall |- *. intros y Hy. split; [by apply Hall|]. intros ->. done.
Qed.

Lemma matching_sorted options s : StronglySorted text_lt (matching_keys options s).
Proof.
  apply sorted_strictly.
  - unfold matching_keys, sortKeys. rewrite merge_sort_Permutation. apply NoDup_filter, NoDup_fst_map_to_list.
  - apply (Sorted_StronglySorted _), (Sorted_merge_sort _).
Qed.

Lemma elem_of_matching (options : ListObjectsOptions) (s : FlatStore) (key : JSText) : key ∈ matching_keys options s <-> listed options key /\ is_Some (s !! key).
Proof.
  unfold matching_keys, sortKeys. rewrite merge_sort_Permutation, list_elem_of_filter. apply and_iff_compat_l.
  rewrite list_elem_of_fmap. split.
  - intros ([k o] & -> & Hk%elem_of_map_to_list). by exists o.
  - intros [o Ho]. exists (key, o). split; [done|by apply elem_of_map_to_list].
Qed.

#[export] Instance object_le_total : Total object_le.
Proof. intros a b. unfold object_le. apply (total text_le). Qed.

(** ** The map keeps the contract *)

Definition memory_stored (e : StoredEntry) : Stored :=
  {| st_body := se_body e; st_contentType := so_contentType (se_object e); st_metadata := so_metadata (se_object e); st_cacheControl := None |}.

(** Up to the [Cache-Control] this adapter ignores. *)
Definition uncached (o : Stored) : Stored :=
  {| st_body := st_body o; st_contentType := st_contentType o; st_metadata := st_metadata o; st_cacheControl := None |}.

Section memory_contract.
Context (md5 : Bytes -> JSText).

Definition memory_represents (m : MemoryStore) (s : FlatStore) : Prop :=
  memory_stored <$> ms_objects m = uncached <$> s /\
  forall key e, ms_objects m !! key = Some e -> view (se_object e) = stored_view md5 key (memory_stored e).

Lemma memory_lookup m s key : memory_represents m s ->
  match ms_objects m !! key with
  | Some e => exists o, s !! key = Some o /\ se_body e = st_body o /\ view (se_object e) = stored_view md5 key o
  | None => s !! key = None
  end.
Proof.
  intros [Hm Hv]. assert (memory_stored <$> (ms_objects m !! key) = uncached <$> (s !! key)) as H.
  { by rewrite <- (lookup_fmap memory_stored), <- (lookup_fmap uncached), Hm. }
  destruct (ms_objects m !! key) as [e|] eqn:He; destruct (s !! key) as [o|]; try done. exists o. apply (inj Some) in H.
  rewrite (Hv key e He). unfold memory_stored, uncached in H. injection H as H1 H2 H3. split_and!; [done|done|].
  unfold stored_view, memory_stored. cbn. by rewrite H1, H2, H3.
Qed.

Lemma memory_keys m s : memory_represents m s -> (map_to_list (ms_objects m)).*1 ≡ₚ (map_to_list s).*1.
Proof.
  intros Hr. apply NoDup_Permutation; [apply NoDup_fst_map_to_list..|]. intros key.
  pose proof (memory_lookup m s key Hr) as H. rewrite !list_elem_of_fmap. split; intros ([k v] & -> & Hk%elem_of_map_to_list); cbn in *.
  - rewrite Hk in H. destruct H as (o & Ho & _). exists (k, o). by rewrite elem_of_map_to_list.
  - destruct (ms_objects m !! k) as [e|] eqn:He; [|by rewrite Hk in H]. exists (k, e). by rewrite elem_of_map_to_list.
Qed.

Lemma memory_object_keys m s : memory_represents m s ->
  so_key <$> (se_object <$> (map_to_list (ms_objects m)).*2) = (map_to_list (ms_objects m)).*1.
Proof.
  intros [_ Hv]. assert (forall l, (forall k e, (k, e) ∈ l -> so_key (se_object e) = k) -> so_key <$> (se_object <$> l.*2) = l.*1) as H.
  { induction l as [|[k e] l IH]; intros Hl; [done|]. cbn in *. f_equal; [apply Hl; left|]. apply IH. intros k' e' Hin. apply Hl. by right. }
  apply H. intros k e He%elem_of_map_to_list. by injection (Hv k e He).
Qed.

Lemma filter_fmap_key {A} (f : A -> JSText) (P : JSText -> Prop) `{!forall x, Decision (P x)} (l : list A) :
  f <$> filter (fun o => P (f o)) l = filter P (f <$> l).
Proof. induction l as [|x l IH]; [done|]. rewrite filter_cons, fmap_cons, filter_cons. case_decide; cbn; by rewrite IH. Qed.

Lemma memory_matching m s options : memory_represents m s ->
  let matching := merge_sort object_le (filter (fun o => listed options (so_key o)) (se_object <$> (map_to_list (ms_objects m)).*2)) in
  so_key <$> matching = matching_keys options s /\
  Forall (fun o => exists d, s !! so_key o = Some d /\ view o = stored_view md5 (so_key o) d) matching.
Proof.
  intros Hr matching. split.
  - apply (Sorted_unique text_le).
    + assert (Sorted object_le matching) as Hs by apply (Sorted_merge_sort _).
      induction Hs as [|o l _ IH Hd]; cbn; constructor; [done|]. destruct Hd; by constructor.
    + apply (Sorted_merge_sort _).
    + unfold matching, matching_keys, sortKeys. rewrite !merge_sort_Permutation, filter_fmap_key.
      rewrite (memory_object_keys m s Hr). by rewrite (memory_keys m s Hr).
  - apply Forall_forall. intros o. unfold matching. rewrite merge_sort_Permutation, list_elem_of_filter.
    rewrite list_elem_of_fmap. intros (_ & e & -> & He). apply list_elem_of_fmap in He as ([k e'] & -> & He%elem_of_map_to_list). cbn in *.
    pose proof (memory_lookup m s k Hr) as Hk. rewrite He in Hk. destruct Hk as (d & Hd & _ & Hview).
    assert (so_key (se_object e') = k) as -> by (by injection Hview). by exists d.
Qed.

Lemma omap_views s (l : list StorageObject) :
  Forall (fun o => exists d, s !! so_key o = Some d /\ view o = stored_view md5 (so_key o) d) l ->
  omap (fun key => stored_view md5 key <$> (s : FlatStore) !! key) (so_key <$> l) = view <$> l.
Proof. induction 1 as [|o l (d & Hd & Hv) _ IH]; [done|]. cbn. rewrite Hd. cbn. by rewrite IH, Hv. Qed.

Lemma memory_put_step m s key body options : memory_represents m s ->
  (run_op (InMemoryStorageAdapter md5) (OpPut key body options) m).1 = (spec_op md5 (OpPut key body options) s).1 /\
  memory_represents (run_op (InMemoryStorageAdapter md5) (OpPut key body options) m).2 (spec_op md5 (OpPut key body options) s).2.
Proof.
  intros [Hm Hv]. cbn. unfold memory_put, bind, throwing. destruct (assertValidObjectKey key); [done|].
  destruct (normaliseMetadata (po_metadata options)) as [|metadata]; [done|]. cbn. split; [done|]. split; cbn.
  - by rewrite !fmap_insert, Hm.
  - intros k e. rewrite lookup_insert_Some. intros [[<- <-]|[_ He]]; [done|by apply Hv].
Qed.

Lemma memory_list_step m s options : memory_represents m s ->
  (run_op (InMemoryStorageAdapter md5) (OpList options) m).1 = inr (spec_list md5 options s).
Proof.
  intros Hr. destruct (memory_matching m s options Hr) as [Hk Hall]. cbn. unfold spec_list, nextCursor. rewrite <- Hk, length_fmap.
  do 2 f_equal.
  - rewrite <- fmap_take. by rewrite omap_views by by apply Forall_take.
  - case_decide; [|done]. by rewrite <- fmap_take, fmap_last.
Qed.

#[export] Instance memory_contract : StorageContract md5 (InMemoryStorageAdapter md5) (fun _ => True).
Proof.
  refine {| represents := memory_represents |}. intros op m s _ Hr.
  destruct op as [key body options|key|key|key|key|key|options]; [by apply memory_put_step|..].
  1-3: cbn; unfold memory_get, memory_head, memory_require, spec_find, bind, throwing; destruct (assertValidObjectKey key); [done|]; cbn;
    pose proof (memory_lookup m s key Hr) as Hk; destruct (ms_objects m !! key) as [e|]; [|by rewrite Hk];
    destruct Hk as (o & -> & Hb & Hview); cbn; by rewrite ?Hview, ?Hb.
  - cbn. unfold memory_exists, bind, throwing. destruct (assertValidObjectKey key); [done|]. cbn. split; [|done].
    pose proof (memory_lookup m s key Hr) as Hk. destruct (ms_objects m !! key) as [e|]; [|by rewrite Hk].
    by destruct Hk as (o & -> & _).
  - cbn. unfold memory_delete, bind, throwing. destruct (assertValidObjectKey key); [done|]. cbn. split; [done|].
    destruct Hr as [Hm Hv]. split; cbn; [by rewrite !fmap_delete, Hm|].
    intros k e [_ He]%lookup_delete_Some. by apply Hv.
  - split; [by apply memory_list_step|done].
Defined.
End memory_contract.

(** ** Listing page by page *)

Definition after (options : ListObjectsOptions) (cursor : JSText) : ListObjectsOptions :=
  {| lo_prefix := lo_prefix options; lo_limit := lo_limit options; lo_cursor := Some cursor |}.

Definition run_ops {W} (a : StorageAdapter W) (ops : list StorageOp) (w : W) : W := foldl (fun w op => (run_op a op w).2) w ops.

Definition spec_ops (md5 : Bytes -> JSText) (ops : list StorageOp) (s : FlatStore) : FlatStore := foldl (fun s op => (spec_op md5 op s).2) s ops.

(** What the callers of a sequence of operations are told. *)
Fixpoint answers {W} (a : StorageAdapter W) (ops : list StorageOp) (w : W) : list (StorageError + Answer) :=
  match ops with
  | [] => []
  | op :: rest => (run_op a op w).1 :: answers a rest (run_op a op w).2
  end.

Fixpoint spec_answers (md5 : Bytes -> JSText) (ops : list StorageOp) (s : FlatStore) : list (StorageError + Answer) :=
  match ops with
  | [] => []
  | op :: rest => (spec_op md5 op s).1 :: spec_answers md5 rest (spec_op md5 op s).2
  end.

(** Follows the cursors, a page for each element of [others], which are the
    calls that others make after that page; the keys, and whether the last
    cursor was [null]. *)
Fixpoint drain {W} (a : StorageAdapter W) (options : ListObjectsOptions) (others : list (list StorageOp)) (w : W) : list JSText * bool :=
  match others with
  | [] => ([], false)
  | ops :: rest =>
      match sa_list a options w with
      | (inl _, _) => ([], false)
      | (inr page, w) =>
          let keys := so_key <$> lp_objects page in
          match lp_nextCursor page with
          | None => (keys, true)
          | Some cursor =>
              let '(more, done) := drain a (after options cursor) rest (run_ops a ops w) in (keys ++ more, done)
          end
      end
  end.

(** The specification's walk. *)
Fixpoint spec_drain (md5 : Bytes -> JSText) (options : ListObjectsOptions) (others : list (list StorageOp)) (s : FlatStore) : list JSText * bool :=
  match others with
  | [] => ([], false)
  | ops :: rest =>
      let limit := clampListLimit (lo_limit options) in
      let matching := matching_keys options s in
      match nextCursor limit matching with
      | None => (take limit matching, true)
      | Some cursor =>
          let '(more, done) := spec_drain md5 (after options cursor) rest (spec_ops md5 ops s) in (take limit matching ++ more, done)
      end
  end.

Section paging.
Context (md5 : Bytes -> JSText) {W : Type} (a : StorageAdapter W) (accepts : StorageOp -> Prop) `{!StorageContract md5 a accepts}.

Lemma contract_ops ops : forall w s, Forall accepts ops -> represents w s -> represents (run_ops a ops w) (spec_ops md5 ops s).
Proof.
  induction ops as [|op ops IH]; intros w s Hall Hr; [done|]. apply Forall_cons in Hall as [Hop Hall]. cbn.
  apply IH; [done|]. by apply contract_step.
Qed.

Lemma contract_answers ops : forall w s, Forall accepts ops -> represents w s -> answers a ops w = spec_answers md5 ops s.
Proof.
  induction ops as [|op ops IH]; intros w s Hall Hr; [done|]. apply Forall_cons in Hall as [Hop Hall]. cbn.
  destruct (contract_step op w s Hop Hr) as [-> Hr']. f_equal. by apply IH.
Qed.

Lemma listed_views (s : FlatStore) (keys : list JSText) : Forall (fun key => is_Some (s !! key)) keys ->
  ov_key <$> omap (fun key => stored_view md5 key <$> s !! key) keys = keys.
Proof. induction 1 as [|key keys [o Ho] _ IH]; [done|]. cbn. rewrite Ho. cbn. by rewrite IH. Qed.

Lemma matching_present (options : ListObjectsOptions) (s : FlatStore) (n : nat) : Forall (fun key => is_Some (s !! key)) (take n (matching_keys options s)).
Proof. apply Forall_take, Forall_forall. intros key. by rewrite elem_of_matching; intros [_ ?]. Qed.

(** A page of any adapter with the contract is the specification's. *)
Lemma contract_page options w s : accepts (OpList options) -> represents w s ->
  exists page w', sa_list a options w = (inr page, w') /\ represents w' s /\
    so_key <$> lp_objects page = take (clampListLimit (lo_limit options)) (matching_keys options s) /\
    lp_nextCursor page = nextCursor (clampListLimit (lo_limit options)) (matching_keys options s).
Proof.
  intros Hop Hr. destruct (contract_step (OpList options) w s Hop Hr) as [H1 H2]. cbn in *. unfold bind in *.
  destruct (sa_list a options w) as [[e|page] w'] eqn:Hl; [done|]. cbn in *. exists page, w'. injection H1 as Hv Hc. split_and!; [done|done| |done].
  rewrite <- (listed_views s (take _ _)) by apply matching_present. rewrite <- Hv, <- list_fmap_compose. done.
Qed.

Lemma drain_spec others : forall options w s, (forall o, accepts (OpList o)) -> Forall (Forall accepts) others -> represents w s ->
  drain a options others w = spec_drain md5 options others s.
Proof.
  induction others as [|ops others IH]; intros options w s Hlist Hall Hr; [done|]. apply Forall_cons in Hall as [Hops Hall]. cbn.
  destruct (contract_page options w s (Hlist _) Hr) as (page & w' & -> & Hr' & Hk & Hc). rewrite Hc, Hk.
  destruct (nextCursor _ _) as [cursor|]; [|done]. rewrite (IH _ _ (spec_ops md5 ops s)); [done|done|done|by apply contract_ops].
Qed.
End paging.

(** A cut of a sorted list: what is before the cursor and what is after it. *)
Lemma nextCursor_cut (limit : nat) (l : list JSText) (cursor : JSText) :
  StronglySorted text_lt l -> nextCursor limit l = Some cursor ->
  (forall key, key ∈ take limit l -> text_le key cursor) /\ cursor ∈ take limit l /\
  (forall key, key ∈ l -> text_lt cursor key \/ key ∈ take limit l).
Proof.
  unfold nextCursor. case_decide as Hlen; [|done]. intros Hs Hc.
  apply last_Some in Hc as [front Ht]. rewrite Ht.
  assert (l = (front ++ [cursor]) ++ drop limit l) as Hl by by rewrite <- Ht, take_drop.
  rewrite Hl in Hs. apply StronglySorted_app in Hs as (Hcross & Hfront & _). apply StronglySorted_app in Hfront as (Hlast & _ & _).
  split_and!.
  - intros key Hk. apply elem_of_app in Hk as [Hk|Hk%list_elem_of_singleton]; [|subst; apply text_leb_refl].
    apply (Hlast key cursor Hk). by apply list_elem_of_singleton.
  - set_solver.
  - intros key Hk. rewrite Hl in Hk. apply elem_of_app in Hk as [Hk|Hk]; [by right|left].
    apply (Hcross cursor key); [set_solver|done].
Qed.

Section spec_paging.
Context (md5 : Bytes -> JSText).

Lemma spec_drain_sorted others : forall options s,
  StronglySorted text_lt (spec_drain md5 options others s).1 /\ (forall key, key ∈ (spec_drain md5 options others s).1 -> listed options key).
Proof.
  induction others as [|ops others IH]; intros options s; cbn; [by split; [constructor|intros key ?%elem_of_nil]|].
  pose proof (matching_sorted options s) as Hs.
  assert (forall key, key ∈ take (clampListLimit (lo_limit options)) (matching_keys options s) -> listed options key) as Hl.
  { intros key Hk. apply elem_of_take in Hk as (i & Hi & _). apply list_elem_of_lookup_2 in Hi. by apply elem_of_matching in Hi as [? _]. }
  assert (StronglySorted text_lt (take (clampListLimit (lo_limit options)) (matching_keys options s))) as Ht.
  { eapply (StronglySorted_app_1_l text_lt _ (drop _ _)). by rewrite take_drop. }
  destruct (nextCursor _ _) as [cursor|] eqn:Hc; [|by split].
  destruct (nextCursor_cut _ _ _ Hs Hc) as (Hle & Hin & _). destruct (IH (after options cursor) (spec_ops md5 ops s)) as [Hs' Hl'].
  destruct (spec_drain md5 (after options cursor) others (spec_ops md5 ops s)) as [more fin]. cbn in *. split.
  - apply StronglySorted_app. split_and!; [|done|done]. intros x1 x2 H1 H2. destruct (Hl' x2 H2) as [_ Hlt]. cbn in Hlt.
    destruct (decide (x1 = cursor)) as [->|Hne]; [done|]. trans cursor; [|done]. split; [by apply Hle|done].
  - intros key [Hk|Hk]%elem_of_app; [by apply Hl|]. destruct (Hl' key Hk) as [Hp Hlt]. cbn in *. split; [done|].
    destruct (Hl cursor Hin) as [_ Hcur]. destruct (lo_cursor options); [by trans cursor|done].
Qed.

Lemma spec_op_keeps (op : StorageOp) (s : FlatStore) (key : JSText) : op <> OpDelete key -> is_Some (s !! key) -> is_Some ((spec_op md5 op s).2 !! key).
Proof.
  intros Hop Hk. destruct op as [k body options|k|k|k|k|k|options]; cbn; unfold spec_find, bind, throwing;
    try (destruct (assertValidObjectKey k); [done|]); cbn; try done.
  - destruct (normaliseMetadata (po_metadata options)); [done|]. cbn. apply lookup_insert_is_Some. destruct (decide (k = key)); [by left|by right].
  - apply lookup_delete_is_Some. split; [|done]. intros ->. done.
Qed.

Lemma spec_ops_keep (ops : list StorageOp) : forall (s : FlatStore) (key : JSText), OpDelete key ∉ ops -> is_Some (s !! key) -> is_Some (spec_ops md5 ops s !! key).
Proof.
  induction ops as [|op ops IH]; intros s key Hn Hk; [done|]. apply not_elem_of_cons in Hn as [Hop Hn]. cbn.
  apply IH; [done|]. apply spec_op_keeps; [congruence|done].
Qed.

(** A key that was there from the start and that nobody deletes is on one of the pages. *)
Lemma spec_drain_complete (others : list (list StorageOp)) : forall (options : ListObjectsOptions) (s : FlatStore) (keys : list JSText) (key : JSText), spec_drain md5 options others s = (keys, true) ->
  listed options key -> is_Some (s !! key) -> Forall (fun ops => OpDelete key ∉ ops) others -> key ∈ keys.
Proof.
  induction others as [|ops others IH]; intros options s keys key; cbn; [done|]. intros Hd Hl Hk Hn. apply Forall_cons in Hn as [Hn Hns].
  assert (key ∈ matching_keys options s) as Hm by by apply elem_of_matching.
  destruct (nextCursor _ _) as [cursor|] eqn:Hc.
  - destruct (nextCursor_cut _ _ _ (matching_sorted options s) Hc) as (_ & _ & Hrest).
    destruct (spec_drain md5 (after options cursor) others (spec_ops md5 ops s)) as [more fin] eqn:Hmore. injection Hd as <- ->.
    destruct (Hrest key Hm) as [Hlt|Hin]; apply elem_of_app; [right|by left].
    eapply (IH _ _ _ _ Hmore); [|by apply spec_ops_keep|done]. split; [by destruct Hl|done].
  - injection Hd as <-. unfold nextCursor in Hc. case_decide as Hlen.
    + apply last_None in Hc. assert (length (take (clampListLimit (lo_limit options)) (matching_keys options s)) = 0%nat) as H0 by by rewrite Hc.
      rewrite length_take in H0. destruct (matching_keys options s) as [|? ?]; [by apply elem_of_nil in Hm|]. cbn in *.
      unfold clampListLimit, LIST_OBJECTS_MAX_LIMIT in *. repeat case_match; try case_decide; lia.
    + by rewrite take_ge by lia.
Qed.

Lemma clampListLimit_pos limit : (1 <= clampListLimit limit <= LIST_OBJECTS_MAX_LIMIT)%nat.
Proof. unfold clampListLimit, LIST_OBJECTS_MAX_LIMIT. repeat case_match; try case_decide; lia. Qed.

(** The page after a cursor starts where the page before it ended. *)
Lemma matching_after (options : ListObjectsOptions) (s : FlatStore) (cursor : JSText) :
  let limit := clampListLimit (lo_limit options) in
  nextCursor limit (matching_keys options s) = Some cursor ->
  matching_keys (after options cursor) s = drop limit (matching_keys options s).
Proof.
  intros limit Hc. pose proof (matching_sorted options s) as Hs. destruct (nextCursor_cut _ _ _ Hs Hc) as (Hle & Hin & Hrest).
  rewrite <- (take_drop limit (matching_keys options s)) in Hs. apply StronglySorted_app in Hs as (Hcross & _ & Hdrop).
  apply (StronglySorted_unique_strong text_lt).
  - intros x y _ _ Hxy Hyx. exfalso. apply (text_lt_irrefl x). by trans y.
  - apply matching_sorted.
  - done.
  - apply NoDup_Permutation.
    + unfold matching_keys, sortKeys. rewrite merge_sort_Permutation. apply NoDup_filter, NoDup_fst_map_to_list.
    + eapply (sublist_NoDup _ (matching_keys options s)); [|apply sublist_drop].
      unfold matching_keys, sortKeys. rewrite merge_sort_Permutation. apply NoDup_filter, NoDup_fst_map_to_list.
    + intros key. rewrite elem_of_matching. split.
      * intros [[Hp Hlt] Hk]. cbn in *. assert (key ∈ matching_keys options s) as Hm.
        { apply elem_of_matching. split; [split; [done|]|done]. apply elem_of_take in Hin as (i & Hi & _).
          apply list_elem_of_lookup_2, elem_of_matching in Hi as [[_ Hcur] _]. destruct (lo_cursor options); [by trans cursor|done]. }
        rewrite <- (take_drop limit (matching_keys options s)) in Hm. apply elem_of_app in Hm as [Hm|Hm]; [|done].
        exfalso. apply Hle in Hm. apply text_lt_le in Hlt. done.
      * intros Hk. assert (key ∈ matching_keys options s) as Hm by (rewrite <- (take_drop limit (matching_keys options s)); apply elem_of_app; by right).
        apply elem_of_matching in Hm as [[Hp _] Hsome]. split; [split; [done|]|done]. by apply Hcross.
Qed.

(** Undisturbed, the walk ends and has every key. *)
Lemma spec_drain_undisturbed n : forall options s, (length (matching_keys options s) < n)%nat ->
  spec_drain md5 options (replicate n []) s = (matching_keys options s, true).
Proof.
  induction n as [|n IH]; intros options s Hn; [lia|]. cbn.
  pose proof (clampListLimit_pos (lo_limit options)). set (limit := clampListLimit (lo_limit options)) in *.
  destruct (nextCursor limit (matching_keys options s)) as [cursor|] eqn:Hc.
  - pose proof (matching_after options s cursor Hc) as Hm. cbn zeta in Hm. fold limit in Hm.
    assert (limit < length (matching_keys options s))%nat by (unfold nextCursor in Hc; by case_decide).
    rewrite IH; rewrite Hm; [by rewrite take_drop|]. rewrite length_drop. lia.
  - unfold nextCursor in Hc. case_decide as Hlen; [|by rewrite take_ge by lia]. apply last_None in Hc.
    apply (f_equal length) in Hc. rewrite length_take in Hc. cbn in Hc. lia.
Qed.
End spec_paging.

(** Following the cursors of a listing gives each key once.  For every
    adapter that keeps the port's contract and whatever other calls land between
    the pages: the keys come in strictly ascending order, so none is repeated,
    and all have the prefix; when the last cursor is [null], every key that was
    there from the start and was not deleted meanwhile has been listed; and when
    nobody interferes, the walk ends after no more pages than there are keys,
    with all of them. *)
Theorem listing_each_key_once (md5 : Bytes -> JSText) {W : Type} (a : StorageAdapter W) (accepts : StorageOp -> Prop) `{!StorageContract md5 a accepts}
    (options : ListObjectsOptions) (others : list (list StorageOp)) (w : W) (s : FlatStore) :
  (forall o, accepts (OpList o)) -> Forall (Forall accepts) others -> represents w s -> lo_cursor options = None ->
  let '(keys, fin) := drain a options others w in
  StronglySorted text_lt keys /\
  (forall key, key ∈ keys -> default [] (lo_prefix options) `prefix_of` key) /\
  (fin = true -> forall key, default [] (lo_prefix options) `prefix_of` key -> is_Some (s !! key) ->
     Forall (fun ops => OpDelete key ∉ ops) others -> key ∈ keys) /\
  (forall n, others = replicate n [] -> (length (matching_keys options s) < n)%nat -> keys = matching_keys options s /\ fin = true).
Proof.
  intros Hlist Hall Hr Hcur. rewrite (drain_spec md5 a accepts others options w s Hlist Hall Hr).
  destruct (spec_drain_sorted md5 others options s) as [Hs Hl]. destruct (spec_drain md5 options others s) as [keys fin] eqn:Hd. cbn in *.
  split_and!; [done|by intros key [? _]%Hl| |].
  - intros -> key Hp Hk Hn. eapply spec_drain_complete; [done| |done|done]. split; [done|by rewrite Hcur].
  - intros n -> Hn. rewrite spec_drain_undisturbed in Hd by done. by injection Hd as <- <-.
Qed.

(** Three keys under a prefix and one outside; somebody deletes one that was
    listed already. *)
Definition sample_options : PutObjectOptions := {| po_contentType := js "text/plain"; po_metadata := None; po_cacheControl := None |}.
Definition sample_md5 (body : Bytes) : JSText := js "md5-" ++ body.
Definition sample_puts : list StorageOp :=
  (fun key => OpPut (js key) (js "x") sample_options) <$> ["a/2"; "a/1"; "a/3"; "b"]%string.
Definition sample_listing : ListObjectsOptions := {| lo_prefix := Some (js "a/"); lo_limit := Some (Some 1%Q); lo_cursor := None |}.
Definition empty_store : MemoryStore := {| ms_objects := ∅; ms_now := 0 |}.

Lemma empty_represents : memory_represents sample_md5 empty_store ∅.
Proof. split; [done|]. intros key e H. cbn in H. by apply lookup_empty_Some in H. Qed.

Lemma listing_each_key_once_witness :
  let a := InMemoryStorageAdapter sample_md5 in
  let '(keys, fin) := drain a sample_listing [[OpDelete (js "a/1")]; []; []] (run_ops a sample_puts empty_store) in
  keys = [js "a/1"; js "a/2"; js "a/3"] /\ fin = true /\ StronglySorted text_lt keys.
Proof.
  pose proof (listing_each_key_once sample_md5 (InMemoryStorageAdapter sample_md5) (fun _ => True) sample_listing
    [[OpDelete (js "a/1")]; []; []] (run_ops (InMemoryStorageAdapter sample_md5) sample_puts empty_store)
    (spec_ops sample_md5 sample_puts ∅) (fun _ => I)
    ltac:(repeat constructor) (contract_ops sample_md5 _ (fun _ => True) sample_puts empty_store ∅ ltac:(repeat constructor) empty_represents) eq_refl) as H.
  vm_compute in H |- *. split; [reflexivity|]. split; [reflexivity|]. exact (proj1 H).
Defined.

(** The order of code units is not the order of the bytes S3 sorts by: a
    character outside the basic plane comes before U+FFFF here and after it
    there. *)
Example order_is_not_by_bytes :
  let astral : JSText := [55296; 56320]%N in let last_of_plane : JSText := [65535]%N in
  text_lt astral last_of_plane /\ text_lt (utf8 last_of_plane) (utf8 astral).
Proof. split; (split; [reflexivity|done]). Qed.
