(* ===== verification/DiskStorage.v ===== *)
(** * DiskStorage: objects as directories on a disk

    [storage/adapters/local-disk-storage.adapter.ts].  The file system is a map
    from paths to nodes with the calls the adapter makes and their errors;
    every operation is a program of such calls, so that a fault, a crash or
    another process can come between any two of them.  MD5, [JSON] and
    [randomUUID] are parameters. *)

From S2P Require Import Prelude Text Json Storage.

(** ** The file system *)

(** The names from the root directory down. *)
Abbreviation Path := (list JSText).

Inductive Node := File (content : Bytes) (mtime : Z) | Directory.

Inductive Errno := ENOENT | ENOTDIR | EISDIR | ENOTEMPTY | EEXIST | OtherErrno (code : string).

#[export] Instance Errno_eq : EqDecision Errno.
Proof. solve_decision. Defined.

Definition errno_code (e : Errno) : string :=
  match e with ENOENT => "ENOENT" | ENOTDIR => "ENOTDIR" | EISDIR => "EISDIR" | ENOTEMPTY => "ENOTEMPTY" | EEXIST => "EEXIST" | OtherErrno c => c end.

Abbreviation Nodes := (gmap Path Node).

Record Fs := { fs_nodes : Nodes; fs_now : Z }.

Definition with_nodes (nodes : Nodes) (fs : Fs) : Fs := {| fs_nodes := nodes; fs_now := fs_now fs |}.

(** Name by name, as the kernel resolves a path. *)
Fixpoint lookupFrom (nodes : Nodes) (done rest : Path) : Errno + Node :=
  match nodes !! done with
  | None => inl ENOENT
  | Some node =>
      match rest with
      | [] => inr node
      | name :: rest => match node with Directory => lookupFrom nodes (done ++ [name]) rest | File _ _ => inl ENOTDIR end
      end
  end.

Definition lookupPath (nodes : Nodes) (p : Path) : Errno + Node := lookupFrom nodes [] p.

(** [mkdir] with [recursive]: every missing directory on the way. *)
Fixpoint mkdirFrom (nodes : Nodes) (done rest : Path) : Errno + Nodes :=
  match nodes !! done with
  | Some (File _ _) => inl (match rest with [] => EEXIST | _ => ENOTDIR end)
  | found =>
      let nodes := match found with None => <[done := Directory]> nodes | _ => nodes end in
      match rest with [] => inr nodes | name :: rest => mkdirFrom nodes (done ++ [name]) rest end
  end.

Fixpoint stripPrefix (p q : Path) : option Path :=
  match p, q with
  | [], _ => Some q
  | x :: p, y :: q => if decide (x = y) then stripPrefix p q else None
  | _ :: _, [] => None
  end.

Definition children (nodes : Nodes) (dir : Path) : list (JSText * Node) :=
  omap (fun pn => match stripPrefix dir pn.1 with Some [name] => Some (name, pn.2) | _ => None end) (map_to_list nodes).

Definition parent (p : Path) : Path := take (length p - 1) p.

Record Stats := { st_isFile : bool; st_size : nat; st_mtimeMs : Z }.

Inductive FsOp : Type -> Type :=
  | Stat (p : Path) : FsOp Stats
  | ReadFile (p : Path) : FsOp Bytes
  | WriteFile (p : Path) (data : Bytes) : FsOp unit
  | Rename (p q : Path) : FsOp unit
  | RmForce (p : Path) : FsOp unit
  | Rmdir (p : Path) : FsOp unit
  | Mkdirp (p : Path) : FsOp unit
  | Readdir (p : Path) : FsOp (list (JSText * bool)).

(** Whether a file can be created or replaced at [p]. *)
Definition writable (nodes : Nodes) (p : Path) : Errno + unit :=
  match lookupPath nodes (parent p) with
  | inl e => inl e
  | inr (File _ _) => inl ENOTDIR
  | inr Directory => match nodes !! p with Some Directory => inl EISDIR | _ => inr tt end
  end.

Arguments lookupPath : simpl never.
Arguments writable : simpl never.
Arguments children : simpl never.

Section calls.
(** What [stat] says of a directory's size and time. *)
Context (directoryStats : Path -> nat * Z).

Definition stats_of (p : Path) (n : Node) : Stats :=
  match n with
  | File content mtime => {| st_isFile := true; st_size := length content; st_mtimeMs := mtime |}
  | Directory => {| st_isFile := false; st_size := fst (directoryStats p); st_mtimeMs := snd (directoryStats p) |}
  end.

Definition perform {X} (op : FsOp X) (fs : Fs) : (Errno + X) * Fs :=
  let nodes := fs_nodes fs in
  match op in FsOp X return (Errno + X) * Fs with
  | Stat p => (match lookupPath nodes p with inl e => inl e | inr n => inr (stats_of p n) end, fs)
  | ReadFile p => (match lookupPath nodes p with inl e => inl e | inr Directory => inl EISDIR | inr (File content _) => inr content end, fs)
  | WriteFile p data =>
      match writable nodes p with
      | inl e => (inl e, fs)
      | inr _ => (inr tt, with_nodes (<[p := File data (fs_now fs)]> nodes) fs)
      end
  | Rename p q =>
      match lookupPath nodes p with
      | inl e => (inl e, fs)
      | inr n => match writable nodes q with
                 | inl e => (inl e, fs)
                 | inr _ => (inr tt, with_nodes (<[q := n]> (delete p nodes)) fs)
                 end
      end
  | RmForce p =>
      match lookupPath nodes p with
      | inl ENOENT => (inr tt, fs)
      | inl e => (inl e, fs)
      | inr Directory => (inl EISDIR, fs)
      | inr (File _ _) => (inr tt, with_nodes (delete p nodes) fs)
      end
  | Rmdir p =>
      match lookupPath nodes p with
      | inl e => (inl e, fs)
      | inr (File _ _) => (inl ENOTDIR, fs)
      | inr Directory => if decide (children nodes p = []) then (inr tt, with_nodes (delete p nodes) fs) else (inl ENOTEMPTY, fs)
      end
  | Mkdirp p =>
      match mkdirFrom nodes [] p with
      | inl e => (inl e, fs)
      | inr nodes => (inr tt, with_nodes nodes fs)
      end
  | Readdir p =>
      (match lookupPath nodes p with
       | inl e => inl e
       | inr (File _ _) => inl ENOTDIR
       | inr Directory => inr ((fun c => (c.1, match c.2 with Directory => true | File _ _ => false end)) <$> children nodes p)
       end, fs)
  end.

(** ** Programs of calls *)

Inductive Prog (A : Type) : Type :=
  | Ret (a : A)
  | Throw (e : StorageError)
  | Vis {X : Type} (op : FsOp X) (k : Errno + X -> Prog A).
Arguments Ret {A}. Arguments Throw {A}. Arguments Vis {A X}.

Fixpoint pbind {A B} (p : Prog A) (f : A -> Prog B) : Prog B :=
  match p with
  | Ret a => f a
  | Throw e => Throw e
  | Vis op k => Vis op (fun x => pbind (k x) f)
  end.

Definition sys {X} (op : FsOp X) : Prog (Errno + X) := Vis op Ret.

(** Nobody else, and nothing goes wrong. *)
Fixpoint run {A} (p : Prog A) (fs : Fs) : (StorageError + A) * Fs :=
  match p with
  | Ret a => (inr a, fs)
  | Throw e => (inl e, fs)
  | Vis op k => let '(x, fs) := perform op fs in run (k x) fs
  end.

(** What happens at a call: others first; then the call is made, or fails, or
    the process dies there, with or without [written] bytes of a write. *)
Inductive Fault := Fine | Fails (e : Errno) (written : option nat) | Crash (written : option nat).
Record Moment := { mo_others : Fs -> Fs; mo_fault : Fault }.
Definition quiet : Moment := {| mo_others := fun fs => fs; mo_fault := Fine |}.

(** A write that broke off leaves a part of its data; a failed call of another
    kind leaves nothing. *)
Definition torn {X} (op : FsOp X) (written : option nat) (fs : Fs) : Fs :=
  match op, written with WriteFile p data, Some n => snd (perform (WriteFile p (take n data)) fs) | _, _ => fs end.

Fixpoint exec {A} (p : Prog A) (plan : list Moment) (fs : Fs) : option (StorageError + A) * Fs :=
  match p with
  | Ret a => (Some (inr a), fs)
  | Throw e => (Some (inl e), fs)
  | Vis op k =>
      let moment := default quiet (head plan) in
      let fs := mo_others moment fs in
      match mo_fault moment with
      | Fine => let '(x, fs) := perform op fs in exec (k x) (tail plan) fs
      | Fails e written => exec (k (inl e)) (tail plan) (torn op written fs)
      | Crash written => (None, torn op written fs)
      end
  end.
End calls.
Arguments Ret {A}. Arguments Throw {A}. Arguments Vis {A X}.

Notation "'await' x := p 'in' q" := (pbind p (fun x => q)) (at level 10, x binder, p at level 200, q at level 200).

(** ** Paths *)

Definition BODY_FILE : JSText := js ".object".
Definition SIDECAR_FILE : JSText := js ".meta.json".

(** A path reaches the kernel as UTF-8, where a lone surrogate is U+FFFD. *)
Fixpoint toWellFormed (s : JSText) : JSText :=
  match s with
  | [] => []
  | c :: rest =>
      if high_surrogate c then
        match rest with
        | d :: rest' => if low_surrogate d then c :: d :: toWellFormed rest' else 65533%N :: toWellFormed rest
        | [] => [65533%N]
        end
      else (if low_surrogate c then 65533%N else c) :: toWellFormed rest
  end.

(** [resolve(join(root, key))] *)
Definition resolveStep (base : Path) (segment : JSText) : Path :=
  if decide (segment = [] \/ segment = dot) then base else if decide (segment = dotdot) then parent base else base ++ [segment].
Definition resolveKey (root : Path) (key : JSText) : Path := foldl resolveStep root (splitSlash key).

(** [relative(from, to)] *)
Fixpoint relativePath (from to : Path) : Path :=
  match from, to with
  | x :: from', y :: to' => if decide (x = y) then relativePath from' to' else replicate (length from) dotdot ++ to
  | _, _ => replicate (length from) dotdot ++ to
  end.

Section adapter.
Context (md5 : Bytes -> JSText) (stringify : JsonValue -> Bytes) (parse : Bytes -> option JsonValue) (root : Path).

(** The second check: where the key ended up. *)
Definition directoryFor (key : JSText) : StorageError + Path :=
  match assertValidObjectKey key with
  | inl e => inl e
  | inr _ =>
      let path := resolveKey root key in
      let inside := relativePath root path in
      if decide (inside = [] \/ head inside = Some dotdot) then inl (InvalidObjectKeyError key (js "key resolves outside the storage root"))
      else inr path
  end.

(** The directory as the kernel is told it. *)
Definition diskDirectory (key : JSText) : StorageError + Path :=
  match directoryFor key with inl e => inl e | inr path => inr (toWellFormed <$> path) end.

Definition operationError (operation : string) (key : JSText) (e : Errno) : StorageError :=
  StorageOperationError Local (js (operation +:+ " ") ++ key) (errno_code e).

Record Sidecar := { sc_contentType : JSText; sc_metadata : gmap string JSText; sc_etag : option JSText }.

Definition OCTET_STREAM : JSText := js "application/octet-stream".
Definition noSidecar : Sidecar := {| sc_contentType := OCTET_STREAM; sc_metadata := ∅; sc_etag := None |}.

(** What [put] writes beside the body. *)
Definition sidecarJson (o : Stored) : JsonValue :=
  JObject ([("contentType"%string, JString (st_contentType o));
            ("metadata"%string, JObject ((fun kv => (kv.1, JString kv.2)) <$> map_to_list (st_metadata o)));
            ("etag"%string, JString (etagOf md5 (st_body o)))] ++
           match st_cacheControl o with Some c => [("cacheControl"%string, JString c)] | None => [] end).

Fixpoint memberOf (key : string) (members : list (string * JsonValue)) : option JsonValue :=
  match members with
  | [] => None
  | (k, v) :: rest => if decide (k = key) then Some v else memberOf key rest
  end.

Definition stringValue (v : JsonValue) : option JSText := match v with JString t => Some t | _ => None end.

(** [isStringRecord]: the strings of an object, or of an array under its indices. *)
Definition stringRecord (v : option JsonValue) : option (gmap string JSText) :=
  match v with
  | Some (JObject members) => list_to_map <$> mapM (fun kv => pair kv.1 <$> stringValue kv.2) members
  | Some (JArray items) => (fun l => list_to_map (imap (fun i t => (pretty i, t)) l)) <$> mapM stringValue items
  | _ => None
  end.

Definition decodeSidecar (text : Bytes) : Sidecar :=
  match parse text with
  | Some (JObject members) =>
      {| sc_contentType := default OCTET_STREAM (memberOf "contentType" members ≫= stringValue);
         sc_metadata := default ∅ (stringRecord (memberOf "metadata" members));
         sc_etag := memberOf "etag" members ≫= stringValue |}
  | _ => noSidecar
  end.

Definition readSidecar (directory : Path) : Prog Sidecar :=
  await r := sys (ReadFile (directory ++ [SIDECAR_FILE])) in
  Ret (match r with inl _ => noSidecar | inr text => decodeSidecar text end).

Definition syntheticEtag (size : nat) (mtimeMs : Z) : JSText := js dq ++ md5 (js (pretty size +:+ "-" +:+ pretty mtimeMs)) ++ js dq.

(** ** The operations *)

Definition disk_put (uuid key : JSText) (body : Bytes) (options : PutObjectOptions) : Prog StorageObject :=
  match diskDirectory key with
  | inl e => Throw e
  | inr directory =>
  match normaliseMetadata (po_metadata options) with
  | inl e => Throw e
  | inr metadata =>
      let o := {| st_body := body; st_contentType := po_contentType options; st_metadata := metadata; st_cacheControl := po_cacheControl options |} in
      let tempPath := directory ++ [uuid ++ js ".tmp"] in
      let bodyPath := directory ++ [BODY_FILE] in
      let fail e := await _ := sys (RmForce tempPath) in Throw (operationError "put" key e) in
      await made := sys (Mkdirp directory) in match made with inl e => fail e | inr _ =>
      await temp := sys (WriteFile tempPath body) in match temp with inl e => fail e | inr _ =>
      await side := sys (WriteFile (directory ++ [SIDECAR_FILE]) (stringify (sidecarJson o))) in match side with inl e => fail e | inr _ =>
      await moved := sys (Rename tempPath bodyPath) in match moved with inl e => fail e | inr _ =>
      await stats := sys (Stat bodyPath) in
      match stats with
      | inl e => Throw (UncaughtErrno (errno_code e))
      | inr stats => Ret {| so_key := key; so_size := st_size stats; so_contentType := po_contentType options; so_etag := etagOf md5 body;
                            so_lastModified := st_mtimeMs stats; so_metadata := metadata |}
      end end end end end
  end end.

Definition disk_head (key : JSText) : Prog StorageObject :=
  match diskDirectory key with
  | inl e => Throw e
  | inr directory =>
      await stats := sys (Stat (directory ++ [BODY_FILE])) in
      match stats with
      | inl e => Throw (if decide (e = ENOENT \/ e = ENOTDIR) then ObjectNotFoundError key else operationError "head" key e)
      | inr stats =>
          if st_isFile stats then
            await sidecar := readSidecar directory in
            Ret {| so_key := key; so_size := st_size stats; so_contentType := sc_contentType sidecar;
                   so_etag := default (syntheticEtag (st_size stats) (st_mtimeMs stats)) (sc_etag sidecar);
                   so_lastModified := st_mtimeMs stats; so_metadata := sc_metadata sidecar |}
          else Throw (ObjectNotFoundError key)
      end
  end.

(** [get] and [getStream] read the body after [head]; they differ in the
    operation an error names. *)
Definition disk_read (operation : string) (key : JSText) : Prog (StorageObject * Bytes) :=
  await object := disk_head key in
  match diskDirectory key with
  | inl e => Throw e
  | inr directory =>
      await body := sys (ReadFile (directory ++ [BODY_FILE])) in
      match body with
      | inl e => Throw (if decide (e = ENOENT) then ObjectNotFoundError key else operationError operation key e)
      | inr body => Ret (object, body)
      end
  end.

Definition disk_exists (key : JSText) : Prog bool :=
  match diskDirectory key with
  | inl e => Throw e
  | inr directory =>
      await stats := sys (Stat (directory ++ [BODY_FILE])) in
      match stats with
      | inl e => if decide (e = ENOENT \/ e = ENOTDIR) then Ret false else Throw (operationError "exists" key e)
      | inr stats => Ret (st_isFile stats)
      end
  end.

(** The loop ends at the root, so it turns at most once for each name below it. *)
Fixpoint pruneEmptyParents (fuel : nat) (current : Path) : Prog unit :=
  match fuel with
  | O => Ret tt
  | S fuel =>
      if decide (current <> root /\ root `prefix_of` current) then
        await removed := sys (Rmdir current) in
        match removed with inl _ => Ret tt | inr _ => pruneEmptyParents fuel (parent current) end
      else Ret tt
  end.

Definition disk_delete (key : JSText) : Prog unit :=
  match diskDirectory key with
  | inl e => Throw e
  | inr directory =>
      let fail e := if decide (e = ENOTDIR) then Ret tt else Throw (operationError "delete" key e) in
      await body := sys (RmForce (directory ++ [BODY_FILE])) in match body with inl e => fail e | inr _ =>
      await side := sys (RmForce (directory ++ [SIDECAR_FILE])) in match side with inl e => fail e | inr _ =>
      pruneEmptyParents (length directory) directory
      end end
  end.

Definition isListableKey (key : JSText) : bool := match assertValidObjectKey key with inr _ => true | inl _ => false end.

(** [keyPrefix === "" ? entry.name : posix.join(keyPrefix, entry.name)] *)
Definition childKey (keyPrefix name : JSText) : JSText := match keyPrefix with [] => name | _ => keyPrefix ++ [slash] ++ name end.

(** The loop over the entries; [visit] is the recursive call. *)
Fixpoint walkEntries (visit : Path -> JSText -> Prog (Errno + list JSText)) (dir : Path) (keyPrefix : JSText)
    (entries : list (JSText * bool)) (keys : list JSText) : Prog (Errno + list JSText) :=
  match entries with
  | [] => Ret (inr keys)
  | (name, isDirectory) :: rest =>
      if isDirectory : bool then
        await below := visit (dir ++ [name]) (childKey keyPrefix name) in
        match below with
        | inl e => Ret (inl e)
        | inr more => walkEntries visit dir keyPrefix rest (keys ++ more)
        end
      else walkEntries visit dir keyPrefix rest keys
  end.

Definition isBody (entry : JSText * bool) : bool := bool_decide (entry.1 = BODY_FILE) && negb entry.2.

Fixpoint walk (fuel : nat) (dir : Path) (keyPrefix : JSText) : Prog (Errno + list JSText) :=
  match fuel with
  | O => Ret (inl (OtherErrno "ELOOP"))
  | S fuel =>
      await entries := sys (Readdir dir) in
      match entries with
      | inl e => Ret (inl e)
      | inr entries =>
          let keys := if existsb isBody entries && negb (bool_decide (keyPrefix = [])) && isListableKey keyPrefix then [keyPrefix] else [] in
          walkEntries (walk fuel) dir keyPrefix entries keys
      end
  end.

Fixpoint heads (keys : list JSText) : Prog (list StorageObject) :=
  match keys with
  | [] => Ret []
  | key :: rest => await o := disk_head key in await more := heads rest in Ret (o :: more)
  end.

(** No key is longer, so no directory is deeper. *)
Definition walkDepth : nat := S (S MAX_KEY_BYTES).

Definition disk_list (options : ListObjectsOptions) : Prog ListObjectsPage :=
  let limit := clampListLimit (lo_limit options) in
  await walked := walk walkDepth root [] in
  match walked with
  | inl e => if decide (e = ENOENT) then Ret {| lp_objects := []; lp_nextCursor := None |}
             else Throw (operationError "list" (default [] (lo_prefix options)) e)
  | inr keys =>
      let matching := sortKeys (filter (listed options) keys) in
      await objects := heads (take limit matching) in
      Ret {| lp_objects := objects; lp_nextCursor := nextCursor limit matching |}
  end.
End adapter.

(** The disk, and how many names [randomUUID] has given out. *)
Record Disk := { d_fs : Fs; d_uuids : nat }.

Definition LocalDiskStorageAdapter (directoryStats : Path -> nat * Z) (md5 : Bytes -> JSText) (stringify : JsonValue -> Bytes)
    (parse : Bytes -> option JsonValue) (root : Path) (randomUUID : nat -> JSText) : StorageAdapter Disk :=
  let call {A} (p : Prog A) : Eff Disk StorageError A := fun d =>
    let '(r, fs) := run directoryStats p (d_fs d) in (r, {| d_fs := fs; d_uuids := d_uuids d |}) in
  {| sa_name := Local; sa_isConfigured := true;
     sa_put key body options d := call (disk_put md5 stringify root (randomUUID (d_uuids d)) key body options) {| d_fs := d_fs d; d_uuids := S (d_uuids d) |};
     sa_get key := call (disk_read md5 parse root "get" key);
     sa_getStream key := call (disk_read md5 parse root "getStream" key);
     sa_head key := call (disk_head md5 parse root key);
     sa_exists key := call (disk_exists root key);
     sa_delete key := call (disk_delete root key);
     sa_list options := call (disk_list md5 parse root options) |}.

(** ** A key stays below the root *)

Lemma relativePath_below from to : head (relativePath from to) <> Some dotdot -> to = from ++ relativePath from to.
Proof.
  revert to. induction from as [|x from IH]; intros to; [done|].
  destruct to as [|y to]; cbn; [done|]. destruct (decide (x = y)) as [->|]; [|done]. intros H. by rewrite <- IH.
Qed.

Lemma relativePath_app from rest : relativePath from (from ++ rest) = rest.
Proof. induction from as [|x from IH]; [by destruct rest|]. cbn. by rewrite decide_True by done. Qed.

(** Whatever the first check let through, the second confines the path to the
    root's subtree. *)
Lemma directoryFor_below root key path : directoryFor root key = inr path -> exists rest, rest <> [] /\ path = root ++ rest.
Proof.
  unfold directoryFor. destruct (assertValidObjectKey key); [done|]. case_decide as H; [done|]. intros [= <-].
  exists (relativePath root (resolveKey root key)). split; [intros E; apply H; by left|].
  apply relativePath_below. intros E. apply H. by right.
Qed.

(** ** Splitting and joining *)

Abbreviation segments := splitSlash.
Definition joinSlash (q : list JSText) : JSText := join [slash] q.

Lemma segments_nonempty key : segments key <> [].
Proof. destruct key as [|c key]; [done|]. cbn. case_decide; [done|]. by destruct (segments key). Qed.

Lemma join_cons (x : JSText) (l : list JSText) : l <> [] -> join [slash] (x :: l) = x ++ [slash] ++ join [slash] l.
Proof. by destruct l. Qed.

Lemma join_split key : joinSlash (segments key) = key.
Proof.
  unfold joinSlash. induction key as [|c key IH]; [done|]. cbn. case_decide as Hc.
  - rewrite join_cons by apply segments_nonempty. cbn. by rewrite IH, Hc.
  - destruct (segments key) as [|s more] eqn:E; [by apply segments_nonempty in E|]. destruct more; cbn in *; by rewrite IH.
Qed.

Lemma segments_inj k k' : segments k = segments k' -> k = k'.
Proof. intros H. by rewrite <- (join_split k), H, join_split. Qed.

Lemma segments_no_slash key : Forall (fun s => slash ∉ s) (segments key).
Proof.
  induction key as [|c key IH]; cbn; [repeat constructor; apply not_elem_of_nil|]. case_decide as Hc.
  - constructor; [apply not_elem_of_nil|done].
  - destruct (segments key) as [|s more]; [repeat constructor; set_solver|]. apply Forall_cons in IH as [Hs IH].
    constructor; [|done]. apply not_elem_of_cons. by split; [congruence|].
Qed.

Lemma segments_app s key : slash ∉ s -> segments (s ++ [slash] ++ key) = s :: segments key.
Proof.
  induction s as [|c s IH]; intros Hs; cbn; [done|]. apply not_elem_of_cons in Hs as [Hc Hs].
  rewrite decide_False by congruence. cbn in IH. by rewrite IH.
Qed.

Lemma segments_single s : slash ∉ s -> segments s = [s].
Proof.
  induction s as [|c s IH]; intros Hs; cbn; [done|]. apply not_elem_of_cons in Hs as [Hc Hs].
  rewrite decide_False by congruence. by rewrite IH.
Qed.

Lemma split_join q : q <> [] -> Forall (fun s => slash ∉ s) q -> segments (joinSlash q) = q.
Proof.
  unfold joinSlash. induction q as [|s q IH]; [done|]. intros _ [Hs Hq]%Forall_cons. destruct q as [|s' q].
  - by apply segments_single.
  - rewrite join_cons by done. rewrite segments_app by done. f_equal. by apply IH.
Qed.

Lemma join_snoc q name : q <> [] -> join [slash] (q ++ [name]) = join [slash] q ++ [slash] ++ name.
Proof.
  induction q as [|s q IH]; [done|]. intros _. destruct q as [|s' q]; [done|].
  change ((s :: s' :: q) ++ [name]) with (s :: (s' :: q) ++ [name]).
  rewrite join_cons by done. rewrite IH by done. rewrite (join_cons s (s' :: q)) by done. by rewrite <- !app_assoc.
Qed.

Lemma childKey_join q name : Forall (fun s => s <> []) q -> childKey (joinSlash q) name = joinSlash (q ++ [name]).
Proof.
  unfold joinSlash. destruct q as [|s q]; [done|]. intros [Hs _]%Forall_cons. rewrite join_snoc by done.
  destruct s as [|c s]; [done|]. by destruct q.
Qed.

(** ** Keys the layout can hold *)

Lemma badSegment_none segs : badSegment segs = None ->
  Forall (fun s => s <> [] /\ s <> dot /\ s <> dotdot) segs.
Proof.
  induction segs as [|s segs IH]; [constructor|]. cbn. repeat case_decide; try done. intros H'. constructor; [|by apply IH].
  split_and!; naive_solver.
Qed.

Lemma valid_key key k : assertValidObjectKey key = inr k ->
  k = key /\ Forall (fun s => s <> [] /\ s <> dot /\ s <> dotdot) (segments key) /\ (byteLength key <= MAX_KEY_BYTES)%nat.
Proof.
  unfold assertValidObjectKey. destruct (decide (key = [])); [done|]. destruct (decide (MAX_KEY_BYTES < byteLength key)%nat); [done|].
  destruct (existsb isControl key); [done|]. destruct (decide (92%N ∈ key)); [done|]. destruct (decide (head key = _)); [done|].
  destruct (decide (last key = _)); [done|]. destruct (badSegment (segments key)) eqn:Hb; [done|]. case_match; [done|]. intros [= <-].
  split_and!; [done|by apply badSegment_none|lia].
Qed.

Lemma resolveKey_valid root key : Forall (fun s => s <> [] /\ s <> dot /\ s <> dotdot) (segments key) -> resolveKey root key = root ++ segments key.
Proof.
  unfold resolveKey. generalize (segments key). intros l Hl. revert root. induction Hl as [|s l (H1 & H2 & H3) _ IH]; intros root; cbn.
  - by rewrite app_nil_r.
  - rewrite IH. unfold resolveStep. rewrite decide_False by naive_solver. rewrite decide_False by done. by rewrite <- app_assoc.
Qed.

(** The second check never refuses what the first accepted. *)
Lemma directoryFor_valid root key : directoryFor root key =
  match assertValidObjectKey key with inl e => inl e | inr _ => inr (root ++ segments key) end.
Proof.
  unfold directoryFor. destruct (assertValidObjectKey key) as [|k] eqn:Hv; [done|]. apply valid_key in Hv as (_ & Hs & _).
  rewrite resolveKey_valid by done. rewrite relativePath_app. rewrite decide_False; [done|].
  pose proof (segments_nonempty key). destruct (segments key) as [|s segs]; [done|]. apply Forall_cons in Hs as [(_ & _ & Hd) _].
  intros [|[=]]; done.
Qed.

Section plain.
Context (randomUUID : nat -> JSText).

Definition reserved (s : JSText) : Prop := s = BODY_FILE \/ s = SIDECAR_FILE \/ exists n, s = randomUUID n ++ js ".tmp".

(** An accepted key of well-formed text, none of whose segments is a name the
    adapter uses itself. *)
Definition plain (key : JSText) : Prop :=
  assertValidObjectKey key = inr key /\ Forall (fun s => toWellFormed s = s /\ ~ reserved s) (segments key).

Lemma plain_directory root key : toWellFormed <$> root = root -> plain key -> diskDirectory root key = inr (root ++ segments key).
Proof.
  intros Hroot [Hv Hp]. unfold diskDirectory. rewrite directoryFor_valid, Hv. rewrite fmap_app, Hroot. do 2 f_equal.
  induction Hp as [|s l [Hs _] _ IH]; [done|]. cbn. by rewrite Hs, IH.
Qed.
End plain.

(** ** Trees *)

Definition tree_ok (nodes : Nodes) : Prop :=
  nodes !! [] = Some Directory /\ forall p name n, nodes !! (p ++ [name]) = Some n -> nodes !! p = Some Directory.

Definition is_file (n : option Node) : Prop := match n with Some (File _ _) => True | _ => False end.

Lemma tree_prefix (nodes : Nodes) (p q : Path) (n : Node) : tree_ok nodes -> nodes !! (p ++ q) = Some n -> q <> [] -> nodes !! p = Some Directory.
Proof.
  intros [_ Ht]. revert n. induction q as [|x q IH] using rev_ind; [done|]. intros n Hn _. rewrite app_assoc in Hn. apply Ht in Hn.
  destruct q as [|y q]; [by rewrite app_nil_r in Hn|]. by apply IH in Hn.
Qed.

Lemma lookupFrom_found (nodes : Nodes) (rest : Path) : forall (done : Path) (n : Node), tree_ok nodes -> nodes !! (done ++ rest) = Some n -> lookupFrom nodes done rest = inr n.
Proof.
  induction rest as [|name rest IH]; intros done n Ht Hn; cbn.
  - rewrite app_nil_r in Hn. by rewrite Hn.
  - rewrite (tree_prefix nodes done (name :: rest) n) by done. apply IH; [done|]. by rewrite <- app_assoc.
Qed.

Lemma lookupPath_found (nodes : Nodes) (p : Path) (n : Node) : tree_ok nodes -> nodes !! p = Some n -> lookupPath nodes p = inr n.
Proof. intros. by apply lookupFrom_found. Qed.

Lemma lookupFrom_missing (nodes : Nodes) (rest : Path) : forall (done : Path), nodes !! (done ++ rest) = None ->
  exists e, lookupFrom nodes done rest = inl e /\ (e = ENOENT \/ e = ENOTDIR /\ exists r, r `prefix_of` rest /\ is_file (nodes !! (done ++ r))).
Proof.
  induction rest as [|name rest IH]; intros done Hn; cbn.
  - rewrite app_nil_r in Hn. rewrite Hn. eauto.
  - destruct (nodes !! done) as [[c t|]|] eqn:Hd; [| |by eauto].
    + exists ENOTDIR. split; [done|]. right. split; [done|]. exists []. split; [apply prefix_nil|]. by rewrite app_nil_r, Hd.
    + destruct (IH (done ++ [name])) as (e & He & Hcase); [by rewrite <- app_assoc|]. exists e. split; [done|].
      destruct Hcase as [->|(-> & r & Hr & Hf)]; [by left|right]. split; [done|]. exists (name :: r). split; [by apply prefix_cons|].
      by rewrite <- app_assoc in Hf.
Qed.

Lemma lookupPath_missing (nodes : Nodes) (p : Path) : nodes !! p = None ->
  exists e, lookupPath nodes p = inl e /\ (e = ENOENT \/ e = ENOTDIR /\ exists r, r `prefix_of` p /\ is_file (nodes !! r)).
Proof. apply (lookupFrom_missing nodes p []). Qed.

(** Where no file is in the way, [mkdir] makes exactly the directories on the path. *)
Lemma mkdirFrom_spec (rest : Path) : forall (nodes : Nodes) (done : Path),
  (forall r, r `prefix_of` rest -> ~ is_file (nodes !! (done ++ r))) ->
  exists nodes', mkdirFrom nodes done rest = inr nodes' /\
    (forall r, r `prefix_of` rest -> nodes' !! (done ++ r) = Some Directory) /\
    (forall p, (forall r, r `prefix_of` rest -> p <> done ++ r) -> nodes' !! p = nodes !! p).
Proof.
  induction rest as [|name rest IH]; intros nodes done Hf.
  - assert (~ is_file (nodes !! done)) as Hd by (specialize (Hf [] (prefix_nil _)); by rewrite app_nil_r in Hf).
    exists (<[done := Directory]> nodes). cbn. split_and!.
    + destruct (nodes !! done) as [[|]|] eqn:E; [by destruct Hd| |done]. by rewrite insert_id by done.
    + intros r ->%prefix_nil_inv. by rewrite app_nil_r, lookup_insert_eq.
    + intros p Hp. rewrite lookup_insert_ne; [done|]. intros ->. apply (Hp []); [done|by rewrite app_nil_r].
  - assert (~ is_file (nodes !! done)) as Hd by (specialize (Hf [] (prefix_nil _)); by rewrite app_nil_r in Hf).
    destruct (IH (<[done := Directory]> nodes) (done ++ [name])) as (nodes' & Hrun & Hdirs & Hrest).
    { intros r Hr. rewrite <- app_assoc. rewrite lookup_insert_ne; [apply Hf; by apply prefix_cons|].
      intros E. apply (f_equal length) in E. rewrite length_app in E. cbn in E. lia. }
    exists nodes'. split_and!.
    + cbn. destruct (nodes !! done) as [[|]|] eqn:E; [by destruct Hd| |done]. by rewrite insert_id in Hrun by done.
    + intros r Hr. destruct r as [|x r].
      * rewrite app_nil_r. rewrite Hrest; [by rewrite lookup_insert_eq|]. intros r' _ E. apply (f_equal length) in E.
        rewrite !length_app in E. cbn in E. lia.
      * pose proof (prefix_cons_inv_1 _ _ _ _ Hr) as ->. apply prefix_cons_inv_2 in Hr. rewrite <- (Hdirs r Hr). by rewrite <- app_assoc.
    + intros p Hp. rewrite Hrest; [|intros r Hr ->; apply (Hp (name :: r)); [by apply prefix_cons|by rewrite <- app_assoc]].
      rewrite lookup_insert_ne; [done|]. intros ->. apply (Hp []); [apply prefix_nil|by rewrite app_nil_r].
Qed.

Lemma parent_snoc (p : Path) (name : JSText) : parent (p ++ [name]) = p.
Proof. unfold parent. rewrite length_app. cbn. replace (length p + 1 - 1)%nat with (length p) by lia. by rewrite take_app_length. Qed.

Lemma writable_ok (nodes : Nodes) (p : Path) (name : JSText) :
  tree_ok nodes -> nodes !! p = Some Directory -> nodes !! (p ++ [name]) <> Some Directory -> writable nodes (p ++ [name]) = inr tt.
Proof.
  intros Ht Hp Hn. unfold writable. rewrite parent_snoc, (lookupPath_found _ _ _ Ht Hp). destruct (nodes !! (p ++ [name])) as [[|]|]; done.
Qed.

(** A file in an existing directory. *)
Lemma tree_insert_file (nodes : Nodes) (p : Path) (name : JSText) (c : Bytes) (t : Z) :
  tree_ok nodes -> nodes !! p = Some Directory -> nodes !! (p ++ [name]) <> Some Directory -> tree_ok (<[p ++ [name] := File c t]> nodes).
Proof.
  intros [Hroot Ht] Hp Hn. split.
  - rewrite lookup_insert_ne; [done|]. by destruct p.
  - intros q x n. rewrite lookup_insert_Some. intros [[E <-]|[_ Hq]].
    + apply app_inj_tail in E as [<- <-]. rewrite lookup_insert_ne; [done|]. intros E. apply (f_equal length) in E. rewrite length_app in E. cbn in E. lia.
    + apply Ht in Hq. rewrite lookup_insert_ne; [done|]. intros <-. done.
Qed.

(** Removing what has nothing below it. *)
Lemma tree_delete_leaf (nodes : Nodes) (p : Path) :
  tree_ok nodes -> p <> [] -> (forall name, nodes !! (p ++ [name]) = None) -> tree_ok (delete p nodes).
Proof.
  intros [Hroot Ht] Hp Hleaf. split; [by rewrite lookup_delete_ne|]. intros q x n. rewrite lookup_delete_Some. intros [Hne Hq].
  rewrite lookup_delete_ne; [by eapply Ht|]. intros <-. by rewrite Hleaf in Hq.
Qed.

Lemma tree_file_leaf (nodes : Nodes) (p : Path) : tree_ok nodes -> is_file (nodes !! p) -> forall name, nodes !! (p ++ [name]) = None.
Proof. intros [_ Ht] Hf name. destruct (nodes !! (p ++ [name])) eqn:E; [|done]. apply Ht in E. by rewrite E in Hf. Qed.

(** ** The layout represents a flat keyspace *)

Section refinement.
Context (directoryStats : Path -> nat * Z) (md5 : Bytes -> JSText) (stringify : JsonValue -> Bytes) (parse : Bytes -> option JsonValue).
Context (root : Path) (randomUUID : nat -> JSText).
(** [JSON.parse] undoes [JSON.stringify], and the root's name is well-formed text. *)
Context (json_roundtrip : forall v, parse (stringify v) = Some v) (root_text : toWellFormed <$> root = root).

Abbreviation plain := (plain randomUUID).
Abbreviation reserved := (reserved randomUUID).
Abbreviation run := (run directoryStats).

Definition bodyPath (key : JSText) : Path := root ++ segments key ++ [BODY_FILE].
Definition sidePath (key : JSText) : Path := root ++ segments key ++ [SIDECAR_FILE].

Record disk_rep (nodes : Nodes) (s : FlatStore) : Prop := {
  dr_tree : tree_ok nodes;
  dr_root : forall p, p `prefix_of` root -> ~ is_file (nodes !! p);
  dr_objects : forall key o, s !! key = Some o ->
    plain key /\ (exists t, nodes !! bodyPath key = Some (File (st_body o) t)) /\
    (exists t, nodes !! sidePath key = Some (File (stringify (sidecarJson md5 o)) t));
  dr_below : forall q n, q <> [] -> nodes !! (root ++ q) = Some n ->
    match n with
    | Directory => exists key, plain key /\ q `prefix_of` segments key
    | File _ _ => exists key, is_Some (s !! key) /\ (q = segments key ++ [BODY_FILE] \/ q = segments key ++ [SIDECAR_FILE])
    end;
}.

Lemma plain_segment key x : plain key -> x ∈ segments key -> ~ reserved x /\ x <> [].
Proof.
  intros [Hv Hp] Hx. rewrite Forall_forall in Hp. destruct (Hp x Hx) as [_ Hr]. split; [done|].
  apply valid_key in Hv as (_ & Hs & _). rewrite Forall_forall in Hs. by destruct (Hs x Hx).
Qed.

Lemma reserved_body : reserved BODY_FILE. Proof. by left. Qed.
Lemma reserved_side : reserved SIDECAR_FILE. Proof. by right; left. Qed.
Lemma reserved_temp n : reserved (randomUUID n ++ js ".tmp"). Proof. right; right. by exists n. Qed.

Lemma prefix_segment (q : Path) x key : q ++ [x] `prefix_of` segments key -> x ∈ segments key.
Proof. intros [r ->]. set_solver. Qed.

(** Below a key's directory a name of the adapter's own is a file of that
    object, or nothing. *)
Lemma rep_reserved nodes s key x n : disk_rep nodes s -> reserved x -> nodes !! (root ++ segments key ++ [x]) = Some n ->
  is_Some (s !! key) /\ is_file (Some n) /\ (x = BODY_FILE \/ x = SIDECAR_FILE).
Proof.
  intros Hr Hx Hn. apply (dr_below _ _ Hr) in Hn as Hb; [|by destruct (segments key)]. destruct n as [c t|].
  - destruct Hb as (key' & Hs & [E|E]); apply app_inj_tail in E as [E ->]; apply segments_inj in E as ->; (split; [done|]; split; [done|]; by auto).
  - destruct Hb as (key' & Hp & Hpre%prefix_segment). by destruct (plain_segment key' x Hp Hpre).
Qed.

Lemma rep_body nodes s key : disk_rep nodes s ->
  match s !! key with Some o => exists t, nodes !! bodyPath key = Some (File (st_body o) t) | None => nodes !! bodyPath key = None end.
Proof.
  intros Hr. destruct (s !! key) as [o|] eqn:Hs; [by destruct (dr_objects _ _ Hr key o Hs) as (_ & ? & _)|].
  destruct (nodes !! bodyPath key) as [n|] eqn:Hn; [|done]. destruct (rep_reserved nodes s key BODY_FILE n Hr reserved_body Hn) as [[o Ho] _]. by rewrite Ho in Hs.
Qed.

Lemma stringRecord_map (m : gmap string JSText) :
  stringRecord (Some (JObject ((fun kv => (kv.1, JString kv.2)) <$> map_to_list m))) = Some m.
Proof.
  cbn. assert (mapM (fun kv : string * JsonValue => pair kv.1 <$> stringValue kv.2) ((fun kv => (kv.1, JString kv.2)) <$> map_to_list m) = Some (map_to_list m)) as ->.
  { induction (map_to_list m) as [|[k v] l IH]; [done|]. cbn. cbn in IH. by rewrite IH. }
  cbn. by rewrite list_to_map_to_list.
Qed.

Lemma memberOf_hit k v l : memberOf k ((k, v) :: l) = Some v.
Proof. cbn. by rewrite decide_True. Qed.
Lemma memberOf_miss k k' v l : k' <> k -> memberOf k ((k', v) :: l) = memberOf k l.
Proof. intros H. cbn. by rewrite decide_False. Qed.

(** Reading back what [put] wrote. *)
Lemma decode_sidecar o : decodeSidecar parse (stringify (sidecarJson md5 o)) =
  {| sc_contentType := st_contentType o; sc_metadata := st_metadata o; sc_etag := Some (etagOf md5 (st_body o)) |}.
Proof.
  unfold decodeSidecar. rewrite json_roundtrip. unfold sidecarJson. pose proof (stringRecord_map (st_metadata o)) as Hm.
  revert Hm. generalize (JObject ((fun kv => (kv.1, JString kv.2)) <$> map_to_list (st_metadata o))). intros meta Hm.
  cbn [app]. rewrite !memberOf_hit, !(memberOf_miss _ "contentType"), !memberOf_hit, !(memberOf_miss _ "metadata"), !memberOf_hit by done.
  by rewrite Hm.
Qed.

(** *** Single calls *)

Lemma run_sys {X A} (op : FsOp X) (k : Errno + X -> Prog A) fs : run (pbind (sys op) k) fs = run (k (perform directoryStats op fs).1) (perform directoryStats op fs).2.
Proof. cbn. by destruct (perform directoryStats op fs). Qed.

Lemma run_bind {A B} (p : Prog A) (k : A -> Prog B) fs :
  run (pbind p k) fs = match run p fs with (inr a, fs) => run (k a) fs | (inl e, fs) => (inl e, fs) end.
Proof. revert fs. induction p as [a|e|X op f IH]; intros fs; [done|done|]. cbn. destruct (perform directoryStats op fs). apply IH. Qed.

Lemma call_stat fs p n : tree_ok (fs_nodes fs) -> fs_nodes fs !! p = Some n -> perform directoryStats (Stat p) fs = (inr (stats_of directoryStats p n), fs).
Proof. intros Ht Hp. unfold perform. by rewrite (lookupPath_found _ _ _ Ht Hp). Qed.

Lemma call_stat_none fs p : fs_nodes fs !! p = None -> exists e, perform directoryStats (Stat p) fs = (inl e, fs) /\ (e = ENOENT \/ e = ENOTDIR).
Proof. intros Hp. unfold perform. destruct (lookupPath_missing _ p Hp) as (e & -> & He). exists e. split; [done|naive_solver]. Qed.

Lemma call_read fs p c t : tree_ok (fs_nodes fs) -> fs_nodes fs !! p = Some (File c t) -> perform directoryStats (ReadFile p) fs = (inr c, fs).
Proof. intros Ht Hp. unfold perform. by rewrite (lookupPath_found _ _ _ Ht Hp). Qed.

Lemma run_head s key fs : disk_rep (fs_nodes fs) s -> plain key ->
  match s !! key with
  | Some o => exists t, run (disk_head md5 parse root key) fs = (inr {| so_key := key; so_size := length (st_body o); so_contentType := st_contentType o;
      so_etag := etagOf md5 (st_body o); so_lastModified := t; so_metadata := st_metadata o |}, fs)
  | None => run (disk_head md5 parse root key) fs = (inl (ObjectNotFoundError key), fs)
  end.
Proof.
  intros Hr Hp. pose proof (dr_tree _ _ Hr) as Ht. unfold disk_head. rewrite (plain_directory randomUUID root key root_text Hp).
  rewrite run_sys, <- !app_assoc. fold (bodyPath key). pose proof (rep_body _ s key Hr) as Hb. destruct (s !! key) as [o|] eqn:Hs.
  - destruct Hb as [t Hb]. exists t. rewrite (call_stat _ _ _ Ht Hb). cbn [fst snd stats_of st_isFile st_size st_mtimeMs].
    destruct (dr_objects _ _ Hr key o Hs) as (_ & _ & t' & Hside). unfold readSidecar. rewrite run_bind, run_sys, <- app_assoc. fold (sidePath key).
    rewrite (call_read _ _ _ _ Ht Hside). cbn [fst snd DiskStorage.run]. by rewrite decode_sidecar.
  - destruct (call_stat_none _ _ Hb) as (e & -> & He). cbn [fst snd]. by rewrite decide_True by done.
Qed.

Lemma run_read operation s key fs : disk_rep (fs_nodes fs) s -> plain key ->
  match s !! key with
  | Some o => exists t, run (disk_read md5 parse root operation key) fs = (inr ({| so_key := key; so_size := length (st_body o); so_contentType := st_contentType o;
      so_etag := etagOf md5 (st_body o); so_lastModified := t; so_metadata := st_metadata o |}, st_body o), fs)
  | None => run (disk_read md5 parse root operation key) fs = (inl (ObjectNotFoundError key), fs)
  end.
Proof.
  intros Hr Hp. pose proof (dr_tree _ _ Hr) as Ht. unfold disk_read. rewrite run_bind. pose proof (run_head s key fs Hr Hp) as Hh.
  pose proof (rep_body _ s key Hr) as Hb. destruct (s !! key) as [o|]; [|by rewrite Hh]. destruct Hh as [t ->]. destruct Hb as [t' Hb]. exists t.
  rewrite (plain_directory randomUUID root key root_text Hp), run_sys, <- !app_assoc. fold (bodyPath key).
  by rewrite (call_read _ _ _ _ Ht Hb).
Qed.

Lemma run_exists s key fs : disk_rep (fs_nodes fs) s -> plain key -> run (disk_exists root key) fs = (inr (bool_decide (is_Some (s !! key))), fs).
Proof.
  intros Hr Hp. pose proof (dr_tree _ _ Hr) as Ht. unfold disk_exists. rewrite (plain_directory randomUUID root key root_text Hp).
  rewrite run_sys, <- !app_assoc. fold (bodyPath key). pose proof (rep_body _ s key Hr) as Hb. destruct (s !! key) as [o|] eqn:Hs.
  - destruct Hb as [t Hb]. by rewrite (call_stat _ _ _ Ht Hb).
  - destruct (call_stat_none _ _ Hb) as (e & -> & He). cbn [fst snd]. by rewrite decide_True by done.
Qed.
(** *** Storing *)

Lemma prefix_app_cases (r p q : Path) : r `prefix_of` p ++ q -> r `prefix_of` p \/ exists r', r = p ++ r' /\ r' `prefix_of` q.
Proof.
  revert r. induction p as [|x p IH]; intros r Hr; [right; by exists r|]. destruct r as [|y r]; [left; apply prefix_nil|].
  cbn in Hr. pose proof (prefix_cons_inv_1 _ _ _ _ Hr) as ->. apply prefix_cons_inv_2 in Hr. destruct (IH r Hr) as [H|(r' & -> & H)].
  - left. by apply prefix_cons.
  - right. by exists r'.
Qed.

(** No file is on the way to a plain key's directory. *)
Lemma way_is_free nodes s key r : disk_rep nodes s -> plain key -> r `prefix_of` root ++ segments key -> ~ is_file (nodes !! r).
Proof.
  intros Hr Hp Hpre Hf. destruct (prefix_app_cases _ _ _ Hpre) as [Hroot|(q & -> & Hq)]; [by apply (dr_root _ _ Hr r)|].
  destruct (decide (q = [])) as [->|Hne]; [apply (dr_root _ _ Hr (root ++ [])); [by rewrite app_nil_r|done]|].
  destruct (nodes !! (root ++ q)) as [[c t|]|] eqn:Hn; [|done|done]. apply (dr_below _ _ Hr) in Hn as (key' & _ & [->| ->]); [| |done].
  - apply prefix_segment in Hq. by destruct (plain_segment key _ Hp Hq) as [[] _]; apply reserved_body.
  - apply prefix_segment in Hq. by destruct (plain_segment key _ Hp Hq) as [[] _]; apply reserved_side.
Qed.

Lemma reserved_not_on_way key key' x : plain key -> reserved x -> ~ root ++ segments key' ++ [x] `prefix_of` root ++ segments key.
Proof.
  intros Hp Hx [r E]. rewrite <- app_assoc in E. apply app_inv_head in E.
  destruct (plain_segment key x Hp) as [Hn _]; [rewrite E; set_solver|done].
Qed.

Lemma mkdir_rep nodes s key : disk_rep nodes s -> plain key ->
  exists nodes1, mkdirFrom nodes [] (root ++ segments key) = inr nodes1 /\ disk_rep nodes1 s /\ nodes1 !! (root ++ segments key) = Some Directory.
Proof.
  intros Hr Hp. destruct (mkdirFrom_spec (root ++ segments key) nodes []) as (nodes1 & Hrun & Hdirs & Hrest).
  { intros r Hpre. by eapply way_is_free. }
  cbn [app] in Hdirs, Hrest. exists nodes1. split; [done|]. split; [|by apply Hdirs].
  assert (forall p, ~ p `prefix_of` root ++ segments key -> nodes1 !! p = nodes !! p) as Hsame.
  { intros p Hn. apply Hrest. intros r Hpre ->. done. }
  destruct (dr_tree _ _ Hr) as [Ht0 Ht]. constructor.
  - split; [apply (Hdirs [] (prefix_nil _))|]. intros p x n Hn.
    destruct (decide (p `prefix_of` root ++ segments key)) as [Hpre|Hnot]; [by apply (Hdirs p)|].
    rewrite Hsame in Hn |- * by (try done; intros [r E]; apply Hnot; exists ([x] ++ r); by rewrite app_assoc). by eapply Ht.
  - intros p Hpre. rewrite (Hdirs p); [by intros []|]. by apply prefix_app_r.
  - intros k o Hk. destruct (dr_objects _ _ Hr k o Hk) as (Hpk & Hb & Hs). split; [done|].
    unfold bodyPath, sidePath. rewrite !Hsame by (apply reserved_not_on_way; [done|apply reserved_body || apply reserved_side]). done.
  - intros q n Hq Hn. destruct (decide (root ++ q `prefix_of` root ++ segments key)) as [Hpre|Hnot].
    + rewrite (Hdirs (root ++ q) Hpre) in Hn. injection Hn as <-. exists key. split; [done|]. destruct Hpre as [r E].
      rewrite <- app_assoc in E. apply app_inv_head in E. by exists r.
    + rewrite Hsame in Hn by done. by apply (dr_below _ _ Hr).
Qed.

Lemma temp_differs n : randomUUID n ++ js ".tmp" <> BODY_FILE /\ randomUUID n ++ js ".tmp" <> SIDECAR_FILE.
Proof. split; intros E; apply (f_equal last) in E; rewrite last_app in E; done. Qed.

Lemma same_directory (key key' : JSText) (x y : JSText) : root ++ segments key ++ [x] = root ++ segments key' ++ [y] -> key = key' /\ x = y.
Proof. intros E%app_inv_head. apply app_inj_tail in E as [E ->]. by apply segments_inj in E. Qed.

Lemma put_rep nodes s key o t t' : disk_rep nodes s -> plain key -> nodes !! (root ++ segments key) = Some Directory ->
  disk_rep (<[bodyPath key := File (st_body o) t]> (<[sidePath key := File (stringify (sidecarJson md5 o)) t']> nodes)) (<[key := o]> s).
Proof.
  intros Hr Hp Hdir. pose proof (dr_tree _ _ Hr) as Ht.
  assert (forall x, reserved x -> nodes !! (root ++ segments key ++ [x]) <> Some Directory) as Hnd.
  { intros x Hx E. by destruct (rep_reserved nodes s key x _ Hr Hx E) as (_ & [] & _). }
  assert (bodyPath key <> sidePath key) as Hne by (intros [_ E]%same_directory; done).
  constructor.
  - unfold bodyPath, sidePath in *. rewrite !app_assoc in *. apply tree_insert_file; [apply tree_insert_file; [done|done|]| |].
    + rewrite <- app_assoc. apply Hnd, reserved_side.
    + rewrite lookup_insert_ne; [done|]. intros E. apply (f_equal length) in E. rewrite length_app in E. cbn in E. lia.
    + rewrite lookup_insert_ne by done. rewrite <- app_assoc. apply Hnd, reserved_body.
  - intros p Hpre. assert (forall x, root ++ segments key ++ [x] <> p) as Hn.
    { intros x <-. destruct Hpre as [r E]. apply (f_equal length) in E. rewrite !length_app in E. cbn in E. lia. }
    unfold bodyPath, sidePath. rewrite !lookup_insert_ne by apply Hn. by apply (dr_root _ _ Hr).
  - intros k o'. rewrite lookup_insert_Some. intros [[<- <-]|[Hk Ho']].
    + split; [done|]. split; [exists t; by rewrite lookup_insert_eq|]. exists t'. by rewrite lookup_insert_ne, lookup_insert_eq.
    + destruct (dr_objects _ _ Hr k o' Ho') as (Hpk & Hb & Hs). split; [done|].
      rewrite !lookup_insert_ne by (intros [E _]%same_directory; done). done.
  - intros q n Hq. rewrite lookup_insert_Some. intros [[E <-]|[_ Hn]].
    + exists key. rewrite lookup_insert_eq. split; [by eexists|]. left. by apply app_inv_head in E.
    + apply lookup_insert_Some in Hn as [[E <-]|[_ Hn]].
      * exists key. rewrite lookup_insert_eq. split; [by eexists|]. right. by apply app_inv_head in E.
      * apply (dr_below _ _ Hr) in Hn; [|done]. destruct n; [|done]. destruct Hn as (k & Hk & Hcase). exists k. split; [|done].
        apply lookup_insert_is_Some. destruct (decide (key = k)); [by left|by right].
Qed.
Lemma call_write fs p name target data : target = p ++ [name] -> tree_ok (fs_nodes fs) -> fs_nodes fs !! p = Some Directory -> fs_nodes fs !! target <> Some Directory ->
  perform directoryStats (WriteFile target data) fs = (inr tt, with_nodes (<[target := File data (fs_now fs)]> (fs_nodes fs)) fs).
Proof. intros -> Ht Hp Hn. unfold perform. by rewrite writable_ok. Qed.

Lemma run_put n s key body options metadata fs : disk_rep (fs_nodes fs) s -> plain key -> normaliseMetadata (po_metadata options) = inr metadata ->
  let o := {| st_body := body; st_contentType := po_contentType options; st_metadata := metadata; st_cacheControl := po_cacheControl options |} in
  exists t fs', run (disk_put md5 stringify root (randomUUID n) key body options) fs =
    (inr {| so_key := key; so_size := length body; so_contentType := po_contentType options; so_etag := etagOf md5 body; so_lastModified := t; so_metadata := metadata |}, fs') /\
    disk_rep (fs_nodes fs') (<[key := o]> s).
Proof.
  intros Hr Hp Hmeta o. unfold disk_put. rewrite (plain_directory randomUUID root key root_text Hp), Hmeta. fold o.
  destruct (mkdir_rep (fs_nodes fs) s key Hr Hp) as (nodes1 & Hmk & Hr1 & Hdir). set (dir := root ++ segments key) in *.
  set (temp := dir ++ [randomUUID n ++ js ".tmp"]). pose proof (dr_tree _ _ Hr1) as Ht1.
  assert (nodes1 !! temp = None) as Htemp.
  { destruct (nodes1 !! temp) as [nd|] eqn:E; [|done]. unfold temp, dir in E. rewrite <- app_assoc in E.
    destruct (rep_reserved nodes1 s key _ nd Hr1 (reserved_temp n) E) as (_ & _ & [E'|E']); by apply temp_differs in E'. }
  assert (nodes1 !! temp <> Some Directory) as Hnt by by rewrite Htemp.
  assert (forall x, reserved x -> nodes1 !! (dir ++ [x]) <> Some Directory) as Hnd.
  { intros x Hx E. unfold dir in E. rewrite <- app_assoc in E. by destruct (rep_reserved nodes1 s key x _ Hr1 Hx E) as (_ & [] & _). }
  assert (forall x, dir <> dir ++ [x]) as Hlonger by (intros x E; apply (f_equal length) in E; rewrite length_app in E; cbn in E; lia).
  assert (forall x, dir ++ [x] <> dir) as Hshorter by (intros x E; symmetry in E; by apply Hlonger in E).
  destruct (temp_differs n) as [Hbody Hside].
  assert (temp <> dir ++ [BODY_FILE]) as Hb by (intros [_ ?]%app_inj_tail; done).
  assert (temp <> dir ++ [SIDECAR_FILE]) as Hs by (intros [_ ?]%app_inj_tail; done).
  rewrite run_sys. unfold perform at 1 2. rewrite Hmk. cbn [fst snd].
  rewrite run_sys, !(call_write _ dir (randomUUID n ++ js ".tmp")); [|done|done|done|by cbn; rewrite Htemp]. cbn [fst snd with_nodes fs_nodes fs_now].
  set (nodes2 := <[temp := File body (fs_now fs)]> nodes1).
  assert (tree_ok nodes2) as Ht2 by (apply (tree_insert_file nodes1 dir (randomUUID n ++ js ".tmp")); [done|done|exact Hnt]).
  assert (nodes2 !! dir = Some Directory) as Hd2 by (unfold nodes2; rewrite lookup_insert_ne by apply Hshorter; done).
  rewrite run_sys, !(call_write _ dir SIDECAR_FILE); [|done|done|done|cbn; unfold nodes2; rewrite lookup_insert_ne by done; apply Hnd, reserved_side]. cbn [fst snd with_nodes fs_nodes fs_now].
  set (nodes3 := <[dir ++ [SIDECAR_FILE] := File (stringify (sidecarJson md5 o)) (fs_now fs)]> nodes2).
  assert (tree_ok nodes3) as Ht3 by (apply (tree_insert_file nodes2 dir SIDECAR_FILE); [done|done|unfold nodes2; rewrite lookup_insert_ne by done; apply Hnd, reserved_side]).
  assert (nodes3 !! temp = Some (File body (fs_now fs))) as Hn3.
  { unfold nodes3, nodes2. rewrite lookup_insert_ne by done. by rewrite lookup_insert_eq. }
  rewrite run_sys. unfold perform at 1 2. cbn [fs_nodes with_nodes]. rewrite (lookupPath_found _ _ _ Ht3 Hn3).
  rewrite writable_ok; [|done|unfold nodes3; rewrite lookup_insert_ne by apply Hshorter; done|]; cycle 1.
  { unfold nodes3, nodes2. rewrite lookup_insert_ne by (intros [_ E]%app_inj_tail; done). rewrite lookup_insert_ne by done. apply Hnd, reserved_body. }
  cbn [fst snd with_nodes fs_nodes fs_now].
  assert (delete temp nodes3 = <[dir ++ [SIDECAR_FILE] := File (stringify (sidecarJson md5 o)) (fs_now fs)]> nodes1) as ->.
  { unfold nodes3, nodes2. rewrite delete_insert_ne by done. by rewrite delete_insert_id. }
  pose proof (put_rep nodes1 s key o (fs_now fs) (fs_now fs) Hr1 Hp Hdir) as Hr4. unfold bodyPath, sidePath in Hr4. rewrite !app_assoc in Hr4. fold dir in Hr4.
  rewrite run_sys. rewrite (call_stat _ _ (File body (fs_now fs))); [|apply (dr_tree _ _ Hr4)|apply lookup_insert_eq].
  cbn [fst snd stats_of st_size st_mtimeMs DiskStorage.run]. eexists _, _. split; [reflexivity|]. exact Hr4.
Qed.

(** *** Removing *)

Lemma stripPrefix_Some (p q r : Path) : stripPrefix p q = Some r <-> q = p ++ r.
Proof.
  revert q. induction p as [|x p IH]; intros q; cbn; [naive_solver|]. destruct q as [|y q]; [done|].
  case_decide as H; [subst; rewrite IH; naive_solver|naive_solver].
Qed.

Lemma elem_of_children (nodes : Nodes) (dir : Path) (name : JSText) (n : Node) : (name, n) ∈ children nodes dir <-> nodes !! (dir ++ [name]) = Some n.
Proof.
  unfold children. rewrite list_elem_of_omap. split.
  - intros ([p n'] & Hin%elem_of_map_to_list & H). cbn in *. destruct (stripPrefix dir p) as [[|x [|]]|] eqn:E; try done.
    injection H as -> ->. by apply stripPrefix_Some in E as ->.
  - intros H. exists (dir ++ [name], n). split; [by apply elem_of_map_to_list|]. cbn.
    by rewrite (proj2 (stripPrefix_Some dir (dir ++ [name]) [name]) eq_refl).
Qed.

Lemma rmdir_rep nodes s q : disk_rep nodes s -> q <> [] -> nodes !! (root ++ q) = Some Directory -> children nodes (root ++ q) = [] ->
  disk_rep (delete (root ++ q) nodes) s.
Proof.
  intros Hr Hq Hd Hc. constructor.
  - apply tree_delete_leaf; [by apply (dr_tree _ _ Hr)|by destruct root|]. intros name. destruct (nodes !! ((root ++ q) ++ [name])) as [n|] eqn:E; [|done].
    apply elem_of_children in E. rewrite Hc in E. by apply elem_of_nil in E.
  - intros p Hpre. rewrite lookup_delete_ne; [by apply (dr_root _ _ Hr)|]. intros <-. destruct Hpre as [r E].
    apply (f_equal length) in E. rewrite !length_app in E. destruct q; [done|]. cbn in E. lia.
  - intros key o Ho. destruct (dr_objects _ _ Hr key o Ho) as (Hp & (t & Hb) & (t' & Hs)). split; [done|].
    split; [exists t|exists t']; rewrite lookup_delete_ne; try done; intros E; rewrite E in Hd; congruence.
  - intros q' n Hq' [_ Hn]%lookup_delete_Some. by apply (dr_below _ _ Hr).
Qed.

Lemma run_prune s fuel : forall current fs, disk_rep (fs_nodes fs) s ->
  exists fs', run (pruneEmptyParents root fuel current) fs = (inr tt, fs') /\ disk_rep (fs_nodes fs') s.
Proof.
  induction fuel as [|fuel IH]; intros current fs Hr; [by exists fs|]. cbn [pruneEmptyParents]. case_decide as H; [|by exists fs].
  destruct H as [Hne [q ->]]. rewrite run_sys. unfold perform at 1 2. destruct (fs_nodes fs !! (root ++ q)) as [n|] eqn:E.
  - rewrite (lookupPath_found _ _ _ (dr_tree _ _ Hr) E). destruct n; [by exists fs|]. destruct (decide (children _ _ = [])) as [Hc|]; [|by exists fs].
    cbn [fst snd]. apply IH. cbn. apply rmdir_rep; [done| |done|done]. intros ->. apply Hne. by rewrite app_nil_r.
  - destruct (lookupPath_missing _ _ E) as (e & -> & _). by exists fs.
Qed.

Lemma call_rm fs p : tree_ok (fs_nodes fs) -> p <> [] -> fs_nodes fs !! p <> Some Directory -> (forall r, r `prefix_of` p -> r <> p -> ~ is_file (fs_nodes fs !! r)) ->
  exists fs', perform directoryStats (RmForce p) fs = (inr tt, fs') /\ fs_nodes fs' = delete p (fs_nodes fs) /\ tree_ok (fs_nodes fs').
Proof.
  intros Ht Hp Hd Hfree. unfold perform. destruct (fs_nodes fs !! p) as [[c t|]|] eqn:E; [|done|].
  - rewrite (lookupPath_found _ _ _ Ht E). eexists. split; [done|]. split; [done|]. apply tree_delete_leaf; [done|done|].
    apply tree_file_leaf; [done|]. by rewrite E.
  - destruct (lookupPath_missing _ _ E) as (e & -> & [->|(-> & r & Hr & Hf)]).
    + exists fs. split; [done|]. by rewrite delete_id.
    + exfalso. apply (Hfree r Hr); [|done]. intros ->. by rewrite E in Hf.
Qed.
Lemma tree_delete_file (nodes : Nodes) (p : Path) : tree_ok nodes -> p <> [] -> nodes !! p <> Some Directory -> tree_ok (delete p nodes).
Proof.
  intros Ht Hp Hd. destruct (nodes !! p) as [[c t|]|] eqn:E; [|done|by rewrite delete_id].
  apply tree_delete_leaf; [done|done|]. apply tree_file_leaf; [done|by rewrite E].
Qed.

Lemma remove_rep nodes s key : disk_rep nodes s -> disk_rep (delete (sidePath key) (delete (bodyPath key) nodes)) (delete key s).
Proof.
  intros Hr. assert (forall x, root ++ segments key ++ [x] <> []) as Hne by (intros x; destruct root; [by destruct (segments key)|done]).
  assert (forall x, reserved x -> nodes !! (root ++ segments key ++ [x]) <> Some Directory) as Hnd.
  { intros x Hx E. by destruct (rep_reserved nodes s key x _ Hr Hx E) as (_ & [] & _). }
  constructor.
  - apply tree_delete_file; [apply tree_delete_file|..]; [apply (dr_tree _ _ Hr)|apply Hne|apply Hnd, reserved_body|apply Hne|].
    intros [_ E]%lookup_delete_Some. by apply (Hnd _ reserved_side).
  - intros p Hpre Hf. apply (dr_root _ _ Hr p Hpre). destruct (delete _ (delete _ nodes) !! p) as [n|] eqn:E; [|done].
    apply lookup_delete_Some in E as [_ [_ E]%lookup_delete_Some]. by rewrite E.
  - intros k o [Hk Ho]%lookup_delete_Some. destruct (dr_objects _ _ Hr k o Ho) as (Hp & Hb & Hs). split; [done|].
    rewrite !lookup_delete_ne by (intros [E _]%same_directory; done). done.
  - intros q n Hq [Hs [Hb Hn]%lookup_delete_Some]%lookup_delete_Some. apply (dr_below _ _ Hr) in Hn; [|done]. destruct n; [|done].
    destruct Hn as (k & Hk & Hcase). exists k. split; [|done]. apply lookup_delete_is_Some. split; [|done]. intros <-.
    destruct Hcase as [-> | ->]; [by apply Hb|by apply Hs].
Qed.

Lemma run_delete s key fs : disk_rep (fs_nodes fs) s -> plain key ->
  exists fs', run (disk_delete root key) fs = (inr tt, fs') /\ disk_rep (fs_nodes fs') (delete key s).
Proof.
  intros Hr Hp. unfold disk_delete. rewrite (plain_directory randomUUID root key root_text Hp).
  assert (forall x, root ++ segments key ++ [x] <> []) as Hne by (intros x; destruct root; [by destruct (segments key)|done]).
  assert (forall x r, r `prefix_of` root ++ segments key ++ [x] -> r <> root ++ segments key ++ [x] -> ~ is_file (fs_nodes fs !! r)) as Hfree.
  { intros x r Hpre Hn. apply (way_is_free _ s key); [done|done|]. rewrite app_assoc in Hpre, Hn.
    destruct (prefix_app_cases _ _ _ Hpre) as [?|(r' & -> & Hr')]; [done|].
    destruct r' as [|y r']; [by rewrite app_nil_r|]. exfalso. apply Hn. f_equal.
    pose proof (prefix_cons_inv_1 _ _ _ _ Hr') as ->. by apply prefix_cons_inv_2, prefix_nil_inv in Hr' as ->. }
  assert (forall x, reserved x -> fs_nodes fs !! (root ++ segments key ++ [x]) <> Some Directory) as Hnd.
  { intros x Hx E. by destruct (rep_reserved _ s key x _ Hr Hx E) as (_ & [] & _). }
  rewrite <- !app_assoc. fold (bodyPath key) (sidePath key). rewrite run_sys.
  destruct (call_rm fs (bodyPath key)) as (fs1 & -> & Hn1 & Ht1); [apply (dr_tree _ _ Hr)|apply Hne|apply Hnd, reserved_body|apply Hfree|]. cbn [fst snd].
  rewrite run_sys. destruct (call_rm fs1 (sidePath key)) as (fs2 & -> & Hn2 & Ht2); [done|apply Hne| | |].
  { rewrite Hn1. intros [_ E]%lookup_delete_Some. by apply (Hnd _ reserved_side). }
  { intros r Hpre Hr' Hf. apply (Hfree SIDECAR_FILE r Hpre Hr'). rewrite Hn1 in Hf. destruct (delete _ _ !! r) as [n|] eqn:E; [|done].
    apply lookup_delete_Some in E as [_ E]. by rewrite E. }
  cbn [fst snd]. apply run_prune. rewrite Hn2, Hn1. by apply remove_rep.
Qed.

(** *** Listing *)

Lemma length_utf8 t : (length t <= byteLength t)%nat.
Proof.
  unfold byteLength. remember (length t) as n eqn:Hn. revert t Hn. induction (Nat.lt_wf_0 n) as [n _ IH]. intros t ->.
  destruct t as [|c t]; cbn; [lia|]. assert (length t <= length (utf8 t))%nat as Ht by (eapply IH; [|done]; cbn; lia).
  assert (forall c, 1 <= length (utf8_char c))%nat as Hc by (intros c'; unfold utf8_char; repeat case_decide; cbn; lia).
  destruct (high_surrogate c).
  - destruct t as [|d t]; [cbn; lia|]. destruct (low_surrogate d); rewrite ?length_app; cbn in *; [|lia].
    assert (length t <= length (utf8 t))%nat by (eapply IH; [|done]; cbn; lia).
    assert (65536 + (c - 55296) * 1024 + (d - 56320) >= 65536)%N by lia. unfold utf8_char. repeat (rewrite decide_False by lia). cbn. lia.
  - pose proof (Hc c). destruct (low_surrogate c); rewrite ?length_app; cbn [length]; lia.
Qed.

Lemma length_segments key : (length (segments key) <= S (length key))%nat.
Proof. induction key as [|c key IH]; cbn; [lia|]. case_decide; cbn; [lia|]. destruct (segments key); cbn in *; lia. Qed.

Lemma plain_depth key (q : Path) : plain key -> q `prefix_of` segments key -> (length q < walkDepth)%nat.
Proof.
  intros [Hv _] Hq%prefix_length. apply valid_key in Hv as (_ & _ & Hb). pose proof (length_utf8 key). pose proof (length_segments key).
  unfold walkDepth. lia.
Qed.

Lemma children_names (nodes : Nodes) (dir : Path) : NoDup (children nodes dir).*1.
Proof.
  unfold children. pose proof (NoDup_fst_map_to_list nodes) as Hnd. induction (map_to_list nodes) as [|[p n] l IH]; [constructor|].
  cbn in *. apply NoDup_cons in Hnd as [Hp Hnd]. destruct (stripPrefix dir p) as [[|name [|]]|] eqn:E; cbn; try by apply IH.
  apply NoDup_cons. split; [|by apply IH]. rewrite list_elem_of_fmap. intros ([name' n'] & Hname & Hin). cbn in Hname. subst name'.
  apply list_elem_of_omap in Hin as ([p' n''] & Hin & H). cbn in H. destruct (stripPrefix dir p') as [[|x [|]]|] eqn:E'; try done.
  injection H as -> ->. apply stripPrefix_Some in E, E'. apply Hp. rewrite list_elem_of_fmap. exists (p', n'). by rewrite E, <- E'.
Qed.

(** What the recursive calls of a directory give, one after the other. *)
Lemma run_walkEntries (visit : Path -> JSText -> Prog (Errno + list JSText)) dir keyPrefix (below : JSText -> list JSText) entries fs : forall keys,
  (forall name, (name, true) ∈ entries -> run (visit (dir ++ [name]) (childKey keyPrefix name)) fs = (inr (inr (below name)), fs)) ->
  run (walkEntries visit dir keyPrefix entries keys) fs =
    (inr (inr (keys ++ concat (omap (fun e => if e.2 : bool then Some (below e.1) else None) entries))), fs).
Proof.
  induction entries as [|[name d] entries IH]; intros keys Hv; cbn [walkEntries]; [cbn; by rewrite app_nil_r|].
  destruct d; cbn.
  - rewrite run_bind, Hv by left. rewrite IH by (intros; apply Hv; by right). by rewrite <- app_assoc.
  - apply IH. intros. apply Hv. by right.
Qed.
Lemma NoDup_concat_map (below : JSText -> list JSText) (names : list JSText) :
  NoDup names -> (forall n, n ∈ names -> NoDup (below n)) ->
  (forall n n' k, n ∈ names -> n' ∈ names -> k ∈ below n -> k ∈ below n' -> n = n') -> NoDup (concat (below <$> names)).
Proof.
  induction 1 as [|n names Hn _ IH]; intros Hnd Hdis; cbn; [constructor|]. apply NoDup_app. split_and!.
  - apply Hnd. left.
  - intros k Hk Hin. apply list_elem_of_In, in_concat in Hin as (l & Hl%list_elem_of_In & Hkl%list_elem_of_In).
    apply list_elem_of_fmap in Hl as (n' & -> & Hn'). assert (n = n') as <- by (eapply Hdis; [left|by right|done|done]). done.
  - apply IH; [intros; apply Hnd; by right|]. intros a b k Ha Hb. apply Hdis; by right.
Qed.

Definition subdirectories (nodes : Nodes) (dir : Path) : list JSText :=
  omap (fun c => match c.2 with Directory => Some c.1 | File _ _ => None end) (children nodes dir).

Lemma elem_of_subdirectories (nodes : Nodes) (dir : Path) (name : JSText) : name ∈ subdirectories nodes dir <-> nodes !! (dir ++ [name]) = Some Directory.
Proof.
  unfold subdirectories. rewrite list_elem_of_omap. split.
  - intros ([x n] & Hin%elem_of_children & H). cbn in H. destruct n; [done|]. by injection H as ->.
  - intros H%elem_of_children. by exists (name, Directory).
Qed.

Lemma NoDup_subdirectories (nodes : Nodes) (dir : Path) : NoDup (subdirectories nodes dir).
Proof.
  unfold subdirectories. pose proof (children_names nodes dir) as Hnd. induction (children nodes dir) as [|[x n] l IH]; [constructor|].
  cbn in *. apply NoDup_cons in Hnd as [Hx Hnd]. destruct n; cbn; [by apply IH|]. apply NoDup_cons. split; [|by apply IH].
  rewrite list_elem_of_omap. intros ([x' n'] & Hin & H). cbn in H. destruct n'; [done|]. injection H as ->. apply Hx.
  rewrite list_elem_of_fmap. by exists (x, Directory).
Qed.

(** The directory's own key, when it holds a body. *)
Lemma own_key nodes s q : disk_rep nodes s -> (q <> [] -> exists key, plain key /\ q `prefix_of` segments key) ->
  let entries := (fun c => (c.1, match c.2 with Directory => true | File _ _ => false end)) <$> children nodes (root ++ q) in
  let own := if existsb isBody entries && negb (bool_decide (joinSlash q = [])) && isListableKey (joinSlash q) then [joinSlash q] else [] in
  forall key, key ∈ own <-> is_Some (s !! key) /\ segments key = q.
Proof.
  intros Hr Hq entries own key.
  assert (existsb isBody entries = true <-> is_file (nodes !! ((root ++ q) ++ [BODY_FILE]))) as Hbody.
  { rewrite existsb_exists. split.
    - intros ([x d] & Hin%list_elem_of_In & H). unfold entries in Hin. apply list_elem_of_fmap in Hin as ([x' n] & E & Hin%elem_of_children).
      injection E as -> ->. unfold isBody in H. cbn [fst snd] in H. apply andb_true_iff in H as [->%bool_decide_eq_true H]. rewrite Hin. by destruct n.
    - intros Hf. destruct (nodes !! ((root ++ q) ++ [BODY_FILE])) as [[c t|]|] eqn:E; [|done|done]. exists (BODY_FILE, false). split; [|done].
      apply list_elem_of_In. unfold entries. apply list_elem_of_fmap. exists (BODY_FILE, File c t). split; [done|]. by apply elem_of_children. }
  split.
  - unfold own. destruct (existsb isBody entries); [|by intros ?%elem_of_nil]. destruct (bool_decide (joinSlash q = [])) eqn:Hj; [by intros ?%elem_of_nil|].
    destruct (isListableKey (joinSlash q)); [|by intros ?%elem_of_nil]. intros ->%list_elem_of_singleton.
    destruct Hbody as [Hbody _]. specialize (Hbody eq_refl). apply bool_decide_eq_false in Hj. rewrite <- app_assoc in Hbody.
    destruct (nodes !! (root ++ q ++ [BODY_FILE])) as [[c t|]|] eqn:E; [|done|done].
    apply (dr_below _ _ Hr) in E as (k & Hk & [E|E]); [| |by destruct q]; apply app_inj_tail in E as [-> E]; [|done].
    rewrite join_split. done.
  - intros [[o Ho] <-]. destruct (dr_objects _ _ Hr key o Ho) as (Hp & (t & Hb) & _). unfold own. rewrite join_split.
    rewrite (proj2 Hbody); [|rewrite <- app_assoc; unfold bodyPath in Hb; by rewrite Hb]. destruct Hp as [Hv _].
    assert (bool_decide (key = []) = false) as -> by (apply bool_decide_eq_false; intros ->; done).
    unfold isListableKey. rewrite Hv. cbn. by apply list_elem_of_singleton.
Qed.

Lemma run_walk s fs : disk_rep (fs_nodes fs) s -> forall fuel q, fs_nodes fs !! (root ++ q) = Some Directory -> (walkDepth <= fuel + length q)%nat ->
  exists keys, run (walk fuel (root ++ q) (joinSlash q)) fs = (inr (inr keys), fs) /\ NoDup keys /\
    forall key, key ∈ keys <-> is_Some (s !! key) /\ q `prefix_of` segments key.
Proof.
  intros Hr. pose proof (dr_tree _ _ Hr) as Ht. induction fuel as [|fuel IH]; intros q Hd Hfuel.
  { exfalso. destruct (decide (q = [])) as [->|Hne]; [unfold walkDepth in Hfuel; cbn in Hfuel; lia|].
    apply (dr_below _ _ Hr) in Hd as (key & Hp & Hq); [|done]. pose proof (plain_depth key q Hp Hq). lia. }
  assert (q <> [] -> exists key, plain key /\ q `prefix_of` segments key) as Hq by (intros Hne; by apply (dr_below _ _ Hr) in Hd).
  cbn [walk]. rewrite run_sys. unfold perform at 1 2. rewrite (lookupPath_found _ _ _ Ht Hd). cbn [fst snd].
  set (entries := (fun c : JSText * Node => (c.1, _)) <$> children (fs_nodes fs) (root ++ q)).
  set (own := if _ : bool then [joinSlash q] else []). pose proof (own_key _ s q Hr Hq) as Hown. cbn zeta in Hown. fold entries in Hown. fold own in Hown.
  set (below := fun name => match (run (walk fuel (root ++ q ++ [name]) (joinSlash (q ++ [name]))) fs).1 with inr (inr keys) => keys | _ => [] end).
  assert (forall name, name ∈ subdirectories (fs_nodes fs) (root ++ q) ->
    run (walk fuel (root ++ q ++ [name]) (joinSlash (q ++ [name]))) fs = (inr (inr (below name)), fs) /\ NoDup (below name) /\
    forall key, key ∈ below name <-> is_Some (s !! key) /\ q ++ [name] `prefix_of` segments key) as Hbelow.
  { intros name Hname%elem_of_subdirectories. rewrite <- app_assoc in Hname. destruct (IH (q ++ [name]) Hname) as (keys & Hrun & Hnd & Hin).
    { rewrite length_app. cbn. lia. }
    unfold below. by rewrite Hrun. }
  exists (own ++ concat (below <$> subdirectories (fs_nodes fs) (root ++ q))). split_and!.
  - rewrite (run_walkEntries _ _ _ below).
    + do 4 f_equal. unfold entries, subdirectories. generalize (children (fs_nodes fs) (root ++ q)). clear. intros l.
      induction l as [|[x n] l IHl]; [done|]. cbn. destruct n; cbn; [done|]. by rewrite IHl.
    + intros name Hname. unfold entries in Hname. apply list_elem_of_fmap in Hname as ([x n] & E & Hin%elem_of_children).
      injection E as -> E. destruct n; [done|]. rewrite <- app_assoc. rewrite childKey_join.
      * by apply Hbelow, elem_of_subdirectories.
      * destruct (decide (q = [])) as [->|Hne]; [constructor|]. destruct (Hq Hne) as (key & Hp & r & E'). apply Forall_forall.
        intros y Hy. apply (plain_segment key y Hp). rewrite E'. set_solver.
  - apply NoDup_app. split_and!.
    + unfold own. case_match; [apply NoDup_singleton|constructor].
    + intros k [_ Hk]%Hown Hin. apply list_elem_of_In, in_concat in Hin as (l & Hl%list_elem_of_In & Hkl%list_elem_of_In).
      apply list_elem_of_fmap in Hl as (name & -> & Hn). apply (Hbelow name Hn) in Hkl as [_ Hpre%prefix_length].
      rewrite length_app, Hk in Hpre. cbn in Hpre. lia.
    + apply NoDup_concat_map; [apply NoDup_subdirectories|intros n Hn; by apply Hbelow|].
      intros n n' k Hn Hn' Hk Hk'. apply (Hbelow n Hn) in Hk as [_ [r E]]. apply (Hbelow n' Hn') in Hk' as [_ [r' E']].
      rewrite E, <- !app_assoc in E'. apply app_inv_head in E'. by injection E'.
  - intros key. rewrite elem_of_app, Hown. split.
    + intros [[Hk <-]|Hin]; [done|]. apply list_elem_of_In, in_concat in Hin as (l & Hl%list_elem_of_In & Hkl%list_elem_of_In).
      apply list_elem_of_fmap in Hl as (name & -> & Hn). apply (Hbelow name Hn) in Hkl as [Hk [r E]]. split; [done|].
      exists ([name] ++ r). by rewrite app_assoc.
    + intros [[o Ho] [r E]]. destruct r as [|name r]; [left; split; [by eexists|by rewrite app_nil_r in E]|right].
      assert (name ∈ subdirectories (fs_nodes fs) (root ++ q)) as Hn.
      { apply elem_of_subdirectories. destruct (dr_objects _ _ Hr key o Ho) as (_ & (t & Hb) & _). unfold bodyPath in Hb. rewrite E in Hb.
        apply (tree_prefix _ _ (r ++ [BODY_FILE]) (File (st_body o) t) Ht); [|by destruct r]. rewrite <- Hb. f_equal. by rewrite <- !app_assoc. }
      apply list_elem_of_In, in_concat. exists (below name). split; apply list_elem_of_In; [by apply list_elem_of_fmap_2|].
      apply (Hbelow name Hn). split; [by eexists|]. exists r. by rewrite E, <- app_assoc.
Qed.
Lemma run_heads s fs keys : disk_rep (fs_nodes fs) s -> Forall (fun key => is_Some (s !! key)) keys ->
  exists objects, run (heads md5 parse root keys) fs = (inr objects, fs) /\ view <$> objects = omap (fun key => stored_view md5 key <$> s !! key) keys.
Proof.
  intros Hr. induction 1 as [|key keys [o Ho] _ (objects & Hrun & Hv)]; [by exists []|]. cbn [heads]. rewrite run_bind.
  destruct (dr_objects _ _ Hr key o Ho) as [Hp _]. pose proof (run_head s key fs Hr Hp) as Hh. rewrite Ho in Hh. destruct Hh as [t ->].
  rewrite run_bind, Hrun. eexists. split; [done|]. cbn. rewrite Ho. cbn. by rewrite Hv.
Qed.

Lemma spec_list_empty options s : (forall key, s !! key = None) -> spec_list md5 options s = AList [] None.
Proof.
  intros He. unfold spec_list. assert (matching_keys options s = []) as ->; [|by rewrite take_nil; unfold nextCursor; rewrite decide_False by (cbn; lia)].
  destruct (matching_keys options s) as [|key l] eqn:E; [done|]. assert (key ∈ matching_keys options s) as [_ [o Ho]]%elem_of_matching by (rewrite E; left).
  by rewrite He in Ho.
Qed.

Lemma run_list s options fs : disk_rep (fs_nodes fs) s ->
  exists page, run (disk_list md5 parse root options) fs = (inr page, fs) /\ AList (view <$> lp_objects page) (lp_nextCursor page) = spec_list md5 options s.
Proof.
  intros Hr. pose proof (dr_tree _ _ Hr) as Ht. unfold disk_list. rewrite run_bind. destruct (fs_nodes fs !! root) as [n|] eqn:Hroot.
  - assert (fs_nodes fs !! (root ++ []) = Some Directory) as Hd.
    { rewrite app_nil_r, Hroot. destruct n; [|done]. exfalso. apply (dr_root _ _ Hr root); [done|by rewrite Hroot]. }
    destruct (run_walk s fs Hr walkDepth [] Hd) as (keys & Hrun & Hnd & Hin); [lia|]. rewrite app_nil_r in Hrun. change (joinSlash []) with (@nil N) in Hrun.
    rewrite Hrun. assert (sortKeys (filter (listed options) keys) = matching_keys options s) as ->.
    { apply sortKeys_perm. f_equiv. apply NoDup_Permutation; [done|apply NoDup_fst_map_to_list|]. intros key. rewrite Hin, list_elem_of_fmap. split.
      - intros [[o Ho] _]. exists (key, o). by rewrite elem_of_map_to_list.
      - intros ([k o] & -> & Hk%elem_of_map_to_list). split; [by eexists|apply prefix_nil]. }
    rewrite run_bind. destruct (run_heads s fs (take (clampListLimit (lo_limit options)) (matching_keys options s)) Hr) as (objects & -> & Hv); [apply matching_present|].
    eexists. split; [done|]. cbn. by rewrite Hv.
  - assert (run (walk walkDepth root []) fs = (inr (inl ENOENT), fs)) as ->.
    { unfold walkDepth. cbn [walk]. rewrite run_sys. unfold perform at 1 2.
      destruct (lookupPath_missing _ _ Hroot) as (e & -> & [->|(_ & r & Hpre & Hf)]); [done|]. by destruct (dr_root _ _ Hr r Hpre). }
    rewrite decide_True by done. eexists. split; [done|]. cbn. symmetry. apply spec_list_empty. intros key.
    destruct (s !! key) as [o|] eqn:Ho; [|done]. destruct (dr_objects _ _ Hr key o Ho) as (_ & (t & Hb) & _). unfold bodyPath in Hb.
    rewrite (tree_prefix _ root _ _ Ht Hb) in Hroot; [done|by destruct (segments key)].
Qed.

(** The operations the layout can carry out: on a key that is refused, or plain. *)
Definition disk_accepts (op : StorageOp) : Prop :=
  match op with
  | OpPut key _ _ | OpGet key | OpGetStream key | OpHead key | OpExists key | OpDelete key => forall k, assertValidObjectKey key = inr k -> plain key
  | OpList _ => True
  end.

Abbreviation adapter := (LocalDiskStorageAdapter directoryStats md5 stringify parse root randomUUID).

Lemma refused key e : assertValidObjectKey key = inl e -> diskDirectory root key = inl e.
Proof. intros He. unfold diskDirectory. by rewrite directoryFor_valid, He. Qed.

Lemma valid_same key k : assertValidObjectKey key = inr k -> assertValidObjectKey key = inr key.
Proof. intros H. by destruct (valid_key key k H) as [-> _]. Qed.

Lemma disk_put_step d s key body options : disk_accepts (OpPut key body options) -> disk_rep (fs_nodes (d_fs d)) s ->
  (run_op adapter (OpPut key body options) d).1 = (spec_op md5 (OpPut key body options) s).1 /\
  disk_rep (fs_nodes (d_fs (run_op adapter (OpPut key body options) d).2)) (spec_op md5 (OpPut key body options) s).2.
Proof.
  intros Hacc Hr. unfold run_op, spec_op, bind, throwing, modify, ret. cbn [sa_put LocalDiskStorageAdapter d_fs].
  destruct (assertValidObjectKey key) as [e|k] eqn:Hv.
  - unfold disk_put. rewrite (refused key e Hv). by cbn.
  - specialize (Hacc k Hv). destruct (normaliseMetadata (po_metadata options)) as [e|metadata] eqn:Hm.
    + unfold disk_put. rewrite (plain_directory randomUUID root key root_text Hacc), Hm. by cbn.
    + destruct (run_put (d_uuids d) s key body options metadata (d_fs d) Hr Hacc Hm) as (t & fs' & -> & Hr'). by cbn.
Qed.

Lemma disk_step d s op : disk_accepts op -> disk_rep (fs_nodes (d_fs d)) s ->
  (run_op adapter op d).1 = (spec_op md5 op s).1 /\ disk_rep (fs_nodes (d_fs (run_op adapter op d).2)) (spec_op md5 op s).2.
Proof.
  intros Hacc Hr. destruct op as [key body options|key|key|key|key|key|options]; [by apply disk_put_step|..];
    unfold run_op, spec_op, spec_find, bind, throwing, modify, ret, reads; cbn [sa_get sa_getStream sa_head sa_exists sa_delete sa_list LocalDiskStorageAdapter d_fs].
  1-5: destruct (assertValidObjectKey key) as [e|k] eqn:Hv;
    [unfold disk_read, disk_head, disk_exists, disk_delete; rewrite (refused key e Hv); by cbn|specialize (Hacc k Hv)].
  - pose proof (run_read "get" s key (d_fs d) Hr Hacc) as H. destruct (s !! key); [destruct H as [t ->]|rewrite H]; by cbn.
  - pose proof (run_read "getStream" s key (d_fs d) Hr Hacc) as H. destruct (s !! key); [destruct H as [t ->]|rewrite H]; by cbn.
  - pose proof (run_head s key (d_fs d) Hr Hacc) as H. destruct (s !! key); [destruct H as [t ->]|rewrite H]; by cbn.
  - rewrite (run_exists s key (d_fs d) Hr Hacc). by cbn.
  - destruct (run_delete s key (d_fs d) Hr Hacc) as (fs' & -> & Hr'). by cbn.
  - destruct (run_list s options (d_fs d) Hr) as (page & -> & Hp). cbn. by rewrite Hp.
Qed.

#[export] Instance disk_contract : StorageContract md5 adapter disk_accepts :=
  {| represents d s := disk_rep (fs_nodes (d_fs d)) s; contract_step op d s Hacc Hr := disk_step d s op Hacc Hr |}.
End refinement.

(** ** Faults and crashes *)

(** No other process, and these faults. *)
Definition faulty (faults : list Fault) : list Moment := (fun f => {| mo_others := fun fs => fs; mo_fault := f |}) <$> faults.

Section faults.
Context (directoryStats : Path -> nat * Z).

Lemma exec_sys {X A} (op : FsOp X) (k : Errno + X -> Prog A) faults fs :
  exec directoryStats (pbind (sys op) k) (faulty faults) fs =
  match default Fine (head faults) with
  | Fine => exec directoryStats (k (perform directoryStats op fs).1) (faulty (tail faults)) (perform directoryStats op fs).2
  | Fails e written => exec directoryStats (k (inl e)) (faulty (tail faults)) (torn directoryStats op written fs)
  | Crash written => (None, torn directoryStats op written fs)
  end.
Proof. destruct faults as [|f faults]; cbn; [by destruct (perform directoryStats op fs)|]. destruct f; [by destruct (perform directoryStats op fs)|done|done]. Qed.

Lemma lookupFrom_inr (nodes : Nodes) (rest : Path) : forall (done : Path) (n : Node), lookupFrom nodes done rest = inr n -> nodes !! (done ++ rest) = Some n.
Proof.
  induction rest as [|name rest IH]; intros done n; cbn.
  - destruct (nodes !! done) as [nd|] eqn:E; [|done]. intros [= <-]. by rewrite app_nil_r.
  - destruct (nodes !! done) as [[|]|]; [done| |done]. intros H%IH. by rewrite <- app_assoc in H.
Qed.

Lemma mkdirFrom_touches (rest : Path) : forall (nodes nodes' : Nodes) (done : Path) (p : Path),
  mkdirFrom nodes done rest = inr nodes' -> ~ p `prefix_of` done ++ rest -> nodes' !! p = nodes !! p.
Proof.
  induction rest as [|name rest IH]; intros nodes nodes' done p; cbn.
  - rewrite app_nil_r. intros H Hp. destruct (nodes !! done) as [[|]|]; [done|by injection H as <-|]. injection H as <-.
    rewrite lookup_insert_ne; [done|]. intros ->. by apply Hp.
  - intros H Hp. assert (done <> p) as Hne by (intros ->; apply Hp; apply prefix_app_r; done).
    destruct (nodes !! done) as [[|]|] eqn:E; [done| |].
    + apply (IH _ _ _ p) in H; [done|]. by rewrite <- app_assoc.
    + apply (IH _ _ _ p) in H; [|by rewrite <- app_assoc]. by rewrite H, lookup_insert_ne.
Qed.

Lemma metadata_refused metadata e : normaliseMetadata metadata = inl e -> exists reason, e = InvalidObjectMetadataError reason.
Proof.
  destruct metadata as [entries|]; [|done]. cbn.
  assert (forall entries m b e, normalise_loop entries m b = inl e -> exists reason, e = InvalidObjectMetadataError reason) as Hloop.
  { clear. induction entries as [|[k v] entries IH]; intros m b e; cbn; [done|]. destruct (isHeaderName _); cbn; [|intros [= <-]; by eexists].
    case_decide; [intros [= <-]; by eexists|]. destruct (isPrintable v); cbn; [apply IH|intros [= <-]; by eexists]. }
  destruct (normalise_loop entries ∅ 0) as [e'|[m b]] eqn:E; [intros [= <-]; by eapply Hloop|]. case_decide; [|done]. intros [= <-]. by eexists.
Qed.

(** What a write may have changed, finished or not. *)
Lemma write_touches p data fs q : q <> p -> fs_nodes (perform directoryStats (WriteFile p data) fs).2 !! q = fs_nodes fs !! q.
Proof. intros Hq. unfold perform. destruct (writable (fs_nodes fs) p); [done|]. cbn. by rewrite lookup_insert_ne. Qed.

Lemma torn_touches p data written fs q : q <> p -> fs_nodes (torn directoryStats (WriteFile p data) written fs) !! q = fs_nodes fs !! q.
Proof. intros Hq. destruct written; [|done]. by apply write_touches. Qed.

Lemma write_done p data fs : (perform directoryStats (WriteFile p data) fs).1 = inr tt -> exists t, fs_nodes (perform directoryStats (WriteFile p data) fs).2 !! p = Some (File data t).
Proof. unfold perform. destruct (writable (fs_nodes fs) p); [done|]. intros _. cbn. rewrite lookup_insert_eq. by eexists. Qed.

Lemma rm_touches p fs q : q <> p -> fs_nodes (perform directoryStats (RmForce p) fs).2 !! q = fs_nodes fs !! q.
Proof. intros Hq. unfold perform. destruct (lookupPath (fs_nodes fs) p) as [[]|[]]; cbn; try done. by rewrite lookup_delete_ne. Qed.

Section put.
Context (md5 : Bytes -> JSText) (stringify : JsonValue -> Bytes) (root : Path) (uuid key : JSText) (body : Bytes) (directory : Path).

Let temp : Path := directory ++ [uuid ++ js ".tmp"].
Let body_at : Path := directory ++ [BODY_FILE].
Let side_at : Path := directory ++ [SIDECAR_FILE].

Definition elsewhere (p : Path) : Prop := ~ p `prefix_of` directory /\ p <> temp /\ p <> side_at /\ p <> body_at.

(** Nothing but this object's files and the directories above them has changed,
    and the body is as it was. *)
Definition kept (fs0 fs : Fs) : Prop :=
  fs_nodes fs !! body_at = fs_nodes fs0 !! body_at /\ forall p, elsewhere p -> fs_nodes fs !! p = fs_nodes fs0 !! p.

Definition replaced (fs0 fs : Fs) : Prop :=
  (exists t, fs_nodes fs !! body_at = Some (File body t)) /\ forall p, elsewhere p -> fs_nodes fs !! p = fs_nodes fs0 !! p.

Lemma names_differ : temp <> body_at /\ side_at <> body_at /\ temp <> side_at.
Proof.
  split_and!; intros E; apply app_inj_tail in E as [_ E].
  - apply (f_equal last) in E. by rewrite last_app in E.
  - done.
  - apply (f_equal last) in E. by rewrite last_app in E.
Qed.

Lemma not_above x : ~ directory ++ [x] `prefix_of` directory.
Proof. intros [r E]. apply (f_equal length) in E. rewrite !length_app in E. cbn in E. lia. Qed.

Definition all_or_nothing (fs0 : Fs) (r : option (StorageError + StorageObject) * Fs) : Prop :=
  match r.1 with
  | Some (inr object) => replaced fs0 r.2
  | Some (inl (StorageOperationError _ _ _)) => kept fs0 r.2
  | Some (inl (UncaughtErrno _)) => replaced fs0 r.2
  | Some (inl _) => r.2 = fs0
  | None => kept fs0 r.2 \/ replaced fs0 r.2
  end.

Lemma kept_write fs0 fs p data : kept fs0 fs -> p = temp \/ p = side_at -> kept fs0 (perform directoryStats (WriteFile p data) fs).2.
Proof.
  destruct names_differ as (H1 & H2 & H3). intros [Hb He] Hp. split; [rewrite write_touches; [done|naive_solver]|].
  intros q Hq. rewrite write_touches; [by apply He|]. destruct Hq as (_ & ? & ? & _). naive_solver.
Qed.

Lemma kept_torn fs0 fs p data written : kept fs0 fs -> p = temp \/ p = side_at -> kept fs0 (torn directoryStats (WriteFile p data) written fs).
Proof. intros Hk Hp. destruct written; [|done]. by apply kept_write. Qed.

(** The handler of a failure: the temporary file goes, and the error is the operation's. *)
Lemma exec_fail fs0 fs faults e : kept fs0 fs ->
  all_or_nothing fs0 (exec directoryStats (await _ := sys (RmForce temp) in Throw (operationError "put" key e) : Prog StorageObject) (faulty faults) fs).
Proof.
  destruct names_differ as (H1 & H2 & H3). intros Hk. rewrite exec_sys. destruct (default Fine (head faults)) as [|e' w|w]; [..|by left].
  - destruct Hk as [Hb He]. change (kept fs0 (perform directoryStats (RmForce temp) fs).2). split; [by rewrite rm_touches|]. intros p Hp. rewrite rm_touches; [by apply He|]. by destruct Hp as (_ & ? & _).
  - done.
Qed.

Lemma exec_rename fs0 fs faults object t : kept fs0 fs -> fs_nodes fs !! temp = Some (File body t) ->
  all_or_nothing fs0 (exec directoryStats
    (await moved := sys (Rename temp body_at) in
     match moved with
     | inl e => await _ := sys (RmForce temp) in Throw (operationError "put" key e)
     | inr _ => await stats := sys (Stat body_at) in
                match stats with inl e => Throw (UncaughtErrno (errno_code e)) | inr stats => Ret (object stats) end
     end : Prog StorageObject) (faulty faults) fs).
Proof.
  destruct names_differ as (H1 & H2 & H3). intros Hk Ht. rewrite exec_sys. destruct (default Fine (head faults)) as [|e' w|w]; [|by apply exec_fail|by left].
  unfold perform at 1 2. destruct (lookupPath (fs_nodes fs) temp) as [e|n] eqn:E; [by apply exec_fail|].
  apply lookupFrom_inr in E. cbn [app] in E. rewrite Ht in E. injection E as <-.
  destruct (writable (fs_nodes fs) body_at) as [e|[]]; [by apply exec_fail|]. cbn [fst snd].
  assert (replaced fs0 (with_nodes (<[body_at := File body t]> (delete temp (fs_nodes fs))) fs)) as Hrep.
  { split; [exists t; apply lookup_insert_eq|]. intros p (Hp & Hp1 & Hp2 & Hp3). cbn [fs_nodes with_nodes].
    rewrite lookup_insert_ne, lookup_delete_ne by done. by apply Hk. }
  rewrite exec_sys. destruct (default Fine (head (tail faults))) as [|e' w|w]; [|done|by right].
  unfold perform at 1 2. by destruct (lookupPath _ _).
Qed.

Lemma exec_put fs faults options : diskDirectory root key = inr directory ->
  all_or_nothing fs (exec directoryStats (disk_put md5 stringify root uuid key body options) (faulty faults) fs).
Proof.
  destruct names_differ as (H1 & H2 & H3). intros Hd. unfold disk_put. rewrite Hd. fold temp body_at side_at.
  destruct (normaliseMetadata (po_metadata options)) as [e|metadata] eqn:Hm.
  { by apply metadata_refused in Hm as [reason ->]. }
  set (object := fun stats => {| so_key := key; so_size := st_size stats; so_contentType := po_contentType options; so_etag := etagOf md5 body;
                                 so_lastModified := st_mtimeMs stats; so_metadata := metadata |}).
  assert (kept fs fs) as Hk0 by done. rewrite exec_sys. destruct (default Fine (head faults)) as [|e w|w]; [|by apply exec_fail|by left].
  unfold perform at 1 2. destruct (mkdirFrom (fs_nodes fs) [] directory) as [e|nodes1] eqn:Hmk; [by apply exec_fail|]. cbn [fst snd].
  assert (kept fs (with_nodes nodes1 fs)) as Hk1.
  { split; [|intros p [Hp _]]; apply (mkdirFrom_touches _ _ _ _ _ Hmk); [apply not_above|done]. }
  set (fs1 := with_nodes nodes1 fs) in *. rewrite exec_sys.
  destruct (default Fine (head (tail faults))) as [|e w|w]; [|apply exec_fail, kept_torn; by auto|left; apply kept_torn; by auto].
  destruct (perform directoryStats (WriteFile temp body) fs1).1 as [e|[]] eqn:Hw; [apply exec_fail, kept_write; by auto|].
  destruct (write_done _ _ _ Hw) as [t Ht]. pose proof (kept_write _ _ temp body Hk1 (or_introl eq_refl)) as Hk2.
  set (fs2 := (perform directoryStats (WriteFile temp body) fs1).2) in *. rewrite exec_sys.
  destruct (default Fine (head (tail (tail faults)))) as [|e w|w]; [|apply exec_fail, kept_torn; by auto|left; apply kept_torn; by auto].
  match goal with |- context [WriteFile side_at ?json] => set (text := json) end.
  destruct (perform directoryStats (WriteFile side_at text) fs2).1 as [e|[]]; [apply exec_fail, kept_write; by auto|].
  apply (exec_rename _ _ _ object t); [apply kept_write; by auto|]. by rewrite write_touches.
Qed.
End put.
End faults.

(** C29: a [put] never leaves a part of a body.  Let any of its calls fail, let the
    process die at any of them, and let a write break off after any number of
    bytes: afterwards the body at the key is the one from before or the whole
    new one; it is the new one whenever [put] returned, and the one from before
    whenever it threw its own error.  Apart from that body only the object's own
    sidecar, the temporary file of this [put] and the directories on the way to
    them may have changed, so that after a failed rename the old body may lie
    under the new metadata. *)
Theorem put_body_whole directoryStats md5 stringify root uuid key body options directory fs faults :
  diskDirectory root key = inr directory ->
  let '(outcome, fs') := exec directoryStats (disk_put md5 stringify root uuid key body options) (faulty faults) fs in
  let before := fs_nodes fs !! (directory ++ [BODY_FILE]) in
  let now := fs_nodes fs' !! (directory ++ [BODY_FILE]) in
  (now = before \/ exists t, now = Some (File body t)) /\
  (forall object, outcome = Some (inr object) -> exists t, now = Some (File body t)) /\
  (forall adapter operation code, outcome = Some (inl (StorageOperationError adapter operation code)) -> now = before) /\
  (forall p, ~ p `prefix_of` directory -> p ∉ [directory ++ [BODY_FILE]; directory ++ [SIDECAR_FILE]; directory ++ [uuid ++ js ".tmp"]] ->
     fs_nodes fs' !! p = fs_nodes fs !! p).
Proof.
  intros Hd. pose proof (exec_put directoryStats md5 stringify root uuid key body directory fs faults options Hd) as H.
  destruct (exec directoryStats (disk_put md5 stringify root uuid key body options) (faulty faults) fs) as [outcome fs'].
  assert (kept uuid directory fs fs' \/ replaced uuid body directory fs fs') as Hcase.
  { unfold all_or_nothing in H. cbn in H. destruct outcome as [[[]|]|]; eauto; try (left; subst; by split). }
  split_and!.
  - destruct Hcase as [[? _]|[? _]]; [by left|by right].
  - intros object ->. by destruct H.
  - intros adapter operation code ->. by destruct H.
  - intros p Hp Hn. rewrite !not_elem_of_cons in Hn. destruct Hn as (? & ? & ? & _).
    destruct Hcase as [[_ He]|[_ He]]; apply He; by split_and!.
Qed.

(** ** Concrete disks *)

(** A text for every JSON value, one number long. *)
Abbreviation JsonLeaf := (bool + Z * Z + JSText + string)%type.

Fixpoint to_tree (v : JsonValue) : gen_tree JsonLeaf :=
  match v with
  | JNull => GenNode 0 []
  | JBool b => GenLeaf (inl (inl (inl b)))
  | JNumber m e => GenLeaf (inl (inl (inr (m, e))))
  | JString t => GenLeaf (inl (inr t))
  | JArray items => GenNode 1 (to_tree <$> items)
  | JObject members => GenNode 2 ((fun kv => GenNode 3 [GenLeaf (inr kv.1); to_tree kv.2]) <$> members)
  end.

Fixpoint of_tree (t : gen_tree JsonLeaf) : option JsonValue :=
  match t with
  | GenLeaf (inl (inl (inl b))) => Some (JBool b)
  | GenLeaf (inl (inl (inr (m, e)))) => Some (JNumber m e)
  | GenLeaf (inl (inr t)) => Some (JString t)
  | GenLeaf (inr _) => None
  | GenNode 0 _ => Some JNull
  | GenNode 1 ts => JArray <$> mapM of_tree ts
  | GenNode 2 ts => JObject <$> mapM (fun t => match t with GenNode 3 [GenLeaf (inr k); t] => pair k <$> of_tree t | _ => None end) ts
  | GenNode _ _ => None
  end.

Lemma of_to_tree v : of_tree (to_tree v) = Some v.
Proof.
  induction v as [|b|m e|t|l IH|ms IH] using JsonValue_nested_ind; try done.
  - cbn. assert (mapM of_tree (to_tree <$> l) = Some l) as ->; [|done]. induction IH as [|v l Hv _ IHl]; [done|]. cbn. rewrite Hv. cbn. by rewrite IHl.
  - cbn. match goal with |- JObject <$> mapM ?f _ = _ => assert (forall ms, Forall (fun kv => of_tree (to_tree kv.2) = Some kv.2) ms ->
      mapM f ((fun kv => GenNode 3 [GenLeaf (inr kv.1); to_tree kv.2]) <$> ms) = Some ms) as Hms end.
    { clear. induction 1 as [|[k v] ms Hv _ IH]; [done|]. cbn. cbn in Hv. rewrite Hv. cbn. by rewrite IH. }
    by rewrite (Hms ms IH).
Qed.

Definition sample_stringify (v : JsonValue) : Bytes := [N.pos (encode (to_tree v))].
Definition sample_parse (text : Bytes) : option JsonValue := match text with [N.pos p] => decode p ≫= of_tree | _ => None end.

Lemma sample_json v : sample_parse (sample_stringify v) = Some v.
Proof. cbn. rewrite decode_encode. cbn. apply of_to_tree. Qed.

Definition empty_disk (now : Z) : Fs := {| fs_nodes := {[ [] := Directory ]}; fs_now := now |}.

Lemma empty_disk_rep md5 stringify root randomUUID now : disk_rep md5 stringify root randomUUID (fs_nodes (empty_disk now)) ∅.
Proof.
  assert (forall (p : Path) n, fs_nodes (empty_disk now) !! p = Some n -> p = [] /\ n = Directory) as Hone.
  { intros p n Hn. unfold empty_disk in Hn. cbn [fs_nodes] in Hn. apply lookup_singleton_Some in Hn. naive_solver. }
  constructor.
  - split; [done|]. intros p name n [E _]%Hone. by destruct p.
  - intros p _ Hf. destruct (fs_nodes (empty_disk now) !! p) as [n|] eqn:E; [|done]. by apply Hone in E as [_ ->].
  - intros key o Ho. by apply lookup_empty_Some in Ho.
  - intros q n Hq [E _]%Hone. by apply app_eq_nil in E as [_ ->].
Qed.

(** C28: the disk is a flat keyspace.  On keys of well-formed text that use none
    of the adapter's own names, a new disk answers every sequence of operations
    with what the store in a map answers: the same objects, bodies, metadata,
    entity tags, errors and pages, so that [a/b] and [a/b/c] are both objects, a
    deletion removes one of them, and a directory that is left empty shows
    nowhere. *)
Theorem disk_answers_as_memory directoryStats md5 stringify parse root randomUUID now now' n ops :
  (forall v, parse (stringify v) = Some v) -> toWellFormed <$> root = root -> Forall (disk_accepts randomUUID) ops ->
  answers (LocalDiskStorageAdapter directoryStats md5 stringify parse root randomUUID) ops {| d_fs := empty_disk now; d_uuids := n |} =
  answers (InMemoryStorageAdapter md5) ops {| ms_objects := ∅; ms_now := now' |}.
Proof.
  intros Hjson Hroot Hall.
  rewrite (@contract_answers md5 _ _ _ (disk_contract directoryStats md5 stringify parse root randomUUID Hjson Hroot) ops
    {| d_fs := empty_disk now; d_uuids := n |} ∅ Hall (empty_disk_rep md5 stringify root randomUUID now)).
  symmetry. apply (contract_answers md5 _ (fun _ => True)); [by apply Forall_true|].
  split; [done|]. intros key e He. cbn in He. by apply lookup_empty_Some in He.
Qed.

Definition sample_uuid (n : nat) : JSText := js ("uuid-" +:+ pretty n).
Definition sample_root : Path := [js "srv"; js "data"].
Definition sample_stats (_ : Path) : nat * Z := (4096%nat, 0).

Lemma sample_plain key : assertValidObjectKey key = inr key ->
  forallb (fun s => bool_decide (toWellFormed s = s) && bool_decide (s <> BODY_FILE) && bool_decide (s <> SIDECAR_FILE) && bool_decide (last s <> Some 112%N)) (splitSlash key) = true ->
  plain sample_uuid key.
Proof.
  intros Hv Hs. split; [done|]. rewrite forallb_forall in Hs. apply Forall_forall. intros s Hin%list_elem_of_In%Hs.
  apply andb_true_iff in Hin as [[[H1 H2]%andb_true_iff H3]%andb_true_iff H4].
  apply bool_decide_eq_true in H1, H2, H3, H4. split; [done|]. intros [?|[?|[n E]]]; [done|done|].
  apply (f_equal last) in E. rewrite last_app in E. cbn in E. by rewrite E in H4.
Qed.

Definition sample_ops : list StorageOp :=
  [OpPut (js "avatars/7") (js "face") sample_options; OpPut (js "avatars/7/thumb") (js "f") sample_options; OpDelete (js "avatars/7");
   OpHead (js "avatars/7"); OpGet (js "avatars/7/thumb"); OpHead (js "../etc/passwd");
   OpList {| lo_prefix := None; lo_limit := None; lo_cursor := None |}].

Lemma sample_accepted : Forall (disk_accepts sample_uuid) sample_ops.
Proof.
  unfold sample_ops. repeat (apply Forall_cons; split); [..|done|by apply Forall_nil].
  6: { intros k Hk. vm_compute in Hk. done. }
  all: intros k _; apply sample_plain; vm_compute; reflexivity.
Qed.

Definition view_of (key : string) (body : string) : ObjectView :=
  {| ov_key := js key; ov_size := String.length body; ov_contentType := js "text/plain"; ov_etag := js (dq +:+ "md5-" +:+ body +:+ dq); ov_metadata := ∅ |}.

Lemma disk_answers_as_memory_witness :
  let disk := LocalDiskStorageAdapter sample_stats sample_md5 sample_stringify sample_parse sample_root sample_uuid in
  answers disk sample_ops {| d_fs := empty_disk 1; d_uuids := 0 |} =
  [inr (APut (view_of "avatars/7" "face")); inr (APut (view_of "avatars/7/thumb" "f")); inr ADelete;
   inl (ObjectNotFoundError (js "avatars/7")); inr (AGet (view_of "avatars/7/thumb" "f") (js "f"));
   inl (InvalidObjectKeyError (js "../etc/passwd") (js "key must not contain '.' or '..' segments"));
   inr (AList [view_of "avatars/7/thumb" "f"] None)].
Proof.
  intros disk. unfold disk. rewrite (disk_answers_as_memory sample_stats sample_md5 sample_stringify sample_parse sample_root sample_uuid 1 2 0 sample_ops
    sample_json eq_refl sample_accepted). vm_compute. reflexivity.
Defined.

Abbreviation sample_put := (disk_put sample_md5 sample_stringify sample_root).

Definition text_options (contentType : string) : PutObjectOptions := {| po_contentType := js contentType; po_metadata := None; po_cacheControl := None |}.

(** A disk after some operations. *)
Definition after_puts (puts : list (string * string)) : Fs :=
  foldl (fun fs kb => (run sample_stats (sample_put (js "u") (js (fst kb)) (js (snd kb)) (text_options "text/plain")) fs).2) (empty_disk 1) puts.

Definition on_disk (key name : string) : Path := sample_root ++ splitSlash (js key) ++ [js name].

(** The process dies while the new body is being written: the old one is still there. *)
Lemma put_body_whole_witness :
  let fs := after_puts [("a", "old")]%string in
  let '(outcome, fs') := exec sample_stats (sample_put (js "v") (js "a") (js "new") sample_options) (faulty [Fine; Crash (Some 2%nat)]) fs in
  diskDirectory sample_root (js "a") = inr [js "srv"; js "data"; js "a"] /\ outcome = None /\
  fs_nodes fs' !! on_disk "a" "v.tmp" = Some (File (js "ne") 1) /\
  fs_nodes fs' !! on_disk "a" ".object" = Some (File (js "old") 1).
Proof.
  pose proof (put_body_whole sample_stats sample_md5 sample_stringify sample_root (js "v") (js "a") (js "new") sample_options
    [js "srv"; js "data"; js "a"] (after_puts [("a", "old")]%string) [Fine; Crash (Some 2%nat)] eq_refl) as H.
  vm_compute in H |- *. split; [reflexivity|]. split; [reflexivity|]. split; [reflexivity|].
  destruct H as [[H|[t H]] _]; [exact H|discriminate].
Defined.

(** A key with a segment that is one of the adapter's own names is accepted, and
    is in the way of the object it is named after. *)
Example own_names_collide :
  let disk := LocalDiskStorageAdapter sample_stats sample_md5 sample_stringify sample_parse sample_root sample_uuid in
  assertValidObjectKey (js "a/.object") = inr (js "a/.object") /\
  answers disk [OpPut (js "a") (js "x") sample_options; OpPut (js "a/.object") (js "y") sample_options] {| d_fs := empty_disk 1; d_uuids := 0 |}
  = [inr (APut (view_of "a" "x")); inl (StorageOperationError Local (js "put a/.object") "EEXIST")].
Proof. split; vm_compute; reflexivity. Qed.

(** A deletion that prunes a directory the walk is about to read makes the whole
    listing come back empty, although another object was there throughout. *)
Example deletion_empties_listing :
  let fs := after_puts [("a", "x"); ("b", "y")]%string in
  let deletes (key : string) : Moment := {| mo_others := fun fs => (run sample_stats (disk_delete sample_root (js key)) fs).2; mo_fault := Fine |} in
  let '(outcome, fs') := exec sample_stats (disk_list sample_md5 sample_parse sample_root {| lo_prefix := None; lo_limit := None; lo_cursor := None |})
    [quiet; deletes "b"%string] fs in
  outcome = Some (inr {| lp_objects := []; lp_nextCursor := None |}) /\ fs_nodes fs' !! on_disk "a" ".object" = Some (File (js "x") 1).
Proof. vm_compute. split; reflexivity. Qed.

(** Two uploads of one key: the body of one ends up under the content type and
    the entity tag of the other. *)
Example concurrent_puts_mix :
  let other : Moment := {| mo_others := fun fs => (run sample_stats (sample_put (js "w") (js "a") (js "second") (text_options "image/png")) fs).2; mo_fault := Fine |} in
  let '(outcome, fs') := exec sample_stats (sample_put (js "v") (js "a") (js "first") (text_options "text/plain")) [quiet; quiet; quiet; other] (empty_disk 1) in
  (run sample_stats (disk_read sample_md5 sample_parse sample_root "get" (js "a")) fs').1 =
  inr ({| so_key := js "a"; so_size := 5; so_contentType := js "image/png"; so_etag := etagOf sample_md5 (js "second"); so_lastModified := 1; so_metadata := ∅ |}, js "first").
Proof. vm_compute. reflexivity. Qed.

(** A deletion can take the directory from under an upload of the same key,
    which then fails. *)
Example deletion_fails_upload :
  let deletes : Moment := {| mo_others := fun fs => (run sample_stats (disk_delete sample_root (js "a")) fs).2; mo_fault := Fine |} in
  (exec sample_stats (sample_put (js "v") (js "a") (js "new") sample_options) [quiet; deletes] (after_puts [("a", "old")]%string)).1 =
  Some (inl (StorageOperationError Local (js "put a") "ENOENT")).
Proof. vm_compute. reflexivity. Qed.

(** Two keys that differ in a lone surrogate are one directory. *)
Example lone_surrogates_collide :
  let one := [97; 55296]%N in let two := [97; 56320]%N in
  one <> two /\ assertValidObjectKey one = inr one /\ assertValidObjectKey two = inr two /\ diskDirectory sample_root one = diskDirectory sample_root two.
Proof. split; [done|]. split_and!; vm_compute; reflexivity. Qed.
