(* ===== verification/TenantIsolation.v ===== *)
(** * TenantIsolation: tenants who share one database

    [tenancy/tenant-prisma.ts], [common/prisma/prisma-transaction.runner.ts] and
    the policies of [prisma/migrations/20261002000000_add_multi_tenancy].  Work
    runs on pooled connections, one statement at a time and interleaved in any
    order; each session sees the committed rows under its own changes, and the
    policies see the setting of its transaction.  Foreign keys between rows of
    one tenant ([orders.userId]) are left out. *)

From S2P Require Import Prelude Text Tenancy.

(** ** Rows, statements and policies *)

(** A row of [users], [orders] or [tenants]: its tenant (of a tenant, the row's
    own id), the value of its unique column ([email], [sagaId]) and the rest. *)
Record Row := { row_tenant : TenantId; row_key : option JSText; row_data : string }.

#[export] Instance Row_eq : EqDecision Row.
Proof. solve_decision. Defined.

Abbreviation RowId := (Table * JSText)%type.
Abbreviation Rows := (gmap (Table * JSText) Row).
Abbreviation Changes := (gmap (Table * JSText) (option Row)).

Inductive SqlState := InsufficientPrivilege | UniqueViolation | ForeignKeyViolation | InFailedTransaction.

Inductive Result := Found (rows : Rows) | Failed (code : SqlState).

Inductive Statement :=
  | Select (t : Table) (where_ : JSText -> Row -> bool)
  | Insert (t : Table) (id : JSText) (tenant : option TenantId) (key : option JSText) (data : string)
  | Update (t : Table) (id : JSText) (where_ : Row -> bool) (set : Row -> Row)
  | Delete (t : Table) (id : JSText) (where_ : Row -> bool).

(** [nullif(current_setting('app.current_tenant_id', true), '')] *)
Definition current_tenant_id (setting : option JSText) : option TenantId :=
  match setting with Some [] => None | _ => setting end.

(** The column default; [None] is the exception it raises. *)
Definition require_tenant_id (setting : option JSText) : option TenantId := current_tenant_id setting.

(** [USING ("tenantId" = current_tenant_id())], and [USING ("id" = …)] on
    [tenants]. *)
Definition using_policy (cat : Catalog) (t : Table) (setting : option JSText) (row : Row) : bool :=
  negb (enforced cat t) || bool_decide (current_tenant_id setting = Some (row_tenant row)).

(** [WITH CHECK]; [tenants] has a policy for [SELECT] and none for writes. *)
Definition write_policy (cat : Catalog) (t : Table) (setting : option JSText) (row : Row) : bool :=
  negb (enforced cat t) || (bool_decide (t <> Tenants) && bool_decide (current_tenant_id setting = Some (row_tenant row))).

(** A unique index knows nothing of policies. *)
Definition key_taken (view : Rows) (t : Table) (id : JSText) (key : option JSText) : bool :=
  match key with
  | None => false
  | Some _ => bool_decide (filter (fun kr => kr.1.1 = t /\ kr.1.2 <> id /\ row_key kr.2 = key) view <> ∅)
  end.

(** The row a write finds, in the eyes of the policies. *)
Definition target (cat : Catalog) (setting : option JSText) (view : Rows) (t : Table) (id : JSText) (where_ : Row -> bool) : option Row :=
  row ← view !! (t, id);
  if using_policy cat t setting row && write_policy cat t setting row && where_ row then Some row else None.

Definition check_write (cat : Catalog) (setting : option JSText) (view : Rows) (t : Table) (id : JSText) (row : Row) : Result * Changes :=
  if negb (write_policy cat t setting row) then (Failed InsufficientPrivilege, ∅)
  else if key_taken view t id (row_key row) then (Failed UniqueViolation, ∅)
  else match view !! (Tenants, row_tenant row) with
       | None => (Failed ForeignKeyViolation, ∅)
       | Some _ => (Found {[ (t, id) := row ]}, {[ (t, id) := Some row ]})
       end.

Definition exec (cat : Catalog) (setting : option JSText) (view : Rows) (s : Statement) : Result * Changes :=
  match s with
  | Select t where_ =>
      (Found (filter (fun kr => kr.1.1 = t /\ using_policy cat t setting kr.2 = true /\ where_ kr.1.2 kr.2 = true) view), ∅)
  | Insert t id tenant key data =>
      match (match tenant with Some _ => tenant | None => require_tenant_id setting end) with
      | None => (Failed InsufficientPrivilege, ∅)
      | Some tn =>
          let row := {| row_tenant := tn; row_key := key; row_data := data |} in
          if negb (write_policy cat t setting row) then (Failed InsufficientPrivilege, ∅)
          else match view !! (t, id) with
               | Some _ => (Failed UniqueViolation, ∅)
               | None => check_write cat setting view t id row
               end
      end
  | Update t id where_ set =>
      match target cat setting view t id where_ with
      | Some row => check_write cat setting view t id (set row)
      | None => (Found ∅, ∅)
      end
  | Delete t id where_ =>
      match target cat setting view t id where_ with
      | Some row => (Found {[ (t, id) := row ]}, {[ (t, id) := None ]})
      | None => (Found ∅, ∅)
      end
  end.

(** The row a statement locks and the unique value it claims. *)
Definition lock_of (cat : Catalog) (setting : option JSText) (view : Rows) (s : Statement) : option RowId :=
  match s with
  | Select _ _ => None
  | Insert t id _ _ _ => Some (t, id)
  | Update t id where_ _ | Delete t id where_ => (fun _ => (t, id)) <$> target cat setting view t id where_
  end.

Definition claim_of (cat : Catalog) (setting : option JSText) (view : Rows) (s : Statement) : option (Table * JSText) :=
  match s with
  | Select _ _ | Delete _ _ _ => None
  | Insert t _ _ key _ => (fun k => (t, k)) <$> key
  | Update t id where_ set => row ← target cat setting view t id where_; (fun k => (t, k)) <$> row_key (set row)
  end.

(** ** Sessions and connections *)

(** The statements of a unit of work; each may depend on the answers before. *)
Inductive Work := Stmt (s : Statement) (k : Result -> Work) | End_ (commit : bool).

Record Session := {
  ss_scope : Scope;                (* the tenant context the work was started in *)
  ss_first : option TenantId;      (* the setting still to be made *)
  ss_local : option JSText;        (* the setting of this transaction *)
  ss_aborted : bool;
  ss_changes : Changes;
  ss_work : Work;
}.

(** A pooled connection keeps its own settings from one session to the next. *)
Record Conn := { cn_setting : option JSText; cn_session : option Session }.

Definition idle : Conn := {| cn_setting := None; cn_session := None |}.

Inductive Answer := Answered (r : Result) | Refused (e : TenantError).

Record State := {
  st_conns : gmap nat Conn;
  st_rows : Rows;                              (* committed *)
  st_log : list (option TenantId * Answer);    (* what was answered, and to whom *)
}.

Definition conn_of (st : State) (c : nat) : Conn := default idle (st_conns st !! c).

Definition with_conn (c : nat) (conn : Conn) (st : State) : State :=
  {| st_conns := <[c := conn]> (st_conns st); st_rows := st_rows st; st_log := st_log st |}.
Definition with_log (who : option TenantId) (a : Answer) (st : State) : State :=
  {| st_conns := st_conns st; st_rows := st_rows st; st_log := st_log st ++ [(who, a)] |}.
Definition with_rows (rows : Rows) (st : State) : State :=
  {| st_conns := st_conns st; st_rows := rows; st_log := st_log st |}.

Definition overlay (changes : Changes) (rows : Rows) : Rows :=
  merge (fun change row => match change with Some change => change | None => row end) changes rows.

(** [set_config('app.current_tenant_id', value, is_local)] in a transaction *)
Definition set_config (value : JSText) (is_local : bool) (conn : Conn) (ss : Session) : Conn :=
  let ss' := {| ss_scope := ss_scope ss; ss_first := None; ss_local := if is_local then Some value else ss_local ss;
                ss_aborted := ss_aborted ss; ss_changes := ss_changes ss; ss_work := ss_work ss |} in
  {| cn_setting := if is_local then cn_setting conn else Some value; cn_session := Some ss' |}.

Definition tenantSetting (tenantId : TenantId) (conn : Conn) (ss : Session) : Conn := set_config tenantId true conn ss.

Definition current_setting (conn : Conn) (ss : Session) : option JSText :=
  match ss_local ss with Some v => Some v | None => cn_setting conn end.

(** A write waits for a transaction that changed its row, or that holds or gives
    up the unique value it claims. *)
Definition contends (rows : Rows) (lock : option RowId) (claim : option (Table * JSText)) (changes : Changes) : Prop :=
  map_Exists (fun k change => lock = Some k \/
                exists key, claim = Some (k.1, key) /\ ((change ≫= row_key) = Some key \/ (rows !! k ≫= row_key) = Some key)) changes.

#[export] Instance contends_dec rows lock claim changes : Decision (contends rows lock claim changes).
Proof.
  apply map_Exists_dec. intros k change. apply or_dec; [apply _|].
  destruct claim as [[t key]|]; [|right; by intros (? & ? & _)].
  destruct (decide (t = k.1)) as [->|Hne]; [|right; intros (? & [= ] & _); congruence].
  destruct (decide ((change ≫= row_key) = Some key \/ (rows !! k ≫= row_key) = Some key)) as [H|H];
    [left; eauto|right; intros (? & [= <-] & ?); done].
Defined.

Definition blocked (st : State) (c : nat) (lock : option RowId) (claim : option (Table * JSText)) : bool :=
  bool_decide (map_Exists (fun c' conn =>
    c' <> c /\ contends (st_rows st) lock claim (default ∅ (ss_changes <$> cn_session conn))) (st_conns st)).

Definition answered (ss : Session) (r : Result) (delta : Changes) (k : Result -> Work) : Session :=
  {| ss_scope := ss_scope ss; ss_first := None; ss_local := ss_local ss;
     ss_aborted := ss_aborted ss || match r with Failed _ => true | Found _ => false end;
     ss_changes := delta ∪ ss_changes ss; ss_work := k r |}.

Definition tenant_of (s : Scope) : option TenantId := tc_tenantId <$> s.

(** The next command of the session on connection [c]; [None] when there is none
    or when it has to wait. *)
Definition advance (cat : Catalog) (st : State) (c : nat) : option State :=
  let conn := conn_of st c in
  match cn_session conn with
  | None => None
  | Some ss =>
      match ss_first ss, ss_work ss with
      | Some t, _ => Some (with_conn c (tenantSetting t conn ss) st)
      | None, End_ commit =>
          let st' := with_conn c {| cn_setting := cn_setting conn; cn_session := None |} st in
          Some (if commit && negb (ss_aborted ss) then with_rows (overlay (ss_changes ss) (st_rows st)) st' else st')
      | None, Stmt s k =>
          let reply r delta := with_log (tenant_of (ss_scope ss)) (Answered r)
            (with_conn c {| cn_setting := cn_setting conn; cn_session := Some (answered ss r delta k) |} st) in
          if ss_aborted ss then Some (reply (Failed InFailedTransaction) ∅)
          else
            let view := overlay (ss_changes ss) (st_rows st) in
            let setting := current_setting conn ss in
            if blocked st c (lock_of cat setting view s) (claim_of cat setting view s) then None
            else let (r, delta) := exec cat setting view s in Some (reply r delta)
      end
  end.

(** ** Where work comes from *)

(** A request, or work that is not one: under [runInTenant], or a poller's. *)
Inductive Origin :=
  | Request (headers : TenantRequestHeaders) (credentials : Credentials)
  | WorkerFor (t : TenantId)
  | Poller.

Definition scope_of (env : TenancyEnv) (o : Origin) : TenantError + Scope :=
  match o with
  | Request headers credentials => fst (serve env headers credentials currentTenant None)
  | WorkerFor t => fst (runInTenant t currentTenant None)
  | Poller => fst (outsideAnyTenant currentTenant None)
  end.

(** One operation of the extended client, a transaction, or a statement on the
    plain client. *)
Inductive Job := Operation (s : Statement) | Transaction (w : Work) | RawStatement (s : Statement).

Definition single (s : Statement) : Work := Stmt s (fun _ => End_ true).

(** [setTransactionTenant]: the setting to make, when there is a tenant. *)
Definition setTransactionTenant (scope : Scope) : option TenantId := tenant_of scope.

(** [tenantScopeExtension]: the batch of the setting and the operation. *)
Definition tenantScopeExtension (s : Statement) (scope : Scope) : TenantError + (option TenantId * Work) :=
  match fst (requireTenantId "model.operation" scope) with
  | inl e => inl e
  | inr t => inr (Some t, single s)
  end.

Definition begin_job (scope : Scope) (job : Job) : TenantError + (option TenantId * Work) :=
  match job with
  | Operation s => tenantScopeExtension s scope
  | Transaction w => inr (setTransactionTenant scope, w)
  | RawStatement s => inr (None, single s)
  end.

Inductive Event := Start (c : nat) (o : Origin) (job : Job) | Advance (c : nat).

Definition open_session (scope : Scope) (first : option TenantId) (w : Work) : Session :=
  {| ss_scope := scope; ss_first := first; ss_local := None; ss_aborted := false; ss_changes := ∅; ss_work := w |}.

Definition start_job (env : TenancyEnv) (st : State) (c : nat) (o : Origin) (job : Job) : option State :=
  let conn := conn_of st c in
  match cn_session conn with
  | Some _ => None
  | None =>
      match scope_of env o with
      | inl e => Some (with_log None (Refused e) st)
      | inr scope =>
          Some match begin_job scope job with
               | inl e => with_log (tenant_of scope) (Refused e) st
               | inr (first, w) => with_conn c {| cn_setting := cn_setting conn; cn_session := Some (open_session scope first w) |} st
               end
      end
  end.

Definition event (cat : Catalog) (env : TenancyEnv) (st : State) (e : Event) : option State :=
  match e with
  | Start c o job => start_job env st c o job
  | Advance c => advance cat st c
  end.

Fixpoint run (cat : Catalog) (env : TenancyEnv) (st : State) (events : list Event) : option State :=
  match events with
  | [] => Some st
  | e :: rest => st' ← event cat env st e; run cat env st' rest
  end.

Definition start (rows : Rows) : State := {| st_conns := ∅; st_rows := rows; st_log := [] |}.

(** ** What one tenant sees *)

Definition own (t : TenantId) (rows : Rows) : Rows := filter (fun kr => row_tenant kr.2 = t) rows.

Definition observations (t : TenantId) (st : State) : list Answer :=
  snd <$> filter (fun entry => entry.1 = Some t) (st_log st).

Definition scope_tenant (env : TenancyEnv) (o : Origin) : option TenantId :=
  match scope_of env o with inr s => tenant_of s | inl _ => None end.

Definition session_tenant (conn : Conn) : option TenantId := cn_session conn ≫= fun ss => tenant_of (ss_scope ss).

Definition event_tenant (env : TenancyEnv) (st : State) (e : Event) : option TenantId :=
  match e with
  | Start _ o _ => scope_tenant env o
  | Advance c => session_tenant (conn_of st c)
  end.

(** The events of a run that are the tenant's own. *)
Fixpoint purge (cat : Catalog) (env : TenancyEnv) (t : TenantId) (st : State) (events : list Event) : list Event :=
  match events with
  | [] => []
  | e :: rest =>
      let later := match event cat env st e with Some st' => purge cat env t st' rest | None => [] end in
      if decide (event_tenant env st e = Some t) then e :: later else later
  end.

Section isolation.
Context (cat : Catalog) (env : TenancyEnv).
Hypothesis Henforced : forall t, enforced cat t = true.

(** Ids and unique values are apart: each belongs to one tenant.  Ids are drawn
    at random; email addresses are not, and without this a tenant could learn
    that another has an account for one. *)
Context (ownerId : Table * JSText -> TenantId) (ownerKey : Table -> JSText -> TenantId).

Definition owns (k : Table * JSText) (row : Row) : Prop :=
  ownerId k = row_tenant row /\ forall key, row_key row = Some key -> ownerKey k.1 key = row_tenant row.

Definition rows_apart (rows : Rows) : Prop := map_Forall owns rows.

Definition stmt_apart (t : TenantId) (s : Statement) : Prop :=
  match s with
  | Select _ _ | Delete _ _ _ => True
  | Insert tb id _ key _ => ownerId (tb, id) = t /\ forall k, key = Some k -> ownerKey tb k = t
  | Update tb _ _ set => forall row k, row_key (set row) = Some k -> ownerKey tb k = t
  end.

Fixpoint work_apart (t : TenantId) (w : Work) : Prop :=
  match w with End_ _ => True | Stmt s k => stmt_apart t s /\ forall r, work_apart t (k r) end.

Definition job_apart (t : TenantId) (job : Job) : Prop :=
  match job with Operation s | RawStatement s => stmt_apart t s | Transaction w => work_apart t w end.

Definition event_apart (e : Event) : Prop :=
  match e with
  | Start _ o job => forall t, scope_tenant env o = Some t -> job_apart t job
  | Advance _ => True
  end.

Hypothesis Htenants : forall t, ownerId (Tenants, t) = t.

(** *** The invariant *)

Record session_ok (ss : Session) : Prop := {
  so_first t : ss_first ss = Some t -> tenant_of (ss_scope ss) = Some t;
  so_local t : ss_local ss = Some t -> tenant_of (ss_scope ss) = Some t;
  so_changes k change : ss_changes ss !! k = Some change ->
    tenant_of (ss_scope ss) = Some (ownerId k) /\ forall row, change = Some row -> owns k row;
  so_work t : tenant_of (ss_scope ss) = Some t -> work_apart t (ss_work ss);
}.

Record state_ok (st : State) : Prop := {
  ok_rows : rows_apart (st_rows st);
  ok_setting c : cn_setting (conn_of st c) = None;
  ok_session c ss : cn_session (conn_of st c) = Some ss -> session_ok ss;
}.

Lemma conn_of_with st c conn c' : conn_of (with_conn c conn st) c' = if decide (c = c') then conn else conn_of st c'.
Proof. unfold conn_of. cbn [st_conns with_conn]. case_decide as Hc; [subst; by rewrite lookup_insert_eq|by rewrite lookup_insert_ne]. Qed.

Lemma lookup_overlay changes rows k :
  overlay changes rows !! k = match changes !! k with Some change => change | None => rows !! k end.
Proof. unfold overlay. rewrite lookup_merge. by destruct (changes !! k), (rows !! k). Qed.

Lemma overlay_apart changes rows :
  (forall k change, changes !! k = Some change -> forall row, change = Some row -> owns k row) ->
  rows_apart rows -> rows_apart (overlay changes rows).
Proof.
  intros Hch Hrows k row. rewrite lookup_overlay. destruct (changes !! k) as [change|] eqn:E; [intros ->; by eapply Hch|apply Hrows].
Qed.

Lemma lookup_own t rows k :
  own t rows !! k = match rows !! k with Some row => if decide (row_tenant row = t) then Some row else None | None => None end.
Proof.
  unfold own. rewrite map_lookup_filter. destruct (rows !! k) as [row|]; [|done]. simpl. repeat case_guard; try done; by case_decide.
Qed.

(** Where every id has its owner, a tenant misses nothing that it owns. *)
Lemma own_lookup t rows k : rows_apart rows -> ownerId k = t -> own t rows !! k = rows !! k.
Proof.
  intros Hrows Hk. rewrite lookup_own. destruct (rows !! k) as [row|] eqn:E; [|done].
  destruct (Hrows _ _ E) as [Ho _]. rewrite decide_True; [done|congruence].
Qed.

Lemma own_overlay t changes rows :
  rows_apart rows ->
  (forall k change, changes !! k = Some change -> ownerId k = t /\ forall row, change = Some row -> owns k row) ->
  own t (overlay changes rows) = overlay changes (own t rows).
Proof.
  intros Hrows Hch. apply map_eq. intros k. rewrite lookup_own, !lookup_overlay, lookup_own.
  destruct (changes !! k) as [[row|]|] eqn:E; [|done|done].
  destruct (Hch _ _ E) as [Hk Ho]. destruct (Ho row eq_refl) as [Hr _]. rewrite decide_True; [done|congruence].
Qed.

Lemma own_overlay_other t changes rows :
  rows_apart rows ->
  (forall k change, changes !! k = Some change -> ownerId k <> t /\ forall row, change = Some row -> owns k row) ->
  own t (overlay changes rows) = own t rows.
Proof.
  intros Hrows Hch. apply map_eq. intros k. rewrite !lookup_own, lookup_overlay.
  destruct (changes !! k) as [change|] eqn:E; [|done]. destruct (Hch _ _ E) as [Hk Ho].
  transitivity (@None Row).
  - destruct change as [row|]; [|done]. destruct (Ho row eq_refl) as [Hr _]. rewrite decide_False; [done|congruence].
  - destruct (rows !! k) as [row|] eqn:Er; [|done]. destruct (Hrows _ _ Er) as [Hr _]. rewrite decide_False; [done|congruence].
Qed.

(** *** A statement under the policies *)

Lemma current_Some setting t : current_tenant_id setting = Some t -> setting = Some t.
Proof. by destruct setting as [[|]|]. Qed.

Lemma using_true tb setting row : using_policy cat tb setting row = true <-> current_tenant_id setting = Some (row_tenant row).
Proof. unfold using_policy. rewrite Henforced. cbn. apply bool_decide_eq_true. Qed.

Lemma write_true tb setting row : write_policy cat tb setting row = true -> current_tenant_id setting = Some (row_tenant row).
Proof. unfold write_policy. rewrite Henforced. cbn. intros H. apply andb_true_iff in H as [_ H]. by apply bool_decide_eq_true in H. Qed.

Lemma target_Some setting view tb id where_ row :
  target cat setting view tb id where_ = Some row ->
  view !! (tb, id) = Some row /\ current_tenant_id setting = Some (row_tenant row).
Proof.
  unfold target. destruct (view !! (tb, id)) as [row'|]; [|done]. cbn.
  destruct (using_policy _ _ _ _) eqn:E; [|done]. cbn. destruct (_ && _); [|done]. intros [= <-]. split; [done|]. by apply using_true in E.
Qed.

Lemma check_write_spec setting view tb id row k change :
  snd (check_write cat setting view tb id row) !! k = Some change ->
  k = (tb, id) /\ change = Some row /\ current_tenant_id setting = Some (row_tenant row).
Proof.
  unfold check_write. destruct (write_policy _ _ _ _) eqn:E; [cbn|done]. apply write_true in E.
  destruct (key_taken _ _ _ _); [done|]. destruct (view !! _); [|done]. cbn. intros [<- <-]%lookup_singleton_Some. done.
Qed.

Lemma exec_changes setting view s k change :
  rows_apart view -> (forall t, current_tenant_id setting = Some t -> stmt_apart t s) ->
  snd (exec cat setting view s) !! k = Some change ->
  current_tenant_id setting = Some (ownerId k) /\ forall row, change = Some row -> owns k row.
Proof.
  intros Hview Hs. destruct s as [tb w|tb id tenant key data|tb id w set|tb id w]; cbn [exec].
  - done.
  - destruct (match tenant with Some _ => _ | None => _ end) as [tn|]; [|done].
    destruct (negb _); [done|]. destruct (view !! (tb, id)); [done|].
    intros (-> & -> & Hc)%check_write_spec. destruct (Hs _ Hc) as [H1 H2]. cbn in *. rewrite H1. split; [done|]. by intros row [= <-].
  - destruct (target _ _ _ _ _ _) as [row|] eqn:E; [|done]. apply target_Some in E as [Hr Hc].
    intros (-> & -> & Hc')%check_write_spec. destruct (Hview _ _ Hr) as [Ho _]. rewrite Ho. split; [done|].
    intros row' [= <-]. assert (row_tenant (set row) = row_tenant row) as Heq by congruence. split; [congruence|].
    intros key Hkey. rewrite Heq. by apply (Hs _ Hc row).
  - destruct (target _ _ _ _ _ _) as [row|] eqn:E; [|done]. apply target_Some in E as [Hr Hc].
    cbn. intros [<- <-]%lookup_singleton_Some. destruct (Hview _ _ Hr) as [Ho _]. rewrite Ho. done.
Qed.

Section one_tenant.
Context (t : TenantId) (setting : option JSText) (view : Rows).
Hypothesis Hsetting : forall x, current_tenant_id setting = Some x -> x = t.
Hypothesis Hview : rows_apart view.

Lemma target_own tb id where_ : target cat setting (own t view) tb id where_ = target cat setting view tb id where_.
Proof.
  unfold target. rewrite lookup_own. destruct (view !! (tb, id)) as [row|]; [|done]. case_decide as Ht; [done|]. cbn.
  destruct (using_policy _ _ _ _) eqn:E; [|done]. apply using_true, Hsetting in E. done.
Qed.

Lemma key_taken_own tb id key :
  (forall k, key = Some k -> ownerKey tb k = t) -> key_taken (own t view) tb id key = key_taken view tb id key.
Proof.
  intros Hk. destruct key as [key|]; [|done]. cbn. apply bool_decide_ext.
  assert (filter (fun kr => kr.1.1 = tb /\ kr.1.2 <> id /\ row_key kr.2 = Some key) (own t view) =
          filter (fun kr => kr.1.1 = tb /\ kr.1.2 <> id /\ row_key kr.2 = Some key) view) as ->; [|done].
  apply map_eq. intros k. apply option_eq. intros row. rewrite !map_lookup_filter_Some. unfold own. rewrite map_lookup_filter_Some.
  cbn. split; [tauto|]. intros (Hl & <- & Hid & Hkey). split_and!; try done.
  destruct (Hview _ _ Hl) as [_ Ho]. rewrite <-(Ho _ Hkey). by apply Hk.
Qed.

Lemma check_write_own tb id row :
  (forall k, row_key row = Some k -> ownerKey tb k = t) ->
  check_write cat setting (own t view) tb id row = check_write cat setting view tb id row.
Proof.
  intros Hk. unfold check_write. destruct (write_policy _ _ _ _) eqn:E; [|done]. apply write_true, Hsetting in E.
  rewrite key_taken_own by done. by rewrite own_lookup by (done || by rewrite Htenants).
Qed.

Lemma exec_own s : stmt_apart t s -> exec cat setting (own t view) s = exec cat setting view s.
Proof.
  intros Hs. destruct s as [tb w|tb id tenant key data|tb id w set|tb id w]; cbn [exec].
  - do 2 f_equal. apply map_eq. intros k. apply option_eq. intros row. rewrite !map_lookup_filter_Some. unfold own.
    rewrite map_lookup_filter_Some. cbn. split; [tauto|]. intros (Hl & Ht & Hu & Hw). split_and!; try done.
    by apply using_true, Hsetting in Hu.
  - destruct Hs as [Hid Hk]. destruct (match tenant with Some _ => _ | None => _ end) as [tn|]; [|done].
    destruct (negb _); [done|]. rewrite own_lookup by done. destruct (view !! (tb, id)); [done|]. by apply check_write_own.
  - rewrite target_own. destruct (target _ _ _ _ _ _); [|done]. apply check_write_own. intros k. by apply Hs.
  - by rewrite target_own.
Qed.

Lemma lock_own s : lock_of cat setting (own t view) s = lock_of cat setting view s.
Proof. destruct s; cbn; by rewrite ?target_own. Qed.

Lemma claim_own s : claim_of cat setting (own t view) s = claim_of cat setting view s.
Proof. destruct s; cbn; by rewrite ?target_own. Qed.
End one_tenant.

(** *** The invariant holds in every run *)

Lemma with_conn_ok st c conn :
  state_ok st -> cn_setting conn = None -> (forall ss, cn_session conn = Some ss -> session_ok ss) -> state_ok (with_conn c conn st).
Proof.
  intros [H1 H2 H3] Hc Hs. constructor; [done| |]; intros c'; rewrite conn_of_with; case_decide; eauto.
Qed.

Lemma with_log_ok st who a : state_ok st -> state_ok (with_log who a st).
Proof. intros [H1 H2 H3]. by constructor. Qed.

Lemma open_ok env' o scope job first w :
  env' = env -> event_apart (Start 0 o job) -> scope_of env' o = inr scope -> begin_job scope job = inr (first, w) ->
  session_ok (open_session scope first w).
Proof.
  intros -> Hap Ho. assert (scope_tenant env o = tenant_of scope) as Hsc by (unfold scope_tenant; by rewrite Ho).
  cbn in Hap. rewrite Hsc in Hap.
  destruct job as [s|w'|s]; cbn [begin_job].
  - unfold tenantScopeExtension, requireTenantId, sbind, currentTenantId. cbn. destruct scope as [c|]; [|done]. cbn.
    intros [= <- <-]. constructor; cbn; [done|done|done|]. intros x Hx. split; [by apply Hap|done].
  - intros [= <- <-]. constructor; cbn; [done|done|done|]. apply Hap.
  - intros [= <- <-]. constructor; cbn; [done|done|done|]. intros x Hx. split; [by apply Hap|done].
Qed.

Lemma view_apart st ss : state_ok st -> session_ok ss -> rows_apart (overlay (ss_changes ss) (st_rows st)).
Proof. intros [H1 _ _] [_ _ H2 _]. apply overlay_apart; [|done]. intros k change Hk. by apply H2 in Hk as [_ ?]. Qed.

Lemma setting_tenant conn ss x :
  cn_setting conn = None -> session_ok ss -> current_tenant_id (current_setting conn ss) = Some x -> tenant_of (ss_scope ss) = Some x.
Proof.
  intros Hc Hs H. apply current_Some in H. unfold current_setting in H. rewrite Hc in H.
  destruct (ss_local ss) eqn:E; [|done]. apply (so_local _ Hs). congruence.
Qed.

Lemma answered_ok ss r delta s k :
  session_ok ss -> ss_work ss = Stmt s k ->
  (forall k change, delta !! k = Some change ->
     tenant_of (ss_scope ss) = Some (ownerId k) /\ forall row, change = Some row -> owns k row) ->
  session_ok (answered ss r delta k).
Proof.
  intros [H1 H2 H3 H4] Hw Hd. constructor; cbn; [done|done| |].
  - intros k' change Hl. apply lookup_union_Some_raw in Hl as [Hl|[_ Hl]]; eauto.
  - intros x Hx. specialize (H4 _ Hx). rewrite Hw in H4. by destruct H4 as [_ H4].
Qed.

Lemma stmt_of ss s k x : session_ok ss -> ss_work ss = Stmt s k -> tenant_of (ss_scope ss) = Some x -> stmt_apart x s.
Proof. intros [_ _ _ H4] Hw Hx. specialize (H4 _ Hx). rewrite Hw in H4. by destruct H4. Qed.

Lemma exec_ok st c ss s k r delta :
  state_ok st -> cn_session (conn_of st c) = Some ss -> ss_work ss = Stmt s k ->
  exec cat (current_setting (conn_of st c) ss) (overlay (ss_changes ss) (st_rows st)) s = (r, delta) ->
  session_ok (answered ss r delta k).
Proof.
  intros Hst Hss Hw He. pose proof (ok_session _ Hst _ _ Hss) as Hs. eapply answered_ok; [done|done|].
  intros k' change Hd. assert (snd (exec cat (current_setting (conn_of st c) ss) (overlay (ss_changes ss) (st_rows st)) s) !! k' = Some change) as Hx
    by (by rewrite He). apply exec_changes in Hx as [Hc Ho]; [|by apply view_apart|].
  - split; [|done]. eapply setting_tenant; [|done|done]. apply Hst.
  - intros x Hx'. eapply stmt_of; [done|done|]. eapply setting_tenant; [|done|done]. apply Hst.
Qed.

Lemma advance_ok st c st' : state_ok st -> advance cat st c = Some st' -> state_ok st'.
Proof.
  intros Hst. unfold advance. destruct (cn_session (conn_of st c)) as [ss|] eqn:Hss; [|done].
  pose proof (ok_session _ Hst _ _ Hss) as Hs. pose proof (ok_setting _ Hst c) as Hc.
  destruct (ss_first ss) as [x|] eqn:Hf; [|destruct (ss_work ss) as [s k|commit] eqn:Hw].
  - intros [= <-]. apply with_conn_ok; [done|done|]. intros ss' [= <-]. destruct Hs as [H1 H2 H3 H4].
    constructor; cbn; [done| |done|done]. intros y [= <-]. by apply H1.
  - destruct (ss_aborted ss).
    { intros [= <-]. apply with_log_ok, with_conn_ok; [done|done|]. intros ss' [= <-].
      eapply answered_ok; [done|done|]. done. }
    destruct (blocked _ _ _ _); [done|]. destruct (exec _ _ _ _) as [r delta] eqn:He. intros [= <-].
    apply with_log_ok, with_conn_ok; [done|done|]. intros ss' [= <-]. by eapply exec_ok.
  - intros [= <-]. assert (state_ok (with_conn c {| cn_setting := cn_setting (conn_of st c); cn_session := None |} st)) as Hok
      by (by apply with_conn_ok). destruct (_ && _); [|done]. destruct Hok as [H1 H2 H3]. constructor; [|done|done].
    cbn. by apply view_apart.
Qed.

Lemma tenant_event_ok st e st' : state_ok st -> event_apart e -> event cat env st e = Some st' -> state_ok st'.
Proof.
  intros Hst Hap. destruct e as [c o job|c]; cbn [event]; [|by apply advance_ok].
  unfold start_job. destruct (cn_session (conn_of st c)); [done|].
  destruct (scope_of env o) as [e|scope] eqn:Ho; [intros [= <-]; by apply with_log_ok|].
  destruct (begin_job scope job) as [e|[first w]] eqn:Hj; intros [= <-]; [by apply with_log_ok|].
  apply with_conn_ok; [done|apply Hst|]. intros ss [= <-]. by eapply open_ok.
Qed.

(** *** The two runs: all tenants, and one alone *)

Record sees (t : TenantId) (st st' : State) : Prop := {
  sees_rows : st_rows st' = own t (st_rows st);
  sees_log : observations t st' = observations t st;
  sees_conns c : conn_of st' c = if decide (session_tenant (conn_of st c) = Some t) then conn_of st c else idle;
}.

Lemma sees_with_both t st st1 c conn :
  sees t st st1 -> cn_setting conn = None -> session_tenant conn = Some t \/ cn_session conn = None ->
  sees t (with_conn c conn st) (with_conn c conn st1).
Proof.
  intros [H1 H2 H3] Hs Ht. constructor; [done|done|]. intros c'. rewrite !conn_of_with. case_decide; [|done].
  case_decide as Hd; [done|]. destruct Ht as [Ht|Ht]; [done|]. destruct conn. cbn in *. by subst.
Qed.

Lemma sees_with_other t st st1 c conn :
  sees t st st1 -> session_tenant (conn_of st c) <> Some t -> session_tenant conn <> Some t -> sees t (with_conn c conn st) st1.
Proof.
  intros [H1 H2 H3] Hc Hn. constructor; [done|done|]. intros c'. rewrite H3, conn_of_with. destruct (decide (c = c')) as [<-|]; [|done].
  by rewrite !decide_False.
Qed.

Lemma sees_log_both t st st1 a : sees t st st1 -> sees t (with_log (Some t) a st) (with_log (Some t) a st1).
Proof.
  intros [H1 H2 H3]. constructor; [done| |done]. unfold observations in *. cbn. rewrite !filter_app, !fmap_app. by rewrite H2.
Qed.

Lemma sees_log_other t st st1 who a : sees t st st1 -> who <> Some t -> sees t (with_log who a st) st1.
Proof.
  intros [H1 H2 H3] Hw. constructor; [done| |done]. rewrite H2. unfold observations. cbn.
  rewrite filter_app, filter_cons_False, filter_nil by done. by rewrite app_nil_r.
Qed.

Lemma contends_own t rows lock claim changes : contends (own t rows) lock claim changes -> contends rows lock claim changes.
Proof.
  intros (k & change & Hk & [H|(key & Hc & [H|H])]); exists k, change; split; eauto. right. exists key. split; [done|]. right.
  rewrite lookup_own in H. destruct (rows !! k); [|done]. by case_decide.
Qed.

Lemma sees_blocked t st st1 c lock claim : sees t st st1 -> blocked st c lock claim = false -> blocked st1 c lock claim = false.
Proof.
  intros [H1 _ H3]. unfold blocked. rewrite !bool_decide_eq_false. intros Hn (c' & conn & Hl & Hne & Hcon). apply Hn.
  assert (conn_of st1 c' = conn) as Heq by (unfold conn_of; by rewrite Hl). rewrite H3 in Heq.
  case_decide as Ht; [|subst conn; by destruct Hcon as (? & ? & ? & _)].
  exists c', conn. split; [|split; [done|]].
  - unfold conn_of in Heq. destruct (st_conns st !! c'); cbn in Heq; [by subst|]. subst conn. by destruct Hcon as (? & ? & ? & _).
  - rewrite H1 in Hcon. by apply contends_own in Hcon.
Qed.

Lemma step_other t st st1 e st' :
  state_ok st -> sees t st st1 -> event_tenant env st e <> Some t -> event cat env st e = Some st' -> sees t st' st1.
Proof.
  intros Hst Hsee Ht. destruct e as [c o job|c]; cbn [event event_tenant] in *.
  - unfold start_job. destruct (cn_session (conn_of st c)) eqn:Hss; [done|].
    unfold scope_tenant in Ht. destruct (scope_of env o) as [e|scope]; [intros [= <-]; by apply sees_log_other|].
    destruct (begin_job scope job) as [e|[first w]]; intros [= <-]; [by apply sees_log_other|].
    apply sees_with_other; [done| |done]. unfold session_tenant. by rewrite Hss.
  - unfold advance. destruct (cn_session (conn_of st c)) as [ss|] eqn:Hss; [|done].
    pose proof (ok_session _ Hst _ _ Hss) as Hs.
    assert (tenant_of (ss_scope ss) <> Some t) as Htn by (unfold session_tenant in Ht; by rewrite Hss in Ht).
    destruct (ss_first ss) as [x|]; [|destruct (ss_work ss) as [s k|commit]].
    + intros [= <-]. by apply sees_with_other.
    + destruct (ss_aborted ss); [intros [= <-]; by apply sees_log_other; [apply sees_with_other|]|].
      destruct (blocked _ _ _ _); [done|]. destruct (exec _ _ _ _) as [r delta]. intros [= <-].
      by apply sees_log_other; [apply sees_with_other|].
    + intros [= <-]. assert (sees t (with_conn c {| cn_setting := cn_setting (conn_of st c); cn_session := None |} st) st1) as Hx
        by (by apply sees_with_other). destruct (_ && _); [|done]. destruct Hx as [H1 H2 H3]. constructor; [|done|done]. cbn in *.
      rewrite own_overlay_other; [done|apply Hst|]. intros k change Hk. destruct (so_changes _ Hs _ _ Hk) as [Hk1 Hk2].
      split; [congruence|done].
Qed.

Lemma advance_own t st st1 c ss st' :
  state_ok st -> sees t st st1 -> cn_session (conn_of st c) = Some ss -> tenant_of (ss_scope ss) = Some t ->
  advance cat st c = Some st' -> exists st1', advance cat st1 c = Some st1' /\ sees t st' st1'.
Proof.
  intros Hst Hsee Hss Ht. pose proof (ok_session _ Hst _ _ Hss) as Hs. pose proof (ok_setting _ Hst c) as Hset.
  assert (conn_of st1 c = conn_of st c) as Hc.
  { rewrite (sees_conns _ _ _ Hsee). apply decide_True. unfold session_tenant. by rewrite Hss. }
  unfold advance. rewrite Hc, Hss.
  assert (overlay (ss_changes ss) (st_rows st1) = own t (overlay (ss_changes ss) (st_rows st))) as Hov.
  { rewrite (sees_rows _ _ _ Hsee), own_overlay; [done|apply Hst|]. intros k change Hk.
    destruct (so_changes _ Hs _ _ Hk) as [Hk1 Hk2]. split; [congruence|done]. }
  destruct (ss_first ss) as [x|]; [|destruct (ss_work ss) as [s k|commit] eqn:Hw].
  - intros [= <-]. eexists. split; [done|]. apply sees_with_both; [done|done|by left].
  - rewrite Ht. destruct (ss_aborted ss).
    { intros [= <-]. eexists. split; [done|]. apply sees_log_both, sees_with_both; [done|done|by left]. }
    assert (forall x, current_tenant_id (current_setting (conn_of st c) ss) = Some x -> x = t) as Hx.
    { intros x Hx. apply setting_tenant in Hx; [congruence|done|done]. }
    pose proof (view_apart _ _ Hst Hs) as Hv.
    rewrite Hov, lock_own, claim_own by done.
    destruct (blocked st _ _ _) eqn:Hb; [done|]. rewrite (sees_blocked t st st1) by done.
    rewrite exec_own; [|done|done|by eapply stmt_of]. destruct (exec _ _ _ _) as [r delta]. intros [= <-].
    eexists. split; [done|]. apply sees_log_both, sees_with_both; [done|done|by left].
  - intros [= <-]. eexists. split; [done|].
    assert (forall st2, sees t st st2 ->
      sees t (with_conn c {| cn_setting := cn_setting (conn_of st c); cn_session := None |} st)
        (with_conn c {| cn_setting := cn_setting (conn_of st c); cn_session := None |} st2)) as Hboth
      by (intros st2 H2; apply sees_with_both; [done|done|by right]).
    destruct (_ && _); [|by apply Hboth]. destruct (Hboth _ Hsee) as [H1 H2 H3]. by constructor.
Qed.

Lemma step_own t st st1 e st' :
  state_ok st -> sees t st st1 -> event_tenant env st e = Some t -> event cat env st e = Some st' ->
  exists st1', event cat env st1 e = Some st1' /\ sees t st' st1'.
Proof.
  intros Hst Hsee Ht. destruct e as [c o job|c]; cbn [event event_tenant] in *.
  - unfold start_job. destruct (cn_session (conn_of st c)) eqn:Hss; [done|].
    assert (conn_of st1 c = idle) as Hc.
    { rewrite (sees_conns _ _ _ Hsee). apply decide_False. unfold session_tenant. by rewrite Hss. }
    rewrite Hc. cbn [idle cn_session cn_setting]. unfold scope_tenant in Ht.
    destruct (scope_of env o) as [e|scope]; [done|]. rewrite Ht, (ok_setting _ Hst).
    destruct (begin_job scope job) as [e|[first w]]; intros [= <-]; eexists; (split; [done|]); [by apply sees_log_both|].
    apply sees_with_both; [done|done|by left].
  - unfold session_tenant in Ht. destruct (cn_session (conn_of st c)) as [ss|] eqn:Hss; [|done]. by eapply advance_own.
Qed.

Lemma run_sees t events st st1 st' :
  state_ok st -> Forall event_apart events -> sees t st st1 -> run cat env st events = Some st' ->
  exists st1', run cat env st1 (purge cat env t st events) = Some st1' /\ sees t st' st1'.
Proof.
  intros Hst Hev. revert st st1 Hst. induction Hev as [|e events He Hev IH]; intros st st1 Hst Hsee; cbn [run purge].
  - intros [= <-]. by exists st1.
  - destruct (event cat env st e) as [st2|] eqn:E; [|done]. cbn [mbind option_bind]. intros Hrun.
    pose proof (tenant_event_ok _ _ _ Hst He E) as Hst2. case_decide as Ht.
    + destruct (step_own _ _ _ _ _ Hst Hsee Ht E) as (st3 & H3 & Hsee3). cbn [run]. rewrite H3. cbn. by eapply IH.
    + eapply IH; [done| |done]. exact (step_other _ _ _ _ _ Hst Hsee Ht E).
Qed.

Lemma start_ok rows : rows_apart rows -> state_ok (start rows).
Proof. intros H. by constructor. Qed.

Lemma start_sees t rows : sees t (start rows) (start (own t rows)).
Proof. constructor; [done|done|]. intros c. unfold conn_of. cbn. by case_decide. Qed.
End isolation.

(** ** Properties *)

(** C16: to a tenant's statements, the others do not exist.  Take a service that
    booted in production, any rows, and any run of it: requests with any host,
    header and token, workers and pollers, in any interleaving of their
    statements over shared connections.  Take away every row of every other
    tenant and every step that is not the tenant's own.  What is left still
    runs, the database gives the tenant's statements the same results in the
    same order, and the tenant's rows are left the same.  What the service makes
    of those results, its response cache above all, is not part of this.  The
    ids and unique values of different tenants are assumed apart, since a unique
    index is no policy. *)
Theorem tenant_noninterference cat env ownerId ownerKey t rows events st :
  onApplicationBootstrap Production (Some cat) = true ->
  (forall x, ownerId (Tenants, x) = x) ->
  rows_apart ownerId ownerKey rows -> Forall (event_apart env ownerId ownerKey) events ->
  run cat env (start rows) events = Some st ->
  exists st', run cat env (start (own t rows)) (purge cat env t (start rows) events) = Some st' /\
    observations t st' = observations t st /\ st_rows st' = own t (st_rows st).
Proof.
  intros Hboot Hten Hrows Hev Hrun. assert (forall tb, enforced cat tb = true) as Henf by (intros; by apply booted_enforced).
  destruct (run_sees cat env Henf ownerId ownerKey Hten t events (start rows) (start (own t rows)) st) as (st' & H1 & [H2 H3 _]);
    eauto using start_ok, start_sees.
Qed.

(** ** Concrete runs *)

Definition acme : TenantId := js "acme".
Definition globex : TenantId := js "globex".

Definition forced_row : PolicyRow := {| pr_enabled := true; pr_forced := true; pr_owned := false |}.

Definition sample_catalog : Catalog :=
  {| ct_role := "app"; ct_super := false; ct_bypassrls := false;
     ct_policies := {[ Orders := forced_row; Tenants := forced_row; Users := forced_row ]} |}.

Definition user_row (t : TenantId) (email : string) : Row := {| row_tenant := t; row_key := Some (js email); row_data := "" |}.
Definition tenant_row (t : TenantId) : Row := {| row_tenant := t; row_key := None; row_data := "" |}.

Definition sample_rows : Rows :=
  {[ (Tenants, acme) := tenant_row acme; (Tenants, globex) := tenant_row globex;
     (Users, js "a1") := user_row acme "ann@acme.test"; (Users, js "g1") := user_row globex "gil@globex.test" ]}.

(** In the sample, ids and addresses of [acme] start with an [a]. *)
Definition sample_owner (t : JSText) : TenantId := if decide (head t = Some 97%N) then acme else globex.
Definition sample_ownerId (k : Table * JSText) : TenantId := match k.1 with Tenants => k.2 | _ => sample_owner k.2 end.
Definition sample_ownerKey (_ : Table) (key : JSText) : TenantId := sample_owner key.

Definition from_tenant (t : string) : Origin :=
  Request {| th_host := None; th_tenant := Some (Once (js t)) |}
    (Bearer (Some {| jp_sub := js "u"; jp_email := js "e"; jp_role := js "ADMIN"; jp_tid := Some (js t) |})).

Definition everybody : Statement := Select Users (fun _ _ => true).

Definition sample_events : list Event :=
  [Start 0 (from_tenant "acme") (Operation everybody); Start 1 (from_tenant "globex") (Transaction
     (Stmt (Insert Users (js "g2") None (Some (js "gus@globex.test")) "") (fun _ => Stmt everybody (fun _ => End_ true))));
   Advance 1; Advance 0; Advance 1; Start 2 Poller (RawStatement everybody); Advance 0; Advance 1; Advance 2; Advance 1; Advance 0;
   Start 1 (from_tenant "acme") (Operation (Delete Users (js "g1") (fun _ => true))); Advance 1; Advance 1; Advance 1].

Lemma tenant_noninterference_witness :
  exists st st', run sample_catalog sample_tenancy (start sample_rows) sample_events = Some st /\
    run sample_catalog sample_tenancy (start (own acme sample_rows))
      (purge sample_catalog sample_tenancy acme (start sample_rows) sample_events) = Some st' /\
    observations acme st' = observations acme st /\ length (observations acme st) = 2%nat.
Proof.
  destruct (run sample_catalog sample_tenancy (start sample_rows) sample_events) as [st|] eqn:E; [|by vm_compute in E].
  destruct (tenant_noninterference sample_catalog sample_tenancy sample_ownerId sample_ownerKey acme sample_rows sample_events st)
    as (st' & H1 & H2 & _); [by vm_compute|done| | |done|].
  - repeat apply map_Forall_insert_2; [..|apply map_Forall_empty]; (split; [done|]); intros key [= <-]; done.
  - repeat apply Forall_cons_2; try exact I; [..|apply Forall_nil_2]; intros t Ht; vm_compute in Ht;
      (discriminate Ht || (injection Ht as <-; cbn [job_apart stmt_apart work_apart])); try exact I.
    split; [split; [by vm_compute|intros k Hk; apply (inj Some) in Hk; rewrite <-Hk; by vm_compute]|]. intros r. split; [exact I|]. intros r'. exact I.
  - exists st, st'. split_and!; [done|done|done|]. vm_compute in E. by injection E as <-.
Defined.

(** Without the assumption: an address taken in one tenant is refused in
    another, which tells the second that the first has an account for it. *)
Example address_taken_elsewhere :
  let register := [Start 0 (from_tenant "acme") (Operation (Insert Users (js "a2") None (Some (js "gil@globex.test")) ""));
                   Advance 0; Advance 0; Advance 0] in
  observations acme <$> run sample_catalog sample_tenancy (start sample_rows) register = Some [Answered (Failed UniqueViolation)] /\
  observations acme <$> run sample_catalog sample_tenancy (start (own acme sample_rows)) register =
    Some [Answered (Found {[ (Users, js "a2") := user_row acme "gil@globex.test" ]})].
Proof. by vm_compute. Qed.

(** A poller has no tenant in scope: the read that starts the first and the last
    step of a checkout is refused there, and an update finds no row. *)
Example poller_finds_no_order cat scope_of_poller :
  scope_of sample_tenancy Poller = inr scope_of_poller ->
  (forall s, begin_job scope_of_poller (Operation s) = inl (MissingTenantContextError "model.operation")) /\
  (enforced cat Orders = true ->
   forall view id w set, exec cat (setTransactionTenant scope_of_poller) view (Update Orders id w set) = (Found ∅, ∅)).
Proof.
  intros [= <-]. split; [done|]. intros He view id w set. cbn [exec]. unfold target, using_policy. rewrite He. cbn.
  by destruct (view !! (Orders, id)).
Qed.
