(* ===== verification/Encoding.v ===== *)
(** * Encoding: bytes as text

    [Buffer.from(bytes).toString("base64url")], [Buffer.from(text, "base64url")]
    and [toString("utf8")], which opaque cursors are made with
    ([common/pagination/build-cursor-page.ts]). *)

From S2P Require Import Prelude Text.

(** ** Base64 with the alphabet for URLs *)

Definition sextetChar (v : N) : N :=
  (if decide (v < 26) then 65 + v else if decide (v < 52) then 71 + v else if decide (v < 62) then v - 4
   else if decide (v = 62) then 45 else 95)%N.

(** The decoder takes both alphabets. *)
Definition charSextet (c : N) : option N :=
  (if decide (65 <= c <= 90) then Some (c - 65)
   else if decide (97 <= c <= 122) then Some (c - 71)
   else if decide (48 <= c <= 57) then Some (c + 4)
   else if decide (c = 45 \/ c = 43) then Some 62
   else if decide (c = 95 \/ c = 47) then Some 63 else None)%N.

Fixpoint sextets (bs : list N) : list N :=
  match bs with
  | a :: b :: c :: rest => ([a / 4; (a mod 4) * 16 + b / 16; (b mod 16) * 4 + c / 64; c mod 64])%N ++ sextets rest
  | [a; b] => [a / 4; (a mod 4) * 16 + b / 16; (b mod 16) * 4]%N
  | [a] => [a / 4; (a mod 4) * 16]%N
  | [] => []
  end.

Definition toBase64url (bs : list N) : JSText := sextetChar <$> sextets bs.

(** Whole groups, then a last one of two or three; a single sextet is dropped. *)
Fixpoint unsextets (vs : list N) : list N :=
  match vs with
  | v :: w :: x :: y :: rest => ([v * 4 + w / 16; (w mod 16) * 16 + x / 4; (x mod 4) * 64 + y])%N ++ unsextets rest
  | [v; w; x] => [v * 4 + w / 16; (w mod 16) * 16 + x / 4]%N
  | [v; w] => [v * 4 + w / 16]%N
  | _ => []
  end.

(** Characters outside the alphabet are passed over, and padding ends the text. *)
Fixpoint readSextets (t : JSText) : list N :=
  match t with
  | [] => []
  | c :: rest => if decide (c = 61%N) then [] else
                 match charSextet c with Some v => v :: readSextets rest | None => readSextets rest end
  end.

Definition fromBase64url (t : JSText) : list N := unsextets (readSextets t).

Definition isByte (b : N) : Prop := (b < 256)%N.

Lemma charSextet_char v : (v < 64)%N -> charSextet (sextetChar v) = Some v /\ sextetChar v <> 61%N.
Proof.
  intros Hv. unfold sextetChar, charSextet. repeat case_decide; try lia; split; try lia; f_equal; lia.
Qed.

Lemma readSextets_chars vs : Forall (fun v => v < 64)%N vs -> readSextets (sextetChar <$> vs) = vs.
Proof.
  induction 1 as [|v vs Hv _ IH]; [done|]. cbn [fmap list_fmap readSextets]. destruct (charSextet_char v Hv) as [-> Hne].
  rewrite decide_False by done. by f_equal.
Qed.

(** Induction by groups of three bytes. *)
Lemma bytes_ind (P : list N -> Prop) :
  P [] -> (forall a, P [a]) -> (forall a b, P [a; b]) -> (forall a b c rest, P rest -> P (a :: b :: c :: rest)) -> forall bs, P bs.
Proof.
  intros H0 H1 H2 H3. fix IH 1. intros [|a [|b [|c rest]]]; [exact H0|apply H1|apply H2|apply H3, IH].
Qed.

Ltac bytes := unfold isByte in *; zify; Z.to_euclidean_division_equations; lia.

Lemma sextets_small bs : Forall isByte bs -> Forall (fun v => v < 64)%N (sextets bs).
Proof.
  induction bs as [|a|a b|a b c rest IH] using bytes_ind; rewrite ?Forall_cons; intros H; cbn [sextets app]; rewrite ?Forall_cons.
  - constructor.
  - split_and!; [bytes|bytes|constructor].
  - split_and!; [bytes|bytes|bytes|constructor].
  - destruct H as (Ha & Hb & Hc & H). split_and!; [bytes|bytes|bytes|bytes|by apply IH].
Qed.

Lemma unsextets_sextets bs : Forall isByte bs -> unsextets (sextets bs) = bs.
Proof.
  induction bs as [|a|a b|a b c rest IH] using bytes_ind; rewrite ?Forall_cons; intros H; cbn [sextets app unsextets]; [done|..].
  - f_equal. bytes.
  - f_equal; [bytes|]. f_equal. bytes.
  - destruct H as (Ha & Hb & Hc & H). rewrite IH by done. f_equal; [bytes|]. f_equal; [bytes|]. f_equal. bytes.
Qed.

Lemma base64url_roundtrip bs : Forall isByte bs -> fromBase64url (toBase64url bs) = bs.
Proof. intros H. unfold fromBase64url, toBase64url. rewrite readSextets_chars by by apply sextets_small. by apply unsextets_sextets. Qed.

(** ** UTF-8, decoded *)

Definition continuation (b : N) : bool := bool_decide (128 <= b <= 191)%N.

(** The character of bytes that are not UTF-8. *)
Definition UNREADABLE : N := 65533.

(** A code point as UTF-16 code units. *)
Definition units (p : N) : JSText :=
  if decide (p < 65536)%N then [p] else [55296 + (p - 65536) / 1024; 56320 + (p - 65536) mod 1024]%N.

(** The second byte a lead byte allows: no overlong form, no surrogate, nothing
    beyond the last code point. *)
Definition second_of_three (lead b : N) : bool :=
  bool_decide ((if decide (lead = 224) then 160 else 128) <= b <= (if decide (lead = 237) then 159 else 191))%N.
Definition second_of_four (lead b : N) : bool :=
  bool_decide ((if decide (lead = 240) then 144 else 128) <= b <= (if decide (lead = 244) then 143 else 191))%N.

Fixpoint utf8_decode (bs : list N) : JSText :=
  match bs with
  | [] => []
  | a :: r0 =>
      if decide (a < 128)%N then a :: utf8_decode r0
      else if decide (194 <= a <= 223)%N then
        match r0 with
        | b :: r1 => if continuation b then units ((a - 192) * 64 + (b - 128))%N ++ utf8_decode r1 else UNREADABLE :: utf8_decode r0
        | [] => [UNREADABLE]
        end
      else if decide (224 <= a <= 239)%N then
        match r0 with
        | b :: r1 =>
            if second_of_three a b then
              match r1 with
              | c :: r2 =>
                  if continuation c then units ((a - 224) * 4096 + (b - 128) * 64 + (c - 128))%N ++ utf8_decode r2
                  else UNREADABLE :: utf8_decode r1
              | [] => [UNREADABLE]
              end
            else UNREADABLE :: utf8_decode r0
        | [] => [UNREADABLE]
        end
      else if decide (240 <= a <= 244)%N then
        match r0 with
        | b :: r1 =>
            if second_of_four a b then
              match r1 with
              | c :: r2 =>
                  if continuation c then
                    match r2 with
                    | d :: r3 =>
                        if continuation d
                        then units ((a - 240) * 262144 + (b - 128) * 4096 + (c - 128) * 64 + (d - 128))%N ++ utf8_decode r3
                        else UNREADABLE :: utf8_decode r2
                    | [] => [UNREADABLE]
                    end
                  else UNREADABLE :: utf8_decode r1
              | [] => [UNREADABLE]
              end
            else UNREADABLE :: utf8_decode r0
        | [] => [UNREADABLE]
        end
      else UNREADABLE :: utf8_decode r0
  end.

(** A code point that is no surrogate. *)
Definition scalar (p : N) : Prop := (p < 55296 \/ 57344 <= p < 1114112)%N.

Lemma decode_char p bs : scalar p -> utf8_decode (utf8_char p ++ bs) = units p ++ utf8_decode bs.
Proof.
  unfold scalar. intros Hp. unfold utf8_char. repeat case_decide; cbn [app utf8_decode].
  - rewrite decide_True by done. unfold units. by rewrite decide_True by lia.
  - rewrite decide_False, decide_True by bytes. unfold continuation. rewrite bool_decide_true by bytes.
    do 2 f_equal. bytes.
  - rewrite !decide_False, decide_True by bytes. unfold second_of_three, continuation.
    rewrite !bool_decide_true; [|bytes|repeat case_decide; bytes]. do 2 f_equal. bytes.
  - rewrite !decide_False, decide_True by bytes. unfold second_of_four, continuation.
    rewrite !bool_decide_true; [|bytes|bytes|repeat case_decide; bytes]. do 2 f_equal. bytes.
Qed.

Lemma utf8_char_bytes p : (p < 1114112)%N -> Forall isByte (utf8_char p).
Proof. intros Hp. unfold utf8_char. repeat case_decide; repeat constructor; bytes. Qed.

(** Text that UTF-16 allows: every surrogate is half of a pair. *)
Inductive well_formed : JSText -> Prop :=
  | wf_nil : well_formed []
  | wf_unit c s : (c < 65536)%N -> high_surrogate c = false -> low_surrogate c = false -> well_formed s -> well_formed (c :: s)
  | wf_pair c d s : high_surrogate c = true -> low_surrogate d = true -> well_formed s -> well_formed (c :: d :: s).

Ltac surrogates := unfold high_surrogate, low_surrogate in *; rewrite ?bool_decide_eq_true, ?bool_decide_eq_false in *.

Lemma utf8_unit c s : high_surrogate c = false -> low_surrogate c = false -> utf8 (c :: s) = utf8_char c ++ utf8 s.
Proof. intros Hh Hl. cbn [utf8]. by rewrite Hh, Hl. Qed.

Lemma utf8_pair c d s : high_surrogate c = true -> low_surrogate d = true ->
  utf8 (c :: d :: s) = utf8_char (65536 + (c - 55296) * 1024 + (d - 56320)) ++ utf8 s.
Proof. intros Hh Hl. cbn [utf8]. by rewrite Hh, Hl. Qed.

Lemma utf8_bytes s : well_formed s -> Forall isByte (utf8 s).
Proof.
  induction 1 as [|c s Hc Hh Hl _ IH|c d s Hh Hl _ IH]; [constructor| |].
  - rewrite utf8_unit by done. apply Forall_app_2; [|done]. apply utf8_char_bytes. lia.
  - rewrite utf8_pair by done. apply Forall_app_2; [|done]. apply utf8_char_bytes. surrogates. lia.
Qed.

Lemma utf8_roundtrip s : well_formed s -> utf8_decode (utf8 s) = s.
Proof.
  induction 1 as [|c s Hc Hh Hl _ IH|c d s Hh Hl _ IH]; [done| |].
  - rewrite utf8_unit, decode_char, IH by (done || (unfold scalar; surrogates; lia)). unfold units. by rewrite decide_True by lia.
  - rewrite utf8_pair, decode_char, IH by (done || (unfold scalar; surrogates; lia)). surrogates. unfold units.
    rewrite decide_False by lia. cbn [app]. f_equal; [bytes|]. f_equal. bytes.
Qed.

Lemma ascii_well_formed s : ascii_text s -> well_formed s.
Proof. induction 1 as [|c s Hc _ IH]; [constructor|]. apply wf_unit; [lia| | |done]; surrogates; lia. Qed.

(** ** Opaque cursors *)

Definition encodeCursor (id : JSText) : JSText := toBase64url (utf8 id).
Definition decodeCursor (cursor : JSText) : JSText := utf8_decode (fromBase64url cursor).

Lemma opaque_cursor_roundtrip id : well_formed id -> decodeCursor (encodeCursor id) = id.
Proof. intros H. unfold decodeCursor, encodeCursor. rewrite base64url_roundtrip by by apply utf8_bytes. by apply utf8_roundtrip. Qed.
