(* ===== verification/Listing.v ===== *)
(** * Listing: pages of orders and users

    [common/pagination/build-cursor-page.ts], [orders/read], the listing queries
    of [orders/prisma-order.store.ts] and [users/prisma-users.repository.ts], and
    [common/dataloader/entity-loader.ts] with [saga/saga-loaders.ts].  A page is
    cut from the rows in their order after the row of a cursor; the sagas of a
    page are read together and put back beside their orders. *)

From S2P Require Import Prelude Text Json SagaDefinition SagaStore Storage Encoding.

(** ** Pages *)

Record CursorPage (A : Type) := { cp_items : list A; cp_nextCursor : option JSText; cp_hasNextPage : bool }.
Arguments cp_items {_}.
Arguments cp_nextCursor {_}.
Arguments cp_hasNextPage {_}.

Definition buildCursorPage {A : Type} (rows : list A) (limit : nat) (getId : A -> JSText) : CursorPage A :=
  let hasNextPage := bool_decide (limit < length rows)%nat in
  let items := if hasNextPage then take limit rows else rows in
  {| cp_items := items;
     cp_nextCursor := if hasNextPage then (fun item => encodeCursor (getId item)) <$> last items else None;
     cp_hasNextPage := hasNextPage |}.

(** A text parameter that is absent or empty counts as absent. *)
Definition given (t : option JSText) : option JSText := match t with Some [] => None | _ => t end.

(** The rows from the one with an id on; none when it is not there. *)
Fixpoint from_row {A : Type} (getId : A -> JSText) (id : JSText) (rows : list A) : list A :=
  match rows with
  | [] => []
  | row :: rest => if decide (getId row = id) then rows else from_row getId id rest
  end.

(** [findMany] with [cursor], [skip: cursor ? 1 : 0] and [take: limit + 1] over
    the rows in the order of [orderBy]. *)
Definition findMany {A : Type} (getId : A -> JSText) (ordered : list A) (cursor : option JSText) (limit : nat) : list A :=
  take (S limit) match given cursor with Some id => drop 1 (from_row getId id ordered) | None => ordered end.

(** [criteria.cursor ? decodeCursor(criteria.cursor) : undefined] *)
Definition cursorOf (cursor : option JSText) : option JSText := decodeCursor <$> given cursor.

(** ** Loading by key *)

(** What one batch answers: the entities that exist, matched back to the keys.
    [DataLoader] asks for a key that repeats in one tick once. *)
Definition createEntityLoader {V : Type} (load : list string -> list V) (identify : V -> string) (keys : list string) : list (option V) :=
  let entities := load (remove_dups keys) in
  let byKey : gmap string V := foldl (fun m entity => <[identify entity := entity]> m) ∅ entities in
  (fun key => byKey !! key) <$> keys.

(** [SagaStore.findMany]: [WHERE id IN (…)], in whatever order. *)
Definition findSagas (sagas : gmap string SagaInstanceRecord) (ids : list string) : list SagaInstanceRecord :=
  (map_to_list (filter (fun kv => kv.1 ∈ ids) sagas)).*2.

(** ** Orders with their checkout *)

Record OrderRow := { or_id : JSText; or_userId : JSText; or_createdAt : Z; or_sagaId : string }.

#[export] Instance OrderRow_eq : EqDecision OrderRow.
Proof. solve_decision. Defined.

Record OrderFulfilment := {
  of_sagaId : string;
  of_status : option SagaStatus;
  of_step : option string;
  of_reservationId : option JsonValue;
  of_paymentId : option JsonValue;
  of_shipmentId : option JsonValue;
}.

Record OrderView := { ov_order : OrderRow; ov_fulfilment : OrderFulfilment }.

(** [state.field ?? null] *)
Definition known (state : SagaState) (field : string) : option JsonValue :=
  match state !! field with Some JNull => None | v => v end.

Definition step_at {W : Type} (definition : option (SagaDefinition W)) (cursor : Z) : option string :=
  d ← definition; if decide (0 <= cursor) then step_name <$> saga_steps d !! Z.to_nat cursor else None.

Definition toOrderView {W : Type} (order : OrderRow) (instance : option SagaInstanceRecord) (registry : SagaRegistry W) : OrderView :=
  {| ov_order := order;
     ov_fulfilment :=
       match instance with
       | None =>
           {| of_sagaId := or_sagaId order; of_status := None; of_step := None;
              of_reservationId := None; of_paymentId := None; of_shipmentId := None |}
       | Some i =>
           {| of_sagaId := sr_id i; of_status := Some (sr_status i);
              of_step := if decide (sr_status i ∈ [RUNNING; COMPENSATING; STUCK])
                         then step_at (registry_find registry (sr_name i)) (sr_cursor i) else None;
              of_reservationId := known (sr_state i) "reservationId"; of_paymentId := known (sr_state i) "paymentId";
              of_shipmentId := known (sr_state i) "shipmentId" |}
       end |}.

Inductive ReadRole := ReadUser | ReadAdmin.

#[export] Instance ReadRole_eq : EqDecision ReadRole.
Proof. solve_decision. Defined.

(** [GetOrderHandler.execute]; [None] is [OrderNotFoundError]. *)
Definition getOrder {W : Type} (orders : gmap JSText OrderRow) (sagas : gmap string SagaInstanceRecord) (registry : SagaRegistry W)
    (id requester : JSText) (role : ReadRole) : option OrderView :=
  order ← orders !! id;
  if decide (or_userId order <> requester /\ role <> ReadAdmin) then None
  else Some (toOrderView order (sagas !! or_sagaId order) registry).

Section orders.
(** The collation of the id column: some total order. *)
Context (collate : relation JSText) `{!Transitive collate, !Total collate, !AntiSymm (=) collate, !RelDecision collate}.

(** [orderBy: [{ createdAt: "desc" }, { id: "desc" }]] *)
Definition newer (a b : OrderRow) : Prop :=
  or_createdAt b < or_createdAt a \/ or_createdAt a = or_createdAt b /\ collate (or_id b) (or_id a).

#[local] Instance newer_dec : RelDecision newer.
Proof. intros a b. unfold newer. apply _. Defined.

Definition ordersOf (orders : list OrderRow) (userId : JSText) : list OrderRow :=
  merge_sort newer (filter (fun o => or_userId o = userId) orders).

Definition listForUser (orders : list OrderRow) (userId : JSText) (cursor : option JSText) (limit : nat) : list OrderRow :=
  findMany or_id (ordersOf orders userId) cursor limit.

(** [ListOrdersHandler.execute] *)
Definition listOrders {W : Type} (orders : list OrderRow) (sagas : gmap string SagaInstanceRecord) (registry : SagaRegistry W)
    (userId : JSText) (cursor : option JSText) (limit : nat) : CursorPage OrderView :=
  let rows := listForUser orders userId (cursorOf cursor) limit in
  let instances := createEntityLoader (findSagas sagas) sr_id (or_sagaId <$> rows) in
  let views := zip_with (fun order instance => toOrderView order instance registry) rows instances in
  buildCursorPage views limit (fun view => or_id (ov_order view)).

(** A client that follows the cursors: one request for each state of the tables
    it meets; the cursor that is left when it stopped early. *)
Fixpoint follow {W : Type} (registry : SagaRegistry W) (userId : JSText) (limit : nat) (cursor : option JSText)
    (tables : list (list OrderRow * gmap string SagaInstanceRecord)) : list OrderView * option JSText :=
  match tables with
  | [] => ([], cursor)
  | (orders, sagas) :: later =>
      let page := listOrders orders sagas registry userId cursor limit in
      match cp_nextCursor page with
      | None => (cp_items page, None)
      | Some next => let (rest, left) := follow registry userId limit (Some next) later in (cp_items page ++ rest, left)
      end
  end.

(** ** Lemmas *)

#[local] Instance newer_trans : Transitive newer.
Proof.
  intros a b c [H1|[H1 H1']] [H2|[H2 H2']]; unfold newer; [left; lia..|]. right. split; [lia|]. by transitivity (or_id b).
Qed.

#[local] Instance newer_total : Total newer.
Proof.
  intros a b. unfold newer. destruct (Z.lt_trichotomy (or_createdAt a) (or_createdAt b)) as [H|[H|H]]; [by right; left| |by left; left].
  destruct (total collate (or_id a) (or_id b)); [right|left]; right; done.
Qed.

Lemma newer_antisym a b : newer a b -> newer b a -> or_id a = or_id b.
Proof. intros [H1|[H1 H1']] [H2|[H2 H2']]; try lia. by apply (anti_symm collate). Qed.

(** Strictly later in the listing. *)
Definition after (c : option OrderRow) (o : OrderRow) : Prop :=
  match c with None => True | Some c => ~ newer o c end.

Definition rows_after (c : option OrderRow) (rows : list OrderRow) : list OrderRow :=
  match c with None => rows | Some c => drop 1 (from_row or_id (or_id c) rows) end.

Lemma from_row_split id rows : NoDup (or_id <$> rows) -> forall c, c ∈ rows -> or_id c = id ->
  exists pre post, rows = pre ++ c :: post /\ from_row or_id id rows = c :: post.
Proof.
  induction rows as [|r rows IH]; intros Hnd c Hc Hid; [by apply elem_of_nil in Hc|].
  cbn in Hnd. apply NoDup_cons in Hnd as [Hr Hnd]. cbn [from_row]. case_decide as Hd.
  - apply elem_of_cons in Hc as [->|Hc]; [by exists [], rows|]. destruct Hr. rewrite Hd, <-Hid. by apply list_elem_of_fmap_2.
  - apply elem_of_cons in Hc as [->|Hc]; [done|]. destruct (IH Hnd c Hc Hid) as (pre & post & -> & H). by exists (r :: pre), post.
Qed.

Lemma rows_after_spec c rows :
  StronglySorted newer rows -> NoDup (or_id <$> rows) -> (forall c', c = Some c' -> c' ∈ rows) ->
  StronglySorted newer (rows_after c rows) /\ NoDup (or_id <$> rows_after c rows) /\
  forall o, o ∈ rows_after c rows <-> o ∈ rows /\ after c o.
Proof.
  intros Hs Hnd Hc. destruct c as [c|]; [|by split_and!; try done; intros o; split; [|intros [? _]]].
  destruct (from_row_split (or_id c) rows Hnd c (Hc c eq_refl) eq_refl) as (pre & post & -> & Hf). cbn [rows_after]. rewrite Hf. cbn [drop].
  rewrite fmap_app, fmap_cons in Hnd. apply NoDup_app in Hnd as (Hnp & Hdis & Hnd). apply NoDup_cons in Hnd as [Hcp Hnd].
  apply StronglySorted_app in Hs as (Hpre & Hsp & Hs). apply StronglySorted_cons in Hs as [Hcs Hs]. rewrite Forall_forall in Hcs.
  split_and!; [done|done|]. intros o. rewrite elem_of_app, elem_of_cons. split.
  - intros Ho. split; [by right; right|]. intros Hn. apply Hcp. rewrite (newer_antisym c o) by (by try apply Hcs).
    by apply list_elem_of_fmap_2.
  - intros [[Ho|[->|Ho]] Hn]; [| |done]; destruct Hn; [apply Hpre; [done|by left]|]. by destruct (total newer c c).
Qed.

(** *** The sagas of a page *)

Definition keyed (sagas : gmap string SagaInstanceRecord) : Prop := map_Forall (fun k i => sr_id i = k) sagas.

Lemma foldl_insert_None {V : Type} (f : V -> string) l (m : gmap string V) k :
  (forall e, e ∈ l -> f e <> k) -> foldl (fun m e => <[f e := e]> m) m l !! k = m !! k.
Proof.
  revert m. induction l as [|e l IH]; intros m H; [done|]. cbn [foldl]. rewrite IH by (intros e' He'; apply H; by right).
  apply lookup_insert_ne, H. by left.
Qed.

Lemma foldl_insert_Some {V : Type} (f : V -> string) l (m : gmap string V) k x :
  x ∈ l -> f x = k -> (forall e, e ∈ l -> f e = k -> e = x) -> foldl (fun m e => <[f e := e]> m) m l !! k = Some x.
Proof.
  intros Hx Hk Hu. induction l as [|e l IH] using rev_ind; [by apply elem_of_nil in Hx|]. rewrite foldl_app. cbn [foldl].
  destruct (decide (f e = k)) as [He|He].
  - rewrite He, lookup_insert_eq. f_equal. apply Hu; [|done]. apply elem_of_app. right. by left.
  - rewrite lookup_insert_ne by done. apply IH; [|intros e' He'; apply Hu, elem_of_app; by left].
    apply elem_of_app in Hx as [Hx|Hx]; [done|]. apply list_elem_of_singleton in Hx. congruence.
Qed.

Lemma findSagas_spec sagas ids i : keyed sagas -> i ∈ findSagas sagas ids <-> sr_id i ∈ ids /\ sagas !! sr_id i = Some i.
Proof.
  intros Hk. unfold findSagas. rewrite list_elem_of_fmap. split.
  - intros ([k i'] & -> & H%elem_of_map_to_list). apply map_lookup_filter_Some in H as [H Hin]. cbn in *. by rewrite (Hk _ _ H).
  - intros [Hin H]. exists (sr_id i, i). split; [done|]. apply elem_of_map_to_list, map_lookup_filter_Some. done.
Qed.

Lemma loader_aligned sagas keys : keyed sagas -> createEntityLoader (findSagas sagas) sr_id keys = (fun k => sagas !! k) <$> keys.
Proof.
  intros Hk. unfold createEntityLoader. apply list_fmap_ext. intros n k Hn. apply list_elem_of_lookup_2 in Hn.
  destruct (sagas !! k) as [i|] eqn:E.
  - pose proof (Hk _ _ E) as Hi. cbn in Hi. apply foldl_insert_Some; [apply findSagas_spec; [done|]|done|].
    + rewrite Hi. split; [by apply elem_of_remove_dups|done].
    + intros e [_ He]%findSagas_spec Hek; [|done]. congruence.
  - rewrite foldl_insert_None; [done|]. intros e [_ He]%findSagas_spec; [|done]. congruence.
Qed.

(** *** One page *)

Definition view_of {W : Type} (registry : SagaRegistry W) (sagas : gmap string SagaInstanceRecord) (o : OrderRow) : OrderView :=
  toOrderView o (sagas !! or_sagaId o) registry.

Lemma zip_views {W : Type} (registry : SagaRegistry W) sagas rows :
  zip_with (fun order instance => toOrderView order instance registry) rows ((fun k => sagas !! k) <$> (or_sagaId <$> rows)) =
  view_of registry sagas <$> rows.
Proof. induction rows as [|o rows IH]; [done|]. cbn. by f_equal. Qed.

Lemma cursor_decodes (c : option OrderRow) :
  (forall o, c = Some o -> well_formed (or_id o) /\ or_id o <> []) ->
  given (cursorOf ((fun o => encodeCursor (or_id o)) <$> c)) = or_id <$> c.
Proof.
  intros H. destruct c as [o|]; [|done]. destruct (H o eq_refl) as [Hw Hne]. pose proof (opaque_cursor_roundtrip _ Hw) as Hr.
  unfold cursorOf. cbn [fmap option_fmap option_map]. destruct (encodeCursor (or_id o)) as [|x t] eqn:E; [by destruct Hne|].
  cbn [given fmap option_fmap option_map]. rewrite Hr. by destruct (or_id o).
Qed.

Lemma listOrders_page {W : Type} (registry : SagaRegistry W) orders sagas userId c limit :
  keyed sagas -> (forall o, c = Some o -> well_formed (or_id o) /\ or_id o <> []) ->
  listOrders orders sagas registry userId ((fun o => encodeCursor (or_id o)) <$> c) limit =
  buildCursorPage (view_of registry sagas <$> take (S limit) (rows_after c (ordersOf orders userId))) limit (fun v => or_id (ov_order v)).
Proof.
  intros Hk Hc. unfold listOrders, listForUser, findMany. rewrite cursor_decodes, loader_aligned, zip_views by done. by destruct c.
Qed.

Lemma same_id (rows : list OrderRow) a b : NoDup (or_id <$> rows) -> a ∈ rows -> b ∈ rows -> or_id a = or_id b -> a = b.
Proof.
  intros Hnd [i Hi]%list_elem_of_lookup_1 [j Hj]%list_elem_of_lookup_1 Heq. assert (i = j) as ->; [|congruence].
  eapply (NoDup_lookup _ _ _ (or_id a)); [exact Hnd| |]; rewrite list_lookup_fmap, ?Hi, ?Hj; cbn; congruence.
Qed.

Lemma ordersOf_spec orders userId :
  NoDup (or_id <$> orders) ->
  StronglySorted newer (ordersOf orders userId) /\ NoDup (or_id <$> ordersOf orders userId) /\
  forall o, o ∈ ordersOf orders userId <-> o ∈ orders /\ or_userId o = userId.
Proof.
  intros Hnd. unfold ordersOf. split; [|split].
  - apply (StronglySorted_merge_sort _).
  - rewrite merge_sort_Permutation. apply NoDup_fmap_2_strong; [|eapply NoDup_filter, NoDup_fmap_1; exact Hnd].
    intros a b [_ Ha]%list_elem_of_filter [_ Hb]%list_elem_of_filter. by apply same_id with orders.
  - intros o. rewrite merge_sort_Permutation, list_elem_of_filter. tauto.
Qed.

Lemma page_cases {W : Type} (registry : SagaRegistry W) sagas rows limit :
  (1 <= limit)%nat ->
  let page := buildCursorPage (view_of registry sagas <$> take (S limit) rows) limit (fun v => or_id (ov_order v)) in
  (cp_items page = view_of registry sagas <$> rows /\ cp_nextCursor page = None) \/
  exists front x back, rows = front ++ x :: back /\ S (length front) = limit /\
    cp_items page = view_of registry sagas <$> (front ++ [x]) /\ cp_nextCursor page = Some (encodeCursor (or_id x)).
Proof.
  intros Hl. cbn zeta. unfold buildCursorPage. rewrite length_fmap, length_take. destruct (decide (length rows <= limit)%nat) as [Hs|Hs].
  - left. rewrite bool_decide_eq_false_2 by lia. cbn. by rewrite take_ge by lia.
  - right. rewrite bool_decide_eq_true_2 by lia. cbn [cp_items cp_nextCursor].
    destruct (rows !! (limit - 1)%nat) as [x|] eqn:Ex; [|apply lookup_ge_None in Ex; lia].
    exists (take (limit - 1) rows), x, (drop limit rows).
    assert (take limit rows = take (limit - 1) rows ++ [x]) as Ht.
    { replace limit with (S (limit - 1)) at 1 by lia. by apply take_S_r. }
    assert (take limit (view_of registry sagas <$> take (S limit) rows) = view_of registry sagas <$> take limit rows) as ->
      by (rewrite <-fmap_take, take_take; do 2 f_equal; lia).
    split_and!.
    + rewrite cons_middle, app_assoc, <-Ht. by rewrite take_drop.
    + rewrite length_take. lia.
    + by rewrite Ht.
    + rewrite Ht, fmap_app. cbn [fmap list_fmap]. by rewrite last_snoc.
Qed.

(** *** All pages *)

Definition table_ok (t : list OrderRow * gmap string SagaInstanceRecord) : Prop :=
  NoDup (or_id <$> fst t) /\ keyed (snd t) /\ Forall (fun o => well_formed (or_id o) /\ or_id o <> []) (fst t).

(** Orders are placed between requests, and none is deleted. *)
Fixpoint grows (prev : list OrderRow) (tables : list (list OrderRow * gmap string SagaInstanceRecord)) : Prop :=
  match tables with
  | [] => True
  | t :: later => prev ⊆ fst t /\ table_ok t /\ grows (fst t) later
  end.

Lemma ov_view {W : Type} (registry : SagaRegistry W) sagas (rows : list OrderRow) : ov_order <$> (view_of registry sagas <$> rows) = rows.
Proof. induction rows as [|o rows IH]; [done|]. cbn. by f_equal. Qed.

(** What following from a cursor on gives. *)
Record followed {W : Type} (registry : SagaRegistry W) (userId : JSText) (c : option OrderRow) (prev : list OrderRow)
    (tables : list (list OrderRow * gmap string SagaInstanceRecord)) (views : list OrderView) (left : option JSText) : Prop := {
  fo_sorted : StronglySorted newer (ov_order <$> views);
  fo_once : NoDup (or_id <$> (ov_order <$> views));
  fo_after o : o ∈ ov_order <$> views -> after c o;
  fo_views v : v ∈ views -> exists t, t ∈ tables /\ ov_order v ∈ fst t /\ or_userId (ov_order v) = userId /\
                                      v = view_of registry (snd t) (ov_order v);
  fo_all : left = None -> forall o, o ∈ prev -> or_userId o = userId -> after c o -> o ∈ ov_order <$> views;
  fo_long : left <> None -> (length tables <= length views)%nat;
}.

Lemma after_trans c x o : after c x -> after (Some x) o -> after c o.
Proof. destruct c as [c|]; [|done]. cbn. intros H1 H2 Hn. destruct (total newer x c) as [|H]; [done|]. apply H2. by transitivity c. Qed.

Lemma grows_sub prev tables t : grows prev tables -> t ∈ tables -> prev ⊆ fst t /\ table_ok t.
Proof.
  revert prev. induction tables as [|t' later IH]; intros prev Hg Ht; [by apply elem_of_nil in Ht|]. destruct Hg as (H1 & H2 & H3).
  apply elem_of_cons in Ht as [->|Ht]; [done|]. destruct (IH _ H3 Ht). split; [|done]. by transitivity (fst t').
Qed.

Lemma grows_last prev tables t last_t o :
  grows prev tables -> t ∈ tables -> last tables = Some last_t -> o ∈ fst t -> o ∈ fst last_t.
Proof.
  revert prev t. induction tables as [|t' later IH]; intros prev t Hg Ht Hl Ho; [done|]. destruct Hg as (H1 & H2 & H3).
  destruct later as [|t'' later].
  - apply list_elem_of_singleton in Ht as ->. cbn in Hl. congruence.
  - apply elem_of_cons in Ht as [->|Ht]; [|by eapply IH]. apply (IH (fst t') t'' H3 (list_elem_of_here _ _) Hl). by apply H3.
Qed.

Lemma last_page {W : Type} (registry : SagaRegistry W) userId c prev orders sagas later rows :
  prev ⊆ orders -> StronglySorted newer rows -> NoDup (or_id <$> rows) ->
  (forall o, o ∈ rows <-> (o ∈ orders /\ or_userId o = userId) /\ after c o) ->
  followed registry userId c prev ((orders, sagas) :: later) (view_of registry sagas <$> rows) None.
Proof.
  intros Hsub Hs Hnd Hin. constructor; rewrite ?ov_view; [done|done| | |intros _; auto|done].
  - intros o Ho. by apply Hin in Ho as [_ ?].
  - intros v (o & -> & Ho)%list_elem_of_fmap. apply Hin in Ho as [[Ho Hu] _]. exists (orders, sagas). split_and!; try done. by left.
  - intros o Ho Hu Ha. apply Hin. split; [|done]. split; [by apply Hsub|done].
Qed.

Lemma first_page {W : Type} (registry : SagaRegistry W) userId c prev orders sagas later front x back rest left :
  prev ⊆ orders -> NoDup (or_id <$> orders) -> grows orders later ->
  StronglySorted newer (front ++ x :: back) -> NoDup (or_id <$> (front ++ x :: back)) ->
  (forall o, o ∈ front ++ x :: back <-> (o ∈ orders /\ or_userId o = userId) /\ after c o) ->
  followed registry userId (Some x) orders later rest left ->
  followed registry userId c prev ((orders, sagas) :: later) ((view_of registry sagas <$> (front ++ [x])) ++ rest) left.
Proof.
  intros Hsub Hno Hg Hs Hnd Hin [Hrs Hrn Hra Hrv Hrall Hrl].
  rewrite cons_middle, app_assoc in Hs, Hnd. apply StronglySorted_app in Hs as (Hcross & Hs & Hb).
  rewrite fmap_app in Hnd. apply NoDup_app in Hnd as (Hnd & Hdis & _).
  assert (forall a, a ∈ front ++ [x] -> newer a x) as Hax.
  { intros a Ha. apply elem_of_app in Ha as [Ha| ->%list_elem_of_singleton]; [|by destruct (total newer x x)].
    apply StronglySorted_app in Hs as (Hfx & _ & _). apply Hfx; [done|by left]. }
  assert (forall o, o ∈ front ++ [x] -> (o ∈ orders /\ or_userId o = userId) /\ after c o) as Hf.
  { intros o Ho. apply Hin. rewrite cons_middle, app_assoc. apply elem_of_app. by left. }
  assert (x ∈ front ++ [x]) as Hx by (apply elem_of_app; right; by left).
  constructor.
  - rewrite fmap_app, ov_view. apply StronglySorted_app_2; [|done|done]. intros a b Ha Hb'%Hra. transitivity x; [by apply Hax|].
    by destruct (total newer x b).
  - rewrite fmap_app, ov_view, fmap_app. apply NoDup_app. split_and!; [done| |done].
    intros id (a & -> & Ha)%list_elem_of_fmap (b & Heq & Hb')%list_elem_of_fmap. pose proof (Hra _ Hb') as Hab. apply Hab.
    apply list_elem_of_fmap in Hb' as (v & -> & Hv). destruct (Hrv _ Hv) as (t & Ht & Hvt & _).
    destruct (grows_sub _ _ _ Hg Ht) as [Hot (Hnt & _)]. rewrite <-(same_id _ a (ov_order v) Hnt); [by apply Hax| |done|done].
    apply Hot. by apply Hf in Ha as [[? _] _].
  - intros o. rewrite fmap_app, ov_view, elem_of_app. intros [Ho|Ho]; [by apply Hf in Ho as [_ ?]|].
    eapply after_trans; [|by apply Hra]. by apply Hf in Hx as [_ ?].
  - intros v. rewrite elem_of_app. intros [(o & -> & Ho)%list_elem_of_fmap|Hv].
    + apply Hf in Ho as [[Ho Hu] _]. exists (orders, sagas). split_and!; try done. by left.
    + destruct (Hrv _ Hv) as (t & Ht & Hrest). exists t. split; [by right|done].
  - intros Hleft o Ho Hu Ha. rewrite fmap_app, ov_view. apply elem_of_app.
    assert (o ∈ front ++ x :: back) as Hi by (apply Hin; split; [split; [by apply Hsub|done]|done]).
    rewrite cons_middle, app_assoc in Hi. apply elem_of_app in Hi as [Hi|Hi]; [by left|]. right. apply Hrall; [done|by apply Hsub|done|].
    intros Hn. assert (or_id o = or_id x) as Heq by (apply newer_antisym; [done|by apply Hcross]).
    apply (Hdis (or_id x)); [by apply list_elem_of_fmap_2|]. rewrite <-Heq. by apply list_elem_of_fmap_2.
  - intros Hleft. cbn [length]. rewrite length_app, length_fmap, length_app. cbn. specialize (Hrl Hleft). lia.
Qed.

Lemma follow_spec {W : Type} (registry : SagaRegistry W) userId limit tables : (1 <= limit)%nat ->
  forall c prev, grows prev tables -> (tables = [] -> c <> None) ->
  (forall o, c = Some o -> o ∈ prev /\ or_userId o = userId /\ well_formed (or_id o) /\ or_id o <> []) ->
  let '(views, more) := follow registry userId limit ((fun o => encodeCursor (or_id o)) <$> c) tables in
  followed registry userId c prev tables views more.
Proof.
  intros Hl. induction tables as [|[orders sagas] later IH]; intros c prev Hg Hne Hc.
  { cbn. destruct c as [c|]; [|by destruct Hne]. constructor; cbn; [constructor|constructor|by intros ? ?%elem_of_nil|by intros ? ?%elem_of_nil|done|lia]. }
  destruct Hg as (Hsub & (Hnd & Hk & Hwf) & Hg). cbn [fst snd] in *.
  destruct (ordersOf_spec orders userId Hnd) as (Hos & Hon & Hoi).
  destruct (rows_after_spec c (ordersOf orders userId) Hos Hon) as (Hrs & Hrn & Hri).
  { intros o Ho. destruct (Hc o Ho) as (H1 & H2 & _). apply Hoi. split; [by apply Hsub|done]. }
  setoid_rewrite Hoi in Hri.
  cbn [follow]. rewrite listOrders_page; [|done|intros o Ho; by apply Hc].
  destruct (page_cases registry sagas (rows_after c (ordersOf orders userId)) limit Hl) as [[Hi Hn]|(front & x & back & Hr & Hlen & Hi & Hn)].
  - rewrite Hi, Hn. by apply last_page.
  - rewrite Hi, Hn. rewrite Hr in *. assert (x ∈ orders /\ or_userId x = userId) as [Hxo Hxu].
    { assert (x ∈ front ++ x :: back) as Hx by (apply elem_of_app; right; by left). by apply Hri in Hx as [? _]. }
    rewrite Forall_forall in Hwf. specialize (IH (Some x) orders Hg).
    cbn [fmap option_fmap option_map] in IH. destruct (follow registry userId limit (Some (encodeCursor (or_id x))) later) as [rest more].
    eapply first_page; try done. apply IH; [done|]. intros o [= <-]. destruct (Hwf _ Hxo). done.
Qed.
End orders.

(** ** Users

    The administrator's list is ordered by [createdAt] alone; among equals the
    database may choose, and choose differently from one query to the next. *)

Record UserRow := { ur_id : JSText; ur_email : JSText; ur_createdAt : Z }.

Definition older (a b : UserRow) : Prop := ur_createdAt a <= ur_createdAt b.

(** [ListUsersHandler.execute] without a search, over the order one query chose. *)
Definition listUsers (ordered : list UserRow) (cursor : option JSText) (limit : nat) : CursorPage UserRow :=
  buildCursorPage (findMany ur_id ordered (cursorOf cursor) limit) limit ur_id.

(** ** Properties *)

(** C30: a customer who pages through the orders sees each one once.  Whatever total
    order the id column has, however many orders share a timestamp, and whatever
    orders anybody places between two requests, as long as none is deleted or
    changed meanwhile: following the cursors ends within one request more than
    there are orders at the end; every order of the customer that existed at the
    first request is listed, none is listed twice, all are the customer's own
    and newest first; and each is shown with the state of its own checkout at
    the request that listed it. *)
Theorem orders_listed_once {W : Type} (collate : relation JSText) `{!Transitive collate, !Total collate, !AntiSymm (=) collate, !RelDecision collate}
    (registry : SagaRegistry W) userId limit orders sagas later :
  let tables := (orders, sagas) :: later in
  (1 <= limit)%nat -> grows [] tables ->
  (forall t, last tables = Some t -> length (fst t) < length tables)%nat ->
  exists views, follow collate registry userId limit None tables = (views, None) /\
    NoDup (or_id <$> (ov_order <$> views)) /\ StronglySorted (newer collate) (ov_order <$> views) /\
    (forall o, o ∈ orders -> or_userId o = userId -> o ∈ ov_order <$> views) /\
    (forall v, v ∈ views -> exists t, t ∈ tables /\ ov_order v ∈ fst t /\ or_userId (ov_order v) = userId /\
                             v = toOrderView (ov_order v) (snd t !! or_sagaId (ov_order v)) registry).
Proof.
  intros tables Hl Hg Hlast. assert (grows orders tables) as Hg' by (destruct Hg as (_ & ? & ?); done).
  pose proof (follow_spec collate registry userId limit tables Hl None orders Hg') as Hf. cbn [fmap option_fmap option_map] in Hf.
  destruct (follow collate registry userId limit None tables) as [views more]. destruct Hf as [Hs Hnd _ Hv Hall Hlong]; [done|done|].
  assert (more = None) as ->.
  { destruct more as [m|]; [|done]. assert (Some m <> None) as Hm by done. specialize (Hlong Hm).
    assert (exists t, last tables = Some t) as [t Ht] by (apply (last_is_Some tables); done).
    specialize (Hlast t Ht). assert (length (or_id <$> (ov_order <$> views)) <= length (or_id <$> fst t))%nat as Hle.
    - apply submseteq_length, NoDup_submseteq; [done|]. intros id (o & -> & (v & -> & Hvv)%list_elem_of_fmap)%list_elem_of_fmap.
      destruct (Hv _ Hvv) as (t' & Ht' & Hin & _). apply list_elem_of_fmap_2. by eapply grows_last.
    - rewrite !length_fmap in Hle. lia. }
  exists views. split_and!; [done|done|done| |done]. intros o Ho Hu. by apply Hall.
Qed.

(** ** Concrete runs *)

Definition sample_order (id : string) (at_ : Z) (sagaId : string) : OrderRow :=
  {| or_id := js id; or_userId := js "u1"; or_createdAt := at_; or_sagaId := sagaId |}.

Definition orders_at_first : list OrderRow := [sample_order "o1" 5 "s1"; sample_order "o2" 5 "s2"; sample_order "o3" 4 "s3"].
Definition orders_later : list OrderRow := sample_order "o4" 6 "s4" :: orders_at_first.

Definition sample_tables : list (list OrderRow * gmap string SagaInstanceRecord) :=
  [(orders_at_first, ∅); (orders_later, ∅); (orders_later, ∅); (orders_later, ∅); (orders_later, ∅)].

Lemma sample_tables_grow : grows [] sample_tables.
Proof.
  assert (forall rows : list OrderRow, bool_decide (NoDup (or_id <$> rows)) = true ->
    forallb (fun o => forallb (fun c => N.ltb c 128) (or_id o) && bool_decide (or_id o <> [])) rows = true -> table_ok (rows, ∅)) as Hok.
  { intros rows Hnd Hid. split; [by apply bool_decide_eq_true in Hnd|]. split; [done|]. apply Forall_forall. intros o Ho%list_elem_of_In.
    rewrite forallb_forall in Hid. apply Hid, andb_true_iff in Ho as [H1 H2]. split; [by apply ascii_well_formed, ascii_text_dec|].
    by apply bool_decide_eq_true in H2. }
  assert (orders_at_first ⊆ orders_later) as Hsub by (intros o Ho; by right).
  unfold sample_tables. cbn [grows fst]. split_and!; try done; try (apply Hok; by vm_compute). apply list_subseteq_nil.
Qed.

Lemma orders_listed_once_witness :
  exists views, follow text_le ([] : SagaRegistry unit) (js "u1") 2 None sample_tables = (views, None) /\
    NoDup (or_id <$> (ov_order <$> views)) /\ ov_order <$> views = [sample_order "o2" 5 "s2"; sample_order "o1" 5 "s1"; sample_order "o3" 4 "s3"].
Proof.
  destruct (orders_listed_once text_le ([] : SagaRegistry unit) (js "u1") 2 orders_at_first ∅ (drop 1 sample_tables))
    as (views & H1 & H2 & _); [lia|exact sample_tables_grow|intros t [= <-]; cbn; lia|].
  exists views. change ((orders_at_first, ∅) :: drop 1 sample_tables) with sample_tables in H1. split_and!; [exact H1|done|].
  assert (views = fst (follow text_le ([] : SagaRegistry unit) (js "u1") 2 None sample_tables)) as -> by (by rewrite H1).
  by vm_compute.
Defined.

(** Three accounts of one instant, on pages of one: each query may order them as
    it likes, and the second account is on no page. *)
Example ties_hide_a_user :
  let a := {| ur_id := js "a"; ur_email := []; ur_createdAt := 7 |} in
  let b := {| ur_id := js "b"; ur_email := []; ur_createdAt := 7 |} in
  let c := {| ur_id := js "c"; ur_email := []; ur_createdAt := 7 |} in
  StronglySorted older [a; b; c] /\ StronglySorted older [b; a; c] /\
  cp_items (listUsers [a; b; c] None 1) = [a] /\
  cp_items (listUsers [b; a; c] (cp_nextCursor (listUsers [a; b; c] None 1)) 1) = [c] /\
  cp_hasNextPage (listUsers [b; a; c] (cp_nextCursor (listUsers [a; b; c] None 1)) 1) = false.
Proof. split_and!; [repeat constructor; by vm_compute..|by vm_compute|by vm_compute|by vm_compute]. Qed.

(** A cursor that was never issued is no error: one without a character of the
    alphabet is the first page, and another is the empty last page. *)
Example malformed_cursor_is_accepted ordered limit :
  listUsers ordered (Some (js "%%%")) limit = listUsers ordered None limit /\
  listUsers [] (Some (js "zzzz")) limit = {| cp_items := []; cp_nextCursor := None; cp_hasNextPage := false |}.
Proof. by split. Qed.
