(* ===== verification/ResponseCache.v ===== *)
(** * ResponseCache: cached answers and the tenants they were made for

    [common/cache/cache.interceptor.ts], [users/user-resource.cache.interceptor.ts]
    and the two cached routes of [users/users.controller.ts], over the policies
    of [TenantIsolation].  The entries of the cache are shared by all requests of
    a deployment. *)

From S2P Require Import Prelude Text Users Tenancy TenantIsolation.

(** What the interceptors read of a request. *)
Record CacheableRequest := {
  cr_method : string;
  cr_url : string;
  cr_hasQuery : bool;
  cr_id : option string;        (* the [:id] of the route *)
}.

Definition isRequestCacheable (req : CacheableRequest) : bool := bool_decide (cr_method req = "GET"%string).

(** The base interceptor's key: the URL of a cacheable request. *)
Definition base_trackBy (req : CacheableRequest) : option string := if isRequestCacheable req then Some (cr_url req) else None.

(** [HttpCacheInterceptor.trackBy]; [declaredKey] is the route's [@CacheKey]. *)
Definition http_trackBy (declaredKey : option string) (req : CacheableRequest) : option string :=
  match declaredKey with
  | None | Some EmptyString => base_trackBy req
  | Some key => if cr_hasQuery req then None else Some key
  end.

(** [UserResourceCacheInterceptor.trackBy] *)
Definition user_trackBy (req : CacheableRequest) : option string :=
  match cr_id req with None | Some EmptyString => None | Some id => Some (userCacheKey id) end.

(** [CacheInterceptor.intercept]: the entry of the key, or the handler's answer,
    which becomes the entry; a handler that throws ([None]) leaves none. *)
Definition intercept {R : Type} (key : option string) (handler : option R) (cache : gmap string R) : option R * gmap string R :=
  match key with
  | None => (handler, cache)
  | Some k =>
      match cache !! k, handler with
      | Some cached, _ => (Some cached, cache)
      | None, Some r => (Some r, <[k := r]> cache)
      | None, None => (None, cache)
      end
  end.

(** [GET /users] and [GET /users/:id] for a tenant, the rows as the policies
    show them; an account that is not shown is not found. *)
Definition getUsersRoute (cat : Catalog) (rows : Rows) (t : TenantId) (req : CacheableRequest) (cache : gmap string Result) :=
  intercept (http_trackBy (Some USERS_LIST_CACHE_KEY) req) (Some (fst (TenantIsolation.exec cat (Some t) rows everybody))) cache.

Definition findUser (cat : Catalog) (rows : Rows) (t : TenantId) (id : option string) : option Result :=
  match fst (TenantIsolation.exec cat (Some t) rows (Select Users (fun i _ => bool_decide (Some i = js <$> id)))) with
  | Found found => if decide (found = ∅) then None else Some (Found found)
  | Failed _ => None
  end.

Definition getUserRoute (cat : Catalog) (rows : Rows) (t : TenantId) (req : CacheableRequest) (cache : gmap string Result) :=
  intercept (user_trackBy req) (findUser cat rows t (cr_id req)) cache.

(** The key of an entry determines the route and the user, never the tenant:
    whatever one tenant was given is the answer to every other. *)
Lemma cached_for_one_is_served_to_all cat rows t t' req cache r :
  user_trackBy req <> None -> fst (getUserRoute cat rows t req cache) = Some r ->
  fst (getUserRoute cat rows t' req (snd (getUserRoute cat rows t req cache))) = Some r.
Proof.
  unfold getUserRoute. destruct (user_trackBy req) as [k|]; [|done]. intros _. unfold intercept at 1 3.
  destruct (cache !! k) as [r'|] eqn:E; cbn [fst snd intercept]; [intros [= ->]; by rewrite E|].
  destruct (findUser cat rows t (cr_id req)); [|done]. intros [= ->]. cbn [snd intercept]. by rewrite lookup_insert_eq.
Qed.

Definition list_request : CacheableRequest := {| cr_method := "GET"; cr_url := "/v1/users"; cr_hasQuery := false; cr_id := None |}.
Definition user_request (id : string) : CacheableRequest :=
  {| cr_method := "GET"; cr_url := "/v1/users/" +:+ id; cr_hasQuery := false; cr_id := Some id |}.

(** An administrator of one tenant lists the users, then an administrator of
    another: the second is given the first's list.  The same with one user's
    record, which the policies alone would not have shown. *)
Example cache_crosses_tenants :
  let '(_, cache) := getUsersRoute sample_catalog sample_rows acme list_request ∅ in
  let '(answer, _) := getUsersRoute sample_catalog sample_rows globex list_request cache in
  let '(_, cache') := getUserRoute sample_catalog sample_rows acme (user_request "a1") ∅ in
  let '(answer', _) := getUserRoute sample_catalog sample_rows globex (user_request "a1") cache' in
  answer = Some (Found {[ (Users, js "a1") := user_row acme "ann@acme.test" ]}) /\
  answer' = Some (Found {[ (Users, js "a1") := user_row acme "ann@acme.test" ]}) /\
  findUser sample_catalog sample_rows globex (Some "a1"%string) = None.
Proof. by vm_compute. Qed.
