(* ===== verification/PeerIdentity.v ===== *)
(** * PeerIdentity: which peers may call

    [common/mtls/peer-identity.ts], [peer-authorization.ts], [mtls-peer.guard.ts]
    and [mtls.env.ts]: the names in a certificate are read back from the text
    Node renders them in, compared with a list, and the decision is taken for
    every request.  The URL parser is a parameter. *)

From S2P Require Import Prelude Text Tenancy.

(** ** Subject alternative names *)

Record SubjectAltNameEntry := { sn_kind : JSText; sn_value : JSText }.

#[export] Instance SubjectAltNameEntry_eq : EqDecision SubjectAltNameEntry.
Proof. solve_decision. Defined.

Definition comma : N := 44.
Definition quote : N := 34.
Definition backslash : N := 92.
Definition colon : N := 58.
Definition space : N := 32.

(** [raw.indexOf(sep)] and the two sides of it. *)
Fixpoint split_first (sep : N) (t : JSText) : option (JSText * JSText) :=
  match t with
  | [] => None
  | c :: rest => if decide (c = sep) then Some ([], rest) else (fun p => (c :: p.1, p.2)) <$> split_first sep rest
  end.

(** [endOfQuotedValue]: the text through the closing quote, and what follows;
    [t] starts behind the opening one. *)
Fixpoint through_quote (t : JSText) : option (JSText * JSText) :=
  match t with
  | [] => None
  | c :: rest =>
      if decide (c = backslash) then
        match rest with
        | [] => None
        | d :: rest' => (fun p => (c :: d :: p.1, p.2)) <$> through_quote rest'
        end
      else if decide (c = quote) then Some ([c], rest)
      else (fun p => (c :: p.1, p.2)) <$> through_quote rest
  end.

(** ** JSON strings *)

Definition hexValue (c : N) : option N :=
  (if decide (48 <= c <= 57) then Some (c - 48)
   else if decide (97 <= c <= 102) then Some (c - 87)
   else if decide (65 <= c <= 70) then Some (c - 55) else None)%N.

Definition simpleEscape (c : N) : option N :=
  (if decide (c = 34 \/ c = 92 \/ c = 47) then Some c
   else if decide (c = 98) then Some 8 else if decide (c = 102) then Some 12 else if decide (c = 110) then Some 10
   else if decide (c = 114) then Some 13 else if decide (c = 116) then Some 9 else None)%N.

(** [JSON.parse] of a string literal, behind its opening quote; [None] throws. *)
Fixpoint json_chars (t : JSText) : option JSText :=
  match t with
  | [] => None
  | c :: rest =>
      if decide (c = quote) then match rest with [] => Some [] | _ => None end
      else if decide (c = backslash) then
        match rest with
        | 117%N :: h1 :: h2 :: h3 :: h4 :: rest' =>
            a ← hexValue h1; b ← hexValue h2; x ← hexValue h3; y ← hexValue h4;
            cons (a * 4096 + b * 256 + x * 16 + y)%N <$> json_chars rest'
        | d :: rest' => v ← simpleEscape d; cons v <$> json_chars rest'
        | [] => None
        end
      else if decide (c < 32)%N then None
      else cons c <$> json_chars rest
  end.

(** ** Reading the names *)

(** [raw.indexOf(", ")]: the value before it, and the text from it on. *)
Fixpoint before_separator (t : JSText) : JSText * JSText :=
  match t with
  | [] => ([], [])
  | c :: rest =>
      if decide (c = comma /\ head rest = Some space) then ([], t)
      else let p := before_separator rest in (c :: p.1, p.2)
  end.

Definition badKind (kind : JSText) : bool :=
  bool_decide (kind = []) || existsb (fun c => bool_decide (c = quote) || bool_decide (c = 39%N) || bool_decide (c = comma)) kind.

(** One value, and what is left behind it. *)
Definition parseValue (rest : JSText) : option (JSText * JSText) :=
  match rest with
  | 34%N :: body =>
      match through_quote body with
      | None => None
      | Some (quoted, after) => (fun value => (value, after)) <$> json_chars quoted
      end
  | _ => let p := before_separator rest in if bool_decide (comma ∈ p.1) then None else Some p
  end.

(** The loop; every turn consumes a kind. *)
Fixpoint parse_entries (fuel : nat) (raw : JSText) : option (list SubjectAltNameEntry) :=
  match raw with
  | [] => Some []
  | _ =>
      match fuel with
      | O => None
      | S fuel =>
          match split_first colon raw with
          | None => None
          | Some (kind, rest) =>
              if badKind kind then None
              else match parseValue rest with
                   | None => None
                   | Some (value, after) =>
                       cons {| sn_kind := kind; sn_value := value |} <$>
                         match after with
                         | [] => Some []
                         | 44%N :: 32%N :: next => parse_entries fuel next
                         | _ => None
                         end
                   end
          end
      end
  end.

Definition parseSubjectAltName (raw : option JSText) : option (list SubjectAltNameEntry) :=
  match raw with None => Some [] | Some raw => parse_entries (length raw) raw end.

Definition IDENTITY_KINDS : list JSText := [js "URI"; js "DNS"].

Definition peerIdentitiesFrom (raw : option JSText) : list JSText :=
  match parseSubjectAltName raw with
  | None => []
  | Some entries => sn_value <$> filter (fun e => sn_kind e ∈ IDENTITY_KINDS) entries
  end.

(** ** Matching *)

Definition ANY_PEER : JSText := js "*".

Fixpoint has_scheme (t : JSText) : bool :=
  match t with
  | [] => false
  | c :: rest => bool_decide (take 3 t = js "://") || has_scheme rest
  end.

Definition allowsAnyPeer (allowlist : list JSText) : bool := bool_decide (allowlist = [ANY_PEER]).

Definition matches (identity allowed : JSText) : bool :=
  bool_decide (identity = allowed) ||
  (negb (has_scheme identity) && negb (has_scheme allowed) && bool_decide (toLowerCase identity = toLowerCase allowed)).

Definition matchPeerIdentity (identities allowlist : list JSText) : option JSText :=
  List.find (fun identity => existsb (matches identity) allowlist) identities.

Fixpoint split_on (sep : N) (t : JSText) : list JSText :=
  match t with
  | [] => [[]]
  | c :: rest =>
      if decide (c = sep) then [] :: split_on sep rest
      else match split_on sep rest with part :: parts => (c :: part) :: parts | [] => [[c]] end
  end.

Definition parseIdentityList (raw : JSText) : list JSText := filter (fun e => e <> []) (trimText <$> split_on comma raw).

Definition isLabelChar (c : N) : bool := isAlnumLower (lowerLatin1 c).

(** [[a-z0-9]([a-z0-9-]{0,61}[a-z0-9])?], without regard to case *)
Definition isLabel (t : JSText) : bool :=
  bool_decide (1 <= length t <= 63)%nat && forallb (fun c => isLabelChar c || bool_decide (c = 45%N)) t &&
  match head t, last t with Some a, Some b => isLabelChar a && isLabelChar b | _, _ => false end.

Definition isDnsName (t : JSText) : bool := bool_decide (length t <= 253)%nat && forallb isLabel (split_on dot t).

(** What [new URL(value)] gives; [None] throws. *)
Record Url := { url_protocol : JSText; url_host : JSText; url_hostname : JSText; url_pathname : JSText; url_origin : JSText }.

Section settings.
Context (newURL : JSText -> option Url).

Definition isPeerIdentity (value : JSText) : bool :=
  if decide (value = [] \/ value <> trimText value) then false
  else if bool_decide (42%N ∈ value) then false
  else if has_scheme value then
    match newURL value with
    | Some u => bool_decide (url_protocol u <> []) && (bool_decide (url_host u <> []) || bool_decide (url_pathname u <> []))
    | None => false
    end
  else isDnsName value.

Definition isSerialisedOrigin (value : JSText) : bool :=
  match newURL value with
  | None => false
  | Some u => bool_decide (url_origin u <> js "null") && negb (bool_decide (42%N ∈ url_hostname u)) && bool_decide (url_origin u = value)
  end.

(** *** The environment *)

Record MtlsEnv := {
  MTLS_ENABLED : bool;
  MTLS_CERT_FILE : option JSText;
  MTLS_KEY_FILE : option JSText;
  MTLS_CA_FILE : option JSText;
  MTLS_KEY_PASSPHRASE : option JSText;
  MTLS_RELOAD_INTERVAL_MS : Z;
  MTLS_EXPIRY_WARNING_DAYS : Z;
  MTLS_ALLOWED_CLIENTS : JSText;
  MTLS_EXEMPT_PREFIXES : JSText;
  MTLS_ALLOW_UNAUTHENTICATED_PROBES : bool;
  MTLS_PEERS : JSText;
}.

Definition parseAllowedClients (env : MtlsEnv) : list JSText := parseIdentityList (MTLS_ALLOWED_CLIENTS env).
Definition parseExemptPrefixes (env : MtlsEnv) : list JSText := parseIdentityList (MTLS_EXEMPT_PREFIXES env).

(** [Map.set]: a key keeps its first place and has its last value. *)
Fixpoint peers_set (origin identity : JSText) (peers : list (JSText * JSText)) : list (JSText * JSText) :=
  match peers with
  | [] => [(origin, identity)]
  | (o, i) :: rest => if decide (o = origin) then (o, identity) :: rest else (o, i) :: peers_set origin identity rest
  end.

Definition add_peer (peers : list (JSText * JSText)) (entry : JSText) : list (JSText * JSText) :=
  match split_first 61 entry with
  | None => peers
  | Some (o, i) =>
      let origin := trimText o in let identity := trimText i in
      if decide (origin = [] \/ identity = []) then peers else peers_set origin identity peers
  end.

Definition parsePeerMap (raw : JSText) : list (JSText * JSText) := foldl add_peer [] (parseIdentityList raw).

Inductive MtlsIssue :=
  | PeersWithoutMtls
  | FileRequired (name : string)
  | NoAllowedClients
  | NotAnIdentity (entry : JSText)
  | WildcardInProduction
  | PrefixWithoutSlash (prefix : JSText)
  | ProbesWithoutPrefixes
  | ReloadTooOften
  | PeerWithoutIdentity (entry : JSText)
  | NotAnOrigin (origin : JSText)
  | OriginNotHttps (origin : JSText)
  | PeerNotAnIdentity (origin identity : JSText).

Definition absent (v : option JSText) : bool := match v with None | Some [] => true | _ => false end.

Definition peerIssues (peer : JSText * JSText) : list MtlsIssue :=
  let (origin, identity) := peer in
  if negb (isSerialisedOrigin origin) then [NotAnOrigin origin]
  else (if bool_decide (take 8 origin = js "https://") then [] else [OriginNotHttps origin]) ++
       (if isPeerIdentity identity then [] else [PeerNotAnIdentity origin identity]).

Definition collectMtlsIssues (env : MtlsEnv) (production : bool) : list MtlsIssue :=
  let peers := parsePeerMap (MTLS_PEERS env) in
  let allowed := parseAllowedClients env in
  let wildcardClients := bool_decide (allowed = [ANY_PEER]) in
  let prefixes := parseExemptPrefixes env in
  if negb (MTLS_ENABLED env) then (if decide (peers <> []) then [PeersWithoutMtls] else [])
  else
    (if absent (MTLS_CERT_FILE env) then [FileRequired "MTLS_CERT_FILE"] else []) ++
    (if absent (MTLS_KEY_FILE env) then [FileRequired "MTLS_KEY_FILE"] else []) ++
    (if absent (MTLS_CA_FILE env) then [FileRequired "MTLS_CA_FILE"] else []) ++
    (if decide (allowed = []) then [NoAllowedClients] else []) ++
    (NotAnIdentity <$> (if wildcardClients then [] else List.filter (fun i => negb (isPeerIdentity i)) allowed)) ++
    (if production && wildcardClients then [WildcardInProduction] else []) ++
    (PrefixWithoutSlash <$> List.filter (fun p => negb (bool_decide (head p = Some 47%N))) prefixes) ++
    (if MTLS_ALLOW_UNAUTHENTICATED_PROBES env && bool_decide (prefixes = []) then [ProbesWithoutPrefixes] else []) ++
    (if decide (0 < MTLS_RELOAD_INTERVAL_MS env < 1000) then [ReloadTooOften] else []) ++
    (PeerWithoutIdentity <$> List.filter (fun e => negb (bool_decide (61%N ∈ e))) (parseIdentityList (MTLS_PEERS env))) ++
    concat (peerIssues <$> peers).
End settings.

(** ** The decision *)

Record PeerConnection := {
  pc_encrypted : bool;
  pc_authorized : bool;
  pc_subjectAltName : option JSText;
}.

Record PeerPolicy := { pp_allowlist : list JSText; pp_exemptPrefixes : list JSText }.

Inductive PeerRefusal := NotTls | NoCertificate | UnknownIdentity.

Inductive PeerDecision := Allowed (identity : option JSText) (exempt : bool) | Denied (reason : PeerRefusal).

Definition isExemptPath (path : JSText) (prefixes : list JSText) : bool :=
  existsb (fun prefix => bool_decide (take (length prefix) path = prefix) &&
                         match drop (length prefix) path with [] => true | c :: _ => bool_decide (c = 47%N) end) prefixes.

Definition authorizePeer (connection : PeerConnection) (path : JSText) (policy : PeerPolicy) : PeerDecision :=
  let identities := peerIdentitiesFrom (pc_subjectAltName connection) in
  if isExemptPath path (pp_exemptPrefixes policy) then Allowed (head identities) true
  else if negb (pc_encrypted connection) then Denied NotTls
  else if negb (pc_authorized connection) then Denied NoCertificate
  else if allowsAnyPeer (pp_allowlist policy) then Allowed (head identities) false
  else match matchPeerIdentity identities (pp_allowlist policy) with
       | Some matched => Allowed (Some matched) false
       | None => Denied UnknownIdentity
       end.

(** A connection: plain, or TLS with OpenSSL's verdict and the names of the
    certificate the peer presented, if it presented one. *)
Inductive Socket := PlainSocket | TlsSocket (authorized : bool) (names : option (list SubjectAltNameEntry)).

(** *** How Node renders the names

    A value with a quote, a comma, a backslash or a character that is not
    printable is written as a JSON string, the rest as they are. *)

Definition printable (c : N) : bool := bool_decide (32 <= c <= 126)%N.
Definition safeChar (c : N) : bool := printable c && negb (bool_decide (c ∈ [quote; backslash; comma; 39%N])).
Definition hexDigit (v : N) : N := (if decide (v < 10) then 48 + v else 87 + v)%N.

Definition escapeChar (c : N) : JSText :=
  if decide (c = backslash) then [backslash; backslash]
  else if decide (c = quote) then [backslash; quote]
  else if printable c && negb (bool_decide (c = comma)) then [c]
  else [backslash; 117; 48; 48; hexDigit (c / 16); hexDigit (c mod 16)]%N.

Definition renderValue (value : JSText) : JSText :=
  if forallb safeChar value then value else quote :: (value ≫= escapeChar) ++ [quote].

Definition renderEntry (e : SubjectAltNameEntry) : JSText := sn_kind e ++ colon :: renderValue (sn_value e).

Fixpoint renderNames (entries : list SubjectAltNameEntry) : JSText :=
  match entries with
  | [] => []
  | [e] => renderEntry e
  | e :: rest => renderEntry e ++ comma :: space :: renderNames rest
  end.

Definition describeConnection (socket : Socket) : PeerConnection :=
  match socket with
  | PlainSocket => {| pc_encrypted := false; pc_authorized := false; pc_subjectAltName := None |}
  | TlsSocket authorized names =>
      {| pc_encrypted := true; pc_authorized := authorized; pc_subjectAltName := renderNames <$> names |}
  end.

(** [MtlsPeerGuard.canActivate]; [isHttp] is [getType() === "http"]. *)
Definition mtlsPeerGuard (env : MtlsEnv) (isHttp : bool) (socket : Socket) (path : JSText) : bool :=
  if negb (MTLS_ENABLED env) then true
  else if negb isHttp then true
  else match authorizePeer (describeConnection socket) path
               {| pp_allowlist := parseAllowedClients env; pp_exemptPrefixes := parseExemptPrefixes env |} with
       | Allowed _ _ => true
       | Denied _ => false
       end.

(** ** Lemmas *)

Lemma split_first_app sep a b : sep ∉ a -> split_first sep (a ++ sep :: b) = Some (a, b).
Proof.
  induction a as [|c a IH]; intros Hn; cbn [app split_first]; [by rewrite decide_True|].
  apply not_elem_of_cons in Hn as [Hc Hn]. rewrite decide_False by congruence. by rewrite IH.
Qed.

Lemma hex_roundtrip v : (v < 16)%N -> hexValue (hexDigit v) = Some v /\ hexDigit v <> quote /\ hexDigit v <> backslash.
Proof.
  intros Hv. unfold hexValue, hexDigit, quote, backslash. repeat case_decide; try lia; split_and!; try lia; f_equal; lia.
Qed.

(** What an escaped character is to the two readers. *)
Lemma through_escape c t :
  (c < 256)%N -> through_quote (escapeChar c ++ t) = (fun p => (escapeChar c ++ p.1, p.2)) <$> through_quote t.
Proof.
  intros Hc. unfold escapeChar. case_decide as H1; [cbn; by destruct (through_quote t) as [[]|]|].
  case_decide as H2; [cbn; by destruct (through_quote t) as [[]|]|].
  destruct (_ && _); cbn [app through_quote]; [rewrite !decide_False by done; by destruct (through_quote t) as [[]|]|].
  destruct (hex_roundtrip (c / 16)) as (_ & Hq1 & Hb1); [apply N.Div0.div_lt_upper_bound; lia|].
  destruct (hex_roundtrip (c mod 16)) as (_ & Hq2 & Hb2); [apply N.mod_lt; lia|].
  rewrite decide_True by done. rewrite (decide_False (P := 48%N = backslash)), (decide_False (P := 48%N = quote)) by done.
  rewrite !decide_False by done. by destruct (through_quote t) as [[]|].
Qed.

Lemma through_escaped v t : Forall (fun c => c < 256)%N v -> through_quote ((v ≫= escapeChar) ++ quote :: t) = Some ((v ≫= escapeChar) ++ [quote], t).
Proof.
  induction 1 as [|c v Hc _ IH]; [done|]. rewrite bind_cons, <-app_assoc, through_escape, IH by done. cbn. by rewrite <-app_assoc.
Qed.

Lemma json_escape c t : (c < 256)%N -> json_chars (escapeChar c ++ t) = cons c <$> json_chars t.
Proof.
  intros Hc. unfold escapeChar. case_decide as H1; [by subst|]. case_decide as H2; [by subst|].
  destruct (printable c) eqn:Hp.
  - destruct (bool_decide (c = comma)) eqn:Hk; cbn [andb negb].
    + apply bool_decide_eq_true in Hk as ->. done.
    + cbn [app json_chars]. apply bool_decide_eq_true in Hp. by rewrite !decide_False by (done || lia).
  - cbn [andb app json_chars]. rewrite decide_False, decide_True by done.
    destruct (hex_roundtrip (c / 16)) as (-> & _); [apply N.Div0.div_lt_upper_bound; lia|].
    destruct (hex_roundtrip (c mod 16)) as (-> & _); [apply N.mod_lt; lia|]. cbn [hexValue decide mbind option_bind].
    change (hexValue 48) with (Some 0%N). cbn [mbind option_bind]. do 2 f_equal. pose proof (N.div_mod c 16 ltac:(lia)). lia.
Qed.

Lemma json_escaped v : Forall (fun c => c < 256)%N v -> json_chars ((v ≫= escapeChar) ++ [quote]) = Some v.
Proof. induction 1 as [|c v Hc _ IH]; [done|]. rewrite bind_cons, <-app_assoc, json_escape, IH by done. done. Qed.

Lemma before_separator_end v : comma ∉ v -> before_separator v = (v, []).
Proof.
  induction v as [|c v IH]; intros Hn; [done|]. apply not_elem_of_cons in Hn as [Hc Hn]. cbn [before_separator].
  rewrite decide_False by (intros [-> _]; done). by rewrite IH.
Qed.

Lemma before_separator_app v t : comma ∉ v -> before_separator (v ++ comma :: space :: t) = (v, comma :: space :: t).
Proof.
  induction v as [|c v IH]; intros Hn; [done|]. apply not_elem_of_cons in Hn as [Hc Hn]. cbn [app before_separator].
  rewrite decide_False by (intros [-> _]; done). by rewrite IH.
Qed.

(** What may follow a value: the end, or the separator of the next entry. *)
Definition tail_ok (t : JSText) : Prop := t = [] \/ exists t', t = comma :: space :: t'.

Lemma parseValue_render v t : Forall (fun c => c < 256)%N v -> tail_ok t -> parseValue (renderValue v ++ t) = Some (v, t).
Proof.
  intros Hv Ht. unfold renderValue. destruct (forallb safeChar v) eqn:Hs.
  - assert ((comma ∉ v) /\ (quote ∉ v)) as [Hc Hq].
    { rewrite forallb_forall in Hs. split; intros Hin%list_elem_of_In%Hs; done. }
    assert (before_separator (v ++ t) = (v, t)) as Hb.
    { destruct Ht as [->|[t' ->]]; [rewrite app_nil_r; by apply before_separator_end|by apply before_separator_app]. }
    assert (parseValue (v ++ t) = let p := before_separator (v ++ t) in if bool_decide (comma ∈ p.1) then None else Some p) as ->.
    { destruct v as [|c v]; cbn [app].
      - by destruct Ht as [->|[t' ->]].
      - apply not_elem_of_cons in Hq as [Hq _]. unfold parseValue. destruct (decide (c = 34%N)) as [->|Hne]; [done|].
        destruct c as [|p]; [done|]. do 6 (destruct p as [p|p|]; try done). }
    cbv zeta. rewrite Hb. cbn [fst]. by rewrite bool_decide_eq_false_2.
  - cbn [app]. rewrite <-app_assoc. cbn [app]. unfold parseValue. change quote with 34%N at 1.
    rewrite through_escaped by done. by rewrite json_escaped.
Qed.

Definition entry_ok (e : SubjectAltNameEntry) : Prop :=
  badKind (sn_kind e) = false /\ (colon ∉ sn_kind e) /\ Forall (fun c => c < 256)%N (sn_value e).

Lemma parse_entry fuel e t :
  entry_ok e -> tail_ok t ->
  parse_entries (S fuel) (renderEntry e ++ t) =
  cons e <$> match t with [] => Some [] | 44%N :: 32%N :: next => parse_entries fuel next | _ => None end.
Proof.
  intros (Hk & Hc & Hv) Ht. unfold renderEntry. rewrite <-app_assoc. cbn [app].
  destruct (sn_kind e ++ colon :: renderValue (sn_value e) ++ t) as [|x raw] eqn:Er; [by destruct (sn_kind e)|].
  cbn [parse_entries]. rewrite <-Er, split_first_app, Hk, parseValue_render by done. by destruct e.
Qed.

Lemma parse_render entries fuel : Forall entry_ok entries -> (length entries <= fuel)%nat -> parse_entries fuel (renderNames entries) = Some entries.
Proof.
  intros H. revert fuel. induction H as [|e entries He H IH]; intros fuel Hf; [by destruct fuel|].
  destruct fuel as [|fuel]; [cbn in Hf; lia|]. cbn in Hf. destruct entries as [|e' entries].
  - cbn [renderNames]. rewrite <-(app_nil_r (renderEntry e)). rewrite parse_entry; [done|done|by left].
  - cbn [renderNames]. fold (renderNames (e' :: entries)). rewrite parse_entry; [|done|right; eauto].
    change comma with 44%N. change space with 32%N. cbv beta iota. rewrite IH by lia. done.
Qed.

Lemma renderNames_length entries : (length entries <= length (renderNames entries))%nat.
Proof.
  induction entries as [|e [|e' entries] IH]; [done| |].
  - cbn. unfold renderEntry. rewrite length_app. cbn. lia.
  - change (renderNames (e :: e' :: entries)) with (renderEntry e ++ comma :: space :: renderNames (e' :: entries)).
    rewrite length_app. cbn [length] in *. lia.
Qed.

Lemma names_read_back entries : Forall entry_ok entries -> parseSubjectAltName (Some (renderNames entries)) = Some entries.
Proof. intros H. apply parse_render; [done|apply renderNames_length]. Qed.

Lemma isExemptPath_spec path prefixes :
  isExemptPath path prefixes = true <-> exists prefix, prefix ∈ prefixes /\ (path = prefix \/ exists rest, path = prefix ++ 47%N :: rest).
Proof.
  unfold isExemptPath. rewrite existsb_exists. split.
  - intros (prefix & Hin%list_elem_of_In & H). exists prefix. split; [done|]. apply andb_true_iff in H as [Hp Hd].
    apply bool_decide_eq_true in Hp. rewrite <-(take_drop (length prefix) path), Hp.
    destruct (drop (length prefix) path) as [|c rest]; [left; apply app_nil_r|]. apply bool_decide_eq_true in Hd as ->. right. eauto.
  - intros (prefix & Hin & H). exists prefix. split; [by apply list_elem_of_In|].
    destruct H as [->|[rest ->]]; [|rewrite take_app_length, drop_app_length; by rewrite bool_decide_eq_true_2].
    rewrite firstn_all, drop_all. by rewrite bool_decide_eq_true_2.
Qed.

(** Two spellings of one peer: the same text, or the same host name. *)
Definition same_peer (identity allowed : JSText) : Prop :=
  identity = allowed \/ has_scheme identity = false /\ has_scheme allowed = false /\ toLowerCase identity = toLowerCase allowed.

Lemma matches_spec identity allowed : matches identity allowed = true <-> same_peer identity allowed.
Proof.
  unfold matches, same_peer. rewrite orb_true_iff, !andb_true_iff, !negb_true_iff, !bool_decide_eq_true. tauto.
Qed.

Lemma matchPeerIdentity_spec identities allowlist :
  is_Some (matchPeerIdentity identities allowlist) <->
  exists identity allowed, identity ∈ identities /\ allowed ∈ allowlist /\ same_peer identity allowed.
Proof.
  unfold matchPeerIdentity. split.
  - intros [i H]. apply List.find_some in H as [Hi (a & Ha & Hm)%existsb_exists]. exists i, a.
    rewrite !list_elem_of_In. by rewrite <-matches_spec.
  - intros (i & a & Hi & Ha & Hm). destruct (List.find _ identities) eqn:E; [by eexists|].
    apply List.find_none with (x := i) in E; [|by apply list_elem_of_In]. cbn in E.
    assert (existsb (matches i) allowlist = true) as Ht; [|congruence]. apply existsb_exists. exists a.
    split; [by apply list_elem_of_In|by apply matches_spec].
Qed.

Section checked.
Context (newURL : JSText -> option Url).

Lemma checked_allowlist env production :
  collectMtlsIssues newURL env production = [] -> MTLS_ENABLED env = true ->
  parseAllowedClients env <> [] /\ (production = true -> parseAllowedClients env <> [ANY_PEER]) /\
  (parseAllowedClients env <> [ANY_PEER] -> Forall (fun i => isPeerIdentity newURL i = true) (parseAllowedClients env)).
Proof.
  unfold collectMtlsIssues. intros H He. rewrite He in H. cbn [negb] in H.
  repeat apply app_eq_nil in H as [? H]. split_and!.
  - intros Hn. by rewrite decide_True in * by done.
  - intros -> Hn. by rewrite bool_decide_eq_true_2 in * by done.
  - intros Hn. rewrite bool_decide_eq_false_2 in * by done. apply Forall_forall. intros i Hi.
    destruct (isPeerIdentity newURL i) eqn:E; [done|]. exfalso.
    assert (i ∈ List.filter (fun i => negb (isPeerIdentity newURL i)) (parseAllowedClients env)) as Hf.
    { apply list_elem_of_In, filter_In. split; [by apply list_elem_of_In|by rewrite E]. }
    destruct (List.filter _ _) as [|x l]; [by apply elem_of_nil in Hf|done].
Qed.
End checked.

(** ** Properties *)

(** C17: the listener admits exactly the peers it names.  With mutual TLS on,
    under settings that pass the production check, and whatever text an issuer
    let a peer put into the names of its certificate - quotes, commas, other
    names spelled out: an HTTP request is let through if and only if its path is
    an exempt prefix or below one, or it came over TLS with a certificate the
    trust anchors accept and one of the URI or DNS names in that certificate is,
    in full, one of the allowed identities. *)
Theorem peer_admitted_exactly newURL env socket path :
  collectMtlsIssues newURL env true = [] -> MTLS_ENABLED env = true ->
  (forall authorized names, socket = TlsSocket authorized (Some names) -> Forall entry_ok names) ->
  mtlsPeerGuard env true socket path = true <->
    (exists prefix, prefix ∈ parseExemptPrefixes env /\ (path = prefix \/ exists rest, path = prefix ++ 47%N :: rest)) \/
    (exists names e allowed, socket = TlsSocket true (Some names) /\ e ∈ names /\ sn_kind e ∈ IDENTITY_KINDS /\
       allowed ∈ parseAllowedClients env /\ isPeerIdentity newURL allowed = true /\ same_peer (sn_value e) allowed).
Proof.
  intros Hchk He Hnames. destruct (checked_allowlist newURL env true Hchk He) as (_ & Hwild & Hids). specialize (Hwild eq_refl).
  specialize (Hids Hwild). rewrite Forall_forall in Hids.
  unfold mtlsPeerGuard. rewrite He. cbn [negb]. unfold authorizePeer. cbn [pp_exemptPrefixes pp_allowlist].
  rewrite <-isExemptPath_spec. destruct (isExemptPath path _); [tauto|].
  unfold allowsAnyPeer. rewrite (bool_decide_eq_false_2 _ Hwild).
  destruct socket as [|authorized names]; cbn [describeConnection pc_encrypted pc_authorized pc_subjectAltName negb];
    [split; [done|by intros [?|(? & ? & ? & ? & _)]]|].
  destruct authorized; cbn [negb]; [|split; [done|by intros [?|(? & ? & ? & ? & _)]]].
  assert (forall ids, match (match matchPeerIdentity ids (parseAllowedClients env) with Some m => Allowed (Some m) false | None => Denied UnknownIdentity end)
          with Allowed _ _ => true | Denied _ => false end = true <-> is_Some (matchPeerIdentity ids (parseAllowedClients env))) as ->.
  { intros ids. destruct (matchPeerIdentity ids _); [by split|]. split; [done|by intros []]. }
  rewrite matchPeerIdentity_spec. unfold peerIdentitiesFrom. destruct names as [names|]; cbn [fmap option_fmap option_map].
  - rewrite names_read_back by by eapply Hnames. split.
    + intros (i & a & (e & -> & [Hk Hin]%list_elem_of_filter)%list_elem_of_fmap & Ha & Hs). right. exists names, e, a. eauto 10.
    + intros [?|(names' & e & a & [= <-] & Hin & Hk & Ha & _ & Hs)]; [done|]. exists (sn_value e), a. split_and!; [|done|done].
      apply list_elem_of_fmap_2, list_elem_of_filter. done.
  - cbn. split; [by intros (i & a & ?%elem_of_nil & _)|by intros [?|(? & ? & ? & ? & _)]].
Qed.

Definition orders_spiffe : JSText := js "spiffe://cluster.local/ns/prod/sa/orders".

Definition sample_mtls : MtlsEnv := {|
  MTLS_ENABLED := true; MTLS_CERT_FILE := Some (js "/tls/tls.crt"); MTLS_KEY_FILE := Some (js "/tls/tls.key");
  MTLS_CA_FILE := Some (js "/tls/ca.crt"); MTLS_KEY_PASSPHRASE := None; MTLS_RELOAD_INTERVAL_MS := 300000;
  MTLS_EXPIRY_WARNING_DAYS := 14; MTLS_ALLOWED_CLIENTS := orders_spiffe ++ js ", web.internal";
  MTLS_EXEMPT_PREFIXES := js "/v1/health,/metrics"; MTLS_ALLOW_UNAUTHENTICATED_PROBES := true; MTLS_PEERS := [] |}.

(** A parser that knows the one address of the sample. *)
Definition sample_newURL (v : JSText) : option Url :=
  if decide (v = orders_spiffe)
  then Some {| url_protocol := js "spiffe:"; url_host := js "cluster.local"; url_hostname := js "cluster.local";
               url_pathname := js "/ns/prod/sa/orders"; url_origin := js "null" |}
  else None.

Definition dns (v : JSText) : SubjectAltNameEntry := {| sn_kind := js "DNS"; sn_value := v |}.
Definition uri (v : JSText) : SubjectAltNameEntry := {| sn_kind := js "URI"; sn_value := v |}.

Lemma peer_admitted_exactly_witness :
  exists e allowed, e ∈ [dns (js "a,b"); dns (js "WEB.internal")] /\ allowed ∈ parseAllowedClients sample_mtls /\ same_peer (sn_value e) allowed.
Proof.
  destruct (peer_admitted_exactly sample_newURL sample_mtls (TlsSocket true (Some [dns (js "a,b"); dns (js "WEB.internal")])) (js "/v1/orders"))
    as [H _]; [by vm_compute|done| |].
  - intros ? ? [= <- <-]. repeat constructor; try (by vm_compute); apply (bool_decide_unpack _); by vm_compute.
  - destruct H as [(prefix & Hp & Hx)|(names & e & a & [= <-] & He & _ & Ha & _ & Hs)]; [by vm_compute| |by exists e, a].
    exfalso. assert (isExemptPath (js "/v1/orders") (parseExemptPrefixes sample_mtls) = true) as Hc by (apply isExemptPath_spec; eauto).
    by vm_compute in Hc.
Defined.

(** A DNS name that spells out a second entry stays one name. *)
Example spelled_out_name_is_refused :
  let forged := dns (js "evil.example.com, URI:" ++ orders_spiffe) in
  mtlsPeerGuard sample_mtls true (TlsSocket true (Some [forged])) (js "/v1/orders") = false /\
  mtlsPeerGuard sample_mtls true (TlsSocket true (Some [uri orders_spiffe])) (js "/v1/orders") = true.
Proof. by vm_compute. Qed.

(** The kind of a name is dropped before it is compared: a DNS entry whose text
    is an identity URI is admitted as that URI. *)
Example dns_name_passes_for_a_uri :
  mtlsPeerGuard sample_mtls true (TlsSocket true (Some [dns orders_spiffe])) (js "/v1/orders") = true.
Proof. by vm_compute. Qed.
