(* ===== verification/KeyMaterial.v ===== *)
(** * KeyMaterial: certificates that are loaded, used and rotated

    [common/mtls/key-material.ts], [key-material.service.ts], [mtls-server.ts],
    [mtls-dispatcher.ts] and [mtls-runtime.ts].  Certificates are the runtime's
    ([X509]): parsing, dates, issuers and signatures are its answers.  The files
    and the clock are what each load finds.  The reload timer runs from [start] on,
    so it may fire before the server is attached. *)

From S2P Require Import Prelude Text PeerIdentity.

(** ** What the runtime says of certificates *)

Class X509 (Cert : Type) := {
  x_parse : JSText -> option Cert;                       (* [new X509Certificate(block)] *)
  x_fingerprint256 : Cert -> string;
  x_validFrom : Cert -> option Z;
  x_validTo : Cert -> option Z;
  x_checkIssued : Cert -> Cert -> bool;
  x_verify : Cert -> Cert -> option bool;                (* against the issuer's key; [None] throws *)
  x_names : Cert -> option (list SubjectAltNameEntry);
  x_toString : Cert -> JSText;
  x_secureContext : JSText -> JSText -> option JSText -> bool;   (* [createSecureContext] of cert, key, passphrase *)
}.

Record KeyMaterialFiles := { kf_certFile : JSText; kf_keyFile : JSText; kf_caFile : JSText }.

(** ** PEM blocks *)

(** The text before the first [needle], and the text behind it. *)
Fixpoint split_at_text (needle t : JSText) : option (JSText * JSText) :=
  if bool_decide (take (length needle) t = needle) then Some ([], drop (length needle) t)
  else match t with
       | [] => None
       | c :: rest => (fun p => (c :: p.1, p.2)) <$> split_at_text needle rest
       end.

Definition BEGIN_CERTIFICATE : JSText := js "-----BEGIN CERTIFICATE-----".
Definition END_CERTIFICATE : JSText := js "-----END CERTIFICATE-----".

(** [pem.match(PEM_CERTIFICATE) ?? []]: each block to its first end. *)
Fixpoint pem_blocks (fuel : nat) (t : JSText) : list JSText :=
  match fuel with
  | O => []
  | S fuel =>
      match split_at_text BEGIN_CERTIFICATE t with
      | None => []
      | Some (_, body) =>
          match split_at_text END_CERTIFICATE body with
          | None => []
          | Some (inner, after) => (BEGIN_CERTIFICATE ++ inner ++ END_CERTIFICATE) :: pem_blocks fuel after
          end
      end
  end.

Section material.
Context {Cert : Type} `{!X509 Cert}.

Record KeyMaterial := {
  km_cert : JSText;
  km_key : JSText;
  km_ca : list JSText;
  km_passphrase : option JSText;
  km_leaf : Cert;
  km_identities : list JSText;
  km_notBefore : Z;
  km_notAfter : Z;
  km_expiresAt : Z;
  km_fingerprint : list string;        (* joined with a plus sign *)
}.

Inductive KeyMaterialError :=
  | CannotRead (path : JSText)
  | Unparseable (index : nat) (path : JSText)
  | NoCertificateBlock (path : JSText)
  | KeyDoesNotMatch
  | NoReadableDate (path : JSText)
  | NotYetValid (notBefore : Z)
  | CertificateExpired (notAfter : Z)
  | DoesNotChain.

Definition readMaterialFile (files : gmap JSText JSText) (path : JSText) : KeyMaterialError + JSText :=
  match files !! path with Some text => inr text | None => inl (CannotRead path) end.

Fixpoint parse_blocks (path : JSText) (index : nat) (blocks : list JSText) : KeyMaterialError + list Cert :=
  match blocks with
  | [] => inr []
  | block :: rest =>
      match x_parse block with
      | None => inl (Unparseable index path)
      | Some cert => match parse_blocks path (S index) rest with inl e => inl e | inr certs => inr (cert :: certs) end
      end
  end.

Definition parseCertificates (pem path : JSText) : KeyMaterialError + list Cert := parse_blocks path 1 (pem_blocks (length pem) pem).

Definition isIssuedBy (certificate issuer : Cert) : bool :=
  x_checkIssued certificate issuer && default false (x_verify certificate issuer).

Definition MAX_CHAIN_DEPTH : nat := 8.

(** [turns] counts the depths that are left. *)
Fixpoint chain_loop (turns : nat) (current : Cert) (used : list string) (intermediates anchors : list Cert) : bool :=
  match turns with
  | O => false
  | S turns =>
      if existsb (isIssuedBy current) anchors then true
      else match List.find (fun candidate => negb (bool_decide (x_fingerprint256 candidate ∈ used)) && isIssuedBy current candidate) intermediates with
           | None => false
           | Some next => chain_loop turns next (x_fingerprint256 next :: used) intermediates anchors
           end
  end.

Definition chainsToAnchor (leaf : Cert) (intermediates anchors : list Cert) : bool :=
  chain_loop (S MAX_CHAIN_DEPTH) leaf [] intermediates anchors.

Fixpoint validities (path : JSText) (certs : list Cert) : KeyMaterialError + list Z :=
  match certs with
  | [] => inr []
  | c :: rest =>
      match x_validTo c with
      | None => inl (NoReadableDate path)
      | Some d => match validities path rest with inl e => inl e | inr ds => inr (d :: ds) end
      end
  end.

Definition earliest (first : Z) (dates : list Z) : Z := foldl Z.min first dates.

Definition certificateIdentities (c : Cert) : list JSText := peerIdentitiesFrom (renderNames <$> x_names c).

(** [loadKeyMaterial], its checks in their order. *)
Definition loadKeyMaterial (fs : gmap JSText JSText) (files : KeyMaterialFiles) (now : Z) (passphrase : option JSText) :
    KeyMaterialError + KeyMaterial :=
  match readMaterialFile fs (kf_certFile files) with inl e => inl e | inr cert =>
  match readMaterialFile fs (kf_keyFile files) with inl e => inl e | inr key =>
  match readMaterialFile fs (kf_caFile files) with inl e => inl e | inr caBundle =>
  match parseCertificates cert (kf_certFile files) with inl e => inl e | inr chain =>
  match parseCertificates caBundle (kf_caFile files) with inl e => inl e | inr anchors =>
  match chain with [] => inl (NoCertificateBlock (kf_certFile files)) | leaf :: intermediates =>
  if negb (x_secureContext cert key passphrase) then inl KeyDoesNotMatch else
  match x_validFrom leaf with None => inl (NoReadableDate (kf_certFile files)) | Some notBefore =>
  match x_validTo leaf with None => inl (NoReadableDate (kf_certFile files)) | Some notAfter =>
  if decide (now < notBefore) then inl (NotYetValid notBefore)
  else if decide (notAfter < now) then inl (CertificateExpired notAfter)
  else if negb (chainsToAnchor leaf intermediates anchors) then inl DoesNotChain else
  match validities (kf_caFile files) anchors with inl e => inl e | inr anchorExpiries =>
  inr {| km_cert := cert; km_key := key; km_ca := x_toString <$> anchors; km_passphrase := passphrase; km_leaf := leaf;
         km_identities := certificateIdentities leaf; km_notBefore := notBefore; km_notAfter := notAfter;
         km_expiresAt := earliest notAfter anchorExpiries; km_fingerprint := x_fingerprint256 <$> leaf :: anchors |}
  end end end end end end end end end.

(** ** The service, the listener and the dispatchers *)

Record SecureContext := { sc_cert : JSText; sc_key : JSText; sc_ca : list JSText; sc_passphrase : option JSText }.

Definition secureContextFrom (m : KeyMaterial) : SecureContext :=
  {| sc_cert := km_cert m; sc_key := km_key m; sc_ca := km_ca m; sc_passphrase := km_passphrase m |}.

(** [createPeerAgent]: the context it presents and the identity it insists on. *)
Record PeerAgent := { pa_context : SecureContext; pa_expectedIdentity : JSText }.

Definition createPeerAgent (m : KeyMaterial) (identity : JSText) : PeerAgent :=
  {| pa_context := secureContextFrom m; pa_expectedIdentity := identity |}.

Definition buildAgents (peers : list (JSText * JSText)) (m : KeyMaterial) : list (JSText * PeerAgent) :=
  (fun peer => (peer.1, createPeerAgent m peer.2)) <$> peers.

(** What is told of a rotation, in the order it subscribed. *)
Inductive Listener := ServerListener | DispatcherListener.

#[global] Instance Listener_eq : EqDecision Listener.
Proof. solve_decision. Defined.

Record MtlsRuntime := {
  rt_material : option KeyMaterial;
  rt_listeners : list Listener;
  rt_server : option SecureContext;             (* what the listening server presents *)
  rt_peers : list (JSText * JSText);
  rt_agents : list (JSText * PeerAgent);
}.

(** The two listeners: the server gets the new context, and the dispatchers are
    built anew. *)
Definition rotateServer (m : KeyMaterial) (rt : MtlsRuntime) : MtlsRuntime :=
  {| rt_material := rt_material rt; rt_listeners := rt_listeners rt; rt_server := Some (secureContextFrom m);
     rt_peers := rt_peers rt; rt_agents := rt_agents rt |}.

Definition rebuild (m : KeyMaterial) (rt : MtlsRuntime) : MtlsRuntime :=
  {| rt_material := rt_material rt; rt_listeners := rt_listeners rt; rt_server := rt_server rt;
     rt_peers := rt_peers rt; rt_agents := buildAgents (rt_peers rt) m |}.

(** One turn of the loop: a listener that throws is logged, and has changed
    nothing. *)
Definition notify_one (m : KeyMaterial) (throws : Listener -> bool) (rt : MtlsRuntime) (l : Listener) : MtlsRuntime :=
  if throws l then rt else match l with ServerListener => rotateServer m rt | DispatcherListener => rebuild m rt end.

Definition notify (m : KeyMaterial) (throws : Listener -> bool) (rt : MtlsRuntime) : MtlsRuntime :=
  foldl (notify_one m throws) rt (rt_listeners rt).

Inductive ReloadOutcome := Rotated | Unchanged | ReloadFailed.

Definition with_material (m : KeyMaterial) (rt : MtlsRuntime) : MtlsRuntime :=
  {| rt_material := Some m; rt_listeners := rt_listeners rt; rt_server := rt_server rt; rt_peers := rt_peers rt; rt_agents := rt_agents rt |}.

(** One firing of the timer: what the disk and the clock show, and which
    listeners throw. *)
Record Tick := { tk_files : gmap JSText JSText; tk_now : Z; tk_throws : Listener -> bool }.

Definition reload (files : KeyMaterialFiles) (passphrase : option JSText) (tick : Tick) (rt : MtlsRuntime) : ReloadOutcome * MtlsRuntime :=
  match loadKeyMaterial (tk_files tick) files (tk_now tick) passphrase with
  | inl _ => (ReloadFailed, rt)
  | inr next =>
      if match rt_material rt with Some previous => bool_decide (km_fingerprint previous = km_fingerprint next) | None => false end
      then (Unchanged, rt)
      else (Rotated, notify next (tk_throws tick) (with_material next rt))
  end.

Definition files_of (env : MtlsEnv) : option KeyMaterialFiles :=
  match MTLS_CERT_FILE env, MTLS_KEY_FILE env, MTLS_CA_FILE env with
  | Some (c :: cert), Some (k :: key), Some (a :: ca) => Some {| kf_certFile := c :: cert; kf_keyFile := k :: key; kf_caFile := a :: ca |}
  | _, _, _ => None
  end.

(** [MtlsRuntime.start] with mutual TLS on, and the server that is created with
    the options it returns. *)
Definition runtime_start (env : MtlsEnv) (files : KeyMaterialFiles) (fs : gmap JSText JSText) (now : Z) : KeyMaterialError + MtlsRuntime :=
  match loadKeyMaterial fs files now (MTLS_KEY_PASSPHRASE env) with
  | inl e => inl e
  | inr m =>
      let peers := parsePeerMap (MTLS_PEERS env) in
      inr {| rt_material := Some m; rt_listeners := if decide (peers <> []) then [DispatcherListener] else [];
             rt_server := Some (secureContextFrom m); rt_peers := peers; rt_agents := buildAgents peers m |}
  end.

(** A second call detaches the first. *)
Definition attachTo (rt : MtlsRuntime) : MtlsRuntime :=
  match rt_material rt with
  | None => rt
  | Some _ =>
      {| rt_material := rt_material rt; rt_listeners := filter (fun l => l <> ServerListener) (rt_listeners rt) ++ [ServerListener];
         rt_server := rt_server rt; rt_peers := rt_peers rt; rt_agents := rt_agents rt |}
  end.

(** [stop]: the timer is cancelled, so that nothing polls any more. *)
Definition runtime_stop (rt : MtlsRuntime) : MtlsRuntime :=
  {| rt_material := None; rt_listeners := []; rt_server := rt_server rt; rt_peers := []; rt_agents := [] |}.

Definition poll (env : MtlsEnv) (files : KeyMaterialFiles) (rt : MtlsRuntime) (ticks : list Tick) : MtlsRuntime :=
  foldl (fun rt tick => snd (reload files (MTLS_KEY_PASSPHRASE env) tick rt)) rt ticks.

(** The process: it starts, the timer may fire, the server is attached, the
    timer goes on. *)
Definition process (env : MtlsEnv) (files : KeyMaterialFiles) (rt : MtlsRuntime) (early late : list Tick) : MtlsRuntime :=
  poll env files (attachTo (poll env files rt early)) late.

(** [dispatcherFor]; [origin] is [new URL(url).origin]. *)
Definition dispatcherFor (rt : MtlsRuntime) (origin : JSText) : option PeerAgent :=
  snd <$> List.find (fun entry => bool_decide (entry.1 = origin)) (rt_agents rt).

(** [verifyPeerCertificate]; [hostnameOk] is what the runtime's own check of the
    host name says.  True is [undefined], no objection. *)
Definition verifyPeerCertificate (expectedIdentity : JSText) (hostnameOk : bool) (names : option (list SubjectAltNameEntry)) : bool :=
  match matchPeerIdentity (peerIdentitiesFrom (renderNames <$> names)) [expectedIdentity] with
  | None => false
  | Some _ => if has_scheme expectedIdentity then true else hostnameOk
  end.

Definition DAY_MS : Z := 86400000.

Definition millisecondsUntilExpiry (m : KeyMaterial) (now : Z) : Z := km_expiresAt m - now.

(** [warnIfExpiringSoon]: whether the warning is logged. *)
Definition warnsOfExpiry (m : KeyMaterial) (days now : Z) : bool :=
  bool_decide (0 < days) && bool_decide (millisecondsUntilExpiry m now <= days * DAY_MS).

(** ** Lemmas *)

(** A chain of signatures from a certificate to an anchor. *)
Inductive trusted (intermediates anchors : list Cert) : Cert -> Prop :=
  | by_anchor c a : a ∈ anchors -> isIssuedBy c a = true -> trusted intermediates anchors c
  | by_intermediate c i : i ∈ intermediates -> isIssuedBy c i = true -> trusted intermediates anchors i -> trusted intermediates anchors c.

Lemma chain_loop_sound turns c used intermediates anchors :
  chain_loop turns c used intermediates anchors = true -> trusted intermediates anchors c.
Proof.
  revert c used. induction turns as [|turns IH]; intros c used; [done|]. cbn [chain_loop].
  destruct (existsb _ anchors) eqn:E; [intros _|].
  - apply existsb_exists in E as (a & Ha & Hi). apply by_anchor with a; [by apply list_elem_of_In|done].
  - destruct (List.find _ intermediates) as [i|] eqn:Ei; [|done]. intros H%IH. apply List.find_some in Ei as [Hi Hc].
    apply andb_true_iff in Hc as [_ Hc]. apply by_intermediate with i; [by apply list_elem_of_In|done|done].
Qed.

(** What a load vouches for. *)
Record usable (fs : gmap JSText JSText) (files : KeyMaterialFiles) (now : Z) (m : KeyMaterial) : Prop := {
  us_key : x_secureContext (km_cert m) (km_key m) (km_passphrase m) = true;
  us_window : km_notBefore m <= now <= km_notAfter m;
  us_read : fs !! kf_certFile files = Some (km_cert m) /\ fs !! kf_keyFile files = Some (km_key m);
  us_chain : exists intermediates anchors, parseCertificates (km_cert m) (kf_certFile files) = inr (km_leaf m :: intermediates) /\
               km_ca m = x_toString <$> anchors /\ trusted intermediates anchors (km_leaf m);
  us_expiry : km_expiresAt m <= km_notAfter m;
}.

Lemma earliest_le first dates : earliest first dates <= first.
Proof.
  unfold earliest. revert first. induction dates as [|d dates IH]; intros first; cbn; [lia|]. specialize (IH (Z.min first d)). lia.
Qed.

Lemma loaded_usable fs files now passphrase m : loadKeyMaterial fs files now passphrase = inr m -> usable fs files now m.
Proof.
  unfold loadKeyMaterial, readMaterialFile. destruct (fs !! kf_certFile files) as [cert|] eqn:E1; [|done].
  destruct (fs !! kf_keyFile files) as [key|] eqn:E2; [|done]. destruct (fs !! kf_caFile files) as [ca|]; [|done].
  destruct (parseCertificates cert _) as [|chain] eqn:E4; [done|]. destruct (parseCertificates ca _) as [|anchors]; [done|].
  destruct chain as [|leaf intermediates]; [done|]. destruct (x_secureContext cert key passphrase) eqn:Ek; [cbn [negb]|done].
  destruct (x_validFrom leaf) as [notBefore|]; [|done]. destruct (x_validTo leaf) as [notAfter|]; [|done].
  case_decide; [done|]. case_decide; [done|]. destruct (chainsToAnchor leaf intermediates anchors) eqn:Ec; [cbn [negb]|done].
  destruct (validities _ anchors) as [|ds]; [done|]. intros [= <-]. constructor; cbn; [done|lia|done| |apply earliest_le].
  exists intermediates, anchors. split_and!; [done|done|]. by eapply chain_loop_sound.
Qed.

Lemma notified_fields m throws ls rt :
  let rt' := foldl (notify_one m throws) rt ls in
  rt_material rt' = rt_material rt /\ rt_listeners rt' = rt_listeners rt /\ rt_peers rt' = rt_peers rt /\
  (rt_server rt' = if decide (ServerListener ∈ ls /\ throws ServerListener = false) then Some (secureContextFrom m) else rt_server rt) /\
  (rt_agents rt' = if decide (DispatcherListener ∈ ls /\ throws DispatcherListener = false) then buildAgents (rt_peers rt) m else rt_agents rt).
Proof.
  cbn zeta. revert rt. induction ls as [|l ls IH]; intros rt; [by rewrite !decide_False by (intros [?%elem_of_nil _]; done)|].
  cbn [foldl]. destruct (IH (notify_one m throws rt l)) as (-> & -> & -> & -> & ->). unfold notify_one, rotateServer, rebuild.
  destruct (throws l) eqn:E; destruct l; cbn [rt_material rt_listeners rt_peers rt_server rt_agents]; split_and!; try done; rewrite ?E;
    repeat case_decide; try done; exfalso; set_solver.
Qed.
End material.
Arguments KeyMaterial : clear implicits.
Arguments MtlsRuntime : clear implicits.

Section rotation.
Context {Cert : Type} `{!X509 Cert} (env : MtlsEnv) (files : KeyMaterialFiles) (fs0 : gmap JSText JSText) (now0 : Z).

(** [m] was read, and passed every check, at the start or at one of [ticks]. *)
Definition read_at (ticks : list Tick) (m : KeyMaterial Cert) : Prop :=
  exists fs now, (fs, now) ∈ (fs0, now0) :: ((fun tick => (tk_files tick, tk_now tick)) <$> ticks) /\
    loadKeyMaterial fs files now (MTLS_KEY_PASSPHRASE env) = inr m.

Lemma read_at_app ticks ticks' m : read_at ticks m -> read_at (ticks ++ ticks') m.
Proof. intros (fs & now & Hin & Hl). exists fs, now. split; [|done]. rewrite fmap_app. set_solver. Qed.

(** What holds throughout: all that is presented was read whole. *)
Record held (ticks : list Tick) (rt : MtlsRuntime Cert) (m : KeyMaterial Cert) : Prop := {
  hd_material : rt_material rt = Some m;
  hd_read : read_at ticks m;
  hd_server : exists m', read_at ticks m' /\ rt_server rt = Some (secureContextFrom m');
  hd_agents : exists m', read_at ticks m' /\ rt_agents rt = buildAgents (rt_peers rt) m';
  hd_peers : rt_peers rt = parsePeerMap (MTLS_PEERS env);
  hd_dispatchers : rt_peers rt <> [] -> DispatcherListener ∈ rt_listeners rt;
}.

Lemma reload_held ticks tick rt m :
  held ticks rt m ->
  let '(outcome, rt') := reload files (MTLS_KEY_PASSPHRASE env) tick rt in
  match outcome with
  | Rotated => exists m', loadKeyMaterial (tk_files tick) files (tk_now tick) (MTLS_KEY_PASSPHRASE env) = inr m' /\ held (ticks ++ [tick]) rt' m' /\
      rt_listeners rt' = rt_listeners rt /\ km_fingerprint m <> km_fingerprint m' /\
      (ServerListener ∈ rt_listeners rt -> tk_throws tick ServerListener = false -> rt_server rt' = Some (secureContextFrom m')) /\
      (ServerListener ∉ rt_listeners rt -> rt_server rt' = rt_server rt) /\
      (tk_throws tick DispatcherListener = false -> rt_agents rt' = buildAgents (rt_peers rt') m')
  | Unchanged => rt' = rt /\ exists m', loadKeyMaterial (tk_files tick) files (tk_now tick) (MTLS_KEY_PASSPHRASE env) = inr m' /\ km_fingerprint m = km_fingerprint m'
  | ReloadFailed => rt' = rt /\ exists e, loadKeyMaterial (tk_files tick) files (tk_now tick) (MTLS_KEY_PASSPHRASE env) = inl e
  end.
Proof.
  intros [H1 H2 (ms & Hms & Hserver) (ma & Hma & Hagents) Hp Hd]. unfold reload.
  destruct (loadKeyMaterial (tk_files tick) _ _ _) as [e|next] eqn:Hl; [eauto|]. rewrite H1. case_bool_decide as Hf; [eauto|]. unfold notify.
  destruct (notified_fields next (tk_throws tick) (rt_listeners (with_material next rt)) (with_material next rt)) as (N1 & N2 & N3 & N4 & N5).
  cbn [with_material rt_listeners rt_peers rt_material rt_server rt_agents] in *.
  set (rt' := foldl _ _ _) in *. clearbody rt'.
  assert (read_at (ticks ++ [tick]) next) as Hn by (exists (tk_files tick), (tk_now tick); split; [rewrite fmap_app; set_solver|done]).
  exists next. split_and!; [done| |done|done| | |].
  - split; [done|done| | |by rewrite N3|by rewrite N2, N3].
    + rewrite N4. clear N4 N5. case_decide; [by exists next|]. exists ms. split; [by apply read_at_app|done].
    + rewrite N5, N3. clear N4 N5. case_decide; [by exists next|]. exists ma. split; [by apply read_at_app|done].
  - intros Hin Ht. by rewrite N4, decide_True.
  - intros Hin. rewrite N4, decide_False; [done|]. by intros [? _].
  - intros Ht. rewrite N5, N3. clear N4 N5. case_decide as Hx; [done|]. destruct (decide (rt_peers rt = [])) as [E|E]; [by rewrite Hagents, E|].
    destruct Hx. split; [by apply Hd|done].
Qed.

Lemma held_app ticks ticks' rt m : held ticks rt m -> held (ticks ++ ticks') rt m.
Proof.
  intros [H1 H2 (ms & Hms & Hserver) (ma & Hma & Hagents) Hp Hd].
  split; [done|by apply read_at_app|exists ms|exists ma|done|done]; (split; [by apply read_at_app|done]).
Qed.

(** What a run of the timer keeps.  A listener that never threw is in step with
    the material if it was before, and as soon as the material has changed. *)
Record polled (rt rt' : MtlsRuntime Cert) (m m' : KeyMaterial Cert) (ticks : list Tick) : Prop := {
  pl_listeners : rt_listeners rt' = rt_listeners rt;
  pl_server : ServerListener ∈ rt_listeners rt -> Forall (fun tick => tk_throws tick ServerListener = false) ticks ->
    rt_server rt = Some (secureContextFrom m) \/ m <> m' -> rt_server rt' = Some (secureContextFrom m');
  pl_alone : ServerListener ∉ rt_listeners rt -> rt_server rt' = rt_server rt;
  pl_agents : Forall (fun tick => tk_throws tick DispatcherListener = false) ticks ->
    rt_agents rt = buildAgents (rt_peers rt) m -> rt_agents rt' = buildAgents (rt_peers rt') m';
}.

Lemma poll_held before rt m ticks :
  held before rt m -> exists m', held (before ++ ticks) (poll env files rt ticks) m' /\ polled rt (poll env files rt ticks) m m' ticks.
Proof.
  revert before rt m. induction ticks as [|tick ticks IH]; intros before rt m Hh.
  - exists m. rewrite app_nil_r. split; [done|]. split; [done| |done|done]. by intros _ _ [?|[]].
  - change (poll env files rt (tick :: ticks)) with (poll env files (snd (reload files (MTLS_KEY_PASSPHRASE env) tick rt)) ticks).
    pose proof (reload_held before tick rt m Hh) as Hr. destruct (reload files (MTLS_KEY_PASSPHRASE env) tick rt) as [outcome rt1]. cbn [snd].
    replace (before ++ tick :: ticks) with ((before ++ [tick]) ++ ticks) by (by rewrite <-app_assoc).
    assert (rt1 = rt -> exists m', held ((before ++ [tick]) ++ ticks) (poll env files rt1 ticks) m' /\ polled rt (poll env files rt1 ticks) m m' (tick :: ticks)) as Hsame.
    { intros ->. destruct (IH (before ++ [tick]) rt m (held_app _ [tick] _ _ Hh)) as (m' & Hh' & [P1 P2 P3 P4]). exists m'. split; [done|].
      split; [done| | |]; intros; rewrite ?Forall_cons in *; naive_solver. }
    destruct outcome; [|by apply Hsame; destruct Hr..].
    destruct Hr as (m1 & _ & Hh1 & Hls & _ & Hs1 & Hs2 & Ha1).
    destruct (IH _ rt1 m1 Hh1) as (m' & Hh' & [P1 P2 P3 P4]). exists m'. split; [done|]. split; [congruence| | |].
    + intros Hin Hall _. apply Forall_cons in Hall as [Ht Hall]. apply P2; [by rewrite Hls|done|]. left. auto.
    + intros Hin. rewrite P3 by (by rewrite Hls). auto.
    + intros Hall _. apply Forall_cons in Hall as [Ht Hall]. apply P4; auto.
Qed.

Lemma start_held (rt : MtlsRuntime Cert) :
  runtime_start env files fs0 now0 = inr rt ->
  exists m, held [] rt m /\ rt_server rt = Some (secureContextFrom m) /\ rt_agents rt = buildAgents (rt_peers rt) m /\
    ServerListener ∉ rt_listeners rt.
Proof.
  unfold runtime_start. destruct (loadKeyMaterial fs0 _ _ _) as [|m] eqn:Hl; [done|]. intros [= <-]. exists m.
  assert (read_at [] m) as Hr by (exists fs0, now0; split; [by left|done]).
  split_and!; [|done|done|cbn; case_decide; set_solver]. split; cbn; [done|done|by exists m|by exists m|done|]. intros Hp. rewrite decide_True by done. by left.
Qed.

Lemma attach_held ticks rt m :
  held ticks rt m -> held ticks (attachTo rt) m /\ ServerListener ∈ rt_listeners (attachTo rt) /\
    rt_server (attachTo rt) = rt_server rt /\ rt_agents (attachTo rt) = rt_agents rt /\ rt_peers (attachTo rt) = rt_peers rt.
Proof.
  intros [H1 H2 H3 H4 H5 H6]. unfold attachTo. rewrite H1. cbn. split_and!; [|apply elem_of_app; right; by left|done..].
  split; cbn; [done..|]. intros Hp. apply elem_of_app. left. apply list_elem_of_filter. split; [done|by apply H6].
Qed.

(** The last load that succeeded is the one in use, by its fingerprint. *)
Lemma poll_newest rt0 ticks earlier tick m m' rt :
  held ticks rt0 m -> rt = poll env files rt0 (earlier ++ [tick]) ->
  loadKeyMaterial (tk_files tick) files (tk_now tick) (MTLS_KEY_PASSPHRASE env) = inr m' ->
  km_fingerprint <$> rt_material rt = Some (km_fingerprint m').
Proof.
  intros Hh -> Hl. unfold poll. rewrite foldl_app. fold (poll env files rt0 earlier). cbn [foldl].
  destruct (poll_held _ _ _ earlier Hh) as (m1 & Hh1 & _). pose proof (reload_held _ tick _ _ Hh1) as Hr.
  destruct (reload _ _ _ _) as [outcome rt']. cbn [snd]. destruct outcome.
  - destruct Hr as (m2 & Hl2 & Hh2 & _). rewrite (hd_material _ _ _ Hh2). cbn. congruence.
  - destruct Hr as (-> & m2 & Hl2 & Hf). rewrite (hd_material _ _ _ Hh1). cbn. congruence.
  - destruct Hr as (_ & e & He). congruence.
Qed.

Lemma find_agents (peers : list (JSText * JSText)) (m : KeyMaterial Cert) origin :
  snd <$> List.find (fun entry => bool_decide (entry.1 = origin)) (buildAgents peers m) =
  createPeerAgent m <$> (snd <$> List.find (fun entry => bool_decide (entry.1 = origin)) peers).
Proof. induction peers as [|[o i] peers IH]; [done|]. cbn. by case_bool_decide. Qed.

(** An agent talks to nobody but the peer it was made for. *)
Lemma agent_insists expected hostnameOk names :
  Forall entry_ok names -> verifyPeerCertificate expected hostnameOk (Some names) = true ->
  exists e, e ∈ names /\ sn_kind e ∈ IDENTITY_KINDS /\ same_peer (sn_value e) expected.
Proof.
  intros Hok. unfold verifyPeerCertificate, peerIdentitiesFrom. cbn [fmap option_fmap option_map]. rewrite names_read_back by done.
  destruct (matchPeerIdentity _ _) eqn:E; [|done]. intros _.
  destruct (proj1 (matchPeerIdentity_spec _ _) (mk_is_Some _ _ E)) as (i & a & (e & -> & [Hk Hin]%list_elem_of_filter)%list_elem_of_fmap & Ha & Hs).
  apply list_elem_of_singleton in Ha as ->. by exists e.
Qed.
End rotation.

(** ** Properties *)

(** C18: a rotation is seen, and never half of one.  The process starts,
    attaches the server, and the timer fires before and after that; whatever the
    three files hold and the clock shows at each firing - a new certificate
    beside an old key, a file cut short or gone, an expired leaf - and whichever
    listeners throw.  The material in use was read from the files at one of
    those moments and passed every check there: its key fits, its dates allowed
    that moment and it chains to an anchor; and it has the fingerprint of what
    the last firing found, when that could be loaded.  So was what the server
    presents, and what the dispatchers present.  The dispatchers present the
    material in use if rebuilding them has never thrown, and so does the server
    if its listener has never thrown, whatever the other listener did, provided
    that no rotation was found between [start] and [attachTo], or that there was
    one since. *)
Theorem rotation_in_step {Cert : Type} `{!X509 Cert} (env : MtlsEnv) files fs0 now0 (rt0 : MtlsRuntime Cert) early late :
  runtime_start env files fs0 now0 = inr rt0 ->
  let attached := attachTo (poll env files rt0 early) in
  let rt := process env files rt0 early late in
  let moments := (fs0, now0) :: ((fun tick => (tk_files tick, tk_now tick)) <$> early ++ late) in
  let read m := exists fs now, (fs, now) ∈ moments /\ loadKeyMaterial fs files now (MTLS_KEY_PASSPHRASE env) = inr m /\ usable fs files now m in
  let configured origin := snd <$> List.find (fun peer => bool_decide (peer.1 = origin)) (parsePeerMap (MTLS_PEERS env)) in
  exists m, read m /\ rt_material rt = Some m /\
    (forall earlier tick m', early ++ late = earlier ++ [tick] ->
       loadKeyMaterial (tk_files tick) files (tk_now tick) (MTLS_KEY_PASSPHRASE env) = inr m' -> km_fingerprint m = km_fingerprint m') /\
    (exists ms, read ms /\ rt_server rt = Some (secureContextFrom ms)) /\
    (exists ma, read ma /\ forall origin, dispatcherFor rt origin = createPeerAgent ma <$> configured origin) /\
    (Forall (fun tick => tk_throws tick DispatcherListener = false) (early ++ late) ->
       forall origin, dispatcherFor rt origin = createPeerAgent m <$> configured origin) /\
    (Forall (fun tick => tk_throws tick ServerListener = false) late ->
       rt_material attached = rt_material rt0 \/ rt_material rt <> rt_material attached -> rt_server rt = Some (secureContextFrom m)).
Proof.
  intros Hstart. cbn zeta. destruct (start_held env files fs0 now0 rt0 Hstart) as (m0 & Hh0 & Hs0 & Ha0 & Hl0).
  destruct (poll_held env files fs0 now0 [] rt0 m0 early Hh0) as (m1 & Hh1 & P1).
  destruct (attach_held env files fs0 now0 _ _ _ Hh1) as (Hh1' & Hls & Hsrv & Hag & Hpeers).
  destruct (poll_held env files fs0 now0 _ _ m1 late Hh1') as (m & Hh & P2).
  change (poll env files (attachTo (poll env files rt0 early)) late) with (process env files rt0 early late) in *.
  rewrite app_nil_l in *. destruct Hh as [H1 H2 (ms & Hms & Hserver) (ma & Hma & Hagents) Hp Hd].
  assert (forall m', read_at env files fs0 now0 (early ++ late) m' -> exists fs now, (fs, now) ∈ (fs0, now0) :: ((fun tick => (tk_files tick, tk_now tick)) <$> early ++ late) /\
    loadKeyMaterial fs files now (MTLS_KEY_PASSPHRASE env) = inr m' /\ usable fs files now m') as Hread.
  { intros m' (fs & now & Hin & Hl). exists fs, now. split_and!; [done|done|]. by eapply loaded_usable. }
  assert (forall (m' : KeyMaterial Cert) origin, rt_agents (process env files rt0 early late) = buildAgents (rt_peers (process env files rt0 early late)) m' ->
    dispatcherFor (process env files rt0 early late) origin =
    createPeerAgent m' <$> (snd <$> List.find (fun peer => bool_decide (peer.1 = origin)) (parsePeerMap (MTLS_PEERS env)))) as Hdisp.
  { intros m' origin Hm'. unfold dispatcherFor. by rewrite Hm', Hp, find_agents. }
  exists m. split_and!; [by apply Hread|done| |exists ms; eauto|exists ma; eauto| |].
  - intros earlier tick m' Hlast Hl. assert (km_fingerprint <$> rt_material (process env files rt0 early late) = Some (km_fingerprint m')) as Hn.
    2: { rewrite H1 in Hn. by injection Hn. }
    destruct late as [|t late _] using rev_ind.
    + rewrite app_nil_r in Hlast. subst early. rewrite <-(poll_newest env files fs0 now0 rt0 [] earlier tick m0 m' _ Hh0 eq_refl Hl).
      unfold process. cbn [poll foldl]. by rewrite (hd_material _ _ _ _ _ _ _ Hh1'), (hd_material _ _ _ _ _ _ _ Hh1).
    + rewrite app_assoc in Hlast. apply app_inj_2 in Hlast as [_ [= ->]]; [|done]. by eapply (poll_newest env files fs0 now0 _ _ late tick).
  - intros [He Hl]%Forall_app origin. apply Hdisp. apply (pl_agents _ _ _ _ _ P2 Hl). rewrite Hag, Hpeers. by apply (pl_agents _ _ _ _ _ P1).
  - intros Ht Hcase. apply (pl_server _ _ _ _ _ P2 Hls Ht). rewrite H1, (hd_material _ _ _ _ _ _ _ Hh1') in Hcase.
    destruct Hcase as [E|Hne]; [left|right; congruence]. rewrite (hd_material _ _ _ _ _ _ _ Hh0) in E. injection E as ->. rewrite Hsrv.
    by rewrite (pl_alone _ _ _ _ _ P1 Hl0).
Qed.

(** ** A concrete runtime *)

(** Certificates by number: 1 and 2 are leaves that 9 signed, 3 one that 4
    signed, and 4 is signed by 9. *)
Definition sample_issuer (c : nat) : nat := if decide (c = 3%nat) then 4%nat else 9%nat.

#[export] Instance sample_x509 : X509 nat := {|
  x_parse block := match drop (length BEGIN_CERTIFICATE) block with c :: _ => Some (N.to_nat (c - 48)) | [] => None end;
  x_fingerprint256 c := pretty c;
  x_validFrom c := Some (if decide (c = 2%nat) then 50 else 0);
  x_validTo c := Some (if decide (c = 9%nat) then 1000 else 100);
  x_checkIssued c i := bool_decide (sample_issuer c = i);
  x_verify c i := Some true;
  x_names c := Some [dns (js "web.internal")];
  x_toString c := js (pretty c);
  x_secureContext cert key _ := bool_decide (drop (length BEGIN_CERTIFICATE) (take (S (length BEGIN_CERTIFICATE)) cert) = key);
|}.

Definition pem (c : string) : JSText := BEGIN_CERTIFICATE ++ js c ++ END_CERTIFICATE.

Definition sample_files : KeyMaterialFiles := {| kf_certFile := js "/tls/tls.crt"; kf_keyFile := js "/tls/tls.key"; kf_caFile := js "/tls/ca.crt" |}.

Definition disk (cert key ca : JSText) : gmap JSText JSText :=
  {[ js "/tls/tls.crt" := cert; js "/tls/tls.key" := key; js "/tls/ca.crt" := ca ]}.

Definition tick (files : gmap JSText JSText) (now : Z) : Tick := {| tk_files := files; tk_now := now; tk_throws _ := false |}.

(** A rotation that is caught between its two writes, then complete, then a
    bundle that is gone. *)
Definition sample_ticks : list Tick :=
  [tick (disk (pem "2") (js "1") (pem "9")) 60; tick (disk (pem "2") (js "2") (pem "9")) 61; tick (disk (pem "2") (js "2") []) 62].

Lemma rotation_in_step_witness :
  exists (rt0 : MtlsRuntime nat) m, runtime_start sample_mtls sample_files (disk (pem "1") (js "1") (pem "9")) 10 = inr rt0 /\
    rt_material (process sample_mtls sample_files rt0 [] sample_ticks) = Some m /\ km_key m = js "2" /\
    rt_server (process sample_mtls sample_files rt0 [] sample_ticks) = Some (secureContextFrom m).
Proof.
  destruct (runtime_start (Cert := nat) sample_mtls sample_files (disk (pem "1") (js "1") (pem "9")) 10) as [e|rt0] eqn:E; [by vm_compute in E|].
  destruct (rotation_in_step sample_mtls sample_files _ _ rt0 [] sample_ticks E) as (m & _ & H1 & _ & _ & _ & _ & H2).
  exists rt0, m. split_and!; [done|exact H1| |].
  - clear H2. vm_compute in E. injection E as <-. vm_compute in H1. by injection H1 as <-.
  - apply H2; [by repeat constructor|]. left. unfold attachTo. cbn [poll foldl]. destruct (rt_material rt0) eqn:Em; cbn; congruence.
Defined.

(** A rotation that the timer finds after [start] and before [attachTo] reaches
    the dispatchers and never the server, which goes on presenting the first
    material. *)
Example rotation_before_attach :
  exists rt0 : MtlsRuntime nat, runtime_start sample_mtls sample_files (disk (pem "1") (js "1") (pem "9")) 10 = inr rt0 /\
    let rt := process sample_mtls sample_files rt0 sample_ticks sample_ticks in
    (km_key <$> rt_material rt) = Some (js "2") /\ (sc_key <$> rt_server rt) = Some (js "1").
Proof. eexists. split; [by vm_compute|]. split; by vm_compute. Qed.

(** The fingerprint covers the leaf and the anchors.  A chain that is completed
    with the intermediate it needs, or given a renewed one, is no change. *)
Example new_intermediate_goes_unnoticed :
  exists rt : MtlsRuntime nat,
    runtime_start sample_mtls sample_files (disk (pem "1" ++ pem "7") (js "1") (pem "9")) 10 = inr rt /\
    reload sample_files None (tick (disk (pem "1" ++ pem "8") (js "1") (pem "9")) 20) rt = (Unchanged, rt) /\
    (sc_cert <$> rt_server rt) = Some (pem "1" ++ pem "7").
Proof. eexists. split_and!; by vm_compute. Qed.
