(* ===== verification/Csv.v ===== *)
(** * Csv: the export task of the worker pool

    [src/src/workers/tasks/csv-encode.task.ts]: rows of scalars as RFC 4180
    text in UTF-8.  [records] is a reader of that format, written from the
    grammar of the RFC and not from the encoder; [csv_roundtrip] shows that it
    finds exactly the cells that were encoded. *)

From S2P Require Import Prelude Text Json Encoding.

Definition QUOTE : N := 34.
Definition COMMA : N := 44.
Definition LF : N := 10.
Definition CR : N := 13.
Definition BOM : N := 65279.

(** ** The encoder *)

Section Csv.
(** The numbers of the language, and what [String(n)] prints for one; what
    [String(x)] prints for a member that every object inherits. *)
Context {Num : Type} (numberText : Num -> JSText) (inheritedText : JSText -> JSText).

Inductive CsvCell :=
| CsvString (s : JSText)
| CsvNumber (n : Num)
| CsvBool (b : bool)
| CsvNull.

Definition CsvRow : Type := gmap JSText CsvCell.

Record CsvColumn := { col_key : JSText; col_header : JSText }.

(** [eol] is either of two texts. *)
Inductive Eol := CRLF | LFonly.
Definition eolText (e : Eol) : JSText := match e with CRLF => [CR; LF] | LFonly => [LF] end.

Record CsvEncodeInput := {
  csv_columns : list CsvColumn;
  csv_rows : list CsvRow;
  csv_eol : option Eol;
  csv_bom : option bool }.

Record CsvEncodeOutput := { csv_bytes : list N; csv_rowCount : nat; csv_byteLength : nat }.

(** What [row[key]] finds: an own property, or else an inherited one. *)
Inductive Property := Own (c : CsvCell) | Inherited (name : JSText).

Definition property (row : CsvRow) (key : JSText) : option Property :=
  match row !! key with
  | Some c => Some (Own c)
  | None => if decide (key ∈ objectPrototype) then Some (Inherited key) else None
  end.

Definition cellToString (cell : option Property) : JSText :=
  match cell with
  | None | Some (Own CsvNull) => []
  | Some (Own (CsvString s)) => s
  | Some (Own (CsvNumber n)) => numberText n
  | Some (Own (CsvBool b)) => if b then js "true" else js "false"
  | Some (Inherited name) => inheritedText name
  end.

Definition special (ch : N) : bool := bool_decide (ch = QUOTE \/ ch = COMMA \/ ch = LF \/ ch = CR).

Fixpoint needsQuoting (value : JSText) : bool :=
  match value with
  | [] => false
  | ch :: rest => if special ch then true else needsQuoting rest
  end.

(** The [replace] that doubles every quote. *)
Fixpoint doubleQuotes (value : JSText) : JSText :=
  match value with
  | [] => []
  | ch :: rest => if decide (ch = QUOTE) then QUOTE :: QUOTE :: doubleQuotes rest else ch :: doubleQuotes rest
  end.

Definition quoteIfNeeded (value : JSText) : JSText :=
  if needsQuoting value then [QUOTE] ++ doubleQuotes value ++ [QUOTE] else value.

Definition encodeLine (eol : JSText) (cells : list JSText) : JSText := join [COMMA] (quoteIfNeeded <$> cells) ++ eol.

Definition rowCells (columns : list CsvColumn) (row : CsvRow) : list JSText :=
  (fun c => cellToString (property row (col_key c))) <$> columns.

Definition csvText (input : CsvEncodeInput) : JSText :=
  let eol := eolText (default CRLF (csv_eol input)) in
  (if default false (csv_bom input) then [BOM] else []) ++
  encodeLine eol (col_header <$> csv_columns input) ++
  concat ((fun row => encodeLine eol (rowCells (csv_columns input) row)) <$> csv_rows input).

Definition encodeCsv (input : CsvEncodeInput) : CsvEncodeOutput :=
  let bytes := utf8 (csvText input) in
  {| csv_bytes := bytes; csv_rowCount := length (csv_rows input); csv_byteLength := length bytes |}.

(** ** A reader of the format *)

(** Where a reader stands in a record: before a field, inside a field without
    quotes, inside quotes, or behind a quote that may have closed the field. *)
Inductive Place := Before | Bare | Quoted | Closed.

(** The records of a text, given the fields of the current one so far.  A line
    ends with LF or CR LF; the last one need not end. *)
Fixpoint records (at_ : Place) (cell : JSText) (row : list JSText) (t : JSText) : list (list JSText) :=
  match t with
  | [] => match at_, row with Before, [] => [] | _, _ => [row ++ [cell]] end
  | c :: rest =>
      match at_ with
      | Quoted => if decide (c = QUOTE) then records Closed cell row rest else records Quoted (cell ++ [c]) row rest
      | _ =>
          if decide (c = QUOTE) then
            match at_ with
            | Before => records Quoted cell row rest
            | Closed => records Quoted (cell ++ [QUOTE]) row rest
            | _ => records Bare (cell ++ [QUOTE]) row rest
            end
          else if decide (c = COMMA) then records Before [] (row ++ [cell]) rest
          else if decide (c = LF) then (row ++ [cell]) :: records Before [] [] rest
          else if decide (c = CR) then
            match rest with
            | d :: rest' => if decide (d = LF) then (row ++ [cell]) :: records Before [] [] rest' else records Bare (cell ++ [CR]) row rest
            | [] => records Bare (cell ++ [CR]) row rest
            end
          else records Bare (cell ++ [c]) row rest
      end
  end.

(** [new TextDecoder().decode(bytes)] drops a byte-order mark. *)
Definition dropBom (t : JSText) : JSText := match t with c :: rest => if decide (c = BOM) then rest else t | [] => [] end.

Definition readCsv (bytes : list N) : list (list JSText) := records Before [] [] (dropBom (utf8_decode bytes)).

(** ** The encoder's text is read back *)

(** A text that begins with what ends a field. *)
Definition field_end (t : JSText) : Prop :=
  match t with
  | c :: rest => c = COMMA \/ c = LF \/ (c = CR /\ head rest = Some LF)
  | [] => False
  end.

Lemma records_end at_ cell row t :
  field_end t -> at_ <> Quoted -> records at_ cell row t = records Bare cell row t.
Proof. destruct t as [|c rest]; [done|]. intros [->|[->|[-> H]]]; [by destruct at_..|]. destruct rest as [|d rest]; [done|]. injection H as ->. by destruct at_. Qed.

Lemma records_bare v cell row t :
  needsQuoting v = false -> records Bare cell row (v ++ t) = records Bare (cell ++ v) row t.
Proof.
  revert cell. induction v as [|c v IH]; intros cell Hv; cbn [app]; [by rewrite app_nil_r|].
  cbn [needsQuoting] in Hv. destruct (special c) eqn:Hc; [done|].
  unfold special in Hc. apply bool_decide_eq_false in Hc. cbn [records].
  rewrite !decide_False by tauto. rewrite IH by done. by rewrite <-app_assoc.
Qed.

Lemma records_quoted v cell row t :
  records Quoted cell row (doubleQuotes v ++ [QUOTE] ++ t) = records Closed (cell ++ v) row t.
Proof.
  revert cell. induction v as [|c v IH]; intros cell; cbn [doubleQuotes app].
  - by rewrite app_nil_r.
  - case_decide; subst; cbn [app records]; [rewrite !decide_True by done|rewrite decide_False by done];
      change (doubleQuotes v ++ QUOTE :: t) with (doubleQuotes v ++ [QUOTE] ++ t); rewrite IH, <-app_assoc; done.
Qed.

Lemma records_cell v row t :
  field_end t -> records Before [] row (quoteIfNeeded v ++ t) = records Bare v row t.
Proof.
  intros Ht. unfold quoteIfNeeded. destruct (needsQuoting v) eqn:Hv.
  - rewrite <-!app_assoc. cbn [app records]. rewrite decide_True by done.
    change (doubleQuotes v ++ QUOTE :: t) with (doubleQuotes v ++ [QUOTE] ++ t). by rewrite records_quoted, records_end.
  - destruct v as [|c v]; [by apply records_end|]. cbn [needsQuoting] in Hv. destruct (special c) eqn:Hc; [done|].
    unfold special in Hc. apply bool_decide_eq_false in Hc. cbn [app records]. rewrite !decide_False by tauto.
    by apply (records_bare v [c]).
Qed.

Lemma eol_ends eol t : field_end (eolText eol ++ t).
Proof. destruct eol; cbn; auto. Qed.

Lemma records_line eol cells row t :
  cells <> [] -> records Before [] row (encodeLine (eolText eol) cells ++ t) = (row ++ cells) :: records Before [] [] t.
Proof.
  unfold encodeLine. rewrite <-app_assoc. revert row. induction cells as [|v [|w cells] IH]; intros row Hne; [done| |].
  - cbn [fmap list_fmap join]. rewrite records_cell by apply eol_ends. by destruct eol.
  - cbn [fmap list_fmap join] in IH |- *. rewrite <-!app_assoc. rewrite records_cell by (cbn; auto).
    cbn [app records]. rewrite decide_False, decide_True by done. rewrite IH by done. by rewrite <-app_assoc.
Qed.

Lemma records_lines eol (lines : list (list JSText)) :
  Forall (fun cells => cells <> []) lines ->
  records Before [] [] (concat (encodeLine (eolText eol) <$> lines)) = lines.
Proof. induction 1 as [|cells lines Hne _ IH]; [done|]. cbn. by rewrite records_line, IH. Qed.

(** ** The encoder's text is UTF-16 *)

Lemma well_formed_app s t : well_formed s -> well_formed t -> well_formed (s ++ t).
Proof. induction 1; intros Ht; cbn [app]; [done|by apply wf_unit; auto|by apply wf_pair; auto]. Qed.

Lemma ascii_unit_wf c s : (c < 128)%N -> well_formed s -> well_formed (c :: s).
Proof. intros Hc. apply wf_unit; [lia|surrogates; lia..]. Qed.

Lemma doubleQuotes_wf s : well_formed s -> well_formed (doubleQuotes s).
Proof.
  induction 1 as [|c s Hc Hh Hl _ IH|c d s Hh Hl _ IH]; cbn [doubleQuotes]; [constructor| |].
  - case_decide; [by repeat apply ascii_unit_wf|by apply wf_unit].
  - unfold QUOTE in *. assert (c <> 34 /\ d <> 34)%N as [H1 H2] by (surrogates; lia).
    rewrite !decide_False by done. by apply wf_pair.
Qed.

Lemma quoteIfNeeded_wf s : well_formed s -> well_formed (quoteIfNeeded s).
Proof.
  intros H. unfold quoteIfNeeded. destruct (needsQuoting s); [|done]. apply ascii_unit_wf; [done|].
  apply well_formed_app; [by apply doubleQuotes_wf|]. by apply ascii_unit_wf, wf_nil.
Qed.

Lemma join_wf l : Forall well_formed l -> well_formed (join [COMMA] l).
Proof.
  induction 1 as [|v l Hv Hl IH]; [constructor|]. destruct l as [|w l]; [done|].
  apply well_formed_app; [done|]. by apply ascii_unit_wf.
Qed.

Lemma encodeLine_wf eol cells : Forall well_formed cells -> well_formed (encodeLine (eolText eol) cells).
Proof.
  intros H. apply well_formed_app.
  - apply join_wf, Forall_fmap. eapply Forall_impl; [exact H|]. apply quoteIfNeeded_wf.
  - destruct eol; repeat apply ascii_unit_wf; done || constructor.
Qed.

Lemma concat_wf (l : list JSText) : Forall well_formed l -> well_formed (concat l).
Proof. induction 1; [constructor|by apply well_formed_app]. Qed.

(** The lines of a document: its header, then its rows. *)
Definition document (input : CsvEncodeInput) : list (list JSText) :=
  (col_header <$> csv_columns input) :: (rowCells (csv_columns input) <$> csv_rows input).

Lemma csvText_lines input :
  csvText input = (if default false (csv_bom input) then [BOM] else []) ++
    concat (encodeLine (eolText (default CRLF (csv_eol input))) <$> document input).
Proof. unfold csvText, document. cbn [fmap list_fmap concat]. by rewrite <-list_fmap_compose. Qed.

Lemma csvText_wf input : Forall (Forall well_formed) (document input) -> well_formed (csvText input).
Proof.
  intros H. rewrite csvText_lines. apply well_formed_app.
  - destruct (default false _); [|constructor]. apply wf_unit; done || constructor.
  - apply concat_wf, Forall_fmap. eapply Forall_impl; [exact H|]. apply encodeLine_wf.
Qed.

Lemma document_nonempty input : csv_columns input <> [] -> Forall (fun cells : list JSText => cells <> []) (document input).
Proof.
  intros H. unfold document. constructor; [by destruct (csv_columns input)|]. apply Forall_fmap, Forall_true.
  intros row. unfold rowCells. by destruct (csv_columns input).
Qed.

(** Nothing but the mark itself begins with one. *)
Lemma dropBom_line input :
  (default false (csv_bom input) = true \/ head (csv_columns input) ≫= (fun c => head (col_header c)) <> Some BOM) ->
  dropBom (csvText input) = concat (encodeLine (eolText (default CRLF (csv_eol input))) <$> document input).
Proof.
  rewrite csvText_lines. destruct (default false (csv_bom input)); [done|]. intros [|H]; [done|]. cbn [app].
  unfold document. cbn [fmap list_fmap concat]. unfold encodeLine at 1 3.
  destruct (csv_columns input) as [|c columns]; cbn [fmap list_fmap head mbind option_bind] in *.
  { by destruct (default CRLF (csv_eol input)). }
  assert (forall x y, head x <> Some BOM -> field_end y -> dropBom (quoteIfNeeded x ++ y) = quoteIfNeeded x ++ y) as Hq.
  { intros x y Hx Hy. unfold quoteIfNeeded. destruct (needsQuoting x); [done|]. destruct x as [|u x].
    - destruct y as [|v y]; [done|]. cbn. apply decide_False. by destruct Hy as [->|[->|[-> _]]].
    - cbn in Hx |- *. apply decide_False. congruence. }
  destruct columns as [|d columns]; cbn [fmap list_fmap join]; rewrite <-?app_assoc; apply Hq; (done || apply eol_ends || (cbn; auto)).
Qed.

(** ** What was given *)

Definition cellText (c : CsvCell) : JSText :=
  match c with
  | CsvString s => s
  | CsvNumber n => numberText n
  | CsvBool true => js "true"
  | CsvBool false => js "false"
  | CsvNull => []
  end.

(** The header, and for every row the cell under each column, an empty one where
    the row has none. *)
Definition table (input : CsvEncodeInput) : list (list JSText) :=
  (col_header <$> csv_columns input) ::
  ((fun row : CsvRow => (fun c => match row !! col_key c with Some cell => cellText cell | None => [] end) <$> csv_columns input)
     <$> csv_rows input).

(** A column that is named like a member of every object has a cell in every
    row. *)
Definition own_keys (input : CsvEncodeInput) : Prop :=
  forall c row, c ∈ csv_columns input -> row ∈ csv_rows input -> col_key c ∈ objectPrototype -> is_Some (row !! col_key c).

Lemma document_table input : own_keys input -> document input = table input.
Proof.
  intros Hown. unfold document, table, rowCells. f_equal. apply list_fmap_ext. intros i row Hi%list_elem_of_lookup_2.
  apply list_fmap_ext. intros j c Hj%list_elem_of_lookup_2. unfold property. destruct (row !! col_key c) as [[]|] eqn:Hc; try done.
  case_decide as Hp; [|done]. destruct (Hown c row Hj Hi Hp) as [? ?]. congruence.
Qed.

(** ** Properties *)

(** C39: an export says what it was given.  Whatever quotes, delimiters and line
    breaks its headers and cells hold, with either line ending and with or
    without a byte-order mark, a reader of RFC 4180 finds the header, and for
    every row the cell under each column, an empty one where the row has none;
    and the counts that are returned are those of the document.  The text must
    be UTF-16, there must be a column, the first header must not pass for a
    byte-order mark, and a column named like a member of [Object.prototype] must
    have a cell in every row. *)
Theorem csv_roundtrip input :
  Forall (Forall well_formed) (table input) -> csv_columns input <> [] -> own_keys input ->
  (default false (csv_bom input) = true \/ head (csv_columns input) ≫= (fun c => head (col_header c)) <> Some BOM) ->
  readCsv (csv_bytes (encodeCsv input)) = table input /\
  csv_rowCount (encodeCsv input) = (length (readCsv (csv_bytes (encodeCsv input))) - 1)%nat /\
  csv_byteLength (encodeCsv input) = length (csv_bytes (encodeCsv input)).
Proof.
  intros Hwf Hne Hown Hbom.
  assert (readCsv (csv_bytes (encodeCsv input)) = table input) as E.
  { rewrite <-document_table in Hwf |- * by done. unfold readCsv, encodeCsv. cbn [csv_bytes]. rewrite utf8_roundtrip by by apply csvText_wf.
    rewrite dropBom_line by done. by apply records_lines, document_nonempty. }
  split_and!; [done| |done]. rewrite E. unfold encodeCsv, table. cbn. rewrite length_fmap. lia.
Qed.
End Csv.
Arguments CsvCell : clear implicits.
Arguments CsvRow : clear implicits.
Arguments CsvEncodeInput : clear implicits.
Arguments Property : clear implicits.

(** ** Examples *)

Definition column (key header : string) : CsvColumn := {| col_key := js key; col_header := js header |}.

Definition memberText (name : JSText) : JSText := js "function " ++ name ++ js "() { [native code] }".

Definition names_export : CsvEncodeInput Z :=
  {| csv_columns := [column "id" "ID"; column "name" "Name, first"; column "age" "Age"];
     csv_rows := [{[ js "id" := CsvNumber 7; js "name" := CsvString ([QUOTE] ++ js "Ada" ++ [QUOTE; CR; LF; 233%N]) ]};
                  {[ js "id" := CsvNull; js "name" := CsvString [55357; 56832]%N; js "age" := CsvBool true ]}];
     csv_eol := None; csv_bom := Some true |}.

Lemma csv_roundtrip_witness :
  readCsv (csv_bytes (encodeCsv (fun z => js (pretty z)) memberText names_export)) =
  [[js "ID"; js "Name, first"; js "Age"];
   [js "7"; [QUOTE] ++ js "Ada" ++ [QUOTE; CR; LF; 233%N]; []];
   [[]; [55357; 56832]%N; js "true"]].
Proof.
  destruct (csv_roundtrip (fun z => js (pretty z)) memberText names_export) as [H _].
  - vm_compute.
    repeat (apply List.Forall_nil || apply Forall_cons_2 || apply wf_nil || (apply wf_unit; [by vm_compute..|]) || (apply wf_pair; [by vm_compute..|])).
  - done.
  - intros c row Hc _ Hp. repeat (apply elem_of_cons in Hc as [->|Hc]; [by vm_compute in Hp; repeat (apply elem_of_cons in Hp as [?|Hp]; [done|]); apply elem_of_nil in Hp|]).
    by apply elem_of_nil in Hc.
  - by left.
  - rewrite H. by vm_compute.
Defined.

(** A column whose rows lack the key is an empty cell, unless the key is one
    that every object inherits. *)
Example missing_key_is_inherited :
  readCsv (csv_bytes (encodeCsv (fun z : Z => js (pretty z)) memberText
    {| csv_columns := [column "id" "ID"; column "constructor" "Builder"]; csv_rows := [∅]; csv_eol := Some LFonly; csv_bom := None |})) =
  [[js "ID"; js "Builder"]; [[]; js "function constructor() { [native code] }"]].
Proof. by vm_compute. Qed.

(** Without a column every row is a blank line, which reads as an empty cell. *)
Example no_columns_read_as_one :
  readCsv (csv_bytes (encodeCsv (fun z : Z => js (pretty z)) memberText
    {| csv_columns := []; csv_rows := []; csv_eol := None; csv_bom := None |})) = [[[]]].
Proof. by vm_compute. Qed.
