(* ===== verification/WorkerPort.v ===== *)
(** * WorkerPort: the worker pool's port, errors and tasks

    [src/src/workers/ports/worker-pool.port.ts], [worker-pool.errors.ts], the
    tasks with their dispatch ([tasks], [worker.ts]), and the refusals with which
    [run] of both pools begins. *)

From S2P Require Import Prelude Text Encoding Csv.

(** ** The port *)

Record WorkerPoolOptions := { po_maxQueue : Z; po_maxThreads : Z; po_taskTimeoutMs : Z }.

(** What a caller passes: an abort signal, named, and a bound on the wait. *)
Record WorkerRunOptions := { ro_signal : option nat; ro_timeoutMs : option Z }.

Inductive WorkerPoolError :=
| WorkerPoolSaturatedError (task : string) (queued maxQueue : Z)
| WorkerPoolTimeoutError (task : string) (timeoutMs : Z)
| WorkerPoolAbortedError (task : string)
| WorkerPoolClosedError (task : string)
| UnknownWorkerTaskError (task : string).

(** An [Error] as it crosses the wire. *)
Record ThrownError := { te_name : string; te_message : JSText }.

Inductive Rejection :=
| PoolError (e : WorkerPoolError)
| TaskError (e : ThrownError).

Definition isWorkerPoolError (r : Rejection) : bool := match r with PoolError _ => true | TaskError _ => false end.

#[global] Instance WorkerPoolError_eq_dec : EqDecision WorkerPoolError.
Proof. solve_decision. Defined.
#[global] Instance ThrownError_eq_dec : EqDecision ThrownError.
Proof. solve_decision. Defined.
#[global] Instance Rejection_eq_dec : EqDecision Rejection.
Proof. solve_decision. Defined.

(** The saturation is kept as the fraction that the source rounds to two
    decimals; none stands for the zero that it reports without a backlog. *)
Record WorkerPoolStats := {
  st_maxThreads : Z;
  st_maxQueue : Z;
  st_running : Z;
  st_queued : Z;
  st_completed : Z;
  st_saturation : option (Z * Z) }.

(** ** The tasks *)

Section Tasks.
Context {Num : Type} (numberText : Num -> JSText) (inheritedText : JSText -> JSText) (sha256 : list N -> JSText).

Record Sha256HexOutput := { sh_hex : JSText; sh_byteLength : nat }.

Definition sha256Hex (bytes : list N) : Sha256HexOutput := {| sh_hex := sha256 bytes; sh_byteLength := length bytes |}.

Record SleepInput := { sl_ms : Z; sl_label : option JSText }.
Record SleepOutput := { sl_slept : Z; sl_echo : option JSText }.

Definition sleepTask (input : SleepInput) : SleepOutput := {| sl_slept := sl_ms input; sl_echo := sl_label input |}.

Inductive TaskInput :=
| CsvIn (input : CsvEncodeInput Num)
| ShaIn (bytes : list N)
| SleepIn (input : SleepInput).

Inductive TaskOutput :=
| CsvOut (output : CsvEncodeOutput)
| ShaOut (output : Sha256HexOutput)
| SleepOut (output : SleepOutput).

Definition WORKER_TASK_NAMES : list string := ["csv.encode"; "sha256.hex"; "test.sleep"]%string.

(** The dispatch table; an input has the shape its task declares. *)
Definition WORKER_TASK_HANDLERS (task : string) : option (TaskInput -> option TaskOutput) :=
  if decide (task = "csv.encode"%string) then
    Some (fun i => match i with CsvIn i => Some (CsvOut (encodeCsv numberText inheritedText i)) | _ => None end)
  else if decide (task = "sha256.hex"%string) then
    Some (fun i => match i with ShaIn b => Some (ShaOut (sha256Hex b)) | _ => None end)
  else if decide (task = "test.sleep"%string) then
    Some (fun i => match i with SleepIn i => Some (SleepOut (sleepTask i)) | _ => None end)
  else None.

Definition unknownTaskMessage (task : string) : JSText :=
  js "no worker handler is registered for task " ++ js dq ++ js task ++ js dq ++
  js " (known: " ++ join (js ", ") (js <$> WORKER_TASK_NAMES) ++ js ")".

(** The worker's default export. *)
Definition handle (task : string) (input : TaskInput) : ThrownError + option TaskOutput :=
  match WORKER_TASK_HANDLERS task with
  | None => inl {| te_name := "UnknownWorkerTaskError"; te_message := unknownTaskMessage task |}
  | Some handler => inr (handler input)
  end.
End Tasks.

(** ** Admission *)

(** The three refusals with which [run] of either pool begins. *)
Definition admission (o : WorkerPoolOptions) (closed : bool) (outstanding : Z) (aborted : gset nat) (task : string)
    (options : WorkerRunOptions) : option WorkerPoolError :=
  if closed then Some (WorkerPoolClosedError task)
  else if (match ro_signal options with Some s => bool_decide (s ∈ aborted) | None => false end) then Some (WorkerPoolAbortedError task)
  else if decide (po_maxQueue o <= outstanding) then Some (WorkerPoolSaturatedError task outstanding (po_maxQueue o))
  else None.

Definition waitOf (o : WorkerPoolOptions) (options : WorkerRunOptions) : Z := default (po_taskTimeoutMs o) (ro_timeoutMs options).

Definition saturation (o : WorkerPoolOptions) (outstanding : Z) : option (Z * Z) :=
  if decide (po_maxQueue o = 0) then None else Some (outstanding, po_maxQueue o).
