(* ===== verification/InlinePool.v ===== *)
(** * InlinePool: the worker pool on the caller's thread

    [src/src/workers/inline-worker-pool.ts].  An event is what one turn of the
    event loop does to the pool: a call of [run], the start of the next link of
    the chain, a handler that settles, a timer, an abort, the resumption of the
    awaiting link, [shutdown]. *)

From S2P Require Import Prelude WorkerPort.

Section Inline.
Context {V : Type} (o : WorkerPoolOptions).

(** A call that was accepted; [next] of the source is its promise. *)
Record Call := { c_id : nat; c_task : string; c_signal : option nat; c_timeout : Z; c_since : Z }.

(** The link of the chain that has started: its handler was called, and
    [raceWithSignals] waits for it, or has settled and the awaiting link has yet
    to resume. *)
Inductive Link :=
| Racing (c : Call) (startedAt : Z)
| Settled (c : Call) (startedAt : Z) (r : Rejection + V).

(** An answer, with the times between which the handler was waited for. *)
Record Answer := { a_call : Call; a_from : Z; a_until : Z; a_result : Rejection + V }.

(** [chain] are the links behind [tail] that have not started.  [called] records
    the calls whose handler was invoked, and [adrift] those handlers that still
    run although nobody waits for them. *)
Record Pool := {
  chain : list Call;
  link : option Link;
  outstanding : Z;
  running : Z;
  completed : Z;
  closed : bool;
  drained : bool;
  now : Z;
  aborted : gset nat;
  accepted : nat;
  answers : list Answer;
  called : list nat;
  adrift : list Call }.

Definition created : Pool :=
  {| chain := []; link := None; outstanding := 0; running := 0; completed := 0; closed := false; drained := false; now := 0;
     aborted := ∅; accepted := 0; answers := []; called := []; adrift := [] |}.

Inductive Event :=
| Run (task : string) (options : WorkerRunOptions)
| Start (id : nat) (thrown : option ThrownError)   (* the next link begins; its handler may throw at once *)
| Work (id : nat) (r : ThrownError + V)            (* a handler's promise settles *)
| Timer
| Abort (signal : nat)
| Resume
| Shutdown
| Drain
| Tick (d : Z).

(** [run], as far as it executes before it returns its promise. *)
Definition run (p : Pool) (task : string) (options : WorkerRunOptions) : (WorkerPoolError + nat) * Pool :=
  match admission o (closed p) (outstanding p) (aborted p) task options with
  | Some e => (inl e, p)
  | None =>
      let c := {| c_id := accepted p; c_task := task; c_signal := ro_signal options; c_timeout := waitOf o options; c_since := now p |} in
      (inr (accepted p),
       {| chain := chain p ++ [c]; link := link p; outstanding := outstanding p + 1; running := running p; completed := completed p;
          closed := closed p; drained := drained p; now := now p; aborted := aborted p; accepted := S (accepted p);
          answers := answers p; called := called p; adrift := adrift p |})
  end.

(** The [finally] of a link, with which its promise settles. *)
Definition finish (p : Pool) (c : Call) (from : Z) (r : Rejection + V) : Pool :=
  {| chain := chain p; link := None; outstanding := outstanding p - 1; running := running p - 1; completed := completed p + 1;
     closed := closed p; drained := drained p; now := now p; aborted := aborted p; accepted := accepted p;
     answers := answers p ++ [{| a_call := c; a_from := from; a_until := now p; a_result := r |}];
     called := called p; adrift := adrift p |}.

Definition set_link (p : Pool) (l : option Link) : Pool :=
  {| chain := chain p; link := l; outstanding := outstanding p; running := running p; completed := completed p; closed := closed p;
     drained := drained p; now := now p; aborted := aborted p; accepted := accepted p; answers := answers p; called := called p;
     adrift := adrift p |}.

Definition set_adrift (p : Pool) (l : list Call) : Pool :=
  {| chain := chain p; link := link p; outstanding := outstanding p; running := running p; completed := completed p; closed := closed p;
     drained := drained p; now := now p; aborted := aborted p; accepted := accepted p; answers := answers p; called := called p;
     adrift := l |}.

(** The race is over before the handler is. *)
Definition abandon (p : Pool) (c : Call) (from : Z) (e : WorkerPoolError) : Pool :=
  set_adrift (set_link p (Some (Settled c from (inl (PoolError e))))) (adrift p ++ [c]).

Definition isAborted (p : Pool) (c : Call) : bool := match c_signal c with Some s => bool_decide (s ∈ aborted p) | None => false end.

(** The link begins: [running] is counted, the handler is called, and only then
    the signal is looked at. *)
Definition start (p : Pool) (c : Call) (rest : list Call) (thrown : option ThrownError) : Pool :=
  let p1 := {| chain := rest; link := None; outstanding := outstanding p; running := running p + 1; completed := completed p;
               closed := closed p; drained := drained p; now := now p; aborted := aborted p; accepted := accepted p;
               answers := answers p; called := called p ++ [c_id c]; adrift := adrift p |} in
  match thrown with
  | Some e => finish p1 c (now p) (inl (TaskError e))
  | None => if isAborted p1 c then abandon p1 c (now p) (WorkerPoolAbortedError (c_task c)) else set_link p1 (Some (Racing c (now p)))
  end.

Definition task_result (r : ThrownError + V) : Rejection + V := match r with inl e => inl (TaskError e) | inr v => inr v end.

Definition work (p : Pool) (id : nat) (r : ThrownError + V) : option Pool :=
  match link p with
  | Some (Racing c from) =>
      if decide (c_id c = id) then Some (set_link p (Some (Settled c from (task_result r))))
      else if decide (id ∈ c_id <$> adrift p) then Some (set_adrift p (filter (fun c => c_id c <> id) (adrift p))) else None
  | _ => if decide (id ∈ c_id <$> adrift p) then Some (set_adrift p (filter (fun c => c_id c <> id) (adrift p))) else None
  end.

(** A timer exists for a positive wait and fires when it has passed. *)
Definition timer (p : Pool) : option Pool :=
  match link p with
  | Some (Racing c from) =>
      if decide (0 < c_timeout c /\ from + c_timeout c <= now p) then Some (abandon p c from (WorkerPoolTimeoutError (c_task c) (c_timeout c)))
      else None
  | _ => None
  end.

Definition abort (p : Pool) (signal : nat) : Pool :=
  let p1 := {| chain := chain p; link := link p; outstanding := outstanding p; running := running p; completed := completed p;
               closed := closed p; drained := drained p; now := now p; aborted := {[signal]} ∪ aborted p; accepted := accepted p;
               answers := answers p; called := called p; adrift := adrift p |} in
  match link p with
  | Some (Racing c from) => if decide (c_signal c = Some signal) then abandon p1 c from (WorkerPoolAbortedError (c_task c)) else p1
  | _ => p1
  end.

Definition shutdown (p : Pool) : Pool :=
  {| chain := chain p; link := link p; outstanding := outstanding p; running := running p; completed := completed p; closed := true;
     drained := drained p; now := now p; aborted := aborted p; accepted := accepted p; answers := answers p; called := called p;
     adrift := adrift p |}.

(** [tail] resolves when the last link has, and with it the promise that
    [shutdown] returns, to its first caller and to every later one. *)
Definition drain (p : Pool) : option Pool :=
  match chain p, link p with
  | [], None =>
      if closed p && negb (drained p) then
        Some {| chain := []; link := None; outstanding := outstanding p; running := running p; completed := completed p; closed := true;
                drained := true; now := now p; aborted := aborted p; accepted := accepted p; answers := answers p; called := called p;
                adrift := adrift p |}
      else None
  | _, _ => None
  end.

(** One event, where it can happen. *)
Definition step (p : Pool) (e : Event) : option Pool :=
  match e with
  | Run task options => Some (run p task options).2
  | Start id thrown =>
      match chain p, link p with
      | c :: rest, None => if decide (c_id c = id) then Some (start p c rest thrown) else None
      | _, _ => None
      end
  | Work id r => work p id r
  | Timer => timer p
  | Abort signal => Some (abort p signal)
  | Resume => match link p with Some (Settled c from r) => Some (finish p c from r) | _ => None end
  | Shutdown => Some (shutdown p)
  | Drain => drain p
  | Tick d => if decide (0 <= d) then
      Some {| chain := chain p; link := link p; outstanding := outstanding p; running := running p; completed := completed p;
              closed := closed p; drained := drained p; now := now p + d; aborted := aborted p; accepted := accepted p;
              answers := answers p; called := called p; adrift := adrift p |}
      else None
  end.

Fixpoint steps (p : Pool) (es : list Event) : option Pool :=
  match es with
  | [] => Some p
  | e :: es => match step p e with Some p' => steps p' es | None => None end
  end.

Definition stats (p : Pool) : WorkerPoolStats :=
  {| st_maxThreads := po_maxThreads o; st_maxQueue := po_maxQueue o; st_running := running p;
     st_queued := Z.max 0 (outstanding p - running p); st_completed := completed p; st_saturation := saturation o (outstanding p) |}.

(** ** What holds after any events *)

Definition linked (p : Pool) : list Call := match link p with None => [] | Some (Racing c _) | Some (Settled c _ _) => [c] end.

(** A result that the events account for: a wait that was bounded and has
    passed, a signal that fired, or what the handler of this call gave. *)
Definition explained (es : list Event) (c : Call) (from until : Z) (r : Rejection + V) : Prop :=
  match r with
  | inl (PoolError e) =>
      (e = WorkerPoolTimeoutError (c_task c) (c_timeout c) /\ 0 < c_timeout c /\ from + c_timeout c <= until) \/
      (e = WorkerPoolAbortedError (c_task c) /\ exists s, c_signal c = Some s /\ Abort s ∈ es)
  | inl (TaskError e) => Work (c_id c) (inl e) ∈ es \/ Start (c_id c) (Some e) ∈ es
  | inr v => Work (c_id c) (inr v) ∈ es
  end.

Definition link_explained (es : list Event) (p : Pool) : Prop :=
  match link p with
  | None => True
  | Some (Racing c from) => from <= now p
  | Some (Settled c from r) => from <= now p /\ explained es c from (now p) r
  end.

Record ok (es : list Event) (p : Pool) : Prop := {
  ok_ids : c_id <$> (a_call <$> answers p) ++ linked p ++ chain p = seq 0 (accepted p);
  ok_called : called p = c_id <$> (a_call <$> answers p) ++ linked p;
  ok_outstanding : outstanding p = Z.of_nat (length (linked p) + length (chain p));
  ok_running : running p = Z.of_nat (length (linked p));
  ok_completed : completed p = Z.of_nat (length (answers p));
  ok_bound : outstanding p <= Z.max 0 (po_maxQueue o);
  ok_aborted : forall s, s ∈ aborted p -> Abort s ∈ es;
  ok_link : link_explained es p;
  ok_answers : Forall (fun a => a_from a <= a_until a /\ explained es (a_call a) (a_from a) (a_until a) (a_result a)) (answers p);
  ok_drained : drained p = true -> closed p = true /\ chain p = [] /\ link p = None }.

Lemma explained_mono es es' c from until until' r :
  es ⊆ es' -> until <= until' -> explained es c from until r -> explained es' c from until' r.
Proof.
  intros Hes Hu. destruct r as [[e|e]|v]; cbn.
  - intros [(-> & H1 & H2)|(-> & s & Hs & Ha)]; [left; split_and!; [done..|lia]|right; split; [done|]; exists s; auto].
  - intros [H|H]; [left|right]; auto.
  - auto.
Qed.

Lemma ok_created : ok [] created.
Proof. split; cbn; try done; try lia. Qed.

(** More events explain as much. *)
Lemma ok_mono es es' p : es ⊆ es' -> ok es p -> ok es' p.
Proof.
  intros Hes [H1 H2 H3 H4 H5 H6 H7 H8 H9 H10]. split; try done.
  - auto.
  - unfold link_explained in *. destruct (link p) as [[c from|c from r]|]; [done| |done].
    destruct H8 as [H8 H8']. split; [done|]. by apply (explained_mono es _ _ _ _ _ _ Hes (Z.le_refl _)).
  - eapply Forall_impl; [exact H9|]. intros a [Ha Ha']. split; [done|]. by apply (explained_mono es _ _ _ _ _ _ Hes (Z.le_refl _)).
Qed.

Lemma ok_run es p task options : ok es p -> ok es (run p task options).2.
Proof.
  intros Hok. unfold run. destruct (admission _ _ _ _ _ _) eqn:E; cbn; [done|].
  assert (closed p = false /\ outstanding p < po_maxQueue o) as [Hc Hq].
  { unfold admission in E. destruct (closed p); [done|]. split; [done|].
    destruct (match ro_signal options with Some _ => _ | None => _ end); [done|]. case_decide; [done|]. lia. }
  destruct Hok as [H1 H2 H3 H4 H5 H6 H7 H8 H9 H10]. split; unfold linked in *; cbn -[seq]; auto.
  - rewrite seq_S, <-H1, !fmap_app. cbn. by rewrite <-!app_assoc.
  - rewrite length_app. cbn. lia.
  - lia.
  - intros [Hd _]%H10. congruence.
Qed.

(** The next link begins to wait for its handler. *)
Definition begun (p : Pool) (c : Call) (rest : list Call) : Pool :=
  {| chain := rest; link := Some (Racing c (now p)); outstanding := outstanding p; running := running p + 1; completed := completed p;
     closed := closed p; drained := drained p; now := now p; aborted := aborted p; accepted := accepted p;
     answers := answers p; called := called p ++ [c_id c]; adrift := adrift p |}.

Lemma ok_begun es p c rest : ok es p -> chain p = c :: rest -> link p = None -> ok es (begun p c rest).
Proof.
  intros [H1 H2 H3 H4 H5 H6 H7 H8 H9 H10] Hc Hl. unfold linked in *. rewrite Hl, Hc in *. split; cbn in *; auto.
  - by rewrite H2, app_nil_r, fmap_app.
  - lia.
  - lia.
  - intros Hd%H10. by destruct Hd as (_ & ? & _).
Qed.

Lemma ok_adrift es p l : ok es p -> ok es (set_adrift p l).
Proof. by intros []. Qed.

Lemma ok_settled es p c from r :
  ok es p -> link p = Some (Racing c from) -> explained es c from (now p) r -> ok es (set_link p (Some (Settled c from r))).
Proof.
  intros [H1 H2 H3 H4 H5 H6 H7 H8 H9 H10] Hl Hr. unfold linked, link_explained in *. rewrite Hl in *. split; cbn; auto.
  intros Hd%H10. by destruct Hd as (_ & _ & ?).
Qed.

Lemma ok_abandon es p c from e :
  ok es p -> link p = Some (Racing c from) -> explained es c from (now p) (inl (PoolError e)) -> ok es (abandon p c from e).
Proof. intros. by apply ok_adrift, ok_settled. Qed.

Lemma ok_finish es p c from r :
  ok es p -> linked p = [c] -> from <= now p -> explained es c from (now p) r -> ok es (finish p c from r).
Proof.
  intros [H1 H2 H3 H4 H5 H6 H7 H8 H9 H10] Hl Hf Hr. rewrite Hl in *. split; cbn in *; auto.
  - rewrite <-H1, !fmap_app. cbn. by rewrite <-!app_assoc.
  - by rewrite H2, !fmap_app, app_nil_r.
  - lia.
  - lia.
  - rewrite length_app. cbn. lia.
  - lia.
  - apply Forall_app_2; [done|]. by constructor.
  - intros (Hd1 & Hd2 & Hd3)%H10. unfold linked in Hl. by rewrite Hd3 in Hl.
Qed.

Lemma ok_start es p c rest thrown :
  ok es p -> chain p = c :: rest -> link p = None -> (forall e, thrown = Some e -> Start (c_id c) (Some e) ∈ es) ->
  ok es (start p c rest thrown).
Proof.
  intros Hok Hc Hl Ht. pose proof (ok_begun _ _ _ _ Hok Hc Hl) as Hb. unfold start. destruct thrown as [e|].
  - apply (ok_finish _ _ c (now p) (inl (TaskError e))) in Hb; [done..|cbn; auto].
  - destruct (isAborted _ c) eqn:Ha; [|exact Hb].
    apply (ok_abandon _ _ c (now p) (WorkerPoolAbortedError (c_task c))) in Hb; [done..|].
    right. split; [done|]. unfold isAborted in Ha. cbn in Ha. destruct (c_signal c) as [s|]; [|done].
    exists s. split; [done|]. apply bool_decide_eq_true in Ha. by apply (ok_aborted _ _ Hok).
Qed.

Lemma ok_tick es p d : 0 <= d -> ok es p -> forall p', step p (Tick d) = Some p' -> ok es p'.
Proof.
  intros Hd [H1 H2 H3 H4 H5 H6 H7 H8 H9 H10] p'. cbn. rewrite decide_True by done. intros [= <-]. split; cbn; auto.
  unfold link_explained in *. cbn. destruct (link p) as [[c from|c from r]|]; [lia| |done].
  destruct H8. split; [lia|]. eapply explained_mono; [done| |done]. lia.
Qed.

Lemma ok_abort es p s : ok es p -> Abort s ∈ es -> ok es (abort p s).
Proof.
  intros Hok Hs. assert (ok es {| chain := chain p; link := link p; outstanding := outstanding p; running := running p; completed := completed p;
               closed := closed p; drained := drained p; now := now p; aborted := {[s]} ∪ aborted p; accepted := accepted p;
               answers := answers p; called := called p; adrift := adrift p |}) as H1.
  { destruct Hok. split; auto. cbn. set_solver. }
  unfold abort. destruct (link p) as [[c from|c from r]|] eqn:Hl; [|done..]. case_decide; [|done].
  apply ok_abandon; [done..|]. right. eauto.
Qed.

Lemma ok_step es p e p' : ok es p -> step p e = Some p' -> ok (es ++ [e]) p'.
Proof.
  intros Hok. assert (ok (es ++ [e]) p) as Hm by (eapply ok_mono; [|done]; set_solver). clear Hok.
  assert (e ∈ es ++ [e]) as He by set_solver. revert Hm He. generalize (es ++ [e]). clear es. intros es Hok He Hs. destruct e; cbn in Hs.
  - injection Hs as <-. by apply ok_run.
  - destruct (chain p) as [|c rest] eqn:Hc; [done|]. destruct (link p) eqn:Hl; [done|]. case_decide; [|done]. simplify_eq.
    apply ok_start; [done..|]. by intros e' ->.
  - unfold work in Hs. destruct (link p) as [[c from|c from r']|] eqn:Hl; repeat case_decide; simplify_eq; try by apply ok_adrift.
    apply ok_settled; [done..|]. destruct r; cbn; auto.
  - unfold timer in Hs. destruct (link p) as [[c from|]|] eqn:Hl; [|done..]. case_decide; [|done]. simplify_eq.
    apply ok_abandon; [done..|]. left. tauto.
  - injection Hs as <-. by apply ok_abort.
  - destruct (link p) as [[|c from r]|] eqn:Hl; [done| |done]. injection Hs as <-.
    pose proof (ok_link _ _ Hok) as H. unfold link_explained in H. rewrite Hl in H. destruct H.
    apply ok_finish; [done| |done..]. unfold linked. by rewrite Hl.
  - injection Hs as <-. destruct Hok as [? ? ? ? ? ? ? ? ? Hd]. split; auto. cbn. intros H%Hd. tauto.
  - unfold drain in Hs. destruct (chain p) eqn:Hc; [|done]. destruct (link p) eqn:Hl; [done|].
    destruct (closed p) eqn:Hcl; [|done]. destruct (drained p) eqn:Hd; [done|]. injection Hs as <-.
    destruct Hok as [? ? ? ? ? ? ? ? ? ?]. unfold linked, link_explained in *. rewrite Hc, Hl in *. split; cbn; auto.
  - assert (0 <= d) as Hd by (case_decide; done). by eapply ok_tick.
Qed.

Lemma steps_app p es es' : steps p (es ++ es') = steps p es ≫= fun p' => steps p' es'.
Proof. revert p. induction es as [|e es IH]; intros p; [done|]. cbn. destruct (step p e); [apply IH|done]. Qed.

Lemma ok_steps es p : steps created es = Some p -> ok es p.
Proof.
  revert p. induction es as [|e es IH] using rev_ind; intros p.
  - intros [= <-]. apply ok_created.
  - rewrite steps_app. cbn. intros (p1 & H1 & H2)%bind_Some. destruct (step p1 e) eqn:E; [|done]. injection H2 as <-.
    eapply ok_step; [by apply IH|done].
Qed.

(** ** Progress *)

(** What the pool, its timers and its handlers do without any caller. *)
Definition internal (e : Event) : Prop :=
  match e with Start _ None | Work _ _ | Timer | Resume | Tick _ => True | _ => False end.

Definition is_work (e : Event) : Prop := match e with Work _ _ => True | _ => False end.

(** [p'] is [p] with its oldest call answered. *)
Definition served (p p' : Pool) (c : Call) (rest : list Call) : Prop :=
  a_call <$> answers p' = (a_call <$> answers p) ++ [c] /\ link p' = None /\ chain p' = rest /\ closed p' = closed p /\
  accepted p' = accepted p.

Definition serves (p : Pool) (c : Call) (rest : list Call) : Prop :=
  exists es p', steps p es = Some p' /\ served p p' c rest /\ Forall internal es /\ (0 < c_timeout c -> Forall (fun e => ~ is_work e) es).

Lemma serve_settled p c from r : link p = Some (Settled c from r) -> serves p c (chain p).
Proof.
  intros Hl. exists [Resume], (finish p c from r). split; [cbn; by rewrite Hl|]. split; [|split; [by repeat constructor|]].
  - split_and!; try done. cbn. by rewrite fmap_app.
  - intros _. repeat constructor. by intros [].
Qed.

(** Events before a state that is served. *)
Lemma serves_after p e p1 c rest :
  step p e = Some p1 -> answers p1 = answers p -> closed p1 = closed p -> accepted p1 = accepted p -> internal e ->
  (0 < c_timeout c -> ~ is_work e) -> serves p1 c rest -> serves p c rest.
Proof.
  intros Hs Ha Hc Hn Hi Hw (es & p' & H1 & (H2 & H3 & H4 & H5 & H6) & H7 & H8). exists (e :: es), p'.
  split; [cbn; by rewrite Hs|]. split; [|split; [by constructor|]].
  - unfold served. by rewrite H2, H5, H6, Ha.
  - intros Ht. constructor; auto.
Qed.

Lemma serve_racing p c from : link p = Some (Racing c from) -> from <= now p -> serves p c (chain p).
Proof.
  intros Hl Hf. destruct (decide (0 < c_timeout c)) as [Ht|Ht].
  - eapply (serves_after _ (Tick (c_timeout c))); [cbn; by rewrite decide_True by lia|done..|by intros _ []|].
    eapply (serves_after _ Timer); [cbn; unfold timer; cbn; rewrite Hl; cbn; by rewrite decide_True by lia|done..|by intros _ []|].
    exact (serve_settled (abandon _ c from _) _ _ _ eq_refl).
  - eapply (serves_after _ (Work (c_id c) (inl {| te_name := "Error"; te_message := [] |})));
      [cbn; unfold work; rewrite Hl; by rewrite decide_True by done|done..|].
    exact (serve_settled (set_link _ _) _ _ _ eq_refl).
Qed.

Lemma serve_chain p c rest : link p = None -> chain p = c :: rest -> serves p c rest.
Proof.
  intros Hl Hc. eapply (serves_after _ (Start (c_id c) None)); [cbn; rewrite Hc, Hl; by rewrite decide_True by done| | | |done|by intros _ []|];
    unfold start; destruct (isAborted _ c); try done.
  - exact (serve_settled (abandon _ c _ _) _ _ _ eq_refl).
  - match goal with |- serves ?q _ _ => exact (serve_racing q c (now p) eq_refl (Z.le_refl _)) end.
Qed.

Lemma serve_oldest es p c rest : ok es p -> linked p ++ chain p = c :: rest -> serves p c rest.
Proof.
  intros Hok. pose proof (ok_link _ _ Hok) as Hlk. unfold linked, link_explained in *.
  destruct (link p) as [[c' from|c' from r]|] eqn:Hl; cbn; [intros [= -> <-]..|intros Hc].
  - by eapply serve_racing.
  - by eapply serve_settled.
  - by apply serve_chain.
Qed.

(** Everybody who waits is answered. *)
Lemma serve_all es p :
  ok es p ->
  exists es' p', steps p es' = Some p' /\ a_call <$> answers p' = (a_call <$> answers p) ++ linked p ++ chain p /\
    link p' = None /\ chain p' = [] /\ closed p' = closed p /\ accepted p' = accepted p /\ Forall internal es' /\
    (Forall (fun c => 0 < c_timeout c) (linked p ++ chain p) -> Forall (fun e => ~ is_work e) es').
Proof.
  remember (linked p ++ chain p) as l eqn:E. revert es p E. induction l as [|c rest IH]; intros es p E Hok.
  - exists [], p. symmetry in E. apply app_eq_nil in E as [E1 E2]. split_and!; try done.
    + by rewrite app_nil_r.
    + unfold linked in E1. by destruct (link p) as [[]|].
  - destruct (serve_oldest es p c rest Hok (eq_sym E)) as (es1 & p1 & Hs & (H1 & H2 & H3 & H4 & H5) & Hi & Hw).
    assert (exists es2, ok es2 p1) as [es2 Hok1].
    { clear -Hs Hok. revert es p Hs Hok. induction es1 as [|e es1 IH]; intros es p Hs Hok; cbn in Hs; [by simplify_eq; eauto|].
      destruct (step p e) eqn:E; [|done]. eapply IH; [done|]. by eapply ok_step. }
    destruct (IH es2 p1) as (es' & p' & G1 & G2 & G3 & G4 & G5 & G6 & G7 & G8); [|done|].
    { unfold linked. by rewrite H2, H3. }
    exists (es1 ++ es'), p'. split; [by rewrite steps_app, Hs|]. rewrite G2, H1, <-app_assoc. split_and!; try done; try congruence.
    + by apply Forall_app_2.
    + intros [Ht Hr]%Forall_cons. apply Forall_app_2; auto.
Qed.

(** ** Aborts *)

(** No signal fires whose call is still in the queue. *)
Fixpoint aborts_running (p : Pool) (es : list Event) : Prop :=
  match es with
  | [] => True
  | e :: es =>
      match e with Abort s => Forall (fun c => c_signal c <> Some s) (chain p) | _ => True end /\
      match step p e with Some p' => aborts_running p' es | None => True end
  end.

Lemma step_queue p e p' :
  step p e = Some p' -> match e with Abort s => Forall (fun c => c_signal c <> Some s) (chain p) | _ => True end ->
  Forall (fun c => isAborted p c = false) (chain p) -> Forall (fun c => isAborted p' c = false) (chain p').
Proof.
  intros Hs Hsig Hq. destruct e as [task options|id thrown|id r| |s| | | |d]; cbn [step] in Hs.
  - injection Hs as <-. unfold run, admission. destruct (closed p); [done|].
    destruct (match ro_signal options with Some s => bool_decide (s ∈ aborted p) | None => false end) eqn:Ha; [done|].
    case_decide; [done|]. cbn. apply Forall_app_2; [exact Hq|]. by repeat constructor.
  - destruct (chain p) as [|c rest]; [done|]. destruct (link p); [done|]. case_decide; [|done]. injection Hs as <-.
    apply Forall_cons in Hq as [_ Hq]. unfold start. destruct thrown; [exact Hq|]. by destruct (isAborted _ c).
  - unfold work in Hs. repeat case_match; try done; by injection Hs as <-.
  - unfold timer in Hs. repeat case_match; try done; by injection Hs as <-.
  - injection Hs as <-. assert (forall c, c ∈ chain p -> match c_signal c with Some s' => bool_decide (s' ∈ ({[s]} ∪ aborted p : gset nat)) | None => false end = false) as H.
    { intros c Hc. rewrite Forall_forall in Hsig, Hq. specialize (Hsig c Hc). specialize (Hq c Hc). unfold isAborted in Hq.
      destruct (c_signal c) as [s'|]; [|done]. apply bool_decide_eq_false in Hq. apply bool_decide_eq_false. set_solver. }
    unfold abort. destruct (link p) as [[c from|c from r]|]; [case_decide|..]; apply Forall_forall; exact H.
  - repeat case_match; try done; by injection Hs as <-.
  - by injection Hs as <-.
  - unfold drain in Hs. repeat case_match; try done. injection Hs as <-. constructor.
  - case_decide; [|done]. by injection Hs as <-.
Qed.

Lemma steps_queue es p p' :
  steps p es = Some p' -> aborts_running p es -> Forall (fun c => isAborted p c = false) (chain p) ->
  Forall (fun c => isAborted p' c = false) (chain p').
Proof.
  revert p. induction es as [|e es IH]; intros p Hs Ha Hq; cbn in Hs; [by simplify_eq|]. destruct Ha as [Hsig Ha].
  destruct (step p e) as [p1|] eqn:E; [|done]. eapply IH; [done|done|]. by eapply step_queue.
Qed.

(** ** Properties *)

End Inline.
Arguments Pool : clear implicits.
Arguments Event : clear implicits.

(** ** Examples *)

Definition small_pool : WorkerPoolOptions := {| po_maxQueue := 2; po_maxThreads := 1; po_taskTimeoutMs := 0 |}.
Definition no_options : WorkerRunOptions := {| ro_signal := None; ro_timeoutMs := None |}.
Definition wait_at_most (ms : Z) : WorkerRunOptions := {| ro_signal := None; ro_timeoutMs := Some ms |}.
Definition sleep_task : string := "test.sleep".

(** A call that times out, one whose handler throws, and one that returns. *)
Definition sample_events : list (Event Z) :=
  [Run sleep_task (wait_at_most 5); Start 0 None; Run sleep_task no_options; Run sleep_task no_options; Tick 6;
   Timer; Resume; Start 1 (Some {| te_name := "RangeError"; te_message := [] |}); Run sleep_task no_options;
   Start 2 None; Work 0 (inr 1); Work 2 (inr 7); Resume].

