(* ===== verification/ThreadPool.v ===== *)
(** * ThreadPool: the worker pool over Piscina

    [src/src/workers/piscina-worker-pool.ts].  Piscina is a parameter: which of
    its promises settle, when, and with what are events. *)

From S2P Require Import Prelude WorkerPort.

Definition startsWithUnits (prefix t : JSText) : bool := bool_decide (take (length prefix) t = prefix).

(** [t.includes(part)] *)
Fixpoint includes (part t : JSText) : bool :=
  startsWithUnits part t || match t with [] => false | _ :: t' => includes part t' end.

Definition endsWithTs (filename : JSText) : bool := bool_decide (drop (length filename - 3) filename = js ".ts").


(** What Piscina is created with. *)
Record PiscinaOptions := {
  px_filename : JSText;
  px_maxThreads : Z;
  px_minThreads : Z;
  px_maxQueue : Z;
  px_idleTimeout : Z;
  px_execArgv : list JSText }.

Record AdapterOptions := {
  ao_pool : WorkerPoolOptions;
  ao_minThreads : option Z;
  ao_idleTimeoutMs : option Z;
  ao_workerFilename : option JSText;
  ao_execArgv : option (list JSText) }.

Inductive BootError := WorkerFileNotFound (filename : JSText) | RefusesTypeScript (filename : JSText).

Definition resolveWorkerFilename (existsSync : JSText -> bool) (here : JSText) : JSText :=
  let jsPath := here ++ js "/worker.js" in
  let tsPath := here ++ js "/worker.ts" in
  if existsSync jsPath then jsPath else if existsSync tsPath then tsPath else jsPath.

(** The constructor, up to [new Piscina]. *)
Definition construct (existsSync : JSText -> bool) (here : JSText) (production : bool) (processArgv : list JSText)
    (a : AdapterOptions) : BootError + PiscinaOptions :=
  let filename := default (resolveWorkerFilename existsSync here) (ao_workerFilename a) in
  if negb (existsSync filename) then inl (WorkerFileNotFound filename)
  else
    let argv := default processArgv (ao_execArgv a) in
    let transpile := endsWithTs filename && negb (existsb (includes (js "ts-node/register")) argv) in
    if transpile && production then inl (RefusesTypeScript filename)
    else
      inr {| px_filename := filename;
             px_maxThreads := po_maxThreads (ao_pool a);
             px_minThreads := default (Z.min 1 (po_maxThreads (ao_pool a))) (ao_minThreads a);
             px_maxQueue := Z.max 0 (po_maxQueue (ao_pool a) - po_maxThreads (ao_pool a));
             px_idleTimeout := default 30000 (ao_idleTimeoutMs a);
             px_execArgv := argv ++ (if transpile then [js "-r"; js "ts-node/register"] else []) |}.

(** What a promise of Piscina is rejected with. *)
Inductive Raw := RawError (e : ThrownError) | RawOther (text : JSText).

Definition translateError (task : string) (err : Raw) : Rejection :=
  match err with
  | RawOther text => TaskError {| te_name := "Error"; te_message := text |}
  | RawError e =>
      let msg := te_message e in
      if includes (js "aborted") msg || bool_decide (te_name e = "AbortError"%string) then PoolError (WorkerPoolAbortedError task)
      else if includes (js "queue is at limit") msg || includes (js "Task queue is at limit") msg then
        PoolError (WorkerPoolSaturatedError task (-1) (-1))
      else if includes (js "Terminating worker thread") msg || includes (js "closed") msg then PoolError (WorkerPoolClosedError task)
      else if bool_decide (te_name e = "UnknownWorkerTaskError"%string) then PoolError (UnknownWorkerTaskError task)
      else TaskError e
  end.

Section Threads.
Context {V : Type} (o : WorkerPoolOptions).

(** A call that was handed to Piscina: [work] is what its promise settled to,
    once translated, and [answer] what the caller was given. *)
Record Call := {
  c_task : string;
  c_timeout : Z;
  c_since : Z;
  c_work : option (Rejection + V);
  c_answer : option (Rejection + V) }.

Record Pool := { calls : list Call; outstanding : Z; closed : bool; now : Z; aborted : gset nat }.

Definition created : Pool := {| calls := []; outstanding := 0; closed := false; now := 0; aborted := ∅ |}.

Inductive Event :=
| Run (task : string) (options : WorkerRunOptions)
| Settle (id : nat) (r : Raw + V)      (* Piscina settles the promise of [run] *)
| Deliver (id : nat)                   (* the race hears of it *)
| Timer (id : nat)
| Abort (signal : nat)
| Shutdown
| Tick (d : Z).

Definition run (p : Pool) (task : string) (options : WorkerRunOptions) : (WorkerPoolError + nat) * Pool :=
  match admission o (closed p) (outstanding p) (aborted p) task options with
  | Some e => (inl e, p)
  | None =>
      let c := {| c_task := task; c_timeout := waitOf o options; c_since := now p; c_work := None; c_answer := None |} in
      (inr (length (calls p)),
       {| calls := calls p ++ [c]; outstanding := outstanding p + 1; closed := closed p; now := now p; aborted := aborted p |})
  end.

Definition set_call (p : Pool) (id : nat) (c : Call) (released : Z) : Pool :=
  {| calls := <[id := c]> (calls p); outstanding := outstanding p - released; closed := closed p; now := now p; aborted := aborted p |}.

Definition translated (task : string) (r : Raw + V) : Rejection + V := match r with inl e => inl (translateError task e) | inr v => inr v end.

(** The [catch] and the [finally] behind [piscina.run]. *)
Definition settle (p : Pool) (id : nat) (r : Raw + V) : option Pool :=
  match calls p !! id with
  | Some c =>
      match c_work c with
      | Some _ => None
      | None =>
          Some (set_call p id {| c_task := c_task c; c_timeout := c_timeout c; c_since := c_since c;
                                 c_work := Some (translated (c_task c) r); c_answer := c_answer c |} 1)
      end
  | None => None
  end.

(** The first to settle the race answers. *)
Definition respond (p : Pool) (id : nat) (c : Call) (r : Rejection + V) : Pool :=
  match c_answer c with
  | Some _ => p
  | None =>
      set_call p id {| c_task := c_task c; c_timeout := c_timeout c; c_since := c_since c; c_work := c_work c; c_answer := Some r |} 0
  end.

Definition deliver (p : Pool) (id : nat) : option Pool :=
  match calls p !! id with
  | Some c => match c_work c with Some r => Some (respond p id c r) | None => None end
  | None => None
  end.

Definition timer (p : Pool) (id : nat) : option Pool :=
  match calls p !! id with
  | Some c =>
      if decide (0 < c_timeout c /\ c_since c + c_timeout c <= now p) then
        Some (respond p id c (inl (PoolError (WorkerPoolTimeoutError (c_task c) (c_timeout c)))))
      else None
  | None => None
  end.

Definition step (p : Pool) (e : Event) : option Pool :=
  match e with
  | Run task options => Some (run p task options).2
  | Settle id r => settle p id r
  | Deliver id => deliver p id
  | Timer id => timer p id
  | Abort signal =>
      Some {| calls := calls p; outstanding := outstanding p; closed := closed p; now := now p; aborted := {[signal]} ∪ aborted p |}
  | Shutdown => Some {| calls := calls p; outstanding := outstanding p; closed := true; now := now p; aborted := aborted p |}
  | Tick d => if decide (0 <= d) then
      Some {| calls := calls p; outstanding := outstanding p; closed := closed p; now := now p + d; aborted := aborted p |}
      else None
  end.

(** Occupancy is Piscina's own account. *)
Definition stats (threads idleThreads queueSize piscinaCompleted : Z) (p : Pool) : WorkerPoolStats :=
  {| st_maxThreads := po_maxThreads o; st_maxQueue := po_maxQueue o; st_running := Z.max 0 (threads - idleThreads);
     st_queued := queueSize; st_completed := piscinaCompleted; st_saturation := saturation o (outstanding p) |}.

Inductive reach : Pool -> Prop :=
| reach_created : reach created
| reach_step p e p' : reach p -> step p e = Some p' -> reach p'.

Definition pending (l : list Call) : nat := length (filter (fun c => c_work c = None) l).

(** The count of outstanding calls is kept, also by calls that timed out. *)
Definition counted (p : Pool) : Prop := outstanding p = Z.of_nat (pending (calls p)) /\ outstanding p <= Z.max 0 (po_maxQueue o).

Lemma pending_insert l id c c' : l !! id = Some c ->
  (pending (<[id := c']> l) + (if decide (c_work c = None) then 1 else 0) = pending l + (if decide (c_work c' = None) then 1 else 0))%nat.
Proof.
  revert id. induction l as [|d l IH]; intros id H; [done|]. destruct id as [|id]; cbn in H.
  - injection H as ->. unfold pending. change (<[0%nat := c']> (c :: l)) with (c' :: l). rewrite !filter_cons. repeat case_decide; cbn [length]; lia.
  - specialize (IH _ H). unfold pending in *. change (<[S id := c']> (d :: l)) with (d :: <[id := c']> l). rewrite !filter_cons. repeat case_decide; cbn [length] in *; lia.
Qed.

Lemma pending_snoc l c : c_work c = None -> pending (l ++ [c]) = S (pending l).
Proof. intros Hc. unfold pending. rewrite filter_app, length_app, filter_cons. rewrite decide_True by done. cbn. lia. Qed.

Lemma counted_respond p id c r : counted p -> calls p !! id = Some c -> counted (respond p id c r).
Proof.
  intros [H1 H2] Hc. unfold respond. destruct (c_answer c); [done|]. unfold counted, set_call. cbn [calls outstanding].
  pose proof (pending_insert _ _ _ {| c_task := c_task c; c_timeout := c_timeout c; c_since := c_since c; c_work := c_work c; c_answer := Some r |} Hc) as H.
  cbn [c_work] in H. split; [|lia]. rewrite Z.sub_0_r. repeat case_decide; lia.
Qed.

Lemma reach_counted p : reach p -> counted p.
Proof.
  induction 1 as [|p e p' _ [H1 H2] Hs]; [split; cbn; lia|]. destruct e; cbn in Hs.
  - injection Hs as <-. unfold run. destruct (admission _ _ _ _ _ _) eqn:E; [done|]. unfold counted in *. cbn [snd calls outstanding].
    rewrite pending_snoc by done.
    unfold admission in E. destruct (closed p); [done|].
    destruct (match ro_signal options with Some _ => _ | None => _ end); [done|]. case_decide; [done|]. lia.
  - unfold settle in Hs. destruct (calls p !! id) as [c|] eqn:Hc; [|done]. destruct (c_work c) eqn:Hw; [done|]. injection Hs as <-.
    pose proof (pending_insert _ _ _ {| c_task := c_task c; c_timeout := c_timeout c; c_since := c_since c;
      c_work := Some (translated (c_task c) r); c_answer := c_answer c |} Hc) as H. cbn [c_work] in H.
    rewrite Hw, decide_True, decide_False in H by done. unfold counted, set_call. cbn [calls outstanding]. lia.
  - unfold deliver in Hs. destruct (calls p !! id) as [c|] eqn:Hc; [|done]. destruct (c_work c); [|done]. injection Hs as <-.
    by apply counted_respond.
  - unfold timer in Hs. destruct (calls p !! id) as [c|] eqn:Hc; [|done]. case_decide; [|done]. injection Hs as <-. by apply counted_respond.
  - by injection Hs as <-.
  - by injection Hs as <-.
  - case_decide; [|done]. by injection Hs as <-.
Qed.
End Threads.
Arguments Pool : clear implicits.
Arguments Event : clear implicits.
