(* ===== verification/WorkerPools.v ===== *)
(** * WorkerPools: what the port promises of either pool

    [PoolContract] states what [worker-pool.contract.ts] asks of an adapter;
    [burst] is proved from it alone, and both adapters keep it.  The examples
    run the two where they differ from each other or from the port's text. *)

From S2P Require Import Prelude WorkerPort InlinePool ThreadPool.

(** ** What the port promises of either pool *)

(** A pool as its callers see it: [wp_answer] is what the promise of a call has
    settled to, [wp_next] whatever may happen next. *)
Class WorkerPool (V P : Type) := {
  wp_run : P -> string -> WorkerRunOptions -> (WorkerPoolError + nat) * P;
  wp_next : relation P;
  wp_reach : P -> Prop;
  wp_outstanding : P -> Z;
  wp_closed : P -> bool;
  wp_aborted : P -> gset nat;
  wp_accepted : P -> nat;
  wp_answer : P -> nat -> option (Rejection + V) }.

Class PoolContract (V P : Type) `{!WorkerPool V P} (o : WorkerPoolOptions) : Prop := {
  pc_refused (s : P) task options e :
    wp_reach s -> admission o (wp_closed s) (wp_outstanding s) (wp_aborted s) task options = Some e -> wp_run s task options = (inl e, s);
  pc_admitted (s : P) task options :
    wp_reach s -> admission o (wp_closed s) (wp_outstanding s) (wp_aborted s) task options = None ->
    exists s', wp_run s task options = (inr (wp_accepted s), s') /\ wp_reach s' /\ wp_accepted s' = S (wp_accepted s) /\
      wp_outstanding s' = wp_outstanding s + 1 /\ wp_closed s' = wp_closed s /\ wp_aborted s' = wp_aborted s /\
      (forall id, wp_answer s' id = wp_answer s id);
  pc_bounded (s : P) : wp_reach s -> 0 <= wp_outstanding s <= Z.max 0 (po_maxQueue o);
  pc_next (s s' : P) : wp_reach s -> wp_next s s' -> wp_reach s' /\ (wp_closed s = true -> wp_closed s' = true);
  pc_issued (s : P) id r : wp_reach s -> wp_answer s id = Some r -> (id < wp_accepted s)%nat;
  pc_final (s s' : P) id r : wp_reach s -> wp_next s s' -> wp_answer s id = Some r -> wp_answer s' id = Some r }.

(** Calls submitted in one turn of the event loop. *)
Fixpoint submit {V P : Type} `{!WorkerPool V P} (s : P) (batch : list (string * WorkerRunOptions)) : list (WorkerPoolError + nat) * P :=
  match batch with
  | [] => ([], s)
  | (task, options) :: rest =>
      let '(r, s1) := wp_run s task options in
      let '(rs, s2) := submit s1 rest in
      (r :: rs, s2)
  end.

Section Burst.
Context {V P : Type} `{!WorkerPool V P} (o : WorkerPoolOptions) `{!PoolContract V P o}.

Lemma submit_full (s : P) batch :
  wp_reach s -> wp_closed s = false -> po_maxQueue o <= wp_outstanding s -> Forall (fun c => ro_signal c.2 = None) batch ->
  submit s batch = ((fun c => inl (WorkerPoolSaturatedError c.1 (wp_outstanding s) (po_maxQueue o))) <$> batch, s).
Proof.
  intros Hr Hc Hq. induction 1 as [|[task options] batch Hs _ IH]; [done|]. cbn.
  erewrite pc_refused; [|done|].
  - by rewrite IH.
  - unfold admission. rewrite Hc. cbn in Hs. rewrite Hs. by rewrite decide_True.
Qed.

(** An open pool takes what its backlog has room for, in order, and refuses the
    rest at once. *)
Theorem burst (s : P) batch :
  wp_reach s -> wp_closed s = false -> Forall (fun c => ro_signal c.2 = None) batch ->
  let room := Z.to_nat (po_maxQueue o - wp_outstanding s) in
  let taken := Nat.min room (length batch) in
  (submit s batch).1 =
    (inr <$> seq (wp_accepted s) taken) ++
    ((fun c => inl (WorkerPoolSaturatedError c.1 (wp_outstanding s + Z.of_nat taken) (po_maxQueue o))) <$> drop taken batch).
Proof.
  intros Hr Hc Hb. revert s Hr Hc. induction Hb as [|[task options] batch Hs Hb IH]; intros s Hr Hc; cbn zeta.
  { cbn. by rewrite Nat.min_0_r. }
  destruct (decide (po_maxQueue o <= wp_outstanding s)) as [Hq|Hq].
  - replace (Z.to_nat (po_maxQueue o - wp_outstanding s)) with 0%nat by lia. rewrite submit_full by (done || by constructor).
    cbn. by rewrite Z.add_0_r.
  - assert (admission o (wp_closed s) (wp_outstanding s) (wp_aborted s) task options = None) as Ha.
    { unfold admission. rewrite Hc. cbn in Hs. rewrite Hs. by rewrite decide_False. }
    destruct (pc_admitted s task options Hr Ha) as (s' & Hrun & Hr' & Hn & Ho & Hc' & _ & _).
    specialize (IH s' Hr' (eq_trans Hc' Hc)). cbn zeta in IH. cbn [submit]. rewrite Hrun. destruct (submit s' batch) as [rs s2]. cbn [fst] in *.
    rewrite IH, Hn, Ho. replace (Z.to_nat (po_maxQueue o - wp_outstanding s)) with (S (Z.to_nat (po_maxQueue o - (wp_outstanding s + 1)))) by lia.
    cbn [length Nat.min seq fmap list_fmap drop app]. f_equal. f_equal. apply list_fmap_ext. intros ? c _. f_equal. f_equal. lia.
Qed.
End Burst.

(** ** Both pools keep it *)

Section Instances.
Context {V : Type} (o : WorkerPoolOptions).

#[global] Instance inline_pool : WorkerPool V (InlinePool.Pool V) := {|
  wp_run := InlinePool.run o;
  wp_next p p' := exists e, InlinePool.step o p e = Some p';
  wp_reach p := exists es, InlinePool.steps o InlinePool.created es = Some p;
  wp_outstanding := InlinePool.outstanding;
  wp_closed := InlinePool.closed;
  wp_aborted := InlinePool.aborted;
  wp_accepted := InlinePool.accepted;
  wp_answer p id := InlinePool.a_result <$> (InlinePool.answers p !! id) |}.

Lemma inline_next (p p' : InlinePool.Pool V) e : (exists es, InlinePool.steps o InlinePool.created es = Some p) -> InlinePool.step o p e = Some p' ->
  exists es, InlinePool.steps o InlinePool.created es = Some p'.
Proof. intros [es Hes] He. exists (es ++ [e]). rewrite InlinePool.steps_app, Hes. cbn. by rewrite He. Qed.

Lemma inline_grows (p p' : InlinePool.Pool V) e : InlinePool.step o p e = Some p' ->
  (exists l, InlinePool.answers p' = InlinePool.answers p ++ l) /\ (InlinePool.closed p = true -> InlinePool.closed p' = true).
Proof.
  assert (forall q : InlinePool.Pool V, InlinePool.answers q = InlinePool.answers p -> exists l, InlinePool.answers q = InlinePool.answers p ++ l) as Hsame.
  { intros q ->. exists []. by rewrite app_nil_r. }
  destruct e; cbn; intros Hs.
  - injection Hs as <-. unfold InlinePool.run. destruct (admission _ _ _ _ _ _); split; try done; by apply Hsame.
  - destruct (InlinePool.chain p), (InlinePool.link p); try done. case_decide; [|done]. injection Hs as <-. unfold InlinePool.start.
    destruct thrown; [by split; [eexists|]|]. destruct (InlinePool.isAborted _ _); split; try done; by apply Hsame.
  - unfold InlinePool.work in Hs. destruct (InlinePool.link p) as [[]|]; repeat case_decide; simplify_eq; split; try done; by apply Hsame.
  - unfold InlinePool.timer in Hs. destruct (InlinePool.link p) as [[]|]; try done. case_decide; simplify_eq; split; try done; by apply Hsame.
  - injection Hs as <-. unfold InlinePool.abort. destruct (InlinePool.link p) as [[]|]; try case_decide; split; try done; by apply Hsame.
  - destruct (InlinePool.link p) as [[]|]; simplify_eq. split; [by eexists|done].
  - injection Hs as <-. split; [by apply Hsame|done].
  - unfold InlinePool.drain in Hs. destruct (InlinePool.chain p), (InlinePool.link p); try done. destruct (_ && _); simplify_eq. split; [by apply Hsame|done].
  - case_decide; [|done]. injection Hs as <-. split; [by apply Hsame|done].
Qed.

#[global] Instance inline_contract : PoolContract V (InlinePool.Pool V) o.
Proof.
  split; cbn.
  - intros p task options e _ He. unfold InlinePool.run. by rewrite He.
  - intros p task options Hr Ha. exists (InlinePool.run o p task options).2.
    assert (exists es, InlinePool.steps o InlinePool.created es = Some (InlinePool.run o p task options).2) as Hr'
      by by eapply (inline_next _ _ (InlinePool.Run task options)).
    revert Hr'. unfold InlinePool.run. rewrite Ha. done.
  - intros p [es Hes]. apply InlinePool.ok_steps in Hes as [_ _ H3 _ _ H6 _ _ _ _]. lia.
  - intros p p' Hr [e He]. split; [by eapply inline_next|]. by apply (inline_grows _ _ e).
  - intros p id r [es Hes] H. apply InlinePool.ok_steps in Hes as [H1 _ _ _ _ _ _ _ _ _].
    apply fmap_Some in H as (a & Ha & _). apply lookup_lt_Some in Ha. apply (f_equal length) in H1.
    rewrite length_fmap, length_app, length_fmap, length_seq in H1. lia.
  - intros p p' id r _ [e He] H. destruct (inline_grows _ _ _ He) as [[l ->] _]. apply fmap_Some in H as (a & Ha & ->).
    by rewrite (lookup_app_l_Some _ _ _ _ Ha).
Qed.

#[global] Instance threads_pool : WorkerPool V (ThreadPool.Pool V) := {|
  wp_run := ThreadPool.run o;
  wp_next p p' := exists e, ThreadPool.step o p e = Some p';
  wp_reach := ThreadPool.reach o;
  wp_outstanding := ThreadPool.outstanding;
  wp_closed := ThreadPool.closed;
  wp_aborted := ThreadPool.aborted;
  wp_accepted p := length (ThreadPool.calls p);
  wp_answer p id := ThreadPool.calls p !! id ≫= ThreadPool.c_answer |}.

Lemma set_call_answer (p : ThreadPool.Pool V) id c c' n id' r :
  ThreadPool.calls p !! id = Some c -> (forall r, ThreadPool.c_answer c = Some r -> ThreadPool.c_answer c' = Some r) ->
  ThreadPool.calls p !! id' ≫= ThreadPool.c_answer = Some r -> ThreadPool.calls (ThreadPool.set_call p id c' n) !! id' ≫= ThreadPool.c_answer = Some r.
Proof.
  intros Hc Hk (d & Hd & Hr)%bind_Some. cbn. destruct (decide (id = id')) as [->|Hne].
  - rewrite list_lookup_insert_eq by by eapply lookup_lt_Some. cbn. rewrite Hc in Hd. simplify_eq. auto.
  - rewrite list_lookup_insert_ne by done. by rewrite Hd.
Qed.

Lemma respond_answer (p : ThreadPool.Pool V) id c x id' r :
  ThreadPool.calls p !! id = Some c -> ThreadPool.calls p !! id' ≫= ThreadPool.c_answer = Some r ->
  ThreadPool.calls (ThreadPool.respond p id c x) !! id' ≫= ThreadPool.c_answer = Some r.
Proof.
  intros Hc Hr. unfold ThreadPool.respond. destruct (ThreadPool.c_answer c) eqn:Ha; [done|]. eapply set_call_answer; [done| |done].
  intros r'. by rewrite Ha.
Qed.

Lemma threads_final (p p' : ThreadPool.Pool V) e id r :
  ThreadPool.step o p e = Some p' -> ThreadPool.calls p !! id ≫= ThreadPool.c_answer = Some r -> ThreadPool.calls p' !! id ≫= ThreadPool.c_answer = Some r.
Proof.
  intros Hs Hr. destruct e; cbn in Hs.
  - injection Hs as <-. unfold ThreadPool.run. destruct (admission _ _ _ _ _ _); [done|]. cbn.
    apply bind_Some in Hr as (d & Hd & Hr). by rewrite (lookup_app_l_Some _ _ _ _ Hd).
  - unfold ThreadPool.settle in Hs. destruct (ThreadPool.calls p !! id0) as [c|] eqn:Hc; [|done]. destruct (ThreadPool.c_work c); simplify_eq.
    by eapply set_call_answer.
  - unfold ThreadPool.deliver in Hs. destruct (ThreadPool.calls p !! id0) as [c|] eqn:Hc; [|done]. destruct (ThreadPool.c_work c); simplify_eq.
    by apply respond_answer.
  - unfold ThreadPool.timer in Hs. destruct (ThreadPool.calls p !! id0) as [c|] eqn:Hc; [|done]. case_decide; simplify_eq. by apply respond_answer.
  - by injection Hs as <-.
  - by injection Hs as <-.
  - case_decide; by simplify_eq.
Qed.

Lemma threads_closed (p p' : ThreadPool.Pool V) e : ThreadPool.step o p e = Some p' -> ThreadPool.closed p = true -> ThreadPool.closed p' = true.
Proof.
  assert (forall q id c (x : Rejection + V), ThreadPool.closed (ThreadPool.respond q id c x) = ThreadPool.closed q) as Hresp.
  { intros. unfold ThreadPool.respond. by destruct (ThreadPool.c_answer c). }
  intros Hs Hc. destruct e; cbn in Hs.
  - injection Hs as <-. unfold ThreadPool.run. by destruct (admission _ _ _ _ _ _).
  - unfold ThreadPool.settle in Hs. repeat case_match; by simplify_eq.
  - unfold ThreadPool.deliver in Hs. repeat case_match; simplify_eq. by rewrite Hresp.
  - unfold ThreadPool.timer in Hs. repeat case_match; simplify_eq. by rewrite Hresp.
  - by injection Hs as <-.
  - by injection Hs as <-.
  - case_decide; by simplify_eq.
Qed.

#[global] Instance threads_contract : PoolContract V (ThreadPool.Pool V) o.
Proof.
  split; cbn.
  - intros p task options e _ He. unfold ThreadPool.run. by rewrite He.
  - intros p task options Hr Ha. exists (ThreadPool.run o p task options).2.
    assert (ThreadPool.reach o (ThreadPool.run o p task options).2) as Hr' by by eapply (ThreadPool.reach_step _ p (ThreadPool.Run task options)).
    revert Hr'. unfold ThreadPool.run. rewrite Ha. cbn. intros Hr'. split_and!; try done.
    + rewrite length_app. cbn. lia.
    + intros id. rewrite lookup_app. destruct (ThreadPool.calls p !! id) as [c|] eqn:Hc; [done|].
      destruct (id - length (ThreadPool.calls p))%nat as [|n]; done.
  - intros p Hr%ThreadPool.reach_counted. destruct Hr. lia.
  - intros p p' Hr [e He]. split; [by eapply ThreadPool.reach_step|]. by apply (threads_closed _ _ e).
  - intros p id r _ (c & Hc & _)%bind_Some. by eapply lookup_lt_Some.
  - intros p p' id r _ [e He]. by eapply threads_final.
Qed.
End Instances.

(** ** Examples *)

(** [burst] for either pool: of three calls the third is refused. *)
Lemma third_call_is_refused :
  (submit (InlinePool.created (V := Z)) (replicate 3 (sleep_task, no_options)) (WorkerPool0 := inline_pool small_pool)).1 =
    [inr 0; inr 1; inl (WorkerPoolSaturatedError sleep_task 2 2)]%nat /\
  (submit (ThreadPool.created (V := Z)) (replicate 3 (sleep_task, no_options)) (WorkerPool0 := threads_pool small_pool)).1 =
    [inr 0; inr 1; inl (WorkerPoolSaturatedError sleep_task 2 2)]%nat.
Proof.
  split.
  - rewrite (burst small_pool (PoolContract0 := inline_contract small_pool)); [done|by exists []|done|by repeat constructor].
  - rewrite (burst small_pool (PoolContract0 := threads_contract small_pool)); [done|constructor|done|by repeat constructor].
Qed.

(** An aborted call that is still queued is not dropped: its caller hears of the
    abort only when its turn has come, and its handler is called then. *)
Example aborted_in_the_queue_still_runs :
  exists p p' : InlinePool.Pool Z,
    InlinePool.steps small_pool InlinePool.created
      [InlinePool.Run sleep_task no_options; InlinePool.Start 0 None; InlinePool.Run sleep_task {| ro_signal := Some 1%nat; ro_timeoutMs := None |}; InlinePool.Abort 1] = Some p /\
    InlinePool.answers p = [] /\
    InlinePool.steps small_pool p [InlinePool.Work 0 (inr 1); InlinePool.Resume; InlinePool.Start 1 None; InlinePool.Resume] = Some p' /\
    InlinePool.called p' = [0; 1]%nat /\ (InlinePool.c_id <$> InlinePool.adrift p') = [1%nat] /\
    (InlinePool.a_result <$> InlinePool.answers p') = [inr 1; inl (PoolError (WorkerPoolAbortedError sleep_task))].
Proof. do 2 eexists. split_and!; by vm_compute. Qed.

(** After a time-out the chain moves on while the handler still runs. *)
Example two_handlers_at_once :
  exists p : InlinePool.Pool Z,
    InlinePool.steps small_pool InlinePool.created
      [InlinePool.Run sleep_task (wait_at_most 5); InlinePool.Run sleep_task no_options; InlinePool.Start 0 None; InlinePool.Tick 5; InlinePool.Timer; InlinePool.Resume;
       InlinePool.Start 1 None] = Some p /\
    (InlinePool.c_id <$> InlinePool.adrift p) = [0%nat] /\ (InlinePool.c_id <$> InlinePool.linked p) = [1%nat] /\
    st_running (InlinePool.stats small_pool p) = 1 /\ st_completed (InlinePool.stats small_pool p) = 1.
Proof. eexists. split_and!; by vm_compute. Qed.

(** The pools bound different waits: on the caller's thread the timer starts
    with the task, in the other with the call. *)
Example wait_starts_with_the_task :
  exists (p : InlinePool.Pool Z) (q : ThreadPool.Pool Z),
    InlinePool.steps small_pool InlinePool.created
      [InlinePool.Run sleep_task no_options; InlinePool.Start 0 None; InlinePool.Run sleep_task (wait_at_most 5); InlinePool.Tick 100] = Some p /\
    InlinePool.answers p = [] /\ InlinePool.timer p = None /\
    (ThreadPool.step small_pool ThreadPool.created (ThreadPool.Run sleep_task no_options) ≫= fun q =>
     ThreadPool.step small_pool q (ThreadPool.Run sleep_task (wait_at_most 5)) ≫= fun q =>
     ThreadPool.step small_pool q (ThreadPool.Tick 100) ≫= fun q => ThreadPool.step small_pool q (ThreadPool.Timer 1)) = Some q /\
    (ThreadPool.calls q !! 1%nat) ≫= ThreadPool.c_answer = Some (inl (PoolError (WorkerPoolTimeoutError sleep_task 5))).
Proof. do 2 eexists. split_and!; by vm_compute. Qed.

(** After a time-out the pools have different room: the one frees the place of
    the call, the other holds it until Piscina has settled the task. *)
Example timeout_frees_one_pool_only :
  exists (p : InlinePool.Pool Z) (q : ThreadPool.Pool Z),
    InlinePool.steps {| po_maxQueue := 1; po_maxThreads := 1; po_taskTimeoutMs := 5 |} InlinePool.created
      [InlinePool.Run sleep_task no_options; InlinePool.Start 0 None; InlinePool.Tick 5; InlinePool.Timer; InlinePool.Resume] = Some p /\
    (InlinePool.run {| po_maxQueue := 1; po_maxThreads := 1; po_taskTimeoutMs := 5 |} p sleep_task no_options).1 = inr 1%nat /\
    (ThreadPool.step {| po_maxQueue := 1; po_maxThreads := 1; po_taskTimeoutMs := 5 |} ThreadPool.created (ThreadPool.Run sleep_task no_options) ≫= fun q =>
     ThreadPool.step small_pool q (ThreadPool.Tick 5) ≫= fun q => ThreadPool.step small_pool q (ThreadPool.Timer 0)) = Some q /\
    (ThreadPool.run {| po_maxQueue := 1; po_maxThreads := 1; po_taskTimeoutMs := 5 |} q sleep_task no_options).1 =
      inl (WorkerPoolSaturatedError sleep_task 1 1).
Proof. do 2 eexists. split_and!; by vm_compute. Qed.

(** A task's own error whose message speaks of something closed or aborted is
    taken for one of the pool's. *)
Example own_error_is_taken_for_the_pools :
  ThreadPool.translateError "csv.encode" (ThreadPool.RawError {| te_name := "Error"; te_message := js "the input stream was closed early" |}) =
  PoolError (WorkerPoolClosedError "csv.encode").
Proof. by vm_compute. Qed.
