(* ===== verification/RowLock.v ===== *)
(** * RowLock: pessimistic row locks

    [src/src/common/locking/row-lock.ts]: the statements [lockRows] sends, what
    it makes of their answers, and what its ordering buys.

    A statement is text with bound values in it, as [Prisma.sql] builds one;
    [lex] reads it the way the server's scanner does.  The server is a machine
    over open transactions: one event locks one row, in the order of the sort
    below [LockRows], with Postgres' table of conflicts, its three policies and
    its second look at a row whose holder has ended.  Rows have columns, and a
    statement finds and orders them by the column it names. *)

From S2P Require Import Prelude Text Json Storage.
From stdpp Require Import relations.
#[local] Open Scope Z_scope.

(** ** The statements *)

Inductive RowLockStrength := Update | NoKeyUpdate | Share | KeyShare.
Inductive RowLockWaitPolicy := Wait | NoWait | SkipLocked.

#[global] Instance RowLockStrength_eq_dec : EqDecision RowLockStrength.
Proof. solve_decision. Defined.
#[global] Instance RowLockWaitPolicy_eq_dec : EqDecision RowLockWaitPolicy.
Proof. solve_decision. Defined.

(** A [waitTimeoutMs] is a number of the language: an integer, or not one. *)
Inductive Millis := Whole (ms : Z) | NotWhole.

Record RowLockSpec := {
  rl_table : JSText;
  rl_keyColumn : JSText;
  rl_keys : list JSText;
  rl_strength : option RowLockStrength;
  rl_wait : option RowLockWaitPolicy;
  rl_waitTimeoutMs : option Millis }.

Definition strengthOf (spec : RowLockSpec) : RowLockStrength := default Update (rl_strength spec).
Definition policyOf (spec : RowLockSpec) : RowLockWaitPolicy := default Wait (rl_wait spec).

(** One character of a statement, or a value bound at that place. *)
Inductive Piece := Ch (c : N) | Bound (v : JSText).

Definition Sql : Type := list Piece.
Definition raw (t : JSText) : Sql := Ch <$> t.

Definition STRENGTH_SQL (s : RowLockStrength) : JSText :=
  match s with
  | Update => js "FOR UPDATE"
  | NoKeyUpdate => js "FOR NO KEY UPDATE"
  | Share => js "FOR SHARE"
  | KeyShare => js "FOR KEY SHARE"
  end.

Definition WAIT_SQL (w : RowLockWaitPolicy) : JSText :=
  match w with Wait => [] | NoWait => js " NOWAIT" | SkipLocked => js " SKIP LOCKED" end.

Inductive RowLockError :=
| UnsafeIdentifier (kind : string) (name : JSText)
| BadTimeout
| LockUnavailableError (table : JSText) (keys : list JSText)
| DeadlockDetectedError (table : JSText)
| Unrecognised (error : JsonValue).

Definition isLetter (c : N) : bool := bool_decide (65 <= c <= 90)%N || bool_decide (97 <= c <= 122)%N || bool_decide (c = 95)%N.
Definition isWordChar (c : N) : bool := isLetter c || bool_decide (48 <= c <= 57)%N.

(** [SAFE_IDENTIFIER.test(name)] *)
Definition safeIdentifier (name : JSText) : bool :=
  match name with
  | c :: rest => isLetter c && forallb isWordChar rest
  | [] => false
  end.

Definition dquote : N := 34.

Definition quoted_name (name : JSText) : JSText := [dquote] ++ name ++ [dquote].

Definition quoteIdentifier (kind : string) (name : JSText) : RowLockError + Sql :=
  if safeIdentifier name then inr (raw (quoted_name name)) else inl (UnsafeIdentifier kind name).

Definition applyLockTimeout (ms : Millis) : RowLockError + Sql :=
  match ms with
  | Whole ms =>
      if decide (0 <= ms <= MAX_SAFE_INTEGER)%Z then inr (raw (js "SET LOCAL lock_timeout = '" ++ js (pretty ms) ++ js "ms'")) else inl BadTimeout
  | NotWhole => inl BadTimeout
  end.

(** [Prisma.join(keys)] *)
Fixpoint joinBound (keys : list JSText) : Sql :=
  match keys with
  | [] => []
  | [k] => [Bound k]
  | k :: rest => Bound k :: raw (js ",") ++ joinBound rest
  end.

(** [[...new Set(keys)]]: the first of each, in order. *)
Fixpoint distinctFrom (seen : list JSText) (keys : list JSText) : list JSText :=
  match keys with
  | [] => []
  | k :: rest => if decide (k ∈ seen) then distinctFrom seen rest else k :: distinctFrom (k :: seen) rest
  end.

Definition distinct (keys : list JSText) : list JSText := distinctFrom [] keys.

Definition selectSql (table column : Sql) (spec : RowLockSpec) : Sql :=
  raw (js "SELECT ") ++ column ++ raw (js " AS ") ++ raw (quoted_name (js "key")) ++ raw (js " FROM ") ++ table ++
  raw (js " WHERE ") ++ column ++ raw (js " IN (") ++ joinBound (distinct (rl_keys spec)) ++ raw (js ") ORDER BY ") ++ column ++
  raw (js " " ++ STRENGTH_SQL (strengthOf spec) ++ WAIT_SQL (policyOf spec)).

(** What [lockRows] sends, in order; nothing for no keys. *)
Definition lockStatements (spec : RowLockSpec) : RowLockError + list Sql :=
  match rl_keys spec with
  | [] => inr []
  | _ =>
      match quoteIdentifier "table" (rl_table spec), quoteIdentifier "column" (rl_keyColumn spec) with
      | inl e, _ => inl e
      | _, inl e => inl e
      | inr table, inr column =>
          match policyOf spec, rl_waitTimeoutMs spec with
          | Wait, Some ms =>
              match applyLockTimeout ms with
              | inl e => inl e
              | inr set_ => inr [set_; selectSql table column spec]
              end
          | _, _ => inr [selectSql table column spec]
          end
      end
  end.

(** ** What the server's answers become *)

Definition readPath (root : option JsonValue) (path : list string) : option JsonValue :=
  foldl (fun current segment =>
    match current with
    | Some (JObject members) => snd <$> List.find (fun m => bool_decide (m.1 = segment)) members
    | _ => None
    end) root path.

Definition isAlnum (c : N) : bool := bool_decide (65 <= c <= 90)%N || bool_decide (97 <= c <= 122)%N || bool_decide (48 <= c <= 57)%N.

Fixpoint takeAlnum (t : JSText) : JSText * JSText :=
  match t with
  | c :: rest => if isAlnum c then let '(w, r) := takeAlnum rest in (c :: w, r) else ([], t)
  | [] => ([], [])
  end.

(** The code that [Code: `...`] shows, where it begins here. *)
Definition codeHere (t : JSText) : option JSText :=
  let prefix := js "Code: `" in
  if decide (take (length prefix) t = prefix) then
    match takeAlnum (drop (length prefix) t) with
    | (c :: code, 96%N :: _) => Some (c :: code)
    | _ => None
    end
  else None.

Fixpoint findCode (t : JSText) : option JSText :=
  match codeHere t with
  | Some code => Some code
  | None => match t with [] => None | _ :: rest => findCode rest end
  end.

Definition extractSqlState (error : JsonValue) : option JSText :=
  match error with
  | JObject _ | JArray _ =>
      match readPath (Some error) ["meta"; "driverAdapterError"; "cause"; "code"]%string with
      | Some (JString code) => Some code
      | _ => match readPath (Some error) ["message"]%string with Some (JString message) => findCode message | _ => None end
      end
  | _ => None
  end.

Definition LOCK_NOT_AVAILABLE : JSText := js "55P03".
Definition DEADLOCK_DETECTED : JSText := js "40P01".

Definition translateLockError (error : JsonValue) (spec : RowLockSpec) : RowLockError :=
  let sqlState := extractSqlState error in
  if decide (sqlState = Some LOCK_NOT_AVAILABLE) then LockUnavailableError (rl_table spec) (rl_keys spec)
  else if decide (sqlState = Some DEADLOCK_DETECTED) then DeadlockDetectedError (rl_table spec)
  else Unrecognised error.

(** [lockRows], given what the server answers each statement with: rows, or an
    error. *)
Definition lockRows (execute : Sql -> JsonValue + list JSText) (spec : RowLockSpec) : RowLockError + list JSText :=
  match lockStatements spec with
  | inl e => inl e
  | inr statements =>
      foldl (fun result statement =>
        match result with
        | inl e => inl e
        | inr _ => match execute statement with inl error => inl (translateLockError error spec) | inr rows => inr rows end
        end) (inr []) statements
  end.

(** ** How the server reads a statement *)

Inductive Token := Word (w : JSText) | Quoted (name : JSText) | Symbol (c : N) | Value (v : JSText).

Definition flush (word : JSText) : list Token := match word with [] => [] | _ => [Word word] end.

(** The scanner, with the word it is in, or the quoted name it is in.  Inside
    quotes a doubled quote stands for one. *)
Fixpoint lex (quoted : option JSText) (word : JSText) (s : Sql) : list Token :=
  match s with
  | [] => match quoted with Some name => [Quoted name] | None => flush word end
  | Bound v :: rest => flush word ++ Value v :: lex None [] rest
  | Ch c :: rest =>
      match quoted with
      | Some name =>
          if decide (c = dquote) then
            match rest with
            | Ch d :: rest' => if decide (d = dquote) then lex (Some (name ++ [dquote])) [] rest' else Quoted name :: lex None [] rest
            | _ => Quoted name :: lex None [] rest
            end
          else lex (Some (name ++ [c])) [] rest
      | None =>
          if decide (c = dquote) then flush word ++ lex (Some []) [] rest
          else if decide (c = 32%N) then flush word ++ lex None [] rest
          else if isWordChar c then lex None (word ++ [c]) rest
          else flush word ++ Symbol c :: lex None [] rest
      end
  end.

Definition tokens (s : Sql) : list Token := lex None [] s.

(** The statement that is meant. *)
Definition words (l : list string) : list Token := (fun w => Word (js w)) <$> l.

Fixpoint valueList (keys : list JSText) : list Token :=
  match keys with [] => [] | [k] => [Value k] | k :: rest => Value k :: Symbol 44 :: valueList rest end.

Definition meantTail (s : RowLockStrength) (w : RowLockWaitPolicy) : list Token :=
  words (match s with
         | Update => ["FOR"; "UPDATE"] | NoKeyUpdate => ["FOR"; "NO"; "KEY"; "UPDATE"]
         | Share => ["FOR"; "SHARE"] | KeyShare => ["FOR"; "KEY"; "SHARE"] end)%string ++
  words (match w with Wait => [] | NoWait => ["NOWAIT"] | SkipLocked => ["SKIP"; "LOCKED"] end)%string.

Definition meant (spec : RowLockSpec) : list Token :=
  let column := Quoted (rl_keyColumn spec) in
  words ["SELECT"]%string ++ [column] ++ words ["AS"]%string ++ [Quoted (js "key")] ++ words ["FROM"]%string ++ [Quoted (rl_table spec)] ++
  words ["WHERE"]%string ++ [column] ++ (words ["IN"]%string ++ [Symbol 40]) ++ valueList (distinct (rl_keys spec)) ++
  ([Symbol 41] ++ words ["ORDER"; "BY"]%string) ++ [column] ++ meantTail (strengthOf spec) (policyOf spec).

Lemma lex_name name cur rest :
  forallb isWordChar name = true -> (match rest with Ch d :: _ => d <> dquote | _ => True end) ->
  lex (Some cur) [] (raw (name ++ [dquote]) ++ rest) = Quoted (cur ++ name) :: lex None [] rest.
Proof.
  intros Hn Hr. revert cur. induction name as [|c name IH]; intros cur.
  - cbn. rewrite app_nil_r. destruct rest as [|[d|v] rest]; [by rewrite decide_True| |by rewrite decide_True]. cbn in Hr. by rewrite decide_True, decide_False.
  - cbn [forallb] in Hn. apply andb_true_iff in Hn as [Hc Hn]. cbn. rewrite decide_False.
    + change (Ch <$> name ++ [dquote]) with (raw (name ++ [dquote])). rewrite IH by done. by rewrite <-app_assoc.
    + intros ->. by vm_compute in Hc.
Qed.

Lemma lex_identifier name rest :
  safeIdentifier name = true -> (match rest with Ch d :: _ => d <> dquote | _ => True end) ->
  lex None [] (raw (quoted_name name) ++ rest) = [Quoted name] ++ lex None [] rest.
Proof.
  intros Hn Hr. change (raw (quoted_name name) ++ rest) with (Ch dquote :: raw (name ++ [dquote]) ++ rest).
  cbn [lex flush app]. rewrite decide_True by done. apply (lex_name name []); [|done].
  destruct name as [|c name]; [done|]. cbn in *. apply andb_true_iff in Hn as [H1 H2]. unfold isWordChar at 1. by rewrite H1.
Qed.

Lemma lex_values keys rest : keys <> [] -> lex None [] (joinBound keys ++ rest) = valueList keys ++ lex None [] rest.
Proof.
  induction keys as [|k [|l keys] IH]; intros Hne; [done|done|].
  change (lex None [] (Bound k :: Ch 44 :: joinBound (l :: keys) ++ rest) = Value k :: Symbol 44 :: valueList (l :: keys) ++ lex None [] rest).
  cbn [lex flush app]. rewrite !decide_False by done. change (isWordChar 44) with false. cbn [flush app]. by rewrite IH.
Qed.

(** Text outside quotes that leaves no word open. *)
Fixpoint settled (open : bool) (t : JSText) : bool :=
  match t with
  | [] => negb open
  | c :: t => negb (bool_decide (c = dquote)) && settled (isWordChar c) t
  end.

Lemma lex_text t w rest :
  settled (bool_decide (w <> [])) t = true -> lex None w (raw t ++ rest) = lex None w (raw t) ++ lex None [] rest.
Proof.
  revert w. induction t as [|c t IH]; intros w Ht; cbn [settled] in Ht.
  - destruct w; [done|]. rewrite bool_decide_true in Ht by done. done.
  - apply andb_true_iff in Ht as [Hq Ht]. apply negb_true_iff, bool_decide_eq_false in Hq.
    change (raw (c :: t)) with (Ch c :: raw t). cbn [app lex]. rewrite !(decide_False (P := c = dquote)) by done. case_decide as Hs.
    + subst c. rewrite <-app_assoc. f_equal. by apply IH.
    + destruct (isWordChar c) eqn:Hw.
      * apply IH. rewrite bool_decide_true; [done|]. by destruct w.
      * rewrite <-app_assoc. f_equal. cbn [app]. f_equal. by apply IH.
Qed.

Lemma distinctFrom_spec seen keys k : k ∈ distinctFrom seen keys <-> k ∈ keys /\ k ∉ seen.
Proof.
  revert seen. induction keys as [|x keys IH]; intros seen; cbn; [set_solver|].
  case_decide as Hx; [rewrite IH; set_solver|]. rewrite elem_of_cons, IH, not_elem_of_cons, elem_of_cons.
  destruct (decide (k = x)) as [->|]; naive_solver.
Qed.

Lemma distinctFrom_NoDup seen keys : NoDup (distinctFrom seen keys).
Proof.
  revert seen. induction keys as [|x keys IH]; intros seen; cbn; [constructor|]. case_decide; [done|]. constructor; [|done].
  rewrite distinctFrom_spec. set_solver.
Qed.

Lemma distinct_nonempty keys : keys <> [] -> distinct keys <> [].
Proof.
  destruct keys as [|k keys]; [done|]. intros _ H. assert (k ∈ distinct (k :: keys)) as Hin by (apply distinctFrom_spec; set_solver).
  rewrite H in Hin. by apply not_elem_of_nil in Hin.
Qed.

Lemma tail_tokens s w : lex None [] (raw (js " " ++ STRENGTH_SQL s ++ WAIT_SQL w)) = meantTail s w.
Proof. destruct s, w; by vm_compute. Qed.

Lemma selectSql_tokens spec :
  rl_keys spec <> [] -> safeIdentifier (rl_table spec) = true -> safeIdentifier (rl_keyColumn spec) = true ->
  tokens (selectSql (raw (quoted_name (rl_table spec))) (raw (quoted_name (rl_keyColumn spec))) spec) = meant spec.
Proof.
  intros Hk Ht Hc. unfold tokens, selectSql, meant. pose proof (distinct_nonempty _ Hk) as Hd.
  rewrite lex_text by by vm_compute. f_equal. rewrite lex_identifier by done. f_equal.
  rewrite lex_text by by vm_compute. f_equal.
  rewrite lex_identifier by done. f_equal. rewrite lex_text by by vm_compute. f_equal. rewrite lex_identifier by done. f_equal.
  rewrite lex_text by by vm_compute. f_equal. rewrite lex_identifier by done. f_equal.
  rewrite lex_text by by vm_compute. f_equal. rewrite lex_values by done. f_equal.
  rewrite lex_text by by vm_compute. f_equal. rewrite lex_identifier by done. f_equal. apply tail_tokens.
Qed.

(** Whatever text the names and keys are: the last statement that is sent reads
    as the one that is meant, with the keys as values. *)
Lemma statement_reads spec sent :
  lockStatements spec = inr sent -> rl_keys spec <> [] -> exists s, last sent = Some s /\ tokens s = meant spec.
Proof.
  intros H Hk. unfold lockStatements, quoteIdentifier in H. destruct (rl_keys spec) eqn:E; [done|]. rewrite <-E in *.
  destruct (safeIdentifier (rl_table spec)) eqn:Ht; [|done]. destruct (safeIdentifier (rl_keyColumn spec)) eqn:Hc; [|done].
  exists (selectSql (raw (quoted_name (rl_table spec))) (raw (quoted_name (rl_keyColumn spec))) spec).
  split; [|by apply selectSql_tokens].
  destruct (policyOf spec), (rl_waitTimeoutMs spec) as [ms|]; try by injection H as <-.
  destruct (applyLockTimeout ms); [done|]. by injection H as <-.
Qed.

(** ** What the statement asks for *)

Record Query := {
  q_table : JSText;
  q_column : JSText;
  q_keys : list JSText;
  q_ordered : bool;                            (* by the key column *)
  q_strength : RowLockStrength;
  q_policy : RowLockWaitPolicy }.

#[local] Instance token_eq_dec : EqDecision Token.
Proof. solve_decision. Defined.

Fixpoint skip (expected ts : list Token) : option (list Token) :=
  match expected, ts with
  | [], _ => Some ts
  | e :: expected, t :: ts => if decide (e = t) then skip expected ts else None
  | _, [] => None
  end.

Definition parseName (ts : list Token) : option (JSText * list Token) :=
  match ts with Quoted name :: ts => Some (name, ts) | _ => None end.

(** Values with commas between them, up to a closing parenthesis. *)
Fixpoint parseValues (ts : list Token) : option (list JSText * list Token) :=
  match ts with
  | Value k :: Symbol c :: rest =>
      if decide (c = 41%N) then Some ([k], rest)
      else if decide (c = 44%N) then (fun p => (k :: p.1, p.2)) <$> parseValues rest
      else None
  | _ => None
  end.

Definition parseTail (ts : list Token) : option (RowLockStrength * RowLockWaitPolicy) :=
  List.find (fun sw => bool_decide (meantTail sw.1 sw.2 = ts))
    (list_prod [Update; NoKeyUpdate; Share; KeyShare] [Wait; NoWait; SkipLocked]).

Definition parseSelect (ts : list Token) : option Query :=
  ts ← skip (words ["SELECT"]%string) ts; '(column, ts) ← parseName ts;
  ts ← skip (words ["AS"]%string) ts; '(_, ts) ← parseName ts;
  ts ← skip (words ["FROM"]%string) ts; '(table, ts) ← parseName ts;
  ts ← skip (words ["WHERE"]%string) ts; '(filtered, ts) ← parseName ts;
  ts ← skip (words ["IN"]%string ++ [Symbol 40]) ts; '(keys, ts) ← parseValues ts;
  '(ordered, ts) ← match skip (words ["ORDER"; "BY"]%string) ts with
                   | Some ts => '(by_, ts) ← parseName ts; Some (bool_decide (by_ = column), ts)
                   | None => Some (false, ts)
                   end;
  '(strength, policy) ← parseTail ts;
  if decide (filtered = column) then
    Some {| q_table := table; q_column := column; q_keys := keys; q_ordered := ordered; q_strength := strength; q_policy := policy |}
  else None.

(** What a call of [lockRows] means to ask. *)
Definition query_of (spec : RowLockSpec) : Query :=
  {| q_table := rl_table spec; q_column := rl_keyColumn spec; q_keys := distinct (rl_keys spec); q_ordered := true;
     q_strength := strengthOf spec; q_policy := policyOf spec |}.

Lemma skip_app p ts : skip p (p ++ ts) = Some ts.
Proof. induction p as [|t p IH]; cbn; [by destruct ts|]. by rewrite decide_True. Qed.

Lemma parseValues_list keys ts : keys <> [] -> parseValues (valueList keys ++ Symbol 41 :: ts) = Some (keys, ts).
Proof.
  induction keys as [|k [|l keys] IH]; intros Hne; [done|done|].
  change (valueList (k :: l :: keys) ++ Symbol 41 :: ts) with (Value k :: Symbol 44 :: (valueList (l :: keys) ++ Symbol 41 :: ts)).
  cbn [parseValues]. rewrite decide_False, decide_True by done. by rewrite IH.
Qed.

Lemma parseTail_meant s w : parseTail (meantTail s w) = Some (s, w).
Proof. destruct s, w; by vm_compute. Qed.

Lemma parse_meant spec : rl_keys spec <> [] -> parseSelect (meant spec) = Some (query_of spec).
Proof.
  intros Hk%distinct_nonempty. unfold parseSelect, meant. rewrite skip_app. cbn [mbind option_bind app parseName].
  rewrite skip_app. cbn [mbind option_bind app parseName]. rewrite skip_app. cbn [mbind option_bind app parseName].
  rewrite skip_app. cbn [mbind option_bind app parseName]. rewrite skip_app. cbn [mbind option_bind].
  match goal with |- context [parseValues (_ ++ ?x)] =>
    change x with (Symbol 41 :: words ["ORDER"; "BY"]%string ++ Quoted (rl_keyColumn spec) :: meantTail (strengthOf spec) (policyOf spec)) end.
  rewrite parseValues_list by done. cbn [mbind option_bind]. rewrite skip_app. cbn [mbind option_bind app parseName].
  rewrite parseTail_meant. cbn [mbind option_bind]. rewrite decide_True by done. by rewrite bool_decide_true.
Qed.

(** ** The server *)

(** Which locks exclude each other, from the server's documentation. *)
Definition conflicts (a b : RowLockStrength) : bool :=
  match a, b with
  | Update, _ | _, Update => true
  | NoKeyUpdate, (NoKeyUpdate | Share) | Share, NoKeyUpdate => true
  | _, _ => false
  end.

Section Server.
(** The order of text, a rank for tables, and the column of a table that has a
    unique index. *)
Context (collate : relation JSText) `{!RelDecision collate, !Transitive collate, !Total collate, !AntiSymm (=) collate}.
Context (rank : JSText -> nat) (key_of : JSText -> JSText).

(** A row: its table, and its columns with their values.  A column that is not
    there is null. *)
Definition Row : Type := JSText * list (JSText * JSText).

Definition column_of (row : Row) (column : JSText) : option JSText := snd <$> List.find (fun m => bool_decide (m.1 = column)) row.2.

Definition value_of (column : JSText) (row : Row) : JSText := default [] (column_of row column).

Record Tx := {
  tx_plan : list RowLockSpec;                  (* calls of [lockRows] still to come *)
  tx_spec : RowLockSpec;                       (* the last call that began *)
  tx_query : Query;                            (* the statement the server read *)
  tx_todo : list Row;                          (* rows it has still to lock *)
  tx_held : list (Row * RowLockStrength);
  tx_rows : list JSText;                       (* what it will return *)
  tx_capped : bool;                            (* whether a [lock_timeout] is in force *)
  tx_failed : option RowLockError }.

Definition tx_strength (t : Tx) : RowLockStrength := q_strength (tx_query t).
Definition tx_policy (t : Tx) : RowLockWaitPolicy := q_policy (tx_query t).

Record Server := { sv_rows : list Row; sv_txs : gmap nat Tx }.

Definition empty_server (rows : list Row) : Server := {| sv_rows := rows; sv_txs := ∅ |}.

Inductive ServerEvent :=
| Open (id : nat) (plan : list RowLockSpec)
| Statement (id : nat)
| LockNext (id : nat)
| LockTimeout (id : nat)
| End (id : nat) (deleted : list Row)
| Insert (row : Row).

(** No call yet. *)
Definition idle : RowLockSpec :=
  {| rl_table := []; rl_keyColumn := []; rl_keys := []; rl_strength := None; rl_wait := None; rl_waitTimeoutMs := None |}.

Definition opened (plan : list RowLockSpec) : Tx :=
  {| tx_plan := plan; tx_spec := idle; tx_query := query_of idle; tx_todo := []; tx_held := []; tx_rows := []; tx_capped := false;
     tx_failed := None |}.

Definition with_tx (s : Server) (id : nat) (t : Tx) : Server := {| sv_rows := sv_rows s; sv_txs := <[id := t]> (sv_txs s) |}.

(** The call in progress rejects, and the transaction has nothing left but to
    end. *)
Definition failed (t : Tx) (e : RowLockError) : Tx :=
  {| tx_plan := []; tx_spec := tx_spec t; tx_query := tx_query t; tx_todo := []; tx_held := tx_held t; tx_rows := [];
     tx_capped := tx_capped t; tx_failed := Some e |}.

(** Whether another transaction holds [row] in a way that excludes [mode]. *)
Definition holds_against (row : Row) (mode : RowLockStrength) (t : Tx) : bool :=
  existsb (fun h => bool_decide (h.1 = row) && conflicts mode h.2) (tx_held t).

Definition blockers (s : Server) (id : nat) (row : Row) (mode : RowLockStrength) : list nat :=
  (filter (fun kv => kv.1 <> id /\ holds_against row mode kv.2 = true) (map_to_list (sv_txs s))).*1.

(** A [lock_timeout] of zero is none. *)
Definition cap_of (spec : RowLockSpec) (capped : bool) : bool :=
  match policyOf spec, rl_waitTimeoutMs spec with
  | Wait, Some (Whole ms) => bool_decide (0 < ms)%Z
  | _, _ => capped
  end.

Definition in_column (column : JSText) : relation Row := fun r1 r2 => collate (value_of column r1) (value_of column r2).

#[local] Instance in_column_dec column : RelDecision (in_column column).
Proof. intros r1 r2. unfold in_column. apply _. Defined.

Definition selects (q : Query) (row : Row) : bool :=
  bool_decide (row.1 = q_table q) && match column_of row (q_column q) with Some k => bool_decide (k ∈ q_keys q) | None => false end.

(** The rows of the statement, in the order in which it locks them; they are
    there when it begins. *)
Definition candidates (s : Server) (q : Query) : list Row :=
  let present := filter (fun row => selects q row = true) (sv_rows s) in
  if q_ordered q then merge_sort (in_column (q_column q)) present else present.

(** A call of [lockRows] begins: the server runs what it reads. *)
Definition begin_statement (s : Server) (t : Tx) (spec : RowLockSpec) (rest : list RowLockSpec) : Tx :=
  match lockStatements spec with
  | inl e => failed t e
  | inr sent =>
      match last sent with
      | None =>
          {| tx_plan := rest; tx_spec := spec; tx_query := tx_query t; tx_todo := []; tx_held := tx_held t;
             tx_rows := []; tx_capped := tx_capped t; tx_failed := None |}
      | Some statement =>
          match parseSelect (tokens statement) with
          | None => failed t (Unrecognised JNull)
          | Some q =>
              {| tx_plan := rest; tx_spec := spec; tx_query := q; tx_todo := candidates s q;
                 tx_held := tx_held t; tx_rows := []; tx_capped := cap_of spec (tx_capped t); tx_failed := None |}
          end
      end
  end.

Definition advance (t : Tx) (rest : list Row) (taken : option Row) : Tx :=
  {| tx_plan := tx_plan t; tx_spec := tx_spec t; tx_query := tx_query t; tx_todo := rest;
     tx_held := (match taken with Some r => [(r, tx_strength t)] | None => [] end) ++ tx_held t;
     tx_rows := tx_rows t ++ (match taken with Some r => [value_of (q_column (tx_query t)) r] | None => [] end);
     tx_capped := tx_capped t; tx_failed := tx_failed t |}.

(** The server's refusal, and what [lockRows] makes of it. *)
Definition lock_not_available : JsonValue :=
  JObject [("message", JString (js "Raw query failed. Code: `55P03`."))]%string.

Definition unavailable (t : Tx) : RowLockError := translateLockError lock_not_available (tx_spec t).

(** [row] is there, or the unique index refuses it. *)
Definition clashes (s : Server) (row : Row) : bool :=
  existsb (fun r => bool_decide (r = row \/ r.1 = row.1 /\ is_Some (column_of row (key_of row.1)) /\ column_of r (key_of row.1) = column_of row (key_of row.1)))
    (sv_rows s).

Definition server_step (s : Server) (e : ServerEvent) : option Server :=
  match e with
  | Open id plan => if decide (sv_txs s !! id = None) then Some (with_tx s id (opened plan)) else None
  | Statement id =>
      match sv_txs s !! id with
      | Some t => match tx_todo t, tx_plan t with [], spec :: rest => Some (with_tx s id (begin_statement s t spec rest)) | _, _ => None end
      | None => None
      end
  | LockNext id =>
      match sv_txs s !! id with
      | Some t =>
          match tx_todo t with
          | [] => None
          | row :: rest =>
              match blockers s id row (tx_strength t) with
              | _ :: _ =>
                  match tx_policy t with
                  | Wait => None
                  | NoWait => Some (with_tx s id (failed t (unavailable t)))
                  | SkipLocked => Some (with_tx s id (advance t rest None))
                  end
              | [] => Some (with_tx s id (advance t rest (if decide (row ∈ sv_rows s) then Some row else None)))
              end
          end
      | None => None
      end
  | LockTimeout id =>
      match sv_txs s !! id with
      | Some t =>
          match tx_todo t with
          | row :: _ =>
              if tx_capped t && bool_decide (blockers s id row (tx_strength t) <> []) then Some (with_tx s id (failed t (unavailable t))) else None
          | [] => None
          end
      | None => None
      end
  | End id deleted =>
      match sv_txs s !! id with
      | Some t =>
          if decide (Forall (fun r => (r, Update) ∈ tx_held t) deleted) then
            Some {| sv_rows := filter (fun r => r ∉ deleted) (sv_rows s); sv_txs := delete id (sv_txs s) |}
          else None
      | None => None
      end
  | Insert row => if clashes s row then None else Some {| sv_rows := row :: sv_rows s; sv_txs := sv_txs s |}
  end.

Fixpoint serve_all (s : Server) (es : list ServerEvent) : option Server :=
  match es with
  | [] => Some s
  | e :: es => match server_step s e with Some s' => serve_all s' es | None => None end
  end.

(** Transaction [a] waits for [b]. *)
Definition waits (s : Server) (a b : nat) : Prop :=
  exists t row rest, sv_txs s !! a = Some t /\ tx_todo t = row :: rest /\ tx_policy t = Wait /\ b ∈ blockers s a row (tx_strength t).

(** ** Why nobody waits in a circle *)

Definition key (row : Row) : JSText := value_of (key_of row.1) row.

(** The order in which a plan comes by its rows. *)
Definition before (r1 r2 : Row) : Prop := (rank r1.1 < rank r2.1)%nat \/ (r1.1 = r2.1 /\ collate (key r1) (key r2) /\ key r1 <> key r2).

#[local] Instance before_dec : RelDecision before.
Proof using All. intros r1 r2. unfold before. apply _. Defined.

#[local] Instance before_trans : Transitive before.
Proof using All.
  intros r1 r2 r3 [H1|(H1 & H2 & H3)] [G1|(G1 & G2 & G3)]; unfold before; [left; lia|left; by rewrite <-G1|left; by rewrite H1|].
  right. split; [congruence|]. split; [by etrans|]. intros E. apply H3. apply (anti_symm collate); [done|]. by rewrite E.
Qed.

Lemma before_irrefl r : ~ before r r.
Proof using All. intros [H|(_ & _ & H)]; [lia|done]. Qed.

(** A row of [table] with key [k] comes before all that [spec] locks. *)
Definition earlier (table k : JSText) (spec : RowLockSpec) : Prop :=
  (rank table < rank (rl_table spec))%nat \/ (table = rl_table spec /\ forall k', k' ∈ rl_keys spec -> collate k k' /\ k <> k').

(** The plan takes its tables in the order of their rank, and where it comes
    back to a table, takes later keys than before. *)
Fixpoint ascending (plan : list RowLockSpec) : Prop :=
  match plan with
  | [] => True
  | spec :: rest => Forall (fun spec' => forall k, k ∈ rl_keys spec -> earlier (rl_table spec) k spec') rest /\ ascending rest
  end.

(** It locks the rows of a table by its indexed column. *)
Definition by_key (spec : RowLockSpec) : Prop := rl_keyColumn spec = key_of (rl_table spec).

Record tx_ok (t : Tx) : Prop := {
  ok_sorted : StronglySorted before (tx_todo t);
  ok_held : Forall (fun h => Forall (before h.1) (tx_todo t)) (tx_held t);
  ok_plan : ascending (tx_plan t);
  ok_columns : Forall by_key (tx_plan t);
  ok_later : Forall (fun spec => Forall (fun h => earlier h.1.1 (key h.1) spec) (tx_held t) /\
                                 Forall (fun r => earlier r.1 (key r) spec) (tx_todo t)) (tx_plan t);
  ok_todo : Forall (fun row => selects (tx_query t) row = true) (tx_todo t);
  ok_rows : Forall (fun k => exists row, (row, tx_strength t) ∈ tx_held t /\ row.1 = q_table (tx_query t) /\
                             column_of row (q_column (tx_query t)) = Some k) (tx_rows t) }.

(** No two rows of a table have the same key. *)
Definition keyed (rows : list Row) : Prop := NoDup rows /\ forall r1 r2 k,
  r1 ∈ rows -> r2 ∈ rows -> r1.1 = r2.1 -> column_of r1 (key_of r1.1) = Some k -> column_of r2 (key_of r2.1) = Some k -> r1 = r2.

(** No two hold locks that exclude each other. *)
Definition exclusive (s : Server) : Prop := forall a b ta tb row m m',
  a <> b -> sv_txs s !! a = Some ta -> sv_txs s !! b = Some tb -> (row, m) ∈ tx_held ta -> (row, m') ∈ tx_held tb -> conflicts m m' = false.

Record server_ok (s : Server) : Prop := { so_txs : map_Forall (fun _ => tx_ok) (sv_txs s); so_exclusive : exclusive s; so_keyed : keyed (sv_rows s) }.

Lemma conflicts_sym a b : conflicts a b = conflicts b a.
Proof. by destruct a, b. Qed.

Lemma elem_of_blockers s id row mode b :
  b ∈ blockers s id row mode <-> b <> id /\ exists t m, sv_txs s !! b = Some t /\ (row, m) ∈ tx_held t /\ conflicts mode m = true.
Proof.
  unfold blockers. rewrite list_elem_of_fmap. split.
  - intros ([k t] & -> & H). apply list_elem_of_filter in H as [[Hne Hh] Hin%elem_of_map_to_list]. split; [done|].
    unfold holds_against in Hh. apply existsb_exists in Hh as ([r m] & Hr%list_elem_of_In & Hc). cbn in Hc.
    apply andb_true_iff in Hc as [->%bool_decide_eq_true Hc]. eauto.
  - intros (Hne & t & m & Ht & Hm & Hc). exists (b, t). split; [done|]. apply list_elem_of_filter. split; [|by apply elem_of_map_to_list].
    split; [done|]. unfold holds_against. apply existsb_exists. exists (row, m). split; [by apply list_elem_of_In|].
    cbn. by rewrite bool_decide_true.
Qed.

Lemma failed_ok t e : tx_ok t -> tx_ok (failed t e).
Proof. intros _. split; cbn; [constructor| |done|constructor..]. apply Forall_true. intros. constructor. Qed.

Lemma selects_spec q row : selects q row = true <-> row.1 = q_table q /\ exists k, column_of row (q_column q) = Some k /\ k ∈ q_keys q.
Proof.
  unfold selects. rewrite andb_true_iff, bool_decide_eq_true. destruct (column_of row (q_column q)) as [k|]; [rewrite bool_decide_eq_true|]; naive_solver.
Qed.

Lemma candidates_spec s q row : row ∈ candidates s q <-> selects q row = true /\ row ∈ sv_rows s.
Proof using All.
  unfold candidates. destruct (q_ordered q); [rewrite merge_sort_Permutation|]; by rewrite list_elem_of_filter.
Qed.

#[local] Instance in_column_trans column : Transitive (in_column column).
Proof using All. intros r1 r2 r3. unfold in_column. apply transitivity. Qed.

#[local] Instance in_column_total column : Total (in_column column).
Proof using All. intros r1 r2. apply (total collate). Qed.

Lemma sorted_before rows table l :
  keyed rows -> NoDup l -> (forall row, row ∈ l -> row ∈ rows /\ row.1 = table /\ is_Some (column_of row (key_of table))) ->
  StronglySorted (in_column (key_of table)) l -> StronglySorted before l.
Proof using All.
  intros Hk Hnd Hl Hs. induction Hs as [|row l Hs IH Hrow]; [constructor|]. apply NoDup_cons in Hnd as [Hn Hnd].
  constructor; [by apply IH; [|set_solver]|]. rewrite Forall_forall in Hrow |- *. intros row' Hin. right.
  destruct (Hl row) as (H1 & H2 & k1 & H3); [set_solver|]. destruct (Hl row') as (G1 & G2 & k2 & G3); [set_solver|].
  unfold key. rewrite H2, G2. split_and!; [done|by apply Hrow|]. unfold value_of. rewrite H3, G3. cbn. intros ->.
  apply Hn. by rewrite (proj2 Hk row row' k2) by congruence.
Qed.

Lemma candidates_sorted s spec : keyed (sv_rows s) -> by_key spec -> StronglySorted before (candidates s (query_of spec)).
Proof using All.
  intros Hk Hs. apply (sorted_before (sv_rows s) (rl_table spec)); [done| | |].
  - unfold candidates. cbn. rewrite merge_sort_Permutation. apply NoDup_filter, Hk.
  - intros row [Hm Hin]%candidates_spec. apply selects_spec in Hm as (Ht & k & Hc & _). cbn in *. split_and!; [done..|].
    rewrite <-Hs. by exists k.
  - rewrite <-Hs. apply Sorted_StronglySorted; [apply _|]. apply Sorted_merge_sort. apply _.
Qed.

(** A candidate is one of the rows its call names. *)
Lemma candidates_named s spec row : by_key spec -> row ∈ candidates s (query_of spec) -> row.1 = rl_table spec /\ key row ∈ rl_keys spec.
Proof using All.
  intros Hs [(Ht & k & Hc & Hin)%selects_spec _]%candidates_spec. cbn in *. split; [done|]. unfold key, value_of.
  rewrite Ht, <-Hs, Hc. by apply distinctFrom_spec in Hin as [? _].
Qed.

(** What the server runs is the query that is meant. *)
Lemma statement_runs s t spec rest :
  (exists e, begin_statement s t spec rest = failed t e) \/ tx_todo (begin_statement s t spec rest) = [] /\
    tx_plan (begin_statement s t spec rest) = rest /\ tx_held (begin_statement s t spec rest) = tx_held t /\ tx_rows (begin_statement s t spec rest) = [] \/
  begin_statement s t spec rest =
    {| tx_plan := rest; tx_spec := spec; tx_query := query_of spec; tx_todo := candidates s (query_of spec);
       tx_held := tx_held t; tx_rows := []; tx_capped := cap_of spec (tx_capped t); tx_failed := None |}.
Proof using All.
  unfold begin_statement. destruct (lockStatements spec) as [e|sent] eqn:H; [by left; exists e|right].
  destruct (decide (rl_keys spec = [])) as [Hk|Hk].
  - left. unfold lockStatements in H. rewrite Hk in H. injection H as <-. done.
  - right. destruct (statement_reads spec sent H Hk) as (st & -> & ->). by rewrite parse_meant.
Qed.

Lemma statement_ok s t spec rest :
  keyed (sv_rows s) -> tx_ok t -> tx_todo t = [] -> tx_plan t = spec :: rest -> tx_ok (begin_statement s t spec rest).
Proof using All.
  intros Hkeys Ht Htodo Hplan. pose proof Ht as [_ _ H3 Hby H4 _ _]. rewrite Hplan in H3, Hby, H4. destruct H3 as [H3 H3'].
  apply Forall_cons in H4 as [[H4 _] H4']. apply Forall_cons in Hby as [Hby Hby'].
  destruct (statement_runs s t spec rest) as [[e ->]|[(E1 & E2 & E3 & E4)| ->]]; [by apply failed_ok| |].
  - split; rewrite ?E1, ?E2, ?E3, ?E4; [constructor|by apply Forall_true; intros; constructor|done|done| |constructor|constructor].
    eapply Forall_impl; [exact H4'|]. intros spec' [G _]. split; [done|constructor].
  - split; cbn [tx_todo tx_held tx_plan tx_rows tx_query]; [by apply candidates_sorted| |done|done| | |constructor].
    + eapply Forall_impl; [exact H4|]. intros [r m] Hr. apply Forall_forall. intros r' Hr'. apply candidates_named in Hr' as [Ht' Hk']; [|done].
      cbn in *. destruct Hr as [Hr|[Hr Hr']]; [left|right]; rewrite Ht'; [done|]. split; [done|]. by apply Hr'.
    + apply Forall_forall. intros spec' Hin. rewrite Forall_forall in H3, H4'. split; [by apply H4'|].
      apply Forall_forall. intros r Hr. apply candidates_named in Hr as [Ht' Hk']; [|done]. rewrite Ht'. by apply H3.
    + apply Forall_forall. by intros r [? _]%candidates_spec.
Qed.

Lemma tx_advance_ok t row rest taken : tx_ok t -> tx_todo t = row :: rest -> (taken = Some row \/ taken = None) -> tx_ok (advance t rest taken).
Proof using All.
  intros [H1 H2 H3 Hby H4 Hm H5] Htodo Htk. rewrite Htodo in *. apply StronglySorted_inv in H1 as [H1 H1']. apply Forall_cons in Hm as [Hm Hm'].
  assert (Forall (fun h => Forall (before h.1) rest) (tx_held t)) as H2'.
  { eapply Forall_impl; [exact H2|]. intros h Hh. by apply Forall_cons in Hh as [_ ?]. }
  split; cbn; [done| |done|done| |done|].
  - destruct Htk as [->| ->]; [by constructor|done].
  - eapply Forall_impl; [exact H4|]. intros spec [G1 G2]. apply Forall_cons in G2 as [G2 G2']. split; [|done].
    destruct Htk as [->| ->]; [by constructor|done].
  - apply Forall_app_2.
    + eapply Forall_impl; [exact H5|]. intros k (r & Hr & Hk). exists r. split; [|done]. apply elem_of_app. by right.
    + destruct Htk as [->| ->]; repeat constructor. apply selects_spec in Hm as (Ht & k & Hk & _). exists row.
      split; [left|]. split; [done|]. unfold value_of. by rewrite Hk.
Qed.

(** A change of one transaction that takes no lock, or a free one. *)
Lemma with_tx_ok s id t t' :
  server_ok s -> sv_txs s !! id = Some t -> tx_ok t' ->
  (forall row m, (row, m) ∈ tx_held t' -> (row, m) ∈ tx_held t \/ blockers s id row m = []) ->
  server_ok (with_tx s id t').
Proof using All.
  intros [Hok Hex Hkeys] Ht Ht' Hheld. split; cbn; [by apply map_Forall_insert_2| |done].
  assert (forall b tb row m m', b <> id -> sv_txs s !! b = Some tb -> (row, m) ∈ tx_held t' -> (row, m') ∈ tx_held tb -> conflicts m m' = false) as Hone.
  { intros b tb row m m' Hne Hb Hm Hm'. destruct (Hheld row m Hm) as [H|H]; [by apply (Hex id b t tb row)|].
    destruct (conflicts m m') eqn:Hc; [|done]. assert (b ∈ blockers s id row m) as Hin by (apply elem_of_blockers; eauto 10).
    rewrite H in Hin. by apply not_elem_of_nil in Hin. }
  intros a b ta tb row m m' Hne Ha Hb Hm Hm'. cbn in Ha, Hb. rewrite lookup_insert_Some in Ha, Hb.
  destruct Ha as [[-> <-]|[Ha1 Ha2]], Hb as [[-> <-]|[Hb1 Hb2]]; [done|by apply (Hone b tb row)| |by apply (Hex a b ta tb row)].
  rewrite conflicts_sym. by apply (Hone a ta row).
Qed.

(** What a transaction may open with. *)
Definition in_order (e : ServerEvent) : Prop := match e with Open _ plan => ascending plan /\ Forall by_key plan | _ => True end.

Lemma clashes_keyed s row : keyed (sv_rows s) -> clashes s row = false -> keyed (row :: sv_rows s).
Proof.
  intros [Hnd Hk] Hc. assert (row ∉ sv_rows s) as Hnew.
  { intros Hin. apply not_true_iff_false in Hc. apply Hc. unfold clashes. apply existsb_exists.
    exists row. split; [by apply list_elem_of_In|]. apply bool_decide_eq_true. by left. }
  assert (forall r k, r ∈ sv_rows s -> r.1 = row.1 -> column_of row (key_of row.1) = Some k -> column_of r (key_of r.1) <> Some k) as Hno.
  { intros r k Hr Ht Hrow Hcol. apply not_true_iff_false in Hc. apply Hc. unfold clashes. apply existsb_exists.
    exists r. split; [by apply list_elem_of_In|]. apply bool_decide_eq_true. right. rewrite <-Ht, Hcol, Ht, Hrow. eauto. }
  split; [by constructor|]. intros r1 r2 k H1 H2 Ht K1 K2. apply elem_of_cons in H1 as [->|H1], H2 as [->|H2].
  - done.
  - destruct (Hno r2 k); [done|by rewrite Ht|done|done].
  - destruct (Hno r1 k); done.
  - by apply (Hk r1 r2 k).
Qed.

Lemma server_step_ok s e s' :
  server_ok s -> in_order e -> server_step s e = Some s' -> server_ok s'.
Proof using All.
  intros [Hok Hex Hkeys] Hplan Hs. destruct e as [id plan|id|id|id|id deleted|row]; cbn in Hs.
  - case_decide as Hn; [|done]. injection Hs as <-. split; [| |done].
    + cbn. apply map_Forall_insert_2; [|done]. destruct Hplan. split; cbn; [constructor|constructor|done|done| |constructor|constructor].
      apply Forall_true. by split; constructor.
    + intros a b ta tb row m m' Hne Ha Hb Hm Hm'. cbn in Ha, Hb. rewrite lookup_insert_Some in Ha, Hb.
      destruct Ha as [[-> <-]|[_ Ha]]; [by apply not_elem_of_nil in Hm|]. destruct Hb as [[-> <-]|[_ Hb]]; [by apply not_elem_of_nil in Hm'|].
      by apply (Hex a b ta tb row).
  - destruct (sv_txs s !! id) as [t|] eqn:Ht; [|done]. destruct (tx_todo t) eqn:Htodo; [|done]. destruct (tx_plan t) as [|spec rest] eqn:Hp; [done|].
    injection Hs as <-. eapply with_tx_ok; [done|done|apply statement_ok; [done|by apply (Hok id)|done..]|].
    intros row m Hm. left. revert Hm. by destruct (statement_runs s t spec rest) as [[e ->]|[(_ & _ & -> & _)| ->]].
  - destruct (sv_txs s !! id) as [t|] eqn:Ht; [|done]. destruct (tx_todo t) as [|row rest] eqn:Htodo; [done|].
    pose proof (Hok id t Ht) as Hto. destruct (blockers s id row (tx_strength t)) eqn:Hb.
    + injection Hs as <-. eapply with_tx_ok; [done|done|eapply tx_advance_ok; [done..|]; case_decide; auto|].
      intros row' m Hm. cbn in Hm. case_decide; [|by left]. apply elem_of_cons in Hm as [[= -> ->]|Hm]; [by right|by left].
    + destruct (tx_policy t); [done| |]; injection Hs as <-; (eapply with_tx_ok; [done|done| |by left]).
      * by apply failed_ok.
      * eapply tx_advance_ok; [done..|]. by right.
  - destruct (sv_txs s !! id) as [t|] eqn:Ht; [|done]. destruct (tx_todo t) as [|row rest]; [done|]. destruct (_ && _); [|done].
    injection Hs as <-. eapply with_tx_ok; [done|done|apply failed_ok; by apply (Hok id)|by left].
  - destruct (sv_txs s !! id) as [t|] eqn:Ht; [|done]. case_decide; [|done]. injection Hs as <-.
    split; [by apply map_Forall_delete| |].
    2: { destruct Hkeys as [Hnd Hkeys]. split; [by apply NoDup_filter|]. intros r1 r2 k [_ H1]%list_elem_of_filter [_ H2]%list_elem_of_filter. by apply Hkeys. }
    intros a b ta tb row m m' Hne Ha Hb. cbn in Ha, Hb. rewrite lookup_delete_Some in Ha, Hb. destruct Ha, Hb. by apply (Hex a b ta tb row).
  - destruct (clashes s row) eqn:Hc; [done|]. injection Hs as <-. split; [done..|]. by apply clashes_keyed.
Qed.

Lemma serve_all_ok es s s' : server_ok s -> Forall in_order es -> serve_all s es = Some s' -> server_ok s'.
Proof using All.
  intros Hok Hes. revert s Hok. induction Hes as [|e es He _ IH]; intros s Hok Hs; cbn in Hs; [by simplify_eq|].
  destruct (server_step s e) as [s1|] eqn:E; [|done]. eapply IH; [|done]. by eapply server_step_ok.
Qed.

Definition next_row (s : Server) (id : nat) : option Row := sv_txs s !! id ≫= fun t => head (tx_todo t).

(** Whoever is waited for, and waits, waits for a later row. *)
Lemma waits_later s a b c : server_ok s -> waits s a b -> waits s b c ->
  exists ra rb, next_row s a = Some ra /\ next_row s b = Some rb /\ before ra rb.
Proof using All.
  intros [Hok _ _] (t & row & rest & Ht & Htodo & _ & Hb) (t' & row' & rest' & Ht' & Htodo' & _). exists row, row'.
  unfold next_row. rewrite Ht, Ht'. cbn. rewrite Htodo, Htodo'. split_and!; [done..|].
  apply elem_of_blockers in Hb as (_ & tb & m & Htb & Hm & _). assert (tb = t') as -> by congruence.
  pose proof (ok_held _ (Hok b t' Ht')) as Hh. rewrite Forall_forall in Hh. specialize (Hh _ Hm). rewrite Htodo' in Hh.
  by apply Forall_cons in Hh as [? _].
Qed.

Lemma waits_chain s a b : server_ok s -> tc (waits s) a b -> (exists c, waits s b c) ->
  exists ra rb, next_row s a = Some ra /\ next_row s b = Some rb /\ before ra rb.
Proof using All.
  intros Hok Htc Hc. induction Htc as [a b Hab|a b d Hab Hbd IH].
  - destruct Hc as [c Hc]. by eapply waits_later.
  - destruct (IH Hc) as (rb & rd & H1 & H2 & H3). assert (exists c', waits s b c') as [c' Hc'] by (inversion Hbd; eauto).
    destruct (waits_later s a b c' Hok Hab Hc') as (ra & rb' & G1 & G2 & G3). exists ra, rd. split_and!; [done..|].
    assert (rb = rb') as <- by congruence. by etrans.
Qed.

Definition is_waiting (s : Server) (id : nat) : bool :=
  match sv_txs s !! id with
  | Some t => match tx_todo t with row :: _ => bool_decide (tx_policy t = Wait /\ blockers s id row (tx_strength t) <> []) | [] => false end
  | None => false
  end.

Lemma is_waiting_spec s id : is_waiting s id = true <-> exists b, waits s id b.
Proof.
  unfold is_waiting, waits. destruct (sv_txs s !! id) as [t|]; [|split; [done|by intros (b & ? & ? & ? & ? & _)]].
  destruct (tx_todo t) as [|row rest] eqn:Ht; [split; [done|intros (b & t' & row & rest & [= <-] & Ht' & _); congruence]|].
  rewrite bool_decide_eq_true. split.
  - intros [Hp Hb]. destruct (blockers s id row (tx_strength t)) as [|b l] eqn:E; [done|]. exists b, t, row, rest. rewrite E. set_solver.
  - intros (b & t' & row' & rest' & [= <-] & Ht' & Hp & Hb). rewrite Ht in Ht'. injection Ht' as <- <-. split; [done|]. intros E. rewrite E in Hb. by apply not_elem_of_nil in Hb.
Qed.

(** The latest row anybody waits for is held by one who does not wait. *)
Lemma someone_moves s a b : server_ok s -> waits s a b -> exists c d, waits s c d /\ forall e, ~ waits s d e.
Proof using All.
  intros Hok Hab. set (X := filter (fun id => is_waiting s id = true) (dom (sv_txs s))).
  assert (forall id, id ∈ X <-> exists b, waits s id b) as HX.
  { intros id. unfold X. rewrite elem_of_filter, is_waiting_spec. split; [by intros [? _]|]. intros [b' Hb']. split; [eauto|].
    destruct Hb' as (t & ? & ? & Ht & _). by eapply elem_of_dom_2. }
  set (R := fun x y : nat => match next_row s x, next_row s y with Some rx, Some ry => before ry rx | _, _ => False end).
  assert (Transitive R) as HR.
  { intros x y z. unfold R. destruct (next_row s x), (next_row s y), (next_row s z); try done. intros. by etrans. }
  assert (forall x y, Decision (R x y)) as HD.
  { intros x y. unfold R. destruct (next_row s x), (next_row s y); apply _. }
  destruct (minimal_exists_elem_of R X) as (c & Hc & Hmin); [intros H; assert (a ∈ X) by (apply HX; eauto); set_solver|].
  apply HX in Hc as [d Hd]. exists c, d. split; [done|]. intros e He.
  destruct (waits_later s c d e Hok Hd He) as (rc & rd & H1 & H2 & H3).
  assert (R d c) as Hdc by (unfold R; by rewrite H1, H2).
  assert (d ∈ X) as HdX by (apply HX; eauto). specialize (Hmin d HdX Hdc). unfold R in Hmin. rewrite H1, H2 in Hmin.
  eapply before_irrefl. by etrans.
Qed.

Lemma empty_server_ok rows : keyed rows -> server_ok (empty_server rows).
Proof. intros Hk. split; [apply map_Forall_empty| |done]. intros a b ta tb row m m' _ Ha. cbn in Ha. by rewrite lookup_empty in Ha. Qed.

(** ** Properties *)

(** C34: transactions that lock rows only with [lockRows] never deadlock, if
    they keep one common order: each table has one indexed column without
    duplicates, by which every call locks it; every transaction takes the tables
    in the order of one ranking; and if it calls [lockRows] again for a table it
    has locked rows of, then only for later keys.  Within a call the order is
    [lockRows]'s own: the server runs what it reads in the text that was sent,
    and locks in the order the text asks for.  Whatever rows the transactions
    want, with whatever strengths and policies, while others are inserted and
    deleted, and however their statements interleave, nobody waits for
    themselves through others; while anybody waits, somebody is waited for who
    does not wait; two transactions never hold locks that exclude each other;
    and a key that a statement returns is that of a row it has locked, with the
    strength asked for, until the transaction ends. *)
Theorem row_locks_never_deadlock rows events s :
  keyed rows -> Forall in_order events -> serve_all (empty_server rows) events = Some s ->
  (forall id, ~ tc (waits s) id id) /\
  (forall a b, waits s a b -> exists c d, waits s c d /\ forall e, ~ waits s d e) /\
  exclusive s /\
  (forall id t k, sv_txs s !! id = Some t -> k ∈ tx_rows t ->
    exists row, (row, tx_strength t) ∈ tx_held t /\ row.1 = q_table (tx_query t) /\ column_of row (q_column (tx_query t)) = Some k).
Proof using All.
  intros Hk He Hs. pose proof (serve_all_ok _ _ _ (empty_server_ok rows Hk) He Hs) as Hok. split_and!.
  - intros id Htc. assert (exists c, waits s id c) as Hc by (inversion Htc; eauto).
    destruct (waits_chain s id id Hok Htc Hc) as (ra & rb & H1 & H2 & H3). assert (ra = rb) as <- by congruence. by eapply before_irrefl.
  - intros a b. by apply someone_moves.
  - apply Hok.
  - intros id t k Ht Hin. pose proof (ok_rows _ (so_txs _ Hok id t Ht)) as Hr. rewrite Forall_forall in Hr. auto.
Qed.
End Server.

(** ** Examples *)

(** The two rows that the rotation of a refresh token locks. *)
Definition lock_row (table column key : string) : RowLockSpec :=
  {| rl_table := js table; rl_keyColumn := js column; rl_keys := [js key]; rl_strength := Some NoKeyUpdate; rl_wait := None;
     rl_waitTimeoutMs := Some (Whole 2000) |}.

Definition rotation (token family : string) : list RowLockSpec :=
  [lock_row "refresh_tokens" "token" token; lock_row "refresh_token_families" "id" family].

Definition table_rank (table : JSText) : nat := if decide (table = js "refresh_tokens") then 0 else 1.

Definition table_key (table : JSText) : JSText := if decide (table = js "refresh_tokens") then js "token" else js "id".

Definition token_row (id token : string) : Row := (js "refresh_tokens", [(js "id", js id); (js "token", js token)]).

Definition token_rows : list Row :=
  [token_row "2" "t1"; token_row "1" "t2"; (js "refresh_token_families", [(js "id", js "f")])].

Lemma token_rows_keyed : keyed table_key token_rows.
Proof.
  split; [apply (bool_decide_unpack _); by vm_compute|]. unfold token_rows. intros r1 r2 k H1 H2.
  rewrite !elem_of_cons, elem_of_nil in H1, H2.
  destruct H1 as [->|[->|[->|[]]]], H2 as [->|[->|[->|[]]]]; intros Ht K1 K2; try done; vm_compute in K1, K2; congruence.
Qed.

(** Two tokens of one family are presented at once: the second waits for the
    family. *)
Definition two_rotations : list ServerEvent :=
  [Open 1 (rotation "t1" "f"); Open 2 (rotation "t2" "f"); Statement 1; LockNext 1; Statement 2; LockNext 2; Statement 1; LockNext 1; Statement 2].

Definition run_server := serve_all text_le table_key (empty_server token_rows).

(** Proves that the first of two transactions waits for the other. *)
Ltac waiting :=
  do 3 eexists; (split_and!; [reflexivity|reflexivity|reflexivity|]); apply elem_of_blockers; (split; [done|]); do 2 eexists;
  (split_and!; [reflexivity|cbn; left|done]).

Lemma row_locks_never_deadlock_witness :
  exists s, run_server two_rotations = Some s /\ waits s 2%nat 1%nat /\ ~ waits s 1%nat 2%nat /\ ~ tc (waits s) 2%nat 2%nat.
Proof.
  destruct (run_server two_rotations) as [s|] eqn:E; [|by vm_compute in E]. exists s.
  destruct (row_locks_never_deadlock text_le table_rank table_key token_rows two_rotations s) as (H1 & _); [apply token_rows_keyed| |done|].
  { repeat (constructor || split); by left; vm_compute; lia. }
  assert (waits s 2%nat 1%nat) as Hw by (unfold waits; vm_compute in E; injection E as <-; waiting).
  split_and!; [done|done| |apply H1]. intros H. apply (H1 2%nat). eapply tc_l; [exact Hw|by apply tc_once].
Defined.

(** Without the common order they do deadlock: with the tables in opposite
    orders; *)
Example opposite_orders_deadlock :
  exists s, run_server [Open 1 (rotation "t1" "f"); Open 2 (reverse (rotation "t1" "f")); Statement 1; LockNext 1; Statement 2; LockNext 2; Statement 1; Statement 2] = Some s /\
    tc (waits s) 1%nat 1%nat.
Proof. eexists. split; [by vm_compute|]. eapply (tc_l _ _ 2%nat); [|apply tc_once]; waiting. Qed.

(** with one table locked twice; *)
Example two_calls_deadlock :
  let a := lock_row "refresh_tokens" "token" "t1" in
  let b := lock_row "refresh_tokens" "token" "t2" in
  exists s, run_server [Open 1 [a; b]; Open 2 [b; a]; Statement 1; LockNext 1; Statement 2; LockNext 2; Statement 1; Statement 2] = Some s /\
    tc (waits s) 1%nat 1%nat.
Proof. eexists. split; [by vm_compute|]. eapply (tc_l _ _ 2%nat); [|apply tc_once]; waiting. Qed.

(** and, with one call each, by two columns that order the rows differently. *)
Definition lock_both (column : string) (keys : list string) : RowLockSpec :=
  {| rl_table := js "refresh_tokens"; rl_keyColumn := js column; rl_keys := js <$> keys; rl_strength := None; rl_wait := None; rl_waitTimeoutMs := None |}.

Example two_columns_deadlock :
  exists s, run_server [Open 1 [lock_both "token" ["t1"; "t2"]%string]; Open 2 [lock_both "id" ["1"; "2"]%string];
                   Statement 1; LockNext 1; Statement 2; LockNext 2] = Some s /\
    tc (waits s) 1%nat 1%nat.
Proof. eexists. split; [by vm_compute|]. eapply (tc_l _ _ 2%nat); [|apply tc_once]; waiting. Qed.

(** A budget of zero is no budget: the waiter is never cancelled. *)
Example zero_budget_waits_forever :
  cap_of {| rl_table := js "users"; rl_keyColumn := js "id"; rl_keys := [js "u"]; rl_strength := None; rl_wait := None;
            rl_waitTimeoutMs := Some (Whole 0) |} true = false.
Proof. done. Qed.

(** A name that is more than a name is refused, and text inside a key stays a
    value. *)
Example hostile_names_are_refused :
  lockStatements {| rl_table := js "users; DROP TABLE users"; rl_keyColumn := js "id"; rl_keys := [js "u"]; rl_strength := None;
                    rl_wait := None; rl_waitTimeoutMs := None |} = inl (UnsafeIdentifier "table" (js "users; DROP TABLE users")) /\
  exists s, lockStatements {| rl_table := js "users"; rl_keyColumn := js "id"; rl_keys := [js "u') OR 1 = 1"]; rl_strength := None;
                    rl_wait := Some NoWait; rl_waitTimeoutMs := None |} = inr [s] /\ Value (js "u') OR 1 = 1") ∈ tokens s.
Proof. split; [by vm_compute|]. eexists. split; [by vm_compute|]. by vm_compute; repeat (left || right). Qed.
