(* ===== verification/Immutable.v ===== *)
(** * Immutable: freezing and structural sharing

    [src/src/common/immutable]: [deepFreeze] and [isDeeplyFrozen] over a heap
    that may be cyclic and shared, the update helpers that reuse what they did
    not touch, and the pipe that freezes request payloads.

    A reference is an address; what [Object.freeze] does to an object is kept
    as a set of addresses beside the heap.  A walk recurses on fuel, one unit
    for each object that it has not seen; [freezeInto_spec] needs no more than
    the objects of the heap. *)

From S2P Require Import Prelude Json.
From stdpp Require Import relations.
#[local] Open Scope Z_scope.

Section Immutable.
(** The values that are not objects; [Object.is] tells them apart. *)
Context {Prim : Type} `{!EqDecision Prim} (undefined : Prim).

Inductive JsVal := Scalar (p : Prim) | Ref (l : nat).

#[global] Instance JsVal_eq_dec : EqDecision JsVal.
Proof using All. solve_decision. Defined.

(** An own property: a data slot, or an accessor with what its getter returns. *)
Inductive Slot := Data (v : JsVal) (enumerable : bool) | Accessor (v : JsVal) (enumerable : bool).

(** What [isOpaque], [isLeaf] and the walks ask of an object. *)
Inductive Kind :=
| Plain
| Opaque          (* a function, a buffer or view, a promise *)
| Leaf            (* a date, a pattern *)
| MapOf (entries : list (JsVal * JsVal))
| SetOf (entries : list JsVal)
| ItemsOf (items : list JsVal).   (* an array *)

Record Obj := { ob_kind : Kind; ob_props : list (string * Slot) }.

Record Store := { st_objs : gmap nat Obj; st_frozen : gset nat }.

Definition isOpaque (o : Obj) : bool := match ob_kind o with Opaque => true | _ => false end.
Definition isLeaf (o : Obj) : bool := match ob_kind o with Leaf => true | _ => false end.

(** The data slots, which a walk reads through descriptors. *)
Definition slot_values (props : list (string * Slot)) : list JsVal :=
  omap (fun kv => match kv.2 with Data v _ => Some v | Accessor _ _ => None end) props.

(** What a walk visits below an object, in its order. *)
Definition children (o : Obj) : list JsVal :=
  (match ob_kind o with
   | MapOf entries => concat ((fun kv => [kv.1; kv.2]) <$> entries)
   | SetOf entries => entries
   | ItemsOf items => items
   | _ => []
   end) ++ slot_values (ob_props o).

(** [Object.freeze(target)] *)
Definition freeze (l : nat) (st : Store) : Store := {| st_objs := st_objs st; st_frozen := {[l]} ∪ st_frozen st |}.

(** ** The two walks *)

Fixpoint freezeInto (n : nat) (v : JsVal) (w : gset nat * Store) : gset nat * Store :=
  match n, v with
  | O, _ => w
  | _, Scalar _ => w
  | S n, Ref l =>
      match st_objs w.2 !! l with
      | None => w
      | Some o =>
          if decide (l ∈ w.1) then w
          else if isOpaque o then w
          else
            let w1 := ({[l]} ∪ w.1, freeze l w.2) in
            if isLeaf o then w1 else foldl (fun w c => freezeInto n c w) w1 (children o)
      end
  end.

(** [every] of the loops that return at the first failure. *)
Fixpoint every (f : JsVal -> gset nat -> bool * gset nat) (cs : list JsVal) (seen : gset nat) : bool * gset nat :=
  match cs with
  | [] => (true, seen)
  | c :: cs => match f c seen with (true, seen') => every f cs seen' | r => r end
  end.

Fixpoint checkFrozen (n : nat) (st : Store) (v : JsVal) (seen : gset nat) : bool * gset nat :=
  match n, v with
  | O, _ => (true, seen)
  | _, Scalar _ => (true, seen)
  | S n, Ref l =>
      match st_objs st !! l with
      | None => (true, seen)
      | Some o =>
          if decide (l ∈ seen) then (true, seen)
          else if isOpaque o then (true, seen)
          else
            let seen1 := {[l]} ∪ seen in
            if negb (bool_decide (l ∈ st_frozen st)) then (false, seen1)
            else if isLeaf o then (true, seen1)
            else every (checkFrozen n st) (children o) seen1
      end
  end.

Definition walkFuel (st : Store) : nat := S (size (st_objs st)).

Definition deepFreeze (v : JsVal) (st : Store) : Store := (freezeInto (walkFuel st) v (∅, st)).2.
Definition isDeeplyFrozen (st : Store) (v : JsVal) : bool := (checkFrozen (walkFuel st) st v ∅).1.

(** ** What is reachable *)

Definition freezable (objs : gmap nat Obj) (l : nat) : Prop := exists o, objs !! l = Some o /\ isOpaque o = false.

(** [l'] is below [l] by a data slot or an entry. *)
Definition below (objs : gmap nat Obj) (l l' : nat) : Prop :=
  freezable objs l' /\ exists o, objs !! l = Some o /\ isOpaque o = false /\ isLeaf o = false /\ Ref l' ∈ children o.

Definition reachable (objs : gmap nat Obj) (v : JsVal) (l : nat) : Prop :=
  exists r, v = Ref r /\ freezable objs r /\ rtc (below objs) r l.

(** ** The walk of [deepFreeze] *)

(** What a walk over [vs] leaves: [new] is what it has seen for the first time. *)
Record walked (objs : gmap nat Obj) (vs : list JsVal) (seen seen' : gset nat) : Prop := {
  wk_grows : seen ⊆ seen';
  wk_new : forall l, l ∈ seen' -> l ∉ seen -> exists v, v ∈ vs /\ reachable objs v l;
  wk_roots : forall l, Ref l ∈ vs -> freezable objs l -> l ∈ seen';
  wk_closed : forall l l', l ∈ seen' -> l ∉ seen -> below objs l l' -> l' ∈ seen' }.

Lemma walked_nil objs seen : walked objs [] seen seen.
Proof. split; try done. intros l H. by apply not_elem_of_nil in H. Qed.

Lemma walked_cons objs v vs seen seen1 seen2 :
  walked objs [v] seen seen1 -> walked objs vs seen1 seen2 -> walked objs (v :: vs) seen seen2.
Proof.
  intros [A1 A2 A3 A4] [B1 B2 B3 B4]. split.
  - set_solver.
  - intros l Hl Hn. destruct (decide (l ∈ seen1)) as [H1|H1].
    + destruct (A2 l H1 Hn) as (v' & Hv & Hr). exists v'. split; [|done]. set_solver.
    + destruct (B2 l Hl H1) as (v' & Hv & Hr). exists v'. split; [|done]. set_solver.
  - intros l [<-|Hl]%elem_of_cons Hf; [apply B1, A3; [by left|done]|by apply B3].
  - intros l l' Hl Hn Hb. destruct (decide (l ∈ seen1)) as [H1|H1]; [by apply B1, (A4 l)|by apply (B4 l)].
Qed.

(** Nothing to do for [v]. *)
Lemma walked_skip objs v seen : (forall l, v = Ref l -> freezable objs l -> l ∈ seen) -> walked objs [v] seen seen.
Proof. intros H. split; try done. intros l <-%list_elem_of_singleton Hf. by apply H. Qed.

(** One object, then what is below it. *)
Lemma walked_object objs l o seen seen' :
  objs !! l = Some o -> isOpaque o = false -> l ∉ seen ->
  (isLeaf o = true /\ seen' = {[l]} ∪ seen \/ isLeaf o = false /\ walked objs (children o) ({[l]} ∪ seen) seen') ->
  walked objs [Ref l] seen seen'.
Proof.
  intros Ho Hop Hl [[Hleaf ->]|[Hleaf [B1 B2 B3 B4]]].
  - split; [set_solver| | |].
    + intros l' Hl' Hn. assert (l' = l) as -> by set_solver. exists (Ref l). split; [by left|]. exists l. split; [done|]. split; [by exists o|]. constructor.
    + intros l' [= ->]%list_elem_of_singleton _. set_solver.
    + intros l' l2 Hl' Hn (_ & o' & Ho' & _ & Hleaf' & _). assert (l' = l) as -> by set_solver. congruence.
  - split; [set_solver| | |].
    + intros l' Hl' Hn. exists (Ref l). split; [by left|]. exists l. split; [done|]. split; [by exists o|].
      destruct (decide (l' = l)) as [->|Hne]; [constructor|]. destruct (B2 l' Hl') as (v & Hv & r & -> & Hf & Hr); [set_solver|].
      eapply rtc_l; [|exact Hr]. split; [done|]. by exists o.
    + intros l' [= ->]%list_elem_of_singleton _. set_solver.
    + intros l' l2 Hl' Hn Hb. destruct (decide (l' = l)) as [->|Hne]; [|apply (B4 l'); [done|set_solver|done]].
      destruct Hb as (Hf & o' & Ho' & _ & _ & Hc). apply B3; [congruence|done].
Qed.

(** How many objects a walk may still see. *)
Definition unseen (objs : gmap nat Obj) (seen : gset nat) : nat := size (dom objs ∖ seen).

Lemma unseen_mono objs seen seen' : seen ⊆ seen' -> (unseen objs seen' <= unseen objs seen)%nat.
Proof. intros H. apply subseteq_size. set_solver. Qed.

Lemma unseen_add objs l o seen : objs !! l = Some o -> l ∉ seen -> (unseen objs ({[l]} ∪ seen) < unseen objs seen)%nat.
Proof.
  intros Ho Hl. apply subset_size. apply elem_of_dom_2 in Ho. split; [set_solver|]. intros H. assert (l ∈ dom objs ∖ ({[l]} ∪ seen)) by (apply H; set_solver).
  set_solver.
Qed.

Definition freeze_walked (vs : list JsVal) (w w' : gset nat * Store) : Prop :=
  st_objs w'.2 = st_objs w.2 /\ walked (st_objs w.2) vs w.1 w'.1 /\ st_frozen w'.2 = st_frozen w.2 ∪ (w'.1 ∖ w.1).

Lemma freeze_fold (f : JsVal -> gset nat * Store -> gset nat * Store) cs w (m : nat) :
  (forall v w, (unseen (st_objs w.2) w.1 < m)%nat -> freeze_walked [v] w (f v w)) ->
  (unseen (st_objs w.2) w.1 < m)%nat -> freeze_walked cs w (foldl (fun w c => f c w) w cs).
Proof.
  intros Hf. revert w. induction cs as [|c cs IH]; intros w Hm; cbn.
  - split_and!; [done|apply walked_nil|set_solver].
  - destruct (Hf c w Hm) as (H1 & H2 & H3). destruct (IH (f c w)) as (G1 & G2 & G3).
    { rewrite H1. eapply Nat.le_lt_trans; [|exact Hm]. apply unseen_mono, H2. }
    split_and!; [congruence| |].
    + rewrite H1 in G2. by eapply walked_cons.
    + rewrite G3, H3. apply set_eq. intros x. pose proof (wk_grows _ _ _ _ H2 x) as Ha. pose proof (wk_grows _ _ _ _ G2 x) as Hb.
      rewrite !elem_of_union, !elem_of_difference. clear -Ha Hb. destruct (decide (x ∈ (f c w).1)); tauto.
Qed.

Lemma freezeInto_spec n v w : (unseen (st_objs w.2) w.1 < n)%nat -> freeze_walked [v] w (freezeInto n v w).
Proof.
  revert v w. induction n as [|n IH]; intros v w Hn; [lia|]. destruct v as [p|l]; cbn [freezeInto].
  { split_and!; [done|by apply walked_skip|set_solver]. }
  destruct (st_objs w.2 !! l) as [o|] eqn:Ho; [|split_and!; [done| |set_solver]].
  2: { apply walked_skip. intros l' [= <-] (o & Ho' & _). congruence. }
  case_decide as Hl; [split_and!; [done| |set_solver]; apply walked_skip; by intros l' [= <-] _|].
  destruct (isOpaque o) eqn:Hop; [split_and!; [done| |set_solver]; apply walked_skip; intros l' [= <-] (o' & Ho' & ?); congruence|].
  destruct (isLeaf o) eqn:Hleaf.
  - split_and!; [done|eapply walked_object; eauto|]. cbn. set_solver.
  - destruct (freeze_fold (freezeInto n) (children o) ({[l]} ∪ w.1, freeze l w.2) n) as (G1 & G2 & G3); [apply IH| |].
    { cbn. pose proof (unseen_add _ _ _ _ Ho Hl). lia. }
    split_and!; [done|eapply walked_object; eauto|]. rewrite G3. cbn. apply set_eq. intros x.
    pose proof (wk_grows _ _ _ _ G2 x) as Hg. cbn in Hg. rewrite elem_of_union, elem_of_singleton in Hg.
    rewrite !elem_of_union, !elem_of_difference, elem_of_union, elem_of_singleton. clear -Hg Hl.
    destruct (decide (x = l)) as [->|]; tauto.
Qed.

Lemma walked_reachable objs v seen' : walked objs [v] ∅ seen' -> forall l, l ∈ seen' <-> reachable objs v l.
Proof.
  intros [H1 H2 H3 H4] l. split.
  - intros Hl. destruct (H2 l Hl) as (v' & ->%list_elem_of_singleton & Hr); [set_solver|done].
  - intros (r & -> & Hf & Hr). assert (r ∈ seen') as Hr' by (apply H3; [by left|done]). clear Hf H2 H3.
    induction Hr as [r|r l1 l Hb Hr IH]; [done|]. apply IH. apply (H4 r); [done|set_solver|done].
Qed.

Lemma unseen_start st : (unseen (st_objs st) ∅ < walkFuel st)%nat.
Proof. unfold unseen, walkFuel. rewrite difference_empty_L, size_dom. lia. Qed.

(** ** The walk of [isDeeplyFrozen] *)

Definition check_walked (st : Store) (vs : list JsVal) (seen : gset nat) (r : bool * gset nat) : Prop :=
  if r.1 then walked (st_objs st) vs seen r.2 /\ (forall l, l ∈ r.2 -> l ∉ seen -> l ∈ st_frozen st)
  else exists v l, v ∈ vs /\ reachable (st_objs st) v l /\ l ∉ st_frozen st.

Lemma check_every st f cs seen (m : nat) :
  (forall v seen, (unseen (st_objs st) seen < m)%nat -> check_walked st [v] seen (f v seen)) ->
  (unseen (st_objs st) seen < m)%nat -> check_walked st cs seen (every f cs seen).
Proof.
  intros Hf. revert seen. induction cs as [|c cs IH]; intros seen Hm; cbn [every].
  - split; [apply walked_nil|set_solver].
  - specialize (Hf c seen Hm) as Hc. unfold check_walked in Hc. destruct (f c seen) as [[] seen1]; cbn in Hc.
    + destruct Hc as [H1 H2]. specialize (IH seen1). unfold check_walked in *. destruct (every f cs seen1) as [[] seen2]; cbn in *.
      * destruct IH as [G1 G2]; [eapply Nat.le_lt_trans; [apply unseen_mono, H1|done]|]. split; [by eapply walked_cons|].
        intros l Hl Hn. destruct (decide (l ∈ seen1)); auto.
      * destruct IH as (v & l & Hv & Hr); [eapply Nat.le_lt_trans; [apply unseen_mono, H1|done]|]. exists v, l. set_solver.
    + destruct Hc as (v & l & ->%list_elem_of_singleton & Hr). exists c, l. set_solver.
Qed.

Lemma checkFrozen_spec n st v seen : (unseen (st_objs st) seen < n)%nat -> check_walked st [v] seen (checkFrozen n st v seen).
Proof.
  revert v seen. induction n as [|n IH]; intros v seen Hn; [lia|]. destruct v as [p|l]; cbn [checkFrozen].
  { split; [by apply walked_skip|set_solver]. }
  destruct (st_objs st !! l) as [o|] eqn:Ho.
  2: { split; [|set_solver]. apply walked_skip. intros l' [= <-] (o & Ho' & _). congruence. }
  case_decide as Hl; [split; [|set_solver]; apply walked_skip; by intros l' [= <-] _|].
  destruct (isOpaque o) eqn:Hop; [split; [|set_solver]; apply walked_skip; intros l' [= <-] (o' & Ho' & ?); congruence|].
  assert (freezable (st_objs st) l) as Hfz by (by exists o).
  destruct (decide (l ∈ st_frozen st)) as [Hfr|Hfr]; [rewrite bool_decide_true by done|rewrite bool_decide_false by done]; cbn [negb].
  2: { exists (Ref l), l. split; [by left|]. split; [|done]. exists l. split_and!; [done|done|constructor]. }
  destruct (isLeaf o) eqn:Hleaf.
  - split; [eapply walked_object; eauto|]. cbn. set_solver.
  - pose proof (unseen_add _ _ _ _ Ho Hl). pose proof (check_every st (checkFrozen n st) (children o) ({[l]} ∪ seen) n (IH) ltac:(lia)) as Hev.
    unfold check_walked in *. destruct (every _ _ _) as [[] seen2]; cbn in *.
    + destruct Hev as [G1 G2]. split; [eapply walked_object; eauto|]. intros l' Hl' Hn'. destruct (decide (l' = l)) as [->|]; [done|]. apply G2; set_solver.
    + destruct Hev as (v & l' & Hv & (r & -> & Hf & Hr) & Hnf). exists (Ref l), l'. split; [by left|]. split; [|done].
      exists l. split_and!; [done|done|]. eapply rtc_l; [|exact Hr]. split; [done|]. by exists o.
Qed.

(** ** Properties of freezing *)

Lemma elem_of_concat {A} (x : A) ls : x ∈ concat ls <-> exists l, x ∈ l /\ l ∈ ls.
Proof. rewrite list_elem_of_In, in_concat. setoid_rewrite list_elem_of_In. naive_solver. Qed.

(** What an object contains: the value of a data slot, a key or a value of a
    map, a member of a set, an item of an array. *)
Inductive contains (o : Obj) : JsVal -> Prop :=
| contains_slot name v enumerable : (name, Data v enumerable) ∈ ob_props o -> contains o v
| contains_key entries k v : ob_kind o = MapOf entries -> (k, v) ∈ entries -> contains o k
| contains_value entries k v : ob_kind o = MapOf entries -> (k, v) ∈ entries -> contains o v
| contains_member entries v : ob_kind o = SetOf entries -> v ∈ entries -> contains o v
| contains_item items v : ob_kind o = ItemsOf items -> v ∈ items -> contains o v.

(** [l] belongs to the graph of [v]: the way there passes through no function,
    buffer or promise, and does not go into a date or a pattern. *)
Inductive graph (objs : gmap nat Obj) : JsVal -> nat -> Prop :=
| graph_root l o : objs !! l = Some o -> ob_kind o <> Opaque -> graph objs (Ref l) l
| graph_below l o v l' :
    objs !! l = Some o -> ob_kind o <> Opaque -> ob_kind o <> Leaf -> contains o v -> graph objs v l' -> graph objs (Ref l) l'.

Lemma children_contains o v : v ∈ children o <-> contains o v.
Proof.
  unfold children, slot_values. rewrite elem_of_app, list_elem_of_omap. split.
  - intros [H|([k [w e|w e]] & Hin & [= <-])]; [|by eapply contains_slot]. destruct (ob_kind o) as [| | |entries|entries|items] eqn:E; try by apply elem_of_nil in H.
    + apply elem_of_concat in H as (x & Hx & ([k w] & -> & Hin)%list_elem_of_fmap). cbn in Hx.
      apply elem_of_cons in Hx as [->| ->%list_elem_of_singleton]; [by eapply contains_key|by eapply contains_value].
    + by eapply contains_member.
    + by eapply contains_item.
  - intros [name w e Hin|entries k w E Hin|entries k w E Hin|entries w E Hin|items w E Hin]; [right; by exists (name, Data w e)|left; rewrite E..]; try done.
    + apply elem_of_concat. exists [k; w]. split; [by left|]. apply list_elem_of_fmap. by exists (k, w).
    + apply elem_of_concat. exists [k; w]. split; [right; by left|]. apply list_elem_of_fmap. by exists (k, w).
Qed.

Lemma opaque_kind o : isOpaque o = false <-> ob_kind o <> Opaque.
Proof. unfold isOpaque. by destruct (ob_kind o). Qed.

Lemma leaf_kind o : isLeaf o = false <-> ob_kind o <> Leaf.
Proof. unfold isLeaf. by destruct (ob_kind o). Qed.

Lemma reachable_graph objs v l : reachable objs v l <-> graph objs v l.
Proof.
  split.
  - intros (r & -> & Hf & Hr). revert Hf. induction Hr as [x|x y z (Hy & o & Ho & Hop & Hl & Hc) _ IH].
    + intros (o & Ho & Hop). eapply graph_root; [done|by apply opaque_kind].
    + intros _. eapply graph_below; [done|by apply opaque_kind|by apply leaf_kind|by apply children_contains|by apply IH].
  - induction 1 as [l o Ho Hop|l o v l' Ho Hop Hl Hh _ (r & -> & Hf & Hr)]; exists l; split_and!; [done| |done|done| |].
    + exists o. split; [done|by apply opaque_kind].
    + exists o. split; [done|by apply opaque_kind].
    + eapply rtc_l; [|exact Hr]. split; [done|]. exists o. split_and!; [done|by apply opaque_kind|by apply leaf_kind|by apply children_contains].
Qed.

Lemma deepFreeze_spec v st :
  (st_objs (deepFreeze v st) = st_objs st /\
   forall l, l ∈ st_frozen (deepFreeze v st) <-> l ∈ st_frozen st \/ reachable (st_objs st) v l) /\
  (isDeeplyFrozen st v = true <-> forall l, reachable (st_objs st) v l -> l ∈ st_frozen st) /\
  isDeeplyFrozen (deepFreeze v st) v = true.
Proof.
  assert (forall st, isDeeplyFrozen st v = true <-> forall l, reachable (st_objs st) v l -> l ∈ st_frozen st) as Hchk.
  { clear st. intros st. unfold isDeeplyFrozen. pose proof (checkFrozen_spec _ st v ∅ (unseen_start st)) as H. unfold check_walked in H.
    destruct (checkFrozen _ st v ∅) as [[] seen]; cbn in *.
    - destruct H as [H1 H2]. split; [|done]. intros _ l Hl. apply H2; [by apply (walked_reachable _ v _ H1)|set_solver].
    - destruct H as (v' & l & ->%list_elem_of_singleton & Hr & Hn). split; [done|]. intros Hall. by apply Hall in Hr. }
  destruct (freezeInto_spec (walkFuel st) v (∅, st) (unseen_start st)) as (H1 & H2 & H3).
  assert (forall l, l ∈ st_frozen (deepFreeze v st) <-> l ∈ st_frozen st \/ reachable (st_objs st) v l) as Hfr.
  { intros l. unfold deepFreeze. rewrite H3. cbn. rewrite elem_of_union, elem_of_difference, (walked_reachable _ v _ H2). set_solver. }
  split_and!; [done|done|apply Hchk|]. apply Hchk. intros l Hl. apply Hfr. right. unfold deepFreeze in Hl. by rewrite H1 in Hl.
Qed.

(** C24: [deepFreeze] ends on every heap, cyclic or shared, and freezes exactly
    the graph of its argument: what is reachable by data slots, map entries, set
    members and array items without passing through a value that it leaves
    alone; nothing else about the heap changes.  [isDeeplyFrozen] answers true
    exactly if all of that graph is frozen, so it does after [deepFreeze]. *)
Theorem deep_freeze_exact v st :
  (st_objs (deepFreeze v st) = st_objs st /\
   forall l, l ∈ st_frozen (deepFreeze v st) <-> l ∈ st_frozen st \/ graph (st_objs st) v l) /\
  (isDeeplyFrozen st v = true <-> forall l, graph (st_objs st) v l -> l ∈ st_frozen st) /\
  isDeeplyFrozen (deepFreeze v st) v = true.
Proof. destruct (deepFreeze_spec v st) as ([H1 H2] & H3 & H4). setoid_rewrite <-reachable_graph. by split_and!. Qed.

(** ** Updates that reuse what they do not touch *)

(** The members an object inherits. *)
Context (inherited : string -> option JsVal).

Fixpoint own (props : list (string * Slot)) (key : string) : option JsVal :=
  match props with
  | [] => None
  | (k, s) :: rest => if decide (k = key) then Some (match s with Data v _ | Accessor v _ => v end) else own rest key
  end.

(** [key in source], and [source[key]]. *)
Definition has (o : Obj) (key : string) : bool := match own (ob_props o) key with Some _ => true | None => bool_decide (inherited key <> None) end.

Definition get (o : Obj) (key : string) : JsVal :=
  match own (ob_props o) key with Some v => v | None => default (Scalar undefined) (inherited key) end.

(** [{...source}] *)
Definition spread (o : Obj) : list (string * Slot) :=
  omap (fun kv => match kv.2 with Data v true | Accessor v true => Some (kv.1, Data v true) | _ => None end) (ob_props o).

(** [next[key] = value] on a fresh object. *)
Fixpoint assign (props : list (string * Slot)) (key : string) (v : JsVal) : list (string * Slot) :=
  match props with
  | [] => [(key, Data v true)]
  | (k, s) :: rest => if decide (k = key) then (k, Data v true) :: rest else (k, s) :: assign rest key v
  end.

Definition alloc (o : Obj) (st : Store) : nat * Store :=
  let l := fresh (dom (st_objs st)) in (l, {| st_objs := <[l := o]> (st_objs st); st_frozen := st_frozen st |}).

Definition preserveFrozenness (source next : nat) (st : Store) : Store :=
  if decide (source ∈ st_frozen st) then deepFreeze (Ref next) st else st.

(** A new object with [kind] and [props], frozen if [source] is. *)
Definition derive (source : nat) (o : Obj) (st : Store) : JsVal * Store :=
  let '(next, st1) := alloc o st in (Ref next, preserveFrozenness source next st1).

Definition plain (props : list (string * Slot)) : Obj := {| ob_kind := Plain; ob_props := props |}.

Definition object_at (st : Store) (l : nat) : Obj := default (plain []) (st_objs st !! l).

(** [key in source && Object.is(source[key], value)] *)
Definition already (o : Obj) (key : string) (value : JsVal) : bool := has o key && bool_decide (get o key = value).

Definition setKey (source : nat) (key : string) (value : JsVal) (st : Store) : JsVal * Store :=
  let o := object_at st source in
  if already o key value then (Ref source, st) else derive source (plain (assign (spread o) key value)) st.

Definition updateKey (source : nat) (key : string) (update : JsVal -> Store -> JsVal * Store) (st : Store) : JsVal * Store :=
  let '(value, st1) := update (get (object_at st source) key) st in setKey source key value st1.

(** The loop of [patch] over the keys of [changes]. *)
Definition changed (o : Obj) (changes : list (string * JsVal)) : list (string * JsVal) :=
  filter (fun kv => kv.2 <> Scalar undefined /\ already o kv.1 kv.2 = false) changes.

Definition patch (source : nat) (changes : list (string * JsVal)) (st : Store) : JsVal * Store :=
  let o := object_at st source in
  match changed o changes with
  | [] => (Ref source, st)
  | cs => derive source (plain (foldl (fun props kv => assign props kv.1 kv.2) (spread o) cs)) st
  end.

Definition removeKey (source : nat) (key : string) (st : Store) : JsVal * Store :=
  let o := object_at st source in
  if has o key then derive source (plain (filter (fun kv => kv.1 <> key) (spread o))) st else (Ref source, st).

Definition items_at (st : Store) (l : nat) : list JsVal := match ob_kind (object_at st l) with ItemsOf items => items | _ => [] end.

Definition mapArray (source : nat) (map : JsVal -> nat -> JsVal) (st : Store) : JsVal * Store :=
  let items := items_at st source in
  let next := imap (fun i item => map item i) items in
  if bool_decide (next = items) then (Ref source, st) else derive source {| ob_kind := ItemsOf next; ob_props := [] |} st.

(** A result that is new: a fresh object, every other left as it was, and frozen
    through and through exactly if the source was frozen. *)
Definition renewed (source : nat) (o : Obj) (st : Store) (r : JsVal) (st' : Store) : Prop :=
  exists next, r = Ref next /\ st_objs st !! next = None /\ st_objs st' = <[next := o]> (st_objs st) /\
    (source ∈ st_frozen st -> isDeeplyFrozen st' r = true) /\ (source ∉ st_frozen st -> st_frozen st' = st_frozen st).

Lemma derive_renewed source o st : renewed source o st (derive source o st).1 (derive source o st).2.
Proof.
  unfold derive, alloc, preserveFrozenness. set (next := fresh (dom (st_objs st))). cbn. exists next. split_and!; [done| | | |].
  - apply not_elem_of_dom, is_fresh.
  - case_decide; [|done]. match goal with |- st_objs (deepFreeze ?v ?s) = _ => by destruct (deepFreeze_spec v s) as [[-> _] _] end.
  - intros Hs. rewrite decide_True by done. apply deepFreeze_spec.
  - intros Hs. by rewrite decide_False.
Qed.

Lemma own_assign props key v k : own (assign props key v) k = if decide (k = key) then Some v else own props k.
Proof.
  induction props as [|[k' s] props IH]; cbn; [by repeat case_decide; subst|].
  destruct (decide (k' = key)) as [->|Hne]; cbn.
  - by repeat case_decide; subst.
  - rewrite IH. by repeat case_decide; subst.
Qed.

(** The value a key has in a list of changes. *)
Definition change_of (cs : list (string * JsVal)) (k : string) : option JsVal := snd <$> List.find (fun kv => bool_decide (kv.1 = k)) cs.

Lemma change_of_Some cs k v : NoDup cs.*1 -> (change_of cs k = Some v <-> (k, v) ∈ cs).
Proof.
  unfold change_of. intros Hnd. induction cs as [|[k' v'] cs IH]; cbn; [split; [done|by intros ?%not_elem_of_nil]|].
  cbn in Hnd. apply NoDup_cons in Hnd as [Hn Hnd]. rewrite elem_of_cons. case_bool_decide as Hk; cbn.
  - subst k'. split; [intros [= ->]; by left|]. intros [[= ->]|Hin]; [done|]. exfalso. apply Hn, list_elem_of_fmap. by exists (k, v).
  - rewrite IH by done. split; [by right|]. intros [[= -> _]|?]; done.
Qed.

Lemma change_of_None cs k : k ∉ cs.*1 -> change_of cs k = None.
Proof.
  intros Hk. unfold change_of. destruct (List.find _ cs) as [[k' v]|] eqn:Hf; [|done]. apply find_some in Hf as [Hin%list_elem_of_In H].
  cbn in H. apply bool_decide_eq_true in H. subst k'. exfalso. apply Hk, list_elem_of_fmap. by exists (k, v).
Qed.

Lemma own_assigns cs props k :
  NoDup cs.*1 -> own (foldl (fun props kv => assign props kv.1 kv.2) props cs) k =
  match change_of cs k with Some v => Some v | None => own props k end.
Proof.
  revert props. induction cs as [|[k' v] cs IH]; intros props Hnd; [done|]. cbn in Hnd. apply NoDup_cons in Hnd as [Hn Hnd].
  cbn [foldl fst snd]. rewrite IH, own_assign by done. unfold change_of at 2. cbn. case_bool_decide as Hk; cbn.
  - subst k'. by rewrite change_of_None, decide_True.
  - by rewrite decide_False.
Qed.

Lemma changed_NoDup o changes : NoDup changes.*1 -> NoDup (changed o changes).*1.
Proof.
  intros Hnd. unfold changed. induction changes as [|kv l IH]; [done|]. cbn in Hnd. apply NoDup_cons in Hnd as [Hn Hnd]. rewrite filter_cons.
  case_decide; [|auto]. cbn. constructor; [|auto]. intros (kv' & Hkv & [_ Hk]%list_elem_of_filter)%list_elem_of_fmap.
  apply Hn. rewrite Hkv. apply list_elem_of_fmap. eauto.
Qed.

(** ** Properties of the updates *)

(** [patch] answers the source itself exactly if no defined change differs from
    what is there; otherwise a new object in which each changed key has its new
    value, every other own enumerable key the value it had - the same reference,
    not a copy - and which is frozen throughout if the source was frozen. *)
Theorem patch_shares source changes st :
  NoDup changes.*1 -> let o := object_at st source in
  let settled := Forall (fun kv => kv.2 = Scalar undefined \/ already o kv.1 kv.2 = true) changes in
  (settled /\ patch source changes st = (Ref source, st)) \/
  (~ settled /\ exists o', renewed source o' st (patch source changes st).1 (patch source changes st).2 /\
     (forall k v, (k, v) ∈ changes -> v <> Scalar undefined -> already o k v = false -> own (ob_props o') k = Some v) /\
     (forall k, (forall v, (k, v) ∈ changes -> v = Scalar undefined \/ already o k v = true) -> own (ob_props o') k = own (spread o) k)).
Proof.
  intros Hnd o settled. destruct (changed o changes) as [|c cs] eqn:Hc.
  - left. split; [|unfold patch; by fold o; rewrite Hc].
    apply Forall_forall. intros kv Hin. destruct (decide (kv.2 = Scalar undefined)); [by left|right].
    destruct (already o kv.1 kv.2) eqn:Ha; [done|]. assert (kv ∈ changed o changes) as H by (apply list_elem_of_filter; done).
    rewrite Hc in H. by apply not_elem_of_nil in H.
  - right. assert (c ∈ changed o changes) as Hin by (rewrite Hc; by left). apply list_elem_of_filter in Hin as [[H1 H2] Hin]. split.
    { unfold settled. rewrite Forall_forall. intros H. destruct (H c Hin); congruence. }
    pose proof (changed_NoDup o changes Hnd) as Hnd'.
    exists (plain (foldl (fun props kv => assign props kv.1 kv.2) (spread o) (changed o changes))). split_and!.
    + unfold patch. fold o. rewrite Hc. apply derive_renewed.
    + intros k v Hkv Hv Ha. cbn [plain ob_props]. rewrite own_assigns by done.
      assert (change_of (changed o changes) k = Some v) as -> by (apply change_of_Some; [done|by apply list_elem_of_filter]). done.
    + intros k Hk. cbn [plain ob_props]. rewrite own_assigns by done. rewrite change_of_None; [done|].
      intros ([k' v] & -> & [[Hv Ha] Hkv]%list_elem_of_filter)%list_elem_of_fmap. cbn in *. destruct (Hk v Hkv); congruence.
Qed.

(** Setting one key and mapping an array answer the source itself when nothing
    changes, and otherwise an object of their own. *)
Theorem updates_share source key value (map : JsVal -> nat -> JsVal) st :
  let o := object_at st source in
  let items := items_at st source in
  (already o key value = true -> setKey source key value st = (Ref source, st)) /\
  (already o key value = false -> exists o', renewed source o' st (setKey source key value st).1 (setKey source key value st).2 /\
     forall k, own (ob_props o') k = if decide (k = key) then Some value else own (spread o) k) /\
  ((forall i item, items !! i = Some item -> map item i = item) -> mapArray source map st = (Ref source, st)) /\
  (forall i item, items !! i = Some item -> map item i <> item ->
     exists o', renewed source o' st (mapArray source map st).1 (mapArray source map st).2 /\
       children o' = imap (fun i item => map item i) items).
Proof.
  intros o items. unfold setKey, mapArray. fold o items. split_and!.
  - by intros ->.
  - intros ->. eexists. split; [apply derive_renewed|]. intros k. apply own_assign.
  - intros H. rewrite bool_decide_true; [done|]. apply list_eq. intros i. rewrite list_lookup_imap.
    destruct (items !! i) eqn:E; [|done]. cbn. f_equal. by apply H.
  - intros i item Hi Hm. rewrite bool_decide_false.
    + eexists. split; [apply derive_renewed|]. cbn. by rewrite app_nil_r.
    + intros H. apply (f_equal (fun l => l !! i)) in H. rewrite list_lookup_imap, Hi in H. cbn in H. congruence.
Qed.

(** The order of the no-op rule: an update that gives back what it was given
    leaves the source alone, if the key is there. *)
Lemma updateKey_same source key update st :
  has (object_at st source) key = true -> update (get (object_at st source) key) st = (get (object_at st source) key, st) ->
  updateKey source key update st = (Ref source, st).
Proof.
  intros Hk Hu. unfold updateKey. rewrite Hu. unfold setKey, already. by rewrite Hk, bool_decide_true.
Qed.
End Immutable.

(** ** The pipe *)

(** What a parameter was declared as. *)
Inductive Metatype := Native | UserClass | NoMetatype.

Record ArgumentMetadata := { am_custom : bool; am_metatype : Metatype }.

Definition appliesTo (m : ArgumentMetadata) : bool :=
  negb (am_custom m) && match am_metatype m with UserClass => true | Native | NoMetatype => false end.

Definition pipe_transform {Prim : Type} (enabled : bool) (v : JsVal (Prim := Prim)) (m : ArgumentMetadata) (st : Store) : Store :=
  if negb enabled || negb (appliesTo m) then st else deepFreeze v st.

Definition freezingEnabledFor (nodeEnv : option string) : bool := negb (bool_decide (nodeEnv = Some "production"%string)).

(** ** Examples *)

(** A payload with a back-reference, a buffer that stays as it is, and a date. *)
Definition sample_store : Store (Prim := Z) :=
  {| st_objs := {[ 1%nat := {| ob_kind := Plain; ob_props := [("self", Data (Ref 1) true); ("file", Data (Ref 2) true); ("at", Data (Ref 3) true);
                                                              ("lazy", Accessor (Ref 5) true)] |};
                   2%nat := {| ob_kind := Opaque; ob_props := [("meta", Data (Ref 5) true)] |};
                   3%nat := {| ob_kind := Leaf; ob_props := [("tag", Data (Ref 5) true)] |};
                   4%nat := {| ob_kind := MapOf [(Ref 1, Ref 3)]; ob_props := [] |};
                   5%nat := {| ob_kind := Plain; ob_props := [] |} ]};
     st_frozen := ∅ |}%string.

Example payload_is_frozen :
  st_frozen (deepFreeze (Ref 4) sample_store) = {[ 1; 3; 4 ]}%nat /\ isDeeplyFrozen (deepFreeze (Ref 4) sample_store) (Ref 4) = true /\
  isDeeplyFrozen sample_store (Ref 4) = false.
Proof. split_and!; by vm_compute. Qed.

Definition no_member (_ : string) : option (JsVal (Prim := Z)) := None.

Definition user_store : Store (Prim := Z) :=
  {| st_objs := {[ 1%nat := {| ob_kind := Plain; ob_props := [("name", Data (Scalar 7) true); ("preferences", Data (Ref 2) true)] |};
                   2%nat := {| ob_kind := Plain; ob_props := [("theme", Data (Scalar 1) true)] |} ]};
     st_frozen := {[ 1; 2 ]}%nat |}%string.

Lemma patch_shares_witness :
  patch 0 no_member 1 [("name", Scalar 7); ("email", Scalar 0)]%string user_store = (Ref 1, user_store) /\
  exists o', renewed 1 o' user_store (patch 0 no_member 1 [("name", Scalar 8)]%string user_store).1
    (patch 0 no_member 1 [("name", Scalar 8)]%string user_store).2 /\ own (ob_props o') "preferences" = Some (Ref 2).
Proof.
  split.
  - destruct (patch_shares 0 no_member 1 [("name", Scalar 7); ("email", Scalar 0)]%string user_store) as [[_ H]|[H _]]; [|exact H|].
    + repeat constructor; set_solver.
    + exfalso. apply H. constructor; [right; by vm_compute|]. constructor; [by left|constructor].
  - destruct (patch_shares 0 no_member 1 [("name", Scalar 8)]%string user_store) as [[H _]|(_ & o' & Hr & _ & Hk)].
    + repeat constructor; set_solver.
    + apply Forall_cons in H as [[H|H] _]; by vm_compute in H.
    + exists o'. split; [exact Hr|]. rewrite Hk; [done|]. intros v Hin%list_elem_of_singleton. done.
Defined.

(** An absent key is added even by an update that returns what it was given. *)
Example absent_key_is_added :
  let st := user_store in
  let r := updateKey 0 no_member 1 "nickname" (fun v st => (v, st)) st in
  r.1 <> Ref 1 /\ (own (ob_props (object_at r.2 3)) "nickname") = Some (Scalar 0).
Proof. cbn zeta. split; by vm_compute. Qed.

(** A member that is only inherited is not there to remove, and the source is
    copied all the same. *)
Example inherited_key_is_copied :
  (removeKey (fun k => if bool_decide (k = "toString"%string) then Some (Scalar 9) else None) 1 "toString" user_store).1 <> Ref 1.
Proof. by vm_compute. Qed.
