(* ===== verification/CacheKey.v ===== *)
(** * CacheKey: the key of a cached or locked call

    [src/src/common/aspects/cache-key.ts]: the serialisation of an argument
    list, and the keys that [@Cacheable()] and [@Lock()] build from it.

    [write] is the source's recursion; a value that it refuses is [None].  What
    [JSON.stringify] does to a string is written out ([quote]) with a reader
    ([readBody]) that undoes it.  [canon] is a value with its members in the
    order of their names, at every level: what a key determines. *)

From S2P Require Import Prelude Text Encoding Storage.

(** ** JSON strings *)

Definition hexDigit (d : N) : N := if decide (d < 10)%N then (48 + d)%N else (87 + d)%N.

Definition unicodeEscape (c : N) : JSText :=
  [92; 117; hexDigit (c / 4096); hexDigit (c / 256 mod 16); hexDigit (c / 16 mod 16); hexDigit (c mod 16)]%N.

(** One code unit that is not half of a pair. *)
Definition escape (c : N) : JSText :=
  if decide (c = 34%N) then [92; 34]%N
  else if decide (c = 92%N) then [92; 92]%N
  else if decide (c = 8%N) then [92; 98]%N
  else if decide (c = 9%N) then [92; 116]%N
  else if decide (c = 10%N) then [92; 110]%N
  else if decide (c = 12%N) then [92; 102]%N
  else if decide (c = 13%N) then [92; 114]%N
  else if decide (c < 32)%N then unicodeEscape c
  else if high_surrogate c || low_surrogate c then unicodeEscape c
  else [c].

Fixpoint quoteBody (s : JSText) : JSText :=
  match s with
  | [] => []
  | c :: rest =>
      match rest with
      | d :: rest' => if high_surrogate c && low_surrogate d then c :: d :: quoteBody rest' else escape c ++ quoteBody rest
      | [] => escape c
      end
  end.

(** [JSON.stringify(s)] *)
Definition quote (s : JSText) : JSText := [34%N] ++ quoteBody s ++ [34%N].

Definition digitOf (c : N) : N := if decide (c < 58)%N then (c - 48)%N else (c - 87)%N.

Definition unescape (e : N) : N :=
  if decide (e = 98%N) then 8%N else if decide (e = 116%N) then 9%N else if decide (e = 110%N) then 10%N
  else if decide (e = 102%N) then 12%N else if decide (e = 114%N) then 13%N else e.

(** What stands before the closing quote, and what follows it. *)
Fixpoint readBody (t : JSText) : option (JSText * JSText) :=
  match t with
  | [] => None
  | c :: rest =>
      if decide (c = 34%N) then Some ([], rest)
      else if decide (c = 92%N) then
        match rest with
        | e :: rest1 =>
            if decide (e = 117%N) then
              match rest1 with
              | h1 :: h2 :: h3 :: h4 :: rest2 =>
                  (fun p => ((digitOf h1 * 4096 + digitOf h2 * 256 + digitOf h3 * 16 + digitOf h4)%N :: p.1, p.2)) <$> readBody rest2
              | _ => None
              end
            else (fun p => (unescape e :: p.1, p.2)) <$> readBody rest1
        | [] => None
        end
      else (fun p => (c :: p.1, p.2)) <$> readBody rest
  end.

Definition isUnit (c : N) : Prop := (c < 65536)%N.

Lemma digit_hex d : (d < 16)%N -> digitOf (hexDigit d) = d.
Proof. intros Hd. unfold digitOf, hexDigit. repeat case_decide; lia. Qed.

Lemma read_unicode c t :
  isUnit c -> readBody (unicodeEscape c ++ t) = (fun p => (c :: p.1, p.2)) <$> readBody t.
Proof.
  intros Hc. unfold isUnit in Hc. unfold unicodeEscape. cbn [app readBody]. rewrite decide_False, !decide_True by done.
  assert (c / 4096 < 16)%N by (apply N.Div0.div_lt_upper_bound; lia).
  rewrite !digit_hex by (done || (apply N.mod_upper_bound; lia)).
  replace (c / 4096 * 4096 + c / 256 mod 16 * 256 + c / 16 mod 16 * 16 + c mod 16)%N with c; [done|].
  assert (c / 256 / 16 = c / 4096)%N as E1 by (rewrite N.Div0.div_div; by change (256 * 16)%N with 4096%N).
  assert (c / 16 / 16 = c / 256)%N as E2 by (rewrite N.Div0.div_div; by change (16 * 16)%N with 256%N).
  pose proof (N.div_mod c 16 ltac:(lia)). pose proof (N.div_mod (c / 16) 16 ltac:(lia)) as H2. pose proof (N.div_mod (c / 256) 16 ltac:(lia)) as H3.
  rewrite E2 in H2. rewrite E1 in H3. lia.
Qed.

Lemma read_escape c t : isUnit c -> readBody (escape c ++ t) = (fun p => (c :: p.1, p.2)) <$> readBody t.
Proof.
  intros Hc. unfold escape. repeat (case_decide; [subst; done || by apply read_unicode|]).
  destruct (_ || _); [by apply read_unicode|]. cbn [app readBody]. by rewrite !decide_False.
Qed.

Lemma read_plain c t : c <> 34%N -> c <> 92%N -> readBody (c :: t) = (fun p => (c :: p.1, p.2)) <$> readBody t.
Proof. intros. cbn [readBody]. by rewrite !decide_False. Qed.

Lemma surrogate_plain c : high_surrogate c = true \/ low_surrogate c = true -> c <> 34%N /\ c <> 92%N.
Proof. surrogates. lia. Qed.

Lemma read_quoteBody s t : Forall isUnit s -> readBody (quoteBody s ++ [34%N] ++ t) = Some (s, t).
Proof.
  induction s as [s IH] using (induction_ltof1 _ length). unfold ltof in IH. intros Hs.
  destruct s as [|c [|d rest]]; [done| |]; apply Forall_cons in Hs as [Hc Hs].
  - cbn [quoteBody]. by rewrite read_escape.
  - assert (readBody (quoteBody (d :: rest) ++ [34%N] ++ t) = Some (d :: rest, t)) as Hrest by (apply IH; [cbn; lia|done]).
    change (quoteBody (c :: d :: rest)) with
      (if high_surrogate c && low_surrogate d then c :: d :: quoteBody rest else escape c ++ quoteBody (d :: rest)).
    destruct (high_surrogate c) eqn:Hh, (low_surrogate d) eqn:Hl; cbn [andb];
      try (rewrite <-app_assoc, read_escape, Hrest by done; done).
    apply Forall_cons in Hs as [_ Hs]. cbn [app]. destruct (surrogate_plain c (or_introl Hh)), (surrogate_plain d (or_intror Hl)).
    rewrite !read_plain by done. change (quoteBody rest ++ 34%N :: t) with (quoteBody rest ++ [34%N] ++ t). by rewrite IH by (done || (cbn; lia)).
Qed.

(** A quoted string shows where it ends. *)
Lemma quote_prefix s s' t t' : Forall isUnit s -> Forall isUnit s' -> quote s ++ t = quote s' ++ t' -> s = s' /\ t = t'.
Proof.
  unfold quote. intros Hs Hs' H. rewrite <-!app_assoc in H. injection H as H. apply (f_equal readBody) in H.
  change (readBody (quoteBody s ++ [34%N] ++ t) = readBody (quoteBody s' ++ [34%N] ++ t')) in H. rewrite !read_quoteBody in H by done. by injection H.
Qed.

(** ** Arguments and their text *)

Section Keys.
(** Finite numbers, the two zeros being one; what [String(n)] and
    [toISOString()] print. *)
Context {Num : Type} (numberText : Num -> JSText) (isoText : Z -> JSText).

(** An argument, as the switch and the tests of [write] tell values apart.
    [AnInstance] is an object without enumerable members of its own whose state
    is elsewhere: a URL, an error, a promise. *)
Inductive Arg :=
| ANull
| AUndefined
| AString (s : JSText)
| ANumber (n : Num)
| ANonFinite
| ABool (b : bool)
| ABigInt (z : Z)
| AFunction
| ASymbol
| ADate (at_ : option Z)
| ARegExp (source flags : JSText)
| AMapOrSet
| ABinary
| ACircular
| AnInstance (state : Z)
| AArray (items : list Arg)
| AObject (members : list (JSText * Arg)).

Definition member_le {A} (a b : JSText * A) : Prop := text_le a.1 b.1.

#[local] Instance member_le_dec {A} : RelDecision (member_le (A := A)).
Proof. intros a b. unfold member_le. apply _. Defined.
#[local] Instance member_le_trans {A} : Transitive (member_le (A := A)).
Proof. intros a b c. unfold member_le. apply text_le_trans. Qed.
#[local] Instance member_le_total {A} : Total (member_le (A := A)).
Proof. intros a b. apply text_le_total. Qed.

(** [Object.keys(object).sort()], with what belongs to each key. *)
Definition sortMembers {A} : list (JSText * A) -> list (JSText * A) := merge_sort member_le.

Definition entry (kv : JSText * JSText) : JSText := quote kv.1 ++ js ":" ++ kv.2.

Fixpoint write (v : Arg) : option JSText :=
  match v with
  | ANull => Some (js "null")
  | AUndefined => Some (js "undefined")
  | AString s => Some (quote s)
  | ANumber n => Some (numberText n)
  | ABool b => Some (if b then js "true" else js "false")
  | ABigInt z => Some (js (pretty z) ++ js "n")
  | ADate (Some ms) => Some (js "Date(" ++ isoText ms ++ js ")")
  | ARegExp source flags => Some (js "RegExp(" ++ source ++ js "/" ++ flags ++ js ")")
  | AnInstance _ => Some (js "{}")
  | AArray items => (fun texts => js "[" ++ join (js ",") texts ++ js "]") <$> mapM write items
  | AObject members =>
      (fun texts => js "{" ++ join (js ",") (entry <$> sortMembers texts) ++ js "}") <$>
        mapM (fun kv => pair kv.1 <$> write kv.2) members
  | ANonFinite | AFunction | ASymbol | ADate None | AMapOrSet | ABinary | ACircular => None
  end.

Definition stableStringify (v : Arg) : option JSText := write v.

Record AspectContext := { ac_target : JSText; ac_method : JSText }.

Definition buildDefaultCacheKey (context : AspectContext) (args : list Arg) (prefix : option JSText) : option JSText :=
  (fun text => (match prefix with Some (c :: p) => (c :: p) ++ js ":" | _ => [] end) ++
               (ac_target context ++ js "." ++ ac_method context) ++ js ":" ++ text) <$> stableStringify (AArray args).

Definition buildDefaultLockKey (context : AspectContext) (args : list Arg) (prefix : option JSText) : option JSText :=
  (fun text => default (js "lock") prefix ++ js ":" ++ (ac_target context ++ js "." ++ ac_method context) ++ js ":" ++ text)
    <$> stableStringify (AArray args).

(** ** What a key determines *)

(** A value with its members in the order of their names. *)
Fixpoint canon (v : Arg) : Arg :=
  match v with
  | AArray items => AArray (canon <$> items)
  | AObject members => AObject (sortMembers ((fun kv => (kv.1, canon kv.2)) <$> members))
  | v => v
  end.

(** Data: no pattern, no object with state of its own, texts of code units, and
    names that occur once. *)
Inductive plain : Arg -> Prop :=
| pl_null : plain ANull
| pl_undefined : plain AUndefined
| pl_string s : Forall isUnit s -> plain (AString s)
| pl_number n : plain (ANumber n)
| pl_bool b : plain (ABool b)
| pl_bigint z : plain (ABigInt z)
| pl_date d : plain (ADate d)
| pl_array items : Forall plain items -> plain (AArray items)
| pl_object members : NoDup members.*1 -> Forall (fun kv => Forall isUnit kv.1 /\ plain kv.2) members -> plain (AObject members).

Lemma Arg_nested_ind (P : Arg -> Prop) :
  P ANull -> P AUndefined -> (forall s, P (AString s)) -> (forall n, P (ANumber n)) -> P ANonFinite -> (forall b, P (ABool b)) ->
  (forall z, P (ABigInt z)) -> P AFunction -> P ASymbol -> (forall d, P (ADate d)) -> (forall s f, P (ARegExp s f)) -> P AMapOrSet ->
  P ABinary -> P ACircular -> (forall z, P (AnInstance z)) -> (forall l, Forall P l -> P (AArray l)) ->
  (forall ms, Forall (fun kv => P kv.2) ms -> P (AObject ms)) -> forall v, P v.
Proof.
  intros H1 H2 H3 H4 H5 H6 H7 H8 H9 H10 H11 H12 H13 H14 H15 Ha Ho. fix IH 1. intros v. destruct v as [| |s|n| |b|z| | |d|s f| | | |z|l|ms];
    [apply H1|apply H2|apply H3|apply H4|apply H5|apply H6|apply H7|apply H8|apply H9|apply H10|apply H11|apply H12|apply H13|apply H14|apply H15| |].
  - apply Ha. induction l as [|v l IHl]; constructor; [apply IH|exact IHl].
  - apply Ho. induction ms as [|[k v] ms IHl]; constructor; [apply IH|exact IHl].
Qed.

(** *** Where a text ends *)

Definition stop (r : JSText) : Prop := match r with [] => True | c :: _ => c = 44%N \/ c = 93%N \/ c = 125%N end.

Definition begins (t : JSText) : Prop := match t with [] => False | c :: _ => c <> 44%N /\ c <> 93%N /\ c <> 125%N end.

(** A character of a token that needs no delimiters of its own. *)
Definition tokenChar (c : N) : Prop := c <> 34%N /\ c <> 44%N /\ c <> 91%N /\ c <> 93%N /\ c <> 123%N /\ c <> 125%N.

Lemma token_prefix t u r s :
  Forall tokenChar t -> Forall tokenChar u -> t ++ r = u ++ s -> stop r -> stop s -> t = u /\ r = s.
Proof.
  intros Ht. revert u. induction Ht as [|c t Hc Ht IH]; intros [|d u] Hu H Hr Hs; cbn in H.
  - done.
  - subst r. apply Forall_cons in Hu as [(_ & ? & _ & ? & _ & ?) _]. cbn in Hr. exfalso. tauto.
  - subst s. destruct Hc as (_ & ? & _ & ? & _ & ?). cbn in Hs. exfalso. tauto.
  - injection H as -> H. apply Forall_cons in Hu as [_ Hu]. destruct (IH u Hu H Hr Hs) as [-> ->]. done.
Qed.

(** Texts joined with commas come apart where they were joined. *)
Lemma join_prefix {A B} (f : A -> JSText) (g : B -> JSText) (R : A -> B -> Prop) (close : N) l1 l2 r s :
  (forall a b r s, a ∈ l1 -> b ∈ l2 -> f a ++ r = g b ++ s -> stop r -> stop s -> R a b /\ r = s) ->
  (forall a, a ∈ l1 -> begins (f a)) -> (forall b, b ∈ l2 -> begins (g b)) -> close = 93%N \/ close = 125%N ->
  join (js ",") (f <$> l1) ++ close :: r = join (js ",") (g <$> l2) ++ close :: s -> Forall2 R l1 l2 /\ r = s.
Proof.
  intros HR Hf Hg Hc. assert (forall x, stop (close :: x)) as Hclose by (intros x; cbn; tauto).
  assert (forall x, stop (js "," ++ x)) as Hcomma by (intros x; cbn; tauto).
  revert l2 HR Hg. induction l1 as [|a l1 IH]; intros [|b l2] HR Hg H.
  - cbn in H. injection H as ->. by split.
  - exfalso. specialize (Hg b ltac:(by left)). destruct (g b) as [|c t] eqn:E; [done|]. cbn in Hg.
    destruct l2; cbn in H; rewrite E in H; injection H as -> _; tauto.
  - exfalso. specialize (Hf a ltac:(by left)). destruct (f a) as [|c t] eqn:E; [done|]. cbn in Hf.
    destruct l1; cbn in H; rewrite E in H; injection H as -> _; tauto.
  - assert (forall A (h : A -> JSText) x xs, exists rest, stop rest /\ join (js ",") (h <$> x :: xs) = h x ++ rest /\
      (rest = [] /\ xs = [] \/ rest = js "," ++ join (js ",") (h <$> xs) /\ xs <> [])) as Hj.
    { intros A' h x [|y ys]; [exists []; rewrite app_nil_r; split_and!; [done|done|by left]|]. eexists. split_and!; [|reflexivity|right; done]. cbn. tauto. }
    destruct (Hj A f a l1) as (ra & Hra & Ea & Ca), (Hj B g b l2) as (rb & Hrb & Eb & Cb). clear Hj. rewrite Ea, Eb, <-!app_assoc in H.
    assert (stop (ra ++ close :: r) /\ stop (rb ++ close :: s)) as [S1 S2] by (split; [destruct ra|destruct rb]; cbn in *; auto).
    destruct (HR a b _ _ ltac:(by left) ltac:(by left) H S1 S2) as [Hab Heq].
    destruct Ca as [[-> ->]|[-> Hne1]], Cb as [[-> ->]|[-> Hne2]]; cbn in Heq.
    + injection Heq as ->. split; [by repeat constructor|done].
    + exfalso. by destruct Hc; subst close.
    + exfalso. by destruct Hc; subst close.
    + injection Heq as Heq. destruct (IH ltac:(intros; apply Hf; by right) l2) as [HF ->]; [intros; eapply HR; by (done || right)|intros; apply Hg; by right|done|].
      split; [by constructor|done].
Qed.

(** *** Sorting by name *)

(** Names that occur once leave one order. *)
Lemma sorted_unique {A} (l1 l2 : list (JSText * A)) :
  NoDup l1.*1 -> StronglySorted member_le l1 -> StronglySorted member_le l2 -> l1 ≡ₚ l2 -> l1 = l2.
Proof.
  intros Hnd H1 H2 Hp. apply (StronglySorted_unique_strong member_le); [|done..].
  intros [k1 x1] [k2 x2] Hx1 Hx2 Hle1 Hle2. rewrite <-Hp in Hx2. assert (k1 = k2) as -> by (by apply (anti_symm text_le)). f_equal.
  apply list_elem_of_lookup in Hx1 as [i Hi], Hx2 as [j Hj].
  assert (i = j) as <-; [|congruence]. eapply (NoDup_lookup l1.*1); [done| |]; rewrite list_lookup_fmap; [by rewrite Hi|by rewrite Hj].
Qed.

Lemma sortMembers_sorted {A} (l : list (JSText * A)) : StronglySorted member_le (sortMembers l).
Proof. apply Sorted_StronglySorted; [apply _|apply (Sorted_merge_sort member_le)]. Qed.

Lemma sort_perm {A} (l1 l2 : list (JSText * A)) : NoDup l1.*1 -> l1 ≡ₚ l2 -> sortMembers l1 = sortMembers l2.
Proof.
  intros Hnd Hp. apply sorted_unique; [|apply sortMembers_sorted..|].
  - unfold sortMembers. by rewrite merge_sort_Permutation.
  - unfold sortMembers. by rewrite !merge_sort_Permutation.
Qed.

Lemma sort_map {A B} (g : A -> B) (l : list (JSText * A)) :
  NoDup l.*1 -> sortMembers ((fun kv => (kv.1, g kv.2)) <$> l) = (fun kv => (kv.1, g kv.2)) <$> sortMembers l.
Proof.
  intros Hnd. apply sorted_unique; [|apply sortMembers_sorted| |].
  - unfold sortMembers. rewrite merge_sort_Permutation, <-list_fmap_compose. exact Hnd.
  - pose proof (sortMembers_sorted l) as Hs. induction Hs as [|kv l' Hs IH Hkv]; [constructor|].
    cbn. constructor; [done|]. apply Forall_fmap. eapply Forall_impl; [exact Hkv|]. done.
  - unfold sortMembers. by rewrite !merge_sort_Permutation.
Qed.

(** *** Scalars *)

(** What is documented of the two printers: a number is printed with digits, a
    point, an exponent and signs, and starts with a digit or a minus; a date
    needs no delimiter; and both print different values differently. *)
Definition numberChar (c : N) : Prop := (48 <= c <= 57)%N \/ c = 43%N \/ c = 45%N \/ c = 46%N \/ c = 101%N.

Context (number_chars : forall n, Forall numberChar (numberText n) /\ exists c t, numberText n = c :: t /\ (c = 45%N \/ (48 <= c <= 57)%N)).
Context (number_inj : forall n m, numberText n = numberText m -> n = m).
Context (iso_chars : forall ms, Forall tokenChar (isoText ms)) (iso_inj : forall a b, isoText a = isoText b -> a = b).

Lemma number_tokenChar c : numberChar c -> tokenChar c.
Proof. unfold numberChar, tokenChar. lia. Qed.

Lemma pretty_chars (z : Z) : Forall numberChar (js (pretty z)) /\
  exists c t, js (pretty z) = c :: t /\ (c = 45%N \/ (48 <= c <= 57)%N).
Proof.
  assert (forall w : Z, 0 <= w -> Forall (fun c => (48 <= c <= 57)%N) (js (pretty w)) /\
    exists c t, js (pretty w) = c :: t /\ (48 <= c <= 57)%N) as Hpos.
  { intros w Hw. destruct (pretty_decimal w Hw) as (Hd & _ & Hne).
    assert (Forall (fun c => (48 <= c <= 57)%N) (js (pretty w))) as Hall by (apply allDigits_Forall; by apply allDigits_js).
    split; [done|]. rewrite <-toText_js in Hne. destruct (js (pretty w)) as [|c t]; [done|]. apply Forall_cons in Hall as [Hc _]. eauto. }
  destruct (decide (0 <= z)) as [Hz|Hz].
  - destruct (Hpos z Hz) as [H1 (c & t & H2 & H3)]. split; [|eauto 10]. eapply Forall_impl; [exact H1|]. intros d Hd. by left.
  - destruct z as [|q|q]; [lia|lia|]. destruct (Hpos (Z.pos q)) as [H1 _]; [lia|].
    change (js (pretty (Z.neg q))) with (45%N :: js (pretty (Z.pos q))). split; [|eauto 10].
    constructor; [unfold numberChar; tauto|]. eapply Forall_impl; [exact H1|]. intros d Hd. by left.
Qed.

(** The first character of a scalar's text. *)
Definition headOf (v : Arg) (c : N) : Prop :=
  match v with
  | ANull => c = 110%N
  | AUndefined => c = 117%N
  | ABool b => c = if b then 116%N else 102%N
  | ANumber _ | ABigInt _ => c = 45%N \/ (48 <= c <= 57)%N
  | ADate _ => c = 68%N
  | _ => False
  end.

Definition scalar (v : Arg) : Prop :=
  match v with ANull | AUndefined | ABool _ | ANumber _ | ABigInt _ | ADate _ => True | _ => False end.

Lemma scalar_text v t : scalar v -> write v = Some t -> Forall tokenChar t /\ exists c t', t = c :: t' /\ headOf v c.
Proof using number_chars iso_chars.
  destruct v as [| |s|n| |b|z| | |[ms|]| | | | | | |]; try done; cbn [write]; intros _ [= <-].
  - split; [by repeat constructor|]. by eexists _, _.
  - split; [by repeat constructor|]. by eexists _, _.
  - destruct (number_chars n) as [H1 (c & t & H2 & H3)]. split; [|by rewrite H2; eexists _, _].
    eapply Forall_impl; [exact H1|]. apply number_tokenChar.
  - destruct b; (split; [by repeat constructor|]; by eexists _, _).
  - destruct (pretty_chars z) as [H1 (c & t & H2 & H3)]. split; [|by rewrite H2; eexists _, _].
    apply Forall_app_2; [|by repeat constructor]. eapply Forall_impl; [exact H1|]. apply number_tokenChar.
  - split; [|by eexists _, _]. change (Forall tokenChar (js "Date(" ++ isoText ms ++ js ")")). apply Forall_app_2; [by repeat constructor|]. apply Forall_app_2; [apply iso_chars|by repeat constructor].
Qed.

Lemma number_not_bigint n (z : Z) : numberText n <> js (pretty z) ++ js "n".
Proof using number_chars.
  intros H. destruct (number_chars n) as [Hn _]. rewrite H in Hn. apply Forall_app in Hn as [_ Hn]. cbn in Hn.
  apply Forall_cons in Hn as [Hn _]. unfold numberChar in Hn. lia.
Qed.

Lemma scalar_inj v w t : scalar v -> scalar w -> write v = Some t -> write w = Some t -> v = w.
Proof using number_chars number_inj iso_inj iso_chars.
  intros Hv Hw Ht Hu. destruct (scalar_text v t Hv Ht) as [_ (c & t' & Ec & Hc)], (scalar_text w t Hw Hu) as [_ (d & u' & Ed & Hd)].
  assert (c = d) as <- by congruence. clear Ec Ed t' u'.
  destruct v as [| |s|n| |b|z| | |[ms|]| | | | | | |]; try done; destruct w as [| |s'|n'| |b'|z'| | |[ms'|]| | | | | | |]; try done;
    cbn [headOf] in Hc, Hd; try (exfalso; first [lia|destruct b; lia|destruct b'; lia|destruct b, b'; lia]).
  - f_equal. apply number_inj. cbn in Ht, Hu. congruence.
  - exfalso. cbn [write] in Ht, Hu. apply (number_not_bigint n z'). congruence.
  - destruct b, b'; done || lia.
  - exfalso. cbn [write] in Ht, Hu. apply (number_not_bigint n' z). congruence.
  - cbn [write] in Ht, Hu. assert (js (pretty z) ++ js "n" = js (pretty z') ++ js "n") as H by congruence.
    apply app_inv_tail, js_inj in H. by apply (inj pretty) in H as ->.
  - cbn [write] in Ht, Hu. assert (js "Date(" ++ isoText ms ++ js ")" = js "Date(" ++ isoText ms' ++ js ")") as H by congruence.
    apply app_inv_head, app_inv_tail in H. by apply iso_inj in H as ->.
Qed.

(** *** Values *)

Lemma plain_cases v t : plain v -> write v = Some t ->
  scalar v \/ (exists s, v = AString s /\ Forall isUnit s /\ t = quote s) \/
  (exists items texts, v = AArray items /\ Forall plain items /\ mapM write items = Some texts /\ t = js "[" ++ join (js ",") texts ++ js "]") \/
  (exists ms texts, v = AObject ms /\ NoDup ms.*1 /\ Forall (fun kv => Forall isUnit kv.1 /\ plain kv.2) ms /\
     mapM (fun kv => pair kv.1 <$> write kv.2) ms = Some texts /\ t = js "{" ++ join (js ",") (entry <$> sortMembers texts) ++ js "}").
Proof.
  intros Hp Ht. destruct Hp as [| |s Hs|n|b|z|d|items Hi|ms Hnd Hms]; try by left.
  - right. left. exists s. cbn [write] in Ht. split_and!; [done..|congruence].
  - right. right. left. cbn [write] in Ht. apply fmap_Some in Ht as (texts & Htx & ->). by exists items, texts.
  - right. right. right. cbn [write] in Ht. apply fmap_Some in Ht as (texts & Htx & ->). by exists ms, texts.
Qed.

Lemma write_begins v t : plain v -> write v = Some t -> begins t.
Proof using number_chars iso_chars.
  intros Hp Ht. destruct (plain_cases v t Hp Ht) as [Hs|[(s & -> & _ & ->)|[(items & texts & -> & _ & _ & ->)|(ms & texts & -> & _ & _ & _ & ->)]]].
  - destruct (scalar_text v t Hs Ht) as [Hall (c & t' & -> & _)]. apply Forall_cons in Hall as [(_ & ? & _ & ? & _ & ?) _]. done.
  - done.
  - done.
  - done.
Qed.

(** The items of an array, each with its text. *)
Lemma mapM_pairs {A B} (f : A -> option B) l k : mapM f l = Some k ->
  exists ps : list (A * B), ps.*1 = l /\ ps.*2 = k /\ Forall (fun p => f p.1 = Some p.2) ps.
Proof.
  intros H%mapM_Some_1. induction H as [|a b l k Hab _ (ps & <- & <- & Hps)]; [by exists []|].
  exists ((a, b) :: ps). by split_and!; [..|constructor].
Qed.

Definition settles (v : Arg) : Prop := forall w t u r s,
  plain v -> plain w -> write v = Some t -> write w = Some u -> t ++ r = u ++ s -> stop r -> stop s -> canon v = canon w /\ r = s.

Lemma array_settles items : Forall settles items -> settles (AArray items).
Proof using number_chars iso_chars.
  intros IH w t u r s Hv Hw Ht Hu H Hr Hs.
  destruct (plain_cases _ _ Hv Ht) as [[]|[(? & [=] & _)|[(its & ta & [= <-] & Hpi & Hta & ->)|(? & ? & [=] & _)]]].
  destruct (plain_cases w u Hw Hu) as [Hsc|[(s' & -> & _ & ->)|[(items' & tb & -> & Hpi' & Htb & ->)|(? & ? & -> & _ & _ & _ & ->)]]]; [|done| |done].
  { exfalso. destruct (scalar_text w u Hsc Hu) as [Hall (c & u' & -> & _)]. injection H as <- _. by apply Forall_cons in Hall as [(_ & _ & ? & _) _]. }
  apply mapM_pairs in Hta as (ps & <- & <- & Hps), Htb as (qs & <- & <- & Hqs).
  rewrite <-!app_assoc in H. injection H as H.
  destruct (join_prefix snd snd (fun p q => canon p.1 = canon q.1) 93 ps qs r s) as [HF ->]; [| | |by left|exact H|].
  - intros p q r' s' Hp Hq Heq Hr' Hs'. rewrite Forall_forall in Hps, Hqs.
    rewrite Forall_fmap, Forall_forall in IH. rewrite Forall_fmap, Forall_forall in Hpi, Hpi'.
    exact (IH p Hp q.1 p.2 q.2 r' s' (Hpi p Hp) (Hpi' q Hq) (Hps p Hp) (Hqs q Hq) Heq Hr' Hs').
  - intros p Hp. rewrite Forall_forall in Hps. rewrite Forall_fmap, Forall_forall in Hpi. exact (write_begins p.1 _ (Hpi p Hp) (Hps p Hp)).
  - intros p Hp. rewrite Forall_forall in Hqs. rewrite Forall_fmap, Forall_forall in Hpi'. exact (write_begins p.1 _ (Hpi' p Hp) (Hqs p Hp)).
  - split; [|done]. cbn [canon]. f_equal. clear -HF. induction HF as [|p q ps qs Hpq _ IH]; [done|]. cbn. by rewrite Hpq, IH.
Qed.

(** The members of an object in order, each with its text. *)
Lemma members_sorted ms texts : NoDup ms.*1 -> mapM (fun kv => pair kv.1 <$> write kv.2) ms = Some texts ->
  exists ps : list (JSText * (Arg * JSText)),
    (forall p, p ∈ ps -> (p.1, p.2.1) ∈ ms /\ write p.2.1 = Some p.2.2) /\
    sortMembers texts = (fun p => (p.1, p.2.2)) <$> ps /\ canon (AObject ms) = AObject ((fun p => (p.1, canon p.2.1)) <$> ps).
Proof.
  intros Hnd Hm. apply mapM_pairs in Hm as (qs & <- & <- & Hqs).
  set (tri := (fun q : (JSText * Arg) * (JSText * JSText) => (q.1.1, (q.1.2, q.2.2))) <$> qs).
  assert (qs.*1 = (fun p => (p.1, p.2.1)) <$> tri) as E1.
  { unfold tri. rewrite <-list_fmap_compose. apply list_fmap_ext. by intros _ [[k v] [k' t]] _. }
  assert (qs.*2 = (fun p => (p.1, p.2.2)) <$> tri) as E2.
  { unfold tri. rewrite <-list_fmap_compose. apply list_fmap_ext. intros i [[k v] [k' t]] Hi. cbn.
    rewrite Forall_forall in Hqs. specialize (Hqs _ (list_elem_of_lookup_2 _ _ _ Hi)). cbn in Hqs. by destruct (write v); simplify_eq/=. }
  assert (NoDup tri.*1) as Hnd' by (rewrite E1, <-list_fmap_compose in Hnd; exact Hnd).
  exists (sortMembers tri). split_and!.
  - intros p Hp. unfold sortMembers in Hp. rewrite merge_sort_Permutation in Hp. split; [rewrite E1; apply list_elem_of_fmap; by exists p|].
    unfold tri in Hp. apply list_elem_of_fmap in Hp as ([[k v] [k' t]] & -> & Hq). rewrite Forall_forall in Hqs. specialize (Hqs _ Hq). cbn in *.
    by destruct (write v); simplify_eq/=.
  - rewrite E2. apply (sort_map snd tri Hnd').
  - cbn [canon]. f_equal. rewrite E1, <-list_fmap_compose. apply (sort_map (fun x => canon x.1) tri Hnd').
Qed.

Lemma object_settles ms : Forall (fun kv => settles kv.2) ms -> settles (AObject ms).
Proof using number_chars iso_chars.
  intros IH w t u r s Hv Hw Ht Hu H Hr Hs.
  destruct (plain_cases _ _ Hv Ht) as [[]|[(? & [=] & _)|[(? & ? & [=] & _)|(ms1 & ta & [= <-] & Hnd & Hpm & Hta & ->)]]].
  destruct (plain_cases w u Hw Hu) as [Hsc|[(s' & -> & _ & ->)|[(? & ? & -> & _ & _ & ->)|(ms' & tb & -> & Hnd' & Hpm' & Htb & ->)]]]; [|done|done|].
  { exfalso. destruct (scalar_text w u Hsc Hu) as [Hall (c & u' & -> & _)]. injection H as <- _. by apply Forall_cons in Hall as [(_ & _ & _ & _ & ? & _) _]. }
  destruct (members_sorted ms ta Hnd Hta) as (ps & Hps & Eps & Cps), (members_sorted ms' tb Hnd' Htb) as (qs & Hqs & Eqs & Cqs).
  rewrite Eps, Eqs, <-!list_fmap_compose in H. rewrite <-!app_assoc in H. injection H as H.
  rewrite Forall_forall in IH, Hpm, Hpm'.
  destruct (join_prefix (fun p : JSText * (Arg * JSText) => entry (p.1, p.2.2)) (fun p : JSText * (Arg * JSText) => entry (p.1, p.2.2))
    (fun p q => (p.1, canon p.2.1) = (q.1, canon q.2.1)) 125 ps qs r s) as [HF ->]; [| | |by right|exact H|].
  - intros p q r' s' Hp Hq Heq Hr' Hs'. destruct (Hps p Hp) as [Hpin Hpw], (Hqs q Hq) as [Hqin Hqw].
    unfold entry in Heq. cbn [fst snd] in Heq. rewrite <-!app_assoc in Heq.
    destruct (quote_prefix p.1 q.1 _ _ (proj1 (Hpm _ Hpin)) (proj1 (Hpm' _ Hqin)) Heq) as [-> Heq']. injection Heq' as Heq'.
    destruct (IH _ Hpin q.2.1 p.2.2 q.2.2 r' s' (proj2 (Hpm _ Hpin)) (proj2 (Hpm' _ Hqin)) Hpw Hqw Heq' Hr' Hs') as [Hcan ->]. cbn in Hcan. by rewrite Hcan.
  - done.
  - done.
  - split; [|done]. rewrite Cps, Cqs. f_equal. clear -HF. induction HF as [|p q ps qs Hpq _ IH]; [done|]. cbn. by rewrite Hpq, IH.
Qed.

Lemma all_settle v : settles v.
Proof using All.
  induction v as [| |x|n| |b|z| | |d|x f| | | |z|items IH|ms IH] using Arg_nested_ind;
    [.. |by apply array_settles|by apply object_settles].
  all: intros w t u r s Hv Hw Ht Hu H Hr Hs; try by inversion Hv.
  all: destruct (plain_cases w u Hw Hu) as [Hsc|[(s' & -> & Hus & ->)|[(? & ? & -> & _ & _ & ->)|(? & ? & -> & _ & _ & _ & ->)]]];
    try (match type of Ht with write ?v = _ =>
      destruct (scalar_text v t I Ht) as [Hall (c & t' & Et & Hc)] end; subst t; injection H as -> _;
      apply Forall_cons in Hall as [(? & ? & ? & ? & ? & ?) _]; done);
    try (match type of Ht with write ?v = _ =>
      destruct (scalar_text v t I Ht) as [Ha _], (scalar_text w u Hsc Hu) as [Hb _];
      destruct (token_prefix t u r s Ha Hb H Hr Hs) as [-> ->];
      split; [|done]; f_equal; exact (scalar_inj v w u I Hsc Ht Hu) end).
  (* a string *)
  all: cbn [write] in Ht; injection Ht as <-.
  - exfalso. destruct (scalar_text w u Hsc Hu) as [Hall (c & u' & -> & _)]. injection H as <- _. by apply Forall_cons in Hall as [(? & _) _].
  - inversion Hv as [| |? Hx| | | | | |]; subst. destruct (quote_prefix x s' r s Hx Hus H) as [-> ->]. done.
  - done.
  - done.
Qed.

(** *** The order of members does not matter *)

Lemma mapM_perm {A B} (f : A -> option B) l k : l ≡ₚ k ->
  match mapM f l, mapM f k with Some a, Some b => a ≡ₚ b | None, None => True | _, _ => False end.
Proof.
  induction 1 as [|x l k _ IH|x y l|l k m _ IH1 _ IH2]; [constructor| | |].
  - cbn. destruct (f x); cbn; [|done]. destruct (mapM f l), (mapM f k); cbn; try done. by rewrite IH.
  - cbn. destruct (f x), (f y); cbn; try done; destruct (mapM f l); cbn; try done. by constructor.
  - destruct (mapM f l), (mapM f k), (mapM f m); try done. by etrans.
Qed.

Lemma mapM_names (l : list (JSText * Arg)) texts : mapM (fun kv => pair kv.1 <$> write kv.2) l = Some texts -> texts.*1 = l.*1.
Proof.
  intros H%mapM_Some_1. induction H as [|[k v] [k' t'] l texts Hkv _ IH]; [done|]. cbn in *. rewrite IH. f_equal. by destruct (write v); simplify_eq/=.
Qed.

Lemma mapM_map {A B C} (f : B -> option C) (g : A -> B) (h : A -> option C) l :
  (forall x, x ∈ l -> f (g x) = h x) -> mapM f (g <$> l) = mapM h l.
Proof.
  induction l as [|x l IH]; intros H; [done|]. cbn. rewrite H by (by left). rewrite IH; [done|]. intros y Hy. apply H. by right.
Qed.

Lemma write_canon v : plain v -> write (canon v) = write v.
Proof.
  induction v as [| |x|n| |b|z| | |d|x f| | | |z|items IH|ms IH] using Arg_nested_ind; intros Hp; try done; cbn [canon write].
  - inversion Hp as [| | | | | | |? Hi|]; subst. rewrite Forall_forall in IH, Hi. f_equal. apply mapM_map. auto.
  - inversion Hp as [| | | | | | | |? Hnd Hms]; subst. rewrite Forall_forall in IH, Hms. rewrite (sort_map canon ms Hnd).
    rewrite (mapM_map _ _ (fun kv => pair kv.1 <$> write kv.2)).
    2: { intros [k v] Hk. unfold sortMembers in Hk. rewrite merge_sort_Permutation in Hk.
      pose proof (IH (k, v) Hk (proj2 (Hms (k, v) Hk))) as E. cbn [fst snd] in E |- *. by rewrite E. }
    pose proof (mapM_perm (fun kv : JSText * Arg => pair kv.1 <$> write kv.2) (sortMembers ms) ms (merge_sort_Permutation _ _)) as Hpm.
    destruct (mapM _ (sortMembers ms)) as [a|] eqn:Ea, (mapM _ ms) as [b|] eqn:Eb; try done. cbn. rewrite (sort_perm a b); [done| |done].
    rewrite (mapM_names _ _ Ea). unfold sortMembers. by rewrite merge_sort_Permutation.
Qed.

(** ** Properties *)

(** C35: a key names one call.  For two argument lists of plain data, of one
    method: if both have a cache key, or both a lock key, then the keys are the
    same exactly if the lists are the same up to the order of the members of
    their objects - and so no call is ever answered with the result of another,
    and none waits for another. *)
Theorem key_names_one_call context prefix args args' key key' :
  Forall plain args -> Forall plain args' ->
  (buildDefaultCacheKey context args prefix = Some key -> buildDefaultCacheKey context args' prefix = Some key' ->
     (key = key' <-> canon (AArray args) = canon (AArray args'))) /\
  (buildDefaultLockKey context args prefix = Some key -> buildDefaultLockKey context args' prefix = Some key' ->
     (key = key' <-> canon (AArray args) = canon (AArray args'))).
Proof using All.
  intros Hp Hp'. assert (forall t t', write (AArray args) = Some t -> write (AArray args') = Some t' ->
    (t = t' <-> canon (AArray args) = canon (AArray args'))) as Htext.
  { intros t t' Ht Ht'. split.
    - intros ->. apply (all_settle (AArray args) (AArray args') t' t' [] []); try done; by constructor.
    - intros E. assert (write (canon (AArray args)) = write (canon (AArray args'))) as Ew by by rewrite E.
      rewrite !write_canon in Ew by (by constructor). congruence. }
  unfold buildDefaultCacheKey, buildDefaultLockKey, stableStringify. split; intros (t & Ht & ->)%fmap_Some (t' & Ht' & ->)%fmap_Some;
    rewrite <-(Htext t t' Ht Ht'); split; [|by intros ->| |by intros ->]; intros H.
  - apply app_inv_head, app_inv_head, app_inv_head in H. done.
  - apply app_inv_head, app_inv_head, app_inv_head, app_inv_head in H. done.
Qed.
End Keys.
Arguments Arg : clear implicits.

(** ** Examples *)

Definition iso_of (ms : Z) : JSText := js (pretty ms) ++ js "Z".

Lemma pretty_number (z : Z) : Forall numberChar (js (pretty z)) /\ exists c t, js (pretty z) = c :: t /\ (c = 45%N \/ (48 <= c <= 57)%N).
Proof. apply pretty_chars. Qed.

Lemma pretty_token (z : Z) : Forall tokenChar (iso_of z).
Proof.
  apply Forall_app_2; [|by repeat constructor]. eapply Forall_impl; [apply pretty_number|]. apply number_tokenChar.
Qed.

Definition find_users : AspectContext := {| ac_target := js "UsersService"; ac_method := js "findUsers" |}.

Definition query (first second : JSText * Arg Z) : list (Arg Z) := [AObject [first; second]; AString (js "a,b]")].

Lemma key_names_one_call_witness :
  let numberText := fun z : Z => js (pretty z) in
  exists key, buildDefaultCacheKey numberText iso_of find_users (query (js "role", AString (js "admin")) (js "limit", ANumber 20)) None = Some key /\
    buildDefaultCacheKey numberText iso_of find_users (query (js "limit", ANumber 20) (js "role", AString (js "admin"))) None = Some key.
Proof.
  intros numberText. set (a := query (js "role", AString (js "admin")) (js "limit", ANumber 20)).
  set (b := query (js "limit", ANumber 20) (js "role", AString (js "admin"))).
  destruct (buildDefaultCacheKey numberText iso_of find_users a None) as [key|] eqn:Ea; [|by vm_compute in Ea].
  destruct (buildDefaultCacheKey numberText iso_of find_users b None) as [key'|] eqn:Eb; [|by vm_compute in Eb].
  exists key. split; [done|]. f_equal. symmetry.
  assert (forall n m, numberText n = numberText m -> n = m) as Hn by (intros n m H; by apply js_inj, (inj pretty) in H).
  assert (forall x y, iso_of x = iso_of y -> x = y) as Hi by (intros x y H; unfold iso_of in H; by apply app_inv_tail, js_inj, (inj pretty) in H).
  assert (Forall plain a /\ Forall plain b) as [Pa Pb].
  { split; (constructor; [|constructor; [|constructor]]); try (apply pl_string; by repeat constructor);
      (apply pl_object; [repeat constructor; set_solver|]); repeat (constructor; [by repeat constructor|]); constructor. }
  destruct (key_names_one_call numberText iso_of pretty_number Hn pretty_token Hi find_users None a b key key' Pa Pb) as [H _].
  apply (H Ea Eb). by vm_compute.
Defined.

(** Objects whose state is not in members of their own share one key, where the
    comment says that what cannot be told apart is refused. *)
Example instances_share_a_key :
  buildDefaultCacheKey (fun z : Z => js (pretty z)) iso_of find_users [AnInstance 1] None =
  buildDefaultCacheKey (fun z : Z => js (pretty z)) iso_of find_users [AnInstance 2] None /\
  buildDefaultCacheKey (fun z : Z => js (pretty z)) iso_of find_users [AnInstance 1] None <> None.
Proof. split; [done|by vm_compute]. Qed.
