(* ===== verification/CacheFlight.v ===== *)
(** * CacheFlight: concurrent calls of a cached method

    [applyCacheable] of [src/src/common/aspects/cacheable.aspect.ts].  Callers
    of one woven method share its store and its map of calls in flight.  An
    event is one turn of the event loop: a call arrives, its read of the store
    is answered, the method settles, a write to the store is answered, an
    awaiting caller resumes. *)

From S2P Require Import Prelude.

Section Cacheable.
Context {Key V Err : Type} `{!EqDecision Key, !Countable Key}.

(** The promise of [load]'s inner function: the method runs, its value is being
    written, or it has settled. *)
Inductive Flight := Running | Writing (v : V) | Settled (r : Err + V).

Record Promise := { pr_key : Key; pr_flight : Flight }.

(** A caller waits for the store, awaits a promise - its own, or one that it
    found - or has its answer. *)
Inductive Caller :=
| Reading (key : Key)
| Awaiting (key : Key) (promise : nat) (own : bool)
| Answered (key : Key) (r : Err + V).

Record Cache := {
  cc_store : gmap Key V;
  cc_inFlight : gmap Key nat;
  cc_promises : gmap nat Promise;
  cc_callers : gmap nat Caller }.

Definition new_cache (store : gmap Key V) : Cache := {| cc_store := store; cc_inFlight := ∅; cc_promises := ∅; cc_callers := ∅ |}.

Inductive CacheEvent :=
| Arrive (caller : nat) (key : Key)
| ReadDone (caller : nat) (readable : bool) (thrown : option Err)   (* a method that is then called may throw at once *)
| Return (promise : nat) (r : Err + V)
| WriteDone (promise : nat) (stored : bool)
| Wake (caller : nat)
| Evict (key : Key).

Definition with_caller (c : Cache) (i : nat) (x : Caller) : Cache :=
  {| cc_store := cc_store c; cc_inFlight := cc_inFlight c; cc_promises := cc_promises c; cc_callers := <[i := x]> (cc_callers c) |}.

Definition with_promise (c : Cache) (p : nat) (x : Promise) : Cache :=
  {| cc_store := cc_store c; cc_inFlight := cc_inFlight c; cc_promises := <[p := x]> (cc_promises c); cc_callers := cc_callers c |}.

(** [read]: a store that fails is a miss. *)
Definition read (c : Cache) (key : Key) (readable : bool) : option V := if readable then cc_store c !! key else None.

(** [load], after its read of the store. *)
Definition load (c : Cache) (i : nat) (key : Key) (readable : bool) (thrown : option Err) : Cache :=
  match read c key readable with
  | Some v => with_caller c i (Answered key (inr v))
  | None =>
      match cc_inFlight c !! key with
      | Some pending => with_caller c i (Awaiting key pending false)
      | None =>
          let p := fresh (dom (cc_promises c)) in
          let flight := match thrown with Some e => Settled (inl e) | None => Running end in
          {| cc_store := cc_store c; cc_inFlight := <[key := p]> (cc_inFlight c);
             cc_promises := <[p := {| pr_key := key; pr_flight := flight |}]> (cc_promises c);
             cc_callers := <[i := Awaiting key p true]> (cc_callers c) |}
      end
  end.

(** [write]: only a value is stored, and a store that fails changes nothing. *)
Definition store_write (c : Cache) (p : nat) (key : Key) (v : V) (stored : bool) : Cache :=
  {| cc_store := if stored then <[key := v]> (cc_store c) else cc_store c; cc_inFlight := cc_inFlight c;
     cc_promises := <[p := {| pr_key := key; pr_flight := Settled (inr v) |}]> (cc_promises c); cc_callers := cc_callers c |}.

(** The awaiting caller resumes; whose promise it was removes it. *)
Definition wake (c : Cache) (i : nat) (key : Key) (own : bool) (r : Err + V) : Cache :=
  {| cc_store := cc_store c; cc_inFlight := if own then delete key (cc_inFlight c) else cc_inFlight c;
     cc_promises := cc_promises c; cc_callers := <[i := Answered key r]> (cc_callers c) |}.

Definition cache_step (c : Cache) (e : CacheEvent) : option Cache :=
  match e with
  | Arrive i key => if decide (cc_callers c !! i = None) then Some (with_caller c i (Reading key)) else None
  | ReadDone i readable thrown => match cc_callers c !! i with Some (Reading key) => Some (load c i key readable thrown) | _ => None end
  | Return p r =>
      match cc_promises c !! p with
      | Some {| pr_key := key; pr_flight := Running |} =>
          Some (with_promise c p {| pr_key := key; pr_flight := match r with inl e => Settled (inl e) | inr v => Writing v end |})
      | _ => None
      end
  | WriteDone p stored =>
      match cc_promises c !! p with
      | Some {| pr_key := key; pr_flight := Writing v |} => Some (store_write c p key v stored)
      | _ => None
      end
  | Wake i =>
      match cc_callers c !! i with
      | Some (Awaiting key p own) =>
          match cc_promises c !! p with
          | Some {| pr_flight := Settled r |} => Some (wake c i key own r)
          | _ => None
          end
      | _ => None
      end
  | Evict key => Some {| cc_store := delete key (cc_store c); cc_inFlight := cc_inFlight c; cc_promises := cc_promises c; cc_callers := cc_callers c |}
  end.

Fixpoint cache_steps (c : Cache) (es : list CacheEvent) : option Cache :=
  match es with
  | [] => Some c
  | e :: es => match cache_step c e with Some c' => cache_steps c' es | None => None end
  end.

(** ** What holds after any events *)

Definition unsettled (p : Promise) : Prop := match pr_flight p with Settled _ => False | _ => True end.

(** What a promise knows of the value of its call. *)
Definition yields (p : Promise) (v : V) : Prop := pr_flight p = Writing v \/ pr_flight p = Settled (inr v).

(** Where an answer for [key] may come from. *)
Definition from_call (store0 : gmap Key V) (c : Cache) (key : Key) (r : Err + V) : Prop :=
  (exists p pr, cc_promises c !! p = Some pr /\ pr_key pr = key /\ match r with inl e => pr_flight pr = Settled (inl e) | inr v => yields pr v end) \/
  (exists v, r = inr v /\ store0 !! key = Some v).

Record cache_ok (store0 : gmap Key V) (c : Cache) : Prop := {
  ok_flight : forall key p, cc_inFlight c !! key = Some p -> exists pr, cc_promises c !! p = Some pr /\ pr_key pr = key;
  ok_listed : forall p pr, cc_promises c !! p = Some pr -> unsettled pr -> cc_inFlight c !! pr_key pr = Some p;
  ok_await : forall i key p own, cc_callers c !! i = Some (Awaiting key p own) -> exists pr, cc_promises c !! p = Some pr /\ pr_key pr = key;
  ok_owner : forall i key p, cc_callers c !! i = Some (Awaiting key p true) -> cc_inFlight c !! key = Some p;
  ok_one : forall i j key key' p, cc_callers c !! i = Some (Awaiting key p true) -> cc_callers c !! j = Some (Awaiting key' p true) -> i = j;
  ok_store : forall key v, cc_store c !! key = Some v -> from_call store0 c key (inr v);
  ok_answers : forall i key r, cc_callers c !! i = Some (Answered key r) -> from_call store0 c key r }.

Lemma new_cache_ok store : cache_ok store (new_cache store).
Proof. split; cbn; try (intros; by simplify_map_eq). intros key v H. right. eauto. Qed.

(** A promise that moves on without changing its key or its value. *)
Lemma from_call_mono store0 c c' key r :
  (forall p pr, cc_promises c !! p = Some pr -> exists pr', cc_promises c' !! p = Some pr' /\ pr_key pr' = pr_key pr /\
     (forall v, yields pr v -> yields pr' v) /\ (forall e, pr_flight pr = Settled (inl e) -> pr_flight pr' = Settled (inl e))) ->
  from_call store0 c key r -> from_call store0 c' key r.
Proof.
  intros H [(p & pr & Hp & Hk & Hr)|H0]; [|by right]. left. destruct (H p pr Hp) as (pr' & Hp' & Hk' & Hy & He).
  exists p, pr'. split; [done|]. split; [congruence|]. destruct r; auto.
Qed.

Definition keeps (c c' : Cache) : Prop := forall p pr, cc_promises c !! p = Some pr -> exists pr', cc_promises c' !! p = Some pr' /\ pr_key pr' = pr_key pr /\
     (forall v, yields pr v -> yields pr' v) /\ (forall e, pr_flight pr = Settled (inl e) -> pr_flight pr' = Settled (inl e)).

Lemma keeps_same c c' : cc_promises c' = cc_promises c -> keeps c c'.
Proof. intros E p pr Hp. exists pr. rewrite E. auto. Qed.

Lemma keeps_update c p pr pr' :
  cc_promises c !! p = Some pr -> pr_key pr' = pr_key pr -> (forall v, yields pr v -> yields pr' v) ->
  (forall e, pr_flight pr = Settled (inl e) -> pr_flight pr' = Settled (inl e)) -> forall c', cc_promises c' = <[p := pr']> (cc_promises c) -> keeps c c'.
Proof.
  intros Hp Hk Hy He c' E q qr Hq. rewrite E. destruct (decide (p = q)) as [->|Hne].
  - exists pr'. rewrite lookup_insert_eq. assert (qr = pr) as -> by congruence. done.
  - exists qr. rewrite lookup_insert_ne by done. auto.
Qed.

Section Steps.
Context (store0 : gmap Key V) (c : Cache) (Hok : cache_ok store0 c).

(** Only the caller changes, to something that awaits nothing of its own. *)
Lemma ok_with_caller i x :
  (forall key p own, x = Awaiting key p own -> own = false /\ exists pr, cc_promises c !! p = Some pr /\ pr_key pr = key) ->
  (forall key r, x = Answered key r -> from_call store0 c key r) ->
  (forall key p, cc_callers c !! i <> Some (Awaiting key p true)) -> cache_ok store0 (with_caller c i x).
Proof using Hok.
  intros Ha Hr Hi. destruct Hok as [H1 H2 H3 H4 H5 H6 H7].
  assert (forall j key p own, cc_callers (with_caller c i x) !! j = Some (Awaiting key p own) -> own = true -> cc_callers c !! j = Some (Awaiting key p own)) as Hown.
  { intros j key p own Hj ->. cbn in Hj. apply lookup_insert_Some in Hj as [[-> ->]|[_ Hj]]; [|done]. by destruct (Ha _ _ _ eq_refl). }
  split; try done.
  - intros j key p own Hj. cbn in Hj. apply lookup_insert_Some in Hj as [[-> ->]|[_ Hj]]; [|by eapply H3]. by destruct (Ha _ _ _ eq_refl).
  - intros j key p Hj%Hown; [|done]. by eapply H4.
  - intros j k key key' p Hj%Hown Hk%Hown; [|done..]. by eapply H5.
  - intros j key r Hj. cbn in Hj. apply lookup_insert_Some in Hj as [[-> ->]|[_ Hj]]; [by apply Hr|by eapply H7].
Qed.

(** A promise moves on, and stays listed while it has not settled. *)
Lemma ok_with_promise p pr pr' store' :
  cc_promises c !! p = Some pr -> unsettled pr -> pr_key pr' = pr_key pr -> (forall v, yields pr v -> yields pr' v) ->
  (forall key v, store' !! key = Some v -> cc_store c !! key = Some v \/ (key = pr_key pr /\ yields pr' v)) ->
  cache_ok store0 {| cc_store := store'; cc_inFlight := cc_inFlight c; cc_promises := <[p := pr']> (cc_promises c); cc_callers := cc_callers c |}.
Proof using Hok.
  intros Hp Hu Hk Hy Hst. destruct Hok as [H1 H2 H3 H4 H5 H6 H7].
  set (c' := {| cc_store := store'; cc_inFlight := _; cc_promises := _; cc_callers := _ |}).
  assert (keeps c c') as Hkeep.
  { eapply (keeps_update c p pr pr'); [done..| |done]. intros e He. unfold unsettled in Hu. by rewrite He in Hu. }
  assert (forall q qr, cc_promises c !! q = Some qr -> exists qr', cc_promises c' !! q = Some qr' /\ pr_key qr' = pr_key qr) as Hkey.
  { intros q qr Hq. destruct (Hkeep q qr Hq) as (qr' & ? & ? & _). eauto. }
  split; cbn.
  - intros key q Hq. destruct (H1 key q Hq) as (qr & Hqr & <-). by apply Hkey.
  - intros q qr Hq Hun. apply lookup_insert_Some in Hq as [[-> ->]|[_ Hq]]; [|by apply H2]. rewrite Hk. by apply H2.
  - intros i key q own Hi. destruct (H3 i key q own Hi) as (qr & Hqr & <-). by apply Hkey.
  - done.
  - done.
  - intros key v Hv. destruct (Hst key v Hv) as [Hv'|[-> Hv']].
    + eapply from_call_mono; [exact Hkeep|by apply H6].
    + left. exists p, pr'. cbn. by rewrite lookup_insert_eq.
  - intros i key r Hi. eapply from_call_mono; [exact Hkeep|by eapply H7].
Qed.

Lemma ok_load i key readable thrown : cc_callers c !! i = Some (Reading key) -> cache_ok store0 (load c i key readable thrown).
Proof using Hok.
  intros Hi. unfold load. destruct (read c key readable) as [v|] eqn:Hr.
  { apply ok_with_caller; [done| |by rewrite Hi]. intros key' r [= <- <-]. apply (ok_store _ _ Hok). unfold read in Hr. by destruct readable. }
  destruct (cc_inFlight c !! key) as [p|] eqn:Hp.
  { apply ok_with_caller; [|done|by rewrite Hi]. intros key' q own [= <- <- <-]. split; [done|]. by apply (ok_flight _ _ Hok). }
  set (p := fresh (dom (cc_promises c))). assert (cc_promises c !! p = None) as Hnew by (apply not_elem_of_dom, is_fresh).
  destruct Hok as [H1 H2 H3 H4 H5 H6 H7].
  assert (forall q qr, cc_promises c !! q = Some qr -> p <> q) as Hne by (intros q qr Hq ->; congruence).
  match goal with |- cache_ok _ ?c' => assert (keeps c c') as Hkeep end.
  { intros q qr Hq. exists qr. cbn. rewrite lookup_insert_ne by by eapply Hne. auto. }
  split; cbn.
  - intros key' q Hq. apply lookup_insert_Some in Hq as [[-> <-]|[_ Hq]]; [rewrite lookup_insert_eq; eauto|].
    destruct (H1 _ _ Hq) as (qr & Hqr & <-). rewrite lookup_insert_ne by by eapply Hne. eauto.
  - intros q qr Hq Hun. apply lookup_insert_Some in Hq as [[-> <-]|[_ Hq]]; [by rewrite lookup_insert_eq|].
    pose proof (H2 q qr Hq Hun) as Hl. rewrite lookup_insert_ne; [done|]. intros Hqk. congruence.
  - intros j key' q own Hj. apply lookup_insert_Some in Hj as [[_ [= <- <- <-]]|[_ Hj]]; [rewrite lookup_insert_eq; eauto|].
    destruct (H3 _ _ _ _ Hj) as (qr & Hqr & <-). rewrite lookup_insert_ne by by eapply Hne. eauto.
  - intros j key' q Hj. apply lookup_insert_Some in Hj as [[_ [= <- <-]]|[_ Hj]]; [by rewrite lookup_insert_eq|].
    pose proof (H4 _ _ _ Hj) as Hl. rewrite lookup_insert_ne; [done|]. intros <-. congruence.
  - assert (forall j key', cc_callers c !! j <> Some (Awaiting key' p true)) as Hno.
    { intros j key' Hj. destruct (H3 _ _ _ _ Hj) as (qr & Hqr & _). congruence. }
    intros j k key1 key2 q Hj Hk. apply lookup_insert_Some in Hj as [[<- [= <- <-]]|[_ Hj]], Hk as [[<- Hk]|[_ Hk]];
      [done|by apply Hno in Hk| |by eapply H5]. injection Hk as <- <-. by apply Hno in Hj.
  - intros key' v Hv. eapply from_call_mono; [exact Hkeep|by apply H6].
  - intros j key' r Hj. apply lookup_insert_Some in Hj as [[_ [=]]|[_ Hj]]. eapply from_call_mono; [exact Hkeep|by eapply H7].
Qed.

Lemma ok_wake i key p own r pr :
  cc_callers c !! i = Some (Awaiting key p own) -> cc_promises c !! p = Some pr -> pr_flight pr = Settled r -> cache_ok store0 (wake c i key own r).
Proof using Hok.
  intros Hi Hp Hset. pose proof Hok as [H1 H2 H3 H4 H5 H6 H7]. destruct (H3 _ _ _ _ Hi) as (pr' & Hp' & Hk). assert (pr' = pr) as -> by congruence.
  assert (forall key' q, cc_inFlight c !! key' = Some q -> q <> p \/ own = false -> (if own then delete key (cc_inFlight c) else cc_inFlight c) !! key' = Some q) as Hkeep.
  { intros key' q Hq Hd. destruct own; [|done]. destruct Hd as [Hd|[=]]. rewrite lookup_delete_ne; [done|]. intros <-. rewrite (H4 _ _ _ Hi) in Hq. congruence. }
  assert (from_call store0 c key r) as Hr.
  { left. exists p, pr. split; [done|]. split; [done|]. destruct r; [done|by right]. }
  assert (keeps c (wake c i key own r)) as Hkp by by apply keeps_same.
  split; cbn.
  - intros key' q Hq. apply H1. destruct own; [by apply lookup_delete_Some in Hq as [_ ?]|done].
  - intros q qr Hq Hun. apply Hkeep; [by apply H2|]. left. intros ->. assert (qr = pr) as -> by congruence. unfold unsettled in Hun. by rewrite Hset in Hun.
  - intros j key' q own' Hj. apply lookup_insert_Some in Hj as [[_ [=]]|[_ Hj]]. by eapply H3.
  - intros j key' q Hj. apply lookup_insert_Some in Hj as [[_ [=]]|[Hne Hj]]. apply Hkeep; [by eapply H4|].
    destruct own; [left|by right]. intros ->. apply Hne. by eapply H5.
  - intros j k key1 key2 q Hj Hk'. apply lookup_insert_Some in Hj as [[_ [=]]|[_ Hj]], Hk' as [[_ [=]]|[_ Hk']]. by eapply H5.
  - intros key' v Hv. eapply from_call_mono; [exact Hkp|by apply H6].
  - intros j key' r' Hj. eapply from_call_mono; [exact Hkp|]. apply lookup_insert_Some in Hj as [[_ [= <- <-]]|[_ Hj]]; [done|by eapply H7].
Qed.

Lemma cache_step_ok e c' : cache_step c e = Some c' -> cache_ok store0 c'.
Proof using Hok.
  intros Hs. destruct e as [i key|i readable thrown|p r|p stored|i|key]; cbn in Hs.
  - case_decide as Hn; [|done]. injection Hs as <-. apply ok_with_caller; [done|done|by rewrite Hn].
  - destruct (cc_callers c !! i) as [[key| |]|] eqn:Hi; try done. injection Hs as <-. by apply ok_load.
  - destruct (cc_promises c !! p) as [[key []]|] eqn:Hp; try done. injection Hs as <-.
    eapply (ok_with_promise p); [exact Hp|done|done| |by left]. intros v [H|H]; discriminate H.
  - destruct (cc_promises c !! p) as [[key []]|] eqn:Hp; try done. injection Hs as <-.
    eapply (ok_with_promise p); [exact Hp|done|done| |].
    + intros v' [[= <-]|H]; [by right|discriminate H].
    + intros key' v' H. destruct stored; [|by left]. apply lookup_insert_Some in H as [[<- <-]|[_ H]]; [right; split; [done|by right]|by left].
  - destruct (cc_callers c !! i) as [[|key p own|]|] eqn:Hi; try done. destruct (cc_promises c !! p) as [[k []]|] eqn:Hp; try done. injection Hs as <-.
    by eapply ok_wake.
  - injection Hs as <-. destruct Hok as [H1 H2 H3 H4 H5 H6 H7]. split; try done. cbn. intros key' v Hv. apply lookup_delete_Some in Hv as [_ Hv]. by apply H6.
Qed.
End Steps.

Lemma cache_steps_ok store0 c es c' : cache_ok store0 c -> cache_steps c es = Some c' -> cache_ok store0 c'.
Proof.
  revert c. induction es as [|e es IH]; intros c Hok Hs; cbn in Hs; [by simplify_eq|].
  destruct (cache_step c e) as [c1|] eqn:E; [|done]. eapply IH; [|done]. by eapply cache_step_ok.
Qed.

(** ** Properties *)

(** C36: however calls of a cached method interleave, and whether the store
    answers, fails or forgets: at most one call of the method is under way for a
    key; a caller is answered with what a call for its own key returned or
    threw, or with what the store held for the key at the start; an error is
    never stored; and nobody awaits a call that does not exist. *)
Theorem single_flight store es c :
  cache_steps (new_cache store) es = Some c ->
  (forall p q pr qr, cc_promises c !! p = Some pr -> cc_promises c !! q = Some qr -> unsettled pr -> unsettled qr -> pr_key pr = pr_key qr -> p = q) /\
  (forall i key r, cc_callers c !! i = Some (Answered key r) -> from_call store c key r) /\
  (forall key v, cc_store c !! key = Some v -> from_call store c key (inr v)) /\
  (forall i key p own, cc_callers c !! i = Some (Awaiting key p own) ->
     exists pr, cc_promises c !! p = Some pr /\ pr_key pr = key /\ (unsettled pr \/ exists c', cache_step c (Wake i) = Some c')).
Proof.
  intros Hs. destruct (cache_steps_ok store _ es c (new_cache_ok store) Hs) as [H1 H2 H3 H4 H5 H6 H7]. split_and!; [|done|done|].
  - intros p q pr qr Hp Hq Up Uq E. pose proof (H2 _ _ Hp Up) as G1. pose proof (H2 _ _ Hq Uq) as G2. congruence.
  - intros i key p own Hi. destruct (H3 _ _ _ _ Hi) as (pr & Hp & Hk). exists pr. split_and!; [done..|]. cbn. rewrite Hi, Hp.
    destruct pr as [k []]; [by left|by left|right; eauto].
Qed.
End Cacheable.

(** ** Examples *)

Definition stampede : list (CacheEvent (Key := nat) (V := Z) (Err := string)) :=
  [Arrive 1 7; Arrive 2 7; Arrive 3 7; ReadDone 1 true None; ReadDone 2 false None; ReadDone 3 true None; Return 0 (inr 5%Z); WriteDone 0 true;
   Wake 2; Wake 1; Wake 3; Arrive 4 7; ReadDone 4 true None]%nat.

(** Four callers, one call of the method. *)
Lemma single_flight_witness :
  exists c, cache_steps (new_cache ∅) stampede = Some c /\ size (cc_promises c) = 1%nat /\ cc_inFlight c = ∅ /\
    from_call ∅ c 7%nat (inr 5) /\ cc_callers c !! 4%nat = Some (Answered 7%nat (inr 5)).
Proof.
  destruct (cache_steps (new_cache ∅) stampede) as [c|] eqn:E; [|by vm_compute in E]. exists c.
  destruct (single_flight ∅ stampede c E) as (_ & H & _).
  assert (cc_callers c !! 4%nat = Some (Answered 7%nat (inr 5))) as H4 by (vm_compute in E; injection E as <-; by vm_compute).
  split_and!; [done| | |by apply (H 4%nat)|done]; clear H H4; vm_compute in E; injection E as <-; by vm_compute.
Defined.
