(* ===== verification/Aspects.v ===== *)
(** * Aspects: methods wrapped by decorators

    [src/src/common/aspects]: [applyRetry] and [applyTiming], and the weaver
    that installs a chain of aspects on each decorated method at boot.  The
    cache is in [CacheKey] and [CacheFlight], the lock in [LockSession].

    A number that need not be an integer is a rational; what doubles round away
    is left out. *)

From S2P Require Import Prelude.
From Stdlib Require Import QArith Qround Qpower Lqa.
#[local] Open Scope Z_scope.

(** ** Retry *)

Inductive RetryBackoff := Fixed | Exponential.

(** A number of the language: a finite one, or not. *)
Inductive Number := Finite (q : Q) | NotFinite.

(** The fields that may be left out of [@Retry({ ... })]. *)
Record RetryOptions (E : Type) := {
  rt_attempts : option Number;
  rt_delayMs : option Number;
  rt_maxDelayMs : option Number;
  rt_backoff : option RetryBackoff;
  rt_factor : option Number;
  rt_jitter : option bool;
  rt_retryIf : option (E -> Z -> bool) }.
Arguments rt_attempts {E}. Arguments rt_delayMs {E}. Arguments rt_maxDelayMs {E}. Arguments rt_backoff {E}.
Arguments rt_factor {E}. Arguments rt_jitter {E}. Arguments rt_retryIf {E}.

Inductive ConfigurationError := BadNumber (name : string) | MaxBelowDelay | EmptyName.

(** Options that were accepted. *)
Record ResolvedRetry (E : Type) := {
  rr_attempts : Z;
  rr_delayMs : Q;
  rr_maxDelayMs : Q;
  rr_backoff : RetryBackoff;
  rr_factor : Q;
  rr_jitter : bool;
  rr_retryIf : E -> Z -> bool }.
Arguments rr_attempts {E}. Arguments rr_delayMs {E}. Arguments rr_maxDelayMs {E}. Arguments rr_backoff {E}.
Arguments rr_factor {E}. Arguments rr_jitter {E}. Arguments rr_retryIf {E}.

Definition isInteger (q : Q) : bool := Qeq_bool q (inject_Z (Qfloor q)).

Definition assertPositive (name : string) (value : Number) (minimum : Z) (integer : bool) : ConfigurationError + Q :=
  match value with
  | Finite q => if Qle_bool (inject_Z minimum) q && (negb integer || isInteger q) then inr q else inl (BadNumber name)
  | NotFinite => inl (BadNumber name)
  end.

(** [isTransientError] is the predicate of a policy that names none. *)
Definition resolveRetryOptions {E} (isTransientError : E -> Z -> bool) (o : RetryOptions E) : ConfigurationError + ResolvedRetry E :=
  match assertPositive "attempts" (default (Finite 3) (rt_attempts o)) 1 true,
        assertPositive "delayMs" (default (Finite 100) (rt_delayMs o)) 0 false,
        assertPositive "maxDelayMs" (default (Finite 2000) (rt_maxDelayMs o)) 0 false,
        assertPositive "factor" (default (Finite 2) (rt_factor o)) 1 false with
  | inl e, _, _, _ => inl e
  | _, inl e, _, _ => inl e
  | _, _, inl e, _ => inl e
  | _, _, _, inl e => inl e
  | inr attempts, inr delay, inr max, inr factor =>
      if Qle_bool delay max then
        inr {| rr_attempts := Qfloor attempts; rr_delayMs := delay; rr_maxDelayMs := max; rr_backoff := default Exponential (rt_backoff o);
               rr_factor := factor; rr_jitter := default true (rt_jitter o); rr_retryIf := default isTransientError (rt_retryIf o) |}
      else inl MaxBelowDelay
  end.

(** [Math.round] *)
Definition round (q : Q) : Z := Qfloor (q + (1 # 2)).

Definition computeRetryDelay {E} (attempt : Z) (o : ResolvedRetry E) (randomFraction : Q) : Z :=
  let raw := match rr_backoff o with Exponential => (rr_delayMs o * Qpower (rr_factor o) (attempt - 1))%Q | Fixed => rr_delayMs o end in
  let capped := if Qle_bool raw (rr_maxDelayMs o) then raw else rr_maxDelayMs o in
  round (if rr_jitter o then capped * randomFraction else capped)%Q.

Section Retry.
Context {E V : Type} (statusOf : E -> option Z).

(** What a call throws: the complaint of an aspect about a method that returned
    no promise, or anything else. *)
Inductive Thrown := AspectUsageError | Own (e : E).

(** What a method returns: a plain value, or a promise and what becomes of it. *)
Inductive Returned := Plain (v : V) | Promised (r : Thrown + V).

(** An [HttpException] has a status. *)
Definition isTransientError (error : Thrown) : bool :=
  match error with
  | Own e => match statusOf e with Some status => bool_decide (500 <= status \/ status = 408 \/ status = 429) | None => true end
  | AspectUsageError => true
  end.

(** What the process has done so far. *)
Record RetryTrace := { tr_calls : nat; tr_sleeps : list Z }.

Context (next : nat -> Thrown + Returned) (fraction : nat -> Q) (o : ResolvedRetry Thrown).

(** What [await next(args)] in the [try] comes to. *)
Definition awaited (r : Thrown + Returned) : Thrown + V :=
  match r with
  | inl e => inl e
  | inr (Plain _) => inl AspectUsageError
  | inr (Promised r) => r
  end.

(** The loop, with the attempts that are left after this one. *)
Fixpoint retry_loop (more : nat) (attempt : Z) (w : RetryTrace) : (Thrown + V) * RetryTrace :=
  let w1 := {| tr_calls := S (tr_calls w); tr_sleeps := tr_sleeps w |} in
  match awaited (next (tr_calls w)) with
  | inr v => (inr v, w1)
  | inl AspectUsageError => (inl AspectUsageError, w1)
  | inl error =>
      match more with
      | O => (inl error, w1)
      | S more =>
          if rr_retryIf o error attempt then
            let delayMs := computeRetryDelay attempt o (fraction (tr_calls w)) in
            retry_loop more (attempt + 1) {| tr_calls := tr_calls w1; tr_sleeps := tr_sleeps w1 ++ [delayMs] |}
          else (inl error, w1)
      end
  end.

Definition applyRetry : (Thrown + V) * RetryTrace := retry_loop (Z.to_nat (rr_attempts o) - 1) 1 {| tr_calls := 0; tr_sleeps := [] |}.

(** ** What a retried call does *)

(** A failure after which the loop goes on, as its [attempt]-th. *)
Definition retried (call : nat) : Prop := exists e, awaited (next call) = inl (Own e) /\ rr_retryIf o (Own e) (Z.of_nat call + 1) = true.

(** From [w] to [w'], with [more] attempts to spare after the first. *)
Record retry_ran (more : nat) (w : RetryTrace) (r : Thrown + V) (w' : RetryTrace) : Prop := {
  ran_calls : (tr_calls w < tr_calls w' <= tr_calls w + more + 1)%nat;
  ran_result : r = awaited (next (tr_calls w' - 1));
  ran_before : forall n, (tr_calls w <= n < tr_calls w' - 1)%nat -> retried n;
  ran_slept : tr_sleeps w' = tr_sleeps w ++
    ((fun n => computeRetryDelay (Z.of_nat n + 1) o (fraction n)) <$> seq (tr_calls w) (tr_calls w' - tr_calls w - 1));
  ran_failed : forall e, r = inl (Own e) -> (tr_calls w' = tr_calls w + more + 1)%nat \/ rr_retryIf o (Own e) (Z.of_nat (tr_calls w')) = false }.

Lemma retry_stops more w r :
  awaited (next (tr_calls w)) = r -> (forall e, r = inl (Own e) -> more = 0%nat \/ rr_retryIf o (Own e) (Z.of_nat (tr_calls w) + 1) = false) ->
  retry_ran more w r {| tr_calls := S (tr_calls w); tr_sleeps := tr_sleeps w |}.
Proof.
  intros Hr Hf. split; cbn.
  - lia.
  - by rewrite Nat.sub_0_r.
  - intros n Hn. lia.
  - replace (S (tr_calls w) - tr_calls w - 1)%nat with 0%nat by lia. cbn. by rewrite app_nil_r.
  - intros e He. destruct (Hf e He) as [->|H]; [left; lia|right]. by replace (Z.of_nat (S (tr_calls w))) with (Z.of_nat (tr_calls w) + 1) by lia.
Qed.

Lemma retry_loop_ran more w :
  retry_ran more w (retry_loop more (Z.of_nat (tr_calls w) + 1) w).1 (retry_loop more (Z.of_nat (tr_calls w) + 1) w).2.
Proof.
  revert w. induction more as [|more IH]; intros w; cbn [retry_loop];
    destruct (awaited (next (tr_calls w))) as [[|e]|v] eqn:Ea; cbn [fst snd]; try (apply retry_stops; [done|]; intros e' [=]; subst; by left).
  destruct (rr_retryIf o (Own e) (Z.of_nat (tr_calls w) + 1)) eqn:Hi; cbn [fst snd]; [|apply retry_stops; [done|]; intros e' [= <-]; by right].
  replace (Z.of_nat (tr_calls w) + 1 + 1) with (Z.of_nat (S (tr_calls w)) + 1) by lia.
  cbn [tr_calls tr_sleeps].
  match goal with |- retry_ran _ _ (retry_loop more _ ?w2).1 _ => specialize (IH w2) end. cbn [tr_calls] in IH. revert IH.
  generalize (retry_loop more (Z.of_nat (S (tr_calls w)) + 1)). intros f IH.
  match type of IH with retry_ran _ ?w2 _ _ => destruct IH as [H1 H2 H3 H4 H5]; destruct (f w2) as [r w'] end.
  cbn [tr_calls tr_sleeps fst snd] in *. split.
  - lia.
  - done.
  - intros n Hn. destruct (decide (n = tr_calls w)) as [->|Hne]; [by exists e|]. apply H3. lia.
  - rewrite H4, <-app_assoc. f_equal. replace (tr_calls w' - tr_calls w - 1)%nat with (S (tr_calls w' - S (tr_calls w) - 1)) by lia. done.
  - intros e' He. destruct (H5 e' He); [left; lia|by right].
Qed.
End Retry.

(** ** Delays *)

Definition valid_retry {E} (o : ResolvedRetry E) : Prop :=
  1 <= rr_attempts o /\ (0 <= rr_delayMs o <= rr_maxDelayMs o)%Q /\ (1 <= rr_factor o)%Q.

Lemma assertPositive_ok name value minimum integer q :
  assertPositive name value minimum integer = inr q -> (inject_Z minimum <= q)%Q.
Proof.
  unfold assertPositive. destruct value as [x|]; [|done]. destruct (Qle_bool _ x) eqn:H; cbn [andb]; [|done].
  destruct (_ || _); [|done]. intros [= <-]. by apply Qle_bool_iff.
Qed.

Lemma resolve_valid {E} (p : E -> Z -> bool) (o : RetryOptions E) r : resolveRetryOptions p o = inr r -> valid_retry r.
Proof.
  unfold resolveRetryOptions. intros H.
  destruct (assertPositive "attempts" _ _ _) as [|a] eqn:Ha; [done|]. destruct (assertPositive "delayMs" _ _ _) as [|d] eqn:Hd; [done|].
  destruct (assertPositive "maxDelayMs" _ _ _) as [|m]; [done|]. destruct (assertPositive "factor" _ _ _) as [|f] eqn:Hf; [done|].
  destruct (Qle_bool d m) eqn:Hdm; [|done]. injection H as <-. apply Qle_bool_iff in Hdm.
  apply assertPositive_ok in Ha, Hd, Hf. unfold valid_retry. cbn. split_and!; [|done..].
  apply (Qfloor_resp_le (inject_Z 1)) in Ha. by rewrite Qfloor_Z in Ha.
Qed.

Lemma round_mono p q : (p <= q)%Q -> round p <= round q.
Proof. intros H. apply Qfloor_resp_le. lra. Qed.

Lemma delay_bounds {E} attempt (o : ResolvedRetry E) f :
  valid_retry o -> (0 <= f <= 1)%Q -> 0 <= computeRetryDelay attempt o f <= round (rr_maxDelayMs o).
Proof.
  intros (_ & [Hd Hm] & Hf) [F0 F1]. unfold computeRetryDelay.
  set (raw := match rr_backoff o with Exponential => _ | Fixed => _ end).
  assert (0 <= raw)%Q as Hraw.
  { unfold raw. destruct (rr_backoff o); [done|]. apply Qmult_le_0_compat; [done|]. apply Qpower_0_le. lra. }
  set (capped := if Qle_bool raw (rr_maxDelayMs o) then raw else rr_maxDelayMs o).
  assert (0 <= capped <= rr_maxDelayMs o)%Q as [C0 C1].
  { unfold capped. destruct (Qle_bool raw _) eqn:H; [apply Qle_bool_iff in H; lra|lra]. }
  assert (forall x, (0 <= x <= rr_maxDelayMs o)%Q -> 0 <= round x <= round (rr_maxDelayMs o)) as Hx.
  { intros x [X0 X1]. split; [|by apply round_mono]. by apply (round_mono 0). }
  destruct (rr_jitter o); apply Hx; split; try done.
  - by apply Qmult_le_0_compat.
  - eapply Qle_trans; [|exact C1]. rewrite <-(Qmult_1_r capped) at 2. rewrite !(Qmult_comm capped). by apply Qmult_le_compat_r.
Qed.


(** ** Timing *)

Record TimedOptions := { tm_name : option string; tm_slowerThanMs : option Number }.

Definition resolveTimedOptions (o : TimedOptions) : ConfigurationError + TimedOptions :=
  if bool_decide (tm_name o = Some "") then inl EmptyName
  else match tm_slowerThanMs o with
       | Some (Finite q) => if Qle_bool 0 q then inr o else inl (BadNumber "slowerThanMs")
       | Some NotFinite => inl (BadNumber "slowerThanMs")
       | None => inr o
       end.

Record MethodTiming (D : Type) := {
  mt_name : string;
  mt_target : string;
  mt_method : string;
  mt_durationMs : Q;
  mt_failed : bool;
  mt_slow : bool;
  mt_error : option D }.
Arguments mt_name {D}. Arguments mt_target {D}. Arguments mt_method {D}. Arguments mt_durationMs {D}.
Arguments mt_failed {D}. Arguments mt_slow {D}. Arguments mt_error {D}.

Section Timing.
(** [recorder] says what a recorder that throws throws. *)
Context {E V D R : Type} (describeError : @Thrown E -> D) (recorder : MethodTiming D -> option R).
Context (target method : string) (o : TimedOptions).

(** What was recorded, and the recorder's errors that were logged. *)
Record TimingLog := { tl_recorded : list (MethodTiming D); tl_warned : list R }.

Definition timing (startedAt now : Q) (error : option (@Thrown E)) : MethodTiming D :=
  let durationMs := (now - startedAt)%Q in
  {| mt_name := default (target +:+ "." +:+ method) (tm_name o);
     mt_target := target;
     mt_method := method;
     mt_durationMs := durationMs;
     mt_failed := bool_decide (is_Some error);
     mt_slow := match tm_slowerThanMs o with Some (Finite limit) => Qle_bool limit durationMs | _ => false end;
     mt_error := describeError <$> error |}.

Definition record (t : MethodTiming D) (l : TimingLog) : TimingLog :=
  match recorder t with
  | None => {| tl_recorded := tl_recorded l ++ [t]; tl_warned := tl_warned l |}
  | Some e => {| tl_recorded := tl_recorded l; tl_warned := tl_warned l ++ [e] |}
  end.

(** One timed call: the clock at its start and when it is over, and what the
    method under it came to. *)
Definition applyTiming (startedAt now : Q) (result : @Thrown E + @Returned E V) (l : TimingLog) : (@Thrown E + @Returned E V) * TimingLog :=
  match result with
  | inl error => (inl error, record (timing startedAt now (Some error)) l)
  | inr (Plain v) => (inr (Plain v), record (timing startedAt now None) l)
  | inr (Promised (inr v)) => (inr (Promised (inr v)), record (timing startedAt now None) l)
  | inr (Promised (inl error)) => (inr (Promised (inl error)), record (timing startedAt now (Some error)) l)
  end.

(** A timed method returns, throws, resolves or rejects as it would untimed,
    whatever the recorder does, and one sample or one warning is left of it. *)
Theorem timing_is_transparent startedAt now result l :
  let '(r, l') := applyTiming startedAt now result l in
  r = result /\
  (length (tl_recorded l') + length (tl_warned l') = S (length (tl_recorded l) + length (tl_warned l)))%nat.
Proof.
  assert (forall t, length (tl_recorded (record t l)) + length (tl_warned (record t l)) =
                    S (length (tl_recorded l) + length (tl_warned l)))%nat as H.
  { intros t. unfold record. destruct (recorder t); cbn; rewrite length_app; cbn; lia. }
  destruct result as [e|[v|[e|v]]]; cbn; split; done || apply H.
Qed.
End Timing.

(** ** A flaky method, and one that is not a promise *)

(** Statuses are the errors themselves: 503 twice, then a value. *)
Definition flaky (call : nat) : @Thrown Z + @Returned Z string :=
  if (call <? 2)%nat then inr (Promised (inl (Own 503))) else inr (Promised (inr "done")).

Definition defaults : RetryOptions (@Thrown Z) :=
  {| rt_attempts := None; rt_delayMs := None; rt_maxDelayMs := None; rt_backoff := None; rt_factor := None; rt_jitter := Some false; rt_retryIf := None |}.

Definition resolved : ResolvedRetry (@Thrown Z) :=
  {| rr_attempts := 3; rr_delayMs := 100; rr_maxDelayMs := 2000; rr_backoff := Exponential; rr_factor := 2; rr_jitter := false;
     rr_retryIf := fun e _ => isTransientError Some e |}.


(** A 404 is the caller's mistake: it is not retried. *)
Example not_found_is_final :
  applyRetry (fun _ => inr (Promised (inl (Own 404))) : @Thrown Z + @Returned Z string) (fun _ => 0%Q) resolved =
  (inl (Own 404), {| tr_calls := 1; tr_sleeps := [] |}).
Proof. vm_compute. done. Qed.

(** Neither is a method that returns a plain value. *)
Example plain_value_is_a_usage_error :
  applyRetry (fun _ => inr (Plain "now") : @Thrown Z + @Returned Z string) (fun _ => 0%Q) resolved =
  (inl AspectUsageError, {| tr_calls := 1; tr_sleeps := [] |}).
Proof. vm_compute. done. Qed.
