(* ===== verification/Weaver.v ===== *)
(** * The aspect weaver

    [src/src/common/aspects/aspect-weaver.service.ts]: at boot, every method
    that carries a decorator is replaced, on each singleton instance, by a chain
    of aspects around it.  Nest's discovery service and method scanner are
    parameters: the wrappers found, and the method names of a prototype. *)

From S2P Require Import Prelude.
From stdpp Require Import gmap.
#[local] Open Scope Z_scope.

Section Weaver.
Context {CacheableOptions RetryOptions TimedOptions LockOptions Code Value : Type}.

(** Objects are known by an address. *)
Abbreviation Proto := Z.
Abbreviation Instance_ := Z.

(** What the decorators wrote about a method. *)
Record Metadata := {
  md_cacheable : option CacheableOptions;
  md_retry : option RetryOptions;
  md_timed : option TimedOptions;
  md_lock : option LockOptions }.

Definition hasAspectMetadata (m : Metadata) : bool :=
  match m with
  | {| md_cacheable := None; md_retry := None; md_timed := None; md_lock := None |} => false
  | _ => true
  end.

(** A function: one the program wrote, an aspect around an invocation, or a
    wrapper the weaver marked. *)
Inductive Fn :=
| Original (code : Code)
| Retry (o : RetryOptions) (next : Fn)
| Lock (o : LockOptions) (next : Fn)
| Cacheable (o : CacheableOptions) (next : Fn)
| Timed (o : TimedOptions) (next : Fn)
| Woven (invoke : Fn).

Inductive Member := Method (f : Fn) | Other (v : Value).

(** What Nest knows of a provider or a controller.  The metatype is a class, or
    the factory that makes the instance: a function with a name and, unless it
    is an arrow function, a prototype. *)
Record InstanceWrapper := {
  iw_metatype : option (option Proto * string);
  iw_instance : option Instance_;
  iw_static : bool;
  iw_transient : bool;
  iw_token : string }.

Inductive WeaveSkipReason := Controller | NonSingleton.

Record WeaveSkip := { sk_target : string; sk_method : string; sk_reason : WeaveSkipReason; sk_lock : bool }.

Record WeaveReport := { woven : list (string * string); skipped : list WeaveSkip }.

(** The application the weaver starts in. *)
Record App := {
  app_controllers : list InstanceWrapper;
  app_providers : list InstanceWrapper;
  app_methods : Proto -> list string;
  app_metadata : Proto -> string -> Metadata;
  app_proto : Instance_ -> option Proto;
  app_constructor : Instance_ -> option string;
  app_inherited : Instance_ -> string -> option Member;
  app_lock : bool }.

(** The properties of the instances' own. *)
Abbreviation Heap := (gmap (Instance_ * string) Member).

Inductive AspectConfigurationError :=
| LockNeedsProvider (target method : string)
| LockCannotBeInstalled (methods : list (string * string)).

Context (app : App).

(** [Object.prototype] is what [app_proto] has no address for. *)
Definition prototypeOf (w : InstanceWrapper) : option Proto :=
  match iw_metatype w with
  | Some (Some p, _) => Some p
  | _ => i ← iw_instance w; app_proto app i
  end.

Definition nameOf (w : InstanceWrapper) : string :=
  match iw_metatype w with
  | Some (_, name) => if bool_decide (name = "") then default (iw_token w) (i ← iw_instance w; app_constructor app i) else name
  | None => default (iw_token w) (i ← iw_instance w; app_constructor app i)
  end.

(** [instance[method]] *)
Definition member (h : Heap) (i : Instance_) (method : string) : option Member :=
  match h !! (i, method) with Some x => Some x | None => app_inherited app i method end.

Definition buildChain (original : Fn) (target method : string) (md : Metadata) : AspectConfigurationError + Fn :=
  let retried := match md_retry md with Some o => Retry o original | None => original end in
  let finish locked :=
    let cached := match md_cacheable md with Some o => Cacheable o locked | None => locked end in
    let timed := match md_timed md with Some o => Timed o cached | None => cached end in
    Woven timed in
  match md_lock md with
  | Some o => if app_lock app then inr (finish (Lock o retried)) else inl (LockNeedsProvider target method)
  | None => inr (finish retried)
  end.

Definition isWoven (f : Fn) : bool := match f with Woven _ => true | _ => false end.

(** The loop over the method names. *)
Fixpoint weaveMethods (i : Instance_) (p : Proto) (target : string) (ms : list string) (h : Heap) (done_ : list (string * string))
    : AspectConfigurationError + Heap * list (string * string) :=
  match ms with
  | [] => inr (h, done_)
  | m :: ms =>
      if hasAspectMetadata (app_metadata app p m) then
        match member h i m with
        | Some (Method original) =>
            if isWoven original then weaveMethods i p target ms h done_
            else match buildChain original target m (app_metadata app p m) with
                 | inl e => inl e
                 | inr f => weaveMethods i p target ms (<[(i, m) := Method f]> h) (done_ ++ [(target, m)])
                 end
        | _ => weaveMethods i p target ms h done_
        end
      else weaveMethods i p target ms h done_
  end.

Definition weaveInstance (i : Instance_) (p : Proto) (target : string) (h : Heap) (done_ : list (string * string)) :
    AspectConfigurationError + Heap * list (string * string) :=
  weaveMethods i p target (app_methods app p) h done_.

Definition collectSkips (w : InstanceWrapper) (reason : WeaveSkipReason) : list WeaveSkip :=
  match prototypeOf w with
  | None => []
  | Some p =>
      (fun m => {| sk_target := nameOf w; sk_method := m; sk_reason := reason; sk_lock := bool_decide (is_Some (md_lock (app_metadata app p m))) |})
        <$> filter (fun m => hasAspectMetadata (app_metadata app p m) = true) (app_methods app p)
  end.

Definition isSingleton (w : InstanceWrapper) : bool := iw_static w && negb (iw_transient w).

(** The loop over the providers. *)
Fixpoint weaveProviders (ws : list InstanceWrapper) (visited : gset Instance_) (h : Heap) (r : WeaveReport) :
    AspectConfigurationError + Heap * WeaveReport :=
  match ws with
  | [] => inr (h, r)
  | w :: ws =>
      match prototypeOf w with
      | None => weaveProviders ws visited h r
      | Some p =>
          if isSingleton w then
            match iw_instance w with
            | None => weaveProviders ws visited h r
            | Some i =>
                if bool_decide (i ∈ visited) then weaveProviders ws visited h r
                else match weaveInstance i p (nameOf w) h (woven r) with
                     | inl e => inl e
                     | inr (h, done_) => weaveProviders ws ({[i]} ∪ visited) h {| woven := done_; skipped := skipped r |}
                     end
            end
          else weaveProviders ws visited h {| woven := woven r; skipped := skipped r ++ collectSkips w NonSingleton |}
      end
  end.

Definition weave (h : Heap) : AspectConfigurationError + Heap * WeaveReport :=
  let report := {| woven := []; skipped := app_controllers app ≫= fun w => collectSkips w Controller |} in
  match weaveProviders (app_providers app) ∅ h report with
  | inl e => inl e
  | inr (h, r) =>
      match filter (fun s => sk_lock s = true) (skipped r) with
      | [] => inr (h, r)
      | unlockable => inl (LockCannotBeInstalled ((fun s => (sk_target s, sk_method s)) <$> unlockable))
      end
  end.

(** ** What a chain is *)

(** The order of the aspects is fixed, whatever the order of the decorators. *)
Definition chain (md : Metadata) (f : Fn) : Fn :=
  let around {O} (o : option O) (layer : O -> Fn -> Fn) (f : Fn) := match o with Some o => layer o f | None => f end in
  Woven (around (md_timed md) Timed (around (md_cacheable md) Cacheable (around (md_lock md) Lock (around (md_retry md) Retry f)))).

(** What the weaver is meant to make of a member with metadata. *)
Definition adorn (md : Metadata) (x : option Member) : option Member :=
  match x with
  | Some (Method f) => if isWoven f then x else Some (Method (chain md f))
  | _ => x
  end.

Lemma adorn_idem md md' x : adorn md' (adorn md x) = adorn md x.
Proof. destruct x as [[f|]|]; cbn; [|done..]. destruct (isWoven f) eqn:H; cbn; by rewrite ?H. Qed.

Definition has (p : Proto) (m : string) : Prop := hasAspectMetadata (app_metadata app p m) = true.

#[local] Instance has_dec p m : Decision (has p m) := decide (_ = true).

(** Nothing about [m] can stop the boot. *)
Definition lockable (p : Proto) (m : string) : Prop := app_lock app = true \/ md_lock (app_metadata app p m) = None.

Lemma buildChain_ok original target method md f : buildChain original target method md = inr f -> f = chain md original.
Proof. unfold buildChain, chain. destruct (md_lock md); [destruct (app_lock app); [|done]|]; by intros [= <-]. Qed.

Lemma buildChain_total original target p m :
  lockable p m -> buildChain original target m (app_metadata app p m) = inr (chain (app_metadata app p m) original).
Proof. unfold buildChain, chain. intros [H|H]; rewrite H; [by destruct (md_lock _)|done]. Qed.

Lemma member_insert h i m f j n :
  member (<[(i, m) := Method f]> h) j n = if decide ((j, n) = (i, m)) then Some (Method f) else member h j n.
Proof.
  unfold member. case_decide as H; [rewrite H, lookup_insert_eq; done|]. by rewrite lookup_insert_ne.
Qed.

(** ** One instance *)

Lemma weaveMethods_spec i p target ms h l h' l' :
  weaveMethods i p target ms h l = inr (h', l') ->
  forall j n, member h' j n =
    if decide (j = i /\ n ∈ ms /\ has p n) then adorn (app_metadata app p n) (member h j n) else member h j n.
Proof.
  revert h l. induction ms as [|m ms IH]; intros h l H j n; cbn in H.
  { injection H as <- <-. case_decide as Hd; [|done]. destruct Hd as (_ & Hn & _). by apply elem_of_nil in Hn. }
  assert (forall h2 l2, weaveMethods i p target ms h2 l2 = inr (h', l') ->
    (forall j n, member h2 j n = if decide (j = i /\ n = m /\ has p n) then adorn (app_metadata app p n) (member h j n) else member h j n) ->
    member h' j n = if decide (j = i /\ n ∈ m :: ms /\ has p n) then adorn (app_metadata app p n) (member h j n) else member h j n) as Hs.
  { intros h2 l2 Hw Hh. rewrite (IH _ _ Hw j n), Hh. repeat case_decide; rewrite ?adorn_idem; try done; exfalso; rewrite elem_of_cons in *; tauto. }
  destruct (hasAspectMetadata (app_metadata app p m)) eqn:Hm.
  2: { apply (Hs h l H). intros j2 n2. destruct (decide (j2 = i /\ n2 = m /\ has p n2)) as [Hd|]; [|done]. destruct Hd as (_ & -> & Hh). unfold has in Hh. congruence. }
  assert (forall x, member h i m = x -> adorn (app_metadata app p m) x = x -> forall j n,
    member h j n = if decide (j = i /\ n = m /\ has p n) then adorn (app_metadata app p n) (member h j n) else member h j n) as Hsame.
  { intros x Hx Ha j2 n2. destruct (decide (j2 = i /\ n2 = m /\ has p n2)) as [Hd|]; [|done]. destruct Hd as (-> & -> & _). by rewrite Hx. }
  destruct (member h i m) as [[original|v]|] eqn:Hx; [|by apply (Hs h l H), (Hsame _ eq_refl)..].
  destruct (isWoven original) eqn:Hw; [apply (Hs h l H), (Hsame _ eq_refl); cbn; by rewrite Hw|].
  destruct (buildChain _ _ _ _) as [|f] eqn:Hf; [done|]. apply buildChain_ok in Hf as ->. apply (Hs _ _ H). intros j2 n2. rewrite member_insert.
  destruct (decide (j2 = i /\ n2 = m /\ has p n2)) as [(-> & -> & Hh)|Hd].
  - rewrite decide_True by done. rewrite Hx. cbn. by rewrite Hw.
  - rewrite decide_False; [done|]. intros [= -> ->]. by destruct Hd.
Qed.

Lemma weaveMethods_total i p target ms h l :
  (forall m, m ∈ ms -> has p m -> lockable p m) -> exists r, weaveMethods i p target ms h l = inr r.
Proof.
  revert h l. induction ms as [|m ms IH]; intros h l Hl; cbn; [by eexists|].
  assert (forall h l, exists r, weaveMethods i p target ms h l = inr r) as IH'. { intros. apply IH. intros. by apply Hl; [right|]. }
  destruct (hasAspectMetadata _) eqn:Hm; [|done]. destruct (member h i m) as [[f|]|]; [|done..]. destruct (isWoven f); [done|].
  rewrite buildChain_total; [done|]. apply Hl; [left|done].
Qed.

(** A member the weaver has nothing more to do with. *)
Definition settled (x : option Member) : Prop := forall md, adorn md x = x.

Lemma weaveMethods_settled i p target ms h l :
  (forall m, m ∈ ms -> has p m -> settled (member h i m)) -> weaveMethods i p target ms h l = inr (h, l).
Proof.
  induction ms as [|m ms IH]; intros Hs; cbn; [done|]. rewrite IH by (intros; apply Hs; [by right|done]).
  destruct (hasAspectMetadata _) eqn:Hm; [|done]. specialize (Hs m ltac:(left) Hm (app_metadata app p m)).
  destruct (member h i m) as [[f|]|]; [|done..]. cbn in Hs. destruct (isWoven f) eqn:Hw; [done|].
  injection Hs as Hs. by rewrite <-Hs in Hw.
Qed.

(** ** All providers *)

(** [w] gives the method [m] of the instance [i] aspects, from [p]. *)
Definition site (w : InstanceWrapper) (i : Instance_) (p : Proto) (m : string) : Prop :=
  isSingleton w = true /\ iw_instance w = Some i /\ prototypeOf w = Some p /\ m ∈ app_methods app p /\ has p m.

(** Providers that share an instance see it with the same prototype. *)
Definition consistent (ws : list InstanceWrapper) : Prop :=
  forall w w' i, w ∈ ws -> w' ∈ ws -> iw_instance w = Some i -> iw_instance w' = Some i -> prototypeOf w = prototypeOf w'.

Lemma consistent_cons w ws : consistent (w :: ws) -> consistent ws.
Proof. intros H w1 w2 i H1 H2. apply H; by right. Qed.

Lemma weaveProviders_spec ws visited h r h' r' :
  consistent ws -> weaveProviders ws visited h r = inr (h', r') -> forall j n,
  (forall w p, w ∈ ws -> site w j p n -> j ∉ visited -> member h' j n = adorn (app_metadata app p n) (member h j n)) /\
  ((forall w p, w ∈ ws -> site w j p n -> j ∈ visited) -> member h' j n = member h j n).
Proof.
  revert visited h r. induction ws as [|w ws IH]; intros visited h r Hc H j n; cbn in H.
  { injection H as <- <-. split; [|done]. intros w p Hw. by apply elem_of_nil in Hw. }
  assert (forall h r, weaveProviders ws visited h r = inr (h', r') -> (forall p, site w j p n -> j ∈ visited) ->
    (forall w0 p, w0 ∈ w :: ws -> site w0 j p n -> j ∉ visited -> member h' j n = adorn (app_metadata app p n) (member h j n)) /\
    ((forall w0 p, w0 ∈ w :: ws -> site w0 j p n -> j ∈ visited) -> member h' j n = member h j n)) as Hskip.
  { intros h2 r2 Hw Hv. destruct (IH _ _ _ (consistent_cons _ _ Hc) Hw j n) as [H1 H2]. split.
    - intros w0 p [->|Hin]%elem_of_cons Hs Hj; [by destruct Hj; apply (Hv p)|by apply (H1 w0 p)].
    - intros Ha. apply H2. intros w0 p Hin Hs. apply (Ha w0 p); [by right|done]. }
  destruct (prototypeOf w) as [p|] eqn:Hp; [|apply (Hskip _ _ H); intros p (_ & _ & Hp' & _); congruence].
  destruct (isSingleton w) eqn:Hw; [|apply (Hskip _ _ H); intros p' (Hw' & _); congruence].
  destruct (iw_instance w) as [i|] eqn:Hi; [|apply (Hskip _ _ H); intros p' (_ & Hi' & _); congruence].
  case_bool_decide as Hv; [apply (Hskip _ _ H); intros p' (_ & Hi' & _); congruence|].
  destruct (weaveInstance i p (nameOf w) h (woven r)) as [|[h1 l1]] eqn:Hwi; [done|].
  pose proof (weaveMethods_spec _ _ _ _ _ _ _ _ Hwi j n) as Hm. destruct (IH _ _ _ (consistent_cons _ _ Hc) H j n) as [H1 H2].
  destruct (decide (j = i)) as [->|Hne].
  - rewrite H2 by set_solver. rewrite Hm. split.
    + intros w0 p0 Hin (Hw0 & Hi0 & Hp0 & Hn & Hh) _.
      assert (p0 = p) as -> by (pose proof (Hc w w0 i ltac:(left) Hin Hi Hi0); congruence). by rewrite decide_True.
    + intros Ha. rewrite decide_False; [done|]. intros (_ & Hn & Hh). apply Hv, (Ha w p); [left|done].
  - rewrite decide_False in Hm by tauto. rewrite <-Hm. split.
    + intros w0 p0 [->|Hin]%elem_of_cons Hs Hj; [destruct Hs as (_ & Hi' & _); congruence|]. apply (H1 w0 p0); set_solver.
    + intros Ha. apply H2. intros w0 p0 Hin Hs. apply elem_of_union_r, (Ha w0 p0); [by right|done].
Qed.

(** The providers that come too late. *)
Definition skips (ws : list InstanceWrapper) : list WeaveSkip :=
  ws ≫= fun w => if isSingleton w then [] else collectSkips w NonSingleton.

Lemma weaveProviders_skipped ws visited h r h' r' :
  weaveProviders ws visited h r = inr (h', r') -> skipped r' = skipped r ++ skips ws.
Proof.
  revert visited h r. induction ws as [|w ws IH]; intros visited h r H; cbn in H.
  { injection H as <- <-. by rewrite app_nil_r. }
  cbn. fold (skips ws). assert (prototypeOf w = None -> collectSkips w NonSingleton = []) as Hn by (unfold collectSkips; by intros ->).
  destruct (prototypeOf w) as [p|]; [|rewrite (IH _ _ _ H), Hn by done; by destruct (isSingleton w)].
  destruct (isSingleton w); [|rewrite (IH _ _ _ H); cbn; by rewrite app_assoc].
  destruct (iw_instance w) as [i|]; [|apply (IH _ _ _ H)]. case_bool_decide; [apply (IH _ _ _ H)|].
  destruct (weaveInstance _ _ _ _ _) as [|[h1 l1]]; [done|]. apply (IH _ _ _ H).
Qed.

Lemma weaveProviders_total ws visited h r :
  (forall w i p m, w ∈ ws -> site w i p m -> lockable p m) -> exists r', weaveProviders ws visited h r = inr r'.
Proof.
  revert visited h r. induction ws as [|w ws IH]; intros visited h r Hl; cbn; [by eexists|].
  assert (forall visited h r, exists r', weaveProviders ws visited h r = inr r') as IH'. { intros. apply IH. intros. eapply Hl; [by right|done]. }
  destruct (prototypeOf w) as [p|] eqn:Hp; [|done]. destruct (isSingleton w) eqn:Hw; [|done].
  destruct (iw_instance w) as [i|] eqn:Hi; [|done]. case_bool_decide; [done|]. unfold weaveInstance.
  destruct (weaveMethods_total i p (nameOf w) (app_methods app p) h (woven r)) as [[h1 l1] ->]; [|done].
  intros m Hm Hh. by apply (Hl w i p m); [left|].
Qed.

Lemma weaveProviders_settled ws visited h r :
  (forall w i p m, w ∈ ws -> site w i p m -> settled (member h i m)) ->
  weaveProviders ws visited h r = inr (h, {| woven := woven r; skipped := skipped r ++ skips ws |}).
Proof.
  revert visited r. induction ws as [|w ws IH]; intros visited r Hs; cbn; [by rewrite app_nil_r; destruct r|]. fold (skips ws).
  assert (forall visited r, weaveProviders ws visited h r = inr (h, {| woven := woven r; skipped := skipped r ++ skips ws |})) as IH'.
  { intros. apply IH. intros. eapply Hs; [by right|done]. }
  assert (prototypeOf w = None -> collectSkips w NonSingleton = []) as Hn by (unfold collectSkips; by intros ->).
  destruct (prototypeOf w) as [p|] eqn:Hp; [|rewrite Hn, IH' by done; by destruct (isSingleton w)].
  destruct (isSingleton w) eqn:Hw; [|rewrite IH'; cbn; by rewrite app_assoc].
  destruct (iw_instance w) as [i|] eqn:Hi; [|by rewrite IH']. case_bool_decide; [by rewrite IH'|].
  unfold weaveInstance. rewrite weaveMethods_settled; [by rewrite IH'|]. intros m Hm Hh. by apply (Hs w i p m); [left|].
Qed.

(** ** The weaver *)

Lemma collectSkips_lock w reason p m :
  prototypeOf w = Some p -> m ∈ app_methods app p -> is_Some (md_lock (app_metadata app p m)) ->
  exists s, s ∈ collectSkips w reason /\ sk_lock s = true.
Proof.
  intros Hp Hm Hl. unfold collectSkips. rewrite Hp. eexists. split.
  - apply list_elem_of_fmap. exists m. split; [reflexivity|]. apply list_elem_of_filter. split; [|done].
    destruct Hl as [o Ho]. destruct (app_metadata app p m) as [[] [] [] []]; cbn in *; congruence.
  - by apply bool_decide_eq_true.
Qed.

(** A wrapper whose methods cannot be replaced. *)
Definition too_late (w : InstanceWrapper) : Prop := w ∈ app_controllers app \/ w ∈ app_providers app /\ isSingleton w = false.

Lemma too_late_skipped w : too_late w -> exists reason, forall s, s ∈ collectSkips w reason ->
  s ∈ (app_controllers app ≫= (fun w => collectSkips w Controller)) ++ skips (app_providers app).
Proof.
  intros [Hw|[Hw Hs]]; [exists Controller|exists NonSingleton]; intros s Hin; apply elem_of_app; [left|right];
    apply list_elem_of_bind; exists w; split; try done. by rewrite Hs.
Qed.

(** Where the boot succeeds, each decorated method of a singleton's
    instance is inside one chain, in the fixed order, around what it was; every
    other member of every instance is what it was; no method that asks for a
    lock is among those that could not be wrapped; and weaving once more changes
    nothing and wraps nothing. *)
Theorem weave_exact h h' r :
  consistent (app_providers app) -> weave h = inr (h', r) ->
  (forall w i p m, w ∈ app_providers app -> site w i p m -> member h' i m = adorn (app_metadata app p m) (member h i m)) /\
  (forall i m, (forall w p, w ∈ app_providers app -> ~ site w i p m) -> member h' i m = member h i m) /\
  (forall w p m, too_late w -> prototypeOf w = Some p -> m ∈ app_methods app p -> md_lock (app_metadata app p m) = None) /\
  weave h' = inr (h', {| woven := []; skipped := skipped r |}).
Proof.
  intros Hc. unfold weave at 1. destruct (weaveProviders _ _ _ _) as [|[h1 r1]] eqn:Hw; [done|].
  destruct (filter _ (skipped r1)) as [|] eqn:Hf; [|done]. intros [= <- <-].
  pose proof (weaveProviders_spec _ _ _ _ _ _ Hc Hw) as Hs. pose proof (weaveProviders_skipped _ _ _ _ _ _ Hw) as Hk. cbn [skipped] in Hk.
  assert (forall w i p m, w ∈ app_providers app -> site w i p m -> member h1 i m = adorn (app_metadata app p m) (member h i m)) as Hat.
  { intros w i p m Hin Hsite. apply (proj1 (Hs i m) w p); set_solver. }
  split_and!; [done| | |].
  - intros i m Hno. apply (Hs i m). intros w p Hin Hsite. by destruct (Hno w p).
  - intros w p m Hlate Hp Hm. apply eq_None_not_Some. intros Hl. destruct (too_late_skipped w Hlate) as [reason Hin].
    destruct (collectSkips_lock w reason p m Hp Hm Hl) as (s & Hs1 & Hs2).
    assert (s ∈ filter (fun s => sk_lock s = true) (skipped r1)) as H. { apply list_elem_of_filter. split; [done|]. rewrite Hk. by apply Hin. }
    rewrite Hf in H. by apply elem_of_nil in H.
  - unfold weave. rewrite weaveProviders_settled. { cbn [woven skipped]. by rewrite <-Hk, Hf. }
    intros w i p m Hin Hsite md. rewrite (Hat _ _ _ _ Hin Hsite). apply adorn_idem.
Qed.

(** With a lock provider bound, or no method that asks for one, and none that
    asks for one among those that come too late, the boot succeeds. *)
Theorem weave_boots h :
  (forall w i p m, w ∈ app_providers app -> site w i p m -> lockable p m) ->
  (forall w p m, too_late w -> prototypeOf w = Some p -> m ∈ app_methods app p -> md_lock (app_metadata app p m) = None) ->
  exists r, weave h = inr r.
Proof.
  intros Hl Hn. unfold weave. edestruct weaveProviders_total as [[h1 r1] Hw]; [exact Hl|]. rewrite Hw.
  destruct (filter _ (skipped r1)) as [|s ss] eqn:Hf; [by eexists|]. exfalso.
  assert (s ∈ filter (fun s => sk_lock s = true) (skipped r1)) as [Hs Hin]%list_elem_of_filter by (rewrite Hf; left).
  rewrite (weaveProviders_skipped _ _ _ _ _ _ Hw) in Hin. cbn [skipped] in Hin.
  assert (exists w reason, too_late w /\ s ∈ collectSkips w reason) as (w & reason & Hlate & Hsk).
  { apply elem_of_app in Hin as [Hin|Hin]; apply list_elem_of_bind in Hin as (w & Hin & Hw').
    - exists w, Controller. split; [by left|done].
    - destruct (isSingleton w) eqn:Hsg; [by apply elem_of_nil in Hin|]. exists w, NonSingleton. split; [by right|done]. }
  unfold collectSkips in Hsk. destruct (prototypeOf w) as [p|] eqn:Hp; [|by apply elem_of_nil in Hsk].
  apply list_elem_of_fmap in Hsk as (m & -> & [_ Hm]%list_elem_of_filter). cbn in Hs. apply bool_decide_eq_true in Hs.
  rewrite (Hn w p m Hlate Hp Hm) in Hs. by destruct Hs.
Qed.
End Weaver.

(** ** A small application *)

(** Options and code are numbers. *)
Definition md (cacheable retry timed lock : option Z) : @Metadata Z Z Z Z :=
  {| md_cacheable := cacheable; md_retry := retry; md_timed := timed; md_lock := lock |}.

Definition singleton_of (metatype : option (option Z * string)) (i : Z) (token : string) : InstanceWrapper :=
  {| iw_metatype := metatype; iw_instance := Some i; iw_static := true; iw_transient := false; iw_token := token |}.

(** A service (class 1) known by its class and by an alias, and a controller
    (class 2). *)
Definition shop (lock : bool) (providers : list InstanceWrapper) : @App Z Z Z Z Z Z :=
  {| app_controllers := [singleton_of (Some (Some 2, "UsersController")) 20 "UsersController"];
     app_providers := providers;
     app_methods := fun p => if p =? 1 then ["find"; "remove"; "plain"] else if p =? 2 then ["list"] else [];
     app_metadata := fun p m =>
       if (p =? 1) && bool_decide (m = "find") then md (Some 60) (Some 3) (Some 5) None
       else if (p =? 1) && bool_decide (m = "remove") then md None (Some 3) None (Some 10)
       else if (p =? 2) && bool_decide (m = "list") then md None None (Some 5) None
       else md None None None None;
     app_proto := fun i => if i =? 10 then Some 1 else if i =? 20 then Some 2 else None;
     app_constructor := fun i => if i =? 10 then Some "UsersService" else None;
     app_inherited := fun i m => if i =? 10 then Some (Method (Original (Z.of_nat (String.length m)))) else None;
     app_lock := lock |}.

Definition users : list InstanceWrapper := [singleton_of (Some (Some 1, "UsersService")) 10 "UsersService"; singleton_of None 10 "USERS"].

(** The service found only through the factory that makes it: a [function]
    (prototype 3), or an arrow function. *)
Definition by_function : list InstanceWrapper := [singleton_of (Some (Some 3, "createUsers")) 10 "USERS"].
Definition by_arrow : list InstanceWrapper := [singleton_of (Some (None, "useFactory")) 10 "USERS"].

Definition woven_shop : gmap (Z * string) (@Member Z Z Z Z Z Z) :=
  {[ (10, "find") := Method (Woven (Timed 5 (Cacheable 60 (Retry 3 (Original 4)))));
     (10, "remove") := Method (Woven (Lock 10 (Retry 3 (Original 6)))) ]}.

Definition shop_report : WeaveReport :=
  {| woven := [("UsersService", "find"); ("UsersService", "remove")];
     skipped := [{| sk_target := "UsersController"; sk_method := "list"; sk_reason := Controller; sk_lock := false |}] |}.

Lemma weave_exact_witness :
  weave (shop true users) ∅ = inr (woven_shop, shop_report) /\
  weave (shop true users) woven_shop = inr (woven_shop, {| woven := []; skipped := skipped shop_report |}).
Proof.
  assert (weave (shop true users) ∅ = inr (woven_shop, shop_report)) as H by (vm_compute; reflexivity). split; [exact H|].
  apply (weave_exact (shop true users) ∅ woven_shop shop_report); [|exact H].
  intros w w' i Hw Hw' _ _. apply list_elem_of_In in Hw, Hw'. destruct Hw as [Hw|[Hw|[]]], Hw' as [Hw'|[Hw'|[]]]; rewrite <-Hw, <-Hw'; reflexivity.
Defined.

(** Without a lock provider the boot is refused. *)
Example no_lock_no_boot : weave (shop false users) ∅ = inl (LockNeedsProvider "UsersService" "remove").
Proof. vm_compute. reflexivity. Qed.

(** A provider made by a [function] is looked for on the function's prototype:
    its decorated methods, [@Lock] included, are neither woven nor reported. *)
Example function_factory_hides_its_product :
  weave (shop true by_function) ∅ = inr (∅, {| woven := []; skipped := skipped shop_report |}).
Proof. vm_compute. reflexivity. Qed.

(** One made by an arrow function is woven under the name of the factory, not of
    its class: the target of its cache keys, lock keys and samples. *)
Example arrow_factory_names_the_target :
  weave (shop true by_arrow) ∅ =
  inr (woven_shop, {| woven := [("useFactory", "find"); ("useFactory", "remove")]; skipped := skipped shop_report |}).
Proof. vm_compute. reflexivity. Qed.
