(* ===== verification/S3Storage.v ===== *)
(** * S3Storage: the storage adapter on S3

    [src/src/storage/adapters/s3-storage.adapter.ts].  The SDK's client is a
    parameter, a record of the commands that are sent; what S3 documents about
    them is the class [S3Service], with a bucket in a map as an instance of it.
    The order in which S3 lists keys and its continuation tokens are part of the
    class: the adapter never looks inside them. *)

From S2P Require Import Prelude Text Storage.
#[local] Open Scope Z_scope.

(** ** The client *)

(** The classes of the SDK that the adapter tells apart. *)
Inductive S3Class := NoSuchKey | NotFound | OtherService.

Inductive S3Failure :=
| S3ServiceException (class : S3Class) (name : string) (httpStatusCode : option Z)
| S3Transport (message : string).

Inductive S3Body := NodeStream (r : S3Failure + Bytes) | OtherStream (r : S3Failure + Bytes).

Record ObjectOutput := {
  out_Body : option S3Body;
  out_ContentLength : option nat;
  out_ContentType : option JSText;
  out_ETag : option JSText;
  out_LastModified : option Z;
  out_Metadata : option (gmap string JSText) }.

Record ListEntry := { le_Key : option JSText; le_Size : option nat; le_ETag : option JSText; le_LastModified : option Z }.

Record ListOutput := { lo_Contents : option (list ListEntry); lo_IsTruncated : option bool; lo_NextContinuationToken : option JSText }.

(** What [PutObjectCommand] is built from, the body apart. *)
Record PutInput := { pi_Key : JSText; pi_ContentType : JSText; pi_Metadata : gmap string JSText; pi_CacheControl : option JSText }.

Inductive Presigned := SignedPut (key contentType : JSText) (signableHeaders : list string) | SignedGet (key : JSText).

Record S3Client (W : Type) := {
  s3_put : JSText -> PutInput -> Bytes -> Eff W S3Failure (option JSText);
  s3_get : JSText -> JSText -> Eff W S3Failure ObjectOutput;
  s3_head : JSText -> JSText -> Eff W S3Failure ObjectOutput;
  s3_delete : JSText -> JSText -> Eff W S3Failure unit;
  s3_list : JSText -> nat -> option JSText -> option JSText -> Eff W S3Failure ListOutput;
  s3_sign : JSText -> Presigned -> Z -> Eff W S3Failure JSText;
  s3_now : W -> Z }.
Arguments s3_put {W}. Arguments s3_get {W}. Arguments s3_head {W}. Arguments s3_delete {W}. Arguments s3_list {W}.
Arguments s3_sign {W}. Arguments s3_now {W}.

(** ** The adapter *)

Definition S3_REQUIRED_ENV : list string := ["S3_BUCKET"; "S3_ACCESS_KEY_ID"; "S3_SECRET_ACCESS_KEY"]%string.

Definition DEFAULT_CONTENT_TYPE : JSText := js "application/octet-stream".

(** The settings the constructor reads, and the bucket of a client that it
    makes. *)
Record S3Env := { env_BUCKET : option JSText; env_ACCESS_KEY_ID : option JSText; env_SECRET_ACCESS_KEY : option JSText }.

Definition truthy (t : option JSText) : option JSText := match t with Some (c :: t) => Some (c :: t) | _ => None end.

Definition bucketFrom (env : S3Env) : option JSText :=
  match truthy (env_BUCKET env), truthy (env_ACCESS_KEY_ID env), truthy (env_SECRET_ACCESS_KEY env) with
  | Some bucket, Some _, Some _ => Some bucket
  | _, _, _ => None
  end.

Definition isMissingObject (e : S3Failure) : bool :=
  match e with
  | S3ServiceException (NoSuchKey | NotFound) _ _ => true
  | S3ServiceException OtherService name status => bool_decide (status = Some 404) && negb (bool_decide (name = "NoSuchBucket"%string))
  | S3Transport _ => false
  end.

Definition translate (operation : string) (key : JSText) (e : S3Failure) : StorageError :=
  if isMissingObject e then ObjectNotFoundError key
  else StorageOperationError S3 (js operation ++ js " " ++ key)
         match e with S3ServiceException _ name _ => name | S3Transport _ => "" end.

Definition callS3 {W A} (operation : string) (key : JSText) (run : Eff W S3Failure A) : Eff W StorageError A := fun w =>
  match run w with
  | (inl e, w) => (inl (translate operation key e), w)
  | (inr a, w) => (inr a, w)
  end.

Definition describeObject (key : JSText) (result : ObjectOutput) : StorageObject :=
  {| so_key := key;
     so_size := default 0%nat (out_ContentLength result);
     so_contentType := default DEFAULT_CONTENT_TYPE (out_ContentType result);
     so_etag := default [] (out_ETag result);
     so_lastModified := default 0 (out_LastModified result);
     so_metadata := default ∅ (out_Metadata result) |}.

Definition describeEntry (entry : ListEntry) : option StorageObject :=
  key ← le_Key entry;
  Some {| so_key := key; so_size := default 0%nat (le_Size entry); so_contentType := DEFAULT_CONTENT_TYPE; so_etag := default [] (le_ETag entry);
          so_lastModified := default 0 (le_LastModified entry); so_metadata := ∅ |}.

(** A failure while the body is read is not inside [callS3]. *)
Definition uncaught (e : S3Failure) : StorageError :=
  UncaughtErrno match e with S3ServiceException _ name _ => name | S3Transport message => message end.

Record PresignedUrl := { pu_url : JSText; pu_key : JSText; pu_method : string; pu_expiresAt : Z }.

Section Adapter.
Context {W : Type} (client : S3Client W) (env : S3Env).

Definition require : StorageError + JSText :=
  match bucketFrom env with Some bucket => inr bucket | None => inl (StorageNotConfiguredError S3 S3_REQUIRED_ENV) end.

Definition adapter_put (key : JSText) (body : Bytes) (options : PutObjectOptions) : Eff W StorageError StorageObject :=
  let! _ := throwing (assertValidObjectKey key) in
  let! metadata := throwing (normaliseMetadata (po_metadata options)) in
  let! bucket := throwing require in
  let! etag := callS3 "put" key (s3_put client bucket
    {| pi_Key := key; pi_ContentType := po_contentType options; pi_Metadata := metadata; pi_CacheControl := truthy (po_cacheControl options) |} body) in
  let! now := reads (s3_now client) in
  ret {| so_key := key; so_size := length body; so_contentType := po_contentType options; so_etag := default [] etag;
         so_lastModified := now; so_metadata := metadata |}.

Definition adapter_get (key : JSText) : Eff W StorageError (StorageObject * Bytes) :=
  let! _ := throwing (assertValidObjectKey key) in
  let! bucket := throwing require in
  let! result := callS3 "get" key (s3_get client bucket key) in
  let! bytes := throwing (match out_Body result with
                          | Some (NodeStream r | OtherStream r) => match r with inl e => inl (uncaught e) | inr bytes => inr bytes end
                          | None => inr []
                          end) in
  let object := describeObject key result in
  ret ({| so_key := so_key object; so_size := default (length bytes) (out_ContentLength result); so_contentType := so_contentType object;
          so_etag := so_etag object; so_lastModified := so_lastModified object; so_metadata := so_metadata object |}, bytes).

(** The stream is read by the caller: what it will give is part of the answer. *)
Definition adapter_getStream (key : JSText) : Eff W StorageError (StorageObject * Bytes) :=
  let! _ := throwing (assertValidObjectKey key) in
  let! bucket := throwing require in
  let! result := callS3 "getStream" key (s3_get client bucket key) in
  match out_Body result with
  | Some (NodeStream (inr bytes)) => ret (describeObject key result, bytes)
  | Some (NodeStream (inl e)) => throw (uncaught e)
  | _ => throw (StorageOperationError S3 (js "getStream " ++ key) "")
  end.

Definition adapter_head (key : JSText) : Eff W StorageError StorageObject :=
  let! _ := throwing (assertValidObjectKey key) in
  let! bucket := throwing require in
  let! result := callS3 "head" key (s3_head client bucket key) in
  ret (describeObject key result).

Definition adapter_exists (key : JSText) : Eff W StorageError bool := fun w =>
  match adapter_head key w with
  | (inr _, w) => (inr true, w)
  | (inl (ObjectNotFoundError _), w) => (inr false, w)
  | (inl e, w) => (inl e, w)
  end.

Definition adapter_delete (key : JSText) : Eff W StorageError unit :=
  let! _ := throwing (assertValidObjectKey key) in
  let! bucket := throwing require in
  callS3 "delete" key (s3_delete client bucket key).

Definition adapter_list (options : ListObjectsOptions) : Eff W StorageError ListObjectsPage :=
  let! bucket := throwing require in
  let limit := clampListLimit (lo_limit options) in
  let! result := callS3 "list" (default [] (lo_prefix options)) (s3_list client bucket limit (truthy (lo_prefix options)) (truthy (lo_cursor options))) in
  ret {| lp_objects := omap describeEntry (default [] (lo_Contents result));
         lp_nextCursor := match lo_IsTruncated result with Some true => lo_NextContinuationToken result | _ => None end |}.

(** The content type is signed with the request. *)
Definition presignPut (key contentType : JSText) (expiresInSeconds : Z) : Eff W StorageError PresignedUrl :=
  let! _ := throwing (assertValidObjectKey key) in
  let! bucket := throwing require in
  let! url := callS3 "presignPut" key (s3_sign client bucket (SignedPut key contentType ["content-type"%string]) expiresInSeconds) in
  let! now := reads (s3_now client) in
  ret {| pu_url := url; pu_key := key; pu_method := "PUT"; pu_expiresAt := now + expiresInSeconds * 1000 |}.

Definition presignGet (key : JSText) (expiresInSeconds : Z) : Eff W StorageError PresignedUrl :=
  let! _ := throwing (assertValidObjectKey key) in
  let! bucket := throwing require in
  let! url := callS3 "presignGet" key (s3_sign client bucket (SignedGet key) expiresInSeconds) in
  let! now := reads (s3_now client) in
  ret {| pu_url := url; pu_key := key; pu_method := "GET"; pu_expiresAt := now + expiresInSeconds * 1000 |}.

Definition S3StorageAdapter : StorageAdapter W := {|
  sa_name := S3; sa_isConfigured := bool_decide (is_Some (bucketFrom env));
  sa_put := adapter_put; sa_get := adapter_get; sa_getStream := adapter_getStream; sa_head := adapter_head;
  sa_exists := adapter_exists; sa_delete := adapter_delete; sa_list := adapter_list |}.
End Adapter.

(** ** What S3 documents *)

Section Order.
Context (key_le : relation JSText) `{!RelDecision key_le}.

Definition key_lt (a b : JSText) : Prop := key_le a b /\ a <> b.

#[export] Instance key_lt_dec : RelDecision key_lt.
Proof using All. intros a b. unfold key_lt. apply _. Defined.

(** The keys under a prefix, in S3's order, after one of them. *)
Definition under (prefix : option JSText) (s : FlatStore) : list JSText :=
  merge_sort key_le (filter (fun k => default [] prefix `prefix_of` k) (map_to_list s).*1).

Definition beyond (after : option JSText) (keys : list JSText) : list JSText :=
  match after with None => keys | Some k => filter (key_lt k) keys end.
End Order.

Section Service.
Context (md5 : Bytes -> JSText).
Context (key_le : relation JSText) `{!RelDecision key_le, !Transitive key_le, !Total key_le, !AntiSymm (=) key_le}.

(** The headers of an object that is there. *)
Definition outputOf (o : Stored) (modified : Z) (body : option S3Body) : ObjectOutput :=
  {| out_Body := body; out_ContentLength := Some (length (st_body o)); out_ContentType := Some (st_contentType o);
     out_ETag := Some (etagOf md5 (st_body o)); out_LastModified := Some modified; out_Metadata := Some (st_metadata o) |}.

Definition entryOf (s : FlatStore) (key : JSText) (e : ListEntry) : Prop :=
  le_Key e = Some key /\ exists o, s !! key = Some o /\ le_Size e = Some (length (st_body o)) /\ le_ETag e = Some (etagOf md5 (st_body o)).

Definition truncated (limit : nat) (keys : list JSText) : bool := bool_decide (limit < length keys)%nat.

(** A bucket that is there.  An ETag of one PUT is the MD5 of the body; names of
    user metadata that are in lower case come back as they were sent; a HEAD of
    nothing has no body to say so; a listing is in order, with a token to go on
    after its last key. *)
Class S3Service {W} (client : S3Client W) (bucket : JSText) := {
  holds : W -> FlatStore -> Prop;
  tokenAfter : JSText -> JSText;
  token_shows k : tokenAfter k <> [];
  put_law w s i body : holds w s -> (exists m, normaliseMetadata m = inr (pi_Metadata i)) ->
    (s3_put client bucket i body w).1 = inr (Some (etagOf md5 body)) /\
    holds (s3_put client bucket i body w).2 (<[pi_Key i := {| st_body := body; st_contentType := pi_ContentType i; st_metadata := pi_Metadata i;
                                                              st_cacheControl := pi_CacheControl i |}]> s);
  get_law w s key : holds w s ->
    holds (s3_get client bucket key w).2 s /\
    match s !! key with
    | None => (s3_get client bucket key w).1 = inl (S3ServiceException NoSuchKey "NoSuchKey" (Some 404))
    | Some o => exists modified, (s3_get client bucket key w).1 = inr (outputOf o modified (Some (NodeStream (inr (st_body o)))))
    end;
  head_law w s key : holds w s ->
    holds (s3_head client bucket key w).2 s /\
    match s !! key with
    | None => (s3_head client bucket key w).1 = inl (S3ServiceException NotFound "NotFound" (Some 404))
    | Some o => exists modified, (s3_head client bucket key w).1 = inr (outputOf o modified None)
    end;
  delete_law w s key : holds w s -> (s3_delete client bucket key w).1 = inr tt /\ holds (s3_delete client bucket key w).2 (delete key s);
  list_law w s limit prefix after : holds w s -> (1 <= limit)%nat ->
    let rest := beyond key_le after (under key_le prefix s) in
    holds (s3_list client bucket limit prefix (tokenAfter <$> after) w).2 s /\
    exists entries, Forall2 (entryOf s) (take limit rest) entries /\
      (s3_list client bucket limit prefix (tokenAfter <$> after) w).1 =
      inr {| lo_Contents := Some entries; lo_IsTruncated := Some (truncated limit rest);
             lo_NextContinuationToken := if truncated limit rest then tokenAfter <$> last (take limit rest) else None |} }.

Context {W : Type} (client : S3Client W) (env : S3Env) (bucket : JSText) (Hbucket : bucketFrom env = Some bucket).
Context {service : S3Service client bucket}.

(** Up to the [Cache-Control], which no answer shows. *)
Definition s3_represents (w : W) (s : FlatStore) : Prop := exists kept, holds w kept /\ uncached <$> kept = uncached <$> s.

Lemma uncached_lookup (kept s : FlatStore) key : uncached <$> kept = uncached <$> s ->
  match kept !! key with
  | Some o => exists o', s !! key = Some o' /\ st_body o = st_body o' /\ stored_view md5 key o = stored_view md5 key o' /\ st_contentType o = st_contentType o' /\ st_metadata o = st_metadata o'
  | None => s !! key = None
  end.
Proof.
  intros H. assert (uncached <$> (kept !! key) = uncached <$> (s !! key)) as Hk.
  { by rewrite <-!lookup_fmap, H. }
  destruct (kept !! key) as [o|], (s !! key) as [o'|]; try done. apply (inj Some) in Hk. unfold uncached in Hk. injection Hk as H1 H2 H3.
  exists o'. split_and!; try done. unfold stored_view. by rewrite H1, H2, H3.
Qed.

Definition not_list (op : StorageOp) : Prop := match op with OpList _ => False | _ => True end.

Lemma require_bucket : require env = inr bucket.
Proof using Hbucket. unfold require. by rewrite Hbucket. Qed.

(** What a read of [key] finds, under one of the laws of the service. *)
Ltac looks_up law command w kept s key :=
  match goal with Hw : holds w kept, Hs : uncached <$> kept = uncached <$> s |- _ =>
    let H1 := fresh in let H2 := fresh in let Hk := fresh in let w' := fresh in
    destruct (law w kept key Hw) as [H1 H2]; destruct command as [? w']; cbn in H1, H2;
    pose proof (uncached_lookup kept s key Hs) as Hk; destruct (kept !! key) as [o|]; cbn;
    [ destruct H2 as [modified ->]; let Hb := fresh in let Hv := fresh in destruct Hk as (o' & -> & Hb & Hv & _); cbn; rewrite <-?Hb, <-?Hv
    | subst; rewrite Hk; cbn ];
    (split; [try done|by exists kept])
  end.

(** One operation at a time.  The store is what [kept] says. *)
Section Step.
Context (w : W) (s kept : FlatStore) (Hw : holds w kept) (Hs : uncached <$> kept = uncached <$> s).

Lemma put_step key body options :
  (run_op (S3StorageAdapter client env) (OpPut key body options) w).1 = (spec_op md5 (OpPut key body options) s).1 /\
  s3_represents (run_op (S3StorageAdapter client env) (OpPut key body options) w).2 (spec_op md5 (OpPut key body options) s).2.
Proof using All.
  cbn. unfold adapter_put, bind, throwing. rewrite require_bucket. destruct (assertValidObjectKey key); [by split; [|exists kept]|].
  destruct (normaliseMetadata (po_metadata options)) as [|metadata] eqn:Hm; [by split; [|exists kept]|]. cbn. unfold callS3.
  set (i := {| pi_Key := key; pi_ContentType := _; pi_Metadata := _; pi_CacheControl := _ |}).
  destruct (put_law w kept i body Hw (ex_intro _ _ Hm)) as [H1 H2].
  destruct (s3_put client bucket i body w) as [r w']. cbn in H1, H2. subst r. cbn. split; [done|].
  eexists. split; [exact H2|]. rewrite !fmap_insert, Hs. done.
Qed.

Lemma get_step key :
  (run_op (S3StorageAdapter client env) (OpGet key) w).1 = (spec_op md5 (OpGet key) s).1 /\
  s3_represents (run_op (S3StorageAdapter client env) (OpGet key) w).2 (spec_op md5 (OpGet key) s).2.
Proof using All.
  cbn. unfold adapter_get, spec_find, bind, throwing. rewrite require_bucket. destruct (assertValidObjectKey key); [by split; [|exists kept]|]. cbn. unfold callS3. looks_up get_law (s3_get client bucket key w) w kept s key.
Qed.

Lemma getStream_step key :
  (run_op (S3StorageAdapter client env) (OpGetStream key) w).1 = (spec_op md5 (OpGetStream key) s).1 /\
  s3_represents (run_op (S3StorageAdapter client env) (OpGetStream key) w).2 (spec_op md5 (OpGetStream key) s).2.
Proof using All.
  cbn. unfold adapter_getStream, spec_find, bind, throwing. rewrite require_bucket. destruct (assertValidObjectKey key); [by split; [|exists kept]|]. cbn. unfold callS3. looks_up get_law (s3_get client bucket key w) w kept s key.
Qed.

Lemma head_step key :
  (run_op (S3StorageAdapter client env) (OpHead key) w).1 = (spec_op md5 (OpHead key) s).1 /\
  s3_represents (run_op (S3StorageAdapter client env) (OpHead key) w).2 (spec_op md5 (OpHead key) s).2.
Proof using All.
  cbn. unfold adapter_head, spec_find, bind, throwing. rewrite require_bucket. destruct (assertValidObjectKey key); [by split; [|exists kept]|]. cbn. unfold callS3. looks_up head_law (s3_head client bucket key w) w kept s key.
Qed.

Lemma assertValidObjectKey_found key e : assertValidObjectKey key = inl e -> forall k, e <> ObjectNotFoundError k.
Proof.
  unfold assertValidObjectKey. intros H k ->. repeat (case_match; try discriminate).
Qed.

Lemma exists_step key :
  (run_op (S3StorageAdapter client env) (OpExists key) w).1 = (spec_op md5 (OpExists key) s).1 /\
  s3_represents (run_op (S3StorageAdapter client env) (OpExists key) w).2 (spec_op md5 (OpExists key) s).2.
Proof using All.
  cbn. unfold adapter_exists, adapter_head, bind, throwing. rewrite require_bucket.
  destruct (assertValidObjectKey key) as [e|] eqn:Hk0; cbn.
  { pose proof (assertValidObjectKey_found key e Hk0) as He. destruct e; try by split; [|exists kept]. by destruct (He key0). }
  unfold callS3. looks_up head_law (s3_head client bucket key w) w kept s key.
Qed.

Lemma delete_step key :
  (run_op (S3StorageAdapter client env) (OpDelete key) w).1 = (spec_op md5 (OpDelete key) s).1 /\
  s3_represents (run_op (S3StorageAdapter client env) (OpDelete key) w).2 (spec_op md5 (OpDelete key) s).2.
Proof using All.
  cbn. unfold adapter_delete, bind, throwing. rewrite require_bucket. destruct (assertValidObjectKey key); [by split; [|exists kept]|]. cbn. unfold callS3.
  destruct (delete_law w kept key Hw) as [H1 H2]. destruct (s3_delete client bucket key w) as [r w']. cbn in H1, H2. subst r. cbn.
  split; [done|]. eexists. split; [exact H2|]. by rewrite !fmap_delete, Hs.
Qed.
End Step.

#[export] Instance s3_contract : StorageContract md5 (S3StorageAdapter client env) not_list.
Proof using All.
  refine {| represents := s3_represents |}. intros op w s Hop (kept & Hw & Hs).
  destruct op as [key body options|key|key|key|key|key|options]; [by apply (put_step w s kept)|by apply (get_step w s kept)|by apply (getStream_step w s kept)|
    by apply (head_step w s kept)|by apply (exists_step w s kept)|by apply (delete_step w s kept)|done].
Defined.

(** ** Listing page by page *)

Lemma strictly_sorted prefix s : StronglySorted (key_lt key_le) (under key_le prefix s).
Proof using All.
  assert (NoDup (under key_le prefix s)) as Hn. { unfold under. rewrite merge_sort_Permutation. apply NoDup_filter, NoDup_fst_map_to_list. }
  assert (StronglySorted key_le (under key_le prefix s)) as Hs by (apply Sorted_StronglySorted; [done|apply (Sorted_merge_sort _)]).
  revert Hn. induction Hs as [|k l Hs IH Hk]; intros Hn; constructor; apply NoDup_cons in Hn as [Hk' Hn]; [by apply IH|].
  rewrite Forall_forall in Hk |- *. intros x Hx. split; [by apply Hk|]. by intros ->.
Qed.

Lemma beyond_cut l (a : list JSText) k b : StronglySorted (key_lt key_le) l -> l = a ++ k :: b -> beyond key_le (Some k) l = b.
Proof using All.
  intros Hs ->. unfold beyond. induction a as [|x a IH]; cbn [app] in *; apply StronglySorted_inv in Hs as [Hs Hx].
  - rewrite filter_cons_False by (by intros [_ []]). clear Hs. induction b as [|y b IH]; [done|].
    apply Forall_cons in Hx as [Hy Hx]. rewrite filter_cons_True by done. by rewrite IH.
  - rewrite filter_cons_False; [by apply IH|]. intros [Hkx Hne]. rewrite Forall_forall in Hx.
    destruct (Hx k) as [Hxk _]; [set_solver|]. apply Hne. by apply (anti_symm key_le).
Qed.

Fixpoint list_all (pages : nat) (options : ListObjectsOptions) (w : W) : option (list StorageObject) :=
  match pages with
  | O => None
  | S pages =>
      match adapter_list client env options w with
      | (inl _, _) => None
      | (inr page, w) =>
          match lp_nextCursor page with
          | None => Some (lp_objects page)
          | Some cursor => app (lp_objects page) <$> list_all pages (after options cursor) w
          end
      end
  end.

Definition shows (s : FlatStore) (o : StorageObject) : Prop :=
  exists d, s !! so_key o = Some d /\ so_size o = length (st_body d) /\ so_etag o = etagOf md5 (st_body d).

Lemma entries_shown s keys entries : Forall2 (entryOf s) keys entries ->
  so_key <$> omap describeEntry entries = keys /\ Forall (shows s) (omap describeEntry entries).
Proof.
  induction 1 as [|k e keys entries (Hk & o & Ho & Hsize & Htag) _ [IH1 IH2]]; [by split|].
  assert (exists m, describeEntry e = Some {| so_key := k; so_size := length (st_body o); so_contentType := DEFAULT_CONTENT_TYPE;
    so_etag := etagOf md5 (st_body o); so_lastModified := m; so_metadata := ∅ |}) as [m Hd].
  { unfold describeEntry. rewrite Hk, Hsize, Htag. cbn. by eexists. }
  cbn. rewrite Hd. cbn. split; [by f_equal|]. constructor; [by exists o|done].
Qed.

Lemma take_last_cut {A} (n : nat) (l : list A) : (1 <= n)%nat -> (n < length l)%nat -> exists a k, take n l = a ++ [k] /\ last (take n l) = Some k /\ l = a ++ k :: drop n l.
Proof.
  intros H1 H2. destruct (take n l) as [|x t] eqn:Ht using rev_ind; [apply (f_equal length) in Ht; rewrite length_take in Ht; cbn in Ht; lia|].
  exists t, x. split_and!; [done|apply last_snoc|]. rewrite <-(take_drop n l) at 1. by rewrite Ht, <-app_assoc.
Qed.

Lemma list_all_rest pages s options pre pos rest w :
  holds w s -> lo_cursor options = tokenAfter <$> pos -> under key_le (truthy (lo_prefix options)) s = pre ++ rest ->
  beyond key_le pos (under key_le (truthy (lo_prefix options)) s) = rest -> (length rest < pages)%nat ->
  exists objects, list_all pages options w = Some objects /\ so_key <$> objects = rest /\ Forall (shows s) objects.
Proof using All.
  revert options pre pos rest w. induction pages as [|pages IH]; intros options pre pos rest w Hw Hc Hpre Hrest Hlen; [lia|].
  cbn [list_all]. unfold adapter_list, bind, throwing. rewrite require_bucket. cbn. unfold callS3.
  assert (truthy (lo_cursor options) = tokenAfter <$> pos) as ->.
  { rewrite Hc. destruct pos as [k|]; [|done]. cbn. pose proof (token_shows k). by destruct (tokenAfter k). }
  set (limit := clampListLimit (lo_limit options)). assert (1 <= limit)%nat as Hl by apply clampListLimit_pos.
  destruct (list_law w s limit (truthy (lo_prefix options)) pos Hw Hl) as (Hw' & entries & He & Hr). rewrite Hrest in He, Hr.
  destruct (s3_list client bucket limit (truthy (lo_prefix options)) (tokenAfter <$> pos) w) as [r w']. cbn in Hw', Hr. subst r. cbn.
  destruct (entries_shown s _ _ He) as [Hk Hshow]. unfold truncated. case_bool_decide as Ht.
  - destruct (take_last_cut limit rest Hl Ht) as (a & k & Hta & Hlast & Hcut). rewrite Hlast. cbn.
    destruct (IH (after options (tokenAfter k)) (pre ++ a ++ [k]) (Some k) (drop limit rest) w') as (objects & Ho & Hkeys & Hsh); [done|done| | | |].
    + cbn. rewrite Hpre. rewrite Hcut at 1. by rewrite <-!app_assoc.
    + cbn -[beyond]. apply (beyond_cut _ (pre ++ a)); [apply strictly_sorted|]. rewrite Hpre. rewrite Hcut at 1. by rewrite <-app_assoc.
    + rewrite length_drop. lia.
    + rewrite Ho. cbn. eexists. split; [done|]. rewrite fmap_app, Hk, Hkeys. split; [by rewrite take_drop|by apply Forall_app].
  - eexists. split; [done|]. rewrite Hk. split; [|done]. apply take_ge. lia.
Qed.

(** Following its cursors, the S3 adapter lists every key under a prefix once,
    in the store's order, with its size and entity tag, whatever the limit, in
    no more pages than there are keys and one. *)
Theorem s3_listing_complete s options w :
  holds w s -> lo_cursor options = None ->
  exists objects, list_all (S (length (under key_le (lo_prefix options) s))) options w = Some objects /\
    so_key <$> objects = under key_le (lo_prefix options) s /\ Forall (shows s) objects.
Proof using All.
  intros Hw Hc. assert (under key_le (lo_prefix options) s = under key_le (truthy (lo_prefix options)) s) as ->.
  { unfold under. by destruct (lo_prefix options) as [[|]|]. }
  apply (list_all_rest _ s options [] None); [done|by rewrite Hc|done|done|lia].
Qed.

(** Whatever operations but listings are run, the S3 adapter answers each as the
    flat keyspace of the port does, errors included. *)
Theorem s3_answers_as_specified ops s w :
  Forall not_list ops -> holds w s -> answers (S3StorageAdapter client env) ops w = spec_answers md5 ops s.
Proof using All. intros Hops Hw. apply (contract_answers md5 (S3StorageAdapter client env) not_list); [done|]. by exists s. Qed.
End Service.

(** ** A bucket in a map *)

Section Bucket.
Context (md5 : Bytes -> JSText).

Definition listEntry (b : FlatStore) (key : JSText) : option ListEntry :=
  o ← b !! key;
  Some {| le_Key := Some key; le_Size := Some (length (st_body o)); le_ETag := Some (etagOf md5 (st_body o)); le_LastModified := Some 0 |}.

Definition bucketClient : S3Client FlatStore := {|
  s3_put _ i body b :=
    (inr (Some (etagOf md5 body)),
     <[pi_Key i := {| st_body := body; st_contentType := pi_ContentType i; st_metadata := pi_Metadata i; st_cacheControl := pi_CacheControl i |}]> b);
  s3_get _ key b :=
    (match b !! key with
     | Some o => inr (outputOf md5 o 0 (Some (NodeStream (inr (st_body o)))))
     | None => inl (S3ServiceException NoSuchKey "NoSuchKey" (Some 404))
     end, b);
  s3_head _ key b :=
    (match b !! key with Some o => inr (outputOf md5 o 0 None) | None => inl (S3ServiceException NotFound "NotFound" (Some 404)) end, b);
  s3_delete _ key b := (inr tt, delete key b);
  s3_list _ limit prefix token b :=
    let rest := beyond text_le (drop 6 <$> token) (under text_le prefix b) in
    (inr {| lo_Contents := Some (omap (listEntry b) (take limit rest)); lo_IsTruncated := Some (truncated limit rest);
            lo_NextContinuationToken := if truncated limit rest then app (js "after:") <$> last (take limit rest) else None |}, b);
  s3_sign _ request seconds b := (inr (js "https://s3.test/"), b);
  s3_now _ := 0 |}.

Lemma under_stored (prefix : option JSText) (b : FlatStore) : Forall (fun k => is_Some (b !! k)) (under text_le prefix b).
Proof.
  apply Forall_forall. intros k. unfold under. rewrite merge_sort_Permutation, list_elem_of_filter.
  intros [_ ([k' o] & -> & Hin%elem_of_map_to_list)%list_elem_of_fmap]. by exists o.
Qed.

#[export] Instance bucket_service bucket : S3Service md5 text_le bucketClient bucket.
Proof.
  refine {| holds := eq; tokenAfter := app (js "after:") |}; [done|..].
  - by intros w s i body ->.
  - intros w s key ->. cbn. split; [done|]. destruct (s !! key); [by eexists|done].
  - intros w s key ->. cbn. split; [done|]. destruct (s !! key); [by eexists|done].
  - by intros w s key ->.
  - intros w s limit prefix after -> Hl rest. split; [done|].
    exists (omap (listEntry s) (take limit rest)). split; [|unfold rest; by destruct after].
    assert (Forall (fun k => is_Some (s !! k)) (take limit rest)) as Hall.
    { apply Forall_take. pose proof (under_stored prefix s) as Hu. unfold rest, beyond. destruct after; [|done].
      rewrite Forall_forall in Hu |- *. intros k [_ Hk]%list_elem_of_filter. by apply Hu. }
    induction Hall as [|k l [o Ho] _ IH]; [constructor|]. cbn. unfold listEntry at 1. rewrite Ho. cbn. constructor; [|done].
    split; [done|]. by exists o.
Defined.
End Bucket.

(** ** Examples *)

Definition s3_env : S3Env := {| env_BUCKET := Some (js "b"); env_ACCESS_KEY_ID := Some (js "id"); env_SECRET_ACCESS_KEY := Some (js "secret") |}.

Definition s3_store : FlatStore :=
  (fun _ => {| st_body := [1%N]; st_contentType := js "text/plain"; st_metadata := ∅; st_cacheControl := None |}) <$>
  ({[ js "a/1" := tt; js "a/2" := tt; js "a/3" := tt; js "b" := tt ]} : gmap JSText unit).

Lemma s3_listing_complete_witness :
  exists objects, list_all (bucketClient sample_md5) s3_env 4 sample_listing s3_store = Some objects /\ so_key <$> objects = [js "a/1"; js "a/2"; js "a/3"].
Proof.
  destruct (s3_listing_complete sample_md5 text_le (bucketClient sample_md5) s3_env (js "b") eq_refl s3_store sample_listing s3_store)
    as (objects & H & Hk & _); [reflexivity|reflexivity|].
  exists objects. split; [exact H|]. rewrite Hk. vm_compute. reflexivity.
Defined.

Lemma s3_answers_as_specified_witness :
  answers (S3StorageAdapter (bucketClient sample_md5) s3_env) [OpDelete (js "b"); OpExists (js "b"); OpHead (js "b")] s3_store =
  [inr ADelete; inr (AExists false); inl (ObjectNotFoundError (js "b"))].
Proof.
  rewrite (s3_answers_as_specified sample_md5 text_le (bucketClient sample_md5) s3_env (js "b") eq_refl _ s3_store s3_store);
    [vm_compute; reflexivity|repeat constructor|reflexivity].
Defined.

(** A bucket that is not there: S3 says so in the body of its answer, and the
    answer to a HEAD has none. *)
Definition noBucketClient : S3Client unit :=
  let gone := S3ServiceException OtherService "NoSuchBucket" (Some 404) in
  {| s3_put _ _ _ b := (inl gone, b); s3_get _ _ b := (inl gone, b);
     s3_head _ _ b := (inl (S3ServiceException NotFound "NotFound" (Some 404)), b);
     s3_delete _ _ b := (inl gone, b); s3_list _ _ _ _ b := (inl gone, b); s3_sign _ _ _ b := (inr [], b); s3_now _ := 0 |}.

Example missing_bucket_reads_as_missing_object :
  (adapter_exists noBucketClient s3_env (js "a") tt).1 = inr false /\
  (adapter_head noBucketClient s3_env (js "a") tt).1 = inl (ObjectNotFoundError (js "a")) /\
  (adapter_get noBucketClient s3_env (js "a") tt).1 = inl (StorageOperationError S3 (js "get a") "NoSuchBucket").
Proof. split_and!; vm_compute; reflexivity. Qed.

(** A connection that dies while the body is read. *)
Definition cutClient : S3Client unit :=
  let cut := {| out_Body := Some (NodeStream (inl (S3Transport "aborted"))); out_ContentLength := None; out_ContentType := None; out_ETag := None;
                out_LastModified := None; out_Metadata := None |} in
  {| s3_put _ _ _ b := (inr None, b); s3_get _ _ b := (inr cut, b); s3_head _ _ b := (inr cut, b); s3_delete _ _ b := (inr tt, b);
     s3_list _ _ _ _ b := (inl (S3Transport "aborted"), b); s3_sign _ _ _ b := (inr [], b); s3_now _ := 0 |}.

Example cut_body_is_not_translated : (adapter_get cutClient s3_env (js "a") tt).1 = inl (UncaughtErrno "aborted").
Proof. vm_compute. reflexivity. Qed.
