(* ===== verification/PaypalPayments.v ===== *)
(** * PaypalPayments: the PayPal gateway

    [src/src/payments/providers/paypal-payment.provider.ts] over the resilient
    HTTP client, which is a parameter: what it answers to a request.  Calls of
    the provider follow one another; that concurrent ones share a token request
    is left out.  PayPal's ids, currencies and amounts are ASCII. *)

From S2P Require Import Prelude Text Json HttpClient Payments.
From S2P Require Import Storage Notifications.
From Stdlib Require Import QArith.
#[local] Open Scope Z_scope.

(** ** Reading an order *)

Abbreviation Fields := (option (list (string * JsonValue))).

(** [array[0]] and [record?.key], where [undefined] reads like [null]. *)
Definition firstOf (items : list JsonValue) : JsonValue := default JNull (head items).
Definition jsonField (source : Fields) (key : string) : JsonValue := default JNull (source ≫= Notifications.member key).

Definition purchaseUnit (order : Fields) : Fields := asRecord (firstOf (readArray order "purchase_units")).

Definition paymentsOf (order : Fields) : Fields := asRecord (jsonField (purchaseUnit order) "payments").

Definition firstCapture (order : JsonValue) : JsonValue := firstOf (readArray (paymentsOf (asRecord order)) "captures").

Definition firstIssue (body : JsonValue) : option JSText :=
  readString (asRecord (firstOf (readArray (asRecord body) "details"))) "issue".

Inductive PaypalError :=
| Refused (e : PaymentError)
| PaymentProviderError (message : JSText) (code : option JSText) (status : Z)
| PaymentProviderNotConfiguredError
| HttpFailed (e : HttpError).

Definition ofMoney {A} (r : InvalidMoneyError + A) : PaypalError + A := match r with inl e => inl (Refused (MoneyError e)) | inr a => inr a end.
Definition ofPayment {A} (r : PaymentError + A) : PaypalError + A := match r with inl e => inl (Refused e) | inr a => inr a end.

(** A string that is there and not empty. *)
Definition shown (t : option JSText) : option JSText := match t with Some (c :: t) => Some (c :: t) | _ => None end.

Definition countedRefund (currency : JSText) (entry : JsonValue) : InvalidMoneyError + Z :=
  let refund := asRecord entry in
  let status := readString refund "status" in
  if decide (status = Some (js "CANCELLED") \/ status = Some (js "FAILED")) then inr 0
  else
    let amount := asRecord (jsonField refund "amount") in
    match shown (readString amount "value") with
    | None => inr 0
    | Some value =>
        match fromDecimalString (ofText value) (ofText (default currency (readString amount "currency_code"))) with
        | inl e => inl e
        | inr m => inr (amountMinor m)
        end
    end.

Definition sumRefunds (order : Fields) (currency : JSText) : InvalidMoneyError + Z :=
  foldl (fun total entry =>
    match total with
    | inl e => inl e
    | inr total => match countedRefund currency entry with inl e => inl e | inr n => inr (total + n) end
    end) (inr 0) (readArray (paymentsOf order) "refunds").

Definition mapStatus (orderStatus : JSText) (captureStatus : option JSText) (amountMinor refundedMinor : Z) : PaymentStatus :=
  if decide (orderStatus ∈ [js "CREATED"; js "SAVED"; js "PAYER_ACTION_REQUIRED"]) then RequiresAction
  else if decide (orderStatus = js "APPROVED") then Authorized
  else if decide (orderStatus = js "VOIDED") then Canceled
  else if decide (orderStatus <> js "COMPLETED") then Failed_
  else if decide (captureStatus = Some (js "DECLINED") \/ captureStatus = Some (js "FAILED")) then Failed_
  else if decide (captureStatus = Some (js "PENDING")) then Processing
  else if decide (refundedMinor <= 0) then Succeeded
  else if decide (amountMinor <= refundedMinor) then Refunded else PartiallyRefunded.

Definition approvalAction (order : Fields) : option JSText :=
  let is_approval entry :=
    let rel := readString (asRecord entry) "rel" in bool_decide (rel = Some (js "payer-action") \/ rel = Some (js "approve")) in
  shown (link ← List.find is_approval (readArray order "links"); readString (asRecord link) "href").

(** The payment, and where the buyer has to go next. *)
Definition toPayment (body : JsonValue) : PaypalError + (Payment * option JSText) :=
  let order := asRecord body in
  let unit := purchaseUnit order in
  let amountRecord := asRecord (jsonField unit "amount") in
  match shown (readString order "id"), shown (readString order "status"), shown (readString amountRecord "currency_code"),
        shown (readString amountRecord "value") with
  | Some id, Some orderStatus, Some currency_, Some value =>
      match ofMoney (fromDecimalString (ofText value) (ofText currency_)) with
      | inl e => inl e
      | inr amount =>
          match ofMoney (sumRefunds order currency_) with
          | inl e => inl e
          | inr refundedMinor =>
              let status := mapStatus orderStatus (readString (asRecord (firstCapture body)) "status") (amountMinor amount) refundedMinor in
              let reference := match readString unit "reference_id" with Some r => Some r | None => readString unit "custom_id" end in
              inr ({| p_id := ofText id; p_provider := Paypal; p_status := status; p_amount := amount;
                      p_amountRefunded := {| amountMinor := refundedMinor; currency := currency amount |};
                      p_reference := ofText (default [] reference) |},
                   if decide (status = RequiresAction) then approvalAction order else None)
          end
      end
  | _, _, _, _ => inl (PaymentProviderError (js "PayPal returned an order without id, status or purchase amount") None 502)
  end.

Definition upstreamError (status : Z) (body : JsonValue) : PaypalError :=
  let record := asRecord body in
  let or {A} (a b : option A) := match a with Some x => Some x | None => b end in
  PaymentProviderError
    (default (js "PayPal request failed with status " ++ js (pretty status)) (or (readString record "message") (readString record "error_description")))
    (or (firstIssue body) (or (readString record "name") (readString record "error")))
    (if decide (status = 429) then 503 else 502).

(** ** Requests *)

(** An id in a path is one segment of it, whatever it holds: it is sent through
    [encodeURIComponent]. *)
Inductive Endpoint := TokenEndpoint | OrdersEndpoint | OrderEndpoint (id : string) | CaptureEndpoint (id : string) | RefundEndpoint (captureId : JSText).

(** The path in a message, for an endpoint without an id. *)
Definition pathOf (e : Endpoint) : string := match e with OrdersEndpoint => "/v2/checkout/orders" | _ => "" end.

Record PaypalRequest := {
  rq_endpoint : Endpoint;
  rq_post : bool;
  rq_authorization : JSText;
  rq_body : option JsonValue;
  rq_requestId : option JSText;
  rq_idempotent : option bool }.

Record CreatePaymentInput := {
  ci_amount : Amount;
  ci_reference : JSText;
  ci_description : option JSText;
  ci_returnUrl : option JSText;
  ci_cancelUrl : option JSText;
  ci_customerEmail : option JSText }.

Definition jstring (t : JSText) : JsonValue := JString t.

Definition maybe (key : string) (t : option JSText) : list (string * JsonValue) :=
  match shown t with Some t => [(key, JString t)] | None => [] end.

Definition amountJson (currency value : string) : JsonValue := JObject [("currency_code", JString (js currency)); ("value", JString (js value))]%string.

Definition orderRequest (input : CreatePaymentInput) (amount : Money) (value : string) : JsonValue :=
  let unit := JObject ([("reference_id", JString (ci_reference input)); ("custom_id", JString (ci_reference input));
                        ("amount", amountJson (currency amount) value)]%string ++ maybe "description" (ci_description input)) in
  let context := maybe "return_url" (ci_returnUrl input) ++ maybe "cancel_url" (ci_cancelUrl input) in
  JObject ([("intent", JString (js "CAPTURE")); ("purchase_units", JArray [unit])]%string ++
    match context with
    | [] => []
    | _ => [("payment_source", JObject [("paypal", JObject [("experience_context", JObject context)])])]%string
    end ++
    match shown (ci_customerEmail input) with Some email => [("payer", JObject [("email_address", JString email)])]%string | None => [] end).

(** ** What an order says *)

(** An order as PayPal keeps it: its capture, and refunds with their status and
    their amount in minor units. *)
Record PaypalOrder := {
  po_id : JSText;
  po_status : JSText;
  po_money : Money;
  po_reference : JSText;
  po_capture : option (JSText * JSText);
  po_refunds : list (JSText * Z) }.

Definition moneyJson (currency : string) (minor : Z) : JsonValue :=
  amountJson currency (match toDecimalString {| raw_amountMinor := Whole minor; raw_currency := currency |} with inr value => value | inl _ => "" end).

(** Its full representation. *)
Definition orderJson (o : PaypalOrder) : JsonValue :=
  let captures := match po_capture o with Some (id, status) => [JObject [("id", JString id); ("status", JString status)]%string] | None => [] end in
  let refund r := JObject [("status", JString r.1); ("amount", moneyJson (currency (po_money o)) r.2)]%string in
  JObject [("id", JString (po_id o)); ("status", JString (po_status o));
           ("purchase_units", JArray [JObject [("reference_id", JString (po_reference o));
              ("amount", moneyJson (currency (po_money o)) (amountMinor (po_money o)));
              ("payments", JObject [("captures", JArray captures); ("refunds", JArray (refund <$> po_refunds o))])]])]%string.

(** The refunds that moved money. *)
Definition refunded (o : PaypalOrder) : Z :=
  foldr (fun r total => (if decide (r.1 = js "CANCELLED" \/ r.1 = js "FAILED") then 0 else r.2) + total) 0 (po_refunds o).

Record order_ok (o : PaypalOrder) : Prop := {
  ook_id : po_id o <> [];
  ook_status : po_status o <> [];
  ook_currency : isCurrency (currency (po_money o)) = true;
  ook_amounts : Forall (fun n => 0 <= n <= MAX_SAFE_INTEGER) (amountMinor (po_money o) :: (po_refunds o).*2) }.

Lemma ofText_js s : ofText (js s) = s.
Proof. unfold ofText. rewrite toText_js. apply String.string_of_list_ascii_of_string. Qed.

Lemma js_shown s : s <> ""%string -> shown (Some (js s)) = Some (js s).
Proof. intros H. destruct (js s) as [|c t] eqn:E; [|done]. apply (f_equal ofText) in E. rewrite ofText_js in E. by vm_compute in E. Qed.

Lemma moneyJson_reads c minor : isCurrency c = true -> 0 <= minor <= MAX_SAFE_INTEGER ->
  exists value, moneyJson c minor = amountJson c value /\ value <> ""%string /\ fromDecimalString value c = inr {| amountMinor := minor; currency := c |}.
Proof.
  intros Hc Hm. assert (normaliseMoney {| raw_amountMinor := Whole minor; raw_currency := c |} = inr {| amountMinor := minor; currency := c |}) as Hn.
  { unfold normaliseMoney. cbn [raw_currency raw_amountMinor]. rewrite toUpperCase_upper, Hc by done. cbn. rewrite !decide_False by lia. done. }
  destruct (money_roundtrip _ _ Hn) as (value & Hv & Hback). unfold moneyJson. rewrite Hv. exists value. split_and!; [done| |done].
  intros ->. unfold fromDecimalString in Hback. cbn [raw_currency] in Hback. destruct (negb _); [done|]. by vm_compute in Hback.
Qed.

Lemma countedRefund_reads c status n : isCurrency c = true -> 0 <= n <= MAX_SAFE_INTEGER ->
  countedRefund (js c) (JObject [("status", JString status); ("amount", moneyJson c n)]%string) =
  inr (if decide (status = js "CANCELLED" \/ status = js "FAILED") then 0 else n).
Proof.
  intros Hc Hn. destruct (moneyJson_reads c n Hc Hn) as (value & -> & Hne & Hback). unfold countedRefund.
  change (readString (asRecord _) "status") with (Some status). destruct (decide (status = js "CANCELLED" \/ _)) as [Hs|Hs].
  - rewrite decide_True; [done|]. destruct Hs as [->| ->]; auto.
  - rewrite decide_False by (intros [[= H]|[= H]]; apply Hs; auto).
    change (readString (asRecord (jsonField (asRecord _) "amount")) "value") with (Some (js value)). rewrite js_shown by done.
    change (readString (asRecord (jsonField (asRecord _) "amount")) "currency_code") with (Some (js c)).
    change (default (js c) (Some (js c))) with (js c). by rewrite !ofText_js, Hback.
Qed.

Lemma sumRefunds_reads c refunds total : isCurrency c = true -> Forall (fun r : JSText * Z => 0 <= r.2 <= MAX_SAFE_INTEGER) refunds ->
  foldl (fun total entry =>
    match total with
    | inl e => inl e
    | inr total => match countedRefund (js c) entry with inl e => inl e | inr n => inr (total + n) end
    end) (inr total) ((fun r => JObject [("status", JString r.1); ("amount", moneyJson c r.2)]%string) <$> refunds) =
  inr (total + foldr (fun r total => (if decide (r.1 = js "CANCELLED" \/ r.1 = js "FAILED") then 0 else r.2) + total) 0 refunds).
Proof.
  intros Hc Hall. revert total. induction Hall as [|[status n] refunds Hn _ IH]; intros total; [cbn; f_equal; lia|].
  rewrite fmap_cons. cbn [foldl fst snd]. rewrite countedRefund_reads by done. rewrite IH. cbn [foldr fst snd]. f_equal. lia.
Qed.

Lemma orderJson_reads o : order_ok o ->
  toPayment (orderJson o) =
  inr ({| p_id := ofText (po_id o); p_provider := Paypal;
          p_status := mapStatus (po_status o) (snd <$> po_capture o) (amountMinor (po_money o)) (refunded o);
          p_amount := po_money o; p_amountRefunded := {| amountMinor := refunded o; currency := currency (po_money o) |};
          p_reference := ofText (po_reference o) |}, None).
Proof.
  intros [Hid Hst Hc Hall]. apply Forall_cons in Hall as [Ha Hr]. rewrite Forall_fmap in Hr.
  destruct (moneyJson_reads _ _ Hc Ha) as (value & Hm & Hne & Hback).
  assert (sumRefunds (asRecord (orderJson o)) (js (currency (po_money o))) = inr (refunded o)) as Hsum by apply (sumRefunds_reads _ _ 0 Hc Hr).
  assert (readString (asRecord (firstCapture (orderJson o))) "status" = snd <$> po_capture o) as Hcap.
  { unfold orderJson. by destruct (po_capture o) as [[id status]|]. }
  unfold toPayment. rewrite Hcap.
  change (readString (asRecord (orderJson o)) "id") with (Some (po_id o)). change (readString (asRecord (orderJson o)) "status") with (Some (po_status o)).
  change (jsonField (purchaseUnit (asRecord (orderJson o))) "amount") with (moneyJson (currency (po_money o)) (amountMinor (po_money o))). rewrite Hm.
  change (readString (asRecord (amountJson _ _)) "currency_code") with (Some (js (currency (po_money o)))).
  change (readString (asRecord (amountJson _ _)) "value") with (Some (js value)).
  change (readString (purchaseUnit (asRecord (orderJson o))) "reference_id") with (Some (po_reference o)).
  change (approvalAction (asRecord (orderJson o))) with (@None JSText).
  rewrite !js_shown; [|done|by intros E; rewrite E in Hc]. destruct (po_id o) as [|c1 t1]; [done|]. destruct (po_status o) as [|c2 t2]; [done|]. cbn [shown].
  rewrite !ofText_js, Hback. cbn [ofMoney]. rewrite Hsum. cbn [ofMoney amountMinor currency default]. destruct (po_money o). by case_decide.
Qed.

Lemma orderJson_capture o : readString (asRecord (firstCapture (orderJson o))) "id" = fst <$> po_capture o.
Proof. unfold orderJson. by destruct (po_capture o) as [[id status]|]. Qed.

Lemma mapStatus_refundable orderStatus captureStatus amount refunded :
  ~ (mapStatus orderStatus captureStatus amount refunded <> Succeeded /\ mapStatus orderStatus captureStatus amount refunded <> PartiallyRefunded) ->
  orderStatus = js "COMPLETED".
Proof.
  intros H. destruct (decide (orderStatus = js "COMPLETED")) as [|Hne]; [done|]. destruct H. unfold mapStatus.
  repeat case_decide; done.
Qed.

(** ** The provider *)

Section Provider.
(** The network with its clock, and the settings. *)
Context {Net : Type} (http : PaypalRequest -> Net -> (HttpError + HttpJsonResponse) * Net) (now : Net -> Z).
Context (basic : JSText -> JSText -> JSText) (clientId clientSecret : option JSText).

(** A request, and what came back. *)
Definition Exchange : Type := PaypalRequest * (HttpError + HttpJsonResponse).

(** [pp_log]: the exchanges so far. *)
Record Paypal_ := { pp_net : Net; pp_token : option (JSText * Q); pp_log : list Exchange }.

Definition paypal_request (r : PaypalRequest) : Eff Paypal_ PaypalError HttpJsonResponse := fun w =>
  let '(answer, net) := http r (pp_net w) in
  (match answer with inl e => inl (HttpFailed e) | inr response => inr response end,
   {| pp_net := net; pp_token := pp_token w; pp_log := pp_log w ++ [(r, answer)] |}).

Definition failWith {A} (e : PaypalError) : Eff Paypal_ PaypalError A := fun w => (inl e, w).
Definition lift {A} (r : PaypalError + A) : Eff Paypal_ PaypalError A := fun w => (r, w).

Definition requireCredentials : PaypalError + (JSText * JSText) :=
  match shown clientId, shown clientSecret with
  | Some id, Some secret => inr (id, secret)
  | _, _ => inl PaymentProviderNotConfiguredError
  end.

Definition isConfigured : bool := bool_decide (is_Some clientId) && bool_decide (is_Some clientSecret).

(** [expires_in] where it is a positive number of seconds, in milliseconds. *)
Definition ttlMs (body : Fields) : Q :=
  match readNumber body "expires_in" with
  | Some (m, e) => if decide (0 < m) then inject_Z (m * 1000) * Qpower 2 e else inject_Z 300000
  | None => inject_Z 300000
  end.

Definition mintToken : Eff Paypal_ PaypalError JSText :=
  let! credentials := lift requireCredentials in
  let! response := paypal_request {| rq_endpoint := TokenEndpoint; rq_post := true; rq_authorization := js "Basic " ++ basic credentials.1 credentials.2;
                              rq_body := None; rq_requestId := None; rq_idempotent := Some true |} in
  if hr_ok response then
    let body := asRecord (hr_body response) in
    match shown (readString body "access_token") with
    | None => failWith (PaymentProviderError (js "PayPal returned no access token") None 502)
    | Some token => fun w =>
        (inr token, {| pp_net := pp_net w; pp_token := Some (token, inject_Z (now (pp_net w)) + ttlMs body)%Q; pp_log := pp_log w |})
    end
  else failWith (upstreamError (hr_status response) (hr_body response)).

Definition TOKEN_REFRESH_MARGIN_MS : Z := 60000.

Definition accessToken : Eff Paypal_ PaypalError JSText := fun w =>
  match pp_token w with
  | Some (token, expiresAt) =>
      if Qle_bool (expiresAt - inject_Z TOKEN_REFRESH_MARGIN_MS) (inject_Z (now (pp_net w))) then mintToken w else (inr token, w)
  | None => mintToken w
  end.

Definition bearer (token : JSText) : JSText := js "Bearer " ++ token.

Definition send (endpoint : Endpoint) (body : JsonValue) (requestId : option JSText) (paymentId : option string) : Eff Paypal_ PaypalError JsonValue :=
  let! token := accessToken in
  let! response := paypal_request {| rq_endpoint := endpoint; rq_post := true; rq_authorization := bearer token; rq_body := Some body;
                              rq_requestId := requestId; rq_idempotent := Some (bool_decide (is_Some requestId)) |} in
  if hr_ok response then ret (hr_body response)
  else match hr_status response, paymentId with
       | 404, Some paymentId => failWith (Refused (PaymentNotFoundError Paypal paymentId))
       | status, _ =>
           let issue := firstIssue (hr_body response) in
           if decide (issue = Some (js "ORDER_NOT_APPROVED") \/ issue = Some (js "ORDER_ALREADY_CAPTURED")) then
             failWith (Refused (PaymentStateError Paypal
               ("PayPal rejected the request on " +:+ default (pathOf endpoint) paymentId +:+ ": " +:+ ofText (default [] issue))))
           else failWith (upstreamError status (hr_body response))
       end.

Definition paypal_findOrder (paymentId : string) : Eff Paypal_ PaypalError (option JsonValue) :=
  let! token := accessToken in
  let! response := paypal_request {| rq_endpoint := OrderEndpoint paymentId; rq_post := false; rq_authorization := bearer token; rq_body := None;
                              rq_requestId := None; rq_idempotent := None |} in
  if decide (hr_status response = 404) then ret None
  else if hr_ok response then ret (Some (hr_body response))
  else failWith (upstreamError (hr_status response) (hr_body response)).

Definition paypal_authorize (input : CreatePaymentInput) : Eff Paypal_ PaypalError (Payment * option JSText) :=
  let! amount := lift (ofMoney (normaliseMoney (ci_amount input))) in
  let! value := lift (ofMoney (toDecimalString (amount_of amount))) in
  let! body := send OrdersEndpoint (orderRequest input amount value) (Some (js "authorize:" ++ ci_reference input)) None in
  lift (toPayment body).

Definition paypal_capture (paymentId : string) : Eff Paypal_ PaypalError (Payment * option JSText) :=
  let! body := send (CaptureEndpoint paymentId) (JObject []) (Some (js "capture:" ++ js paymentId)) (Some paymentId) in
  lift (toPayment body).

Definition paypal_find (paymentId : string) : Eff Paypal_ PaypalError (option (Payment * option JSText)) :=
  let! order := paypal_findOrder paymentId in
  match order with
  | None => ret None
  | Some order => let! payment := lift (toPayment order) in ret (Some payment)
  end.

(** The end of [refund]: the order is read again. *)
Definition refreshed (paymentId : string) : Eff Paypal_ PaypalError (Payment * option JSText) :=
  let! order := paypal_findOrder paymentId in
  match order with
  | None => failWith (Refused (PaymentNotFoundError Paypal paymentId))
  | Some order => lift (toPayment order)
  end.

Definition paypal_refund (paymentId : string) (amount : option Amount) : Eff Paypal_ PaypalError (Payment * option JSText) :=
  let! found := paypal_findOrder paymentId in
  match found with
  | None => failWith (Refused (PaymentNotFoundError Paypal paymentId))
  | Some order =>
      let! existing := lift (toPayment order) in
      let! refundAmount := lift (ofPayment (resolveRefundAmount existing.1 amount)) in
      match shown (readString (asRecord (firstCapture order)) "id") with
      | None => failWith (Refused (PaymentStateError Paypal ("Payment " +:+ paymentId +:+ " has no capture to refund against")))
      | Some captureId =>
          let! value := lift (ofMoney (toDecimalString (amount_of refundAmount))) in
          let! _ := send (RefundEndpoint captureId) (JObject [("amount", amountJson (currency refundAmount) value)]%string) None (Some paymentId) in
          refreshed paymentId
      end
  end.

(** ** What a refund may cost *)

Definition isRefund (x : Exchange) : bool := match rq_endpoint x.1 with RefundEndpoint _ => true | _ => false end.

(** What [m] added to the exchanges. *)
Definition adds {A} (m : Eff Paypal_ PaypalError A) (P : list Exchange -> Prop) : Prop := forall w, exists log, pp_log (m w).2 = pp_log w ++ log /\ P log.

Definition quiet (log : list Exchange) : Prop := filter (fun x => isRefund x = true) log = [].

Lemma quiet_app l k : quiet l -> quiet k -> quiet (l ++ k).
Proof. unfold quiet. intros Hl Hk. by rewrite filter_app, Hl, Hk. Qed.

(** Only tokens were asked for. *)
Definition tokens (log : list Exchange) : Prop := Forall (fun x => rq_endpoint x.1 = TokenEndpoint) log.

Lemma tokens_quiet l : tokens l -> quiet l.
Proof. unfold quiet. induction 1 as [|x l Hx _ IH]; [done|]. rewrite filter_cons_False; [done|]. unfold isRefund. by rewrite Hx. Qed.

Lemma mintToken_tokens : adds mintToken tokens.
Proof.
  intros w. unfold mintToken, bind, lift. destruct requireCredentials as [e|[id secret]]; [exists []; rewrite app_nil_r; split; [done|constructor]|].
  unfold paypal_request. destruct (http _ (pp_net w)) as [[e|response] net]; cbn; [|destruct (hr_ok response); [destruct (shown _)|]];
    (eexists; split; [reflexivity|by repeat constructor]).
Qed.

Lemma accessToken_tokens : adds accessToken tokens.
Proof.
  intros w. unfold accessToken. destruct (pp_token w) as [[token expiresAt]|]; [|apply mintToken_tokens].
  destruct (Qle_bool _ _); [apply mintToken_tokens|]. exists []. rewrite app_nil_r. split; [done|constructor].
Qed.

(** The request that reads an order. *)
Definition readOrder (paymentId : string) (token : JSText) : PaypalRequest :=
  {| rq_endpoint := OrderEndpoint paymentId; rq_post := false; rq_authorization := bearer token; rq_body := None;
     rq_requestId := None; rq_idempotent := None |}.

(** [findOrder] reads the order last, and what it returns is what came back. *)
Lemma paypal_findOrder_log id w :
  exists log, pp_log (paypal_findOrder id w).2 = pp_log w ++ log /\ quiet log /\
    forall order, (paypal_findOrder id w).1 = inr (Some order) ->
      exists before token response, log = before ++ [(readOrder id token, inr response)] /\ hr_ok response = true /\ hr_body response = order.
Proof.
  unfold paypal_findOrder, bind. destruct (accessToken_tokens w) as (log & Hs & Hq%tokens_quiet).
  destruct (accessToken w) as [[e|token] w1]; [by exists log|].
  cbn in Hs. unfold paypal_request. fold (readOrder id token). destruct (http (readOrder id token) (pp_net w1)) as [answer net].
  exists (log ++ [(readOrder id token, answer)]). split_and!.
  - rewrite app_assoc, <-Hs. destruct answer as [e|response]; [done|]. case_decide; [done|]. by destruct (hr_ok response).
  - by apply quiet_app.
  - intros order. destruct answer as [e|response]; [done|]. case_decide; [done|]. destruct (hr_ok response) eqn:Hok; [|done].
    intros [= <-]. by exists log, token, response.
Qed.

Lemma refreshed_quiet id : adds (refreshed id) quiet.
Proof.
  intros w. unfold refreshed, bind. destruct (paypal_findOrder_log id w) as (log & Hs & Hq & _).
  destruct (paypal_findOrder id w) as [[e|[order|]] w1]; by exists log.
Qed.

Definition refundRequest (captureId : JSText) (m : Money) (value : string) (token : JSText) : PaypalRequest :=
  {| rq_endpoint := RefundEndpoint captureId; rq_post := true; rq_authorization := bearer token;
     rq_body := Some (JObject [("amount", amountJson (currency m) value)]%string); rq_requestId := None; rq_idempotent := Some false |}.

Lemma send_refund captureId m value id w :
  exists log, pp_log (send (RefundEndpoint captureId) (JObject [("amount", amountJson (currency m) value)]%string) None (Some id) w).2 = pp_log w ++ log /\
    (quiet log \/ exists before token answer, tokens before /\ log = before ++ [(refundRequest captureId m value token, answer)]).
Proof.
  unfold send, bind. destruct (accessToken_tokens w) as (log & Hs & Hq).
  destruct (accessToken w) as [[e|token] w1]; [exists log; auto using tokens_quiet|].
  cbn [snd] in Hs. unfold paypal_request. change (bool_decide (is_Some None)) with false. fold (refundRequest captureId m value token).
  destruct (http (refundRequest captureId m value token) (pp_net w1)) as [answer net].
  exists (log ++ [(refundRequest captureId m value token, answer)]). split; [|right; by exists log, token, answer].
  rewrite app_assoc, <-Hs. destruct answer as [e|response]; [done|]. destruct (hr_ok response); [done|]. repeat case_match; done.
Qed.

Lemma refund_amount_bounds p amount m value :
  resolveRefundAmount p amount = inr m -> toDecimalString (amount_of m) = inr value ->
  0 < amountMinor m <= amountMinor (p_amount p) - amountMinor (p_amountRefunded p) /\ Idempotency.toUpperCase (currency m) = Idempotency.toUpperCase (currency (p_amount p)) /\
  ~ (p_status p <> Succeeded /\ p_status p <> PartiallyRefunded) /\
  match amount with
  | Some a => normaliseMoney a = inr m
  | None => m = {| amountMinor := amountMinor (p_amount p) - amountMinor (p_amountRefunded p); currency := currency (p_amount p) |}
  end /\
  exists m', fromDecimalString value (currency m) = inr m' /\ amountMinor m' = amountMinor m.
Proof.
  intros Hr Hv. assert (exists m', normaliseMoney (amount_of m) = inr m') as [m' Hm].
  { unfold toDecimalString in Hv. destruct (normaliseMoney (amount_of m)); [done|by eexists]. }
  destruct (normaliseMoney_inr _ _ Hm) as (_ & _ & Hw & Hb). injection Hw as Hw. destruct (money_roundtrip _ _ Hm) as (s & Hs & Hback).
  rewrite Hv in Hs. injection Hs as <-. unfold resolveRefundAmount in Hr. case_decide as Hst; [done|].
  destruct (match amount with Some _ => _ | None => _ end) as [|q] eqn:Hq; [done|].
  destruct (sameCurrency q (p_amount p)) eqn:Hc; [|done]. cbn [negb] in Hr. repeat case_decide; try done. injection Hr as ->.
  unfold sameCurrency in Hc. apply bool_decide_eq_true in Hc.
  split_and!; [lia|lia|done|done| |by exists m']. destruct amount as [a|]; [done|]. by injection Hq as <-.
Qed.

(** What a refund of [m], asked for as [amount], may be for an order. *)
Record allowed (o : PaypalOrder) (amount : option Amount) (captureId : JSText) (m : Money) : Prop := {
  al_completed : po_status o = js "COMPLETED";
  al_capture : exists status, po_capture o = Some (captureId, status);
  al_currency : currency m = currency (po_money o);
  al_balance : 0 < amountMinor m <= amountMinor (po_money o) - refunded o;
  al_amount : match amount with
    | Some a => normaliseMoney a = inr m
    | None => amountMinor m = amountMinor (po_money o) - refunded o
    end;
}.

Lemma refund_allowed o existing amount m value captureId :
  order_ok o -> toPayment (orderJson o) = inr existing -> resolveRefundAmount existing.1 amount = inr m ->
  toDecimalString (amount_of m) = inr value -> shown (readString (asRecord (firstCapture (orderJson o))) "id") = Some captureId ->
  allowed o amount captureId m.
Proof.
  intros Ho Hp Hr Hv Hc. rewrite orderJson_reads in Hp by done. injection Hp as <-.
  destruct (refund_amount_bounds _ _ _ _ Hr Hv) as (Hb & Hcur & Hst & Ha & _). cbn in *. split; [by eapply mapStatus_refundable| | |done|].
  - rewrite orderJson_capture in Hc. destruct (po_capture o) as [[id status]|]; [|done]. cbn in Hc.
    destruct id; [done|]. injection Hc as <-. by exists status.
  - destruct amount as [a|]; [|by subst m]. apply normaliseMoney_inr in Ha as (_ & Hm & _).
    rewrite (toUpperCase_upper _ Hm), (toUpperCase_upper _ (ook_currency _ Ho)) in Hcur. done.
  - destruct amount as [a|]; [done|]. by subst m.
Qed.

End Provider.

(** The full representation of an order reads as what it says: its amount, the
    refunds that moved money, and the status that follows from them. *)
Theorem paypal_reads_order o : order_ok o ->
  toPayment (orderJson o) =
  inr ({| p_id := ofText (po_id o); p_provider := Paypal;
          p_status := mapStatus (po_status o) (snd <$> po_capture o) (amountMinor (po_money o)) (refunded o);
          p_amount := po_money o; p_amountRefunded := {| amountMinor := refunded o; currency := currency (po_money o) |};
          p_reference := ofText (po_reference o) |}, None).
Proof. apply orderJson_reads. Qed.

(** ** Examples *)

Definition sample_order : PaypalOrder :=
  {| po_id := js "5O1"; po_status := js "COMPLETED"; po_money := {| amountMinor := 1250; currency := "EUR" |}; po_reference := js "order-1";
     po_capture := Some (js "3C6", js "COMPLETED"); po_refunds := [(js "COMPLETED", 250); (js "FAILED", 1000)] |}.

Lemma paypal_reads_order_witness :
  exists p, toPayment (orderJson sample_order) = inr (p, None) /\ p_status p = PartiallyRefunded /\ amountMinor (p_amountRefunded p) = 250.
Proof.
  eexists. split; [apply (paypal_reads_order sample_order)|vm_compute; split; reflexivity].
  split; [discriminate|discriminate|reflexivity|]. repeat constructor; vm_compute; discriminate.
Defined.

(** What PayPal answers a created order with unless it is asked for the full
    representation: id, status and links. *)
Definition minimalOrder : JsonValue :=
  JObject [("id", JString (js "5O1")); ("status", JString (js "PAYER_ACTION_REQUIRED"));
           ("links", JArray [JObject [("rel", JString (js "payer-action")); ("href", JString (js "https://paypal.test/5O1"))]])]%string.

Definition minimal_http (r : PaypalRequest) (net : unit) : (HttpError + HttpJsonResponse) * unit :=
  (inr {| hr_status := 200; hr_ok := true; hr_retryAfterMs := None;
          hr_body := match rq_endpoint r with
                     | TokenEndpoint => JObject [("access_token", JString (js "t"))]%string
                     | _ => minimalOrder
                     end |}, net).

(** The order exists, and the caller is told of a failure. *)
Example minimal_order_is_refused :
  let input := {| ci_amount := {| raw_amountMinor := Payments.Whole 1250; raw_currency := "EUR" |}; ci_reference := js "order-1"; ci_description := None;
                  ci_returnUrl := None; ci_cancelUrl := None; ci_customerEmail := None |} in
  let '(answer, w) := paypal_authorize minimal_http (fun _ => 0) (fun _ _ => []) (Some (js "id")) (Some (js "secret")) input
                        {| pp_net := tt; pp_token := None; pp_log := [] |} in
  answer = inl (PaymentProviderError (js "PayPal returned an order without id, status or purchase amount") None 502) /\
  (fun x => rq_endpoint x.1) <$> pp_log w = [TokenEndpoint; OrdersEndpoint].
Proof. vm_compute. split; reflexivity. Qed.

(** An empty client id counts as configured, and every call is refused. *)
Example empty_client_id_is_configured :
  isConfigured (Some []) (Some (js "secret")) = true /\ requireCredentials (Some []) (Some (js "secret")) = inl PaymentProviderNotConfiguredError.
Proof. split; reflexivity. Qed.

Definition sample_http (r : PaypalRequest) (net : unit) : (HttpError + HttpJsonResponse) * unit :=
  (inr {| hr_status := 200; hr_ok := true; hr_retryAfterMs := None;
          hr_body := match rq_endpoint r with
                     | TokenEndpoint => JObject [("access_token", JString (js "t"))]%string
                     | _ => orderJson sample_order
                     end |}, net).

(** What an exchange was for, and what came back. *)
Definition exchanged (x : Exchange) : Endpoint * option JsonValue := (rq_endpoint x.1, match x.2 with inl _ => None | inr r => Some (hr_body r) end).

