(* ===== verification/StripePayments.v ===== *)
(** * StripePayments: the Stripe gateway

    [src/src/payments/providers/stripe-payment.provider.ts] over the resilient
    HTTP client, which is a parameter as in [PaypalPayments].  A form is the list
    of its fields.  Stripe's amounts are integers; of a refunded total that were
    none, the model keeps the whole part. *)

From S2P Require Import Prelude Text Json Idempotency HttpClient Payments Storage Notifications PaypalPayments.
#[local] Open Scope Z_scope.

(** ** Reading an intent *)

(** The double [m * 2 ^ e]: its whole part, and whether it is more. *)
Definition wholePart (number : Z * Z) : Z := let '(m, e) := number in Z.shiftl m e.

Definition numberOf (number : Z * Z) : Payments.Number :=
  if number_is (wholePart number) number then Payments.Whole (wholePart number) else Payments.NotWhole "".

Definition stripeStatus (rawStatus : JSText) (amountMinor refundedMinor : Z) : PaymentStatus :=
  if decide (rawStatus ∈ [js "requires_payment_method"; js "requires_confirmation"; js "requires_action"]) then RequiresAction
  else if decide (rawStatus = js "requires_capture") then Authorized
  else if decide (rawStatus = js "processing") then Processing
  else if decide (rawStatus = js "canceled") then Canceled
  else if decide (rawStatus = js "succeeded") then
    if decide (refundedMinor <= 0) then Succeeded
    else if decide (amountMinor <= refundedMinor) then Refunded else PartiallyRefunded
  else Failed_.

(** The payment, and the secret with which the client confirms it. *)
Definition intentPayment (body : JsonValue) : PaypalError + (Payment * option JSText) :=
  let intent := asRecord body in
  match shown (readString intent "id"), shown (readString intent "status"), readNumber intent "amount", shown (readString intent "currency") with
  | Some id, Some rawStatus, Some amountMinor_, Some currency_ =>
      match ofMoney (normaliseMoney {| raw_amountMinor := numberOf amountMinor_; raw_currency := toUpperCase (ofText currency_) |}) with
      | inl e => inl e
      | inr amount =>
          let charge := asRecord (jsonField intent "latest_charge") in
          let refundedMinor := match readNumber charge "amount_refunded" with Some n => wholePart n | None => 0 end in
          let status := stripeStatus rawStatus (amountMinor amount) refundedMinor in
          inr ({| p_id := ofText id; p_provider := Stripe; p_status := status; p_amount := amount;
                  p_amountRefunded := {| amountMinor := refundedMinor; currency := currency amount |};
                  p_reference := ofText (default [] (readString (asRecord (jsonField intent "metadata")) "reference")) |},
               if decide (status = RequiresAction) then shown (readString intent "client_secret") else None)
      end
  | _, _, _, _ => inl (PaymentProviderError (js "Stripe returned a payment intent without id, status, amount or currency") None 502)
  end.

Definition mapErrorStatus (status : Z) (error : Fields) : Z :=
  if decide (readString error "type" = Some (js "card_error")) then 402 else if decide (status = 429) then 503 else 502.

Definition stripeError (status : Z) (body : JsonValue) : PaypalError :=
  let error := asRecord (jsonField (asRecord body) "error") in
  PaymentProviderError (default (js "Stripe request failed with status " ++ js (pretty status)) (readString error "message"))
    (match readString error "code" with Some c => Some c | None => readString error "type" end) (mapErrorStatus status error).

(** ** Requests *)

Inductive StripePath := IntentsPath | IntentPath (id : string) | CapturePath (id : string) | RefundsPath.

Record StripeRequest := {
  st_path : StripePath;
  st_post : bool;
  st_secretKey : JSText;
  st_version : option JSText;
  st_form : list (string * JSText);
  st_idempotencyKey : option JSText;
  st_idempotent : option bool }.

Definition setField (key : string) (t : option JSText) : list (string * JSText) := match shown t with Some t => [(key, t)] | None => [] end.

(** The letters of a normalised currency, in lower case. *)
Definition lowerCase (t : JSText) : JSText := lowerUnit <$> t.

Definition intentForm (input : CreatePaymentInput) (amount : Money) : list (string * JSText) :=
  [("amount", js (pretty (amountMinor amount))); ("currency", lowerCase (js (currency amount))); ("capture_method", js "manual");
   ("automatic_payment_methods[enabled]", js "true"); ("metadata[reference]", ci_reference input); ("expand[]", js "latest_charge")]%string ++
  setField "description" (ci_description input) ++ setField "receipt_email" (ci_customerEmail input).

Definition refundForm (paymentId : string) (m : Money) : list (string * JSText) :=
  [("payment_intent", js paymentId); ("amount", js (pretty (amountMinor m)))]%string.

(** ** The provider *)

Section Provider.
Context {Net : Type} (http : StripeRequest -> Net -> (HttpError + HttpJsonResponse) * Net).
Context (secretKey apiVersion : option JSText).

Record Stripe_ := { sp_net : Net; sp_sent : list StripeRequest }.

Definition stripeRequest (r : StripeRequest) : Eff Stripe_ PaypalError HttpJsonResponse := fun w =>
  let '(answer, net) := http r (sp_net w) in
  (match answer with inl e => inl (HttpFailed e) | inr response => inr response end, {| sp_net := net; sp_sent := sp_sent w ++ [r] |}).

Definition stripeLift {A} (r : PaypalError + A) : Eff Stripe_ PaypalError A := fun w => (r, w).

Definition requireKey : PaypalError + JSText := match shown secretKey with Some key => inr key | None => inl PaymentProviderNotConfiguredError end.

Definition stripe_send (path : StripePath) (form : list (string * JSText)) (key : option JSText) (paymentId : option string) :
    Eff Stripe_ PaypalError JsonValue :=
  let! secret := stripeLift requireKey in
  let! response := stripeRequest {| st_path := path; st_post := true; st_secretKey := secret; st_version := shown apiVersion; st_form := form;
                                    st_idempotencyKey := key; st_idempotent := Some (bool_decide (is_Some key)) |} in
  if hr_ok response then ret (hr_body response)
  else match hr_status response, paymentId with
       | 404, Some paymentId => stripeLift (inl (Refused (PaymentNotFoundError Stripe paymentId)))
       | status, _ =>
           let error := asRecord (jsonField (asRecord (hr_body response)) "error") in
           if decide (readString error "code" = Some (js "payment_intent_unexpected_state")) then
             stripeLift (inl (Refused (PaymentStateError Stripe
               match readString error "message" with
               | Some message => ofText message
               | None => "Payment " +:+ default "" paymentId +:+ " is not in a state Stripe will accept for this operation"
               end)))
           else stripeLift (inl (stripeError status (hr_body response)))
       end.

Definition stripe_find (paymentId : string) : Eff Stripe_ PaypalError (option (Payment * option JSText)) :=
  let! secret := stripeLift requireKey in
  let! response := stripeRequest {| st_path := IntentPath paymentId; st_post := false; st_secretKey := secret; st_version := shown apiVersion;
                                    st_form := [("expand[]", js "latest_charge")]%string; st_idempotencyKey := None; st_idempotent := None |} in
  if decide (hr_status response = 404) then ret None
  else if hr_ok response then let! payment := stripeLift (intentPayment (hr_body response)) in ret (Some payment)
  else stripeLift (inl (stripeError (hr_status response) (hr_body response))).

Definition stripe_authorize (input : CreatePaymentInput) : Eff Stripe_ PaypalError (Payment * option JSText) :=
  let! amount := stripeLift (ofMoney (normaliseMoney (ci_amount input))) in
  let! body := stripe_send IntentsPath (intentForm input amount) (Some (js "authorize:" ++ ci_reference input)) None in
  stripeLift (intentPayment body).

Definition stripe_capture (paymentId : string) : Eff Stripe_ PaypalError (Payment * option JSText) :=
  let! body := stripe_send (CapturePath paymentId) [("expand[]", js "latest_charge")]%string None (Some paymentId) in
  stripeLift (intentPayment body).

(** [find] for a payment that has to be there. *)
Definition foundPayment (paymentId : string) : Eff Stripe_ PaypalError (Payment * option JSText) :=
  let! found := stripe_find paymentId in
  stripeLift (match found with Some payment => inr payment | None => inl (Refused (PaymentNotFoundError Stripe paymentId)) end).

Definition stripe_refund (paymentId : string) (amount : option Amount) : Eff Stripe_ PaypalError (Payment * option JSText) :=
  let! existing := foundPayment paymentId in
  let! requested := stripeLift (ofPayment (resolveRefundAmount existing.1 amount)) in
  let! _ := stripe_send RefundsPath (refundForm paymentId requested) None (Some paymentId) in
  foundPayment paymentId.

(** ** What a refund may cost *)

Definition isStripeRefund (r : StripeRequest) : bool := match st_path r with RefundsPath => true | _ => false end.

Definition stripe_quiet (sent : list StripeRequest) : Prop := filter (fun r => isStripeRefund r = true) sent = [].

(** A payment that an intent was read as. *)
Definition intentRead (paymentId : string) (p : Payment * option JSText) : Prop := exists r net response net',
  st_path r = IntentPath paymentId /\ http r net = (inr response, net') /\ intentPayment (hr_body response) = inr p.

Lemma foundPayment_spec id w :
  exists sent, sp_sent (foundPayment id w).2 = sp_sent w ++ sent /\ stripe_quiet sent /\
    forall p, (foundPayment id w).1 = inr p -> intentRead id p.
Proof.
  unfold foundPayment, stripe_find, bind, stripeLift. destruct requireKey as [e|secret]; [exists []; by rewrite app_nil_r|].
  set (r := {| st_path := _ |}). exists [r]. unfold stripeRequest. destruct (http r (sp_net w)) as [[e|response] net] eqn:Hh; [done|].
  case_decide; [done|]. destruct (hr_ok response); [|done]. destruct (intentPayment (hr_body response)) as [e|p] eqn:Hp; [done|].
  cbn. split_and!; [done|done|]. intros p' [= <-]. by exists r, (sp_net w), response, net.
Qed.

Lemma stripe_send_one path form key id w :
  exists sent, sp_sent (stripe_send path form key id w).2 = sp_sent w ++ sent /\
    (sent = [] \/ exists r, sent = [r] /\ st_path r = path /\ st_form r = form /\ st_idempotent r = Some (bool_decide (is_Some key))).
Proof.
  unfold stripe_send, bind, stripeLift. destruct requireKey as [e|secret]; [exists []; rewrite app_nil_r; auto|].
  set (r := {| st_path := _ |}). exists [r]. split; [|right; by exists r].
  unfold stripeRequest. destruct (http r (sp_net w)) as [[e|response] net]; [done|]. destruct (hr_ok response); [done|]. by repeat case_match.
Qed.

Lemma intent_balance body p : intentPayment body = inr p -> (p_status p.1 = Succeeded \/ p_status p.1 = PartiallyRefunded) ->
  amountMinor (p_amountRefunded p.1) <= amountMinor (p_amount p.1).
Proof.
  unfold intentPayment. destruct (shown _); [|done]. destruct (shown _); [|done]. destruct (readNumber _ _); [|done]. destruct (shown _); [|done].
  destruct (normaliseMoney _) as [|amount] eqn:Hn; [done|]. apply normaliseMoney_inr in Hn as (_ & _ & _ & Hb). cbn [ofMoney]. intros [= <-]. cbn.
  unfold stripeStatus. repeat case_decide; intros [H'|H']; try done; lia.
Qed.

Lemma resolve_bounds p amount m :
  resolveRefundAmount p amount = inr m ->
  ((p_status p = Succeeded \/ p_status p = PartiallyRefunded) -> amountMinor (p_amountRefunded p) <= amountMinor (p_amount p)) ->
  0 < amountMinor m <= amountMinor (p_amount p) - amountMinor (p_amountRefunded p).
Proof.
  unfold resolveRefundAmount. intros H Hs. case_decide as Hst; [done|].
  assert (amountMinor (p_amountRefunded p) <= amountMinor (p_amount p)) as Hb.
  { apply Hs. destruct (decide (p_status p = Succeeded)); [by left|]. destruct (decide (p_status p = PartiallyRefunded)); [by right|]. by destruct Hst. }
  destruct amount as [a|].
  - destruct (normaliseMoney a) as [|q] eqn:Hn; [done|]. apply normaliseMoney_inr in Hn as (_ & _ & _ & Hn).
    destruct (negb _); [done|]. repeat case_decide; try done. injection H as <-. lia.
  - match type of H with context [negb ?b] => destruct (negb b) end; [done|]. cbn [amountMinor] in H. repeat case_decide; try done.
    injection H as <-. cbn. lia.
Qed.

(** Whatever Stripe and the network answer, one call of [refund] posts at most
    one refund, which the client may not repeat, for a positive amount that the
    intent just read still has to give back. *)
Theorem stripe_refund_within_balance paymentId amount w :
  exists sent, sp_sent (stripe_refund paymentId amount w).2 = sp_sent w ++ sent /\
    (stripe_quiet sent \/ exists r existing m,
      filter (fun r => isStripeRefund r = true) sent = [r] /\ st_form r = refundForm paymentId m /\ st_idempotent r = Some false /\
      intentRead paymentId existing /\
      0 < amountMinor m <= amountMinor (p_amount existing.1) - amountMinor (p_amountRefunded existing.1)).
Proof.
  unfold stripe_refund, bind. destruct (foundPayment_spec paymentId w) as (sent & Hs & Hq & Hread).
  destruct (foundPayment paymentId w) as [[e|existing] w1]; cbn [fst snd] in *; [exists sent; auto|]. specialize (Hread existing eq_refl).
  unfold stripeLift at 1. destruct (resolveRefundAmount existing.1 amount) as [e|m] eqn:Hr; [exists sent; auto|]. cbn [ofPayment].
  destruct (stripe_send_one RefundsPath (refundForm paymentId m) None (Some paymentId) w1) as (sent1 & Hs1 & Hone).
  destruct (stripe_send _ _ _ _ w1) as [r2 w2]. cbn [snd] in Hs1.
  assert (exists sent2, stripe_quiet sent2 /\ sp_sent (match r2 with inl e => (inl e, w2) | inr _ => foundPayment paymentId w2 end).2 = sp_sent w2 ++ sent2)
    as (sent2 & Hq2 & Hs2).
  { destruct r2; [exists []; by rewrite app_nil_r|]. destruct (foundPayment_spec paymentId w2) as (sent2 & Hs2 & Hq2 & _). by exists sent2. }
  exists (sent ++ sent1 ++ sent2). split; [by rewrite Hs2, Hs1, Hs, !app_assoc|]. unfold stripe_quiet in *. rewrite !filter_app, Hq, Hq2, app_nil_r.
  destruct Hone as [->|(r & -> & Hpath & Hform & Hid)]; [by left|right]. exists r, existing, m. split_and!; [|done|done|done|apply (resolve_bounds _ _ _ Hr)..].
  - cbn. unfold isStripeRefund. by rewrite Hpath.
  - destruct Hread as (? & ? & ? & ? & _ & _ & Hp). by apply (intent_balance _ _ Hp).
  - destruct Hread as (? & ? & ? & ? & _ & _ & Hp). by apply (intent_balance _ _ Hp).
Qed.
End Provider.

(** ** Examples *)

Definition sample_intent (status : string) (refunded : Z) : JsonValue :=
  JObject [("id", JString (js "pi_1")); ("status", JString (js status)); ("amount", JNumber 1250 0); ("currency", JString (js "eur"));
           ("latest_charge", JObject [("amount_refunded", JNumber refunded 0)]); ("metadata", JObject [("reference", JString (js "order-1"))])]%string.

(** A refund of 4.00 EUR on a payment of 12.50 EUR of which 2.50 EUR were given
    back. *)
Definition stripe_http (r : StripeRequest) (refunded : Z) : (HttpError + HttpJsonResponse) * Z :=
  let refunded := if isStripeRefund r then 650 else refunded in
  (inr {| hr_status := 200; hr_ok := true; hr_retryAfterMs := None;
          hr_body := if isStripeRefund r then JObject [] else sample_intent "succeeded" refunded |}, refunded).

Example stripe_refunds_the_rest :
  let '(answer, w) := stripe_refund stripe_http (Some (js "sk")) None "pi_1"
    (Some {| raw_amountMinor := Payments.Whole 400; raw_currency := "eur" |}) {| sp_net := 250; sp_sent := [] |} in
  (exists p, answer = inr (p, None) /\ p_status p = PartiallyRefunded /\ amountMinor (p_amountRefunded p) = 650) /\
  st_form <$> filter (fun r => isStripeRefund r = true) (sp_sent w) = [[("payment_intent", js "pi_1"); ("amount", js "400")]%string].
Proof. vm_compute. split; [by eexists|reflexivity]. Qed.
